(* ===== verification/_CoqProject ===== *)
-Q . S2P
Prelude.v
Bitset.v
ByteString.v
Abseil.v
HexString.v
DecimalString.v
NetAddr.v
NetAddrText.v
IrUtils.v
SdnController.v
Takeover.v
EntityKeys.v
BuiltIns.v
TableReferences.v
IrData.v
Annotations.v
TableTypes.v
ReferenceAnnotations.v
IrProgram.v
IrRanks.v
IrTranslation.v
IrRoundtrip.v
IrReplication.v
IrProgramCorrect.v
IrCorrect.v
IrMessages.v
IrMessagesCorrect.v
IrTotal.v
Unsupported.v
Schema.v
ResourceUtilization.v
AppDb.v
AclTable.v
AppDbEntry.v
AppDbEntryCorrect.v
Hashing.v
Reconcile.v
WritePath.v
WriteCorrect.v
ReadPath.v
PortTranslation.v
SonicWrite.v
Pipeline.v
PipelineCorrect.v
PacketIo.v
PacketIoCorrect.v
StateVerification.v
References.v
Sequencing.v
Unreachable.v
BitString.v
Packet.v
PacketRoundtrip.v
PacketChecks.v
PacketUpdate.v
PacketSize.v
Checksum.v
PacketValid.v
PacketPromises.v
PacketCrash.v
