(* ===== verification/Prelude.v ===== *)
(** * PINS: the P4Runtime application of SONiC

    This library models the core of the P4Runtime server of the repository (src/p4rt_app), of the
    PDPI library it is built on (src/p4_infra) and of the packet library beside it
    (src/p4_infra/packetlib), and proves what makes them correct.

    ** The program

    A P4Runtime controller opens a stream to the server and takes part in an election per role
    (sdn_controller_manager.cc).  The primary may write: a request is a list of updates of entities
    (table entries, packet replication entries).  [P4RuntimeImpl::Write] (p4runtime_impl.cc)
    translates each update to the intermediate representation of PDPI, checks it (constraints, role,
    existence in the entity cache, capacity of the action profile), turns ports and queues into the
    names the switch uses (ir_translation.cc, queue_translator.cc), hands the batch to the
    application database (app_db_manager.cc, response_handler.cc), where the OrchAgent applies it and
    answers, and finally updates the entity cache and the resource counters from the statuses.
    Reads are answered from the same cache (p4runtime_read.cc).

    Before anything is written the controller sends a P4 program (SetForwardingPipelineConfig).  The
    server checks it against what the hardware supports (p4info_verification.cc,
    p4info_verification_schema.cc), removes what it does not support (ir.cc), publishes the definitions
    of the ACL tables (app_db_acl_def_table_manager.cc) and the hash settings (hashing.cc), and saves the
    config; a later program is reconciled with the one in force (p4info_reconcile.cc).  After a warm boot
    the entity cache is read back from the application database, whose keys and values are JSON
    (app_db_to_pdpi_ir_translator.cc and the translations beside it).  State verification compares the
    database, the state database and the cache (state_verification.cc).

    Entities refer to each other: annotations of the P4 program (annotation_parser.cc) say which
    match fields and parameters hold the key of another table, or of a built-in table
    (built_ins.cc).  From them come the references of the entities (references.cc), the order in
    which a client sends updates and the entities that nothing refers to (sequencing.cc).

    Underneath are the values: byte strings, bit strings, hexadecimal and decimal strings
    (string_encodings), network addresses (netaddr), and their formats in the intermediate
    representation (ir_utils.cc).  Packets that pass between the controller and the switch are
    parsed, checked, completed and serialized by packetlib.cc.

    ** The files

    - Prelude: outcomes of C++ code ([result]: OK, a status code, or a process abort), characters,
      wrap-around of machine integers, shared lemmas, tactics and hints.
    - Bitset: std::bitset<N> as an integer of N bits.
    - ByteString, HexString, DecimalString, BitString: p4_infra/string_encodings.  [be_value],
      [hex_value] and [dec_value] are the reference meanings of strings; conversions are related to
      them.  A bit string is the list of its remaining bits.
    - Abseil: the Abseil functions used by several parts, as a class with laws ([AbslStrings],
      [AbslStringsLaws]) and an instance [ref_absl].
    - NetAddr, NetAddrText: p4_infra/netaddr; [network_address] is the class template, [Mac], [Ipv4]
      and [Ipv6] its instances.  inet_pton and inet_ntop of libc are a class ([Inet]) with laws.
    - IrUtils: p4_infra/p4_pdpi/ir_utils.cc.
    - SdnController: sdn_controller_manager.cc and the stream handler of p4runtime_impl.cc, as a
      step relation over a heap of connections.  Every handler runs under the server lock, so a step
      is a whole handler.  Takeover: what a new controller can reach from any state.
    - EntityKeys: p4_infra/p4_pdpi/entity_keys.cc.
    - ResourceUtilization: resource_utilization.cc, in int32 and int64.
    - AppDb: app_db_manager.cc, response_handler.cc and the functions of vrf_entry_translation.cc
      and vlan_entry_translation.cc that send an update.  Statuses are cells of a memory, because
      the code keeps pointers to them in a map.
    - WritePath: [P4RuntimeImpl::Write] and the functions it calls.  WriteCorrect: what it guarantees.
    - ReadPath: p4runtime_read.cc.
    - PortTranslation: the port map of p4runtime_impl.cc, queue_translator.cc, ir_translation.cc.
    - BuiltIns: built_ins.cc.  Annotations: annotation_parser.cc.  TableReferences,
      ReferenceAnnotations: reference_annotations.cc.  References: references.cc.
    - IrData: the data of P4 programs and entities (ir.proto and the P4Runtime messages read).
      IrProgram: [CreateIrP4Info] of ir.cc; IrRanks and IrProgramCorrect: what it guarantees.
      IrTotal: that it ends; Unsupported: the removal of unsupported parts.
      IrTranslation: the translation of entities of ir.cc, in both directions; IrRoundtrip,
      IrReplication and IrCorrect: its theorems.  IrMessages: packets, read and write requests, stream
      messages and the status of a write (ir.cc); IrMessagesCorrect: its theorems.
    - TableTypes: table_utility.cc and swss_utils.cc.  AclTable: app_db_acl_def_table_manager.cc; Hashing:
      hashing.cc.  Both with the theorems on the definitions they publish.
    - AppDbEntry: the keys and values of entries, and how they are read back
      (app_db_to_pdpi_ir_translator.cc, packet_replication_entry_translation.cc,
      vrf_entry_translation.cc, vlan_entry_translation.cc); AppDbEntryCorrect: the round trips.
    - Schema: p4info_verification_schema.cc.  Reconcile: p4info_reconcile.cc and the capacities.
    - Pipeline: p4info_verification.cc, [SetForwardingPipelineConfig] and [GetForwardingPipelineConfig] of
      p4runtime_impl.cc, and the rebuild after a warm boot.  The state is a [Switch]: the server of
      WritePath, the saved config and the databases.  PipelineCorrect: its theorems.
    - StateVerification: state_verification.cc and [VerifyState].
    - PacketIo: packets between the controller and the interfaces (packetio_helpers.cc, packetio_impl.cc,
      packetio_port.cc, packetio_selectables.cc and the packet handlers of p4runtime_impl.cc).  The system
      calls are a class ([SystemCalls]) with laws ([SystemCallLaws]), with a small kernel as an instance.
      PacketIoCorrect: its theorems.
    - SonicWrite: the write requests of WritePath with the translations of IrTranslation and
      PortTranslation.
    - Sequencing: the dependency graph and the batches of sequencing.cc; Unreachable: its garbage
      collection.
    - Packet: the headers of packetlib.proto, the parsers, the raw serializers; PacketChecks: sizes,
      checksums and the reasons why a packet is invalid; PacketUpdate: computed fields, padding and
      serialization.  PacketRoundtrip, PacketSize, Checksum, PacketValid, PacketPromises and
      PacketCrash hold their theorems.

    ** What the theorems show

    - Encodings: every printer is undone by its parser, parsers accept exactly the documented
      strings, and the integers keep their width ([padded_byte_string_roundtrip],
      [bitset_hex_string_roundtrip], [decimal_roundtrip], [address_text_roundtrip],
      [ir_value_roundtrip], [bit_string_roundtrip] and others).
    - Arbitration: an invariant of the reachable states ([controller_invariant]), at most one
      connection writes per role, deposed primaries are fenced off, handlers never use a dangling
      pointer, and each handler does exactly what its abstract counterpart ([register], [elect],
      [arbitration_of]) says.
    - Application database: responses are matched with updates as a join by key would, a failed
      update is rolled back, and after a failure nothing is attempted.
    - Writes: cache and counters stay consistent, the cache changes exactly by the acknowledged
      updates, errors are reported fail-on-first, roles are isolated and capacities hold.  The
      application database is used through the class [AppDbLayerLaws]; AppDb discharges it.
    - Reads: the answer is that of a filter over the cache.
    - Translation: translating for the OrchAgent and back is the identity.
    - Programs: a program that [CreateIrP4Info] accepts is indexed consistently by id and by name,
      its definitions are well formed ([create_ir_p4info_well_formed]), every reference between
      tables is recorded at both ends ([program_references_consistent]), and the rank of a table is
      the length of the longest path of references from it ([dependency_ranks_exact]).
    - PI and IR: what is translated to the intermediate representation is translated back, to the
      message in canonical form ([pi_ir_roundtrip]), and so are the metadata of packets, with their
      padding ([packet_io_roundtrip]); the status of a write reaches the client through gRPC
      ([write_status_roundtrip]); which multicast groups are accepted
      ([multicast_groups_accepted]); the translations of the server are a model of the interface
      that the theorems on write requests are proved against ([sonic_translation_laws]).
    - Liveness: a controller that opens a stream in any reachable state and claims a high enough election id
      becomes the primary by that one request; every controller of its role is told so, once, and it stays the
      primary until a higher id is accepted ([controller_can_take_over]).
    - Pipeline: a program is accepted exactly when its tables fit the schema ([program_supported_exact]);
      removing unsupported parts does not change what is accepted ([unsupported_removed_transparent]);
      a transition is the difference of the two programs ([transition_exact]); the definitions of ACL
      tables say what their annotations ask for ([acl_definition_exact]); a request either leaves the
      server as it was or commits as its action says ([pipeline_config_outcome], for requests that do not change
      the P4Info in force), and keeps the counters and the cache consistent
      ([pipeline_preserves_consistency]); the capacities of a changed program are refused exactly when the
      weights in use do not fit ([updated_capacities_fit]).
    - Database: entries, groups, VLANs and members are read back as they were written
      ([app_db_entry_roundtrip], [sonic_tables_roundtrip]); state verification reports nothing exactly
      when the databases and the cache agree ([verify_state_exact], for multicast groups without backup
      replicas, which it does not compare).
    - Packet I/O: every descriptor is closed exactly once, while it is open, no socket is leaked, and a packet is
      written whole or an error is returned ([packet_sockets_owned]); what the socket filter keeps ([kept_bytes_spec]), which packets
      out are sent where ([packet_out_spec]), who gets a packet in ([packet_in_spec]).
    - Annotations: the parser accepts exactly a grammar, on one line of text ([annotation_grammar]).
    - References: two entities have a concrete reference in common exactly when the fields named by
      the table reference agree ([concrete_references_exact]); what an entity refers to and is not
      there is found ([unsatisfied_references_exact]).
    - Sequencing: the batches are a topological order of the dependency graph and nothing is lost;
      the loop ends.  Garbage collection of table entries reports exactly those that no path of references
      from a root reaches ([unreachable_entities_exact]; multicast groups are left out, because the code
      skips them as roots).
    - Packets: parsing loses nothing and follows the headers; a serialized packet has the size that
      was computed for it; checksums are those of RFC 1071; a packet without reasons for being
      invalid is consistent field by field, and parses back from its serialization; computed fields
      and padding change nothing else; no input makes the parser abort.

    ** Recursion and fuel

    Most loops are structural recursions over the lists they traverse.  The others take fuel:
    - the matching loop of response_handler.cc advances one of two iterators, and takes one more
      than the sum of the lengths; that this is enough is part of [responses_matched_and_rolled_back];
    - the depth-first search of [SetAndReturnTableDependencyRank] takes one round more than there are
      tables ([dependency_ranks_exact] includes that it ends);
    - the loops of sequencing.cc take one step per update of the graph ([sequencing_is_topological]
      and [unreachable_entities_exact] include that they end);
    - the loop that writes a packet to a socket takes as many rounds as the caller gives; more than the
      bytes of the packet and the interruptions to come are enough ([packet_sockets_owned]);
    - the loop of [ParsePacket] takes two more than the number of bits of the input: every header
      takes at least one bit ([parse_follows_headers]);
    - the loop that adds the carries of a checksum takes 4 rounds, which are enough for every sum of
      16-bit words of a 64 kB packet ([checksum_is_rfc1071]).

    ** What is not modelled

    Texts of error messages (no modelled code looks at them, except for the emptiness of the message
    of a status, which is kept), logs, metrics and debug dumps.  The reasons why a packet is invalid
    are a datatype, not texts.  WritePath is written
    against a class of translations ([EntityTranslation], [TranslationLaws]); SonicWrite gives the
    server's.  Protobuf, gRPC, Redis, ZMQ, boost and Abseil are
    not in the repository and are modelled by what the code uses of them.  Threads: the server's
    lock makes each operation atomic.  p4-constraints, the comparison of protobuf messages, the JSON
    library and the embedded schema file are parameters of the definitions that use them.  The
    functions that no code calls (the schema checks of app_db_acl_def_table_manager.cc,
    [AppendExtTableDefinition]) are left out.  Not modelled: the netlink receiver
    (receive_genetlink.cc), event monitoring, start-up, and the clients, generators and test infrastructure outside p4rt_app. *)

From Stdlib Require Export ZArith Lia Bool List Ascii String.
From stdpp Require Export base list gmap strings numbers sorting.

#[global] Open Scope Z_scope.

(** [std::string] and [absl::string_view] are lists of 8-bit characters. *)
Abbreviation str := (list ascii).

(** * Outcomes of fallible C++ code

    [absl::Status] and [absl::StatusOr<T>] carry a canonical code and a message.
    The code is kept, the message text is not: no code modelled here branches on it.
    [Die] is a process abort: a failed [CHECK], [LOG(FATAL)], [gutil::FindOrDie] on a
    missing key, or the dereference of a [StatusOr] that holds an error. *)

Inductive StatusCode :=
  | kCancelled | kUnknown | kInvalidArgument | kDeadlineExceeded | kNotFound
  | kAlreadyExists | kPermissionDenied | kResourceExhausted | kFailedPrecondition
  | kAborted | kOutOfRange | kUnimplemented | kInternal | kUnavailable | kDataLoss
  | kUnauthenticated.

#[global] Instance StatusCode_eq_dec : EqDecision StatusCode.
Proof. solve_decision. Defined.

Inductive result (A : Type) :=
  | Ok (a : A)
  | Err (c : StatusCode)
  | Die.
Arguments Ok {A} _.
Arguments Err {A} _.
Arguments Die {A}.

#[global] Instance result_eq_dec `{EqDecision A} : EqDecision (result A).
Proof. solve_decision. Defined.

(** [ASSIGN_OR_RETURN] and [RETURN_IF_ERROR]: stdpp's [x ← c; k] on [result]. *)
#[global] Instance result_ret : MRet result := @Ok.
#[global] Instance result_bind : MBind result := λ A B f c,
  match c with Ok a => f a | Err e => Err e | Die => Die end.
#[global] Instance result_fmap : FMap result := λ A B f c,
  match c with Ok a => Ok (f a) | Err e => Err e | Die => Die end.

Definition is_Ok {A} (r : result A) : bool :=
  match r with Ok _ => true | _ => false end.

(** The helpers of the gutil library (not part of the repository) that the code calls.  What is
    relied on: [FindOrStatus]/[FindPtrOrStatus] return the value of a present key and an error
    status otherwise, [GetOneOfFieldName] the name of the field set in a protobuf [oneof] and an
    error when none is set, [FindOrDie] the value or a crash, [InsertIfUnique] inserts under a new key
    and is an error otherwise.  The codes of the errors are parameters. *)
Class Gutil := {
  missing_key_code : StatusCode;
  oneof_not_set_code : StatusCode;
  not_unique_code : StatusCode;
}.

Definition FindOrStatus `{Gutil} {A} (o : option A) : result A :=
  match o with Some a => Ok a | None => Err missing_key_code end.

Definition GetOneOfFieldName `{Gutil} (name : option str) : result str :=
  match name with Some a => Ok a | None => Err oneof_not_set_code end.

Definition InsertIfUnique `{Gutil} `{Countable K} {A} (k : K) (a : A) (m : gmap K A) : result (gmap K A) :=
  if bool_decide (is_Some (m !! k)) then Err not_unique_code else Ok (<[k := a]> m).

Definition FindOrDie {A} (o : option A) : result A :=
  match o with Some a => Ok a | None => Die end.

(** A choice of the codes, for evaluating examples. *)
#[export] Instance ref_gutil : Gutil | 100 :=
  {| missing_key_code := kNotFound; oneof_not_set_code := kInvalidArgument;
     not_unique_code := kInvalidArgument |}.

(** A loop over a container that updates a local state and may return early with an error. *)
Fixpoint fold_result {A S} (f : S → A → result S) (l : list A) (s : S) : result S :=
  match l with
  | [] => Ok s
  | a :: l => s ← f s a; fold_result f l s
  end.

(** A loop that translates every element of a repeated field, until an error. *)
Fixpoint map_result {A B} (f : A → result B) (l : list A) : result (list B) :=
  match l with
  | [] => Ok []
  | x :: l => y ← f x; l ← map_result f l; Ok (y :: l)
  end.

Lemma is_Ok_exists {A} (r : result A) : is_Ok r = true → ∃ a, r = Ok a.
Proof. destruct r; naive_solver. Qed.

(** The value of a result that is one, for examples. *)
Definition ok_or {A} (r : result A) (a : A) : A := match r with Ok a => a | _ => a end.

Lemma ok_or_eq {A} (r : result A) a : is_Ok r = true → r = Ok (ok_or r a).
Proof. by destruct r. Qed.

Section result_lemmas.
Context {A B : Type}.
Implicit Types (c : result A) (k : A → result B).

Lemma bind_Ok_iff c k y :
  (c ≫= k) = Ok y ↔ ∃ x, c = Ok x ∧ k x = Ok y.
Proof. destruct c; cbn; naive_solver. Qed.

Lemma bind_Err_iff c k e :
  (c ≫= k) = Err e ↔ c = Err e ∨ ∃ x, c = Ok x ∧ k x = Err e.
Proof. destruct c; cbn; naive_solver. Qed.

Lemma bind_Ok_l a k : (Ok a ≫= k) = k a.
Proof. done. Qed.

Lemma FindOrStatus_Ok `{Gutil} (o : option A) a : FindOrStatus o = Ok a ↔ o = Some a.
Proof. destruct o; cbn; naive_solver. Qed.

Lemma InsertIfUnique_Ok `{Gutil} `{Countable K} (i : K) (a : A) m m' :
  InsertIfUnique i a m = Ok m' ↔ m !! i = None ∧ m' = <[i := a]> m.
Proof.
  unfold InsertIfUnique. rewrite eq_None_not_Some. case_bool_decide; naive_solver.
Qed.
End result_lemmas.

Lemma map_result_inverse {A} (f g : A → result A) l l' :
  (∀ x y, x ∈ l → f x = Ok y → g y = Ok x) → map_result f l = Ok l' → map_result g l' = Ok l.
Proof.
  revert l'. induction l as [|x l IH]; intros l' Hfg; [by intros [= <-]|]. cbn [map_result].
  intros (y & Hy & (l1 & Hl & [= <-])%bind_Ok_iff)%bind_Ok_iff. cbn [map_result].
  rewrite (Hfg x y); [|by left|done]. cbn [mbind result_bind].
  rewrite (IH l1); [done| |done]. intros x' y' Hin. apply Hfg. by right.
Qed.

Lemma map_result_Ok {A B} (f : A → result B) l l' : map_result f l = Ok l' ↔ Forall2 (λ x y, f x = Ok y) l l'.
Proof.
  split.
  - revert l'. induction l as [|x l IH]; intros l'; cbn [map_result]; [by intros [= <-]|].
    intros (y & Hy & (l1 & Hl & [= <-])%bind_Ok_iff)%bind_Ok_iff. constructor; auto.
  - induction 1 as [|x y l l' Hy Hl IH]; [done|]. cbn [map_result]. by rewrite Hy, bind_Ok_l, IH.
Qed.

(** Distinct elements have distinct images under an injective relation. *)
Lemma Forall2_in_l {A B} (R : A → B → Prop) l k x : Forall2 R l k → x ∈ l → ∃ y, y ∈ k ∧ R x y.
Proof.
  intros HF [i Hi]%list_elem_of_lookup. destruct (Forall2_lookup_l _ _ _ _ _ HF Hi) as (y & Hy & HR).
  exists y. split; [by apply list_elem_of_lookup_2 in Hy|done].
Qed.
Lemma Forall2_in_r {A B} (R : A → B → Prop) l k y : Forall2 R l k → y ∈ k → ∃ x, x ∈ l ∧ R x y.
Proof.
  intros HF [i Hi]%list_elem_of_lookup. destruct (Forall2_lookup_r _ _ _ _ _ HF Hi) as (x & Hx & HR).
  exists x. split; [by apply list_elem_of_lookup_2 in Hx|done].
Qed.

Lemma NoDup_Forall2_inj {A B} (R : A → B → Prop) l k :
  Forall2 R l k → (∀ x y z, R x z → R y z → x = y) → NoDup l → NoDup k.
Proof.
  intros HF Hinj. induction HF as [|x y l k Hxy HF IH]; intros Hnd; [constructor|].
  apply NoDup_cons in Hnd as [Hx Hnd]. constructor; [|auto]. intros Hy.
  apply list_elem_of_lookup in Hy as [i Hi]. destruct (Forall2_lookup_r R l k i y HF Hi) as (x' & Hx' & HR).
  apply Hx. rewrite (Hinj x x' y Hxy HR). by eapply list_elem_of_lookup_2.
Qed.

(** A set has at most as many elements as a list of them. *)
Lemma size_list_to_set_le `{Countable A} (l : list A) : (size (list_to_set l : gset A) ≤ length l)%nat.
Proof.
  induction l as [|x l IH]; [done|]. cbn [list_to_set length].
  destruct (decide (x ∈ (list_to_set l : gset A))) as [Hx|Hx].
  - rewrite subseteq_union_1_L by set_solver. lia.
  - rewrite size_union by set_solver. rewrite size_singleton. lia.
Qed.

(** The loop invariant of [fold_result]: [P done s] after the elements [done]. *)
Lemma fold_result_ind {A S} (f : S → A → result S) (P : list A → S → Prop) l s s' :
  P [] s → (∀ done x s1 s2, P done s1 → f s1 x = Ok s2 → P (done ++ [x]) s2) →
  fold_result f l s = Ok s' → P l s'.
Proof.
  intros H0 Hstep. assert (∀ done s, P done s → fold_result f l s = Ok s' → P (done ++ l) s') as H.
  { clear H0 s. induction l as [|x l IH]; intros done s Hs; cbn [fold_result].
    - intros [= <-]. by rewrite app_nil_r.
    - intros (s2 & Hx & Hl)%bind_Ok_iff. rewrite cons_middle, app_assoc. eauto. }
  exact (H [] s H0).
Qed.

(** A loop whose steps succeed succeeds. *)
Lemma fold_result_total {A S} (f : S → A → result S) l s :
  (∀ s x, x ∈ l → ∃ s', f s x = Ok s') → ∃ s', fold_result f l s = Ok s'.
Proof.
  revert s. induction l as [|x l IH]; intros s Hf; [by exists s|]. cbn [fold_result].
  destruct (Hf s x) as [s1 ->]; [by left|]. apply IH. intros s2 y Hy. apply Hf. by right.
Qed.

(** A loop that only checks its elements. *)
Lemma fold_check_Ok {A} (f : A → result unit) l :
  fold_result (λ _ x, f x) l tt = Ok tt ↔ ∀ x, x ∈ l → f x = Ok tt.
Proof.
  induction l as [|x l IH]; cbn [fold_result]; [split; [by intros _ ? ?%not_elem_of_nil|done]|].
  rewrite bind_Ok_iff. split.
  - intros ([] & Hx & Hl) y [->|Hy]%elem_of_cons; [done|]. by apply IH.
  - intros Hall. exists tt. split; [apply Hall; by left|]. apply IH. intros y Hy. apply Hall. by right.
Qed.

(** A loop that collects results in a list. *)
Lemma fold_result_list {A B} (h : A → result B) f l k :
  (∀ out x, f out x = (b ← h x; Ok (out ++ [b]))) →
  fold_result f l [] = Ok k → Forall2 (λ x b, h x = Ok b) l k.
Proof.
  intros Hf. apply (fold_result_ind f (λ done k, Forall2 (λ x b, h x = Ok b) done k)); [constructor|].
  intros done x k1 k2 Hk. rewrite Hf. intros (b & Hb & [= <-])%bind_Ok_iff.
  apply Forall2_app; auto.
Qed.

Lemma elem_of_zip_seq {A} (l : list A) i x : (i, x) ∈ zip (seq 0 (length l)) l ↔ l !! i = Some x.
Proof.
  rewrite list_elem_of_lookup. setoid_rewrite lookup_zip_with_Some. split.
  - intros (j & a & y & [= -> ->] & [Ha _]%lookup_seq & Hy). by rewrite Ha.
  - intros Hx. exists i, i, x. split; [done|]. split; [|done].
    apply lookup_seq. apply lookup_lt_Some in Hx. lia.
Qed.

Lemma NoDup_filter_bool {A} (P : A → bool) l : NoDup l → NoDup (List.filter P l).
Proof.
  induction 1 as [|x l Hx Hl IH]; cbn [List.filter]; [constructor|].
  destruct (P x); [|done]. constructor; [|done].
  by rewrite list_elem_of_In, filter_In, <-list_elem_of_In; intros [? _].
Qed.

(** [simplify_result] opens every successful bind of the hypotheses. *)
Ltac simplify_result :=
  repeat match goal with
  | H : (_ ≫= _) = Ok _ |- _ => apply bind_Ok_iff in H as (? & ? & ?)
  | H : FindOrStatus _ = Ok _ |- _ => apply FindOrStatus_Ok in H
  | H : Ok _ = Ok _ |- _ => injection H as ?; subst
  | H : Err _ = Ok _ |- _ => discriminate H
  | H : Die = Ok _ |- _ => discriminate H
  | H : Ok _ = Err _ |- _ => discriminate H
  end.

(** [compute_result] runs the binds of the goal whose first part is known to succeed. *)
Ltac compute_result :=
  repeat match goal with
  | H : ?x = Ok _ |- context [?x] => rewrite H
  | |- context [Ok ?a ≫= ?k] => change (Ok a ≫= k) with (k a); cbv beta
  end.

(** * Results that are not aborts *)

Definition no_die {A} (r : result A) : Prop := r ≠ Die.

Create HintDb no_die.

Lemma no_die_ok {A} (a : A) : no_die (Ok a).
Proof. done. Qed.
Lemma no_die_err {A} e : no_die (@Err A e).
Proof. done. Qed.
Lemma no_die_bind {A B} (c : result A) (k : A → result B) : no_die c → (∀ a, no_die (k a)) → no_die (c ≫= k).
Proof. unfold no_die. destruct c; cbn; auto. Qed.
#[export] Hint Resolve no_die_ok no_die_err : no_die.

(** By the structure of the code, down to the calls for which there is a lemma. *)
Ltac no_die := repeat first
  [ solve [auto with no_die]
  | apply no_die_bind; [|intros ?]
  | match goal with |- no_die (if ?b then _ else _) => destruct b end
  | match goal with |- no_die (match ?r with _ => _ end) => destruct r eqn:? end ].

Lemma fold_result_no_die {A S} (f : S → A → result S) l s : (∀ s a, no_die (f s a)) → no_die (fold_result f l s).
Proof. intros Hf. revert s. induction l as [|a l IH]; intros s; cbn [fold_result]; no_die. Qed.

Lemma map_result_no_die {A B} (f : A → result B) l : (∀ a, a ∈ l → no_die (f a)) → no_die (map_result f l).
Proof.
  induction l as [|a l IH]; intros Hf; cbn [map_result]; [no_die|]. apply no_die_bind; [apply Hf; by left|]. intros b.
  apply no_die_bind; [|no_die]. apply IH. intros x Hx. apply Hf. by right.
Qed.

Lemma FindOrStatus_no_die `{Gutil} {A} (o : option A) : no_die (FindOrStatus o).
Proof. by destruct o. Qed.
#[export] Hint Resolve FindOrStatus_no_die : no_die.

(** [case_if] splits on the boolean tests the models are written with. *)
Ltac case_if :=
  match goal with
  | |- context [if ?b then _ else _] => destruct b eqn:?
  | H : context [if ?b then _ else _] |- _ => destruct b eqn:?
  end.

(** Boolean tests as propositions, for [lia] and [congruence]. *)
Ltac bool_prop :=
  repeat match goal with
  | H : (_ && _)%bool = true |- _ => apply andb_true_iff in H as [??]
  | H : (_ || _)%bool = false |- _ => apply orb_false_iff in H as [??]
  | H : negb _ = true |- _ => apply negb_true_iff in H
  | H : negb _ = false |- _ => apply negb_false_iff in H
  | H : bool_decide _ = true |- _ => apply bool_decide_eq_true in H
  | H : bool_decide _ = false |- _ => apply bool_decide_eq_false in H
  | H : (_ =? _)%Z = true |- _ => apply Z.eqb_eq in H
  | H : (_ =? _)%Z = false |- _ => apply Z.eqb_neq in H
  end.

(** * Strings

    A literal is written [$"text"]. *)

Notation "$ x" := (list_ascii_of_string x) (at level 1, x at level 0, only parsing).

#[global] Instance ascii_inhabited : Inhabited ascii := populate zero.

(** [static_cast<uint8_t>(c)] and back ([SafeChar], [memcpy] of one byte). *)
Definition uchar (c : ascii) : Z := Z.of_N (N_of_ascii c).
Definition char_of (z : Z) : ascii := ascii_of_N (Z.to_N (z mod 256)).

(** A plain [char] is signed on the platforms this code targets. *)
Definition schar (c : ascii) : Z := if uchar c <? 128 then uchar c else uchar c - 256.

Lemma uchar_bound c : 0 ≤ uchar c < 256.
Proof. unfold uchar. pose proof (N_ascii_bounded c). lia. Qed.

Lemma char_of_uchar c : char_of (uchar c) = c.
Proof.
  unfold char_of. rewrite Z.mod_small by apply uchar_bound.
  unfold uchar. rewrite N2Z.id. apply ascii_N_embedding.
Qed.

Lemma uchar_char_of z : uchar (char_of z) = z mod 256.
Proof.
  unfold uchar, char_of. pose proof (Z.mod_pos_bound z 256).
  rewrite N_ascii_embedding by lia. lia.
Qed.

Lemma uchar_inj c d : uchar c = uchar d → c = d.
Proof. intros H. rewrite <-(char_of_uchar c), H. apply char_of_uchar. Qed.

Lemma uchar_zero c : uchar c = 0 ↔ c = zero.
Proof. split; [intros H; apply uchar_inj; by rewrite H | by intros ->]. Qed.

Lemma schar_zero c : schar c = 0 ↔ c = zero.
Proof.
  rewrite <-uchar_zero. unfold schar. pose proof (uchar_bound c).
  destruct (Z.ltb_spec (uchar c) 128); lia.
Qed.

(** [std::string::operator<]: lexicographic on unsigned characters. *)
Fixpoint str_ltb (s t : str) : bool :=
  match s, t with
  | [], [] => false
  | [], _ :: _ => true
  | _ :: _, [] => false
  | c :: s, d :: t =>
    if uchar c <? uchar d then true
    else if uchar d <? uchar c then false else str_ltb s t
  end.

Lemma str_ltb_irrefl s : str_ltb s s = false.
Proof. induction s as [|c s IH]; [done|]. cbn [str_ltb]. by rewrite Z.ltb_irrefl. Qed.

Lemma str_ltb_trans s t u : str_ltb s t = true → str_ltb t u = true → str_ltb s u = true.
Proof.
  revert t u. induction s as [|c s IH]; intros [|d t] [|e u]; try done. cbn [str_ltb].
  destruct (Z.ltb_spec (uchar c) (uchar d)), (Z.ltb_spec (uchar d) (uchar c)),
    (Z.ltb_spec (uchar d) (uchar e)), (Z.ltb_spec (uchar e) (uchar d)),
    (Z.ltb_spec (uchar c) (uchar e)), (Z.ltb_spec (uchar e) (uchar c)); try done; try lia.
  apply IH.
Qed.

Lemma str_ltb_total s t : s ≠ t → str_ltb s t = true ∨ str_ltb t s = true.
Proof.
  revert t. induction s as [|c s IH]; intros [|d t] Hne; try done; [by left | by right |].
  cbn [str_ltb]. destruct (Z.ltb_spec (uchar c) (uchar d)), (Z.ltb_spec (uchar d) (uchar c));
    try first [lia | by left | by right].
  assert (c = d) as -> by (apply uchar_inj; lia). apply IH. congruence.
Qed.

Lemma str_ltb_eq s t : str_ltb s t = false → str_ltb t s = false → s = t.
Proof.
  intros. destruct (decide (s = t)) as [|Hne]; [done|]. destruct (str_ltb_total s t Hne); congruence.
Qed.

Create HintDb pins discriminated.
#[export] Hint Resolve uchar_bound : pins.
#[export] Hint Rewrite char_of_uchar uchar_char_of : pins.

(** * Integers of fixed width *)

(** The value a [w]-bit unsigned integer keeps of [z]. *)
Definition wrapU (w z : Z) : Z := z mod 2 ^ w.
(** The value a [w]-bit two's complement integer keeps of [z]. *)
Definition wrapS (w z : Z) : Z := (z + 2 ^ (w - 1)) mod 2 ^ w - 2 ^ (w - 1).

Lemma wrapU_small w z : 0 ≤ z < 2 ^ w → wrapU w z = z.
Proof. apply Z.mod_small. Qed.

Lemma wrapU_bound w z : 0 ≤ w → 0 ≤ wrapU w z < 2 ^ w.
Proof. intros. apply Z.mod_pos_bound. lia. Qed.

Lemma wrapS_small w z : 0 < w → - 2 ^ (w - 1) ≤ z < 2 ^ (w - 1) → wrapS w z = z.
Proof.
  intros Hw Hz. unfold wrapS.
  assert (2 ^ w = 2 * 2 ^ (w - 1)) by (rewrite <-Z.pow_succ_r by lia; f_equal; lia).
  rewrite Z.mod_small; lia.
Qed.

#[export] Hint Resolve wrapU_bound : pins.

(** Lengths are compared with machine integers, so they are read as [Z]. *)
Definition zlen {A} (l : list A) : Z := Z.of_nat (length l).

Lemma zlen_nonneg {A} (l : list A) : 0 ≤ zlen l.
Proof. unfold zlen. lia. Qed.

Lemma zlen_nil {A} : zlen (@nil A) = 0.
Proof. done. Qed.

Lemma zlen_cons {A} (x : A) l : zlen (x :: l) = zlen l + 1.
Proof. unfold zlen. cbn [length]. lia. Qed.

Lemma zlen_app {A} (l k : list A) : zlen (l ++ k) = zlen l + zlen k.
Proof. unfold zlen. rewrite length_app. lia. Qed.

Lemma zlen_zero {A} (l : list A) : zlen l = 0 ↔ l = [].
Proof. unfold zlen. destruct l; cbn; [done | split; [lia | done]]. Qed.

#[export] Hint Resolve zlen_nonneg : pins.
#[export] Hint Rewrite @zlen_nil @zlen_cons @zlen_app : pins.

(** A leading digit decides the comparison with a multiple of its weight. *)
Lemma digit_lt c t w p : 0 ≤ t < w → c * w + t < p * w ↔ c < p.
Proof. intros Ht. split; intros; nia. Qed.

(** The search loop [for (int i = m; i < m + n; ++i) if (f(i)) return i]. *)
Lemma find_seqZ_Some (f : Z → bool) m n i :
  List.find f (seqZ m n) = Some i →
  m ≤ i < m + n ∧ f i = true ∧ ∀ j, m ≤ j < i → f j = false.
Proof.
  destruct (Z.le_gt_cases 0 n) as [Hn|]; [|by rewrite seqZ_nil by lia].
  revert m. pattern n. apply natlike_ind; [|clear n Hn|done].
  - intros m. by rewrite seqZ_nil by lia.
  - intros n Hn IH m. rewrite seqZ_cons, Z.pred_succ by lia. cbn [List.find].
    destruct (f m) eqn:Hm.
    + intros [= <-]. split_and!; [lia | lia | done | intros; lia].
    + intros (Hi & Hf & Hj)%IH. split_and!; [lia | lia | done |].
      intros j Hlt. destruct (decide (j = m)) as [->|]; [done|]. apply Hj. lia.
Qed.

Lemma find_seqZ_None (f : Z → bool) m n :
  List.find f (seqZ m n) = None → ∀ j, m ≤ j < m + n → f j = false.
Proof.
  intros H j Hj. apply (List.find_none _ _ H). rewrite <-list_elem_of_In.
  apply elem_of_seqZ. lia.
Qed.

(** Filtering with a test that holds of a prefix only. *)
Lemma filter_prefix {A} (f : A → bool) l :
  (∀ i j x y, (i < j)%nat → l !! i = Some x → l !! j = Some y → f y = true → f x = true) →
  ∃ p, List.filter f l = take p l.
Proof.
  induction l as [|a l IH]; intros Hf; [by exists 0%nat|]. cbn [List.filter].
  destruct (f a) eqn:Ha.
  - destruct IH as [p Hp]; [intros i j x y Hij; apply (Hf (S i) (S j)); lia|].
    exists (S p). by rewrite Hp.
  - exists 0%nat. cbn [take]. assert (∀ y, y ∈ l → f y = false) as Hall.
    { intros y [j Hj]%list_elem_of_lookup. destruct (f y) eqn:Hy; [|done].
      specialize (Hf 0%nat (S j) a y ltac:(lia) eq_refl Hj Hy). congruence. }
    clear IH Hf. induction l as [|b l IH]; [done|]. cbn [List.filter].
    rewrite (Hall b) by left. apply IH. intros y Hy. apply Hall. by right.
Qed.

(** A property of every integer of a literal range, by evaluation. *)
Lemma forallb_seqZ (f : Z → bool) m n i :
  forallb f (seqZ m n) = true → m ≤ i < m + n → f i = true.
Proof.
  rewrite forallb_forall. intros H Hi. apply H. rewrite <-list_elem_of_In.
  apply elem_of_seqZ. lia.
Qed.

(** [finite_check x m n] proves a boolean property of [x], known to lie in [m, m+n), by
    evaluating it on the whole range. *)
Ltac finite_check x m n :=
  match goal with
  | |- ?t = true =>
    let f := (eval pattern x in t) in
    match f with
    | ?g _ => apply (forallb_seqZ g m n x); [vm_compute; reflexivity | lia]
    end
  end.

(** * Sums over finite maps *)

Definition map_sum `{Countable K} {A} (f : A → Z) (m : gmap K A) : Z :=
  map_fold (λ _ a acc, f a + acc) 0 m.

Section map_sum.
Context `{Countable K} {A : Type} (f : A → Z).
Implicit Types (m : gmap K A).

Lemma map_sum_insert m k a :
  map_sum f (<[k := a]> m) = map_sum f m + f a - from_option f 0 (m !! k).
Proof.
  assert (∀ m, m !! k = None → map_sum f (<[k := a]> m) = f a + map_sum f m) as Hnew.
  { intros m' Hm. unfold map_sum. rewrite map_fold_insert_L; [done | intros; lia | done]. }
  destruct (m !! k) as [b|] eqn:Hk; cbn [from_option].
  - rewrite <-(insert_delete_eq m k a), Hnew by apply lookup_delete_eq.
    unfold map_sum at 2. rewrite (map_fold_delete_L _ _ k b); [|intros; lia | done].
    fold (map_sum f (delete k m)). lia.
  - rewrite Hnew by done. lia.
Qed.

Lemma map_sum_delete m k :
  map_sum f (delete k m) = map_sum f m - from_option f 0 (m !! k).
Proof.
  destruct (m !! k) as [b|] eqn:Hk; cbn [from_option].
  - unfold map_sum at 2. rewrite (map_fold_delete_L _ _ k b); [|intros; lia | done].
    fold (map_sum f (delete k m)). lia.
  - rewrite delete_id by done. lia.
Qed.
End map_sum.
