(* ===== verification/Bitset.v ===== *)
(** [std::bitset<N>]: an [N]-bit value is an integer of [0, 2^N), every operation
    written with its truncation to [N] bits.  The lemmas here are the ones the string
    encodings and the network addresses share. *)
From S2P Require Import Prelude.

Section bitset.
Context (n : Z).

(** [std::bitset<N>(unsigned long)]: the low [N] bits. *)
Definition bs_of (z : Z) : Z := wrapU n z.
Definition bs_and (a b : Z) : Z := Z.land a b.
Definition bs_or (a b : Z) : Z := Z.lor a b.
Definition bs_xor (a b : Z) : Z := Z.lxor a b.
Definition bs_shl (a k : Z) : Z := wrapU n (Z.shiftl a k).
Definition bs_shr (a k : Z) : Z := Z.shiftr a k.
Definition bs_all_ones : Z := Z.ones n.
(** [operator~] and [flip()]. *)
Definition bs_not (a : Z) : Z := Z.lxor a bs_all_ones.
Definition bs_test (a i : Z) : bool := Z.testbit a i.
Definition bs_none (a : Z) : bool := a =? 0.
Definition bs_any (a : Z) : bool := negb (a =? 0).
Definition bs_all (a : Z) : bool := a =? bs_all_ones.

(** The representation invariant. *)
Definition bs_ok (a : Z) : Prop := 0 ≤ a < 2 ^ n.
End bitset.

Lemma testbit_above n a i : bs_ok n a → n ≤ i → Z.testbit a i = false.
Proof.
  intros [Ha1 Ha2] Hi.
  destruct (decide (a = 0)) as [->|]; [apply Z.bits_0|].
  apply Z.bits_above_log2; [lia|].
  assert (Z.log2 a < n) by (apply Z.log2_lt_pow2; lia). lia.
Qed.

Lemma testbit_below_bound n a :
  0 ≤ n → 0 ≤ a → (∀ i, n ≤ i → Z.testbit a i = false) → bs_ok n a.
Proof.
  intros Hn Ha H. split; [done|].
  destruct (decide (a = 0)) as [->|]; [lia|].
  apply Z.log2_lt_pow2; [lia|].
  destruct (Z.lt_ge_cases (Z.log2 a) n) as [|Hge]; [done|].
  apply H in Hge. rewrite Z.bit_log2 in Hge by lia. done.
Qed.

Lemma bs_ok_mono m n a : 0 ≤ m ≤ n → bs_ok m a → bs_ok n a.
Proof.
  intros ? [??]. split; [done|].
  assert (2 ^ m ≤ 2 ^ n) by (apply Z.pow_le_mono_r; lia). lia.
Qed.

Section bitset_lemmas.
Context (n : Z) (Hn : 0 ≤ n).
Implicit Types a b : Z.

Lemma bs_of_ok z : bs_ok n (bs_of n z).
Proof. by apply wrapU_bound. Qed.

Lemma bs_of_small z : bs_ok n z → bs_of n z = z.
Proof. apply wrapU_small. Qed.

Lemma bs_zero_ok : bs_ok n 0.
Proof. unfold bs_ok. lia. Qed.

Lemma bs_all_ones_ok : bs_ok n (bs_all_ones n).
Proof. unfold bs_ok, bs_all_ones. rewrite Z.ones_equiv. lia. Qed.

Lemma bs_and_ok a b : bs_ok n a → bs_ok n b → bs_ok n (bs_and a b).
Proof.
  intros Ha Hb. apply testbit_below_bound; [done|..].
  - apply Z.land_nonneg. left. apply Ha.
  - intros i Hi. by rewrite Z.land_spec, (testbit_above n a i).
Qed.

Lemma bs_or_ok a b : bs_ok n a → bs_ok n b → bs_ok n (bs_or a b).
Proof.
  intros Ha Hb. apply testbit_below_bound; [done|..].
  - apply Z.lor_nonneg. split; [apply Ha | apply Hb].
  - intros i Hi. by rewrite Z.lor_spec, (testbit_above n a i), (testbit_above n b i).
Qed.

Lemma bs_xor_ok a b : bs_ok n a → bs_ok n b → bs_ok n (bs_xor a b).
Proof.
  intros Ha Hb. apply testbit_below_bound; [done|..].
  - apply Z.lxor_nonneg. split; intros; [apply Hb | apply Ha].
  - intros i Hi. by rewrite Z.lxor_spec, (testbit_above n a i), (testbit_above n b i).
Qed.

Lemma bs_not_ok a : bs_ok n a → bs_ok n (bs_not n a).
Proof. intros. apply bs_xor_ok; [done|]. apply bs_all_ones_ok. Qed.

Lemma bs_shl_ok a k : bs_ok n (bs_shl n a k).
Proof. by apply wrapU_bound. Qed.

Lemma bs_shr_ok a k : 0 ≤ k → bs_ok n a → bs_ok n (bs_shr a k).
Proof.
  intros Hk [??]. unfold bs_shr. rewrite Z.shiftr_div_pow2 by done. split.
  - apply Z.div_pos; lia.
  - apply Z.div_lt_upper_bound; [lia|]. assert (1 ≤ 2 ^ k) by lia. nia.
Qed.

Lemma bs_shl_spec a k i :
  0 ≤ k → 0 ≤ i →
  Z.testbit (bs_shl n a k) i = (i <? n) && Z.testbit a (i - k).
Proof.
  intros Hk Hi. unfold bs_shl, wrapU. destruct (Z.ltb_spec i n).
  - rewrite Z.mod_pow2_bits_low by done. by rewrite Z.shiftl_spec.
  - by rewrite Z.mod_pow2_bits_high by lia.
Qed.

Lemma bs_all_ones_spec i :
  0 ≤ i → Z.testbit (bs_all_ones n) i = (i <? n).
Proof.
  intros. unfold bs_all_ones. destruct (Z.ltb_spec i n).
  - apply Z.ones_spec_low. lia.
  - apply Z.ones_spec_high. lia.
Qed.

End bitset_lemmas.

Lemma shiftl_lor_add k v b :
  0 ≤ k → 0 ≤ b < 2 ^ k → v * 2 ^ k + b = Z.lor (Z.shiftl v k) b.
Proof.
  intros Hk Hb.
  assert (Z.land (v * 2 ^ k) b = 0) as Hland.
  { apply Z.bits_inj'; intros i Hi. rewrite Z.land_spec, Z.bits_0.
    destruct (Z.lt_ge_cases i k).
    - by rewrite Z.mul_pow2_bits_low by lia.
    - rewrite (testbit_above k b i); [apply andb_false_r | unfold bs_ok; lia | lia]. }
  rewrite (Z.add_nocarry_lxor _ _ Hland), (Z.lxor_lor _ _ Hland).
  by rewrite Z.shiftl_mul_pow2 by lia.
Qed.

Lemma push_byte v b : 0 ≤ b < 256 → v * 256 + b = Z.lor (Z.shiftl v 8) b.
Proof. by apply (shiftl_lor_add 8). Qed.

(** Appending a byte below a value: the loop body of every big-endian parser. *)
Lemma bs_push_byte n v b :
  0 ≤ n → 0 ≤ b < 256 →
  bs_or (bs_shl n (wrapU n v) 8) (bs_of n b) = wrapU n (v * 256 + b).
Proof.
  intros Hn Hb. rewrite push_byte by done. unfold bs_or, bs_of, wrapU.
  apply Z.bits_inj'; intros i Hi. rewrite Z.lor_spec, bs_shl_spec by lia.
  destruct (Z.ltb_spec i n).
  - rewrite !Z.mod_pow2_bits_low by lia. rewrite Z.lor_spec, Z.shiftl_spec by done.
    done.
  - cbn. by rewrite !Z.mod_pow2_bits_high by lia.
Qed.

#[export] Hint Resolve bs_of_ok bs_zero_ok bs_all_ones_ok bs_and_ok bs_or_ok bs_xor_ok
  bs_not_ok bs_shl_ok bs_shr_ok : pins.
