(* ===== verification/ByteString.v ===== *)
(** p4_infra/string_encodings/byte_string.{h,cc} and safe.{h,cc}: big-endian byte strings,
    padded and canonical.  [be_value] is the reference meaning of a byte string; every
    conversion is related to it. *)
From S2P Require Import Prelude Bitset.

(** The unsigned integer a byte string encodes, most significant byte first. *)
Definition be_value (s : str) : Z := fold_left (λ acc c, acc * 256 + uchar c) s 0.

(** * Definitions *)

Definition SafeChar (byte : Z) : ascii := char_of byte.

Definition SafeString (bytes : list Z) : str :=
  fold_left (λ result byte, result ++ [SafeChar byte]) bytes [].

Definition NumBitsToNumBytes (num_bits : Z) : Z := (num_bits + 7) / 8.

Definition AnyByteStringToBitset (num_bits : Z) (byte_string : str) : Z :=
  fold_left (λ bits c, bs_or (bs_shl num_bits bits 8) (bs_of num_bits (uchar c)))
    byte_string 0.

(** [char extra_bits = byte_string[0] >> (num_bits % 8)] is computed on [int] after the
    promotion of a signed [char]. *)
Definition ByteStringToBitset (num_bits : Z) (byte_string : str) : result Z :=
  if bool_decide (byte_string = []) then Err kInvalidArgument else
  let kNumRelevantBytes := NumBitsToNumBytes num_bits in
  let num_extra_bytes := zlen byte_string - kNumRelevantBytes in
  if 0 <=? num_extra_bytes then
    let extra := take (Z.to_nat num_extra_bytes) byte_string in
    if existsb (λ c, negb (schar c =? 0)) extra then Err kInvalidArgument else
    let byte_string := drop (Z.to_nat num_extra_bytes) byte_string in
    if negb (num_bits mod 8 =? 0) &&
       negb (Z.shiftr (schar (default zero (byte_string !! 0%nat))) (num_bits mod 8) =? 0)
    then Err kInvalidArgument
    else Ok (AnyByteStringToBitset num_bits byte_string)
  else Ok (AnyByteStringToBitset num_bits byte_string).

(** The loop runs from the last byte to the first: byte [i] is written, then the bits
    are shifted. *)
Fixpoint padded_loop (num_bits : Z) (bits : Z) (i : nat) (buffer : str) : str :=
  match i with
  | O => buffer
  | S i =>
    padded_loop num_bits (bs_shr bits 8) i
      (char_of (wrapU 8 (bs_and bits (bs_of num_bits 255))) :: buffer)
  end.

Definition BitsetToPaddedByteString (num_bits : Z) (bits : Z) : str :=
  padded_loop num_bits bits (Z.to_nat (NumBitsToNumBytes num_bits)) [].

(** [std::string::npos], the largest [size_t]. *)
Definition npos : Z := 2 ^ 64 - 1.

Fixpoint find_first_not_of (s : str) (d : ascii) : option nat :=
  match s with
  | [] => None
  | c :: s => if bool_decide (c = d) then S <$> find_first_not_of s d else Some O
  end.

(** [bytes.erase(0, count)] where [count] may exceed the size. *)
Definition erase_front (s : str) (count : Z) : str :=
  drop (Z.to_nat (Z.min count (zlen s))) s.

(** [bytes.size() - 1] is an unsigned 64-bit subtraction. *)
Definition ByteStringToP4runtimeByteString (bytes : str) : str :=
  let found := match find_first_not_of bytes zero with
               | Some i => Z.of_nat i | None => npos end in
  erase_front bytes (Z.min found (wrapU 64 (zlen bytes - 1))).

Definition BitsetToP4RuntimeByteString (num_bits : Z) (bits : Z) : str :=
  ByteStringToP4runtimeByteString (BitsetToPaddedByteString num_bits bits).

(** The [do ... while (c != 0)] loop on an [unsigned char]; eight rounds empty it. *)
Fixpoint significant_bits_loop (fuel : nat) (significant_bits c : Z) : Z :=
  match fuel with
  | O => significant_bits
  | S fuel =>
    let significant_bits := significant_bits + 1 in
    let c := Z.shiftr c 1 in
    if negb (c =? 0) then significant_bits_loop fuel significant_bits c
    else significant_bits
  end.

Fixpoint GetBitwidth_loop (rest : str) : option Z :=
  match rest with
  | [] => None
  | c :: rest =>
    if uchar c =? 0 then GetBitwidth_loop rest
    else Some (significant_bits_loop 8 0 (uchar c) + 8 * zlen rest)
  end.

Definition GetBitwidthOfByteString (byte_string : str) : Z :=
  match GetBitwidth_loop byte_string with
  | Some w => w
  | None => if bool_decide (byte_string = []) then 0 else 1
  end.

(** * Big-endian values *)

Lemma be_value_acc s v : fold_left (λ acc c, acc * 256 + uchar c) s v =
  v * 256 ^ zlen s + be_value s.
Proof.
  unfold be_value. revert v. induction s as [|c s IH]; intros v.
  - cbn [fold_left]. rewrite zlen_nil. lia.
  - cbn [fold_left]. rewrite IH, (IH (0 * 256 + uchar c)), zlen_cons.
    pose proof (zlen_nonneg s). rewrite Z.pow_add_r by lia. ring.
Qed.

Lemma be_value_nil : be_value [] = 0.
Proof. done. Qed.

Lemma be_value_cons c s : be_value (c :: s) = uchar c * 256 ^ zlen s + be_value s.
Proof. unfold be_value at 1. cbn [fold_left]. by rewrite be_value_acc. Qed.

Lemma be_value_app s t : be_value (s ++ t) = be_value s * 256 ^ zlen t + be_value t.
Proof. unfold be_value at 1. rewrite fold_left_app. apply be_value_acc. Qed.

Lemma be_value_bound s : 0 ≤ be_value s < 256 ^ zlen s.
Proof.
  induction s as [|c s IH]; [by cbn|].
  rewrite be_value_cons, zlen_cons. pose proof (zlen_nonneg s).
  rewrite Z.pow_add_r by lia. pose proof (uchar_bound c). nia.
Qed.

Lemma pow256 k : 0 ≤ k → 256 ^ k = 2 ^ (8 * k).
Proof. intros. rewrite Z.pow_mul_r by lia. done. Qed.

Lemma be_value_zeros s : be_value s = 0 ↔ Forall (λ c, c = zero) s.
Proof.
  induction s as [|c s IH]; [by split|].
  rewrite be_value_cons, Forall_cons, <-IH, <-uchar_zero.
  pose proof (uchar_bound c). pose proof (be_value_bound s).
  assert (0 < 256 ^ zlen s) by (pose proof (zlen_nonneg s); lia). nia.
Qed.

(** Two encodings of the same length and value are the same bytes. *)
Lemma be_value_inj s t : length s = length t → be_value s = be_value t → s = t.
Proof.
  revert t. induction s as [|c s IH]; intros [|d t] Hlen Hv; try done.
  injection Hlen as Hlen. rewrite !be_value_cons in Hv.
  assert (zlen s = zlen t) as Hz by (unfold zlen; lia). rewrite Hz in Hv.
  pose proof (be_value_bound s) as Hs. pose proof (be_value_bound t) as Ht.
  rewrite Hz in Hs.
  assert (uchar c = uchar d) as Hc by nia.
  rewrite Hc in Hv. f_equal; [by apply uchar_inj | apply IH; lia].
Qed.

#[export] Hint Resolve be_value_bound : pins.

(** * Bit strings of fixed width *)

Lemma NumBitsToNumBytes_bounds n :
  0 ≤ n → n ≤ 8 * NumBitsToNumBytes n < n + 8.
Proof. intros. unfold NumBitsToNumBytes. Z.div_mod_to_equations. lia. Qed.

Lemma NumBitsToNumBytes_exact n :
  0 ≤ n → n mod 8 = 0 → 8 * NumBitsToNumBytes n = n.
Proof. intros. unfold NumBitsToNumBytes. Z.div_mod_to_equations. lia. Qed.

Lemma NumBitsToNumBytes_rest n :
  0 ≤ n → n mod 8 ≠ 0 → n = 8 * (NumBitsToNumBytes n - 1) + n mod 8.
Proof. intros. unfold NumBitsToNumBytes. Z.div_mod_to_equations. lia. Qed.

Lemma AnyByteStringToBitset_acc n s v :
  0 ≤ n →
  fold_left (λ bits c, bs_or (bs_shl n bits 8) (bs_of n (uchar c))) s (wrapU n v) =
  wrapU n (fold_left (λ acc c, acc * 256 + uchar c) s v).
Proof.
  intros Hn. revert v. induction s as [|c s IH]; intros v; [done|]. cbn [fold_left].
  rewrite bs_push_byte by auto with pins. apply IH.
Qed.

Lemma AnyByteStringToBitset_spec n s :
  0 ≤ n → AnyByteStringToBitset n s = wrapU n (be_value s).
Proof.
  intros Hn. unfold be_value. rewrite <-AnyByteStringToBitset_acc by done.
  unfold AnyByteStringToBitset, wrapU. by rewrite Z.mod_0_l by lia.
Qed.

Lemma schar_shiftr_zero c r :
  0 ≤ r < 8 → Z.shiftr (schar c) r = 0 ↔ uchar c < 2 ^ r.
Proof.
  intros Hr. rewrite Z.shiftr_div_pow2 by lia. unfold schar.
  pose proof (uchar_bound c). assert (0 < 2 ^ r) by lia.
  assert (2 ^ r ≤ 2 ^ 7) by (apply Z.pow_le_mono_r; lia).
  destruct (Z.ltb_spec (uchar c) 128).
  - rewrite Z.div_small_iff by lia. lia.
  - rewrite Z.div_small_iff by lia. lia.
Qed.

Lemma existsb_nonzero s :
  existsb (λ c, negb (schar c =? 0)) s = negb (be_value s =? 0).
Proof.
  apply eq_iff_eq_true. rewrite existsb_exists, negb_true_iff, Z.eqb_neq, be_value_zeros.
  rewrite List.Forall_forall. split.
  - intros (c & Hin & Hc) H. bool_prop. apply Hc, schar_zero, H, Hin.
  - intros H. induction s as [|c s IH]; [exfalso; by apply H|].
    destruct (decide (c = zero)) as [->|Hc].
    + destruct IH as (d & ? & ?).
      { intros Hs. apply H. intros x [<-|Hx]; auto. }
      exists d. split; [by right | done].
    + exists c. split; [by left|]. apply negb_true_iff, Z.eqb_neq.
      by rewrite schar_zero.
Qed.

(** Dropping bytes that are not there to be read keeps the value. *)
Lemma be_value_take_drop k s :
  be_value s = be_value (take k s) * 256 ^ zlen (drop k s) + be_value (drop k s).
Proof. rewrite <-be_value_app. by rewrite take_drop. Qed.

Lemma zlen_drop k (s : str) : 0 ≤ k ≤ zlen s → zlen (drop (Z.to_nat k) s) = zlen s - k.
Proof. unfold zlen. rewrite length_drop. lia. Qed.

(** * Parsing: [ByteStringToBitset] *)

(** The guards of [ByteStringToBitset] on a string with [k] relevant bytes at the end. *)
Lemma relevant_bytes_fit n s :
  0 ≤ n → zlen s = NumBitsToNumBytes n →
  (n mod 8 ≠ 0 → Z.shiftr (schar (default zero (s !! 0%nat))) (n mod 8) = 0) ↔
  be_value s < 2 ^ n.
Proof.
  intros Hn Hlen. pose proof (be_value_bound s) as Hb.
  pose proof (Z.mod_pos_bound n 8).
  destruct (decide (n mod 8 = 0)) as [Hm|Hm].
  { rewrite Hlen, pow256, NumBitsToNumBytes_exact in Hb by
      (done || (unfold NumBitsToNumBytes; Z.div_mod_to_equations; lia)).
    split; [lia | done]. }
  pose proof (NumBitsToNumBytes_rest n Hn Hm) as Hr.
  pose proof (NumBitsToNumBytes_bounds n Hn).
  destruct s as [|c t]; [rewrite zlen_nil in Hlen; lia|].
  rewrite zlen_cons in Hlen. cbn [lookup list_lookup default from_option].
  rewrite schar_shiftr_zero, be_value_cons by lia.
  assert (2 ^ n = 2 ^ (n mod 8) * 256 ^ zlen t) as ->.
  { rewrite pow256 by auto with pins. rewrite <-Z.pow_add_r by lia. f_equal. lia. }
  rewrite digit_lt by apply be_value_bound. tauto.
Qed.

Lemma short_bytes_fit n s :
  0 ≤ n → zlen s < NumBitsToNumBytes n → be_value s < 2 ^ n.
Proof.
  intros Hn Hlen. pose proof (NumBitsToNumBytes_bounds n Hn).
  pose proof (be_value_bound s) as Hb. rewrite pow256 in Hb by auto with pins.
  assert (2 ^ (8 * zlen s) ≤ 2 ^ n) by (apply Z.pow_le_mono_r; lia). lia.
Qed.

Lemma ByteStringToBitset_value (n : Z) (s : str) :
  0 ≤ n →
  ByteStringToBitset n s =
    if bool_decide (s = []) then Err kInvalidArgument
    else if be_value s <? 2 ^ n then Ok (be_value s) else Err kInvalidArgument.
Proof.
  intros Hn. unfold ByteStringToBitset. case_bool_decide as Hs; [done|].
  rewrite !AnyByteStringToBitset_spec by done.
  pose proof (NumBitsToNumBytes_bounds n Hn) as Hk.
  destruct (Z.leb_spec 0 (zlen s - NumBitsToNumBytes n)) as [He|He].
  2:{ pose proof (short_bytes_fit n s Hn ltac:(lia)).
      rewrite wrapU_small by (pose proof (be_value_bound s); lia).
      by rewrite (proj2 (Z.ltb_lt _ _)). }
  set (e := zlen s - NumBitsToNumBytes n) in *.
  rewrite existsb_nonzero.
  assert (zlen (drop (Z.to_nat e) s) = NumBitsToNumBytes n) as Hdrop
    by (rewrite zlen_drop; lia).
  pose proof (be_value_take_drop (Z.to_nat e) s) as Hsplit.
  pose proof (be_value_bound (drop (Z.to_nat e) s)) as Hlow.
  pose proof (be_value_bound (take (Z.to_nat e) s)) as Hhigh.
  assert (2 ^ n ≤ 256 ^ NumBitsToNumBytes n) as Hpow
    by (rewrite pow256 by lia; apply Z.pow_le_mono_r; lia).
  pose proof (relevant_bytes_fit n _ Hn Hdrop) as Hfit.
  destruct (Z.eqb_spec (be_value (take (Z.to_nat e) s)) 0) as [Hz|Hz]; cbn [negb].
  - assert (be_value s = be_value (drop (Z.to_nat e) s)) as -> by nia.
    destruct (Z.ltb_spec (be_value (drop (Z.to_nat e) s)) (2 ^ n)) as [Hlt|Hge].
    + rewrite wrapU_small by lia. pose proof (proj2 Hfit Hlt) as Hz'.
      destruct (Z.eqb_spec (n mod 8) 0) as [Hm|Hm]; [done|]. cbn [negb andb].
      by rewrite (Hz' Hm).
    + destruct (Z.eqb_spec (n mod 8) 0) as [Hm|Hm]; cbn [negb andb].
      { assert (be_value (drop (Z.to_nat e) s) < 2 ^ n) by (by apply Hfit). lia. }
      destruct (Z.eqb_spec (Z.shiftr (schar (default zero (drop (Z.to_nat e) s !! 0%nat)))
        (n mod 8)) 0); [|done].
      assert (be_value (drop (Z.to_nat e) s) < 2 ^ n) by (by apply Hfit). lia.
  - destruct (Z.ltb_spec (be_value s) (2 ^ n)); [|done].
    exfalso. rewrite Hdrop in Hsplit. nia.
Qed.

(** * Printing: padded byte strings *)

Lemma low_byte n b :
  0 ≤ n → bs_ok n b → wrapU 8 (bs_and b (bs_of n 255)) = b mod 256.
Proof.
  intros Hn Hb. unfold bs_and, bs_of, wrapU. change 255 with (Z.ones 8).
  apply Z.bits_inj'. intros i Hi. change 256 with (2 ^ 8).
  destruct (Z.lt_ge_cases i 8); [|by rewrite !Z.mod_pow2_bits_high by lia].
  rewrite !Z.mod_pow2_bits_low, Z.land_spec by lia.
  destruct (Z.lt_ge_cases i n).
  - rewrite Z.mod_pow2_bits_low, Z.ones_spec_low by lia. by rewrite andb_true_r.
  - by rewrite (testbit_above n b i).
Qed.

Lemma padded_loop_spec n b i buf :
  0 ≤ n → bs_ok n b →
  ∃ bytes, padded_loop n b i buf = bytes ++ buf ∧ length bytes = i ∧
    be_value bytes = b mod 256 ^ Z.of_nat i.
Proof.
  intros Hn. revert b buf. induction i as [|i IH]; intros b buf Hb.
  { exists []. rewrite Z.mod_1_r. done. }
  destruct (IH (bs_shr b 8) (char_of (wrapU 8 (bs_and b (bs_of n 255))) :: buf))
    as (bytes & Hl & Hlen & Hv); [auto with pins lia|].
  exists (bytes ++ [char_of (wrapU 8 (bs_and b (bs_of n 255)))]). split_and!.
  - cbn [padded_loop]. rewrite Hl. by rewrite <-app_assoc.
  - rewrite length_app. cbn. lia.
  - rewrite be_value_app, Hv, be_value_cons, be_value_nil, zlen_cons, zlen_nil.
    rewrite uchar_char_of, low_byte by done. unfold bs_shr.
    rewrite Z.shiftr_div_pow2 by lia. rewrite Z.mod_mod by lia.
    rewrite Nat2Z.inj_succ, Z.pow_succ_r by lia.
    rewrite (Z.rem_mul_r b 256) by lia. change (2 ^ 8) with 256.
    change (256 ^ (0 + 1)) with 256. change (256 ^ 0) with 1. ring.
Qed.

Lemma padded_value n b :
  0 ≤ n → bs_ok n b → be_value (BitsetToPaddedByteString n b) = b.
Proof.
  intros Hn Hb. destruct (padded_loop_spec n b (Z.to_nat (NumBitsToNumBytes n)) [])
    as (bytes & Hl & Hlen & Hv); [done..|].
  unfold BitsetToPaddedByteString. rewrite Hl, app_nil_r, Hv.
  pose proof (NumBitsToNumBytes_bounds n Hn). rewrite Z2Nat.id, pow256 by lia.
  assert (2 ^ n ≤ 2 ^ (8 * NumBitsToNumBytes n)) by (apply Z.pow_le_mono_r; lia).
  apply Z.mod_small. unfold bs_ok in Hb. lia.
Qed.

Lemma padded_length n b :
  0 ≤ n → bs_ok n b → zlen (BitsetToPaddedByteString n b) = NumBitsToNumBytes n.
Proof.
  intros Hn Hb. destruct (padded_loop_spec n b (Z.to_nat (NumBitsToNumBytes n)) [])
    as (bytes & Hl & Hlen & _); [done..|].
  pose proof (NumBitsToNumBytes_bounds n Hn).
  unfold BitsetToPaddedByteString, zlen. rewrite Hl, app_nil_r, Hlen. lia.
Qed.

Lemma padded_unique n b s :
  0 ≤ n → bs_ok n b → zlen s = NumBitsToNumBytes n → be_value s = b →
  BitsetToPaddedByteString n b = s.
Proof.
  intros Hn Hb Hlen Hv. apply be_value_inj; [|by rewrite padded_value].
  pose proof (padded_length n b Hn Hb). unfold zlen in *. lia.
Qed.

Lemma padded_nonempty n b : 0 < n → bs_ok n b → BitsetToPaddedByteString n b ≠ [].
Proof.
  intros Hn Hb H. pose proof (padded_length n b ltac:(lia) Hb) as Hl.
  pose proof (NumBitsToNumBytes_bounds n). rewrite H, zlen_nil in Hl. lia.
Qed.

#[export] Hint Resolve padded_value padded_length padded_nonempty : pins.

Lemma ByteStringToBitset_padded n b :
  0 < n → bs_ok n b → ByteStringToBitset n (BitsetToPaddedByteString n b) = Ok b.
Proof.
  intros Hn Hb. rewrite ByteStringToBitset_value, padded_value by (lia || done).
  rewrite bool_decide_eq_false_2 by auto with pins.
  by rewrite (proj2 (Z.ltb_lt _ _)) by apply Hb.
Qed.

(** Byte strings and bitsets: [ByteStringToBitset<N>] rejects the empty string, accepts a
    non-empty byte string of any length exactly when the big-endian integer it encodes fits in
    N bits, and then returns that integer; [BitsetToPaddedByteString] prints exactly ceil(N/8)
    bytes that parse back to the same bitset, and a byte string of that size that parses is
    printed back byte for byte. *)
Theorem padded_byte_string_roundtrip (n b : Z) (s : str) :
  0 < n → bs_ok n b →
  (ByteStringToBitset n s =
     if bool_decide (s = []) then Err kInvalidArgument
     else if be_value s <? 2 ^ n then Ok (be_value s) else Err kInvalidArgument) ∧
  zlen (BitsetToPaddedByteString n b) = NumBitsToNumBytes n ∧
  ByteStringToBitset n (BitsetToPaddedByteString n b) = Ok b ∧
  (zlen s = NumBitsToNumBytes n → ByteStringToBitset n s = Ok b →
   BitsetToPaddedByteString n b = s).
Proof.
  intros Hn Hb. assert (0 ≤ n) as Hn' by lia. split; [by apply ByteStringToBitset_value|].
  split; [by apply padded_length|]. split; [by apply ByteStringToBitset_padded|].
  rewrite ByteStringToBitset_value by done. intros Hlen Hs.
  apply padded_unique; [done..|]. repeat case_if; naive_solver.
Qed.

Example padded_byte_string_roundtrip_witness :
  BitsetToPaddedByteString 12 2748 = ["010"; "188"]%char.
Proof.
  apply (padded_byte_string_roundtrip 12 2748 ["010"; "188"]%char);
    [lia | split; lia | reflexivity | vm_compute; reflexivity].
Defined.

(** * Canonical (P4Runtime) byte strings *)

(** No leading zero byte, except for the one byte string of the value zero. *)
Definition canonical (s : str) : Prop :=
  match s with
  | [] => False
  | [_] => True
  | c :: _ => c ≠ zero
  end.

#[export] Instance canonical_dec s : Decision (canonical s).
Proof. destruct s as [|? []]; apply _. Defined.

Lemma find_first_not_of_Some s i :
  find_first_not_of s zero = Some i →
  be_value (take i s) = 0 ∧ ∃ c t, drop i s = c :: t ∧ c ≠ zero.
Proof.
  revert i. induction s as [|c s IH]; intros i; [done|]. cbn [find_first_not_of].
  case_bool_decide as Hc.
  - destruct (find_first_not_of s zero) as [j|]; [|done]. intros [= <-].
    destruct (IH j) as [Hz (d & t & Hd & ?)]; [done|]. cbn [take drop]. split.
    + rewrite be_value_cons, Hc, Hz. done.
    + by exists d, t.
  - intros [= <-]. split; [done|]. by exists c, s.
Qed.

Lemma find_first_not_of_None s : find_first_not_of s zero = None → be_value s = 0.
Proof.
  induction s as [|c s IH]; [done|]. cbn [find_first_not_of]. case_bool_decide; [|done].
  destruct (find_first_not_of s zero); [done|]. intros _.
  rewrite be_value_cons, IH by done. subst. done.
Qed.

(** The model of [erase] drops a prefix of zero bytes that is never the whole string. *)
Lemma canonical_drop s :
  s ≠ [] → zlen s < 2 ^ 64 →
  ∃ i, ByteStringToP4runtimeByteString s = drop i s ∧ be_value (take i s) = 0 ∧
    canonical (drop i s).
Proof.
  intros Hs Hlen. unfold ByteStringToP4runtimeByteString, erase_front.
  assert (0 < zlen s) by (pose proof (zlen_nonneg s); rewrite <-zlen_zero in Hs; lia).
  rewrite wrapU_small by lia.
  destruct (find_first_not_of s zero) as [i|] eqn:Hf.
  - apply find_first_not_of_Some in Hf as (Hz & c & t & Hd & Hc).
    assert (length (drop i s) = S (length t)) as Hl by (by rewrite Hd).
    rewrite length_drop in Hl. unfold zlen in *.
    exists i. split_and!; [f_equal; lia | done |]. rewrite Hd. by destruct t.
  - apply find_first_not_of_None in Hf.
    exists (length s - 1)%nat. split_and!.
    + unfold npos, zlen in *. f_equal. lia.
    + pose proof (be_value_take_drop (length s - 1) s) as Hsplit.
      pose proof (be_value_bound (take (length s - 1) s)).
      pose proof (be_value_bound (drop (length s - 1) s)).
      pose proof (zlen_nonneg (drop (length s - 1) s)).
      assert (0 < 256 ^ zlen (drop (length s - 1) s)) by lia. nia.
    + assert (length (drop (length s - 1) s) = 1%nat) as Hl
        by (rewrite length_drop; unfold zlen in *; lia).
      by destruct (drop (length s - 1) s) as [|? []].
Qed.

Lemma canonical_zero c s : canonical (c :: s) → be_value (c :: s) = 0 → s = [].
Proof.
  destruct s as [|d s]; [done|]. cbn [canonical]. intros Hc Hv. exfalso.
  apply Hc. apply be_value_zeros in Hv. by inversion Hv.
Qed.

(** The head of a canonical string of several bytes fixes its length. *)
Lemma canonical_length_le s t :
  canonical s → t ≠ [] → be_value s = be_value t → zlen s ≤ zlen t.
Proof.
  destruct s as [|c s]; [done|]. intros Hs Ht Hv. destruct (decide (s = [])) as [->|Hne].
  { rewrite <-zlen_zero in Ht. rewrite zlen_cons, zlen_nil.
    pose proof (zlen_nonneg t). lia. }
  assert (c ≠ zero) as Hc by (by destruct s).
  rewrite <-uchar_zero in Hc. pose proof (uchar_bound c).
  rewrite be_value_cons in Hv. pose proof (be_value_bound s). pose proof (be_value_bound t).
  destruct (Z.le_gt_cases (zlen (c :: s)) (zlen t)) as [|Hgt]; [done|exfalso].
  rewrite zlen_cons in Hgt.
  assert (256 ^ zlen t ≤ 256 ^ zlen s) by (apply Z.pow_le_mono_r; lia). nia.
Qed.

Lemma canonical_unique s t :
  canonical s → canonical t → be_value s = be_value t → s = t.
Proof.
  intros Hs Ht Hv.
  assert (s ≠ [] ∧ t ≠ []) as [? ?] by (by destruct s, t).
  pose proof (canonical_length_le s t Hs ltac:(done) Hv).
  pose proof (canonical_length_le t s Ht ltac:(done) (eq_sym Hv)).
  apply be_value_inj; [unfold zlen in *; lia | done].
Qed.

Lemma canonicalize_value s :
  s ≠ [] → zlen s < 2 ^ 64 →
  be_value (ByteStringToP4runtimeByteString s) = be_value s ∧
  canonical (ByteStringToP4runtimeByteString s).
Proof.
  intros Hs Hlen. destruct (canonical_drop s Hs Hlen) as (i & -> & Hz & Hc).
  split; [|done]. rewrite (be_value_take_drop i s), Hz. lia.
Qed.

(** [ByteStringToP4runtimeByteString] computes the canonical form: it keeps the value, and
    two non-empty byte strings have the same result exactly when they encode the same
    integer.  Its result has no leading zero byte and is the shortest encoding. *)
Theorem p4runtime_byte_string_canonical (s t : str) :
  s ≠ [] → t ≠ [] → zlen s < 2 ^ 64 → zlen t < 2 ^ 64 →
  be_value (ByteStringToP4runtimeByteString s) = be_value s ∧
  canonical (ByteStringToP4runtimeByteString s) ∧
  (ByteStringToP4runtimeByteString s = ByteStringToP4runtimeByteString t ↔
   be_value s = be_value t) ∧
  (be_value s = be_value t → zlen (ByteStringToP4runtimeByteString s) ≤ zlen t).
Proof.
  intros Hs Ht Hls Hlt.
  destruct (canonicalize_value s Hs Hls) as [Hvs Hcs].
  destruct (canonicalize_value t Ht Hlt) as [Hvt Hct].
  split_and!; [done | done | split; intros H | intros H].
  - by rewrite <-Hvs, <-Hvt, H.
  - apply canonical_unique; [done | done | congruence].
  - apply canonical_length_le; [done | done | congruence].
Qed.

Example p4runtime_byte_string_canonical_witness :
  ByteStringToP4runtimeByteString ["000"; "000"; "007"]%char =
  ByteStringToP4runtimeByteString ["000"; "007"]%char.
Proof.
  apply (p4runtime_byte_string_canonical ["000"; "000"; "007"]%char ["000"; "007"]%char);
    [done | done | by vm_compute | by vm_compute | by vm_compute].
Defined.

(** * Bit width *)

Lemma significant_bits_loop_spec fuel acc c :
  0 < c < 2 ^ Z.of_nat fuel →
  significant_bits_loop fuel acc c = acc + (Z.log2 c + 1).
Proof.
  revert acc c. induction fuel as [|fuel IH]; intros acc c Hc; [cbn in Hc; lia|].
  cbn [significant_bits_loop]. rewrite Nat2Z.inj_succ, Z.pow_succ_r in Hc by lia.
  rewrite Z.shiftr_div_pow2 by lia. change (2 ^ 1) with 2.
  destruct (Z.eqb_spec (c / 2) 0) as [Hz|Hz]; cbn [negb].
  - assert (c = 1) as -> by (Z.div_mod_to_equations; lia). done.
  - rewrite IH by (Z.div_mod_to_equations; lia).
    assert (Z.log2 (c / 2) = Z.log2 c - 1) as ->; [|lia].
    change (c / 2) with (c / 2 ^ 1). rewrite <-Z.shiftr_div_pow2 by lia.
    rewrite Z.log2_shiftr by lia.
    assert (2 ≤ c) by (Z.div_mod_to_equations; lia).
    assert (1 ≤ Z.log2 c) by (change 1 with (Z.log2 2); by apply Z.log2_le_mono). lia.
Qed.

Lemma log2_leading c s :
  0 < uchar c → Z.log2 (be_value (c :: s)) = Z.log2 (uchar c) + 8 * zlen s.
Proof.
  intros Hc. rewrite be_value_cons. pose proof (be_value_bound s) as Hb.
  pose proof (zlen_nonneg s). rewrite pow256 in * by done.
  pose proof (Z.log2_spec (uchar c) Hc) as Hl. pose proof (Z.log2_nonneg (uchar c)).
  apply Z.log2_unique; [lia|].
  rewrite Z.add_comm, <-Z.add_succ_r, !Z.pow_add_r by lia.
  assert (0 < 2 ^ (8 * zlen s)) by lia. nia.
Qed.

Lemma GetBitwidth_loop_spec s :
  GetBitwidth_loop s =
    if be_value s =? 0 then None else Some (Z.log2 (be_value s) + 1).
Proof.
  induction s as [|c s IH]; [done|]. cbn [GetBitwidth_loop]. pose proof (uchar_bound c).
  destruct (Z.eqb_spec (uchar c) 0) as [Hz|Hz].
  - rewrite IH, be_value_cons, Hz. by rewrite Z.mul_0_l, Z.add_0_l.
  - rewrite significant_bits_loop_spec, <-(Z.add_assoc 0) by (cbn; lia).
    rewrite log2_leading by lia.
    rewrite (proj2 (Z.eqb_neq _ _)); [f_equal; lia|].
    rewrite be_value_cons. pose proof (be_value_bound s).
    assert (0 < 256 ^ zlen s) by (pose proof (zlen_nonneg s); lia). nia.
Qed.

Lemma GetBitwidthOfByteString_spec (s : str) :
  GetBitwidthOfByteString s =
    if bool_decide (s = []) then 0
    else if be_value s =? 0 then 1 else Z.log2 (be_value s) + 1.
Proof.
  unfold GetBitwidthOfByteString. rewrite GetBitwidth_loop_spec.
  destruct (be_value s =? 0) eqn:Hz; [by destruct (bool_decide (s = []))|].
  rewrite bool_decide_eq_false_2; [done|]. intros ->. done.
Qed.

Lemma bitwidth_le s n :
  0 < n → s ≠ [] → GetBitwidthOfByteString s ≤ n ↔ be_value s < 2 ^ n.
Proof.
  intros Hn Hs. rewrite GetBitwidthOfByteString_spec, bool_decide_eq_false_2 by done.
  pose proof (be_value_bound s). destruct (Z.eqb_spec (be_value s) 0) as [->|].
  - split; lia.
  - pose proof (Z.log2_lt_pow2 (be_value s) n ltac:(lia)). lia.
Qed.
