(* ===== verification/Abseil.v ===== *)
(** The string functions of the Abseil library that the modelled code calls.  Abseil is not
    part of the repository, so they are parameters: [AbslStrings] names them and
    [AbslStringsLaws] states the documented behaviour the proofs rely on.  [ref_absl] is one
    concrete implementation satisfying the laws, used to evaluate examples. *)
From S2P Require Import Prelude.

(** The character of a hexadecimal digit, lower case. *)
Definition hex_digit (d : Z) : ascii :=
  default "?"%char ($"0123456789abcdef" !! Z.to_nat d).

(** The decimal digits of a non-negative integer, most significant first; [fuel] bounds their
    number. *)
Definition dec_digit (d : Z) : ascii := char_of (48 + d).

Fixpoint dec_digits (fuel : nat) (z : Z) : str :=
  match fuel with
  | O => []
  | S fuel =>
    if z <? 10 then [dec_digit z]
    else dec_digits fuel (z / 10) ++ [dec_digit (z mod 10)]
  end.

(** A decimal number has at most as many digits as bits. *)
Definition decimal (z : Z) : str := dec_digits (Z.to_nat (Z.log2 z) + 1) z.

Fixpoint str_join (sep : ascii) (pieces : list str) : str :=
  match pieces with
  | [] => []
  | [p] => p
  | p :: rest => p ++ sep :: str_join sep rest
  end.

Class AbslStrings := {
  BytesToHexString : str → str;
  HexStringToBytes : str → str;
  StrSplit : str → ascii → list str;
  (** [absl::StrCat] of one non-negative integer, and the conversions "%d" and "%02x" of
      [absl::StrFormat]. *)
  StrCatInt : Z → str;
  FormatD : Z → str;
  Format02x : Z → str;
  StartsWith : str → str → bool;
  (** [ConsumePrefix(&s, p)] and [StripPrefix(s, p)]: what remains, when [p] is a prefix; and the same
      for suffixes. *)
  ConsumePrefix : str → str → option str;
  ConsumeSuffix : str → str → option str;
  ascii_isxdigit : ascii → bool;
  ascii_isspace : ascii → bool;
  StripAsciiWhitespace : str → str;
  (** [absl::SimpleHexAtoi]: the integer spelled, "0x" allowed, when it is one and fits. *)
  SimpleHexAtoi : str → option Z;
}.

Definition is_hex_char (c : ascii) : bool :=
  let u := uchar c in
  ((48 <=? u) && (u <=? 57)) || ((65 <=? u) && (u <=? 70)) || ((97 <=? u) && (u <=? 102)).

(** Space, \t, \n, \v, \f and \r. *)
Definition is_space_char (c : ascii) : bool :=
  let u := uchar c in (u =? 32) || ((9 <=? u) && (u <=? 13)).

Class AbslStringsLaws `{AbslStrings} : Prop := {
  BytesToHexString_nil : BytesToHexString [] = [];
  BytesToHexString_cons c s :
    BytesToHexString (c :: s) =
      hex_digit (uchar c / 16) :: hex_digit (uchar c mod 16) :: BytesToHexString s;
  HexStringToBytes_inverse s : HexStringToBytes (BytesToHexString s) = s;
  StrSplit_join s d : str_join d (StrSplit s d) = s;
  StrSplit_clean s d p : p ∈ StrSplit s d → d ∉ p;
  StrSplit_nonempty s d : StrSplit s d ≠ [];
  StrCatInt_decimal z : 0 ≤ z → StrCatInt z = decimal z;
  FormatD_decimal z : 0 ≤ z → FormatD z = decimal z;
  Format02x_digits z : 0 ≤ z < 256 → Format02x z = [hex_digit (z / 16); hex_digit (z mod 16)];
  StartsWith_spec s p : StartsWith s p = true ↔ ∃ t, s = p ++ t;
  ConsumePrefix_spec s p t : ConsumePrefix s p = Some t ↔ s = p ++ t;
  ConsumeSuffix_spec s p t : ConsumeSuffix s p = Some t ↔ s = t ++ p;
  ascii_isxdigit_spec c : ascii_isxdigit c = is_hex_char c;
  ascii_isspace_spec c : ascii_isspace c = is_space_char c;
  (** The stripped string is what is left between two runs of whitespace. *)
  StripAsciiWhitespace_spec s :
    ∃ l r, s = l ++ StripAsciiWhitespace s ++ r ∧
      Forall is_space_char l ∧ Forall is_space_char r ∧
      match StripAsciiWhitespace s with
      | [] => True
      | c :: t => is_space_char c = false ∧ is_space_char (List.last (c :: t) c) = false
      end;
}.

(** * Splitting is determined by its law *)

Lemma str_join_unique d ps qs :
  ps ≠ [] → qs ≠ [] →
  (∀ p, p ∈ ps → d ∉ p) → (∀ q, q ∈ qs → d ∉ q) →
  str_join d ps = str_join d qs → ps = qs.
Proof.
  assert (∀ (p q r s : str), d ∉ p → d ∉ q → p ++ d :: r = q ++ d :: s → p = q ∧ r = s)
    as Hcut.
  { intros p q r s Hp Hq. revert q Hq. induction p as [|c p IH]; intros q Hq Heq.
    - destruct q as [|c q]; [naive_solver|]. injection Heq as -> _. set_solver.
    - destruct q as [|e q]; [injection Heq as -> _; set_solver|].
      injection Heq as -> Heq. destruct (IH ltac:(set_solver) q) as [-> ->];
        [set_solver | done | done]. }
  revert qs. induction ps as [|p ps IH]; intros qs Hps Hqs Hp Hq Heq; [done|].
  destruct qs as [|q qs]; [done|].
  destruct ps as [|p' ps], qs as [|q' qs]; cbn [str_join] in Heq.
  - by subst.
  - exfalso. apply (Hp p); [set_solver|]. rewrite Heq. set_solver.
  - exfalso. apply (Hq q); [set_solver|]. rewrite <-Heq. set_solver.
  - apply Hcut in Heq as [-> Heq]; [|set_solver..].
    f_equal. apply IH; [done | done | set_solver | set_solver | done].
Qed.

Lemma StrSplit_of_join `{AbslStringsLaws} d ps :
  ps ≠ [] → (∀ p, p ∈ ps → d ∉ p) → StrSplit (str_join d ps) d = ps.
Proof.
  intros Hps Hc. apply (str_join_unique d); [apply StrSplit_nonempty | done | | done |].
  - intros p Hp. by eapply StrSplit_clean.
  - apply StrSplit_join.
Qed.

(** * A reference implementation *)

Definition hex_char_value (c : ascii) : Z :=
  let u := uchar c in
  if u <=? 57 then u - 48 else if u <=? 70 then u - 55 else u - 87.

Fixpoint ref_BytesToHexString (s : str) : str :=
  match s with
  | [] => []
  | c :: s => hex_digit (uchar c / 16) :: hex_digit (uchar c mod 16) :: ref_BytesToHexString s
  end.

Fixpoint ref_HexStringToBytes (s : str) : str :=
  match s with
  | a :: b :: s => char_of (hex_char_value a * 16 + hex_char_value b) :: ref_HexStringToBytes s
  | _ => []
  end.

Fixpoint ref_StrSplit (s : str) (d : ascii) : list str :=
  match s with
  | [] => [[]]
  | c :: s =>
    if bool_decide (c = d) then [] :: ref_StrSplit s d
    else match ref_StrSplit s d with [] => [[c]] | p :: ps => (c :: p) :: ps end
  end.

Fixpoint ref_ConsumePrefix (s p : str) : option str :=
  match p, s with
  | [], _ => Some s
  | c :: p, d :: s => if bool_decide (c = d) then ref_ConsumePrefix s p else None
  | _, _ => None
  end.

Fixpoint drop_spaces (s : str) : str :=
  match s with
  | c :: t => if is_space_char c then drop_spaces t else s
  | [] => []
  end.

Definition ref_StripAsciiWhitespace (s : str) : str :=
  rev (drop_spaces (rev (drop_spaces s))).

Definition ref_SimpleHexAtoi (s : str) : option Z :=
  let digits := default s (ref_ConsumePrefix s $"0x") in
  if bool_decide (digits ≠ []) && forallb is_hex_char digits
  then Some (fold_left (λ v c, v * 16 + hex_char_value c) digits 0) else None.

#[export] Instance ref_absl : AbslStrings := {|
  BytesToHexString := ref_BytesToHexString;
  HexStringToBytes := ref_HexStringToBytes;
  StrSplit := ref_StrSplit;
  StrCatInt := decimal;
  FormatD := decimal;
  Format02x := λ z, [hex_digit (z / 16); hex_digit (z mod 16)];
  StartsWith := λ s p, bool_decide (ref_ConsumePrefix s p ≠ None);
  ConsumePrefix := ref_ConsumePrefix;
  ConsumeSuffix := λ s p, (λ t, rev t) <$> ref_ConsumePrefix (rev s) (rev p);
  ascii_isxdigit := is_hex_char;
  ascii_isspace := is_space_char;
  StripAsciiWhitespace := ref_StripAsciiWhitespace;
  SimpleHexAtoi := ref_SimpleHexAtoi;
|}.

Lemma hex_char_value_digit d : 0 ≤ d < 16 → hex_char_value (hex_digit d) = d.
Proof.
  intros Hd.
  assert (Forall (λ d, hex_char_value (hex_digit d) = d) (seqZ 0 16)) as Hall
    by (vm_compute; repeat constructor).
  rewrite Forall_forall in Hall. apply Hall, elem_of_seqZ. lia.
Qed.

Lemma ref_hex_inverse s : ref_HexStringToBytes (ref_BytesToHexString s) = s.
Proof.
  induction s as [|c s IH]; [done|]. cbn [ref_BytesToHexString ref_HexStringToBytes].
  pose proof (uchar_bound c).
  rewrite IH, !hex_char_value_digit by (Z.div_mod_to_equations; lia). f_equal.
  transitivity (char_of (uchar c)); [f_equal | apply char_of_uchar].
  pose proof (Z.div_mod (uchar c) 16 ltac:(done)). lia.
Qed.

Lemma ref_StrSplit_spec s d :
  ref_StrSplit s d ≠ [] ∧ str_join d (ref_StrSplit s d) = s ∧
  ∀ p, p ∈ ref_StrSplit s d → d ∉ p.
Proof.
  induction s as [|c s (Hne & Hj & Hc)]; cbn [ref_StrSplit].
  { split_and!; [done | done |]. intros p ->%list_elem_of_singleton. apply not_elem_of_nil. }
  case_bool_decide as Hd.
  - subst c. split_and!; [done| |].
    + destruct (ref_StrSplit s d); [done|]. cbn [str_join] in *. cbn. by f_equal.
    + intros p [->|Hp]%elem_of_cons; [apply not_elem_of_nil | auto].
  - destruct (ref_StrSplit s d) as [|p ps]; [done|]. split_and!; [done| |].
    + destruct ps; cbn [str_join] in *; cbn; by f_equal.
    + intros q [->|Hq]%elem_of_cons; [|set_solver].
      apply not_elem_of_cons. split; [done|]. apply Hc. set_solver.
Qed.

Lemma ref_ConsumePrefix_spec s p t : ref_ConsumePrefix s p = Some t ↔ s = p ++ t.
Proof.
  revert s. induction p as [|c p IH]; intros s; [destruct s; cbn; naive_solver|].
  destruct s as [|d s]; cbn; [naive_solver|]. case_bool_decide as Hd.
  - rewrite IH. naive_solver.
  - naive_solver.
Qed.

Lemma drop_spaces_spec s :
  ∃ l, s = l ++ drop_spaces s ∧ Forall is_space_char l ∧
    match drop_spaces s with [] => True | c :: _ => is_space_char c = false end.
Proof.
  induction s as [|c s (l & Hs & Hl & Hd)]; [by exists []|]. cbn [drop_spaces].
  destruct (is_space_char c) eqn:Hc.
  - exists (c :: l). split_and!; [cbn; by f_equal | constructor; [by rewrite Hc|done] | done].
  - by exists [].
Qed.

Lemma ref_Strip_spec s :
  ∃ l r, s = l ++ ref_StripAsciiWhitespace s ++ r ∧
    Forall is_space_char l ∧ Forall is_space_char r ∧
    match ref_StripAsciiWhitespace s with
    | [] => True
    | c :: t => is_space_char c = false ∧ is_space_char (List.last (c :: t) c) = false
    end.
Proof.
  unfold ref_StripAsciiWhitespace.
  destruct (drop_spaces_spec s) as (l & Hs & Hl & Hd).
  destruct (drop_spaces_spec (rev (drop_spaces s))) as (r & Hr & Hrs & Hrd).
  assert (drop_spaces s = rev (drop_spaces (rev (drop_spaces s))) ++ rev r) as Hmid.
  { rewrite <-rev_app_distr, <-Hr. by rewrite rev_involutive. }
  exists l, (rev r). split_and!; [by rewrite <-Hmid | done | |].
  - rewrite List.Forall_forall in *. intros x Hx. apply Hrs. by apply in_rev.
  - destruct (rev (drop_spaces (rev (drop_spaces s)))) as [|c t] eqn:Hrev; [done|]. split.
    + rewrite Hmid in Hd. done.
    + destruct (drop_spaces (rev (drop_spaces s))) as [|e u]; [done|].
      cbn [rev] in Hrev. rewrite <-Hrev. by rewrite last_last.
Qed.

#[export] Instance ref_absl_laws : @AbslStringsLaws ref_absl.
Proof.
  split; try done; cbn.
  - apply ref_hex_inverse.
  - intros. apply ref_StrSplit_spec.
  - intros s d p Hp. by apply (ref_StrSplit_spec s d).
  - intros. apply ref_StrSplit_spec.
  - intros s p. rewrite bool_decide_eq_true. split.
    + intros Hs. destruct (ref_ConsumePrefix s p) as [t|] eqn:Ht; [|done].
      exists t. by apply ref_ConsumePrefix_spec.
    + intros [t Ht]. apply ref_ConsumePrefix_spec in Ht. by rewrite Ht.
  - apply ref_ConsumePrefix_spec.
  - intros s p t. rewrite fmap_Some. setoid_rewrite ref_ConsumePrefix_spec. split.
    + intros (u & Hs & ->). rewrite <-(rev_involutive s), Hs, rev_app_distr, rev_involutive. done.
    + intros ->. exists (rev t). by rewrite rev_app_distr, rev_involutive.
  - apply ref_Strip_spec.
Qed.
