(* ===== verification/HexString.v ===== *)
(** p4_infra/string_encodings/hex_string.{h,cc}: conversions between bit sets, integers,
    byte strings and hexadecimal strings such as "0xf0a1".  [hex_value] is the reference
    meaning of a string of hexadecimal digits. *)
From S2P Require Import Prelude Bitset ByteString Abseil.

(** * Definitions *)

(** The [switch] of [HexDigitToChar]; an illegal digit logs and returns '?'. *)
Definition HexDigitToChar (digit : Z) : ascii :=
  match digit with
  | 0 => "0" | 1 => "1" | 2 => "2" | 3 => "3" | 4 => "4" | 5 => "5" | 6 => "6" | 7 => "7"
  | 8 => "8" | 9 => "9" | 10 => "a" | 11 => "b" | 12 => "c" | 13 => "d" | 14 => "e"
  | 15 => "f" | _ => "?"
  end%char.

Definition HexCharToDigit (hex_char : ascii) : result Z :=
  match hex_char with
  | "0" => Ok 0 | "1" => Ok 1 | "2" => Ok 2 | "3" => Ok 3 | "4" => Ok 4 | "5" => Ok 5
  | "6" => Ok 6 | "7" => Ok 7 | "8" => Ok 8 | "9" => Ok 9
  | "a" | "A" => Ok 10 | "b" | "B" => Ok 11 | "c" | "C" => Ok 12
  | "d" | "D" => Ok 13 | "e" | "E" => Ok 14 | "f" | "F" => Ok 15
  | _ => Err kInvalidArgument
  end%char.

(** The [i]-th hexadecimal digit of a bit set: bits [4i+3] down to [4i]. *)
Definition ith_hex_digit (num_bits bitset i : Z) : Z :=
  fold_left (λ ith_digit k,
      let kth_bit := if k <? num_bits then Z.b2z (bs_test bitset k) else 0 in
      Z.lor (Z.shiftl ith_digit 1) kth_bit)
    [4 * i + 3; 4 * i + 2; 4 * i + 1; 4 * i] 0.

Definition BitsetToHexString (num_bits bitset : Z) : str :=
  let num_hex_digits := (num_bits + 3) / 4 in
  let hex_string := map (λ i, HexDigitToChar (ith_hex_digit num_bits bitset i))
                        (seqZ 0 num_hex_digits) in
  $"0x" ++ rev hex_string.

(** The inner loop over the four bits of one digit. *)
Fixpoint set_digit_bits (num_bits i ith_digit : Z) (js : list Z) (bitset : Z) : result Z :=
  match js with
  | [] => Ok bitset
  | j :: js =>
    let k := 4 * i + j in
    let kth_bit := Z.shiftr ith_digit j mod 2 =? 1 in
    if negb kth_bit then set_digit_bits num_bits i ith_digit js bitset
    else if k <? num_bits then set_digit_bits num_bits i ith_digit js (Z.setbit bitset k)
    else Err kInvalidArgument
  end.

(** The outer loop visits the digits from the least significant one. *)
Fixpoint digits_loop (num_bits i : Z) (rev_digits : str) (bitset : Z) : result Z :=
  match rev_digits with
  | [] => Ok bitset
  | ith_char :: rest =>
    ith_digit ← HexCharToDigit ith_char;
    bitset ← set_digit_bits num_bits i ith_digit [0; 1; 2; 3] bitset;
    digits_loop num_bits (i + 1) rest bitset
  end.

Section with_absl.
Context `{AbslStrings}.

Definition HexStringToAnyLargeEnoughBitset (num_bits : Z) (hex_string : str) : result Z :=
  match ConsumePrefix hex_string $"0x" with
  | None => Err kInvalidArgument
  | Some hex_string => digits_loop num_bits 0 (rev hex_string) 0
  end.

Definition HexStringToBitset (num_bits : Z) (hex_string : str) : result Z :=
  let num_hex_chars := zlen hex_string - 2 in
  let expected_num_hex_chars := (num_bits + 3) / 4 in
  if StartsWith hex_string $"0x" && negb (num_hex_chars =? expected_num_hex_chars)
  then Err kInvalidArgument
  else HexStringToAnyLargeEnoughBitset num_bits hex_string.

Definition ByteStringToHexString (byte_string : str) : str :=
  $"0x" ++ BytesToHexString byte_string.

(** [HexStringTo<T>]: [w] is the width of [T]; [memcpy] of the bits into a signed [T]
    reads them as two's complement. *)
Definition HexStringTo (signed : bool) (w : Z) (hex_string : str) : result Z :=
  bits ← HexStringToAnyLargeEnoughBitset w hex_string;
  Ok (if signed then wrapS w bits else wrapU w bits).

Definition HexStringToInt : str → result Z := HexStringTo true 32.
Definition HexStringToInt32 : str → result Z := HexStringTo true 32.
Definition HexStringToInt64 : str → result Z := HexStringTo true 64.
Definition HexStringToUint32 : str → result Z := HexStringTo false 32.
Definition HexStringToUint64 : str → result Z := HexStringTo false 64.

(** One iteration consumes two characters; the length is even. *)
Fixpoint hex_pairs_loop (hex_string : str) (res : str) : result str :=
  match hex_string with
  | ith_char :: ith_plus1_char :: rest =>
    ith_digit ← HexCharToDigit ith_char;
    ith_plus1_digit ← HexCharToDigit ith_plus1_char;
    let c := wrapU 8 (Z.lor (Z.shiftl ith_digit 4) ith_plus1_digit) in
    hex_pairs_loop rest (res ++ [SafeChar c])
  | _ => Ok res
  end.

Definition HexStringToByteString (hex_string : str) : result str :=
  match ConsumePrefix hex_string $"0x" with
  | None => Err kInvalidArgument
  | Some hex_string =>
    if negb (zlen hex_string mod 2 =? 0) then Err kInvalidArgument
    else hex_pairs_loop hex_string []
  end.
End with_absl.

(** * Digits *)

Lemma HexCharToDigit_bound c d : HexCharToDigit c = Ok d → 0 ≤ d < 16.
Proof.
  assert (∀ b0 b1 b2 b3 b4 b5 b6 b7,
    match HexCharToDigit (Ascii b0 b1 b2 b3 b4 b5 b6 b7) with
    | Ok d => (0 <=? d) && (d <? 16) | _ => true end = true) as Hall
    by (intros [] [] [] [] [] [] [] []; reflexivity).
  intros Hd. destruct c as [b0 b1 b2 b3 b4 b5 b6 b7].
  specialize (Hall b0 b1 b2 b3 b4 b5 b6 b7). rewrite Hd in Hall. lia.
Qed.

Lemma HexCharToDigit_cases c :
  HexCharToDigit c = Err kInvalidArgument ∨ ∃ d, HexCharToDigit c = Ok d ∧ 0 ≤ d < 16.
Proof.
  destruct (HexCharToDigit c) as [d|e|] eqn:Hd.
  - right. exists d. split; [done|]. by eapply HexCharToDigit_bound.
  - left. destruct c as [[] [] [] [] [] [] [] []]; cbn in Hd; congruence.
  - exfalso. destruct c as [[] [] [] [] [] [] [] []]; discriminate Hd.
Qed.

Lemma HexDigit_roundtrip d : 0 ≤ d < 16 → HexCharToDigit (HexDigitToChar d) = Ok d.
Proof.
  intros Hd. assert (d ∈ seqZ 0 16) as Hin by (apply elem_of_seqZ; lia).
  clear Hd. revert d Hin. rewrite <-Forall_forall. vm_compute. repeat constructor.
Qed.

Lemma hex_digit_roundtrip d : 0 ≤ d < 16 → HexCharToDigit (hex_digit d) = Ok d.
Proof.
  intros Hd. assert (d ∈ seqZ 0 16) as Hin by (apply elem_of_seqZ; lia).
  clear Hd. revert d Hin. rewrite <-Forall_forall. vm_compute. repeat constructor.
Qed.

(** The digits of a string, most significant first, when they are all hexadecimal. *)
Fixpoint hex_digits (s : str) : option (list Z) :=
  match s with
  | [] => Some []
  | c :: s =>
    match HexCharToDigit c, hex_digits s with
    | Ok d, Some ds => Some (d :: ds)
    | _, _ => None
    end
  end.

Definition hex_value (ds : list Z) : Z := fold_left (λ acc d, acc * 16 + d) ds 0.

Lemma hex_value_acc ds v :
  fold_left (λ acc d, acc * 16 + d) ds v = v * 16 ^ zlen ds + hex_value ds.
Proof.
  unfold hex_value. revert v. induction ds as [|d ds IH]; intros v; cbn [fold_left].
  - rewrite zlen_nil. lia.
  - rewrite IH, (IH (0 * 16 + d)), zlen_cons. pose proof (zlen_nonneg ds).
    rewrite Z.pow_add_r by lia. ring.
Qed.

Lemma hex_value_snoc ds d : hex_value (ds ++ [d]) = hex_value ds * 16 + d.
Proof. unfold hex_value. by rewrite fold_left_app. Qed.

Lemma hex_digits_app s t :
  hex_digits (s ++ t) =
    match hex_digits s, hex_digits t with
    | Some ds, Some es => Some (ds ++ es) | _, _ => None end.
Proof.
  induction s as [|c s IH]; cbn [hex_digits app]; [by destruct (hex_digits t)|].
  destruct (HexCharToDigit c); [|done..]. rewrite IH.
  destruct (hex_digits s), (hex_digits t); done.
Qed.

Lemma hex_digits_bound s ds :
  hex_digits s = Some ds → length ds = length s ∧ Forall (λ d, 0 ≤ d < 16) ds.
Proof.
  revert ds. induction s as [|c s IH]; intros ds Hds; cbn [hex_digits] in Hds; [naive_solver|].
  destruct (HexCharToDigit c) as [d| |] eqn:Hd; [|done..].
  destruct (hex_digits s) as [es|] eqn:Hes; [|done]. injection Hds as <-.
  destruct (IH es eq_refl) as [Hl Hf]. cbn. split; [by f_equal|].
  constructor; [by eapply HexCharToDigit_bound | done].
Qed.

Lemma hex_value_bound ds :
  Forall (λ d, 0 ≤ d < 16) ds → 0 ≤ hex_value ds < 16 ^ zlen ds.
Proof.
  induction ds as [|d ds IH] using rev_ind; [by cbn|].
  rewrite Forall_app. intros [Hds Hd]. apply Forall_inv in Hd.
  rewrite hex_value_snoc, zlen_app. change (zlen [d]) with 1.
  pose proof (zlen_nonneg ds). rewrite Z.pow_add_r by lia. specialize (IH Hds). lia.
Qed.

(** * Parsing *)

(** Setting a bit above all the bits of a value adds its weight. *)
Lemma setbit_add a k : 0 ≤ k → 0 ≤ a < 2 ^ k → Z.setbit a k = a + 2 ^ k.
Proof.
  intros Hk Ha. rewrite Z.setbit_spec'.
  assert (Z.land a (2 ^ k) = 0) as Hland.
  { apply Z.bits_inj'. intros i Hi. rewrite Z.land_spec, Z.bits_0, Z.pow2_bits_eqb by done.
    destruct (Z.eqb_spec k i) as [<-|]; [|apply andb_false_r].
    by rewrite (testbit_above k a k). }
  by rewrite (Z.add_nocarry_lxor _ _ Hland), (Z.lxor_lor _ _ Hland).
Qed.

Lemma shiftr_mod2 d j : 0 ≤ j → Z.shiftr d j mod 2 = Z.b2z (Z.testbit d j).
Proof. intros. rewrite Z.testbit_spec', Z.shiftr_div_pow2 by done. done. Qed.

(** The low [j] bits of a digit, built up bit by bit. *)
Lemma low_bits_succ d j :
  0 ≤ j → d mod 2 ^ (j + 1) = d mod 2 ^ j + (if Z.testbit d j then 2 ^ j else 0).
Proof.
  intros Hj. rewrite Z.pow_add_r, (Z.rem_mul_r d (2 ^ j)) by lia.
  change (2 ^ 1) with 2. rewrite <-Z.testbit_spec' by done.
  destruct (Z.testbit d j); cbn [Z.b2z]; lia.
Qed.

Section digit_bits.
Context (n i d acc : Z) (Hi : 0 ≤ i) (Hn : 0 ≤ n).
Context (Hacc : 0 ≤ acc < 2 ^ (4 * i)) (Haccn : bs_ok n acc).

(** The value after the bits below [j] were transferred. *)
Local Abbreviation partial j := (acc + d mod 2 ^ j * 2 ^ (4 * i)).

Lemma partial_bound j : 0 ≤ j → 0 ≤ partial j < 2 ^ (4 * i + j).
Proof.
  intros Hj. pose proof (Z.mod_pos_bound d (2 ^ j)).
  rewrite Z.pow_add_r by lia. assert (0 < 2 ^ (4 * i)) by lia.
  assert (0 < 2 ^ j) by lia. nia.
Qed.

Lemma set_digit_bits_step j js :
  0 ≤ j →
  set_digit_bits n i d (j :: js) (partial j) =
    if partial (j + 1) <? 2 ^ n
    then set_digit_bits n i d js (partial (j + 1))
    else if Z.testbit d j then Err kInvalidArgument
    else set_digit_bits n i d js (partial (j + 1)).
Proof.
  intros Hj. cbn [set_digit_bits]. rewrite shiftr_mod2, low_bits_succ by done.
  pose proof (partial_bound j Hj) as Hb.
  destruct (Z.testbit d j); cbn [Z.b2z].
  - change (1 =? 1) with true. cbn [negb].
    rewrite setbit_add by (done || lia).
    assert (acc + (d mod 2 ^ j + 2 ^ j) * 2 ^ (4 * i) = partial j + 2 ^ (4 * i + j)) as ->
      by (rewrite Z.pow_add_r by lia; ring).
    destruct (Z.ltb_spec (4 * i + j) n) as [Hlt|Hge].
    + assert (2 * 2 ^ (4 * i + j) ≤ 2 ^ n)
        by (rewrite <-Z.pow_succ_r by lia; apply Z.pow_le_mono_r; lia).
      by rewrite (proj2 (Z.ltb_lt _ _)) by lia.
    + assert (2 ^ n ≤ 2 ^ (4 * i + j)) by (apply Z.pow_le_mono_r; lia).
      by rewrite (proj2 (Z.ltb_ge _ _)) by lia.
  - change (0 =? 1) with false. cbn [negb]. rewrite Z.add_0_r. by case_if.
Qed.

Lemma partial_mono j m : 0 ≤ j → 0 ≤ m → partial j ≤ partial (j + m).
Proof.
  intros Hj Hm. assert (0 < 2 ^ (4 * i)) by lia.
  apply Z.add_le_mono_l, Z.mul_le_mono_nonneg_r; [lia|].
  rewrite Z.pow_add_r, (Z.rem_mul_r d (2 ^ j)) by lia.
  assert (0 < 2 ^ j) by lia. assert (0 < 2 ^ m) by lia.
  pose proof (Z.mod_pos_bound (d / 2 ^ j) (2 ^ m)). nia.
Qed.

Lemma set_digit_bits_loop m j :
  0 ≤ j → partial j < 2 ^ n →
  set_digit_bits n i d (seqZ j (Z.of_nat m)) (partial j) =
    if partial (j + Z.of_nat m) <? 2 ^ n then Ok (partial (j + Z.of_nat m))
    else Err kInvalidArgument.
Proof.
  revert j. induction m as [|m IH]; intros j Hj Hlt.
  { change (Z.of_nat 0) with 0. rewrite Z.add_0_r. by rewrite (proj2 (Z.ltb_lt _ _)). }
  rewrite Nat2Z.inj_succ, seqZ_cons by lia. rewrite Z.pred_succ.
  rewrite set_digit_bits_step by done. replace (j + Z.succ (Z.of_nat m)) with
    (Z.succ j + Z.of_nat m) by lia. change (j + 1) with (Z.succ j).
  destruct (Z.ltb_spec (partial (Z.succ j)) (2 ^ n)) as [Hs|Hs]; [by apply IH; lia|].
  pose proof (partial_mono (Z.succ j) (Z.of_nat m) ltac:(lia) ltac:(lia)).
  rewrite (proj2 (Z.ltb_ge _ _)) by lia.
  pose proof (low_bits_succ d j Hj) as Hlow.
  destruct (Z.testbit d j); [done|]. change (Z.succ j) with (j + 1) in Hs.
  rewrite Hlow, Z.add_0_r in Hs. lia.
Qed.

Lemma set_digit_bits_spec :
  0 ≤ d < 16 →
  set_digit_bits n i d [0; 1; 2; 3] acc =
    if acc + d * 2 ^ (4 * i) <? 2 ^ n then Ok (acc + d * 2 ^ (4 * i))
    else Err kInvalidArgument.
Proof.
  intros Hd. assert (partial 0 = acc) as H0 by (rewrite Z.mod_1_r; lia).
  assert (acc + d * 2 ^ (4 * i) = partial 4) as -> by (rewrite Z.mod_small; lia).
  rewrite <-H0 at 1. apply (set_digit_bits_loop 4 0); [lia|].
  rewrite H0. apply Haccn.
Qed.
End digit_bits.

(** The reference meaning of the digits after "0x" for a width of [n] bits. *)
Definition parse_hex (n : Z) (h : str) : result Z :=
  match hex_digits h with
  | Some ds => if hex_value ds <? 2 ^ n then Ok (hex_value ds) else Err kInvalidArgument
  | None => Err kInvalidArgument
  end.

Lemma digits_loop_spec n i rs acc :
  0 ≤ i → 0 ≤ n → 0 ≤ acc < 2 ^ (4 * i) → bs_ok n acc →
  digits_loop n i rs acc =
    match hex_digits (rev rs) with
    | Some ds =>
      if acc + hex_value ds * 2 ^ (4 * i) <? 2 ^ n then Ok (acc + hex_value ds * 2 ^ (4 * i))
      else Err kInvalidArgument
    | None => Err kInvalidArgument
    end.
Proof.
  intros Hi Hn. revert i Hi acc. induction rs as [|c rs IH]; intros i Hi acc Hacc Hok.
  { cbn. rewrite Z.add_0_r. by rewrite (proj2 (Z.ltb_lt _ _)) by apply Hok. }
  cbn [digits_loop rev]. rewrite hex_digits_app. cbn [hex_digits].
  destruct (HexCharToDigit_cases c) as [Hc | (d & Hc & Hd)]; rewrite Hc.
  { cbn. by destruct (hex_digits (rev rs)). }
  rewrite bind_Ok_l, set_digit_bits_spec by done.
  assert (0 < 2 ^ (4 * i)) by lia.
  assert (2 ^ (4 * (i + 1)) = 16 * 2 ^ (4 * i)) as Hpow
    by (rewrite Z.mul_add_distr_l, Z.pow_add_r by lia; lia).
  destruct (Z.ltb_spec (acc + d * 2 ^ (4 * i)) (2 ^ n)) as [Hlt|Hge].
  - rewrite bind_Ok_l, IH by (unfold bs_ok; nia).
    destruct (hex_digits (rev rs)) as [ds|]; [|done]. rewrite hex_value_snoc, Hpow.
    replace (acc + d * 2 ^ (4 * i) + hex_value ds * (16 * 2 ^ (4 * i)))
      with (acc + (hex_value ds * 16 + d) * 2 ^ (4 * i)) by ring. done.
  - destruct (hex_digits (rev rs)) as [ds|] eqn:Hds; [|done]. rewrite hex_value_snoc.
    apply hex_digits_bound in Hds as [_ Hds%hex_value_bound].
    rewrite (proj2 (Z.ltb_ge _ _)) by nia. done.
Qed.

Lemma digits_loop_parse n h : 0 ≤ n → digits_loop n 0 (rev h) 0 = parse_hex n h.
Proof.
  intros Hn. rewrite digits_loop_spec by (unfold bs_ok; lia). rewrite rev_involutive.
  unfold parse_hex. destruct (hex_digits h); [|done].
  change (2 ^ (4 * 0)) with 1. by rewrite Z.mul_1_r, Z.add_0_l.
Qed.

(** A digit below another one: the two halves of a byte. *)
Lemma setbit_or_digit a b : 0 ≤ b < 16 → Z.lor (Z.shiftl a 4) b = a * 16 + b.
Proof.
  intros Hb. assert (Z.land (Z.shiftl a 4) b = 0) as Hl.
  { apply Z.bits_inj'. intros i Hi. rewrite Z.land_spec, Z.bits_0.
    destruct (Z.lt_ge_cases i 4); [by rewrite Z.shiftl_spec_low|].
    rewrite (testbit_above 4 b i); [apply andb_false_r | unfold bs_ok; lia | done]. }
  rewrite <-(Z.lxor_lor _ _ Hl), <-(Z.add_nocarry_lxor _ _ Hl).
  by rewrite Z.shiftl_mul_pow2 by lia.
Qed.

(** * Printing *)

Lemma ith_hex_digit_spec n b i :
  0 ≤ i → bs_ok n b → ith_hex_digit n b i = (b / 16 ^ i) mod 16.
Proof.
  intros Hi Hb. unfold ith_hex_digit. cbn [fold_left].
  assert (∀ k, (if k <? n then Z.b2z (bs_test b k) else 0) = Z.b2z (Z.testbit b k)) as Hbit.
  { intros k. destruct (Z.ltb_spec k n); [done|]. by rewrite (testbit_above n b k). }
  rewrite !Hbit.
  assert (∀ a c, Z.lor (Z.shiftl a 1) (Z.b2z c) = 2 * a + Z.b2z c) as Hlor.
  { intros a c. assert (Z.land (Z.shiftl a 1) (Z.b2z c) = 0) as Hl.
    { apply Z.bits_inj'. intros j Hj. rewrite Z.land_spec, Z.bits_0.
      destruct (Z.eq_decidable j 0) as [->|]; [by rewrite Z.shiftl_spec_low by lia|].
      destruct c; cbn [Z.b2z]; [|by rewrite Z.bits_0, andb_false_r].
      rewrite (testbit_above 1 1 j), andb_false_r; [done | by cbv | lia]. }
    rewrite <-(Z.lxor_lor _ _ Hl), <-(Z.add_nocarry_lxor _ _ Hl).
    rewrite Z.shiftl_mul_pow2 by lia. lia. }
  rewrite !Hlor.
  assert (∀ j, 0 ≤ j → Z.testbit b (4 * i + j) = Z.testbit (b / 16 ^ i) j) as Hshift.
  { intros j Hj. change 16 with (2 ^ 4). rewrite <-Z.pow_mul_r by lia.
    rewrite <-Z.shiftr_div_pow2, Z.shiftr_spec by lia. f_equal. lia. }
  rewrite !Hshift by lia. replace (4 * i) with (4 * i + 0) by lia. rewrite Hshift by lia.
  set (c := b / 16 ^ i).
  pose proof (low_bits_succ c 0 ltac:(lia)) as B0. pose proof (low_bits_succ c 1 ltac:(lia)) as B1.
  pose proof (low_bits_succ c 2 ltac:(lia)) as B2. pose proof (low_bits_succ c 3 ltac:(lia)) as B3.
  change (0 + 1) with 1 in B0. change (1 + 1) with 2 in B1. change (2 + 1) with 3 in B2.
  change (3 + 1) with 4 in B3. change 16 with (2 ^ 4).
  rewrite B3, B2, B1, B0, Z.mod_1_r.
  destruct (Z.testbit c 0), (Z.testbit c 1), (Z.testbit c 2), (Z.testbit c 3); reflexivity.
Qed.

Lemma hex_digits_print ds :
  Forall (λ d, 0 ≤ d < 16) ds → hex_digits (map HexDigitToChar ds) = Some ds.
Proof.
  induction 1 as [|d ds Hd Hds IH]; [done|]. cbn [map hex_digits].
  by rewrite HexDigit_roundtrip, IH.
Qed.

Lemma printed_digits_value b m :
  0 ≤ b →
  hex_value (rev (map (λ i, (b / 16 ^ i) mod 16) (seqZ 0 (Z.of_nat m)))) = b mod 16 ^ Z.of_nat m.
Proof.
  intros Hb. induction m as [|m IH]; [by rewrite Z.mod_1_r|].
  rewrite Nat2Z.inj_succ. change (Z.succ (Z.of_nat m)) with (Z.of_nat m + 1).
  rewrite seqZ_app by lia. rewrite map_app, rev_app_distr. cbn [seqZ].
  change (seqZ (0 + Z.of_nat m) 1) with [0 + Z.of_nat m]. cbn [map rev app].
  rewrite Z.add_0_l. unfold hex_value at 1. cbn [fold_left]. rewrite hex_value_acc, IH.
  assert (zlen (rev (map (λ i, (b / 16 ^ i) mod 16) (seqZ 0 (Z.of_nat m)))) = Z.of_nat m)
    as ->.
  { unfold zlen. rewrite length_rev, length_map, length_seqZ. lia. }
  rewrite Z.pow_add_r, (Z.rem_mul_r b) by lia. change (16 ^ 1) with 16. ring.
Qed.

Lemma BitsetToHexString_digits n b :
  0 ≤ n → bs_ok n b →
  ∃ h, BitsetToHexString n b = $"0x" ++ h ∧ zlen h = (n + 3) / 4 ∧ parse_hex n h = Ok b.
Proof.
  intros Hn Hb. unfold BitsetToHexString.
  assert (0 ≤ (n + 3) / 4) as Hm by (Z.div_mod_to_equations; lia).
  set (m := Z.to_nat ((n + 3) / 4)). assert ((n + 3) / 4 = Z.of_nat m) as -> by lia.
  exists (map HexDigitToChar (rev (map (λ i, (b / 16 ^ i) mod 16) (seqZ 0 (Z.of_nat m))))).
  split_and!.
  - f_equal. rewrite map_rev, map_map. f_equal. apply map_ext_in. intros i Hin.
    apply list_elem_of_In, elem_of_seqZ in Hin. by rewrite ith_hex_digit_spec by (done || lia).
  - unfold zlen. rewrite length_map, length_rev, length_map, length_seqZ. lia.
  - unfold parse_hex. rewrite hex_digits_print, printed_digits_value by
      (try apply Hb; apply Forall_forall; intros d Hd;
       apply list_elem_of_In, in_rev, in_map_iff in Hd as (? & <- & _);
       apply Z.mod_pos_bound; lia).
    destruct Hb as [Hb1 Hb2]. change 16 with (2 ^ 4). rewrite <-Z.pow_mul_r by lia.
    assert (2 ^ n ≤ 2 ^ (4 * Z.of_nat m))
      by (apply Z.pow_le_mono_r; [lia | subst m; Z.div_mod_to_equations; lia]).
    rewrite Z.mod_small by lia. by rewrite (proj2 (Z.ltb_lt _ _)).
Qed.

(** * Theorems *)

Section theorems.
Context `{AbslStringsLaws}.

Lemma HexStringToAnyLargeEnoughBitset_spec n s :
  0 ≤ n →
  HexStringToAnyLargeEnoughBitset n s =
    match ConsumePrefix s $"0x" with Some h => parse_hex n h | None => Err kInvalidArgument end.
Proof.
  intros Hn. unfold HexStringToAnyLargeEnoughBitset.
  destruct (ConsumePrefix s _); [by apply digits_loop_parse | done].
Qed.

Lemma ConsumePrefix_app p t : ConsumePrefix (p ++ t) p = Some t.
Proof. by apply ConsumePrefix_spec. Qed.

Lemma StartsWith_app p t : StartsWith (p ++ t) p = true.
Proof. apply StartsWith_spec. by exists t. Qed.

Lemma StartsWith_ConsumePrefix s p :
  StartsWith s p = bool_decide (ConsumePrefix s p ≠ None).
Proof.
  apply eq_iff_eq_true. rewrite StartsWith_spec, bool_decide_eq_true. split.
  - intros [t ->]. by rewrite ConsumePrefix_app.
  - intros Hs. destruct (ConsumePrefix s p) as [t|] eqn:Ht; [|done].
    exists t. by apply ConsumePrefix_spec.
Qed.

Lemma HexStringToBitset_spec n h :
  0 ≤ n →
  HexStringToBitset n ($"0x" ++ h) =
    if zlen h =? (n + 3) / 4 then parse_hex n h else Err kInvalidArgument.
Proof.
  intros Hn. unfold HexStringToBitset.
  rewrite StartsWith_app, HexStringToAnyLargeEnoughBitset_spec, ConsumePrefix_app by done.
  replace (zlen ($"0x" ++ h) - 2) with (zlen h) by (rewrite zlen_app; change (zlen $"0x") with 2; lia).
  by destruct (zlen h =? (n + 3) / 4).
Qed.

(** Hexadecimal printing and parsing of bit sets are inverse: [BitsetToHexString] prints
    "0x" and ceil(N/4) digits, [HexStringToBitset] reads them back, and it accepts no other
    string than "0x" followed by exactly that many hexadecimal digits (of either case) of a
    value below 2^N, which it returns. *)
Theorem bitset_hex_string_roundtrip (n b : Z) (s : str) :
  0 ≤ n → bs_ok n b →
  HexStringToBitset n (BitsetToHexString n b) = Ok b ∧
  (HexStringToBitset n s = Ok b ↔
    ∃ h ds, s = $"0x" ++ h ∧ zlen h = (n + 3) / 4 ∧ hex_digits h = Some ds ∧ hex_value ds = b).
Proof.
  intros Hn Hb. split.
  - destruct (BitsetToHexString_digits n b Hn Hb) as (h & -> & Hlen & Hp).
    rewrite HexStringToBitset_spec, Hlen by done. by rewrite Z.eqb_refl.
  - split.
    + intros Hs. destruct (ConsumePrefix s $"0x") as [h|] eqn:Hc.
      * apply ConsumePrefix_spec in Hc as ->.
        rewrite HexStringToBitset_spec in Hs by done.
        destruct (Z.eqb_spec (zlen h) ((n + 3) / 4)); [|done].
        unfold parse_hex in Hs. destruct (hex_digits h) as [ds|] eqn:Hds; [|done].
        exists h, ds. by repeat case_if; simplify_result.
      * unfold HexStringToBitset in Hs.
        rewrite HexStringToAnyLargeEnoughBitset_spec, Hc in Hs by done. by case_if.
    + intros (h & ds & -> & Hlen & Hds & <-). rewrite HexStringToBitset_spec by done.
      rewrite Hlen, Z.eqb_refl. unfold parse_hex. rewrite Hds.
      by rewrite (proj2 (Z.ltb_lt _ _)) by apply Hb.
Qed.

(** [HexStringToInt32]/[HexStringToInt64] read the digits as two's complement and their
    unsigned counterparts as plain integers: printing the low 32 (64) bits of an integer of
    the type's range and parsing gives the integer back, negative ones included. *)
Theorem HexStringTo_twos_complement (w z : Z) :
  (w = 32 ∨ w = 64) → - 2 ^ (w - 1) ≤ z < 2 ^ (w - 1) →
  HexStringTo true w (BitsetToHexString w (wrapU w z)) = Ok z ∧
  HexStringTo false w (BitsetToHexString w (wrapU w z)) = Ok (wrapU w z).
Proof.
  intros Hw Hz. assert (0 < w) by lia.
  destruct (BitsetToHexString_digits w (wrapU w z)) as (h & -> & _ & Hp);
    [lia | apply wrapU_bound; lia |].
  unfold HexStringTo. rewrite HexStringToAnyLargeEnoughBitset_spec, ConsumePrefix_app, Hp by lia.
  rewrite !bind_Ok_l. split; f_equal.
  - unfold wrapS, wrapU. rewrite Zplus_mod_idemp_l. by apply wrapS_small.
  - apply wrapU_small, wrapU_bound. lia.
Qed.

(** * Byte strings *)

Lemma hex_pairs_loop_spec h res bs :
  hex_pairs_loop h res = Ok bs → Nat.Even (length h) →
  ∃ ds t, hex_digits h = Some ds ∧ bs = res ++ t ∧ be_value t = hex_value ds ∧
    (length h = 2 * length t)%nat.
Proof.
  remember (length h) as k eqn:Hk. revert h Hk res.
  induction k as [k IH] using lt_wf_ind. intros h -> res Hl Heven.
  destruct h as [|a [|b h]].
  - exists [], []. cbn in *. simplify_result. by rewrite app_nil_r.
  - destruct Heven as [j Hj]. cbn in Hj. lia.
  - cbn [hex_pairs_loop] in Hl. apply bind_Ok_iff in Hl as (da & Ha & Hl).
    apply bind_Ok_iff in Hl as (db & Hb & Hl).
    destruct (IH (length h) ltac:(cbn; lia) h eq_refl _ Hl) as (ds & t & Hds & -> & Hv & Hlen).
    { destruct Heven as [j Hj]. exists (j - 1)%nat. cbn in Hj. lia. }
    exists (da :: db :: ds), (SafeChar (wrapU 8 (Z.lor (Z.shiftl da 4) db)) :: t).
    cbn [hex_digits]. rewrite Ha, Hb, Hds. split_and!; [done | by rewrite <-app_assoc | |].
    + apply hex_digits_bound in Hds as [Hlds _].
      apply HexCharToDigit_bound in Ha, Hb.
      rewrite be_value_cons, Hv. unfold hex_value at 2. cbn [fold_left].
      rewrite hex_value_acc. unfold SafeChar. rewrite uchar_char_of.
      assert (Z.lor (Z.shiftl da 4) db = da * 16 + db) as ->.
      { by apply setbit_or_digit. }
      unfold wrapU. rewrite Z.mod_mod, Z.mod_small by lia.
      replace (zlen ds) with (2 * zlen t) by (unfold zlen; lia).
      pose proof (zlen_nonneg t). rewrite Z.pow_mul_r by lia. change (16 ^ 2) with 256. ring.
    + cbn. lia.
Qed.

Lemma hex_pairs_loop_print s res : hex_pairs_loop (BytesToHexString s) res = Ok (res ++ s).
Proof.
  revert res. induction s as [|c s IH]; intros res.
  { rewrite BytesToHexString_nil, app_nil_r. done. }
  rewrite BytesToHexString_cons. cbn [hex_pairs_loop]. pose proof (uchar_bound c).
  rewrite !hex_digit_roundtrip by (Z.div_mod_to_equations; lia). rewrite !bind_Ok_l.
  rewrite IH, <-app_assoc. f_equal. f_equal. cbn [app]. f_equal.
  rewrite setbit_or_digit by (Z.div_mod_to_equations; lia).
  assert (uchar c / 16 * 16 + uchar c mod 16 = uchar c) as -> by (Z.div_mod_to_equations; lia).
  unfold SafeChar. rewrite wrapU_small by done. apply char_of_uchar.
Qed.

Lemma BytesToHexString_length s : length (BytesToHexString s) = (2 * length s)%nat.
Proof.
  induction s as [|c s IH]; [by rewrite BytesToHexString_nil|].
  rewrite BytesToHexString_cons. cbn. lia.
Qed.

(** [HexStringToByteString] undoes [ByteStringToHexString]; and whatever it accepts is
    "0x" followed by an even number of hexadecimal digits, two per result byte, denoting the
    same integer as the bytes it returns. *)
Theorem hex_byte_string_roundtrip (s h bs : str) :
  HexStringToByteString (ByteStringToHexString s) = Ok s ∧
  (HexStringToByteString h = Ok bs →
   ∃ t ds, h = $"0x" ++ t ∧ hex_digits t = Some ds ∧ zlen t = 2 * zlen bs ∧
     be_value bs = hex_value ds).
Proof.
  unfold HexStringToByteString, ByteStringToHexString. split.
  - rewrite ConsumePrefix_app, hex_pairs_loop_print.
    unfold zlen. rewrite BytesToHexString_length, Nat2Z.inj_mul, Z.mul_comm.
    by rewrite Z.mod_mul.
  - destruct (ConsumePrefix h _) as [t|] eqn:Ht; [|done]. apply ConsumePrefix_spec in Ht.
    destruct (Z.eqb_spec (zlen t mod 2) 0) as [Hm|]; [|done]. cbn [negb]. intros Hl.
    apply hex_pairs_loop_spec in Hl as (ds & bs' & Hds & -> & Hv & Hlen).
    + exists t, ds. split_and!; [done | done | unfold zlen; cbn; lia | done].
    + exists (Z.to_nat (zlen t / 2)). unfold zlen in *. Z.div_mod_to_equations. lia.
Qed.
End theorems.

Example bitset_hex_string_roundtrip_witness :
  @HexStringToBitset ref_absl 9 $"0x1fF" = Ok 511.
Proof.
  apply (bitset_hex_string_roundtrip 9 511 $"0x1fF"); [lia | split; lia |].
  exists $"1fF", [1; 15; 15]. by vm_compute.
Defined.

Example HexStringTo_twos_complement_witness :
  @HexStringTo ref_absl true 32 (BitsetToHexString 32 (wrapU 32 (-2))) = Ok (-2).
Proof. apply (HexStringTo_twos_complement 32 (-2)); lia. Defined.

Example hex_byte_string_roundtrip_witness :
  @HexStringToByteString ref_absl (ByteStringToHexString ["010"; "255"]%char) =
  Ok ["010"; "255"]%char.
Proof. apply (hex_byte_string_roundtrip ["010"; "255"]%char [] []). Defined.
