(* ===== verification/DecimalString.v ===== *)
(** p4_infra/string_encodings/decimal_string.cc: checked conversions between decimal strings
    and 32- or 64-bit integers. *)
From S2P Require Import Prelude Abseil.

(** * Definitions *)

(** [std::isdigit] in the "C" locale. *)
Definition isdigit (c : ascii) : bool := (48 <=? uchar c) && (uchar c <=? 57).

(** [std::numeric_limits<IntType>::max()]. *)
Definition int_max (signed : bool) (w : Z) : Z := if signed then 2 ^ (w - 1) - 1 else 2 ^ w - 1.

(** The loop over the characters; [size] is the size of the whole string. *)
Fixpoint decimal_loop (max_value size : Z) (rest : str) (res : Z) : result Z :=
  match rest with
  | [] => Ok res
  | decimal_char :: rest =>
    if negb (isdigit decimal_char) then Err kInvalidArgument else
    let digit := schar decimal_char - 48 in
    if (res =? 0) && (digit =? 0) && (1 <? size) then Err kInvalidArgument else
    if (max_value / 10 <? res) || (max_value - digit <? res * 10) then Err kInvalidArgument else
    decimal_loop max_value size rest (res * 10 + digit)
  end.

Definition DecimalStringTo (max_value : Z) (decimal_string : str) : result Z :=
  decimal_loop max_value (zlen decimal_string) decimal_string 0.

Definition DecimalStringToInt : str → result Z := DecimalStringTo (int_max true 32).
Definition DecimalStringToInt32 : str → result Z := DecimalStringTo (int_max true 32).
Definition DecimalStringToInt64 : str → result Z := DecimalStringTo (int_max true 64).
Definition DecimalStringToUint32 : str → result Z := DecimalStringTo (int_max false 32).
Definition DecimalStringToUint64 : str → result Z := DecimalStringTo (int_max false 64).

Definition ToDecimalString `{AbslStrings} (value : Z) : result str :=
  if value <? 0 then Err kInvalidArgument else Ok (StrCatInt value).

(** * Decimal digits *)

Definition dec_value (s : str) : Z := fold_left (λ acc c, acc * 10 + (uchar c - 48)) s 0.

(** At least one digit, all characters digits, no leading zero but for the string "0". *)
Definition dec_canonical (s : str) : Prop :=
  Forall (λ c, isdigit c) s ∧
  match s with
  | [] => False
  | [_] => True
  | c :: _ => c ≠ "0"%char
  end.

Lemma isdigit_bound c : isdigit c = true → 0 ≤ uchar c - 48 ≤ 9 ∧ schar c = uchar c.
Proof.
  unfold isdigit, schar. intros. bool_prop.
  rewrite (proj2 (Z.ltb_lt _ _)) by lia. lia.
Qed.

Lemma dec_value_acc s v :
  fold_left (λ acc c, acc * 10 + (uchar c - 48)) s v = v * 10 ^ zlen s + dec_value s.
Proof.
  unfold dec_value. revert v. induction s as [|c s IH]; intros v; cbn [fold_left].
  - rewrite zlen_nil. lia.
  - rewrite IH, (IH (0 * 10 + _)), zlen_cons. pose proof (zlen_nonneg s).
    rewrite Z.pow_add_r by lia. ring.
Qed.

Lemma dec_value_cons c s :
  dec_value (c :: s) = (uchar c - 48) * 10 ^ zlen s + dec_value s.
Proof. unfold dec_value at 1. cbn [fold_left]. by rewrite dec_value_acc. Qed.

Lemma dec_value_snoc s c : dec_value (s ++ [c]) = dec_value s * 10 + (uchar c - 48).
Proof. unfold dec_value. by rewrite fold_left_app. Qed.

Lemma dec_value_bound s :
  Forall (λ c, isdigit c) s → 0 ≤ dec_value s < 10 ^ zlen s.
Proof.
  induction s as [|c s IH]; [by cbn|]. intros [Hc Hs]%Forall_cons.
  apply Is_true_true, isdigit_bound in Hc as [Hc _]. specialize (IH Hs).
  rewrite dec_value_cons, zlen_cons. pose proof (zlen_nonneg s).
  rewrite Z.pow_add_r by lia. nia.
Qed.

Lemma dec_canonical_pos c d s : dec_canonical (c :: d :: s) → 0 < dec_value (c :: d :: s).
Proof.
  intros [Hall Hc]. pose proof Hall as [Hd Hs]%Forall_cons.
  apply Is_true_true, isdigit_bound in Hd as [Hd _]. apply dec_value_bound in Hs.
  rewrite dec_value_cons. pose proof (zlen_nonneg (d :: s)).
  assert (uchar c ≠ 48) by (intros H48; apply Hc, uchar_inj; done).
  assert (0 < 10 ^ zlen (d :: s)) by lia. nia.
Qed.

Lemma dec_canonical_init s c : s ≠ [] → dec_canonical (s ++ [c]) → dec_canonical s ∧ 0 < dec_value s.
Proof.
  intros Hs [Hall Hh]. apply Forall_app in Hall as [Hall _].
  destruct s as [|a s]; [done|].
  assert (a ≠ "0"%char) as Ha by (by destruct s).
  assert (dec_canonical (a :: s)) as Hcan by (split; [done | by destruct s]).
  split; [done|]. destruct s as [|b s]; [|by apply dec_canonical_pos].
  apply Forall_inv, Is_true_true, isdigit_bound in Hall as [Hall _].
  assert (uchar a ≠ 48) by (intros H48; apply Ha, uchar_inj; done).
  rewrite dec_value_cons. change (zlen (@nil ascii)) with 0. change (dec_value []) with 0. lia.
Qed.

Lemma dec_canonical_unique s t :
  dec_canonical s → dec_canonical t → dec_value s = dec_value t → s = t.
Proof.
  revert t. induction s as [|c s IH] using rev_ind; intros t Hs Ht Hv; [by destruct Hs|].
  destruct t as [|d t _] using rev_ind; [by destruct Ht|].
  rewrite !dec_value_snoc in Hv.
  assert (∀ x u, dec_canonical (u ++ [x]) → 0 ≤ uchar x - 48 ≤ 9) as Hlast.
  { intros x u [Hall _]. apply Forall_app in Hall as [_ Hx%Forall_inv].
    apply Is_true_true in Hx. by apply isdigit_bound. }
  pose proof (Hlast _ _ Hs). pose proof (Hlast _ _ Ht).
  assert (uchar c = uchar d ∧ dec_value s = dec_value t) as [Hc Hst] by lia.
  rewrite (uchar_inj _ _ Hc). f_equal.
  destruct (decide (s = [])) as [->|Hsn], (decide (t = [])) as [->|Htn]; [done|..].
  - apply dec_canonical_init in Ht as [_ Ht]; [|done]. cbn in Hst. lia.
  - apply dec_canonical_init in Hs as [_ Hs]; [|done]. cbn in Hst. lia.
  - apply dec_canonical_init in Hs as [Hs _], Ht as [Ht _]; [|done..]. by apply IH.
Qed.

(** * The printed form *)

Lemma dec_digit_isdigit d : 0 ≤ d < 10 → isdigit (dec_digit d) = true ∧ uchar (dec_digit d) = 48 + d.
Proof.
  intros Hd. unfold isdigit, dec_digit. rewrite uchar_char_of, Z.mod_small by lia. lia.
Qed.

Lemma dec_digits_spec fuel z :
  (0 < fuel)%nat → 0 ≤ z < 2 ^ Z.of_nat fuel →
  dec_canonical (dec_digits fuel z) ∧ dec_value (dec_digits fuel z) = z.
Proof.
  revert z. induction fuel as [|fuel IH]; intros z Hf Hz; [lia|]. cbn [dec_digits].
  destruct (Z.ltb_spec z 10) as [Hlt|Hge].
  { destruct (dec_digit_isdigit z ltac:(lia)) as [Hd Hu].
    split; [split; [by repeat constructor; rewrite Hd|done]|].
    unfold dec_value. cbn [fold_left]. lia. }
  rewrite Nat2Z.inj_succ, Z.pow_succ_r in Hz by lia.
  assert (0 < Z.of_nat fuel) as Hf'.
  { destruct fuel; [|lia]. change (2 ^ Z.of_nat 0) with 1 in Hz. lia. }
  destruct (IH (z / 10) ltac:(lia) ltac:(Z.div_mod_to_equations; lia)) as [[Hall Hh] Hv].
  destruct (dec_digit_isdigit (z mod 10) ltac:(Z.div_mod_to_equations; lia)) as [Hd Hu].
  split; [split|].
  - apply Forall_app. split; [done|]. by repeat constructor; rewrite Hd.
  - destruct (dec_digits fuel (z / 10)) as [|c [|e s]]; [done| |done]. cbn. intros ->.
    change (dec_value ["0"%char]) with 0 in Hv. Z.div_mod_to_equations. lia.
  - rewrite dec_value_snoc, Hv, Hu. Z.div_mod_to_equations. lia.
Qed.

Lemma decimal_spec z : 0 ≤ z → dec_canonical (decimal z) ∧ dec_value (decimal z) = z.
Proof.
  intros Hz. unfold decimal. apply dec_digits_spec; [lia|]. split; [done|].
  pose proof (Z.log2_nonneg z). rewrite Nat2Z.inj_add, Z2Nat.id by done.
  destruct (Z.eq_dec z 0) as [->|]; [lia|].
  pose proof (Z.log2_spec z ltac:(lia)) as Hl. rewrite <-Z.add_1_r in Hl. apply Hl.
Qed.

(** * The parser *)

(** The loop on the digits after a non-zero one: it accepts exactly the digit strings whose
    value does not exceed the maximum. *)
Lemma decimal_loop_spec M size s r :
  0 < r ≤ M →
  decimal_loop M size s r =
    if bool_decide (Forall (λ c, isdigit c) s) && (r * 10 ^ zlen s + dec_value s <=? M)
    then Ok (r * 10 ^ zlen s + dec_value s) else Err kInvalidArgument.
Proof.
  revert r. induction s as [|c s IH]; intros r Hr.
  { change (dec_value []) with 0. change (10 ^ zlen (@nil ascii)) with 1. cbn [decimal_loop].
    rewrite bool_decide_eq_true_2, (proj2 (Z.leb_le _ _)) by (done || lia). f_equal. lia. }
  cbn [decimal_loop]. destruct (isdigit c) eqn:Hc; cbn [negb].
  2:{ rewrite bool_decide_eq_false_2; [done|]. intros Hall%Forall_inv. by rewrite Hc in Hall. }
  apply isdigit_bound in Hc as Hb. destruct Hb as [Hb ->].
  rewrite (proj2 (Z.eqb_neq r 0)) by lia. cbn [andb].
  rewrite dec_value_cons, zlen_cons. pose proof (zlen_nonneg s).
  rewrite Z.pow_add_r by lia. change (10 ^ 1) with 10.
  replace (r * (10 ^ zlen s * 10) + ((uchar c - 48) * 10 ^ zlen s + dec_value s))
    with ((r * 10 + (uchar c - 48)) * 10 ^ zlen s + dec_value s) by ring.
  assert (0 < 10 ^ zlen s) by lia.
  destruct (Z.ltb_spec (M / 10) r) as [Ho|Ho], (Z.ltb_spec (M - (uchar c - 48)) (r * 10)) as [Ho'|Ho'];
    cbn [orb].
  all: assert (bool_decide (Forall (λ c, isdigit c) (c :: s)) =
               bool_decide (Forall (λ c, isdigit c) s)) as ->
    by (apply bool_decide_ext; rewrite Forall_cons, Hc; naive_solver).
  4: by rewrite IH by lia.
  all: clear IH; case_bool_decide as Hall; [|done]; apply dec_value_bound in Hall; cbn [andb].
  all: rewrite (proj2 (Z.leb_gt _ _)); [done|].
  all: assert (M < r * 10 + (uchar c - 48)) by (Z.div_mod_to_equations; lia); nia.
Qed.

#[export] Instance dec_canonical_dec s : Decision (dec_canonical s).
Proof. destruct s as [|? []]; apply _. Defined.

Lemma dec_canonical_cons c s :
  isdigit c = true → c ≠ "0"%char → dec_canonical (c :: s) ↔ Forall (λ c, isdigit c) s.
Proof.
  intros Hc Hne. unfold dec_canonical. rewrite Forall_cons, Hc. destruct s; naive_solver.
Qed.

(** The first character is checked on its own: it must not be a leading zero. *)
Lemma DecimalStringTo_closed M s :
  0 < M → s ≠ [] →
  DecimalStringTo M s =
    if bool_decide (dec_canonical s) && (dec_value s <=? M) then Ok (dec_value s)
    else Err kInvalidArgument.
Proof.
  intros HM Hs. unfold DecimalStringTo. destruct s as [|c s]; [done|]. cbn [decimal_loop].
  destruct (isdigit c) eqn:Hc; cbn [negb].
  2:{ rewrite bool_decide_eq_false_2; [done|]. intros [Hall%Forall_inv _].
      by rewrite Hc in Hall. }
  apply isdigit_bound in Hc as Hb. destruct Hb as [Hb ->].
  rewrite Z.eqb_refl, Z.mul_0_l, Z.add_0_l. cbn [andb].
  rewrite (proj2 (Z.ltb_ge (M / 10) 0)) by (apply Z.div_pos; lia). cbn [orb].
  destruct (Z.eqb_spec (uchar c - 48) 0) as [Hz|Hnz]; cbn [andb].
  - assert (c = "0"%char) as -> by (apply uchar_inj; change (uchar "0") with 48; lia).
    destruct s as [|d s].
    { change (1 <? zlen ["0"%char]) with false. change (dec_value ["0"%char]) with 0.
      cbn [decimal_loop]. change (uchar "0" - 48) with 0.
      rewrite (proj2 (Z.ltb_ge _ _)), (proj2 (Z.leb_le _ _)) by lia. done. }
    rewrite (proj2 (Z.ltb_lt 1 _)) by (rewrite !zlen_cons; pose proof (zlen_nonneg s); lia).
    rewrite bool_decide_eq_false_2; [done|]. by intros [_ ?].
  - assert (c ≠ "0"%char) as Hne by (intros ->; by apply Hnz).
    rewrite (bool_decide_ext _ _ (dec_canonical_cons c s Hc Hne)).
    pose proof (dec_value_cons c s) as Hval.
    destruct (Z.ltb_spec (M - (uchar c - 48)) 0) as [Ho|Ho].
    + case_bool_decide as Hall; [|done]. apply dec_value_bound in Hall. cbn [andb].
      rewrite (proj2 (Z.leb_gt _ _)) by nia. done.
    + rewrite decimal_loop_spec by lia. by rewrite <-Hval.
Qed.

Lemma DecimalStringTo_value (M v : Z) (s : str) :
  0 < M →
  (DecimalStringTo M s = Ok v ↔ 0 ≤ v ≤ M ∧ (s = decimal v ∨ (s = [] ∧ v = 0))) ∧
  (DecimalStringTo M s = Err kInvalidArgument ∨ is_Ok (DecimalStringTo M s) = true).
Proof.
  intros HM. destruct (decide (s = [])) as [->|Hs].
  { cbn. split; [|by right]. split; [naive_solver lia|].
    intros [Hv [Hd|[_ ->]]]; [|done].
    destruct (decimal_spec v ltac:(lia)) as [Hc _]. rewrite <-Hd in Hc. by destruct Hc. }
  rewrite DecimalStringTo_closed by done.
  case_bool_decide as Hcan; cbn [andb].
  - pose proof (dec_value_bound s (proj1 Hcan)) as Hnn.
    destruct (Z.leb_spec (dec_value s) M); split; try first [by left | by right].
    + split; [intros [= <-] | intros [Hv [->|[? _]]]; [f_equal; apply decimal_spec; lia | done]].
      split; [lia|]. left. destruct (decimal_spec (dec_value s)) as [? ?]; [lia|].
      by apply dec_canonical_unique.
    + split; [done|]. intros [Hv [->|[? _]]]; [|done].
      destruct (decimal_spec v) as [_ Hdv]; lia.
  - split; [|by left]. split; [done|]. intros [Hv [->|[? _]]]; [|done].
    by destruct (decimal_spec v); [lia|].
Qed.

(** Decimal strings of an integer type with maximum [M]: [DecimalStringTo<T>] accepts exactly
    the canonical decimal strings (digits only, no sign, no leading zero) of the integers up to
    [M], without overflow, and also the empty string, which it reads as 0; every other string is
    an invalid argument.  [IntToDecimalString] rejects negative integers and prints every other
    one in the form that parses back to it. *)
Theorem decimal_roundtrip `{AbslStringsLaws} (M v : Z) (s : str) :
  0 < M → v ≤ M →
  (DecimalStringTo M s = Ok v ↔ 0 ≤ v ∧ (s = decimal v ∨ (s = [] ∧ v = 0))) ∧
  (DecimalStringTo M s = Err kInvalidArgument ∨ is_Ok (DecimalStringTo M s) = true) ∧
  (v < 0 → ToDecimalString v = Err kInvalidArgument) ∧
  (0 ≤ v → ∃ s, ToDecimalString v = Ok s ∧ DecimalStringTo M s = Ok v).
Proof.
  intros HM Hv. destruct (DecimalStringTo_value M v s HM) as [Hiff Herr].
  split; [rewrite Hiff; naive_solver lia|]. split; [done|]. unfold ToDecimalString. split.
  - intros. by rewrite (proj2 (Z.ltb_lt _ _)).
  - intros Hnn. rewrite (proj2 (Z.ltb_ge _ _)), StrCatInt_decimal by done.
    eexists; split; [done|]. apply DecimalStringTo_value; [done|]. auto.
Qed.

Example decimal_roundtrip_witness :
  ∃ s, @ToDecimalString ref_absl 213 = Ok s ∧ DecimalStringTo (int_max true 32) s = Ok 213.
Proof. apply (decimal_roundtrip (int_max true 32) 213 []); vm_compute; done. Defined.
