(* ===== verification/NetAddr.v ===== *)
(** p4_infra/netaddr: fixed-width network addresses.  [Section network_address] is the class
    template [NetworkAddress<N, T>]; [Mac], [Ipv4] and [Ipv6] are its three subclasses.  An
    address is its bit set; [bs_ok N] is its invariant. *)
From S2P Require Import Prelude Bitset ByteString Abseil HexString.

(** * network_address.h *)

Section network_address.
Context (num_bits : Z).

Definition AllZeros : Z := 0.
Definition AllOnes : Z := bs_not num_bits 0.
Definition OfBitset (bits : Z) : Z := bits.

Definition MaskForPrefixLength (prefix_length : Z) : result Z :=
  if (prefix_length <? 0) || (num_bits <? prefix_length) then Err kInvalidArgument
  else Ok (bs_shl num_bits AllOnes (num_bits - prefix_length)).

Definition OfHexString `{AbslStrings} (hex_str : str) : result Z :=
  bits ← HexStringToBitset num_bits hex_str; Ok bits.

Definition OfByteString (byte_str : str) : result Z :=
  bits ← ByteStringToBitset num_bits byte_str; Ok bits.

Definition IsAllZeros (addr : Z) : bool := bs_none addr.
Definition IsAllOnes (addr : Z) : bool := bs_all num_bits addr.
Definition ToBitset (addr : Z) : Z := addr.
Definition ToHexString (addr : Z) : str := BitsetToHexString num_bits addr.
Definition ToPaddedByteString (addr : Z) : str := BitsetToPaddedByteString num_bits addr.
Definition ToP4RuntimeByteString (addr : Z) : str := BitsetToP4RuntimeByteString num_bits addr.

(** [for (int i = 0; i <= N; ++i) if ( *this == AllOnes() << (N - i)) return i]. *)
Definition ToLpmPrefixLength (addr : Z) : result Z :=
  match find (λ i, addr =? bs_shl num_bits AllOnes (num_bits - i)) (seqZ 0 (num_bits + 1)) with
  | Some i => Ok i
  | None => Err kInvalidArgument
  end.

Definition addr_and (a b : Z) : Z := bs_and a b.
Definition addr_or (a b : Z) : Z := bs_or a b.
Definition addr_xor (a b : Z) : Z := bs_xor a b.
Definition addr_shl (a pos : Z) : Z := bs_shl num_bits a pos.
Definition addr_shr (a pos : Z) : Z := bs_shr a pos.
Definition addr_not (a : Z) : Z := bs_not num_bits a.

Definition addr_eqb (a b : Z) : bool := a =? b.
Definition addr_ltb (a b : Z) : bool := str_ltb (ToPaddedByteString a) (ToPaddedByteString b).
Definition addr_leb (a b : Z) : bool := negb (addr_ltb b a).
End network_address.

(** * mac_address.{h,cc} *)

Module Mac.
(** The digits are converted by the nested conditional on [char] order of the source. *)
Fixpoint base16_loop `{AbslStrings} (s : str) (buffer : Z) : option Z :=
  match s with
  | [] => Some buffer
  | c :: s =>
    if negb (ascii_isxdigit c) then None else
    let value := if schar "A" <=? schar c
                 then if schar "a" <=? schar c then schar c - schar "a" + 10
                      else schar c - schar "A" + 10
                 else schar c - schar "0" in
    base16_loop s (buffer * 16 + value)
  end.

Definition ParseByteInBase16 `{AbslStrings} (base16_string : str) : option Z :=
  if bool_decide (base16_string = []) || (2 <? zlen base16_string) then None
  else wrapU 8 <$> base16_loop base16_string 0.

(** The loop [bits <<= 8; bits |= byte], leaving on the first byte that does not parse. *)
Fixpoint parse_bytes (num_bits : Z) (parse : str → option Z) (bytes : list str) (bits : Z)
  : result Z :=
  match bytes with
  | [] => Ok bits
  | byte_string :: bytes =>
    match parse byte_string with
    | None => Err kInvalidArgument
    | Some byte =>
      parse_bytes num_bits parse bytes (bs_or (bs_shl num_bits bits 8) (bs_of num_bits byte))
    end
  end.

Definition OfString `{AbslStrings} (address : str) : result Z :=
  let bytes := StrSplit address ":" in
  if negb (zlen bytes =? 6) then Err kInvalidArgument
  else parse_bytes 48 ParseByteInBase16 bytes 0.

Definition byte_at (bits pos : Z) : Z := wrapU 8 (Z.land (bs_shr bits pos) 255).

(** [StrFormat("%02x:%02x:%02x:%02x:%02x:%02x", byte6, ..., byte1)]. *)
Definition ToString `{AbslStrings} (bits : Z) : str :=
  str_join ":" (map (λ pos, Format02x (byte_at bits pos)) [40; 32; 24; 16; 8; 0]).

Definition ToInterfaceId (bits : Z) : Z :=
  let res := 0x000000FFFE000000 in
  let mac := Z.lxor bits 0x020000000000 in
  let res := bs_or res (bs_of 64 (Z.shiftl (Z.land mac 0x000000FFFFFF) 0)) in
  bs_or res (bs_of 64 (wrapU 64 (Z.shiftl (Z.land mac 0xFFFFFF000000) 16))).

Definition OfInterfaceId (interface_id : Z) : result Z :=
  let id := interface_id in
  if negb (Z.land id 0x000000FFFF000000 =? 0x000000FFFE000000) then Err kInvalidArgument
  else
    let mac := bs_of 48 (Z.lor (Z.shiftr (Z.land id 0xFFFFFF0000000000) 16)
                               (Z.shiftr (Z.land id 0x0000000000FFFFFF) 0)) in
    Ok (bs_xor mac (bs_of 48 0x020000000000)).

Definition ToLinkLocalIpv6Address (bits : Z) : Z :=
  let interface_id := ToInterfaceId bits in
  let padded_interface_id := bs_of 128 interface_id in
  let link_local_prefix := bs_shl 128 (bs_of 128 0xFE80) 112 in
  bs_or link_local_prefix padded_interface_id.

Definition OfLinkLocalIpv6Address (ipv6 : Z) : result Z :=
  let upper := bs_shr ipv6 64 in
  let lower := bs_and ipv6 (bs_of 128 0xFFFFFFFFFFFFFFFF) in
  if negb (upper =? 0xFE80000000000000) then Err kInvalidArgument
  else OfInterfaceId (bs_of 64 lower).

(** The constructor from six bytes: a 64-bit sum converted to a bit set. *)
Definition OfBytes (byte6 byte5 byte4 byte3 byte2 byte1 : Z) : Z :=
  bs_of 48 (Z.shiftl byte6 40 + Z.shiftl byte5 32 + Z.shiftl byte4 24 + Z.shiftl byte3 16 +
            Z.shiftl byte2 8 + Z.shiftl byte1 0).
End Mac.

(** * ipv4_address.{h,cc} *)

Module Ipv4.
Fixpoint base10_loop (s : str) (buffer : Z) : option Z :=
  match s with
  | [] => Some buffer
  | c :: s =>
    if (schar "9" <? schar c) || (schar c <? schar "0") then None
    else base10_loop s (buffer * 10 + (schar c - schar "0"))
  end.

Definition ParseByteInBase10 (base10_string : str) : option Z :=
  if bool_decide (base10_string = []) || (3 <? zlen base10_string) then None
  else match base10_loop base10_string 0 with
       | Some buffer => if 255 <? buffer then None else Some (wrapU 8 buffer)
       | None => None
       end.

Definition OfString `{AbslStrings} (address : str) : result Z :=
  let bytes := StrSplit address "." in
  if negb (zlen bytes =? 4) then Err kInvalidArgument
  else Mac.parse_bytes 32 ParseByteInBase10 bytes 0.

(** [StrFormat("%d.%d.%d.%d", byte4, byte3, byte2, byte1)]. *)
Definition ToString `{AbslStrings} (bits : Z) : str :=
  str_join "." (map (λ pos, FormatD (Mac.byte_at bits pos)) [24; 16; 8; 0]).

Definition OfBytes (byte4 byte3 byte2 byte1 : Z) : Z :=
  bs_of 32 (wrapU 32 (Z.shiftl byte4 24 + Z.shiftl byte3 16 + Z.shiftl byte2 8 + Z.shiftl byte1 0)).
End Ipv4.

(** * ipv6_address.{h,cc} *)

Module Ipv6.
(** The POSIX functions the class is built on: [inet_pton(AF_INET6, ...)] fills 16 bytes or
    fails, [inet_ntop] prints 16 bytes. *)
Class Inet := {
  inet_pton6 : str → option str;
  inet_ntop6 : str → option str;
}.

(** What POSIX promises of them: the results have the fixed size, printing does not fail on
    16 bytes with a large enough buffer, and what is printed is read back. *)
Class InetLaws `{Inet} : Prop := {
  inet_pton6_size s bs : inet_pton6 s = Some bs → length bs = 16%nat;
  inet_ntop6_total bs : length bs = 16%nat → ∃ s, inet_ntop6 bs = Some s ∧ inet_pton6 s = Some bs;
}.

(** [LOG(DFATAL)] logs an error in production builds and execution continues. *)
Definition OfString `{Inet} (address : str) : result Z :=
  match inet_pton6 address with
  | Some bytes =>
    match OfByteString 128 bytes with Ok ip => Ok ip | _ => Err kInvalidArgument end
  | None => Err kInvalidArgument
  end.

Definition ToString `{Inet} (bits : Z) : str :=
  match inet_ntop6 (ToPaddedByteString 128 bits) with
  | Some res => res
  | None => $"::"
  end.

Definition OfHextets (hextet8 hextet7 hextet6 hextet5 hextet4 hextet3 hextet2 hextet1 : Z) : Z :=
  let place h pos := bs_shl 128 (bs_of 128 h) pos in
  bs_or (bs_or (bs_or (bs_or (bs_or (bs_or (bs_or
    (place hextet8 112) (place hextet7 96)) (place hextet6 80)) (place hextet5 64))
    (place hextet4 48)) (place hextet3 32)) (place hextet2 16)) (place hextet1 0).

Definition Upper64BitMask : Z := bs_shl 128 (AllOnes 128) 64.
Definition IsUpper64BitAddress (bits : Z) : bool := bs_none (bs_shl 128 bits 64).

Definition MinimumMaskLength (bits : Z) : Z :=
  match find (λ i, bs_test bits i) (seqZ 0 128) with
  | Some i => 128 - i
  | None => 0
  end.
End Ipv6.

(** * Prefix masks *)

Lemma AllOnes_ones n : 0 ≤ n → AllOnes n = 2 ^ n - 1.
Proof.
  intros. unfold AllOnes, bs_not, bs_all_ones. rewrite Z.lxor_0_l, Z.ones_equiv. lia.
Qed.

Lemma mask_value n k : 0 ≤ k ≤ n → bs_shl n (AllOnes n) (n - k) = 2 ^ n - 2 ^ (n - k).
Proof.
  intros Hk. rewrite AllOnes_ones by lia. unfold bs_shl, wrapU.
  rewrite Z.shiftl_mul_pow2 by lia.
  assert (2 ^ n = 2 ^ k * 2 ^ (n - k)) as Hpow by (rewrite <-Z.pow_add_r by lia; f_equal; lia).
  assert (0 < 2 ^ k) by lia. assert (0 < 2 ^ (n - k)) by lia.
  symmetry. apply (Z.mod_unique _ _ (2 ^ (n - k) - 1)); [left|]; nia.
Qed.

Lemma mask_inj n i k :
  0 ≤ i ≤ n → 0 ≤ k ≤ n → 2 ^ n - 2 ^ (n - i) = 2 ^ n - 2 ^ (n - k) → i = k.
Proof.
  intros Hi Hk Heq. assert (n - i = n - k) by (apply (Z.pow_inj_r 2); lia). lia.
Qed.

(** An address [2^n - 2^(n-k)] is the prefix mask of length [k], and nothing else is a mask. *)
Lemma ToLpmPrefixLength_iff n addr k :
  0 ≤ n → ToLpmPrefixLength n addr = Ok k ↔ 0 ≤ k ≤ n ∧ addr = 2 ^ n - 2 ^ (n - k).
Proof.
  intros Hn. unfold ToLpmPrefixLength.
  assert (∀ i, 0 ≤ i < 0 + (n + 1) →
    (addr =? bs_shl n (AllOnes n) (n - i)) = (addr =? 2 ^ n - 2 ^ (n - i))) as Hv
    by (intros; by rewrite mask_value by lia).
  destruct (find _ _) as [i|] eqn:Hf.
  - apply find_seqZ_Some in Hf as (Hi & Ht & _). rewrite Hv, Z.eqb_eq in Ht by done. split.
    + intros [= <-]. split; [lia | done].
    + intros [Hk ->]. f_equal. symmetry. by apply (mask_inj n); [lia..|].
  - split; [done|]. intros [Hk ->].
    pose proof (find_seqZ_None _ _ _ Hf k ltac:(lia)) as Hc. cbv beta in Hc.
    rewrite Hv, Z.eqb_refl in Hc by lia. done.
Qed.

Lemma MaskForPrefixLength_Ok n k m :
  MaskForPrefixLength n k = Ok m ↔ 0 ≤ k ≤ n ∧ m = 2 ^ n - 2 ^ (n - k).
Proof.
  unfold MaskForPrefixLength.
  destruct (Z.ltb_spec k 0), (Z.ltb_spec n k); cbn [orb]; try (split; [done | lia]).
  rewrite mask_value by lia. split; [intros [= <-] | intros [_ ->]]; [split; [lia|]|]; done.
Qed.

(** Prefix lengths and prefix masks convert back and forth: a length between 0 and the
    number of bits has a mask (the top [k] bits), its length is read back from the mask, every
    other length is an error, and an address converts to a prefix length exactly when it is the
    mask of that length. *)
Theorem prefix_mask_roundtrip (n k addr : Z) :
  0 ≤ n →
  (MaskForPrefixLength n k =
     if (0 <=? k) && (k <=? n) then Ok (2 ^ n - 2 ^ (n - k)) else Err kInvalidArgument) ∧
  (∀ mask, MaskForPrefixLength n k = Ok mask → ToLpmPrefixLength n mask = Ok k) ∧
  (ToLpmPrefixLength n addr = Ok k ↔ MaskForPrefixLength n k = Ok addr).
Proof.
  intros Hn. split_and!.
  - destruct (Z.leb_spec 0 k), (Z.leb_spec k n); cbn [andb].
    1: apply MaskForPrefixLength_Ok; lia.
    all: unfold MaskForPrefixLength;
      destruct (Z.ltb_spec k 0), (Z.ltb_spec n k); cbn [orb]; done || lia.
  - intros mask [??]%MaskForPrefixLength_Ok. by apply ToLpmPrefixLength_iff.
  - by rewrite ToLpmPrefixLength_iff, MaskForPrefixLength_Ok.
Qed.

Lemma prefix_mask_roundtrip_witness :
  0 ≤ 32 ∧ (ToLpmPrefixLength 32 0xFFFFFF00 = Ok 24 ↔ MaskForPrefixLength 32 24 = Ok 0xFFFFFF00).
Proof. split; [done|]. apply (prefix_mask_roundtrip 32 24 0xFFFFFF00). done. Defined.

(** * Ordering *)

Lemma str_ltb_value s t :
  length s = length t → str_ltb s t = (be_value s <? be_value t).
Proof.
  revert t. induction s as [|c s IH]; intros [|d t] Hlen; try done.
  injection Hlen as Hlen. cbn [str_ltb]. rewrite !be_value_cons.
  assert (zlen s = zlen t) as Hz by (unfold zlen; lia). rewrite Hz.
  pose proof (be_value_bound s) as Hs. pose proof (be_value_bound t) as Ht. rewrite Hz in Hs.
  destruct (Z.ltb_spec (uchar c) (uchar d)).
  { symmetry. apply Z.ltb_lt. nia. }
  destruct (Z.ltb_spec (uchar d) (uchar c)).
  { symmetry. apply Z.ltb_ge. nia. }
  rewrite IH by done. assert (uchar c = uchar d) as -> by lia.
  apply eq_iff_eq_true. rewrite !Z.ltb_lt. lia.
Qed.

(** The order on addresses, which the code defines through the padded byte strings, is the
    numeric order of the addresses; the derived [<=] is the numeric one too. *)
Theorem address_order_numeric (n a b : Z) :
  0 ≤ n → bs_ok n a → bs_ok n b →
  (addr_ltb n a b = true ↔ a < b) ∧ (addr_leb n a b = true ↔ a ≤ b).
Proof.
  intros Hn Ha Hb.
  assert (∀ x y, bs_ok n x → bs_ok n y → addr_ltb n x y = (x <? y)) as Hlt.
  { intros x y Hx Hy. unfold addr_ltb, ToPaddedByteString. rewrite str_ltb_value.
    - by rewrite !padded_value.
    - pose proof (padded_length n x Hn Hx). pose proof (padded_length n y Hn Hy).
      unfold zlen in *. lia. }
  unfold addr_leb. rewrite !Hlt by done. rewrite negb_true_iff, Z.ltb_lt, Z.ltb_ge. done.
Qed.

Lemma address_order_numeric_witness :
  bs_ok 32 0x0A000001 ∧ bs_ok 32 0x0A000100 ∧
  ((addr_ltb 32 0x0A000001 0x0A000100 = true ↔ 0x0A000001 < 0x0A000100) ∧
   (addr_leb 32 0x0A000001 0x0A000100 = true ↔ 0x0A000001 ≤ 0x0A000100)).
Proof.
  split; [|split]; [unfold bs_ok; lia..|].
  apply (address_order_numeric 32); unfold bs_ok; lia.
Defined.

(** * MAC addresses and interface identifiers *)

Lemma bits_forall n a b :
  bs_ok n a → bs_ok n b →
  Forall (λ i, Z.testbit a i = Z.testbit b i) (seqZ 0 n) → a = b.
Proof.
  intros Ha Hb H. apply Z.bits_inj'. intros i Hi. destruct (Z.lt_ge_cases i n).
  - rewrite Forall_forall in H. apply H. apply elem_of_seqZ. lia.
  - by rewrite (testbit_above n a), (testbit_above n b) by done.
Qed.

Lemma wrapU_testbit w z i :
  0 ≤ w → 0 ≤ i → Z.testbit (wrapU w z) i = (i <? w) && Z.testbit z i.
Proof.
  intros. unfold wrapU. destruct (Z.ltb_spec i w).
  - by rewrite Z.mod_pow2_bits_low by lia.
  - by rewrite Z.mod_pow2_bits_high by lia.
Qed.

(** Computes one bit, at a literal position, of an expression built from bit operations. *)
Ltac eval_closed t := let t' := eval vm_compute in t in progress change t with t'.
Ltac one_bit :=
  repeat first
    [ rewrite Z.lor_spec | rewrite Z.land_spec | rewrite Z.lxor_spec
    | rewrite Z.shiftl_spec by lia | rewrite Z.shiftr_spec by lia
    | rewrite wrapU_testbit by lia ];
  repeat match goal with
  | |- context [?x <? ?y] => eval_closed (x <? y)
  | |- context [Z.testbit (Zpos ?c) ?i] => eval_closed (Z.testbit (Zpos c) i)
  | |- context [Z.testbit _ ?i] => eval_closed i
  | |- context [Z.testbit _ (?i - ?j)] => eval_closed (i - j)
  end;
  rewrite ?andb_true_r, ?andb_false_r, ?orb_false_r, ?xorb_false_r, ?xorb_true_r,
    ?andb_true_l, ?andb_false_l, ?orb_false_l, ?xorb_false_l, ?xorb_true_l, ?negb_involutive.

Ltac each_bit n :=
  apply (bits_forall n);
  [..| let l := eval vm_compute in (seqZ 0 n) in change (seqZ 0 n) with l;
       repeat (apply Forall_cons_2; [one_bit; try done|]); [..|apply Forall_nil_2]].

Lemma ToInterfaceId_ok b : bs_ok 64 (Mac.ToInterfaceId b).
Proof. unfold Mac.ToInterfaceId. repeat apply bs_or_ok; auto with pins lia. split; lia. Qed.

Lemma ToInterfaceId_marker b :
  bs_ok 48 b → Z.land (Mac.ToInterfaceId b) 0x000000FFFF000000 = 0x000000FFFE000000.
Proof.
  intros Hb. unfold Mac.ToInterfaceId, bs_or, bs_of. each_bit 64; [|split; lia].
  apply (bs_and_ok 64); [lia | apply ToInterfaceId_ok | split; lia].
Qed.

Lemma OfInterfaceId_to b : bs_ok 48 b → Mac.OfInterfaceId (Mac.ToInterfaceId b) = Ok b.
Proof.
  intros Hb. unfold Mac.OfInterfaceId. rewrite ToInterfaceId_marker by done.
  cbn [negb Z.eqb]. f_equal. unfold Mac.ToInterfaceId, bs_or, bs_of, bs_xor.
  each_bit 48; [|done]. apply bs_xor_ok; auto with pins lia.
Qed.

Lemma ToInterfaceId_of id b :
  bs_ok 64 id → Mac.OfInterfaceId id = Ok b → bs_ok 48 b ∧ Mac.ToInterfaceId b = id.
Proof.
  intros Hid. unfold Mac.OfInterfaceId. case_if; [done|]. bool_prop. intros [= <-]. split.
  { apply bs_xor_ok; auto with pins lia. }
  assert (∀ i, Z.testbit (Z.land id 0x000000FFFF000000) i = Z.testbit 0x000000FFFE000000 i) as Hm
    by (intros; congruence).
  setoid_rewrite Z.land_spec in Hm.
  unfold Mac.ToInterfaceId, bs_or, bs_of, bs_xor. each_bit 64;
    [repeat apply bs_or_ok; auto with pins lia; split; lia | done |
     match goal with |- _ = Z.testbit id ?i =>
       rewrite <-(andb_true_r (Z.testbit id i)); symmetry; exact (Hm i) end ..].
Qed.

Lemma link_local_split mac :
  negb (bs_shr (Mac.ToLinkLocalIpv6Address mac) 64 =? 0xFE80000000000000) = false ∧
  bs_of 64 (bs_and (Mac.ToLinkLocalIpv6Address mac) (bs_of 128 0xFFFFFFFFFFFFFFFF)) =
  Mac.ToInterfaceId mac.
Proof.
  pose proof (ToInterfaceId_ok mac) as [Hlo Hhi].
  unfold Mac.ToLinkLocalIpv6Address. rewrite (bs_of_small 128 (Mac.ToInterfaceId mac)) by (split; lia).
  change (bs_shl 128 (bs_of 128 0xFE80) 112) with (Z.shiftl 0xFE80000000000000 64).
  change (bs_of 128 0xFFFFFFFFFFFFFFFF) with (Z.ones 64). unfold bs_or, bs_shr, bs_and. split.
  - rewrite Z.shiftr_lor, Z.shiftr_shiftl_l, Z.sub_diag, Z.shiftl_0_r by lia.
    rewrite (Z.shiftr_div_pow2 (Mac.ToInterfaceId mac)), Z.div_small by lia. done.
  - rewrite Z.land_ones by lia. fold (wrapU 64 (Z.lor (Z.shiftl 0xFE80000000000000 64) (Mac.ToInterfaceId mac))).
    rewrite bs_of_small by auto with pins lia.
    apply (bits_forall 64); [auto with pins lia | done |].
    apply Forall_forall. intros i Hi%elem_of_seqZ.
    rewrite wrapU_testbit, Z.lor_spec, Z.shiftl_spec, (Z.testbit_neg_r _ (i - 64)) by lia.
    destruct (Z.ltb_spec i 64); [done | lia].
Qed.

Lemma link_local_join ipv6 :
  bs_ok 128 ipv6 → bs_shr ipv6 64 = 0xFE80000000000000 →
  bs_or (bs_shl 128 (bs_of 128 0xFE80) 112)
    (bs_of 128 (bs_of 64 (bs_and ipv6 (bs_of 128 0xFFFFFFFFFFFFFFFF)))) = ipv6.
Proof.
  intros Hip Hup.
  change (bs_shl 128 (bs_of 128 0xFE80) 112) with (Z.shiftl 0xFE80000000000000 64).
  rewrite <-Hup. unfold bs_or, bs_shr, bs_and, bs_of. apply Z.bits_inj'. intros i Hi.
  rewrite Z.lor_spec, Z.shiftl_spec, !wrapU_testbit, Z.land_spec by lia.
  destruct (Z.lt_ge_cases i 64).
  - rewrite (Z.testbit_neg_r _ (i - 64)), wrapU_testbit by lia.
    change 0xFFFFFFFFFFFFFFFF with (Z.ones 64). rewrite Z.ones_spec_low by lia.
    destruct (Z.ltb_spec i 128), (Z.ltb_spec i 64); try lia. cbn. apply andb_true_r.
  - rewrite Z.shiftr_spec by lia. replace (i - 64 + 64) with i by lia.
    destruct (Z.ltb_spec i 64); [lia|]. cbn. rewrite andb_false_r. apply orb_false_r.
Qed.

(** The EUI-64 conversions between MAC addresses, interface identifiers and link-local IPv6
    addresses are inverse to each other: a MAC address survives the conversion to an interface
    identifier or a link-local address and back, and whenever the reverse conversion accepts an
    identifier or an address, converting its result forward gives that identifier or address
    again, so nothing outside the image is accepted. *)
Theorem eui64_conversions_inverse (mac id ipv6 : Z) :
  bs_ok 48 mac → bs_ok 64 id → bs_ok 128 ipv6 →
  Mac.OfInterfaceId (Mac.ToInterfaceId mac) = Ok mac ∧
  (Mac.OfInterfaceId id = Ok mac → Mac.ToInterfaceId mac = id) ∧
  Mac.OfLinkLocalIpv6Address (Mac.ToLinkLocalIpv6Address mac) = Ok mac ∧
  (Mac.OfLinkLocalIpv6Address ipv6 = Ok mac → Mac.ToLinkLocalIpv6Address mac = ipv6).
Proof.
  intros Hmac Hid Hip. split_and!.
  - by apply OfInterfaceId_to.
  - intros H. by apply ToInterfaceId_of.
  - unfold Mac.OfLinkLocalIpv6Address. destruct (link_local_split mac) as [-> ->].
    by apply OfInterfaceId_to.
  - unfold Mac.OfLinkLocalIpv6Address. case_if; [done|]. bool_prop. intros H.
    apply ToInterfaceId_of in H as [_ H]; [|auto with pins lia].
    unfold Mac.ToLinkLocalIpv6Address. rewrite H. by apply link_local_join.
Qed.

Lemma eui64_conversions_inverse_witness :
  bs_ok 48 0x001122334455 ∧
  Mac.OfLinkLocalIpv6Address (Mac.ToLinkLocalIpv6Address 0x001122334455) = Ok 0x001122334455.
Proof.
  split; [split; lia|]. apply (eui64_conversions_inverse _ 0 0); split; lia.
Defined.
