(* ===== verification/NetAddrText.v ===== *)
(** p4_infra/netaddr: the text formats of the addresses.  The notations for MAC, IPv4 and IPv6
    addresses are read back as the address they print. *)
From S2P Require Import Prelude Bitset ByteString Abseil HexString NetAddr.

(** * Text formats *)

Section text.
Context `{AbslStringsLaws}.

Lemma byte_at_spec b pos : 0 ≤ pos → Mac.byte_at b pos = (b / 2 ^ pos) mod 256.
Proof.
  intros. unfold Mac.byte_at, bs_shr, wrapU. change 255 with (Z.ones 8).
  rewrite Z.land_ones, Z.shiftr_div_pow2 by lia. by rewrite Z.mod_mod by lia.
Qed.

Lemma byte_at_bound b pos : 0 ≤ Mac.byte_at b pos < 256.
Proof. apply (wrapU_bound 8). lia. Qed.

Lemma parse_bytes_value n (parse : str → option Z) pieces bytes v :
  0 ≤ n →
  Forall2 (λ p b, parse p = Some b ∧ 0 ≤ b < 256) pieces bytes →
  Mac.parse_bytes n parse pieces (wrapU n v) =
    Ok (wrapU n (fold_left (λ acc b, acc * 256 + b) bytes v)).
Proof.
  intros Hn Hall. revert v. induction Hall as [|p b pieces bytes [Hp Hb] _ IH]; intros v; [done|].
  cbn [Mac.parse_bytes fold_left]. by rewrite Hp, bs_push_byte, IH.
Qed.

(** What the two parsers have in common: joining the printed bytes and parsing them back. *)
Lemma parse_joined n d (parse : str → option Z) (print : Z → str) bytes :
  0 ≤ n → bytes ≠ [] →
  (∀ b, 0 ≤ b < 256 → parse (print b) = Some b ∧ d ∉ print b) →
  Forall (λ b, 0 ≤ b < 256) bytes →
  Mac.parse_bytes n parse (StrSplit (str_join d (map print bytes)) d) 0 =
    Ok (wrapU n (fold_left (λ acc b, acc * 256 + b) bytes 0)) ∧
  zlen (StrSplit (str_join d (map print bytes)) d) = zlen bytes.
Proof.
  intros Hn Hne Hpp Hb. rewrite Forall_forall in Hb. rewrite StrSplit_of_join; cycle 1.
  - by destruct bytes.
  - intros p. rewrite list_elem_of_In, in_map_iff. intros (b & <- & Hin).
    apply Hpp, Hb. by rewrite list_elem_of_In.
  - split; [|unfold zlen; by rewrite length_map].
    change 0 with (wrapU n 0) at 1. apply parse_bytes_value; [done|].
    clear Hne. induction bytes as [|b bytes IH]; cbn [map]; constructor.
    + split; [apply Hpp|]; apply Hb; set_solver.
    + apply IH. set_solver.
Qed.

Lemma hex_digit_facts d :
  0 ≤ d < 16 →
  is_hex_char (hex_digit d) = true ∧ hex_digit d ≠ ":"%char ∧
  (if schar "A" <=? schar (hex_digit d)
   then if schar "a" <=? schar (hex_digit d) then schar (hex_digit d) - schar "a" + 10
        else schar (hex_digit d) - schar "A" + 10
   else schar (hex_digit d) - schar "0") = d.
Proof.
  intros Hd. rewrite <-(Z.eqb_eq _ d), <-(bool_decide_eq_true (_ ≠ _)), <-!andb_true_iff.
  finite_check d 0 16.
Qed.

Lemma base16_byte b :
  0 ≤ b < 256 → Mac.ParseByteInBase16 (Format02x b) = Some b ∧ ":"%char ∉ Format02x b.
Proof.
  intros Hb. rewrite Format02x_digits by done.
  destruct (hex_digit_facts (b / 16)) as (Hx1 & Hc1 & Hv1); [Z.div_mod_to_equations; lia|].
  destruct (hex_digit_facts (b mod 16)) as (Hx2 & Hc2 & Hv2); [Z.div_mod_to_equations; lia|].
  split.
  - unfold Mac.ParseByteInBase16. cbn [Mac.base16_loop].
    rewrite !ascii_isxdigit_spec, Hx1, Hx2, Hv1, Hv2. cbn -[wrapU Z.mul Z.add]. f_equal.
    rewrite wrapU_small; Z.div_mod_to_equations; lia.
  - rewrite !elem_of_cons. pose proof (not_elem_of_nil ":"%char). naive_solver.
Qed.

Lemma base10_byte b :
  0 ≤ b < 256 → Ipv4.ParseByteInBase10 (FormatD b) = Some b ∧ "."%char ∉ FormatD b.
Proof.
  intros Hb. rewrite FormatD_decimal by lia.
  rewrite <-(bool_decide_eq_true (_ = _)), <-(bool_decide_eq_true (_ ∉ _)), <-andb_true_iff.
  finite_check b 0 256.
Qed.
End text.

Lemma mac_bytes b :
  bs_ok 48 b →
  fold_left (λ acc b, acc * 256 + b) (map (Mac.byte_at b) [40; 32; 24; 16; 8; 0]) 0 = b.
Proof.
  intros [Hlo Hhi]. cbn [map fold_left]. rewrite !byte_at_spec by lia.
  Z.div_mod_to_equations. lia.
Qed.

Lemma ipv4_bytes b :
  bs_ok 32 b →
  fold_left (λ acc b, acc * 256 + b) (map (Mac.byte_at b) [24; 16; 8; 0]) 0 = b.
Proof.
  intros [Hlo Hhi]. cbn [map fold_left]. rewrite !byte_at_spec by lia.
  Z.div_mod_to_equations. lia.
Qed.

Section text_roundtrip.
Context `{AbslStringsLaws} `{!Ipv6.Inet, !Ipv6.InetLaws}.

Lemma mac_text_roundtrip mac : bs_ok 48 mac → Mac.OfString (Mac.ToString mac) = Ok mac.
Proof.
  intros Hmac. unfold Mac.OfString, Mac.ToString.
  rewrite <-(List.map_map (Mac.byte_at mac) Format02x).
  destruct (parse_joined 48 ":" Mac.ParseByteInBase16 Format02x
    (map (Mac.byte_at mac) [40; 32; 24; 16; 8; 0])) as [-> ->];
    [done | done | apply base16_byte | repeat constructor; apply byte_at_bound |].
  change (negb _) with false. cbv iota.
  rewrite mac_bytes by done. by rewrite wrapU_small.
Qed.

Lemma ipv4_text_roundtrip ip4 : bs_ok 32 ip4 → Ipv4.OfString (Ipv4.ToString ip4) = Ok ip4.
Proof.
  intros Hip4. unfold Ipv4.OfString, Ipv4.ToString.
  rewrite <-(List.map_map (Mac.byte_at ip4) FormatD).
  destruct (parse_joined 32 "." Ipv4.ParseByteInBase10 FormatD
    (map (Mac.byte_at ip4) [24; 16; 8; 0])) as [-> ->];
    [done | done | apply base10_byte | repeat constructor; apply byte_at_bound |].
  change (negb _) with false. cbv iota.
  rewrite ipv4_bytes by done. by rewrite wrapU_small.
Qed.

Lemma ipv6_text_roundtrip ip6 : bs_ok 128 ip6 → Ipv6.OfString (Ipv6.ToString ip6) = Ok ip6.
Proof.
  intros Hip6. unfold Ipv6.OfString, Ipv6.ToString, ToPaddedByteString, OfByteString.
  pose proof (padded_length 128 ip6 ltac:(lia) Hip6) as Hlen.
  destruct (Ipv6.inet_ntop6_total (BitsetToPaddedByteString 128 ip6)) as (s & -> & ->).
  { unfold zlen in Hlen. change (NumBitsToNumBytes 128) with 16 in Hlen. lia. }
  by rewrite ByteStringToBitset_padded.
Qed.
End text_roundtrip.

#[export] Hint Resolve mac_text_roundtrip ipv4_text_roundtrip ipv6_text_roundtrip : pins.

(** The address of [n] bits is what its text is read back as. *)
Definition reads_back (n : Z) (OfString : str → result Z) (ToString : Z → str) (address : Z) : Prop :=
  bs_ok n address → OfString (ToString address) = Ok address.

(** Every address is read back from its text: for MAC ("02:1a:..."), IPv4 ("10.0.0.1") and
    IPv6 addresses, [OfString] applied to [ToString] of an address returns that address. *)
Theorem address_text_roundtrip `{AbslStringsLaws} `{!Ipv6.Inet, !Ipv6.InetLaws} (mac ip4 ip6 : Z) :
  reads_back 48 Mac.OfString Mac.ToString mac ∧
  reads_back 32 Ipv4.OfString Ipv4.ToString ip4 ∧
  reads_back 128 Ipv6.OfString Ipv6.ToString ip6.
Proof. unfold reads_back. auto with pins. Qed.

(** Concrete POSIX functions for the examples: the eight groups of four hexadecimal digits. *)
Definition ref_groups (bs : str) : list str :=
  map (λ k, take 2 (drop (2 * k) bs)) (seq 0 8).

#[export] Instance ref_inet : Ipv6.Inet := {|
  Ipv6.inet_pton6 := λ s,
    let bs := List.concat (map ref_HexStringToBytes (ref_StrSplit s ":")) in
    if bool_decide (length bs = 16%nat) then Some bs else None;
  Ipv6.inet_ntop6 := λ bs, Some (str_join ":" (map ref_BytesToHexString (ref_groups bs)));
|}.

Lemma hex_no_colon s : ":"%char ∉ ref_BytesToHexString s.
Proof.
  induction s as [|c s IH]; [apply not_elem_of_nil|]. cbn [ref_BytesToHexString].
  pose proof (uchar_bound c).
  destruct (hex_digit_facts (uchar c / 16)) as (_ & H1 & _); [Z.div_mod_to_equations; lia|].
  destruct (hex_digit_facts (uchar c mod 16)) as (_ & H2 & _); [Z.div_mod_to_equations; lia|].
  rewrite !elem_of_cons. naive_solver.
Qed.

#[export] Instance ref_inet_laws : Ipv6.InetLaws.
Proof.
  split; unfold Ipv6.inet_ntop6, Ipv6.inet_pton6, ref_inet; cbv zeta.
  - intros s bs. case_bool_decide; naive_solver.
  - intros bs Hlen. eexists. split; [done|].
    change ref_StrSplit with (@StrSplit ref_absl). rewrite StrSplit_of_join; cycle 1.
    { done. }
    { intros p. rewrite list_elem_of_In, in_map_iff. intros (b & <- & _). apply hex_no_colon. }
    rewrite List.map_map. erewrite List.map_ext by (intros; apply ref_hex_inverse).
    rewrite List.map_id. do 17 (destruct bs as [|? bs]; try done).
Qed.

Lemma address_text_roundtrip_witness :
  reads_back 48 Mac.OfString Mac.ToString 0x021A11FF0001 ∧
  reads_back 32 Ipv4.OfString Ipv4.ToString 0x0A000001 ∧
  Ipv6.OfString (Ipv6.ToString (0xFE80 * 2 ^ 112 + 1)) = Ok (0xFE80 * 2 ^ 112 + 1).
Proof.
  destruct (address_text_roundtrip 0x021A11FF0001 0x0A000001 (0xFE80 * 2 ^ 112 + 1)) as (H1 & H2 & H3).
  split; [exact H1|]. split; [exact H2|]. apply H3. split; lia.
Defined.

(** * Mask lengths *)

Lemma low_bits_zero a k :
  0 ≤ k → a mod 2 ^ k = 0 ↔ ∀ i, 0 ≤ i < k → Z.testbit a i = false.
Proof.
  intros Hk. split.
  - intros Hm i Hi. rewrite <-(Z.mod_pow2_bits_low a k) by lia. rewrite Hm. apply Z.bits_0.
  - intros Hb. apply Z.bits_inj'. intros i Hi. rewrite Z.bits_0.
    destruct (Z.lt_ge_cases i k).
    + rewrite Z.mod_pow2_bits_low by lia. apply Hb. lia.
    + apply Z.mod_pow2_bits_high. lia.
Qed.

Lemma MinimumMaskLength_le a k :
  0 ≤ k ≤ 128 → Ipv6.MinimumMaskLength a ≤ k ↔ a mod 2 ^ (128 - k) = 0.
Proof.
  intros Hk. rewrite low_bits_zero by lia. unfold Ipv6.MinimumMaskLength.
  destruct (find _ _) as [i|] eqn:Hf.
  - apply find_seqZ_Some in Hf as (Hi & Ht & Hlow). unfold bs_test in *. split.
    + intros Hle j Hj. apply Hlow. lia.
    + intros Hz. destruct (Z.lt_ge_cases i (128 - k)); [|lia].
      rewrite Hz in Ht by lia. done.
  - pose proof (find_seqZ_None _ _ _ Hf) as Hz. unfold bs_test in Hz.
    split; [|lia]. intros _ i Hi. apply Hz. lia.
Qed.

(** [MinimumMaskLength] of an IPv6 address is the least prefix length whose mask keeps every
    set bit: the address fits in a prefix of length [k] iff its low [128 - k] bits are zero,
    which holds iff [k] is at least the computed length. *)
Theorem MinimumMaskLength_least (a k : Z) :
  bs_ok 128 a → 0 ≤ k ≤ 128 →
  0 ≤ Ipv6.MinimumMaskLength a ≤ 128 ∧
  (Ipv6.MinimumMaskLength a ≤ k ↔ a mod 2 ^ (128 - k) = 0).
Proof.
  intros Ha Hk. split; [|by apply MinimumMaskLength_le].
  unfold Ipv6.MinimumMaskLength. destruct (find _ _) as [i|] eqn:Hf; [|lia].
  apply find_seqZ_Some in Hf. lia.
Qed.

Lemma MinimumMaskLength_least_witness :
  bs_ok 128 (0xFE80 * 2 ^ 112) ∧
  (0 ≤ Ipv6.MinimumMaskLength (0xFE80 * 2 ^ 112) ≤ 128 ∧
   (Ipv6.MinimumMaskLength (0xFE80 * 2 ^ 112) ≤ 9 ↔ (0xFE80 * 2 ^ 112) mod 2 ^ (128 - 9) = 0)).
Proof.
  split; [split; lia|]. apply (MinimumMaskLength_least (0xFE80 * 2 ^ 112) 9); [split; lia | lia].
Defined.
