(* ===== verification/IrUtils.v ===== *)
(** p4_infra/p4_pdpi: [ir_utils.cc].  The intermediate representation of a P4Runtime value is a
    tagged string ([IrValue]); this file models the conversions between P4Runtime byte strings,
    machine integers and IR values, the choice of a format from P4 annotations, and the helpers
    on normalized byte strings, and proves the conversions value preserving. *)
From S2P Require Import Prelude Bitset ByteString Abseil HexString NetAddr NetAddrText.

(** * ir.proto *)

(** [Format_other] stands for the integers an open protobuf enum may hold besides these. *)
Inductive Format := HEX_STRING | MAC | IPV4 | IPV6 | STRING | Format_other.

#[global] Instance Format_eq_dec : EqDecision Format.
Proof. solve_decision. Defined.

(** The [oneof format] of message [IrValue]. *)
Inductive IrValue :=
  | kMac (s : str) | kIpv4 (s : str) | kIpv6 (s : str) | kStr (s : str) | kHexStr (s : str)
  | FORMAT_NOT_SET.

#[global] Instance IrValue_eq_dec : EqDecision IrValue.
Proof. solve_decision. Defined.

(** * Byte strings *)

Definition ArbitraryToCanonicalByteString (bytes : str) : str :=
  let found := match find_first_not_of bytes zero with
               | Some i => Z.of_nat i | None => npos end in
  erase_front bytes (Z.min found (wrapU 64 (zlen bytes - 1))).

Definition ArbitraryToNormalizedByteString (bytes : str) (expected_bitwidth : Z) : result str :=
  if bool_decide (bytes = []) then Err kOutOfRange else
  let canonical_string := ArbitraryToCanonicalByteString bytes in
  let bitwidth := GetBitwidthOfByteString canonical_string in
  if expected_bitwidth <? bitwidth then Err kInvalidArgument else
  let num_bytes := Z.quot (expected_bitwidth + 7) 8 in
  Ok (replicate (Z.to_nat (num_bytes - zlen canonical_string)) zero ++ canonical_string).

(** [memset] and [memcpy] into 8 bytes, read as a network-order integer by [be64toh]. *)
Definition ArbitraryByteStringToUint (bytes : str) (bitwidth : Z) : result Z :=
  if 64 <? bitwidth then Err kInvalidArgument else
  stripped_value ← ArbitraryToNormalizedByteString bytes bitwidth;
  let pad := 8 - zlen stripped_value in
  Ok (be_value (replicate (Z.to_nat pad) zero ++ stripped_value)).

(** The bytes of a [k]-byte integer in memory (little-endian: the header refuses to compile
    elsewhere), and the conversion to network order, which swaps them. *)
Fixpoint memory_bytes (k : nat) (z : Z) : str :=
  match k with
  | O => []
  | S k => char_of z :: memory_bytes k (z / 256)
  end.

Definition hton (k : nat) (z : Z) : Z := be_value (memory_bytes k z).

Definition UintToNormalizedByteString (value bitwidth : Z) : result str :=
  if (bitwidth <=? 0) || (64 <? bitwidth) then Err kInvalidArgument else
  let bytes :=
    if bitwidth <=? 8 then memory_bytes 1 (wrapU 8 value)
    else if bitwidth <=? 16 then memory_bytes 2 (hton 2 (wrapU 16 value))
    else if bitwidth <=? 32 then memory_bytes 4 (hton 4 (wrapU 32 value))
    else memory_bytes 8
      (if hton 4 1 =? 1 then value
       else Z.lor (wrapU 64 (Z.shiftl (hton 4 (wrapU 32 value)) 32))
                  (hton 4 (wrapU 32 (Z.shiftr value 32)))) in
  normalized_str ← ArbitraryToNormalizedByteString bytes bitwidth;
  Ok normalized_str.

Definition IsAllZeros (s : str) : bool :=
  negb (existsb (λ c, negb (bool_decide (c = zero))) s).

Definition Intersection (left_ right_ : str) : result str :=
  if negb (zlen left_ =? zlen right_) then Err kInvalidArgument
  else Ok (zip_with (λ left_c right_c, char_of (Z.land (uchar left_c) (uchar right_c))) left_ right_).

(** [for (int i = bitwidth; i > 0; i -= 8)]; each round lowers [i], so [bitwidth] rounds are
    enough. *)
Fixpoint mask_loop (fuel : nat) (i prefix_len : Z) (result : str) : str :=
  match fuel with
  | O => result
  | S fuel =>
    if 0 <? i then
      let c := if 8 <=? prefix_len then char_of 0xff
               else if 0 <? prefix_len then char_of (Z.land (Z.shiftl 0xff (8 - prefix_len)) 0xff)
               else char_of 0 in
      mask_loop fuel (i - 8) (prefix_len - 8) (result ++ [c])
    else result
  end.

Definition PrefixLenToMask (prefix_len bitwidth : Z) : result str :=
  if bitwidth <? prefix_len then Err kInvalidArgument else
  if negb (Z.rem bitwidth 8 =? 0) then
    let msb := Z.rem bitwidth 8 in
    let result := [char_of (Z.land (Z.shiftr 0xff (8 - msb)) 0xff)] in
    Ok (mask_loop (Z.to_nat bitwidth) (bitwidth - msb) (prefix_len - msb) result)
  else Ok (mask_loop (Z.to_nat bitwidth) bitwidth prefix_len []).

(** * Formats and IR values *)

Section ir_values.
Context `{AbslStrings} `{!Ipv6.Inet} `{Gutil}.

(** utf8_range, a third-party library. *)
Context (IsStructurallyValid : str → bool).

(** The loop over the annotations, leaving on a conflicting or unknown one. *)
Fixpoint GetFormat_loop (annotations : list str) (format : Format) : result Format :=
  match annotations with
  | [] => Ok format
  | annotation :: annotations =>
    if StartsWith annotation $"@format(" then
      if negb (bool_decide (format = HEX_STRING)) then Err kInvalidArgument
      else if bool_decide (annotation = $"@format(MAC_ADDRESS)") then GetFormat_loop annotations MAC
      else if bool_decide (annotation = $"@format(IPV4_ADDRESS)") then GetFormat_loop annotations IPV4
      else if bool_decide (annotation = $"@format(IPV6_ADDRESS)") then GetFormat_loop annotations IPV6
      else Err kInvalidArgument
    else GetFormat_loop annotations format
  end.

Definition GetFormat (annotations : list str) (bitwidth : Z) (is_sdn_string : bool) : result Format :=
  let format := HEX_STRING in
  let format := if is_sdn_string then STRING else format in
  format ← GetFormat_loop annotations format;
  if bool_decide (format = MAC) && negb (bitwidth =? 48) then Err kInvalidArgument
  else if bool_decide (format = IPV4) && negb (bitwidth =? 32) then Err kInvalidArgument
  else if bool_decide (format = IPV6) && (128 <? bitwidth) then Err kInvalidArgument
  else Ok format.

(** Shift counts are converted to [size_t]; [substr(1)] throws on an empty string. *)
Definition ArbitraryByteStringToIrValue (format : Format) (bitwidth : Z) (bytes : str)
  : result IrValue :=
  if bool_decide (bytes = []) then Err kOutOfRange else
  match format with
  | MAC => mac ← OfByteString 48 bytes; Ok (kMac (Mac.ToString mac))
  | IPV4 => ipv4 ← OfByteString 32 bytes; Ok (kIpv4 (Ipv4.ToString ipv4))
  | IPV6 =>
    ipv6 ← OfByteString 128 bytes;
    if bs_any (ToBitset (addr_shr ipv6 (wrapU 64 bitwidth))) then Err kInvalidArgument
    else
      let ipv6 := addr_shl 128 ipv6 (wrapU 64 (128 - bitwidth)) in
      Ok (kIpv6 (Ipv6.ToString ipv6))
  | STRING => if negb (IsStructurallyValid bytes) then Err kInvalidArgument else Ok (kStr bytes)
  | HEX_STRING =>
    normalized_bytes ← ArbitraryToNormalizedByteString bytes bitwidth;
    let hex_string := BytesToHexString normalized_bytes in
    let expected_num_hex_chars :=
      Z.quot bitwidth 4 + (if negb (Z.rem bitwidth 4 =? 0) then 1 else 0) in
    if negb (wrapU 64 expected_num_hex_chars =? zlen hex_string) then
      match hex_string with
      | [] => Die
      | _ :: hex_string => Ok (kHexStr ($"0x" ++ hex_string))
      end
    else Ok (kHexStr ($"0x" ++ hex_string))
  | Format_other => Err kInvalidArgument
  end.

(** The name of the set field of the [oneof]. *)
Definition format_case_name (ir_value : IrValue) : option str :=
  match ir_value with
  | kMac _ => Some $"mac" | kIpv4 _ => Some $"ipv4" | kIpv6 _ => Some $"ipv6"
  | kStr _ => Some $"str" | kHexStr _ => Some $"hex_str" | FORMAT_NOT_SET => None
  end.

Definition ValidateIrValueFormat (ir_value : IrValue) (format : Format)
  (allow_arbitrary_format : bool) : result () :=
  format_case_name ← GetOneOfFieldName (format_case_name ir_value);
  match format with
  | MAC => match ir_value with kMac _ => Ok tt
           | _ => if allow_arbitrary_format then Ok tt else Err kInvalidArgument end
  | IPV4 => match ir_value with kIpv4 _ => Ok tt
            | _ => if allow_arbitrary_format then Ok tt else Err kInvalidArgument end
  | IPV6 => match ir_value with kIpv6 _ => Ok tt
            | _ => if allow_arbitrary_format then Ok tt else Err kInvalidArgument end
  | STRING => match ir_value with kStr _ => Ok tt
              | _ => if allow_arbitrary_format then Ok tt else Err kInvalidArgument end
  | HEX_STRING => match ir_value with kHexStr _ => Ok tt
                  | _ => if allow_arbitrary_format then Ok tt else Err kInvalidArgument end
  | Format_other => Err kInvalidArgument
  end.

(** [std::isxdigit(c) != 0 && c == std::tolower(c)], in the "C" locale. *)
Definition tolower (c : ascii) : ascii :=
  if (65 <=? uchar c) && (uchar c <=? 90) then char_of (uchar c + 32) else c.

Definition IrValueToNormalizedByteString (ir_value : IrValue) (bitwidth : Z) : result str :=
  match ir_value with
  | kMac s => mac ← Mac.OfString s; Ok (ToPaddedByteString 48 mac)
  | kIpv4 s => ipv4 ← Ipv4.OfString s; Ok (ToPaddedByteString 32 ipv4)
  | kIpv6 s =>
    ipv6 ← Ipv6.OfString s;
    if bitwidth <? Ipv6.MinimumMaskLength ipv6 then Err kInvalidArgument
    else
      let ipv6 := addr_shr ipv6 (wrapU 64 (128 - bitwidth)) in
      Ok (ToPaddedByteString 128 ipv6)
  | kStr s => if bool_decide (s = []) then Err kOutOfRange else Ok s
  | kHexStr hex_str =>
    let expected_num_hex_chars :=
      Z.quot bitwidth 4 + (if negb (Z.rem bitwidth 4 =? 0) then 1 else 0) in
    if negb (StartsWith hex_str $"0x") then Err kInvalidArgument else
    let stripped_hex := default hex_str (ConsumePrefix hex_str $"0x") in
    if negb (wrapU 64 expected_num_hex_chars =? zlen stripped_hex) then Err kInvalidArgument
    else if negb (forallb (λ c, is_hex_char c && bool_decide (c = tolower c)) stripped_hex)
    then Err kInvalidArgument
    else
      let byte_string := HexStringToBytes
        ((if zlen stripped_hex mod 2 =? 0 then [] else $"0") ++ stripped_hex) in
      ArbitraryToNormalizedByteString byte_string bitwidth
  | FORMAT_NOT_SET => Err kInvalidArgument
  end.

Definition FormattedStringToIrValue (value : str) (format : Format) : result IrValue :=
  match format with
  | MAC => Ok (kMac value) | IPV4 => Ok (kIpv4 value) | IPV6 => Ok (kIpv6 value)
  | STRING => Ok (kStr value) | HEX_STRING => Ok (kHexStr value)
  | Format_other => Err kInvalidArgument
  end.

Definition IrValueString (value : IrValue) : str :=
  match value with
  | kMac s | kIpv4 s | kIpv6 s | kStr s | kHexStr s => s
  | FORMAT_NOT_SET => []
  end.

(** Reading a [oneof] field that is not set yields the empty string. *)
Definition IrValueToFormattedString (value : IrValue) (format : Format) : result str :=
  match format with
  | MAC => Ok (match value with kMac s => s | _ => [] end)
  | IPV4 => Ok (match value with kIpv4 s => s | _ => [] end)
  | IPV6 => Ok (match value with kIpv6 s => s | _ => [] end)
  | STRING => Ok (match value with kStr s => s | _ => [] end)
  | HEX_STRING => Ok (match value with kHexStr s => s | _ => [] end)
  | Format_other => Err kInvalidArgument
  end.

Definition IsElementDeprecated (annotations : list str) : bool :=
  existsb (λ annotation, StartsWith annotation $"@deprecated") annotations.
End ir_values.

Definition IsGoogleRpcCode (rpc_code : Z) : result () :=
  if (rpc_code <? 0) || (15 <? rpc_code) then Err kInvalidArgument else Ok tt.

Definition ValidateGenericUpdateStatus (code : Z) (message : str) : result () :=
  if (code =? 0) && negb (bool_decide (message = [])) then Err kInvalidArgument else Ok tt.

(** * Normalization *)

Lemma canonical_value s :
  s ≠ [] → zlen s < 2 ^ 64 →
  be_value (ArbitraryToCanonicalByteString s) = be_value s ∧
  canonical (ArbitraryToCanonicalByteString s).
Proof. apply canonicalize_value. Qed.

Lemma normalized_eq s w :
  s ≠ [] → zlen s < 2 ^ 64 →
  ArbitraryToNormalizedByteString s w =
    if (0 <? w) && (be_value s <? 2 ^ w) then Ok (BitsetToPaddedByteString w (be_value s))
    else Err kInvalidArgument.
Proof.
  intros Hs Hlen. unfold ArbitraryToNormalizedByteString.
  rewrite bool_decide_eq_false_2 by done. cbv zeta.
  destruct (canonical_value s) as [Hv Hc]; [done..|].
  set (c := ArbitraryToCanonicalByteString s) in *.
  assert (c ≠ []) as Hne by (by intros ->).
  destruct (Z.ltb_spec 0 w) as [Hw|Hw]; cbn [andb].
  - pose proof (bitwidth_le c w Hw Hne) as Hle. rewrite Hv in Hle.
    destruct (Z.ltb_spec w (GetBitwidthOfByteString c)), (Z.ltb_spec (be_value s) (2 ^ w));
      try (exfalso; lia); [done|].
    f_equal. symmetry. pose proof (be_value_bound s).
    assert (bs_ok w (be_value s)) as Hok by (split; lia).
    pose proof (canonical_length_le c (BitsetToPaddedByteString w (be_value s)) Hc
      (padded_nonempty w _ Hw Hok)) as Hcl.
    rewrite padded_value, padded_length in Hcl by (lia || done). specialize (Hcl Hv).
    unfold NumBitsToNumBytes in Hcl.
    assert (Z.quot (w + 7) 8 = (w + 7) / 8) as -> by (apply Z.quot_div_nonneg; lia).
    apply padded_unique; [lia | done | |].
    + rewrite zlen_app. unfold zlen at 1. rewrite length_replicate.
      unfold NumBitsToNumBytes. lia.
    + rewrite be_value_app, Hv.
      assert (be_value (replicate (Z.to_nat ((w + 7) / 8 - zlen c)) zero) = 0) as ->; [|lia].
      apply be_value_zeros, Forall_replicate. done.
  - assert (0 < GetBitwidthOfByteString c) as Hb.
    { rewrite GetBitwidthOfByteString_spec, bool_decide_eq_false_2 by done.
      pose proof (be_value_bound c). pose proof (Z.log2_nonneg (be_value c)). case_if; lia. }
    destruct (Z.ltb_spec w (GetBitwidthOfByteString c)); [done | lia].
Qed.

(** Normalization of a P4Runtime byte string to a bit width [w]: an empty string is out of
    range; a string whose big-endian value does not fit in [w] bits is an invalid argument; any
    other string becomes the unique string of ceil(w/8) bytes with the same value.  Normalizing
    is idempotent, and two strings normalize alike iff they denote the same value. *)
Theorem normalized_byte_string_spec (s t : str) (w : Z) :
  zlen s < 2 ^ 64 → zlen t < 2 ^ 64 → 0 < w < 2 ^ 32 →
  (s = [] → ArbitraryToNormalizedByteString s w = Err kOutOfRange) ∧
  (s ≠ [] → 2 ^ w ≤ be_value s → ArbitraryToNormalizedByteString s w = Err kInvalidArgument) ∧
  (s ≠ [] → be_value s < 2 ^ w →
   ∃ n, ArbitraryToNormalizedByteString s w = Ok n ∧ zlen n = NumBitsToNumBytes w ∧
     be_value n = be_value s ∧ ArbitraryToNormalizedByteString n w = Ok n ∧
     (t ≠ [] → ArbitraryToNormalizedByteString t w = Ok n ↔ be_value t = be_value s)).
Proof.
  intros Hs Ht Hw. split_and!.
  - by intros ->.
  - intros Hne Hv. rewrite normalized_eq by done.
    destruct (Z.ltb_spec (be_value s) (2 ^ w)); [lia|]. by rewrite andb_false_r.
  - intros Hne Hv. rewrite normalized_eq by done. pose proof (be_value_bound s).
    assert (bs_ok w (be_value s)) as Hok by (split; lia).
    rewrite (proj2 (Z.ltb_lt 0 w)), (proj2 (Z.ltb_lt (be_value s) _)) by lia. cbn [andb].
    exists (BitsetToPaddedByteString w (be_value s)).
    rewrite padded_length, padded_value by (lia || done). split; [done|]. split; [done|].
    split; [done|]. split.
    + pose proof (padded_length w _ ltac:(lia) Hok) as Hl.
      pose proof (NumBitsToNumBytes_bounds w ltac:(lia)).
      rewrite normalized_eq; [|by apply padded_nonempty; [lia|] | lia].
      rewrite padded_value by (lia || done).
      by rewrite (proj2 (Z.ltb_lt 0 w)), (proj2 (Z.ltb_lt (be_value s) _)) by lia.
    + intros Hnt. rewrite normalized_eq by done.
      rewrite (proj2 (Z.ltb_lt 0 w)) by lia. cbn [andb].
      destruct (Z.ltb_spec (be_value t) (2 ^ w)); [|split; [done | lia]].
      pose proof (be_value_bound t). split; [|by intros ->].
      intros [= Heq]. apply (f_equal be_value) in Heq.
      by rewrite !padded_value in Heq by (lia || done || (split; lia)).
Qed.

Lemma normalized_byte_string_spec_witness :
  (zlen [zero; zero; "001"%char] < 2 ^ 64 ∧ 0 < 9 < 2 ^ 32) ∧
  ([zero; zero; "001"%char] ≠ [] → be_value [zero; zero; "001"%char] < 2 ^ 9 →
   ∃ n, ArbitraryToNormalizedByteString [zero; zero; "001"%char] 9 = Ok n ∧
     zlen n = NumBitsToNumBytes 9 ∧ be_value n = be_value [zero; zero; "001"%char] ∧
     ArbitraryToNormalizedByteString n 9 = Ok n ∧
     (["001"%char] ≠ [] → ArbitraryToNormalizedByteString ["001"%char] 9 = Ok n ↔
        be_value ["001"%char] = be_value [zero; zero; "001"%char])).
Proof.
  split; [done|].
  apply (normalized_byte_string_spec [zero; zero; "001"%char] ["001"%char] 9); done.
Defined.

(** * Integers *)

Lemma memory_bytes_length k z : length (memory_bytes k z) = k.
Proof. revert z. induction k as [|k IH]; intros z; cbn; [done | by rewrite IH]. Qed.

Lemma memory_bytes_value k z :
  be_value (rev (memory_bytes k z)) = z mod 256 ^ Z.of_nat k.
Proof.
  revert z. induction k as [|k IH]; intros z; [by rewrite Z.mod_1_r|].
  cbn [memory_bytes rev]. rewrite be_value_app, IH, be_value_cons, uchar_char_of.
  change (be_value []) with 0. change (zlen [char_of z]) with 1. change (zlen (@nil ascii)) with 0.
  rewrite Nat2Z.inj_succ, Z.pow_succ_r by lia.
  rewrite Z.rem_mul_r by lia. lia.
Qed.

(** A network-order conversion reverses the bytes. *)
Lemma memory_bytes_of_value s : memory_bytes (length s) (be_value s) = rev s.
Proof.
  rewrite <-(rev_involutive s). rewrite length_rev. generalize (rev s). clear s. intros s.
  induction s as [|c s IH]; [done|]. cbn [memory_bytes rev length].
  rewrite be_value_app, be_value_cons. change (be_value []) with 0.
  change (zlen [c]) with 1. change (zlen (@nil ascii)) with 0. pose proof (uchar_bound c).
  rewrite rev_app_distr. cbn [rev app]. f_equal.
  - apply uchar_inj. rewrite uchar_char_of. symmetry. apply (Z.mod_unique _ _ (be_value (rev s))); lia.
  - replace ((be_value (rev s) * 256 ^ 1 + (uchar c * 256 ^ 0 + 0)) / 256) with (be_value (rev s));
      [done|]. apply (Z.div_unique _ _ _ (uchar c)); lia.
Qed.

Lemma memory_bytes_hton k z : memory_bytes k (hton k z) = rev (memory_bytes k z).
Proof. rewrite <-(memory_bytes_length k z) at 1. apply memory_bytes_of_value. Qed.

Lemma memory_bytes_app j k z :
  memory_bytes (j + k) z = memory_bytes j z ++ memory_bytes k (z / 256 ^ Z.of_nat j).
Proof.
  revert z. induction j as [|j IH]; intros z; [by rewrite Z.div_1_r|].
  cbn [Nat.add memory_bytes app]. rewrite IH, Z.div_div by lia.
  by rewrite Nat2Z.inj_succ, Z.pow_succ_r by lia.
Qed.

Lemma memory_bytes_mod k z : memory_bytes k (z mod 256 ^ Z.of_nat k) = memory_bytes k z.
Proof.
  rewrite <-(rev_involutive (memory_bytes k z)), <-memory_bytes_of_value, length_rev,
    memory_bytes_length. by rewrite memory_bytes_value.
Qed.

(** The 64-bit value assembled from two swapped halves is the swapped value. *)
Lemma swapped_halves z :
  0 ≤ z < 2 ^ 64 →
  Z.lor (wrapU 64 (Z.shiftl (hton 4 (wrapU 32 z)) 32)) (hton 4 (wrapU 32 (Z.shiftr z 32))) =
  hton 8 z.
Proof.
  intros Hz. assert (∀ y, 0 ≤ hton 4 y < 2 ^ 32) as Hb.
  { intros y. pose proof (be_value_bound (memory_bytes 4 y)) as Hv.
    unfold zlen in Hv. rewrite memory_bytes_length in Hv. done. }
  pose proof (Hb (wrapU 32 z)) as Hlo.
  rewrite (wrapU_small 64), <-shiftl_lor_add; [|lia | apply Hb |
    rewrite Z.shiftl_mul_pow2 by lia; lia].
  unfold wrapU, hton. change (2 ^ 32) with (256 ^ Z.of_nat 4). rewrite !memory_bytes_mod.
  change (memory_bytes 8 z) with (memory_bytes (4 + 4) z).
  rewrite memory_bytes_app, be_value_app.
  unfold zlen. rewrite memory_bytes_length. by rewrite Z.shiftr_div_pow2 by lia.
Qed.

(** The integer type the value is cast to: the narrowest of 8, 16, 32 and 64 bits. *)
Definition storage_bits (bitwidth : Z) : Z :=
  if bitwidth <=? 8 then 8 else if bitwidth <=? 16 then 16 else if bitwidth <=? 32 then 32 else 64.

Lemma storage_bits_ge w : w ≤ 64 → w ≤ storage_bits w.
Proof. unfold storage_bits. repeat case_if; lia. Qed.

Lemma UintToNormalizedByteString_eq v w :
  0 ≤ v < 2 ^ 64 → 1 ≤ w ≤ 64 →
  ∃ s, s ≠ [] ∧ zlen s < 2 ^ 64 ∧ be_value s = v mod 2 ^ storage_bits w ∧
    UintToNormalizedByteString v w = ArbitraryToNormalizedByteString s w.
Proof.
  intros Hv Hw.
  assert (∀ k, (0 < k < 9)%nat → rev (memory_bytes k v) ≠ [] ∧ zlen (rev (memory_bytes k v)) < 2 ^ 64)
    as Hlen.
  { intros k Hk. unfold zlen. rewrite length_rev, memory_bytes_length. split; [|lia].
    intros Hnil. apply (f_equal length) in Hnil. rewrite length_rev, memory_bytes_length in Hnil.
    cbn in Hnil. lia. }
  assert (∀ k, (0 < k < 9)%nat → be_value (rev (memory_bytes k v)) = v mod 256 ^ Z.of_nat k) as Hval
    by (intros; apply memory_bytes_value).
  exists (rev (memory_bytes (Z.to_nat (storage_bits w / 8)) v)). unfold UintToNormalizedByteString.
  rewrite (proj2 (Z.leb_gt w 0)), (proj2 (Z.ltb_ge 64 w)) by lia. cbn [orb].
  assert (∀ r : result str, (normalized_str ← r; Ok normalized_str) = r) as Hret by (by intros []).
  rewrite Hret. unfold storage_bits. change (hton 4 1 =? 1) with false. cbv iota.
  destruct (Z.leb_spec w 8); [|destruct (Z.leb_spec w 16); [|destruct (Z.leb_spec w 32)]].
  - change (Z.to_nat (8 / 8)) with 1%nat. split_and!; [by apply Hlen; lia.. | by apply Hval; lia |].
    change (wrapU 8 v) with (v mod 256 ^ Z.of_nat 1). by rewrite memory_bytes_mod.
  - change (Z.to_nat (16 / 8)) with 2%nat. split_and!; [by apply Hlen; lia.. | by apply Hval; lia |].
    change (wrapU 16 v) with (v mod 256 ^ Z.of_nat 2). by rewrite memory_bytes_hton, memory_bytes_mod.
  - change (Z.to_nat (32 / 8)) with 4%nat. split_and!; [by apply Hlen; lia.. | by apply Hval; lia |].
    change (wrapU 32 v) with (v mod 256 ^ Z.of_nat 4). by rewrite memory_bytes_hton, memory_bytes_mod.
  - change (Z.to_nat (64 / 8)) with 8%nat. split_and!; [by apply Hlen; lia.. | by apply Hval; lia |].
    by rewrite swapped_halves, memory_bytes_hton.
Qed.

Lemma ArbitraryByteStringToUint_eq s w :
  s ≠ [] → zlen s < 2 ^ 64 → 1 ≤ w ≤ 64 →
  ArbitraryByteStringToUint s w =
    if be_value s <? 2 ^ w then Ok (be_value s) else Err kInvalidArgument.
Proof.
  intros Hs Hlen Hw. unfold ArbitraryByteStringToUint.
  rewrite (proj2 (Z.ltb_ge 64 w)) by lia. rewrite normalized_eq by done.
  rewrite (proj2 (Z.ltb_lt 0 w)) by lia. cbn [andb].
  destruct (Z.ltb_spec (be_value s) (2 ^ w)); [|done]. cbn [mbind result_bind]. f_equal.
  pose proof (be_value_bound s).
  rewrite be_value_app, padded_value by (lia || (split; lia)).
  rewrite (proj2 (be_value_zeros (replicate _ _))); [lia|]. by apply Forall_replicate.
Qed.

(** Integers and normalized byte strings: converting a 64-bit integer to a byte string of
    [w] bits casts it to the narrowest machine type of at least [w] bits; when the cast value fits in
    [w] bits the string has ceil(w/8) bytes and reads back as the cast value (the integer
    itself when it fits), otherwise the conversion is an error; widths outside 1..64 are errors. *)
Theorem uint_byte_string_roundtrip (v w : Z) :
  0 ≤ v < 2 ^ 64 →
  let u := v mod 2 ^ storage_bits w in
  (w < 1 ∨ 64 < w → UintToNormalizedByteString v w = Err kInvalidArgument) ∧
  (1 ≤ w ≤ 64 → u < 2 ^ w →
   ∃ s, UintToNormalizedByteString v w = Ok s ∧ zlen s = NumBitsToNumBytes w ∧
     ArbitraryByteStringToUint s w = Ok u) ∧
  (1 ≤ w ≤ 64 → 2 ^ w ≤ u → UintToNormalizedByteString v w = Err kInvalidArgument) ∧
  (1 ≤ w ≤ 64 → v < 2 ^ w → u = v).
Proof.
  intros Hv u. split_and!.
  - intros Hw. unfold UintToNormalizedByteString.
    destruct (Z.leb_spec w 0), (Z.ltb_spec 64 w); try done. lia.
  - intros Hw Hu. destruct (UintToNormalizedByteString_eq v w) as (s & Hs & Hl & Hval & ->); [done..|].
    rewrite normalized_eq by done. fold u in Hval. rewrite Hval.
    assert (bs_ok w u) as Hok by (split; [apply Z.mod_pos_bound; unfold storage_bits; repeat case_if; lia | done]).
    rewrite (proj2 (Z.ltb_lt 0 w)), (proj2 (Z.ltb_lt u _)) by lia. cbn [andb].
    eexists. split; [done|]. split; [by apply padded_length; [lia|]|].
    rewrite ArbitraryByteStringToUint_eq; [| by apply padded_nonempty; [lia|] | | done].
    + rewrite padded_value by (lia || done). by rewrite (proj2 (Z.ltb_lt u _)) by lia.
    + rewrite padded_length by (lia || done). pose proof (NumBitsToNumBytes_bounds w). lia.
  - intros Hw Hu. destruct (UintToNormalizedByteString_eq v w) as (s & Hs & Hl & Hval & ->); [done..|].
    rewrite normalized_eq by done. fold u in Hval. rewrite Hval.
    rewrite (proj2 (Z.ltb_ge u _)) by lia. by rewrite andb_false_r.
  - intros Hw Hlt. apply Z.mod_small. split; [lia|].
    eapply Z.lt_le_trans; [done|]. apply Z.pow_le_mono_r; [lia|]. apply storage_bits_ge. lia.
Qed.

Lemma uint_byte_string_roundtrip_witness :
  0 ≤ 0x123 < 2 ^ 64 ∧
  ∃ s, UintToNormalizedByteString 0x123 9 = Ok s ∧ zlen s = NumBitsToNumBytes 9 ∧
    ArbitraryByteStringToUint s 9 = Ok (0x123 mod 2 ^ storage_bits 9).
Proof.
  split; [lia|]. apply (uint_byte_string_roundtrip 0x123 9); [lia | lia | vm_compute; reflexivity].
Defined.

(** * Prefix masks and intersections *)

Lemma mask_byte p :
  uchar (if 8 <=? p then char_of 0xff
         else if 0 <? p then char_of (Z.land (Z.shiftl 0xff (8 - p)) 0xff) else char_of 0) =
  256 - 2 ^ (8 - Z.max 0 (Z.min p 8)).
Proof.
  destruct (Z.leb_spec 8 p); [rewrite Z.min_r by lia; done|].
  destruct (Z.ltb_spec 0 p); [|rewrite Z.min_l, Z.max_l by lia; done].
  rewrite Z.min_l, Z.max_r, uchar_char_of by lia. apply Z.eqb_eq. finite_check p 1 7.
Qed.

Lemma mask_loop_spec fuel m p res :
  (m ≤ fuel)%nat → p ≤ 8 * Z.of_nat m →
  ∃ bytes, mask_loop fuel (8 * Z.of_nat m) p res = res ++ bytes ∧ length bytes = m ∧
    be_value bytes = 2 ^ (8 * Z.of_nat m) - 2 ^ (8 * Z.of_nat m - Z.max 0 p).
Proof.
  revert fuel p res. induction m as [|m IH]; intros fuel p res Hf Hp.
  - exists []. rewrite app_nil_r. replace (Z.max 0 p) with 0 by lia.
    split; [destruct fuel; done | done].
  - destruct fuel as [|fuel]; [lia|]. cbn [mask_loop].
    rewrite (proj2 (Z.ltb_lt 0 _)) by lia. pose proof (mask_byte p) as Hc.
    match goal with |- context [res ++ [?x]] => set (c := x) in * end.
    replace (8 * Z.of_nat (S m) - 8) with (8 * Z.of_nat m) by lia.
    destruct (IH fuel (p - 8) (res ++ [c])) as (bytes & -> & Hl & Hv); [lia..|].
    exists (c :: bytes). rewrite <-app_assoc. split; [done|]. split; [cbn; lia|].
    rewrite be_value_cons, Hc, Hv. unfold zlen. rewrite Hl, pow256 by lia.
    rewrite (Z.mul_comm (_ - _)).
    assert (2 ^ (8 * Z.of_nat (S m)) = 2 ^ (8 * Z.of_nat m) * 256) as ->
      by (rewrite <-(Z.pow_add_r 2 _ 8) by lia; f_equal; lia).
    destruct (Z.le_gt_cases 8 p).
    + rewrite Z.min_r, !(Z.max_r 0) by lia. change (2 ^ (8 - 8)) with 1.
      replace (8 * Z.of_nat (S m) - p) with (8 * Z.of_nat m - (p - 8)) by lia. lia.
    + rewrite Z.min_l, (Z.max_l 0 (p - 8)), Z.sub_0_r by lia.
      assert (2 ^ (8 * Z.of_nat (S m) - Z.max 0 p) =
              2 ^ (8 * Z.of_nat m) * 2 ^ (8 - Z.max 0 p)) as ->
        by (rewrite <-Z.pow_add_r by lia; f_equal; lia).
      lia.
Qed.

Lemma msb_byte m :
  0 < m < 8 → uchar (char_of (Z.land (Z.shiftr 0xff (8 - m)) 0xff)) = 2 ^ m - 1.
Proof. intros. apply Z.eqb_eq. finite_check m 1 7. Qed.

(** [PrefixLenToMask]: for a non-negative width [w] a prefix longer than [w] is an error, and otherwise the mask has
    ceil(w/8) bytes.  Its value is the mask of the upper [p] bits of a [w]-bit number whenever
    [p] is at least [w mod 8].  For a shorter prefix every bit of the partial leading byte is set
    all the same: the value is the mask of the upper [w mod 8] bits, not of the upper [p]. *)
Theorem PrefixLenToMask_spec (p w : Z) :
  0 ≤ w →
  (w < p → PrefixLenToMask p w = Err kInvalidArgument) ∧
  (p ≤ w →
   ∃ mask, PrefixLenToMask p w = Ok mask ∧ zlen mask = NumBitsToNumBytes w ∧
     be_value mask = 2 ^ w - 2 ^ (w - Z.max p (w mod 8))).
Proof.
  intros Hw. unfold PrefixLenToMask. split; intros Hp; destruct (Z.ltb_spec w p); try done; try lia.
  assert (Z.rem w 8 = w mod 8) as -> by (apply Z.rem_mod_nonneg; lia).
  pose proof (Z.mod_pos_bound w 8 ltac:(lia)) as Hm.
  pose proof (Z.div_mod w 8 ltac:(lia)) as Hdiv. set (m := w mod 8) in *.
  assert (0 ≤ w / 8) as Hq by (apply Z.div_pos; lia).
  assert (w - m = 8 * Z.of_nat (Z.to_nat (w / 8))) as Hwm by lia.
  destruct (Z.eqb_spec m 0) as [Hm0|Hm0]; cbn [negb].
  - destruct (mask_loop_spec (Z.to_nat w) (Z.to_nat (w / 8)) p []) as (bytes & Heq & Hl & Hv); [lia..|].
    replace (8 * Z.of_nat (Z.to_nat (w / 8))) with w in * by lia.
    exists bytes. split; [by rewrite Heq|]. split.
    + unfold zlen, NumBitsToNumBytes. rewrite Hl. Z.div_mod_to_equations. lia.
    + rewrite Hv, Hm0. by rewrite (Z.max_comm p).
  - rewrite Hwm.
    destruct (mask_loop_spec (Z.to_nat w) (Z.to_nat (w / 8)) (p - m)
      [char_of (Z.land (Z.shiftr 255 (8 - m)) 255)]) as (bytes & -> & Hl & Hv); [lia..|].
    eexists. split; [done|]. cbn [app]. split.
    + unfold zlen, NumBitsToNumBytes. cbn [length]. rewrite Hl. Z.div_mod_to_equations. lia.
    + rewrite be_value_cons, msb_byte, Hv by lia. unfold zlen. rewrite Hl, pow256, <-Hwm by lia.
      replace (w - m - Z.max 0 (p - m)) with (w - Z.max p m) by lia.
      assert (2 ^ w = 2 ^ m * 2 ^ (w - m)) as Hpow
        by (rewrite <-Z.pow_add_r by lia; f_equal; lia). lia.
Qed.

Lemma PrefixLenToMask_spec_witness :
  0 ≤ 12 ∧
  (9 ≤ 12 → ∃ mask, PrefixLenToMask 9 12 = Ok mask ∧ zlen mask = NumBitsToNumBytes 12 ∧
     be_value mask = 2 ^ 12 - 2 ^ (12 - Z.max 9 (12 mod 8))).
Proof. split; [lia|]. apply (PrefixLenToMask_spec 9 12). lia. Defined.

Lemma land_split k a b c d :
  0 ≤ k → 0 ≤ b < 2 ^ k → 0 ≤ d < 2 ^ k →
  Z.land (a * 2 ^ k + b) (c * 2 ^ k + d) = Z.land a c * 2 ^ k + Z.land b d.
Proof.
  intros Hk Hb Hd.
  assert (bs_ok k (Z.land b d)) as Hbd by (apply (bs_and_ok k Hk b d); done).
  rewrite !shiftl_lor_add by (lia || done). apply Z.bits_inj'. intros i Hi.
  rewrite Z.land_spec, !Z.lor_spec, Z.land_spec, !Z.shiftl_spec, Z.land_spec by lia.
  destruct (Z.lt_ge_cases i k).
  - rewrite !(Z.testbit_neg_r _ (i - k)) by lia. done.
  - rewrite (testbit_above k b), (testbit_above k d) by (lia || done).
    by rewrite !orb_false_r.
Qed.

(** The intersection of two byte strings is defined exactly when they have equal length; it
    has that length and its value is the bitwise conjunction of the two values. *)
Theorem Intersection_spec (s t : str) :
  if zlen s =? zlen t
  then ∃ r, Intersection s t = Ok r ∧ zlen r = zlen s ∧
         be_value r = Z.land (be_value s) (be_value t)
  else Intersection s t = Err kInvalidArgument.
Proof.
  unfold Intersection. destruct (Z.eqb_spec (zlen s) (zlen t)) as [Hlen|]; [cbn [negb]|done].
  assert (length s = length t) as Hl by (unfold zlen in Hlen; lia). clear Hlen.
  eexists. split; [done|]. revert t Hl.
  induction s as [|c s IH]; intros [|d t] Hl; try done. injection Hl as Hl.
  cbn [zip_with]. rewrite !zlen_cons, !be_value_cons, uchar_char_of.
  destruct (IH t Hl) as [Hz ->]. rewrite Hz. split; [done|].
  assert (zlen s = zlen t) as Hst by (unfold zlen; lia).
  rewrite Hst. pose proof (be_value_bound s) as Hbs. pose proof (be_value_bound t) as Hbt.
  rewrite Hst in Hbs. rewrite pow256 in * by auto with pins.
  rewrite (land_split (8 * zlen t)) by (done || (pose proof (zlen_nonneg t); lia)).
  do 2 f_equal. apply Z.mod_small.
  pose proof (uchar_bound c). pose proof (uchar_bound d).
  apply (bs_and_ok 8 ltac:(lia) (uchar c) (uchar d)); done.
Qed.

(** * Formats *)

(** The declared format of an annotation, once it is known to be a [@format(...)]. *)
Definition annotated_format (annotation : str) : option (Format * (Z → bool)) :=
  if bool_decide (annotation = $"@format(MAC_ADDRESS)") then Some (MAC, λ w, w =? 48)
  else if bool_decide (annotation = $"@format(IPV4_ADDRESS)") then Some (IPV4, λ w, w =? 32)
  else if bool_decide (annotation = $"@format(IPV6_ADDRESS)") then Some (IPV6, λ w, w <=? 128)
  else None.

Section format_lemmas.
Context `{AbslStringsLaws}.

Definition format_annotations (annotations : list str) : list str :=
  List.filter (λ a, StartsWith a $"@format(") annotations.

Lemma GetFormat_loop_filter annotations f :
  GetFormat_loop annotations f = GetFormat_loop (format_annotations annotations) f.
Proof.
  revert f. induction annotations as [|a annotations IH]; intros f; [done|].
  cbn [GetFormat_loop format_annotations List.filter].
  destruct (StartsWith a $"@format(") eqn:Ha; [|apply IH].
  cbn [GetFormat_loop]. rewrite Ha. by rewrite !IH.
Qed.

Lemma GetFormat_loop_busy a annotations f :
  StartsWith a $"@format(" = true → f ≠ HEX_STRING →
  GetFormat_loop (a :: annotations) f = Err kInvalidArgument.
Proof.
  intros Ha Hf. cbn [GetFormat_loop]. rewrite Ha. by rewrite bool_decide_eq_false_2.
Qed.

(** The format of a value is determined by its type and its [@format(...)] annotations alone:
    with none it is a string (for SDN strings) or a hex string; with exactly one, on a value
    that is not an SDN string, it is the MAC, IPv4 or IPv6 format the annotation names, if the
    bit width is 48, 32 or at most 128; everything else, in particular two annotations or one on
    an SDN string, is an invalid argument. *)
Theorem GetFormat_spec (annotations : list str) (w : Z) (is_sdn_string : bool) :
  GetFormat annotations w is_sdn_string =
    match format_annotations annotations with
    | [] => Ok (if is_sdn_string then STRING else HEX_STRING)
    | [a] =>
      match annotated_format a with
      | Some (f, fits) =>
        if negb is_sdn_string && fits w then Ok f else Err kInvalidArgument
      | None => Err kInvalidArgument
      end
    | _ :: _ :: _ => Err kInvalidArgument
    end.
Proof.
  unfold GetFormat. rewrite GetFormat_loop_filter. cbv zeta.
  pose proof (λ x, proj1 (filter_In (λ a, StartsWith a $"@format(") x annotations)) as Hin.
  fold (format_annotations annotations) in Hin.
  destruct (format_annotations annotations) as [|a l]; [by destruct is_sdn_string|].
  assert (StartsWith a $"@format(" = true) as Ha by (apply (Hin a); by left).
  destruct is_sdn_string.
  { rewrite GetFormat_loop_busy by done. destruct l; [|done].
    destruct (annotated_format a) as [[]|]; done. }
  cbn [GetFormat_loop negb andb]. rewrite Ha, bool_decide_eq_true_2 by done. cbn [negb].
  unfold annotated_format. destruct l as [|b l].
  - repeat case_bool_decide; try done; cbn -[Z.eqb Z.ltb Z.leb];
      [by destruct (w =? 48) | by destruct (w =? 32) |].
    rewrite Z.leb_antisym. by destruct (128 <? w).
  - assert (StartsWith b $"@format(" = true) as Hb by (apply (Hin b); right; by left).
    repeat case_bool_decide; try done; by rewrite GetFormat_loop_busy.
Qed.
End format_lemmas.

(** * IR values *)

Section ir_value_lemmas.
Context `{AbslStringsLaws} `{!Ipv6.Inet, !Ipv6.InetLaws} `{Gutil}.
Context (IsStructurallyValid : str → bool).

(** Widths that [GetFormat] lets through for a format. *)
Definition format_fits (format : Format) (w : Z) : Prop :=
  match format with
  | MAC => w = 48 | IPV4 => w = 32 | IPV6 => 0 < w ≤ 128
  | HEX_STRING => 0 < w < 2 ^ 31
  | STRING | Format_other => True
  end.

(** Characters of a hexadecimal string of [w] bits. *)
Definition hex_chars (w : Z) : Z :=
  Z.quot w 4 + (if negb (Z.rem w 4 =? 0) then 1 else 0).

Lemma hex_chars_bytes w :
  0 < w →
  hex_chars w = 2 * NumBitsToNumBytes w ∨
  hex_chars w = 2 * NumBitsToNumBytes w - 1 ∧ w ≤ 8 * NumBitsToNumBytes w - 4.
Proof.
  intros Hw. unfold hex_chars, NumBitsToNumBytes.
  rewrite Z.quot_div_nonneg, Z.rem_mod_nonneg by lia.
  destruct (Z.eqb_spec (w mod 4) 0); cbn [negb]; Z.div_mod_to_equations; lia.
Qed.

Lemma lower_hex_digit d :
  0 ≤ d < 16 →
  is_hex_char (hex_digit d) && bool_decide (hex_digit d = tolower (hex_digit d)) = true.
Proof. intros Hd. finite_check d 0 16. Qed.

Lemma hex_lower s :
  forallb (λ c, is_hex_char c && bool_decide (c = tolower c)) (BytesToHexString s) = true.
Proof.
  induction s as [|c s IH]; [by rewrite BytesToHexString_nil|].
  rewrite BytesToHexString_cons. cbn [forallb]. pose proof (uchar_bound c).
  rewrite IH, !lower_hex_digit by (Z.div_mod_to_equations; lia). done.
Qed.

Lemma hex_length s : zlen (BytesToHexString s) = 2 * zlen s.
Proof.
  induction s as [|c s IH]; [by rewrite BytesToHexString_nil|].
  rewrite BytesToHexString_cons, !zlen_cons, IH. lia.
Qed.

(** The leading nibble dropped from a printed value is a zero. *)
Lemma hex_leading_zero w b :
  0 < w → bs_ok w b → hex_chars w = 2 * NumBitsToNumBytes w - 1 →
  w ≤ 8 * NumBitsToNumBytes w - 4 →
  ∃ t, BytesToHexString (BitsetToPaddedByteString w b) = "0"%char :: t.
Proof.
  intros Hw Hb Hc Hle. pose proof (padded_value w b ltac:(lia) Hb) as Hv.
  pose proof (padded_length w b ltac:(lia) Hb) as Hl.
  destruct (BitsetToPaddedByteString w b) as [|c t].
  { change (zlen (@nil ascii)) with 0 in Hl. pose proof (NumBitsToNumBytes_bounds w). lia. }
  rewrite BytesToHexString_cons. eexists. f_equal.
  assert (uchar c < 16) as Hlt.
  { rewrite be_value_cons in Hv. rewrite zlen_cons in Hl. pose proof (zlen_nonneg t).
    pose proof (be_value_bound t). destruct Hb as [_ Hb].
    assert (2 ^ w ≤ 2 ^ (8 * zlen t + 4)) by (apply Z.pow_le_mono_r; lia).
    rewrite Z.pow_add_r in * by lia. rewrite pow256 in * by lia. nia. }
  pose proof (uchar_bound c). rewrite Z.div_small by lia. done.
Qed.

Lemma hex_value_parsed w b h :
  0 < w < 2 ^ 31 → bs_ok w b →
  (zlen h = hex_chars w ∧
   (if zlen h mod 2 =? 0 then [] else $"0") ++ h =
     BytesToHexString (BitsetToPaddedByteString w b) ∧
   forallb (λ c, is_hex_char c && bool_decide (c = tolower c)) h = true) →
  IrValueToNormalizedByteString (kHexStr ($"0x" ++ h)) w = Ok (BitsetToPaddedByteString w b).
Proof.
  intros Hw Hb (Hl & Hh & Hx). unfold IrValueToNormalizedByteString. cbv zeta.
  rewrite StartsWith_app, ConsumePrefix_app. change (default _ (Some h)) with h. cbn [negb].
  fold (hex_chars w). rewrite Hl at 1. rewrite wrapU_small, Z.eqb_refl; cycle 1.
  { destruct (hex_chars_bytes w) as [?|[? ?]]; [lia|..]; pose proof (NumBitsToNumBytes_bounds w); lia. }
  cbn [negb]. rewrite Hx. cbn [negb]. rewrite Hh, HexStringToBytes_inverse.
  pose proof (NumBitsToNumBytes_bounds w). pose proof (padded_length w b ltac:(lia) Hb).
  rewrite normalized_eq; [|by apply padded_nonempty; [lia|] | lia].
  rewrite padded_value by (lia || done).
  by rewrite (proj2 (Z.ltb_lt 0 w)), (proj2 (Z.ltb_lt b _)) by (lia || apply Hb).
Qed.

Lemma hex_string_roundtrip bytes w v :
  bytes ≠ [] → zlen bytes < 2 ^ 64 → 0 < w < 2 ^ 31 →
  ArbitraryByteStringToIrValue IsStructurallyValid HEX_STRING w bytes = Ok v →
  IrValueToNormalizedByteString v w = Ok (BitsetToPaddedByteString w (be_value bytes)) ∧
  be_value bytes < 2 ^ w ∧ ∃ h, v = kHexStr h.
Proof.
  intros Hne Hlen Hw. unfold ArbitraryByteStringToIrValue.
  rewrite bool_decide_eq_false_2, normalized_eq by done. fold (hex_chars w). cbv zeta.
  rewrite (proj2 (Z.ltb_lt 0 w)) by lia. cbn [andb].
  destruct (Z.ltb_spec (be_value bytes) (2 ^ w)) as [Hlt|]; [|done].
  cbn [mbind result_bind]. pose proof (be_value_bound bytes).
  assert (bs_ok w (be_value bytes)) as Hb by (split; lia).
  set (n := BitsetToPaddedByteString w (be_value bytes)) in *.
  assert (zlen (BytesToHexString n) = 2 * NumBitsToNumBytes w) as Hl
    by (rewrite hex_length; unfold n; by rewrite padded_length by (lia || done)).
  pose proof (NumBitsToNumBytes_bounds w ltac:(lia)) as Hnb.
  destruct (hex_chars_bytes w) as [Hc|[Hc Hc']]; [lia|..].
  - rewrite Hc, wrapU_small, Hl, Z.eqb_refl by lia. cbn [negb]. intros [= <-].
    split; [|by eauto]. apply hex_value_parsed; [done..|].
    rewrite Hl, Z.mul_comm, Z.mod_mul by lia. split; [lia|]. split; [done | apply hex_lower].
  - rewrite Hc, wrapU_small, Hl by lia.
    rewrite (proj2 (Z.eqb_neq _ _)) by lia. cbn [negb].
    destruct (hex_leading_zero w _ ltac:(lia) Hb Hc Hc') as [t Ht]. fold n in Ht.
    pose proof (hex_lower n) as Hlow. rewrite Ht in Hl, Hlow |- *. intros [= <-].
    rewrite zlen_cons in Hl. split; [|by eauto].
    apply hex_value_parsed; [done..|]. fold n. rewrite Ht.
    assert (zlen t mod 2 = 1) as -> by (Z.div_mod_to_equations; lia).
    cbn [forallb] in Hlow. bool_prop. split; [lia | done].
Qed.

Lemma addr_shl_small n a k :
  0 ≤ k ≤ n → 0 ≤ a < 2 ^ (n - k) → addr_shl n a k = a * 2 ^ k.
Proof.
  intros Hk Ha. unfold addr_shl, bs_shl. rewrite Z.shiftl_mul_pow2 by lia.
  apply wrapU_small. assert (2 ^ n = 2 ^ (n - k) * 2 ^ k) as ->
    by (rewrite <-Z.pow_add_r by lia; f_equal; lia). nia.
Qed.

(** An IPv6 value of [w] bits is kept in the upper bits of an address. *)
Lemma ipv6_upper_bits b w :
  0 < w ≤ 128 → 0 ≤ b < 2 ^ 128 →
  bs_any (ToBitset (addr_shr b (wrapU 64 w))) = negb (b <? 2 ^ w) ∧
  (b < 2 ^ w →
   let a := addr_shl 128 b (wrapU 64 (128 - w)) in
   bs_ok 128 a ∧ Ipv6.MinimumMaskLength a ≤ w ∧ addr_shr a (wrapU 64 (128 - w)) = b).
Proof.
  intros Hw Hb. rewrite !wrapU_small by lia. unfold bs_any, ToBitset, addr_shr, bs_shr. split.
  - f_equal. rewrite Z.shiftr_div_pow2 by lia. apply eq_iff_eq_true.
    rewrite Z.eqb_eq, Z.ltb_lt, Z.div_small_iff by lia. lia.
  - intros Hlt. cbv zeta. split; [by apply bs_shl_ok|].
    rewrite addr_shl_small by (replace (128 - (128 - w)) with w; lia).
    rewrite MinimumMaskLength_le, Z.mod_mul by lia. split; [done|].
    rewrite Z.shiftr_div_pow2 by lia. apply Z.div_mul. lia.
Qed.

Lemma ByteStringToBitset_nonempty n s :
  0 ≤ n → s ≠ [] →
  OfByteString n s = if be_value s <? 2 ^ n then Ok (be_value s) else Err kInvalidArgument.
Proof.
  intros. unfold OfByteString. rewrite ByteStringToBitset_value, bool_decide_eq_false_2 by done.
  by destruct (be_value s <? 2 ^ n).
Qed.

(** When a byte string has an IR value in a format. *)
Definition fits_format (format : Format) (w : Z) (bytes : str) : Prop :=
  match format with
  | STRING => IsStructurallyValid bytes = true
  | Format_other => False
  | _ => be_value bytes < 2 ^ w
  end.

Lemma ir_value_defined format w bytes :
  bytes ≠ [] → zlen bytes < 2 ^ 64 → format_fits format w →
  fits_format format w bytes →
  ∃ v, ArbitraryByteStringToIrValue IsStructurallyValid format w bytes = Ok v.
Proof.
  intros Hne Hlen Hfit Hv. unfold ArbitraryByteStringToIrValue.
  rewrite bool_decide_eq_false_2 by done. pose proof (be_value_bound bytes) as [Hnn _].
  destruct format; cbn [format_fits fits_format] in *; subst; try done.
  - rewrite normalized_eq, (proj2 (Z.ltb_lt 0 w)), (proj2 (Z.ltb_lt _ _)) by (lia || done).
    cbn [andb mbind result_bind]. cbv zeta. case_if; [|by eauto].
    destruct (BytesToHexString _) as [|? ?] eqn:Hh; [|by eauto].
    apply (f_equal zlen) in Hh. rewrite hex_length in Hh.
    rewrite padded_length in Hh by (lia || (split; lia)).
    pose proof (NumBitsToNumBytes_bounds w). change (zlen (@nil ascii)) with 0 in Hh. lia.
  - rewrite ByteStringToBitset_nonempty, (proj2 (Z.ltb_lt _ _)) by (lia || done). by eauto.
  - rewrite ByteStringToBitset_nonempty, (proj2 (Z.ltb_lt _ _)) by (lia || done). by eauto.
  - assert (2 ^ w ≤ 2 ^ 128) by (apply Z.pow_le_mono_r; lia).
    rewrite ByteStringToBitset_nonempty, (proj2 (Z.ltb_lt _ _)) by (lia || done).
    cbn [mbind result_bind]. destruct (ipv6_upper_bits (be_value bytes) w) as [-> _]; [lia..|].
    rewrite (proj2 (Z.ltb_lt _ _)) by done. cbn [negb]. by eauto.
  - rewrite Hv. by eauto.
Qed.

(** What an IR value of the number of a byte string is read back as: its bytes for an SDN string, and
    otherwise the number in the bytes of the width; of 128 bits for any IPv6 address. *)
Definition read_back (format : Format) (w : Z) (bytes : str) : str :=
  match format with
  | STRING => bytes
  | IPV6 => BitsetToPaddedByteString 128 (be_value bytes)
  | _ => BitsetToPaddedByteString w (be_value bytes)
  end.

Lemma ir_value_read_back_eq format w bytes v :
  bytes ≠ [] → zlen bytes < 2 ^ 64 → format_fits format w →
  ArbitraryByteStringToIrValue IsStructurallyValid format w bytes = Ok v →
  ValidateIrValueFormat v format false = Ok tt ∧ fits_format format w bytes ∧
  IrValueToNormalizedByteString v w = Ok (read_back format w bytes).
Proof.
  intros Hne Hlen Hfit Hv. pose proof (be_value_bound bytes) as [Hnn _].
  destruct format; cbn [format_fits fits_format read_back] in *; subst.
  - apply hex_string_roundtrip in Hv as (Hn & Hlt & h & ->); [|done..]. done.
  - unfold ArbitraryByteStringToIrValue in Hv. rewrite bool_decide_eq_false_2 in Hv by done.
    rewrite ByteStringToBitset_nonempty in Hv by done. destruct (_ <? _) eqn:Heqb; [|done].
    injection Hv as <-. apply Z.ltb_lt in Heqb. split; [done|]. split; [done|].
    cbn [IrValueToNormalizedByteString]. by rewrite mac_text_roundtrip by (split; lia).
  - unfold ArbitraryByteStringToIrValue in Hv. rewrite bool_decide_eq_false_2 in Hv by done.
    rewrite ByteStringToBitset_nonempty in Hv by done. destruct (_ <? _) eqn:Heqb; [|done].
    injection Hv as <-. apply Z.ltb_lt in Heqb. split; [done|]. split; [done|].
    cbn [IrValueToNormalizedByteString]. by rewrite ipv4_text_roundtrip by (split; lia).
  - unfold ArbitraryByteStringToIrValue in Hv. rewrite bool_decide_eq_false_2 in Hv by done.
    rewrite ByteStringToBitset_nonempty in Hv by done. destruct (_ <? _) eqn:Heqb; [|done].
    apply Z.ltb_lt in Heqb. cbn [mbind result_bind] in Hv.
    destruct (ipv6_upper_bits (be_value bytes) w) as [Hany Hup]; [lia..|].
    rewrite Hany in Hv. destruct (Z.ltb_spec (be_value bytes) (2 ^ w)) as [Hlt|]; [|done].
    cbn [negb] in Hv. injection Hv as <-. split; [done|]. split; [done|].
    destruct (Hup Hlt) as (Hok & Hmin & Hback). unfold IrValueToNormalizedByteString.
    rewrite ipv6_text_roundtrip by done. cbn [mbind result_bind].
    by rewrite (proj2 (Z.ltb_ge _ _)), Hback by done.
  - unfold ArbitraryByteStringToIrValue in Hv. rewrite bool_decide_eq_false_2 in Hv by done.
    destruct (IsStructurallyValid bytes); [|done]. injection Hv as <-.
    split; [done|]. split; [done|]. cbn. by rewrite bool_decide_eq_false_2.
  - unfold ArbitraryByteStringToIrValue in Hv. by rewrite bool_decide_eq_false_2 in Hv.
Qed.

(** The number stays the same. *)
Lemma read_back_value format w bytes :
  format_fits format w → fits_format format w bytes →
  if bool_decide (format = STRING) then read_back format w bytes = bytes
  else be_value (read_back format w bytes) = be_value bytes.
Proof.
  intros Hfit Hv. pose proof (be_value_bound bytes) as [Hnn _].
  destruct format; cbn [format_fits fits_format read_back] in *; subst; cbn; try done.
  1-3: apply padded_value; [lia | split; lia].
  assert (2 ^ w ≤ 2 ^ 128) by (apply Z.pow_le_mono_r; lia). apply padded_value; [lia | split; lia].
Qed.

Lemma ir_value_read_back format w bytes v :
  bytes ≠ [] → zlen bytes < 2 ^ 64 → format_fits format w →
  ArbitraryByteStringToIrValue IsStructurallyValid format w bytes = Ok v →
  ValidateIrValueFormat v format false = Ok tt ∧ fits_format format w bytes ∧
  ∃ n, IrValueToNormalizedByteString v w = Ok n ∧
    if bool_decide (format = STRING) then n = bytes else be_value n = be_value bytes.
Proof.
  intros Hne Hlen Hfit Hv. destruct (ir_value_read_back_eq format w bytes v) as (Hval & Hf & Hn); [done..|].
  split; [done|]. split; [done|]. eexists. split; [exact Hn|]. by apply read_back_value.
Qed.

(** Byte strings and IR values, for a format and width that [GetFormat] lets through: a
    non-empty byte string has an IR value exactly when its number fits in the width (for SDN
    strings: when it is valid UTF-8); the IR value is of the requested format, and reading it
    back gives a byte string denoting the same number (the same bytes for SDN strings). *)
Theorem ir_value_roundtrip (format : Format) (w : Z) (bytes : str) :
  bytes ≠ [] → zlen bytes < 2 ^ 64 → format_fits format w →
  ((∃ v, ArbitraryByteStringToIrValue IsStructurallyValid format w bytes = Ok v) ↔
     fits_format format w bytes) ∧
  (∀ v, ArbitraryByteStringToIrValue IsStructurallyValid format w bytes = Ok v →
     ValidateIrValueFormat v format false = Ok tt ∧
     ∃ n, IrValueToNormalizedByteString v w = Ok n ∧
       if bool_decide (format = STRING) then n = bytes else be_value n = be_value bytes).
Proof.
  intros Hne Hlen Hfit. split; [split|].
  - intros [v Hv]. by eapply ir_value_read_back.
  - by apply ir_value_defined.
  - intros v Hv. destruct (ir_value_read_back format w bytes v) as (? & _ & ?); done.
Qed.
End ir_value_lemmas.

Lemma ir_value_roundtrip_witness :
  (["001"; "002"]%char ≠ [] ∧ zlen ["001"; "002"]%char < 2 ^ 64 ∧ format_fits IPV6 64) ∧
  ((∃ v, ArbitraryByteStringToIrValue (λ _, true) IPV6 64 ["001"; "002"]%char = Ok v) ↔
     fits_format (λ _, true) IPV6 64 ["001"; "002"]%char).
Proof.
  split; [done|].
  refine (proj1 (ir_value_roundtrip (λ _, true) IPV6 64 ["001"; "002"]%char _ _ _)); [done..|].
  cbn. lia.
Defined.
