(* ===== verification/SdnController.v ===== *)
(** p4rt_app/p4runtime: [sdn_controller_manager.{h,cc}] and the life cycle of its connections
    in [P4RuntimeImpl::StreamChannel].  Connections are objects on a heap: the manager holds
    pointers to objects that the stream handlers own, so every access goes through the pointer
    and a dangling pointer is undefined behaviour ([None] in the monad).  [step] interleaves
    the handlers, each of which runs under the server lock; [Inv] is the invariant of the
    reachable states. *)
From S2P Require Import Prelude.

(** * Data *)

(** absl::uint128 from its halves, and back. *)
Definition MakeUint128 (high low : Z) : Z := high * 2 ^ 64 + low.
Definition Uint128High64 (z : Z) : Z := z / 2 ^ 64.
Definition Uint128Low64 (z : Z) : Z := z mod 2 ^ 64.

Record SdnConnection := mkConnection {
  initialized_ : bool;
  role_name_ : option str;
  election_id_ : option Z;
}.

Definition NewConnection : SdnConnection := mkConnection false None None.
Definition Initialize (c : SdnConnection) : SdnConnection :=
  mkConnection true (role_name_ c) (election_id_ c).
Definition SetElectionId (id : option Z) (c : SdnConnection) : SdnConnection :=
  mkConnection (initialized_ c) (role_name_ c) id.
Definition SetRoleName (name : option str) (c : SdnConnection) : SdnConnection :=
  mkConnection (initialized_ c) name (election_id_ c).

(** The parts of the P4Runtime messages the manager reads.  Optional message fields are
    [option]s; the election id is its two 64-bit halves. *)
Record MasterArbitrationUpdate := mkArbitration {
  update_device_id : Z;
  update_role : option str;
  update_election_id : option (Z * Z);
}.

Record MasterArbitrationResponse := mkArbitrationResponse {
  arbitration_device_id : Z;
  arbitration_role : option str;
  arbitration_election_id : option (Z * Z);
  arbitration_status : result ();
}.

Inductive StreamMessageResponse :=
  | ArbitrationResponse (arbitration : MasterArbitrationResponse)
  | PacketIn (payload : str)
  | StreamError (code : StatusCode)
  | OtherResponse.

(** The header fields of a Write, Read, Set/GetForwardingPipelineConfig or Capabilities
    request. *)
Record RequestHeader := mkRequestHeader {
  request_device_id : Z;
  request_role : str;
  request_election_id : option (Z * Z);
}.

(** The manager's fields, the live connection objects by address, the messages written to the
    streams (oldest first), and the packet-out counters of the server. *)
Record World := mkWorld {
  heap : gmap nat SdnConnection;
  device_id_ : option Z;
  connections_ : list nat;
  election_id_past_by_role_ : gmap (option str) (option Z);
  sent : list (nat * StreamMessageResponse);
  packet_out_sent : Z;
  packet_out_errors : Z;
}.

Definition with_heap (h : gmap nat SdnConnection) (w : World) : World :=
  mkWorld h (device_id_ w) (connections_ w) (election_id_past_by_role_ w) (sent w)
    (packet_out_sent w) (packet_out_errors w).
Definition with_device_id (d : option Z) (w : World) : World :=
  mkWorld (heap w) d (connections_ w) (election_id_past_by_role_ w) (sent w)
    (packet_out_sent w) (packet_out_errors w).
Definition with_connections (l : list nat) (w : World) : World :=
  mkWorld (heap w) (device_id_ w) l (election_id_past_by_role_ w) (sent w)
    (packet_out_sent w) (packet_out_errors w).
Definition with_past (m : gmap (option str) (option Z)) (w : World) : World :=
  mkWorld (heap w) (device_id_ w) (connections_ w) m (sent w)
    (packet_out_sent w) (packet_out_errors w).
Definition with_sent (l : list (nat * StreamMessageResponse)) (w : World) : World :=
  mkWorld (heap w) (device_id_ w) (connections_ w) (election_id_past_by_role_ w) l
    (packet_out_sent w) (packet_out_errors w).
Definition count_packet_out (sent_ errors : Z) (w : World) : World :=
  mkWorld (heap w) (device_id_ w) (connections_ w) (election_id_past_by_role_ w) (sent w)
    (packet_out_sent w + sent_) (packet_out_errors w + errors).

(** * The monad of the handlers: state, with [None] for undefined behaviour *)

Definition M (A : Type) : Type := World → option (A * World).
#[global] Instance M_ret : MRet M := λ A a w, Some (a, w).
#[global] Instance M_bind : MBind M := λ A B f m w,
  match m w with Some (a, w') => f a w' | None => None end.

Definition gets {A} (f : World → A) : M A := λ w, Some (f w, w).
Definition modify (f : World → World) : M () := λ w, Some (tt, f w).

(** [*connection]. *)
Definition deref (c : nat) : M SdnConnection := λ w,
  match heap w !! c with Some conn => Some (conn, w) | None => None end.
Definition update_connection (c : nat) (f : SdnConnection → SdnConnection) : M () := λ w,
  match heap w !! c with
  | Some conn => Some (tt, with_heap (<[c := f conn]> (heap w)) w)
  | None => None
  end.

(** [election_id_past_by_role_[role_name]], which default-inserts an absent key. *)
Definition past_entry (role_name : option str) : M (option Z) := λ w,
  let entry := default None (election_id_past_by_role_ w !! role_name) in
  Some (entry, with_past (<[role_name := entry]> (election_id_past_by_role_ w)) w).

(** * SdnControllerManager *)

Definition SendStreamMessageResponse (c : nat) (response : StreamMessageResponse) : M () :=
  _ ← deref c;
  modify (λ w, with_sent (sent w ++ [(c, response)]) w).

Fixpoint VerifyElectionIdIsUnused_loop (role_name : option str) (election_id : option Z)
  (active_connections : list nat) (current_connection : nat) : M (result ()) :=
  match active_connections with
  | [] => mret (Ok tt)
  | connection :: active_connections =>
    if bool_decide (connection = current_connection)
    then VerifyElectionIdIsUnused_loop role_name election_id active_connections current_connection
    else
      conn ← deref connection;
      if bool_decide (role_name_ conn = role_name) && bool_decide (election_id_ conn = election_id)
      then mret (Err kInvalidArgument)
      else VerifyElectionIdIsUnused_loop role_name election_id active_connections current_connection
  end.

Definition VerifyElectionIdIsUnused (role_name : option str) (election_id : option Z)
  (active_connections : list nat) (current_connection : nat) : M (result ()) :=
  match election_id with
  | None => mret (Ok tt)
  | Some _ =>
    VerifyElectionIdIsUnused_loop role_name election_id active_connections current_connection
  end.

Fixpoint VerifyElectionIdIsActive (role_name : option str) (election_id : option Z)
  (active_connections : list nat) : M (result ()) :=
  match active_connections with
  | [] => mret (Err kPermissionDenied)
  | connection :: active_connections =>
    conn ← deref connection;
    if bool_decide (role_name_ conn = role_name) && bool_decide (election_id_ conn = election_id)
    then mret (Ok tt)
    else VerifyElectionIdIsActive role_name election_id active_connections
  end.

Fixpoint PrimaryConnectionExists_loop (role_name : option str) (past : option Z)
  (connections : list nat) : M bool :=
  match connections with
  | [] => mret false
  | connection :: connections =>
    conn ← deref connection;
    if bool_decide (role_name_ conn = role_name) && bool_decide (election_id_ conn = past)
    then mret (bool_decide (is_Some past))
    else PrimaryConnectionExists_loop role_name past connections
  end.

Definition PrimaryConnectionExists (role_name : option str) : M bool :=
  election_id_past_for_role ← past_entry role_name;
  connections ← gets connections_;
  PrimaryConnectionExists_loop role_name election_id_past_for_role connections.

Definition SendArbitrationResponse (connection : nat) : M () :=
  device_id ← gets device_id_;
  conn ← deref connection;
  election_id_past_for_role ← past_entry (role_name_ conn);
  primary_exists ← PrimaryConnectionExists (role_name_ conn);
  let status :=
    if primary_exists : bool
    then if bool_decide (election_id_past_for_role = election_id_ conn)
         then Ok tt else Err kAlreadyExists
    else Err kNotFound in
  SendStreamMessageResponse connection (ArbitrationResponse
    (mkArbitrationResponse (default 0 device_id) (role_name_ conn)
       ((λ id, (Uint128High64 id, Uint128Low64 id)) <$> election_id_past_for_role) status)).

Fixpoint Inform_loop (role_name : option str) (connections : list nat) : M () :=
  match connections with
  | [] => mret tt
  | connection :: connections =>
    conn ← deref connection;
    _ ← (if bool_decide (role_name_ conn = role_name) then SendArbitrationResponse connection
         else mret tt);
    Inform_loop role_name connections
  end.

Definition InformConnectionsAboutPrimaryChange (role_name : option str) : M () :=
  connections ← gets connections_;
  Inform_loop role_name connections.

(** The part of [HandleArbitrationUpdate] after the checks: detect a change of primary and
    inform the connections. *)
Definition FinishArbitration (controller : nat) (role_name : option str)
  (old_election_id new_election_id : option Z) : M (result ()) :=
  election_id_past_for_role ← past_entry role_name;
  let connection_was_primary :=
    bool_decide (is_Some old_election_id) &&
    bool_decide (old_election_id = election_id_past_for_role) in
  let connection_is_new_primary :=
    match new_election_id, election_id_past_for_role with
    | None, _ => false
    | Some _, None => true
    | Some new_id, Some past => past <=? new_id
    end in
  if connection_is_new_primary then
    _ ← modify (λ w, with_past (<[role_name := new_election_id]> (election_id_past_by_role_ w)) w);
    _ ← InformConnectionsAboutPrimaryChange role_name;
    mret (Ok tt)
  else if connection_was_primary then
    _ ← InformConnectionsAboutPrimaryChange role_name;
    mret (Ok tt)
  else
    _ ← SendArbitrationResponse controller;
    mret (Ok tt).

Definition HandleArbitrationUpdate (update : MasterArbitrationUpdate) (controller : nat)
  : M (result ()) :=
  device ← gets device_id_;
  match device with
  | None => mret (Err kFailedPrecondition)
  | Some device_id =>
    let role_name := match update_role update with
                     | Some name => if bool_decide (name = []) then None else Some name
                     | None => None end in
    conn ← deref controller;
    let old_election_id_for_connection := election_id_ conn in
    let new_election_id_for_connection :=
      (λ '(high, low), MakeUint128 high low) <$> update_election_id update in
    connections ← gets connections_;
    if negb (initialized_ conn) then
      if negb (update_device_id update =? device_id) then mret (Err kNotFound) else
      election_id_is_unused ←
        VerifyElectionIdIsUnused role_name new_election_id_for_connection connections controller;
      if negb (is_Ok election_id_is_unused) then mret election_id_is_unused else
      _ ← update_connection controller (SetRoleName role_name);
      _ ← update_connection controller (SetElectionId new_election_id_for_connection);
      _ ← update_connection controller Initialize;
      _ ← modify (λ w, with_connections (connections_ w ++ [controller]) w);
      FinishArbitration controller role_name old_election_id_for_connection
        new_election_id_for_connection
    else
      if negb (update_device_id update =? device_id) then mret (Err kFailedPrecondition) else
      if negb (bool_decide (role_name = role_name_ conn)) then mret (Err kFailedPrecondition) else
      election_id_is_unused ←
        VerifyElectionIdIsUnused role_name new_election_id_for_connection connections controller;
      if negb (is_Ok election_id_is_unused) then mret election_id_is_unused else
      _ ← update_connection controller (SetElectionId new_election_id_for_connection);
      FinishArbitration controller role_name old_election_id_for_connection
        new_election_id_for_connection
  end.

(** The erase loop: the first occurrence goes. *)
Fixpoint erase_connection (connection : nat) (l : list nat) : list nat :=
  match l with
  | [] => []
  | c :: l => if bool_decide (c = connection) then l else c :: erase_connection connection l
  end.

Definition Disconnect (connection : nat) : M () :=
  conn ← deref connection;
  if negb (initialized_ conn) then mret tt else
  _ ← modify (λ w, with_connections (erase_connection connection (connections_ w)) w);
  if bool_decide (is_Some (election_id_ conn)) then
    past ← past_entry (role_name_ conn);
    if bool_decide (election_id_ conn = past)
    then InformConnectionsAboutPrimaryChange (role_name_ conn)
    else mret tt
  else mret tt.

Definition SetDeviceId (device_id : Z) : M (result ()) :=
  current ← gets device_id_;
  connections ← gets connections_;
  if bool_decide (current = Some device_id) then mret (Ok tt)
  else if negb (bool_decide (connections = [])) then mret (Err kFailedPrecondition)
  else if device_id =? 0 then _ ← modify (with_device_id None); mret (Ok tt)
  else _ ← modify (with_device_id (Some device_id)); mret (Ok tt).

Definition GetDeviceId : M (option Z) := gets device_id_.

Definition AllowMutableRequest (device_id : option Z) (role_name : option str)
  (election_id : option Z) : M (result ()) :=
  device ← gets device_id_;
  past_by_role ← gets election_id_past_by_role_;
  connections ← gets connections_;
  match device_id with
  | None => mret (Err kNotFound)
  | Some _ =>
    if negb (bool_decide (device_id = device)) then mret (Err kNotFound) else
    match election_id with
    | None => mret (Err kPermissionDenied)
    | Some _ =>
      match past_by_role !! role_name with
      | None => mret (Err kPermissionDenied)
      | Some past =>
        if negb (bool_decide (election_id = past)) then mret (Err kPermissionDenied)
        else VerifyElectionIdIsActive role_name election_id connections
      end
    end
  end.

Definition AllowNonMutableRequest (device_id : option Z) : M (result ()) :=
  device ← gets device_id_;
  match device_id with
  | None => mret (Err kNotFound)
  | Some _ => if negb (bool_decide (device_id = device)) then mret (Err kNotFound) else mret (Ok tt)
  end.

Definition header_device_id (r : RequestHeader) : option Z :=
  if negb (request_device_id r =? 0) then Some (request_device_id r) else None.
Definition header_role (r : RequestHeader) : option str :=
  if negb (bool_decide (request_role r = [])) then Some (request_role r) else None.
Definition header_election_id (r : RequestHeader) : option Z :=
  (λ '(high, low), MakeUint128 high low) <$> request_election_id r.

(** The five [AllowRequest] overloads. *)
Definition AllowWriteRequest (r : RequestHeader) : M (result ()) :=
  AllowMutableRequest (header_device_id r) (header_role r) (header_election_id r).
Definition AllowReadRequest (r : RequestHeader) : M (result ()) :=
  AllowNonMutableRequest (header_device_id r).
Definition AllowSetForwardingPipelineConfigRequest (r : RequestHeader) : M (result ()) :=
  AllowMutableRequest (header_device_id r) (header_role r) (header_election_id r).
Definition AllowGetForwardingPipelineConfigRequest (r : RequestHeader) : M (result ()) :=
  AllowNonMutableRequest (header_device_id r).
Definition AllowCapabilitiesRequest (r : RequestHeader) : M (result ()) :=
  if request_device_id r =? 0 then mret (Err kUnimplemented)
  else AllowNonMutableRequest (Some (request_device_id r)).

(** [P4RUNTIME_ROLE_SDN_CONTROLLER] and the default role. *)
Definition role_receives_packet_in_ : gset (option str) := {[ Some $"sdn_controller"; None ]}.

Fixpoint SendToPrimary_loop (response : StreamMessageResponse) (connections : list nat)
  (found_at_least_one_primary : bool) : M bool :=
  match connections with
  | [] => mret found_at_least_one_primary
  | connection :: connections =>
    conn ← deref connection;
    past_by_role ← gets election_id_past_by_role_;
    let primary_id := default None (past_by_role !! role_name_ conn) in
    if bool_decide (is_Some primary_id) && bool_decide (primary_id = election_id_ conn) &&
       bool_decide (role_name_ conn ∈ role_receives_packet_in_)
    then
      _ ← SendStreamMessageResponse connection response;
      SendToPrimary_loop response connections true
    else SendToPrimary_loop response connections found_at_least_one_primary
  end.

Definition SendStreamMessageToPrimary (response : StreamMessageResponse) : M (result ()) :=
  connections ← gets connections_;
  found_at_least_one_primary ← SendToPrimary_loop response connections false;
  if found_at_least_one_primary : bool then mret (Ok tt) else mret (Err kFailedPrecondition).

Definition SendPacketInToPrimary (response : StreamMessageResponse) : M (result ()) :=
  match response with
  | PacketIn _ => SendStreamMessageToPrimary response
  | _ => mret (Err kInvalidArgument)
  end.

(** * P4RuntimeImpl::StreamChannel *)

Inductive StreamMessageRequest :=
  | kArbitration (arbitration : MasterArbitrationUpdate)
  | kPacket (packet : str)
  | kOtherRequest.

Section stream_channel.
(** [HandlePacketOutRequest] writes the packet to a kernel socket; here only its status
    matters ([None] is OK). *)
Context (HandlePacketOutRequest : str → option StatusCode).

(** One round of the read loop: [Some status] when the handler returns. *)
Definition StreamChannel_request (sdn_connection : nat) (request : StreamMessageRequest)
  : M (option (result ())) :=
  match request with
  | kArbitration arbitration =>
    status ← HandleArbitrationUpdate arbitration sdn_connection;
    if negb (is_Ok status) then
      _ ← Disconnect sdn_connection;
      mret (Some status)
    else mret None
  | kPacket packet =>
    device_id ← GetDeviceId;
    conn ← deref sdn_connection;
    allowed ← AllowMutableRequest device_id (role_name_ conn) (election_id_ conn);
    if is_Ok allowed then
      match HandlePacketOutRequest packet with
      | Some code =>
        _ ← modify (count_packet_out 0 1);
        _ ← SendStreamMessageResponse sdn_connection (StreamError code);
        mret None
      | None => _ ← modify (count_packet_out 1 0); mret None
      end
    else
      _ ← modify (count_packet_out 0 1);
      _ ← SendStreamMessageResponse sdn_connection (StreamError kPermissionDenied);
      mret None
  | kOtherRequest =>
    _ ← SendStreamMessageResponse sdn_connection (StreamError kUnimplemented);
    mret None
  end.

(** The [unique_ptr] of the handler goes out of scope. *)
Definition free_connection (c : nat) (w : World) : World := with_heap (delete c (heap w)) w.

(** The interleavings: streams open, handle one request each under the server lock, and
    close; the device id is set and packets arrive from the switch in between. *)
Inductive step : World → World → Prop :=
  | step_open w c :
      heap w !! c = None → step w (with_heap (<[c := NewConnection]> (heap w)) w)
  | step_request w c conn request w' :
      heap w !! c = Some conn →
      StreamChannel_request c request w = Some (None, w') → step w w'
  | step_reject w c conn request status w' :
      heap w !! c = Some conn →
      StreamChannel_request c request w = Some (Some status, w') →
      step w (free_connection c w')
  | step_close w c conn w' :
      heap w !! c = Some conn →
      Disconnect c w = Some (tt, w') → step w (free_connection c w')
  | step_set_device_id w d r w' :
      SetDeviceId d w = Some (r, w') → step w w'
  | step_packet_in w response r w' :
      SendPacketInToPrimary response w = Some (r, w') → step w w'.

Definition initial : World := mkWorld ∅ None [] ∅ [] 0 0.

Definition reachable (w : World) : Prop := rtc step initial w.
End stream_channel.

(** * Effects of the handlers that only send *)

(** The highest election id accepted for a role so far. *)
Definition past_of (w : World) (role : option str) : option Z :=
  default None (election_id_past_by_role_ w !! role).

(** [w'] differs from [w] by the messages sent (and by default-inserted map entries). *)
Record quiet (w w' : World) (msgs : list (nat * StreamMessageResponse)) : Prop := {
  quiet_heap : heap w' = heap w;
  quiet_device : device_id_ w' = device_id_ w;
  quiet_connections : connections_ w' = connections_ w;
  quiet_past role : past_of w' role = past_of w role;
  quiet_sent : sent w' = sent w ++ msgs;
}.

Definition valid (w : World) : Prop := ∀ c, c ∈ connections_ w → is_Some (heap w !! c).

Lemma quiet_refl w : quiet w w [].
Proof. split; try done. by rewrite app_nil_r. Qed.

Lemma quiet_trans w1 w2 w3 m1 m2 :
  quiet w1 w2 m1 → quiet w2 w3 m2 → quiet w1 w3 (m1 ++ m2).
Proof.
  intros [H1 H2 H3 H4 H5] [I1 I2 I3 I4 I5]. split; [congruence.. | |].
  - intros role. by rewrite I4.
  - by rewrite I5, H5, app_assoc.
Qed.

Lemma quiet_valid w w' m : quiet w w' m → valid w → valid w'.
Proof. intros Hq Hv c. rewrite (quiet_heap _ _ _ Hq), (quiet_connections _ _ _ Hq). apply Hv. Qed.

Lemma past_entry_spec role w :
  ∃ w', past_entry role w = Some (past_of w role, w') ∧ quiet w w' [].
Proof.
  eexists. split; [done|]. split; try done; [|by rewrite app_nil_r].
  intros r. unfold past_of, with_past. cbn.
  destruct (decide (r = role)) as [->|Hr]; [by rewrite lookup_insert_eq|].
  by rewrite lookup_insert_ne.
Qed.

Lemma SendStreamMessageResponse_spec c conn response w :
  heap w !! c = Some conn →
  ∃ w', SendStreamMessageResponse c response w = Some (tt, w') ∧ quiet w w' [(c, response)].
Proof.
  intros Hc. eexists. split.
  - unfold SendStreamMessageResponse, mbind, M_bind, deref. rewrite Hc. done.
  - split; done.
Qed.

(** Whether the connection object at [c] has this role and election id. *)
Definition conn_matches (h : gmap nat SdnConnection) (role : option str) (id : option Z) (c : nat)
  : bool :=
  match h !! c with
  | Some conn => bool_decide (role_name_ conn = role) && bool_decide (election_id_ conn = id)
  | None => false
  end.

Lemma PrimaryConnectionExists_loop_spec role past w l :
  (∀ c, c ∈ l → is_Some (heap w !! c)) →
  PrimaryConnectionExists_loop role past l w =
    Some (bool_decide (is_Some past) && existsb (conn_matches (heap w) role past) l, w).
Proof.
  induction l as [|c l IH]; intros Hv; cbn [PrimaryConnectionExists_loop existsb];
    [by rewrite andb_false_r|].
  destruct (Hv c) as [conn Hc]; [set_solver|]. unfold mbind, M_bind, deref. rewrite Hc.
  unfold conn_matches at 1. rewrite Hc.
  destruct (bool_decide (role_name_ conn = role) && bool_decide (election_id_ conn = past));
    [by rewrite andb_true_r|]. apply IH. set_solver.
Qed.

Lemma VerifyElectionIdIsActive_spec role id w l :
  (∀ c, c ∈ l → is_Some (heap w !! c)) →
  VerifyElectionIdIsActive role id l w =
    Some (if existsb (conn_matches (heap w) role id) l then Ok tt else Err kPermissionDenied, w).
Proof.
  induction l as [|c l IH]; intros Hv; cbn [VerifyElectionIdIsActive existsb]; [done|].
  destruct (Hv c) as [conn Hc]; [set_solver|]. unfold mbind, M_bind, deref. rewrite Hc.
  unfold conn_matches at 1. rewrite Hc.
  destruct (bool_decide (role_name_ conn = role) && bool_decide (election_id_ conn = id)); [done|].
  apply IH. set_solver.
Qed.

Lemma VerifyElectionIdIsUnused_spec role id w l current :
  (∀ c, c ∈ l → is_Some (heap w !! c)) →
  VerifyElectionIdIsUnused role id l current w =
    Some (if bool_decide (is_Some id) &&
             existsb (λ c, negb (bool_decide (c = current)) && conn_matches (heap w) role id c) l
          then Err kInvalidArgument else Ok tt, w).
Proof.
  intros Hv. unfold VerifyElectionIdIsUnused. destruct id as [id|]; [|done].
  rewrite bool_decide_eq_true_2 by eauto. cbn [andb].
  induction l as [|c l IH]; cbn [VerifyElectionIdIsUnused_loop existsb]; [done|].
  case_bool_decide as Hcur; cbn [negb andb orb]; [apply IH; set_solver|].
  destruct (Hv c) as [conn Hc]; [set_solver|]. unfold mbind, M_bind, deref. rewrite Hc.
  unfold conn_matches at 1. rewrite Hc.
  destruct (bool_decide (role_name_ conn = role) && bool_decide (election_id_ conn = Some id));
    [done|]. apply IH. set_solver.
Qed.

(** A connection is the primary of its role: it carries the highest accepted election id. *)
Definition is_primary (w : World) (conn : SdnConnection) : bool :=
  bool_decide (is_Some (past_of w (role_name_ conn))) &&
  bool_decide (past_of w (role_name_ conn) = election_id_ conn).

Definition primary_exists (w : World) (role : option str) : bool :=
  bool_decide (is_Some (past_of w role)) &&
  existsb (conn_matches (heap w) role (past_of w role)) (connections_ w).

(** The arbitration message a connection is due in a state. *)
Definition arbitration_of (w : World) (conn : SdnConnection) : StreamMessageResponse :=
  ArbitrationResponse (mkArbitrationResponse (default 0 (device_id_ w)) (role_name_ conn)
    ((λ id, (Uint128High64 id, Uint128Low64 id)) <$> past_of w (role_name_ conn))
    (if primary_exists w (role_name_ conn)
     then if bool_decide (past_of w (role_name_ conn) = election_id_ conn)
          then Ok tt else Err kAlreadyExists
     else Err kNotFound)).

Lemma quiet_primary_exists w w' m role :
  quiet w w' m → primary_exists w' role = primary_exists w role.
Proof.
  intros [H1 H2 H3 H4 H5]. unfold primary_exists. by rewrite H1, H3, H4.
Qed.

Lemma quiet_arbitration_of w w' m conn :
  quiet w w' m → arbitration_of w' conn = arbitration_of w conn.
Proof.
  intros Hq. pose proof (quiet_primary_exists _ _ _ (role_name_ conn) Hq) as Hp.
  destruct Hq as [H1 H2 H3 H4 H5]. unfold arbitration_of. by rewrite Hp, H2, H4.
Qed.

Lemma PrimaryConnectionExists_spec role w :
  valid w →
  ∃ w', PrimaryConnectionExists role w = Some (primary_exists w role, w') ∧ quiet w w' [].
Proof.
  intros Hv. destruct (past_entry_spec role w) as (w' & He & Hq). exists w'. split; [|done].
  unfold PrimaryConnectionExists, mbind, M_bind. rewrite He. unfold gets.
  rewrite PrimaryConnectionExists_loop_spec by (by apply (quiet_valid _ _ _ Hq)).
  destruct Hq as [H1 H2 H3 H4 H5]. unfold primary_exists. by rewrite H1, H3.
Qed.

Lemma SendArbitrationResponse_spec c conn w :
  valid w → heap w !! c = Some conn →
  ∃ w', SendArbitrationResponse c w = Some (tt, w') ∧ quiet w w' [(c, arbitration_of w conn)].
Proof.
  intros Hv Hc. unfold SendArbitrationResponse, mbind, M_bind, gets, deref. rewrite Hc.
  destruct (past_entry_spec (role_name_ conn) w) as (w1 & -> & Hq1).
  pose proof (quiet_valid _ _ _ Hq1 Hv) as Hv1.
  destruct (PrimaryConnectionExists_spec (role_name_ conn) w1 Hv1) as (w2 & -> & Hq2).
  pose proof (quiet_trans _ _ _ _ _ Hq1 Hq2) as Hq12.
  edestruct (SendStreamMessageResponse_spec c conn) as (w3 & Hs & Hq3);
    [by rewrite (quiet_heap _ _ _ Hq12) |].
  exists w3. split; [apply Hs|].
  pose proof (quiet_trans _ _ _ _ _ Hq12 Hq3) as Hq. cbn [app] in Hq.
  unfold arbitration_of. rewrite (quiet_primary_exists _ _ _ _ Hq1) in Hq. exact Hq.
Qed.

(** The messages of [InformConnectionsAboutPrimaryChange]: one per connection of the role. *)
Definition informed (w : World) (role : option str) (l : list nat)
  : list (nat * StreamMessageResponse) :=
  flat_map (λ c, match heap w !! c with
                 | Some conn => if bool_decide (role_name_ conn = role)
                                then [(c, arbitration_of w conn)] else []
                 | None => []
                 end) l.

Lemma informed_quiet w w' m role l : quiet w w' m → informed w' role l = informed w role l.
Proof.
  intros Hq. unfold informed. induction l as [|c l IH]; [done|]. cbn [flat_map].
  rewrite IH, (quiet_heap _ _ _ Hq). destruct (heap w !! c) as [conn|]; [|done].
  by rewrite (quiet_arbitration_of _ _ _ conn Hq).
Qed.

Lemma Inform_loop_spec role l w :
  valid w → (∀ c, c ∈ l → is_Some (heap w !! c)) →
  ∃ w', Inform_loop role l w = Some (tt, w') ∧ quiet w w' (informed w role l).
Proof.
  revert w. induction l as [|c l IH]; intros w Hv Hl.
  { exists w. split; [done | apply quiet_refl]. }
  destruct (Hl c) as [conn Hc]; [set_solver|].
  assert (∃ w1, (if bool_decide (role_name_ conn = role) then SendArbitrationResponse c
                 else mret tt) w = Some (tt, w1) ∧
                quiet w w1 (if bool_decide (role_name_ conn = role)
                            then [(c, arbitration_of w conn)] else [])) as (w1 & Hs & Hq1).
  { case_bool_decide; [by apply SendArbitrationResponse_spec|].
    exists w. split; [done | apply quiet_refl]. }
  destruct (IH w1) as (w2 & Hs2 & Hq2).
  - by apply (quiet_valid _ _ _ Hq1).
  - intros c' Hc'. rewrite (quiet_heap _ _ _ Hq1). apply Hl. set_solver.
  - exists w2. split.
    + cbn [Inform_loop]. unfold mbind, M_bind, deref. by rewrite Hc, Hs.
    + unfold informed. cbn [flat_map]. rewrite Hc. fold (informed w role l).
      rewrite <-(informed_quiet _ _ _ role l Hq1). by apply (quiet_trans _ w1).
Qed.

Lemma Inform_spec role w :
  valid w →
  ∃ w', InformConnectionsAboutPrimaryChange role w = Some (tt, w') ∧
    quiet w w' (informed w role (connections_ w)).
Proof. intros Hv. by apply Inform_loop_spec. Qed.

(** * Effect of an arbitration update *)

Definition is_new_primary (new_election_id past : option Z) : bool :=
  match new_election_id, past with
  | None, _ => false
  | Some _, None => true
  | Some new_id, Some past => past <=? new_id
  end.

(** The messages of the last part of the handler, in terms of the state in which the change of
    the highest election id has been recorded. *)
Lemma FinishArbitration_spec c conn role old_id w :
  valid w → heap w !! c = Some conn → role_name_ conn = role →
  let new_id := election_id_ conn in
  let w1 := if is_new_primary new_id (past_of w role)
            then with_past (<[role := new_id]> (election_id_past_by_role_ w)) w else w in
  ∃ w', FinishArbitration c role old_id new_id w = Some (Ok tt, w') ∧
    quiet w1 w'
      (if is_new_primary new_id (past_of w role) ||
          (bool_decide (is_Some old_id) && bool_decide (old_id = past_of w role))
       then informed w1 role (connections_ w) else [(c, arbitration_of w1 conn)]).
Proof.
  intros Hv Hc Hrole new_id w1. unfold FinishArbitration, mbind, M_bind.
  destruct (past_entry_spec role w) as (w2 & -> & Hq). cbv zeta.
  fold (is_new_primary new_id (past_of w role)). subst w1.
  pose proof (quiet_valid _ _ _ Hq Hv) as Hv2.
  destruct (is_new_primary new_id (past_of w role)) eqn:Hnew; cbn [orb].
  - unfold modify.
    set (w3 := with_past (<[role:=new_id]> (election_id_past_by_role_ w2)) w2).
    assert (quiet (with_past (<[role := new_id]> (election_id_past_by_role_ w)) w) w3 []) as Hq3.
    { destruct Hq as [H1 H2 H3 H4 H5]. split; [done.. | | done].
      intros r. unfold past_of, w3, with_past. cbn. destruct (decide (r = role)) as [->|Hr].
      + by rewrite !lookup_insert_eq.
      + rewrite !lookup_insert_ne by done. apply H4. }
    destruct (Inform_spec role w3) as (w4 & -> & Hq4).
    { by apply (quiet_valid _ _ _ Hq3). }
    exists w4. split; [done|].
    rewrite (informed_quiet _ _ _ role _ Hq3), (quiet_connections _ _ _ Hq3) in Hq4.
    by apply (quiet_trans _ _ _ _ _ Hq3 Hq4).
  - destruct (bool_decide (is_Some old_id) && bool_decide (old_id = past_of w role)).
    + destruct (Inform_spec role w2 Hv2) as (w4 & -> & Hq4). exists w4. split; [done|].
      rewrite (informed_quiet _ _ _ role _ Hq), (quiet_connections _ _ _ Hq) in Hq4.
      by apply (quiet_trans _ _ _ _ _ Hq Hq4).
    + destruct (SendArbitrationResponse_spec c conn w2 Hv2) as (w4 & -> & Hq4).
      { by rewrite (quiet_heap _ _ _ Hq). }
      exists w4. split; [done|]. rewrite (quiet_arbitration_of _ _ _ conn Hq) in Hq4.
      by apply (quiet_trans _ _ _ _ _ Hq Hq4).
Qed.

(** The role and election id an update asks for. *)
Definition requested_role (update : MasterArbitrationUpdate) : option str :=
  match update_role update with
  | Some name => if bool_decide (name = []) then None else Some name
  | None => None
  end.

Definition requested_id (update : MasterArbitrationUpdate) : option Z :=
  (λ '(high, low), MakeUint128 high low) <$> update_election_id update.

(** Another connection of the role already uses the election id. *)
Definition id_in_use (w : World) (c : nat) (role : option str) (id : option Z) : bool :=
  bool_decide (is_Some id) &&
  existsb (λ c', negb (bool_decide (c' = c)) && conn_matches (heap w) role id c') (connections_ w).

(** The verdict on an update, read off the state. *)
Definition verdict (w : World) (c : nat) (conn : SdnConnection) (update : MasterArbitrationUpdate)
  : result () :=
  match device_id_ w with
  | None => Err kFailedPrecondition
  | Some device_id =>
    if negb (update_device_id update =? device_id) then
      if initialized_ conn then Err kFailedPrecondition else Err kNotFound
    else if initialized_ conn && negb (bool_decide (requested_role update = role_name_ conn))
    then Err kFailedPrecondition
    else if id_in_use w c (requested_role update) (requested_id update) then Err kInvalidArgument
    else Ok tt
  end.

(** The accepted update: the connection is registered with its role and id, and the highest id
    of the role is raised if the new id reaches it. *)
Definition register (c : nat) (conn : SdnConnection) (role : option str) (id : option Z) (w : World)
  : World :=
  with_connections (if initialized_ conn then connections_ w else connections_ w ++ [c])
    (with_heap (<[c := mkConnection true role id]> (heap w)) w).

Definition elect (role : option str) (id : option Z) (w : World) : World :=
  if is_new_primary id (past_of w role)
  then with_past (<[role := id]> (election_id_past_by_role_ w)) w else w.

Lemma register_valid c conn role id w : valid w → valid (register c conn role id w).
Proof.
  intros Hv c' Hc'. cbn in *. destruct (decide (c' = c)) as [->|Hne].
  - rewrite lookup_insert_eq. eauto.
  - rewrite lookup_insert_ne by done. apply Hv. destruct (initialized_ conn); [done|].
    apply elem_of_app in Hc' as [?|?%list_elem_of_singleton]; done.
Qed.

Lemma HandleArbitrationUpdate_spec c conn update w :
  valid w → heap w !! c = Some conn →
  let role := requested_role update in
  let id := requested_id update in
  let w1 := elect role id (register c conn role id w) in
  match verdict w c conn update with
  | Ok _ =>
    ∃ w', HandleArbitrationUpdate update c w = Some (Ok tt, w') ∧
      quiet w1 w'
        (if is_new_primary id (past_of w role) ||
            (bool_decide (is_Some (election_id_ conn)) &&
             bool_decide (election_id_ conn = past_of w role))
         then informed w1 role (connections_ w1)
         else [(c, arbitration_of w1 (mkConnection true role id))])
  | r => HandleArbitrationUpdate update c w = Some (r, w)
  end.
Proof.
  intros Hv Hc role id w1. unfold verdict, HandleArbitrationUpdate, mbind, M_bind, gets.
  destruct (device_id_ w) as [device|]; [|done].
  fold (requested_role update) (requested_id update). fold role id.
  unfold deref. rewrite Hc.
  assert (∀ w2, w2 = register c conn role id w →
    ∃ w', FinishArbitration c role (election_id_ conn) id w2 = Some (Ok tt, w') ∧
      quiet w1 w' (if is_new_primary id (past_of w role) ||
            (bool_decide (is_Some (election_id_ conn)) &&
             bool_decide (election_id_ conn = past_of w role))
         then informed w1 role (connections_ w1)
         else [(c, arbitration_of w1 (mkConnection true role id))])) as Hfin.
  { intros w2 ->.
    destruct (FinishArbitration_spec c (mkConnection true role id) role (election_id_ conn)
      (register c conn role id w)) as (w' & Hf & Hq);
      [by apply register_valid | cbn; by rewrite lookup_insert_eq | done |].
    exists w'. split; [exact Hf|].
    change (past_of w role) with (past_of (register c conn role id w) role).
    assert (connections_ w1 = connections_ (register c conn role id w)) as ->
      by (unfold w1, elect; by destruct (is_new_primary _ _)).
    exact Hq. }
  destruct (initialized_ conn) eqn:Hinit; cbn [negb andb].
  - destruct (Z.eqb_spec (update_device_id update) device); cbn [negb]; [|done].
    destruct (bool_decide (role = role_name_ conn)) eqn:Hrole; cbn [negb]; [|done].
    apply bool_decide_eq_true in Hrole. rewrite VerifyElectionIdIsUnused_spec by done. fold (id_in_use w c role id).
    destruct (id_in_use w c role id); cbn [is_Ok negb]; [done|].
    unfold update_connection. rewrite Hc. apply Hfin.
    unfold register, SetElectionId. rewrite Hinit, <-Hrole. by destruct w.
  - destruct (Z.eqb_spec (update_device_id update) device); cbn [negb]; [|done].
    rewrite VerifyElectionIdIsUnused_spec by done. fold (id_in_use w c role id).
    destruct (id_in_use w c role id); cbn [is_Ok negb]; [done|].
    unfold update_connection, modify. rewrite Hc. cbn [heap with_heap].
    rewrite lookup_insert_eq. cbn [heap with_heap]. rewrite lookup_insert_eq.
    apply Hfin. unfold register, SetElectionId, Initialize, SetRoleName. cbn.
    rewrite Hinit. by rewrite !insert_insert_eq.
Qed.

Lemma Disconnect_spec c conn w :
  valid w → heap w !! c = Some conn →
  let w1 := if initialized_ conn
            then with_connections (erase_connection c (connections_ w)) w else w in
  ∃ w', Disconnect c w = Some (tt, w') ∧
    quiet w1 w' (if initialized_ conn && is_primary w conn
                 then informed w1 (role_name_ conn) (connections_ w1) else []).
Proof.
  intros Hv Hc w1. unfold Disconnect, mbind, M_bind, deref, modify. rewrite Hc. subst w1.
  destruct (initialized_ conn) eqn:Hinit; cbn [negb andb]; [|exists w; split; [done | apply quiet_refl]].
  set (w1 := with_connections (erase_connection c (connections_ w)) w).
  assert (valid w1) as Hv1.
  { intros c' Hc'. apply Hv. cbn in Hc'. clear -Hc'. induction (connections_ w) as [|d l IH]; [done|].
    cbn in Hc'. case_bool_decide; [by right|]. apply elem_of_cons in Hc' as [->|?]; [by left|].
    right. by apply IH. }
  assert (is_primary w conn = bool_decide (is_Some (election_id_ conn)) &&
                              bool_decide (election_id_ conn = past_of w1 (role_name_ conn))) as ->.
  { unfold is_primary. change (past_of w1) with (past_of w).
    destruct (decide (past_of w (role_name_ conn) = election_id_ conn)) as [Heq|Hne].
    - by rewrite Heq.
    - by rewrite !(bool_decide_eq_false_2 (_ = _)), !andb_false_r. }
  destruct (bool_decide (is_Some (election_id_ conn))); cbn [andb];
    [|exists w1; split; [done | apply quiet_refl]].
  destruct (past_entry_spec (role_name_ conn) w1) as (w2 & -> & Hq).
  case_bool_decide; [|exists w2; done].
  destruct (Inform_spec (role_name_ conn) w2) as (w3 & Hi & Hq3);
    [by apply (quiet_valid _ _ _ Hq)|].
  exists w3. split; [done|].
  rewrite (informed_quiet _ _ _ _ _ Hq), (quiet_connections _ _ _ Hq) in Hq3.
  by apply (quiet_trans _ _ _ _ _ Hq Hq3).
Qed.

(** * The invariant *)

Record Inv (w : World) : Prop := {
  (** The manager's list holds exactly the live initialised connections, once each. *)
  inv_nodup : NoDup (connections_ w);
  inv_valid : valid w;
  inv_registered c conn :
    heap w !! c = Some conn → c ∈ connections_ w ↔ initialized_ conn = true;
  inv_fresh c conn : heap w !! c = Some conn → initialized_ conn = false → conn = NewConnection;
  (** No two connections of a role share an election id. *)
  inv_unique c1 c2 conn1 conn2 :
    heap w !! c1 = Some conn1 → heap w !! c2 = Some conn2 →
    role_name_ conn1 = role_name_ conn2 → election_id_ conn1 = election_id_ conn2 →
    is_Some (election_id_ conn1) → initialized_ conn1 = true → initialized_ conn2 = true → c1 = c2;
  (** No connection's election id exceeds the recorded highest one of its role. *)
  inv_past c conn e :
    heap w !! c = Some conn → election_id_ conn = Some e →
    ∃ p, past_of w (role_name_ conn) = Some p ∧ e ≤ p;
  (** The device id is set while a controller is connected. *)
  inv_device : connections_ w ≠ [] → is_Some (device_id_ w);
}.

Lemma Inv_quiet w w' m : quiet w w' m → Inv w → Inv w'.
Proof.
  intros Hq [I1 I2 I3 I4 I5 I6 I7]. pose proof (quiet_valid _ _ _ Hq I2).
  destruct Hq as [H1 H2 H3 H4 H5].
  split; [by rewrite H3 | done | ..].
  - intros c conn. rewrite H1, H3. apply I3.
  - intros c conn. rewrite H1. apply I4.
  - intros c1 c2 conn1 conn2. rewrite H1. apply I5.
  - intros c conn e. rewrite H1, H4. apply I6.
  - by rewrite H2, H3.
Qed.

Lemma Inv_initial : Inv initial.
Proof. split; try done. constructor. by intros c Hc%elem_of_nil. Qed.

Lemma elect_fields role id w :
  heap (elect role id w) = heap w ∧ connections_ (elect role id w) = connections_ w ∧
  device_id_ (elect role id w) = device_id_ w.
Proof. unfold elect. by destruct (is_new_primary _ _). Qed.

Lemma past_of_elect role id w role' :
  past_of (elect role id w) role' =
    if bool_decide (role' = role) && is_new_primary id (past_of w role) then id else past_of w role'.
Proof.
  unfold elect. destruct (is_new_primary id (past_of w role)); [|by rewrite andb_false_r].
  rewrite andb_true_r. unfold past_of, with_past. cbn. case_bool_decide as Hr.
  - subst. by rewrite lookup_insert_eq.
  - by rewrite lookup_insert_ne.
Qed.

(** Electing only raises the highest id of a role. *)
Lemma past_of_elect_mono role id w role' p :
  past_of w role' = Some p → ∃ p', past_of (elect role id w) role' = Some p' ∧ p ≤ p'.
Proof.
  intros Hp. rewrite past_of_elect. case_bool_decide as Hr; cbn [andb]; [|by exists p].
  subst. rewrite Hp. destruct id as [id|]; cbn [is_new_primary]; [|by exists p].
  destruct (Z.leb_spec p id); [by exists id | by exists p].
Qed.

Lemma past_of_elect_own role e w :
  ∃ p, past_of (elect role (Some e) w) role = Some p ∧ e ≤ p.
Proof.
  rewrite past_of_elect, bool_decide_eq_true_2 by done. cbn [andb is_new_primary].
  destruct (past_of w role) as [p|]; [|by exists e].
  destruct (Z.leb_spec p e); [by exists e | exists p; split; [done | lia]].
Qed.

Lemma id_in_use_false w c role id :
  Inv w → id_in_use w c role id = false → is_Some id →
  ∀ c' conn', c' ≠ c → heap w !! c' = Some conn' → initialized_ conn' = true →
    role_name_ conn' = role → election_id_ conn' ≠ id.
Proof.
  intros HI Huse Hid c' conn' Hne Hc' Hinit Hrole Heq. unfold id_in_use in Huse.
  rewrite bool_decide_eq_true_2 in Huse by done. cbn [andb] in Huse.
  rewrite <-not_true_iff_false in Huse. apply Huse, existsb_exists. exists c'. split.
  - rewrite <-list_elem_of_In. by apply (inv_registered w HI c' conn').
  - rewrite bool_decide_eq_false_2 by done. unfold conn_matches. rewrite Hc'.
    by rewrite !bool_decide_eq_true_2.
Qed.

Lemma Inv_register_elect c conn role id w :
  Inv w → heap w !! c = Some conn → is_Some (device_id_ w) →
  id_in_use w c role id = false →
  Inv (elect role id (register c conn role id w)).
Proof.
  intros HI Hc Hdev Huse. set (w1 := register c conn role id w).
  destruct (elect_fields role id w1) as (Hh & Hcs & Hd).
  assert (∀ c', c' ∈ connections_ w1 ↔ c' = c ∨ c' ∈ connections_ w) as Hin.
  { intros c'. unfold w1, register. cbn. destruct (initialized_ conn) eqn:Hi.
    - split; [by right|]. intros [->|?]; [|done]. by apply (inv_registered w HI c conn).
    - rewrite elem_of_app, list_elem_of_singleton. tauto. }
  split.
  - rewrite Hcs. unfold w1, register. cbn. destruct (initialized_ conn) eqn:Hi; [apply HI|].
    apply NoDup_app. split; [apply HI|]. split; [|apply NoDup_singleton].
    intros c' Hc' ->%list_elem_of_singleton.
    apply (inv_registered w HI c conn) in Hc'; [congruence | done].
  - intros c'. rewrite Hh, Hcs. apply register_valid, HI.
  - intros c' conn'. rewrite Hh, Hcs, Hin. unfold w1, register. cbn.
    destruct (decide (c' = c)) as [->|Hne].
    + rewrite lookup_insert_eq. intros [= <-]. cbn. tauto.
    + rewrite lookup_insert_ne by done. intros Hc'. rewrite <-(inv_registered w HI c' conn' Hc').
      naive_solver.
  - intros c' conn'. rewrite Hh. unfold w1, register. cbn. destruct (decide (c' = c)) as [->|Hne].
    + rewrite lookup_insert_eq. by intros [= <-].
    + rewrite lookup_insert_ne by done. apply HI.
  - intros c1 c2 conn1 conn2. rewrite Hh. unfold w1, register. cbn.
    pose proof (id_in_use_false w c role id HI Huse) as Hun.
    destruct (decide (c1 = c)) as [->|H1], (decide (c2 = c)) as [->|H2];
      rewrite ?lookup_insert_eq, ?lookup_insert_ne by done.
    + done.
    + intros [= <-] Hc2; cbn. intros Hr He Hsome _ Hi. exfalso. by eapply (Hun Hsome c2 conn2).
    + intros Hc1 [= <-]; cbn. intros Hr He Hsome Hi _. exfalso. rewrite He in Hsome.
      by eapply (Hun Hsome c1 conn1).
    + apply HI.
  - intros c' conn' e. rewrite Hh. unfold w1 at 1, register. cbn.
    destruct (decide (c' = c)) as [->|Hne].
    + rewrite lookup_insert_eq. intros [= <-]. cbn. intros ->. apply past_of_elect_own.
    + rewrite lookup_insert_ne by done. intros Hc' He.
      destruct (inv_past w HI c' conn' e Hc' He) as (p & Hp & Hle).
      destruct (past_of_elect_mono role id w1 (role_name_ conn') p Hp) as (p' & Hp' & Hle').
      exists p'. split; [done | lia].
  - intros _. rewrite Hd. done.
Qed.

Lemma elem_of_erase c c' l :
  NoDup l → c' ∈ erase_connection c l ↔ c' ∈ l ∧ c' ≠ c.
Proof.
  induction l as [|d l IH]; intros Hnd; cbn.
  - pose proof (not_elem_of_nil c'). tauto.
  - apply NoDup_cons in Hnd as [Hd Hnd]. case_bool_decide as Hdc.
    + subst. rewrite elem_of_cons. split; [|naive_solver].
      intros Hin. split; [by right|]. by intros ->.
    + rewrite !elem_of_cons, IH by done. naive_solver.
Qed.

Lemma erase_NoDup c l : NoDup l → NoDup (erase_connection c l).
Proof.
  induction l as [|d l IH]; intros Hnd; cbn; [done|]. apply NoDup_cons in Hnd as [Hd Hnd].
  case_bool_decide; [done|]. apply NoDup_cons. split; [|auto].
  rewrite elem_of_erase by done. tauto.
Qed.

(** Disconnecting and freeing a connection. *)
Lemma Inv_disconnect c conn w :
  Inv w → heap w !! c = Some conn →
  Inv (free_connection c
    (if initialized_ conn then with_connections (erase_connection c (connections_ w)) w else w)).
Proof.
  intros HI Hc.
  set (w1 := if initialized_ conn then _ else w).
  assert (heap w1 = heap w ∧ device_id_ w1 = device_id_ w ∧ past_of w1 = past_of w) as (Hh & Hd & Hp)
    by (unfold w1; by destruct (initialized_ conn)).
  assert (NoDup (connections_ w1) ∧ ∀ c', c' ∈ connections_ w1 ↔ c' ∈ connections_ w ∧ c' ≠ c)
    as [Hnd Hin].
  { pose proof (inv_nodup w HI). unfold w1. destruct (initialized_ conn) eqn:Hi; cbn.
    - split; [by apply erase_NoDup|]. intros. by apply elem_of_erase.
    - split; [done|]. intros c'. split; [|tauto]. intros Hc'. split; [done|]. intros ->.
      apply (inv_registered w HI c conn) in Hc'; [congruence | done]. }
  assert (∀ c' conn', delete c (heap w) !! c' = Some conn' → heap w !! c' = Some conn' ∧ c' ≠ c)
    as Hdel by (intros c' conn' [??]%lookup_delete_Some; done).
  unfold free_connection, with_heap. split; cbn; rewrite ?Hh, ?Hd.
  - done.
  - intros c' [Hc' Hne]%Hin. cbn. rewrite lookup_delete_ne by done. by apply HI.
  - intros c' conn' [Hc' Hne]%Hdel. rewrite Hin, (inv_registered w HI c' conn' Hc'). tauto.
  - intros c' conn' [Hc' _]%Hdel. by apply (inv_fresh w HI c').
  - intros c1 c2 conn1 conn2 [H1 _]%Hdel [H2 _]%Hdel. by apply (inv_unique w HI).
  - intros c' conn' e [Hc' _]%Hdel He. unfold past_of. cbn. fold (past_of w1 (role_name_ conn')).
    rewrite Hp. by apply (inv_past w HI c').
  - intros Hne. apply (inv_device w HI). intros Hnil. apply Hne.
    destruct (connections_ w1) as [|c' l]; [done|].
    destruct (proj1 (Hin c')) as [Hc' _]; [set_solver|]. rewrite Hnil in Hc'.
    by apply not_elem_of_nil in Hc'.
Qed.

(** * Preservation and progress *)

(** Recorded highest ids only grow. *)
Definition past_le (w w' : World) : Prop :=
  ∀ role p, past_of w role = Some p → ∃ p', past_of w' role = Some p' ∧ p ≤ p'.

#[global] Instance past_le_preorder : PreOrder past_le.
Proof.
  split.
  - intros w role p Hp. by exists p.
  - intros w1 w2 w3 H12 H23 role p Hp. destruct (H12 role p Hp) as (p2 & Hp2 & ?).
    destruct (H23 role p2 Hp2) as (p3 & Hp3 & ?). exists p3. split; [done | lia].
Qed.

Lemma past_le_quiet w w' m : quiet w w' m → past_le w w'.
Proof. intros Hq role p Hp. exists p. by rewrite (quiet_past _ _ _ Hq). Qed.

Lemma past_le_same w w' : (∀ role, past_of w' role = past_of w role) → past_le w w'.
Proof. intros Hs role p Hp. exists p. by rewrite Hs. Qed.

Lemma past_le_elect role id w : past_le w (elect role id w).
Proof. intros role' p Hp. by apply past_of_elect_mono. Qed.

Lemma verdict_Ok w c conn update :
  verdict w c conn update = Ok tt →
  device_id_ w = Some (update_device_id update) ∧
  (initialized_ conn = true → requested_role update = role_name_ conn) ∧
  id_in_use w c (requested_role update) (requested_id update) = false.
Proof.
  unfold verdict. destruct (device_id_ w) as [d|]; [|done].
  destruct (Z.eqb_spec (update_device_id update) d) as [->|]; cbn [negb];
    [|by destruct (initialized_ conn)].
  destruct (initialized_ conn) eqn:Hi; cbn [andb].
  - destruct (bool_decide (requested_role update = role_name_ conn)) eqn:Hr; cbn [negb]; [|done].
    apply bool_decide_eq_true in Hr. by destruct (id_in_use _ _ _ _).
  - by destruct (id_in_use _ _ _ _).
Qed.

Lemma arbitration_effect c conn update w :
  Inv w → heap w !! c = Some conn →
  ∃ r w', HandleArbitrationUpdate update c w = Some (r, w') ∧ Inv w' ∧ past_le w w' ∧
    ∃ conn', heap w' !! c = Some conn'.
Proof.
  intros HI Hc. pose proof (HandleArbitrationUpdate_spec c conn update w (inv_valid w HI) Hc) as Hs.
  destruct (verdict w c conn update) as [[]|e|] eqn:Hv;
    [|exists (Err e), w; split; [done|]; split; [done|]; split; [reflexivity | by exists conn]
     |exists Die, w; split; [done|]; split; [done|]; split; [reflexivity | by exists conn]].
  destruct Hs as (w' & -> & Hq). apply verdict_Ok in Hv as (Hd & _ & Huse).
  eexists _, _. split; [done|]. split_and!.
  - apply (Inv_quiet _ _ _ Hq). apply Inv_register_elect; eauto.
  - transitivity (elect (requested_role update) (requested_id update)
      (register c conn (requested_role update) (requested_id update) w));
      [|by apply (past_le_quiet _ _ _ Hq)].
    apply (past_le_elect _ _ (register _ _ _ _ w)).
  - rewrite (quiet_heap _ _ _ Hq). destruct (elect_fields (requested_role update)
      (requested_id update) (register c conn (requested_role update) (requested_id update) w))
      as (-> & _). cbn. rewrite lookup_insert_eq. eauto.
Qed.

Lemma disconnect_effect c conn w :
  Inv w → heap w !! c = Some conn →
  ∃ w', Disconnect c w = Some (tt, w') ∧ Inv (free_connection c w') ∧
    past_le w (free_connection c w').
Proof.
  intros HI Hc. destruct (Disconnect_spec c conn w (inv_valid w HI) Hc) as (w' & Hd & Hq).
  exists w'. split; [done|].
  pose proof (Inv_disconnect c conn w HI Hc) as HI'.
  set (w1 := if initialized_ conn then _ else w) in *.
  assert (∀ m, quiet w1 w' m → quiet (free_connection c w1) (free_connection c w') m) as Hqf.
  { intros m [H1 H2 H3 H4 H5]. split; cbn; congruence || done. }
  split; [by apply (Inv_quiet _ _ _ (Hqf _ Hq))|].
  transitivity (free_connection c w1); [|by apply (past_le_quiet _ _ _ (Hqf _ Hq))].
  apply past_le_same. intros role. unfold w1. by destruct (initialized_ conn).
Qed.

(** The primaries of the roles that receive packets. *)
Definition receives_packet_in (w : World) (c : nat) : bool :=
  match heap w !! c with
  | Some conn => is_primary w conn && bool_decide (role_name_ conn ∈ role_receives_packet_in_)
  | None => false
  end.

Lemma SendToPrimary_loop_spec (sel : nat → bool) response l found w :
  (∀ c, c ∈ l → is_Some (heap w !! c)) → (∀ c, receives_packet_in w c = sel c) →
  ∃ w', SendToPrimary_loop response l found w = Some (found || existsb sel l, w') ∧
    quiet w w' (map (λ c, (c, response)) (List.filter sel l)).
Proof.
  revert found w. induction l as [|c l IH]; intros found w Hl Hsel.
  { exists w. cbn. rewrite orb_false_r. split; [done | apply quiet_refl]. }
  destruct (Hl c) as [conn Hc]; [set_solver|].
  cbn [SendToPrimary_loop existsb List.filter]. unfold mbind, M_bind, deref, gets. rewrite Hc.
  pose proof (Hsel c) as Hselc. unfold receives_packet_in in Hselc. rewrite Hc in Hselc.
  unfold is_primary, past_of in Hselc. rewrite <-Hselc.
  case_if; [|cbn [orb]; apply IH; [set_solver | done]].
  destruct (SendStreamMessageResponse_spec c conn response w Hc) as (w1 & -> & Hq1).
  destruct (IH true w1) as (w2 & Hs2 & Hq2).
  - intros c' Hc'. rewrite (quiet_heap _ _ _ Hq1). apply Hl. set_solver.
  - intros c'. rewrite <-Hsel. unfold receives_packet_in, is_primary.
    destruct Hq1 as [H1 H2 H3 H4 H5]. rewrite H1. destruct (heap w !! c'); [|done]. by rewrite H4.
  - exists w2. split; [by rewrite Hs2, orb_true_r|]. by apply (quiet_trans _ _ _ _ _ Hq1 Hq2).
Qed.

Lemma SendPacketInToPrimary_spec payload w :
  valid w →
  ∃ w', SendPacketInToPrimary (PacketIn payload) w =
      Some (if existsb (receives_packet_in w) (connections_ w)
            then Ok tt else Err kFailedPrecondition, w') ∧
    quiet w w' (map (λ c, (c, PacketIn payload))
      (List.filter (receives_packet_in w) (connections_ w))).
Proof.
  intros Hv. cbn [SendPacketInToPrimary]. unfold SendStreamMessageToPrimary, gets, mbind, M_bind.
  destruct (SendToPrimary_loop_spec (receives_packet_in w) (PacketIn payload) (connections_ w)
    false w Hv) as (w' & -> & Hq); [done|].
  exists w'. split; [|done]. cbn [orb]. by destruct (existsb _ _).
Qed.

(** [AllowMutableRequest] reads the state only. *)
Lemma AllowMutableRequest_spec device_id role id w :
  valid w →
  AllowMutableRequest device_id role id w =
    Some (if bool_decide (is_Some device_id) && bool_decide (device_id = device_id_ w) then
            if bool_decide (is_Some id) && bool_decide (id = past_of w role) &&
               existsb (conn_matches (heap w) role id) (connections_ w)
            then Ok tt else Err kPermissionDenied
          else Err kNotFound, w).
Proof.
  intros Hv. unfold AllowMutableRequest, mbind, M_bind, gets.
  destruct device_id as [d|]; [|done]. rewrite (bool_decide_eq_true_2 (is_Some (Some d))) by eauto.
  cbn [andb]. destruct (bool_decide (Some d = device_id_ w)); cbn [negb]; [|done].
  destruct id as [e|]; [|done]. rewrite (bool_decide_eq_true_2 (is_Some (Some e))) by eauto.
  cbn [andb]. unfold past_of. destruct (election_id_past_by_role_ w !! role) as [past|]; [|done].
  change (default None (Some past)) with past.
  destruct (bool_decide (Some e = past)); cbn [negb andb]; [|done].
  by apply VerifyElectionIdIsActive_spec.
Qed.

Lemma request_effect HandlePacketOut c conn request w :
  Inv w → heap w !! c = Some conn →
  ∃ out w', StreamChannel_request HandlePacketOut c request w = Some (out, w') ∧
    match out with
    | None => Inv w' ∧ past_le w w'
    | Some _ => Inv (free_connection c w') ∧ past_le w (free_connection c w')
    end.
Proof.
  intros HI Hc.
  assert (∀ a b code, ∃ w', (_ ← modify (count_packet_out a b);
             _ ← SendStreamMessageResponse c (StreamError code);
             mret (A := option (result ())) None) w = Some (None, w') ∧
           Inv w' ∧ past_le w w') as Herr.
  { intros a b code. unfold mbind, M_bind, modify.
    destruct (SendStreamMessageResponse_spec c conn (StreamError code) (count_packet_out a b w))
      as (w' & -> & Hq); [done|]. exists w'. split; [done|].
    assert (quiet w (count_packet_out a b w) []) as Hq0
      by (split; try done; by rewrite app_nil_r).
    pose proof (quiet_trans _ _ _ _ _ Hq0 Hq) as Hq'.
    split; [by apply (Inv_quiet _ _ _ Hq') | by apply (past_le_quiet _ _ _ Hq')]. }
  destruct request as [update|packet|]; cbn [StreamChannel_request].
  - destruct (arbitration_effect c conn update w HI Hc) as (r & w1 & Ha & HI1 & Hle & conn1 & Hc1).
    unfold mbind, M_bind. rewrite Ha. destruct r as [[]|e|]; cbn [is_Ok negb]; [by exists None, w1|..];
      destruct (disconnect_effect c conn1 w1 HI1 Hc1) as (w2 & -> & HI2 & Hle2);
      eexists _, _; (split; [done|]); (split; [done|]); by transitivity w1.
  - unfold GetDeviceId, gets at 1, deref. unfold mbind at 1 2 3, M_bind at 1 2 3. rewrite Hc.
    rewrite AllowMutableRequest_spec by apply HI.
    match goal with |- context [is_Ok ?b] => destruct (is_Ok b) end.
    + destruct (HandlePacketOut packet) as [code|].
      * destruct (Herr 0 1 code) as (w' & He & HIl). by exists None, w'.
      * exists None, (count_packet_out 1 0 w). split; [done|].
        assert (quiet w (count_packet_out 1 0 w) []) as Hq0
          by (split; try done; by rewrite app_nil_r).
        split; [by apply (Inv_quiet _ _ _ Hq0) | by apply (past_le_quiet _ _ _ Hq0)].
    + destruct (Herr 0 1 kPermissionDenied) as (w' & He & HIl). by exists None, w'.
  - unfold mbind, M_bind.
    destruct (SendStreamMessageResponse_spec c conn (StreamError kUnimplemented) w Hc)
      as (w' & -> & Hq). exists None, w'. split; [done|].
    split; [by apply (Inv_quiet _ _ _ Hq) | by apply (past_le_quiet _ _ _ Hq)].
Qed.

Lemma step_effect HandlePacketOut w w' :
  Inv w → step HandlePacketOut w w' → Inv w' ∧ past_le w w'.
Proof.
  intros HI Hstep.
  destruct Hstep as [w c Hc|w c conn req w' Hc Hr|w c conn req st w' Hc Hr|w c conn w' Hc Hd
                    |w d r w' Hs|w resp r w' Hs].
  - split; [|by apply past_le_same]. destruct HI as [I1 I2 I3 I4 I5 I6 I7].
    assert (c ∉ connections_ w) as Hnc by (intros Hin; destruct (I2 c Hin); congruence).
    split; cbn; try done.
    + intros c' Hc'. cbn in *. rewrite lookup_insert_ne by (by intros ->). by apply I2.
    + intros c' conn' Hc'. destruct (decide (c' = c)) as [->|]; simplify_map_eq; [|by apply I3].
      cbn. naive_solver.
    + intros c' conn' Hc'. destruct (decide (c' = c)) as [->|]; simplify_map_eq; [done | by eapply I4].
    + intros c1 c2 conn1 conn2 H1 H2.
      destruct (decide (c1 = c)) as [->|], (decide (c2 = c)) as [->|]; simplify_map_eq;
        [done | cbn; by intros _ _ [? ?] | cbn; by intros _ _ _ _ ? | by apply I5].
    + intros c' conn' e Hc'. destruct (decide (c' = c)) as [->|]; simplify_map_eq; [done|].
      by eapply I6.
  - destruct (request_effect HandlePacketOut c conn req w HI Hc) as (out & w1 & Hr1 & He).
    rewrite Hr in Hr1. by injection Hr1 as <- <-.
  - destruct (request_effect HandlePacketOut c conn req w HI Hc) as (out & w1 & Hr1 & He).
    rewrite Hr in Hr1. by injection Hr1 as <- <-.
  - destruct (disconnect_effect c conn w HI Hc) as (w1 & Hd1 & He).
    rewrite Hd in Hd1. by injection Hd1 as <-.
  - unfold SetDeviceId, mbind, M_bind, gets, modify in Hs.
    destruct (bool_decide (device_id_ w = Some d)); [by injection Hs as _ <-|].
    destruct (bool_decide (connections_ w = [])) eqn:Hnil; cbn [negb] in Hs;
      [|by injection Hs as _ <-].
    apply bool_decide_eq_true in Hnil.
    destruct HI as [I1 I2 I3 I4 I5 I6 I7].
    destruct (d =? 0); injection Hs as _ <-; (split; [split|by apply past_le_same]); done.
  - assert (∀ m, quiet w w' m → Inv w' ∧ past_le w w') as Hq
      by (intros m Hq; split; [by apply (Inv_quiet _ _ _ Hq) | by apply (past_le_quiet _ _ _ Hq)]).
    destruct resp as [a|payload|code|];
      [injection Hs as _ <-; apply (Hq []), quiet_refl | |
       injection Hs as _ <-; apply (Hq []), quiet_refl ..].
    destruct (SendPacketInToPrimary_spec payload w (inv_valid w HI)) as (w1 & Hs1 & Hq1).
    rewrite Hs in Hs1. injection Hs1 as _ <-. by eapply Hq.
Qed.

Lemma steps_effect HandlePacketOut w w' :
  Inv w → rtc (step HandlePacketOut) w w' → Inv w' ∧ past_le w w'.
Proof.
  intros HI Hsteps. induction Hsteps as [w|w1 w2 w3 Hstep _ IH]; [by split|].
  destruct (step_effect _ _ _ HI Hstep) as [HI2 Hle]. destruct (IH HI2) as [? ?].
  split; [done|]. by transitivity w2.
Qed.

Lemma reachable_Inv HandlePacketOut w : reachable HandlePacketOut w → Inv w.
Proof. intros Hr. by apply (steps_effect _ _ _ Inv_initial Hr). Qed.

Lemma conn_matches_iff w role id c :
  conn_matches (heap w) role id c = true ↔
  ∃ conn, heap w !! c = Some conn ∧ role_name_ conn = role ∧ election_id_ conn = id.
Proof.
  unfold conn_matches. destruct (heap w !! c) as [conn|]; [|naive_solver].
  rewrite andb_true_iff, !bool_decide_eq_true. naive_solver.
Qed.

Lemma existsb_matches w role id :
  existsb (conn_matches (heap w) role id) (connections_ w) = true ↔
  ∃ c conn, c ∈ connections_ w ∧ heap w !! c = Some conn ∧ role_name_ conn = role ∧
    election_id_ conn = id.
Proof.
  rewrite existsb_exists. setoid_rewrite <-list_elem_of_In. setoid_rewrite conn_matches_iff.
  naive_solver.
Qed.

Lemma allowed_iff w device_id role id w' :
  valid w →
  AllowMutableRequest device_id role id w = Some (Ok tt, w') ↔
  w' = w ∧ is_Some device_id ∧ device_id = device_id_ w ∧ is_Some id ∧ id = past_of w role ∧
  ∃ c conn, c ∈ connections_ w ∧ heap w !! c = Some conn ∧ role_name_ conn = role ∧
    election_id_ conn = id.
Proof.
  intros Hv. rewrite AllowMutableRequest_spec, <-existsb_matches by done.
  destruct (bool_decide (is_Some device_id)) eqn:E1, (bool_decide (device_id = device_id_ w)) eqn:E2,
    (bool_decide (is_Some id)) eqn:E3, (bool_decide (id = past_of w role)) eqn:E4,
    (existsb (conn_matches (heap w) role id) (connections_ w)); bool_prop; cbn [andb]; naive_solver.
Qed.

(** What the status of an arbitration message says, in a state that satisfies the invariant. *)
Lemma arbitration_status_spec w c conn :
  Inv w → c ∈ connections_ w → heap w !! c = Some conn →
  ∃ a, arbitration_of w conn = ArbitrationResponse a ∧
    (arbitration_status a = Ok tt ↔ is_primary w conn = true).
Proof.
  intros HI Hin Hc. eexists. split; [done|]. cbn [arbitration_status]. unfold is_primary.
  destruct (primary_exists w (role_name_ conn)) eqn:Hp.
  - unfold primary_exists in Hp. bool_prop.
    rewrite (bool_decide_eq_true_2 (is_Some _)) by done. cbn [andb].
    by destruct (bool_decide (past_of w (role_name_ conn) = election_id_ conn)).
  - split; [done|]. intros Hprim. bool_prop. unfold primary_exists in Hp.
    rewrite (bool_decide_eq_true_2 (is_Some _)) in Hp by done. cbn [andb] in Hp.
    rewrite <-not_true_iff_false in Hp. destruct Hp. apply existsb_matches.
    exists c, conn. naive_solver.
Qed.

Lemma elem_of_informed w role l c m :
  (c, m) ∈ informed w role l ↔
  c ∈ l ∧ ∃ conn, heap w !! c = Some conn ∧ role_name_ conn = role ∧ m = arbitration_of w conn.
Proof.
  unfold informed. rewrite list_elem_of_In, in_flat_map. setoid_rewrite <-list_elem_of_In. split.
  - intros (c' & Hin & Hm). destruct (heap w !! c') as [conn|] eqn:Hc; [|by apply not_elem_of_nil in Hm].
    case_bool_decide; [|by apply not_elem_of_nil in Hm].
    apply list_elem_of_singleton in Hm as [= -> ->]. eauto.
  - intros (Hin & conn & Hc & Hr & ->). exists c. split; [done|]. rewrite Hc.
    rewrite bool_decide_eq_true_2 by done. by apply list_elem_of_singleton.
Qed.

(** * Properties *)

(** A run used by the examples: the device id is set, two streams open, the first becomes the
    primary of the SDN controller role with election id 5, then the second takes over with 7. *)
Definition no_packet_out (packet : str) : option StatusCode := None.

Definition example_update (low : Z) : MasterArbitrationUpdate :=
  mkArbitration 183 (Some $"sdn_controller") (Some (0, low)).

Definition after {A} (m : M A) (w : World) : World :=
  match m w with Some (_, w') => w' | None => w end.

Definition open_stream (c : nat) (w : World) : World :=
  with_heap (<[c := NewConnection]> (heap w)) w.

Definition example_two_streams : World :=
  open_stream 1 (open_stream 0 (after (SetDeviceId 183) initial)).
Definition example_primary_5 : World :=
  after (StreamChannel_request no_packet_out 0 (kArbitration (example_update 5))) example_two_streams.
Definition example_primary_7 : World :=
  after (StreamChannel_request no_packet_out 1 (kArbitration (example_update 7))) example_primary_5.

Lemma example_reachable_5 : reachable no_packet_out example_primary_5.
Proof.
  eapply rtc_l; [eapply (step_set_device_id _ _ 183); vm_compute; reflexivity|].
  eapply rtc_l; [apply (step_open _ _ 0%nat); vm_compute; reflexivity|].
  eapply rtc_l; [apply (step_open _ _ 1%nat); vm_compute; reflexivity|].
  eapply rtc_l; [|apply rtc_refl].
  eapply (step_request _ _ 0%nat _ (kArbitration (example_update 5))); vm_compute; reflexivity.
Qed.

Lemma example_reachable_7 : rtc (step no_packet_out) example_primary_5 example_primary_7.
Proof.
  eapply rtc_l; [|apply rtc_refl].
  eapply (step_request _ _ 1%nat _ (kArbitration (example_update 7))); vm_compute; reflexivity.
Qed.

(** C11.  The invariant of controller arbitration holds in every reachable state: the manager's
    list holds exactly the live connections that completed arbitration, once each; no two
    connections of a role share an election id; no election id exceeds the highest one recorded
    for its role; and a device id is set while any controller is connected. *)
Theorem controller_invariant (HandlePacketOut : str → option StatusCode) (w : World) :
  reachable HandlePacketOut w → Inv w.
Proof. apply reachable_Inv. Qed.

Lemma controller_invariant_witness :
  reachable no_packet_out example_primary_5 ∧ Inv example_primary_5.
Proof.
  split; [apply example_reachable_5|].
  apply (controller_invariant no_packet_out), example_reachable_5.
Defined.

(** C8.  At most one connection is let through to mutate state: in a reachable state, when
    [AllowMutableRequest] accepts a role and election id, there is a live connection of that role
    with that id, it is the only one, and every other connection of the role is a backup with no
    election id or a strictly smaller one; the request's device id is the switch's; and the
    check changes nothing. *)
Theorem mutable_requests_from_primary_only
    (HandlePacketOut : str → option StatusCode) (w w' : World) (device_id : option Z)
    (role : option str) (id : option Z) :
  reachable HandlePacketOut w →
  AllowMutableRequest device_id role id w = Some (Ok tt, w') →
  w' = w ∧ device_id_ w = device_id ∧
  ∃ e c conn, id = Some e ∧ heap w !! c = Some conn ∧ initialized_ conn = true ∧
    role_name_ conn = role ∧ election_id_ conn = Some e ∧
    ∀ c' conn' e', heap w !! c' = Some conn' → initialized_ conn' = true →
      role_name_ conn' = role → election_id_ conn' = Some e' → c' = c ∨ e' < e.
Proof.
  intros HI%reachable_Inv Hallow. apply allowed_iff in Hallow; [|apply HI].
  destruct Hallow as (-> & _ & -> & [e ->] & Hpast & c & conn & Hin & Hc & Hr & He).
  split; [done|]. split; [done|]. exists e, c, conn. split_and!; try done.
  { by apply (inv_registered w HI c conn). }
  intros c' conn' e' Hc' Hi' Hr' He'.
  destruct (inv_past w HI c' conn' e' Hc' He') as (p & Hp & Hle).
  rewrite Hr', <-Hpast in Hp. injection Hp as <-.
  destruct (decide (e' = e)) as [->|]; [left|right; lia].
  eapply (inv_unique w HI c' c conn' conn); try done; try congruence.
  by apply (inv_registered w HI c conn).
Qed.

Lemma mutable_requests_from_primary_only_witness :
  reachable no_packet_out example_primary_5 ∧
  device_id_ example_primary_5 = Some 183.
Proof.
  split; [apply example_reachable_5|].
  apply (mutable_requests_from_primary_only no_packet_out example_primary_5 example_primary_5
    (Some 183) (Some $"sdn_controller") (Some 5)); [apply example_reachable_5|].
  vm_compute. reflexivity.
Defined.

(** C13.  A deposed primary is fenced off: the highest election id recorded for a role never
    decreases along any run, and once a request with election id [e'] has been accepted for a
    role, a request with a smaller election id is denied for that role in every later state,
    whatever connects, disconnects or arbitrates in between. *)
Theorem deposed_primary_is_fenced
    (HandlePacketOut : str → option StatusCode) (w w' : World) (device_id : option Z)
    (role : option str) (e e' : Z) :
  reachable HandlePacketOut w → rtc (step HandlePacketOut) w w' →
  past_le w w' ∧
  (AllowMutableRequest device_id role (Some e') w = Some (Ok tt, w) → e < e' →
   ∀ device_id', ∃ code, AllowMutableRequest device_id' role (Some e) w' = Some (Err code, w')).
Proof.
  intros HI%reachable_Inv Hsteps. destruct (steps_effect _ _ _ HI Hsteps) as [HI' Hle].
  split; [done|]. intros Hallow Hlt device_id'.
  apply allowed_iff in Hallow as (_ & _ & _ & _ & Hpast & _); [|apply HI].
  destruct (Hle role e' (eq_sym Hpast)) as (p & Hp & Hge).
  rewrite AllowMutableRequest_spec by apply HI'.
  rewrite (bool_decide_eq_false_2 (Some e = _)) by (rewrite Hp; intros [= ->]; lia).
  rewrite andb_false_r. cbn [andb].
  destruct (bool_decide (is_Some device_id') && _); by eexists.
Qed.

Lemma deposed_primary_is_fenced_witness :
  reachable no_packet_out example_primary_7 ∧
  (∃ code, AllowMutableRequest (Some 183) (Some $"sdn_controller") (Some 5) example_primary_7 =
     Some (Err code, example_primary_7)).
Proof.
  assert (reachable no_packet_out example_primary_7) as Hr
    by (unfold reachable; etransitivity; [apply example_reachable_5 | apply example_reachable_7]).
  split; [exact Hr|].
  refine (proj2 (deposed_primary_is_fenced no_packet_out example_primary_7 example_primary_7
    (Some 183) (Some $"sdn_controller") 5 7 Hr (rtc_refl _ _)) _ _ (Some 183)).
  - vm_compute. reflexivity.
  - lia.
Defined.

(** The handlers never follow a dangling pointer: in a reachable state every stream request
    of a live connection, its disconnection, every request check and every packet-in runs to
    completion. *)
Theorem handlers_memory_safe
    (HandlePacketOut : str → option StatusCode) (w : World) (c : nat) (conn : SdnConnection) :
  reachable HandlePacketOut w → heap w !! c = Some conn →
  (∀ request, is_Some (StreamChannel_request HandlePacketOut c request w)) ∧
  is_Some (Disconnect c w) ∧
  (∀ device_id role id, is_Some (AllowMutableRequest device_id role id w)) ∧
  (∀ response, is_Some (SendPacketInToPrimary response w)).
Proof.
  intros HI%reachable_Inv Hc. split_and!.
  - intros request. destruct (request_effect HandlePacketOut c conn request w HI Hc)
      as (? & ? & -> & _). by eexists.
  - destruct (disconnect_effect c conn w HI Hc) as (? & -> & _). by eexists.
  - intros. rewrite AllowMutableRequest_spec by apply HI. by eexists.
  - intros [a|payload|code|]; try by eexists.
    destruct (SendPacketInToPrimary_spec payload w (inv_valid w HI)) as (? & -> & _). by eexists.
Qed.

Lemma handlers_memory_safe_witness :
  reachable no_packet_out example_primary_5 ∧ is_Some (Disconnect 0 example_primary_5).
Proof.
  split; [apply example_reachable_5|].
  eapply (handlers_memory_safe no_packet_out example_primary_5 0); [apply example_reachable_5|].
  vm_compute. reflexivity.
Defined.

(** C31.  Handling an arbitration update.  A rejected update (no device id configured, wrong device
    id, change of role, election id used by another connection of the role) changes nothing.  An
    accepted one registers the connection with the requested role and election id, leaves the
    other connections alone, and raises the role's highest id exactly when the new id reaches
    it.  Every message it sends goes to a connection of that role and says "you are the primary"
    exactly to the primary of the new state; the updated connection always gets one, and when the
    primary may have changed (the connection reaches the highest id or was the primary before)
    so does every connection of the role. *)
Theorem arbitration_update_outcome
    (HandlePacketOut : str → option StatusCode) (w : World) (c : nat) (conn : SdnConnection)
    (update : MasterArbitrationUpdate) :
  reachable HandlePacketOut w → heap w !! c = Some conn →
  let role := requested_role update in
  let id := requested_id update in
  match verdict w c conn update with
  | Ok _ =>
    ∃ w' msgs, HandleArbitrationUpdate update c w = Some (Ok tt, w') ∧
      heap w' = <[c := mkConnection true role id]> (heap w) ∧
      (∀ c', c' ∈ connections_ w' ↔ c' = c ∨ c' ∈ connections_ w) ∧
      device_id_ w' = device_id_ w ∧
      (∀ role', past_of w' role' =
         if bool_decide (role' = role) && is_new_primary id (past_of w role)
         then id else past_of w role') ∧
      sent w' = sent w ++ msgs ∧
      (∀ c' m, (c', m) ∈ msgs →
         ∃ conn' a, heap w' !! c' = Some conn' ∧ role_name_ conn' = role ∧
           m = ArbitrationResponse a ∧ (arbitration_status a = Ok tt ↔ is_primary w' conn' = true)) ∧
      (∀ c' conn', heap w' !! c' = Some conn' → initialized_ conn' = true →
         role_name_ conn' = role →
         c' = c ∨ is_new_primary id (past_of w role) = true ∨ (initialized_ conn = true ∧ is_primary w conn = true) →
         ∃ m, (c', m) ∈ msgs)
  | r => HandleArbitrationUpdate update c w = Some (r, w)
  end.
Proof.
  intros HI%reachable_Inv Hc role id.
  pose proof (HandleArbitrationUpdate_spec c conn update w (inv_valid w HI) Hc) as Hs.
  destruct (verdict w c conn update) as [[]|e|] eqn:Hv; [|done..].
  destruct Hs as (w' & Hh & Hq). apply verdict_Ok in Hv as (Hd & Hrole & Huse).
  fold role id in Hq, Hrole, Huse. set (w1 := register c conn role id w) in *.
  assert (Inv w') as HI' by (apply (Inv_quiet _ _ _ Hq), Inv_register_elect; eauto).
  destruct (elect_fields role id w1) as (Hh1 & Hcs1 & Hd1).
  assert (heap w' = <[c := mkConnection true role id]> (heap w)) as Hheap
    by (rewrite (quiet_heap _ _ _ Hq), Hh1; done).
  assert (heap w' !! c = Some (mkConnection true role id)) as Hc'
    by (rewrite Hheap; apply lookup_insert_eq).
  assert (sent (elect role id w1) = sent w) as Hsent
    by (unfold elect; by destruct (is_new_primary _ _)).
  match type of Hq with quiet _ _ ?msgs => exists w', msgs end.
  split; [exact Hh|]. split; [done|]. split_and!.
  - intros c'. rewrite (quiet_connections _ _ _ Hq), Hcs1. unfold w1, register. cbn.
    destruct (initialized_ conn) eqn:Hi.
    + split; [by right|]. intros [->|?]; [|done]. by apply (inv_registered w HI c conn).
    + rewrite elem_of_app, list_elem_of_singleton. tauto.
  - by rewrite (quiet_device _ _ _ Hq), Hd1.
  - intros role'. rewrite (quiet_past _ _ _ Hq). apply (past_of_elect role id w1).
  - by rewrite (quiet_sent _ _ _ Hq), Hsent.
  - assert (∀ c' conn', c' ∈ connections_ w' → heap w' !! c' = Some conn' → role_name_ conn' = role →
      ∃ conn'' a, heap w' !! c' = Some conn'' ∧ role_name_ conn'' = role ∧
        arbitration_of (elect role id w1) conn' = ArbitrationResponse a ∧
        (arbitration_status a = Ok tt ↔ is_primary w' conn'' = true)) as Hmsg.
    { intros c' conn' Hin Hc0 Hr0.
      destruct (arbitration_status_spec w' c' conn' HI' Hin Hc0) as (a & Ha & Hst).
      exists conn', a. rewrite <-(quiet_arbitration_of _ _ _ conn' Hq). done. }
    intros c' m. case_if.
    + intros (Hin & conn' & Hc0 & Hr0 & ->)%elem_of_informed.
      rewrite <-(quiet_connections _ _ _ Hq) in Hin. rewrite <-(quiet_heap _ _ _ Hq) in Hc0.
      by apply Hmsg.
    + intros [= -> ->]%list_elem_of_singleton. apply Hmsg; [|done..].
      by apply (inv_registered w' HI' c _ Hc').
  - intros c' conn' Hc0 Hi0 Hr0 Hwhy. case_if.
    + eexists. apply elem_of_informed.
      rewrite <-(quiet_connections _ _ _ Hq), <-(quiet_heap _ _ _ Hq).
      split; [by apply (inv_registered w' HI' c' conn')|]. by exists conn'.
    + match goal with H : (_ || _)%bool = false |- _ => apply orb_false_iff in H as [? Hold] end.
      destruct Hwhy as [->|[Hnew|[Hi Hp]]]; [|congruence|].
      * eexists. by apply list_elem_of_singleton.
      * exfalso. unfold is_primary in Hp. bool_prop. rewrite <-Hrole in * by done.
        rewrite (bool_decide_eq_true_2 (is_Some (election_id_ conn))) in Hold by congruence.
        by rewrite bool_decide_eq_true_2 in Hold.
Qed.

Lemma arbitration_update_outcome_witness :
  reachable no_packet_out example_primary_5 ∧
  HandleArbitrationUpdate (example_update 5) 1 example_primary_5 =
    Some (Err kInvalidArgument, example_primary_5).
Proof.
  split; [apply example_reachable_5|].
  exact (arbitration_update_outcome no_packet_out example_primary_5 1 NewConnection
    (example_update 5) example_reachable_5 ltac:(vm_compute; reflexivity)).
Defined.

(** When a connection closes: the other connections are untouched; if it was the primary,
    every remaining connection of its role is told that no primary exists, and requests for that role
    are denied whatever their election id; if it was not, nobody is told anything. *)
Theorem disconnect_outcome
    (HandlePacketOut : str → option StatusCode) (w : World) (c : nat) (conn : SdnConnection) :
  reachable HandlePacketOut w → heap w !! c = Some conn → initialized_ conn = true →
  ∃ w' msgs, Disconnect c w = Some (tt, w') ∧
    heap w' = heap w ∧ (∀ c', c' ∈ connections_ w' ↔ c' ∈ connections_ w ∧ c' ≠ c) ∧
    sent w' = sent w ++ msgs ∧
    (is_primary w conn = false → msgs = []) ∧
    (is_primary w conn = true →
      (∀ c' conn', heap w !! c' = Some conn' → initialized_ conn' = true → c' ≠ c →
         role_name_ conn' = role_name_ conn → ∃ m, (c', m) ∈ msgs) ∧
      (∀ c' m, (c', m) ∈ msgs → ∃ a, m = ArbitrationResponse a ∧ arbitration_status a = Err kNotFound) ∧
      (∀ device_id id, ∃ code,
         AllowMutableRequest device_id (role_name_ conn) id w' = Some (Err code, w'))).
Proof.
  intros HI%reachable_Inv Hc Hi.
  destruct (Disconnect_spec c conn w (inv_valid w HI) Hc) as (w' & Hdis & Hq).
  rewrite Hi in Hq. cbn [andb] in Hq.
  set (w1 := with_connections (erase_connection c (connections_ w)) w) in *.
  assert (∀ c', c' ∈ connections_ w' ↔ c' ∈ connections_ w ∧ c' ≠ c) as Hin.
  { intros c'. rewrite (quiet_connections _ _ _ Hq). apply elem_of_erase, HI. }
  assert (valid w') as Hv'.
  { intros c' [Hc' _]%Hin. rewrite (quiet_heap _ _ _ Hq). by apply HI. }
  assert (is_primary w conn = true → ∀ id, id = past_of w' (role_name_ conn) →
    existsb (conn_matches (heap w') (role_name_ conn) id) (connections_ w') = false) as Hnone.
  { intros Hp id Hid. apply not_true_iff_false.
    rewrite existsb_matches. intros (c' & conn' & [Hin' Hne]%Hin & Hc' & Hr' & He').
    rewrite (quiet_heap _ _ _ Hq) in Hc'. rewrite (quiet_past _ _ _ Hq) in Hid.
    change (past_of w1) with (past_of w) in Hid. unfold is_primary in Hp. bool_prop.
    apply Hne. eapply (inv_unique w HI c' c conn' conn); try done; try congruence.
    by apply (inv_registered w HI c' conn'). }
  eexists w', _. split; [exact Hdis|]. split; [by rewrite (quiet_heap _ _ _ Hq)|].
  split; [done|]. split; [by rewrite (quiet_sent _ _ _ Hq)|].
  split; [by intros ->|]. intros Hp. rewrite Hp in *. split_and!.
  - intros c' conn' Hc' Hi' Hne Hr'. eexists. apply elem_of_informed.
    rewrite <-(quiet_connections _ _ _ Hq). split; [|by exists conn'].
    apply Hin. split; [|done]. by apply (inv_registered w HI c' conn').
  - intros c' m (_ & conn' & Hc' & Hr' & ->)%elem_of_informed. eexists. split; [done|].
    cbn [arbitration_status]. rewrite <-(quiet_primary_exists _ _ _ _ Hq), Hr'.
    unfold primary_exists. rewrite (Hnone eq_refl) by done. by rewrite andb_false_r.
  - intros device_id id. rewrite AllowMutableRequest_spec by done.
    destruct (decide (id = past_of w' (role_name_ conn))) as [Heq|Hne].
    + rewrite (Hnone eq_refl id Heq), !andb_false_r. by case_if; eexists.
    + rewrite (bool_decide_eq_false_2 (id = _)), !andb_false_r by done. by case_if; eexists.
Qed.

Lemma disconnect_outcome_witness :
  reachable no_packet_out example_primary_5 ∧
  ∃ w' msgs, Disconnect 0 example_primary_5 = Some (tt, w') ∧ sent w' = sent example_primary_5 ++ msgs.
Proof.
  split; [apply example_reachable_5|].
  destruct (disconnect_outcome no_packet_out example_primary_5 0
    (mkConnection true (Some $"sdn_controller") (Some 5)) example_reachable_5)
    as (w' & msgs & Hd & _ & _ & Hs & _); [vm_compute; reflexivity | done |].
  exists w', msgs. split; [exact Hd | exact Hs].
Defined.

(** A packet-in goes to the primaries of the roles that receive packets (the SDN controller
    role and the default role), to at most one connection per role, and to nobody else; the call
    fails with a failed precondition exactly when there is no such primary; only packet messages
    are sent at all. *)
Theorem packet_in_delivery
    (HandlePacketOut : str → option StatusCode) (w : World) (response : StreamMessageResponse) :
  reachable HandlePacketOut w →
  match response with
  | PacketIn payload =>
    ∃ r w' recipients, SendPacketInToPrimary response w = Some (r, w') ∧
      sent w' = sent w ++ map (λ c, (c, PacketIn payload)) recipients ∧
      (∀ c, c ∈ recipients ↔
         ∃ conn, heap w !! c = Some conn ∧ initialized_ conn = true ∧ is_primary w conn = true ∧
           (role_name_ conn = None ∨ role_name_ conn = Some $"sdn_controller")) ∧
      (∀ c1 c2 conn1 conn2, c1 ∈ recipients → c2 ∈ recipients →
         heap w !! c1 = Some conn1 → heap w !! c2 = Some conn2 →
         role_name_ conn1 = role_name_ conn2 → c1 = c2) ∧
      r = (if bool_decide (recipients = []) then Err kFailedPrecondition else Ok tt)
  | _ => SendPacketInToPrimary response w = Some (Err kInvalidArgument, w)
  end.
Proof.
  intros HI%reachable_Inv. destruct response as [a|payload|code|]; try done.
  destruct (SendPacketInToPrimary_spec payload w (inv_valid w HI)) as (w' & Hs & Hq).
  set (recipients := List.filter (receives_packet_in w) (connections_ w)) in *.
  assert (∀ c, c ∈ recipients ↔
         ∃ conn, heap w !! c = Some conn ∧ initialized_ conn = true ∧ is_primary w conn = true ∧
           (role_name_ conn = None ∨ role_name_ conn = Some $"sdn_controller")) as Hrec.
  { intros c. unfold recipients. rewrite list_elem_of_In, filter_In, <-list_elem_of_In.
    unfold receives_packet_in. split.
    - intros [Hin Hsel]. destruct (heap w !! c) as [conn|] eqn:Hc; [|done]. bool_prop.
      exists conn. split; [done|]. split; [by apply (inv_registered w HI c)|]. split; [done|].
      unfold role_receives_packet_in_ in *. set_solver.
    - intros (conn & Hc & Hi & Hp & Hr). rewrite Hc, Hp.
      split; [by apply (inv_registered w HI c conn)|]. cbn [andb]. apply bool_decide_eq_true.
      unfold role_receives_packet_in_. set_solver. }
  eexists _, w', recipients. split; [exact Hs|]. split; [apply (quiet_sent _ _ _ Hq)|].
  split; [done|]. split.
  - intros c1 c2 conn1 conn2 (? & Hc1 & Hi1 & Hp1 & _)%Hrec (? & Hc2 & Hi2 & Hp2 & _)%Hrec Hd1 Hd2 Hr.
    rewrite Hd1 in Hc1. rewrite Hd2 in Hc2. injection Hc1 as <-. injection Hc2 as <-. unfold is_primary in *. bool_prop.
    eapply (inv_unique w HI c1 c2 conn1 conn2); try done; congruence.
  - assert (existsb (receives_packet_in w) (connections_ w) = negb (bool_decide (recipients = []))) as ->.
    { unfold recipients. clear. induction (connections_ w) as [|c l IH]; [done|].
      cbn [existsb List.filter]. destruct (receives_packet_in w c); [done|apply IH]. }
    by destruct (bool_decide (recipients = [])).
Qed.

Lemma packet_in_delivery_witness :
  reachable no_packet_out example_primary_5 ∧
  ∃ r w' recipients,
    SendPacketInToPrimary (PacketIn $"p") example_primary_5 = Some (r, w') ∧
    sent w' = sent example_primary_5 ++ map (λ c, (c, PacketIn $"p")) recipients.
Proof.
  split; [apply example_reachable_5|].
  destruct (packet_in_delivery no_packet_out example_primary_5 (PacketIn $"p") example_reachable_5)
    as (r & w' & recipients & H1 & H2 & _).
  exists r, w', recipients. split; [exact H1 | exact H2].
Defined.
