(* ===== verification/Takeover.v ===== *)
(** p4rt_app/p4runtime/sdn_controller_manager.cc: a controller can always take over a role.  Arbitration never
    gets into a state from which no primary can be elected. *)
From S2P Require Import Prelude SdnController.

(** The update that asks for a role with a 128-bit election id. *)
Definition takeover (device : Z) (role : option str) (e : Z) : MasterArbitrationUpdate :=
  mkArbitration device role (Some (Uint128High64 e, Uint128Low64 e)).

(** The election ids that no connection of the role has reached. *)
Definition unbeaten (w : World) (role : option str) (e : Z) : Prop := ∀ p, past_of w role = Some p → p < e.

Lemma takeover_id device role e : requested_id (takeover device role e) = Some e.
Proof.
  unfold takeover, requested_id, MakeUint128, Uint128High64, Uint128Low64. cbn [update_election_id fmap option_fmap option_map].
  f_equal. pose proof (Z.div_mod e (2 ^ 64) ltac:(lia)). lia.
Qed.
Lemma takeover_role device role e : role ≠ Some [] → requested_role (takeover device role e) = role.
Proof. intros Hr. unfold requested_role. cbn. destruct role as [name|]; [|done]. case_bool_decide; congruence. Qed.
Lemma takeover_halves e : 0 ≤ e < 2 ^ 128 → 0 ≤ Uint128High64 e < 2 ^ 64 ∧ 0 ≤ Uint128Low64 e < 2 ^ 64.
Proof. unfold Uint128High64, Uint128Low64. intros He. split; [|apply Z.mod_pos_bound; lia]. split; [apply Z.div_pos|apply Z.div_lt_upper_bound]; lia. Qed.

Lemma unbeaten_unused w c role e : Inv w → unbeaten w role e → id_in_use w c role (Some e) = false.
Proof.
  intros HI Hun. unfold id_in_use. rewrite bool_decide_eq_true_2 by done. cbn [andb]. apply not_true_iff_false.
  intros (c' & _ & (_ & Hm)%andb_true_iff)%existsb_exists. unfold conn_matches in Hm.
  destruct (heap w !! c') as [conn|] eqn:Hc; [|done]. bool_prop.
  destruct (inv_past w HI c' conn e) as (p & Hp & ?); [done|naive_solver|].
  assert (past_of w role = Some p) as Hp' by naive_solver. apply Hun in Hp'. lia.
Qed.
Lemma unbeaten_new_primary w role e : unbeaten w role e → is_new_primary (Some e) (past_of w role) = true.
Proof. unfold unbeaten, is_new_primary. destruct (past_of w role) as [p|]; [|done]. intros Hp. specialize (Hp p eq_refl). lia. Qed.

(** The state after a stream that was open has asked for the role. *)
Definition taken_over (w : World) (c : nat) (role : option str) (e : Z) (w' : World) : Prop :=
  ∃ w1, w1 = elect role (Some e) (register c NewConnection role (Some e) w) ∧
    quiet w1 w' (informed w1 role (connections_ w1)).
Arguments taken_over : simpl never.

(** The device id can be set when it is missing; nothing else changes. *)
Lemma configured w d : Inv w → device_id_ w = None → 0 < d → SetDeviceId d w = Some (Ok tt, with_device_id (Some d) w).
Proof.
  intros HI Hdev Hd. assert (connections_ w = []) as Hnil.
  { destruct (connections_ w) eqn:Hcs; [done|]. destruct (inv_device w HI) as [? Hsome]; [by rewrite Hcs|congruence]. }
  unfold SetDeviceId, mbind, M_bind, gets, modify. rewrite Hdev, Hnil. cbn. by destruct (Z.eqb_spec d 0); [lia|].
Qed.

Lemma open_takeover HandlePacketOut w c role e device :
  Inv w → heap w !! c = Some NewConnection → device_id_ w = Some device → role ≠ Some [] → unbeaten w role e →
  ∃ w', StreamChannel_request HandlePacketOut c (kArbitration (takeover device role e)) w = Some (None, w') ∧
    taken_over w c role e w'.
Proof.
  intros HI Hc Hdev Hrole Hun.
  pose proof (HandleArbitrationUpdate_spec c NewConnection (takeover device role e) w (inv_valid _ HI)) as Hs.
  cbv zeta in Hs. rewrite takeover_id, takeover_role in Hs by done.
  assert (verdict w c NewConnection (takeover device role e) = Ok tt) as Hv.
  { unfold verdict. rewrite Hdev. cbn [takeover update_device_id].
    rewrite Z.eqb_refl. cbn [negb initialized_ NewConnection andb]. by rewrite takeover_id, takeover_role, unbeaten_unused. }
  rewrite Hv, (unbeaten_new_primary w) in Hs by done. cbn [orb] in Hs.
  destruct Hs as (w' & Hh & Hq); [done|].
  exists w'. split; [|by eexists]. unfold StreamChannel_request, mbind, M_bind. by rewrite Hh.
Qed.

(** Every connection is told once. *)
Lemma informed_once w role l : NoDup l → NoDup (map fst (informed w role l)).
Proof.
  induction 1 as [|c l Hc Hl IH]; [constructor|].
  change (informed w role (c :: l)) with (match heap w !! c with
    | Some conn => if bool_decide (role_name_ conn = role) then [(c, arbitration_of w conn)] else []
    | None => [] end ++ informed w role l).
  destruct (heap w !! c) as [conn|]; [|done]. case_bool_decide; [|done]. cbn [app map fst]. constructor; [|done].
  intros ([c' m] & -> & [Hin _]%elem_of_informed)%list_elem_of_fmap. by apply Hc.
Qed.

(** Exactly the connections of the role are told, each what holds in the new state. *)
Lemma taken_over_facts w c role e w' :
  Inv w → heap w !! c = Some NewConnection → is_Some (device_id_ w) → unbeaten w role e → taken_over w c role e w' →
  Inv w' ∧ device_id_ w' = device_id_ w ∧ heap w' = <[c := mkConnection true role (Some e)]> (heap w) ∧
  past_of w' role = Some e ∧
  ∃ msgs, sent w' = sent w ++ msgs ∧ NoDup (map fst msgs) ∧ ∀ c' response, (c', response) ∈ msgs ↔
    ∃ conn, heap w' !! c' = Some conn ∧ initialized_ conn = true ∧ role_name_ conn = role ∧ response = arbitration_of w' conn.
Proof.
  intros HI Hc Hd Hun (w1 & -> & Hq). set (w1 := elect _ _ _) in *.
  destruct (elect_fields role (Some e) (register c NewConnection role (Some e) w)) as (Hh & Hcs & Hdev).
  fold w1 in Hh, Hcs, Hdev.
  assert (Inv w') as HI' by (apply (Inv_quiet _ _ _ Hq), Inv_register_elect; [done|done|done|by apply unbeaten_unused]).
  split_and!; [done|by rewrite (quiet_device _ _ _ Hq), Hdev|by rewrite (quiet_heap _ _ _ Hq), Hh| |].
  - rewrite (quiet_past _ _ _ Hq). unfold w1. rewrite past_of_elect, bool_decide_eq_true_2 by done.
    by rewrite (unbeaten_new_primary (register c NewConnection role (Some e) w)).
  - exists (informed w1 role (connections_ w1)).
    split; [rewrite (quiet_sent _ _ _ Hq); f_equal; unfold w1, elect; by destruct (is_new_primary _ _)|].
    rewrite <-(quiet_connections _ _ _ Hq). split; [apply informed_once, (inv_nodup w' HI')|]. intros c' response.
    rewrite elem_of_informed, <-(quiet_heap _ _ _ Hq). split.
    + intros (Hin & conn & Hc' & Hr & ->). exists conn. split_and!; [done| |done|by rewrite (quiet_arbitration_of _ _ _ conn Hq)].
      by apply (inv_registered w' HI' c' conn).
    + intros (conn & Hc' & Hi & Hr & ->). split; [by apply (inv_registered w' HI' c' conn)|].
      exists conn. split_and!; [done..|]. by rewrite (quiet_arbitration_of _ _ _ conn Hq).
Qed.

Lemma primary_allowed w c role e device :
  Inv w → heap w !! c = Some (mkConnection true role (Some e)) → past_of w role = Some e → device_id_ w = Some device →
  AllowMutableRequest (Some device) role (Some e) w = Some (Ok tt, w).
Proof.
  intros HI Hc Hp Hd. apply allowed_iff; [apply HI|]. split_and!; try done; [by eexists..|].
  exists c, (mkConnection true role (Some e)). split_and!; [|done..]. by apply (inv_registered w HI c _ Hc).
Qed.

(** The message to a connection of the role. *)
Definition told (device : Z) (role : option str) (e : Z) (status : result unit) : StreamMessageResponse :=
  ArbitrationResponse (mkArbitrationResponse device role (Some (Uint128High64 e, Uint128Low64 e)) status).

(** The primary is told so, and a backup that there is another one. *)
Lemma arbitration_told w c role e device :
  Inv w → heap w !! c = Some (mkConnection true role (Some e)) → past_of w role = Some e → device_id_ w = Some device →
  ∀ conn, role_name_ conn = role →
    arbitration_of w conn = told device role e (if bool_decide (election_id_ conn = Some e) then Ok tt else Err kAlreadyExists).
Proof.
  intros HI Hc Hp Hd conn Hr. unfold arbitration_of, told. rewrite Hr, Hp, Hd.
  assert (primary_exists w role = true) as ->.
  { unfold primary_exists. rewrite Hp, bool_decide_eq_true_2 by done. cbn [andb]. apply existsb_matches.
    exists c, (mkConnection true role (Some e)). split_and!; [|done..]. by apply (inv_registered w HI c _ Hc). }
  cbn. do 2 f_equal. repeat case_bool_decide; congruence.
Qed.

(** * The property *)

(** C14.  A controller can always take over.  In every reachable state - whatever controllers came, went and
    claimed before - the device id can be set if it is missing.  Once it is, a stream that is open and has not asked
    for anything becomes the primary of a role with its first arbitration update, if the election id in it is
    above all that were accepted for the role: the update is accepted, and from then on its requests are let through.
    Exactly the controllers of the role are told, once each: this one that it is the primary, the others that
    there is another one.  It stays the primary as long as its connection lives and no election id above its own
    is accepted. *)
Theorem controller_can_take_over (HandlePacketOut : str → option StatusCode) (w : World) (c : nat) (role : option str) (e : Z) :
  reachable HandlePacketOut w → heap w !! c = Some NewConnection → role ≠ Some [] → 0 ≤ e < 2 ^ 128 → unbeaten w role e →
  (device_id_ w = None → ∀ d, 0 < d → SetDeviceId d w = Some (Ok tt, with_device_id (Some d) w)) ∧
  ∀ device, device_id_ w = Some device →
  ∃ w' msgs, StreamChannel_request HandlePacketOut c (kArbitration (takeover device role e)) w = Some (None, w') ∧
    step HandlePacketOut w w' ∧
    AllowMutableRequest (Some device) role (Some e) w' = Some (Ok tt, w') ∧
    sent w' = sent w ++ msgs ∧ NoDup (map fst msgs) ∧
    (∀ c', c' ∈ map fst msgs ↔
       c' = c ∨ ∃ conn, heap w !! c' = Some conn ∧ initialized_ conn = true ∧ role_name_ conn = role) ∧
    (∀ c' response, (c', response) ∈ msgs →
       response = told device role e (if bool_decide (c' = c) then Ok tt else Err kAlreadyExists)) ∧
    ∀ w'', rtc (step HandlePacketOut) w' w'' → heap w'' !! c = heap w' !! c → past_of w'' role = past_of w' role →
      AllowMutableRequest (device_id_ w'') role (Some e) w'' = Some (Ok tt, w'').
Proof.
  intros HI%reachable_Inv Hc Hrole He Hun. split; [by intros Hnone d; apply configured|]. intros device Hdev.
  destruct (open_takeover HandlePacketOut w c role e device HI Hc Hdev Hrole Hun) as (w' & Hreq & Htaken).
  destruct (taken_over_facts w c role e w' HI Hc (mk_is_Some _ _ Hdev) Hun Htaken) as (HI' & Hdev' & Hheap & Hpast & msgs & Hsent & Honce & Hmsgs).
  assert (heap w' !! c = Some (mkConnection true role (Some e))) as Hc' by (rewrite Hheap; apply lookup_insert_eq).
  rewrite Hdev in Hdev'. pose proof (arbitration_told w' c role e device HI' Hc' Hpast Hdev') as Htold.
  exists w', msgs. split_and!; [done|by eapply step_request|by apply (primary_allowed w' c)|done|done| | |].
  - intros c'. rewrite list_elem_of_fmap. split.
    + intros ([c'' response] & -> & (conn & Hconn & Hi & Hr & _)%Hmsgs). cbn. destruct (decide (c'' = c)) as [|Hne]; [by left|right].
      rewrite Hheap, lookup_insert_ne in Hconn by done. by exists conn.
    + assert (∀ conn, heap w' !! c' = Some conn → initialized_ conn = true → role_name_ conn = role → ∃ y, c' = fst y ∧ y ∈ msgs) as Hin.
      { intros conn Hconn Hi Hr. exists (c', arbitration_of w' conn). split; [done|]. apply Hmsgs. by exists conn. }
      intros [->|(conn & Hconn & Hi & Hr)]; [by eapply Hin|]. destruct (decide (c' = c)) as [->|Hne]; [by eapply Hin|].
      eapply Hin; [|done|done]. by rewrite Hheap, lookup_insert_ne by done.
  - intros c' response (conn & Hconn & Hi & Hr & ->)%Hmsgs. rewrite (Htold conn Hr). f_equal. rewrite Hheap in Hconn.
    destruct (decide (c' = c)) as [->|Hne].
    + rewrite lookup_insert_eq in Hconn. injection Hconn as <-. by rewrite !bool_decide_eq_true_2 by done.
    + rewrite lookup_insert_ne in Hconn by done. rewrite (bool_decide_eq_false_2 (c' = c)), bool_decide_eq_false_2; [done| |done].
      intros Heq. destruct (inv_past w HI c' conn e Hconn Heq) as (p & Hp & ?). rewrite Hr in Hp. apply Hun in Hp. lia.
  - intros w'' Hsteps'' Hsame Hpast''. destruct (steps_effect _ _ _ HI' Hsteps'') as [HI'' _]. rewrite Hc' in Hsame.
    assert (c ∈ connections_ w'') as Hin by by apply (inv_registered w'' HI'' c _ Hsame).
    destruct (inv_device w'' HI'') as [device' Hdevice]; [by intros Hnil; rewrite Hnil in Hin; apply not_elem_of_nil in Hin|].
    rewrite Hdevice. apply (primary_allowed w'' c); [done..|by rewrite Hpast''|done].
Qed.

(** Controller 1 is the primary with 7; controller 2 opens a stream and claims 8. *)
Definition challenged : World := open_stream 2 example_primary_7.
Lemma controller_can_take_over_witness :
  past_of challenged (Some $"sdn_controller") = Some 7 ∧
  ∃ w', StreamChannel_request no_packet_out 2 (kArbitration (takeover 183 (Some $"sdn_controller") 8)) challenged = Some (None, w') ∧
    AllowMutableRequest (Some 183) (Some $"sdn_controller") (Some 8) w' = Some (Ok tt, w').
Proof.
  split; [vm_compute; reflexivity|].
  assert (reachable no_packet_out challenged) as Hr.
  { unfold reachable. etransitivity; [apply example_reachable_5|]. etransitivity; [apply example_reachable_7|].
    apply rtc_once, step_open. vm_compute. reflexivity. }
  destruct (controller_can_take_over no_packet_out challenged 2 (Some $"sdn_controller") 8 Hr) as [_ Htake];
    [vm_compute; reflexivity|done|lia| |].
  - intros p Hp. vm_compute in Hp. injection Hp as <-. lia.
  - destruct (Htake 183 ltac:(vm_compute; reflexivity)) as (w' & msgs & Hreq & _ & Hallow & _). exists w'. split; [exact Hreq|exact Hallow].
Defined.
