(* ===== verification/EntityKeys.v ===== *)
(** p4_infra/p4_pdpi: [entity_keys.{h,cc}].  The key under which P4Runtime entities are cached
    and compared: table entries are identified by table, priority and the set of their match
    fields, packet replication entries by their type and id.  Keys are usable as keys of finite
    maps ([EqDecision] and [Countable] instances). *)
From S2P Require Import Prelude.

(** * p4runtime.proto: the parts of entities the code reads *)

Inductive field_match_type :=
  | kExact (value : str)
  | kTernary (value mask : str)
  | kLpm (value : str) (prefix_len : Z)
  | kRange (low high : str)
  | kOptional (value : str)
  | kOtherMatch (payload : str)
  | FIELD_MATCH_TYPE_NOT_SET.

Record FieldMatch := mkFieldMatch { field_id : Z; field_match : field_match_type }.

#[global] Instance field_match_type_eq_dec : EqDecision field_match_type.
Proof. solve_decision. Defined.
#[global] Instance FieldMatch_eq_dec : EqDecision FieldMatch.
Proof. solve_decision. Defined.

(** The parameters are pairs of [param_id] and [value]. *)
Record Action := mkAction { action_id : Z; params : list (Z * str) }.

(** The [watch_kind] of an action of an action set. *)
Inductive WatchKind :=
  | kWatch (watch : Z)
  | kWatchPort (watch_port : str)
  | WATCH_KIND_NOT_SET.

Record ActionProfileAction := mkActionProfileAction {
  set_action : Action;
  weight : Z;
  watch_kind : WatchKind;
}.

(** Reading a [oneof] field that is not set yields the default. *)
Definition watch_port (a : ActionProfileAction) : str :=
  match watch_kind a with kWatchPort p => p | _ => [] end.

(** The message and the [oneof] in it: [ACTION_ABSENT] when there is no message. *)
Inductive TableAction :=
  | ACTION_ABSENT
  | kAction (action : Action)
  | kActionProfileMemberId (id : Z)
  | kActionProfileGroupId (id : Z)
  | kActionProfileActionSet (actions : list ActionProfileAction)
  | TABLE_ACTION_NOT_SET.

(** Fields that the code does not read are kept uninterpreted in the [..._rest] of a message. *)
Record MeterConfig := mkMeterConfig { cir : Z; cburst : Z; pir : Z; pburst : Z; meter_rest : str }.
Record CounterData := mkCounterData { byte_count : Z; packet_count : Z }.

(** [MeterCounterData] is only copied and is kept serialized, and so is the duration
    [time_since_last_hit]. *)
Record TableEntry := mkTableEntry {
  table_id : Z;
  priority : Z;
  match_ : list FieldMatch;
  action : TableAction;
  metadata : str;
  meter_config : option MeterConfig;
  counter_data : option CounterData;
  meter_counter_data : option str;
  controller_metadata : Z;
  is_default_action : bool;
  idle_timeout_ns : Z;
  time_since_last_hit : option str;
  entry_rest : str;
}.

(** An entry with a key and an action, and nothing else. *)
Definition plain_entry (table_id priority : Z) (match_ : list FieldMatch) (action : TableAction)
  : TableEntry :=
  mkTableEntry table_id priority match_ action [] None None None 0 false 0 None [].

Definition set_counter_data (counters : CounterData) (t : TableEntry) : TableEntry :=
  mkTableEntry (table_id t) (priority t) (match_ t) (action t) (metadata t) (meter_config t) (Some counters)
    (meter_counter_data t) (controller_metadata t) (is_default_action t) (idle_timeout_ns t)
    (time_since_last_hit t) (entry_rest t).
Definition set_meter_counter_data (counters : str) (t : TableEntry) : TableEntry :=
  mkTableEntry (table_id t) (priority t) (match_ t) (action t) (metadata t) (meter_config t) (counter_data t)
    (Some counters) (controller_metadata t) (is_default_action t) (idle_timeout_ns t)
    (time_since_last_hit t) (entry_rest t).

Record BackupReplica := mkBackupReplica { backup_port : str; backup_instance : Z }.
Inductive PortKind :=
  | kEgressPort (egress_port : Z)
  | kPort (port : str)
  | PORT_KIND_NOT_SET.
Record Replica := mkReplica {
  port_kind : PortKind;
  instance : Z;
  backup_replicas : list BackupReplica;
}.
Definition port (replica : Replica) : str :=
  match port_kind replica with kPort p => p | _ => [] end.

(** [TypeCase] of a [PacketReplicationEngineEntry], numbered as in the proto. *)
Inductive PacketReplicationEngineEntry :=
  | kMulticastGroupEntry (multicast_group_id : Z) (replicas : list Replica) (metadata : str)
  | kCloneSessionEntry (session_id : Z) (replicas : list Replica)
      (class_of_service packet_length_bytes : Z)
  | PRE_TYPE_NOT_SET.

Definition type_case (e : PacketReplicationEngineEntry) : Z :=
  match e with kMulticastGroupEntry _ _ _ => 1 | kCloneSessionEntry _ _ _ _ => 2 | PRE_TYPE_NOT_SET => 0 end.

Inductive Entity :=
  | kTableEntry (table_entry : TableEntry)
  | kPacketReplicationEngineEntry (entry : PacketReplicationEngineEntry)
  | kOtherEntity (payload : str).

(** * Keys *)

Record TableEntryKey := mkTableEntryKey {
  table_id_ : Z;
  priority_ : Z;
  matches_ : list FieldMatch;
}.

Record PacketReplicationEntryKey := mkPacketReplicationEntryKey {
  replication_type_ : Z;
  id_ : Z;
}.

(** The [std::variant]. *)
Inductive EntityKey :=
  | KeyTableEntry (key : TableEntryKey)
  | KeyPacketReplication (key : PacketReplicationEntryKey).

#[global] Instance TableEntryKey_eq_dec : EqDecision TableEntryKey.
Proof. solve_decision. Defined.
#[global] Instance PacketReplicationEntryKey_eq_dec : EqDecision PacketReplicationEntryKey.
Proof. solve_decision. Defined.
#[global] Instance EntityKey_eq_dec : EqDecision EntityKey.
Proof. solve_decision. Defined.

(** [std::sort] by field id; the order of fields with equal ids, which no valid entry has, is
    unspecified in C++. *)
Definition field_id_le (a b : FieldMatch) : Prop := field_id a ≤ field_id b.
#[global] Instance field_id_le_dec : RelDecision field_id_le.
Proof. intros a b. unfold field_id_le. apply _. Defined.
#[global] Instance field_id_le_total : Total field_id_le.
Proof. intros a b. unfold field_id_le. lia. Qed.
#[global] Instance field_id_le_trans : Transitive field_id_le.
Proof. intros a b c. unfold field_id_le. lia. Qed.

Definition MakeTableEntryKey (entry : TableEntry) : TableEntryKey :=
  mkTableEntryKey (table_id entry) (priority entry) (merge_sort field_id_le (match_ entry)).

Definition MakePacketReplicationEntryKey (entry : PacketReplicationEngineEntry)
  : PacketReplicationEntryKey :=
  mkPacketReplicationEntryKey (type_case entry)
    (match entry with
     | kMulticastGroupEntry multicast_group_id _ _ => multicast_group_id
     | kCloneSessionEntry session_id _ _ _ => session_id
     | PRE_TYPE_NOT_SET => 0
     end).

(** [MakeEntityKey] and the private constructor it calls. *)
Definition MakeEntityKey (entity : Entity) : result EntityKey :=
  match entity with
  | kTableEntry entry => Ok (KeyTableEntry (MakeTableEntryKey entry))
  | kPacketReplicationEngineEntry entry => Ok (KeyPacketReplication (MakePacketReplicationEntryKey entry))
  | kOtherEntity _ => Err kInvalidArgument
  end.

Fixpoint matches_eqb (l k : list FieldMatch) : bool :=
  match l, k with
  | a :: l, b :: k => if negb (bool_decide (a = b)) then false else matches_eqb l k
  | _, _ => true
  end.

Definition TableEntryKey_eqb (key other : TableEntryKey) : bool :=
  if negb (table_id_ key =? table_id_ other) || negb (priority_ key =? priority_ other) ||
     negb (zlen (matches_ key) =? zlen (matches_ other))
  then false else matches_eqb (matches_ key) (matches_ other).

Definition PacketReplicationEntryKey_eqb (key other : PacketReplicationEntryKey) : bool :=
  (replication_type_ key =? replication_type_ other) && (id_ key =? id_ other).

Definition EntityKey_eqb (key other : EntityKey) : bool :=
  match key, other with
  | KeyTableEntry a, KeyTableEntry b => TableEntryKey_eqb a b
  | KeyPacketReplication a, KeyPacketReplication b => PacketReplicationEntryKey_eqb a b
  | _, _ => false
  end.

Section ordering.
(** protobuf's deterministic serialization. *)
Context (DeterministicallySerializeProtoToString : FieldMatch → str).

Fixpoint matches_ltb (l k : list FieldMatch) : bool :=
  match l, k with
  | a :: l, b :: k =>
    if negb (bool_decide (a = b))
    then str_ltb (DeterministicallySerializeProtoToString a)
                 (DeterministicallySerializeProtoToString b)
    else matches_ltb l k
  | _, _ => false
  end.

Definition TableEntryKey_ltb (key other : TableEntryKey) : bool :=
  if negb (table_id_ key =? table_id_ other) then table_id_ key <? table_id_ other
  else if negb (priority_ key =? priority_ other) then priority_ key <? priority_ other
  else if negb (zlen (matches_ key) =? zlen (matches_ other))
  then zlen (matches_ key) <? zlen (matches_ other)
  else matches_ltb (matches_ key) (matches_ other).

Definition PacketReplicationEntryKey_ltb (key other : PacketReplicationEntryKey) : bool :=
  if replication_type_ key =? replication_type_ other then id_ key <? id_ other
  else replication_type_ key <? replication_type_ other.

(** [std::variant::operator<]: by alternative first. *)
Definition EntityKey_ltb (key other : EntityKey) : bool :=
  match key, other with
  | KeyTableEntry a, KeyTableEntry b => TableEntryKey_ltb a b
  | KeyTableEntry _, KeyPacketReplication _ => true
  | KeyPacketReplication _, KeyTableEntry _ => false
  | KeyPacketReplication a, KeyPacketReplication b => PacketReplicationEntryKey_ltb a b
  end.
End ordering.

(** * Keys index finite maps *)

#[global] Instance field_match_type_countable : Countable field_match_type.
Proof.
  refine (inj_countable' (λ t,
    match t with
    | kExact v => inl (inl v)
    | kTernary v m => inl (inr (v, m))
    | kLpm v p => inr (inl (inl (v, p)))
    | kRange l h => inr (inl (inr (l, h)))
    | kOptional v => inr (inr (inl v))
    | kOtherMatch p => inr (inr (inr (Some p)))
    | FIELD_MATCH_TYPE_NOT_SET => inr (inr (inr None))
    end) (λ s,
    match s with
    | inl (inl v) => kExact v
    | inl (inr (v, m)) => kTernary v m
    | inr (inl (inl (v, p))) => kLpm v p
    | inr (inl (inr (l, h))) => kRange l h
    | inr (inr (inl v)) => kOptional v
    | inr (inr (inr (Some p))) => kOtherMatch p
    | inr (inr (inr None)) => FIELD_MATCH_TYPE_NOT_SET
    end) _).
  by intros [].
Defined.

#[global] Instance FieldMatch_countable : Countable FieldMatch.
Proof.
  refine (inj_countable' (λ m, (field_id m, field_match m)) (λ '(i, m), mkFieldMatch i m) _).
  by intros [].
Defined.

#[global] Instance EntityKey_countable : Countable EntityKey.
Proof.
  refine (inj_countable' (λ k,
    match k with
    | KeyTableEntry k => inl (table_id_ k, priority_ k, matches_ k)
    | KeyPacketReplication k => inr (replication_type_ k, id_ k)
    end) (λ s,
    match s with
    | inl (t, p, m) => KeyTableEntry (mkTableEntryKey t p m)
    | inr (t, i) => KeyPacketReplication (mkPacketReplicationEntryKey t i)
    end) _).
  by intros [[]|[]].
Defined.

(** * Equality *)

Lemma matches_eqb_iff l k : length l = length k → matches_eqb l k = true ↔ l = k.
Proof.
  revert k. induction l as [|a l IH]; intros [|b k] Hlen; try done.
  injection Hlen as Hlen. cbn [matches_eqb]. case_bool_decide as Hab; cbn [negb].
  - subst. rewrite IH by done. naive_solver.
  - split; [done|]. congruence.
Qed.

Lemma EntityKey_eqb_iff key other : EntityKey_eqb key other = true ↔ key = other.
Proof.
  destruct key as [[t p m]|[t i]], other as [[t' p' m']|[t' i']]; cbn; try done.
  - unfold TableEntryKey_eqb. cbn.
    destruct (Z.eqb_spec t t'), (Z.eqb_spec p p'), (Z.eqb_spec (zlen m) (zlen m'));
      cbn [negb orb]; try (split; [done | congruence]).
    rewrite matches_eqb_iff by (unfold zlen in *; lia). naive_solver.
  - unfold PacketReplicationEntryKey_eqb. cbn. rewrite andb_true_iff, !Z.eqb_eq. naive_solver.
Qed.

(** With distinct field ids, sorting is canonical. *)
Lemma sorted_unique l k :
  StronglySorted field_id_le l → StronglySorted field_id_le k →
  NoDup (map field_id l) → l ≡ₚ k → l = k.
Proof.
  revert k. induction l as [|a l IH]; intros k Hl Hk Hnd Hp.
  { by apply Permutation_nil_l in Hp. }
  destruct k as [|b k]; [by apply Permutation_nil_r in Hp|].
  apply StronglySorted_inv in Hl as [Hl Ha]. apply StronglySorted_inv in Hk as [Hk Hb].
  rewrite Forall_forall in Ha, Hb.
  assert (a = b) as <-.
  { assert (a ∈ b :: k) as Hak by (rewrite <-Hp; by left).
    assert (b ∈ a :: l) as Hbl by (rewrite Hp; by left).
    apply elem_of_cons in Hak as [?|Hak]; [done|].
    apply elem_of_cons in Hbl as [?|Hbl]; [done|]. exfalso.
    specialize (Ha b Hbl). specialize (Hb a Hak). unfold field_id_le in *.
    cbn [map] in Hnd. apply NoDup_cons in Hnd as [Hnd _]. apply Hnd.
    replace (field_id a) with (field_id b) by lia. by apply list_elem_of_fmap_2. }
  f_equal. apply Permutation_cons_inv in Hp. cbn [map] in Hnd. apply NoDup_cons in Hnd as [_ Hnd].
  by apply IH.
Qed.

(** What identifies an entity.  Two table entries, of which one has pairwise distinct match
    fields, have equal keys exactly when they agree on table, priority and the set of match
    fields, in whatever order these are listed; actions, meters and other data do not matter.
    Packet replication entries have equal keys exactly when type and id agree, and entries of
    different kinds never do.  Only these two kinds have keys. *)
Theorem entity_key_identity (e1 e2 : TableEntry) (p1 p2 : PacketReplicationEngineEntry) (s : str) :
  NoDup (map field_id (match_ e1)) →
  (∃ k1 k2, MakeEntityKey (kTableEntry e1) = Ok k1 ∧ MakeEntityKey (kTableEntry e2) = Ok k2 ∧
     (EntityKey_eqb k1 k2 = true ↔
        table_id e1 = table_id e2 ∧ priority e1 = priority e2 ∧ match_ e1 ≡ₚ match_ e2)) ∧
  (∃ k1 k2, MakeEntityKey (kPacketReplicationEngineEntry p1) = Ok k1 ∧
     MakeEntityKey (kPacketReplicationEngineEntry p2) = Ok k2 ∧
     (EntityKey_eqb k1 k2 = true ↔
        MakePacketReplicationEntryKey p1 = MakePacketReplicationEntryKey p2)) ∧
  (∃ k1 k2, MakeEntityKey (kTableEntry e1) = Ok k1 ∧
     MakeEntityKey (kPacketReplicationEngineEntry p1) = Ok k2 ∧ EntityKey_eqb k1 k2 = false) ∧
  MakeEntityKey (kOtherEntity s) = Err kInvalidArgument.
Proof.
  intros Hnd. cbn [MakeEntityKey]. split_and!; [..|done]; (eexists _, _; split; [done|]; split; [done|]).
  - rewrite EntityKey_eqb_iff. split.
    + intros [= Ht Hp Hm]. split; [done|]. split; [done|].
      by rewrite <-(merge_sort_Permutation field_id_le (match_ e1)), Hm, merge_sort_Permutation.
    + intros (Ht & Hp & Hm). unfold MakeTableEntryKey. rewrite Ht, Hp. do 2 f_equal.
      apply sorted_unique; [apply (StronglySorted_merge_sort field_id_le).. | |].
      * by rewrite (merge_sort_Permutation field_id_le (match_ e1)).
      * by rewrite !merge_sort_Permutation.
  - rewrite EntityKey_eqb_iff. split; congruence.
  - done.
Qed.

Lemma entity_key_identity_witness :
  NoDup (map field_id [mkFieldMatch 1 (kExact $"a"); mkFieldMatch 2 (kOptional $"b")]) ∧
  ∃ k1 k2,
    MakeEntityKey (kTableEntry (plain_entry 7 1
      [mkFieldMatch 1 (kExact $"a"); mkFieldMatch 2 (kOptional $"b")] TABLE_ACTION_NOT_SET)) = Ok k1 ∧
    MakeEntityKey (kTableEntry (plain_entry 7 1
      [mkFieldMatch 2 (kOptional $"b"); mkFieldMatch 1 (kExact $"a")] (kAction (mkAction 1 [(1, $"x")])))) = Ok k2 ∧
    EntityKey_eqb k1 k2 = true.
Proof.
  assert (NoDup (map field_id [mkFieldMatch 1 (kExact $"a"); mkFieldMatch 2 (kOptional $"b")])) as Hnd
    by (apply (bool_decide_unpack _); vm_compute; exact I).
  split; [exact Hnd|].
  destruct (entity_key_identity (plain_entry 7 1
      [mkFieldMatch 1 (kExact $"a"); mkFieldMatch 2 (kOptional $"b")] TABLE_ACTION_NOT_SET)
    (plain_entry 7 1
      [mkFieldMatch 2 (kOptional $"b"); mkFieldMatch 1 (kExact $"a")] (kAction (mkAction 1 [(1, $"x")])))
    PRE_TYPE_NOT_SET PRE_TYPE_NOT_SET [] Hnd) as [(k1 & k2 & H1 & H2 & H3) _].
  exists k1, k2. split; [exact H1|]. split; [exact H2|]. apply H3.
  split; [reflexivity|]. split; [reflexivity|]. apply Permutation_swap.
Defined.

(** * Order *)

Section order_lemmas.
Context (serialize : FieldMatch → str).
Context (serialize_inj : ∀ a b, serialize a = serialize b → a = b).

Lemma matches_ltb_irrefl l : matches_ltb serialize l l = false.
Proof. induction l as [|a l IH]; [done|]. cbn. by rewrite bool_decide_eq_true_2. Qed.

Lemma matches_ltb_trans l k m :
  matches_ltb serialize l k = true → matches_ltb serialize k m = true →
  matches_ltb serialize l m = true.
Proof using serialize_inj.
  revert k m. induction l as [|a l IH]; intros [|b k] [|c m]; try done. cbn [matches_ltb].
  destruct (decide (a = b)) as [->|Hab].
  - rewrite (bool_decide_eq_true_2 (b = b)) by done. cbn [negb].
    case_bool_decide; cbn [negb]; [apply IH | done].
  - rewrite (bool_decide_eq_false_2 (a = b)) by done. cbn [negb]. intros Hlt.
    destruct (decide (b = c)) as [->|Hbc].
    + by rewrite bool_decide_eq_true_2, bool_decide_eq_false_2.
    + rewrite bool_decide_eq_false_2 by done. cbn [negb]. intros Hlt'.
      pose proof (str_ltb_trans _ _ _ Hlt Hlt') as Hac.
      rewrite bool_decide_eq_false_2; [done|]. intros ->. by rewrite str_ltb_irrefl in Hac.
Qed.

Lemma matches_ltb_total l k :
  length l = length k → l ≠ k →
  matches_ltb serialize l k = true ∨ matches_ltb serialize k l = true.
Proof using serialize_inj.
  revert k. induction l as [|a l IH]; intros [|b k] Hlen Hne; try done.
  injection Hlen as Hlen. cbn [matches_ltb]. destruct (decide (a = b)) as [->|Hab].
  - rewrite bool_decide_eq_true_2 by done. cbn [negb]. apply IH; [done | congruence].
  - rewrite !bool_decide_eq_false_2 by done. cbn [negb]. apply str_ltb_total. naive_solver.
Qed.

(** The order on entity keys (used by ordered containers) is a strict total order that agrees
    with key equality: irreflexive, transitive, and of two keys that are not equal one is the
    smaller, given that distinct match fields serialize differently. *)
Theorem entity_key_order (a b c : EntityKey) :
  EntityKey_ltb serialize a a = false ∧
  (EntityKey_ltb serialize a b = true → EntityKey_ltb serialize b c = true →
   EntityKey_ltb serialize a c = true) ∧
  (EntityKey_eqb a b = false →
   EntityKey_ltb serialize a b = true ∨ EntityKey_ltb serialize b a = true).
Proof using serialize_inj.
  split_and!.
  - destruct a as [[t p m]|[t i]]; cbn; unfold TableEntryKey_ltb, PacketReplicationEntryKey_ltb; cbn.
    + rewrite !Z.eqb_refl. apply matches_ltb_irrefl.
    + rewrite Z.eqb_refl. apply Z.ltb_irrefl.
  - destruct a as [[t1 p1 m1]|[t1 i1]], b as [[t2 p2 m2]|[t2 i2]], c as [[t3 p3 m3]|[t3 i3]];
      cbn; try done; unfold TableEntryKey_ltb, PacketReplicationEntryKey_ltb; cbn;
      intros H12 H23; repeat (case_if; bool_prop; try lia); subst; try congruence.
    by apply (matches_ltb_trans _ m2).
  - rewrite <-not_true_iff_false, EntityKey_eqb_iff.
    destruct a as [[t1 p1 m1]|[t1 i1]], b as [[t2 p2 m2]|[t2 i2]]; cbn;
      try (intros _; by auto);
      unfold TableEntryKey_ltb, PacketReplicationEntryKey_ltb; cbn; intros Hne.
    + rewrite (Z.eqb_sym t2), (Z.eqb_sym p2), (Z.eqb_sym (zlen m2)).
      destruct (Z.eqb_spec t1 t2); cbn [negb]; [subst|rewrite !Z.ltb_lt; lia].
      destruct (Z.eqb_spec p1 p2); cbn [negb]; [subst|rewrite !Z.ltb_lt; lia].
      destruct (Z.eqb_spec (zlen m1) (zlen m2)); cbn [negb]; [|rewrite !Z.ltb_lt; lia].
      apply matches_ltb_total; [unfold zlen in *; lia | congruence].
    + rewrite (Z.eqb_sym t2). destruct (Z.eqb_spec t1 t2); rewrite !Z.ltb_lt; [|lia].
      assert (i1 ≠ i2) by congruence. lia.
Qed.
End order_lemmas.

(** An injective serialization, for the example: the position in the enumeration of the type. *)
Definition ref_serialize (m : FieldMatch) : str :=
  replicate (Pos.to_nat (encode m)) zero.

Lemma ref_serialize_inj a b : ref_serialize a = ref_serialize b → a = b.
Proof.
  intros H. apply (f_equal length) in H. unfold ref_serialize in H. rewrite !length_replicate in H.
  apply (inj encode). lia.
Qed.

Lemma entity_key_order_witness :
  EntityKey_ltb ref_serialize (KeyPacketReplication (mkPacketReplicationEntryKey 1 4))
    (KeyPacketReplication (mkPacketReplicationEntryKey 1 4)) = false.
Proof.
  exact (proj1 (entity_key_order ref_serialize ref_serialize_inj
    (KeyPacketReplication (mkPacketReplicationEntryKey 1 4))
    (KeyPacketReplication (mkPacketReplicationEntryKey 1 4))
    (KeyPacketReplication (mkPacketReplicationEntryKey 1 4)))).
Defined.
