(* ===== verification/BuiltIns.v ===== *)
(** p4_infra/p4_pdpi: [built_ins.{h,cc}].  The names, in annotations, of the parts of the P4Runtime
    protocol that are not defined by the P4 program: the multicast group and clone session tables,
    their match fields, actions and parameters. *)
From S2P Require Import Prelude.

(** * ir.proto: the enums; the first constructor stands for any integer that is not listed *)

Inductive IrBuiltInTable :=
  | BUILT_IN_TABLE_UNSPECIFIED
  | BUILT_IN_TABLE_MULTICAST_GROUP_TABLE
  | BUILT_IN_TABLE_CLONE_SESSION_TABLE.

Inductive IrBuiltInMatchField :=
  | BUILT_IN_MATCH_FIELD_UNSPECIFIED
  | BUILT_IN_MATCH_FIELD_MULTICAST_GROUP_ID.

Inductive IrBuiltInAction :=
  | BUILT_IN_ACTION_UNSPECIFIED
  | BUILT_IN_ACTION_REPLICA.

Inductive IrBuiltInParameter :=
  | BUILT_IN_PARAMETER_UNSPECIFIED
  | BUILT_IN_PARAMETER_REPLICA_PORT
  | BUILT_IN_PARAMETER_REPLICA_INSTANCE.

#[global] Instance IrBuiltInTable_eq_dec : EqDecision IrBuiltInTable.
Proof. solve_decision. Defined.
#[global] Instance IrBuiltInMatchField_eq_dec : EqDecision IrBuiltInMatchField.
Proof. solve_decision. Defined.
#[global] Instance IrBuiltInAction_eq_dec : EqDecision IrBuiltInAction.
Proof. solve_decision. Defined.
#[global] Instance IrBuiltInParameter_eq_dec : EqDecision IrBuiltInParameter.
Proof. solve_decision. Defined.

(** * Names *)

Definition kBuiltInPrefix : str := $"builtin::".
Definition kMulticastGroupTableString : str := $"multicast_group_table".
Definition kMulticastGroupIdString : str := $"multicast_group_id".
Definition kReplicaString : str := $"replica".
Definition kReplicaPortString : str := $"replica.port".
Definition kReplicaInstanceString : str := $"replica.instance".
Definition kCloneSessionTableString : str := $"clone_session_table".

Definition GetMulticastGroupTableName : str := kBuiltInPrefix ++ kMulticastGroupTableString.
Definition GetReplicaActionName : str := kBuiltInPrefix ++ kReplicaString.
Definition GetCloneSessionTableName : str := kBuiltInPrefix ++ kCloneSessionTableString.

Definition IrBuiltInTableToString (table : IrBuiltInTable) : result str :=
  match table with
  | BUILT_IN_TABLE_MULTICAST_GROUP_TABLE => Ok GetMulticastGroupTableName
  | BUILT_IN_TABLE_CLONE_SESSION_TABLE => Ok GetCloneSessionTableName
  | BUILT_IN_TABLE_UNSPECIFIED => Err kInvalidArgument
  end.
Definition IrBuiltInMatchFieldToString (field : IrBuiltInMatchField) : result str :=
  match field with
  | BUILT_IN_MATCH_FIELD_MULTICAST_GROUP_ID => Ok kMulticastGroupIdString
  | BUILT_IN_MATCH_FIELD_UNSPECIFIED => Err kInvalidArgument
  end.
Definition IrBuiltInActionToString (action : IrBuiltInAction) : result str :=
  match action with
  | BUILT_IN_ACTION_REPLICA => Ok (kBuiltInPrefix ++ kReplicaString)
  | BUILT_IN_ACTION_UNSPECIFIED => Err kInvalidArgument
  end.
Definition IrBuiltInParameterToString (parameter : IrBuiltInParameter) : result str :=
  match parameter with
  | BUILT_IN_PARAMETER_REPLICA_PORT => Ok kReplicaPortString
  | BUILT_IN_PARAMETER_REPLICA_INSTANCE => Ok kReplicaInstanceString
  | BUILT_IN_PARAMETER_UNSPECIFIED => Err kInvalidArgument
  end.

Definition StringToIrBuiltInTable (table : str) : result IrBuiltInTable :=
  if bool_decide (table = GetMulticastGroupTableName) then Ok BUILT_IN_TABLE_MULTICAST_GROUP_TABLE
  else if bool_decide (table = GetCloneSessionTableName) then Ok BUILT_IN_TABLE_CLONE_SESSION_TABLE
  else Err kInvalidArgument.
Definition StringToIrBuiltInMatchField (field : str) : result IrBuiltInMatchField :=
  if bool_decide (field = kMulticastGroupIdString) then Ok BUILT_IN_MATCH_FIELD_MULTICAST_GROUP_ID
  else Err kInvalidArgument.
Definition StringToIrBuiltInAction (action : str) : result IrBuiltInAction :=
  if bool_decide (action = kBuiltInPrefix ++ kReplicaString) then Ok BUILT_IN_ACTION_REPLICA
  else Err kInvalidArgument.
Definition StringToIrBuiltInParameter (parameter : str) : result IrBuiltInParameter :=
  if bool_decide (parameter = kReplicaPortString) then Ok BUILT_IN_PARAMETER_REPLICA_PORT
  else if bool_decide (parameter = kReplicaInstanceString) then Ok BUILT_IN_PARAMETER_REPLICA_INSTANCE
  else Err kInvalidArgument.

Definition IsBuiltInTable (table_name : str) : bool := is_Ok (StringToIrBuiltInTable table_name).
Definition IsBuiltInAction (action_name : str) : bool := is_Ok (StringToIrBuiltInAction action_name).

Definition BuiltInTableHasMatchField (table : IrBuiltInTable) (field : IrBuiltInMatchField) : bool :=
  match table with
  | BUILT_IN_TABLE_MULTICAST_GROUP_TABLE =>
    bool_decide (field = BUILT_IN_MATCH_FIELD_MULTICAST_GROUP_ID)
  | _ => false
  end.
Definition BuiltInTableHasAction (table : IrBuiltInTable) (action : IrBuiltInAction) : bool :=
  match table with
  | BUILT_IN_TABLE_MULTICAST_GROUP_TABLE => bool_decide (action = BUILT_IN_ACTION_REPLICA)
  | _ => false
  end.
(** The code's only case label is a constant of the table enum whose number, 1, is also that of
    the replica action. *)
Definition BuiltInActionHasParameter (action : IrBuiltInAction) (parameter : IrBuiltInParameter)
  : bool :=
  match action with
  | BUILT_IN_ACTION_REPLICA =>
    bool_decide (parameter = BUILT_IN_PARAMETER_REPLICA_PORT) ||
    bool_decide (parameter = BUILT_IN_PARAMETER_REPLICA_INSTANCE)
  | BUILT_IN_ACTION_UNSPECIFIED => false
  end.
Definition GetBuiltInActionFromBuiltInParameter (parameter : IrBuiltInParameter)
  : result IrBuiltInAction :=
  match parameter with
  | BUILT_IN_PARAMETER_REPLICA_PORT | BUILT_IN_PARAMETER_REPLICA_INSTANCE =>
    Ok BUILT_IN_ACTION_REPLICA
  | BUILT_IN_PARAMETER_UNSPECIFIED => Err kInvalidArgument
  end.

(** * Names and enums convert back and forth *)

Lemma built_in_table_name t s : IrBuiltInTableToString t = Ok s ↔ StringToIrBuiltInTable s = Ok t.
Proof.
  unfold StringToIrBuiltInTable. split.
  - destruct t; intros [= <-]; reflexivity.
  - intros H. repeat case_bool_decide; subst; try discriminate H; injection H as <-; reflexivity.
Qed.

Lemma built_in_match_field_name f s :
  IrBuiltInMatchFieldToString f = Ok s ↔ StringToIrBuiltInMatchField s = Ok f.
Proof.
  unfold StringToIrBuiltInMatchField. split.
  - destruct f; intros [= <-]; reflexivity.
  - intros H. repeat case_bool_decide; subst; try discriminate H; injection H as <-; reflexivity.
Qed.

Lemma built_in_action_name a s :
  IrBuiltInActionToString a = Ok s ↔ StringToIrBuiltInAction s = Ok a.
Proof.
  unfold StringToIrBuiltInAction. split.
  - destruct a; intros [= <-]; reflexivity.
  - intros H. repeat case_bool_decide; subst; try discriminate H; injection H as <-; reflexivity.
Qed.

Lemma built_in_parameter_name p s :
  IrBuiltInParameterToString p = Ok s ↔ StringToIrBuiltInParameter s = Ok p.
Proof.
  unfold StringToIrBuiltInParameter. split.
  - destruct p; intros [= <-]; reflexivity.
  - intros H. repeat case_bool_decide; subst; try discriminate H; injection H as <-; reflexivity.
Qed.
