(* ===== verification/TableReferences.v ===== *)
(** p4_infra/p4_pdpi: [ir.proto] and [reference_annotations.{h,cc}].  What a P4 program says about the
    references between its tables: which fields of a source table must have the value of which match
    fields of a destination table.  The names of tables, actions and fields. *)
From S2P Require Import Prelude BuiltIns.

(** * ir.proto *)

Record IrP4MatchField := mkIrP4MatchField {
  field_name : str;
  p4_field_id : Z;
  is_optional : bool;
}.
Inductive IrMatchField :=
  | P4MatchField (f : IrP4MatchField)
  | BuiltInMatchField (f : IrBuiltInMatchField)
  | MATCH_FIELD_NOT_SET.
Record IrP4ActionField := mkIrP4ActionField {
  action_name : str;
  p4_action_id : Z;
  parameter_name : str;
  parameter_id : Z;
}.
Record IrBuiltInActionField := mkIrBuiltInActionField {
  built_in_action : IrBuiltInAction;
  built_in_parameter : IrBuiltInParameter;
}.
Inductive IrActionField :=
  | P4ActionField (f : IrP4ActionField)
  | BuiltInActionField (f : IrBuiltInActionField)
  | ACTION_FIELD_NOT_SET.
Inductive IrField :=
  | MatchField (f : IrMatchField)
  | ActionField (f : IrActionField)
  | FIELD_NOT_SET.
Inductive IrTable :=
  | P4Table (table_name : str) (table_id : Z)
  | BuiltInTable (table : IrBuiltInTable)
  | TABLE_NOT_SET.
Record FieldReference := mkFieldReference { source : IrField; destination : IrField }.
Record IrTableReference := mkIrTableReference {
  source_table : IrTable;
  destination_table : IrTable;
  field_references : list FieldReference;
}.

(** * reference_annotations.cc: names *)

Definition FieldIsOptional_p4 (f : IrP4MatchField) : bool := is_optional f.

(** Protobuf getters: the sub-message of a [oneof] that is not set is the default one. *)
Definition p4_match_field (f : IrMatchField) : IrP4MatchField :=
  match f with P4MatchField f => f | _ => mkIrP4MatchField [] 0 false end.
Definition match_field (f : IrField) : IrMatchField :=
  match f with MatchField f => f | _ => MATCH_FIELD_NOT_SET end.
Definition action_field (f : IrField) : IrActionField :=
  match f with ActionField f => f | _ => ACTION_FIELD_NOT_SET end.
Definition p4_action_field (f : IrActionField) : IrP4ActionField :=
  match f with P4ActionField f => f | _ => mkIrP4ActionField [] 0 [] 0 end.
Definition built_in_action_field (f : IrActionField) : IrBuiltInActionField :=
  match f with
  | BuiltInActionField f => f
  | _ => mkIrBuiltInActionField BUILT_IN_ACTION_UNSPECIFIED BUILT_IN_PARAMETER_UNSPECIFIED
  end.

Definition FieldIsOptional (f : IrField) : bool :=
  FieldIsOptional_p4 (p4_match_field (match_field f)).

Definition GetNameOfField (f : IrField) : result str :=
  match f with
  | MatchField (P4MatchField f) => Ok (field_name f)
  | MatchField (BuiltInMatchField f) => IrBuiltInMatchFieldToString f
  | MatchField MATCH_FIELD_NOT_SET => Err kInvalidArgument
  | ActionField (P4ActionField f) => Ok (action_name f ++ "."%char :: parameter_name f)
  | ActionField (BuiltInActionField f) => IrBuiltInParameterToString (built_in_parameter f)
  | ActionField ACTION_FIELD_NOT_SET => Err kInvalidArgument
  | FIELD_NOT_SET => Err kInvalidArgument
  end.

Definition GetNameOfAction (f : IrActionField) : result str :=
  match f with
  | P4ActionField f => Ok (action_name f)
  | BuiltInActionField f => IrBuiltInActionToString (built_in_action f)
  | ACTION_FIELD_NOT_SET => Err kInvalidArgument
  end.

Definition GetNameOfTable (t : IrTable) : result str :=
  match t with
  | P4Table name _ => Ok name
  | BuiltInTable t => IrBuiltInTableToString t
  | TABLE_NOT_SET => Err kInvalidArgument
  end.
