(* ===== verification/IrData.v ===== *)
(** p4_infra/p4_pdpi: [ir.proto] and the parts of p4info.proto in it.  The intermediate representation
    of the P4 program ([IrP4Info]) and of its entities, which names tables, fields and actions and
    spells values out in the formats of the program. *)
From S2P Require Import Prelude IrUtils EntityKeys.
From S2P Require BuiltIns TableReferences.

(** * p4info.proto *)

(** [Preamble]: the name in full, the short name that the intermediate representation uses. *)
Record Preamble := mkPreamble { p4_id : Z; p4_name : str; alias : str; p4_annotations : list str }.

(** [MatchField::MatchType]; the last constructor stands for any other number. *)
Inductive MatchType := EXACT | LPM | TERNARY | RANGE | OPTIONAL | MATCH_TYPE_UNSPECIFIED (n : Z).
#[global] Instance MatchType_eq_dec : EqDecision MatchType.
Proof. solve_decision. Defined.

(** [MatchField], [Action::Param] and [ControllerPacketMetadata::Metadata] have these fields in common. *)
Record Element := mkElement {
  element_id : Z;
  element_name : str;
  element_annotations : list str;
  bitwidth : Z;
  type_name : option str;
}.
Record MatchField := mkMatchField { match_element : Element; match_type : MatchType }.

(** [ActionProfile]; [sum_of_members] holds the [max_member_weight] when that selector size semantics
    is set. *)
Record ActionProfile := mkActionProfile {
  profile_preamble : Preamble;
  profile_table_ids : list Z;
  profile_size : Z;
  max_group_size : Z;
  sum_of_members : option Z;
}.
Definition profile_alias (p : ActionProfile) : str := alias (profile_preamble p).

(** * The program *)

(** A reference as [@refers_to] spells it, with the ids it stands for. *)
Record IrMatchFieldReference := mkIrMatchFieldReference {
  referred_table : str;
  referred_field : str;
  referred_table_id : Z;
  referred_field_id : Z;
}.
#[global] Instance IrMatchFieldReference_eq_dec : EqDecision IrMatchFieldReference.
Proof. solve_decision. Defined.

Record IrMatchFieldDefinition := mkIrMatchFieldDefinition {
  match_field : MatchField;
  match_format : Format;
  match_references : list IrMatchFieldReference;
  match_is_unsupported : bool;
}.

Record IrActionParamDefinition := mkIrActionParamDefinition {
  param : Element;
  param_format : Format;
  param_references : list IrMatchFieldReference;
}.
Record IrActionDefinition := mkIrActionDefinition {
  action_preamble : Preamble;
  params_by_id : gmap Z IrActionParamDefinition;
  params_by_name : gmap str IrActionParamDefinition;
  action_is_unsupported : bool;
}.
Record IrActionReference := mkIrActionReference {
  ref_id : Z;
  ref_action : IrActionDefinition;
  proto_id : Z;
}.

(** A meter and a counter are kept as the number of their unit. *)
Record IrTableDefinition := mkIrTableDefinition {
  preamble : Preamble;
  match_fields_by_id : gmap Z IrMatchFieldDefinition;
  match_fields_by_name : gmap str IrMatchFieldDefinition;
  entry_actions : list IrActionReference;
  default_only_actions : list IrActionReference;
  table_size : Z;
  uses_oneshot : bool;
  action_profile_id : option Z;
  requires_priority : bool;
  meter : option Z;
  counter : option Z;
  const_default_action : option IrActionDefinition;
  role : str;
  is_unsupported : bool;
  incoming_references : list TableReferences.IrTableReference;
  outgoing_references : list TableReferences.IrTableReference;
}.
Definition preamble_id (t : IrTableDefinition) : Z := p4_id (preamble t).
Definition preamble_alias (t : IrTableDefinition) : str := alias (preamble t).

Record IrPacketIoMetadataDefinition := mkIrPacketIoMetadataDefinition {
  metadata_element : Element;
  metadata_format : Format;
  is_padding : bool;
}.

Record IrBuiltInTableDefinition := mkIrBuiltInTableDefinition {
  built_in_table : BuiltIns.IrBuiltInTable;
  built_in_incoming : list TableReferences.IrTableReference;
  built_in_outgoing : list TableReferences.IrTableReference;
}.

(** [references] is the deprecated list of references of match fields and parameters; a table depends on
    those of higher rank. *)
Record IrP4Info := mkIrP4Info {
  tables_by_id : gmap Z IrTableDefinition;
  tables_by_name : gmap str IrTableDefinition;
  actions_by_id : gmap Z IrActionDefinition;
  actions_by_name : gmap str IrActionDefinition;
  action_profiles_by_id : gmap Z ActionProfile;
  action_profiles_by_name : gmap str ActionProfile;
  packet_in_metadata_by_id : gmap Z IrPacketIoMetadataDefinition;
  packet_in_metadata_by_name : gmap str IrPacketIoMetadataDefinition;
  packet_out_metadata_by_id : gmap Z IrPacketIoMetadataDefinition;
  packet_out_metadata_by_name : gmap str IrPacketIoMetadataDefinition;
  references : list IrMatchFieldReference;
  built_in_tables : gmap str IrBuiltInTableDefinition;
  dependency_rank_by_table_name : gmap str Z;
}.

(** * Entities *)

Module Ir.
Inductive MatchValue :=
  | kExact (v : IrValue)
  | kLpm (value : IrValue) (prefix_length : Z)
  | kTernary (value mask : IrValue)
  | kOptional (v : IrValue)
  | MATCH_VALUE_NOT_SET.
Record Match := mkMatch { match_name : str; match_value : MatchValue }.
Record ActionInvocation := mkAction { action_name : str; params : list (str * IrValue) }.
Record ActionSetInvocation := mkInvocation { action_ : ActionInvocation; weight_ : Z; watch_port : str }.
Inductive EntryAction :=
  | kAction (a : ActionInvocation)
  | kActionSet (actions : list ActionSetInvocation)
  | kNoAction.
Record TableEntry := mkEntry {
  table_name : str;
  matches : list Match;
  entry_priority : Z;
  entry_action : EntryAction;
  entry_meter_config : option MeterConfig;
  entry_counter_data : option CounterData;
  entry_meter_counter_data : option str;
  entry_controller_metadata : str;
}.

Record BackupReplica := mkBackup { backup_port : str; backup_instance : Z }.
Record Replica := mkReplica { replica_port : str; replica_instance : Z; backup_replicas : list BackupReplica }.
Record MulticastGroupEntry := mkMulticast { group_id : Z; replicas : list Replica; group_metadata : str }.
Record CloneSessionEntry := mkCloneSession {
  session_id : Z;
  session_replicas : list Replica;
  class_of_service : Z;
  packet_length_bytes : Z;
}.
Inductive PacketReplicationEngineEntry :=
  | kMulticastGroupEntry (entry : MulticastGroupEntry)
  | kCloneSessionEntry (entry : CloneSessionEntry)
  | PRE_TYPE_NOT_SET.

(** [IrPacketIn] and [IrPacketOut]. *)
Record Packet := mkPacket { payload : str; packet_metadata : list (str * IrValue) }.
End Ir.

Abbreviation IrTableEntry := Ir.TableEntry.
Abbreviation table_name := Ir.table_name.

(** [action_set().actions()]: empty when another action, or none, is set. *)
Definition action_set (entry : IrTableEntry) : list Ir.ActionSetInvocation :=
  match Ir.entry_action entry with Ir.kActionSet actions => actions | _ => [] end.

Inductive IrEntity :=
  | IrTable (table_entry : IrTableEntry)
  | IrPacketReplicationEngine (entry : Ir.PacketReplicationEngineEntry)
  | ENTITY_NOT_SET.

(** [p4::v1::Update::Type], an open enum. *)
Inductive UpdateType := INSERT | MODIFY | DELETE | UPDATE_UNSPECIFIED (n : Z).

#[global] Instance UpdateType_eq_dec : EqDecision UpdateType.
Proof. solve_decision. Defined.

(** * Examples *)

Definition named (id : Z) (name : str) : Preamble := mkPreamble id name name [].
Definition element (id : Z) (name : str) (bitwidth : Z) : Element := mkElement id name [] bitwidth None.

(** A table with the role [role] and the action profile [profile], if any, without match fields. *)
Definition plain_table (id : Z) (name role : str) (actions : list IrActionReference)
  (profile : option Z) (priority : bool) : IrTableDefinition :=
  mkIrTableDefinition (named id name) ∅ ∅ actions [] 0 (bool_decide (is_Some profile)) profile priority
    None None None role false [] [].

(** An action without parameters. *)
Definition plain_action (id : Z) (name : str) : IrActionDefinition :=
  mkIrActionDefinition (named id name) ∅ ∅ false.

(** The program with one table and the actions and profiles it uses. *)
Definition one_table (table : IrTableDefinition) (actions : list IrActionDefinition)
  (profiles : list ActionProfile) : IrP4Info :=
  mkIrP4Info {[ preamble_id table := table ]} {[ preamble_alias table := table ]}
    (list_to_map (map (λ a, (p4_id (action_preamble a), a)) actions))
    (list_to_map (map (λ a, (alias (action_preamble a), a)) actions))
    (list_to_map (map (λ p, (p4_id (profile_preamble p), p)) profiles))
    (list_to_map (map (λ p, (profile_alias p, p)) profiles)) ∅ ∅ ∅ ∅ [] ∅ ∅.
