(* ===== verification/Annotations.v ===== *)
(** p4_infra/p4_pdpi: [annotation_parser.{h,cc}].  P4 annotations such as @refers_to(table, field)
    are split into a label and a body, and a body into its arguments.  The parser accepts exactly a
    grammar, and the argument splitter computes a normal form. *)
From S2P Require Import Prelude Abseil.

(** * Definitions *)

Definition IsWhitespace (c : ascii) : bool :=
  bool_decide (c = " "%char) || bool_decide (c = "009"%char) ||
  bool_decide (c = "010"%char) || bool_decide (c = "013"%char).

Record AnnotationComponents := mkAnnotation { label : str; body : str }.

(** The loops that advance an iterator over whitespace and over the label. *)
Fixpoint skip_whitespace (s : str) : str :=
  match s with
  | c :: rest => if IsWhitespace c then skip_whitespace rest else s
  | [] => []
  end.

Definition label_char (c : ascii) : bool :=
  negb (IsWhitespace c) && negb (bool_decide (c = "("%char)) && negb (bool_decide (c = ")"%char)).

Fixpoint take_label (s : str) : str * str :=
  match s with
  | c :: rest => if label_char c then let '(l, r) := take_label rest in (c :: l, r) else ([], s)
  | [] => ([], [])
  end.

(** The loop from the back of the body, on the reversed body: it stops at the first character. *)
Fixpoint skip_back (s : str) : str :=
  match s with
  | c :: ((_ :: _) as rest) => if IsWhitespace c then skip_back rest else s
  | _ => s
  end.

(** With an empty body the iterator of the code is at the opening parenthesis. *)
Definition ParseAnnotation (annotation : str) : result AnnotationComponents :=
  match skip_whitespace annotation with
  | c :: rest =>
    if negb (bool_decide (c = "@"%char)) then Err kInvalidArgument else
    let '(label, rest) := take_label rest in
    if bool_decide (label = []) then Err kInvalidArgument else
    match skip_whitespace rest with
    | [] => Ok (mkAnnotation label [])
    | c :: body =>
      if negb (bool_decide (c = "("%char)) then Err kInvalidArgument else
      match skip_back (rev body) with
      | c :: body =>
        if negb (bool_decide (c = ")"%char)) then Err kInvalidArgument
        else Ok (mkAnnotation label (rev body))
      | [] => Err kInvalidArgument
      end
    end
  | [] => Err kInvalidArgument
  end.

Definition top_is (c : ascii) (scope : list ascii) : bool :=
  match scope with top :: _ => bool_decide (c = top) | [] => false end.

(** The [switch]: a new scope, an error, a skipped character or any other character. *)
Inductive CharClass := Opens (closing : ascii) | Closes | Skipped | Plain.

Definition classify (c : ascii) : CharClass :=
  if bool_decide (c = "("%char) then Opens ")"%char
  else if bool_decide (c = "["%char) then Opens "]"%char
  else if bool_decide (c = "{"%char) then Opens "}"%char
  else if bool_decide (c = "034"%char) then Opens "034"%char
  else if IsWhitespace c then Skipped
  else if bool_decide (c = ")"%char) || bool_decide (c = "]"%char) || bool_decide (c = "}"%char)
  then Closes else Plain.

Fixpoint arg_loop (value : str) (scope : list ascii) (token : str) (tokens : list str)
  : result (list str) :=
  match value with
  | [] =>
    if negb (bool_decide (scope = [])) then Err kInvalidArgument
    else if bool_decide (tokens = []) && bool_decide (token = []) then Ok tokens
    else Ok (tokens ++ [token])
  | c :: value =>
    if bool_decide (scope = []) && bool_decide (c = ","%char)
    then arg_loop value scope [] (tokens ++ [token])
    else if top_is c scope then arg_loop value (tail scope) (token ++ [c]) tokens
    else if negb (top_is "034"%char scope) then
      match classify c with
      | Opens closing => arg_loop value (closing :: scope) (token ++ [c]) tokens
      | Skipped => arg_loop value scope token tokens
      | Closes => Err kInvalidArgument
      | Plain => arg_loop value scope (token ++ [c]) tokens
      end
    else arg_loop value scope (token ++ [c]) tokens
  end.

Definition ParseAsArgList (value : str) : result (list str) := arg_loop value [] [] [].

Section parsers.
Context {T : Type} (parser : str → result T).

Fixpoint GetAllParsedAnnotations (label_ : str) (annotations : list str) : result (list T) :=
  match annotations with
  | [] => Ok []
  | annotation :: annotations =>
    match ParseAnnotation annotation with
    | Ok parsed_annotation =>
      if bool_decide (label parsed_annotation = label_) then
        value ← parser (body parsed_annotation);
        values ← GetAllParsedAnnotations label_ annotations;
        Ok (value :: values)
      else GetAllParsedAnnotations label_ annotations
    | _ => GetAllParsedAnnotations label_ annotations
    end
  end.

Definition GetParsedAnnotation (label_ : str) (annotations : list str) : result T :=
  values ← GetAllParsedAnnotations label_ annotations;
  match values with
  | [] => Err kNotFound
  | [value] => Ok value
  | _ => Err kInvalidArgument
  end.
End parsers.

Definition GetAllAnnotations (annotations : list str) : list AnnotationComponents :=
  omap (λ a, match ParseAnnotation a with Ok c => Some c | _ => None end) annotations.
Definition GetAnnotationAsArgList : str → list str → result (list str) :=
  GetParsedAnnotation ParseAsArgList.
Definition GetAllAnnotationsAsArgList : str → list str → result (list (list str)) :=
  GetAllParsedAnnotations ParseAsArgList.
Definition GetAnnotationBody : str → list str → result str := GetParsedAnnotation Ok.
Definition GetAllAnnotationBodies : str → list str → result (list str) := GetAllParsedAnnotations Ok.

(** * The grammar of annotations *)

Definition whitespace (w : str) : Prop := Forall (λ c, IsWhitespace c = true) w.

(** What an annotation looks like: a label, and possibly a body in parentheses. *)
Inductive annotation_text (l : str) : str → str → Prop :=
  | label_only w1 w2 :
      whitespace w1 → whitespace w2 →
      annotation_text l [] (w1 ++ "@"%char :: l ++ w2)
  | label_and_body b w1 w2 w3 :
      whitespace w1 → whitespace w2 → whitespace w3 →
      annotation_text l b (w1 ++ "@"%char :: l ++ w2 ++ "("%char :: b ++ ")"%char :: w3).

Lemma whitespace_nil : whitespace [].
Proof. constructor. Qed.
Lemma whitespace_cons c w : IsWhitespace c = true → whitespace w → whitespace (c :: w).
Proof. by constructor. Qed.
#[local] Hint Resolve whitespace_nil whitespace_cons : core.

Lemma skip_whitespace_split s :
  ∃ w, s = w ++ skip_whitespace s ∧ whitespace w ∧
    match skip_whitespace s with c :: _ => IsWhitespace c = false | [] => True end.
Proof.
  induction s as [|c s (w & Hs & Hw & Hc)]; [by exists []; auto|]. cbn [skip_whitespace].
  destruct (IsWhitespace c) eqn:Hws.
  - exists (c :: w). cbn [app]. rewrite <-Hs. auto.
  - exists []. auto.
Qed.

Lemma skip_whitespace_app w s :
  whitespace w → match s with c :: _ => IsWhitespace c = false | [] => True end →
  skip_whitespace (w ++ s) = s.
Proof.
  intros Hw Hs. induction Hw as [|c w Hc _ IH]; cbn [app skip_whitespace].
  - destruct s as [|c s]; [done|]. cbn [skip_whitespace]. by rewrite Hs.
  - by rewrite Hc.
Qed.

Lemma take_label_split s :
  s = fst (take_label s) ++ snd (take_label s) ∧ Forall (λ c, label_char c = true) (fst (take_label s)) ∧
  match snd (take_label s) with c :: _ => label_char c = false | [] => True end.
Proof.
  induction s as [|c s IH]; [done|]. cbn [take_label]. destruct (label_char c) eqn:Hc; [|done].
  destruct (take_label s) as [l r]. cbn [fst snd app] in *. destruct IH as (-> & Hl & Hr).
  repeat split; auto.
Qed.

Lemma take_label_app l s :
  Forall (λ c, label_char c = true) l →
  match s with c :: _ => label_char c = false | [] => True end → take_label (l ++ s) = (l, s).
Proof.
  intros Hl Hs. induction Hl as [|c l Hc _ IH]; cbn [app take_label].
  - destruct s as [|c s]; [done|]. cbn [take_label]. by rewrite Hs.
  - by rewrite Hc, IH.
Qed.

Lemma skip_back_split s c r :
  skip_back s = c :: r → ∃ w, s = w ++ c :: r ∧ whitespace w.
Proof.
  induction s as [|d s IH]; [done|]. cbn [skip_back]. intros H.
  destruct s as [|e s].
  - injection H as -> <-. exists []. auto.
  - destruct (IsWhitespace d) eqn:Hd.
    + destruct (IH H) as (w & -> & Hw). exists (d :: w). auto.
    + injection H as -> <-. exists []. auto.
Qed.

Lemma skip_back_app w c r : whitespace w → IsWhitespace c = false → skip_back (w ++ c :: r) = c :: r.
Proof.
  intros Hw Hc. induction Hw as [|d w Hd _ IH]; cbn [app].
  - cbn [skip_back]. rewrite Hc. by destruct r.
  - remember (w ++ c :: r) as s eqn:Hs. destruct s as [|a s]; [by destruct w|].
    change (skip_back (d :: a :: s)) with (if IsWhitespace d then skip_back (a :: s) else d :: a :: s).
    by rewrite Hd.
Qed.

Lemma whitespace_rev w : whitespace w → whitespace (rev w).
Proof. intros Hw. by apply List.Forall_rev. Qed.

Lemma ParseAnnotation_sound annotation l b :
  ParseAnnotation annotation = Ok (mkAnnotation l b) →
  l ≠ [] ∧ Forall (λ c, label_char c = true) l ∧ annotation_text l b annotation.
Proof.
  unfold ParseAnnotation. destruct (skip_whitespace_split annotation) as (w1 & Ha & Hw1 & _).
  destruct (skip_whitespace annotation) as [|c rest]; [done|].
  destruct (bool_decide_reflect (c = "@"%char)) as [->|]; cbn [negb]; [|done].
  pose proof (take_label_split rest) as (Hr & Hl & Hstop).
  destruct (take_label rest) as [l' rest']. cbn [fst snd] in *. subst rest.
  case_bool_decide as Hne; [done|].
  destruct (skip_whitespace_split rest') as (w2 & Hr' & Hw2 & _).
  destruct (skip_whitespace rest') as [|c body].
  - intros [= <- <-]. rewrite app_nil_r in Hr'. subst rest'. rewrite Ha. by repeat split; [..|constructor].
  - destruct (bool_decide_reflect (c = "("%char)) as [->|]; cbn [negb]; [|done].
    destruct (skip_back (rev body)) as [|c b'] eqn:Hb; [done|].
    destruct (bool_decide_reflect (c = ")"%char)) as [->|]; cbn [negb]; [|done].
    intros [= <- <-]. apply skip_back_split in Hb as (w3 & Hb & Hw3).
    rewrite <-(rev_involutive body), Hb, rev_app_distr in Hr'. cbn [rev] in Hr'.
    rewrite <-app_assoc in Hr'. cbn [app] in Hr'. rewrite Ha, Hr'.
    repeat split; [done..|]. apply label_and_body; auto using whitespace_rev.
Qed.

Lemma ParseAnnotation_complete annotation l b :
  l ≠ [] → Forall (λ c, label_char c = true) l → annotation_text l b annotation →
  ParseAnnotation annotation = Ok (mkAnnotation l b).
Proof.
  intros Hne Hl Ht.
  assert (∀ w1 s, whitespace w1 → ParseAnnotation (w1 ++ "@"%char :: s) =
    ParseAnnotation ("@"%char :: s)) as Hskip.
  { intros w1 s Hw. unfold ParseAnnotation. by rewrite skip_whitespace_app by done. }
  destruct Ht as [w1 w2 Hw1 Hw2|b w1 w2 w3 Hw1 Hw2 Hw3]; rewrite Hskip by done;
    unfold ParseAnnotation; cbn [skip_whitespace]; change (IsWhitespace "@") with false; cbv iota;
    change (negb (bool_decide ("@"%char = "@"%char))) with false; cbv iota.
  - rewrite take_label_app; [|done|].
    2: { destruct Hw2 as [|c w2 Hc _]; [done|]. unfold label_char. by rewrite Hc. }
    rewrite bool_decide_eq_false_2 by done.
    rewrite <-(app_nil_r w2), skip_whitespace_app by done. done.
  - rewrite take_label_app; [|done|].
    2: { destruct Hw2 as [|c w2 Hc _]; [done|]. unfold label_char. cbn [app]. by rewrite Hc. }
    rewrite bool_decide_eq_false_2 by done. rewrite skip_whitespace_app by done.
    change (negb (bool_decide ("("%char = "("%char))) with false. cbv iota.
    rewrite rev_app_distr. cbn [rev]. rewrite <-app_assoc. cbn [app].
    rewrite skip_back_app by (done || by apply whitespace_rev).
    change (negb (bool_decide (")"%char = ")"%char))) with false. cbv iota. by rewrite rev_involutive.
Qed.

(** The format as it is documented: blanks are spaces and tabs. *)
Definition blanks (w : str) : Prop := Forall (λ c, c = " "%char ∨ c = "009"%char) w.
Definition label_text (l : str) : Prop :=
  l ≠ [] ∧ Forall (λ c, c ≠ " "%char ∧ c ≠ "009"%char ∧ c ≠ "("%char ∧ c ≠ ")"%char) l.
Inductive documented_annotation (l : str) : str → str → Prop :=
  | only_label w1 w2 : blanks w1 → blanks w2 → documented_annotation l [] (w1 ++ "@"%char :: l ++ w2)
  | with_body b w1 w2 w3 : blanks w1 → blanks w2 → blanks w3 →
      documented_annotation l b (w1 ++ "@"%char :: l ++ w2 ++ "("%char :: b ++ ")"%char :: w3).
Definition one_line (s : str) : Prop := ("010"%char ∉ s) ∧ ("013"%char ∉ s).

Lemma IsWhitespace_spec c :
  IsWhitespace c = true ↔ c = " "%char ∨ c = "009"%char ∨ c = "010"%char ∨ c = "013"%char.
Proof. unfold IsWhitespace. rewrite !orb_true_iff, !bool_decide_eq_true. tauto. Qed.
Lemma one_line_app s t : one_line (s ++ t) ↔ one_line s ∧ one_line t.
Proof. unfold one_line. rewrite !not_elem_of_app. tauto. Qed.
Lemma one_line_cons c s : one_line (c :: s) ↔ (c ≠ "010"%char ∧ c ≠ "013"%char) ∧ one_line s.
Proof. unfold one_line. rewrite !not_elem_of_cons. naive_solver. Qed.

Lemma one_line_whitespace w : one_line w → whitespace w ↔ blanks w.
Proof.
  intros Hw. unfold whitespace, blanks. rewrite !Forall_forall. setoid_rewrite IsWhitespace_spec.
  split; intros Hall c Hin; specialize (Hall c Hin); [|tauto]. destruct Hw. destruct Hall as [?|[?|[->| ->]]]; tauto.
Qed.
Lemma one_line_label l : one_line l → Forall (λ c, label_char c = true) l ↔
  Forall (λ c, c ≠ " "%char ∧ c ≠ "009"%char ∧ c ≠ "("%char ∧ c ≠ ")"%char) l.
Proof.
  intros [Hlf Hcr]. rewrite !Forall_forall.
  assert (∀ c, c ∈ l → label_char c = true ↔ (c ≠ " "%char ∧ c ≠ "009"%char ∧ c ≠ "("%char ∧ c ≠ ")"%char)) as Hc.
  { intros c Hin. unfold label_char.
    rewrite !andb_true_iff, !negb_true_iff, !bool_decide_eq_false, <-not_true_iff_false, IsWhitespace_spec.
    assert (c ≠ "010"%char ∧ c ≠ "013"%char) by (split; intros ->; tauto). tauto. }
  split; intros Hall c Hin; apply Hc; auto.
Qed.

Lemma one_line_annotation annotation l b : one_line annotation →
  (l ≠ [] ∧ Forall (λ c, label_char c = true) l ∧ annotation_text l b annotation) ↔
  (label_text l ∧ documented_annotation l b annotation).
Proof.
  intros Hone. split.
  - intros (Hne & Hl & Ht). destruct Ht as [w1 w2 Hw1 Hw2|b w1 w2 w3 Hw1 Hw2 Hw3];
      repeat first [rewrite one_line_app in Hone|rewrite one_line_cons in Hone]; destruct_and!;
      (split; [split; [done|]; by apply one_line_label|constructor; by apply one_line_whitespace]).
  - intros ([Hne Hl] & Ht). destruct Ht as [w1 w2 Hw1 Hw2|b w1 w2 w3 Hw1 Hw2 Hw3];
      repeat first [rewrite one_line_app in Hone|rewrite one_line_cons in Hone]; destruct_and!;
      (split; [done|]; split; [by apply one_line_label|constructor; by apply one_line_whitespace]).
Qed.

(** C40.  On a text without line feeds and carriage returns the annotation parser accepts exactly the documented
    format: optional spaces and tabs, an at sign, a non-empty label without blanks and parentheses, and
    either nothing or a body in parentheses, with blanks around each part; it returns the label and the body, an
    empty body if there is none.  Everything else, on every text, is INVALID_ARGUMENT.  (Line feeds and carriage
    returns are undocumented; the code takes them as blanks.) *)
Theorem annotation_grammar (annotation l b : str) :
  (one_line annotation →
   (ParseAnnotation annotation = Ok (mkAnnotation l b) ↔ label_text l ∧ documented_annotation l b annotation)) ∧
  (∀ e, ParseAnnotation annotation = Err e → e = kInvalidArgument) ∧
  ParseAnnotation annotation ≠ Die.
Proof.
  split.
  - intros Hone. rewrite <-one_line_annotation by done.
    split; [apply ParseAnnotation_sound | intros (? & ? & ?); by apply ParseAnnotation_complete].
  - unfold ParseAnnotation. destruct (skip_whitespace annotation) as [|c rest];
      split; try intros e; repeat (case_if || case_match); congruence.
Qed.

(** Everything the body may contain: nested parentheses, commas and quotes. *)
Lemma annotation_grammar_witness :
  ParseAnnotation $"  @refers_to ( t, f(x) ) " = Ok (mkAnnotation $"refers_to" $" t, f(x) ").
Proof.
  destruct (annotation_grammar $"  @refers_to ( t, f(x) ) " $"refers_to" $" t, f(x) ") as [Hiff _].
  apply Hiff.
  - split; apply (bool_decide_unpack _); vm_compute; exact I.
  - split; [split; [discriminate|repeat constructor; discriminate]|].
    apply (with_body $"refers_to" $" t, f(x) " $"  " $" " $" "); repeat constructor.
Defined.

(** A line feed is taken as a blank too. *)
Example line_feed_is_blank : ParseAnnotation ("010"%char :: $"@oneshot") = Ok (mkAnnotation $"oneshot" []).
Proof. reflexivity. Qed.

(** * The grammar of arguments *)

Definition closing_of (o c : ascii) : Prop := classify o = Opens c ∧ c ≠ "034"%char.

(** Text without unquoted whitespace in which brackets are nested and quoted strings closed; a comma
    is allowed inside brackets. *)
Inductive text (nested : bool) : str → Prop :=
  | text_nil : text nested []
  | text_plain t c :
      text nested t → classify c = Plain → (nested = false → c ≠ ","%char) → text nested (t ++ [c])
  | text_group t o u c :
      text nested t → closing_of o c → text true u → text nested (t ++ o :: u ++ [c])
  | text_string t u :
      text nested t → "034"%char ∉ u → text nested (t ++ "034"%char :: u ++ ["034"%char]).

Definition argument (t : str) : Prop := text false t.

(** What has been read of an argument when the brackets [scope] are open: the innermost one is the
    first. *)
Inductive partial : list ascii → str → Prop :=
  | partial_closed t : text false t → partial [] t
  | partial_group scope p o c u :
      partial scope p → top_is "034"%char scope = false → closing_of o c → text true u →
      partial (c :: scope) (p ++ o :: u)
  | partial_string scope p u :
      partial scope p → top_is "034"%char scope = false → "034"%char ∉ u →
      partial ("034"%char :: scope) (p ++ "034"%char :: u).

Lemma classify_opens c closing :
  classify c = Opens closing →
  (closing = "034"%char ∧ c = "034"%char) ∨ closing_of c closing.
Proof.
  intros H. destruct (decide (closing = "034"%char)) as [->|]; [left|right; done].
  unfold classify in H. repeat case_bool_decide; subst; try discriminate H; auto; by repeat case_if.
Qed.

Lemma closing_closes o c : closing_of o c → classify c = Closes ∧ c ≠ ","%char.
Proof.
  intros [H Hc]. unfold classify in H.
  repeat case_bool_decide; subst; try discriminate H; try (injection H as <-; done);
    repeat case_if; discriminate H.
Qed.

Lemma closing_not_plain o c : closing_of o c → classify c ≠ Plain.
Proof. intros H%closing_closes. destruct H as [-> _]. done. Qed.

(** Reading a closed bracket adds to the text that encloses it. *)
Lemma partial_add scope p v :
  partial scope p → top_is "034"%char scope = false →
  (∀ nested t, text nested t → text nested (t ++ v)) → partial scope (p ++ v).
Proof.
  intros Hp Ht Hv. destruct Hp as [t Htext|scope p o c u Hp Ht' Ho Hu|scope p u Hp Ht' Hu].
  - constructor. auto.
  - rewrite <-app_assoc. cbn [app]. constructor; auto.
  - cbn [top_is] in Ht. by rewrite bool_decide_eq_true_2 in Ht.
Qed.

Lemma partial_plain scope p c :
  partial scope p → top_is "034"%char scope = false → classify c = Plain →
  (scope = [] → c ≠ ","%char) → partial scope (p ++ [c]).
Proof.
  intros Hp Ht Hc Hcomma. destruct Hp as [t Htext|scope p o c' u Hp Ht' Ho Hu|scope p u Hp Ht' Hu].
  - constructor. constructor; auto.
  - rewrite <-app_assoc. cbn [app]. constructor; auto. by constructor.
  - cbn [top_is] in Ht. by rewrite bool_decide_eq_true_2 in Ht.
Qed.

Lemma partial_close c scope p : partial (c :: scope) p → partial scope (p ++ [c]).
Proof.
  intros Hp. inversion Hp as [|scope' p' o c' u Hp' Ht Ho Hu|scope' p' u Hp' Ht Hu]; subst.
  - rewrite <-app_assoc. cbn [app]. apply partial_add; auto. intros. by constructor.
  - rewrite <-app_assoc. cbn [app]. apply partial_add; auto. intros. by constructor.
Qed.

Lemma arg_loop_sound value scope token tokens args :
  arg_loop value scope token tokens = Ok args → partial scope token → Forall argument tokens →
  Forall argument args ∧ args ≠ [[]].
Proof.
  revert scope token tokens. induction value as [|c value IH]; intros scope token tokens H Hp Ht.
  - cbn [arg_loop] in H. destruct scope as [|top scope]; [|done].
    change (negb (bool_decide (@nil ascii = []))) with false in H. cbv iota in H.
    assert (argument token) as Htok by (inversion Hp; done).
    destruct (bool_decide (tokens = []) && bool_decide (token = [])) eqn:He.
    + bool_prop. injection H as <-. subst. done.
    + injection H as <-. split.
      * apply Forall_app. split; [done|]. by apply Forall_singleton.
      * intros Heq. apply andb_false_iff in He.
        destruct tokens as [|x [|y tokens]]; [|done|done]. injection Heq as ->.
        destruct He as [He|He]; by rewrite bool_decide_eq_true_2 in He.
  - cbn [arg_loop] in H.
    destruct (bool_decide (scope = []) && bool_decide (c = ","%char)) eqn:Hcomma.
    { bool_prop. subst. apply IH in H; auto.
      - constructor. constructor.
      - apply Forall_app. split; [done|]. apply Forall_singleton. by inversion Hp. }
    destruct (top_is c scope) eqn:Htop.
    { destruct scope as [|top scope]; [done|]. apply bool_decide_eq_true in Htop as ->.
      apply IH in H; auto. by apply partial_close. }
    destruct (negb (top_is "034"%char scope)) eqn:Hq.
    + apply negb_true_iff in Hq. destruct (classify c) as [closing| | |] eqn:Hc; try done.
      * apply IH in H; auto. apply classify_opens in Hc as [[-> ->]|Ho].
        -- apply (partial_string scope token []); auto. apply not_elem_of_nil.
        -- apply (partial_group scope token c closing []); auto. constructor.
      * by apply IH in H.
      * apply IH in H; auto. apply partial_plain; auto. intros ->.
        destruct (decide (c = ","%char)) as [->|]; [|done]. done.
    + apply negb_false_iff in Hq. apply IH in H; auto.
      inversion Hp as [|scope' p' o c' u Hp' Ht' Ho Hu|scope' p' u Hp' Ht' Hu]; subst; [done| |].
      * destruct Ho as [_ Hne]. apply bool_decide_eq_true in Hq. congruence.
      * rewrite <-app_assoc. cbn [app]. apply partial_string; auto.
        apply not_elem_of_app. split; [done|]. intros <-%list_elem_of_singleton.
        cbn [top_is] in Htop. by rewrite bool_decide_eq_true_2 in Htop.
Qed.

(** The brackets that are open, outside of a string. *)
Definition brackets (scope : list ascii) : Prop :=
  match scope with top :: _ => classify top = Closes | [] => True end.

Lemma brackets_top scope c : brackets scope → classify c ≠ Closes → top_is c scope = false.
Proof.
  destruct scope as [|top scope]; [done|]. cbn. intros H Hc. apply bool_decide_eq_false_2. congruence.
Qed.

Lemma arg_loop_quoted u rest scope token tokens :
  "034"%char ∉ u →
  arg_loop (u ++ rest) ("034"%char :: scope) token tokens =
  arg_loop rest ("034"%char :: scope) (token ++ u) tokens.
Proof.
  revert token. induction u as [|c u IH]; intros token Hu; [by rewrite app_nil_r|].
  apply not_elem_of_cons in Hu as [Hc Hu]. cbn [app arg_loop top_is].
  change (bool_decide ("034"%char :: scope = [])) with false. cbn [andb].
  rewrite bool_decide_eq_false_2 by done.
  change (negb (bool_decide ("034"%char = "034"%char))) with false. cbv iota.
  rewrite IH by done. by rewrite <-app_assoc.
Qed.

(** One step of the loop on a bracket or a quote that opens, and on one that closes. *)
Lemma arg_loop_open o c value scope token tokens :
  classify o = Opens c → brackets scope →
  arg_loop (o :: value) scope token tokens = arg_loop value (c :: scope) (token ++ [o]) tokens.
Proof.
  intros Ho Hs. cbn [arg_loop].
  destruct (bool_decide_reflect (o = ","%char)) as [->|]; [done|]. rewrite andb_false_r.
  rewrite !brackets_top by (done || congruence). cbn [negb]. by rewrite Ho.
Qed.

Lemma arg_loop_close c value scope token tokens :
  arg_loop (c :: value) (c :: scope) token tokens = arg_loop value scope (token ++ [c]) tokens.
Proof.
  cbn [arg_loop top_is tail]. change (bool_decide (c :: scope = [])) with false. cbn [andb].
  by rewrite bool_decide_eq_true_2.
Qed.

Lemma arg_loop_text nested t rest scope token tokens :
  text nested t → brackets scope → (nested = true → scope ≠ []) →
  arg_loop (t ++ rest) scope token tokens = arg_loop rest scope (token ++ t) tokens.
Proof.
  intros Ht. revert rest scope token.
  induction Ht as [|nested t c Ht IH Hc Hcomma|nested t o u c Ht IH Ho Hu IHu|nested t u Ht IH Hu];
    intros rest scope token Hs Hn.
  - by rewrite app_nil_r.
  - rewrite <-app_assoc, IH by done. cbn [app arg_loop].
    assert (bool_decide (scope = []) && bool_decide (c = ","%char) = false) as ->.
    { destruct nested; [by rewrite bool_decide_eq_false_2 by auto|].
      by rewrite (bool_decide_eq_false_2 (c = ","%char)), andb_false_r by auto. }
    rewrite !brackets_top by (done || congruence). cbn [negb]. rewrite Hc. by rewrite <-app_assoc.
  - rewrite <-app_assoc, IH by done. cbn [app]. pose proof (proj1 Ho).
    rewrite (arg_loop_open o c) by done. rewrite <-app_assoc, IHu; [|by eapply closing_closes|done].
    cbn [app]. rewrite arg_loop_close. by rewrite <-!app_assoc.
  - rewrite <-app_assoc, IH by done. cbn [app].
    rewrite (arg_loop_open _ "034"%char) by done. rewrite <-app_assoc, arg_loop_quoted by done.
    cbn [app]. rewrite arg_loop_close. by rewrite <-!app_assoc.
Qed.

Lemma arg_loop_argument t rest tokens :
  argument t → arg_loop (t ++ rest) [] [] tokens = arg_loop rest [] t tokens.
Proof. intros Ht. by rewrite (arg_loop_text false). Qed.

(** Splitting the arguments of an annotation computes a normal form.  Every list of arguments it
    returns consists of well-formed arguments (no whitespace outside quotes, brackets nested, quotes
    closed, no comma outside brackets) and is never the list of one empty argument; and a list of
    such arguments joined by commas is split into itself, so splitting again changes nothing. *)
Theorem arg_list_normal_form (value : str) (args : list str) :
  (ParseAsArgList value = Ok args → Forall argument args ∧ args ≠ [[]]) ∧
  (Forall argument args → args ≠ [[]] → ParseAsArgList (str_join "," args) = Ok args).
Proof.
  split.
  - intros H. apply arg_loop_sound in H; [done| |constructor]. constructor. constructor.
  - intros Hargs Hne. unfold ParseAsArgList.
    assert (∀ tokens, tokens ++ args ≠ [] → tokens ++ args ≠ [[]] → args ≠ [] →
      arg_loop (str_join "," args) [] [] tokens = Ok (tokens ++ args)) as Hjoin.
    { clear Hne. induction Hargs as [|t args Ht Hargs IH]; intros tokens Hnil Hone Hsome; [done|].
      destruct args as [|u args].
      - cbn [str_join]. rewrite <-(app_nil_r t), arg_loop_argument by done. cbn [arg_loop].
        change (negb (bool_decide (@nil ascii = []))) with false. cbv iota. rewrite app_nil_r.
        destruct (bool_decide (tokens = []) && bool_decide (t = [])) eqn:He; [|done].
        bool_prop. by subst.
      - change (str_join "," (t :: u :: args)) with (t ++ ","%char :: str_join "," (u :: args)).
        rewrite arg_loop_argument by done. cbn [arg_loop].
        change (bool_decide (@nil ascii = []) && bool_decide (","%char = ","%char)) with true.
        cbv iota. rewrite IH; [by rewrite <-app_assoc|..|done]; rewrite <-app_assoc; cbn [app]; [by destruct tokens|].
        by destruct tokens as [|? [|]]. }
    destruct args as [|t args]; [done|]. by rewrite Hjoin.
Qed.

Lemma arg_list_normal_form_witness :
  Forall argument [$"a"; $"f(b,c)"] ∧ ParseAsArgList $"a,f(b,c)" = Ok [$"a"; $"f(b,c)"].
Proof.
  destruct (arg_list_normal_form $" a , f( b,c )" [$"a"; $"f(b,c)"]) as [H1 H2].
  destruct H1 as [H1 H3]; [reflexivity|]. split; [exact H1|]. exact (H2 H1 H3).
Defined.
