(* ===== verification/TableTypes.v ===== *)
(** p4rt_app/utils: [table_utility.cc].  The kind of a table (ACL, fixed or extension), the order in which
    tables are configured, and the copy of a table that stands in for it while it is replaced. *)
From S2P Require Import Prelude IrData Annotations.

(** table::Type. *)
Inductive TableType := kAcl | kFixed | kExt | kAclDefinition | kTblsDefinitionSet.
#[global] Instance TableType_eq_dec : EqDecision TableType.
Proof. solve_decision. Defined.

(** Upper case of ASCII letters (absl), the names of the fixed tables and of the two tables of definitions
    (swss/schema.h). *)
Class SwssSchema := {
  AsciiStrToUpper : str → str;
  FixedTables : list str;
  APP_P4RT_ACL_TABLE_DEFINITION_NAME : str;
  APP_P4RT_TABLES_DEFINITION_TABLE_NAME : str;
}.

(** A schema, for evaluating examples. *)
#[export] Instance ref_schema : SwssSchema | 100 := {|
  AsciiStrToUpper := map (λ c, if (97 <=? uchar c) && (uchar c <=? 122) then char_of (uchar c - 32) else c);
  FixedTables := [$"FIXED_IPV4_TABLE"; $"FIXED_NEXTHOP_TABLE"; $"FIXED_VRF_TABLE"];
  APP_P4RT_ACL_TABLE_DEFINITION_NAME := $"ACL_TABLE_DEFINITION_TABLE";
  APP_P4RT_TABLES_DEFINITION_TABLE_NAME := $"TABLES_DEFINITION_TABLE";
|}.

Section table_utility.
Context `{SwssSchema}.

Definition TypeName (type : TableType) : str :=
  match type with
  | kAcl => $"ACL" | kFixed => $"FIXED" | kExt => $"EXT"
  | kAclDefinition => APP_P4RT_ACL_TABLE_DEFINITION_NAME
  | kTblsDefinitionSet => APP_P4RT_TABLES_DEFINITION_TABLE_NAME
  end.

Definition TypeParse (type_name : str) : result TableType :=
  if bool_decide (type_name = $"ACL") then Ok kAcl
  else if bool_decide (type_name = $"FIXED") then Ok kFixed
  else if bool_decide (type_name = $"EXT") then Ok kExt
  else if bool_decide (type_name = APP_P4RT_ACL_TABLE_DEFINITION_NAME) then Ok kAclDefinition
  else if bool_decide (type_name = APP_P4RT_TABLES_DEFINITION_TABLE_NAME) then Ok kTblsDefinitionSet
  else Err kInvalidArgument.

Definition conditional_kExt (ir_table : IrTableDefinition) : TableType :=
  if 0x03000000 <? preamble_id ir_table then kExt else kFixed.

(** A table with the annotation [@sai_acl] is an ACL table. *)
Definition GetTableType (ir_table : IrTableDefinition) : result TableType :=
  let table_name := AsciiStrToUpper ($"FIXED" ++ $"_" ++ preamble_alias ir_table) in
  match GetAnnotationBody $"sai_acl" (p4_annotations (preamble ir_table)) with
  | Ok _ => Ok kAcl
  | Err kNotFound =>
    if bool_decide (table_name ∈ FixedTables) then Ok kFixed else Ok (conditional_kExt ir_table)
  | Err _ => Err kInvalidArgument
  | Die => Die
  end.

(** * The order of configuration *)

Definition EstimateBitwidth (table : IrTableDefinition) : Z :=
  map_sum (λ field_def, bitwidth (match_element (match_field field_def))) (match_fields_by_name table).

Definition table_before (lhs rhs : IrTableDefinition) : bool :=
  let lhs_bitwidth := EstimateBitwidth lhs in
  let rhs_bitwidth := EstimateBitwidth rhs in
  if negb (lhs_bitwidth =? rhs_bitwidth) then rhs_bitwidth <? lhs_bitwidth
  else str_ltb (preamble_alias rhs) (preamble_alias lhs).

(** Wider tables first; [std::sort] gives the same order as any sort, as names differ. *)
Definition before_or_same (lhs rhs : IrTableDefinition) : Prop := table_before rhs lhs = false.
#[global] Instance before_or_same_dec lhs rhs : Decision (before_or_same lhs rhs).
Proof. unfold before_or_same. apply _. Defined.
Definition OrderTablesBySize (tables : list IrTableDefinition) : list IrTableDefinition :=
  merge_sort before_or_same tables.
Definition OrderTablesOfMap (tables_by_name : gmap str IrTableDefinition) : list IrTableDefinition :=
  OrderTablesBySize (map snd (map_to_list tables_by_name)).

(** * Copies of tables *)

Definition with_preamble (p : Preamble) (t : IrTableDefinition) : IrTableDefinition :=
  mkIrTableDefinition p (match_fields_by_id t) (match_fields_by_name t) (entry_actions t) (default_only_actions t)
    (table_size t) (uses_oneshot t) (action_profile_id t) (requires_priority t) (meter t) (counter t)
    (const_default_action t) (role t) (is_unsupported t) (incoming_references t) (outgoing_references t).

(** [int largest_table_id], compared with the [uint32] ids. *)
Definition largest_table_id (tables_by_id : gmap Z IrTableDefinition) : Z :=
  fold_left (λ largest id, if wrapU 32 largest <? id then wrapS 32 id else largest)
    (map fst (map_to_list tables_by_id)) 0.

Definition add_table_id (id : Z) (p : ActionProfile) : ActionProfile :=
  mkActionProfile (profile_preamble p) (profile_table_ids p ++ [id]) (profile_size p) (max_group_size p)
    (sum_of_members p).

(** The profile of a copied table lists the copy too; [Map::at] aborts when there is no such profile. *)
Definition add_to_profile (table_id dup_table_id : Z)
  (profiles : gmap Z ActionProfile * gmap str ActionProfile) (entry : str * ActionProfile)
  : result (gmap Z ActionProfile * gmap str ActionProfile) :=
  let '(by_id, by_name) := profiles in
  let '(name, p) := entry in
  if bool_decide (table_id ∈ profile_table_ids p) then
    let id := p4_id (profile_preamble p) in
    match by_id !! id with
    | None => Die
    | Some q => Ok (<[id := add_table_id dup_table_id q]> by_id, <[name := add_table_id dup_table_id p]> by_name)
    end
  else Ok profiles.

(** [Map::insert] keeps what is there. *)
Definition insert_if_absent `{Countable K} {A} (k : K) (a : A) (m : gmap K A) : gmap K A :=
  match m !! k with Some _ => m | None => <[k := a]> m end.

Definition dup_suffix : str := $"_duplicate_".

(** The name of the copy, and the program with it. *)
Definition DuplicateTable (info : IrP4Info) (table_name : str) : result (str * IrP4Info) :=
  match tables_by_name info !! table_name with
  | None => Err kNotFound
  | Some table =>
    let p := preamble table in
    let dup_table_name := table_name ++ dup_suffix in
    let dup_table_id := largest_table_id (tables_by_id info) + 1 in
    let dup_table_def :=
      with_preamble (mkPreamble dup_table_id (p4_name p ++ dup_suffix) dup_table_name (p4_annotations p)) table in
    '(profiles_by_id, profiles_by_name) ← fold_result (add_to_profile (p4_id p) dup_table_id)
        (map_to_list (action_profiles_by_name info)) (action_profiles_by_id info, action_profiles_by_name info);
    Ok (dup_table_name,
      mkIrP4Info (insert_if_absent dup_table_id dup_table_def (tables_by_id info))
        (insert_if_absent dup_table_name dup_table_def (tables_by_name info))
        (actions_by_id info) (actions_by_name info) profiles_by_id profiles_by_name
        (packet_in_metadata_by_id info) (packet_in_metadata_by_name info) (packet_out_metadata_by_id info)
        (packet_out_metadata_by_name info) (references info) (built_in_tables info)
        (dependency_rank_by_table_name info))
  end.
End table_utility.

Example types_named : Forall (λ t, TypeParse (TypeName t) = Ok t) [kAcl; kFixed; kExt; kAclDefinition; kTblsDefinitionSet].
Proof. repeat constructor. Qed.
