(* ===== verification/ReferenceAnnotations.v ===== *)
(** p4_infra/p4_pdpi: [reference_annotations.{h,cc}].  The references between tables are spelled out in
    annotations: [@refers_to(table, field)] on match fields and action parameters, [@referenced_by] on
    what built-in tables refer to.  They are parsed into one reference per pair of tables; tables
    inherit the references of their actions. *)
From S2P Require Import Prelude BuiltIns IrUtils IrData TableReferences Annotations.

(** A [btree_map], and [AsOrderedView] of a map, are visited in the order of the keys. *)
Definition key_le {A} (x y : str * A) : Prop := str_ltb (fst y) (fst x) = false.
#[global] Instance key_le_dec {A} : RelDecision (@key_le A).
Proof. intros x y. unfold key_le. apply _. Defined.
Definition ordered_view {A} (m : gmap str A) : list (str * A) := merge_sort key_le (map_to_list m).

(** * Annotations *)

Record ParsedRefersToAnnotation := mkParsedRefersTo { refers_to_table : str; refers_to_field : str }.
Record ParsedReferencedByAnnotation := mkParsedReferencedBy { referenced_by_table : str; referenced_by_field : str }.

Definition ParseAsRefersToAnnotation (body : str) : result ParsedRefersToAnnotation :=
  arg_list ← ParseAsArgList body;
  match arg_list with
  | [table; field] => Ok (mkParsedRefersTo table field)
  | _ => Err kInvalidArgument
  end.
Definition ParseAsReferencedByAnnotation (body : str) : result ParsedReferencedByAnnotation :=
  arg_list ← ParseAsArgList body;
  match arg_list with
  | [table; field] => Ok (mkParsedReferencedBy table field)
  | _ => Err kInvalidArgument
  end.

Definition ParseAllRefersToAnnotations (annotations : list str) : result (list ParsedRefersToAnnotation) :=
  GetAllParsedAnnotations ParseAsRefersToAnnotation $"refers_to" annotations.
Definition ParseAllReferencedByAnnotations (annotations : list str) : result (list ParsedReferencedByAnnotation) :=
  GetAllParsedAnnotations ParseAsReferencedByAnnotation $"referenced_by" annotations.

Section reference_annotations.
Context `{Gutil} (info : IrP4Info).

(** * Tables and fields by name *)

Definition CreateIrP4Table (table_name : str) : result IrTable :=
  table ← FindOrStatus (tables_by_name info !! table_name);
  Ok (P4Table table_name (preamble_id table)).

Definition CreateIrBuiltInTable (table_name : str) : result IrTable :=
  table ← StringToIrBuiltInTable table_name; Ok (BuiltInTable table).

Definition CreateIrP4MatchField (table_name field_name : str) : result IrMatchField :=
  table ← FindOrStatus (tables_by_name info !! table_name);
  field ← FindOrStatus (match_fields_by_name table !! field_name);
  let id := element_id (match_element (IrData.match_field field)) in
  match match_type (IrData.match_field field) with
  | EXACT => Ok (P4MatchField (mkIrP4MatchField field_name id false))
  | OPTIONAL => Ok (P4MatchField (mkIrP4MatchField field_name id true))
  | _ => Err kUnimplemented
  end.

Definition CreateIrBuiltInMatchField (table_name field_name : str) : result IrMatchField :=
  table ← StringToIrBuiltInTable table_name;
  field ← StringToIrBuiltInMatchField field_name;
  if negb (BuiltInTableHasMatchField table field) then Err kInvalidArgument else Ok (BuiltInMatchField field).

Definition CreateIrP4ActionField (action_name param_name : str) : result IrActionField :=
  action ← FindOrStatus (actions_by_name info !! action_name);
  parameter ← FindOrStatus (params_by_name action !! param_name);
  Ok (P4ActionField (mkIrP4ActionField action_name (p4_id (action_preamble action)) param_name
        (element_id (param parameter)))).

Definition CreateIrBuiltInActionField (action_name param_name : str) : result IrActionField :=
  action ← StringToIrBuiltInAction action_name;
  parameter ← StringToIrBuiltInParameter param_name;
  if negb (BuiltInActionHasParameter action parameter) then Err kInvalidArgument
  else Ok (BuiltInActionField (mkIrBuiltInActionField action parameter)).

Definition CreateIrTable (table_name : str) : result IrTable :=
  if IsBuiltInTable table_name then CreateIrBuiltInTable table_name else CreateIrP4Table table_name.
Definition CreateIrMatchField (table_name field_name : str) : result IrMatchField :=
  if IsBuiltInTable table_name then CreateIrBuiltInMatchField table_name field_name
  else CreateIrP4MatchField table_name field_name.
Definition CreateIrActionField (action_name param_name : str) : result IrActionField :=
  if IsBuiltInAction action_name then CreateIrBuiltInActionField action_name param_name
  else CreateIrP4ActionField action_name param_name.

Definition CreateIrFieldFromRefersTo (annotation : ParsedRefersToAnnotation) : result IrField :=
  let table := refers_to_table annotation in
  let field := refers_to_field annotation in
  if bool_decide (is_Some (actions_by_name info !! table)) ||
     (IsBuiltInTable table && is_Ok (StringToIrBuiltInParameter field))
  then Err kUnimplemented
  else match_field ← CreateIrMatchField table field; Ok (MatchField match_field).

Definition CreateIrFieldFromReferencedBy (annotation : ParsedReferencedByAnnotation) : result IrField :=
  let table := referenced_by_table annotation in
  let field := referenced_by_field annotation in
  match StringToIrBuiltInTable table with
  | Ok built_in_table =>
    if is_Ok (StringToIrBuiltInMatchField field)
    then match_field ← CreateIrMatchField table field; Ok (MatchField match_field)
    else match StringToIrBuiltInParameter field with
    | Ok parameter =>
      action ← GetBuiltInActionFromBuiltInParameter parameter;
      action_name ← IrBuiltInActionToString action;
      if negb (BuiltInTableHasAction built_in_table action) then Err kInvalidArgument
      else action_field ← CreateIrActionField action_name field; Ok (ActionField action_field)
    | _ => Err kInvalidArgument
    end
  | _ => Err kUnimplemented
  end.

(** * References by source and destination *)

Abbreviation ReferencesBySourceAndDestination := (gmap str (gmap str (list FieldReference))).

(** [m[source][destination].MergeFrom(references)]. *)
Definition add_references (source destination : str) (references : list FieldReference)
  (m : ReferencesBySourceAndDestination) : ReferencesBySourceAndDestination :=
  let by_destination := default ∅ (m !! source) in
  <[source := <[destination := default [] (by_destination !! destination) ++ references]> by_destination]> m.

Definition parse_parameter (action_name : str) (by_action : ReferencesBySourceAndDestination)
  (parameter : str * IrActionParamDefinition) : result ReferencesBySourceAndDestination :=
  let '(param_name, param_def) := parameter in
  refers_to_annotations ← ParseAllRefersToAnnotations (element_annotations (param param_def));
  by_action ← fold_result (λ by_action annotation,
      destination ← CreateIrFieldFromRefersTo annotation;
      source ← CreateIrActionField action_name param_name;
      if FieldIsOptional destination then Err kUnimplemented
      else Ok (add_references action_name (refers_to_table annotation)
                 [mkFieldReference (ActionField source) destination] by_action))
    refers_to_annotations by_action;
  referenced_by_annotations ← ParseAllReferencedByAnnotations (element_annotations (param param_def));
  if bool_decide (Datatypes.length referenced_by_annotations = 0%nat) then Ok by_action else Err kUnimplemented.

Definition parse_match_field (table_name : str) (by_table : ReferencesBySourceAndDestination)
  (field : str * IrMatchFieldDefinition) : result ReferencesBySourceAndDestination :=
  let '(match_field_name, match_field_def) := field in
  let annotations := element_annotations (match_element (IrData.match_field match_field_def)) in
  refers_to_annotations ← ParseAllRefersToAnnotations annotations;
  by_table ← fold_result (λ by_table annotation,
      destination ← CreateIrFieldFromRefersTo annotation;
      source ← CreateIrMatchField table_name match_field_name;
      if FieldIsOptional destination then Err kUnimplemented
      else Ok (add_references table_name (refers_to_table annotation)
                 [mkFieldReference (MatchField source) destination] by_table))
    refers_to_annotations by_table;
  referenced_by_annotations ← ParseAllReferencedByAnnotations annotations;
  fold_result (λ by_table annotation,
      source ← CreateIrFieldFromReferencedBy annotation;
      destination ← CreateIrMatchField table_name match_field_name;
      if FieldIsOptional (MatchField destination) then Err kUnimplemented
      else Ok (add_references (referenced_by_table annotation) table_name
                 [mkFieldReference source (MatchField destination)] by_table))
    referenced_by_annotations by_table.

Definition inherit_references (table_name : str) (by_action by_table : ReferencesBySourceAndDestination)
  (action_ref : IrActionReference) : ReferencesBySourceAndDestination :=
  match by_action !! alias (action_preamble (ref_action action_ref)) with
  | None => by_table
  | Some by_destination =>
    fold_left (λ by_table '(dst_table, field_references),
      add_references table_name dst_table field_references by_table) (map_to_list by_destination) by_table
  end.

Definition parse_table (by_action by_table : ReferencesBySourceAndDestination) (table : str * IrTableDefinition)
  : result ReferencesBySourceAndDestination :=
  let '(table_name, table_def) := table in
  by_table ← fold_result (parse_match_field table_name) (ordered_view (match_fields_by_name table_def)) by_table;
  let by_table := fold_left (inherit_references table_name by_action) (entry_actions table_def) by_table in
  if existsb (λ action_ref, bool_decide (is_Some (by_action !! alias (action_preamble (ref_action action_ref)))))
       (default_only_actions table_def)
  then Err kUnimplemented else Ok by_table.

(** The references of one source table, the names looked up in the end. *)
Definition assemble (src_table : str) (entry : str * list FieldReference) : result IrTableReference :=
  let '(dst_table, field_references) := entry in
  match field_references with
  | [] => Err kInternal
  | _ =>
    source ← CreateIrTable src_table;
    destination ← CreateIrTable dst_table;
    Ok (mkIrTableReference source destination field_references)
  end.

Definition ParseIrTableReferences : result (list IrTableReference) :=
  by_action ← fold_result (λ by_action '(action_name, action_def),
      fold_result (parse_parameter action_name) (ordered_view (params_by_name action_def)) by_action)
    (map_to_list (actions_by_name info)) ∅;
  by_table ← fold_result (parse_table by_action) (ordered_view (tables_by_name info)) ∅;
  references ← map_result (λ '(src_table, by_destination),
      map_result (assemble src_table) (ordered_view by_destination)) (ordered_view by_table);
  Ok (concat references).
End reference_annotations.
