(* ===== verification/IrProgram.v ===== *)
(** p4_infra/p4_pdpi: [CreateIrP4Info] of [ir.cc].  The description of a P4 program as the compiler emits it
    ([P4Info]) is checked and indexed by id and by name ([IrP4Info]); formats are computed from
    annotations, references between tables are collected, and tables are ranked by dependency. *)
From S2P Require Import Prelude Abseil DecimalString IrUtils IrData BuiltIns Annotations ReferenceAnnotations.
From S2P Require TableReferences.

(** * p4info.proto *)

Module P4.
(** [P4NewType]: the representation, and for translated types what they are translated to. *)
Inductive SdnType := kSdnBitwidth (width : Z) | kSdnString | SDN_TYPE_NOT_SET.
Inductive NewType := kOriginalType | kTranslatedType (sdn_type : SdnType) | REPRESENTATION_NOT_SET.
(** [P4TypeInfo]. *)
Abbreviation TypeInfo := (gmap str NewType).

Record Action := mkAction { action_preamble : Preamble; action_params : list Element }.
Inductive Scope := TABLE_AND_DEFAULT | TABLE_ONLY | DEFAULT_ONLY.
#[global] Instance Scope_eq_dec : EqDecision Scope.
Proof. solve_decision. Defined.
Record ActionRef := mkActionRef { action_ref_id : Z; scope : Scope; action_ref_annotations : list str }.
Record Table := mkTable {
  table_preamble : Preamble;
  match_fields : list MatchField;
  action_refs : list ActionRef;
  const_default_action_id : Z;
  implementation_id : Z;
  max_size : Z;
}.
Record ControllerPacketMetadata := mkPacketMetadata { packet_preamble : Preamble; packet_metadata : list Element }.
(** [DirectCounter] and [DirectMeter], with the unit of the [spec]. *)
Record Direct := mkDirect { direct_table_id : Z; unit : Z }.

Record P4Info := mkP4Info {
  tables : list Table;
  actions : list Action;
  action_profiles : list ActionProfile;
  direct_counters : list Direct;
  direct_meters : list Direct;
  controller_packet_metadata : list ControllerPacketMetadata;
  type_info : TypeInfo;
}.
End P4.

(** * Formats and annotations *)

Section program.
Context `{AbslStrings} `{Gutil}.

Definition is_sdn_string (type_info : P4.TypeInfo) (element : Element) : result bool :=
  match type_name element with
  | None => Ok false
  | Some name =>
    named_type ← FindOrStatus (type_info !! name);
    Ok (match named_type with P4.kTranslatedType P4.kSdnString => true | _ => false end)
  end.

Definition GetFormatForP4InfoElement (element : Element) (type_info : P4.TypeInfo) : result Format :=
  is_sdn_string ← is_sdn_string type_info element;
  GetFormat (element_annotations element) (bitwidth element) is_sdn_string.

Definition ExpensiveIsElementUnsupported (annotations : list str) : bool :=
  existsb (λ annotation, bool_decide (annotation = $"@unsupported")) annotations.

Definition ValidateMatchFieldDefinition (definition : IrMatchFieldDefinition) : result () :=
  match match_type (match_field definition) with
  | LPM | TERNARY => if bool_decide (match_format definition = STRING) then Err kInvalidArgument else Ok tt
  | EXACT | OPTIONAL => Ok tt
  | _ => Err kInvalidArgument
  end.

(** [std::stoi] throws on the empty string and on what does not fit an [int]. *)
Definition stoi (digits : str) : result Z :=
  if bool_decide (digits = []) then Die
  else
    let value := fold_left (λ v c, v * 10 + (uchar c - 48)) digits 0 in
    if value <? 2 ^ 31 then Ok value else Die.

Definition number_step (annotation_name : str) (found : option Z) (annotation : str) : result (option Z) :=
  match ConsumePrefix annotation ("@"%char :: annotation_name ++ ["("%char]) with
  | None => Ok found
  | Some view =>
    match found with
    | Some _ => Err kInvalidArgument
    | None =>
      let number := default view (ConsumeSuffix view [")"%char]) in
      if negb (forallb isdigit number) then Err kInvalidArgument
      else value ← stoi number; Ok (Some value)
    end
  end.

Definition GetNumberInAnnotation (annotations : list str) (annotation_name : str) : result Z :=
  found ← fold_result (number_step annotation_name) annotations None;
  match found with None => Err kInvalidArgument | Some value => Ok value end.

(** * References by annotation (deprecated) *)

Definition TableAliasToId (p4_info : P4.P4Info) (table_alias : str) : result Z :=
  match List.find (λ table, bool_decide (alias (P4.table_preamble table) = table_alias)) (P4.tables p4_info) with
  | Some table => Ok (p4_id (P4.table_preamble table))
  | None => Err kNotFound
  end.

Definition MatchFieldNameToId (p4_info : P4.P4Info) (table_id : Z) (match_field_name : str) : result Z :=
  let fields := concat (map P4.match_fields
    (List.filter (λ table, p4_id (P4.table_preamble table) =? table_id) (P4.tables p4_info))) in
  match List.find (λ field, bool_decide (element_name (match_element field) = match_field_name)) fields with
  | Some field => Ok (element_id (match_element field))
  | None => Err kNotFound
  end.

Definition GetRefersToAnnotations (p4_info : P4.P4Info) (annotations : list str)
  : result (list IrMatchFieldReference) :=
  refers_to_annotations ← ParseAllRefersToAnnotations annotations;
  fold_result (λ out refers_to_annotation,
      let table := refers_to_table refers_to_annotation in
      let match_field := refers_to_field refers_to_annotation in
      if IsBuiltInTable table then Ok out else
      table_id ← TableAliasToId p4_info table;
      match_field_id ← MatchFieldNameToId p4_info table_id match_field;
      Ok (out ++ [mkIrMatchFieldReference table match_field table_id match_field_id]))
    refers_to_annotations [].

(** References that are not in the list of the program yet are added to it. *)
Definition add_new_references (references new : list IrMatchFieldReference) : list IrMatchFieldReference :=
  fold_left (λ references reference,
    if bool_decide (reference ∈ references) then references else references ++ [reference]) new references.

(** * Actions *)

(** Definitions by id and by name. *)
Abbreviation Indexed D := (gmap Z D * gmap str D)%type.

Definition insert_indexed {D} (id : Z) (name : str) (d : D) (definitions : Indexed D) : result (Indexed D) :=
  by_id ← InsertIfUnique id d (fst definitions);
  by_name ← InsertIfUnique name d (snd definitions);
  Ok (by_id, by_name).

Definition translate_param (p4_info : P4.P4Info)
  (state : Indexed IrActionParamDefinition * list IrMatchFieldReference) (param : Element)
  : result (Indexed IrActionParamDefinition * list IrMatchFieldReference) :=
  let '(params, references) := state in
  format ← GetFormatForP4InfoElement param (P4.type_info p4_info);
  param_references ← GetRefersToAnnotations p4_info (element_annotations param);
  params ← insert_indexed (element_id param) (element_name param)
             (mkIrActionParamDefinition param format param_references) params;
  Ok (params, add_new_references references param_references).

Definition translate_action (p4_info : P4.P4Info)
  (state : Indexed IrActionDefinition * list IrMatchFieldReference) (action : P4.Action)
  : result (Indexed IrActionDefinition * list IrMatchFieldReference) :=
  let '(actions, references) := state in
  let preamble := P4.action_preamble action in
  '(params, references) ← fold_result (translate_param p4_info) (P4.action_params action) ((∅, ∅), references);
  actions ← insert_indexed (p4_id preamble) (alias preamble)
              (mkIrActionDefinition preamble (fst params) (snd params)
                 (ExpensiveIsElementUnsupported (p4_annotations preamble))) actions;
  Ok (actions, references).

Definition translate_action_profile (profiles : Indexed ActionProfile) (profile : ActionProfile)
  : result (Indexed ActionProfile) :=
  insert_indexed (p4_id (profile_preamble profile)) (profile_alias profile) profile profiles.

(** * Tables *)

Definition needs_priority (t : MatchType) : bool :=
  match t with OPTIONAL | RANGE | TERNARY => true | _ => false end.

Definition translate_match_field (p4_info : P4.P4Info)
  (state : Indexed IrMatchFieldDefinition * bool * list IrMatchFieldReference) (field : MatchField)
  : result (Indexed IrMatchFieldDefinition * bool * list IrMatchFieldReference) :=
  let '(fields, requires_priority, references) := state in
  let element := match_element field in
  format ← GetFormatForP4InfoElement element (P4.type_info p4_info);
  _ ← ValidateMatchFieldDefinition (mkIrMatchFieldDefinition field format [] false);
  match_references ← GetRefersToAnnotations p4_info (element_annotations element);
  fields ← insert_indexed (element_id element) (element_name element)
             (mkIrMatchFieldDefinition field format match_references
                (ExpensiveIsElementUnsupported (element_annotations element))) fields;
  Ok (fields, requires_priority || needs_priority (match_type field),
      add_new_references references match_references).

(** An action is for default entries only, or has a number of its own. *)
Definition translate_action_ref (actions_by_id : gmap Z IrActionDefinition)
  (state : list IrActionReference * list IrActionReference) (action_ref : P4.ActionRef)
  : result (list IrActionReference * list IrActionReference) :=
  let '(entry_actions, default_only_actions) := state in
  action ← FindOrStatus (actions_by_id !! P4.action_ref_id action_ref);
  if bool_decide (P4.scope action_ref = P4.DEFAULT_ONLY)
  then Ok (entry_actions, default_only_actions ++ [mkIrActionReference (P4.action_ref_id action_ref) action 0])
  else
    proto_id ← GetNumberInAnnotation (P4.action_ref_annotations action_ref) $"proto_id";
    Ok (entry_actions ++ [mkIrActionReference (P4.action_ref_id action_ref) action proto_id], default_only_actions).

(** The default action is one of the table's actions. *)
Definition find_default_action (const_default_action_id : Z) (entry_actions default_only_actions : list IrActionReference)
  : result (option IrActionDefinition) :=
  if const_default_action_id =? 0 then Ok None else
  match List.find (λ r, ref_id r =? const_default_action_id) (default_only_actions ++ entry_actions) with
  | Some r => Ok (Some (ref_action r))
  | None => Err kInvalidArgument
  end.

(** The last annotation that gives a role counts. *)
Definition get_role (annotations : list str) : str :=
  fold_left (λ role annotation,
    match ConsumePrefix annotation ($"@p4runtime_role(" ++ ["034"%char]) with
    | Some rest => match ConsumeSuffix rest ["034"%char; ")"%char] with Some name => name | None => role end
    | None => role
    end) annotations [].

Definition translate_table (p4_info : P4.P4Info) (actions_by_id : gmap Z IrActionDefinition)
  (state : Indexed IrTableDefinition * list IrMatchFieldReference) (table : P4.Table)
  : result (Indexed IrTableDefinition * list IrMatchFieldReference) :=
  let '(tables, references) := state in
  let preamble := P4.table_preamble table in
  '(fields, requires_priority, references) ←
    fold_result (translate_match_field p4_info) (P4.match_fields table) ((∅, ∅), false, references);
  let is_wcmp := negb (P4.implementation_id table =? 0) in
  let has_oneshot := existsb (λ annotation, bool_decide (annotation = $"@oneshot")) (p4_annotations preamble) in
  if negb (eqb is_wcmp has_oneshot) then Err kUnimplemented else
  '(entry_actions, default_only_actions) ←
    fold_result (translate_action_ref actions_by_id) (P4.action_refs table) ([], []);
  const_default_action ← find_default_action (P4.const_default_action_id table) entry_actions default_only_actions;
  tables ← insert_indexed (p4_id preamble) (alias preamble)
             (mkIrTableDefinition preamble (fst fields) (snd fields) entry_actions default_only_actions
                (P4.max_size table) has_oneshot (if is_wcmp then Some (P4.implementation_id table) else None)
                requires_priority None None const_default_action (get_role (p4_annotations preamble))
                (ExpensiveIsElementUnsupported (p4_annotations preamble)) [] []) tables;
  Ok (tables, references).

(** * Packet metadata *)

Definition translate_metadata (type_info : P4.TypeInfo) (state : Indexed IrPacketIoMetadataDefinition)
  (metadata : Element) : result (Indexed IrPacketIoMetadataDefinition) :=
  format ← GetFormatForP4InfoElement metadata type_info;
  insert_indexed (element_id metadata) (element_name metadata)
    (mkIrPacketIoMetadataDefinition metadata format
       (existsb (λ annotation, bool_decide (annotation = $"@padding")) (element_annotations metadata))) state.

Definition ProcessPacketIoMetadataDefinition (data : P4.ControllerPacketMetadata) (type_info : P4.TypeInfo)
  (state : Indexed IrPacketIoMetadataDefinition) : result (Indexed IrPacketIoMetadataDefinition) :=
  if negb (bool_decide (fst state = ∅)) then Err kInvalidArgument
  else fold_result (translate_metadata type_info) (P4.packet_metadata data) state.

(** The definitions of packet-in and of packet-out messages. *)
Definition process_metadata (type_info : P4.TypeInfo)
  (state : Indexed IrPacketIoMetadataDefinition * Indexed IrPacketIoMetadataDefinition)
  (metadata : P4.ControllerPacketMetadata)
  : result (Indexed IrPacketIoMetadataDefinition * Indexed IrPacketIoMetadataDefinition) :=
  let '(packet_in, packet_out) := state in
  let kind := p4_name (P4.packet_preamble metadata) in
  if bool_decide (kind = $"packet_out") then
    packet_out ← ProcessPacketIoMetadataDefinition metadata type_info packet_out; Ok (packet_in, packet_out)
  else if bool_decide (kind = $"packet_in") then
    packet_in ← ProcessPacketIoMetadataDefinition metadata type_info packet_in; Ok (packet_in, packet_out)
  else Err kInvalidArgument.

(** * Counters and meters *)

Definition with_counter (unit : Z) (t : IrTableDefinition) : IrTableDefinition :=
  mkIrTableDefinition (preamble t) (match_fields_by_id t) (match_fields_by_name t) (entry_actions t)
    (default_only_actions t) (table_size t) (uses_oneshot t) (action_profile_id t) (requires_priority t) (meter t)
    (Some unit) (const_default_action t) (role t) (is_unsupported t) (incoming_references t) (outgoing_references t).
Definition with_meter (unit : Z) (t : IrTableDefinition) : IrTableDefinition :=
  mkIrTableDefinition (preamble t) (match_fields_by_id t) (match_fields_by_name t) (entry_actions t)
    (default_only_actions t) (table_size t) (uses_oneshot t) (action_profile_id t) (requires_priority t) (Some unit)
    (counter t) (const_default_action t) (role t) (is_unsupported t) (incoming_references t) (outgoing_references t).

(** What [operator[]] of a map finds under a new name. *)
Definition default_table : IrTableDefinition := plain_table 0 [] [] [] None false.

Definition add_direct (set_unit : Z → IrTableDefinition → IrTableDefinition) (tables : Indexed IrTableDefinition)
  (resource : P4.Direct) : result (Indexed IrTableDefinition) :=
  let '(by_id, by_name) := tables in
  table1 ← FindOrStatus (by_id !! P4.direct_table_id resource);
  let table2 := default default_table (by_name !! preamble_alias table1) in
  Ok (<[P4.direct_table_id resource := set_unit (P4.unit resource) table1]> by_id,
      <[preamble_alias table1 := set_unit (P4.unit resource) table2]> by_name).

(** * Checks *)

Definition check_reference (tables_by_name : gmap str IrTableDefinition) (reference : IrMatchFieldReference)
  : result () :=
  ir_table ← FindOrStatus (tables_by_name !! referred_table reference);
  ir_match_field ← FindOrStatus (match_fields_by_name ir_table !! referred_field reference);
  if negb (bool_decide (match_type (match_field ir_match_field) = EXACT)) &&
     negb (bool_decide (match_type (match_field ir_match_field) = OPTIONAL))
  then Err kInvalidArgument else Ok tt.

(** A table that names an action profile is one of the tables of the profile. *)
Definition check_implementation (action_profiles_by_id : gmap Z ActionProfile) (entry : Z * IrTableDefinition)
  : result () :=
  let '(table_id, table) := entry in
  match action_profile_id table with
  | None => Ok tt
  | Some id =>
    profile ← FindOrStatus (action_profiles_by_id !! id);
    if bool_decide (table_id ∈ profile_table_ids profile) then Ok tt else Err kInvalidArgument
  end.

(** The tables of an action profile name it. *)
Definition check_profile_table (tables_by_id : gmap Z IrTableDefinition) (action_profile_id_ table_id : Z)
  : result () :=
  table ← FindOrStatus (tables_by_id !! table_id);
  if bool_decide (action_profile_id table = Some action_profile_id_) then Ok tt else Err kInvalidArgument.
Definition check_profile (tables_by_id : gmap Z IrTableDefinition) (entry : Z * ActionProfile) : result () :=
  fold_result (λ _ table_id, check_profile_table tables_by_id (fst entry) table_id) (profile_table_ids (snd entry)) tt.

(** * References between tables *)

Definition with_outgoing (r : TableReferences.IrTableReference) (t : IrTableDefinition) : IrTableDefinition :=
  mkIrTableDefinition (preamble t) (match_fields_by_id t) (match_fields_by_name t) (entry_actions t)
    (default_only_actions t) (table_size t) (uses_oneshot t) (action_profile_id t) (requires_priority t) (meter t)
    (counter t) (const_default_action t) (role t) (is_unsupported t) (incoming_references t)
    (outgoing_references t ++ [r]).
Definition with_incoming (r : TableReferences.IrTableReference) (t : IrTableDefinition) : IrTableDefinition :=
  mkIrTableDefinition (preamble t) (match_fields_by_id t) (match_fields_by_name t) (entry_actions t)
    (default_only_actions t) (table_size t) (uses_oneshot t) (action_profile_id t) (requires_priority t) (meter t)
    (counter t) (const_default_action t) (role t) (is_unsupported t) (incoming_references t ++ [r])
    (outgoing_references t).
Definition with_built_in_outgoing (r : TableReferences.IrTableReference) (t : IrBuiltInTableDefinition) :=
  mkIrBuiltInTableDefinition (built_in_table t) (built_in_incoming t) (built_in_outgoing t ++ [r]).
Definition with_built_in_incoming (r : TableReferences.IrTableReference) (t : IrBuiltInTableDefinition) :=
  mkIrBuiltInTableDefinition (built_in_table t) (built_in_incoming t ++ [r]) (built_in_outgoing t).

(** The tables of the program and the built-in ones. *)
Abbreviation AllTables := (Indexed IrTableDefinition * gmap str IrBuiltInTableDefinition)%type.

(** A reference is inserted at one of its tables; [Map::at] aborts when there is no such built-in table. *)
Definition insert_reference_info (table : TableReferences.IrTable)
  (add : IrTableDefinition → IrTableDefinition) (add_built_in : IrBuiltInTableDefinition → IrBuiltInTableDefinition)
  (tables : AllTables) : result AllTables :=
  let '((by_id, by_name), built_in) := tables in
  match table with
  | TableReferences.P4Table table_name table_id =>
    match by_name !! table_name, by_id !! table_id with
    | Some it_name, Some it_id => Ok ((<[table_id := add it_id]> by_id, <[table_name := add it_name]> by_name), built_in)
    | _, _ => Err kInternal
    end
  | TableReferences.BuiltInTable table =>
    built_in_table_name ← IrBuiltInTableToString table;
    match built_in !! built_in_table_name with
    | Some definition => Ok ((by_id, by_name), <[built_in_table_name := add_built_in definition]> built_in)
    | None => Die
    end
  | TableReferences.TABLE_NOT_SET => Err kInternal
  end.

Definition InsertOutgoingReferenceInfo (reference : TableReferences.IrTableReference) : AllTables → result AllTables :=
  insert_reference_info (TableReferences.source_table reference) (with_outgoing reference)
    (with_built_in_outgoing reference).
Definition InsertIncomingReferenceInfo (reference : TableReferences.IrTableReference) : AllTables → result AllTables :=
  insert_reference_info (TableReferences.destination_table reference) (with_incoming reference)
    (with_built_in_incoming reference).

Definition insert_reference (tables : AllTables) (reference : TableReferences.IrTableReference) : result AllTables :=
  tables ← InsertOutgoingReferenceInfo reference tables; InsertIncomingReferenceInfo reference tables.

(** * Ranks *)

Definition outgoing_references_of (info : IrP4Info) (table_name : str) : result (list TableReferences.IrTableReference) :=
  if IsBuiltInTable table_name
  then table_def ← FindOrStatus (built_in_tables info !! table_name); Ok (built_in_outgoing table_def)
  else table_def ← FindOrStatus (tables_by_name info !! table_name); Ok (outgoing_references table_def).

(** A depth-first search.  The rank 1 marks the tables on the path from the start: each call marks a new
    table, so one more round than there are tables is enough. *)
Fixpoint SetAndReturnTableDependencyRank (fuel : nat) (info : IrP4Info) (table_name : str) (ranks : gmap str Z)
  : result (Z * gmap str Z) :=
  match fuel with
  | O => Die
  | S fuel =>
    match ranks !! table_name with
    | Some rank => if rank <=? 0 then Ok (rank, ranks) else Err kInvalidArgument
    | None =>
      outgoing_references ← outgoing_references_of info table_name;
      '(rank, ranks) ← fold_result (λ '(rank, ranks) reference,
          referenced_table_name ← TableReferences.GetNameOfTable (TableReferences.destination_table reference);
          '(child_rank, ranks) ← SetAndReturnTableDependencyRank fuel info referenced_table_name ranks;
          Ok (Z.min rank (child_rank - 1), ranks))
        outgoing_references (0, <[table_name := 1]> ranks);
      Ok (rank, <[table_name := rank]> ranks)
    end
  end.

(** The names of all tables. *)
Definition all_table_names (info : IrP4Info) : list str :=
  map fst (map_to_list (tables_by_name info)) ++ map fst (map_to_list (built_in_tables info)).

Definition ConstructDependencyRankByTableName (info : IrP4Info) : result (gmap str Z) :=
  let names := all_table_names info in
  fold_result (λ ranks table_name,
      '(_, ranks) ← SetAndReturnTableDependencyRank (S (length names)) info table_name ranks; Ok ranks)
    names (dependency_rank_by_table_name info).

(** * The whole program *)

Definition built_in_definitions : result (gmap str IrBuiltInTableDefinition) :=
  fold_result (λ tables table,
      name ← IrBuiltInTableToString table;
      Ok (<[name := mkIrBuiltInTableDefinition table [] []]> tables))
    [BUILT_IN_TABLE_MULTICAST_GROUP_TABLE; BUILT_IN_TABLE_CLONE_SESSION_TABLE] ∅.

Definition CreateIrP4Info (p4_info : P4.P4Info) : result IrP4Info :=
  let type_info := P4.type_info p4_info in
  '(actions, references) ← fold_result (translate_action p4_info) (P4.actions p4_info) ((∅, ∅), []);
  profiles ← fold_result translate_action_profile (P4.action_profiles p4_info) (∅, ∅);
  '(tables, references) ← fold_result (translate_table p4_info (fst actions)) (P4.tables p4_info)
                            ((∅, ∅), references);
  '(packet_in, packet_out) ← fold_result (process_metadata type_info) (P4.controller_packet_metadata p4_info)
                               ((∅, ∅), (∅, ∅));
  tables ← fold_result (add_direct with_counter) (P4.direct_counters p4_info) tables;
  tables ← fold_result (add_direct with_meter) (P4.direct_meters p4_info) tables;
  _ ← fold_result (λ _ reference, check_reference (snd tables) reference) references tt;
  _ ← fold_result (λ _ entry, check_implementation (fst profiles) entry) (map_to_list (fst tables)) tt;
  _ ← fold_result (λ _ entry, check_profile (fst tables) entry) (map_to_list (fst profiles)) tt;
  built_in ← built_in_definitions;
  let program tables built_in ranks :=
    mkIrP4Info (fst tables) (snd tables) (fst actions) (snd actions) (fst profiles) (snd profiles)
      (fst packet_in) (snd packet_in) (fst packet_out) (snd packet_out) references built_in ranks in
  table_references ← ParseIrTableReferences (program tables built_in ∅);
  '(tables, built_in) ← fold_result insert_reference table_references (tables, built_in);
  ranks ← ConstructDependencyRankByTableName (program tables built_in ∅);
  Ok (program tables built_in ranks).
End program.
