(* ===== verification/IrRanks.v ===== *)
(** The dependency ranks of [CreateIrP4Info]: the depth-first search terminates, fails exactly on cyclic
    references, and gives every table the number of references on the longest chain that leads on
    from it, negated. *)
From S2P Require Import Prelude IrUtils IrData BuiltIns IrProgram.
From S2P Require TableReferences.

Section ranks.
Context `{Gutil} (info : IrP4Info).
Implicit Types (n m p : str) (v w : Z) (ranks : gmap str Z).

Abbreviation names := (all_table_names info).
Abbreviation outgoing := (outgoing_references_of info).
Abbreviation destination r := (TableReferences.GetNameOfTable (TableReferences.destination_table r)).
Abbreviation visit := SetAndReturnTableDependencyRank.

(** Table [n] refers to table [m]. *)
Definition refers n m : Prop := ∃ refs r, outgoing n = Ok refs ∧ r ∈ refs ∧ destination r = Ok m.

(** References lead from tables to tables. *)
Definition closed : Prop :=
  ∀ n, n ∈ names → ∃ refs, outgoing n = Ok refs ∧ ∀ r, r ∈ refs → ∃ m, destination r = Ok m ∧ m ∈ names.

(** [v] is the rank of [n]: below the ranks of all tables it refers to, by one for one of them. *)
Definition ranked ranks n v : Prop :=
  v ≤ 0 ∧ (∀ m, refers n m → ∃ w, ranks !! m = Some w ∧ v < w ≤ 0) ∧
  (v = 0 ∨ ∃ m w, refers n m ∧ ranks !! m = Some w ∧ v = w - 1).

(** Tables that are not marked have their rank. *)
Definition sound ranks : Prop := ∀ n v, ranks !! n = Some v → n ∈ names ∧ (v = 1 ∨ ranked ranks n v).
Definition marked ranks n : Prop := ranks !! n = Some 1.

Lemma ranked_mono ranks ranks' n v : ranks ⊆ ranks' → ranked ranks n v → ranked ranks' n v.
Proof.
  intros Hsub (Hv & Hall & Hex). split; [done|]. split.
  - intros m Hm. destruct (Hall m Hm) as (w & Hw & Hlt). exists w. split; [|done]. by eapply lookup_weaken.
  - destruct Hex as [|(m & w & Hm & Hw & ->)]; [by left|right]. exists m, w. split; [done|]. split; [|done].
    by eapply lookup_weaken.
Qed.

(** Marked tables have no part in the ranks of others. *)
Lemma ranked_unmark ranks n m v x : marked ranks n → ranked ranks m v → ranked (<[n := x]> ranks) m v.
Proof.
  intros Hn (Hv & Hall & Hex). assert (∀ m' w, ranks !! m' = Some w → w ≤ 0 → <[n := x]> ranks !! m' = Some w) as Hkeep.
  { intros m' w Hw Hle. rewrite lookup_insert_ne; [done|]. intros ->. unfold marked in Hn. rewrite Hw in Hn. injection Hn as ->. by apply Hle. }
  split; [done|]. split.
  - intros m' Hm'. destruct (Hall m' Hm') as (w & Hw & Hlt). exists w. split; [|done]. apply Hkeep; [done|lia].
  - destruct Hex as [|(m' & w & Hm' & Hw & ->)]; [by left|right]. exists m', w. split; [done|]. split; [|done].
    destruct (Hall m' Hm') as (w' & Hw' & Hlt). apply Hkeep; [done|]. rewrite Hw in Hw'. injection Hw' as ->. lia.
Qed.

Lemma sound_mark ranks n : sound ranks → n ∈ names → ranks !! n = None → sound (<[n := 1]> ranks).
Proof.
  intros Hs Hn Hnone m v. rewrite lookup_insert_Some. intros [[<- <-]|[Hne Hm]]; [by split; [|left]|].
  destruct (Hs m v Hm) as [Hin [|Hr]]; split; auto. right. eapply ranked_mono; [|exact Hr]. by apply insert_subseteq.
Qed.

Lemma sound_unmark ranks n v : sound ranks → marked ranks n → ranked ranks n v → sound (<[n := v]> ranks).
Proof.
  intros Hs Hn Hr m w. rewrite lookup_insert_Some. intros [[<- <-]|[Hne Hm]].
  - destruct (Hs n 1 Hn) as [Hin _]. split; [done|]. right. by apply ranked_unmark.
  - destruct (Hs m w Hm) as [Hin [|Hrm]]; split; auto. right. by apply ranked_unmark.
Qed.

(** How many tables have not been visited. *)
Definition todo ranks : nat := base.size (list_to_set names ∖ dom ranks : gset str).

Lemma todo_mono ranks ranks' : ranks ⊆ ranks' → (todo ranks' ≤ todo ranks)%nat.
Proof. intros Hsub%subseteq_dom. unfold todo. apply (subseteq_size (C := gset str)). set_solver. Qed.

Lemma todo_mark ranks n v : n ∈ names → ranks !! n = None → (todo (<[n := v]> ranks) < todo ranks)%nat.
Proof.
  intros Hn Hnone. unfold todo. apply (subset_size (C := gset str)). rewrite dom_insert_L. apply not_elem_of_dom in Hnone.
  assert (n ∈ (list_to_set names : gset str)) by (by apply elem_of_list_to_set). set_solver.
Qed.

(** ** The search *)

(** After the references [done] of a table, whose visit began with [ranks0]. *)
Record progress ranks0 (done : list TableReferences.IrTableReference) (rank : Z) ranks : Prop := {
  progress_sound : sound ranks;
  progress_sub : ranks0 ⊆ ranks;
  progress_marked p : marked ranks p → marked ranks0 p;
  progress_rank : rank ≤ 0;
  progress_all r : r ∈ done → ∃ m w, destination r = Ok m ∧ ranks !! m = Some w ∧ rank < w ≤ 0;
  progress_one : rank = 0 ∨ ∃ r m w, r ∈ done ∧ destination r = Ok m ∧ ranks !! m = Some w ∧ rank = w - 1;
}.

Lemma visit_progress_step ranks0 done rank ranks r m v ranks' :
  progress ranks0 done rank ranks → destination r = Ok m → sound ranks' → ranks ⊆ ranks' →
  (∀ p, marked ranks' p → marked ranks p) → ranks' !! m = Some v → v ≤ 0 →
  progress ranks0 (done ++ [r]) (Z.min rank (v - 1)) ranks'.
Proof.
  intros [Hs Hsub Hm Hr Hall Hone] Hdst Hs' Hsub' Hm' Hv Hle.
  assert (∀ m' w, ranks !! m' = Some w → ranks' !! m' = Some w) as Hkeep by (intros; by eapply lookup_weaken).
  split; [done|by etransitivity|auto|lia| |].
  - intros r'. rewrite elem_of_app, list_elem_of_singleton. intros [Hr'| ->].
    + destruct (Hall r' Hr') as (m' & w & Hd & Hw & Hlt). exists m', w. split; [done|]. split; [auto|lia].
    + exists m, v. split; [done|]. split; [done|lia].
  - destruct (Z.min_spec rank (v - 1)) as [[_ ->]|[_ ->]].
    + destruct Hone as [|(r' & m' & w & Hr' & Hd & Hw & ->)]; [by left|right].
      exists r', m', w. split; [apply elem_of_app; by left|]. auto.
    + right. exists r, m, v. split; [apply elem_of_app; right; by apply list_elem_of_singleton|]. done.
Qed.

Definition cyclic : Prop := ∃ p, tc refers p p.

Abbreviation loop fuel := (λ '(rank, ranks) reference,
  referenced_table_name ← destination reference;
  '(child_rank, ranks) ← visit fuel info referenced_table_name ranks;
  Ok (Z.min rank (child_rank - 1), ranks)).

Definition visited ranks n (r : result (Z * gmap str Z)) : Prop :=
  (∃ v ranks', r = Ok (v, ranks') ∧ sound ranks' ∧ ranks ⊆ ranks' ∧ ranks' !! n = Some v ∧ v ≤ 0 ∧
     ∀ p, marked ranks' p → marked ranks p) ∨
  (r = Err kInvalidArgument ∧ cyclic).

Lemma loop_spec fuel n refs ranks0 :
  closed → outgoing n = Ok refs → n ∈ names →
  (∀ p, marked ranks0 p → p = n ∨ tc refers p n) → (todo ranks0 < fuel)%nat →
  (∀ ranks m, sound ranks → m ∈ names → (∀ p, marked ranks p → tc refers p m) → (todo ranks < fuel)%nat →
    visited ranks m (visit fuel info m ranks)) →
  ∀ done l rank ranks, refs = done ++ l → progress ranks0 done rank ranks →
  (∃ rank' ranks', fold_result (loop fuel) l (rank, ranks) = Ok (rank', ranks') ∧ progress ranks0 refs rank' ranks') ∨
  (fold_result (loop fuel) l (rank, ranks) = Err kInvalidArgument ∧ cyclic).
Proof.
  intros Hclosed Hrefs Hn Hpath Hfuel IH done l. revert done.
  induction l as [|r l IHl]; intros done rank ranks Hl Hp.
  { left. exists rank, ranks. split; [done|]. by rewrite Hl, app_nil_r. }
  assert (r ∈ refs) as Hr by (rewrite Hl; apply elem_of_app; right; by left).
  destruct (Hclosed n Hn) as (refs' & Hrefs' & Hdst). assert (refs' = refs) as -> by congruence.
  destruct (Hdst r Hr) as (m & Hm & Hmin). assert (refers n m) as Hedge by (by exists refs, r).
  assert (visited ranks m (visit fuel info m ranks)) as Hv.
  { apply IH; [by eapply progress_sound|done| |].
    - intros p Hmark. destruct (Hpath p) as [->|Htc]; [by eapply progress_marked|by apply tc_once|].
      eapply tc_r; eauto.
    - pose proof (todo_mono _ _ (progress_sub _ _ _ _ Hp)). lia. }
  cbn [fold_result]. rewrite Hm. cbn [mbind result_bind].
  destruct Hv as [(v & ranks' & -> & Hs' & Hsub' & Hval & Hle & Hmarks)|[-> Hc]]; [|by right].
  cbn [mbind result_bind]. apply (IHl (done ++ [r])); [by rewrite <-app_assoc|]. by eapply visit_progress_step.
Qed.

Lemma visit_spec fuel : closed → ∀ ranks n, sound ranks → n ∈ names →
  (∀ p, marked ranks p → tc refers p n) → (todo ranks < fuel)%nat → visited ranks n (visit fuel info n ranks).
Proof.
  intros Hclosed. induction fuel as [|fuel IH]; intros ranks n Hs Hn Hpath Hfuel; [lia|]. cbn [SetAndReturnTableDependencyRank].
  destruct (ranks !! n) as [v|] eqn:Hv.
  { destruct (Z.leb_spec v 0) as [Hle|Hlt].
    - left. exists v, ranks. by split_and!.
    - right. split; [done|]. destruct (Hs n v Hv) as [_ [->|(Hle & _)]]; [|lia]. exists n. by apply Hpath. }
  destruct (Hclosed n Hn) as (refs & Hrefs & _). rewrite Hrefs. cbn [mbind result_bind].
  pose proof (todo_mark ranks n 1 Hn Hv) as Hdec.
  destruct (loop_spec fuel n refs (<[n := 1]> ranks) Hclosed Hrefs Hn) with (done := @nil TableReferences.IrTableReference)
    (l := refs) (rank := 0) (ranks := <[n := 1]> ranks) as [(rank & ranks' & -> & Hp)|[-> Hc]].
  - intros p Hmark. unfold marked in Hmark. apply lookup_insert_Some in Hmark as [[<- _]|[_ Hm]]; [by left|right; auto].
  - lia.
  - apply IH.
  - done.
  - split; [by apply sound_mark|done|done|lia|by intros r ?%elem_of_nil|by left].
  - left. cbn [mbind result_bind]. destruct Hp as [Hs' Hsub Hmarks Hr Hall Hone]. exists rank, (<[n := rank]> ranks').
    assert (marked ranks' n) as Hmn by (eapply lookup_weaken; [apply lookup_insert_eq|exact Hsub]).
    split; [done|]. split; [|split; [|split; [|split; [done|]]]].
    + apply sound_unmark; [done..|]. split; [done|]. split.
      * intros m (refs' & r & Hrefs' & Hin & Hd). assert (refs' = refs) as -> by congruence.
        destruct (Hall r Hin) as (m' & w & Hd' & Hw & Hlt). rewrite Hd in Hd'. injection Hd' as ->. eauto.
      * destruct Hone as [|(r & m & w & Hin & Hd & Hw & ->)]; [by left|right]. exists m, w. split; [by exists refs, r|done].
    + apply insert_subseteq_r; [done|]. etransitivity; [|exact Hsub]. by apply insert_subseteq.
    + apply lookup_insert_eq.
    + intros p. unfold marked. rewrite lookup_insert_Some. intros [[<- ->]|[Hne Hmp]]; [lia|].
      specialize (Hmarks p Hmp). unfold marked in Hmarks. by rewrite lookup_insert_ne in Hmarks.
  - by right.
Qed.

Definition finished ranks : Prop := sound ranks ∧ ∀ p, ¬ marked ranks p.

Lemma construct_loop l ranks :
  closed → (∀ n, n ∈ l → n ∈ names) → finished ranks →
  (∃ ranks', fold_result (λ ranks table_name,
      '(_, ranks) ← visit (S (length names)) info table_name ranks; Ok ranks) l ranks = Ok ranks' ∧
    finished ranks' ∧ ranks ⊆ ranks' ∧ ∀ n, n ∈ l → is_Some (ranks' !! n)) ∨
  (fold_result (λ ranks table_name,
      '(_, ranks) ← visit (S (length names)) info table_name ranks; Ok ranks) l ranks = Err kInvalidArgument ∧ cyclic).
Proof.
  intros Hclosed. revert ranks. induction l as [|n l IH]; intros ranks Hl [Hs Hno].
  { left. exists ranks. split; [done|]. split; [done|]. split; [done|]. by intros n ?%elem_of_nil. }
  cbn [fold_result]. destruct (visit_spec (S (length names)) Hclosed ranks n) as [(v & ranks1 & -> & Hs1 & Hsub & Hv & Hle & Hm)|[-> Hc]].
  - done.
  - apply Hl. by left.
  - intros p Hp. by destruct (Hno p).
  - unfold todo. eapply Nat.le_lt_trans; [apply subseteq_size, subseteq_difference_l; reflexivity|].
    pose proof (size_list_to_set_le names). lia.
  - cbn [mbind result_bind]. destruct (IH ranks1) as [(ranks' & Heq & Hf & Hsub' & Hall)|[Heq Hc]].
    + intros m Hin. apply Hl. by right.
    + split; [done|]. intros p Hp. by apply (Hno p), Hm.
    + left. exists ranks'. split; [done|]. split; [done|]. split; [by etransitivity|].
      intros m [->|Hin]%elem_of_cons; [|auto]. exists v. by eapply lookup_weaken.
    + by right.
  - by right.
Qed.

Lemma outgoing_named n refs : outgoing n = Ok refs → n ∈ names.
Proof.
  unfold outgoing_references_of, all_table_names. rewrite elem_of_app, !list_elem_of_fmap.
  destruct (IsBuiltInTable n); intros (t & Ht%FindOrStatus_Ok & _)%bind_Ok_iff; [right|left];
    exists (n, t); (split; [done|by apply elem_of_map_to_list]).
Qed.

(** References increase the rank. *)
Lemma finished_increasing ranks n m :
  closed → finished ranks → (∀ p, p ∈ names → is_Some (ranks !! p)) → tc refers n m →
  ∃ v w, ranks !! n = Some v ∧ ranks !! m = Some w ∧ v < w.
Proof.
  intros Hclosed [Hs Hno] Hall. assert (∀ n m, refers n m → ∃ v w, ranks !! n = Some v ∧ ranks !! m = Some w ∧ v < w) as Hstep.
  { intros n' m' Hr. destruct Hr as (refs & r & Hrefs & Hin & Hd). pose proof (outgoing_named n' refs Hrefs) as Hn.
    destruct (Hall n' Hn) as [v Hv]. destruct (Hs n' v Hv) as [_ [->|(_ & Hm & _)]]; [by destruct (Hno n')|].
    destruct (Hm m') as (w & Hw & Hlt & _); [by exists refs, r|]. eauto. }
  induction 1 as [n m Hr|n p m Hr Htc (v & w & Hv & Hw & Hlt)]; [auto|].
  destruct (Hstep n p Hr) as (u & v' & Hu & Hv' & Hlt'). assert (v' = v) as -> by congruence.
  exists u, w. split_and!; [done..|lia].
Qed.

Lemma construct_Ok ranks :
  closed → dependency_rank_by_table_name info = ∅ → ConstructDependencyRankByTableName info = Ok ranks →
  ∀ n m, refers n m → ∃ v w, ranks !! n = Some v ∧ ranks !! m = Some w ∧ v < w ≤ 0.
Proof.
  intros Hclosed Hempty. unfold ConstructDependencyRankByTableName. rewrite Hempty.
  destruct (construct_loop names ∅ Hclosed) as [(ranks' & -> & [Hs Hno] & _ & Hall)|[-> _]]; [done| |intros [= <-]|done].
  { by split; intros ??; rewrite ?lookup_empty. }
  intros n m Hr. pose proof Hr as (refs & r & Hrefs & _). destruct (Hall n) as [v Hv]; [by eapply outgoing_named|].
  destruct (Hs n v Hv) as [_ [->|(_ & Hm & _)]]; [by destruct (Hno n)|]. destruct (Hm m Hr) as (w & Hw & Hlt). eauto.
Qed.

(** C4.  Tables are ranked by dependency.  When references lead from tables to tables,
    [ConstructDependencyRankByTableName] terminates: without a cycle of references it gives exactly the
    tables a rank, which is at most 0, below the ranks of all tables it refers to, and 0 or by one
    below the rank of one of them (so it is the length of the longest chain of references from the
    table, negated); when some table leads back to itself the result is INVALID_ARGUMENT. *)
Theorem dependency_ranks_exact :
  closed → dependency_rank_by_table_name info = ∅ →
  (¬ cyclic → ∃ ranks, ConstructDependencyRankByTableName info = Ok ranks ∧
     ∀ n, (n ∈ names → ∃ v, ranks !! n = Some v ∧ ranked ranks n v) ∧ (n ∉ names → ranks !! n = None)) ∧
  (cyclic → ConstructDependencyRankByTableName info = Err kInvalidArgument).
Proof.
  intros Hclosed Hempty. unfold ConstructDependencyRankByTableName. rewrite Hempty.
  destruct (construct_loop names ∅ Hclosed) as [(ranks & -> & Hf & _ & Hall)|[-> Hc]]; [done| | |].
  - by split; intros ??; rewrite ?lookup_empty.
  - split.
    + intros _. exists ranks. split; [done|]. destruct Hf as [Hs Hno]. intros n. split.
      * intros [v Hv]%Hall. exists v. split; [done|]. by destruct (Hs n v Hv) as [_ [->|]]; [destruct (Hno n)|].
      * intros Hn. apply eq_None_not_Some. intros [v Hv]. by destruct (Hs n v Hv).
    + intros [p Hp]. destruct (finished_increasing ranks p p Hclosed Hf Hall Hp) as (v & w & Hv & Hw & Hlt).
      rewrite Hv in Hw. injection Hw as ->. lia.
  - by split.
Qed.
End ranks.

(** ** Examples *)

(** Tables with these references. *)
Definition ranked_table (id : Z) (name : str) (destinations : list (str * Z)) : IrTableDefinition :=
  let table := TableReferences.P4Table name id in
  mkIrTableDefinition (named id name) ∅ ∅ [] [] 0 false None false None None None [] false []
    (map (λ '(d, i), TableReferences.mkIrTableReference table (TableReferences.P4Table d i) []) destinations).
Definition ranked_program (tables : list IrTableDefinition) : IrP4Info :=
  mkIrP4Info (list_to_map (map (λ t, (preamble_id t, t)) tables))
    (list_to_map (map (λ t, (preamble_alias t, t)) tables)) ∅ ∅ ∅ ∅ ∅ ∅ ∅ ∅ [] ∅ ∅.

(** A nexthop refers to a neighbor and a router interface, a neighbor to its router interface. *)
Definition routing_tables : IrP4Info :=
  ranked_program [ranked_table 1 $"nexthop" [($"neighbor", 2); ($"rif", 3)];
    ranked_table 2 $"neighbor" [($"rif", 3)]; ranked_table 3 $"rif" []].
Definition cyclic_tables : IrP4Info :=
  ranked_program [ranked_table 1 $"a" [($"b", 2)]; ranked_table 2 $"b" [($"a", 1)]].

Example routing_ranks :
  ConstructDependencyRankByTableName routing_tables =
  Ok {[ $"nexthop" := -2; $"neighbor" := -1; $"rif" := 0 ]}.
Proof. vm_compute. reflexivity. Qed.
Example cyclic_ranks : ConstructDependencyRankByTableName cyclic_tables = Err kInvalidArgument.
Proof. vm_compute. reflexivity. Qed.

(** Whether references lead from tables to tables, checked. *)
Definition closed_check (info : IrP4Info) : bool :=
  forallb (λ n, match outgoing_references_of info n with
    | Ok refs => forallb (λ r, match TableReferences.GetNameOfTable (TableReferences.destination_table r) with
        | Ok m => bool_decide (m ∈ all_table_names info) | _ => false end) refs
    | _ => false
    end) (all_table_names info).
Lemma closed_check_sound info : closed_check info = true → closed info.
Proof.
  unfold closed_check. rewrite forallb_forall. intros Hall n Hn%list_elem_of_In. specialize (Hall n Hn).
  destruct (outgoing_references_of info n) as [refs| |]; [|done..]. exists refs. split; [done|].
  rewrite forallb_forall in Hall. intros r Hr%list_elem_of_In. specialize (Hall r Hr).
  destruct (TableReferences.GetNameOfTable _) as [m| |]; [|done..]. exists m. by apply bool_decide_eq_true in Hall.
Qed.

Lemma dependency_ranks_exact_witness :
  cyclic cyclic_tables ∧ ConstructDependencyRankByTableName cyclic_tables = Err kInvalidArgument.
Proof.
  assert (cyclic cyclic_tables) as Hc.
  { exists $"a". apply (tc_l _ _ $"b"); [|apply tc_once].
    - eexists _, _. split; [vm_compute; reflexivity|]. split; [by left|reflexivity].
    - eexists _, _. split; [vm_compute; reflexivity|]. split; [by left|reflexivity]. }
  split; [exact Hc|].
  exact (proj2 (dependency_ranks_exact cyclic_tables (closed_check_sound cyclic_tables eq_refl) eq_refl) Hc).
Defined.
