(* ===== verification/IrTranslation.v ===== *)
(** p4_infra/p4_pdpi: the translation of [ir.cc] between P4Runtime messages (PI) and the intermediate
    representation (IR).  Every function checks what it translates and collects the reasons why a
    message is invalid; it fails, at its end, when there are some.  What the reasons say is not
    modelled, only whether there are any. *)
From S2P Require Import Prelude Bitset ByteString Abseil HexString NetAddr NetAddrText IrUtils EntityKeys IrData.

(** * Reasons *)

(** A reason ends the translation of the part (a [break] before the test of [invalid_reasons]). *)
Definition as_invalid {A} (r : result A) : result A :=
  match r with Err _ => Err kInvalidArgument | _ => r end.

(** The test of [invalid_reasons] at the end. *)
Definition unless_invalid {A} (reasons : bool) (a : A) : result A :=
  if reasons then Err kInvalidArgument else Ok a.

(** Both outcomes of a [StatusOr] in a loop that goes on after an error. *)
Definition attempt {A S} (r : result A) (failed : S) (ok : A → S) : result S :=
  match r with Ok a => Ok (ok a) | Err _ => Ok failed | Die => Die end.

(** The loops over parameters, match fields and metadata: an element whose key has been seen is a reason;
    any other is looked up and translated, which may fail with a reason.  The state holds the keys seen,
    the names noted for the check of completeness, the elements translated and whether there is a
    reason. *)
Definition unique_step {X K Y} `{Countable K} (key : X → K) (translate : X → result (gset str * list Y))
  (state : gset K * gset str * list Y * bool) (x : X) : result (gset K * gset str * list Y * bool) :=
  let '(used, names, out, reasons) := state in
  if bool_decide (key x ∈ used) then Ok (used, names, out, true) else
  attempt (translate x) ({[ key x ]} ∪ used, names, out, true) (λ '(noted, translated),
    ({[ key x ]} ∪ used, noted ∪ names, out ++ translated, reasons)).

(** The loops that go on after an element that cannot be translated, and the test at their end. *)
Definition translate_step {A B} (f : A → result B) (state : list B * bool) (a : A) : result (list B * bool) :=
  let '(out, reasons) := state in attempt (f a) (out, true) (λ b, (out ++ [b], reasons)).
Definition translate_all {A B} (f : A → result B) (l : list A) : result (list B) :=
  '(out, reasons) ← fold_result (translate_step f) l ([], false);
  unless_invalid reasons out.

Record TranslationOptions := mkTranslationOptions {
  key_only : bool;
  allow_unsupported : bool;
  allow_arbitrary_format : bool;
}.

Section translation.
Context `{AbslStrings} `{!Ipv6.Inet} `{Gutil}.
(** utf8_range, a third-party library. *)
Context (IsStructurallyValid : str → bool).
Abbreviation ArbitraryByteStringToIrValue := (ArbitraryByteStringToIrValue IsStructurallyValid).

(** * Completeness of fields and parameters *)

(** The names of the exact match fields. *)
Definition GetMandatoryMatches (table : IrTableDefinition) : gset str :=
  list_to_set (omap (λ '(_, definition),
    if bool_decide (match_type (match_field definition) = EXACT)
    then Some (element_name (match_element (match_field definition))) else None)
    (map_to_list (match_fields_by_name table))).

Definition CheckMandatoryMatches (actual_matches : gset str) (table : IrTableDefinition) : result () :=
  if bool_decide (Datatypes.length (elements actual_matches) = Datatypes.length (elements (GetMandatoryMatches table)))
  then Ok tt else Err kInvalidArgument.

Definition CheckParams (actual_params : gset str) (action : IrActionDefinition) : result () :=
  if bool_decide (Datatypes.length (elements actual_params) = Datatypes.length (map_to_list (params_by_name action)))
  then Ok tt else Err kInvalidArgument.

(** * From PI to IR: match fields *)

(** The value of an LPM or ternary match without the bits that are masked out. *)
Definition masked_value (value mask : str) : result () :=
  intersection ← as_invalid (Intersection value mask);
  if negb (bool_decide (value = intersection)) then Err kInvalidArgument else Ok tt.

(** The prefix length is an [int32] that is read as [uint32]; the functions it is passed to take an
    [int] again. *)
Definition PiMatchValueToIr (definition : IrMatchFieldDefinition) (pi_match : FieldMatch)
  : result Ir.MatchValue :=
  let format := match_format definition in
  let width := bitwidth (match_element (match_field definition)) in
  match match_type (match_field definition), field_match pi_match with
  | EXACT, kExact value =>
    exact ← as_invalid (ArbitraryByteStringToIrValue format width value); Ok (Ir.kExact exact)
  | LPM, kLpm value prefix_len =>
    let prefix_len := wrapU 32 prefix_len in
    let zero_prefix := prefix_len =? 0 in
    mask ← as_invalid (PrefixLenToMask (wrapS 32 prefix_len) width);
    value ← as_invalid (ArbitraryToNormalizedByteString value width);
    _ ← masked_value value mask;
    ir_value ← as_invalid (ArbitraryByteStringToIrValue format width value);
    unless_invalid zero_prefix (Ir.kLpm ir_value (wrapS 32 prefix_len))
  | TERNARY, kTernary value mask =>
    value ← as_invalid (ArbitraryToNormalizedByteString value width);
    mask ← as_invalid (ArbitraryToNormalizedByteString mask width);
    if IsAllZeros mask then Err kInvalidArgument else
    _ ← masked_value value mask;
    ir_value ← as_invalid (ArbitraryByteStringToIrValue format width value);
    ir_mask ← as_invalid (ArbitraryByteStringToIrValue format width mask);
    Ok (Ir.kTernary ir_value ir_mask)
  | OPTIONAL, kOptional value =>
    ir_value ← as_invalid (ArbitraryByteStringToIrValue format width value); Ok (Ir.kOptional ir_value)
  | _, _ => Err kInvalidArgument
  end.

Definition PiMatchFieldToIr (options : TranslationOptions) (ir_match_definition : IrMatchFieldDefinition)
  (pi_match : FieldMatch) : result Ir.Match :=
  let unsupported := match_is_unsupported ir_match_definition && negb (allow_unsupported options) in
  value ← PiMatchValueToIr ir_match_definition pi_match;
  unless_invalid unsupported
    (Ir.mkMatch (element_name (match_element (match_field ir_match_definition))) value).

(** * From PI to IR: actions *)

Definition PiParamToIr (action : IrActionDefinition) (pi_param : Z * str)
  : result (gset str * list (str * IrValue)) :=
  let '(param_id, value) := pi_param in
  match params_by_id action !! param_id with
  | None => Err kInvalidArgument
  | Some definition =>
    let name := element_name (param definition) in
    ir_value ← ArbitraryByteStringToIrValue (param_format definition) (bitwidth (param definition)) value;
    Ok ({[ name ]}, [(name, ir_value)])
  end.

Definition PiActionToIr (info : IrP4Info) (options : TranslationOptions) (pi_action : Action)
  (valid_actions : list IrActionReference) : result Ir.ActionInvocation :=
  match actions_by_id info !! action_id pi_action with
  | None => Err kInvalidArgument
  | Some action =>
    if negb (existsb (λ r, p4_id (action_preamble (ref_action r)) =? action_id pi_action) valid_actions)
    then Err kInvalidArgument
    else
      let unsupported := action_is_unsupported action && negb (allow_unsupported options) in
      '(_, actual_params, params, reasons) ←
        fold_result (unique_step fst (PiParamToIr action)) (params pi_action) (∅, ∅, [], unsupported);
      reasons ← attempt (CheckParams actual_params action) true (λ _, reasons);
      unless_invalid reasons (Ir.mkAction (alias (action_preamble action)) params)
  end.

Definition PiProfileActionToIr (info : IrP4Info) (options : TranslationOptions)
  (valid_actions : list IrActionReference) (pi_profile_action : ActionProfileAction)
  : result Ir.ActionSetInvocation :=
  ir_action ← PiActionToIr info options (set_action pi_profile_action) valid_actions;
  if weight pi_profile_action <? 1 then Err kInvalidArgument
  else Ok (Ir.mkInvocation ir_action (weight pi_profile_action) (watch_port pi_profile_action)).

Definition PiActionSetToIr (info : IrP4Info) (options : TranslationOptions)
  (pi_action_set : list ActionProfileAction) (valid_actions : list IrActionReference)
  : result (list Ir.ActionSetInvocation) :=
  translate_all (PiProfileActionToIr info options valid_actions) pi_action_set.

(** * From PI to IR: table entries *)

(** The names of exact matches are noted. *)
Definition exact_name (definition : IrMatchFieldDefinition) : gset str :=
  if bool_decide (match_type (match_field definition) = EXACT)
  then {[ element_name (match_element (match_field definition)) ]} else ∅.

Definition PiTableMatchToIr (options : TranslationOptions) (table : IrTableDefinition) (pi_match : FieldMatch)
  : result (gset str * list Ir.Match) :=
  match match_fields_by_id table !! field_id pi_match with
  | None => Err kInvalidArgument
  | Some definition =>
    match_entry ← PiMatchFieldToIr options definition pi_match;
    Ok (exact_name definition, [match_entry])
  end.

(** Whether a priority is given when, and only when, the table needs one. *)
Definition priority_ok (table : IrTableDefinition) (priority : Z) : bool :=
  if requires_priority table then 0 <? priority else priority =? 0.

(** The four numbers are copied. *)
Definition copy_meter_config (c : MeterConfig) : MeterConfig :=
  mkMeterConfig (cir c) (cburst c) (pir c) (pburst c) [].

Definition PiTableActionToIr (info : IrP4Info) (options : TranslationOptions) (table : IrTableDefinition)
  (pi_action : TableAction) : result Ir.EntryAction :=
  match entry_actions table, pi_action with
  | [], ACTION_ABSENT => Ok Ir.kNoAction
  | [], _ => Err kInvalidArgument
  | valid_actions, kAction action =>
    if uses_oneshot table then Err kInvalidArgument
    else ir_action ← PiActionToIr info options action valid_actions; Ok (Ir.kAction ir_action)
  | valid_actions, kActionProfileActionSet actions =>
    if negb (uses_oneshot table) then Err kInvalidArgument
    else ir_actions ← PiActionSetToIr info options actions valid_actions; Ok (Ir.kActionSet ir_actions)
  | _, _ => Err kInvalidArgument
  end.

(** Whether an entry of the table may have these meters and counters. *)
Definition meters_ok (table : IrTableDefinition) (meter_config : option MeterConfig)
  (counter_data : option CounterData) (meter_counter_data : option str) : bool :=
  negb (bool_decide (meter table = None) && bool_decide (is_Some meter_config)) &&
  negb (bool_decide (is_Some meter_counter_data) &&
        (bool_decide (meter table = None) || bool_decide (meter_config = None))) &&
  negb (bool_decide (counter table = None) && bool_decide (is_Some counter_data)).

Definition PiTableEntryToIr (info : IrP4Info) (pi : TableEntry) (options : TranslationOptions)
  : result Ir.TableEntry :=
  match tables_by_id info !! table_id pi with
  | None => Err kInvalidArgument
  | Some table =>
    let unsupported := is_unsupported table && negb (allow_unsupported options) in
    '(_, mandatory_matches, matches, reasons) ←
      fold_result (unique_step field_id (PiTableMatchToIr options table)) (match_ pi) (∅, ∅, [], unsupported);
    reasons ← attempt (CheckMandatoryMatches mandatory_matches table) true (λ _, reasons);
    let reasons := reasons || negb (priority_ok table (priority pi)) in
    if key_only options
    then unless_invalid reasons
           (Ir.mkEntry (preamble_alias table) matches (priority pi) Ir.kNoAction None None None [])
    else
      '(action, reasons) ←
        attempt (PiTableActionToIr info options table (action pi)) (Ir.kNoAction, true) (λ a, (a, reasons));
      let reasons :=
        reasons || negb (meters_ok table (meter_config pi) (counter_data pi) (meter_counter_data pi)) in
      unless_invalid reasons
        (Ir.mkEntry (preamble_alias table) matches (priority pi) action
           (copy_meter_config <$> meter_config pi) (counter_data pi) (meter_counter_data pi) (metadata pi))
  end.

(** * From PI to IR: packet replication *)

Definition PiReplicaToIr (pi : Replica) : result Ir.Replica :=
  match port_kind pi with
  | kPort port =>
    Ok (Ir.mkReplica port (instance pi)
          (map (λ b, Ir.mkBackup (EntityKeys.backup_port b) (EntityKeys.backup_instance b))
             (EntityKeys.backup_replicas pi)))
  | _ => Err kInvalidArgument
  end.

(** [flat_hash_set::insert(...).second] is false: the element was there. *)
Definition insert_new `{Countable A} (state : gset A * bool) (x : A) : gset A * bool :=
  ({[ x ]} ∪ fst state, snd state || bool_decide (x ∈ fst state)).

(** The checks of one replica: its port and instance, the ports of its backups, their ports and
    instances.  The first set is that of the (port, instance) pairs of the whole group. *)
Definition check_replica (port : str) (instance : Z) (backups : list (str * Z))
  (state : gset (str * Z) * bool) : gset (str * Z) * bool :=
  let state := insert_new state (port, instance) in
  let '(_, duplicate_ports) := fold_left insert_new (map fst backups) ({[ port ]}, false) in
  let state := (fst state, snd state || duplicate_ports) in
  fold_left insert_new backups state.

Definition pi_backups (replica : Replica) : list (str * Z) :=
  map (λ b, (EntityKeys.backup_port b, EntityKeys.backup_instance b)) (EntityKeys.backup_replicas replica).

(** One round of the loop over the replicas of a group, for either direction: the pairs seen, the replicas
    translated, and whether there is a reason. *)
Definition replica_step {R S} (translate : R → result S) (port : R → str) (instance : R → Z)
  (backups : R → list (str * Z)) (state : gset (str * Z) * list S * bool) (replica : R)
  : result (gset (str * Z) * list S * bool) :=
  let '(instances_by_port, replicas, reasons) := state in
  attempt (translate replica) (instances_by_port, replicas, true) (λ translated,
    let '(instances_by_port, reasons) :=
      check_replica (port replica) (instance replica) (backups replica) (instances_by_port, reasons) in
    (instances_by_port, replicas ++ [translated], reasons)).

Definition PiMulticastGroupEntryToIr (multicast_group_id : Z) (pi_replicas : list Replica) (metadata : str)
  (options : TranslationOptions) : result Ir.MulticastGroupEntry :=
  if key_only options then Ok (Ir.mkMulticast multicast_group_id [] metadata) else
  '(_, replicas, reasons) ← fold_result (replica_step PiReplicaToIr port instance pi_backups) pi_replicas
                          (∅, [], false);
  unless_invalid reasons (Ir.mkMulticast multicast_group_id replicas metadata).

Definition PiCloneSessionEntryToIr (session_id : Z) (pi_replicas : list Replica)
  (class_of_service packet_length_bytes : Z) (options : TranslationOptions) : result Ir.CloneSessionEntry :=
  if key_only options then Ok (Ir.mkCloneSession session_id [] 0 0) else
  replicas ← translate_all PiReplicaToIr pi_replicas;
  Ok (Ir.mkCloneSession session_id replicas class_of_service packet_length_bytes).

Definition PiPacketReplicationEngineEntryToIr (pi : PacketReplicationEngineEntry)
  (options : TranslationOptions) : result Ir.PacketReplicationEngineEntry :=
  match pi with
  | kMulticastGroupEntry multicast_group_id replicas metadata =>
    entry ← PiMulticastGroupEntryToIr multicast_group_id replicas metadata options;
    Ok (Ir.kMulticastGroupEntry entry)
  | kCloneSessionEntry session_id replicas class_of_service packet_length_bytes =>
    entry ← PiCloneSessionEntryToIr session_id replicas class_of_service packet_length_bytes options;
    Ok (Ir.kCloneSessionEntry entry)
  | PRE_TYPE_NOT_SET => Err kUnimplemented
  end.

(** An entity of another kind carries the name of its field, which is empty when none is set. *)
Definition PiEntityToIr (info : IrP4Info) (pi : Entity) (options : TranslationOptions) : result IrEntity :=
  match pi with
  | kTableEntry entry => entry ← PiTableEntryToIr info entry options; Ok (IrTable entry)
  | kPacketReplicationEngineEntry entry =>
    entry ← PiPacketReplicationEngineEntryToIr entry options; Ok (IrPacketReplicationEngine entry)
  | kOtherEntity field =>
    _ ← as_invalid (GetOneOfFieldName (if bool_decide (field = []) then None else Some field));
    Err kUnimplemented
  end.

(** * From IR to PI: match fields *)

(** A value of the format of the definition, as a canonical byte string (or an SDN string as it is). *)
Definition IrValueToPi (options : TranslationOptions) (format : Format) (width : Z) (ir_value : IrValue)
  : result str :=
  _ ← as_invalid (ValidateIrValueFormat ir_value format (allow_arbitrary_format options));
  value ← as_invalid (IrValueToNormalizedByteString ir_value width);
  Ok (if bool_decide (format = STRING) then value else ArbitraryToCanonicalByteString value).

(** A match of another kind than the definition's reads as an optional match without value. *)
Definition optional_value (value : Ir.MatchValue) : IrValue :=
  match value with Ir.kOptional v => v | _ => FORMAT_NOT_SET end.

(** Bit widths and prefix lengths are compared as [uint32]. *)
Definition IrMatchValueToPi (options : TranslationOptions) (definition : IrMatchFieldDefinition)
  (value : Ir.MatchValue) : result field_match_type :=
  let format := match_format definition in
  let width := bitwidth (match_element (match_field definition)) in
  match match_type (match_field definition) with
  | EXACT =>
    match value with
    | Ir.kExact exact => value ← IrValueToPi options format width exact; Ok (kExact value)
    | _ => Err kInvalidArgument
    end
  | LPM =>
    match value with
    | Ir.kLpm ir_value prefix_length =>
      let prefix_len := wrapU 32 prefix_length in
      if wrapU 32 width <? prefix_len then Err kInvalidArgument else
      _ ← as_invalid (ValidateIrValueFormat ir_value format (allow_arbitrary_format options));
      value ← as_invalid (IrValueToNormalizedByteString ir_value width);
      if prefix_len =? 0 then Err kInvalidArgument else
      mask ← as_invalid (PrefixLenToMask (wrapS 32 prefix_len) width);
      _ ← masked_value value mask;
      Ok (kLpm (ArbitraryToCanonicalByteString value) (wrapS 32 prefix_len))
    | _ => Err kInvalidArgument
    end
  | TERNARY =>
    match value with
    | Ir.kTernary ir_value ir_mask =>
      _ ← as_invalid (ValidateIrValueFormat ir_value format (allow_arbitrary_format options));
      _ ← as_invalid (ValidateIrValueFormat ir_mask format (allow_arbitrary_format options));
      value ← as_invalid (IrValueToNormalizedByteString ir_value width);
      mask ← as_invalid (IrValueToNormalizedByteString ir_mask width);
      if IsAllZeros mask then Err kInvalidArgument else
      _ ← masked_value value mask;
      Ok (kTernary (ArbitraryToCanonicalByteString value) (ArbitraryToCanonicalByteString mask))
    | _ => Err kInvalidArgument
    end
  | OPTIONAL =>
    let other_kind := match value with Ir.kOptional _ => false | _ => true end in
    value ← IrValueToPi options format width (optional_value value);
    unless_invalid other_kind (kOptional value)
  | _ => Err kInvalidArgument
  end.

Definition IrMatchFieldToPi (options : TranslationOptions) (ir_match_definition : IrMatchFieldDefinition)
  (ir_match : Ir.Match) : result FieldMatch :=
  let unsupported := match_is_unsupported ir_match_definition && negb (allow_unsupported options) in
  value ← IrMatchValueToPi options ir_match_definition (Ir.match_value ir_match);
  unless_invalid unsupported
    (mkFieldMatch (element_id (match_element (match_field ir_match_definition))) value).

(** * From IR to PI: actions *)

(** Every name looked at is noted, whether it is that of a parameter or not: the keys are checked. *)
Definition IrParamToPi (options : TranslationOptions) (action : IrActionDefinition)
  (ir_param : str * IrValue) : result (gset str * list (Z * str)) :=
  let '(name, value) := ir_param in
  match params_by_name action !! name with
  | None => Err kInvalidArgument
  | Some definition =>
    value ← IrValueToPi options (param_format definition) (bitwidth (param definition)) value;
    Ok (∅, [(element_id (param definition), value)])
  end.

Definition IrActionInvocationToPi (info : IrP4Info) (options : TranslationOptions)
  (ir_table_action : Ir.ActionInvocation) (valid_actions : list IrActionReference) : result Action :=
  let action_name := Ir.action_name ir_table_action in
  match actions_by_name info !! action_name with
  | None => Err kInvalidArgument
  | Some action =>
    if negb (existsb (λ r, bool_decide (alias (action_preamble (ref_action r)) = action_name)) valid_actions)
    then Err kInvalidArgument
    else
      let unsupported := action_is_unsupported action && negb (allow_unsupported options) in
      '(used_params, _, params, reasons) ←
        fold_result (unique_step fst (IrParamToPi options action)) (Ir.params ir_table_action)
          (∅, ∅, [], unsupported);
      reasons ← attempt (CheckParams used_params action) true (λ _, reasons);
      unless_invalid reasons (mkAction (p4_id (action_preamble action)) params)
  end.

(** The watch port is set unless it is empty. *)
Definition IrProfileActionToPi (info : IrP4Info) (options : TranslationOptions)
  (valid_actions : list IrActionReference) (ir_action : Ir.ActionSetInvocation) : result ActionProfileAction :=
  action ← IrActionInvocationToPi info options (Ir.action_ ir_action) valid_actions;
  if Ir.weight_ ir_action <? 1 then Err kInvalidArgument
  else
    let watch := if bool_decide (Ir.watch_port ir_action = []) then WATCH_KIND_NOT_SET
                 else kWatchPort (Ir.watch_port ir_action) in
    Ok (mkActionProfileAction action (Ir.weight_ ir_action) watch).

Definition IrActionSetToPi (info : IrP4Info) (options : TranslationOptions)
  (ir_action_set : list Ir.ActionSetInvocation) (valid_actions : list IrActionReference)
  : result (list ActionProfileAction) :=
  translate_all (IrProfileActionToPi info options valid_actions) ir_action_set.

(** * From IR to PI: table entries *)

Definition IrTableMatchToPi (options : TranslationOptions) (table : IrTableDefinition) (ir_match : Ir.Match)
  : result (gset str * list FieldMatch) :=
  match match_fields_by_name table !! Ir.match_name ir_match with
  | None => Err kInvalidArgument
  | Some definition =>
    match_entry ← IrMatchFieldToPi options definition ir_match;
    Ok (exact_name definition, [match_entry])
  end.

(** An action set for a table without actions is a reason, but the set is translated all the same. *)
Definition IrEntryActionToPi (info : IrP4Info) (options : TranslationOptions) (table : IrTableDefinition)
  (ir_action : Ir.EntryAction) : result TableAction :=
  let no_actions := bool_decide (Datatypes.length (entry_actions table) = 0%nat) in
  match ir_action with
  | Ir.kAction action =>
    if uses_oneshot table then Err kInvalidArgument
    else if no_actions then Err kInvalidArgument
    else action ← IrActionInvocationToPi info options action (entry_actions table); Ok (kAction action)
  | Ir.kActionSet actions =>
    if negb (uses_oneshot table) then Err kInvalidArgument
    else
      actions ← IrActionSetToPi info options actions (entry_actions table);
      unless_invalid no_actions (kActionProfileActionSet actions)
  | Ir.kNoAction => unless_invalid (negb no_actions) ACTION_ABSENT
  end.

Definition IrTableEntryToPi (info : IrP4Info) (ir : Ir.TableEntry) (options : TranslationOptions)
  : result TableEntry :=
  match tables_by_name info !! table_name ir with
  | None => Err kInvalidArgument
  | Some table =>
    let unsupported := is_unsupported table && negb (allow_unsupported options) in
    '(_, mandatory_matches, matches, reasons) ←
      fold_result (unique_step Ir.match_name (IrTableMatchToPi options table)) (Ir.matches ir)
        (∅, ∅, [], unsupported);
    reasons ← attempt (CheckMandatoryMatches mandatory_matches table) true (λ _, reasons);
    let reasons := reasons || negb (priority_ok table (Ir.entry_priority ir)) in
    if key_only options
    then unless_invalid reasons (plain_entry (preamble_id table) (Ir.entry_priority ir) matches ACTION_ABSENT)
    else
      '(action, reasons) ←
        attempt (IrEntryActionToPi info options table (Ir.entry_action ir)) (ACTION_ABSENT, true) (λ a, (a, reasons));
      let reasons :=
        reasons || negb (meters_ok table (Ir.entry_meter_config ir) (Ir.entry_counter_data ir)
                           (Ir.entry_meter_counter_data ir)) in
      unless_invalid reasons
        (mkTableEntry (preamble_id table) (Ir.entry_priority ir) matches action
           (Ir.entry_controller_metadata ir) (copy_meter_config <$> Ir.entry_meter_config ir)
           (Ir.entry_counter_data ir) (Ir.entry_meter_counter_data ir) 0 false 0 None [])
  end.

(** * From IR to PI: packet replication *)

Definition IrReplicaToPi (ir : Ir.Replica) : result Replica :=
  Ok (mkReplica (kPort (Ir.replica_port ir)) (Ir.replica_instance ir)
        (map (λ b, mkBackupReplica (Ir.backup_port b) (Ir.backup_instance b)) (Ir.backup_replicas ir))).

Definition ir_backups (replica : Ir.Replica) : list (str * Z) :=
  map (λ b, (Ir.backup_port b, Ir.backup_instance b)) (Ir.backup_replicas replica).

(** The metadata are set last: a translation of the key only returns before that. *)
Definition IrMulticastGroupEntryToPi (ir : Ir.MulticastGroupEntry) (options : TranslationOptions)
  : result PacketReplicationEngineEntry :=
  if key_only options then Ok (kMulticastGroupEntry (Ir.group_id ir) [] []) else
  '(_, replicas, reasons) ← fold_result (replica_step IrReplicaToPi Ir.replica_port Ir.replica_instance ir_backups)
                          (Ir.replicas ir) (∅, [], false);
  unless_invalid reasons (kMulticastGroupEntry (Ir.group_id ir) replicas (Ir.group_metadata ir)).

Definition IrCloneSessionEntryToPi (ir : Ir.CloneSessionEntry) (options : TranslationOptions)
  : result PacketReplicationEngineEntry :=
  if key_only options then Ok (kCloneSessionEntry (Ir.session_id ir) [] 0 0) else
  replicas ← translate_all IrReplicaToPi (Ir.session_replicas ir);
  Ok (kCloneSessionEntry (Ir.session_id ir) replicas (Ir.class_of_service ir) (Ir.packet_length_bytes ir)).

Definition IrPacketReplicationEngineEntryToPi (ir : Ir.PacketReplicationEngineEntry)
  (options : TranslationOptions) : result PacketReplicationEngineEntry :=
  match ir with
  | Ir.kMulticastGroupEntry entry => IrMulticastGroupEntryToPi entry options
  | Ir.kCloneSessionEntry entry => IrCloneSessionEntryToPi entry options
  | Ir.PRE_TYPE_NOT_SET => Err kUnimplemented
  end.

Definition IrEntityToPi (info : IrP4Info) (ir : IrEntity) (options : TranslationOptions) : result Entity :=
  match ir with
  | IrTable entry => entry ← IrTableEntryToPi info entry options; Ok (kTableEntry entry)
  | IrPacketReplicationEngine entry =>
    entry ← IrPacketReplicationEngineEntryToPi entry options; Ok (kPacketReplicationEngineEntry entry)
  | ENTITY_NOT_SET => _ ← as_invalid (GetOneOfFieldName None); Err kUnimplemented
  end.

(** * Sequences of entities *)

Definition PiEntitiesToIr (info : IrP4Info) (pi : list Entity) (options : TranslationOptions)
  : result (list IrEntity) := map_result (λ entity, PiEntityToIr info entity options) pi.
Definition IrEntitiesToPi (info : IrP4Info) (ir : list IrEntity) (options : TranslationOptions)
  : result (list Entity) := map_result (λ entity, IrEntityToPi info entity options) ir.
Definition PiTableEntriesToIr (info : IrP4Info) (pi : list TableEntry) (options : TranslationOptions)
  : result (list Ir.TableEntry) := map_result (λ entry, PiTableEntryToIr info entry options) pi.
Definition IrTableEntriesToPi (info : IrP4Info) (ir : list Ir.TableEntry) (options : TranslationOptions)
  : result (list TableEntry) := map_result (λ entry, IrTableEntryToPi info entry options) ir.

Definition PiReadResponseToIr (info : IrP4Info) (entities : list Entity) (options : TranslationOptions)
  : result (list IrEntity) := translate_all (λ entity, PiEntityToIr info entity options) entities.
Definition IrReadResponseToPi (info : IrP4Info) (entities : list IrEntity) (options : TranslationOptions)
  : result (list Entity) := translate_all (λ entity, IrEntityToPi info entity options) entities.

Definition IrEntitiesToTableEntries (control_plane_entries : list IrEntity) : result (list Ir.TableEntry) :=
  map_result (λ entry, match entry with IrTable entry => Ok entry | _ => Err kInternal end) control_plane_entries.
Definition IrTableEntriesToEntities (ir_table_entries : list Ir.TableEntry) : list IrEntity :=
  map IrTable ir_table_entries.
End translation.
