(* ===== verification/IrRoundtrip.v ===== *)
(** The translations of ir.cc undo each other: what is translated from P4Runtime to the intermediate
    representation is translated back to the same message in canonical form. *)
From S2P Require Import Prelude Bitset ByteString Abseil HexString NetAddr NetAddrText IrUtils EntityKeys IrData IrTranslation.

(** * The combinators *)

Lemma as_invalid_Ok {A} (r : result A) a : as_invalid r = Ok a → r = Ok a.
Proof. by destruct r. Qed.

Lemma unless_invalid_Ok {A} b (a x : A) : unless_invalid b a = Ok x ↔ b = false ∧ a = x.
Proof. destruct b; cbn; naive_solver. Qed.

Lemma attempt_Ok {A S} (r : result A) (failed s : S) (ok : A → S) :
  attempt r failed ok = Ok s ↔ (∃ a, r = Ok a ∧ ok a = s) ∨ (∃ e, r = Err e ∧ failed = s).
Proof. destruct r; cbn; naive_solver. Qed.

Lemma attempt_reasons {A} (r : result A) b : attempt r true (λ _, b) = Ok false ↔ is_Ok r = true ∧ b = false.
Proof. destruct r; cbn; naive_solver. Qed.

Lemma translate_step_true {A B} (f : A → result B) l out s :
  fold_result (translate_step f) l (out, true) = Ok s → snd s = true.
Proof.
  revert out. induction l as [|a l IH]; intros out; cbn [fold_result]; [by intros [= <-]|].
  intros (s1 & Hs & Hl)%bind_Ok_iff. cbn in Hs. apply attempt_Ok in Hs as [(b & _ & <-)|(e & _ & <-)]; eauto.
Qed.

(** The loops that go on after an error succeed when every element can be translated. *)
Lemma translate_all_Ok {A B} (f : A → result B) l out :
  translate_all f l = Ok out ↔ Forall2 (λ a b, f a = Ok b) l out.
Proof.
  unfold translate_all.
  assert (∀ out0 s, fold_result (translate_step f) l (out0, false) = Ok s →
    snd s = false → ∃ out1, fst s = out0 ++ out1 ∧ Forall2 (λ a b, f a = Ok b) l out1) as Hthere.
  { induction l as [|a l IH]; intros out0 s; cbn [fold_result].
    - intros [= <-] _. exists []. by rewrite app_nil_r.
    - intros (s1 & Hs & Hl)%bind_Ok_iff. cbn in Hs.
      apply attempt_Ok in Hs as [(b & Hb & <-)|(e & _ & <-)].
      + intros Hf. destruct (IH _ _ Hl Hf) as (out1 & -> & Hall). exists (b :: out1).
        by rewrite <-app_assoc; auto.
      + intros Hf. apply translate_step_true in Hl. congruence. }
  assert (∀ out0 out1, Forall2 (λ a b, f a = Ok b) l out1 →
    fold_result (translate_step f) l (out0, false) = Ok (out0 ++ out1, false)) as Hback.
  { clear Hthere. induction l as [|a l IH]; intros out0 out1 Hall; inversion Hall; subst; cbn [fold_result].
    - by rewrite app_nil_r.
    - cbn [translate_step]. rewrite H1. cbn [attempt mbind result_bind]. rewrite (IH _ _ H3).
      by rewrite <-app_assoc. }
  split.
  - intros ([out1 reasons] & Hl & [-> ->]%unless_invalid_Ok)%bind_Ok_iff.
    destruct (Hthere [] _ Hl eq_refl) as (out1 & Heq & Hall). by cbn in Heq; subst.
  - intros Hall. by rewrite (Hback [] out Hall).
Qed.

Section unique_loop.
Context {X K Y : Type} `{Countable K} (key : X → K) (f : X → result (gset str * list Y)).
Implicit Types (used : gset K) (names : gset str) (out : list Y) (ys : list (gset str * list Y)).

Lemma unique_step_true l used names out s :
  fold_result (unique_step key f) l (used, names, out, true) = Ok s → snd s = true.
Proof.
  revert used names out. induction l as [|x l IH]; intros used names out; cbn [fold_result]; [by intros [= <-]|].
  intros (s1 & Hs & Hl)%bind_Ok_iff. cbn in Hs. case_bool_decide; [injection Hs as <-; eauto|].
  apply attempt_Ok in Hs as [([n y] & _ & <-)|(e & _ & <-)]; eauto.
Qed.

Lemma unique_loop_there l used names out reasons s :
  fold_result (unique_step key f) l (used, names, out, reasons) = Ok s → snd s = false →
  reasons = false ∧ NoDup (map key l) ∧ (∀ x, x ∈ l → key x ∉ used) ∧
  ∃ ys, Forall2 (λ x y, f x = Ok y) l ys ∧
    s = (list_to_set (map key l) ∪ used, ⋃ (map fst ys) ∪ names, out ++ concat (map snd ys), false).
Proof.
  revert used names out reasons. induction l as [|x l IH]; intros used names out reasons; cbn [fold_result].
  - intros [= <-] Hr. cbn in Hr. split; [done|]. split; [constructor|]. split; [by intros ? ?%elem_of_nil|].
    exists []. split; [constructor|]. cbn. rewrite app_nil_r, Hr. by rewrite !(left_id_L ∅ (∪)).
  - intros (s1 & Hs & Hl)%bind_Ok_iff Hr. cbn in Hs. case_bool_decide as Hin.
    { injection Hs as <-. apply unique_step_true in Hl. congruence. }
    apply attempt_Ok in Hs as [([n y] & Hf & <-)|(e & _ & <-)].
    2: { apply unique_step_true in Hl. congruence. }
    destruct (IH _ _ _ _ Hl Hr) as (-> & Hnd & Hnew & ys & Hys & ->). split; [done|]. split; [|split].
    + cbn. constructor; [|done]. intros (x' & Heq & Hx')%list_elem_of_fmap.
      apply (Hnew x' Hx'). rewrite <-Heq. set_solver.
    + intros x' [->|Hx']%elem_of_cons; [done|]. specialize (Hnew x' Hx'). set_solver.
    + exists ((n, y) :: ys). split; [by constructor|]. cbn [map fst snd concat list_to_set union_list foldr].
      rewrite <-app_assoc. f_equal. f_equal. f_equal; set_solver.
Qed.

Lemma unique_loop_back l used names out ys :
  NoDup (map key l) → (∀ x, x ∈ l → key x ∉ used) → Forall2 (λ x y, f x = Ok y) l ys →
  fold_result (unique_step key f) l (used, names, out, false) =
    Ok (list_to_set (map key l) ∪ used, ⋃ (map fst ys) ∪ names, out ++ concat (map snd ys), false).
Proof.
  intros Hnd Hnew Hys. revert used names out Hnd Hnew.
  induction Hys as [|x [n y] l ys Hf Hys IH]; intros used names out Hnd Hnew; cbn [fold_result].
  - cbn. rewrite app_nil_r. by rewrite !(left_id_L ∅ (∪)).
  - cbn in Hnd. apply NoDup_cons in Hnd as [Hx Hnd]. cbn [unique_step].
    rewrite bool_decide_eq_false_2 by (apply Hnew; by left). rewrite Hf. cbn [attempt mbind result_bind].
    rewrite IH; [|done|].
    + cbn [map fst snd concat list_to_set union_list foldr]. rewrite <-app_assoc. f_equal. f_equal. f_equal.
      f_equal; set_solver.
    + intros x' Hx'. intros [Heq%elem_of_singleton|Hu]%elem_of_union.
      * apply Hx. rewrite <-Heq. by apply list_elem_of_fmap_2.
      * by apply (Hnew x'); [right|].
Qed.

(** The loops that reject repeated keys succeed when the keys differ and every element can be
    translated. *)
Lemma unique_loop_Ok l used names out reasons :
  fold_result (unique_step key f) l (∅, ∅, [], reasons) = Ok (used, names, out, false) ↔
  reasons = false ∧ NoDup (map key l) ∧
  ∃ ys, Forall2 (λ x y, f x = Ok y) l ys ∧ used = list_to_set (map key l) ∧ names = ⋃ (map fst ys) ∧
    out = concat (map snd ys).
Proof.
  split.
  - intros Hl. destruct (unique_loop_there _ _ _ _ _ _ Hl eq_refl) as (-> & Hnd & _ & ys & Hys & [= -> -> ->]).
    split; [done|]. split; [done|]. exists ys. by rewrite !(right_id_L ∅ (∪)).
  - intros (-> & Hnd & ys & Hys & -> & -> & ->).
    rewrite (unique_loop_back l ∅ ∅ [] ys Hnd); [by rewrite !(right_id_L ∅ (∪))|set_solver|done].
Qed.
End unique_loop.

(** * Well-formed programs

    What [CreateIrP4Info] guarantees, on which the translations rely: definitions are found under their
    ids and names, and formats fit widths. *)

Definition element_ok (format : Format) (element : Element) : Prop :=
  0 ≤ bitwidth element < 2 ^ 31 ∧ format_fits format (bitwidth element).

Record field_ok (definition : IrMatchFieldDefinition) : Prop := {
  field_element_ok : element_ok (match_format definition) (match_element (match_field definition));
  field_not_string :
    match_type (match_field definition) = LPM ∨ match_type (match_field definition) = TERNARY →
    match_format definition ≠ STRING;
}.

(** Two maps with the same definitions, by id and by name. *)
Record indexed {D} (id_of : D → Z) (name_of : D → str) (by_id : gmap Z D) (by_name : gmap str D) : Prop := {
  found_by_id i d : by_id !! i = Some d → id_of d = i ∧ by_name !! name_of d = Some d;
  found_by_name n d : by_name !! n = Some d → name_of d = n ∧ by_id !! id_of d = Some d;
}.

Record action_ok (action : IrActionDefinition) : Prop := {
  params_indexed :
    indexed (λ d, element_id (param d)) (λ d, element_name (param d)) (params_by_id action) (params_by_name action);
  params_ok i d : params_by_id action !! i = Some d → element_ok (param_format d) (param d);
}.

Record table_ok (info : IrP4Info) (table : IrTableDefinition) : Prop := {
  fields_indexed :
    indexed (λ d, element_id (match_element (match_field d))) (λ d, element_name (match_element (match_field d)))
      (match_fields_by_id table) (match_fields_by_name table);
  fields_ok i d : match_fields_by_id table !! i = Some d → field_ok d;
  actions_known r : r ∈ entry_actions table →
    actions_by_id info !! p4_id (action_preamble (ref_action r)) = Some (ref_action r);
}.

Record well_formed (info : IrP4Info) : Prop := {
  tables_indexed : indexed preamble_id preamble_alias (tables_by_id info) (tables_by_name info);
  tables_ok i t : tables_by_id info !! i = Some t → table_ok info t;
  actions_indexed : indexed (λ a, p4_id (action_preamble a)) (λ a, alias (action_preamble a))
    (actions_by_id info) (actions_by_name info);
  actions_ok i a : actions_by_id info !! i = Some a → action_ok a;
}.

Lemma indexed_inj {D} id_of name_of (by_id : gmap Z D) by_name i j d e :
  indexed id_of name_of by_id by_name → by_id !! i = Some d → by_id !! j = Some e →
  name_of d = name_of e → i = j.
Proof.
  intros Hx Hd He Hn. destruct (found_by_id _ _ _ _ Hx i d Hd) as [Hid Hdn].
  destruct (found_by_id _ _ _ _ Hx j e He) as [Hie Hen]. rewrite Hn in Hdn. congruence.
Qed.

(** * Canonical messages *)

(** The canonical form of the bytes of a value. *)
Definition pi_bytes (format : Format) (bytes : str) : str :=
  if bool_decide (format = STRING) then bytes else ArbitraryToCanonicalByteString bytes.

Definition canonical_match_value (format : Format) (v : field_match_type) : field_match_type :=
  match v with
  | kExact v => kExact (pi_bytes format v)
  | kLpm v p => kLpm (ArbitraryToCanonicalByteString v) p
  | kTernary v mask => kTernary (ArbitraryToCanonicalByteString v) (ArbitraryToCanonicalByteString mask)
  | kOptional v => kOptional (pi_bytes format v)
  | v => v
  end.

Definition canonical_match (table : IrTableDefinition) (m : FieldMatch) : FieldMatch :=
  let format := default HEX_STRING (match_format <$> match_fields_by_id table !! field_id m) in
  mkFieldMatch (field_id m) (canonical_match_value format (field_match m)).

Definition canonical_action (info : IrP4Info) (a : Action) : Action :=
  let params_by_id := default ∅ (params_by_id <$> actions_by_id info !! action_id a) in
  mkAction (action_id a) (map (λ '(i, v),
    (i, pi_bytes (default HEX_STRING (param_format <$> params_by_id !! i)) v)) (params a)).

Definition canonical_watch (w : WatchKind) : WatchKind :=
  match w with kWatchPort (_ :: _) => w | _ => WATCH_KIND_NOT_SET end.

Definition canonical_table_action (info : IrP4Info) (a : TableAction) : TableAction :=
  match a with
  | kAction a => kAction (canonical_action info a)
  | kActionProfileActionSet l =>
    kActionProfileActionSet (map (λ a, mkActionProfileAction (canonical_action info (set_action a)) (weight a)
                                         (canonical_watch (watch_kind a))) l)
  | a => a
  end.

(** The key of an entry, and the whole entry without the fields that are not translated. *)
Definition canonical_key (table : IrTableDefinition) (t : TableEntry) : TableEntry :=
  plain_entry (table_id t) (priority t) (map (canonical_match table) (match_ t)) ACTION_ABSENT.
Definition canonical_entry (info : IrP4Info) (table : IrTableDefinition) (t : TableEntry) : TableEntry :=
  mkTableEntry (table_id t) (priority t) (map (canonical_match table) (match_ t))
    (canonical_table_action info (action t)) (metadata t) (copy_meter_config <$> meter_config t)
    (counter_data t) (meter_counter_data t) 0 false 0 None [].

(** Byte strings of a protobuf message are short, and prefix lengths are not negative. *)
Definition bytes_short (bytes : str) : Prop := zlen bytes < 2 ^ 64.
Definition match_in_range (m : FieldMatch) : Prop :=
  match field_match m with
  | kExact v | kOptional v => bytes_short v
  | kLpm v p => bytes_short v ∧ 0 ≤ p < 2 ^ 31
  | kTernary v mask => bytes_short v ∧ bytes_short mask
  | _ => True
  end.
Definition action_in_range (a : Action) : Prop := Forall (λ '(_, v), bytes_short v) (params a).
Definition table_action_in_range (a : TableAction) : Prop :=
  match a with
  | kAction a => action_in_range a
  | kActionProfileActionSet l => Forall (λ a, action_in_range (set_action a)) l
  | _ => True
  end.
Definition entry_in_range (t : TableEntry) : Prop :=
  Forall match_in_range (match_ t) ∧ table_action_in_range (action t).

(** * Values *)

Lemma canonical_of_value s t :
  s ≠ [] → t ≠ [] → bytes_short s → bytes_short t → be_value s = be_value t →
  ArbitraryToCanonicalByteString s = ArbitraryToCanonicalByteString t.
Proof.
  intros Hs Ht Hsl Htl Hv. destruct (IrUtils.canonical_value s) as [Hvs Hcs]; [done..|].
  destruct (IrUtils.canonical_value t) as [Hvt Hct]; [done..|]. apply canonical_unique; [done..|congruence].
Qed.

Lemma IsAllZeros_value s : IsAllZeros s = bool_decide (be_value s = 0).
Proof.
  induction s as [|c s IH]; [done|].
  assert (IsAllZeros (c :: s) = bool_decide (c = zero) && IsAllZeros s) as ->.
  { unfold IsAllZeros. cbn [existsb]. by rewrite negb_orb, negb_involutive. }
  rewrite be_value_cons, IH. clear IH. pose proof (uchar_bound c). pose proof (be_value_bound s).
  pose proof (uchar_zero c) as Hz. assert (0 < 256 ^ zlen s) by (apply Z.pow_pos_nonneg; [lia|apply zlen_nonneg]).
  destruct (bool_decide (c = zero)) eqn:Hc; bool_prop; cbn [andb].
  - apply bool_decide_ext. rewrite (proj2 Hz Hc). lia.
  - symmetry. apply bool_decide_eq_false_2. intros Hv. apply Hc, Hz. nia.
Qed.

(** A value keeps its bits under the mask: the check does not depend on the padding. *)
Lemma masked_value_iff s mask :
  zlen s = zlen mask → masked_value s mask = Ok tt ↔ Z.land (be_value s) (be_value mask) = be_value s.
Proof.
  intros Hlen. unfold masked_value. pose proof (Intersection_spec s mask) as Hi.
  rewrite (proj2 (Z.eqb_eq _ _) Hlen) in Hi. destruct Hi as (r & -> & Hrl & Hrv). cbn [as_invalid mbind result_bind].
  case_bool_decide as Hr; cbn [negb].
  - subst r. split; [|done]. congruence.
  - split; [done|]. intros Hv. destruct Hr. apply be_value_inj; [unfold zlen in Hrl; lia|congruence].
Qed.

Lemma masked_value_length s mask u : masked_value s mask = Ok u → zlen s = zlen mask.
Proof.
  unfold masked_value. pose proof (Intersection_spec s mask) as Hi. destruct (Z.eqb_spec (zlen s) (zlen mask)); [done|].
  by rewrite Hi.
Qed.

Lemma normalized_Ok s w t :
  bytes_short s → ArbitraryToNormalizedByteString s w = Ok t →
  s ≠ [] ∧ 0 < w ∧ be_value s < 2 ^ w ∧ t = BitsetToPaddedByteString w (be_value s).
Proof.
  intros Hs Ht. destruct (decide (s = [])) as [->|Hne]; [done|]. rewrite normalized_eq in Ht by done.
  destruct (Z.ltb_spec 0 w), (Z.ltb_spec (be_value s) (2 ^ w)); try done. injection Ht as <-. done.
Qed.

Lemma padded_facts w v :
  0 < w < 2 ^ 31 → 0 ≤ v < 2 ^ w →
  let s := BitsetToPaddedByteString w v in
  be_value s = v ∧ zlen s = NumBitsToNumBytes w ∧ s ≠ [] ∧ bytes_short s.
Proof.
  intros Hw Hv s. assert (zlen s = NumBitsToNumBytes w) as Hl by (apply padded_length; [lia|done]).
  split; [apply padded_value; [lia|done]|]. split; [done|]. split; [by apply padded_nonempty; [lia|]|].
  unfold bytes_short. rewrite Hl. pose proof (NumBitsToNumBytes_bounds w). lia.
Qed.

Section values.
Context `{AbslStringsLaws} `{!Ipv6.Inet, !Ipv6.InetLaws} `{Gutil}.
Context (IsStructurallyValid : str → bool).
Abbreviation ArbitraryByteStringToIrValue := (ArbitraryByteStringToIrValue IsStructurallyValid).

(** The width of what values of a format are read back as. *)
Definition back_width (format : Format) (w : Z) : Z :=
  match format with IPV6 => 128 | _ => w end.

Lemma ValidateIrValueFormat_any v format b :
  ValidateIrValueFormat v format false = Ok tt → ValidateIrValueFormat v format b = Ok tt.
Proof. destruct v, format, b; cbn; done. Qed.

Lemma value_facts format w bytes v :
  bytes_short bytes → 0 ≤ w < 2 ^ 31 → format_fits format w → ArbitraryByteStringToIrValue format w bytes = Ok v →
  bytes ≠ [] ∧ (∀ b, ValidateIrValueFormat v format b = Ok tt) ∧
  IrValueToNormalizedByteString v w = Ok (read_back format w bytes) ∧
  (format ≠ STRING →
   read_back format w bytes = BitsetToPaddedByteString (back_width format w) (be_value bytes) ∧
   be_value bytes < 2 ^ w ∧ 0 < back_width format w < 2 ^ 31 ∧ be_value bytes < 2 ^ back_width format w).
Proof.
  intros Hlen Hw Hfit Hv. assert (bytes ≠ []) as Hne by (by intros ->).
  destruct (ir_value_read_back_eq IsStructurallyValid format w bytes v) as (Hval & Hf & Hn); [done..|].
  split; [done|]. split; [intros b; by apply ValidateIrValueFormat_any|]. split; [done|]. intros Hns.
  destruct format; cbn [format_fits fits_format read_back back_width] in *; subst; try done.
  assert (2 ^ w ≤ 2 ^ 128) by (apply Z.pow_le_mono_r; lia). split_and!; try done; lia.
Qed.

(** A value is translated back to its bytes in canonical form. *)
Lemma value_back options format w bytes v :
  bytes_short bytes → 0 ≤ w < 2 ^ 31 → format_fits format w → ArbitraryByteStringToIrValue format w bytes = Ok v →
  IrValueToPi options format w v = Ok (pi_bytes format bytes).
Proof.
  intros Hlen Hw Hfit Hv. destruct (value_facts format w bytes v) as (Hne & Hval & Hn & Hpad); [done..|].
  unfold IrValueToPi, pi_bytes. rewrite Hval, Hn. cbn [as_invalid mbind result_bind]. f_equal.
  case_bool_decide as Hs; [by subst|]. destruct (Hpad Hs) as (-> & _ & Hbw & Hlt).
  pose proof (be_value_bound bytes). destruct (padded_facts (back_width format w) (be_value bytes)) as (Hpv & _ & Hpn & Hps);
    [done|lia|]. by apply canonical_of_value.
Qed.

(** * Match fields *)

(** A longest-prefix match on IPv6 addresses is translated back only when it has all 128 bits: addresses
    are read back as 16 bytes, which are compared with a mask of the width of the field. *)
Definition lpm_addresses_full (definition : IrMatchFieldDefinition) : Prop :=
  match_type (match_field definition) = LPM → match_format definition = IPV6 →
  bitwidth (match_element (match_field definition)) = 128.

(** A value normalized to the width of its field is translated back to the same number. *)
Lemma normalized_back format w s t v :
  bytes_short s → 0 ≤ w < 2 ^ 31 → format_fits format w → format ≠ STRING →
  ArbitraryToNormalizedByteString s w = Ok t → ArbitraryByteStringToIrValue format w t = Ok v →
  (∀ b, ValidateIrValueFormat v format b = Ok tt) ∧
  ∃ n, IrValueToNormalizedByteString v w = Ok n ∧ be_value n = be_value t ∧
    zlen n = NumBitsToNumBytes (back_width format w) ∧ (back_width format w = w → n = t) ∧
    ArbitraryToCanonicalByteString n = ArbitraryToCanonicalByteString s.
Proof.
  intros Hs Hw Hfit Hns Ht Hv. destruct (normalized_Ok s w t) as (Hne & Hw0 & Hlt & ->); [done..|].
  pose proof (be_value_bound s) as [Hnn _].
  destruct (padded_facts w (be_value s)) as (Htv & Htl & Htn & Hts); [lia..|].
  destruct (value_facts format w _ v Hts Hw Hfit Hv) as (_ & Hval & Hn & Hpad).
  destruct (Hpad Hns) as (Heq & _ & Hbw & Hblt). rewrite Heq, Htv in Hn. rewrite Htv in Hblt.
  destruct (padded_facts (back_width format w) (be_value s)) as (Hnv & Hnl & Hnne & Hnsh); [lia..|].
  split; [done|]. eexists. split; [exact Hn|]. split; [congruence|]. split; [done|].
  split; [by intros ->|]. apply canonical_of_value; [done..|congruence].
Qed.

Lemma match_value_back options definition m v :
  field_ok definition → lpm_addresses_full definition → match_in_range m →
  PiMatchValueToIr IsStructurallyValid definition m = Ok v →
  IrMatchValueToPi options definition v = Ok (canonical_match_value (match_format definition) (field_match m)).
Proof.
  intros [[Hw Hfit] Hns] Hwide Hrange. unfold PiMatchValueToIr, IrMatchValueToPi, match_in_range, lpm_addresses_full in *.
  set (format := match_format definition) in *.
  set (w := bitwidth (match_element (match_field definition))) in *.
  destruct (match_type (match_field definition)); destruct (field_match m) as [b|b mask|b p|lo hi|b|payload|];
    try done; cbn [canonical_match_value].
  - intros (x & Hx%as_invalid_Ok & [= <-])%bind_Ok_iff. by rewrite (value_back _ _ _ b x).
  - destruct Hrange as [Hb Hp]. rewrite (wrapU_small 32 p), wrapS_small by lia.
    intros (msk & Hm%as_invalid_Ok & (t & Ht%as_invalid_Ok & ([] & Hmv & (x & Hx%as_invalid_Ok &
      [Hz <-]%unless_invalid_Ok)%bind_Ok_iff)%bind_Ok_iff)%bind_Ok_iff)%bind_Ok_iff.
    destruct (normalized_Ok b w t) as (_ & Hw0 & _ & _); [done..|].
    destruct (PrefixLenToMask_spec p w) as [Hlong _]; [lia|].
    assert (p ≤ w) as Hpw by (destruct (Z.lt_ge_cases w p) as [Hlt|]; [by rewrite Hlong in Hm|done]).
    destruct (normalized_back format w b t x) as (Hval & n & Hn & _ & _ & Hsame & Hc); [auto..|].
    rewrite (wrapU_small 32 p), (wrapU_small 32 w) by lia.
    rewrite (proj2 (Z.ltb_ge w p)), Hval, Hn, Hz by done. cbn [as_invalid mbind result_bind].
    rewrite wrapS_small, Hm by lia. cbn [as_invalid mbind result_bind].
    rewrite Hsame by (destruct format; cbn [back_width]; auto; by rewrite Hwide). rewrite Hmv.
    cbn [mbind result_bind]. rewrite <-Hc, Hsame by (destruct format; cbn [back_width]; auto; by rewrite Hwide).
    done.
  - destruct Hrange as [Hb Hmb].
    intros (t & Ht%as_invalid_Ok & (msk & Hm%as_invalid_Ok & Hrest)%bind_Ok_iff)%bind_Ok_iff.
    destruct (IsAllZeros msk) eqn:Hz; [done|].
    apply bind_Ok_iff in Hrest as ([] & Hmv & (x & Hx%as_invalid_Ok & (y & Hy%as_invalid_Ok &
      [= <-])%bind_Ok_iff)%bind_Ok_iff).
    destruct (normalized_back format w b t x) as (Hval & n & Hn & Hnv & Hnl & _ & Hc); [auto..|].
    destruct (normalized_back format w mask msk y) as (Hvalm & nm & Hnm & Hnmv & Hnml & _ & Hcm); [auto..|].
    rewrite Hval, Hvalm, Hn, Hnm. cbn [as_invalid mbind result_bind].
    rewrite IsAllZeros_value, Hnmv, <-IsAllZeros_value, Hz.
    assert (masked_value n nm = Ok tt) as ->.
    { apply masked_value_iff; [congruence|]. rewrite Hnv, Hnmv. apply masked_value_iff; [|done].
      by eapply masked_value_length. }
    cbn [mbind result_bind]. by rewrite Hc, Hcm.
  - intros (x & Hx%as_invalid_Ok & [= <-])%bind_Ok_iff. cbn [optional_value]. by rewrite (value_back _ _ _ b x).
Qed.

Lemma match_back options definition m ir :
  field_ok definition → lpm_addresses_full definition → match_in_range m →
  PiMatchFieldToIr IsStructurallyValid options definition m = Ok ir →
  Ir.match_name ir = element_name (match_element (match_field definition)) ∧
  IrMatchFieldToPi options definition ir =
    Ok (mkFieldMatch (element_id (match_element (match_field definition)))
          (canonical_match_value (match_format definition) (field_match m))).
Proof.
  intros Hok Hwide Hr. unfold PiMatchFieldToIr, IrMatchFieldToPi.
  intros (v & Hv & [Hu <-]%unless_invalid_Ok)%bind_Ok_iff. split; [done|]. cbn [Ir.match_value].
  rewrite (match_value_back options definition m v) by done. cbn [mbind result_bind]. by rewrite Hu.
Qed.

(** * Actions *)

Lemma concat_singletons {A} (l : list A) : concat (map snd (map (λ x, (∅ : gset str, [x])) l)) = l.
Proof. induction l as [|x l IH]; [done|]. cbn. by f_equal. Qed.

(** A parameter and its translation. *)
Definition param_name (action : IrActionDefinition) (i : Z) (name : str) : Prop :=
  ∃ d, params_by_id action !! i = Some d ∧ element_name (param d) = name.

Lemma param_name_inj action i j name :
  action_ok action → param_name action i name → param_name action j name → i = j.
Proof.
  intros Hok (d & Hd & <-) (e & He & Hn). by eapply (indexed_inj _ _ _ _ i j d e (params_indexed _ Hok)).
Qed.

Lemma params_back options action pi_params ys :
  action_ok action → Forall (λ '(_, v), bytes_short v) pi_params →
  Forall2 (λ x y, PiParamToIr IsStructurallyValid action x = Ok y) pi_params ys →
  let out := concat (map snd ys) in
  Forall2 (λ x y, IrParamToPi options action x = Ok y) out
    (map (λ x, (∅, [x])) (map (λ '(i, v),
       (i, pi_bytes (default HEX_STRING (param_format <$> params_by_id action !! i)) v)) pi_params)) ∧
  ⋃ (map fst ys) = list_to_set (map fst out) ∧
  Forall2 (param_name action) (map fst pi_params) (map fst out).
Proof.
  intros Hok Hshort Hys. induction Hys as [|[i b] y pi_params ys Hy Hys IH]; [by split_and!|].
  apply Forall_cons in Hshort as [Hb Hshort]. destruct (IH Hshort) as (IH1 & IH2 & IH3). clear IH.
  cbn in Hy. destruct (params_by_id action !! i) as [d|] eqn:Hd; [|done].
  apply bind_Ok_iff in Hy as (v & Hv & [= <-]). destruct (params_ok _ Hok i d Hd) as [Hw Hfit].
  destruct (found_by_id _ _ _ _ (params_indexed _ Hok) i d Hd) as [Hid Hname].
  cbn [map fst snd concat app list_to_set union_list foldr].
  split; [|split].
  - constructor; [|exact IH1]. cbn [IrParamToPi]. rewrite Hname, (value_back options _ _ b v) by done.
    cbn. by rewrite Hid, Hd.
  - by rewrite IH2.
  - constructor; [|exact IH3]. by exists d.
Qed.

Lemma action_back info options a valid_actions ir :
  well_formed info →
  (∀ r, r ∈ valid_actions → actions_by_id info !! p4_id (action_preamble (ref_action r)) = Some (ref_action r)) →
  action_in_range a → PiActionToIr IsStructurallyValid info options a valid_actions = Ok ir →
  IrActionInvocationToPi info options ir valid_actions = Ok (canonical_action info a).
Proof.
  intros Hwf Hvalid Hrange. unfold PiActionToIr, IrActionInvocationToPi, canonical_action.
  destruct (actions_by_id info !! action_id a) as [action|] eqn:Ha; [|done].
  destruct (existsb _ valid_actions) eqn:Hex; [cbn [negb]|done].
  intros ([[[used names] out] reasons] & Hloop & (r & Hr & [-> <-]%unless_invalid_Ok)%bind_Ok_iff)%bind_Ok_iff.
  apply attempt_reasons in Hr as [Hcheck ->].
  apply unique_loop_Ok in Hloop as (Hu & Hnd & ys & Hys & -> & -> & ->).
  destruct (found_by_id _ _ _ _ (actions_indexed _ Hwf) _ _ Ha) as [Hid Hname].
  pose proof (actions_ok _ Hwf _ _ Ha) as Hok. cbn [Ir.action_name Ir.params]. rewrite Hname.
  assert (existsb (λ r, bool_decide (alias (action_preamble (ref_action r)) = alias (action_preamble action)))
    valid_actions = true) as ->.
  { apply existsb_exists in Hex as (r & Hin & Heq%Z.eqb_eq). apply existsb_exists. exists r. split; [done|].
    apply bool_decide_eq_true. apply list_elem_of_In, Hvalid in Hin. rewrite Heq, Ha in Hin. congruence. }
  cbn [negb]. destruct (params_back options action (params a) ys Hok Hrange Hys) as (Hback & Hnames & Hids).
  assert (NoDup (map fst (concat (map snd ys)))) as Hndn.
  { eapply NoDup_Forall2_inj; [exact Hids| |done]. intros i j name. by apply param_name_inj. }
  cbn zeta in Hback, Hnames. rewrite Hu.
  rewrite (proj2 (unique_loop_Ok fst (IrParamToPi options action) _ _ _ _ false)
    (conj eq_refl (conj Hndn (ex_intro _ _ (conj Hback (conj eq_refl (conj eq_refl eq_refl))))))).
  cbn [mbind result_bind]. rewrite <-Hnames. destruct (CheckParams _ action); [|done..].
  cbn [attempt mbind result_bind unless_invalid]. by rewrite Hid, concat_singletons.
Qed.

Lemma action_set_back info options l valid_actions ir :
  well_formed info →
  (∀ r, r ∈ valid_actions → actions_by_id info !! p4_id (action_preamble (ref_action r)) = Some (ref_action r)) →
  Forall (λ a, action_in_range (set_action a)) l →
  PiActionSetToIr IsStructurallyValid info options l valid_actions = Ok ir →
  IrActionSetToPi info options ir valid_actions =
    Ok (map (λ a, mkActionProfileAction (canonical_action info (set_action a)) (weight a)
                    (canonical_watch (watch_kind a))) l).
Proof.
  intros Hwf Hvalid Hrange Hs%translate_all_Ok. apply translate_all_Ok.
  induction Hs as [|a i l ir Ha Hs IH]; [constructor|]. apply Forall_cons in Hrange as [Hr Hrange].
  cbn [map]. constructor; [|auto]. unfold PiProfileActionToIr, IrProfileActionToPi in *.
  apply bind_Ok_iff in Ha as (ir_action & Ha & Hw). destruct (weight a <? 1) eqn:Hwt; [done|].
  injection Hw as <-. cbn [Ir.action_ Ir.weight_ Ir.watch_port].
  rewrite (action_back info options (set_action a) valid_actions ir_action) by done.
  cbn [mbind result_bind]. rewrite Hwt. do 2 f_equal. unfold watch_port, canonical_watch.
  by destruct (watch_kind a) as [|[]|].
Qed.

Lemma table_action_back info options table a ir :
  well_formed info → table_ok info table → table_action_in_range a →
  PiTableActionToIr IsStructurallyValid info options table a = Ok ir →
  IrEntryActionToPi info options table ir = Ok (canonical_table_action info a).
Proof.
  intros Hwf Htable Hrange. pose proof (actions_known _ _ Htable) as Hvalid.
  unfold PiTableActionToIr, IrEntryActionToPi.
  destruct (entry_actions table) as [|v vs] eqn:Hactions.
  - destruct a; try done. by intros [= <-].
  - cbn [Datatypes.length]. rewrite bool_decide_eq_false_2 by done.
    destruct a as [|a| | |l|]; try done.
    + destruct (uses_oneshot table); [done|]. intros (i & Hi & [= <-])%bind_Ok_iff.
      by rewrite (action_back info options a (v :: vs) i).
    + destruct (uses_oneshot table); [cbn [negb]|done]. intros (i & Hi & [= <-])%bind_Ok_iff.
      by rewrite (action_set_back info options l (v :: vs) i).
Qed.

(** * Table entries *)

Definition match_named (table : IrTableDefinition) (i : Z) (name : str) : Prop :=
  ∃ d, match_fields_by_id table !! i = Some d ∧ element_name (match_element (match_field d)) = name.

Lemma match_named_inj info table i j name :
  table_ok info table → match_named table i name → match_named table j name → i = j.
Proof.
  intros Hok (d & Hd & <-) (e & He & Hn). by eapply (indexed_inj _ _ _ _ i j d e (fields_indexed _ _ Hok)).
Qed.

Lemma matches_back info options table pi_matches ys :
  table_ok info table → (∀ i d, match_fields_by_id table !! i = Some d → lpm_addresses_full d) →
  Forall match_in_range pi_matches →
  Forall2 (λ x y, PiTableMatchToIr IsStructurallyValid options table x = Ok y) pi_matches ys →
  let out := concat (map snd ys) in
  ∃ zs, Forall2 (λ x y, IrTableMatchToPi options table x = Ok y) out zs ∧
    map fst zs = map fst ys ∧ concat (map snd zs) = map (canonical_match table) pi_matches ∧
    Forall2 (match_named table) (map field_id pi_matches) (map Ir.match_name out).
Proof.
  intros Hok Hwide Hrange Hys. induction Hys as [|m y pi_matches ys Hy Hys IH].
  { exists []. by split_and!. }
  apply Forall_cons in Hrange as [Hm Hrange]. destruct (IH Hrange) as (zs & Hzs & Hn & Hc & Hids). clear IH.
  unfold PiTableMatchToIr in Hy. destruct (match_fields_by_id table !! field_id m) as [d|] eqn:Hd; [|done].
  apply bind_Ok_iff in Hy as (ir & Hir & [= <-]).
  destruct (found_by_id _ _ _ _ (fields_indexed _ _ Hok) _ d Hd) as [Hid Hname].
  destruct (match_back options d m ir) as [Hirn Hback]; [by eapply fields_ok|by eapply Hwide|done..|].
  exists ((exact_name d, [canonical_match table m]) :: zs).
  cbn [map fst snd concat app]. split; [|split; [|split]].
  - constructor; [|done]. unfold IrTableMatchToPi. rewrite Hirn, Hname, Hback. cbn [mbind result_bind].
    unfold canonical_match. by rewrite Hid, Hd.
  - by rewrite Hn.
  - by rewrite Hc.
  - constructor; [|done]. by exists d.
Qed.

Lemma table_entry_back info options table pi ir :
  well_formed info → tables_by_id info !! table_id pi = Some table →
  (∀ i d, match_fields_by_id table !! i = Some d → lpm_addresses_full d) → entry_in_range pi →
  PiTableEntryToIr IsStructurallyValid info pi options = Ok ir →
  IrTableEntryToPi info ir options =
    Ok (if key_only options then canonical_key table pi else canonical_entry info table pi).
Proof.
  intros Hwf Htable Hwide [Hmr Har]. unfold PiTableEntryToIr, IrTableEntryToPi. rewrite Htable.
  destruct (found_by_id _ _ _ _ (tables_indexed _ Hwf) _ _ Htable) as [Hid Hname].
  pose proof (tables_ok _ Hwf _ _ Htable) as Hok.
  intros ([[[used names] out] reasons] & Hloop & (r & Hr & Hrest)%bind_Ok_iff)%bind_Ok_iff.
  assert (reasons = false ∧ is_Ok (CheckMandatoryMatches names table) = true ∧ r = false ∧
    priority_ok table (priority pi) = true) as (-> & Hcheck & -> & Hprio).
  { assert (r || negb (priority_ok table (priority pi)) = false) as [-> Hp]%orb_false_iff.
    { destruct (key_only options); [by apply unless_invalid_Ok in Hrest as [? _]|].
      apply bind_Ok_iff in Hrest as ([a r'] & Ha & [Hf _]%unless_invalid_Ok).
      apply attempt_Ok in Ha as [(x & _ & [= <- <-])|(e & _ & [= <- <-])]; [by apply orb_false_iff in Hf as [? _]|done]. }
    apply attempt_reasons in Hr as [? ->]. by destruct (priority_ok _ _). }
  apply unique_loop_Ok in Hloop as (Hu & Hnd & ys & Hys & -> & -> & ->).
  destruct (matches_back info options table (match_ pi) ys Hok Hwide Hmr Hys) as (zs & Hzs & Hnames & Hout & Hids).
  assert (NoDup (map Ir.match_name (concat (map snd ys)))) as Hndn.
  { eapply NoDup_Forall2_inj; [exact Hids| |done]. intros i j name. by apply (match_named_inj info). }
  rewrite Hprio in Hrest. cbn [negb orb] in Hrest.
  assert (∀ ir', table_name ir' = preamble_alias table → Ir.matches ir' = concat (map snd ys) →
    tables_by_name info !! table_name ir' = Some table ∧
    fold_result (unique_step Ir.match_name (IrTableMatchToPi options table)) (Ir.matches ir')
      (∅, ∅, [], is_unsupported table && negb (allow_unsupported options)) =
    Ok (list_to_set (map Ir.match_name (concat (map snd ys))), ⋃ (map fst ys),
        map (canonical_match table) (match_ pi), false)) as Hthere.
  { intros ir' -> ->. split; [done|]. rewrite Hu. rewrite <-Hnames, <-Hout.
    apply unique_loop_Ok. split; [done|]. split; [done|]. by exists zs. }
  destruct (key_only options).
  - apply unless_invalid_Ok in Hrest as [_ <-]. match goal with |- context [table_name ?i] => destruct (Hthere i eq_refl eq_refl) as [-> Hl] end.
    rewrite Hl. cbn [mbind result_bind]. apply is_Ok_exists in Hcheck as [u Hcheck].
    rewrite Hcheck. cbn [attempt mbind result_bind Ir.entry_priority]. rewrite Hprio. cbn.
    by unfold canonical_key; rewrite Hid.
  - apply bind_Ok_iff in Hrest as ([a r'] & Ha & [Hf <-]%unless_invalid_Ok).
    apply orb_false_iff in Hf as [-> Hmeters].
    apply attempt_Ok in Ha as [(x & Hx & [= <-])|(e & _ & [=])].
    match goal with |- context [table_name ?i] => destruct (Hthere i eq_refl eq_refl) as [-> Hl] end.
    rewrite Hl. cbn [mbind result_bind]. apply is_Ok_exists in Hcheck as [u Hcheck].
    rewrite Hcheck. cbn [attempt mbind result_bind Ir.entry_priority Ir.entry_action Ir.entry_meter_config
      Ir.entry_counter_data Ir.entry_meter_counter_data Ir.entry_controller_metadata].
    rewrite Hprio. rewrite (table_action_back info options table (action pi) x) by done.
    cbn [attempt mbind result_bind negb orb].
    assert (meters_ok table (copy_meter_config <$> meter_config pi) (counter_data pi) (meter_counter_data pi) = true) as ->.
    { destruct (meters_ok table (meter_config pi) (counter_data pi) (meter_counter_data pi)) eqn:Hm; [|done].
      rewrite <-Hm. unfold meters_ok. by destruct (meter_config pi). }
    cbn [negb unless_invalid]. unfold canonical_entry. rewrite Hid. do 2 f_equal. by destruct (meter_config pi).
Qed.
End values.
