(* ===== verification/IrReplication.v ===== *)
(** The translations of packet replication entries: which groups of replicas are accepted, and that
    translating there and back changes nothing. *)
From S2P Require Import Prelude EntityKeys IrData IrTranslation IrRoundtrip.

(** * Pairs of ports and instances *)

Lemma insert_new_fold `{Countable A} (l : list A) (s : gset A) b :
  let r := fold_left insert_new l (s, b) in
  fst r = list_to_set l ∪ s ∧ (snd r = false ↔ b = false ∧ NoDup l ∧ ∀ x, x ∈ l → x ∉ s).
Proof.
  revert s b. induction l as [|x l IH]; intros s b; cbn [fold_left].
  - cbn. split; [by rewrite (left_id_L ∅ (∪))|]. split; [|tauto]. intros ->. split; [done|].
    split; [constructor|by intros ? ?%elem_of_nil].
  - unfold insert_new at 2. cbn [fst snd]. destruct (IH ({[ x ]} ∪ s) (b || bool_decide (x ∈ s))) as [-> ->].
    split; [cbn [list_to_set foldr]; set_solver|]. rewrite orb_false_iff, bool_decide_eq_false, NoDup_cons. split.
    + intros ([-> Hx] & Hnd & Hl). split; [done|]. split; [split; [|done]|].
      * intros Hin. specialize (Hl x Hin). set_solver.
      * intros y [->|Hy]%elem_of_cons; [done|]. specialize (Hl y Hy). set_solver.
    + intros (-> & [Hx Hnd] & Hl). split; [split; [done|apply Hl; by left]|]. split; [done|]. intros y Hy.
      assert (y ≠ x) by (by intros ->). specialize (Hl y ltac:(by right)). set_solver.
Qed.

(** The (port, instance) pairs of a replica and its backups. *)
Definition replica_pairs (port : str) (instance : Z) (backups : list (str * Z)) : list (str * Z) :=
  (port, instance) :: backups.

Lemma check_replica_spec port instance backups s b :
  let r := check_replica port instance backups (s, b) in
  let pairs := replica_pairs port instance backups in
  fst r = list_to_set pairs ∪ s ∧
  (snd r = false ↔ b = false ∧ NoDup pairs ∧ (∀ x, x ∈ pairs → x ∉ s) ∧ NoDup (port :: map fst backups)).
Proof.
  unfold check_replica.
  destruct (insert_new_fold (map fst backups) ({[ port ]} : gset str) false) as [_ Hports].
  destruct (fold_left insert_new (map fst backups) ({[ port ]}, false)) as [ports duplicate] eqn:Hf.
  cbn [snd fst] in Hports. cbn zeta.
  change (insert_new (s, b) (port, instance)) with
    (({[ (port, instance) ]} : gset _) ∪ s, b || bool_decide ((port, instance) ∈ s)). cbn [fst snd].
  destruct (insert_new_fold backups ({[ (port, instance) ]} ∪ s)
    ((b || bool_decide ((port, instance) ∈ s)) || duplicate)) as [Hfst Hsnd].
  split.
  { rewrite Hfst. unfold replica_pairs. cbn [list_to_set foldr]. set_solver. }
  rewrite Hsnd, !orb_false_iff, bool_decide_eq_false, Hports. unfold replica_pairs.
  rewrite !NoDup_cons. split.
  - intros ([[-> Hp] (_ & Hndp & Hpp)] & Hnd & Hb). split; [done|]. split; [split; [|done]|split].
    + intros Hin. specialize (Hb _ Hin). set_solver.
    + intros x [->|Hx]%elem_of_cons; [done|]. specialize (Hb x Hx). set_solver.
    + split; [|done]. intros Hin. specialize (Hpp _ Hin). set_solver.
  - intros (-> & [Hp Hnd] & Hb & Hpp & Hndp). split; [split; [split; [done|apply Hb; by left]|]|].
    + split; [done|]. split; [done|]. intros x Hx Heq%elem_of_singleton. by subst.
    + split; [done|]. intros x Hx. assert (x ≠ (port, instance)) by (by intros ->).
      specialize (Hb x ltac:(by right)). set_solver.
Qed.

(** * The loop over the replicas *)

Section replicas.
Context {R S : Type} (translate : R → result S) (port : R → str) (instance : R → Z) (backups : R → list (str * Z)).
Implicit Types (l : list R) (s : gset (str * Z)) (out : list S).
Abbreviation step := (replica_step translate port instance backups).

(** No (port, instance) pair is used twice in the group, and the ports of a replica and its backups
    differ. *)
Definition all_pairs l : list (str * Z) :=
  concat (map (λ r, replica_pairs (port r) (instance r) (backups r)) l).
Definition replicas_distinct l : Prop :=
  NoDup (all_pairs l) ∧ Forall (λ r, NoDup (port r :: map fst (backups r))) l.

Lemma replica_step_true l s out r : fold_result step l (s, out, true) = Ok r → snd r = true.
Proof.
  revert s out. induction l as [|x l IH]; intros s out; cbn [fold_result]; [by intros [= <-]|].
  intros (s1 & Hs & Hl)%bind_Ok_iff. cbn [replica_step] in Hs.
  apply attempt_Ok in Hs as [(ir & _ & <-)|(e & _ & <-)]; [|eauto].
  pose proof (check_replica_spec (port x) (instance x) (backups x) s true) as [_ Hsnd].
  destruct (check_replica _ _ _ _) as [s2 []]; [eauto|]. cbn [snd] in Hsnd. by destruct (proj1 Hsnd eq_refl).
Qed.

Lemma replicas_there l s out r :
  fold_result step l (s, out, false) = Ok r → snd r = false →
  replicas_distinct l ∧ (∀ x, x ∈ all_pairs l → x ∉ s) ∧
  ∃ translated, Forall2 (λ x y, translate x = Ok y) l translated ∧
    r = (list_to_set (all_pairs l) ∪ s, out ++ translated, false).
Proof.
  revert s out. induction l as [|x l IH]; intros s out; cbn [fold_result].
  - intros [= <-] _. split; [by split; constructor|]. split; [by intros ? ?%elem_of_nil|].
    exists []. cbn. by rewrite app_nil_r, (left_id_L ∅ (∪)).
  - intros (s1 & Hs & Hl)%bind_Ok_iff Hr. cbn [replica_step] in Hs.
    apply attempt_Ok in Hs as [(y & Hy & <-)|(e & _ & <-)].
    2: { apply replica_step_true in Hl. congruence. }
    destruct (check_replica_spec (port x) (instance x) (backups x) s false) as [Hfst Hsnd].
    destruct (check_replica _ _ _ _) as [s2 b2]. cbn [fst snd] in Hfst, Hsnd. subst s2.
    destruct b2; [apply replica_step_true in Hl; congruence|].
    destruct (proj1 Hsnd eq_refl) as (_ & Hnd & Hnew & Hports).
    destruct (IH _ _ Hl Hr) as ([Hall Hv] & Hfresh & ys & Hys & ->).
    split; [split; [|by constructor]|split].
    + unfold all_pairs. cbn [map concat]. apply NoDup_app. split; [done|]. split; [|done].
      intros z Hz Hz'. apply (Hfresh z Hz'), elem_of_union_l. by apply elem_of_list_to_set.
    + intros z [Hz|Hz]%elem_of_app; [by apply Hnew|]. intros Hs. by apply (Hfresh z Hz), elem_of_union_r.
    + exists (y :: ys). split; [by constructor|].
      unfold all_pairs. cbn [map concat]. rewrite list_to_set_app_L, <-app_assoc. cbn [app].
      f_equal. f_equal. by rewrite (assoc_L (∪)), (comm_L (∪) (list_to_set (concat _))).
Qed.

Lemma replicas_back l s out translated :
  replicas_distinct l → (∀ x, x ∈ all_pairs l → x ∉ s) → Forall2 (λ x y, translate x = Ok y) l translated →
  fold_result step l (s, out, false) = Ok (list_to_set (all_pairs l) ∪ s, out ++ translated, false).
Proof.
  intros Hd Hfresh Hys. revert s out Hd Hfresh.
  induction Hys as [|x y l ys Hy Hys IH]; intros s out [Hnd Hv] Hfresh; cbn [fold_result].
  - cbn. by rewrite app_nil_r, (left_id_L ∅ (∪)).
  - apply Forall_cons in Hv as [Hports Hv]. unfold all_pairs in *. cbn [map concat] in *.
    apply NoDup_app in Hnd as (Hndx & Hdisj & Hnd). cbn [replica_step].
    rewrite Hy. cbn [attempt mbind result_bind].
    destruct (check_replica_spec (port x) (instance x) (backups x) s false) as [Hfst Hsnd].
    destruct (check_replica _ _ _ _) as [s2 b2]. cbn [fst snd] in Hfst, Hsnd. subst s2.
    rewrite (proj2 Hsnd); [|split_and!; [done..| |done]; intros z Hz; apply Hfresh, elem_of_app; by left].
    rewrite IH; [|by split|].
    + rewrite list_to_set_app_L, <-app_assoc. cbn [app]. f_equal. f_equal. f_equal.
      by rewrite (assoc_L (∪)), (comm_L (∪) (list_to_set (concat _))).
    + intros z Hz [Hin%elem_of_list_to_set|Hin]%elem_of_union; [by apply (Hdisj z)|].
      apply (Hfresh z); [apply elem_of_app; by right|done].
Qed.

(** The loop accepts the replicas that can be translated and are distinct. *)
Lemma replicas_Ok l pairs out :
  fold_result step l (∅, [], false) = Ok (pairs, out, false) ↔
  replicas_distinct l ∧ Forall2 (λ x y, translate x = Ok y) l out ∧ pairs = list_to_set (all_pairs l).
Proof.
  split.
  - intros Hl. destruct (replicas_there _ _ _ _ Hl eq_refl) as (Hd & _ & ys & Hys & [= -> ->]).
    by rewrite (right_id_L ∅ (∪)).
  - intros (Hd & Hys & ->). rewrite (replicas_back l ∅ [] out Hd); [by rewrite (right_id_L ∅ (∪))|set_solver|done].
Qed.
End replicas.

(** * Replication entries *)

(** What a replica is translated to. *)
Definition ir_replica (r : Replica) : Ir.Replica :=
  Ir.mkReplica (port r) (instance r)
    (map (λ b, Ir.mkBackup (EntityKeys.backup_port b) (EntityKeys.backup_instance b)) (EntityKeys.backup_replicas r)).

Definition names_port (r : Replica) : Prop := ∃ p, port_kind r = kPort p.

Lemma PiReplicaToIr_Ok r ir : PiReplicaToIr r = Ok ir ↔ names_port r ∧ ir = ir_replica r.
Proof. unfold PiReplicaToIr, ir_replica, names_port, port. destruct (port_kind r); naive_solver. Qed.

Lemma IrReplicaToPi_back r : names_port r → IrReplicaToPi (ir_replica r) = Ok r.
Proof.
  destruct r as [k i backups]. intros [p [= ->]]. unfold IrReplicaToPi, ir_replica, port.
  cbn [Ir.replica_port Ir.replica_instance Ir.backup_replicas EntityKeys.backup_replicas port_kind instance].
  do 2 f_equal. rewrite map_map. rewrite <-(map_id backups) at 2. apply map_ext. by intros [].
Qed.

Lemma ir_replica_backups r : ir_backups (ir_replica r) = pi_backups r.
Proof. unfold ir_backups, pi_backups, ir_replica. cbn [Ir.backup_replicas]. by rewrite map_map. Qed.

Lemma translated_replicas l out :
  Forall2 (λ x y, PiReplicaToIr x = Ok y) l out ↔ Forall names_port l ∧ out = map ir_replica l.
Proof.
  split.
  - induction 1 as [|x y l out [Hx ->]%PiReplicaToIr_Ok _ [IH ->]]; [done|]. by split; [constructor|].
  - intros [Hl ->]. induction Hl as [|x l Hx Hl IH]; constructor; [by apply PiReplicaToIr_Ok|done].
Qed.

Lemma replicas_back_to_pi l :
  Forall names_port l → Forall2 (λ x y, IrReplicaToPi x = Ok y) (map ir_replica l) l.
Proof. induction 1 as [|x l Hx Hl IH]; constructor; [by apply IrReplicaToPi_back|done]. Qed.

Abbreviation distinct := (replicas_distinct port instance pi_backups).
Abbreviation ir_distinct := (replicas_distinct Ir.replica_port Ir.replica_instance ir_backups).

Lemma ir_replicas_pairs l :
  all_pairs Ir.replica_port Ir.replica_instance ir_backups (map ir_replica l) = all_pairs port instance pi_backups l.
Proof.
  unfold all_pairs. rewrite map_map. f_equal. apply map_ext. intros r. by rewrite ir_replica_backups.
Qed.

Lemma ir_replicas_distinct l : ir_distinct (map ir_replica l) ↔ distinct l.
Proof.
  unfold replicas_distinct. rewrite ir_replicas_pairs. apply and_iff_compat_l.
  rewrite Forall_map. apply Forall_iff. intros r. by rewrite ir_replica_backups.
Qed.

(** Multicast groups that are accepted, and what they become: every replica names a port, and the replicas are
    distinct. *)
Lemma multicast_group_Ok id l metadata options ir :
  key_only options = false →
  PiMulticastGroupEntryToIr id l metadata options = Ok ir ↔
  Forall names_port l ∧ distinct l ∧ ir = Ir.mkMulticast id (map ir_replica l) metadata.
Proof.
  intros Hk. unfold PiMulticastGroupEntryToIr. rewrite Hk. split.
  - intros ([[pairs out] reasons] & Hl & [-> <-]%unless_invalid_Ok)%bind_Ok_iff.
    by apply replicas_Ok in Hl as (Hd & [Hp ->]%translated_replicas & _).
  - intros (Hp & Hd & ->). rewrite (proj2 (replicas_Ok _ _ _ _ l (list_to_set (all_pairs port instance pi_backups l)) (map ir_replica l)));
      [done|]. split; [done|]. split; [|done]. by apply translated_replicas.
Qed.

(** What the key of a packet replication entry keeps. *)
Definition canonical_pre (options : TranslationOptions) (e : PacketReplicationEngineEntry)
  : PacketReplicationEngineEntry :=
  if key_only options then
    match e with
    | kMulticastGroupEntry id _ _ => kMulticastGroupEntry id [] []
    | kCloneSessionEntry id _ _ _ => kCloneSessionEntry id [] 0 0
    | e => e
    end
  else e.

Lemma pre_back options e ir :
  PiPacketReplicationEngineEntryToIr e options = Ok ir →
  IrPacketReplicationEngineEntryToPi ir options = Ok (canonical_pre options e).
Proof.
  unfold canonical_pre. destruct e as [id l metadata|id l cos len|]; [| |done]; cbn [PiPacketReplicationEngineEntryToIr].
  - intros (g & Hg & [= <-])%bind_Ok_iff. cbn [IrPacketReplicationEngineEntryToPi]. unfold IrMulticastGroupEntryToPi.
    destruct (key_only options) eqn:Hk.
    { unfold PiMulticastGroupEntryToIr in Hg. rewrite Hk in Hg. by injection Hg as <-. }
    apply multicast_group_Ok in Hg as (Hp & Hd & ->); [|done]. cbn [Ir.replicas Ir.group_id Ir.group_metadata].
    rewrite (proj2 (replicas_Ok _ _ _ _ (map ir_replica l) (list_to_set (all_pairs port instance pi_backups l)) l)); [done|].
    rewrite ir_replicas_pairs. split; [by apply ir_replicas_distinct|]. split; [|done]. by apply replicas_back_to_pi.
  - intros (g & Hg & [= <-])%bind_Ok_iff. cbn [IrPacketReplicationEngineEntryToPi].
    unfold IrCloneSessionEntryToPi, PiCloneSessionEntryToIr in *. destruct (key_only options); [by injection Hg as <-|].
    apply bind_Ok_iff in Hg as (out & [Hp ->]%translate_all_Ok%translated_replicas & [= <-]).
    cbn [Ir.session_id Ir.session_replicas Ir.class_of_service Ir.packet_length_bytes].
    by rewrite (proj2 (translate_all_Ok IrReplicaToPi (map ir_replica l) l) (replicas_back_to_pi l Hp)).
Qed.
