(* ===== verification/IrProgramCorrect.v ===== *)
(** What [CreateIrP4Info] guarantees: the program it returns is well formed, which is what the translations of
    ir.cc rely on. *)
From S2P Require Import Prelude Abseil IrUtils IrData BuiltIns Annotations ReferenceAnnotations IrProgram IrRanks IrTranslation IrRoundtrip.
From S2P Require TableReferences.

Section program_correct.
Context `{AbslStrings} `{Gutil}.

(** * Indexing *)

Lemma insert_indexed_Ok {D} id name (d : D) definitions r :
  insert_indexed id name d definitions = Ok r ↔
  fst definitions !! id = None ∧ snd definitions !! name = None ∧
  r = (<[id := d]> (fst definitions), <[name := d]> (snd definitions)).
Proof.
  unfold insert_indexed. split.
  - by intros (bi & [Hi ->]%InsertIfUnique_Ok & (bn & [Hn ->]%InsertIfUnique_Ok & [= <-])%bind_Ok_iff)%bind_Ok_iff.
  - intros (Hi & Hn & ->). rewrite (proj2 (InsertIfUnique_Ok _ _ _ _) (conj Hi eq_refl)). cbn [mbind result_bind].
    by rewrite (proj2 (InsertIfUnique_Ok _ _ _ _) (conj Hn eq_refl)).
Qed.

Lemma indexed_empty {D} (id_of : D → Z) (name_of : D → str) : indexed id_of name_of ∅ ∅.
Proof. by split. Qed.

Lemma indexed_insert {D} (id_of : D → Z) (name_of : D → str) d definitions r :
  indexed id_of name_of (fst definitions) (snd definitions) →
  insert_indexed (id_of d) (name_of d) d definitions = Ok r → indexed id_of name_of (fst r) (snd r).
Proof.
  intros Hx (Hi & Hn & ->)%insert_indexed_Ok. cbn [fst snd]. split.
  - intros i e. rewrite lookup_insert_Some. intros [[<- <-]|[Hne He]]; [by rewrite lookup_insert_eq|].
    destruct (found_by_id _ _ _ _ Hx i e He) as [Hid Hname]. split; [done|].
    rewrite lookup_insert_ne; [done|]. intros Heq. congruence.
  - intros n e. rewrite lookup_insert_Some. intros [[<- <-]|[Hne He]]; [by rewrite lookup_insert_eq|].
    destruct (found_by_name _ _ _ _ Hx n e He) as [Hname Hid]. split; [done|].
    rewrite lookup_insert_ne; [done|]. intros Heq. congruence.
Qed.

(** What is inserted is what is found. *)
Lemma insert_indexed_all {D} (P : D → Prop) id name (d : D) definitions r :
  insert_indexed id name d definitions = Ok r → P d → (∀ i e, fst definitions !! i = Some e → P e) →
  ∀ i e, fst r !! i = Some e → P e.
Proof.
  intros (_ & _ & ->)%insert_indexed_Ok Hd Hall i e. cbn [fst]. rewrite lookup_insert_Some.
  intros [[_ <-]|[_ He]]; [done|by eapply Hall].
Qed.

(** * Widths

    The compiler gives the width of everything that is not translated to a string. *)

Definition width_given (type_info : P4.TypeInfo) (element : Element) : Prop :=
  0 ≤ bitwidth element < 2 ^ 31 ∧ (is_sdn_string type_info element = Ok false → 0 < bitwidth element).

Record widths_given (p4_info : P4.P4Info) : Prop := {
  param_widths action param : action ∈ P4.actions p4_info → param ∈ P4.action_params action →
    width_given (P4.type_info p4_info) param;
  field_widths table field : table ∈ P4.tables p4_info → field ∈ P4.match_fields table →
    width_given (P4.type_info p4_info) (match_element field);
}.

Lemma format_of_element element type_info format :
  width_given type_info element → GetFormatForP4InfoElement element type_info = Ok format →
  element_ok format element.
Proof.
  intros [Hw Hpos]. unfold GetFormatForP4InfoElement. intros (b & Hb & Hf)%bind_Ok_iff. split; [done|].
  rewrite GetFormat_spec in Hf. destruct (format_annotations _) as [|a [|a' l]]; [|destruct (annotated_format a) as [[f fits]|] eqn:Ha; [|done]|done].
  - injection Hf as <-. destruct b; [done|]. cbn [format_fits]. specialize (Hpos Hb). lia.
  - destruct b; [done|]. cbn [negb andb] in Hf. destruct (fits (bitwidth element)) eqn:Hfits; [|done]. injection Hf as <-.
    specialize (Hpos Hb). unfold annotated_format in Ha. repeat case_bool_decide; simplify_eq; cbn [format_fits];
      cbn beta in Hfits; lia.
Qed.

(** * Actions *)

Lemma translate_params_spec p4_info l references params references' :
  Forall (width_given (P4.type_info p4_info)) l →
  fold_result (translate_param p4_info) l ((∅, ∅), references) = Ok (params, references') →
  indexed (λ d, element_id (param d)) (λ d, element_name (param d)) (fst params) (snd params) ∧
  ∀ i d, fst params !! i = Some d → element_ok (param_format d) (param d).
Proof.
  intros Hl Hfold. revert Hl. eapply (fold_result_ind _ (λ l '(params, _), Forall (width_given (P4.type_info p4_info)) l →
    indexed (λ d, element_id (param d)) (λ d, element_name (param d)) (fst params) (snd params) ∧
    ∀ i d, fst params !! i = Some d → element_ok (param_format d) (param d)) _ _ _ _ _ Hfold).
  Unshelve.
  - intros _. split; [apply indexed_empty|]. intros i d. cbn. by rewrite lookup_empty.
  - intros done p [ps1 r1] [ps2 r2] IH Hp [Hdone [Hwp _]%Forall_cons]%Forall_app. destruct (IH Hdone) as [Hx Hok].
    cbn in Hp. apply bind_Ok_iff in Hp as (f & Hf & (rs & _ & (ps & Hps & [= <- <-])%bind_Ok_iff)%bind_Ok_iff).
    set (d := mkIrActionParamDefinition p f rs) in *. split.
    + by apply (indexed_insert (λ d, element_id (param d)) (λ d, element_name (param d)) d ps1).
    + eapply (insert_indexed_all _ _ _ d ps1); [exact Hps| |exact Hok]. by eapply format_of_element.
Qed.

Abbreviation action_id_of := (λ a, p4_id (action_preamble a)).
Abbreviation action_alias_of := (λ a, alias (action_preamble a)).

Lemma translate_actions_spec p4_info l references actions references' :
  (∀ a p, a ∈ l → p ∈ P4.action_params a → width_given (P4.type_info p4_info) p) →
  fold_result (translate_action p4_info) l ((∅, ∅), references) = Ok (actions, references') →
  indexed action_id_of action_alias_of (fst actions) (snd actions) ∧
  ∀ i a, fst actions !! i = Some a → action_ok a.
Proof.
  intros Hl Hfold. revert Hl. eapply (fold_result_ind _ (λ l '(actions, _),
    (∀ a p, a ∈ l → p ∈ P4.action_params a → width_given (P4.type_info p4_info) p) →
    indexed action_id_of action_alias_of (fst actions) (snd actions) ∧
    ∀ i a, fst actions !! i = Some a → action_ok a) _ _ _ _ _ Hfold).
  Unshelve.
  - intros _. split; [apply indexed_empty|]. intros i d. cbn. by rewrite lookup_empty.
  - intros done a [as1 r1] [as2 r2] IH Ha Hl. destruct IH as [Hx Hok].
    { intros a' p Ha'. apply Hl, elem_of_app. by left. }
    cbn in Ha. apply bind_Ok_iff in Ha as ([ps rs] & Hps & (as3 & Has & [= <- <-])%bind_Ok_iff).
    apply translate_params_spec in Hps as [Hpx Hpok].
    2: { apply Forall_forall. intros p Hp. apply (Hl a p); [|done]. apply elem_of_app. right. by apply list_elem_of_singleton. }
    match type of Has with insert_indexed _ _ ?d _ = _ => set (definition := d) in * end. split.
    + by apply (indexed_insert action_id_of action_alias_of definition as1).
    + eapply (insert_indexed_all _ _ _ definition as1); [exact Has| |exact Hok]. by split.
Qed.

(** * Tables *)

(** What a table must be for the actions of the program. *)
Record table_good (actions : gmap Z IrActionDefinition) (table : IrTableDefinition) : Prop := {
  good_indexed : indexed (λ d, element_id (match_element (match_field d))) (λ d, element_name (match_element (match_field d)))
    (match_fields_by_id table) (match_fields_by_name table);
  good_fields i d : match_fields_by_id table !! i = Some d → field_ok d;
  good_actions r : r ∈ entry_actions table →
    actions !! p4_id (action_preamble (ref_action r)) = Some (ref_action r);
}.

Lemma translate_fields_spec p4_info l references fields priority references' :
  Forall (λ f, width_given (P4.type_info p4_info) (match_element f)) l →
  fold_result (translate_match_field p4_info) l ((∅, ∅), false, references) = Ok (fields, priority, references') →
  indexed (λ d, element_id (match_element (match_field d))) (λ d, element_name (match_element (match_field d)))
    (fst fields) (snd fields) ∧
  (∀ i d, fst fields !! i = Some d → field_ok d) ∧
  priority = existsb (λ f, needs_priority (match_type f)) l.
Proof.
  intros Hl Hfold. revert Hl. eapply (fold_result_ind _ (λ l '(fields, priority, _),
    Forall (λ f, width_given (P4.type_info p4_info) (match_element f)) l →
    indexed (λ d, element_id (match_element (match_field d))) (λ d, element_name (match_element (match_field d)))
      (fst fields) (snd fields) ∧ (∀ i d, fst fields !! i = Some d → field_ok d) ∧
    priority = existsb (λ f, needs_priority (match_type f)) l) _ _ _ _ _ Hfold).
  Unshelve.
  - intros _. split; [apply indexed_empty|]. split; [|done]. intros i d. cbn. by rewrite lookup_empty.
  - intros done f [[fs1 p1] r1] [[fs2 p2] r2] IH Hf [Hdone [Hwf _]%Forall_cons]%Forall_app.
    destruct (IH Hdone) as (Hx & Hok & ->). cbn in Hf.
    apply bind_Ok_iff in Hf as (fm & Hfm & ([] & Hvalid & (rs & _ & (fs & Hfs & [= <- <- <-])%bind_Ok_iff)%bind_Ok_iff)%bind_Ok_iff).
    match type of Hfs with insert_indexed _ _ ?d _ = _ => set (definition := d) in * end. split; [|split].
    + by apply (indexed_insert (λ d, element_id (match_element (match_field d)))
        (λ d, element_name (match_element (match_field d))) definition fs1).
    + eapply (insert_indexed_all _ _ _ definition fs1); [exact Hfs| |exact Hok]. split; cbn.
      * by eapply format_of_element.
      * unfold ValidateMatchFieldDefinition in Hvalid. cbn in Hvalid.
        intros [Ht|Ht]; rewrite Ht in Hvalid; by case_bool_decide.
    + rewrite existsb_app. cbn. by rewrite orb_false_r.
Qed.

Lemma translate_action_refs_spec actions l entry default :
  (∀ i a, actions !! i = Some a → p4_id (action_preamble a) = i) →
  fold_result (translate_action_ref actions) l ([], []) = Ok (entry, default) →
  ∀ r, r ∈ entry ++ default → actions !! p4_id (action_preamble (ref_action r)) = Some (ref_action r) ∧
    ref_id r = p4_id (action_preamble (ref_action r)).
Proof.
  intros Hid Hfold. eapply (fold_result_ind _ (λ _ '(entry, default), ∀ r, r ∈ entry ++ default →
    actions !! p4_id (action_preamble (ref_action r)) = Some (ref_action r) ∧
    ref_id r = p4_id (action_preamble (ref_action r))) _ _ _ _ _ Hfold).
  Unshelve.
  - by intros r ?%elem_of_nil.
  - intros _ x [e1 d1] [e2 d2] IH Hx. cbn in Hx.
    apply bind_Ok_iff in Hx as (a & Ha%FindOrStatus_Ok & Hx). pose proof (Hid _ _ Ha) as Hida.
    assert (∀ n, let r := mkIrActionReference (P4.action_ref_id x) a n in
      actions !! p4_id (action_preamble (ref_action r)) = Some (ref_action r) ∧
      ref_id r = p4_id (action_preamble (ref_action r))) as Hnew by (intros n; cbn; by rewrite Hida).
    case_bool_decide.
    + injection Hx as <- <-. intros r. rewrite !elem_of_app, list_elem_of_singleton. intros [Hr|[Hr| ->]].
      * apply IH, elem_of_app; auto.
      * apply IH, elem_of_app; auto.
      * apply Hnew.
    + apply bind_Ok_iff in Hx as (n & _ & [= <- <-]). intros r. rewrite !elem_of_app, list_elem_of_singleton.
      intros [[Hr| ->]|Hr].
      * apply IH, elem_of_app; auto.
      * apply Hnew.
      * apply IH, elem_of_app; auto.
Qed.

Record tables_good (actions : gmap Z IrActionDefinition) (tables : gmap Z IrTableDefinition * gmap str IrTableDefinition)
  : Prop := {
  good_tables_indexed : indexed preamble_id preamble_alias (fst tables) (snd tables);
  good_tables i t : fst tables !! i = Some t → table_good actions t;
}.

Lemma translate_tables_spec p4_info actions l references tables references' :
  (∀ i a, actions !! i = Some a → p4_id (action_preamble a) = i) →
  (∀ t f, t ∈ l → f ∈ P4.match_fields t → width_given (P4.type_info p4_info) (match_element f)) →
  fold_result (translate_table p4_info actions) l ((∅, ∅), references) = Ok (tables, references') →
  tables_good actions tables.
Proof.
  intros Hid Hl Hfold. revert Hl. eapply (fold_result_ind _ (λ l '(tables, _),
    (∀ t f, t ∈ l → f ∈ P4.match_fields t → width_given (P4.type_info p4_info) (match_element f)) →
    tables_good actions tables) _ _ _ _ _ Hfold).
  Unshelve.
  - intros _. split; [apply indexed_empty|]. intros i d. cbn. by rewrite lookup_empty.
  - intros done t [ts1 r1] [ts2 r2] IH Ht Hl. destruct IH as [Hx Hok].
    { intros t' f Ht'. apply Hl, elem_of_app. by left. }
    cbn in Ht. apply bind_Ok_iff in Ht as ([[fs p] rs] & Hfs & Ht). destruct (negb _); [done|].
    apply bind_Ok_iff in Ht as ([es ds] & Hrefs & (da & _ & (ts & Hts & [= <- <-])%bind_Ok_iff)%bind_Ok_iff).
    apply translate_fields_spec in Hfs as (Hfx & Hfok & _).
    2: { apply Forall_forall. intros f Hf. apply (Hl t f); [|done]. apply elem_of_app. right. by apply list_elem_of_singleton. }
    pose proof (translate_action_refs_spec _ _ _ _ Hid Hrefs) as Hknown.
    match type of Hts with insert_indexed _ _ ?d _ = _ => set (definition := d) in * end. split.
    + by apply (indexed_insert preamble_id preamble_alias definition ts1).
    + eapply (insert_indexed_all _ _ _ definition ts1); [exact Hts| |exact Hok]. split; cbn; [done..|].
      intros r Hr. apply Hknown, elem_of_app. by left.
Qed.

(** * Changes of tables that keep their shape *)

Record same_shape (t t' : IrTableDefinition) : Prop := {
  same_preamble : preamble t' = preamble t;
  same_fields_by_id : match_fields_by_id t' = match_fields_by_id t;
  same_fields_by_name : match_fields_by_name t' = match_fields_by_name t;
  same_actions : entry_actions t' = entry_actions t;
}.

Lemma table_good_shape actions t t' : same_shape t t' → table_good actions t → table_good actions t'.
Proof. intros [Hp Hi Hn Ha] [Hx Hf Hr]. split; rewrite ?Hi, ?Hn, ?Ha; done. Qed.

Lemma tables_good_update (actions : gmap Z IrActionDefinition) (tables : gmap Z IrTableDefinition * gmap str IrTableDefinition)
  (i : Z) (n : str) (t t' : IrTableDefinition) :
  tables_good actions tables → fst tables !! i = Some t → snd tables !! n = Some t → same_shape t t' →
  tables_good actions (<[i := t']> (fst tables), <[n := t']> (snd tables)).
Proof.
  intros [Hx Hg] Hi Hn Hsame. pose proof (same_preamble _ _ Hsame) as Hp.
  destruct (found_by_id _ _ _ _ Hx i t Hi) as [Hid Hbn]. destruct (found_by_name _ _ _ _ Hx n t Hn) as [Hname Hbi].
  assert (preamble_id t' = i ∧ preamble_alias t' = n) as [Hid' Hname'] by (unfold preamble_id, preamble_alias in *; by rewrite Hp).
  split; cbn [fst snd]; [split|].
  - intros j u. rewrite lookup_insert_Some. intros [[<- <-]|[Hne Hu]]; [by rewrite Hname', lookup_insert_eq|].
    destruct (found_by_id _ _ _ _ Hx j u Hu) as [Hidu Hnu]. split; [done|]. rewrite lookup_insert_ne; [done|]. intros Heq. congruence.
  - intros m u. rewrite lookup_insert_Some. intros [[<- <-]|[Hne Hu]]; [by rewrite Hid', lookup_insert_eq|].
    destruct (found_by_name _ _ _ _ Hx m u Hu) as [Hidu Hnu]. split; [done|]. rewrite lookup_insert_ne; [done|]. intros Heq. congruence.
  - intros j u. rewrite lookup_insert_Some. intros [[_ <-]|[_ Hu]]; [|by eapply Hg].
    eapply table_good_shape; [done|by eapply Hg].
Qed.

Lemma add_directs_spec actions set_unit l tables tables' :
  (∀ u t, same_shape t (set_unit u t)) → tables_good actions tables →
  fold_result (add_direct set_unit) l tables = Ok tables' → tables_good actions tables'.
Proof.
  intros Hshape Hg. apply (fold_result_ind _ (λ _, tables_good actions)); [done|].
  intros _ x [bi bn] ts2 Hg1 Hx. cbn in Hx. apply bind_Ok_iff in Hx as (t & Ht%FindOrStatus_Ok & [= <-]).
  destruct (found_by_id _ _ _ _ (good_tables_indexed _ _ Hg1) _ t Ht) as [_ Hn]. cbn [snd] in Hn. rewrite Hn.
  by apply (tables_good_update actions (bi, bn) _ _ t).
Qed.

(** * References between tables *)

#[local] Instance IrTable_eq_dec : EqDecision TableReferences.IrTable.
Proof. solve_decision. Defined.

(** What [f], or [g] for built-in tables, says of the table. *)
Definition at_table {A} (f : IrTableDefinition → A) (g : IrBuiltInTableDefinition → A)
  (by_name : gmap str IrTableDefinition) (built_in : gmap str IrBuiltInTableDefinition)
  (x : TableReferences.IrTable) : option A :=
  match x with
  | TableReferences.P4Table n i =>
    match by_name !! n with Some t => if preamble_id t =? i then Some (f t) else None | None => None end
  | TableReferences.BuiltInTable b =>
    match IrBuiltInTableToString b with Ok n => g <$> built_in !! n | _ => None end
  | TableReferences.TABLE_NOT_SET => None
  end.

Lemma built_in_names b c n : IrBuiltInTableToString b = Ok n → IrBuiltInTableToString c = Ok n → b = c.
Proof. destruct b, c; try done; cbn; by intros [= <-]. Qed.

(** Inserting a reference changes one table, at both places where it is kept. *)
Lemma insert_reference_info_spec actions x add add_built_in tables built_in tables' built_in' :
  (∀ t, same_shape t (add t)) → tables_good actions tables →
  is_Some (at_table id (λ _, default_table) (snd tables) built_in x) →
  insert_reference_info x add add_built_in (tables, built_in) = Ok (tables', built_in') →
  tables_good actions tables' ∧ (∀ n, is_Some (built_in' !! n) ↔ is_Some (built_in !! n)) ∧
  ∀ A (f : IrTableDefinition → A) g y, at_table f g (snd tables') built_in' y =
    if decide (y = x) then at_table (f ∘ add) (g ∘ add_built_in) (snd tables) built_in y
    else at_table f g (snd tables) built_in y.
Proof.
  intros Hshape Hg Hx. destruct tables as [bi bn]. destruct x as [n i|b|]; cbn [insert_reference_info at_table snd] in *.
  - destruct (bn !! n) as [t|] eqn:Hn; [|by destruct Hx]. destruct (Z.eqb_spec (preamble_id t) i) as [<-|]; [|by destruct Hx].
    destruct (found_by_name _ _ _ _ (good_tables_indexed _ _ Hg) n t Hn) as [_ Hi]. cbn [fst] in Hi. rewrite Hi.
    intros [= <- <-]. split; [by apply (tables_good_update actions (bi, bn) _ _ t)|]. split; [done|]. cbn [snd].
    assert (preamble_id (add t) = preamble_id t) as Hid by (unfold preamble_id; by rewrite (same_preamble _ _ (Hshape t))).
    intros A f g [m j|c|]; cbn [at_table]; [|by destruct (decide _)..].
    destruct (decide (n = m)) as [<-|Hne].
    + rewrite lookup_insert_eq, Hid, Hn. destruct (decide _) as [[= <-]|Hno]; [by rewrite Z.eqb_refl|].
      destruct (Z.eqb_spec (preamble_id t) j) as [<-|]; [by destruct Hno|done].
    + rewrite lookup_insert_ne by done. by destruct (decide _) as [[= <-]|].
  - intros (n & Hn & Hins)%bind_Ok_iff. rewrite Hn in Hx. destruct (built_in !! n) as [d|] eqn:Hd; [|done].
    injection Hins as <- <-. split; [done|]. split.
    { intros m. destruct (decide (n = m)) as [<-|]; [by rewrite lookup_insert_eq, Hd, !is_Some_alt|by rewrite lookup_insert_ne]. }
    intros A f g [m j|c|]; cbn [at_table snd]; [by destruct (decide _)| |by destruct (decide _)].
    destruct (IrBuiltInTableToString c) as [m| |] eqn:Hm; [|by destruct (decide _)..]. destruct (decide (n = m)) as [<-|Hne].
    + rewrite (built_in_names b c n Hn Hm). rewrite decide_True by done. by rewrite lookup_insert_eq, Hd.
    + rewrite lookup_insert_ne by done. destruct (decide _) as [[= ->]|]; [|done]. congruence.
  - by destruct Hx.
Qed.

(** ** The parsed references *)

(** A table of the program; the names of built-in tables are theirs. *)
Definition known (by_name : gmap str IrTableDefinition) (built_in : gmap str IrBuiltInTableDefinition)
  (x : TableReferences.IrTable) : Prop :=
  is_Some (at_table id (λ _, default_table) by_name built_in x) ∧
  match x with TableReferences.P4Table n _ => IsBuiltInTable n = false | _ => True end.

Definition has_built_ins (built_in : gmap str IrBuiltInTableDefinition) : Prop :=
  ∀ b n, IrBuiltInTableToString b = Ok n → is_Some (built_in !! n).

Lemma CreateIrTable_known info name x :
  has_built_ins (built_in_tables info) → CreateIrTable info name = Ok x →
  known (tables_by_name info) (built_in_tables info) x.
Proof.
  intros Hb. unfold CreateIrTable, known. destruct (IsBuiltInTable name) eqn:Hbuilt.
  - unfold CreateIrBuiltInTable. intros (b & Hbn & [= <-])%bind_Ok_iff. split; [|done]. cbn [at_table].
    assert (∃ n, IrBuiltInTableToString b = Ok n) as [n Hn].
    { destruct b; [|by eexists..]. unfold StringToIrBuiltInTable in Hbn. by repeat case_bool_decide. }
    rewrite Hn. destruct (Hb b n Hn) as [d ->]. by eexists.
  - unfold CreateIrP4Table. intros (t & Ht%FindOrStatus_Ok & [= <-])%bind_Ok_iff. split; [|done]. cbn [at_table].
    rewrite Ht, Z.eqb_refl. by eexists.
Qed.

Lemma ParseIrTableReferences_known info refs :
  has_built_ins (built_in_tables info) → ParseIrTableReferences info = Ok refs → ∀ r, r ∈ refs →
  known (tables_by_name info) (built_in_tables info) (TableReferences.source_table r) ∧
  known (tables_by_name info) (built_in_tables info) (TableReferences.destination_table r).
Proof.
  intros Hb. unfold ParseIrTableReferences. intros (by_action & _ & (by_table & _ & (rs & Hrs & [= <-])%bind_Ok_iff)%bind_Ok_iff)%bind_Ok_iff.
  intros r (l & Hl%list_elem_of_In & Hr%list_elem_of_In)%list_elem_of_In%in_concat. apply map_result_Ok in Hrs.
  apply list_elem_of_lookup in Hl as [i Hi]. destruct (Forall2_lookup_r _ _ _ _ _ Hrs Hi) as ([src by_dst] & _ & Hx).
  apply map_result_Ok in Hx. apply list_elem_of_lookup in Hr as [j Hj].
  destruct (Forall2_lookup_r _ _ _ _ _ Hx Hj) as ([dst fields] & _ & Hy). unfold assemble in Hy.
  destruct fields; [done|]. apply bind_Ok_iff in Hy as (x & Hsrc & (y & Hdst & [= <-])%bind_Ok_iff).
  cbn [TableReferences.source_table TableReferences.destination_table]. split; by eapply CreateIrTable_known.
Qed.

(** ** Tables before references *)

Definition unreferenced (t : IrTableDefinition) : Prop := incoming_references t = [] ∧ outgoing_references t = [].

Lemma translate_tables_unreferenced p4_info actions l references tables references' :
  fold_result (translate_table p4_info actions) l ((∅, ∅), references) = Ok (tables, references') →
  ∀ i t, fst tables !! i = Some t → unreferenced t.
Proof.
  intros Hfold. eapply (fold_result_ind _ (λ _ '(tables, _), ∀ i t, fst tables !! i = Some t → unreferenced t) _ _ _ _ _ Hfold).
  Unshelve.
  - intros i d. cbn. by rewrite lookup_empty.
  - intros _ t [ts1 r1] [ts2 r2] IH Ht. cbn in Ht. apply bind_Ok_iff in Ht as ([[fs p] rs] & _ & Ht).
    destruct (negb _); [done|]. apply bind_Ok_iff in Ht as ([es ds] & _ & (da & _ & (ts & Hts & [= <- <-])%bind_Ok_iff)%bind_Ok_iff).
    eapply insert_indexed_all; [exact Hts|done|exact IH].
Qed.

Lemma add_directs_unreferenced set_unit l tables tables' :
  (∀ u t, unreferenced t → unreferenced (set_unit u t)) →
  (∀ i t, fst tables !! i = Some t → unreferenced t) →
  fold_result (add_direct set_unit) l tables = Ok tables' → ∀ i t, fst tables' !! i = Some t → unreferenced t.
Proof.
  intros Hset Hall. apply (fold_result_ind _ (λ _ tables, ∀ i t, fst tables !! i = Some t → unreferenced t)); [done|].
  intros _ x [bi bn] ts2 IH Hx. cbn in Hx. apply bind_Ok_iff in Hx as (t & Ht%FindOrStatus_Ok & [= <-]).
  intros i u. cbn [fst]. rewrite lookup_insert_Some. intros [[_ <-]|[_ Hu]]; [apply Hset|]; by eapply IH.
Qed.

(** ** The inserted references *)

Abbreviation incoming_at := (at_table incoming_references built_in_incoming).
Abbreviation outgoing_at := (at_table outgoing_references built_in_outgoing).

(** After the references [done]: every table has those that concern it. *)
Record inserted (actions : gmap Z IrActionDefinition) (by_name0 : gmap str IrTableDefinition) (built_in0 : gmap str IrBuiltInTableDefinition)
  (done : list TableReferences.IrTableReference) (tables : gmap Z IrTableDefinition * gmap str IrTableDefinition)
  (built_in : gmap str IrBuiltInTableDefinition) : Prop := {
  inserted_good : tables_good actions tables;
  inserted_built_in n : is_Some (built_in !! n) → is_Some (built_in0 !! n);
  inserted_known x : is_Some (at_table id (λ _, default_table) (snd tables) built_in x) ↔
    is_Some (at_table id (λ _, default_table) by_name0 built_in0 x);
  inserted_outgoing x refs : outgoing_at (snd tables) built_in x = Some refs →
    ∀ r, r ∈ refs ↔ r ∈ done ∧ TableReferences.source_table r = x;
  inserted_incoming x refs : incoming_at (snd tables) built_in x = Some refs →
    ∀ r, r ∈ refs ↔ r ∈ done ∧ TableReferences.destination_table r = x;
}.

Lemma at_table_map {A B} (h : A → B) f g by_name built_in x :
  at_table (h ∘ f) (h ∘ g) by_name built_in x = h <$> at_table f g by_name built_in x.
Proof.
  destruct x as [n i|b|]; cbn [at_table]; [|destruct (IrBuiltInTableToString b) as [n| |]; [|done..]|done].
  - destruct (by_name !! n); [|done]. by destruct (_ =? _).
  - by destruct (built_in !! n).
Qed.

Lemma is_Some_at_table {A B} (f : IrTableDefinition → A) g (f' : IrTableDefinition → B) g' by_name built_in x :
  is_Some (at_table f g by_name built_in x) ↔ is_Some (at_table f' g' by_name built_in x).
Proof.
  destruct x as [n i|b|]; cbn [at_table]; [|destruct (IrBuiltInTableToString b) as [n| |]; [|done..]|done].
  - destruct (by_name !! n); [|by rewrite !is_Some_alt]. by destruct (_ =? _); rewrite !is_Some_alt.
  - by destruct (built_in !! n); rewrite !is_Some_alt.
Qed.

Lemma insert_references_step actions by_name0 built_in0 done tables built_in r tables' built_in' :
  inserted actions by_name0 built_in0 done tables built_in →
  is_Some (at_table id (λ _, default_table) by_name0 built_in0 (TableReferences.source_table r)) →
  is_Some (at_table id (λ _, default_table) by_name0 built_in0 (TableReferences.destination_table r)) →
  insert_reference (tables, built_in) r = Ok (tables', built_in') →
  inserted actions by_name0 built_in0 (done ++ [r]) tables' built_in'.
Proof.
  intros [Hg Hb Hk Ho Hi] Hs Hd. unfold insert_reference.
  intros ([tables1 built_in1] & Hout & Hin)%bind_Ok_iff.
  apply (insert_reference_info_spec actions) in Hout as (Hg1 & Hb1 & Hat1); [|by split|done|by apply Hk].
  assert (∀ x, is_Some (at_table id (λ _, default_table) (snd tables1) built_in1 x) ↔
    is_Some (at_table id (λ _, default_table) (snd tables) built_in x)) as Hk1.
  { intros x. rewrite (is_Some_at_table _ _ (λ _, tt) (λ _, tt)), Hat1.
    destruct (decide _); apply is_Some_at_table. }
  apply (insert_reference_info_spec actions) in Hin as (Hg2 & Hb2 & Hat2); [|by split|done|by apply Hk1, Hk].
  split; [done| | | |].
  - intros n Hn. by apply Hb, Hb1, Hb2.
  - intros x. rewrite <-Hk, <-Hk1. rewrite (is_Some_at_table _ _ (λ _, tt) (λ _, tt)), Hat2.
    destruct (decide _); apply is_Some_at_table.
  - intros x refs Hrefs r'. rewrite elem_of_app, list_elem_of_singleton. rewrite Hat2 in Hrefs.
    assert (outgoing_at (snd tables1) built_in1 x = Some refs) as Hrefs1 by (by destruct (decide _)).
    clear Hrefs. rewrite Hat1 in Hrefs1. destruct (decide (x = TableReferences.source_table r)) as [->|Hne].
    + change (outgoing_references ∘ with_outgoing r) with ((λ l, l ++ [r]) ∘ outgoing_references) in Hrefs1.
      change (built_in_outgoing ∘ with_built_in_outgoing r) with ((λ l, l ++ [r]) ∘ built_in_outgoing) in Hrefs1.
      rewrite at_table_map in Hrefs1. apply fmap_Some in Hrefs1 as (refs0 & Hrefs0 & ->).
      rewrite elem_of_app, list_elem_of_singleton, (Ho _ _ Hrefs0). naive_solver.
    + rewrite (Ho _ _ Hrefs1). naive_solver.
  - intros x refs Hrefs r'. rewrite elem_of_app, list_elem_of_singleton. rewrite Hat2 in Hrefs.
    destruct (decide (x = TableReferences.destination_table r)) as [->|Hne].
    + change (incoming_references ∘ with_incoming r) with ((λ l, l ++ [r]) ∘ incoming_references) in Hrefs.
      change (built_in_incoming ∘ with_built_in_incoming r) with ((λ l, l ++ [r]) ∘ built_in_incoming) in Hrefs.
      rewrite at_table_map in Hrefs. apply fmap_Some in Hrefs as (refs0 & Hrefs0 & ->). rewrite Hat1 in Hrefs0.
      assert (incoming_at (snd tables) built_in (TableReferences.destination_table r) = Some refs0) as Hrefs1 by (by destruct (decide _)).
      rewrite elem_of_app, list_elem_of_singleton, (Hi _ _ Hrefs1). naive_solver.
    + rewrite Hat1 in Hrefs. assert (incoming_at (snd tables) built_in x = Some refs) as Hrefs1 by (by destruct (decide _)).
      rewrite (Hi _ _ Hrefs1). naive_solver.
Qed.

(** * The created program *)

Lemma built_in_definitions_spec :
  ∃ built_in, built_in_definitions = Ok built_in ∧ has_built_ins built_in ∧
    (∀ n, is_Some (built_in !! n) → IsBuiltInTable n = true) ∧
    ∀ n d, built_in !! n = Some d → built_in_incoming d = [] ∧ built_in_outgoing d = [].
Proof.
  eexists. split; [reflexivity|]. set (m := GetMulticastGroupTableName). set (c := GetCloneSessionTableName).
  split; [|split].
  - intros [] n; [done|intros [= <-]..].
    + destruct (decide (c = m)) as [->|]; [by rewrite lookup_insert_eq|]. by rewrite lookup_insert_ne, lookup_insert_eq.
    + by rewrite lookup_insert_eq.
  - intros n [d Hd]. rewrite lookup_insert_Some, lookup_insert_Some, lookup_empty in Hd.
    destruct Hd as [[<- _]|[_ [[<- _]|[_ [=]]]]]; reflexivity.
  - intros n d. rewrite lookup_insert_Some, lookup_insert_Some, lookup_empty. naive_solver.
Qed.

Record created (info : IrP4Info) (by_name0 : gmap str IrTableDefinition) (built_in0 : gmap str IrBuiltInTableDefinition)
  (refs : list TableReferences.IrTableReference) : Prop := {
  created_actions : indexed action_id_of action_alias_of (actions_by_id info) (actions_by_name info);
  created_actions_ok i a : actions_by_id info !! i = Some a → action_ok a;
  created_tables : inserted (actions_by_id info) by_name0 built_in0 refs (tables_by_id info, tables_by_name info)
    (built_in_tables info);
  created_known r : r ∈ refs → known by_name0 built_in0 (TableReferences.source_table r) ∧
    known by_name0 built_in0 (TableReferences.destination_table r);
  created_built_ins : has_built_ins built_in0;
  created_named n : is_Some (built_in0 !! n) → IsBuiltInTable n = true;
  created_ranks : ∃ info0, outgoing_references_of info0 = outgoing_references_of info ∧
    all_table_names info0 = all_table_names info ∧ dependency_rank_by_table_name info0 = ∅ ∧
    ConstructDependencyRankByTableName info0 = Ok (dependency_rank_by_table_name info);
}.

Lemma create_spec p4_info info :
  widths_given p4_info → CreateIrP4Info p4_info = Ok info → ∃ by_name0 built_in0 refs, created info by_name0 built_in0 refs.
Proof.
  intros Hw. unfold CreateIrP4Info. intros ([actions references] & Hactions & Hrest)%bind_Ok_iff.
  apply bind_Ok_iff in Hrest as (profiles & _ & Hrest). apply bind_Ok_iff in Hrest as ([tables1 references1] & Htables & Hrest).
  apply bind_Ok_iff in Hrest as ([packet_in packet_out] & _ & Hrest).
  apply bind_Ok_iff in Hrest as (tables2 & Hcounters & Hrest). apply bind_Ok_iff in Hrest as (tables3 & Hmeters & Hrest).
  apply bind_Ok_iff in Hrest as (u1 & _ & Hrest). apply bind_Ok_iff in Hrest as (u2 & _ & Hrest).
  apply bind_Ok_iff in Hrest as (u3 & _ & Hrest). apply bind_Ok_iff in Hrest as (built_in0 & Hbuilt & Hrest).
  apply bind_Ok_iff in Hrest as (refs & Hrefs & Hrest). apply bind_Ok_iff in Hrest as ([tables built_in] & Hins & Hrest).
  apply bind_Ok_iff in Hrest as (ranks & Hranks & [= <-]).
  apply translate_actions_spec in Hactions as [Hax Haok]; [|by intros; eapply (param_widths _ Hw)].
  assert (∀ i a, fst actions !! i = Some a → p4_id (action_preamble a) = i) as Hids.
  { intros i a Ha. by destruct (found_by_id _ _ _ _ Hax i a Ha). }
  pose proof (translate_tables_unreferenced _ _ _ _ _ _ Htables) as Hu1.
  apply (translate_tables_spec _ _ _ _ _ _ Hids) in Htables as Hg1; [|by intros; eapply (field_widths _ Hw)].
  pose proof (add_directs_spec (fst actions) with_counter _ _ _ ltac:(by intros; split) Hg1 Hcounters) as Hg2.
  pose proof (add_directs_unreferenced with_counter _ _ _ ltac:(done) Hu1 Hcounters) as Hu2.
  pose proof (add_directs_spec (fst actions) with_meter _ _ _ ltac:(by intros; split) Hg2 Hmeters) as Hg3.
  pose proof (add_directs_unreferenced with_meter _ _ _ ltac:(done) Hu2 Hmeters) as Hu3.
  destruct built_in_definitions_spec as (built_in1 & Hb1 & Hhas & Hnamed & Hempty).
  assert (built_in1 = built_in0) as -> by congruence.
  match type of Hrefs with ParseIrTableReferences ?i = _ =>
    pose proof (ParseIrTableReferences_known i refs Hhas Hrefs) as Hknown end. cbn in Hknown.
  exists (snd tables3), built_in0, refs. split; cbn; [done|done| |done|done|done|].
  2: { match type of Hranks with ConstructDependencyRankByTableName ?i = _ => by exists i end. }
  assert (∀ A (f : IrTableDefinition → A) g x a, at_table f g (snd tables3) built_in0 x = Some a →
    (∃ t, unreferenced t ∧ a = f t) ∨ (∃ d, built_in_incoming d = [] ∧ built_in_outgoing d = [] ∧ a = g d)) as Hinit.
  { intros A f g [n i|b|] a; cbn [at_table]; [| |done].
    - destruct (snd tables3 !! n) as [t|] eqn:Ht; [|done]. destruct (_ =? _); [|done]. intros [= <-]. left. exists t. split; [|done].
      destruct (found_by_name _ _ _ _ (good_tables_indexed _ _ Hg3) n t Ht) as [_ Hi]. by eapply Hu3.
    - destruct (IrBuiltInTableToString b) as [n| |]; [|done..]. intros (d & Hd & ->)%fmap_Some. right. exists d.
      destruct (Hempty n d Hd). done. }
  assert (∀ l, (∀ r, r ∈ l → r ∈ refs) → ∀ done tables1 built_in1 tables' built_in',
    inserted (fst actions) (snd tables3) built_in0 done tables1 built_in1 →
    fold_result insert_reference l (tables1, built_in1) = Ok (tables', built_in') →
    inserted (fst actions) (snd tables3) built_in0 (done ++ l) tables' built_in') as Hloop.
  { intros l. induction l as [|r l IH]; intros Hl done ts bs tables' built_in' Hi; cbn [fold_result].
    - intros [= <- <-]. by rewrite app_nil_r.
    - intros ([ts2 bs2] & Hr & Hrest)%bind_Ok_iff. rewrite (cons_middle r done l), app_assoc.
      destruct (Hknown r) as [[Hks _] [Hkd _]]; [apply Hl; by left|].
      eapply IH; [intros r' Hr'; apply Hl; by right| |exact Hrest]. by eapply insert_references_step. }
  destruct tables as [bi bn]. apply (Hloop refs (λ r Hr, Hr) [] tables3 built_in0 (bi, bn) built_in); [|done].
  split; [done|done|done|..].
  - intros x l Hx. apply Hinit in Hx as [(t & [_ Ht] & ->)|(d & _ & Hd & ->)]; rewrite ?Ht, ?Hd; intros r; by rewrite !elem_of_nil; naive_solver.
  - intros x l Hx. apply Hinit in Hx as [(t & [Ht _] & ->)|(d & Hd & _ & ->)]; rewrite ?Ht, ?Hd; intros r; by rewrite !elem_of_nil; naive_solver.
Qed.
Lemma created_shape info by_name0 built_in0 refs : created info by_name0 built_in0 refs → well_formed info.
Proof.
  intros [Hax Haok [[Hx Hg] _ _ _ _] _ _ _ _]. split; [done| |done|done].
  intros i t Ht. destruct (Hg i t Ht) as [Hfx Hfok Hr]. by split.
Qed.

(** C2.  A created program is well formed: when the compiler gives widths, whatever [CreateIrP4Info] accepts
    has every table, match field, action and parameter under its id and under its name, with the same
    definition under both; values have a format that fits their width, longest-prefix and ternary
    matches are not strings, and the actions of a table are the program's. *)
Theorem create_ir_p4info_well_formed (p4_info : P4.P4Info) (info : IrP4Info) :
  widths_given p4_info → CreateIrP4Info p4_info = Ok info → well_formed info.
Proof. intros Hw Hc. destruct (create_spec p4_info info Hw Hc) as (b & bi & refs & Hcr). by eapply created_shape. Qed.

(** ** The references of a created program *)

Abbreviation outgoing_in info := (outgoing_at (tables_by_name info) (built_in_tables info)).
Abbreviation incoming_in info := (incoming_at (tables_by_name info) (built_in_tables info)).

Lemma created_outgoing info by_name0 built_in0 refs n l r :
  created info by_name0 built_in0 refs → outgoing_references_of info n = Ok l → r ∈ l →
  ∃ x, outgoing_in info x = Some l ∧ TableReferences.GetNameOfTable x = Ok n ∧ r ∈ refs.
Proof.
  intros [_ _ [[Hx _] _ _ Ho _] _ _ _ _]. cbn [fst snd] in *. unfold outgoing_references_of.
  destruct (IsBuiltInTable n) eqn:Hb; intros (d & Hd%FindOrStatus_Ok & [= <-])%bind_Ok_iff Hr.
  - assert (∃ b, IrBuiltInTableToString b = Ok n) as [b Hbn].
    { unfold IsBuiltInTable, StringToIrBuiltInTable in Hb. repeat case_bool_decide; [| |done]; subst.
      - by exists BUILT_IN_TABLE_MULTICAST_GROUP_TABLE.
      - by exists BUILT_IN_TABLE_CLONE_SESSION_TABLE. }
    assert (outgoing_in info (TableReferences.BuiltInTable b) = Some (built_in_outgoing d)) as Hat
      by (cbn [at_table]; by rewrite Hbn, Hd).
    exists (TableReferences.BuiltInTable b). split; [done|]. split; [done|]. by apply (Ho _ _ Hat).
  - assert (outgoing_in info (TableReferences.P4Table n (preamble_id d)) = Some (outgoing_references d)) as Hat
      by (cbn [at_table]; by rewrite Hd, Z.eqb_refl).
    eexists. split; [exact Hat|]. split; [done|]. by apply (Ho _ _ Hat).
Qed.

Lemma created_name info by_name0 built_in0 refs x :
  created info by_name0 built_in0 refs → known by_name0 built_in0 x →
  ∃ n, TableReferences.GetNameOfTable x = Ok n ∧ n ∈ all_table_names info ∧
    ∀ l, outgoing_in info x = Some l → outgoing_references_of info n = Ok l.
Proof.
  intros [_ _ [[Hx _] _ Hk _ _] _ _ _ _] [Hin Hnb]. apply Hk in Hin. cbn [fst snd] in *.
  unfold all_table_names, outgoing_references_of. destruct x as [n i|b|]; cbn [at_table TableReferences.GetNameOfTable] in *.
  - exists n. split; [done|]. rewrite Hnb. destruct (tables_by_name info !! n) as [t|] eqn:Ht; [|by destruct Hin]. split.
    + apply elem_of_app. left. apply list_elem_of_fmap. exists (n, t). by rewrite elem_of_map_to_list.
    + intros l. destruct (_ =? _); [|done]. by intros [= <-].
  - destruct (IrBuiltInTableToString b) as [n| |] eqn:Hn; [|by destruct Hin..]. exists n. split; [done|].
    destruct (built_in_tables info !! n) as [d|] eqn:Hd; [|by destruct Hin]. split.
    + apply elem_of_app. right. apply list_elem_of_fmap. exists (n, d). by rewrite elem_of_map_to_list.
    + assert (IsBuiltInTable n = true) as -> by (by destruct b; [|injection Hn as <-..]). by intros l [= <-].
  - by destruct Hin.
Qed.

Lemma created_closed info by_name0 built_in0 refs : created info by_name0 built_in0 refs → closed info.
Proof.
  intros Hc n Hn. assert (∃ l, outgoing_references_of info n = Ok l) as [l Hl].
  { destruct Hc as [_ _ [_ Hb Hk _ _] _ Hhas Hnamed _]. cbn [snd] in *. unfold outgoing_references_of, all_table_names in *.
    destruct (IsBuiltInTable n) eqn:Hbn.
    - unfold IsBuiltInTable, StringToIrBuiltInTable in Hbn.
      assert (∃ b, IrBuiltInTableToString b = Ok n) as [b Hbt].
      { repeat case_bool_decide; [| |done]; subst; [by exists BUILT_IN_TABLE_MULTICAST_GROUP_TABLE|by exists BUILT_IN_TABLE_CLONE_SESSION_TABLE]. }
      specialize (Hk (TableReferences.BuiltInTable b)). cbn [at_table] in Hk. rewrite Hbt in Hk.
      destruct (built_in_tables info !! n) as [d|]; [by eexists|].
      destruct (proj2 Hk) as [? [=]]. destruct (Hhas b n Hbt) as [d ->]. by eexists.
    - apply elem_of_app in Hn as [([m t] & -> & Ht%elem_of_map_to_list)%list_elem_of_fmap|([m d] & -> & Hd%elem_of_map_to_list)%list_elem_of_fmap];
        cbn [fst] in *; [rewrite Ht; by eexists|]. exfalso. rewrite (Hnamed m) in Hbn; [done|]. apply Hb. by eexists. }
  exists l. split; [done|]. intros r Hr. destruct (created_outgoing _ _ _ _ n l r Hc Hl Hr) as (x & _ & _ & Hin).
  destruct (created_known _ _ _ _ Hc r Hin) as [_ Hkd]. destruct (created_name _ _ _ _ _ Hc Hkd) as (m & Hm & Hmin & _). by exists m.
Qed.

(** C3.  The references of a created program are consistent.  A reference that is outgoing at a table is from this
    table, and is among the incoming references of the table it leads to; an incoming reference leads to
    the table it is kept at, and is outgoing at the one it is from.  Both tables exist, and the rank of
    the first is below the rank of the second, so that sorting by rank respects the references. *)
Theorem program_references_consistent (p4_info : P4.P4Info) (info : IrP4Info) :
  widths_given p4_info → CreateIrP4Info p4_info = Ok info →
  let ranks := dependency_rank_by_table_name info in
  ∀ x y r, TableReferences.source_table r = x → TableReferences.destination_table r = y →
    (∀ l, outgoing_in info x = Some l → r ∈ l →
       (∃ l', incoming_in info y = Some l' ∧ r ∈ l') ∧
       ∃ n m v w, TableReferences.GetNameOfTable x = Ok n ∧ TableReferences.GetNameOfTable y = Ok m ∧
         ranks !! n = Some v ∧ ranks !! m = Some w ∧ v < w ≤ 0) ∧
    (∀ l, incoming_in info y = Some l → r ∈ l → ∃ l', outgoing_in info x = Some l' ∧ r ∈ l') ∧
    (∀ z l, outgoing_in info z = Some l → r ∈ l → z = x) ∧ (∀ z l, incoming_in info z = Some l → r ∈ l → z = y).
Proof.
  intros Hw Hcreate ranks x y r <- <-. destruct (create_spec p4_info info Hw Hcreate) as (b & bi & refs & Hc).
  pose proof (created_tables _ _ _ _ Hc) as [_ _ Hk Ho Hi]. cbn [snd] in *.
  assert (∀ z, known b bi z → (∃ l, outgoing_in info z = Some l) ∧ ∃ l, incoming_in info z = Some l) as Hfound.
  { intros z [Hz _]. apply Hk in Hz. split; eapply is_Some_at_table; exact Hz. }
  split; [|split; [|split]].
  - intros l Hl Hr. apply (Ho _ _ Hl) in Hr as [Hin _]. destruct (created_known _ _ _ _ Hc r Hin) as [Hks Hkd]. split.
    + destruct (Hfound _ Hkd) as [_ [l' Hl']]. exists l'. split; [done|]. by apply (Hi _ _ Hl').
    + destruct (created_name _ _ _ _ _ Hc Hks) as (n & Hn & _ & Hout). destruct (created_name _ _ _ _ _ Hc Hkd) as (m & Hm & _ & _).
      destruct (created_ranks _ _ _ _ Hc) as (info0 & Heq & Hnames & Hempty & Hranks).
      assert (closed info0) as Hcl by (unfold closed; rewrite Heq, Hnames; by eapply created_closed).
      destruct (construct_Ok info0 _ Hcl Hempty Hranks n m) as (v & w & Hv & Hwm & Hlt).
      { exists l, r. rewrite Heq. split; [by apply Hout|]. split; [|done]. by apply (Ho _ _ Hl). }
      by exists n, m, v, w.
  - intros l Hl Hr. apply (Hi _ _ Hl) in Hr as [Hin _]. destruct (created_known _ _ _ _ Hc r Hin) as [Hks _].
    destruct (Hfound _ Hks) as [[l' Hl'] _]. exists l'. split; [done|]. by apply (Ho _ _ Hl').
  - intros z l Hl Hr. by apply (Ho _ _ Hl) in Hr as [_ ->].
  - intros z l Hl Hr. by apply (Hi _ _ Hl) in Hr as [_ ->].
Qed.
End program_correct.

(** * A routing program *)

Definition sdn_string_element (id : Z) (name : str) (annotations : list str) : Element :=
  mkElement id name annotations 0 (Some $"string_t").
Definition routing_action (id : Z) (name : str) (parameters : list Element) : P4.Action :=
  P4.mkAction (named id name) parameters.
Definition entry_action_ref (id : Z) : P4.ActionRef := P4.mkActionRef id P4.TABLE_AND_DEFAULT [$"@proto_id(1)"].
Definition routing_table (id : Z) (name : str) (fields : list MatchField) (actions : list Z) : P4.Table :=
  P4.mkTable (named id name) fields (map entry_action_ref actions) 0 0 1024.

(** Routes refer to a virtual router and, through their action, to a nexthop; an ACL table has a meter. *)
Definition routing_program : P4.P4Info :=
  P4.mkP4Info
    [routing_table 1 $"vrf_table" [mkMatchField (sdn_string_element 1 $"vrf_id" []) EXACT] [1];
     routing_table 2 $"ipv4_table"
       [mkMatchField (sdn_string_element 1 $"vrf_id" [$"@refers_to(vrf_table, vrf_id)"]) EXACT;
        mkMatchField (mkElement 2 $"ipv4_dst" [$"@format(IPV4_ADDRESS)"] 32 None) LPM] [2];
     routing_table 3 $"nexthop_table" [mkMatchField (sdn_string_element 1 $"nexthop_id" []) EXACT] [3];
     routing_table 4 $"acl_table"
       [mkMatchField (mkElement 1 $"ether_type" [] 16 None) TERNARY;
        mkMatchField (sdn_string_element 2 $"in_port" []) OPTIONAL] [1]]
    [routing_action 1 $"no_action" [];
     routing_action 2 $"set_nexthop_id" [sdn_string_element 1 $"nexthop_id" [$"@refers_to(nexthop_table, nexthop_id)"]];
     routing_action 3 $"set_port_and_mac" [sdn_string_element 1 $"port" [];
       mkElement 2 $"dst_mac" [$"@format(MAC_ADDRESS)"] 48 None]]
    [] [] [P4.mkDirect 4 1]
    [P4.mkPacketMetadata (named 1 $"packet_in") [sdn_string_element 1 $"ingress_port" []; mkElement 2 $"unused_pad" [$"@padding"] 7 None]]
    {[ $"string_t" := P4.kTranslatedType P4.kSdnString ]}.

Definition routing_info : IrP4Info := ok_or (CreateIrP4Info routing_program) (one_table default_table [] []).

Lemma routing_info_created : CreateIrP4Info routing_program = Ok routing_info.
Proof. apply ok_or_eq. vm_compute. reflexivity. Qed.

Example routing_info_ranks :
  map (λ n, dependency_rank_by_table_name routing_info !! n)
    [$"vrf_table"; $"ipv4_table"; $"nexthop_table"; $"acl_table"; GetMulticastGroupTableName; $"other"] =
  [Some 0; Some (-1); Some 0; Some 0; Some 0; None].
Proof. vm_compute. reflexivity. Qed.

Definition width_check (type_info : P4.TypeInfo) (element : Element) : bool :=
  (0 <=? bitwidth element) && (bitwidth element <? 2 ^ 31) &&
  match is_sdn_string type_info element with Ok false => 0 <? bitwidth element | _ => true end.
Lemma width_check_sound type_info element : width_check type_info element = true → width_given type_info element.
Proof.
  unfold width_check, width_given. intros [[Hl Hh]%andb_true_iff Hs]%andb_true_iff. split; [lia|].
  intros Hf. rewrite Hf in Hs. lia.
Qed.

Definition widths_check (p4_info : P4.P4Info) : bool :=
  forallb (λ a, forallb (width_check (P4.type_info p4_info)) (P4.action_params a)) (P4.actions p4_info) &&
  forallb (λ t, forallb (λ f, width_check (P4.type_info p4_info) (match_element f)) (P4.match_fields t)) (P4.tables p4_info).
Lemma widths_check_sound p4_info : widths_check p4_info = true → widths_given p4_info.
Proof.
  unfold widths_check. rewrite andb_true_iff, !forallb_forall. intros [Ha Ht]. split.
  - intros a p Hin%list_elem_of_In Hp%list_elem_of_In. specialize (Ha a Hin). rewrite forallb_forall in Ha.
    by apply width_check_sound, Ha.
  - intros t f Hin%list_elem_of_In Hf%list_elem_of_In. specialize (Ht t Hin). rewrite forallb_forall in Ht.
    by apply width_check_sound, Ht.
Qed.

Lemma routing_widths : widths_given routing_program.
Proof. apply widths_check_sound. vm_compute. reflexivity. Qed.

Lemma routing_well_formed : well_formed routing_info.
Proof.
  destruct (create_spec routing_program routing_info routing_widths routing_info_created) as (b & bi & refs & Hc).
  by eapply created_shape.
Qed.

Lemma create_ir_p4info_well_formed_witness :
  (widths_given routing_program ∧ CreateIrP4Info routing_program = Ok routing_info) ∧ well_formed routing_info.
Proof.
  split; [split; [exact routing_widths|exact routing_info_created]|].
  exact (create_ir_p4info_well_formed routing_program routing_info routing_widths routing_info_created).
Defined.

Abbreviation outgoing_in info :=
  (at_table outgoing_references built_in_outgoing (tables_by_name info) (built_in_tables info)).
Abbreviation incoming_in info :=
  (at_table incoming_references built_in_incoming (tables_by_name info) (built_in_tables info)).

Lemma program_references_consistent_witness :
  ∃ l r, outgoing_in routing_info (TableReferences.P4Table $"ipv4_table" 2) = Some l ∧ r ∈ l ∧
    ∃ l', incoming_in routing_info (TableReferences.destination_table r) = Some l' ∧ r ∈ l'.
Proof.
  destruct (outgoing_in routing_info (TableReferences.P4Table $"ipv4_table" 2)) as [[|r l]|] eqn:Hl;
    [vm_compute in Hl; discriminate Hl| |vm_compute in Hl; discriminate Hl].
  exists (r :: l), r. split; [reflexivity|]. split; [by left|].
  destruct (program_references_consistent routing_program routing_info routing_widths routing_info_created
    (TableReferences.source_table r) (TableReferences.destination_table r) r eq_refl eq_refl) as (Hout & _ & _ & Hfrom).
  pose proof (Hfrom (TableReferences.P4Table $"ipv4_table" 2)) as _.
  assert (TableReferences.source_table r = TableReferences.P4Table $"ipv4_table" 2) as Hs
    by (vm_compute in Hl; injection Hl as <- _; reflexivity).
  rewrite Hs in Hout. exact (proj1 (Hout (r :: l) Hl ltac:(by left))).
Defined.
