(* ===== verification/IrCorrect.v ===== *)
(** The promises of the translations of ir.cc: what is translated to the intermediate representation is
    translated back to the same message in canonical form, and which multicast groups are accepted. *)
From S2P Require Import Prelude Bitset ByteString Abseil HexString NetAddr NetAddrText IrUtils EntityKeys IrData IrProgram IrTranslation IrRoundtrip IrReplication IrProgramCorrect.

Section entities.
Context `{AbslStringsLaws} `{!Ipv6.Inet, !Ipv6.InetLaws} `{Gutil}.
Context (IsStructurallyValid : str → bool).

(** * The canonical message has the same translation *)

(** The translation of a value depends on the number it spells only. *)
Lemma value_same format w s t :
  s ≠ [] → t ≠ [] → bytes_short s → bytes_short t → be_value s = be_value t → format ≠ STRING →
  ArbitraryByteStringToIrValue IsStructurallyValid format w s = ArbitraryByteStringToIrValue IsStructurallyValid format w t.
Proof.
  intros Hs Ht Hsl Htl Hv Hf. unfold ArbitraryByteStringToIrValue.
  rewrite !bool_decide_eq_false_2, !ByteStringToBitset_nonempty, !normalized_eq, Hv by (done || lia). by destruct format.
Qed.

Lemma canonical_bytes s :
  s ≠ [] → bytes_short s →
  let c := ArbitraryToCanonicalByteString s in c ≠ [] ∧ bytes_short c ∧ be_value c = be_value s.
Proof.
  intros Hs Hl c. destruct (IrUtils.canonical_value s Hs Hl) as [Hv Hc]. fold c in Hv, Hc.
  assert (c ≠ []) as Hne by (by intros ->). split; [done|]. split; [|done].
  pose proof (canonical_length_le c s Hc Hs Hv) as Hle. unfold bytes_short in *. lia.
Qed.

Lemma value_canonical format w bytes v :
  bytes_short bytes → ArbitraryByteStringToIrValue IsStructurallyValid format w bytes = Ok v →
  ArbitraryByteStringToIrValue IsStructurallyValid format w (pi_bytes format bytes) = Ok v.
Proof.
  intros Hl Hv. assert (bytes ≠ []) as Hne by (by intros ->). unfold pi_bytes. case_bool_decide as Hs; [done|].
  destruct (canonical_bytes bytes Hne Hl) as (Hc & Hcl & Hcv).
  by rewrite (value_same format w (ArbitraryToCanonicalByteString bytes) bytes).
Qed.

Lemma normalized_canonical s w t :
  bytes_short s → ArbitraryToNormalizedByteString s w = Ok t →
  ArbitraryToNormalizedByteString (ArbitraryToCanonicalByteString s) w = Ok t.
Proof.
  intros Hl Ht. assert (s ≠ []) as Hne by (by intros ->). destruct (canonical_bytes s Hne Hl) as (Hc & Hcl & Hcv).
  by rewrite normalized_eq, Hcv, <-normalized_eq.
Qed.

Lemma match_value_canonical definition m v :
  match_in_range m → PiMatchValueToIr IsStructurallyValid definition m = Ok v →
  PiMatchValueToIr IsStructurallyValid definition
    (mkFieldMatch (field_id m) (canonical_match_value (match_format definition) (field_match m))) = Ok v.
Proof.
  unfold PiMatchValueToIr, match_in_range. cbn [field_match].
  destruct (match_type (match_field definition)); destruct (field_match m) as [b|b mask|b p|lo hi|b|payload|];
    try done; cbn [canonical_match_value].
  - intros Hr (x & Hx%as_invalid_Ok & Hv)%bind_Ok_iff. by rewrite (value_canonical _ _ b x).
  - intros [Hr _] (msk & Hm & (t & Ht%as_invalid_Ok & Hv)%bind_Ok_iff)%bind_Ok_iff.
    rewrite Hm. cbn [mbind result_bind]. by rewrite (normalized_canonical _ _ t).
  - intros [Hr Hrm] (t & Ht%as_invalid_Ok & (msk & Hm%as_invalid_Ok & Hv)%bind_Ok_iff)%bind_Ok_iff.
    rewrite (normalized_canonical b _ t) by done. cbn [as_invalid mbind result_bind].
    by rewrite (normalized_canonical mask _ msk).
  - intros Hr (x & Hx%as_invalid_Ok & Hv)%bind_Ok_iff. by rewrite (value_canonical _ _ b x).
Qed.

Lemma table_match_canonical options table m y :
  match_in_range m → PiTableMatchToIr IsStructurallyValid options table m = Ok y →
  PiTableMatchToIr IsStructurallyValid options table (canonical_match table m) = Ok y.
Proof.
  intros Hr. unfold PiTableMatchToIr, canonical_match. cbn [field_id].
  destruct (match_fields_by_id table !! field_id m) as [d|]; [|done]. cbn [fmap option_fmap option_map from_option id].
  unfold PiMatchFieldToIr.
  intros (ir & (v & Hv & Hu)%bind_Ok_iff & Hy)%bind_Ok_iff.
  rewrite (match_value_canonical d m v) by done. cbn [mbind result_bind]. by rewrite Hu.
Qed.

(** A loop that succeeds succeeds alike on elements with the same keys and translations. *)
Lemma unique_loop_map {X K Y} `{Countable K} (key : X → K) (f : X → result (gset str * list Y)) (g : X → X) l
  used names out reasons :
  (∀ x, key (g x) = key x) → (∀ x y, x ∈ l → f x = Ok y → f (g x) = Ok y) →
  fold_result (unique_step key f) l (∅, ∅, [], reasons) = Ok (used, names, out, false) →
  fold_result (unique_step key f) (map g l) (∅, ∅, [], reasons) = Ok (used, names, out, false).
Proof.
  intros Hkey Hf (-> & Hnd & ys & Hys & -> & -> & ->)%unique_loop_Ok.
  assert (map key (map g l) = map key l) as Hk by (rewrite map_map; by apply map_ext).
  apply unique_loop_Ok. rewrite Hk. split; [done|]. split; [done|]. exists ys. split; [|done].
  clear Hk Hnd. induction Hys as [|x y l ys Hy Hys IH]; constructor.
  - apply Hf; [by left|done].
  - apply IH. intros x' y' Hx'. apply Hf. by right.
Qed.

Lemma action_canonical info options a valid_actions ir :
  action_in_range a → PiActionToIr IsStructurallyValid info options a valid_actions = Ok ir →
  PiActionToIr IsStructurallyValid info options (canonical_action info a) valid_actions = Ok ir.
Proof.
  intros Hr. unfold PiActionToIr, canonical_action. cbn [action_id params].
  destruct (actions_by_id info !! action_id a) as [action|] eqn:Ha; [|done]. destruct (negb _); [done|].
  intros ([[[used names] out] reasons] & Hloop & (r & Hc & [-> <-]%unless_invalid_Ok)%bind_Ok_iff)%bind_Ok_iff.
  pose proof Hc as [_ ->]%attempt_reasons. cbn [fmap option_fmap option_map from_option id].
  rewrite (unique_loop_map _ _ _ _ used names out _); [cbn [mbind result_bind]; by rewrite Hc| | |done].
  - by intros [i v].
  - intros [i v] y Hin. unfold PiParamToIr. pose proof (proj1 (Forall_forall _ _) Hr _ Hin) as Hv. cbn in Hv.
    destruct (IrData.params_by_id action !! i) as [d|]; [|done]. cbn [fmap option_fmap option_map from_option id].
    intros (x & Hx & Hy)%bind_Ok_iff. by rewrite (value_canonical _ _ v x).
Qed.

Lemma action_set_canonical info options l valid_actions ir :
  Forall (λ a, action_in_range (set_action a)) l →
  PiActionSetToIr IsStructurallyValid info options l valid_actions = Ok ir →
  PiActionSetToIr IsStructurallyValid info options
    (map (λ a, mkActionProfileAction (canonical_action info (set_action a)) (weight a)
                 (canonical_watch (watch_kind a))) l) valid_actions = Ok ir.
Proof.
  intros Hr Hs%translate_all_Ok. apply translate_all_Ok. induction Hs as [|a i l ir Ha Hs IH]; [constructor|].
  apply Forall_cons in Hr as [Hra Hr]. cbn [map]. constructor; [|auto]. unfold PiProfileActionToIr in *.
  apply bind_Ok_iff in Ha as (x & Hx & Hi). cbn [set_action weight].
  rewrite (action_canonical info options (set_action a) valid_actions x) by done. cbn [mbind result_bind].
  rewrite <-Hi. unfold watch_port. cbn [watch_kind]. by destruct (watch_kind a) as [|[]|].
Qed.

Lemma table_action_canonical info options table a ir :
  table_action_in_range a → PiTableActionToIr IsStructurallyValid info options table a = Ok ir →
  PiTableActionToIr IsStructurallyValid info options table (canonical_table_action info a) = Ok ir.
Proof.
  intros Hr. unfold PiTableActionToIr. destruct (entry_actions table) as [|v vs]; [by destruct a|].
  destruct a as [|a| | |l|]; try done; cbn [canonical_table_action].
  - destruct (uses_oneshot table); [done|]. intros (x & Hx & Hi)%bind_Ok_iff. by rewrite (action_canonical _ _ a _ x).
  - destruct (negb _); [done|]. intros (x & Hx & Hi)%bind_Ok_iff. by rewrite (action_set_canonical _ _ l _ x).
Qed.

Lemma entry_canonical info options table pi ir :
  tables_by_id info !! table_id pi = Some table → entry_in_range pi →
  PiTableEntryToIr IsStructurallyValid info pi options = Ok ir →
  PiTableEntryToIr IsStructurallyValid info
    (if key_only options then canonical_key table pi else canonical_entry info table pi) options = Ok ir.
Proof.
  intros Htable [Hmr Har]. unfold PiTableEntryToIr.
  assert (table_id (if key_only options then canonical_key table pi else canonical_entry info table pi) = table_id pi)
    as -> by (by destruct (key_only options)).
  assert (match_ (if key_only options then canonical_key table pi else canonical_entry info table pi) =
    map (canonical_match table) (match_ pi)) as -> by (by destruct (key_only options)).
  assert (priority (if key_only options then canonical_key table pi else canonical_entry info table pi) = priority pi)
    as -> by (by destruct (key_only options)).
  rewrite Htable.
  intros ([[[used names] out] reasons] & Hloop & (r & Hc & Hrest)%bind_Ok_iff)%bind_Ok_iff.
  assert (reasons = false) as ->.
  { destruct reasons; [|done]. apply attempt_Ok in Hc as [(? & _ & <-)|(? & _ & <-)]; cbn [orb] in Hrest;
    (destruct (key_only options); [done|]; apply bind_Ok_iff in Hrest as ([a r'] & Ha & [Hf _]%unless_invalid_Ok);
      apply orb_false_iff in Hf as [-> _]; by apply attempt_Ok in Ha as [(? & _ & [=])|(? & _ & [=])]). }
  rewrite (unique_loop_map _ _ _ _ used names out _); [|done| |done].
  2: { intros m y Hm. apply table_match_canonical. rewrite Forall_forall in Hmr. by apply Hmr. }
  cbn [mbind result_bind]. rewrite Hc. cbn [mbind result_bind]. destruct (key_only options); [done|].
  apply bind_Ok_iff in Hrest as ([a r'] & Ha & [Hf <-]%unless_invalid_Ok). apply orb_false_iff in Hf as [-> Hmeters].
  apply attempt_Ok in Ha as [(x & Hx & [= <- Hr])|(e & _ & [=])].
  unfold canonical_entry. cbn [action meter_config counter_data meter_counter_data metadata].
  rewrite (table_action_canonical info options table (action pi) x) by done. cbn [attempt mbind result_bind].
  rewrite Hr. cbn [orb].
  assert (meters_ok table (copy_meter_config <$> meter_config pi) (counter_data pi) (meter_counter_data pi) =
    meters_ok table (meter_config pi) (counter_data pi) (meter_counter_data pi)) as ->.
  { unfold meters_ok. by destruct (meter_config pi). }
  rewrite Hmeters. cbn [unless_invalid]. do 2 f_equal. by destruct (meter_config pi).
Qed.

(** * Entities *)

(** Longest-prefix matches on IPv6 addresses have all 128 bits. *)
Definition addresses_full (info : IrP4Info) : Prop :=
  ∀ i table j definition, tables_by_id info !! i = Some table →
    match_fields_by_id table !! j = Some definition → lpm_addresses_full definition.

Definition canonical_entity (info : IrP4Info) (options : TranslationOptions) (e : Entity) : Entity :=
  match e with
  | kTableEntry t =>
    match tables_by_id info !! table_id t with
    | Some table => kTableEntry (if key_only options then canonical_key table t else canonical_entry info table t)
    | None => e
    end
  | kPacketReplicationEngineEntry pre => kPacketReplicationEngineEntry (canonical_pre options pre)
  | kOtherEntity _ => e
  end.
Definition entity_in_range (e : Entity) : Prop :=
  match e with kTableEntry t => entry_in_range t | _ => True end.

Lemma entity_back info options e ir :
  well_formed info → addresses_full info → entity_in_range e →
  PiEntityToIr IsStructurallyValid info e options = Ok ir →
  IrEntityToPi info ir options = Ok (canonical_entity info options e).
Proof.
  intros Hwf Hfull Hrange. unfold PiEntityToIr, IrEntityToPi, canonical_entity. destruct e as [t|pre|field].
  - intros (entry & Hentry & [= <-])%bind_Ok_iff.
    destruct (tables_by_id info !! table_id t) as [table|] eqn:Htable.
    + rewrite (table_entry_back IsStructurallyValid info options table t entry); [done..| |done|done].
      intros i d. by apply (Hfull _ _ i d Htable).
    + unfold PiTableEntryToIr in Hentry. by rewrite Htable in Hentry.
  - intros (entry & Hentry%pre_back & [= <-])%bind_Ok_iff. by rewrite Hentry.
  - by intros (x & _ & [=])%bind_Ok_iff.
Qed.
(** A key drops the metadata of a multicast group only on the way back. *)
Definition keeps_metadata (options : TranslationOptions) (e : Entity) : Prop :=
  match e with
  | kPacketReplicationEngineEntry (kMulticastGroupEntry _ _ metadata) => key_only options = true → metadata = []
  | _ => True
  end.

Lemma entity_canonical info options e ir :
  entity_in_range e → keeps_metadata options e → PiEntityToIr IsStructurallyValid info e options = Ok ir →
  PiEntityToIr IsStructurallyValid info (canonical_entity info options e) options = Ok ir.
Proof.
  intros Hrange Hkeep. unfold canonical_entity. destruct e as [t|pre|field]; [| |done].
  - destruct (tables_by_id info !! table_id t) as [table|] eqn:Htable; [|done]. cbn [PiEntityToIr].
    intros (entry & Hentry & Hir)%bind_Ok_iff. by rewrite (entry_canonical info options table t entry).
  - cbn [PiEntityToIr]. intros (entry & Hentry & Hir)%bind_Ok_iff. rewrite <-Hir. unfold canonical_pre.
    enough (PiPacketReplicationEngineEntryToIr (if key_only options then match pre with
      | kMulticastGroupEntry id _ _ => kMulticastGroupEntry id [] []
      | kCloneSessionEntry id _ _ _ => kCloneSessionEntry id [] 0 0 | e => e end else pre) options = Ok entry) as -> by done.
    destruct (key_only options) eqn:Hk; [|done]. rewrite <-Hentry.
    destruct pre as [id l metadata|id l cos len|]; [| |done]; cbn [PiPacketReplicationEngineEntryToIr];
      unfold PiMulticastGroupEntryToIr, PiCloneSessionEntryToIr; rewrite Hk; [|done].
    cbn in Hkeep. by rewrite Hkeep.
Qed.

(** C1.  The two translations undo each other, up to canonical form.  For a well-formed program (whose IPv6
    longest-prefix matches have 128 bits) and an entity whose longest-prefix matches have lengths from 0 to
    2^31 - 1, when the entity is translated to the intermediate representation, that is translated back, to the entity with its byte strings in canonical form and
    without the parts that are not translated (for a key: all but the key); and this canonical entity
    has the same translation (except that a key keeps the metadata of a multicast group).  The bound on the
    lengths is needed: a negative one can be accepted and is then not translated back, which is a finding
    ([negative_prefix_aborts]). *)
Theorem pi_ir_roundtrip info options e ir :
  well_formed info → addresses_full info → entity_in_range e →
  PiEntityToIr IsStructurallyValid info e options = Ok ir →
  IrEntityToPi info ir options = Ok (canonical_entity info options e) ∧
  (keeps_metadata options e →
   PiEntityToIr IsStructurallyValid info (canonical_entity info options e) options = Ok ir).
Proof. intros Hwf Hfull Hr Hir. split; [by apply entity_back|]. intros Hk. by apply entity_canonical. Qed.

(** Multicast groups.  A group is accepted exactly when every replica names a port, no (port, instance) pair
    is used twice among the replicas and backups of the whole group, and the ports of a replica and its
    backups differ; the group is then translated replica by replica, and back to what it was. *)
Theorem multicast_groups_accepted (multicast_group_id : Z) (replicas : list Replica) (metadata : str)
  (options : TranslationOptions) (ir : Ir.MulticastGroupEntry) :
  key_only options = false →
  (PiMulticastGroupEntryToIr multicast_group_id replicas metadata options = Ok ir ↔
   Forall names_port replicas ∧ replicas_distinct port instance pi_backups replicas ∧
   ir = Ir.mkMulticast multicast_group_id (map ir_replica replicas) metadata) ∧
  (PiMulticastGroupEntryToIr multicast_group_id replicas metadata options = Ok ir →
   IrMulticastGroupEntryToPi ir options = Ok (kMulticastGroupEntry multicast_group_id replicas metadata)).
Proof.
  intros Hk. split; [by apply multicast_group_Ok|]. intros Hir.
  pose proof (pre_back options (kMulticastGroupEntry multicast_group_id replicas metadata) (Ir.kMulticastGroupEntry ir)) as Hb.
  cbn [PiPacketReplicationEngineEntryToIr] in Hb. rewrite Hir in Hb. specialize (Hb eq_refl).
  unfold canonical_pre in Hb. rewrite Hk in Hb. exact Hb.
Qed.
End entities.

(** * Examples *)

Definition plain_options : TranslationOptions := mkTranslationOptions false false false.

(** A route to 10.0.0.0/8 in a virtual router; the address is not in canonical form. *)
Definition example_route : Entity :=
  kTableEntry (plain_entry 2 0
    [mkFieldMatch 1 (kExact $"vrf-1"); mkFieldMatch 2 (kLpm ["000"; "010"; "000"; "000"; "000"]%char 8)]
    (kAction (mkAction 2 [(1, $"nexthop-1")]))).

Definition example_route_ir : IrEntity :=
  ok_or (PiEntityToIr (λ _, true) routing_info example_route plain_options) ENTITY_NOT_SET.

Example example_route_translated :
  example_route_ir =
  IrTable (Ir.mkEntry $"ipv4_table"
    [Ir.mkMatch $"vrf_id" (Ir.kExact (kStr $"vrf-1")); Ir.mkMatch $"ipv4_dst" (Ir.kLpm (kIpv4 $"10.0.0.0") 8)] 0
    (Ir.kAction (Ir.mkAction $"set_nexthop_id" [($"nexthop_id", kStr $"nexthop-1")])) None None None []).
Proof. vm_compute. reflexivity. Qed.

(** Whether all IPv6 longest-prefix matches are full, checked. *)
Definition addresses_check (info : IrP4Info) : bool :=
  forallb (λ '(_, table), forallb (λ '(_, definition),
      negb (bool_decide (match_type (match_field definition) = LPM) && bool_decide (match_format definition = IPV6)) ||
      (bitwidth (match_element (match_field definition)) =? 128))
    (map_to_list (match_fields_by_id table))) (map_to_list (tables_by_id info)).
Lemma addresses_check_sound info : addresses_check info = true → addresses_full info.
Proof.
  unfold addresses_check. rewrite forallb_forall. intros Hall i table j definition Ht Hd Hlpm Hformat.
  specialize (Hall (i, table)). cbn in Hall. rewrite forallb_forall in Hall.
  specialize (Hall ltac:(by apply list_elem_of_In, elem_of_map_to_list) (j, definition)
    ltac:(by apply list_elem_of_In, elem_of_map_to_list)). cbn in Hall.
  rewrite !bool_decide_eq_true_2 in Hall by done. cbn in Hall. lia.
Qed.

Lemma pi_ir_roundtrip_witness :
  (well_formed routing_info ∧ addresses_full routing_info ∧ entity_in_range example_route ∧
   PiEntityToIr (λ _, true) routing_info example_route plain_options = Ok example_route_ir) ∧
  IrEntityToPi routing_info example_route_ir plain_options =
    Ok (canonical_entity routing_info plain_options example_route).
Proof.
  assert (addresses_full routing_info) as Hfull by (apply addresses_check_sound; vm_compute; reflexivity).
  assert (entity_in_range example_route) as Hrange by (repeat constructor; lia).
  assert (PiEntityToIr (λ _, true) routing_info example_route plain_options = Ok example_route_ir) as Hir
    by (apply ok_or_eq; vm_compute; reflexivity).
  split; [split; [exact routing_well_formed|split; [exact Hfull|split; [exact Hrange|exact Hir]]]|].
  exact (proj1 (pi_ir_roundtrip (λ _, true) routing_info plain_options example_route example_route_ir
    routing_well_formed Hfull Hrange Hir)).
Defined.

Lemma multicast_groups_accepted_witness :
  key_only plain_options = false ∧
  ∃ ir, PiMulticastGroupEntryToIr 1 [mkReplica (kPort $"1") 0 [mkBackupReplica $"2" 0]] [] plain_options = Ok ir ∧
    IrMulticastGroupEntryToPi ir plain_options = Ok (kMulticastGroupEntry 1 [mkReplica (kPort $"1") 0 [mkBackupReplica $"2" 0]] []).
Proof.
  split; [reflexivity|].
  exists (ok_or (PiMulticastGroupEntryToIr 1 [mkReplica (kPort $"1") 0 [mkBackupReplica $"2" 0]] [] plain_options)
    (Ir.mkMulticast 0 [] [])).
  assert (PiMulticastGroupEntryToIr 1 [mkReplica (kPort $"1") 0 [mkBackupReplica $"2" 0]] [] plain_options =
    Ok (ok_or (PiMulticastGroupEntryToIr 1 [mkReplica (kPort $"1") 0 [mkBackupReplica $"2" 0]] [] plain_options)
      (Ir.mkMulticast 0 [] []))) as Hir by (apply ok_or_eq; vm_compute; reflexivity).
  split; [exact Hir|].
  exact (proj2 (multicast_groups_accepted 1 [mkReplica (kPort $"1") 0 [mkBackupReplica $"2" 0]] [] plain_options _
    eq_refl) Hir).
Defined.
