(* ===== verification/IrMessages.v ===== *)
(** p4_infra/p4_pdpi: the translations of [ir.cc] of whole messages - packets, read and write requests,
    stream messages - and of the status of a write. *)
From S2P Require Import Prelude Abseil NetAddr NetAddrText IrUtils EntityKeys IrData IrTranslation.

(** * Messages *)

(** PacketIn and PacketOut: the payload and the metadata, with their ids or names. *)
Record PiPacket := mkPiPacket { pi_payload : str; pi_metadata : list (Z * str) }.
Record IrPacket := mkIrPacket { ir_payload : str; ir_metadata : list (str * IrValue) }.

Record ReadRequest := mkReadRequest { read_device_id : Z; read_entities : list Entity }.
Record IrReadRequest := mkIrReadRequest { ir_read_device_id : Z; read_counter_data : bool; read_meter_configs : bool }.

Record PiUpdate := mkPiUpdate { pi_update_type : UpdateType; pi_update_entity : Entity }.
Record IrUpdate := mkIrUpdate { ir_update_type : UpdateType; ir_update_entity : IrEntity }.
(** An atomicity of 0 is CONTINUE_ON_ERROR. *)
Record PiWriteRequest := mkPiWriteRequest {
  write_device_id : Z;
  write_role_id : Z;
  write_role : str;
  write_election_id : option (Z * Z);
  write_updates : list PiUpdate;
  atomicity : Z;
}.
Record IrWriteRequest := mkIrWriteRequest {
  ir_write_device_id : Z;
  ir_write_election_id : option (Z * Z);
  ir_write_updates : list IrUpdate;
}.

(** Stream messages; [A] is MasterArbitrationUpdate, which is copied.  Another field that is set carries
    its name. *)
Inductive StreamRequest (A P : Type) :=
  | kArbitration (a : A) | kPacket (p : P) | kOtherUpdate (name : str) | UPDATE_NOT_SET.
Arguments kArbitration {A P} _.
Arguments kPacket {A P} _.
Arguments kOtherUpdate {A P} _.
Arguments UPDATE_NOT_SET {A P}.
Inductive StreamErrorDetails := kPacketOut (p : PiPacket) | kOtherDetails (name : str) | DETAILS_NOT_SET.
Inductive StreamResponse (A P E : Type) :=
  | kArbitrationResponse (a : A) | kPacketIn (p : P) | kError (canonical_code : Z) (message : str) (details : E)
  | kOtherResponse (name : str) | RESPONSE_NOT_SET.
Arguments kArbitrationResponse {A P E} _.
Arguments kPacketIn {A P E} _.
Arguments kError {A P E} _ _ _.
Arguments kOtherResponse {A P E} _.
Arguments RESPONSE_NOT_SET {A P E}.

Section messages.
Context `{AbslStrings} `{!Ipv6.Inet} `{Gutil}.
Context (IsStructurallyValid : str → bool).
Context {A : Type}.
Abbreviation ArbitraryByteStringToIrValue := (ArbitraryByteStringToIrValue IsStructurallyValid).

(** * Packets *)

Definition metadata_by_id (info : IrP4Info) (kind : str) : option (gmap Z IrPacketIoMetadataDefinition) :=
  if bool_decide (kind = $"packet-in") then Some (packet_in_metadata_by_id info)
  else if bool_decide (kind = $"packet-out") then Some (packet_out_metadata_by_id info)
  else None.
Definition metadata_by_name (info : IrP4Info) (kind : str) : option (gmap str IrPacketIoMetadataDefinition) :=
  if bool_decide (kind = $"packet-in") then Some (packet_in_metadata_by_name info)
  else if bool_decide (kind = $"packet-out") then Some (packet_out_metadata_by_name info)
  else None.

(** Padding must be zeros and has no name in the intermediate representation. *)
Definition PiMetadataToIr (definitions : gmap Z IrPacketIoMetadataDefinition) (metadata : Z * str)
  : result (gset str * list (str * IrValue)) :=
  let '(id, value) := metadata in
  match definitions !! id with
  | None => Err kInvalidArgument
  | Some definition =>
    if is_padding definition then
      if negb (IsAllZeros value) then Err kInvalidArgument else Ok (∅, [])
    else
      ir_value ← ArbitraryByteStringToIrValue (metadata_format definition) (bitwidth (metadata_element definition)) value;
      Ok (∅, [(element_name (metadata_element definition), ir_value)])
  end.

Definition PiPacketIoToIr (info : IrP4Info) (kind : str) (packet : PiPacket) : result IrPacket :=
  match metadata_by_id info kind with
  | None => Err kInvalidArgument
  | Some metadata_by_id =>
    '(used_metadata_ids, _, metadata, reasons) ←
      fold_result (unique_step fst (PiMetadataToIr metadata_by_id)) (pi_metadata packet) (∅, ∅, [], false);
    let missing := existsb (λ '(id, _), negb (bool_decide (id ∈ used_metadata_ids))) (map_to_list metadata_by_id) in
    unless_invalid (reasons || missing) (mkIrPacket (pi_payload packet) metadata)
  end.

Definition CreatePaddingMetadata (metadata_id : Z) : Z * str := (metadata_id, [zero]).

Definition IrMetadataToPi (options : TranslationOptions) (definitions : gmap str IrPacketIoMetadataDefinition)
  (metadata : str * IrValue) : result (gset str * list (Z * str)) :=
  let '(name, ir_value) := metadata in
  match definitions !! name with
  | None => Err kInvalidArgument
  | Some definition =>
    if is_padding definition then Err kInvalidArgument
    else
      value ← IrValueToPi options (metadata_format definition) (bitwidth (metadata_element definition)) ir_value;
      Ok (∅, [(element_id (metadata_element definition), value)])
  end.

(** The padding of every definition that has it, in the order of the map. *)
Definition padding_metadata (definitions : gmap str IrPacketIoMetadataDefinition) : list (Z * str) :=
  omap (λ '(_, d), if is_padding d then Some (CreatePaddingMetadata (element_id (metadata_element d))) else None)
    (map_to_list definitions).

Definition IrPacketIoToPi (info : IrP4Info) (kind : str) (packet : IrPacket) (options : TranslationOptions)
  : result PiPacket :=
  match metadata_by_name info kind with
  | None => Err kInvalidArgument
  | Some metadata_by_name =>
    '(used_metadata_names, _, metadata, reasons) ←
      fold_result (unique_step fst (IrMetadataToPi options metadata_by_name)) (ir_metadata packet) (∅, ∅, [], false);
    let missing := existsb (λ '(name, d), negb (is_padding d) && negb (bool_decide (name ∈ used_metadata_names)))
                     (map_to_list metadata_by_name) in
    unless_invalid (reasons || missing)
      (mkPiPacket (ir_payload packet) (metadata ++ padding_metadata metadata_by_name))
  end.

Definition PiPacketInToIr (info : IrP4Info) (packet : PiPacket) : result IrPacket := PiPacketIoToIr info $"packet-in" packet.
Definition PiPacketOutToIr (info : IrP4Info) (packet : PiPacket) : result IrPacket := PiPacketIoToIr info $"packet-out" packet.
Definition IrPacketInToPi (info : IrP4Info) (packet : IrPacket) (options : TranslationOptions) : result PiPacket :=
  IrPacketIoToPi info $"packet-in" packet options.
Definition IrPacketOutToPi (info : IrP4Info) (packet : IrPacket) (options : TranslationOptions) : result PiPacket :=
  IrPacketIoToPi info $"packet-out" packet options.

(** * Read requests *)

Definition empty_meter : MeterConfig := mkMeterConfig 0 0 0 0 [].
Definition empty_counter : CounterData := mkCounterData 0 0.
#[local] Instance meter_eq_dec : EqDecision MeterConfig.
Proof. solve_decision. Defined.
#[local] Instance counter_eq_dec : EqDecision CounterData.
Proof. solve_decision. Defined.

(** Nothing but the counters and the meter is set. *)
Definition reads_everything (entry : TableEntry) : bool :=
  (table_id entry =? 0) && (priority entry =? 0) && (controller_metadata entry =? 0) && (idle_timeout_ns entry =? 0) &&
  negb (is_default_action entry) && bool_decide (metadata entry = []) &&
  match action entry with ACTION_ABSENT => true | _ => false end &&
  bool_decide (time_since_last_hit entry = None) && bool_decide (Datatypes.length (match_ entry) = 0%nat).

Definition PiReadRequestToIr (read_request : ReadRequest) : result IrReadRequest :=
  if read_device_id read_request =? 0 then Err kInvalidArgument else
  match read_entities read_request with
  | [e] =>
    let '(is_table_entry, entry) := match e with kTableEntry t => (true, t) | _ => (false, plain_entry 0 0 [] ACTION_ABSENT) end in
    let meter_given := bool_decide (is_Some (meter_config entry)) in
    let counter_given := bool_decide (is_Some (counter_data entry)) in
    let invalid := negb is_table_entry || negb (reads_everything entry) ||
      meter_given && negb (bool_decide (meter_config entry = Some empty_meter)) ||
      counter_given && negb (bool_decide (counter_data entry = Some empty_counter)) in
    if invalid then Err kUnimplemented
    else Ok (mkIrReadRequest (read_device_id read_request) counter_given meter_given)
  | _ => Err kUnimplemented
  end.

Definition IrReadRequestToPi (read_request : IrReadRequest) : result ReadRequest :=
  if ir_read_device_id read_request =? 0 then Err kUnimplemented else
  let entry := mkTableEntry 0 0 [] ACTION_ABSENT []
                 (if read_meter_configs read_request then Some empty_meter else None)
                 (if read_counter_data read_request then Some empty_counter else None) None 0 false 0 None [] in
  Ok (mkReadRequest (ir_read_device_id read_request) [kTableEntry entry]).

(** * Write requests *)

(** The type 0 is UNSPECIFIED; a number that is no type is let through in this direction only. *)
Definition unspecified (t : UpdateType) : bool := match t with UPDATE_UNSPECIFIED n => n =? 0 | _ => false end.
Definition Update_Type_IsValid (t : UpdateType) : bool := match t with UPDATE_UNSPECIFIED n => n =? 0 | _ => true end.

Definition PiUpdateToIr (info : IrP4Info) (options : TranslationOptions) (update : PiUpdate) : result IrUpdate :=
  if unspecified (pi_update_type update) then Err kInvalidArgument
  else
    entity ← PiEntityToIr IsStructurallyValid info (pi_update_entity update) options;
    Ok (mkIrUpdate (pi_update_type update) entity).
Definition IrUpdateToPi (info : IrP4Info) (options : TranslationOptions) (update : IrUpdate) : result PiUpdate :=
  if negb (Update_Type_IsValid (ir_update_type update)) || unspecified (ir_update_type update) then Err kInvalidArgument
  else
    entity ← IrEntityToPi info (ir_update_entity update) options;
    Ok (mkPiUpdate (ir_update_type update) entity).

(** An election id of 0 is not set. *)
Definition copy_election_id (election_id : option (Z * Z)) : option (Z * Z) :=
  match election_id with Some (high, low) => if (0 <? high) || (0 <? low) then Some (high, low) else None | None => None end.

Definition PiWriteRequestToIr (info : IrP4Info) (write_request : PiWriteRequest) (options : TranslationOptions)
  : result IrWriteRequest :=
  if negb (write_role_id write_request =? 0) || negb (atomicity write_request =? 0) then Err kInvalidArgument
  else
    updates ← translate_all (PiUpdateToIr info options) (write_updates write_request);
    Ok (mkIrWriteRequest (write_device_id write_request) (copy_election_id (write_election_id write_request)) updates).
Definition IrWriteRequestToPi (info : IrP4Info) (ir_write_request : IrWriteRequest) (options : TranslationOptions)
  : result PiWriteRequest :=
  updates ← translate_all (IrUpdateToPi info options) (ir_write_updates ir_write_request);
  Ok (mkPiWriteRequest (ir_write_device_id ir_write_request) 0 []
        (copy_election_id (ir_write_election_id ir_write_request)) updates 0).

(** * Stream messages

    When no field is set, the name of field 0 is looked up, which does not exist. *)

Definition PiStreamMessageRequestToIr (info : IrP4Info) (m : StreamRequest A PiPacket) : result (StreamRequest A IrPacket) :=
  match m with
  | kArbitration a => Ok (kArbitration a)
  | kPacket p => p ← PiPacketOutToIr info p; Ok (kPacket p)
  | kOtherUpdate _ => Err kInvalidArgument
  | UPDATE_NOT_SET => Die
  end.
Definition IrStreamMessageRequestToPi (info : IrP4Info) (m : StreamRequest A IrPacket) (options : TranslationOptions)
  : result (StreamRequest A PiPacket) :=
  match m with
  | kArbitration a => Ok (kArbitration a)
  | kPacket p => p ← IrPacketOutToPi info p options; Ok (kPacket p)
  | kOtherUpdate _ => Err kInvalidArgument
  | UPDATE_NOT_SET => Die
  end.

Definition PiStreamMessageResponseToIr (info : IrP4Info) (m : StreamResponse A PiPacket StreamErrorDetails)
  : result (StreamResponse A IrPacket IrPacket) :=
  match m with
  | kArbitrationResponse a => Ok (kArbitrationResponse a)
  | kPacketIn p => p ← PiPacketInToIr info p; Ok (kPacketIn p)
  | kError canonical_code message details =>
    match details with
    | kPacketOut p => p ← PiPacketOutToIr info p; Ok (kError canonical_code message p)
    | kOtherDetails _ => Err kInvalidArgument
    | DETAILS_NOT_SET => Die
    end
  | kOtherResponse _ => Err kInvalidArgument
  | RESPONSE_NOT_SET => Die
  end.
Definition IrStreamMessageResponseToPi (info : IrP4Info) (m : StreamResponse A IrPacket IrPacket)
  (options : TranslationOptions) : result (StreamResponse A PiPacket StreamErrorDetails) :=
  match m with
  | kArbitrationResponse a => Ok (kArbitrationResponse a)
  | kPacketIn p => p ← IrPacketInToPi info p options; Ok (kPacketIn p)
  | kError canonical_code message p => p ← IrPacketOutToPi info p options; Ok (kError canonical_code message (kPacketOut p))
  | kOtherResponse _ => Err kInvalidArgument
  | RESPONSE_NOT_SET => Die
  end.
End messages.

(** * The status of a write *)

Module Rpc.

(** google.rpc.Status: the details are p4.v1.Error messages, as code and message, or something else. *)
Record RpcStatus := mkRpcStatus { rpc_code : Z; rpc_message : str; rpc_details : list (option (Z * str)) }.
(** The bytes of [error_details]: empty, not a google.rpc.Status, or one. *)
Inductive ErrorDetails := NoDetails | Unparsable | Details (s : RpcStatus).
Record GrpcStatus := mkGrpcStatus { error_code : Z; error_message : str; error_details : ErrorDetails }.

(** [IrUpdateStatus] is a code and a message. *)
Inductive IrWriteRpcStatus :=
  | kRpcResponse (statuses : list (Z * str))
  | kRpcWideError (code : Z) (message : str)
  | STATUS_NOT_SET.

Definition OK : Z := 0.
Definition UNKNOWN : Z := 2.

Definition no_details (d : ErrorDetails) : bool := match d with NoDetails => true | _ => false end.

Definition read_detail (detail : option (Z * str)) : result (Z * str) :=
  match detail with
  | None => Err kInvalidArgument
  | Some (canonical_code, message) =>
    _ ← IsGoogleRpcCode canonical_code;
    _ ← ValidateGenericUpdateStatus canonical_code message;
    Ok (canonical_code, message)
  end.

Definition GrpcStatusToIrWriteRpcStatus (grpc_status : GrpcStatus) (number_of_updates_in_write_request : Z)
  : result IrWriteRpcStatus :=
  if error_code grpc_status =? OK then
    if negb (bool_decide (error_message grpc_status = [])) || negb (no_details (error_details grpc_status))
    then Err kInvalidArgument
    else Ok (kRpcResponse (replicate (Z.to_nat number_of_updates_in_write_request) (OK, [])))
  else
    match error_details grpc_status with
    | NoDetails =>
      _ ← IsGoogleRpcCode (error_code grpc_status);
      _ ← ValidateGenericUpdateStatus (error_code grpc_status) (error_message grpc_status);
      Ok (kRpcWideError (error_code grpc_status) (error_message grpc_status))
    | details =>
      if negb (error_code grpc_status =? UNKNOWN) then Err kInvalidArgument else
      match details with
      | Details inner_rpc_status =>
        if negb (rpc_code inner_rpc_status =? error_code grpc_status) then Err kInvalidArgument
        else if negb (Z.of_nat (Datatypes.length (rpc_details inner_rpc_status)) =? number_of_updates_in_write_request)
        then Err kInvalidArgument
        else
          statuses ← map_result read_detail (rpc_details inner_rpc_status);
          if forallb (λ st, fst st =? OK) statuses then Err kInvalidArgument else Ok (kRpcResponse statuses)
      | _ => Err kInvalidArgument
      end
    end.

Section readable.
(** The text of the results of a batch. *)
Context (IrWriteResponseToReadableMessage : list (Z * str) → str).

Definition write_detail (st : Z * str) : result (option (Z * str)) :=
  _ ← ValidateGenericUpdateStatus (fst st) (snd st);
  _ ← IsGoogleRpcCode (fst st);
  Ok (Some st).
Definition IrWriteResponseToGrpcStatus (statuses : list (Z * str)) : result GrpcStatus :=
  details ← map_result write_detail statuses;
  Ok (mkGrpcStatus UNKNOWN (IrWriteResponseToReadableMessage statuses) (Details (mkRpcStatus UNKNOWN [] details))).

Definition IrWriteRpcStatusToGrpcStatus (ir_write_status : IrWriteRpcStatus) : result GrpcStatus :=
  match ir_write_status with
  | kRpcResponse statuses =>
    let all_ir_update_status_ok := forallb (λ st, fst st =? OK) statuses in
    let ir_update_status_has_no_error_message := forallb (λ st, bool_decide (snd st = [])) statuses in
    if all_ir_update_status_ok && ir_update_status_has_no_error_message then Ok (mkGrpcStatus OK [] NoDetails)
    else IrWriteResponseToGrpcStatus statuses
  | kRpcWideError code message =>
    _ ← IsGoogleRpcCode code;
    if code =? OK then Err kInvalidArgument
    else _ ← ValidateGenericUpdateStatus code message; Ok (mkGrpcStatus code message NoDetails)
  | STATUS_NOT_SET => Err kInvalidArgument
  end.

(** The outer [result] is the status that is returned when the status of the write is malformed; the inner
    status is a code and a message. *)
Definition WriteRpcGrpcStatusToAbslStatus (grpc_status : GrpcStatus) (number_of_updates_in_write_request : Z)
  : result (Z * str) :=
  write_rpc_status ← GrpcStatusToIrWriteRpcStatus grpc_status number_of_updates_in_write_request;
  match write_rpc_status with
  | kRpcWideError code message => Ok (code, message)
  | kRpcResponse statuses =>
    if forallb (λ st, fst st =? OK) statuses then Ok (OK, []) else Ok (UNKNOWN, IrWriteResponseToReadableMessage statuses)
  | STATUS_NOT_SET => Err kInternal
  end.
End readable.
End Rpc.
