(* ===== verification/IrMessagesCorrect.v ===== *)
(** The translations of messages of ir.cc: what [PiPacketIoToIr] accepts, and that packets, write requests,
    stream messages and write statuses are translated back to what they were. *)
From S2P Require Import Prelude Abseil NetAddr NetAddrText IrUtils EntityKeys IrData IrProgram IrTranslation IrRoundtrip IrCorrect IrProgramCorrect IrMessages.

(** * Definitions of metadata *)

Definition definition_id (d : IrPacketIoMetadataDefinition) : Z := element_id (metadata_element d).
Definition definition_name (d : IrPacketIoMetadataDefinition) : str := element_name (metadata_element d).

Record metadata_ok (by_id : gmap Z IrPacketIoMetadataDefinition) (by_name : gmap str IrPacketIoMetadataDefinition) : Prop := {
  metadata_indexed : indexed definition_id definition_name by_id by_name;
  metadata_elements i d : by_id !! i = Some d → element_ok (metadata_format d) (metadata_element d);
}.

Section created.
Context `{AbslStrings} `{Gutil}.

(** The compiler gives the width of metadata that are not strings. *)
Definition packet_widths_given (p4_info : P4.P4Info) : Prop :=
  ∀ data metadata, data ∈ P4.controller_packet_metadata p4_info → metadata ∈ P4.packet_metadata data →
    width_given (P4.type_info p4_info) metadata.

Definition state_ok (s : gmap Z IrPacketIoMetadataDefinition * gmap str IrPacketIoMetadataDefinition) : Prop := metadata_ok (fst s) (snd s).

Lemma empty_metadata_ok : metadata_ok ∅ ∅.
Proof. split; [apply indexed_empty|]. by intros i d. Qed.

Lemma translate_metadata_ok type_info s m s' :
  width_given type_info m → state_ok s → translate_metadata type_info s m = Ok s' → state_ok s'.
Proof.
  intros Hw [Hx Hok]. unfold translate_metadata. intros (f & Hf & Hs)%bind_Ok_iff.
  match type of Hs with insert_indexed _ _ ?d _ = _ => set (d0 := d) in * end. split.
  - by apply (indexed_insert definition_id definition_name d0 s).
  - eapply (insert_indexed_all (λ d, element_ok (metadata_format d) (metadata_element d)) _ _ d0); [exact Hs| |exact Hok].
    by eapply format_of_element.
Qed.

Lemma process_definition_ok data type_info s s' :
  (∀ m, m ∈ P4.packet_metadata data → width_given type_info m) → state_ok s →
  ProcessPacketIoMetadataDefinition data type_info s = Ok s' → state_ok s'.
Proof.
  intros Hw Hs. unfold ProcessPacketIoMetadataDefinition. destruct (negb _); [done|].
  revert s Hs. induction (P4.packet_metadata data) as [|m l IH]; intros s Hs; cbn [fold_result]; [by intros [= <-]|].
  intros (s1 & Hm & Hl)%bind_Ok_iff. eapply IH; [|eapply translate_metadata_ok; [|exact Hs|exact Hm]|exact Hl].
  - intros m' Hin. apply Hw. by right.
  - apply Hw. by left.
Qed.

Lemma process_metadata_ok type_info l s s' :
  (∀ data m, data ∈ l → m ∈ P4.packet_metadata data → width_given type_info m) →
  state_ok (fst s) ∧ state_ok (snd s) → fold_result (process_metadata type_info) l s = Ok s' →
  state_ok (fst s') ∧ state_ok (snd s').
Proof.
  intros Hw. revert s. induction l as [|data l IH]; intros s Hs; cbn [fold_result]; [by intros [= <-]|].
  intros (s1 & Hm & Hl)%bind_Ok_iff. apply (IH (λ d m Hd, Hw d m (proj2 (elem_of_cons _ _ _) (or_intror Hd))) s1); [|done].
  destruct s as [pin pout]. destruct Hs as [Hin Hout]. unfold process_metadata in Hm.
  assert (∀ m, m ∈ P4.packet_metadata data → width_given type_info m) as Hd by (intros m; apply Hw; by left).
  case_bool_decide; [|case_bool_decide; [|done]]; apply bind_Ok_iff in Hm as (x & Hx & [= <-]); cbn [fst snd] in *;
    split; first [exact Hin|exact Hout|by apply (process_definition_ok _ _ _ _ Hd) in Hx].
Qed.

Lemma created_metadata p4_info info kind by_id by_name :
  packet_widths_given p4_info → CreateIrP4Info p4_info = Ok info →
  metadata_by_id info kind = Some by_id → metadata_by_name info kind = Some by_name → metadata_ok by_id by_name.
Proof.
  intros Hw. unfold CreateIrP4Info. intros ([actions references] & Hactions & Hrest)%bind_Ok_iff.
  apply bind_Ok_iff in Hrest as (profiles & _ & Hrest). apply bind_Ok_iff in Hrest as ([tables1 references1] & Htables & Hrest).
  apply bind_Ok_iff in Hrest as ([packet_in packet_out] & Hpackets & Hrest).
  apply bind_Ok_iff in Hrest as (tables2 & _ & Hrest). apply bind_Ok_iff in Hrest as (tables3 & _ & Hrest).
  apply bind_Ok_iff in Hrest as (u1 & _ & Hrest). apply bind_Ok_iff in Hrest as (u2 & _ & Hrest).
  apply bind_Ok_iff in Hrest as (u3 & _ & Hrest). apply bind_Ok_iff in Hrest as (built_in0 & _ & Hrest).
  apply bind_Ok_iff in Hrest as (refs & _ & Hrest). apply bind_Ok_iff in Hrest as ([tables built_in] & _ & Hrest).
  apply bind_Ok_iff in Hrest as (ranks & _ & [= <-]).
  apply process_metadata_ok in Hpackets as [Hpin Hpout]; [|exact Hw|by split; apply empty_metadata_ok].
  unfold metadata_by_id, metadata_by_name. cbn [packet_in_metadata_by_id packet_in_metadata_by_name packet_out_metadata_by_id packet_out_metadata_by_name].
  case_bool_decide; [intros [= <-] [= <-]; exact Hpin|]. case_bool_decide; [intros [= <-] [= <-]; exact Hpout|done].
Qed.
End created.

(** * Packets *)

Section packets.
Context `{AbslStringsLaws} `{!Ipv6.Inet, !Ipv6.InetLaws} `{Gutil}.
Context (IsStructurallyValid : str → bool).
Implicit Types (by_id : gmap Z IrPacketIoMetadataDefinition) (by_name : gmap str IrPacketIoMetadataDefinition).

(** A value that its definition allows. *)
Definition metadata_fits by_id (m : Z * str) : Prop :=
  ∃ d, by_id !! fst m = Some d ∧
    if is_padding d then IsAllZeros (snd m) = true
    else ∃ v, ArbitraryByteStringToIrValue IsStructurallyValid (metadata_format d) (bitwidth (metadata_element d)) (snd m) = Ok v.

Definition named by_id (m : Z * str) : bool :=
  match by_id !! fst m with Some d => negb (is_padding d) | None => false end.
Definition canonical_metadata by_id (m : Z * str) : Z * str :=
  (fst m, pi_bytes (default HEX_STRING (metadata_format <$> by_id !! fst m)) (snd m)).
Definition canonical_packet by_id by_name (p : PiPacket) : PiPacket :=
  mkPiPacket (pi_payload p) (map (canonical_metadata by_id) (List.filter (named by_id) (pi_metadata p)) ++ padding_metadata by_name).

(** A named value and its translation. *)
Definition translated by_id (m : Z * str) (x : str * IrValue) : Prop :=
  ∃ d, by_id !! fst m = Some d ∧ is_padding d = false ∧ fst x = definition_name d ∧
    ArbitraryByteStringToIrValue IsStructurallyValid (metadata_format d) (bitwidth (metadata_element d)) (snd m) = Ok (snd x).

Lemma pi_metadata_Ok by_id m y : PiMetadataToIr IsStructurallyValid by_id m = Ok y ↔
  metadata_fits by_id m ∧ (named by_id m = false ∧ y = (∅, []) ∨ ∃ x, named by_id m = true ∧ y = (∅, [x]) ∧ translated by_id m x).
Proof.
  unfold PiMetadataToIr, metadata_fits, named, translated. destruct m as [id v]. cbn [fst snd].
  destruct (by_id !! id) as [d|]; [|by split; [done|intros [(d & [=] & _) _]]]. destruct (is_padding d) eqn:Hp; cbn [negb].
  - destruct (IsAllZeros v) eqn:Hz; cbn [negb]; last first.
    { split; [done|]. intros [(d' & [= <-] & Hv) _]. rewrite Hp in Hv. cbn in Hv. congruence. }
    split; [|by intros (_ & [[_ ->]|(x & [=] & _)])]. intros [= <-]. split; [|by left]. exists d. by rewrite Hp.
  - split.
    + intros (ir & Hir & [= <-])%bind_Ok_iff. split; [exists d; rewrite Hp; eauto|]. right. eexists. split; [done|]. split; [done|].
      exists d. done.
    + intros (_ & [[[=] _]|(x & _ & -> & d' & [= <-] & _ & Hn & ->)]). cbn. do 3 f_equal. by destruct x; cbn in *; subst.
Qed.

Lemma pi_metadata_list by_id l ys : Forall2 (λ m y, PiMetadataToIr IsStructurallyValid by_id m = Ok y) l ys →
  Forall (metadata_fits by_id) l ∧ Forall2 (translated by_id) (List.filter (named by_id) l) (concat (map snd ys)).
Proof.
  induction 1 as [|m y l ys Hm Hl [IHf IHt]]; [by repeat constructor|]. apply pi_metadata_Ok in Hm as [Hf Hm].
  split; [by constructor|]. cbn [List.filter map concat].
  destruct Hm as [[-> ->]|(x & -> & -> & Hx)]; cbn [snd app]; [done|by constructor].
Qed.
Lemma pi_metadata_total by_id l : Forall (metadata_fits by_id) l →
  ∃ ys, Forall2 (λ m y, PiMetadataToIr IsStructurallyValid by_id m = Ok y) l ys.
Proof.
  induction 1 as [|m l Hm Hl [ys IH]]; [by exists []|]. pose proof Hm as (d & Hd & Hv).
  destruct (is_padding d) eqn:Hp.
  - exists ((∅, []) :: ys). constructor; [|done]. apply pi_metadata_Ok. split; [done|]. left. unfold named. by rewrite Hd, Hp.
  - destruct Hv as [v Hv]. exists ((∅, [(definition_name d, v)]) :: ys). constructor; [|done]. apply pi_metadata_Ok. split; [done|].
    right. eexists. unfold named. rewrite Hd, Hp. split; [done|]. split; [done|]. by exists d.
Qed.

(** ** What is accepted *)

Lemma none_missing by_id (used : gset Z) :
  existsb (λ '(id, _), negb (bool_decide (id ∈ used))) (map_to_list by_id) = false ↔ ∀ id, is_Some (by_id !! id) → id ∈ used.
Proof.
  split.
  - intros Hex id [d Hd]. apply elem_of_map_to_list in Hd. destruct (decide (id ∈ used)) as [|Hn]; [done|]. exfalso.
    apply not_true_iff_false in Hex. apply Hex, existsb_exists. exists (id, d). split; [by apply list_elem_of_In|].
    by rewrite bool_decide_eq_false_2.
  - intros Hall. apply not_true_iff_false. intros ([id d] & Hin%list_elem_of_In%elem_of_map_to_list & Hn)%existsb_exists.
    rewrite bool_decide_eq_true_2 in Hn; [done|]. apply Hall. eauto.
Qed.

Lemma packet_accepted info kind packet ir by_id : metadata_by_id info kind = Some by_id →
  PiPacketIoToIr IsStructurallyValid info kind packet = Ok ir ↔
  NoDup (map fst (pi_metadata packet)) ∧ (∀ id, is_Some (by_id !! id) ↔ id ∈ map fst (pi_metadata packet)) ∧
  Forall (metadata_fits by_id) (pi_metadata packet) ∧
  ir_payload ir = pi_payload packet ∧ Forall2 (translated by_id) (List.filter (named by_id) (pi_metadata packet)) (ir_metadata ir).
Proof.
  intros Hk. unfold PiPacketIoToIr. rewrite Hk. split.
  - intros ([[[used names] out] reasons] & Hl & [[-> Hm]%orb_false_iff <-]%unless_invalid_Ok)%bind_Ok_iff.
    apply unique_loop_Ok in Hl as (_ & Hnd & ys & Hys & -> & _ & ->). apply pi_metadata_list in Hys as [Hf Ht].
    rewrite none_missing in Hm. setoid_rewrite elem_of_list_to_set in Hm. split_and!; try done.
    intros id. split; [by apply Hm|]. intros ([i v] & -> & Hin)%list_elem_of_fmap. rewrite Forall_forall in Hf.
    destruct (Hf _ Hin) as (d & Hd & _). eauto.
  - intros (Hnd & Hdom & Hf & Hp & Ht). destruct (pi_metadata_total by_id _ Hf) as [ys Hys].
    rewrite (proj2 (unique_loop_Ok fst (PiMetadataToIr IsStructurallyValid by_id) (pi_metadata packet) _ _ _ false)
      (conj eq_refl (conj Hnd (ex_intro _ ys (conj Hys (conj eq_refl (conj eq_refl eq_refl))))))). cbn [mbind result_bind].
    rewrite (proj2 (none_missing by_id _)); [|intros id Hid; apply elem_of_list_to_set; by apply Hdom]. cbn [orb unless_invalid].
    f_equal. destruct ir as [payload metadata]. cbn in *. subst. f_equal.
    destruct (pi_metadata_list by_id _ _ Hys) as [_ Ht']. clear -Ht Ht'. revert Ht'. generalize (concat (map snd ys)).
    induction Ht as [|m x l xs (d & Hd & _ & Hn & Hv) _ IH]; intros xs' Hxs'; inversion Hxs' as [|? x' ? ? (d' & Hd' & _ & Hn' & Hv')]; subst; [done|].
    f_equal; [|by apply IH]. rewrite Hd' in Hd. injection Hd as ->. rewrite Hv' in Hv. injection Hv as ?. destruct x, x'; cbn in *; congruence.
Qed.

(** ** The way back *)

Lemma named_fits by_id m x : translated by_id m x → named by_id m = true ∧ metadata_fits by_id m.
Proof.
  intros (d & Hd & Hp & _ & Hv). unfold named, metadata_fits. rewrite Hd, Hp. split; [done|]. exists d. rewrite Hp. eauto.
Qed.

Lemma ir_metadata_back options by_id by_name m x :
  metadata_ok by_id by_name → bytes_short (snd m) → translated by_id m x →
  IrMetadataToPi options by_name x = Ok (∅, [canonical_metadata by_id m]).
Proof.
  intros [Hx Hel] Hs (d & Hd & Hp & Hn & Hv). unfold IrMetadataToPi, canonical_metadata. destruct x as [name v]. cbn [fst snd] in *.
  subst name. destruct (found_by_id _ _ _ _ Hx _ _ Hd) as [Hid Hname]. destruct (Hel _ _ Hd) as [Hw Hfit]. rewrite Hname, Hp.
  rewrite (value_back IsStructurallyValid options _ _ (snd m) v) by done. rewrite Hd. cbn [mbind result_bind fmap option_fmap option_map default].
  by rewrite <-Hid.
Qed.

Lemma translated_canonical by_id m x :
  bytes_short (snd m) → translated by_id m x → translated by_id (canonical_metadata by_id m) x.
Proof.
  intros Hs (d & Hd & Hp & Hn & Hv). exists d. cbn [canonical_metadata fst snd]. rewrite Hd. cbn [fmap option_fmap option_map default].
  split_and!; try done. by apply value_canonical.
Qed.

Lemma ir_list_back options by_id by_name l xs :
  metadata_ok by_id by_name → Forall (λ m, bytes_short (snd m)) l → Forall2 (translated by_id) l xs →
  Forall2 (λ x y, IrMetadataToPi options by_name x = Ok y) xs (map (λ m, (∅, [canonical_metadata by_id m])) l).
Proof.
  intros Hok Hs. induction 1 as [|m x l xs Hm Hl IH]; cbn [map]; [constructor|]. apply Forall_cons in Hs as [Hm' Hs].
  constructor; [by eapply ir_metadata_back|by apply IH].
Qed.
Lemma canonical_list_translated by_id l xs : Forall (λ m, bytes_short (snd m)) l → Forall2 (translated by_id) l xs →
  Forall2 (translated by_id) (map (canonical_metadata by_id) l) xs.
Proof.
  intros Hs. induction 1 as [|m x l xs Hm Hl IH]; cbn [map]; [constructor|]. apply Forall_cons in Hs as [Hm' Hs].
  constructor; [by apply translated_canonical|by apply IH].
Qed.

Lemma named_all by_id l xs : Forall2 (translated by_id) l xs → List.filter (named by_id) l = l.
Proof.
  induction 1 as [|m x l xs Hm Hl IH]; cbn [List.filter]; [done|]. rewrite (proj1 (named_fits _ _ _ Hm)). by f_equal.
Qed.

Lemma translated_names by_id by_name l xs : metadata_ok by_id by_name → Forall2 (translated by_id) l xs →
  NoDup (map fst l) → NoDup (map fst xs).
Proof.
  intros [Hx _]. induction 1 as [|m x l xs Hm Hl IH]; cbn [map]; [by constructor|]. intros [Hnew Hnd]%NoDup_cons.
  apply NoDup_cons. split; [|by apply IH]. intros (x' & Heq & Hx')%list_elem_of_fmap.
  apply list_elem_of_lookup in Hx' as [i Hi]. destruct (Forall2_lookup_r _ _ _ _ _ Hl Hi) as (m' & Hm' & (d' & Hd' & _ & Hn' & _)).
  destruct Hm as (d & Hd & _ & Hn & _). apply Hnew, list_elem_of_fmap. exists m'. split; [|by eapply list_elem_of_lookup_2].
  apply (indexed_inj _ _ _ _ _ _ d d' Hx Hd Hd'). congruence.
Qed.

Lemma padding_ids by_id by_name id v : metadata_ok by_id by_name →
  (id, v) ∈ padding_metadata by_name ↔ v = [zero] ∧ ∃ d, by_id !! id = Some d ∧ is_padding d = true.
Proof.
  intros [Hx _]. unfold padding_metadata. rewrite list_elem_of_omap. split.
  - intros ([name d] & Hin%elem_of_map_to_list & Hp). destruct (is_padding d) eqn:Hpad; [|done]. injection Hp as <- <-.
    split; [done|]. destruct (found_by_name _ _ _ _ Hx _ _ Hin) as [_ Hid]. by exists d.
  - intros (-> & d & Hd & Hp). destruct (found_by_id _ _ _ _ Hx _ _ Hd) as [Hid Hname].
    exists (definition_name d, d). split; [by apply elem_of_map_to_list|]. rewrite Hp. unfold CreatePaddingMetadata. by rewrite <-Hid.
Qed.
Lemma padding_NoDup by_id by_name : metadata_ok by_id by_name → NoDup (map fst (padding_metadata by_name)).
Proof.
  intros [Hx _]. unfold padding_metadata.
  assert (∀ e, e ∈ map_to_list by_name → by_name !! e.1 = Some e.2) as Hin by (intros [n d] ?%elem_of_map_to_list; done).
  pose proof (NoDup_fst_map_to_list by_name) as Hnd. revert Hin Hnd. generalize (map_to_list by_name).
  intros l Hin. induction l as [|[n d] l IH]; cbn; [constructor|]. intros [Hnew Hnd]%NoDup_cons.
  assert (NoDup (map fst (omap (λ '(_, d), if is_padding d then Some (CreatePaddingMetadata (element_id (metadata_element d))) else None) l))) as IH'
    by (apply IH; [intros e He; apply Hin; by right|done]).
  destruct (is_padding d); [|done]. cbn [map]. apply NoDup_cons. split; [|done].
  intros ([id v] & Heq & Hid)%list_elem_of_fmap. cbn [fst] in Heq. apply list_elem_of_omap in Hid as ([n' d'] & Hd' & Hp').
  destruct (is_padding d') eqn:Hpad; [|done]. injection Hp' as Hid' _. apply Hnew, list_elem_of_fmap. exists (n', d'). split; [|done].
  pose proof (Hin (n, d) (list_elem_of_here _ _)) as Hn. pose proof (Hin (n', d') (list_elem_of_further _ _ _ Hd')) as Hn'. cbn [fst snd] in *.
  destruct (found_by_name _ _ _ _ Hx _ _ Hn) as [Hdn Hdi], (found_by_name _ _ _ _ Hx _ _ Hn') as [Hdn' Hdi'].
  rewrite <-Hdn, <-Hdn'. assert (definition_id d = definition_id d') as Hids by (unfold definition_id; rewrite Hid'; exact Heq).
  rewrite Hids in Hdi. congruence.
Qed.

(** What a packet without missing or padded metadata says about its names. *)
Lemma NoDup_filter_keys {X Y} (f : X * Y → bool) l : NoDup (map fst l) → NoDup (map fst (List.filter f l)).
Proof.
  induction l as [|m ms IH]; [done|]. cbn [map]. intros [Hn Hnd]%NoDup_cons. cbn [List.filter]. destruct (f m); [|by apply IH].
  cbn [map]. apply NoDup_cons. split; [|by apply IH]. intros (m' & Heq & [Hin _]%list_elem_of_In%filter_In)%list_elem_of_fmap.
  apply Hn, list_elem_of_fmap. exists m'. split; [done|by apply list_elem_of_In].
Qed.
Lemma filter_all_false {X} (f : X → bool) l : List.filter f l = [] ↔ ∀ x, x ∈ l → f x = false.
Proof.
  induction l as [|x l IH]; cbn [List.filter]; [split; [by intros _ ? ?%elem_of_nil|done]|]. setoid_rewrite elem_of_cons.
  destruct (f x) eqn:Hf; [split; [done|]; intros Hall; specialize (Hall x (or_introl eq_refl)); congruence|].
  rewrite IH. split; [intros Hall y [->|Hy]; [done|by apply Hall]|eauto].
Qed.

Lemma packet_back info kind packet ir options by_id by_name :
  metadata_by_id info kind = Some by_id → metadata_by_name info kind = Some by_name → metadata_ok by_id by_name →
  Forall (λ m, bytes_short (snd m)) (pi_metadata packet) →
  PiPacketIoToIr IsStructurallyValid info kind packet = Ok ir →
  IrPacketIoToPi info kind ir options = Ok (canonical_packet by_id by_name packet).
Proof.
  intros Hk Hk' Hok Hs (Hnd & Hdom & Hf & Hp & Ht)%(packet_accepted _ _ _ _ _ Hk). unfold IrPacketIoToPi. rewrite Hk'.
  set (l := List.filter (named by_id) (pi_metadata packet)) in *.
  assert (Forall (λ m, bytes_short (snd m)) l) as Hls.
  { apply Forall_forall. intros m [Hin _]%list_elem_of_In%filter_In. rewrite Forall_forall in Hs. by apply Hs, list_elem_of_In. }
  assert (NoDup (map fst l)) as Hlnd by by apply NoDup_filter_keys.
  pose proof (translated_names _ _ _ _ Hok Ht Hlnd) as Hnames.
  assert (Forall2 (λ x y, IrMetadataToPi options by_name x = Ok y) (ir_metadata ir) (map (λ m, (∅, [canonical_metadata by_id m])) l)) as Hback
    by by apply ir_list_back.
  rewrite (proj2 (unique_loop_Ok fst (IrMetadataToPi options by_name) (ir_metadata ir) _ _ _ false)
    (conj eq_refl (conj Hnames (ex_intro _ _ (conj Hback (conj eq_refl (conj eq_refl eq_refl))))))). cbn [mbind result_bind orb].
  assert (existsb (λ '(name, d), negb (is_padding d) && negb (bool_decide (name ∈ (list_to_set (map fst (ir_metadata ir)) : gset str))))
    (map_to_list by_name) = false) as ->.
  { apply not_true_iff_false. intros ([name d] & Hin%list_elem_of_In%elem_of_map_to_list & [Hpad Hn]%andb_true_iff)%existsb_exists.
    destruct (found_by_name _ _ _ _ (metadata_indexed _ _ Hok) _ _ Hin) as [Hname Hid].
    rewrite bool_decide_eq_true_2 in Hn; [done|]. apply elem_of_list_to_set.
    assert (definition_id d ∈ map fst (pi_metadata packet)) as (m & Hm & Hmin)%list_elem_of_fmap by (apply Hdom; eauto).
    assert (m ∈ l) as Hml. { apply list_elem_of_In, filter_In. split; [by apply list_elem_of_In|]. unfold named. by rewrite <-Hm, Hid. }
    apply list_elem_of_lookup in Hml as [i Hi]. destruct (Forall2_lookup_l _ _ _ _ _ Ht Hi) as (x & Hx & (d' & Hd' & _ & Hn' & _)).
    apply list_elem_of_fmap. exists x. split; [|by eapply list_elem_of_lookup_2]. rewrite <-Hm, Hid in Hd'. injection Hd' as <-. congruence. }
  cbn [unless_invalid]. unfold canonical_packet. fold l. rewrite Hp. do 2 f_equal. f_equal.
  clear. induction l as [|m l IH]; [done|]. cbn. by f_equal.
Qed.

Lemma canonical_accepted info kind packet ir by_id by_name :
  metadata_by_id info kind = Some by_id → metadata_by_name info kind = Some by_name → metadata_ok by_id by_name →
  Forall (λ m, bytes_short (snd m)) (pi_metadata packet) →
  PiPacketIoToIr IsStructurallyValid info kind packet = Ok ir →
  PiPacketIoToIr IsStructurallyValid info kind (canonical_packet by_id by_name packet) = Ok ir.
Proof.
  intros Hk Hk' Hok Hs Hir. pose proof Hir as (Hnd & Hdom & Hf & Hp & Ht)%(packet_accepted _ _ _ _ _ Hk).
  apply (packet_accepted _ _ _ _ _ Hk). cbn [canonical_packet pi_payload pi_metadata].
  set (l := List.filter (named by_id) (pi_metadata packet)) in *.
  set (l' := map (canonical_metadata by_id) l).
  assert (map fst l' = map fst l) as Hfst by (unfold l'; rewrite map_map; by apply map_ext).
  assert (∀ m, m ∈ l → named by_id m = true ∧ m ∈ pi_metadata packet) as Hl.
  { intros m [Hin Hn]%list_elem_of_In%filter_In. split; [done|by apply list_elem_of_In]. }
  assert (Forall2 (translated by_id) l' (ir_metadata ir)) as Ht'
    by (apply canonical_list_translated; [apply Forall_forall; intros m Hm; rewrite Forall_forall in Hs; by apply Hs, Hl|done]).
  assert (List.filter (named by_id) (l' ++ padding_metadata by_name) = l') as Hfilter.
  { rewrite List.filter_app, (named_all _ _ _ Ht'), (proj2 (filter_all_false (named by_id) (padding_metadata by_name))); [by rewrite app_nil_r|].
    intros [id v] (_ & d & Hd & Hpad)%(padding_ids _ _ _ _ Hok). unfold named. cbn [fst]. by rewrite Hd, Hpad. }
  rewrite Hfilter, map_app, Hfst. split_and!; [| | |done|exact Ht'].
  - apply NoDup_app. split; [by apply NoDup_filter_keys|]. split; [|by eapply padding_NoDup].
    intros id (m & -> & Hm)%list_elem_of_fmap ([id' v] & Heq & (_ & d & Hd & Hpad)%(padding_ids _ _ _ _ Hok))%list_elem_of_fmap.
    cbn [fst] in Heq. destruct (Hl m Hm) as [Hn _]. unfold named in Hn. by rewrite Heq, Hd, Hpad in Hn.
  - intros id. rewrite elem_of_app. split.
    + intros [d Hd]. destruct (is_padding d) eqn:Hpad.
      * right. apply list_elem_of_fmap. exists (id, [zero]). split; [done|]. apply (padding_ids _ _ _ _ Hok). eauto.
      * left. assert (id ∈ map fst (pi_metadata packet)) as (m & -> & Hm)%list_elem_of_fmap by (apply Hdom; eauto).
        apply list_elem_of_fmap. exists m. split; [done|]. apply list_elem_of_In, filter_In. split; [by apply list_elem_of_In|].
        unfold named. by rewrite Hd, Hpad.
    + intros [(m & -> & Hm)%list_elem_of_fmap|([id' v] & -> & (_ & d & Hd & _)%(padding_ids _ _ _ _ Hok))%list_elem_of_fmap].
      * apply Hdom, list_elem_of_fmap. exists m. split; [done|by apply Hl].
      * eauto.
  - apply Forall_app. split.
    + apply Forall_forall. intros m Hm. apply list_elem_of_lookup in Hm as [i Hi].
      destruct (Forall2_lookup_l _ _ _ _ _ Ht' Hi) as (x & _ & Hx). by eapply named_fits.
    + apply Forall_forall. intros [id v] (-> & d & Hd & Hpad)%(padding_ids _ _ _ _ Hok). exists d. cbn [fst snd]. by rewrite Hd, Hpad.
Qed.

(** C38. Packets between the controller and the switch.  Under a program that was accepted, a packet is translated to the
    intermediate representation exactly when its metadata are those of the program, each once, padding is zeros and
    every other value fits its format; the result has the payload and the named values in their order.  It is
    translated back to the packet with its byte strings in canonical form and one zero byte for every padding, and this
    packet has the same translation. *)
Theorem packet_io_roundtrip (p4_info : P4.P4Info) (info : IrP4Info) (kind : str) (packet : PiPacket)
  (options : TranslationOptions) by_id by_name :
  packet_widths_given p4_info → CreateIrP4Info p4_info = Ok info →
  metadata_by_id info kind = Some by_id → metadata_by_name info kind = Some by_name →
  Forall (λ m, bytes_short (snd m)) (pi_metadata packet) →
  (∀ ir, PiPacketIoToIr IsStructurallyValid info kind packet = Ok ir ↔
    NoDup (map fst (pi_metadata packet)) ∧ (∀ id, is_Some (by_id !! id) ↔ id ∈ map fst (pi_metadata packet)) ∧
    Forall (metadata_fits by_id) (pi_metadata packet) ∧
    ir_payload ir = pi_payload packet ∧ Forall2 (translated by_id) (List.filter (named by_id) (pi_metadata packet)) (ir_metadata ir)) ∧
  (∀ ir, PiPacketIoToIr IsStructurallyValid info kind packet = Ok ir →
    IrPacketIoToPi info kind ir options = Ok (canonical_packet by_id by_name packet) ∧
    PiPacketIoToIr IsStructurallyValid info kind (canonical_packet by_id by_name packet) = Ok ir).
Proof.
  intros Hw Hc Hk Hk' Hs. pose proof (created_metadata _ _ _ _ _ Hw Hc Hk Hk') as Hok. split.
  - intros ir. by apply packet_accepted.
  - intros ir Hir. split; [by apply packet_back|by apply canonical_accepted].
Qed.

(** * Requests *)

Context {A : Type}.

Definition canonical_update (info : IrP4Info) (options : TranslationOptions) (u : PiUpdate) : PiUpdate :=
  mkPiUpdate (pi_update_type u) (canonical_entity info options (pi_update_entity u)).
Definition canonical_write (info : IrP4Info) (options : TranslationOptions) (w : PiWriteRequest) : PiWriteRequest :=
  mkPiWriteRequest (write_device_id w) 0 [] (copy_election_id (write_election_id w))
    (map (canonical_update info options) (write_updates w)) 0.

Lemma update_back info options u ir : well_formed info → addresses_full info → entity_in_range (pi_update_entity u) →
  Update_Type_IsValid (pi_update_type u) = true → PiUpdateToIr IsStructurallyValid info options u = Ok ir →
  IrUpdateToPi info options ir = Ok (canonical_update info options u).
Proof.
  intros Hwf Hfull Hr Hv. unfold PiUpdateToIr, IrUpdateToPi, canonical_update. destruct (unspecified (pi_update_type u)) eqn:Hu; [done|].
  intros (e & He & [= <-])%bind_Ok_iff. cbn [ir_update_type ir_update_entity]. rewrite Hv, Hu. cbn [negb orb].
  by rewrite (entity_back IsStructurallyValid info options (pi_update_entity u) e).
Qed.

(** A write request is translated back to the request with its entities in canonical form, without its role. *)
Lemma write_request_back info options w ir : well_formed info → addresses_full info →
  Forall (λ u, entity_in_range (pi_update_entity u) ∧ Update_Type_IsValid (pi_update_type u) = true) (write_updates w) →
  PiWriteRequestToIr IsStructurallyValid info w options = Ok ir → IrWriteRequestToPi info ir options = Ok (canonical_write info options w).
Proof.
  intros Hwf Hfull Hr. unfold PiWriteRequestToIr, IrWriteRequestToPi, canonical_write. destruct (_ || _); [done|].
  intros (us & Hus%translate_all_Ok & [= <-])%bind_Ok_iff. cbn [ir_write_updates ir_write_device_id ir_write_election_id].
  rewrite (proj2 (translate_all_Ok _ _ (map (canonical_update info options) (write_updates w)))).
  - cbn [mbind result_bind]. do 2 f_equal. destruct (write_election_id w) as [[h l]|]; [|done]. cbn.
    destruct ((0 <? h) || (0 <? l)) eqn:Hz; [|done]. cbn. by rewrite Hz.
  - induction Hus as [|u x l xs Hu Hl IH]; cbn [map]; [constructor|]. apply Forall_cons in Hr as [[Hr Hv] Hrs].
    constructor; [by apply update_back|by apply IH].
Qed.

(** A read request is translated exactly when it reads everything; the way back gives the same request. *)
Lemma read_request_back r ir : PiReadRequestToIr r = Ok ir →
  ∃ e, read_entities r = [kTableEntry e] ∧
  IrReadRequestToPi ir = Ok (mkReadRequest (read_device_id r) [kTableEntry (mkTableEntry 0 0 [] ACTION_ABSENT []
    (meter_config e) (counter_data e) None 0 false 0 None [])]).
Proof.
  unfold PiReadRequestToIr, IrReadRequestToPi. destruct (read_device_id r =? 0) eqn:Hd; [done|].
  destruct (read_entities r) as [|e [|e' l]]; [done| |done]. destruct e as [t|pre|n]; cbn zeta iota; [|done|done].
  destruct (_ || _) eqn:Hinv; [done|]. intros [= <-]. cbn [ir_read_device_id read_counter_data read_meter_configs]. rewrite Hd.
  exists t. split; [done|]. apply orb_false_iff in Hinv as [[_ Hm]%orb_false_iff Hc]. do 4 f_equal.
  destruct (meter_config t), (counter_data t); cbn in *; repeat case_bool_decide; try done; simplify_eq; congruence.
Qed.
End packets.

(** * The status of a write *)

Module RpcCorrect.
Import Rpc.
Section rpc.
Context (IrWriteResponseToReadableMessage : list (Z * str) → str).
Abbreviation IrWriteRpcStatusToGrpcStatus := (IrWriteRpcStatusToGrpcStatus IrWriteResponseToReadableMessage).

(** google.rpc.Code without its last code, and no message with OK. *)
Definition status_valid (st : Z * str) : Prop := 0 ≤ fst st ≤ 15 ∧ (fst st = OK → snd st = []).
Definition codes_valid (s : IrWriteRpcStatus) : Prop :=
  match s with
  | kRpcResponse statuses => Forall status_valid statuses
  | kRpcWideError code message => 0 < code ≤ 15
  | STATUS_NOT_SET => False
  end.
(** The number of updates that a status is about. *)
Definition updates_of (s : IrWriteRpcStatus) (n : Z) : Prop :=
  match s with kRpcResponse statuses => Z.of_nat (Datatypes.length statuses) = n | _ => True end.

Lemma ok_valid : status_valid (OK, []).
Proof. split; [cbn; unfold OK; lia|done]. Qed.
Lemma code_Ok code : IsGoogleRpcCode code = Ok tt ↔ 0 ≤ code ≤ 15.
Proof. unfold IsGoogleRpcCode. destruct (Z.ltb_spec code 0), (Z.ltb_spec 15 code); cbn; split; try done; lia. Qed.
Lemma status_Ok code message : ValidateGenericUpdateStatus code message = Ok tt ↔ (code = OK → message = []).
Proof. unfold ValidateGenericUpdateStatus, OK. destruct (Z.eqb_spec code 0); case_bool_decide; cbn; naive_solver. Qed.

Lemma write_detail_Ok st d : write_detail st = Ok d ↔ status_valid st ∧ d = Some st.
Proof.
  unfold write_detail, status_valid. rewrite bind_Ok_iff. split.
  - intros ([] & Hv & ([] & Hc%code_Ok & [= <-])%bind_Ok_iff). by rewrite status_Ok in Hv.
  - intros ([Hc Hv] & ->). exists tt. split; [by apply status_Ok|]. apply bind_Ok_iff. exists tt. split; [by apply code_Ok|done].
Qed.
Lemma read_detail_Ok d st : read_detail d = Ok st ↔ status_valid st ∧ d = Some st.
Proof.
  unfold read_detail, status_valid. destruct d as [[c m]|]; [|naive_solver]. rewrite bind_Ok_iff. split.
  - intros ([] & Hc%code_Ok & ([] & Hv & [= <-])%bind_Ok_iff). by rewrite status_Ok in Hv.
  - intros ([Hc Hv] & [= <-]). exists tt. split; [by apply code_Ok|]. apply bind_Ok_iff. exists tt. split; [by apply status_Ok|done].
Qed.
Lemma details_Ok {X Y} (f : X → result Y) (g : X → Y) (P : X → Prop) l r :
  (∀ x y, f x = Ok y ↔ P x ∧ y = g x) → map_result f l = Ok r ↔ Forall P l ∧ r = map g l.
Proof.
  intros Hf. rewrite map_result_Ok. split.
  - induction 1 as [|x y l r Hx Hl [IHp ->]]; [by split; [constructor|]|]. apply Hf in Hx as [Hx ->]. by split; [constructor|].
  - intros [Hp ->]. induction Hp as [|x l Hx Hl IH]; cbn; constructor; [by apply Hf|done].
Qed.

Lemma all_ok_statuses (statuses : list (Z * str)) : forallb (λ st, fst st =? OK) statuses = true →
  forallb (λ st, bool_decide (snd st = [])) statuses = true → statuses = replicate (Datatypes.length statuses) (OK, []).
Proof.
  induction statuses as [|[c m] l IH]; [done|]. cbn. intros [Hc Hl]%andb_true_iff [Hm Hl']%andb_true_iff.
  apply bool_decide_eq_true in Hm. rewrite <-IH by done. f_equal. f_equal; [lia|done].
Qed.
Lemma valid_all_ok (statuses : list (Z * str)) : Forall status_valid statuses →
  forallb (λ st, fst st =? OK) statuses = true → forallb (λ st, bool_decide (snd st = [])) statuses = true.
Proof.
  intros Hv Hall. apply forallb_forall. intros st Hin. rewrite forallb_forall in Hall. apply bool_decide_eq_true.
  rewrite Forall_forall in Hv. apply Hv; [by apply list_elem_of_In|]. specialize (Hall st Hin). lia.
Qed.

Lemma encode_response statuses :
  IrWriteRpcStatusToGrpcStatus (kRpcResponse statuses) =
    if forallb (λ st, fst st =? OK) statuses && forallb (λ st, bool_decide (snd st = [])) statuses then Ok (mkGrpcStatus OK [] NoDetails)
    else details ← map_result write_detail statuses;
      Ok (mkGrpcStatus UNKNOWN (IrWriteResponseToReadableMessage statuses) (Details (mkRpcStatus UNKNOWN [] details))).
Proof. done. Qed.
Lemma encode_wide code message g :
  IrWriteRpcStatusToGrpcStatus (kRpcWideError code message) = Ok g ↔ 0 < code ≤ 15 ∧ g = mkGrpcStatus code message NoDetails.
Proof.
  cbn [Rpc.IrWriteRpcStatusToGrpcStatus]. unfold IsGoogleRpcCode, ValidateGenericUpdateStatus, OK.
  destruct (Z.ltb_spec code 0), (Z.ltb_spec 15 code), (Z.eqb_spec code 0); cbn; naive_solver lia.
Qed.
Lemma decode_details details statuses :
  map_result read_detail details = Ok statuses ↔ Forall status_valid statuses ∧ details = map Some statuses.
Proof.
  rewrite map_result_Ok. split.
  - induction 1 as [|d st l r Hd Hl [IHv ->]]; [by split; [constructor|]|]. apply read_detail_Ok in Hd as [Hv ->]. by split; [constructor|].
  - intros [Hv ->]. induction Hv as [|st l Hv Hl IH]; cbn; constructor; [by apply read_detail_Ok|done].
Qed.
(** What is decoded from every form of status. *)
Lemma decode code message details n s : GrpcStatusToIrWriteRpcStatus (mkGrpcStatus code message details) n = Ok s ↔
  match details with
  | NoDetails => if code =? OK then message = [] ∧ s = kRpcResponse (replicate (Z.to_nat n) (OK, []))
                 else 0 < code ≤ 15 ∧ s = kRpcWideError code message
  | Unparsable => False
  | Details i => code = UNKNOWN ∧ rpc_code i = UNKNOWN ∧ Z.of_nat (Datatypes.length (rpc_details i)) = n ∧
      ∃ statuses, s = kRpcResponse statuses ∧ Forall status_valid statuses ∧ rpc_details i = map Some statuses ∧
        forallb (λ st, fst st =? OK) statuses = false
  end.
Proof.
  unfold GrpcStatusToIrWriteRpcStatus. cbn [error_code error_message error_details].
  destruct (Z.eqb_spec code OK) as [->|Hc].
  - destruct details as [| |i]; cbn [no_details negb orb]; [case_bool_decide; cbn; naive_solver|rewrite orb_true_r; by split|].
    rewrite orb_true_r. split; [done|]. by intros [Hu _].
  - destruct details as [| |i].
    + unfold IsGoogleRpcCode, ValidateGenericUpdateStatus, OK in *.
      destruct (Z.ltb_spec code 0), (Z.ltb_spec 15 code), (Z.eqb_spec code 0); cbn; naive_solver lia.
    + by destruct (negb _).
    + destruct (Z.eqb_spec code UNKNOWN) as [->|]; cbn [negb]; [|naive_solver].
      destruct (Z.eqb_spec (rpc_code i) UNKNOWN) as [Hi|]; cbn [negb]; [|naive_solver].
      destruct (Z.eqb_spec (Z.of_nat (Datatypes.length (rpc_details i))) n) as [Hl|]; cbn [negb]; [|naive_solver]. split.
      * intros (statuses & Hs & Hall)%bind_Ok_iff. apply decode_details in Hs as [Hv Hd]. destruct (forallb _ statuses) eqn:Ha; [done|].
        injection Hall as <-. eauto 10.
      * intros (_ & _ & _ & statuses & -> & Hv & Hd & Ha). rewrite Hd, (proj2 (decode_details _ statuses) (conj Hv eq_refl)).
        cbn [mbind result_bind]. by rewrite Ha.
Qed.

(** What is encoded, and what is decoded from it; a failure need not have a message. *)
Lemma write_status_laws (s : IrWriteRpcStatus) (n : Z) :
  (is_Ok (IrWriteRpcStatusToGrpcStatus s) = true ↔ codes_valid s) ∧
  (∀ g, IrWriteRpcStatusToGrpcStatus s = Ok g → updates_of s n → GrpcStatusToIrWriteRpcStatus g n = Ok s) ∧
  (∀ g, 0 ≤ n → GrpcStatusToIrWriteRpcStatus g n = Ok s → codes_valid s ∧ updates_of s n ∧
     ∃ g', IrWriteRpcStatusToGrpcStatus s = Ok g' ∧ error_code g' = error_code g ∧
       match error_details g, error_details g' with
       | Details i, Details i' => rpc_details i = rpc_details i'
       | NoDetails, NoDetails => error_message g = error_message g'
       | _, _ => False
       end).
Proof.
  split; [|split].
  - destruct s as [statuses|code message|]; cbn [codes_valid]; [| |by split].
    + rewrite encode_response. destruct (_ && _) eqn:Hall.
      { apply andb_true_iff in Hall as [Ha Hb]. split; [|done]. intros _. rewrite (all_ok_statuses _ Ha Hb).
        apply Forall_replicate, ok_valid. }
      destruct (map_result write_detail statuses) as [r|e|] eqn:Hr; split; try done;
        [by apply (details_Ok write_detail Some status_valid _ _ write_detail_Ok) in Hr as [? _]|..];
        intros Hv; by rewrite (proj2 (details_Ok write_detail Some status_valid statuses _ write_detail_Ok) (conj Hv eq_refl)) in Hr.
    + destruct (IrWriteRpcStatusToGrpcStatus (kRpcWideError code message)) as [g|e|] eqn:Hg; split; try done;
        [by apply encode_wide in Hg as [? _]|..]; intros Hv; by rewrite (proj2 (encode_wide code message _) (conj Hv eq_refl)) in Hg.
  - intros [code0 message0 details0]. rewrite decode. destruct s as [statuses|code message|]; cbn [updates_of]; [| |done].
    + rewrite encode_response. destruct (_ && _) eqn:Hall.
      { apply andb_true_iff in Hall as [Ha Hb]. intros [= <- <- <-] Hn. cbn. split; [done|]. by rewrite <-Hn, Nat2Z.id, <-all_ok_statuses. }
      intros (r & [Hv ->]%(details_Ok write_detail Some status_valid _ _ write_detail_Ok) & [= <- <- <-])%bind_Ok_iff Hn.
      cbn [rpc_code rpc_details]. rewrite length_map. split_and!; try done. exists statuses. split_and!; try done.
      apply not_true_iff_false. intros Ha. by rewrite Ha, (valid_all_ok _ Hv Ha) in Hall.
    + intros [Hv [= -> -> ->]]%encode_wide _. unfold OK. destruct (Z.eqb_spec code 0); [lia|done].
  - intros [code message details] Hn. rewrite decode. cbn [error_code error_message error_details]. destruct details as [| |i]; [|done|].
    + destruct (Z.eqb_spec code OK) as [->|Hc].
      * intros [-> ->]. cbn [codes_valid updates_of]. rewrite length_replicate, Z2Nat.id by done.
        split; [apply Forall_replicate, ok_valid|]. split; [done|]. exists (mkGrpcStatus OK [] NoDetails). split; [|done].
        rewrite encode_response. rewrite (proj2 (forallb_forall _ _)), (proj2 (forallb_forall _ _)); [done|..];
          intros st Hst%list_elem_of_In%elem_of_replicate; destruct Hst as [-> _]; done.
      * intros [Hv ->]. split; [done|]. split; [done|]. exists (mkGrpcStatus code message NoDetails). split; [|done]. by apply encode_wide.
    + intros (-> & _ & Hl & statuses & -> & Hv & Hd & Ha). cbn [codes_valid updates_of]. split; [done|]. split; [by rewrite Hd, length_map in Hl|].
      eexists. split; [rewrite encode_response, Ha; cbn [andb]|].
      { by rewrite (proj2 (details_Ok write_detail Some status_valid statuses _ write_detail_Ok) (conj Hv eq_refl)). }
      by cbn.
Qed.

(** As ir_utils.h and ir.proto say: a failure has a message. *)
Definition status_documented (st : Z * str) : Prop := 0 ≤ fst st ≤ 15 ∧ (fst st = OK ↔ snd st = []).
Definition documented (s : IrWriteRpcStatus) : Prop :=
  match s with
  | kRpcResponse statuses => Forall status_documented statuses
  | kRpcWideError code message => 0 < code ≤ 15 ∧ message ≠ []
  | STATUS_NOT_SET => False
  end.
Lemma documented_valid s : documented s → codes_valid s.
Proof.
  destruct s as [statuses|code message|]; cbn; [|naive_solver|done]. intros Hd. eapply Forall_impl; [exact Hd|].
  intros st [Hc Hm]. split; [done|]. by intros Hok%Hm.
Qed.

(** C39. The status of a write survives gRPC.  Every status as documented, with a code up to 15 (16, UNAUTHENTICATED, is rejected, which
    is a finding; OK comes without a message and a failure with one), is encoded, and what the client decodes, knowing the number of updates, is the same status.  Nothing
    is encoded with OK and a message, with another code, or that is not a status.  Conversely whatever a client accepts has
    the right number of updates, and is the encoding of what it understands, up to the texts. *)
Theorem write_status_roundtrip (s : IrWriteRpcStatus) (n : Z) :
  (documented s → updates_of s n →
     ∃ g, IrWriteRpcStatusToGrpcStatus s = Ok g ∧ GrpcStatusToIrWriteRpcStatus g n = Ok s) ∧
  (∀ g, IrWriteRpcStatusToGrpcStatus s = Ok g → codes_valid s ∧ (updates_of s n → GrpcStatusToIrWriteRpcStatus g n = Ok s)) ∧
  (∀ g, 0 ≤ n → GrpcStatusToIrWriteRpcStatus g n = Ok s → updates_of s n ∧
     ∃ g', IrWriteRpcStatusToGrpcStatus s = Ok g' ∧ error_code g' = error_code g ∧
       match error_details g, error_details g' with
       | Details i, Details i' => rpc_details i = rpc_details i'
       | NoDetails, NoDetails => error_message g = error_message g'
       | _, _ => False
       end).
Proof.
  destruct (write_status_laws s n) as (Hv & Hdec & Henc). split; [|split].
  - intros Hd Hn. apply documented_valid, Hv in Hd.
    destruct (IrWriteRpcStatusToGrpcStatus s) as [g|e|] eqn:Hg; [|done..]. exists g. split; [done|by apply Hdec].
  - intros g Hg. split; [apply Hv; by rewrite Hg|by apply Hdec].
  - intros g Hn Hg. by destruct (Henc g Hn Hg) as (_ & ?).
Qed.

End rpc.

(** One of two updates failed. *)
Lemma write_status_roundtrip_witness :
  ∃ g, IrWriteRpcStatusToGrpcStatus (λ _, $"text") (kRpcResponse [(0, []); (5, $"not found")]) = Ok g ∧
    GrpcStatusToIrWriteRpcStatus g 2 = Ok (kRpcResponse [(0, []); (5, $"not found")]).
Proof.
  destruct (write_status_roundtrip (λ _, $"text") (kRpcResponse [(0, []); (5, $"not found")]) 2) as (Hd & _ & _).
  apply Hd; [|reflexivity]. repeat constructor; cbn; unfold OK; try lia; try discriminate.
Defined.
End RpcCorrect.

(** * Examples *)

Definition padded_packet : PiPacket := mkPiPacket $"frame" [(2, [zero; zero]); (1, $"Ethernet0")].

Lemma routing_packet_widths : packet_widths_given routing_program.
Proof.
  intros data m Hd Hm. apply width_check_sound.
  assert (forallb (λ d, forallb (width_check (P4.type_info routing_program)) (P4.packet_metadata d))
    (P4.controller_packet_metadata routing_program) = true) as Hall by (vm_compute; reflexivity).
  rewrite forallb_forall in Hall. specialize (Hall data (proj1 (list_elem_of_In _ _) Hd)). rewrite forallb_forall in Hall.
  apply Hall. by apply list_elem_of_In.
Qed.

Lemma padded_packet_short : Forall (λ m, bytes_short (snd m)) (pi_metadata padded_packet).
Proof. repeat constructor; unfold bytes_short; vm_compute; reflexivity. Qed.

(** The padding is shortened to one byte and comes last. *)
Lemma packet_io_roundtrip_witness :
  PiPacketIoToIr (λ _, true) routing_info $"packet-in" padded_packet = Ok (mkIrPacket $"frame" [($"ingress_port", kStr $"Ethernet0")]) ∧
  IrPacketIoToPi routing_info $"packet-in" (mkIrPacket $"frame" [($"ingress_port", kStr $"Ethernet0")]) plain_options =
    Ok (mkPiPacket $"frame" [(1, $"Ethernet0"); (2, [zero])]).
Proof.
  assert (PiPacketIoToIr (λ _, true) routing_info $"packet-in" padded_packet =
    Ok (mkIrPacket $"frame" [($"ingress_port", kStr $"Ethernet0")])) as Hir by (vm_compute; reflexivity).
  split; [exact Hir|].
  destruct (packet_io_roundtrip (λ _, true) routing_program routing_info $"packet-in" padded_packet plain_options
    (packet_in_metadata_by_id routing_info) (packet_in_metadata_by_name routing_info) routing_packet_widths routing_info_created
    eq_refl eq_refl padded_packet_short) as [_ Hback].
  destruct (Hback _ Hir) as [Hpi _].
  assert (canonical_packet (packet_in_metadata_by_id routing_info) (packet_in_metadata_by_name routing_info) padded_packet =
    mkPiPacket $"frame" [(1, $"Ethernet0"); (2, [zero])]) as Hcan by (vm_compute; reflexivity).
  rewrite Hcan in Hpi. exact Hpi.
Defined.

(** A status with the code UNAUTHENTICATED, which is a code of google.rpc, is not encoded. *)
Example unauthenticated_rejected :
  Rpc.IrWriteRpcStatusToGrpcStatus (λ _, []) (Rpc.kRpcWideError 16 []) = Err kInvalidArgument.
Proof. reflexivity. Qed.

(** A failed update without a message, which the documentation excludes, is encoded and decoded. *)
Example failure_without_message_encoded :
  is_Ok (Rpc.IrWriteRpcStatusToGrpcStatus (λ _, []) (Rpc.kRpcResponse [(5, [])])) = true.
Proof. reflexivity. Qed.
