(* ===== verification/IrTotal.v ===== *)
(** The translation of entities to the intermediate representation always returns: whatever the bytes of a
    message are, nothing in it aborts. *)
From S2P Require Import Prelude ByteString HexString Abseil NetAddr NetAddrText IrUtils EntityKeys IrData IrTranslation.

(** * Loops *)

(** The parts of a translation that may abort are the values. *)
Section no_abort.
Context {A B : Type}.

Lemma as_invalid_no_die (r : result A) : no_die r → no_die (as_invalid r).
Proof. by destruct r. Qed.
Lemma unless_invalid_no_die b (a : A) : no_die (unless_invalid b a).
Proof. by destruct b. Qed.
Lemma attempt_no_die (r : result A) (failed : B) ok : no_die r → no_die (attempt r failed ok).
Proof. by destruct r. Qed.
End no_abort.

Lemma fold_result_no_die_in {A S} (f : S → A → result S) l s :
  (∀ s a, a ∈ l → no_die (f s a)) → no_die (fold_result f l s).
Proof.
  revert s. induction l as [|a l IH]; intros s Hf; cbn [fold_result]; [no_die|].
  apply no_die_bind; [apply Hf; by left|]. intros s'. apply IH. intros s2 x Hx. apply Hf. by right.
Qed.

Lemma translate_all_no_die {A B} (f : A → result B) l : (∀ a, a ∈ l → no_die (f a)) → no_die (translate_all f l).
Proof.
  intros Hf. apply no_die_bind; [|intros [out r]; apply unless_invalid_no_die].
  apply fold_result_no_die_in. intros [out r] a Ha. by apply attempt_no_die, Hf.
Qed.

Lemma unique_loop_no_die {X K Y} `{Countable K} (key : X → K) (f : X → result (gset str * list Y)) l s :
  (∀ x, x ∈ l → no_die (f x)) → no_die (fold_result (unique_step key f) l s).
Proof.
  intros Hf. apply fold_result_no_die_in. intros [[[u n] o] r] a Ha. unfold unique_step.
  case_bool_decide; [no_die|]. by apply attempt_no_die, Hf.
Qed.

Section total.
Context `{AbslStringsLaws} `{!Ipv6.Inet} `{Gutil}.
Context (IsStructurallyValid : str → bool).

(** * Values *)

Lemma canonical_nonempty s : s ≠ [] → ArbitraryToCanonicalByteString s ≠ [].
Proof.
  intros Hs Hc. apply (f_equal length) in Hc. unfold ArbitraryToCanonicalByteString, erase_front in Hc.
  rewrite length_drop in Hc. cbn [length] in Hc. destruct s as [|c s]; [done|].
  pose proof (Z.mod_le (zlen (c :: s) - 1) (2 ^ 64)) as Hm. unfold wrapU, zlen in *. cbn [length] in *. lia.
Qed.

Lemma normalized_no_die s w : no_die (ArbitraryToNormalizedByteString s w).
Proof. unfold ArbitraryToNormalizedByteString. case_bool_decide; no_die. Qed.

Lemma normalized_nonempty s w t : ArbitraryToNormalizedByteString s w = Ok t → t ≠ [].
Proof.
  unfold ArbitraryToNormalizedByteString. case_bool_decide as Hs; [done|]. destruct (_ <? _); [done|].
  intros [= <-] [_ Hc]%app_nil. by apply canonical_nonempty in Hc.
Qed.

Lemma OfByteString_no_die n s : no_die (OfByteString n s).
Proof. unfold OfByteString, ByteStringToBitset. no_die. Qed.

Lemma ArbitraryByteStringToIrValue_no_die format w bytes :
  no_die (ArbitraryByteStringToIrValue IsStructurallyValid format w bytes).
Proof.
  unfold ArbitraryByteStringToIrValue. case_bool_decide; [no_die|].
  destruct format; try (apply no_die_bind; [apply OfByteString_no_die|intros a]); try solve [no_die].
  destruct (ArbitraryToNormalizedByteString bytes w) as [t|c|] eqn:Ht; [|done|by apply normalized_no_die in Ht].
  apply normalized_nonempty in Ht. cbn [mbind result_bind]. destruct (negb _); [|no_die].
  destruct t as [|c t]; [done|]. rewrite BytesToHexString_cons. no_die.
Qed.
Lemma Intersection_no_die s t : no_die (Intersection s t).
Proof. unfold Intersection. no_die. Qed.
Lemma PrefixLenToMask_no_die p w : no_die (PrefixLenToMask p w).
Proof. unfold PrefixLenToMask. no_die. Qed.
Lemma masked_value_no_die s mask : no_die (masked_value s mask).
Proof. unfold masked_value. apply no_die_bind; [apply as_invalid_no_die, Intersection_no_die|intros a; no_die]. Qed.
#[local] Hint Resolve ArbitraryByteStringToIrValue_no_die normalized_no_die Intersection_no_die PrefixLenToMask_no_die
  masked_value_no_die as_invalid_no_die unless_invalid_no_die attempt_no_die : no_die.

Lemma CheckParams_no_die names action : no_die (CheckParams names action).
Proof. unfold CheckParams. no_die. Qed.
Lemma CheckMandatoryMatches_no_die names table : no_die (CheckMandatoryMatches names table).
Proof. unfold CheckMandatoryMatches. no_die. Qed.
#[local] Hint Resolve CheckParams_no_die CheckMandatoryMatches_no_die : no_die.

(** * From PI to IR *)

Lemma PiMatchValueToIr_no_die definition m : no_die (PiMatchValueToIr IsStructurallyValid definition m).
Proof. unfold PiMatchValueToIr. no_die. Qed.
#[local] Hint Resolve PiMatchValueToIr_no_die : no_die.

Lemma PiTableMatchToIr_no_die options table m : no_die (PiTableMatchToIr IsStructurallyValid options table m).
Proof. unfold PiTableMatchToIr, PiMatchFieldToIr. no_die. Qed.

Lemma PiActionToIr_no_die info options a valid : no_die (PiActionToIr IsStructurallyValid info options a valid).
Proof.
  unfold PiActionToIr. destruct (_ !! _) as [action|]; [|no_die]. destruct (negb _); [no_die|].
  apply no_die_bind.
  - apply unique_loop_no_die. intros [i v] _. unfold PiParamToIr. no_die.
  - intros [[[u n] o] r]. no_die.
Qed.
#[local] Hint Resolve PiActionToIr_no_die : no_die.

Lemma PiActionSetToIr_no_die info options l valid : no_die (PiActionSetToIr IsStructurallyValid info options l valid).
Proof. apply translate_all_no_die. intros i _. unfold PiProfileActionToIr. no_die. Qed.
#[local] Hint Resolve PiActionSetToIr_no_die : no_die.

Lemma PiTableActionToIr_no_die info options table a : no_die (PiTableActionToIr IsStructurallyValid info options table a).
Proof. unfold PiTableActionToIr. destruct (entry_actions table), a; no_die. Qed.
#[local] Hint Resolve PiTableActionToIr_no_die : no_die.

Lemma PiTableEntryToIr_no_die info t options : no_die (PiTableEntryToIr IsStructurallyValid info t options).
Proof.
  unfold PiTableEntryToIr. destruct (_ !! _) as [table|]; [|no_die]. apply no_die_bind.
  - apply unique_loop_no_die. intros m _. apply PiTableMatchToIr_no_die.
  - intros [[[u n] o] r]. no_die.
Qed.

Lemma replica_loop_no_die {R S} (translate : R → result S) port instance backups l s :
  (∀ r, no_die (translate r)) → no_die (fold_result (replica_step translate port instance backups) l s).
Proof.
  intros Ht. apply fold_result_no_die. intros [[p o] r] a. unfold replica_step. by apply attempt_no_die.
Qed.

Lemma PiEntityToIr_no_die info e options : no_die (IrTranslation.PiEntityToIr IsStructurallyValid info e options).
Proof.
  destruct e as [t|[id l m|id l cos len|]|f]; cbn [IrTranslation.PiEntityToIr PiPacketReplicationEngineEntryToIr].
  - apply no_die_bind; [apply PiTableEntryToIr_no_die|no_die].
  - unfold PiMulticastGroupEntryToIr. destruct (key_only options); [done|]. apply no_die_bind; [|no_die].
    apply no_die_bind; [|no_die]. apply no_die_bind; [|intros [[p o] r]; no_die].
    apply replica_loop_no_die. intros r. unfold PiReplicaToIr. no_die.
  - unfold PiCloneSessionEntryToIr. destruct (key_only options); [done|]. apply no_die_bind; [|no_die].
    apply no_die_bind; [|no_die]. apply no_die_bind; [|no_die].
    apply translate_all_no_die. intros r _. unfold PiReplicaToIr. no_die.
  - no_die.
  - unfold GetOneOfFieldName. case_bool_decide; no_die.
Qed.
End total.
