(* ===== verification/Unsupported.v ===== *)
(** p4_infra/p4_pdpi: [RemoveUnsupportedEntities] of [ir.cc], and [TranslateIrP4InfoForOrchAgent] of
    p4rt_app/p4runtime/ir_translation.cc: what the server does to a program before it is used.  Tables,
    actions and match fields with the annotation [@unsupported] are removed, with the references from
    them. *)
From S2P Require Import Prelude Abseil NetAddr NetAddrText IrUtils EntityKeys IrData Annotations BuiltIns IrProgram IrTranslation IrRoundtrip IrTotal IrProgramCorrect IrCorrect.
From S2P Require TableReferences.

(** * Changes of programs *)

Definition with_tables (by_id : gmap Z IrTableDefinition) (by_name : gmap str IrTableDefinition) (info : IrP4Info)
  : IrP4Info :=
  mkIrP4Info by_id by_name (actions_by_id info) (actions_by_name info) (action_profiles_by_id info)
    (action_profiles_by_name info) (packet_in_metadata_by_id info) (packet_in_metadata_by_name info)
    (packet_out_metadata_by_id info) (packet_out_metadata_by_name info) (references info) (built_in_tables info)
    (dependency_rank_by_table_name info).
Definition with_actions (by_id : gmap Z IrActionDefinition) (by_name : gmap str IrActionDefinition)
  (info : IrP4Info) : IrP4Info :=
  mkIrP4Info (tables_by_id info) (tables_by_name info) by_id by_name (action_profiles_by_id info)
    (action_profiles_by_name info) (packet_in_metadata_by_id info) (packet_in_metadata_by_name info)
    (packet_out_metadata_by_id info) (packet_out_metadata_by_name info) (references info) (built_in_tables info)
    (dependency_rank_by_table_name info).
Definition with_built_in (built_in : gmap str IrBuiltInTableDefinition) (ranks : gmap str Z) (info : IrP4Info)
  : IrP4Info :=
  mkIrP4Info (tables_by_id info) (tables_by_name info) (actions_by_id info) (actions_by_name info)
    (action_profiles_by_id info) (action_profiles_by_name info) (packet_in_metadata_by_id info)
    (packet_in_metadata_by_name info) (packet_out_metadata_by_id info) (packet_out_metadata_by_name info)
    (references info) built_in ranks.

(** The same change of every table. *)
Definition map_tables (f : IrTableDefinition → IrTableDefinition) (info : IrP4Info) : IrP4Info :=
  with_tables (f <$> tables_by_id info) (f <$> tables_by_name info) info.

Definition with_table_actions (entry default_only : list IrActionReference) (t : IrTableDefinition) : IrTableDefinition :=
  mkIrTableDefinition (preamble t) (match_fields_by_id t) (match_fields_by_name t) entry default_only (table_size t)
    (uses_oneshot t) (action_profile_id t) (requires_priority t) (meter t) (counter t) (const_default_action t)
    (role t) (is_unsupported t) (incoming_references t) (outgoing_references t).
Definition with_fields (by_id : gmap Z IrMatchFieldDefinition) (by_name : gmap str IrMatchFieldDefinition)
  (t : IrTableDefinition) : IrTableDefinition :=
  mkIrTableDefinition (preamble t) by_id by_name (entry_actions t) (default_only_actions t) (table_size t)
    (uses_oneshot t) (action_profile_id t) (requires_priority t) (meter t) (counter t) (const_default_action t)
    (role t) (is_unsupported t) (incoming_references t) (outgoing_references t).
Definition with_references (incoming outgoing : list TableReferences.IrTableReference) (t : IrTableDefinition)
  : IrTableDefinition :=
  mkIrTableDefinition (preamble t) (match_fields_by_id t) (match_fields_by_name t) (entry_actions t)
    (default_only_actions t) (table_size t) (uses_oneshot t) (action_profile_id t) (requires_priority t) (meter t)
    (counter t) (const_default_action t) (role t) (is_unsupported t) incoming outgoing.

(** * RemoveUnsupportedEntities *)

(** [RemoveUnsupportedValues] of a map and of a repeated field. *)
Definition RemoveUnsupportedValues `{Countable K} {D} (unsupported : D → bool) (m : gmap K D) : gmap K D :=
  filter (λ kd, unsupported (snd kd) = false) m.
Definition RemoveUnsupportedReferences (l : list IrActionReference) : list IrActionReference :=
  List.filter (λ r, negb (action_is_unsupported (ref_action r))) l.

Definition RemoveUnsupportedTables (info : IrP4Info) : IrP4Info :=
  with_tables (RemoveUnsupportedValues is_unsupported (tables_by_id info))
    (RemoveUnsupportedValues is_unsupported (tables_by_name info)) info.

Definition remove_table_actions (t : IrTableDefinition) : IrTableDefinition :=
  with_table_actions (RemoveUnsupportedReferences (entry_actions t))
    (RemoveUnsupportedReferences (default_only_actions t)) t.
Definition RemoveUnsupportedActions (info : IrP4Info) : IrP4Info :=
  map_tables remove_table_actions
    (with_actions (RemoveUnsupportedValues action_is_unsupported (actions_by_id info))
       (RemoveUnsupportedValues action_is_unsupported (actions_by_name info)) info).

Definition remove_table_fields (t : IrTableDefinition) : IrTableDefinition :=
  with_fields (RemoveUnsupportedValues match_is_unsupported (match_fields_by_id t))
    (RemoveUnsupportedValues match_is_unsupported (match_fields_by_name t)) t.
Definition RemoveUnsupportedMatchFields (info : IrP4Info) : IrP4Info := map_tables remove_table_fields info.

(** Built-in tables and actions are always there. *)
Definition IsTablePresent (table : TableReferences.IrTable) (info : IrP4Info) : bool :=
  match table with
  | TableReferences.P4Table _ table_id => bool_decide (is_Some (tables_by_id info !! table_id))
  | _ => true
  end.
Definition IsActionPresent (field : TableReferences.IrActionField) (info : IrP4Info) : bool :=
  match field with
  | TableReferences.P4ActionField f => bool_decide (is_Some (actions_by_id info !! TableReferences.p4_action_id f))
  | _ => true
  end.

Definition IsDanglingReference (reference : TableReferences.IrTableReference) (info : IrP4Info) : bool :=
  negb (IsTablePresent (TableReferences.source_table reference) info) ||
  existsb (λ field_reference,
    match TableReferences.source field_reference with
    | TableReferences.ActionField f => negb (IsActionPresent f info)
    | _ => false
    end) (TableReferences.field_references reference).

Definition remove_dangling (info : IrP4Info) (references : list TableReferences.IrTableReference)
  : list TableReferences.IrTableReference :=
  List.filter (λ reference, negb (IsDanglingReference reference info)) references.

(** The tables and actions of the program do not change while its references are removed. *)
Definition RemoveDanglingReferences (info : IrP4Info) : IrP4Info :=
  with_built_in
    ((λ t, mkIrBuiltInTableDefinition (built_in_table t) (remove_dangling info (built_in_incoming t))
             (remove_dangling info (built_in_outgoing t))) <$> built_in_tables info)
    (filter (λ nr, IsBuiltInTable (fst nr) = true ∨ is_Some (tables_by_name info !! fst nr))
       (dependency_rank_by_table_name info))
    (map_tables (λ t, with_references (remove_dangling info (incoming_references t))
                        (remove_dangling info (outgoing_references t)) t) info).

Definition RemoveUnsupportedEntities (info : IrP4Info) : IrP4Info :=
  RemoveDanglingReferences (RemoveUnsupportedMatchFields (RemoveUnsupportedActions (RemoveUnsupportedTables info))).

(** * ir_translation.cc: TranslateIrP4InfoForOrchAgent *)

Definition SetCompositeUdfFieldFormatToHexString (match_def : IrMatchFieldDefinition) : IrMatchFieldDefinition :=
  if bool_decide (match_format match_def = HEX_STRING) then match_def else
  match GetAnnotationAsArgList $"composite_field" (element_annotations (match_element (match_field match_def))) with
  | Ok parse_result =>
    if bool_decide (parse_result = []) then match_def
    else if existsb (λ annotation, negb (bool_decide (label annotation = $"sai_udf"))) (GetAllAnnotations parse_result)
    then match_def
    else mkIrMatchFieldDefinition (match_field match_def) HEX_STRING (match_references match_def)
           (match_is_unsupported match_def)
  | _ => match_def
  end.

Definition TranslateIrTableDefForOrchAgent (table_def : IrTableDefinition) : IrTableDefinition :=
  with_fields (SetCompositeUdfFieldFormatToHexString <$> match_fields_by_id table_def)
    (SetCompositeUdfFieldFormatToHexString <$> match_fields_by_name table_def) table_def.

Definition TranslateIrP4InfoForOrchAgent (info : IrP4Info) : IrP4Info :=
  map_tables TranslateIrTableDefForOrchAgent info.

(** * What is left *)

Lemma RemoveUnsupportedValues_lookup `{Countable K} {D} (unsupported : D → bool) (m : gmap K D) k d :
  RemoveUnsupportedValues unsupported m !! k = Some d ↔ m !! k = Some d ∧ unsupported d = false.
Proof. unfold RemoveUnsupportedValues. by rewrite map_lookup_filter_Some. Qed.

Lemma elem_of_RemoveUnsupportedReferences l r :
  r ∈ RemoveUnsupportedReferences l ↔ r ∈ l ∧ action_is_unsupported (ref_action r) = false.
Proof.
  unfold RemoveUnsupportedReferences. rewrite !list_elem_of_In, filter_In, negb_true_iff. done.
Qed.

(** The program before the references are looked at, and a table of the result. *)
Definition without_unsupported (info : IrP4Info) : IrP4Info :=
  RemoveUnsupportedMatchFields (RemoveUnsupportedActions (RemoveUnsupportedTables info)).
Definition trim_table (info : IrP4Info) (t : IrTableDefinition) : IrTableDefinition :=
  let t := remove_table_fields (remove_table_actions t) in
  with_references (remove_dangling (without_unsupported info) (incoming_references t))
    (remove_dangling (without_unsupported info) (outgoing_references t)) t.

Lemma removed_tables info :
  tables_by_id (RemoveUnsupportedEntities info) =
    trim_table info <$> RemoveUnsupportedValues is_unsupported (tables_by_id info) ∧
  tables_by_name (RemoveUnsupportedEntities info) =
    trim_table info <$> RemoveUnsupportedValues is_unsupported (tables_by_name info).
Proof. split; cbn; by rewrite <-!map_fmap_compose. Qed.

Lemma removed_table info i t' :
  tables_by_id (RemoveUnsupportedEntities info) !! i = Some t' ↔
  ∃ t, tables_by_id info !! i = Some t ∧ is_unsupported t = false ∧ t' = trim_table info t.
Proof.
  rewrite (proj1 (removed_tables info)), lookup_fmap, fmap_Some.
  setoid_rewrite RemoveUnsupportedValues_lookup. naive_solver.
Qed.

Lemma removed_actions info :
  actions_by_id (RemoveUnsupportedEntities info) = RemoveUnsupportedValues action_is_unsupported (actions_by_id info) ∧
  actions_by_name (RemoveUnsupportedEntities info) = RemoveUnsupportedValues action_is_unsupported (actions_by_name info).
Proof. done. Qed.

(** Definitions stay under their ids and names. *)
Lemma indexed_removed {D} id_of name_of (by_id : gmap Z D) by_name (unsupported : D → bool) (f : D → D) :
  indexed id_of name_of by_id by_name → (∀ d, id_of (f d) = id_of d) → (∀ d, name_of (f d) = name_of d) →
  indexed id_of name_of (f <$> RemoveUnsupportedValues unsupported by_id)
    (f <$> RemoveUnsupportedValues unsupported by_name).
Proof.
  intros [Hi Hn] Hid Hname. split.
  - intros i d (d0 & <- & (Hd & Hs)%RemoveUnsupportedValues_lookup)%lookup_fmap_Some.
    destruct (Hi i d0 Hd) as [Hi0 Hn0]. rewrite Hid, Hname. split; [done|].
    apply lookup_fmap_Some. exists d0. split; [done|]. by apply RemoveUnsupportedValues_lookup.
  - intros n d (d0 & <- & (Hd & Hs)%RemoveUnsupportedValues_lookup)%lookup_fmap_Some.
    destruct (Hn n d0 Hd) as [Hn0 Hi0]. rewrite Hid, Hname. split; [done|].
    apply lookup_fmap_Some. exists d0. split; [done|]. by apply RemoveUnsupportedValues_lookup.
Qed.

Lemma indexed_filtered {D} id_of name_of (by_id : gmap Z D) by_name (unsupported : D → bool) :
  indexed id_of name_of by_id by_name →
  indexed id_of name_of (RemoveUnsupportedValues unsupported by_id) (RemoveUnsupportedValues unsupported by_name).
Proof. intros Hx. rewrite <-(map_fmap_id (RemoveUnsupportedValues _ by_id)), <-(map_fmap_id (RemoveUnsupportedValues _ by_name)). by apply indexed_removed. Qed.

Lemma removed_well_formed info : well_formed info → well_formed (RemoveUnsupportedEntities info).
Proof.
  intros [Htx Htok Hax Haok]. destruct (removed_tables info) as [Hti Htn]. split.
  - rewrite Hti, Htn. by apply indexed_removed.
  - intros i t' (t & Ht & _ & ->)%removed_table. destruct (Htok i t Ht) as [Hfx Hfok Hr]. split; cbn.
    + by apply indexed_filtered.
    + intros j d [Hd _]%RemoveUnsupportedValues_lookup. by eapply Hfok.
    + intros r [Hin Hs]%elem_of_RemoveUnsupportedReferences. apply RemoveUnsupportedValues_lookup. auto.
  - by apply indexed_filtered.
  - intros i a [Ha _]%RemoveUnsupportedValues_lookup. by eapply Haok.
Qed.

(** * The same entities are translated *)

(** Two outcomes that a loop treats alike. *)
Definition alike {A} (r r' : result A) : Prop := r = r' ∨ ∃ c c', r = Err c ∧ r' = Err c'.

Lemma attempt_alike {A S} (r r' : result A) (failed : S) ok : alike r r' → attempt r failed ok = attempt r' failed ok.
Proof. by intros [->|(c & c' & -> & ->)]. Qed.

Lemma not_Ok_alike {A} (r : result A) c : no_die r → (∀ a, r ≠ Ok a) → alike r (Err c).
Proof. destruct r as [a|c'|]; [|right; by exists c', c|done]. intros _ Hr. by destruct (Hr a). Qed.

Lemma unique_loop_alike {X K Y} `{Countable K} (key : X → K) (f g : X → result (gset str * list Y)) l s :
  (∀ x, alike (f x) (g x)) → fold_result (unique_step key f) l s = fold_result (unique_step key g) l s.
Proof.
  intros Hfg. revert s. induction l as [|x l IH]; intros s; [done|]. cbn [fold_result].
  assert (unique_step key f s x = unique_step key g s x) as ->.
  { unfold unique_step. destruct s as [[[used names] out] reasons]. case_bool_decide; [done|]. by apply attempt_alike. }
  destruct (unique_step key g s x) as [s'| |]; [apply IH|done..].
Qed.

(** The loop's errors are reasons in its state. *)
Lemma unique_loop_not_Err {X K Y} `{Countable K} (key : X → K) (f : X → result (gset str * list Y)) l s c :
  fold_result (unique_step key f) l s ≠ Err c.
Proof.
  revert s. induction l as [|x l IH]; intros s; [done|]. cbn [fold_result].
  destruct (unique_step key f s x) as [s'|c'|] eqn:Hs; [apply IH| |done]. exfalso. revert Hs.
  unfold unique_step. destruct s as [[[used names] out] reasons]. case_bool_decide; [done|]. by destruct (f x) as [[]| |].
Qed.

Lemma translate_all_alike {A B} (f g : A → result B) l : (∀ x, alike (f x) (g x)) → translate_all f l = translate_all g l.
Proof.
  intros Hfg. unfold translate_all. f_equal.
  assert (∀ s, fold_result (translate_step f) l s = fold_result (translate_step g) l s) as Hl; [|apply Hl].
  induction l as [|x l IH]; intros s; [done|]. cbn [fold_result].
  assert (translate_step f s x = translate_step g s x) as ->.
  { unfold translate_step. destruct s as [out r]. by apply attempt_alike. }
  destruct (translate_step g s x) as [s'| |]; [apply IH|done..].
Qed.

(** The annotation says what may be left out: unsupported match fields are optional, and every table with
    actions has a supported one. *)
Record unsupported_optional (info : IrP4Info) : Prop := {
  fields_optional i t j d :
    tables_by_id info !! i = Some t → match_fields_by_id t !! j = Some d → match_is_unsupported d = true →
    match_type (match_field d) ≠ EXACT;
  action_left i t :
    tables_by_id info !! i = Some t → entry_actions t ≠ [] →
    ∃ r, r ∈ entry_actions t ∧ action_is_unsupported (ref_action r) = false;
}.

Section same_translation.
Context `{AbslStringsLaws} `{!Ipv6.Inet} `{Gutil}.
Context (IsStructurallyValid : str → bool) (info : IrP4Info) (options : TranslationOptions).
Context (Hwf : well_formed info) (Hopt : unsupported_optional info) (Hoptions : allow_unsupported options = false).
Abbreviation removed := (RemoveUnsupportedEntities info).

Lemma match_alike t m :
  alike (PiTableMatchToIr IsStructurallyValid options t m) (PiTableMatchToIr IsStructurallyValid options (trim_table info t) m).
Proof.
  unfold PiTableMatchToIr. cbn [trim_table with_references remove_table_fields with_fields match_fields_by_id].
  change (match_fields_by_id (remove_table_actions t)) with (match_fields_by_id t).
  destruct (match_fields_by_id t !! field_id m) as [d|] eqn:Hd.
  2: { destruct (RemoveUnsupportedValues _ _ !! _) as [d|] eqn:Hr; [|by left].
       apply RemoveUnsupportedValues_lookup in Hr as [Hr _]. congruence. }
  destruct (match_is_unsupported d) eqn:Hu.
  - assert (RemoveUnsupportedValues match_is_unsupported (match_fields_by_id t) !! field_id m = None) as ->.
    { apply eq_None_not_Some. intros [d' [Hd' Hs]%RemoveUnsupportedValues_lookup]. congruence. }
    apply not_Ok_alike.
    + unfold PiMatchFieldToIr. apply no_die_bind; [apply no_die_bind; [apply PiMatchValueToIr_no_die|]|no_die].
      intros v. apply unless_invalid_no_die.
    + intros a (x & (v & _ & Hv)%bind_Ok_iff & _)%bind_Ok_iff. by rewrite Hu, Hoptions in Hv.
  - assert (RemoveUnsupportedValues match_is_unsupported (match_fields_by_id t) !! field_id m = Some d) as ->;
      [by apply RemoveUnsupportedValues_lookup|]. by left.
Qed.

Lemma action_alike a valid :
  (∀ r, r ∈ valid → actions_by_id info !! p4_id (action_preamble (ref_action r)) = Some (ref_action r)) →
  alike (PiActionToIr IsStructurallyValid info options a valid)
    (PiActionToIr IsStructurallyValid removed options a (RemoveUnsupportedReferences valid)).
Proof.
  intros Hvalid. unfold PiActionToIr. rewrite (proj1 (removed_actions info)).
  destruct (actions_by_id info !! action_id a) as [action|] eqn:Ha.
  2: { destruct (RemoveUnsupportedValues _ _ !! _) as [x|] eqn:Hr; [|by left].
       apply RemoveUnsupportedValues_lookup in Hr as [Hr _]. congruence. }
  destruct (action_is_unsupported action) eqn:Hu.
  - assert (RemoveUnsupportedValues action_is_unsupported (actions_by_id info) !! action_id a = None) as ->.
    { apply eq_None_not_Some. intros [x [Hx Hs]%RemoveUnsupportedValues_lookup]. congruence. }
    apply not_Ok_alike.
    + pose proof (PiActionToIr_no_die IsStructurallyValid info options a valid) as Hd.
      unfold PiActionToIr in Hd. by rewrite Ha, Hu in Hd.
    + intros x. destruct (negb (existsb _ _)); [done|]. rewrite Hoptions. cbn [negb andb].
      intros ([[[u n] o] r] & Hl & (r' & Hr & [-> _]%unless_invalid_Ok)%bind_Ok_iff)%bind_Ok_iff.
      pose proof Hr as [_ ->]%attempt_reasons. by apply unique_loop_Ok in Hl as [? _].
  - assert (RemoveUnsupportedValues action_is_unsupported (actions_by_id info) !! action_id a = Some action) as ->;
      [by apply RemoveUnsupportedValues_lookup|].
    assert (existsb (λ r, p4_id (action_preamble (ref_action r)) =? action_id a) (RemoveUnsupportedReferences valid) =
            existsb (λ r, p4_id (action_preamble (ref_action r)) =? action_id a) valid) as ->; [|left; by rewrite Hu].
    apply eq_bool_prop_intro. rewrite !Is_true_true, !existsb_exists. split.
    + intros (r & [Hr _]%list_elem_of_In%elem_of_RemoveUnsupportedReferences & Hi). exists r. by rewrite <-list_elem_of_In.
    + intros (r & Hr%list_elem_of_In & Hi). exists r. split; [|done]. apply list_elem_of_In.
      apply elem_of_RemoveUnsupportedReferences. split; [done|]. specialize (Hvalid r Hr).
      apply Z.eqb_eq in Hi. rewrite Hi, Ha in Hvalid. by injection Hvalid as <-.
Qed.
Lemma entry_actions_left i t :
  tables_by_id info !! i = Some t → entry_actions t = [] ↔ RemoveUnsupportedReferences (entry_actions t) = [].
Proof.
  intros Ht. split; [by intros ->|]. intros Hnil. destruct (decide (entry_actions t = [])) as [|Hne]; [done|].
  destruct (action_left _ Hopt i t Ht Hne) as (r & Hr & Hs).
  assert (r ∈ RemoveUnsupportedReferences (entry_actions t)) as Hin by (by apply elem_of_RemoveUnsupportedReferences).
  by rewrite Hnil in Hin; apply elem_of_nil in Hin.
Qed.

Lemma table_action_alike i t a :
  tables_by_id info !! i = Some t →
  alike (PiTableActionToIr IsStructurallyValid info options t a)
    (PiTableActionToIr IsStructurallyValid removed options (trim_table info t) a).
Proof.
  intros Ht. pose proof (entry_actions_left i t Ht) as Hleft. pose proof (actions_known _ _ (tables_ok _ Hwf i t Ht)) as Hknown.
  unfold PiTableActionToIr. cbn [trim_table with_references remove_table_fields with_fields remove_table_actions
    with_table_actions entry_actions uses_oneshot].
  assert (∀ a, alike (PiActionToIr IsStructurallyValid info options a (entry_actions t))
    (PiActionToIr IsStructurallyValid removed options a (RemoveUnsupportedReferences (entry_actions t)))) as Ha
    by (intros x; by apply action_alike).
  assert (∀ l, PiActionSetToIr IsStructurallyValid info options l (entry_actions t) =
    PiActionSetToIr IsStructurallyValid removed options l (RemoveUnsupportedReferences (entry_actions t))) as Hset.
  { intros l. apply translate_all_alike. intros x. unfold PiProfileActionToIr.
    destruct (Ha (set_action x)) as [->|(c & c' & -> & ->)]; [by left|]. right. by exists c, c'. }
  destruct (entry_actions t) as [|r0 l0] eqn:He; [rewrite (proj1 Hleft eq_refl); by left|].
  destruct (RemoveUnsupportedReferences (r0 :: l0)) as [|r1 l1] eqn:Hr; [by discriminate (proj2 Hleft eq_refl)|].
  destruct a as [|a| | |l|]; try by left.
  - destruct (uses_oneshot t); [by left|]. destruct (Ha a) as [->|(c & c' & -> & ->)]; [by left|]. right. by exists c, c'.
  - destruct (negb _); [by left|]. rewrite Hset. by left.
Qed.

Lemma mandatory_left i t :
  tables_by_id info !! i = Some t → GetMandatoryMatches (trim_table info t) = GetMandatoryMatches t.
Proof.
  intros Ht. unfold GetMandatoryMatches. cbn [trim_table with_references remove_table_fields with_fields match_fields_by_name].
  change (match_fields_by_name (remove_table_actions t)) with (match_fields_by_name t).
  apply set_eq. intros n. rewrite !elem_of_list_to_set, !list_elem_of_omap. split.
  - intros ([k d] & [Hd _]%elem_of_map_to_list%RemoveUnsupportedValues_lookup & Hn). exists (k, d).
    split; [by apply elem_of_map_to_list|done].
  - intros ([k d] & Hd%elem_of_map_to_list & Hn). exists (k, d). split; [|done].
    apply elem_of_map_to_list, RemoveUnsupportedValues_lookup. split; [done|].
    destruct (match_is_unsupported d) eqn:Hu; [|done].
    destruct (found_by_name _ _ _ _ (fields_indexed _ _ (tables_ok _ Hwf i t Ht)) k d Hd) as [_ Hi].
    pose proof (fields_optional _ Hopt i t _ d Ht Hi Hu) as Hne. case_bool_decide; done.
Qed.

Lemma table_entry_removed t :
  PiTableEntryToIr IsStructurallyValid removed t options = PiTableEntryToIr IsStructurallyValid info t options.
Proof.
  destruct (tables_by_id info !! table_id t) as [table|] eqn:Ht.
  2: { unfold PiTableEntryToIr. rewrite Ht. destruct (tables_by_id removed !! table_id t) as [t'|] eqn:Ht'; [|done].
       apply removed_table in Ht' as (t0 & Ht0 & _). congruence. }
  destruct (is_unsupported table) eqn:Hu.
  - assert (tables_by_id removed !! table_id t = None) as Hnone.
    { apply eq_None_not_Some. intros [t' (t0 & Ht0 & Hs & _)%removed_table]. congruence. }
    assert (PiTableEntryToIr IsStructurallyValid removed t options = Err kInvalidArgument) as ->
      by (unfold PiTableEntryToIr; by rewrite Hnone).
    pose proof (PiTableEntryToIr_no_die IsStructurallyValid info t options) as Hd.
    unfold PiTableEntryToIr in *. rewrite Ht, Hu, Hoptions in *. cbn [negb andb] in *.
    destruct (fold_result _ _ _) as [[[[u n] o] r]|c|] eqn:Hl; [|by eapply unique_loop_not_Err in Hl|done].
    assert (r = true) as -> by (destruct r; [done|by apply unique_loop_Ok in Hl as [? _]]).
    cbn [mbind result_bind] in *. by destruct (CheckMandatoryMatches n table), (key_only options),
      (PiTableActionToIr IsStructurallyValid info options table (action t)).
  - assert (tables_by_id removed !! table_id t = Some (trim_table info table)) as Ht'
      by (apply removed_table; by exists table).
    unfold PiTableEntryToIr. rewrite Ht, Ht'.
    cbn [trim_table with_references remove_table_fields with_fields remove_table_actions with_table_actions is_unsupported].
    rewrite (unique_loop_alike field_id (PiTableMatchToIr IsStructurallyValid options (trim_table info table))
      (PiTableMatchToIr IsStructurallyValid options table)) by (intros m; destruct (match_alike table m) as [->|(c & c' & -> & ->)]; [by left|right; by exists c', c]).
    destruct (fold_result _ _ _) as [[[[u n] o] r]|c|]; cbn [mbind result_bind]; [|done..].
    unfold CheckMandatoryMatches. rewrite (mandatory_left _ _ Ht).
    destruct (attempt _ _ _) as [r'|c|]; cbn [mbind result_bind]; [|done..].
    destruct (key_only options); [done|].
    by rewrite (attempt_alike _ _ _ _ (table_action_alike _ _ (action t) Ht)).
Qed.

(** C19.  Removing what the server does not support does not change what it accepts.  When the unsupported match
    fields are optional and every table with actions has a supported one, an entity is translated under
    the program without unsupported tables, actions and fields exactly as under the whole program,
    with the same error if it is rejected: no entry can use what was removed. *)
Theorem unsupported_removed_transparent (e : Entity) :
  PiEntityToIr IsStructurallyValid removed e options = PiEntityToIr IsStructurallyValid info e options ∧
  well_formed removed.
Proof. split; [|by apply removed_well_formed]. destruct e; [|done..]. cbn. by rewrite table_entry_removed. Qed.
End same_translation.

(** * Programs for orch agent *)

(** A UDF field is a field of bytes: it has a width. *)
Definition udf_fields_wide (info : IrP4Info) : Prop :=
  ∀ i t j d, tables_by_id info !! i = Some t → match_fields_by_id t !! j = Some d →
    match_format (SetCompositeUdfFieldFormatToHexString d) ≠ match_format d → 0 < bitwidth (match_element (match_field d)).

Lemma SetCompositeUdf_cases d :
  SetCompositeUdfFieldFormatToHexString d = d ∨
  SetCompositeUdfFieldFormatToHexString d =
    mkIrMatchFieldDefinition (match_field d) HEX_STRING (match_references d) (match_is_unsupported d).
Proof.
  unfold SetCompositeUdfFieldFormatToHexString. case_bool_decide; [by left|].
  destruct (GetAnnotationAsArgList _ _) as [l| |]; [|by left..]. case_bool_decide; [by left|].
  destruct (existsb _ _); [by left|by right].
Qed.

Lemma SetCompositeUdf_field d : match_field (SetCompositeUdfFieldFormatToHexString d) = match_field d.
Proof. by destruct (SetCompositeUdf_cases d) as [->| ->]. Qed.

(** The translated program is as well formed as the program. *)
Lemma translated_well_formed info : well_formed info → udf_fields_wide info → well_formed (TranslateIrP4InfoForOrchAgent info).
Proof.
  intros [Htx Htok Hax Haok] Hudf. split; [..|done|done].
  - destruct Htx as [Hi Hn]. split.
    + intros i t (t0 & <- & Ht)%lookup_fmap_Some. destruct (Hi i t0 Ht) as [Hid Hname]. split; [done|].
      apply lookup_fmap_Some. by exists t0.
    + intros n t (t0 & <- & Ht)%lookup_fmap_Some. destruct (Hn n t0 Ht) as [Hname Hid]. split; [done|].
      apply lookup_fmap_Some. by exists t0.
  - intros i t (t0 & <- & Ht)%lookup_fmap_Some. destruct (Htok i t0 Ht) as [[Hfi Hfn] Hfok Hr]. split; [|..|done].
    + split.
      * intros j d (d0 & <- & Hd)%lookup_fmap_Some. rewrite !SetCompositeUdf_field.
        destruct (Hfi j d0 Hd) as [Hid Hname]. split; [done|]. apply lookup_fmap_Some. by exists d0.
      * intros n d (d0 & <- & Hd)%lookup_fmap_Some. rewrite !SetCompositeUdf_field.
        destruct (Hfn n d0 Hd) as [Hname Hid]. split; [done|]. apply lookup_fmap_Some. by exists d0.
    + intros j d (d0 & <- & Hd)%lookup_fmap_Some. pose proof (Hfok j d0 Hd) as Hf.
      pose proof (Hudf i t0 j d0 Ht Hd) as Hw.
      destruct (SetCompositeUdf_cases d0) as [->|Heq]; [done|]. rewrite Heq in Hw |- *. cbn in Hw.
      destruct (decide (match_format d0 = HEX_STRING)) as [Hx|Hne];
        [rewrite <-Hx; by destruct d0|]. specialize (Hw ltac:(by apply not_eq_sym)). destruct Hf as [[Hr0 _] _].
      split; cbn; [|done]. split; [done|]. cbn. lia.
Qed.

(** * Example *)

Definition unsupported_at (id : Z) (name : str) : Preamble := mkPreamble id name name [$"@unsupported"].

(** The ACL table of the program has an optional field and an action that are not supported, and another
    table is not supported at all. *)
Definition partial_program : P4.P4Info :=
  P4.mkP4Info
    [routing_table 1 $"acl_table"
       [mkMatchField (mkElement 1 $"ether_type" [] 16 None) TERNARY;
        mkMatchField (mkElement 2 $"dscp" [$"@unsupported"] 6 None) TERNARY] [1; 2];
     P4.mkTable (unsupported_at 2 $"tunnel_table") [mkMatchField (mkElement 1 $"vni" [] 24 None) EXACT]
       [entry_action_ref 1] 0 0 16]
    [routing_action 1 $"drop" []; P4.mkAction (unsupported_at 2 $"mirror") []] [] [] [] [] ∅.

Definition partial_info : IrP4Info := ok_or (CreateIrP4Info partial_program) (one_table default_table [] []).

Lemma partial_info_created : CreateIrP4Info partial_program = Ok partial_info.
Proof. apply ok_or_eq. vm_compute. reflexivity. Qed.

Lemma partial_well_formed : well_formed partial_info.
Proof.
  destruct (create_spec partial_program partial_info (widths_check_sound partial_program eq_refl) partial_info_created)
    as (b & bi & refs & Hc). exact (created_shape _ _ _ _ Hc).
Qed.

Example partial_tables :
  (omap (λ i, preamble_alias <$> tables_by_id (RemoveUnsupportedEntities partial_info) !! i) [1; 2],
   (λ t, (map fst (map_to_list (match_fields_by_id t)), length (entry_actions t))) <$>
     tables_by_id (RemoveUnsupportedEntities partial_info) !! 1) =
  ([$"acl_table"], Some ([1], 1%nat)).
Proof. vm_compute. reflexivity. Qed.

Definition optional_check (info : IrP4Info) : bool :=
  forallb (λ '(_, t),
    forallb (λ '(_, d), negb (match_is_unsupported d) || negb (bool_decide (match_type (match_field d) = EXACT)))
      (map_to_list (match_fields_by_id t)) &&
    (bool_decide (length (entry_actions t) = 0%nat) ||
     existsb (λ r, negb (action_is_unsupported (ref_action r))) (entry_actions t)))
  (map_to_list (tables_by_id info)).
Lemma optional_check_sound info : optional_check info = true → unsupported_optional info.
Proof.
  unfold optional_check. rewrite forallb_forall. intros Hall. split.
  - intros i t j d Ht Hd Hu Hex. specialize (Hall (i, t)). cbn in Hall.
    destruct (proj1 (andb_true_iff _ _) (Hall ltac:(by apply list_elem_of_In, elem_of_map_to_list))) as [Hf _].
    rewrite forallb_forall in Hf. specialize (Hf (j, d) ltac:(by apply list_elem_of_In, elem_of_map_to_list)).
    cbn in Hf. rewrite Hu, bool_decide_eq_true_2 in Hf by done. done.
  - intros i t Ht Hne. specialize (Hall (i, t)). cbn in Hall.
    destruct (proj1 (andb_true_iff _ _) (Hall ltac:(by apply list_elem_of_In, elem_of_map_to_list))) as [_ Ha].
    apply orb_true_iff in Ha as [Ha|Ha].
    + apply bool_decide_eq_true_1 in Ha. by destruct (entry_actions t).
    + apply existsb_exists in Ha as (r & Hr%list_elem_of_In & Hs%negb_true_iff). by exists r.
Qed.

(** A drop entry of the ACL table, and an entry that matches on the unsupported field. *)
Definition example_acl_entry (field : Z) : Entity :=
  kTableEntry (plain_entry 1 10
    [mkFieldMatch field (kTernary ["008"; "000"]%char ["255"; "255"]%char)] (kAction (mkAction 1 []))).

Lemma unsupported_removed_transparent_witness :
  (well_formed partial_info ∧ unsupported_optional partial_info ∧ allow_unsupported plain_options = false) ∧
  is_Ok (PiEntityToIr (λ _, true) (RemoveUnsupportedEntities partial_info) (example_acl_entry 1) plain_options) = true ∧
  PiEntityToIr (λ _, true) (RemoveUnsupportedEntities partial_info) (example_acl_entry 2) plain_options =
  PiEntityToIr (λ _, true) partial_info (example_acl_entry 2) plain_options.
Proof.
  assert (unsupported_optional partial_info) as Hopt by (apply optional_check_sound; vm_compute; reflexivity).
  split; [split; [exact partial_well_formed|split; [exact Hopt|reflexivity]]|]. split; [vm_compute; reflexivity|].
  exact (proj1 (unsupported_removed_transparent (λ _, true) partial_info plain_options partial_well_formed Hopt eq_refl (example_acl_entry 2))).
Defined.
