(* ===== verification/Schema.v ===== *)
(** p4rt_app/p4runtime: [p4info_verification_schema.cc].  The tables, match fields and actions that the
    switch supports are a schema; a program is accepted when its fixed tables are covered by it. *)
From S2P Require Import Prelude IrUtils IrData IrTranslation IrRoundtrip TableTypes Unsupported.

(** * p4info_verification_schema.proto *)

Module Schema.
Inductive MatchType := UNKNOWN | EXACT | LPM | TERNARY.
#[global] Instance MatchType_eq_dec : EqDecision MatchType.
Proof. solve_decision. Defined.

Record ParameterSchema := mkParameter {
  parameter_name : str;
  parameter_format : Format;
  parameter_bitwidth : Z;
  parameter_is_port : bool;
}.
Record ActionSchema := mkAction { action_name : str; parameters : list ParameterSchema }.
Record MatchSchema := mkMatch {
  match_name : str;
  match_format : Format;
  match_bitwidth : Z;
  match_is_port : bool;
  type : MatchType;
}.
Record FixedTableSchema := mkTable {
  table_name : str;
  match_fields : list MatchSchema;
  actions : list ActionSchema;
}.
End Schema.

(** The tables of a [P4InfoVerificationSchema]. *)
Abbreviation P4InfoVerificationSchema := (list Schema.FixedTableSchema).

(** The struct [SchemaMap]: tables by name, with their fields and actions by name. *)
Record SchemaTable := mkSchemaTable {
  match_schemas : gmap str Schema.MatchSchema;
  action_schemas : gmap str Schema.ActionSchema;
}.
Abbreviation SchemaMap := (gmap str SchemaTable).

(** [map[key] = value] for every element: a later element replaces an earlier one. *)
Definition assign_by {A} (key : A → str) (l : list A) : gmap str A :=
  fold_left (λ m a, <[key a := a]> m) l ∅.

Definition ToSchemaTable (proto_table : Schema.FixedTableSchema) : SchemaTable :=
  mkSchemaTable (assign_by Schema.match_name (Schema.match_fields proto_table))
    (assign_by Schema.action_name (Schema.actions proto_table)).

Definition ToSchemaMap (proto_schema : P4InfoVerificationSchema) : SchemaMap :=
  ToSchemaTable <$> assign_by Schema.table_name proto_schema.

(** * The schema of a program *)

Definition ToSchemaMatchType (p4_match_type : MatchType) : result Schema.MatchType :=
  match p4_match_type with
  | EXACT | OPTIONAL => Ok Schema.EXACT
  | LPM => Ok Schema.LPM
  | TERNARY => Ok Schema.TERNARY
  | RANGE | MATCH_TYPE_UNSPECIFIED _ => Err kInvalidArgument
  end.

(** The bit width, which hexadecimal strings must have and other formats leave out. *)
Definition schema_bitwidth (format : Format) (width : Z) : result Z :=
  if bool_decide (format = HEX_STRING) then if width <=? 0 then Err kInvalidArgument else Ok width
  else Ok 0.

Definition ToMatchSchema (name : str) (match_field_ : IrMatchFieldDefinition) : result Schema.MatchSchema :=
  width ← schema_bitwidth (match_format match_field_) (bitwidth (match_element (match_field match_field_)));
  type ← ToSchemaMatchType (match_type (match_field match_field_));
  Ok (Schema.mkMatch name (match_format match_field_) width false type).

Definition ToParameterSchema (p : str * IrActionParamDefinition) : result Schema.ParameterSchema :=
  let '(param_name, definition) := p in
  width ← schema_bitwidth (param_format definition) (bitwidth (param definition));
  Ok (Schema.mkParameter param_name (param_format definition) width false).

Definition ToActionSchema (action : IrActionDefinition) : result Schema.ActionSchema :=
  parameters ← map_result ToParameterSchema (map_to_list (params_by_name action));
  Ok (Schema.mkAction (alias (action_preamble action)) parameters).

Definition ToTableSchema (table_name : str) (table : IrTableDefinition) : result Schema.FixedTableSchema :=
  if bool_decide (is_Some (counter table)) then Err kInvalidArgument
  else if bool_decide (is_Some (meter table)) then Err kInvalidArgument
  else if bool_decide (match_fields_by_name table = ∅) then Err kInvalidArgument
  else
    match_fields ← map_result (λ '(name, d), ToMatchSchema name d) (map_to_list (match_fields_by_name table));
    actions ← map_result (λ r, ToActionSchema (ref_action r)) (entry_actions table);
    Ok (Schema.mkTable table_name match_fields actions).

Section schema.
Context `{SwssSchema}.

Definition convert_step (schema : P4InfoVerificationSchema) (entry : str * IrTableDefinition)
  : result P4InfoVerificationSchema :=
  let '(table_name, table) := entry in
  table_type ← GetTableType table;
  if negb (bool_decide (table_type = kFixed)) && negb (bool_decide (table_type = kExt)) then Ok schema
  else s ← ToTableSchema table_name table; Ok (schema ++ [s]).

(** Iteration over a hash map is over the list of its entries, in some order. *)
Definition ConvertToSchema (ir_p4info : IrP4Info) : result P4InfoVerificationSchema :=
  fold_result convert_step (map_to_list (tables_by_name ir_p4info)) [].

(** * Compatibility *)

Definition MatchSchemaIsCompatible (schema supported : Schema.MatchSchema) : result unit :=
  if negb (bool_decide (Schema.match_name schema = Schema.match_name supported)) then Err kInternal
  else if negb (bool_decide (Schema.match_format schema = Schema.match_format supported)) then Err kInvalidArgument
  else if Schema.match_bitwidth supported <? Schema.match_bitwidth schema then Err kInvalidArgument
  else if negb (bool_decide (Schema.type schema = Schema.type supported)) then Err kInvalidArgument
  else Ok tt.

Definition check_parameter (supported_params : gmap str Schema.ParameterSchema)
  (schema_param : Schema.ParameterSchema) : result unit :=
  match supported_params !! Schema.parameter_name schema_param with
  | None => Err kNotFound
  | Some supported_param =>
    if negb (bool_decide (Schema.parameter_format schema_param = Schema.parameter_format supported_param))
    then Err kInvalidArgument
    else if Schema.parameter_bitwidth supported_param <? Schema.parameter_bitwidth schema_param
    then Err kInvalidArgument
    else Ok tt
  end.

Definition ActionSchemaIsCompatible (schema supported : Schema.ActionSchema) : result unit :=
  if negb (bool_decide (Schema.action_name schema = Schema.action_name supported)) then Err kInternal
  else
    let supported_params := assign_by Schema.parameter_name (Schema.parameters supported) in
    if negb (bool_decide (length (Schema.parameters schema) = length (Schema.parameters supported)))
    then Err kInvalidArgument
    else if bool_decide (length (Schema.parameters schema) = 0%nat) then Ok tt
    else fold_result (λ _ p, check_parameter supported_params p) (Schema.parameters schema) tt.

Definition check_match (supported_table : SchemaTable) (candidate : str * Schema.MatchSchema) : result unit :=
  let '(match_field_name, candidate_match_field) := candidate in
  match match_schemas supported_table !! match_field_name with
  | None => Err kNotFound
  | Some supported_match => MatchSchemaIsCompatible candidate_match_field supported_match
  end.

Definition check_action (supported_table : SchemaTable) (candidate : str * Schema.ActionSchema) : result unit :=
  let '(action_name, candidate_action) := candidate in
  match action_schemas supported_table !! action_name with
  | None => Err kNotFound
  | Some supported_action => ActionSchemaIsCompatible candidate_action supported_action
  end.

(** Extension tables need no support. *)
Definition check_table (ir_p4info : IrP4Info) (supported_schema_map : SchemaMap)
  (candidate : str * SchemaTable) : result unit :=
  let '(table_name, candidate_table) := candidate in
  match tables_by_name ir_p4info !! table_name with
  | None => Err kNotFound
  | Some ir_table_def =>
    table_type ← GetTableType ir_table_def;
    if bool_decide (table_type = kExt) then Ok tt
    else
      match supported_schema_map !! table_name with
      | None => Err kNotFound
      | Some supported_table =>
        _ ← fold_result (λ _ c, check_match supported_table c) (map_to_list (match_schemas candidate_table)) tt;
        fold_result (λ _ c, check_action supported_table c) (map_to_list (action_schemas candidate_table)) tt
      end
  end.

Definition IsSupportedBySchema (ir_p4info : IrP4Info) (supported_schema : P4InfoVerificationSchema) : result unit :=
  let supported_schema_map := ToSchemaMap supported_schema in
  schema ← ConvertToSchema ir_p4info;
  fold_result (λ _ c, check_table ir_p4info supported_schema_map c) (map_to_list (ToSchemaMap schema)) tt.

(** * Maps of named elements *)

Lemma assign_by_snoc {A} (key : A → str) l a : assign_by key (l ++ [a]) = <[key a := a]> (assign_by key l).
Proof. unfold assign_by. by rewrite fold_left_app. Qed.

(** When elements of the same name are the same, an element is found exactly under its name. *)
Lemma assign_by_lookup {A} (key : A → str) l k a :
  (∀ b c, b ∈ l → c ∈ l → key b = key c → b = c) → assign_by key l !! k = Some a ↔ a ∈ l ∧ key a = k.
Proof.
  induction l as [|x l IH] using rev_ind; intros Hkey; [cbn; rewrite lookup_empty; set_solver|].
  rewrite assign_by_snoc, elem_of_app, list_elem_of_singleton.
  assert (∀ b c, b ∈ l → c ∈ l → key b = key c → b = c) as Hl by (intros b c Hb Hc; apply Hkey; set_solver).
  specialize (IH Hl). destruct (decide (key x = k)) as [Hx|Hx].
  - rewrite Hx, lookup_insert_eq. split; [intros [= ->]; auto|].
    intros [[Ha| ->] Hk]; [|done]. f_equal. apply Hkey; [set_solver..|congruence].
  - rewrite lookup_insert_ne, IH by done. split; [tauto|]. intros [[Ha| ->] Hk]; [done|done].
Qed.

(** The images of a list by a partial function that names them. *)
Lemma assign_by_images {A B} (key : B → str) (name : A → str) (f : A → result B) l ys k y :
  Forall2 (λ x y, f x = Ok y) l ys → (∀ x y, f x = Ok y → key y = name x) →
  (∀ x x', x ∈ l → x' ∈ l → name x = name x' → f x = f x') →
  assign_by key ys !! k = Some y ↔ ∃ x, x ∈ l ∧ name x = k ∧ f x = Ok y.
Proof.
  intros Hys Hkey Hfun. rewrite assign_by_lookup.
  - split.
    + intros [Hy <-]. destruct (Forall2_in_r _ _ _ _ Hys Hy) as (x & Hx & Hf). exists x. by rewrite (Hkey x y).
    + intros (x & Hx & <- & Hf). destruct (Forall2_in_l _ _ _ _ Hys Hx) as (y' & Hy & Hf').
      rewrite Hf in Hf'. injection Hf' as <-. split; [done|by apply Hkey].
  - intros b c Hb Hc Hbc. destruct (Forall2_in_r _ _ _ _ Hys Hb) as (x & Hx & Hfx).
    destruct (Forall2_in_r _ _ _ _ Hys Hc) as (x' & Hx' & Hfx').
    assert (f x = f x') by (apply Hfun; [done..|by rewrite <-(Hkey x b), <-(Hkey x' c)]). congruence.
Qed.

(** * What can be expressed, and what is covered *)

(** Only the widths of hexadecimal strings count. *)
Definition width_of (format : Format) (width : Z) : Z := if bool_decide (format = HEX_STRING) then width else 0.

Definition schema_kind (t : MatchType) : option Schema.MatchType :=
  match ToSchemaMatchType t with Ok k => Some k | _ => None end.

Record field_expressible (d : IrMatchFieldDefinition) : Prop := {
  field_wide : match_format d = HEX_STRING → 0 < bitwidth (match_element (match_field d));
  field_kind : is_Some (schema_kind (match_type (match_field d)));
}.
Definition action_expressible (a : IrActionDefinition) : Prop :=
  ∀ n p, params_by_name a !! n = Some p → param_format p = HEX_STRING → 0 < bitwidth (param p).
Record table_expressible (t : IrTableDefinition) : Prop := {
  no_counter : counter t = None;
  no_meter : meter t = None;
  some_field : match_fields_by_name t ≠ ∅;
  fields_expressible n d : match_fields_by_name t !! n = Some d → field_expressible d;
  actions_expressible r : r ∈ entry_actions t → action_expressible (ref_action r);
}.

(** A field of the program and the one of that name in the schema. *)
Record field_covered (d : IrMatchFieldDefinition) (m : Schema.MatchSchema) : Prop := {
  same_format : match_format d = Schema.match_format m;
  width_supported : width_of (match_format d) (bitwidth (match_element (match_field d))) ≤ Schema.match_bitwidth m;
  same_kind : schema_kind (match_type (match_field d)) = Some (Schema.type m);
}.
(** The parameters of an action must be exactly those of the schema. *)
Record action_covered (a : IrActionDefinition) (s : Schema.ActionSchema) : Prop := {
  same_count : size (params_by_name a) = length (Schema.parameters s);
  params_covered n p : params_by_name a !! n = Some p →
    ∃ q, assign_by Schema.parameter_name (Schema.parameters s) !! n = Some q ∧
      param_format p = Schema.parameter_format q ∧
      width_of (param_format p) (bitwidth (param p)) ≤ Schema.parameter_bitwidth q;
}.
Record table_covered (t : IrTableDefinition) (s : SchemaTable) : Prop := {
  fields_covered n d : match_fields_by_name t !! n = Some d →
    ∃ m, match_schemas s !! n = Some m ∧ field_covered d m;
  actions_covered r : r ∈ entry_actions t →
    ∃ a, action_schemas s !! alias (action_preamble (ref_action r)) = Some a ∧ action_covered (ref_action r) a;
}.

Lemma schema_bitwidth_Ok format width w :
  schema_bitwidth format width = Ok w ↔ (format = HEX_STRING → 0 < width) ∧ w = width_of format width.
Proof.
  unfold schema_bitwidth, width_of. case_bool_decide as Hf; [|naive_solver].
  destruct (width <=? 0) eqn:Hw; [split; [done|intros [Hp _]; specialize (Hp Hf); lia]|].
  split; [intros [= <-]; split; [lia|done]|by intros [_ ->]].
Qed.

Lemma ToMatchSchema_Ok n d m :
  ToMatchSchema n d = Ok m ↔ field_expressible d ∧ ∃ k, schema_kind (match_type (match_field d)) = Some k ∧
    m = Schema.mkMatch n (match_format d) (width_of (match_format d) (bitwidth (match_element (match_field d)))) false k.
Proof.
  unfold ToMatchSchema. rewrite bind_Ok_iff. setoid_rewrite schema_bitwidth_Ok. setoid_rewrite bind_Ok_iff.
  unfold schema_kind. split.
  - intros (w & [Hw ->] & k & Hk & [= <-]). split; [|exists k; by rewrite Hk].
    split; [done|]. unfold schema_kind. rewrite Hk. by eexists.
  - intros [[Hw _] (k & Hk & ->)]. exists (width_of (match_format d) (bitwidth (match_element (match_field d)))).
    split; [done|]. exists k. split; [|done]. by destruct (ToSchemaMatchType _); simplify_eq.
Qed.

Lemma ToParameterSchema_Ok n p q :
  ToParameterSchema (n, p) = Ok q ↔ (param_format p = HEX_STRING → 0 < bitwidth (param p)) ∧
    q = Schema.mkParameter n (param_format p) (width_of (param_format p) (bitwidth (param p))) false.
Proof.
  unfold ToParameterSchema. rewrite bind_Ok_iff. setoid_rewrite schema_bitwidth_Ok. split.
  - by intros (w & [Hw ->] & [= <-]).
  - intros [Hw ->]. by eexists.
Qed.

(** * The schema of a program holds its definitions *)

Lemma map_entries_keys {A B : Type} (m : gmap str A) (f : str * A → result B) x x' :
  x ∈ map_to_list m → x' ∈ map_to_list m → fst x = fst x' → f x = f x'.
Proof.
  destruct x as [k a], x' as [k' a']. intros Hx%elem_of_map_to_list Hx'%elem_of_map_to_list Hk. cbn in Hk. subst.
  rewrite Hx in Hx'. by injection Hx' as ->.
Qed.

Lemma map_result_exists {A B} (f : A → result B) l : (∀ x, x ∈ l → ∃ y, f x = Ok y) → ∃ ys, map_result f l = Ok ys.
Proof.
  induction l as [|x l IH]; intros Hall; [by exists []|]. cbn [map_result].
  destruct (Hall x) as [y ->]; [by left|]. destruct IH as [ys ->]; [intros z Hz; apply Hall; by right|]. by eexists.
Qed.

Lemma ToActionSchema_Ok a :
  (∀ s, ToActionSchema a = Ok s →
     action_expressible a ∧ Schema.action_name s = alias (action_preamble a) ∧
     length (Schema.parameters s) = size (params_by_name a) ∧
     (∀ q, q ∈ Schema.parameters s ↔ ∃ p, params_by_name a !! Schema.parameter_name q = Some p ∧
        ToParameterSchema (Schema.parameter_name q, p) = Ok q) ∧
     ∀ n q, assign_by Schema.parameter_name (Schema.parameters s) !! n = Some q ↔
       ∃ p, params_by_name a !! n = Some p ∧ ToParameterSchema (n, p) = Ok q) ∧
  (action_expressible a → ∃ s, ToActionSchema a = Ok s).
Proof.
  split.
  - unfold ToActionSchema. intros s (ps & Hps%map_result_Ok & [= <-])%bind_Ok_iff. cbn [Schema.parameters Schema.action_name].
    assert (∀ n q, assign_by Schema.parameter_name ps !! n = Some q ↔
      ∃ p, params_by_name a !! n = Some p ∧ ToParameterSchema (n, p) = Ok q) as Hlook.
    { intros n q. rewrite (assign_by_images Schema.parameter_name fst ToParameterSchema _ _ n q Hps).
      - split; [intros ([n' p] & Hp%elem_of_map_to_list & <- & Hq); by exists p|].
        intros (p & Hp & Hq). exists (n, p). by rewrite elem_of_map_to_list.
      - by intros [n' p] q' [_ ->]%ToParameterSchema_Ok.
      - apply map_entries_keys. }
    split_and!; [|done|rewrite <-(Forall2_length _ _ _ Hps); apply length_map_to_list| |done].
    + intros n p Hp%elem_of_map_to_list. destruct (Forall2_in_l _ _ _ _ Hps Hp) as (q & _ & [Hw _]%ToParameterSchema_Ok). done.
    + intros q. split.
      * intros Hq. destruct (Forall2_in_r _ _ _ _ Hps Hq) as ([n p] & Hp%elem_of_map_to_list & Hf).
        pose proof Hf as [_ ->]%ToParameterSchema_Ok. cbn. by exists p.
      * intros (p & Hp%elem_of_map_to_list & Hq). destruct (Forall2_in_l _ _ _ _ Hps Hp) as (q' & Hq' & Hf).
        rewrite Hq in Hf. by injection Hf as <-.
  - intros Ha. unfold ToActionSchema.
    destruct (map_result_exists ToParameterSchema (map_to_list (params_by_name a))) as [ps ->]; [|by eexists].
    intros [n p] Hp%elem_of_map_to_list. eexists. apply ToParameterSchema_Ok. split; [by apply (Ha n)|done].
Qed.

(** Actions of a table with the same name are the same. *)
Definition actions_named_apart (t : IrTableDefinition) : Prop :=
  ∀ r r', r ∈ entry_actions t → r' ∈ entry_actions t →
    alias (action_preamble (ref_action r)) = alias (action_preamble (ref_action r')) → ref_action r = ref_action r'.

Lemma well_formed_actions info i t : well_formed info → tables_by_id info !! i = Some t → actions_named_apart t.
Proof.
  intros Hwf Ht r r' Hr Hr' Hn. pose proof (actions_known _ _ (tables_ok _ Hwf i t Ht)) as Hk.
  pose proof (Hk r Hr) as Ha. pose proof (Hk r' Hr') as Ha'.
  pose proof (indexed_inj _ _ _ _ _ _ _ _ (actions_indexed _ Hwf) Ha Ha' Hn) as Hid. rewrite Hid, Ha' in Ha. congruence.
Qed.

Lemma ToTableSchema_Ok n t :
  (∀ s, ToTableSchema n t = Ok s → table_expressible t ∧ Schema.table_name s = n ∧
     (∀ k m, match_schemas (ToSchemaTable s) !! k = Some m ↔
        ∃ d, match_fields_by_name t !! k = Some d ∧ ToMatchSchema k d = Ok m) ∧
     (actions_named_apart t → ∀ k a, action_schemas (ToSchemaTable s) !! k = Some a ↔
        ∃ r, r ∈ entry_actions t ∧ alias (action_preamble (ref_action r)) = k ∧ ToActionSchema (ref_action r) = Ok a)) ∧
  (table_expressible t → ∃ s, ToTableSchema n t = Ok s).
Proof.
  unfold ToTableSchema. split.
  - intros s. case_bool_decide as Hc; [done|]. case_bool_decide as Hm; [done|]. case_bool_decide as He; [done|].
    intros (ms & Hms%map_result_Ok & (acts & Hacts%map_result_Ok & [= <-])%bind_Ok_iff)%bind_Ok_iff. cbn. split_and!.
    + split; [by apply eq_None_not_Some|by apply eq_None_not_Some|done|..].
      * intros k d Hd%elem_of_map_to_list. destruct (Forall2_in_l _ _ _ _ Hms Hd) as (m & _ & [Hd' _]%ToMatchSchema_Ok). done.
      * intros r Hr. destruct (Forall2_in_l _ _ _ _ Hacts Hr) as (a & _ & Ha). by apply ToActionSchema_Ok in Ha as [? _].
    + done.
    + intros k m. rewrite (assign_by_images Schema.match_name fst (λ '(name, d), ToMatchSchema name d) _ _ k m Hms).
      * split; [intros ([k' d] & Hd%elem_of_map_to_list & <- & Hq); by exists d|].
        intros (d & Hd & Hq). exists (k, d). by rewrite elem_of_map_to_list.
      * by intros [k' d] m' [_ (? & _ & ->)]%ToMatchSchema_Ok.
      * apply (map_entries_keys _ (λ '(name, d), ToMatchSchema name d)).
    + intros Hapart k a.
      apply (assign_by_images Schema.action_name (λ r, alias (action_preamble (ref_action r)))
        (λ r, ToActionSchema (ref_action r)) _ _ k a Hacts).
      * intros r a' Ha. by apply ToActionSchema_Ok in Ha as (_ & ? & _).
      * intros r r' Hr Hr' Hn. by rewrite (Hapart r r' Hr Hr' Hn).
  - intros [Hc Hm He Hf Ha]. rewrite !bool_decide_eq_false_2; [|done|rewrite Hm; by intros [? ?]|rewrite Hc; by intros [? ?]].
    destruct (map_result_exists (λ '(name, d), ToMatchSchema name d) (map_to_list (match_fields_by_name t))) as [ms ->].
    { intros [k d] Hd%elem_of_map_to_list. pose proof (Hf k d Hd) as Hd'. destruct (field_kind _ Hd') as [kd Hk].
      eexists. apply ToMatchSchema_Ok. split; [done|]. by exists kd. }
    destruct (map_result_exists (λ r, ToActionSchema (ref_action r)) (entry_actions t)) as [acts Hacts].
    { intros r Hr. by apply ToActionSchema_Ok, Ha. }
    cbn [mbind result_bind]. rewrite Hacts. by eexists.
Qed.

Definition in_schema (type : TableType) : Prop := type = kFixed ∨ type = kExt.

Definition convert_entry (entry : str * IrTableDefinition) : result (list Schema.FixedTableSchema) :=
  table_type ← GetTableType (snd entry);
  if negb (bool_decide (table_type = kFixed)) && negb (bool_decide (table_type = kExt)) then Ok []
  else s ← ToTableSchema (fst entry) (snd entry); Ok [s].

Lemma convert_step_entry schema entry : convert_step schema entry = (l ← convert_entry entry; Ok (schema ++ l)).
Proof.
  destruct entry as [n t]. unfold convert_entry. cbn. destruct (GetTableType t) as [type| |]; [|done..]. cbn [mbind result_bind].
  destruct (_ && _); cbn; [by rewrite app_nil_r|]. by destruct (ToTableSchema n t).
Qed.

Lemma convert_loop l acc s :
  fold_result convert_step l acc = Ok s ↔
  ∃ parts, Forall2 (λ x p, convert_entry x = Ok p) l parts ∧ s = acc ++ concat parts.
Proof.
  revert acc. induction l as [|x l IH]; intros acc; cbn [fold_result].
  - split; [intros [= <-]; exists []; by rewrite app_nil_r|]. intros (parts & ->%Forall2_nil_inv_l & ->). by rewrite app_nil_r.
  - rewrite convert_step_entry, bind_Ok_iff. split.
    + intros (s1 & (p & Hp & [= <-])%bind_Ok_iff & (parts & Hparts & ->)%IH). exists (p :: parts).
      split; [by constructor|]. cbn. by rewrite <-app_assoc.
    + intros (parts & (p & ps & Hp & Hps & ->)%Forall2_cons_inv_l & ->). exists (acc ++ p).
      split; [apply bind_Ok_iff; by exists p|]. apply IH. exists ps. split; [done|]. cbn. by rewrite <-app_assoc.
Qed.

Lemma convert_entry_Ok n t part :
  convert_entry (n, t) = Ok part ↔ ∃ type, GetTableType t = Ok type ∧
    ((¬ in_schema type ∧ part = []) ∨ (in_schema type ∧ ∃ s, ToTableSchema n t = Ok s ∧ part = [s])).
Proof.
  unfold convert_entry, in_schema. rewrite bind_Ok_iff. cbn [fst snd]. split; intros (type & Ht & Hp); exists type; (split; [done|]).
  - destruct type; cbn in Hp; try (left; split; [by intros [[=]|[=]]|by injection Hp as <-]);
      right; apply bind_Ok_iff in Hp as (s & Hs & [= <-]); (split; [by auto|by exists s]).
  - destruct Hp as [[Hn ->]|[Hs (s & Hts & ->)]]; [|destruct Hs as [-> | ->]; cbn; by rewrite Hts].
    rewrite !bool_decide_eq_false_2 by (intros ->; apply Hn; auto). done.
Qed.

Definition convertible (info : IrP4Info) : Prop :=
  ∀ n t, tables_by_name info !! n = Some t → ∃ type, GetTableType t = Ok type ∧ (in_schema type → table_expressible t).

Lemma ConvertToSchema_Ok info :
  (∀ s, ConvertToSchema info = Ok s → convertible info ∧
     ∀ n c, ToSchemaMap s !! n = Some c ↔ ∃ t type ts, tables_by_name info !! n = Some t ∧
       GetTableType t = Ok type ∧ in_schema type ∧ ToTableSchema n t = Ok ts ∧ c = ToSchemaTable ts) ∧
  (convertible info → ∃ s, ConvertToSchema info = Ok s).
Proof.
  unfold ConvertToSchema. split.
  - intros s (parts & Hparts & ->)%convert_loop. cbn [app]. split.
    + intros n t Ht%elem_of_map_to_list. destruct (Forall2_in_l _ _ _ _ Hparts Ht) as (p & _ & (type & Hty & Hc)%convert_entry_Ok).
      exists type. split; [done|]. intros Hin. destruct Hc as [[? _]|(_ & ts & Hts & _)]; [done|].
      by apply ToTableSchema_Ok in Hts as [? _].
    + assert (∀ ts, ts ∈ concat parts ↔ ∃ n t type, tables_by_name info !! n = Some t ∧ GetTableType t = Ok type ∧
        in_schema type ∧ ToTableSchema n t = Ok ts) as Hin.
      { intros ts. rewrite list_elem_of_In, in_concat. setoid_rewrite <-list_elem_of_In. split.
        - intros (p & Hp & Hts). destruct (Forall2_in_r _ _ _ _ Hparts Hp) as ([n t] & Ht%elem_of_map_to_list & (type & Hty & Hc)%convert_entry_Ok).
          destruct Hc as [[_ ->]|(Hin & ts' & Hts' & ->)]; [by apply elem_of_nil in Hts|].
          apply list_elem_of_singleton in Hts as ->. by exists n, t, type.
        - intros (n & t & type & Ht%elem_of_map_to_list & Hty & Hin & Hts).
          destruct (Forall2_in_l _ _ _ _ Hparts Ht) as (p & Hp & (type' & Hty' & Hc)%convert_entry_Ok).
          rewrite Hty in Hty'. injection Hty' as <-. destruct Hc as [[? _]|(_ & ts' & Hts' & ->)]; [done|].
          exists [ts']. split; [done|]. rewrite Hts in Hts'. injection Hts' as <-. by left. }
      intros n c. unfold ToSchemaMap. rewrite lookup_fmap_Some. setoid_rewrite assign_by_lookup; [split|].
      * intros (ts & <- & (n' & t & type & Ht & Hty & Hs & Hts)%Hin & Hn).
        pose proof Hts as (_ & Hn' & _)%ToTableSchema_Ok. rewrite Hn in Hn'. subst n'. by exists t, type, ts.
      * intros (t & type & ts & Ht & Hty & Hs & Hts & ->). exists ts. split; [done|]. split; [|by apply ToTableSchema_Ok in Hts as (_ & ? & _)].
        apply Hin. by exists n, t, type.
      * intros a b (n1 & t1 & ? & Ht1 & _ & _ & Hs1)%Hin (n2 & t2 & ? & Ht2 & _ & _ & Hs2)%Hin Hab.
        pose proof Hs1 as (_ & Hn1 & _)%ToTableSchema_Ok. pose proof Hs2 as (_ & Hn2 & _)%ToTableSchema_Ok.
        assert (n1 = n2) as <- by congruence. rewrite Ht1 in Ht2. injection Ht2 as <-. congruence.
  - intros Hc. assert (∃ parts, map_result convert_entry (map_to_list (tables_by_name info)) = Ok parts) as [parts Hparts%map_result_Ok].
    { apply map_result_exists. intros [n t] Ht%elem_of_map_to_list. destruct (Hc n t Ht) as (type & Hty & He).
      assert (in_schema type ∨ ¬ in_schema type) as [Hin|Hin]; [unfold in_schema; destruct type; naive_solver|..].
      - destruct (proj2 (ToTableSchema_Ok n t) (He Hin)) as [ts Hts]. exists [ts]. apply convert_entry_Ok. exists type. split; [done|]. right. split; [done|]. by exists ts.
      - exists []. apply convert_entry_Ok. exists type. split; [done|]. by left. }
    exists (concat parts). apply convert_loop. by exists parts.
Qed.

(** * Compatibility is coverage *)

Lemma MatchSchemaIsCompatible_Ok k d m s :
  ToMatchSchema k d = Ok m → Schema.match_name s = k → MatchSchemaIsCompatible m s = Ok tt ↔ field_covered d s.
Proof.
  intros (He & kind & Hk & ->)%ToMatchSchema_Ok <-. unfold MatchSchemaIsCompatible. cbn.
  rewrite bool_decide_eq_true_2 by done. cbn [negb]. case_bool_decide as Hf; cbn [negb]; [|by split; [|intros [? _ _]]].
  destruct (_ <? _) eqn:Hw; [split; [done|intros [_ Hw' _]; lia]|].
  case_bool_decide as Ht; cbn [negb]; split; try done.
  - intros _. split; [done|lia|by rewrite Hk, Ht].
  - intros [_ _ Hk']. congruence.
Qed.

Lemma check_parameter_Ok params n p q :
  ToParameterSchema (n, p) = Ok q →
  check_parameter params q = Ok tt ↔ ∃ s, params !! n = Some s ∧ param_format p = Schema.parameter_format s ∧
    width_of (param_format p) (bitwidth (param p)) ≤ Schema.parameter_bitwidth s.
Proof.
  intros [_ ->]%ToParameterSchema_Ok. unfold check_parameter. cbn. destruct (params !! n) as [s|]; [|naive_solver].
  case_bool_decide as Hf; cbn [negb]; [|naive_solver]. destruct (_ <? _) eqn:Hw; [|naive_solver lia].
  split; [done|]. intros (s' & [= <-] & _ & ?). lia.
Qed.

Lemma ActionSchemaIsCompatible_Ok a c s :
  ToActionSchema a = Ok c → Schema.action_name s = alias (action_preamble a) →
  ActionSchemaIsCompatible c s = Ok tt ↔ action_covered a s.
Proof.
  intros (He & Hn & Hlen & Hin & Hlook)%ToActionSchema_Ok Hs. unfold ActionSchemaIsCompatible.
  rewrite Hn, Hs, Hlen, bool_decide_eq_true_2 by done. cbn [negb].
  case_bool_decide as Hsize; cbn [negb]; [|by split; [|intros [? _]]].
  case_bool_decide as Hz.
  - split; [|done]. intros _. split; [done|]. intros n p Hp.
    apply map_size_empty_inv in Hz. by rewrite Hz in Hp.
  - rewrite fold_check_Ok. split.
    + intros Hall. split; [done|]. intros n p Hp.
      assert (∃ q, ToParameterSchema (n, p) = Ok q) as [q Hq] by (eexists; apply ToParameterSchema_Ok; split; [by apply (He n)|done]).
      apply (check_parameter_Ok _ n p q Hq), Hall, Hin. pose proof Hq as [_ Hqe]%ToParameterSchema_Ok.
      exists p. by rewrite Hqe at 1 2.
    + intros [_ Hcov] q Hq. destruct (proj1 (Hin q) Hq) as (p & Hp & Hpq). apply (check_parameter_Ok _ _ _ _ Hpq). by apply Hcov.
Qed.

Lemma assign_by_key {A} (key : A → str) l k a : assign_by key l !! k = Some a → key a = k.
Proof.
  induction l as [|x l IH] using rev_ind; [done|]. rewrite assign_by_snoc.
  intros [[<- <-]|[_ Ha]]%lookup_insert_Some; [done|by apply IH].
Qed.

(** What is kept under a name has this name. *)
Lemma ToSchemaMap_named schema n s :
  ToSchemaMap schema !! n = Some s →
  (∀ k m, match_schemas s !! k = Some m → Schema.match_name m = k) ∧
  (∀ k a, action_schemas s !! k = Some a → Schema.action_name a = k).
Proof. intros (ts & <- & _)%lookup_fmap_Some. split; intros k x Hx; by apply assign_by_key in Hx. Qed.

Lemma table_checks_Ok n t ts s :
  actions_named_apart t → ToTableSchema n t = Ok ts →
  (∀ k m, match_schemas s !! k = Some m → Schema.match_name m = k) →
  (∀ k a, action_schemas s !! k = Some a → Schema.action_name a = k) →
  ((∀ c, c ∈ map_to_list (match_schemas (ToSchemaTable ts)) → check_match s c = Ok tt) ∧
   (∀ c, c ∈ map_to_list (action_schemas (ToSchemaTable ts)) → check_action s c = Ok tt)) ↔ table_covered t s.
Proof.
  intros Hapart (He & _ & Hms & Has)%ToTableSchema_Ok Hmn Han. specialize (Has Hapart). split.
  - intros [Hm Ha]. split.
    + intros k d Hd. destruct (field_kind _ (fields_expressible _ He k d Hd)) as [kind Hk].
      assert (∃ m, ToMatchSchema k d = Ok m) as [m Hmd] by (eexists; apply ToMatchSchema_Ok; split; [by eapply fields_expressible|by exists kind]).
      specialize (Hm (k, m)). cbn in Hm. destruct (match_schemas s !! k) as [m'|] eqn:Hm'.
      * exists m'. split; [done|]. apply (MatchSchemaIsCompatible_Ok k d m m' Hmd (Hmn k m' Hm')), Hm.
        apply elem_of_map_to_list, Hms. by exists d.
      * discriminate Hm. apply elem_of_map_to_list, Hms. by exists d.
    + intros r Hr. destruct (proj2 (ToActionSchema_Ok (ref_action r)) (actions_expressible _ He r Hr)) as [a Haa].
      specialize (Ha (alias (action_preamble (ref_action r)), a)). cbn in Ha.
      destruct (action_schemas s !! _) as [a'|] eqn:Ha'.
      * exists a'. split; [done|]. apply (ActionSchemaIsCompatible_Ok _ a a' Haa (Han _ a' Ha')), Ha.
        apply elem_of_map_to_list, Has. by exists r.
      * discriminate Ha. apply elem_of_map_to_list, Has. by exists r.
  - intros [Hf Ha]. split.
    + intros [k m] (d & Hd & Hm)%elem_of_map_to_list%Hms. cbn. destruct (Hf k d Hd) as (m' & Hm' & Hc). rewrite Hm'.
      by apply (MatchSchemaIsCompatible_Ok k d m m' Hm (Hmn k m' Hm')).
    + intros [k a] (r & Hr & <- & Haa)%elem_of_map_to_list%Has. cbn. destruct (Ha r Hr) as (a' & Ha' & Hc). rewrite Ha'.
      by apply (ActionSchemaIsCompatible_Ok _ a a' Haa (Han _ a' Ha')).
Qed.

Lemma check_table_Ok info supported n t type ts :
  actions_named_apart t → tables_by_name info !! n = Some t → GetTableType t = Ok type → in_schema type →
  ToTableSchema n t = Ok ts →
  check_table info (ToSchemaMap supported) (n, ToSchemaTable ts) = Ok tt ↔
    (type = kFixed → ∃ s, ToSchemaMap supported !! n = Some s ∧ table_covered t s).
Proof.
  intros Hapart Ht Hty Hin Hts. unfold check_table. rewrite Ht, Hty. cbn [mbind result_bind].
  case_bool_decide as He; [split; [by intros _ ->|done]|]. destruct Hin as [->|]; [|done].
  destruct (ToSchemaMap supported !! n) as [s|] eqn:Hs.
  - destruct (ToSchemaMap_named _ _ _ Hs) as [Hmn Han]. pose proof (table_checks_Ok n t ts s Hapart Hts Hmn Han) as Hc.
    split.
    + intros ([] & Hm & Ha)%bind_Ok_iff _. exists s. split; [done|]. apply Hc. split; by apply fold_check_Ok.
    + intros Hall. destruct (Hall eq_refl) as (s' & [= <-] & [Hm Ha]%Hc). apply bind_Ok_iff. exists tt.
      split; by apply fold_check_Ok.
  - split; [done|]. intros Hall. by destruct (Hall eq_refl) as (s & Hs' & _).
Qed.

(** A table is covered by its own schema. *)
Lemma table_covers_itself n t ts : actions_named_apart t → ToTableSchema n t = Ok ts → table_covered t (ToSchemaTable ts).
Proof.
  intros Hapart Hts. pose proof Hts as (He & _ & Hms & Has)%ToTableSchema_Ok. specialize (Has Hapart). split.
  - intros k d Hd. destruct (field_kind _ (fields_expressible _ He k d Hd)) as [kind Hk].
    eexists. split; [apply Hms; exists d; split; [done|]; apply ToMatchSchema_Ok; split; [by eapply fields_expressible|by exists kind]|].
    by split.
  - intros r Hr. destruct (proj2 (ToActionSchema_Ok (ref_action r)) (actions_expressible _ He r Hr)) as [a Ha].
    exists a. split; [apply Has; by exists r|]. pose proof Ha as (Hex & _ & Hlen & _ & Hlook)%ToActionSchema_Ok.
    split; [done|]. intros k p Hp.
    eexists. split; [apply Hlook; exists p; split; [done|]; apply ToParameterSchema_Ok; split; [by apply (Hex k)|done]|]. by split.
Qed.

(** C20.  A program is supported by a schema exactly when its tables can be expressed as schemas (no counter or meter,
    some match field, widths for hexadecimal strings, no range match) and the schema covers the fixed
    ones: it knows each match field, in the same format and kind and at least as wide, and each action,
    with exactly its parameters.  Extension tables need no support.  In particular a program is
    supported by its own schema. *)
Theorem program_supported_exact (info : IrP4Info) (supported : P4InfoVerificationSchema) :
  well_formed info →
  (IsSupportedBySchema info supported = Ok tt ↔
   ∀ n t, tables_by_name info !! n = Some t → ∃ type, GetTableType t = Ok type ∧
     (type = kFixed ∨ type = kExt → table_expressible t) ∧
     (type = kFixed → ∃ s, ToSchemaMap supported !! n = Some s ∧ table_covered t s)) ∧
  (ConvertToSchema info = Ok supported → IsSupportedBySchema info supported = Ok tt).
Proof.
  intros Hwf. assert (∀ n t, tables_by_name info !! n = Some t → actions_named_apart t) as Hapart.
  { intros n t Ht. destruct (found_by_name _ _ _ _ (tables_indexed _ Hwf) n t Ht) as [_ Hi]. by eapply well_formed_actions. }
  assert (∀ s supported, ConvertToSchema info = Ok s →
    fold_result (λ _ c, check_table info (ToSchemaMap supported) c) (map_to_list (ToSchemaMap s)) tt = Ok tt ↔
    ∀ n t type ts, tables_by_name info !! n = Some t → GetTableType t = Ok type → in_schema type →
      ToTableSchema n t = Ok ts → type = kFixed → ∃ s, ToSchemaMap supported !! n = Some s ∧ table_covered t s) as Hloop.
  { intros s sup [_ Hs]%ConvertToSchema_Ok. rewrite fold_check_Ok. split.
    - intros Hall n t type ts Ht Hty Hin Hts. apply (check_table_Ok info sup n t type ts); [by eapply Hapart|done..|].
      apply Hall, elem_of_map_to_list, Hs. by exists t, type, ts.
    - intros Hall [n c] (t & type & ts & Ht & Hty & Hin & Hts & ->)%elem_of_map_to_list%Hs.
      apply (check_table_Ok info sup n t type ts); [by eapply Hapart|done..|]. by apply (Hall n t type ts). }
  unfold IsSupportedBySchema. split; [split|].
  - intros (s & Hs & Hf)%bind_Ok_iff n t Ht. pose proof Hs as [Hc _]%ConvertToSchema_Ok.
    destruct (Hc n t Ht) as (type & Hty & He). exists type. split_and!; [done|exact He|]. intros Hfix.
    assert (in_schema type) as Hin by (by left). destruct (proj2 (ToTableSchema_Ok n t) (He Hin)) as [ts Hts].
    by eapply (proj1 (Hloop s supported Hs)).
  - intros Hall. assert (convertible info) as Hc by (intros n t Ht; destruct (Hall n t Ht) as (type & ? & ? & _); by exists type).
    destruct (proj2 (ConvertToSchema_Ok info) Hc) as [s Hs]. rewrite Hs. cbn [mbind result_bind].
    apply (Hloop s supported Hs). intros n t type ts Ht Hty _ _ Hfix. destruct (Hall n t Ht) as (type' & Hty' & _ & Hcov).
    rewrite Hty in Hty'. injection Hty' as <-. by apply Hcov.
  - intros Hs. rewrite Hs. cbn [mbind result_bind]. apply (Hloop supported supported Hs).
    intros n t type ts Ht Hty Hin Hts _. exists (ToSchemaTable ts). split; [|by eapply table_covers_itself, Hts; eapply Hapart].
    apply ConvertToSchema_Ok in Hs as [_ Hs]. apply Hs. by exists t, type, ts.
Qed.
End schema.

(** * Example *)

(** A schema with the tables of the program, except that the tag of a tunnel may have [width] bits. *)
Definition example_schema (width : Z) : P4InfoVerificationSchema :=
  [Schema.mkTable $"acl_table"
     [Schema.mkMatch $"ether_type" HEX_STRING 16 false Schema.TERNARY; Schema.mkMatch $"dscp" HEX_STRING 6 false Schema.TERNARY]
     [Schema.mkAction $"drop" []; Schema.mkAction $"mirror" []];
   Schema.mkTable $"tunnel_table" [Schema.mkMatch $"vni" HEX_STRING width false Schema.EXACT] [Schema.mkAction $"drop" []]].

Example narrow_schema :
  IsSupportedBySchema partial_info (example_schema 16) = Err kInvalidArgument ∧
  IsSupportedBySchema partial_info [] = Err kNotFound.
Proof. split; vm_compute; reflexivity. Qed.

Lemma program_supported_exact_witness :
  (well_formed partial_info ∧ IsSupportedBySchema partial_info (example_schema 24) = Ok tt) ∧
  ∀ n t, tables_by_name partial_info !! n = Some t → counter t = None.
Proof.
  assert (IsSupportedBySchema partial_info (example_schema 24) = Ok tt) as Hs by (vm_compute; reflexivity).
  assert (∀ n t, tables_by_name partial_info !! n = Some t → GetTableType t = Ok kFixed) as Hfixed.
  { assert (forallb (λ '(n, t), bool_decide (GetTableType t = Ok kFixed)) (map_to_list (tables_by_name partial_info)) = true) as Hall
      by (vm_compute; reflexivity).
    intros n t Ht%elem_of_map_to_list%list_elem_of_In. rewrite forallb_forall in Hall. specialize (Hall (n, t) Ht).
    exact (bool_decide_eq_true_1 _ Hall). }
  split; [split; [exact partial_well_formed|exact Hs]|]. intros n t Ht.
  destruct (proj1 (proj1 (program_supported_exact partial_info (example_schema 24) partial_well_formed)) Hs n t Ht)
    as (type & Hty & He & _).
  rewrite (Hfixed n t Ht) in Hty. injection Hty as <-. exact (no_counter _ (He (or_introl eq_refl))).
Defined.
