(* ===== verification/ResourceUtilization.v ===== *)
(** p4rt_app/p4runtime: [resource_utilization.{h,cc}] and [entity_update.h].  Accounting of the
    action-profile resources that table entries use: how much an entry uses, how much an update
    changes the use, and whether the change fits in the profile's capacity. *)
From S2P Require Import Prelude IrUtils EntityKeys IrData.

(** * Data *)

Record ActionProfileResources := mkActionProfileResources {
  resources_profile_name : str;
  number_of_actions : Z;
  total_weight : Z;
  max_weight : Z;
}.

Record TableResources := mkTableResources {
  resources_table_name : str;
  action_profile : option ActionProfileResources;
}.

Definition NoResources : TableResources := mkTableResources [] None.

Record ActionProfileResourceCapacity := mkCapacity {
  capacity_profile : ActionProfile;
  current_total_weight : Z;
  current_total_members : Z;
}.

(** The update in flight; [app_db_update] is the translated form for the layer below, [status]
    the index of the update's response (a pointer into the response message). *)
Record EntityUpdate (A : Type) := mkEntityUpdate {
  entry : IrEntity;
  update_type : UpdateType;
  pi_entity : Entity;
  entity_key : EntityKey;
  resource_utilization_change : TableResources;
  app_db_update : A;
  status : nat;
}.
Arguments mkEntityUpdate {A} _ _ _ _ _ _ _.
Arguments entry {A} _.
Arguments update_type {A} _.
Arguments pi_entity {A} _.
Arguments entity_key {A} _.
Arguments resource_utilization_change {A} _.
Arguments app_db_update {A} _.
Arguments status {A} _.

(** * Usage of an entry *)

Definition GetActionProfileName (ir_p4info : IrP4Info) (id : Z) : result str :=
  match action_profiles_by_id ir_p4info !! id with
  | None => Err kNotFound
  | Some action_profile_def => Ok (profile_alias action_profile_def)
  end.

(** The loop [++actions; total_weight += weight; max_weight = max(max_weight, weight)].  A repeated
    field has fewer than 2^31 elements and a weight is an [int32_t], so the 32-bit counter and the
    64-bit sums of this file do not overflow and are plain integers; the one conversion that
    loses bits, in [VerifyCapacityAndGetTableResourceChange], is written out. *)
Definition sum_actions (weights : list Z) : Z * Z * Z :=
  fold_left (λ '(actions, total, max), λ w, (actions + 1, total + w, Z.max max w))
    weights (0, 0, 0).

Definition profile_resources (name : str) (weights : list Z) : ActionProfileResources :=
  let '(actions, total, max) := sum_actions weights in
  mkActionProfileResources name actions total max.

Definition GetResourceUsageForIrTableEntry (ir_p4info : IrP4Info) (table_entry : IrTableEntry)
  : result TableResources :=
  match tables_by_name ir_p4info !! table_name table_entry with
  | None => Err kNotFound
  | Some table_def =>
    match action_profile_id table_def with
    | None => Ok (mkTableResources (table_name table_entry) None)
    | Some id =>
      action_profile_name ← GetActionProfileName ir_p4info id;
      Ok (mkTableResources (table_name table_entry)
            (Some (profile_resources action_profile_name (map Ir.weight_ (action_set table_entry)))))
    end
  end.

(** [action().action_profile_action_set().action_profile_actions()]: empty when another action, or
    none, is set. *)
Definition action_profile_actions (a : TableAction) : list ActionProfileAction :=
  match a with kActionProfileActionSet l => l | _ => [] end.

Definition GetResourceUsageForPiTableEntry (ir_p4info : IrP4Info) (table_entry : TableEntry)
  : result TableResources :=
  match tables_by_id ir_p4info !! table_id table_entry with
  | None => Err kNotFound
  | Some table_def =>
    match action_profile_id table_def with
    | None => Ok (mkTableResources (preamble_alias table_def) None)
    | Some id =>
      action_profile_name ← GetActionProfileName ir_p4info id;
      Ok (mkTableResources (preamble_alias table_def)
            (Some (profile_resources action_profile_name
                     (map weight (action_profile_actions (action table_entry))))))
    end
  end.

Definition GetActionProfileResourceCapacity (action_profile_def : ActionProfile)
  : ActionProfileResourceCapacity := mkCapacity action_profile_def 0 0.

(** * Capacity *)

Definition UsesSumOfMembers (capacity : ActionProfileResourceCapacity) : bool :=
  bool_decide (is_Some (sum_of_members (capacity_profile capacity))).
Definition UsesSumOfWeights (capacity : ActionProfileResourceCapacity) : bool :=
  negb (UsesSumOfMembers capacity).
Definition GetMaxWeightForAllGroups (capacity : ActionProfileResourceCapacity) : option Z :=
  if UsesSumOfWeights capacity then Some (profile_size (capacity_profile capacity)) else None.
Definition GetMaxWeightPerGroup (capacity : ActionProfileResourceCapacity) : option Z :=
  if UsesSumOfWeights capacity then Some (max_group_size (capacity_profile capacity)) else None.
Definition GetMaxMembersForAllGroups (capacity : ActionProfileResourceCapacity) : option Z :=
  if UsesSumOfMembers capacity then Some (profile_size (capacity_profile capacity)) else None.
Definition GetMaxMembersPerGroup (capacity : ActionProfileResourceCapacity) : option Z :=
  if UsesSumOfMembers capacity then Some (max_group_size (capacity_profile capacity)) else None.
Definition GetMaxWeightPerMember (capacity : ActionProfileResourceCapacity) : option Z :=
  if UsesSumOfMembers capacity
  then Some (default 0 (sum_of_members (capacity_profile capacity))) else None.

(** [limit.has_value() && *limit != 0 && value > *limit]. *)
Definition exceeds (limit : option Z) (value : Z) : bool :=
  match limit with Some l => negb (l =? 0) && (l <? value) | None => false end.

(** A protobuf submessage that is not set reads as the default message. *)
Definition entity_table_entry (e : Entity) : TableEntry :=
  match e with
  | kTableEntry t => t
  | _ => plain_entry 0 0 [] ACTION_ABSENT
  end.

(** The resources of the new entry (INSERT, MODIFY) and of the old one (MODIFY, DELETE). *)
Definition NewResources {A} (ir_p4info : IrP4Info) (update : EntityUpdate A) (table_entry : IrTableEntry)
  : result (option TableResources) :=
  if bool_decide (update_type update = INSERT) || bool_decide (update_type update = MODIFY) then
    match GetResourceUsageForIrTableEntry ir_p4info table_entry with
    | Ok r => Ok (Some r)
    | Err _ => Err kInvalidArgument
    | Die => Die
    end
  else Ok None.

Definition OldResources {A} (ir_p4info : IrP4Info) (update : EntityUpdate A)
  (entity_cache : gmap EntityKey Entity) : result (option TableResources) :=
  if bool_decide (update_type update = MODIFY) || bool_decide (update_type update = DELETE) then
    match entity_cache !! entity_key update with
    | None => Err kNotFound
    | Some cache_entry =>
      match GetResourceUsageForPiTableEntry ir_p4info (entity_table_entry cache_entry) with
      | Ok r => Ok (Some r)
      | Err _ => Err kNotFound
      | Die => Die
      end
    end
  else Ok None.

(** New resources minus old ones. *)
Definition ResourceChange (new_resources old_resources : option TableResources) : TableResources :=
  let resources :=
    match new_resources with
    | Some r => match action_profile r with Some _ => r | None => NoResources end
    | None => NoResources
    end in
  match old_resources with
  | Some r =>
    match action_profile r with
    | Some old =>
      let base := match action_profile resources with
                  | Some p => p
                  | None => mkActionProfileResources (resources_profile_name old) 0 0 0 end in
      mkTableResources (resources_table_name r)
        (Some (mkActionProfileResources (resources_profile_name base)
                 (number_of_actions base - number_of_actions old)
                 (total_weight base - total_weight old)
                 (max_weight base)))
    | None => resources
    end
  | None => resources
  end.

(** The last part of the function: limits and projected use of the profile, which default-inserts
    the profile in the batch's map. *)
Definition CheckCapacity (current_capacity : ActionProfileResourceCapacity)
  (actions_in_new_request weight_in_new_request : Z) (profile : ActionProfileResources)
  (current_batch_resources : gmap str Z) : result () * gmap str Z :=
  let profile_name := resources_profile_name profile in
  let in_batch := default 0 (current_batch_resources !! profile_name) in
  if UsesSumOfMembers current_capacity then
    if exceeds (GetMaxMembersPerGroup current_capacity) actions_in_new_request
    then (Err kInvalidArgument, current_batch_resources)
    else if exceeds (GetMaxWeightPerMember current_capacity) (max_weight profile)
    then (Err kInvalidArgument, current_batch_resources)
    else
      let projected_utilization :=
        current_total_members current_capacity + in_batch + number_of_actions profile in
      let batch := <[profile_name := in_batch]> current_batch_resources in
      if exceeds (GetMaxMembersForAllGroups current_capacity) projected_utilization
      then (Err kResourceExhausted, batch) else (Ok tt, batch)
  else if UsesSumOfWeights current_capacity then
    if exceeds (GetMaxWeightPerGroup current_capacity) weight_in_new_request
    then (Err kInvalidArgument, current_batch_resources)
    else
      let projected_utilization :=
        current_total_weight current_capacity + in_batch + total_weight profile in
      let batch := <[profile_name := in_batch]> current_batch_resources in
      if exceeds (GetMaxWeightForAllGroups current_capacity) projected_utilization
      then (Err kResourceExhausted, batch) else (Ok tt, batch)
  else (Err kInvalidArgument, current_batch_resources).

(** [weight_in_new_request] is an [int32_t] that receives a 64-bit sum. *)
Definition VerifyCapacityAndGetTableResourceChange {A} (ir_p4info : IrP4Info) (update : EntityUpdate A)
  (entity_cache : gmap EntityKey Entity)
  (capacity_by_action_profile_name : gmap str ActionProfileResourceCapacity)
  (current_batch_resources : gmap str Z) : result TableResources * gmap str Z :=
  match entry update with
  | IrTable table_entry =>
    match NewResources ir_p4info update table_entry with
    | Err e => (Err e, current_batch_resources)
    | Die => (Die, current_batch_resources)
    | Ok new_resources =>
      match OldResources ir_p4info update entity_cache with
      | Err e => (Err e, current_batch_resources)
      | Die => (Die, current_batch_resources)
      | Ok old_resources =>
        let new_profile := new_resources ≫= action_profile in
        let actions_in_new_request :=
          match new_profile with Some p => number_of_actions p | None => 0 end in
        let weight_in_new_request :=
          match new_profile with Some p => wrapS 32 (total_weight p) | None => 0 end in
        let resources := ResourceChange new_resources old_resources in
        match action_profile resources with
        | None => (Ok resources, current_batch_resources)
        | Some profile =>
          match capacity_by_action_profile_name !! resources_profile_name profile with
          | None => (Err kNotFound, current_batch_resources)
          | Some current_capacity =>
            match CheckCapacity current_capacity actions_in_new_request weight_in_new_request
                    profile current_batch_resources with
            | (Ok _, batch) => (Ok resources, batch)
            | (Err e, batch) => (Err e, batch)
            | (Die, batch) => (Die, batch)
            end
          end
        end
      end
    end
  | _ => (Ok NoResources, current_batch_resources)
  end.

(** * What the functions compute *)

Lemma triple_eq (a b c a' b' c' : Z) : a = a' → b = b' → c = c' → (a, b, c) = (a', b', c').
Proof. congruence. Qed.

Lemma sum_actions_spec ws :
  sum_actions ws =
    (zlen ws, foldr Z.add 0 ws, foldr Z.max 0 ws).
Proof.
  unfold sum_actions.
  assert (∀ a t m, 0 ≤ m → fold_left (λ '(actions, total, max), λ w,
      (actions + 1, total + w, Z.max max w)) ws (a, t, m) =
    (a + zlen ws, t + foldr Z.add 0 ws, Z.max m (foldr Z.max 0 ws))) as Hacc.
  { induction ws as [|w ws IH]; intros a t m Hm; cbn [fold_left fold_right].
    - change (zlen (@nil Z)) with 0. apply triple_eq; lia.
    - rewrite IH by lia. rewrite zlen_cons. apply triple_eq; lia. }
  rewrite Hacc by lia.
  assert (0 ≤ foldr Z.max 0 ws) by (clear; induction ws; cbn; lia). apply triple_eq; lia.
Qed.

Lemma foldr_max_le ws b : 0 ≤ b → foldr Z.max 0 ws ≤ b ↔ ∀ w, w ∈ ws → w ≤ b.
Proof.
  intros Hb. induction ws as [|w ws IH]; cbn [fold_right].
  - split; [by intros _ w ?%elem_of_nil | lia].
  - rewrite Z.max_lub_iff, IH. setoid_rewrite elem_of_cons. naive_solver.
Qed.

(** The two quantities that are accounted: the actions' weights and their number. *)
Inductive measure := Weights | Members.

Definition quantity (m : measure) (p : ActionProfileResources) : Z :=
  match m with Weights => total_weight p | Members => number_of_actions p end.
Definition in_use (m : measure) (cap : ActionProfileResourceCapacity) : Z :=
  match m with Weights => current_total_weight cap | Members => current_total_members cap end.

(** The part of [r] that is about the profile [name]. *)
Definition share (m : measure) (name : str) (r : TableResources) : Z :=
  match action_profile r with
  | Some p => if bool_decide (resources_profile_name p = name) then quantity m p else 0
  | None => 0
  end.

(** What one cached entity uses of a profile. *)
Definition usage (m : measure) (p4info : IrP4Info) (name : str) (e : Entity) : Z :=
  match e with
  | kTableEntry t =>
    match GetResourceUsageForPiTableEntry p4info t with Ok r => share m name r | _ => 0 end
  | _ => 0
  end.

(** The limits an update must respect, with the weight as the code sees it. *)
Definition within_limits (cap : ActionProfileResourceCapacity) (actions weight : Z)
  (change : ActionProfileResources) (in_batch : Z) : Prop :=
  let size := profile_size (capacity_profile cap) in
  let group := max_group_size (capacity_profile cap) in
  match sum_of_members (capacity_profile cap) with
  | Some max_member_weight =>
    (group ≠ 0 → actions ≤ group) ∧
    (max_member_weight ≠ 0 → max_weight change ≤ max_member_weight) ∧
    (size ≠ 0 → current_total_members cap + in_batch + number_of_actions change ≤ size)
  | None =>
    (group ≠ 0 → weight ≤ group) ∧
    (size ≠ 0 → current_total_weight cap + in_batch + total_weight change ≤ size)
  end.

Lemma exceeds_false l v : exceeds (Some l) v = false ↔ (l ≠ 0 → v ≤ l).
Proof.
  unfold exceeds. destruct (Z.eqb_spec l 0), (Z.ltb_spec l v); cbn; split; try done; lia.
Qed.

Lemma exceeds_true l v : exceeds (Some l) v = true ↔ l ≠ 0 ∧ l < v.
Proof.
  unfold exceeds. destruct (Z.eqb_spec l 0), (Z.ltb_spec l v); cbn; split; try done; lia.
Qed.

Lemma exceeds_contra l v : l ≠ 0 ∧ l < v → (l ≠ 0 → v ≤ l) → False.
Proof. intros [H1 H2] H. specialize (H H1). lia. Qed.

(** Splits on the limit checks and settles each outcome. *)
Ltac check_limits :=
  repeat match goal with
  | |- context [exceeds ?l ?v] =>
    let E := fresh "E" in destruct (exceeds l v) eqn:E;
    [rewrite exceeds_true in E | rewrite exceeds_false in E]
  end;
  (split; [split; [intros ?; try discriminate; split_and?; assumption
                  |intros Hl; try reflexivity; exfalso;
                   repeat match type of Hl with _ ∧ _ => destruct Hl as [? Hl] end;
                   eapply exceeds_contra; eassumption]
          |split; [intros Hne; first [by destruct (Hne eq_refl) | by left | by right]
                  |intros ?; try discriminate; reflexivity]]).

Lemma CheckCapacity_spec cap actions weight change batch :
  let in_batch := default 0 (batch !! resources_profile_name change) in
  let '(r, batch') := CheckCapacity cap actions weight change batch in
  (r = Ok tt ↔ within_limits cap actions weight change in_batch) ∧
  (r ≠ Ok tt → r = Err kInvalidArgument ∨ r = Err kResourceExhausted) ∧
  (r = Ok tt → batch' = <[resources_profile_name change := in_batch]> batch).
Proof.
  cbv zeta. unfold CheckCapacity, within_limits, GetMaxMembersPerGroup, GetMaxWeightPerMember,
    GetMaxMembersForAllGroups, GetMaxWeightPerGroup, GetMaxWeightForAllGroups, UsesSumOfWeights,
    UsesSumOfMembers.
  destruct (sum_of_members (capacity_profile cap)) as [mw|].
  - rewrite bool_decide_eq_true_2 by eauto. change (default 0 (Some mw)) with mw. check_limits.
  - rewrite bool_decide_eq_false_2 by (by intros [? [=]]). cbn [negb]. check_limits.
Qed.

(** What an accepted update went through. *)
Definition capacity_accepts {A} (p4info : IrP4Info) (update : EntityUpdate A)
  (table_entry : IrTableEntry) (cache : gmap EntityKey Entity)
  (capacities : gmap str ActionProfileResourceCapacity) (batch : gmap str Z)
  (resources : TableResources) (batch' : gmap str Z) : Prop :=
  ∃ new old, NewResources p4info update table_entry = Ok new ∧
    OldResources p4info update cache = Ok old ∧ resources = ResourceChange new old ∧
    match action_profile resources with
    | None => batch' = batch
    | Some change =>
      let name := resources_profile_name change in
      let in_batch := default 0 (batch !! name) in
      let new_profile := new ≫= action_profile in
      ∃ cap, capacities !! name = Some cap ∧
        within_limits cap
          (match new_profile with Some p => number_of_actions p | None => 0 end)
          (match new_profile with Some p => wrapS 32 (total_weight p) | None => 0 end)
          change in_batch ∧
        batch' = <[name := in_batch]> batch
    end.

Lemma VerifyCapacity_Ok {A} p4info (update : EntityUpdate A) te cache capacities batch resources batch' :
  entry update = IrTable te →
  VerifyCapacityAndGetTableResourceChange p4info update cache capacities batch = (Ok resources, batch') ↔
  capacity_accepts p4info update te cache capacities batch resources batch'.
Proof.
  intros He. unfold VerifyCapacityAndGetTableResourceChange, capacity_accepts. rewrite He.
  destruct (NewResources p4info update te) as [new| |]; [|naive_solver..].
  destruct (OldResources p4info update cache) as [old| |]; [|naive_solver..].
  destruct (action_profile (ResourceChange new old)) as [change|] eqn:Hp.
  2:{ split; [intros [= <- <-]; exists new, old; by rewrite Hp |].
      intros (? & ? & [= <-] & [= <-] & -> & Hb). by rewrite Hp in Hb; subst. }
  destruct (capacities !! resources_profile_name change) as [cap|] eqn:Hcap.
  2:{ split; [done|]. intros (? & ? & [= <-] & [= <-] & -> & Hb). rewrite Hp in Hb.
      destruct Hb as (cap & Hcap' & _). congruence. }
  match goal with |- context [CheckCapacity cap ?a ?w change batch] =>
    pose proof (CheckCapacity_spec cap a w change batch) as Hs;
    destruct (CheckCapacity cap a w change batch) as [r b] end.
  destruct Hs as (Hiff & Herr & Hb). split.
  - destruct r as [[]|e|]; [|done..]. intros [= <- <-].
    exists new, old. split; [done|]. split; [done|]. split; [done|]. rewrite Hp.
    exists cap. split; [done|]. split; [by apply Hiff | by apply Hb].
  - intros (? & ? & [= <-] & [= <-] & -> & Hc). rewrite Hp in Hc.
    destruct Hc as (cap' & Hcap' & Hlim & ->). simplify_eq.
    apply Hiff in Hlim. subst r. by rewrite Hb.
Qed.

Lemma sum_of_sizes name ws :
  profile_resources name ws = mkActionProfileResources name (zlen ws) (foldr Z.add 0 ws) (foldr Z.max 0 ws).
Proof. unfold profile_resources. by rewrite sum_actions_spec. Qed.

(** The capacity check of an INSERT into a table whose action profile has a capacity record: the
    update is accepted exactly when the entry respects the profile's limits, a limit of 0 meaning
    none.  With sum-of-members semantics the number of actions is at most the maximal group size,
    no action's weight exceeds the maximal member weight, and the members in use, those
    of the batch so far and the new ones together are at most the profile's size; otherwise the
    group's weight, truncated to 32 bits as the code does, is at most the maximal group size and the
    total weights together are at most the profile's size.  The change recorded for the update
    is exactly what the entry uses, and a rejected update is an invalid argument or a resource
    exhaustion. *)
Theorem insert_capacity_check {A} (p4info : IrP4Info) (update : EntityUpdate A) (te : IrTableEntry)
    (cache : gmap EntityKey Entity) (capacities : gmap str ActionProfileResourceCapacity)
    (batch : gmap str Z) (table_def : IrTableDefinition) (profile_id : Z) (profile : ActionProfile)
    (cap : ActionProfileResourceCapacity) :
  entry update = IrTable te → update_type update = INSERT →
  tables_by_name p4info !! table_name te = Some table_def →
  action_profile_id table_def = Some profile_id →
  action_profiles_by_id p4info !! profile_id = Some profile →
  capacities !! profile_alias profile = Some cap →
  let ws := map Ir.weight_ (action_set te) in
  let total := foldr Z.add 0 ws in
  let in_batch := default 0 (batch !! profile_alias profile) in
  let limit l v := l = 0 ∨ v ≤ l in
  let accepts :=
    match sum_of_members (capacity_profile cap) with
    | Some max_member_weight =>
      limit (max_group_size (capacity_profile cap)) (zlen ws) ∧
      limit max_member_weight (foldr Z.max 0 ws) ∧
      limit (profile_size (capacity_profile cap)) (current_total_members cap + in_batch + zlen ws)
    | None =>
      limit (max_group_size (capacity_profile cap)) (wrapS 32 total) ∧
      limit (profile_size (capacity_profile cap)) (current_total_weight cap + in_batch + total)
    end in
  let '(r, _) := VerifyCapacityAndGetTableResourceChange p4info update cache capacities batch in
  (accepts → r = Ok (mkTableResources (table_name te)
     (Some (mkActionProfileResources (profile_alias profile) (zlen ws) total (foldr Z.max 0 ws))))) ∧
  (¬ accepts → r = Err kInvalidArgument ∨ r = Err kResourceExhausted).
Proof.
  intros He Ht Htable Hid Hprofile Hcap ws total in_batch limit accepts.
  unfold VerifyCapacityAndGetTableResourceChange, NewResources, OldResources,
    GetResourceUsageForIrTableEntry, GetActionProfileName.
  rewrite He, Ht, Htable, Hid, Hprofile. cbn [bool_decide orb].
  rewrite (bool_decide_eq_true_2 (INSERT = INSERT)) by done. cbn [orb mbind result_bind].
  rewrite !bool_decide_eq_false_2 by done. cbn [orb]. rewrite sum_of_sizes. fold ws. fold total.
  cbn [mbind option_bind action_profile ResourceChange resources_profile_name]. rewrite Hcap.
  match goal with |- context [CheckCapacity cap ?a ?w ?change batch] =>
    pose proof (CheckCapacity_spec cap a w change batch) as Hs;
    destruct (CheckCapacity cap a w change batch) as [r b] end.
  destruct Hs as (Hiff & Herr & _). cbn [resources_profile_name] in Hiff. fold in_batch in Hiff.
  assert (accepts ↔ r = Ok tt) as Hacc.
  { rewrite Hiff. unfold accepts, within_limits. cbn [number_of_actions total_weight max_weight].
    assert (∀ l v, limit l v ↔ (l ≠ 0 → v ≤ l)) as Hl
      by (intros l v; unfold limit; destruct (decide (l = 0)); tauto).
    destruct (sum_of_members (capacity_profile cap)); by rewrite !Hl. }
  destruct r as [[]|e|].
  - split; [done|]. intros Ha. by destruct Ha; apply Hacc.
  - split; [by intros Ha%Hacc|]. intros _. destruct (Herr ltac:(done)) as [[= ->]|[= ->]]; auto.
  - by destruct (Herr ltac:(done)).
Qed.

(** A table with one action profile, for the examples: groups of weight at most 10. *)
Definition example_profile : ActionProfile := mkActionProfile (named 7 $"wcmp") [1] 0 10 None.
Definition example_action : IrActionDefinition := plain_action 1 $"nop".
Definition example_table (role : str) : IrTableDefinition :=
  plain_table 1 $"wcmp_group" role [mkIrActionReference 1 example_action 1] (Some 7) true.
Definition example_p4info (role : str) : IrP4Info :=
  one_table (example_table role) [example_action] [example_profile].
Definition example_group (priority : Z) (weights : list Z) : IrTableEntry :=
  Ir.mkEntry $"wcmp_group" [] priority
    (Ir.kActionSet (map (λ w, Ir.mkInvocation (Ir.mkAction $"nop" []) w []) weights)) None None None [].
Definition example_insert (weights : list Z) : EntityUpdate () :=
  mkEntityUpdate (IrTable (example_group 1 weights)) INSERT (kOtherEntity []) (KeyPacketReplication (mkPacketReplicationEntryKey 0 0)) NoResources tt 0.
Definition example_capacities : gmap str ActionProfileResourceCapacity :=
  {[ $"wcmp" := GetActionProfileResourceCapacity example_profile ]}.

Lemma insert_capacity_check_witness :
  fst (VerifyCapacityAndGetTableResourceChange (example_p4info []) (example_insert [3; 4]) ∅
         example_capacities ∅) =
    Ok (mkTableResources $"wcmp_group" (Some (mkActionProfileResources $"wcmp" 2 7 4))).
Proof.
  pose proof (insert_capacity_check (example_p4info []) (example_insert [3; 4])
    (example_group 1 [3; 4]) ∅
    example_capacities ∅ (example_table []) 7 example_profile
    (GetActionProfileResourceCapacity example_profile) eq_refl eq_refl eq_refl eq_refl eq_refl
    eq_refl) as Hspec.
  vm_compute in Hspec. vm_compute. apply Hspec. split; [by right | by left].
Defined.

(** A group whose weight is a multiple of 2^32 passes the check of a maximal group weight of 10. *)
Theorem group_weight_truncated :
  fst (VerifyCapacityAndGetTableResourceChange (example_p4info [])
         (example_insert [2 ^ 30; 2 ^ 30; 2 ^ 30; 2 ^ 30]) ∅ example_capacities ∅) =
    Ok (mkTableResources $"wcmp_group" (Some (mkActionProfileResources $"wcmp" 4 (2 ^ 32) (2 ^ 30)))).
Proof. vm_compute. reflexivity. Qed.
