(* ===== verification/AppDb.v ===== *)
(** p4rt_app/sonic: [response_handler.cc], the write path of [app_db_manager.cc] and the
    [PerformAppDb...Update] functions of the VRF and VLAN translations.  Updates are sent to the
    OrchAgent, over ZMQ for the P4RT table and through Redis for the others; its responses are
    matched with the updates, failed Redis updates are rolled back, and updates after a failure
    are not attempted.  The adapters to swss (Redis, ZMQ) are the environment: what was sent is
    logged, what will be received is an input stream. *)
From S2P Require Import Prelude.

(** * Data *)

(** [pdpi::IrUpdateStatus]; the code [None] is OK. *)
Record IrUpdateStatus := mkStatus { code : option StatusCode; message : str }.

Definition OkStatus : IrUpdateStatus := mkStatus None [].

(** utils/status_utility.cc *)
Definition GetIrUpdateStatus (c : option StatusCode) (msg : str) : IrUpdateStatus :=
  match c with
  | Some c => mkStatus (Some c) msg
  | None => OkStatus
  end.

Inductive AppDbTableType := P4RT | VRF_TABLE | VLAN_TABLE | VLAN_MEMBER_TABLE.

#[global] Instance AppDbTableType_eq_dec : EqDecision AppDbTableType.
Proof. solve_decision. Defined.

Abbreviation FieldValues := (list (str * str)).

Record KeyOpFieldsValues := mkKfv {
  kfvKey : str;
  kfvOp : str;
  kfvFieldsValues : FieldValues;
}.

Record AppDbUpdate := mkAppDbUpdate { table : AppDbTableType; update : KeyOpFieldsValues }.

(** A notification of the OrchAgent: status string, key, values. *)
Record Notification := mkNotification {
  status_str : str;
  actual_key : str;
  value_tuples : FieldValues;
}.

(** What the OrchAgent does while the code waits: a notification ([None] is a timeout), and the
    databases as it leaves them. *)
Record Arrival := mkArrival {
  notification : option Notification;
  new_app_db : gmap str FieldValues;
  new_app_state_db : gmap str FieldValues;
}.

(** A Redis table: the commands produced, its contents in APPL_DB and APPL_STATE_DB, the
    notifications already queued and those that will arrive. *)
Record NotifiedTable := mkNotifiedTable {
  produced : list KeyOpFieldsValues;
  app_db : gmap str FieldValues;
  app_state_db : gmap str FieldValues;
  pending : list Notification;
  incoming : list Arrival;
}.

(** The ZMQ channel of the P4RT table: batches sent, replies to come (database, table, tuples). *)
Record ZmqChannel := mkZmq {
  zmq_sent : list (list KeyOpFieldsValues);
  zmq_replies : list (option (str * str * list KeyOpFieldsValues));
}.

Record AppDbWorld := mkAppDbWorld {
  p4rt_channel : ZmqChannel;
  vrf_table : NotifiedTable;
  vlan_table : NotifiedTable;
  vlan_member_table : NotifiedTable;
}.

(** [absl::btree_map<std::string, V>]: an association list sorted by key. *)
Section btree.
Context {V : Type}.

(** [operator[] =]. *)
Fixpoint bt_set (key : str) (v : V) (m : list (str * V)) : list (str * V) :=
  match m with
  | [] => [(key, v)]
  | (k, x) :: m' =>
    if str_ltb key k then (key, v) :: m
    else if str_ltb k key then (k, x) :: bt_set key v m'
    else (k, v) :: m'
  end.

Fixpoint bt_find (key : str) (m : list (str * V)) : option V :=
  match m with
  | [] => None
  | (k, x) :: m => if bool_decide (k = key) then Some x else bt_find key m
  end.

(** [insert]: [None] when the key is present. *)
Definition bt_insert (key : str) (v : V) (m : list (str * V)) : option (list (str * V)) :=
  match bt_find key m with Some _ => None | None => Some (bt_set key v m) end.

Definition bt_sorted (m : list (str * V)) : Prop :=
  StronglySorted (λ a b, str_ltb (fst a) (fst b) = true) m.
End btree.

(** * response_handler.cc *)

(** The swss status codes the code distinguishes; [SWSS_RC_OTHER] stands for the rest. *)
Inductive SwssStatusCode :=
  | SWSS_RC_SUCCESS | SWSS_RC_UNKNOWN | SWSS_RC_IN_USE | SWSS_RC_INVALID_PARAM
  | SWSS_RC_DEADLINE_EXCEEDED | SWSS_RC_NOT_FOUND | SWSS_RC_EXISTS | SWSS_RC_PERMISSION_DENIED
  | SWSS_RC_FULL | SWSS_RC_UNIMPLEMENTED | SWSS_RC_INTERNAL | SWSS_RC_NO_MEMORY
  | SWSS_RC_UNAVAIL | SWSS_RC_NOT_EXECUTED | SWSS_RC_OTHER.

Inductive response_error := MissingResponse (key : str) | ExtraResponse (key : str).

Section response_handler.
(** swss: parsing of status strings; absl: escaping of messages. *)
Context (strToStatusCode : str → SwssStatusCode) (CHexEscape : str → str).

Definition SwssToP4RTErrorCode (status_str : str) : option StatusCode :=
  match strToStatusCode status_str with
  | SWSS_RC_SUCCESS => None
  | SWSS_RC_UNKNOWN => Some kUnknown
  | SWSS_RC_IN_USE | SWSS_RC_INVALID_PARAM => Some kInvalidArgument
  | SWSS_RC_DEADLINE_EXCEEDED => Some kDeadlineExceeded
  | SWSS_RC_NOT_FOUND => Some kNotFound
  | SWSS_RC_EXISTS => Some kAlreadyExists
  | SWSS_RC_PERMISSION_DENIED => Some kPermissionDenied
  | SWSS_RC_FULL => Some kResourceExhausted
  | SWSS_RC_UNIMPLEMENTED => Some kUnimplemented
  | SWSS_RC_INTERNAL | SWSS_RC_NO_MEMORY => Some kInternal
  | SWSS_RC_UNAVAIL => Some kUnavailable
  | SWSS_RC_NOT_EXECUTED => Some kAborted
  | SWSS_RC_OTHER => Some kUnknown
  end.

Fixpoint zmq_responses_loop (kfvs : list KeyOpFieldsValues) (key_to_status_map : list (str * IrUpdateStatus))
  : result (list (str * IrUpdateStatus)) :=
  match kfvs with
  | [] => Ok key_to_status_map
  | kfv :: kfvs =>
    match kfvFieldsValues kfv with
    | [] => Err kInternal
    | first_tuple :: _ =>
      let result_ := mkStatus (SwssToP4RTErrorCode (fst first_tuple)) (CHexEscape (snd first_tuple)) in
      match bt_insert (kfvKey kfv) result_ key_to_status_map with
      | None => Err kInternal
      | Some m => zmq_responses_loop kfvs m
      end
    end
  end.

(** [producer.wait] takes the next reply; no reply is a timeout. *)
Definition GetZmqResponses (expected_response_count : Z) (channel : ZmqChannel)
  : result (list (str * IrUpdateStatus)) * ZmqChannel :=
  if expected_response_count =? 0 then (Ok [], channel) else
  match zmq_replies channel with
  | [] => (Err kInternal, channel)
  | None :: replies => (Err kInternal, mkZmq (zmq_sent channel) replies)
  | Some (db_name, table_name, kfvs) :: replies =>
    let channel := mkZmq (zmq_sent channel) replies in
    if negb (zlen kfvs =? expected_response_count) then (Err kInternal, channel)
    else if negb (bool_decide (db_name = $"APPL_DB")) || negb (bool_decide (table_name = $"P4RT_TABLE"))
    then (Err kInternal, channel)
    else (zmq_responses_loop kfvs [], channel)
  end.

Definition DrainNotifications (t : NotifiedTable) : NotifiedTable :=
  mkNotifiedTable (produced t) (app_db t) (app_state_db t) [] (incoming t).

Definition WaitForNotificationAndPop (t : NotifiedTable) : option Notification * NotifiedTable :=
  match pending t with
  | n :: rest => (Some n, mkNotifiedTable (produced t) (app_db t) (app_state_db t) rest (incoming t))
  | [] =>
    match incoming t with
    | a :: rest =>
      (notification a, mkNotifiedTable (produced t) (new_app_db a) (new_app_state_db a) [] rest)
    | [] => (None, t)
    end
  end.

Fixpoint GetAppDbResponses (expected_response_count : nat) (t : NotifiedTable)
  (key_to_status_map : list (str * IrUpdateStatus))
  : result (list (str * IrUpdateStatus)) * NotifiedTable :=
  match expected_response_count with
  | O => (Ok key_to_status_map, t)
  | S count =>
    match WaitForNotificationAndPop t with
    | (None, t) => (Err kInternal, t)
    | (Some n, t) =>
      match value_tuples n with
      | [] => (Err kInternal, t)
      | first_tuple :: _ =>
        if negb (bool_decide (fst first_tuple = $"err_str")) then (Err kInternal, t) else
        let result_ := mkStatus (SwssToP4RTErrorCode (status_str n))
                                (CHexEscape (snd first_tuple)) in
        match bt_insert (actual_key n) result_ key_to_status_map with
        | None => (Err kInternal, t)
        | Some m => GetAppDbResponses count t m
        end
      end
    end
  end.

(** A missing key of the state database reads as no values. *)
Definition RestoreApplDb (t : NotifiedTable) (key : str) : NotifiedTable :=
  let values := default [] (app_state_db t !! key) in
  let app_db_ :=
    match values with
    | [] => delete key (app_db t)
    | _ => <[key := values]> (delete key (app_db t))
    end in
  mkNotifiedTable (produced t) app_db_ (app_state_db t) (pending t) (incoming t).

(** The two-iterator loop over the expected and the received keys, followed by the two loops
    over what is left.  A status object is the index of a cell of [mem]; [t] is the table to
    roll back in, if any. *)
Fixpoint match_responses (fuel : nat) (expected : list (str * option nat))
  (responses : list (str * IrUpdateStatus)) (mem : list IrUpdateStatus) (t : option NotifiedTable)
  (error_messages : list response_error)
  : result (list response_error) * list IrUpdateStatus * option NotifiedTable :=
  match fuel with
  | O => (Die, mem, t)
  | S fuel =>
    match expected, responses with
    | [], [] => (Ok error_messages, mem, t)
    | (expected_key, _) :: expected, [] =>
      match_responses fuel expected [] mem t (error_messages ++ [MissingResponse expected_key])
    | [], (response_key, _) :: responses =>
      match_responses fuel [] responses mem t (error_messages ++ [ExtraResponse response_key])
    | (expected_key, expected_status) :: expected', (response_key, response_status) :: responses' =>
      if str_ltb expected_key response_key then
        match_responses fuel expected' responses mem t
          (error_messages ++ [MissingResponse expected_key])
      else if str_ltb response_key expected_key then
        match_responses fuel expected responses' mem t
          (error_messages ++ [ExtraResponse response_key])
      else
        match expected_status with
        | None => (Err kInternal, mem, t)
        | Some i =>
          match code response_status with
          | Some _ =>
            match_responses fuel expected' responses' (<[i := response_status]> mem)
              ((λ t, RestoreApplDb t response_key) <$> t) error_messages
          | None => match_responses fuel expected' responses' mem t error_messages
          end
        end
    end
  end.

(** Every round consumes an entry, so the number of entries plus one is enough fuel. *)
Definition UpdateResponsesAndRestoreState (key_to_status_map : list (str * option nat))
  (response_status_map : list (str * IrUpdateStatus)) (mem : list IrUpdateStatus)
  (t : option NotifiedTable) : result () * list IrUpdateStatus * option NotifiedTable :=
  match match_responses (S (length key_to_status_map + length response_status_map))
          key_to_status_map response_status_map mem t [] with
  | (Ok [], mem, t) => (Ok tt, mem, t)
  | (Ok _, mem, t) => (Err kInternal, mem, t)
  | (Err e, mem, t) => (Err e, mem, t)
  | (Die, mem, t) => (Die, mem, t)
  end.

Definition GetAndProcessResponseNotification (t : NotifiedTable)
  (key_to_status_map : list (str * option nat)) (mem : list IrUpdateStatus)
  : result () * list IrUpdateStatus * NotifiedTable :=
  match GetAppDbResponses (length key_to_status_map) t [] with
  | (Ok response_status_map, t) =>
    match UpdateResponsesAndRestoreState key_to_status_map response_status_map mem (Some t) with
    | (r, mem, t') => (r, mem, default t t')
    end
  | (Err e, t) => (Err e, mem, t)
  | (Die, t) => (Die, mem, t)
  end.

(** The overload with one key and a local status object. *)
Definition GetAndProcessResponseNotificationForKey (t : NotifiedTable) (key : str)
  : result IrUpdateStatus * NotifiedTable :=
  match GetAndProcessResponseNotification t [(key, Some 0%nat)] [OkStatus] with
  | (Ok _, local_status :: _, t) => (Ok local_status, t)
  | (Ok _, [], t) => (Die, t)
  | (Err e, _, t) => (Err e, t)
  | (Die, _, t) => (Die, t)
  end.

Definition GetAndProcessResponseNotificationWithoutRevertingState (channel : ZmqChannel)
  (key_to_status_map : list (str * option nat)) (mem : list IrUpdateStatus)
  : result () * list IrUpdateStatus * ZmqChannel :=
  match GetZmqResponses (zlen key_to_status_map) channel with
  | (Ok response_status_map, channel) =>
    match UpdateResponsesAndRestoreState key_to_status_map response_status_map mem None with
    | (r, mem, _) => (r, mem, channel)
    end
  | (Err e, channel) => (Err e, mem, channel)
  | (Die, channel) => (Die, mem, channel)
  end.

(** * vrf_entry_translation.cc and vlan_entry_translation.cc: three functions with one body *)

Definition produce (kfv : KeyOpFieldsValues) (t : NotifiedTable) : NotifiedTable :=
  mkNotifiedTable (produced t ++ [kfv]) (app_db t) (app_state_db t) (pending t) (incoming t).

Definition PerformAppDbRedisUpdate (t : NotifiedTable) (kfv : KeyOpFieldsValues)
  : result IrUpdateStatus * NotifiedTable :=
  let t := DrainNotifications t in
  if bool_decide (kfvOp kfv = $"SET") || bool_decide (kfvOp kfv = $"DEL")
  then GetAndProcessResponseNotificationForKey (produce kfv t) (kfvKey kfv)
  else (Err kInvalidArgument, t).

Definition PerformAppDbVrfUpdate (w : AppDbWorld) (kfv : KeyOpFieldsValues)
  : result IrUpdateStatus * AppDbWorld :=
  let '(r, t) := PerformAppDbRedisUpdate (vrf_table w) kfv in
  (r, mkAppDbWorld (p4rt_channel w) t (vlan_table w) (vlan_member_table w)).
Definition PerformAppDbVlanUpdate (w : AppDbWorld) (kfv : KeyOpFieldsValues)
  : result IrUpdateStatus * AppDbWorld :=
  let '(r, t) := PerformAppDbRedisUpdate (vlan_table w) kfv in
  (r, mkAppDbWorld (p4rt_channel w) (vrf_table w) t (vlan_member_table w)).
Definition PerformAppDbVlanMemberUpdate (w : AppDbWorld) (kfv : KeyOpFieldsValues)
  : result IrUpdateStatus * AppDbWorld :=
  let '(r, t) := PerformAppDbRedisUpdate (vlan_member_table w) kfv in
  (r, mkAppDbWorld (p4rt_channel w) (vrf_table w) (vlan_table w) t).

(** * app_db_manager.cc *)

(** [results.at(key)->code()] for every update: throws on a key that is not there. *)
Fixpoint all_ok (updates : list KeyOpFieldsValues) (results : list (str * option nat))
  (mem : list IrUpdateStatus) : result bool :=
  match updates with
  | [] => Ok true
  | kfv :: updates =>
    match bt_find (kfvKey kfv) results with
    | Some (Some i) =>
      match mem !! i with
      | Some st => match code st with Some _ => Ok false | None => all_ok updates results mem end
      | None => Die
      end
    | _ => Die
    end
  end.

Definition PerformAppDbP4rtUpdates (w : AppDbWorld) (updates : list KeyOpFieldsValues)
  (results : list (str * option nat)) (mem : list IrUpdateStatus)
  : result bool * list IrUpdateStatus * AppDbWorld :=
  if bool_decide (length updates = 0%nat) then (Ok true, mem, w) else
  let channel := mkZmq (zmq_sent (p4rt_channel w) ++ [updates]) (zmq_replies (p4rt_channel w)) in
  match GetAndProcessResponseNotificationWithoutRevertingState channel results mem with
  | (r, mem, channel) =>
    let w := mkAppDbWorld channel (vrf_table w) (vlan_table w) (vlan_member_table w) in
    match r with
    | Ok _ => (all_ok updates results mem, mem, w)
    | Err e => (Err e, mem, w)
    | Die => (Die, mem, w)
    end
  end.

Definition Aborted : IrUpdateStatus := GetIrUpdateStatus (Some kAborted) $"Not attempted".

(** The switch over the table of an update that is not a P4RT update. *)
Definition PerformOther (w : AppDbWorld) (u : AppDbUpdate) (result_ : IrUpdateStatus)
  : result IrUpdateStatus * AppDbWorld :=
  match table u with
  | VLAN_TABLE => PerformAppDbVlanUpdate w (update u)
  | VLAN_MEMBER_TABLE => PerformAppDbVlanMemberUpdate w (update u)
  | VRF_TABLE => PerformAppDbVrfUpdate w (update u)
  | P4RT => (Ok result_, w)
  end.

Fixpoint updates_loop (updates_and_results : list (AppDbUpdate * nat)) (failed : bool)
  (p4rt_updates : list KeyOpFieldsValues) (p4rt_results : list (str * option nat))
  (w : AppDbWorld) (mem : list IrUpdateStatus)
  : result bool * list IrUpdateStatus * AppDbWorld :=
  match updates_and_results with
  | [] =>
    if failed then (Ok false, mem, w)
    else PerformAppDbP4rtUpdates w p4rt_updates p4rt_results mem
  | (u, result_) :: rest =>
    if failed then updates_loop rest failed p4rt_updates p4rt_results w (<[result_ := Aborted]> mem)
    else if bool_decide (table u = P4RT) then
      updates_loop rest failed (p4rt_updates ++ [update u])
        (bt_set (kfvKey (update u)) (Some result_) p4rt_results) w mem
    else
      match PerformAppDbP4rtUpdates w p4rt_updates p4rt_results mem with
      | (Err e, mem, w) => (Err e, mem, w)
      | (Die, mem, w) => (Die, mem, w)
      | (Ok false, mem, w) => updates_loop rest true [] [] w (<[result_ := Aborted]> mem)
      | (Ok true, mem, w) =>
        match PerformOther w u (default OkStatus (mem !! result_)) with
        | (Ok st, w) =>
          updates_loop rest (bool_decide (code st ≠ None)) [] [] w (<[result_ := st]> mem)
        | (Err e, w) => (Err e, mem, w)
        | (Die, w) => (Die, mem, w)
        end
      end
  end.

Definition PerformAppDbUpdates (w : AppDbWorld) (updates_and_results : list (AppDbUpdate * nat))
  (mem : list IrUpdateStatus) : result bool * list IrUpdateStatus * AppDbWorld :=
  updates_loop updates_and_results false [] [] w mem.
End response_handler.


(** [operator==] on updates: the fields of the right side are looked up among the left side's. *)
Definition AppDbUpdate_eqb (lhs rhs : AppDbUpdate) : bool :=
  let values l : gmap str str := fold_left (λ m '(field, value), <[field := value]> m) l ∅ in
  if negb (bool_decide (table lhs = table rhs)) then false
  else if negb (bool_decide (kfvKey (update lhs) = kfvKey (update rhs))) then false
  else if negb (bool_decide (kfvOp (update lhs) = kfvOp (update rhs))) then false
  else if negb (zlen (kfvFieldsValues (update lhs)) =? zlen (kfvFieldsValues (update rhs))) then false
  else
    let lhs_values := values (kfvFieldsValues (update lhs)) in
    forallb (λ '(field, value), bool_decide (lhs_values !! field = Some value))
      (kfvFieldsValues (update rhs)).

(** * Matching responses with updates *)

(** What joining by lookup gives: the failed responses with the cells that wait for them. *)
Definition failures (expected : list (str * option nat)) (responses : list (str * IrUpdateStatus))
  : list (str * nat * IrUpdateStatus) :=
  omap (λ '(k, p),
    i ← p; st ← bt_find k responses;
    match code st with Some _ => Some (k, i, st) | None => None end) expected.

Definition write_failures (fs : list (str * nat * IrUpdateStatus)) (mem : list IrUpdateStatus)
  : list IrUpdateStatus :=
  fold_left (λ mem '(_, i, st), <[i := st]> mem) fs mem.

Definition restore_failures (fs : list (str * nat * IrUpdateStatus)) (t : NotifiedTable)
  : NotifiedTable :=
  fold_left (λ t '(k, _, _), RestoreApplDb t k) fs t.

Section btree_lemmas.
Context {V : Type}.
Implicit Types (m : list (str * V)) (k : str).

Lemma bt_sorted_inv k x m :
  bt_sorted ((k, x) :: m) → bt_sorted m ∧ ∀ k' y, (k', y) ∈ m → str_ltb k k' = true.
Proof.
  intros [Hm Hall]%StronglySorted_inv. split; [done|]. intros k' y Hin.
  rewrite Forall_forall in Hall. apply (Hall _ Hin).
Qed.

Lemma bt_find_elem k x m : bt_find k m = Some x → (k, x) ∈ m.
Proof.
  induction m as [|[k' y] m IH]; [done|]. cbn [bt_find].
  case_bool_decide; [intros [= ->]; subst; by left | intros; right; auto].
Qed.

Lemma bt_find_None k m : bt_find k m = None ↔ ∀ x, (k, x) ∉ m.
Proof.
  induction m as [|[k' y] m IH]; cbn [bt_find]; [split; [by intros _ x ?%elem_of_nil | done]|].
  case_bool_decide; subst.
  - split; [done|]. intros H. destruct (H y). by left.
  - rewrite IH. setoid_rewrite elem_of_cons. naive_solver.
Qed.

Lemma bt_find_sorted k x m : bt_sorted m → bt_find k m = Some x ↔ (k, x) ∈ m.
Proof.
  intros Hm. split; [apply bt_find_elem|]. revert Hm.
  induction m as [|[k' y] m IH]; intros Hm Hin; [by apply elem_of_nil in Hin|].
  apply bt_sorted_inv in Hm as [Hm Hlt]. cbn [bt_find].
  apply elem_of_cons in Hin as [[= -> ->]|Hin]; [by rewrite bool_decide_eq_true_2|].
  rewrite bool_decide_eq_false_2; [auto|]. intros <-.
  specialize (Hlt _ _ Hin). by rewrite str_ltb_irrefl in Hlt.
Qed.

Lemma bt_find_head_lt k k' x m :
  bt_sorted ((k', x) :: m) → str_ltb k k' = true → bt_find k ((k', x) :: m) = None.
Proof.
  intros [_ Hlt]%bt_sorted_inv Hk. apply bt_find_None. intros y [[= -> _]|Hin]%elem_of_cons.
  - by rewrite str_ltb_irrefl in Hk.
  - pose proof (str_ltb_trans _ _ _ Hk (Hlt _ _ Hin)) as H. by rewrite str_ltb_irrefl in H.
Qed.

Lemma bt_set_elem k x m k' y :
  (k', y) ∈ bt_set k x m → (k', y) = (k, x) ∨ (k', y) ∈ m.
Proof.
  induction m as [|[k0 z] m IH]; cbn [bt_set].
  - intros ?%list_elem_of_singleton. by left.
  - destruct (str_ltb k k0) eqn:H1; [|destruct (str_ltb k0 k) eqn:H2]; rewrite !elem_of_cons;
      [tauto..|]. rewrite (str_ltb_eq k k0) by done. tauto.
Qed.

Lemma bt_set_sorted k x m : bt_sorted m → bt_sorted (bt_set k x m).
Proof.
  induction m as [|[k0 z] m IH]; intros Hm; cbn [bt_set]; [repeat constructor|].
  destruct (bt_sorted_inv _ _ _ Hm) as [Hm' Hlt].
  destruct (str_ltb k k0) eqn:H1; [|destruct (str_ltb k0 k) eqn:H2].
  - constructor; [done|]. apply Forall_forall. intros [k1 y] [[= -> ->]|Hin]%elem_of_cons; [done|].
    apply (str_ltb_trans _ _ _ H1 (Hlt _ _ Hin)).
  - constructor; [by apply IH|]. apply Forall_forall. intros [k1 y] Hin.
    apply bt_set_elem in Hin as [[= -> ->]|Hin]; [done | by apply (Hlt _ y)].
  - pose proof (str_ltb_eq k k0 H1 H2); subst k0. constructor; [done|]. apply Forall_forall. intros [k1 y] Hin. apply (Hlt _ _ Hin).
Qed.

Lemma bt_set_find k x m : bt_find k (bt_set k x m) = Some x.
Proof.
  induction m as [|[k0 z] m IH]; cbn [bt_set]; [cbn [bt_find]; by rewrite bool_decide_eq_true_2|].
  destruct (str_ltb k k0) eqn:H1; [|destruct (str_ltb k0 k) eqn:H2]; cbn [bt_find].
  - by rewrite bool_decide_eq_true_2.
  - rewrite bool_decide_eq_false_2; [done|]. intros ->. by rewrite str_ltb_irrefl in H2.
  - by rewrite (str_ltb_eq k k0), bool_decide_eq_true_2.
Qed.

Lemma bt_set_find_ne k x m k' : k' ≠ k → bt_find k' (bt_set k x m) = bt_find k' m.
Proof.
  intros Hne. induction m as [|[k0 z] m IH]; cbn [bt_set bt_find];
    [by rewrite bool_decide_eq_false_2|].
  destruct (str_ltb k k0) eqn:H1; [|destruct (str_ltb k0 k) eqn:H2]; cbn [bt_find].
  - by rewrite (bool_decide_eq_false_2 (k = k')).
  - by rewrite IH.
  - pose proof (str_ltb_eq k k0 H1 H2); subst k0. by rewrite !bool_decide_eq_false_2.
Qed.
End btree_lemmas.

Lemma failures_skip e k st r :
  (∀ k' p, (k', p) ∈ e → k' ≠ k) → failures e ((k, st) :: r) = failures e r.
Proof.
  intros Hne. unfold failures. induction e as [|[k' p] e IH]; [done|].
  cbn [omap list_omap]. rewrite IH by (intros ? p' Hin; apply (Hne _ p'); by right).
  cbn [bt_find]. rewrite bool_decide_eq_false_2; [done|].
  intros ->. by apply (Hne k' p); [left|].
Qed.

Lemma failures_missing k p e r : bt_find k r = None → failures ((k, p) :: e) r = failures e r.
Proof. intros Hr. unfold failures. cbn [omap list_omap]. rewrite Hr. by destruct p. Qed.

Lemma match_responses_spec fuel e r mem t errs :
  bt_sorted e → bt_sorted r → Forall (λ kp, is_Some (snd kp)) e → (length e + length r < fuel)%nat →
  ∃ errs', match_responses fuel e r mem t errs =
      (Ok (errs ++ errs'), write_failures (failures e r) mem,
       restore_failures (failures e r) <$> t) ∧
    (errs' = [] ↔ map fst e = map fst r).
Proof.
  assert (∀ x : option NotifiedTable, restore_failures [] <$> x = x) as Hid by (by intros []).
  revert e r mem t errs. induction fuel as [|fuel IH]; intros e r mem t errs He Hr Hp Hlen; [lia|].
  destruct e as [|[ek ep] e], r as [|[rk rs] r]; cbn [match_responses].
  - exists []. rewrite app_nil_r. cbn. by rewrite Hid.
  - destruct (bt_sorted_inv _ _ _ Hr) as [Hr' _].
    destruct (IH [] r mem t (errs ++ [ExtraResponse rk])) as (errs' & -> & _); auto.
    { cbn in *. lia. }
    exists (ExtraResponse rk :: errs'). by rewrite <-app_assoc.
  - destruct (bt_sorted_inv _ _ _ He) as [He' _]. apply Forall_cons in Hp as [_ Hp].
    destruct (IH e [] mem t (errs ++ [MissingResponse ek])) as (errs' & -> & _); auto.
    { cbn in *. lia. }
    exists (MissingResponse ek :: errs'). rewrite <-app_assoc, failures_missing by done. done.
  - destruct (bt_sorted_inv _ _ _ He) as [He' Helt], (bt_sorted_inv _ _ _ Hr) as [Hr' Hrlt].
    pose proof Hp as [Hep Hp']%Forall_cons. cbn [length] in Hlen.
    destruct (str_ltb ek rk) eqn:H1; [|destruct (str_ltb rk ek) eqn:H2].
    + destruct (IH e ((rk, rs) :: r) mem t (errs ++ [MissingResponse ek])) as (errs' & -> & _); auto.
      { cbn [length]. lia. }
      exists (MissingResponse ek :: errs').
      rewrite <-app_assoc, failures_missing by (by apply bt_find_head_lt). split; [done|].
      split; [done|]. cbn. intros [= ->]. by rewrite str_ltb_irrefl in H1.
    + destruct (IH ((ek, ep) :: e) r mem t (errs ++ [ExtraResponse rk])) as (errs' & -> & _); auto.
      { cbn [length]. lia. }
      exists (ExtraResponse rk :: errs'). rewrite <-app_assoc, failures_skip.
      * split; [done|]. split; [done|]. cbn. intros [= ->]. by rewrite str_ltb_irrefl in H2.
      * intros k' p Hin ->. apply elem_of_cons in Hin as [[= -> ->]|Hin].
        -- by rewrite str_ltb_irrefl in H2.
        -- pose proof (str_ltb_trans _ _ _ H2 (Helt _ _ Hin)) as H. by rewrite str_ltb_irrefl in H.
    + pose proof (str_ltb_eq _ _ H1 H2); subst rk. cbn in Hep. destruct Hep as [i ->].
      assert (failures e ((ek, rs) :: r) = failures e r) as Hskip.
      { apply failures_skip. intros k' p Hin ->. specialize (Helt _ _ Hin).
        by rewrite str_ltb_irrefl in Helt. }
      assert (failures ((ek, Some i) :: e) ((ek, rs) :: r) =
        match code rs with Some _ => (ek, i, rs) :: failures e r | None => failures e r end) as ->.
      { rewrite <-Hskip. unfold failures. cbn [omap list_omap bt_find].
        rewrite bool_decide_eq_true_2 by done. cbn. by destruct (code rs). }
      destruct (code rs) eqn:Hcode.
      * destruct (IH e r (<[i:=rs]> mem) ((λ t, RestoreApplDb t ek) <$> t) errs)
          as (errs' & -> & Herrs); auto; [lia|].
        exists errs'. split; [by destruct t|]. rewrite Herrs. cbn. split; congruence.
      * destruct (IH e r mem t errs) as (errs' & -> & Herrs); auto; [lia|].
        exists errs'. split; [done|]. rewrite Herrs. cbn. split; congruence.
Qed.

Lemma failures_elem e r k i st :
  (k, i, st) ∈ failures e r ↔ (k, Some i) ∈ e ∧ bt_find k r = Some st ∧ code st ≠ None.
Proof.
  unfold failures. rewrite list_elem_of_omap. split.
  - intros ([k' p] & Hin & Heq). destruct p as [i'|]; [|done]. cbn in Heq.
    destruct (bt_find k' r) as [st'|] eqn:Hf; [|done]. cbn in Heq.
    destruct (code st') eqn:Hc; [|done]. injection Heq as -> -> ->. by rewrite Hf, Hc.
  - intros (Hin & Hf & Hc). exists (k, Some i). split; [done|]. cbn. rewrite Hf. cbn.
    by destruct (code st).
Qed.

Lemma write_failures_length fs mem : length (write_failures fs mem) = length mem.
Proof.
  revert mem. induction fs as [|[[k i] st] fs IH]; intros mem; [done|].
  unfold write_failures in *. cbn [fold_left]. by rewrite IH, length_insert.
Qed.

Lemma write_failures_other fs mem j :
  (∀ k st, (k, j, st) ∉ fs) → write_failures fs mem !! j = mem !! j.
Proof.
  revert mem. induction fs as [|[[k i] st] fs IH]; intros mem Hj; [done|].
  unfold write_failures in *. cbn [fold_left]. rewrite IH.
  - apply list_lookup_insert_ne. intros ->. apply (Hj k st). by left.
  - intros k' st' Hin. apply (Hj k' st'). by right.
Qed.

Lemma write_failures_lookup fs mem k i st :
  NoDup (map (λ f, snd (fst f)) fs) → (k, i, st) ∈ fs → (i < length mem)%nat →
  write_failures fs mem !! i = Some st.
Proof.
  revert mem. induction fs as [|[[k' i'] st'] fs IH]; intros mem Hnd Hin Hi;
    [by apply elem_of_nil in Hin|].
  cbn [map fst snd] in Hnd. apply NoDup_cons in Hnd as [Hi' Hnd].
  change (write_failures fs (<[i':=st']> mem) !! i = Some st).
  apply elem_of_cons in Hin as [[= -> -> ->]|Hin].
  - rewrite write_failures_other; [by apply list_lookup_insert_eq|].
    intros k st Hin. apply Hi'. by apply (list_elem_of_fmap_2 (λ f, snd (fst f)) fs (k, i', st)).
  - apply IH; [done.. |]. by rewrite length_insert.
Qed.

(** What a rolled back key holds: its last successful values, or nothing. *)
Definition restored_value (state : gmap str FieldValues) (k : str) : option FieldValues :=
  match state !! k with Some (v :: vs) => Some (v :: vs) | _ => None end.

Lemma restore_failures_spec fs t :
  app_state_db (restore_failures fs t) = app_state_db t ∧
  ∀ k, app_db (restore_failures fs t) !! k =
    if decide (k ∈ map (λ f, fst (fst f)) fs) then restored_value (app_state_db t) k
    else app_db t !! k.
Proof.
  revert t. induction fs as [|[[k' i] st] fs IH]; intros t.
  { split; [done|]. intros k. rewrite decide_False; [done|]. apply not_elem_of_nil. }
  change (restore_failures ((k', i, st) :: fs) t) with (restore_failures fs (RestoreApplDb t k')).
  destruct (IH (RestoreApplDb t k')) as [Hs Hk]. split; [done|]. intros k. rewrite Hk. cbn [map fst].
  change (app_state_db (RestoreApplDb t k')) with (app_state_db t).
  destruct (decide (k ∈ map _ fs)) as [Hin|Hin].
  { rewrite decide_True; [done|]. by right. }
  unfold RestoreApplDb, restored_value. cbn [app_db]. destruct (decide (k = k')) as [->|Hne].
  - rewrite decide_True by left. destruct (app_state_db t !! k') as [[|v vs]|]; cbn [default].
    + apply lookup_delete_eq.
    + apply lookup_insert_eq.
    + apply lookup_delete_eq.
  - rewrite decide_False; [|rewrite elem_of_cons; tauto].
    destruct (default [] (app_state_db t !! k')).
    + by rewrite lookup_delete_ne.
    + by rewrite lookup_insert_ne, lookup_delete_ne.
Qed.

Lemma UpdateResponses_outcome e r mem t :
  bt_sorted e → bt_sorted r → Forall (λ kp, is_Some (snd kp)) e →
  UpdateResponsesAndRestoreState e r mem t =
    (if decide (map fst e = map fst r) then Ok tt else Err kInternal,
     write_failures (failures e r) mem, restore_failures (failures e r) <$> t).
Proof.
  intros He Hr Hp. unfold UpdateResponsesAndRestoreState.
  destruct (match_responses_spec (S (length e + length r)) e r mem t [] He Hr Hp
    (Nat.lt_succ_diag_r _)) as (errs & -> & Herrs). cbn [app].
  destruct (decide _) as [Heq|Hne].
  - by rewrite (proj2 Herrs Heq).
  - destruct errs; [tauto | done].
Qed.

Lemma failures_cells e r :
  NoDup (map snd e) → NoDup (map (λ f, snd (fst f)) (failures e r)).
Proof.
  induction e as [|[k p] e IH]; intros Hnd; [constructor|]. cbn [map snd] in Hnd.
  apply NoDup_cons in Hnd as [Hp Hnd]. unfold failures. cbn [omap list_omap].
  destruct p as [i|]; [|by apply IH]. cbn. destruct (bt_find k r) as [st|]; [|by apply IH].
  cbn. destruct (code st); [|by apply IH]. cbn [map fst snd]. apply NoDup_cons. split; [|by apply IH].
  intros ([[k' i'] st'] & -> & Hin%failures_elem)%list_elem_of_fmap. cbn in Hp. apply Hp.
  apply list_elem_of_fmap. exists (k', Some i'). by split; [|apply Hin].
Qed.

(** C27.  Matching the OrchAgent's responses with the updates sent.  The two-iterator loop reports
    success exactly when the keys answered are the keys awaited, and an internal error otherwise.
    Either way each failed response to an awaited key is copied into that key's status and into
    no other, and its entry in APPL_DB is rolled back to what APPL_STATE_DB records for it (or
    removed, when it records nothing); every other status and entry is untouched. *)
Theorem responses_matched_and_rolled_back (expected : list (str * option nat))
  (responses : list (str * IrUpdateStatus)) (mem : list IrUpdateStatus) (t : NotifiedTable) :
  bt_sorted expected → bt_sorted responses →
  Forall (λ kp, ∃ i, snd kp = Some i ∧ (i < length mem)%nat) expected → NoDup (map snd expected) →
  let failed k st := (k, st) ∈ responses ∧ code st ≠ None in
  ∃ mem' t',
    UpdateResponsesAndRestoreState expected responses mem (Some t) =
      (if decide (map fst expected = map fst responses) then Ok tt else Err kInternal,
       mem', Some t') ∧
    (∀ k i st, (k, Some i) ∈ expected → failed k st → mem' !! i = Some st) ∧
    (∀ i, (∀ k st, (k, Some i) ∈ expected → ¬ failed k st) → mem' !! i = mem !! i) ∧
    (∀ k, (∃ i st, (k, Some i) ∈ expected ∧ failed k st) →
       app_db t' !! k = restored_value (app_state_db t) k) ∧
    (∀ k, (∀ i st, (k, Some i) ∈ expected → ¬ failed k st) → app_db t' !! k = app_db t !! k) ∧
    app_state_db t' = app_state_db t.
Proof.
  intros He Hr Hp Hnd failed. rewrite Forall_forall in Hp.
  rewrite UpdateResponses_outcome; [|done..|].
  2: { apply Forall_forall. intros kp Hin. destruct (Hp kp Hin) as (i & -> & _). done. }
  assert (∀ k i st, (k, i, st) ∈ failures expected responses ↔
            (k, Some i) ∈ expected ∧ failed k st) as Hf.
  { intros. unfold failed. by rewrite failures_elem, bt_find_sorted. }
  destruct (restore_failures_spec (failures expected responses) t) as [Hs Hk].
  eexists _, _. split; [done|]. split_and!; [| | | |done].
  - intros k i st Hin Hst. apply (write_failures_lookup _ _ k); [by apply failures_cells | by apply Hf |].
    destruct (Hp _ Hin) as (? & [= ->] & ?). done.
  - intros i Hno. apply write_failures_other. intros k st [??]%Hf. by apply (Hno k st).
  - intros k (i & st & Hkf%Hf). rewrite Hk, decide_True; [done|].
    by apply (list_elem_of_fmap_2 (λ f, fst (fst f)) _ (k, i, st)).
  - intros k Hno. rewrite Hk, decide_False; [done|].
    intros ([[k' i] st] & -> & [??]%Hf)%list_elem_of_fmap. by apply (Hno i st).
Qed.

Definition example_expected : list (str * option nat) := [($"a", Some 0%nat); ($"b", Some 1%nat)].
Definition example_failure : IrUpdateStatus := mkStatus (Some kNotFound) $"no such VRF".
Definition example_responses : list (str * IrUpdateStatus) :=
  [($"a", OkStatus); ($"b", example_failure)].
Definition example_table : NotifiedTable :=
  mkNotifiedTable [] (<[$"b" := [($"f", $"new")]]> ∅) (<[$"b" := [($"f", $"old")]]> ∅) [] [].

Lemma responses_matched_and_rolled_back_witness :
  ∃ mem' t',
    UpdateResponsesAndRestoreState example_expected example_responses [OkStatus; OkStatus]
      (Some example_table) = (Ok tt, mem', Some t') ∧
    mem' !! 1%nat = Some example_failure ∧ app_db t' !! $"b" = Some [($"f", $"old")].
Proof.
  destruct (responses_matched_and_rolled_back example_expected example_responses
    [OkStatus; OkStatus] example_table) as (mem' & t' & H & Hm & _ & Hk & _).
  - repeat constructor.
  - repeat constructor.
  - apply Forall_cons. split; [exists 0%nat; split; [reflexivity | cbn; lia]|].
    apply Forall_cons. split; [exists 1%nat; split; [reflexivity | cbn; lia]|]. constructor.
  - apply (bool_decide_unpack _). vm_compute. exact I.
  - assert (($"b", Some 1%nat) ∈ example_expected ∧
      (($"b", example_failure) ∈ example_responses ∧ code example_failure ≠ None)) as [H1 H2]
      by (split; [right; left | split; [right; left | discriminate]]).
    exists mem', t'. split; [exact H|]. split; [exact (Hm _ _ _ H1 H2)|].
    rewrite Hk; [reflexivity|]. exists 1%nat, example_failure. split; [exact H1 | exact H2].
Defined.

(** * Performing a list of updates *)

(** The P4RT updates sent, in order, whatever the batches. *)
Definition p4rt_sent (w : AppDbWorld) : list KeyOpFieldsValues := concat (zmq_sent (p4rt_channel w)).

Definition updates_of (t : AppDbTableType) (l : list (AppDbUpdate * nat)) : list KeyOpFieldsValues :=
  map (λ ur, update (fst ur)) (filter (λ ur, table (fst ur) = t) l).

(** From [w] to [w'] exactly the updates of [l] were sent, each to its table, in order. *)
Definition sent_exactly (w w' : AppDbWorld) (l : list (AppDbUpdate * nat)) : Prop :=
  p4rt_sent w' = p4rt_sent w ++ updates_of P4RT l ∧
  produced (vrf_table w') = produced (vrf_table w) ++ updates_of VRF_TABLE l ∧
  produced (vlan_table w') = produced (vlan_table w) ++ updates_of VLAN_TABLE l ∧
  produced (vlan_member_table w') = produced (vlan_member_table w) ++ updates_of VLAN_MEMBER_TABLE l.

Lemma updates_of_app t l k : updates_of t (l ++ k) = updates_of t l ++ updates_of t k.
Proof. unfold updates_of. by rewrite filter_app, map_app. Qed.

Lemma sent_exactly_trans w1 w2 w3 l k :
  sent_exactly w1 w2 l → sent_exactly w2 w3 k → sent_exactly w1 w3 (l ++ k).
Proof.
  intros (A1 & A2 & A3 & A4) (B1 & B2 & B3 & B4). unfold sent_exactly.
  rewrite !updates_of_app, !app_assoc, <-A1, <-A2, <-A3, <-A4. done.
Qed.

(** The cell [i] of [mem] holds an OK status. *)
Definition ok_at (mem : list IrUpdateStatus) (i : nat) : Prop :=
  ∃ st, mem !! i = Some st ∧ code st = None.

(** [mem'] differs from [mem] at most in the cells [cells]. *)
Definition only_changes (cells : list nat) (mem mem' : list IrUpdateStatus) : Prop :=
  length mem' = length mem ∧ ∀ j, j ∉ cells → mem' !! j = mem !! j.

Lemma only_changes_trans cells m1 m2 m3 :
  only_changes cells m1 m2 → only_changes cells m2 m3 → only_changes cells m1 m3.
Proof. intros [L1 C1] [L2 C2]. split; [congruence|]. intros j Hj. rewrite C2, C1; done. Qed.

Lemma only_changes_weaken cells cells' m1 m2 :
  (∀ i, i ∈ cells → i ∈ cells') → only_changes cells m1 m2 → only_changes cells' m1 m2.
Proof. intros Hs [L C]. split; [done|]. intros j Hj. apply C. auto. Qed.

Lemma only_changes_insert cells m i st : i ∈ cells → only_changes cells m (<[i := st]> m).
Proof.
  intros Hi. split; [apply length_insert|]. intros j Hj. apply list_lookup_insert_ne. by intros ->.
Qed.

Lemma write_failures_only e r mem :
  only_changes (omap snd e) mem (write_failures (failures e r) mem).
Proof.
  split; [apply write_failures_length|]. intros j Hj. apply write_failures_other.
  intros k st (Hin & _)%failures_elem. apply Hj. apply list_elem_of_omap. by exists (k, Some j).
Qed.

(** A message means an error. *)
Definition clean (mem : list IrUpdateStatus) : Prop :=
  Forall (λ st, code st = None → message st = []) mem.

Lemma clean_insert mem i st :
  (code st = None → message st = []) → clean mem → clean (<[i := st]> mem).
Proof. intros. by apply Forall_insert. Qed.

Section performing.
Context (strToStatusCode : str → SwssStatusCode) (CHexEscape : str → str).

Abbreviation GetZmqResponses := (GetZmqResponses strToStatusCode CHexEscape).
Abbreviation GetAppDbResponses := (GetAppDbResponses strToStatusCode CHexEscape).
Abbreviation PerformAppDbP4rtUpdates := (PerformAppDbP4rtUpdates strToStatusCode CHexEscape).
Abbreviation PerformOther := (PerformOther strToStatusCode CHexEscape).
Abbreviation updates_loop := (updates_loop strToStatusCode CHexEscape).
Abbreviation PerformAppDbUpdates := (PerformAppDbUpdates strToStatusCode CHexEscape).

Lemma bt_insert_sorted {V} k (v : V) m m' :
  bt_insert k v m = Some m' → bt_sorted m → bt_sorted m'.
Proof.
  unfold bt_insert. destruct (bt_find k m); [done|]. intros [= <-]. apply bt_set_sorted.
Qed.

Lemma zmq_responses_sorted kfvs m m' :
  zmq_responses_loop strToStatusCode CHexEscape kfvs m = Ok m' → bt_sorted m → bt_sorted m'.
Proof.
  revert m. induction kfvs as [|kfv kfvs IH]; intros m; cbn; [by intros [= ->]|].
  destruct (kfvFieldsValues kfv); [done|]. destruct (bt_insert _ _ m) eqn:Hi; [|done].
  intros H Hm. eapply IH; [done|]. by eapply bt_insert_sorted.
Qed.

Lemma zmq_responses_alive kfvs m : zmq_responses_loop strToStatusCode CHexEscape kfvs m ≠ Die.
Proof.
  revert m. induction kfvs as [|kfv kfvs IH]; intros m; cbn; [done|].
  destruct (kfvFieldsValues kfv); [done|]. by destruct (bt_insert _ _ m).
Qed.

Lemma GetZmqResponses_spec n ch r ch' :
  GetZmqResponses n ch = (r, ch') →
  zmq_sent ch' = zmq_sent ch ∧ r ≠ Die ∧ ∀ m, r = Ok m → bt_sorted m.
Proof.
  unfold AppDb.GetZmqResponses. destruct (n =? 0).
  { intros [= <- <-]. split_and!; [done..|]. intros m [= <-]. constructor. }
  destruct (zmq_replies ch) as [|[[[db tbl] kfvs]|] rs]; [by intros [= <- <-]| |by intros [= <- <-]].
  destruct (negb _); [by intros [= <- <-]|]. destruct (_ || _); [by intros [= <- <-]|].
  intros [= <- <-]. split; [done|]. split; [apply zmq_responses_alive|].
  intros m H. eapply zmq_responses_sorted; [done | constructor].
Qed.

Lemma GetAppDbResponses_spec n t m r t' :
  GetAppDbResponses n t m = (r, t') → bt_sorted m →
  produced t' = produced t ∧ r ≠ Die ∧ ∀ m', r = Ok m' → bt_sorted m'.
Proof.
  revert t m. induction n as [|n IH]; intros t m; cbn [AppDb.GetAppDbResponses].
  { intros [= <- <-] Hm. split_and!; [done..|]. by intros m' [= <-]. }
  destruct (WaitForNotificationAndPop t) as [o t0] eqn:Hw.
  assert (produced t0 = produced t) as Hprod.
  { unfold WaitForNotificationAndPop in Hw.
    destruct (pending t); [destruct (incoming t)|]; by injection Hw as <- <-. }
  destruct o as [nt|]; [|by intros [= <- <-]].
  destruct (value_tuples nt); [by intros [= <- <-]|].
  destruct (negb _); [by intros [= <- <-]|].
  destruct (bt_insert _ _ m) as [m1|] eqn:Hi; [|by intros [= <- <-]].
  intros H Hm. rewrite <-Hprod. eapply IH; [done|]. by eapply bt_insert_sorted.
Qed.

Lemma all_ok_spec updates results mem :
  (∀ kfv, kfv ∈ updates →
     ∃ i, bt_find (kfvKey kfv) results = Some (Some i) ∧ (i < length mem)%nat) →
  match all_ok updates results mem with
  | Ok true => ∀ kfv i, kfv ∈ updates → bt_find (kfvKey kfv) results = Some (Some i) → ok_at mem i
  | Ok false => ∃ kfv i, kfv ∈ updates ∧ bt_find (kfvKey kfv) results = Some (Some i) ∧ ¬ ok_at mem i
  | _ => False
  end.
Proof.
  induction updates as [|kfv updates IH]; intros H; cbn [all_ok]; [by intros ?? ?%elem_of_nil|].
  destruct (H kfv) as (i & Hf & Hi); [left|]. rewrite Hf.
  apply lookup_lt_is_Some_2 in Hi as [st Hst]. rewrite Hst. destruct (code st) eqn:Hc.
  - exists kfv, i. split; [left|]. split; [done|]. intros (st' & Hst' & ?). congruence.
  - specialize (IH ltac:(intros; apply H; by right)).
    destruct (all_ok updates results mem) as [[|]| |]; [| |done..].
    + intros kfv' i' [->|Hin]%elem_of_cons Hf'; [|by eapply IH].
      replace i' with i by congruence. by exists st.
    + destruct IH as (kfv' & i' & Hin & ?). exists kfv', i'. split; [by right | done].
Qed.

Lemma P4rtUpdates_spec w updates results mem r mem' w' :
  bt_sorted results →
  Forall (λ kp, ∃ i, snd kp = Some i ∧ (i < length mem)%nat) results →
  (∀ kfv, kfv ∈ updates → is_Some (bt_find (kfvKey kfv) results)) →
  (∀ k p, (k, p) ∈ results → ∃ kfv, kfv ∈ updates ∧ kfvKey kfv = k) →
  PerformAppDbP4rtUpdates w updates results mem = (r, mem', w') →
  only_changes (omap snd results) mem mem' ∧ p4rt_sent w' = p4rt_sent w ++ updates ∧
  vrf_table w' = vrf_table w ∧ vlan_table w' = vlan_table w ∧
  vlan_member_table w' = vlan_member_table w ∧ r ≠ Die ∧
  (r = Ok true → ∀ i, i ∈ omap snd results → ok_at mem' i) ∧
  (r = Ok false → ∃ i, i ∈ omap snd results ∧ ¬ ok_at mem' i).
Proof.
  intros Hsort Hp Hup Hkeys. unfold AppDb.PerformAppDbP4rtUpdates. case_bool_decide as Hlen.
  { intros [= <- <- <-]. apply nil_length_inv in Hlen as ->. rewrite app_nil_r.
    split_and!; try done. intros _ i ([k p] & Hin & _)%list_elem_of_omap.
    destruct (Hkeys k p Hin) as (? & ?%elem_of_nil & _). done. }
  assert (∀ l, only_changes (omap snd results) mem (write_failures (failures results l) mem)) as Honly
    by (intros; apply write_failures_only).
  unfold GetAndProcessResponseNotificationWithoutRevertingState.
  destruct (AppDb.GetZmqResponses _ _ _ _) as [rz ch] eqn:Hz.
  apply GetZmqResponses_spec in Hz as (Hsent & Hdie & Hm). cbn [zmq_sent] in Hsent.
  assert (p4rt_sent (mkAppDbWorld ch (vrf_table w) (vlan_table w) (vlan_member_table w)) =
          p4rt_sent w ++ updates) as Hs.
  { unfold p4rt_sent. cbn [p4rt_channel]. rewrite Hsent, concat_app. cbn. by rewrite app_nil_r. }
  destruct rz as [l|e|]; [|intros [= <- <- <-]; by split_and!|done].
  rewrite UpdateResponses_outcome; [|done|by apply Hm|eapply Forall_impl; [exact Hp|]; by intros ? (? & -> & _)].
  destruct (decide _) as [Heq|Hne]; [|intros [= <- <- <-]; split_and!; done || apply Honly].
  pose proof (all_ok_spec updates results (write_failures (failures results l) mem)) as Hall.
  rewrite write_failures_length in Hall.
  assert (∀ kfv, kfv ∈ updates →
    ∃ i, bt_find (kfvKey kfv) results = Some (Some i) ∧ (i < length mem)%nat) as Hcells.
  { intros kfv Hin. destruct (Hup kfv Hin) as [p Hf]. rewrite Forall_forall in Hp.
    destruct (Hp _ (bt_find_elem _ _ _ Hf)) as (i & Hi & ?). cbn in Hi; subst p. by exists i. }
  specialize (Hall Hcells). intros [= <- <- <-]. split; [apply Honly|]. do 4 (split; [done|]).
  split; [by destruct (all_ok _ _ _)|]. split.
  - intros Htrue i ([k p] & Hin & Hpi)%list_elem_of_omap. cbn in Hpi. subst p. rewrite Htrue in Hall.
    destruct (Hkeys _ _ Hin) as (kfv & Hkfv & <-). eapply Hall; [done|]. by apply bt_find_sorted.
  - intros Hfalse. rewrite Hfalse in Hall. destruct Hall as (kfv & i & _ & Hf & Hno).
    exists i. split; [|done]. apply list_elem_of_omap. exists (kfvKey kfv, Some i).
    by split; [apply bt_find_elem|].
Qed.

Lemma RedisUpdate_spec t kfv r t' :
  PerformAppDbRedisUpdate strToStatusCode CHexEscape t kfv = (r, t') →
  r ≠ Die ∧ ∀ st, r = Ok st → produced t' = produced t ++ [kfv].
Proof.
  unfold PerformAppDbRedisUpdate. destruct (_ || _); [|by intros [= <- <-]].
  unfold GetAndProcessResponseNotificationForKey, GetAndProcessResponseNotification.
  destruct (AppDb.GetAppDbResponses _ _ _ _ _) as [ra ta] eqn:Ha.
  apply GetAppDbResponses_spec in Ha as (Hprod & Hdie & Hm); [|constructor].
  destruct ra as [l|e|]; [|by intros [= <- <-]|done].
  rewrite UpdateResponses_outcome; [|repeat constructor|by apply Hm|repeat constructor; done].
  set (fs := failures _ _). pose proof (write_failures_length fs [OkStatus]) as Hl.
  destruct (decide _) as [_|_]; [|by intros [= <- <-]].
  destruct (write_failures fs [OkStatus]) as [|st0 [|]]; [done| |done].
  cbn [fmap option_fmap option_map default]. intros [= <- <-]. split; [done|]. intros st _.
  transitivity (produced ta); [|exact Hprod]. clear. revert ta.
  induction fs as [|[[k i] st0] fs IH]; intros ta; [done|].
  change (restore_failures _ ta) with (restore_failures fs (RestoreApplDb ta k)). by rewrite IH.
Qed.

Lemma PerformOther_spec w u st r w' i :
  table u ≠ P4RT → PerformOther w u st = (r, w') →
  r ≠ Die ∧ ∀ st', r = Ok st' → sent_exactly w w' [(u, i)].
Proof.
  intros Hne. unfold sent_exactly, updates_of, AppDb.PerformOther, PerformAppDbVlanUpdate,
    PerformAppDbVlanMemberUpdate, PerformAppDbVrfUpdate.
  destruct u as [[] kfv]; cbn [table update] in *; [done|..].
  all: destruct (PerformAppDbRedisUpdate _ _ _ _) as [r0 t0] eqn:Hr; apply RedisUpdate_spec in Hr as [Hd Hs];
    intros [= <- <-]; split; [done|]; intros st' Hst'; specialize (Hs _ Hst'); cbn; by rewrite !app_nil_r.
Qed.

(** The queue of P4RT updates that the loop has built. *)
Definition queue_results (pend : list (AppDbUpdate * nat)) : list (str * option nat) :=
  fold_left (λ m ur, bt_set (kfvKey (update (fst ur))) (Some (snd ur)) m) pend [].
Definition queue_updates (pend : list (AppDbUpdate * nat)) : list KeyOpFieldsValues :=
  map (λ ur, update (fst ur)) pend.

Lemma queue_results_spec pend :
  bt_sorted (queue_results pend) ∧
  (∀ k p, (k, p) ∈ queue_results pend →
     ∃ u i, (u, i) ∈ pend ∧ kfvKey (update u) = k ∧ p = Some i) ∧
  (∀ u i, (u, i) ∈ pend → is_Some (bt_find (kfvKey (update u)) (queue_results pend))).
Proof.
  induction pend as [|[u i] pend IH] using rev_ind.
  { split; [constructor|]. split; [intros k p ?%elem_of_nil | intros u i ?%elem_of_nil]; done. }
  destruct IH as (Hs & Hb & Hf). unfold queue_results in *. rewrite fold_left_app.
  cbn [fold_left fst snd]. split; [by apply bt_set_sorted|]. split.
  - intros k p [[= -> ->]|Hin]%bt_set_elem.
    + exists u, i. split; [apply elem_of_app; right; left | done].
    + destruct (Hb k p Hin) as (u' & i' & ? & ?). exists u', i'.
      split; [apply elem_of_app; by left | done].
  - intros u' i' Hin. destruct (decide (kfvKey (update u') = kfvKey (update u))) as [->|Hne].
    + by rewrite bt_set_find.
    + rewrite bt_set_find_ne by done. apply elem_of_app in Hin as [Hin|Hin]; [by eapply Hf|].
      apply list_elem_of_singleton in Hin as [= -> ->]. done.
Qed.

Definition all_ok_at (mem : list IrUpdateStatus) (l : list (AppDbUpdate * nat)) : Prop :=
  ∀ u i, (u, i) ∈ l → ok_at mem i.

Lemma ok_at_lt mem i : ok_at mem i → (i < length mem)%nat.
Proof. intros (st & H & _). by apply lookup_lt_Some in H. Qed.

Lemma updates_of_queue pend t :
  Forall (λ ur, table (fst ur) = P4RT) pend →
  updates_of t pend = if decide (t = P4RT) then queue_updates pend else [].
Proof.
  intros H. unfold updates_of, queue_updates. induction H as [|[u i] pend Hu H IH].
  { by destruct (decide _). }
  cbn in Hu. rewrite filter_cons. cbn [fst]. destruct (decide (t = P4RT)) as [->|Hne].
  - rewrite decide_True by done. cbn [map]. by rewrite IH.
  - rewrite decide_False; [done|]. congruence.
Qed.

Lemma flush_spec w pend mem r mem' w' :
  Forall (λ ur, table (fst ur) = P4RT) pend → all_ok_at mem pend →
  PerformAppDbP4rtUpdates w (queue_updates pend) (queue_results pend) mem = (r, mem', w') →
  only_changes (map snd pend) mem mem' ∧ sent_exactly w w' pend ∧ r ≠ Die ∧
  (r = Ok true → all_ok_at mem' pend) ∧
  (r = Ok false → ∃ u i, (u, i) ∈ pend ∧ ¬ ok_at mem' i).
Proof.
  intros Hp4 Hok H. destruct (queue_results_spec pend) as (Hs & Hb & Hf).
  assert (∀ i, i ∈ omap snd (queue_results pend) → ∃ u, (u, i) ∈ pend) as Hcells.
  { intros i ([k p] & Hin & Hp)%list_elem_of_omap. cbn in Hp. subst p.
    destruct (Hb _ _ Hin) as (u & i' & ? & _ & [= ->]). by exists u. }
  apply P4rtUpdates_spec in H as (Honly & Hsent & H1 & H2 & H3 & Hd & Ht & Hfa); [|done|..].
  - split_and!; [|unfold sent_exactly|done|..].
    + eapply only_changes_weaken; [|exact Honly]. intros i (u & Hin)%Hcells.
      by apply (list_elem_of_fmap_2 snd _ (u, i)).
    + rewrite !updates_of_queue by done. cbn. rewrite Hsent, H1, H2, H3, !app_nil_r. done.
    + intros Hr u i Hin. destruct (decide (i ∈ omap snd (queue_results pend))) as [Hi|Hi]; [auto|].
      destruct (Hok _ _ Hin) as (st & Hst & ?). exists st. split; [|done].
      rewrite <-Hst. by apply Honly.
    + intros Hr. destruct (Hfa Hr) as (i & (u & Hin)%Hcells & Hno). by exists u, i.
  - apply Forall_forall. intros [k p] Hin. destruct (Hb _ _ Hin) as (u & i & Hin' & _ & ->).
    exists i. split; [done|]. eapply ok_at_lt, Hok, Hin'.
  - intros kfv ([u i] & -> & Hin)%list_elem_of_fmap. by eapply Hf.
  - intros k p Hin. destruct (Hb _ _ Hin) as (u & i & Hin' & <- & _). exists (update u).
    split; [|done]. by apply (list_elem_of_fmap_2 (λ ur, update (fst ur)) _ (u, i)).
Qed.

(** What a run over [l] ends with: everything sent and accepted, or a prefix sent that contains a
    failure and the rest aborted. *)
Definition performed (w w' : AppDbWorld) (mem' : list IrUpdateStatus) (r : result bool)
  (l : list (AppDbUpdate * nat)) : Prop :=
  match r with
  | Ok true => all_ok_at mem' l ∧ sent_exactly w w' l
  | Ok false => ∃ pre suf, l = pre ++ suf ∧ sent_exactly w w' pre ∧
      (∃ u i, (u, i) ∈ pre ∧ ¬ ok_at mem' i) ∧ (∀ u i, (u, i) ∈ suf → mem' !! i = Some Aborted)
  | Err _ => True
  | Die => False
  end.

Lemma aborting_loop urs pu pr w mem r mem' w' :
  updates_loop urs true pu pr w mem = (r, mem', w') → NoDup (map snd urs) →
  r = Ok false ∧ w' = w ∧ only_changes (map snd urs) mem mem' ∧
  ∀ u i, (u, i) ∈ urs → (i < length mem)%nat → mem' !! i = Some Aborted.
Proof.
  revert mem. induction urs as [|[u i] urs IH]; intros mem; cbn [AppDb.updates_loop map snd].
  { intros [= <- <- <-] _. split_and!; try done. by intros ?? ?%elem_of_nil. }
  intros H [Hi Hnd]%NoDup_cons. destruct (IH _ H Hnd) as (-> & -> & Honly & Hall).
  split; [done|]. split; [done|]. split.
  - eapply only_changes_trans; [apply (only_changes_insert _ _ i); left|].
    eapply only_changes_weaken; [|exact Honly]. intros; by right.
  - intros u' i' [[= -> ->]|Hin]%elem_of_cons Hlt.
    + rewrite (proj2 Honly) by done. by apply list_lookup_insert_eq.
    + eapply Hall; [done|]. by rewrite length_insert.
Qed.

Lemma ok_at_frame cells m m' i : only_changes cells m m' → i ∉ cells → ok_at m i ↔ ok_at m' i.
Proof. intros [_ Hc] Hi. unfold ok_at. by rewrite Hc. Qed.

Lemma all_ok_frame cells m m' l :
  only_changes cells m m' → (∀ u i, (u, i) ∈ l → i ∉ cells) → all_ok_at m l → all_ok_at m' l.
Proof.
  intros Hc Hd Hok u i Hin. apply (ok_at_frame _ _ _ _ Hc); [by eapply Hd | by eapply Hok].
Qed.

(** Disjointness of the cells of two parts of a list without repeated cells. *)
Lemma cells_disjoint (l k : list (AppDbUpdate * nat)) u i :
  NoDup (map snd (l ++ k)) → (u, i) ∈ l → i ∉ map snd k.
Proof.
  rewrite map_app. intros (_ & Hd & _)%NoDup_app Hin. apply Hd.
  by apply (list_elem_of_fmap_2 snd _ (u, i)).
Qed.

Lemma failed_tail w w1 l rest mem r mem' w' :
  sent_exactly w w1 l → (∃ u i, (u, i) ∈ l ∧ ¬ ok_at mem i) → NoDup (map snd (l ++ rest)) →
  (∀ u i, (u, i) ∈ rest → (i < length mem)%nat) →
  updates_loop rest true [] [] w1 mem = (r, mem', w') →
  only_changes (map snd rest) mem mem' ∧ performed w w' mem' r (l ++ rest).
Proof.
  intros Hsent (u' & i' & Hin & Hno) Hnd Hlt H.
  assert (NoDup (map snd rest)) as Hnd' by 
    (rewrite map_app in Hnd; apply NoDup_app in Hnd as (_ & _ & ?); done).
  destruct (aborting_loop _ _ _ _ _ _ _ _ H Hnd') as (-> & -> & Honly & Hall).
  split; [done|]. exists l, rest. split; [done|]. split; [done|]. split.
  - exists u', i'. split; [done|]. intros Hok. apply Hno.
    apply (ok_at_frame _ _ _ _ Honly); [|done]. by eapply cells_disjoint.
  - intros u0 i0 Hin0. eapply Hall; [done|]. by eapply Hlt.
Qed.

Lemma performed_app w w2 w' mem' r pre l :
  sent_exactly w w2 pre → all_ok_at mem' pre → performed w2 w' mem' r l →
  performed w w' mem' r (pre ++ l).
Proof.
  intros Hs Hok Hp. destruct r as [[|]|e|]; cbn [performed] in *; [| |done..].
  - destruct Hp as [Hp1 Hp2]. split; [|by eapply sent_exactly_trans].
    intros u' i' [Hin|Hin]%elem_of_app; [by eapply Hok | by eapply Hp1].
  - destruct Hp as (pre' & suf & -> & Hsp & (u' & i' & Hin & Hno) & Hab).
    exists (pre ++ pre'), suf. rewrite !app_assoc. split; [done|].
    split; [by eapply sent_exactly_trans|]. split; [|done].
    exists u', i'. split; [apply elem_of_app; by right | done].
Qed.

Lemma updates_loop_spec urs pend w mem r mem' w' :
  Forall (λ ur, table (fst ur) = P4RT) pend → NoDup (map snd (pend ++ urs)) →
  all_ok_at mem (pend ++ urs) →
  updates_loop urs false (queue_updates pend) (queue_results pend) w mem = (r, mem', w') →
  only_changes (map snd (pend ++ urs)) mem mem' ∧ performed w w' mem' r (pend ++ urs).
Proof.
  revert pend w mem. induction urs as [|[u i] urs IH]; intros pend w mem Hp4 Hnd Hok;
    cbn [AppDb.updates_loop].
  { rewrite app_nil_r in *. intros H. apply flush_spec in H as (Honly & Hs & Hd & Ht & Hf); [|done..].
    split; [done|]. destruct r as [[|]| |]; cbn [performed]; [auto| |done..].
    exists pend, []. rewrite app_nil_r. split_and!; [done..|by apply Hf | by intros ?? ?%elem_of_nil]. }
  case_bool_decide as Hu.
  { intros H. specialize (IH (pend ++ [(u, i)]) w mem). rewrite <-app_assoc in IH. apply IH; try done.
    - apply Forall_app. split; [done|]. by repeat constructor.
    - unfold queue_updates, queue_results. rewrite map_app, fold_left_app. exact H. }
  destruct (PerformAppDbP4rtUpdates _ _ _ _) as [[rf m1] w1] eqn:Hflush.
  assert (all_ok_at mem pend) as Hokp by (intros ???; eapply Hok, elem_of_app; by left).
  apply flush_spec in Hflush as (Honly & Hs & Hd & Ht & Hf); [|done..].
  assert (only_changes (map snd (pend ++ (u, i) :: urs)) mem m1) as Honly1.
  { eapply only_changes_weaken; [|exact Honly]. intros j Hj. rewrite map_app. apply elem_of_app. by left. }
  assert (i ∈ map snd (pend ++ (u, i) :: urs)) as Hi.
  { rewrite map_app. apply elem_of_app. right. left. }
  assert (∀ j, j ∈ map snd urs → j ∈ map snd (pend ++ (u, i) :: urs)) as Hsub.
  { intros j Hj. rewrite map_app. apply elem_of_app. right. by right. }
  assert (all_ok_at m1 ((u, i) :: urs)) as Hok1.
  { apply (all_ok_frame _ _ _ _ Honly).
    - intros u' i' Hin. rewrite map_app in Hnd. apply NoDup_app in Hnd as (_ & Hnd & _).
      intros Hin'. apply (Hnd _ Hin'). by apply (list_elem_of_fmap_2 snd _ (u', i')).
    - intros ???. eapply Hok, elem_of_app. by right. }
  destruct rf as [[|]|e|]; [| |by intros [= <- <- <-]|done].
  2: { intros H. pose proof (Hok1 u i ltac:(left)) as Hoki.
    assert (updates_loop ((u, i) :: urs) true [] [] w1 m1 = (r, mem', w')) as H' by exact H.
    apply (failed_tail w w1 pend) in H' as [Ho Hp]; [|done|by apply Hf|done|].
    - split; [|done]. eapply only_changes_trans; [exact Honly1|].
      eapply only_changes_weaken; [|exact Ho]. intros j Hj. rewrite map_app. apply elem_of_app. by right.
    - intros u' i' Hin. eapply ok_at_lt, Hok1, Hin. }
  destruct (PerformOther w1 u _) as [ro w2] eqn:Hother.
  apply (PerformOther_spec _ _ _ _ _ i Hu) in Hother as [Hdo Hso].
  destruct ro as [st|e|]; [|by intros [= <- <- <-]|done]. specialize (Hso st eq_refl).
  assert (only_changes (map snd (pend ++ (u, i) :: urs)) mem (<[i := st]> m1)) as Honly2.
  { eapply only_changes_trans; [exact Honly1|]. by apply only_changes_insert. }
  assert (i < length m1)%nat as Hlt by (eapply ok_at_lt, (Hok1 u i); left).
  assert (sent_exactly w w2 (pend ++ [(u, i)])) as Hs2 by (by eapply sent_exactly_trans).
  replace (pend ++ (u, i) :: urs) with ((pend ++ [(u, i)]) ++ urs) in * by (by rewrite <-app_assoc).
  assert (∀ u' i', (u', i') ∈ urs → i' ≠ i) as Hne.
  { intros u' i' Hin ->. apply (cells_disjoint (pend ++ [(u, i)]) urs u i) in Hnd;
      [|apply elem_of_app; right; left]. apply Hnd. by apply (list_elem_of_fmap_2 snd _ (u', i)). }
  intros H. case_bool_decide as Hc.
  - apply (failed_tail w w2 (pend ++ [(u, i)])) in H as [Ho Hp]; [| |exists u, i|done|].
    + split; [|done]. eapply only_changes_trans; [exact Honly2|].
      eapply only_changes_weaken; [|exact Ho]. exact Hsub.
    + done.
    + split; [apply elem_of_app; right; left|]. intros (st' & Hst' & Hcode).
      rewrite list_lookup_insert_eq in Hst' by done. congruence.
    + intros u' i' Hin. rewrite length_insert. eapply ok_at_lt, (Hok1 u' i'). by right.
  - apply (IH []) in H as [Ho Hp]; [|constructor| |].
    + split.
      { eapply only_changes_trans; [exact Honly2|]. eapply only_changes_weaken; [|exact Ho]. exact Hsub. }
      assert (all_ok_at mem' (pend ++ [(u, i)])) as Hokpre.
      { apply (all_ok_frame _ _ _ _ Ho); [intros ?? Hin; by eapply (cells_disjoint _ urs)|].
        intros u' i' [Hin|[= -> ->]%list_elem_of_singleton]%elem_of_app.
        - assert (i' ≠ i) as Hne'.
          { intros ->. rewrite map_app in Hnd. apply NoDup_app in Hnd as (Hnd & _).
            apply (cells_disjoint pend [(u, i)] u' i) in Hnd; [|done]. apply Hnd. left. }
          destruct (Ht eq_refl u' i' Hin) as (st' & Hst' & ?). exists st'.
          by rewrite list_lookup_insert_ne.
        - exists st. split; [by apply list_lookup_insert_eq|].
          destruct (code st); [by destruct Hc | done]. }
      by eapply performed_app.
    + rewrite map_app in Hnd. apply NoDup_app in Hnd as (_ & _ & Hnd). exact Hnd.
    + intros u' i' Hin. destruct (Hok1 u' i') as (st' & Hst' & ?); [by right|]. exists st'.
      rewrite list_lookup_insert_ne; [done|]. intros <-. by eapply Hne.
Qed.

(** OK statuses carry no message, and the layer keeps it so. *)
Lemma write_failures_clean e r mem : clean mem → clean (write_failures (failures e r) mem).
Proof.
  unfold write_failures. assert (∀ f, f ∈ failures e r → code (snd f) ≠ None) as Hf
    by (intros [[k i] st] (_ & _ & ?)%failures_elem; done).
  revert mem Hf. induction (failures e r) as [|[[k i] st] fs IH]; intros mem Hf Hm; [done|].
  cbn [fold_left]. apply IH; [intros f Hin; apply Hf; by right|]. apply clean_insert; [|done].
  intros Hc. by destruct (Hf (k, i, st) ltac:(left)).
Qed.

Lemma flush_clean w us results mem r mem' w' :
  bt_sorted results → Forall (λ kp, is_Some (snd kp)) results → clean mem →
  PerformAppDbP4rtUpdates w us results mem = (r, mem', w') → clean mem'.
Proof.
  intros Hs Hp Hm. unfold AppDb.PerformAppDbP4rtUpdates. case_bool_decide; [by intros [= _ <- _]|].
  unfold GetAndProcessResponseNotificationWithoutRevertingState.
  destruct (AppDb.GetZmqResponses _ _ _ _) as [rz ch] eqn:Hz.
  apply GetZmqResponses_spec in Hz as (_ & _ & Hsort).
  destruct rz as [l|e|]; [|by intros [= _ <- _]..].
  rewrite UpdateResponses_outcome by auto. destruct (decide _); intros [= _ <- _];
    by apply write_failures_clean.
Qed.

Lemma RedisUpdate_clean t kfv st t' :
  PerformAppDbRedisUpdate strToStatusCode CHexEscape t kfv = (Ok st, t') →
  code st = None → message st = [].
Proof.
  unfold PerformAppDbRedisUpdate. destruct (_ || _); [|done].
  unfold GetAndProcessResponseNotificationForKey, GetAndProcessResponseNotification.
  destruct (AppDb.GetAppDbResponses _ _ _ _ _) as [ra ta] eqn:Ha.
  apply GetAppDbResponses_spec in Ha as (_ & _ & Hm); [|constructor].
  destruct ra as [l|e|]; [|done..].
  rewrite UpdateResponses_outcome; [|repeat constructor|by apply Hm|repeat constructor; done].
  pose proof (write_failures_clean [(kfvKey kfv, Some 0%nat)] l [OkStatus]
    ltac:(by repeat constructor)) as Hc.
  destruct (decide _); [|done]. destruct (write_failures _ _); [done|].
  intros [= <- _]. by apply Forall_cons in Hc as [Hc _].
Qed.

Lemma PerformOther_clean w u st0 st w' :
  (code st0 = None → message st0 = []) → PerformOther w u st0 = (Ok st, w') →
  code st = None → message st = [].
Proof.
  intros H0. unfold AppDb.PerformOther, PerformAppDbVlanUpdate, PerformAppDbVlanMemberUpdate,
    PerformAppDbVrfUpdate.
  destruct (table u); [by intros [= <- _]|..].
  all: destruct (PerformAppDbRedisUpdate _ _ _ _) as [r0 t0] eqn:Hr; intros [= -> _];
    by eapply RedisUpdate_clean.
Qed.

Lemma queue_results_cells pend : Forall (λ kp, is_Some (snd kp)) (queue_results pend).
Proof.
  apply Forall_forall. intros [k p] Hin. destruct (queue_results_spec pend) as (_ & Hb & _).
  destruct (Hb k p Hin) as (? & ? & _ & _ & ->). done.
Qed.

Lemma updates_loop_clean urs pend failed w mem r mem' w' :
  clean mem →
  updates_loop urs failed (queue_updates pend) (queue_results pend) w mem = (r, mem', w') →
  clean mem'.
Proof.
  destruct (queue_results_spec pend) as (Hs & _ & _). pose proof (queue_results_cells pend) as Hp.
  revert pend failed w mem Hs Hp. induction urs as [|[u i] urs IH];
    intros pend failed w mem Hs Hp Hm; cbn [AppDb.updates_loop].
  { destruct failed; [by intros [= _ <- _] | by apply flush_clean]. }
  destruct failed; [eapply (IH pend); [done..|]; by apply clean_insert|].
  case_bool_decide.
  { intros Hl. eapply (IH (pend ++ [(u, i)])); [apply queue_results_spec | apply queue_results_cells
      | exact Hm |]. unfold queue_updates, queue_results. rewrite map_app, fold_left_app. exact Hl. }
  destruct (PerformAppDbP4rtUpdates _ _ _ _) as [[rf m1] w1] eqn:Hflush.
  apply flush_clean in Hflush; [|done..].
  destruct rf as [[|]|e|]; [| |by intros [= _ <- _]..].
  2: { eapply (IH []); [constructor..|]. by apply clean_insert. }
  destruct (PerformOther w1 u _) as [ro w2] eqn:Hother.
  destruct ro as [st|e|]; [|by intros [= _ <- _]..].
  eapply (IH []); [constructor..|]. apply clean_insert; [|done].
  eapply PerformOther_clean; [|exact Hother]. destruct (m1 !! i) as [st0|] eqn:Hi; [|done].
  apply (Forall_lookup_1 _ _ _ _ Hflush Hi).
Qed.

(** C9.  Fail-on-first at the application database.  Starting from OK statuses, one per update,
    [PerformAppDbUpdates] writes no other status; when it returns [true] every update was sent,
    in order and each to its own table, and every status is OK; when it returns [false] exactly a
    prefix of the updates was sent, some update of that prefix failed, and every update after it
    is [ABORTED] without having been sent.  It never crashes, whatever the OrchAgent answers. *)
Theorem app_db_updates_fail_on_first (w : AppDbWorld) (l : list (AppDbUpdate * nat))
  (mem : list IrUpdateStatus) :
  NoDup (map snd l) → (∀ u i, (u, i) ∈ l → ok_at mem i) →
  ∃ r mem' w', PerformAppDbUpdates w l mem = (r, mem', w') ∧
    length mem' = length mem ∧ (∀ j, j ∉ map snd l → mem' !! j = mem !! j) ∧ r ≠ Die ∧
    (r = Ok true → (∀ u i, (u, i) ∈ l → ok_at mem' i) ∧ sent_exactly w w' l) ∧
    (r = Ok false → ∃ pre suf, l = pre ++ suf ∧ sent_exactly w w' pre ∧
       (∃ u i, (u, i) ∈ pre ∧ ¬ ok_at mem' i) ∧
       (∀ u i, (u, i) ∈ suf → mem' !! i = Some Aborted)).
Proof.
  intros Hnd Hok. destruct (PerformAppDbUpdates w l mem) as [[r mem'] w'] eqn:H.
  exists r, mem', w'. split; [done|].
  apply (updates_loop_spec l []) in H as [[Hlen Hrest] Hp]; [|constructor|done..].
  split; [done|]. split; [done|]. destruct r as [[|]|e|]; cbn [performed] in Hp; [..|done]; done.
Qed.
End performing.

Definition example_world : AppDbWorld :=
  let t := mkNotifiedTable [] ∅ ∅ []
    [mkArrival (Some (mkNotification $"SWSS_RC_FULL" $"vrf-1" [($"err_str", $"full")])) ∅ ∅] in
  mkAppDbWorld (mkZmq [] [Some ($"APPL_DB", $"P4RT_TABLE", [mkKfv $"k" $"SET" [($"0", $"")]])]) t t t.

Definition example_updates : list (AppDbUpdate * nat) :=
  [(mkAppDbUpdate P4RT (mkKfv $"k" $"SET" []), 0%nat);
   (mkAppDbUpdate VRF_TABLE (mkKfv $"vrf-1" $"SET" []), 1%nat);
   (mkAppDbUpdate P4RT (mkKfv $"l" $"SET" []), 2%nat)].

Definition example_codes (s : str) : SwssStatusCode :=
  if bool_decide (s = $"SWSS_RC_FULL") then SWSS_RC_FULL else SWSS_RC_SUCCESS.

Lemma app_db_updates_fail_on_first_witness :
  ∃ r mem' w',
    PerformAppDbUpdates example_codes id example_world example_updates [OkStatus; OkStatus; OkStatus]
      = (r, mem', w') ∧ r = Ok false ∧ length mem' = 3%nat.
Proof.
  destruct (app_db_updates_fail_on_first example_codes id example_world example_updates
    [OkStatus; OkStatus; OkStatus]) as (r & mem' & w' & H & Hl & _).
  - apply (bool_decide_unpack _). vm_compute. exact I.
  - intros u i Hin. exists OkStatus. split; [|reflexivity].
    repeat (apply elem_of_cons in Hin as [[= -> ->]|Hin]; [reflexivity|]). by apply elem_of_nil in Hin.
  - exists r, mem', w'. split; [exact H|]. split; [|exact Hl].
    apply (f_equal (fst ∘ fst)) in H. cbn [compose fst] in H. rewrite <-H. vm_compute. reflexivity.
Defined.

(** * Equality of updates *)

Lemma values_lookup (l : FieldValues) field value :
  NoDup (map fst l) →
  (fold_left (λ m '(field, value), <[field := value]> m) l ∅ : gmap str str) !! field = Some value ↔
  (field, value) ∈ l.
Proof.
  induction l as [|[f v] l IH] using rev_ind; intros Hnd; [split; [done | by intros ?%elem_of_nil]|].
  rewrite map_app in Hnd. apply NoDup_app in Hnd as (Hnd & Hd & _).
  rewrite fold_left_app, elem_of_app, list_elem_of_singleton. cbn [fold_left].
  destruct (decide (f = field)) as [->|Hne].
  - rewrite lookup_insert_eq. split; [intros [= ->]; by right|]. intros [Hin|[= ->]]; [|done].
    destruct (Hd field); [by apply (list_elem_of_fmap_2 fst _ (field, value)) | left].
  - rewrite lookup_insert_ne, IH by done. naive_solver.
Qed.

(** Two updates of the application database compare equal exactly when they agree on table, key
    and operation and carry the same field-value pairs in any order, provided no field is
    repeated. *)
Theorem app_db_update_equality (lhs rhs : AppDbUpdate) :
  NoDup (map fst (kfvFieldsValues (update lhs))) → NoDup (map fst (kfvFieldsValues (update rhs))) →
  AppDbUpdate_eqb lhs rhs = true ↔
    table lhs = table rhs ∧ kfvKey (update lhs) = kfvKey (update rhs) ∧
    kfvOp (update lhs) = kfvOp (update rhs) ∧
    kfvFieldsValues (update lhs) ≡ₚ kfvFieldsValues (update rhs).
Proof.
  intros Hl Hr. unfold AppDbUpdate_eqb.
  destruct (bool_decide (table lhs = table rhs)) eqn:Ht; bool_prop; cbn [negb]; [|naive_solver].
  destruct (bool_decide (kfvKey (update lhs) = kfvKey (update rhs))) eqn:Hk; bool_prop; cbn [negb];
    [|naive_solver].
  destruct (bool_decide (kfvOp (update lhs) = kfvOp (update rhs))) eqn:Ho; bool_prop; cbn [negb];
    [|naive_solver].
  assert (∀ f v, bool_decide ((fold_left (λ m '(field, value), <[field:=value]> m)
      (kfvFieldsValues (update lhs)) ∅ : gmap str str) !! f = Some v) = true ↔
      (f, v) ∈ kfvFieldsValues (update lhs)) as Hv.
  { intros f v. rewrite bool_decide_eq_true. by apply values_lookup. }
  destruct (Z.eqb_spec (zlen (kfvFieldsValues (update lhs))) (zlen (kfvFieldsValues (update rhs))))
    as [Hlen|Hlen]; cbn [negb].
  - rewrite forallb_forall. split.
    + intros Hall. split_and!; [done..|]. symmetry. apply submseteq_length_Permutation.
      * apply NoDup_submseteq; [by apply NoDup_fmap_1 in Hr|].
        intros [f v] Hin. apply Hv. apply (Hall (f, v)). by apply list_elem_of_In.
      * unfold zlen in Hlen. lia.
    + intros (_ & _ & _ & Hp) [f v] Hin. apply Hv. rewrite Hp. by apply list_elem_of_In.
  - split; [done|]. intros (_ & _ & _ & Hp). destruct Hlen. unfold zlen. by rewrite Hp.
Qed.

Lemma app_db_update_equality_witness :
  let u := mkAppDbUpdate P4RT (mkKfv $"k" $"SET" [($"a", $"1"); ($"b", $"2")]) in
  let v := mkAppDbUpdate P4RT (mkKfv $"k" $"SET" [($"b", $"2"); ($"a", $"1")]) in
  NoDup (map fst (kfvFieldsValues (update u))) ∧ NoDup (map fst (kfvFieldsValues (update v))) ∧
  AppDbUpdate_eqb u v = true.
Proof.
  intros u v.
  assert (NoDup (map fst (kfvFieldsValues (update u)))) as Hu
    by (apply (bool_decide_unpack _); vm_compute; exact I).
  assert (NoDup (map fst (kfvFieldsValues (update v)))) as Hv
    by (apply (bool_decide_unpack _); vm_compute; exact I).
  split; [exact Hu|]. split; [exact Hv|]. apply (app_db_update_equality u v Hu Hv).
  split; [reflexivity|]. split; [reflexivity|]. split; [reflexivity|]. apply Permutation_swap.
Defined.
