(* ===== verification/AclTable.v ===== *)
(** p4rt_app/sonic: [app_db_acl_def_table_manager.cc] and [swss_utils.cc].  The definition of an ACL table for
    the OrchAgent: its stage, its match fields and actions as JSON values made of their annotations, its
    size, meter, counter and priority. *)
From S2P Require Import Prelude Abseil IrUtils IrData Annotations AppDb TableTypes.

(** * JSON values *)

(** [nlohmann::json]; the fields of an object are sorted by name.  [JOther] is a boolean or a fraction, by its
    text. *)
Inductive Json :=
  | JNull
  | JString (s : str)
  | JInt (z : Z)
  | JOther (text : str)
  | JArray (l : list Json)
  | JObject (fields : list (str * Json)).

(** [json[key] = value]: null becomes an object; another kind of value throws. *)
Definition json_set (key : str) (value : Json) (json : Json) : result Json :=
  match json with
  | JNull => Ok (JObject [(key, value)])
  | JObject fields => Ok (JObject (bt_set key value fields))
  | _ => Die
  end.
(** [json[key]] of an object that is read: a missing field is null. *)
Definition json_get (key : str) (json : Json) : Json :=
  match json with JObject fields => default JNull (bt_find key fields) | _ => JNull end.
(** [get<int>()] throws when the value is not a number. *)
Definition json_int (json : Json) : result Z := match json with JInt z => Ok z | _ => Die end.
Definition json_push_back (value json : Json) : result Json :=
  match json with JNull => Ok (JArray [value]) | JArray l => Ok (JArray (l ++ [value])) | _ => Die end.
Definition json_erase (key : str) (json : Json) : Json :=
  match json with JObject fields => JObject (List.filter (λ f, negb (bool_decide (fst f = key))) fields) | _ => json end.

(** An object with the given fields. *)
Definition json_object (fields : list (str * Json)) : Json :=
  JObject (fold_left (λ m f, bt_set (fst f) (snd f) m) fields []).

(** * Libraries *)

(** A match field of the ACL schema of swss-common: its width and the name of its format. *)
Record AclMatchFieldSchema := mkAclMatchFieldSchema { acl_bitwidth : Z; acl_format_name : str }.

(** swss/saiaclschema.h, [dump] of nlohmann::json, [absl::SimpleAtoi] to an [int], and the names that protobuf
    generates for the units of meters and counters. *)
Class AclLibraries := {
  Stage : Type;
  kLookup : Stage;
  StageFromName : str → option Stage;
  MatchFieldSchemaByName : str → option AclMatchFieldSchema;
  dump : Json → str;
  SimpleAtoi : str → option Z;
  MeterUnitName : Z → str;
  CounterUnitName : Z → str;
}.

Definition Format_Name (format : Format) : str :=
  match format with
  | HEX_STRING => $"HEX_STRING" | MAC => $"MAC" | IPV4 => $"IPV4" | IPV6 => $"IPV6" | STRING => $"STRING"
  | Format_other => []
  end.
Definition Format_Parse (name : str) : option Format :=
  list_find (λ f, Format_Name f = name) [HEX_STRING; MAC; IPV4; IPV6; STRING] ≫= λ f, Some (snd f).

(** [absl::StrReplaceAll] of spaces by nothing. *)
Definition remove_spaces (s : str) : str := List.filter (λ c, negb (bool_decide (c = " "%char))) s.

Section acl.
Context `{AbslStrings} `{SwssSchema} `{AclLibraries}.

(** [None] stands for the exception on an unknown stage. *)
Definition GetStage (name : str) : option Stage :=
  if bool_decide (name = $"PRE_INGRESS") then Some kLookup else StageFromName name.

Definition IsValidColor (color : str) : bool :=
  bool_decide (color ∈ [$"SAI_PACKET_COLOR_GREEN"; $"SAI_PACKET_COLOR_YELLOW"; $"SAI_PACKET_COLOR_RED"]).

Definition IsValidRedirectObjectType (type : str) : bool :=
  bool_decide (type ∈
    [$"SAI_OBJECT_TYPE_BRIDGE_PORT"; $"SAI_OBJECT_TYPE_IPMC_GROUP"; $"SAI_OBJECT_TYPE_L2MC_GROUP"; $"SAI_OBJECT_TYPE_LAG";
     $"SAI_OBJECT_TYPE_NEXT_HOP"; $"SAI_OBJECT_TYPE_NEXT_HOP_GROUP"; $"SAI_OBJECT_TYPE_PORT"; $"SAI_OBJECT_TYPE_SYSTEM_PORT"]).

Definition GenerateSonicDbKeyFromTableName (table_name : str) : str :=
  TypeName kAclDefinition ++ $":ACL_" ++ AsciiStrToUpper table_name.

Definition GenerateSonicDbKeyFromIrTable (table : IrTableDefinition) : result str :=
  if bool_decide (preamble_alias table = []) then Err kInvalidArgument
  else Ok (GenerateSonicDbKeyFromTableName (preamble_alias table)).

Definition StageTuple (ir_table : IrTableDefinition) : result (str * str) :=
  match GetAnnotationAsArgList $"sai_acl" (p4_annotations (preamble ir_table)) with
  | Ok [stage] => Ok ($"stage", stage)
  | Die => Die
  | _ => Err kInvalidArgument
  end.

(** * Match fields *)

Definition with_bitwidth (format : Format) (width : Z) : list (str * Json) :=
  if bool_decide (format = STRING) then [] else [($"bitwidth", JInt width)].

(** Format and width are those of the match field, or of the schema within a composite field. *)
Definition GenerateBasicMatchJson (format : Format) (width : Z) (annotation : AnnotationComponents) : result Json :=
  let sai_field := remove_spaces (body annotation) in
  if bool_decide (sai_field = []) then Err kInvalidArgument
  else Ok (json_object ([($"kind", JString $"sai_field"); ($"format", JString (Format_Name format))] ++
                        with_bitwidth format width ++ [($"sai_field", JString sai_field)])).

(** The three components of a UDF annotation, each given at most once. *)
Record UdfComponents := mkUdf { udf_base : option str; udf_offset : option Z; udf_bitwidth : option Z }.

Definition udf_step (udf_components : UdfComponents) (annotation_component : str) : result UdfComponents :=
  match StrSplit annotation_component "="%char with
  | [component_name; component_value] =>
    if bool_decide (component_name = $"base") then
      match udf_base udf_components with
      | Some _ => Err kInvalidArgument
      | None => Ok (mkUdf (Some component_value) (udf_offset udf_components) (udf_bitwidth udf_components))
      end
    else if bool_decide (component_name = $"offset") || bool_decide (component_name = $"length") then
      match SimpleAtoi component_value with
      | None => Err kInvalidArgument
      | Some int_val =>
        if int_val <? 0 then Err kInvalidArgument
        else if bool_decide (component_name = $"offset") then
          match udf_offset udf_components with
          | Some _ => Err kInvalidArgument
          | None => Ok (mkUdf (udf_base udf_components) (Some int_val) (udf_bitwidth udf_components))
          end
        else
          match udf_bitwidth udf_components with
          | Some _ => Err kInvalidArgument
          | None => Ok (mkUdf (udf_base udf_components) (udf_offset udf_components) (Some (wrapS 32 (int_val * 8))))
          end
      end
    else Err kInvalidArgument
  | _ => Err kInvalidArgument
  end.

Definition GenerateUdfMatchFieldJson (format : Format) (width : Z) (annotation : AnnotationComponents) : result Json :=
  annotation_components ← ParseAsArgList (body annotation);
  udf_components ← fold_result udf_step annotation_components (mkUdf None None None);
  match udf_base udf_components, udf_offset udf_components, udf_bitwidth udf_components with
  | Some base, Some offset, Some udf_width =>
    if negb (width =? 0) && negb (width =? udf_width) then Err kInvalidArgument
    else Ok (json_object [($"kind", JString $"udf"); ($"format", JString (Format_Name format)); ($"base", JString base);
                          ($"offset", JInt offset); ($"bitwidth", JInt udf_width)])
  | _, _, _ => Err kInvalidArgument
  end.

(** An element of a composite field: a field of the schema, with its width and format, or a UDF. *)
Definition composite_element (element_annotation : AnnotationComponents) : result Json :=
  if bool_decide (label element_annotation = $"sai_field") then
    let element_match_field_name := remove_spaces (body element_annotation) in
    if bool_decide (element_match_field_name = []) then Err kInvalidArgument
    else
      match MatchFieldSchemaByName element_match_field_name with
      | None => Err kInvalidArgument
      | Some element_schema =>
        match Format_Parse (acl_format_name element_schema) with
        | None => Err kInternal
        | Some format =>
          element_json ← GenerateBasicMatchJson format (acl_bitwidth element_schema) element_annotation;
          Ok (json_erase $"format" element_json)
        end
      end
  else if bool_decide (label element_annotation = $"sai_udf") then
    element_json ← GenerateUdfMatchFieldJson HEX_STRING 0 element_annotation;
    Ok (json_erase $"format" element_json)
  else Err kInvalidArgument.

(** The width of an element of format STRING is null, which throws. *)
Definition composite_step (s : Json * Z) (element_annotation : AnnotationComponents) : result (Json * Z) :=
  let '(elements, total_element_bitwidth) := s in
  element_json ← composite_element element_annotation;
  elements ← json_push_back element_json elements;
  width ← json_int (json_get $"bitwidth" element_json);
  Ok (elements, wrapS 32 (total_element_bitwidth + width)).

Definition GenerateCompositeMatchFieldJson (format : Format) (width : Z) (annotation : AnnotationComponents) : result Json :=
  let json := json_object ([($"kind", JString $"composite"); ($"format", JString (Format_Name format))] ++ with_bitwidth format width) in
  element_annotation_strings ← ParseAsArgList (body annotation);
  let element_annotations := GetAllAnnotations element_annotation_strings in
  if negb (bool_decide (length element_annotations = length element_annotation_strings)) then Err kInvalidArgument
  else
    '(elements, total_element_bitwidth) ← fold_result composite_step element_annotations (JNull, 0);
    json_bitwidth ← json_int (json_get $"bitwidth" json);
    if negb (total_element_bitwidth =? json_bitwidth) then Err kInvalidArgument
    else match elements with JNull => Ok json | _ => json_set $"elements" elements json end.

(** At most one of the three annotations; the state is the JSON of the one found. *)
Definition match_step (match_field_ : IrMatchFieldDefinition) (json : option Json) (annotation : AnnotationComponents)
  : result (option Json) :=
  let format := match_format match_field_ in
  let width := bitwidth (match_element (match_field match_field_)) in
  let generate (f : Format → Z → AnnotationComponents → result Json) :=
    match json with
    | Some _ => Err kInvalidArgument
    | None => j ← f format width annotation; Ok (Some j)
    end in
  if bool_decide (label annotation = $"sai_field") then generate GenerateBasicMatchJson
  else if bool_decide (label annotation = $"composite_field") then generate GenerateCompositeMatchFieldJson
  else if bool_decide (label annotation = $"sai_udf") then generate GenerateUdfMatchFieldJson
  else Ok json.

Definition MatchTuple (match_field_ : IrMatchFieldDefinition) : result (str * str) :=
  let name := element_name (match_element (match_field match_field_)) in
  if bool_decide (name = []) then Err kInvalidArgument
  else
    json ← fold_result (match_step match_field_)
             (GetAllAnnotations (element_annotations (match_element (match_field match_field_)))) None;
    match json with
    | None => Err kInvalidArgument
    | Some json => Ok ($"match/" ++ name, dump json)
    end.

(** * Actions *)

(** IrActionInfo::SaiAction: empty strings stand for what an action does not have. *)
Record SaiAction := mkSaiAction { action : str; parameter : str; color : str; object_type : str }.
Record IrActionInfo := mkIrActionInfo { info_name : str; sai_actions : list SaiAction }.

Definition ExtractActionAndColor (arg_list : list str) : result SaiAction :=
  match arg_list with
  | [action] => Ok (mkSaiAction action [] [] [])
  | [action; color] => if IsValidColor color then Ok (mkSaiAction action [] color []) else Err kInvalidArgument
  | _ => Err kInvalidArgument
  end.

Definition ExtractActionParamSaiObjectType (arg_list : list str) : result str :=
  match arg_list with
  | [] => Ok []
  | [type] => if IsValidRedirectObjectType type then Ok type else Err kInvalidArgument
  | _ => Err kInvalidArgument
  end.

(** The annotation of the object type is optional, and ignored when it cannot be parsed. *)
Definition ParseActionParam (param_ : IrActionParamDefinition) : result SaiAction :=
  match GetAnnotationAsArgList $"sai_action_param" (element_annotations (param param_)) with
  | Ok arg_list =>
    sai_action ← ExtractActionAndColor arg_list;
    object_type ←
      match GetAnnotationAsArgList $"sai_action_param_object_type" (element_annotations (param param_)) with
      | Ok types => ExtractActionParamSaiObjectType types
      | Err _ => Ok (object_type sai_action)
      | Die => Die
      end;
    if bool_decide (element_name (param param_) = []) then Err kInvalidArgument
    else Ok (mkSaiAction (action sai_action) (element_name (param param_)) (color sai_action) object_type)
  | Err _ => Err kInvalidArgument
  | Die => Die
  end.

(** [std::map<uint32_t, SaiAction>], iterated in the order of the ids. *)
Definition by_id_before (a b : Z * SaiAction) : Prop := fst a ≤ fst b.
#[local] Instance by_id_before_dec a b : Decision (by_id_before a b).
Proof. unfold by_id_before. apply _. Defined.

Definition ParseAction (action_ : IrActionDefinition) : result IrActionInfo :=
  let name := alias (action_preamble action_) in
  if bool_decide (name = []) then Err kInvalidArgument
  else
    sai_actions ←
      match GetAllAnnotationsAsArgList $"sai_action" (p4_annotations (action_preamble action_)) with
      | Ok arg_lists => map_result ExtractActionAndColor arg_lists
      | Err _ => Ok []
      | Die => Die
      end;
    sai_params ← map_result (λ '(id, ir_param), sai_param ← ParseActionParam ir_param; Ok (id, sai_param))
                   (map_to_list (params_by_id action_));
    Ok (mkIrActionInfo name (sai_actions ++ map snd (merge_sort by_id_before sai_params))).

Definition CreateSaiActionJson (parameter_ : SaiAction) : Json :=
  let when_set (key value : str) := if bool_decide (value = []) then [] else [(key, JString value)] in
  json_object ([($"action", JString (action parameter_))] ++ when_set $"param" (parameter parameter_) ++
    when_set $"packet_color" (color parameter_) ++ when_set $"object_type" (object_type parameter_)).

Definition IrActionInfoToJsonString (action_info : IrActionInfo) : str :=
  dump (match sai_actions action_info with [] => JNull | l => JArray (map CreateSaiActionJson l) end).

(** The empty tuple stands for an action without SAI mapping. *)
Definition ActionTuple (action_ : IrActionDefinition) : result (str * str) :=
  action_info ← ParseAction action_;
  if bool_decide (length (sai_actions action_info) = 0%nat) then Ok ([], [])
  else Ok ($"action/" ++ info_name action_info, IrActionInfoToJsonString action_info).

(** * Tables *)

Definition action_entry (r : IrActionReference) : result (str * str) :=
  action_tuple ← ActionTuple (ref_action r);
  if bool_decide (fst action_tuple = []) then Err kInvalidArgument else Ok action_tuple.

Definition unit_entry (key : str) (unit_name : Z → str) (unit : option Z) : list (str * str) :=
  if default 0 unit =? 0 then [] else [(key, unit_name (default 0 unit))].

Definition priority_entry (ir_table : IrTableDefinition) : result (list (str * str)) :=
  match GetAnnotationBody $"sai_acl_priority" (p4_annotations (preamble ir_table)) with
  | Ok priority => match SimpleAtoi priority with Some _ => Ok [($"priority", priority)] | None => Err kInvalidArgument end
  | Err _ => Ok []
  | Die => Die
  end.

Definition GenerateSonicDbValuesFromIrTable (ir_table : IrTableDefinition) : result FieldValues :=
  stage_tuple ← StageTuple ir_table;
  match GetStage (snd stage_tuple) with
  | None => Err kInvalidArgument
  | Some _ =>
    if bool_decide (match_fields_by_id ir_table = ∅) then Err kInvalidArgument
    else
      match_tuples ← map_result (λ '(_, match_field_), MatchTuple match_field_) (map_to_list (match_fields_by_id ir_table));
      if bool_decide (length (entry_actions ir_table) = 0%nat) then Err kInvalidArgument
      else
        action_tuples ← map_result action_entry (entry_actions ir_table);
        priority ← priority_entry ir_table;
        Ok ([stage_tuple] ++ match_tuples ++ action_tuples ++
            (if 0 <? table_size ir_table then [($"size", StrCatInt (table_size ir_table))] else []) ++
            unit_entry $"meter/unit" MeterUnitName (meter ir_table) ++
            unit_entry $"counter/unit" CounterUnitName (counter ir_table) ++ priority)
  end.

Definition AppDbAclTableDefinition (ir_table : IrTableDefinition) : result KeyOpFieldsValues :=
  key ← GenerateSonicDbKeyFromIrTable ir_table;
  values ← GenerateSonicDbValuesFromIrTable ir_table;
  Ok (mkKfv key [] values).

Definition VerifyAclTableDefinition (ir_table : IrTableDefinition) : result unit :=
  _ ← AppDbAclTableDefinition ir_table; Ok tt.

(** * The P4RT table of the application database *)

Section channel.
Context (strToStatusCode : str → SwssStatusCode) (CHexEscape : str → str).

(** One command, and the status that is reported for it. *)
Definition send_definition (channel : ZmqChannel) (kfv : KeyOpFieldsValues) : result unit * ZmqChannel :=
  let channel := mkZmq (zmq_sent channel ++ [[kfv]]) (zmq_replies channel) in
  match GetAndProcessResponseNotificationWithoutRevertingState strToStatusCode CHexEscape channel
          [(kfvKey kfv, Some 0%nat)] [OkStatus] with
  | (Ok _, status :: _, channel) =>
    (match code status with None => Ok tt | Some _ => Err kInvalidArgument end, channel)
  | (Ok _, [], channel) => (Die, channel)
  | (Err e, _, channel) => (Err e, channel)
  | (Die, _, channel) => (Die, channel)
  end.

Definition RemoveAclTableDefinitionByKey (channel : ZmqChannel) (key : str) : result unit * ZmqChannel :=
  send_definition channel (mkKfv key $"DEL" []).

Definition InsertAclTableDefinition (channel : ZmqChannel) (ir_table : IrTableDefinition) : result unit * ZmqChannel :=
  match
    key ← GenerateSonicDbKeyFromIrTable ir_table;
    values ← GenerateSonicDbValuesFromIrTable ir_table;
    Ok (mkKfv key $"SET" values)
  with
  | Ok kfv => send_definition channel kfv
  | Err e => (Err e, channel)
  | Die => (Die, channel)
  end.

Definition RemoveAclTableDefinition (channel : ZmqChannel) (ir_table : IrTableDefinition) : result unit * ZmqChannel :=
  match GenerateSonicDbKeyFromIrTable ir_table with
  | Ok key => RemoveAclTableDefinitionByKey channel key
  | Err e => (Err e, channel)
  | Die => (Die, channel)
  end.

Definition RemoveAclTableDefinitionByName (channel : ZmqChannel) (table_name : str) : result unit * ZmqChannel :=
  RemoveAclTableDefinitionByKey channel (GenerateSonicDbKeyFromTableName table_name).
End channel.
End acl.

(** * swss_utils.cc *)

(** Both lists of fields, as a map of the left one and a loop over the right one. *)
Definition kfvEq (left right : KeyOpFieldsValues) : bool :=
  if negb (bool_decide (kfvKey left = kfvKey right)) then false
  else if negb (bool_decide (kfvOp left = kfvOp right)) then false
  else if negb (bool_decide (length (kfvFieldsValues left) = length (kfvFieldsValues right))) then false
  else
    let left_values := fold_left (λ m '(field, value), <[field := value]> m) (kfvFieldsValues left) (∅ : gmap str str) in
    forallb (λ '(field, value), bool_decide (left_values !! field = Some value)) (kfvFieldsValues right).

Definition kfvFieldLookup (kfv : KeyOpFieldsValues) (field : str) : result str :=
  match List.find (λ fv, bool_decide (fst fv = field)) (kfvFieldsValues kfv) with
  | Some fv => Ok (snd fv)
  | None => Err kNotFound
  end.

(** * Comparison of definitions *)

Lemma field_values_lookup (l : FieldValues) f v :
  NoDup (map fst l) → fold_left (λ m '(field, value), <[field := value]> m) l (∅ : gmap str str) !! f = Some v ↔ (f, v) ∈ l.
Proof.
  induction l as [|[f' v'] l IH] using rev_ind; intros Hnd; [cbn; rewrite lookup_empty; set_solver|].
  rewrite map_app in Hnd. apply NoDup_app in Hnd as (Hl & Hnew & _). rewrite fold_left_app. cbn [fold_left].
  rewrite elem_of_app, list_elem_of_singleton, lookup_insert_Some, IH by done. split.
  - intros [[-> ->]|[_ Hin]]; auto.
  - intros [Hin|[= -> ->]]; [|by left]. right. split; [|done]. intros ->.
    apply (Hnew f); [apply list_elem_of_fmap; by exists (f, v)|by left].
Qed.

(** Definitions without repeated fields are equal when they have the same key, command and fields in any
    order. *)
Lemma kfvEq_permutation l r :
  NoDup (map fst (kfvFieldsValues l)) → NoDup (map fst (kfvFieldsValues r)) →
  kfvEq l r = true ↔ kfvKey l = kfvKey r ∧ kfvOp l = kfvOp r ∧ kfvFieldsValues l ≡ₚ kfvFieldsValues r.
Proof.
  intros Hl Hr. unfold kfvEq. case_bool_decide as Hk; cbn [negb]; [|by split; [|intros [? _]]].
  case_bool_decide as Ho; cbn [negb]; [|by split; [|intros (_ & ? & _)]].
  case_bool_decide as Hn; cbn [negb].
  - rewrite forallb_forall. split.
    + intros Hall. split_and!; [done..|]. symmetry. apply submseteq_length_Permutation; [|by rewrite Hn].
      apply NoDup_submseteq; [by eapply NoDup_fmap_1|]. intros [f v] Hin.
      specialize (Hall (f, v) ltac:(by apply list_elem_of_In)). apply bool_decide_eq_true_1 in Hall.
      by apply field_values_lookup in Hall.
    + intros (_ & _ & Hp) [f v] Hin%list_elem_of_In. apply bool_decide_eq_true_2, field_values_lookup; [done|].
      by rewrite Hp.
  - split; [done|]. intros (_ & _ & Hp). by apply Permutation_length in Hp.
Qed.

(** * The fields of a definition are distinct *)

Section fields.
Context `{AbslStrings} `{SwssSchema} `{AclLibraries}.

Lemma map_result_names {A} (f : A → result (str * str)) (prefix : str) (name : A → str) l l' :
  map_result f l = Ok l' → (∀ a t, f a = Ok t → fst t = prefix ++ name a) → map fst l' = map (λ a, prefix ++ name a) l.
Proof.
  intros Hl%map_result_Ok Hf. induction Hl as [|a t l l' Ha Hl IH]; [done|]. cbn. by rewrite IH, (Hf a t Ha).
Qed.

Lemma match_tuple_name d t : MatchTuple d = Ok t → fst t = $"match/" ++ element_name (match_element (match_field d)).
Proof.
  unfold MatchTuple. case_bool_decide; [done|]. intros ([json|] & _ & Ht)%bind_Ok_iff; [|done]. by injection Ht as <-.
Qed.
Lemma action_tuple_name r t : action_entry r = Ok t → fst t = $"action/" ++ alias (action_preamble (ref_action r)).
Proof.
  unfold action_entry, ActionTuple, ParseAction. intros (t' & (info & Hinfo & Ht')%bind_Ok_iff & Ht)%bind_Ok_iff.
  destruct (bool_decide (alias _ = [])); [done|]. apply bind_Ok_iff in Hinfo as (acts & _ & (ps & _ & [= <-])%bind_Ok_iff).
  destruct (bool_decide (length _ = _)); injection Ht' as <-; [done|]. cbn [fst] in Ht. case_bool_decide as Hn; [done|by injection Ht as <-].
Qed.

(** The match fields of a table have different names, and so have its actions. *)
Record named_apart (t : IrTableDefinition) : Prop := {
  fields_apart i j d e : match_fields_by_id t !! i = Some d → match_fields_by_id t !! j = Some e →
    element_name (match_element (match_field d)) = element_name (match_element (match_field e)) → i = j;
  actions_apart : NoDup (map (λ r, alias (action_preamble (ref_action r))) (entry_actions t));
}.

Lemma definition_parts t kfv :
  AppDbAclTableDefinition t = Ok kfv →
  kfvKey kfv = GenerateSonicDbKeyFromTableName (preamble_alias t) ∧ kfvOp kfv = [] ∧
  ∃ stage match_tuples action_tuples rest,
    GetAnnotationAsArgList $"sai_acl" (p4_annotations (preamble t)) = Ok [stage] ∧ is_Some (GetStage stage) ∧
    Forall2 (λ d p, MatchTuple (snd d) = Ok p) (map_to_list (match_fields_by_id t)) match_tuples ∧
    map fst match_tuples = map (λ d, $"match/" ++ element_name (match_element (match_field (snd d)))) (map_to_list (match_fields_by_id t)) ∧
    Forall2 (λ r p, action_entry r = Ok p) (entry_actions t) action_tuples ∧
    map fst action_tuples = map (λ r, $"action/" ++ alias (action_preamble (ref_action r))) (entry_actions t) ∧
    kfvFieldsValues kfv = ($"stage", stage) :: match_tuples ++ action_tuples ++ rest ∧
    sublist (map fst rest) [$"size"; $"meter/unit"; $"counter/unit"; $"priority"].
Proof.
  unfold AppDbAclTableDefinition, GenerateSonicDbKeyFromIrTable, GenerateSonicDbValuesFromIrTable, StageTuple, priority_entry.
  intros (key & Hkey & (values & Hv & [= <-])%bind_Ok_iff)%bind_Ok_iff. destruct (bool_decide (preamble_alias t = [])); [done|].
  injection Hkey as <-. split; [done|]. split; [done|]. cbn [kfvFieldsValues].
  destruct (GetAnnotationAsArgList _ _) as [[|stage [|]]| |]; try done. cbn [mbind result_bind snd] in Hv.
  destruct (GetStage stage) as [st|] eqn:Hst; [|done]. destruct (bool_decide (match_fields_by_id t = ∅)); [done|].
  apply bind_Ok_iff in Hv as (ms & Hms & Hv). destruct (bool_decide (length _ = _)); [done|].
  apply bind_Ok_iff in Hv as (acts & Hacts & (prio & Hprio & [= <-])%bind_Ok_iff).
  exists stage, ms, acts. eexists. split; [done|]. split; [done|].
  split; [apply map_result_Ok in Hms; eapply Forall2_impl; [exact Hms|by intros [i d] p]|].
  split; [apply (map_result_names _ _ (λ d, element_name (match_element (match_field (snd d)))) _ _ Hms); intros [i d] p; apply match_tuple_name|].
  split; [by apply map_result_Ok|]. split; [apply (map_result_names _ _ _ _ _ Hacts), action_tuple_name|]. split; [done|].
  rewrite !map_app. unfold unit_entry.
  assert (sublist (map fst prio) [$"priority"]) as Hp.
  { destruct (GetAnnotationBody _ _) as [p| |]; [destruct (SimpleAtoi p); [|done]|..]; simplify_eq; [done|apply sublist_nil_l]. }
  apply (sublist_app _ [$"size"] _ [$"meter/unit"; $"counter/unit"; $"priority"]); [destruct (0 <? _); [done|apply sublist_nil_l]|].
  apply (sublist_app _ [$"meter/unit"] _ [$"counter/unit"; $"priority"]); [destruct (_ =? _); [apply sublist_nil_l|done]|].
  apply (sublist_app _ [$"counter/unit"] _ [$"priority"]); [destruct (_ =? _); [apply sublist_nil_l|done]|done].
Qed.

(** A name that is none of a list of names. *)
Ltac not_among Hr := by repeat (apply elem_of_cons in Hr as [Hr|Hr]; [done|]); apply elem_of_nil in Hr.

Lemma prefix_inj (p a b : str) : p ++ a = p ++ b → a = b.
Proof. apply app_inv_head. Qed.

Lemma definition_fields_distinct t kfv :
  named_apart t → AppDbAclTableDefinition t = Ok kfv → NoDup (map fst (kfvFieldsValues kfv)).
Proof.
  intros [Hf Ha] (_ & _ & stage & ms & acts & rest & _ & _ & _ & Hms & _ & Hacts & -> & Hrest)%definition_parts.
  cbn [map fst]. rewrite !map_app, Hms, Hacts.
  assert (∀ f, f ∈ map fst rest → f ∈ [$"size"; $"meter/unit"; $"counter/unit"; $"priority"]) as Hin
    by (intros f Hf'; exact (elem_of_sublist _ _ _ Hf' Hrest)).
  apply NoDup_cons. split.
  - rewrite !elem_of_app. intros [(d & Hd & _)%list_elem_of_fmap|[(r & Hr & _)%list_elem_of_fmap|Hr%Hin]]; [done..|].
    not_among Hr.
  - apply NoDup_app. split_and!.
    + apply NoDup_fmap_2_strong; [|apply NoDup_map_to_list].
      intros [i d] [j e] Hd%elem_of_map_to_list He%elem_of_map_to_list Hn%prefix_inj. cbn in Hn.
      pose proof (Hf i j d e Hd He Hn) as <-. congruence.
    + intros f (d & -> & _)%list_elem_of_fmap. rewrite elem_of_app. intros [(r & Hr & _)%list_elem_of_fmap|Hr%Hin]; [done|].
      not_among Hr.
    + apply NoDup_app. split_and!.
      * rewrite <-(map_map (λ r, alias (action_preamble (ref_action r))) (λ n, $"action/" ++ n)).
        apply NoDup_fmap_2; [|exact Ha]. intros a b. apply prefix_inj.
      * intros f (r & -> & _)%list_elem_of_fmap Hr%Hin.
        not_among Hr.
      * eapply sublist_NoDup; [|exact Hrest]. apply (bool_decide_unpack _). vm_compute. exact I.
Qed.

Lemma field_lookup kfv f v :
  NoDup (map fst (kfvFieldsValues kfv)) → (f, v) ∈ kfvFieldsValues kfv → kfvFieldLookup kfv f = Ok v.
Proof.
  unfold kfvFieldLookup. generalize (kfvFieldsValues kfv). intros l. induction l as [|[f' v'] l IH]; [by intros _ ?%elem_of_nil|].
  intros [Hnew Hnd]%NoDup_cons Hin. cbn [List.find fst]. case_bool_decide as Hf.
  - apply elem_of_cons in Hin as [[= -> ->]|Hin]; [done|]. destruct Hnew. apply list_elem_of_fmap. by exists (f, v); subst.
  - apply elem_of_cons in Hin as [[= -> ->]|Hin]; [done|]. by apply IH.
Qed.

(** C23.  The definition of an ACL table.  It has one field for the stage, one for every match field and one for
    every action, each with the JSON of its annotations, and no field twice; so the comparison of two
    definitions finds them equal exactly when they have the same key and the same fields, in any order. *)
Theorem acl_definition_exact (t : IrTableDefinition) (kfv : KeyOpFieldsValues) :
  named_apart t → AppDbAclTableDefinition t = Ok kfv →
  kfvKey kfv = GenerateSonicDbKeyFromTableName (preamble_alias t) ∧
  NoDup (map fst (kfvFieldsValues kfv)) ∧
  (∃ stage, GetAnnotationAsArgList $"sai_acl" (p4_annotations (preamble t)) = Ok [stage] ∧ is_Some (GetStage stage) ∧
     kfvFieldLookup kfv $"stage" = Ok stage) ∧
  (∀ i d, match_fields_by_id t !! i = Some d →
     let name := $"match/" ++ element_name (match_element (match_field d)) in
     ∃ json, MatchTuple d = Ok (name, json) ∧ kfvFieldLookup kfv name = Ok json) ∧
  (∀ r, r ∈ entry_actions t →
     let name := $"action/" ++ alias (action_preamble (ref_action r)) in
     ∃ json, ActionTuple (ref_action r) = Ok (name, json) ∧ kfvFieldLookup kfv name = Ok json) ∧
  ∀ t' kfv', named_apart t' → AppDbAclTableDefinition t' = Ok kfv' →
    (kfvEq kfv kfv' = true ↔ kfvKey kfv = kfvKey kfv' ∧ kfvFieldsValues kfv ≡ₚ kfvFieldsValues kfv').
Proof.
  intros Hapart Hkfv. pose proof (definition_fields_distinct t kfv Hapart Hkfv) as Hnd.
  destruct (definition_parts t kfv Hkfv) as (Hkey & Hop & stage & ms & acts & rest & Hst & Hs & Hms & _ & Hacts & _ & Hfv & _).
  assert (∀ f v, (f, v) ∈ ($"stage", stage) :: ms ++ acts ++ rest → kfvFieldLookup kfv f = Ok v) as Hlook
    by (intros f v Hin; apply field_lookup; [done|by rewrite Hfv]).
  split_and!; [done|done|..].
  - exists stage. split_and!; [done..|]. apply Hlook. by left.
  - intros i d Hd%elem_of_map_to_list. destruct (Forall2_in_l _ _ _ _ Hms Hd) as ([name json] & Hin & Hm). cbn [snd] in Hm.
    pose proof (match_tuple_name _ _ Hm) as Hn. cbn [fst] in Hn. subst name. exists json. split; [done|].
    apply Hlook. right. apply elem_of_app. by left.
  - intros r Hr. destruct (Forall2_in_l _ _ _ _ Hacts Hr) as ([name json] & Hin & Ha).
    pose proof (action_tuple_name _ _ Ha) as Hn. cbn [fst] in Hn. subst name. exists json. split.
    + unfold action_entry in Ha. apply bind_Ok_iff in Ha as (p & Hp & Ha). by case_bool_decide; simplify_eq.
    + apply Hlook. right. rewrite !elem_of_app. by right; left.
  - intros t' kfv' Hapart' Hkfv'. rewrite kfvEq_permutation by (try done; by eapply definition_fields_distinct).
    destruct (definition_parts t' kfv' Hkfv') as (_ & Hop' & _). rewrite Hop, Hop'. tauto.
Qed.

(** * What throws *)

(** The elements of composite fields have widths: the schema knows no field of format STRING, and the program
    no composite field of that format. *)
Definition schema_sized : Prop := ∀ name s, MatchFieldSchemaByName name = Some s → Format_Parse (acl_format_name s) ≠ Some STRING.
Definition composite_sized (d : IrMatchFieldDefinition) : Prop :=
  match_format d = STRING →
  ∀ a, a ∈ GetAllAnnotations (element_annotations (match_element (match_field d))) → label a ≠ $"composite_field".

Lemma arg_loop_no_die value scope token tokens : no_die (arg_loop value scope token tokens).
Proof.
  revert scope token tokens. induction value as [|c value IH]; intros scope token tokens; cbn [arg_loop]; [no_die|].
  repeat (case_if; try apply IH; try done). destruct (classify c); try apply IH; done.
Qed.
Lemma GetAllParsed_no_die {T} (parser : str → result T) label_ annotations :
  (∀ s, no_die (parser s)) → no_die (GetAllParsedAnnotations parser label_ annotations).
Proof.
  intros Hp. induction annotations as [|a l IH]; cbn [GetAllParsedAnnotations]; [no_die|].
  destruct (ParseAnnotation a) as [c| |]; [|apply IH..]. case_bool_decide; [|apply IH].
  apply no_die_bind; [apply Hp|]. intros v. apply no_die_bind; [apply IH|]. no_die.
Qed.
Lemma GetParsed_no_die {T} (parser : str → result T) label_ annotations :
  (∀ s, no_die (parser s)) → no_die (GetParsedAnnotation parser label_ annotations).
Proof.
  intros Hp. unfold GetParsedAnnotation. apply no_die_bind; [by apply GetAllParsed_no_die|]. intros [|v [|]]; no_die.
Qed.
Lemma ParseAsArgList_no_die s : no_die (ParseAsArgList s).
Proof. apply arg_loop_no_die. Qed.
Lemma GetAnnotationAsArgList_no_die label_ annotations : no_die (GetAnnotationAsArgList label_ annotations).
Proof. apply GetParsed_no_die, ParseAsArgList_no_die. Qed.
Lemma GetAllAnnotationsAsArgList_no_die label_ annotations : no_die (GetAllAnnotationsAsArgList label_ annotations).
Proof. apply GetAllParsed_no_die, ParseAsArgList_no_die. Qed.
Lemma GetAnnotationBody_no_die label_ annotations : no_die (GetAnnotationBody label_ annotations).
Proof. apply GetParsed_no_die. no_die. Qed.
#[local] Hint Resolve ParseAsArgList_no_die GetAnnotationAsArgList_no_die GetAllAnnotationsAsArgList_no_die
  GetAnnotationBody_no_die : no_die.

Lemma GenerateUdf_no_die format width a : no_die (GenerateUdfMatchFieldJson format width a).
Proof.
  unfold GenerateUdfMatchFieldJson. apply no_die_bind; [no_die|]. intros l. apply no_die_bind.
  - apply fold_result_no_die. intros c p. unfold udf_step. destruct (StrSplit p _) as [|n [|v [|]]]; try done.
    repeat case_if; try done; destruct c as [[] [] []], (SimpleAtoi v); cbn; repeat case_if; done.
  - intros [[] [] []]; cbn; repeat case_if; done.
Qed.

Lemma udf_width format width a j : GenerateUdfMatchFieldJson format width a = Ok j →
  ∃ w, json_get $"bitwidth" (json_erase $"format" j) = JInt w.
Proof.
  unfold GenerateUdfMatchFieldJson. intros (l & _ & (c & _ & Hj)%bind_Ok_iff)%bind_Ok_iff.
  destruct (udf_base c), (udf_offset c), (udf_bitwidth c) as [w|]; try done. destruct (_ && _); [done|].
  injection Hj as <-. exists w. reflexivity.
Qed.
Lemma basic_width format width a j : format ≠ STRING → GenerateBasicMatchJson format width a = Ok j →
  json_get $"bitwidth" (json_erase $"format" j) = JInt width.
Proof.
  intros Hf. unfold GenerateBasicMatchJson. case_bool_decide; [done|]. intros [= <-].
  unfold with_bitwidth. rewrite bool_decide_eq_false_2 by done. reflexivity.
Qed.

Lemma composite_element_sized a : schema_sized →
  no_die (composite_element a) ∧ ∀ j, composite_element a = Ok j → ∃ w, json_get $"bitwidth" j = JInt w.
Proof.
  intros Hs. unfold composite_element. case_bool_decide as Hl.
  - case_bool_decide; [done|]. destruct (MatchFieldSchemaByName _) as [s|] eqn:Hn; [|done].
    destruct (Format_Parse _) as [f|] eqn:Hf; [|done]. assert (f ≠ STRING) as Hne by (intros ->; by apply (Hs _ _ Hn)). split.
    + apply no_die_bind; [unfold GenerateBasicMatchJson; case_bool_decide; done|]. no_die.
    + intros j (j' & Hj' & [= <-])%bind_Ok_iff. eexists. by eapply basic_width.
  - case_bool_decide; [|done]. split.
    + apply no_die_bind; [apply GenerateUdf_no_die|]. no_die.
    + intros j (j' & Hj' & [= <-])%bind_Ok_iff. by eapply udf_width.
Qed.

Lemma composite_loop_no_die l elements total :
  schema_sized → (elements = JNull ∨ ∃ e, elements = JArray e) → no_die (fold_result composite_step l (elements, total)).
Proof.
  intros Hs. revert elements total. induction l as [|a l IH]; intros elements total He; cbn [fold_result]; [no_die|].
  destruct (composite_element_sized a Hs) as [Hd Hw]. unfold composite_step.
  destruct (composite_element a) as [j| |]; [|done..]. destruct (Hw j eq_refl) as [w Hj]. cbn [mbind result_bind].
  destruct He as [->|[e ->]]; cbn [json_push_back mbind result_bind]; rewrite Hj; cbn [json_int mbind result_bind];
    apply IH; right; by eexists.
Qed.

Lemma GenerateComposite_no_die format width a :
  schema_sized → format ≠ STRING → no_die (GenerateCompositeMatchFieldJson format width a).
Proof.
  intros Hs Hf. unfold GenerateCompositeMatchFieldJson. apply no_die_bind; [no_die|]. intros l.
  case_if; [done|]. apply no_die_bind; [apply composite_loop_no_die; [done|by left]|]. intros [elements total].
  unfold with_bitwidth. rewrite bool_decide_eq_false_2 by done.
  apply no_die_bind; [done|]. intros w. case_if; [done|]. by destruct elements.
Qed.

Lemma MatchTuple_no_die d : schema_sized → composite_sized d → no_die (MatchTuple d).
Proof.
  intros Hs Hc. unfold MatchTuple. case_bool_decide; [done|]. apply no_die_bind; [|intros [json|]; no_die].
  assert (∀ l json, (∀ a, a ∈ l → match_format d = STRING → label a ≠ $"composite_field") →
    no_die (fold_result (match_step d) l json)) as Hloop; [|apply Hloop; intros a Ha Hf; by apply Hc].
  induction l as [|a l IH]; intros json Hl; cbn [fold_result]; [no_die|].
  apply no_die_bind; [|intros j; apply IH; intros b Hb; apply Hl; by right].
  unfold match_step. case_bool_decide; [|case_bool_decide as Hcomp; [|case_bool_decide; [|no_die]]];
    (destruct json as [j|]; [no_die|]); (apply no_die_bind; [|no_die]).
  - unfold GenerateBasicMatchJson. case_if; done.
  - apply GenerateComposite_no_die; [done|]. intros Hf. by apply (Hl a); [left|..].
  - apply GenerateUdf_no_die.
Qed.

Lemma ExtractActionAndColor_no_die l : no_die (ExtractActionAndColor l).
Proof. destruct l as [|a [|c [|]]]; cbn; no_die. Qed.

Lemma ParseAction_no_die a : no_die (ParseAction a).
Proof.
  unfold ParseAction. case_if; [done|]. apply no_die_bind.
  - pose proof (GetAllAnnotationsAsArgList_no_die $"sai_action" (p4_annotations (action_preamble a))) as Hd.
    destruct (GetAllAnnotationsAsArgList _ _); [|done..]. apply map_result_no_die. intros x _. apply ExtractActionAndColor_no_die.
  - intros acts. apply no_die_bind; [|no_die]. apply map_result_no_die. intros [i p] _. apply no_die_bind; [|no_die].
    unfold ParseActionParam. pose proof (GetAnnotationAsArgList_no_die $"sai_action_param" (element_annotations (param p))) as Hd.
    destruct (GetAnnotationAsArgList _ _); [|done..]. apply no_die_bind; [apply ExtractActionAndColor_no_die|]. intros sa.
    apply no_die_bind; [|intros o; no_die].
    pose proof (GetAnnotationAsArgList_no_die $"sai_action_param_object_type" (element_annotations (param p))) as Hd'.
    destruct (GetAnnotationAsArgList _ _) as [types| |]; [|done..]. destruct types as [|ty [|]]; cbn; no_die.
Qed.

(** No definition aborts, when composite fields have widths. *)
Lemma AppDbAclTableDefinition_no_die t :
  schema_sized → (∀ i d, match_fields_by_id t !! i = Some d → composite_sized d) → no_die (AppDbAclTableDefinition t).
Proof.
  intros Hs Hc. unfold AppDbAclTableDefinition, GenerateSonicDbKeyFromIrTable, GenerateSonicDbValuesFromIrTable.
  apply no_die_bind; [no_die|]. intros key. apply no_die_bind; [|no_die]. apply no_die_bind.
  - unfold StageTuple. pose proof (GetAnnotationAsArgList_no_die $"sai_acl" (p4_annotations (preamble t))) as Hd.
    destruct (GetAnnotationAsArgList _ _) as [[|? [|]]| |]; done.
  - intros st. destruct (GetStage _); [|done]. case_if; [done|]. apply no_die_bind.
    + apply map_result_no_die. intros [i d] Hd%elem_of_map_to_list. apply MatchTuple_no_die; [done|by eapply Hc].
    + intros ms. case_if; [done|]. apply no_die_bind.
      * apply map_result_no_die. intros r _. unfold action_entry, ActionTuple.
        apply no_die_bind; [apply no_die_bind; [apply ParseAction_no_die|]|]; intros x; no_die.
      * intros acts. apply no_die_bind; [|no_die]. unfold priority_entry.
        pose proof (GetAnnotationBody_no_die $"sai_acl_priority" (p4_annotations (preamble t))) as Hd.
        destruct (GetAnnotationBody _ _) as [p| |]; [destruct (SimpleAtoi p)|..]; done.
Qed.
End fields.

(** * Examples *)

(** Printing, for evaluating examples. *)
Definition quoted (s : str) : str := "034"%char :: s ++ ["034"%char].
Fixpoint ref_dump (json : Json) : str :=
  match json with
  | JNull => $"null"
  | JString s => quoted s
  | JInt z => if z <? 0 then "-"%char :: decimal (- z) else decimal z
  | JOther text => text
  | JArray l => $"[" ++ str_join ","%char (map ref_dump l) ++ $"]"
  | JObject fields => $"{" ++ str_join ","%char (map (λ '(k, v), quoted k ++ $":" ++ ref_dump v) fields) ++ $"}"
  end.

#[export] Instance ref_acl : AclLibraries | 100 := {|
  Stage := str;
  kLookup := $"LOOKUP";
  StageFromName name := if bool_decide (name ∈ [$"INGRESS"; $"EGRESS"]) then Some name else None;
  MatchFieldSchemaByName name :=
    if bool_decide (name ∈ [$"SAI_ACL_TABLE_ATTR_FIELD_SRC_IPV6_WORD3"; $"SAI_ACL_TABLE_ATTR_FIELD_SRC_IPV6_WORD2"])
    then Some (mkAclMatchFieldSchema 32 $"HEX_STRING")
    else if bool_decide (name = $"SAI_ACL_TABLE_ATTR_FIELD_IN_PORT") then Some (mkAclMatchFieldSchema 0 $"STRING") else None;
  dump := ref_dump;
  SimpleAtoi s := if bool_decide (s = []) || existsb (λ c, negb ((48 <=? uchar c) && (uchar c <=? 57))) s then None
                  else Some (fold_left (λ acc c, acc * 10 + (uchar c - 48)) s 0);
  MeterUnitName z := if z =? 1 then $"BYTES" else $"PACKETS";
  CounterUnitName z := if z =? 1 then $"BYTES" else if z =? 2 then $"PACKETS" else $"BOTH";
|}.

Definition acl_field (id : Z) (name annotation : str) (format : Format) (width : Z) : IrMatchFieldDefinition :=
  mkIrMatchFieldDefinition (mkMatchField (mkElement id name [annotation] width None) TERNARY) format [] false.

Definition acl_example (fields : list IrMatchFieldDefinition) : IrTableDefinition :=
  mkIrTableDefinition (mkPreamble 1 $"acl_ingress_table" $"acl_ingress_table" [$"@sai_acl(INGRESS)"; $"@sai_acl_priority(5)"])
    (list_to_map (map (λ d, (element_id (match_element (match_field d)), d)) fields))
    (list_to_map (map (λ d, (element_name (match_element (match_field d)), d)) fields))
    [mkIrActionReference 1 (mkIrActionDefinition
       (mkPreamble 1 $"copy" $"copy" [$"@sai_action(SAI_PACKET_ACTION_COPY, SAI_PACKET_COLOR_GREEN)"])
       {[1 := mkIrActionParamDefinition (mkElement 1 $"qos" [$"@sai_action_param(QOS_QUEUE)"] 0 None) STRING []]} ∅ false) 0]
    [] 128 false None true (Some 1) (Some 3) None [] false [] [].

Definition composite_annotation : str :=
  $"@composite_field(@sai_field(SAI_ACL_TABLE_ATTR_FIELD_SRC_IPV6_WORD3), @sai_udf(base=SAI_UDF_BASE_L3, offset=24, length=4))".

Example acl_example_definition :
  AppDbAclTableDefinition (acl_example [acl_field 1 $"ttl" $"@sai_field(TTL)" HEX_STRING 8]) =
  Ok (mkKfv $"ACL_TABLE_DEFINITION_TABLE:ACL_ACL_INGRESS_TABLE" []
    [($"stage", $"INGRESS");
     ($"match/ttl", dump (json_object [($"bitwidth", JInt 8); ($"format", JString $"HEX_STRING");
                                       ($"kind", JString $"sai_field"); ($"sai_field", JString $"TTL")]));
     ($"action/copy", dump (JArray [json_object [($"action", JString $"SAI_PACKET_ACTION_COPY"); ($"packet_color", JString $"SAI_PACKET_COLOR_GREEN")];
                                    json_object [($"action", JString $"QOS_QUEUE"); ($"param", JString $"qos")]]));
     ($"size", $"128"); ($"meter/unit", $"BYTES"); ($"counter/unit", $"BOTH"); ($"priority", $"5")]).
Proof. vm_compute. reflexivity. Qed.

(** Elements of 32 and 32 bits make a field of 64; a field of format STRING throws. *)
Example composite_widths :
  is_Ok (AppDbAclTableDefinition (acl_example [acl_field 1 $"src" composite_annotation IPV6 64])) = true ∧
  AppDbAclTableDefinition (acl_example [acl_field 1 $"src" composite_annotation IPV6 63]) = Err kInvalidArgument ∧
  AppDbAclTableDefinition (acl_example [acl_field 1 $"src" composite_annotation STRING 0]) = Die.
Proof. repeat split; vm_compute; reflexivity. Qed.

Definition acl_table_of (width : Z) : IrTableDefinition :=
  acl_example [acl_field 1 $"ttl" $"@sai_field(TTL)" HEX_STRING width; acl_field 2 $"src" composite_annotation IPV6 64].
Definition acl_definition_of (width : Z) : KeyOpFieldsValues := ok_or (AppDbAclTableDefinition (acl_table_of width)) (mkKfv [] [] []).

Lemma acl_table_apart width : named_apart (acl_table_of width).
Proof.
  split.
  - intros i j d e. cbn. rewrite !lookup_insert_Some, !lookup_empty. naive_solver.
  - apply (bool_decide_unpack _). vm_compute. exact I.
Qed.

Lemma acl_definition_exact_witness :
  (named_apart (acl_table_of 8) ∧ AppDbAclTableDefinition (acl_table_of 8) = Ok (acl_definition_of 8)) ∧
  kfvFieldLookup (acl_definition_of 8) $"stage" = Ok $"INGRESS" ∧
  ¬ kfvFieldsValues (acl_definition_of 8) ≡ₚ kfvFieldsValues (acl_definition_of 9).
Proof.
  assert (∀ width, width = 8 ∨ width = 9 → AppDbAclTableDefinition (acl_table_of width) = Ok (acl_definition_of width)) as Hdef
    by (intros width [-> | ->]; apply ok_or_eq; vm_compute; reflexivity).
  split; [split; [exact (acl_table_apart 8)|apply Hdef; by left]|].
  destruct (acl_definition_exact (acl_table_of 8) (acl_definition_of 8) (acl_table_apart 8) (Hdef 8 (or_introl eq_refl)))
    as (Hkey & _ & (stage & Hst & _ & Hlook) & _ & _ & Heq).
  split.
  - rewrite Hlook. f_equal. vm_compute in Hst. by injection Hst as <-.
  - intros Hp. assert (kfvEq (acl_definition_of 8) (acl_definition_of 9) = false) as Hne by (vm_compute; reflexivity).
    assert (kfvKey (acl_definition_of 8) = kfvKey (acl_definition_of 9)) as Hk by (vm_compute; reflexivity).
    pose proof (proj2 (Heq (acl_table_of 9) (acl_definition_of 9) (acl_table_apart 9) (Hdef 9 (or_intror eq_refl)))
      (conj Hk Hp)) as Htrue. rewrite Hne in Htrue. discriminate Htrue.
Defined.
