(* ===== verification/AppDbEntry.v ===== *)
(** p4rt_app/sonic: [app_db_to_pdpi_ir_translator.cc], [packet_replication_entry_translation.cc],
    [vrf_entry_translation.cc], [vlan_entry_translation.cc] and the parts of [app_db_manager.cc] that encode and
    read entries.  An entry is a key and a list of fields in the application database; keys and action sets
    are JSON values. *)
From S2P Require Import Prelude Abseil DecimalString IrUtils EntityKeys IrData AppDb TableTypes AclTable.

(** * Libraries *)

(** nlohmann::json, absl numbers and case, swss/schema.h, and the meter counters, which are kept serialized.
    [StrCatSigned] is [absl::StrCat] of an integer, [Hex4] and [Hex03x] are [absl::Hex] with [kZeroPad4] and the
    conversion "%03x" of [absl::StrFormat]; [other_int] is [get<int>] of a boolean or a fraction. *)
Inductive Color := green | yellow | red.
Class EntryLibraries := {
  parse : str → option Json;
  is_utf8 : str → bool;
  other_int : str → Z;
  AsciiStrToLower : str → str;
  StrCatSigned : Z → str;
  SimpleAtoi64 : str → option Z;
  SimpleAtoiU64 : str → option Z;
  SimpleAtoiU32 : str → option Z;
  SimpleHexAtoiU32 : str → option Z;
  Hex4 : Z → str;
  Hex03x : Z → str;
  APP_P4RT_REPLICATION_IP_MULTICAST_TABLE_NAME : str;
  set_meter_packet_count : Color → Z → option str → option str;
  set_meter_byte_count : Color → Z → option str → option str;
}.

(** [std::stoi]: leading whitespace, a sign, digits; what follows is ignored.  It throws when there is no digit
    and when the number is not an [int]. *)
Fixpoint take_digits (s : str) : str :=
  match s with [] => [] | c :: s => if isdigit c then c :: take_digits s else [] end.
Fixpoint skip_space (s : str) : str :=
  match s with [] => [] | c :: s' => if is_space_char c then skip_space s' else s end.
Definition digits_int (negative : bool) (s : str) : result Z :=
  match take_digits s with
  | [] => Die
  | digits =>
    let v := fold_left (λ v c, v * 10 + (uchar c - 48)) digits 0 in
    let v := if negative then - v else v in
    if (- 2 ^ 31 <=? v) && (v <? 2 ^ 31) then Ok v else Die
  end.
Definition stoi (s : str) : result Z :=
  match skip_space s with
  | c :: s => if bool_decide (c = "-"%char) then digits_int true s
              else if bool_decide (c = "+"%char) then digits_int false s else digits_int false (c :: s)
  | [] => Die
  end.

(** [std::string::find] of a character, with what is before and after it. *)
Fixpoint find_char (d : ascii) (s : str) : option (str * str) :=
  match s with
  | [] => None
  | c :: s => if bool_decide (c = d) then Some ([], s) else '(l, r) ← find_char d s; Some (c :: l, r)
  end.

Section entries.
Context `{AbslStrings} `{SwssSchema} `{AclLibraries} `{EntryLibraries}.

(** * JSON *)

(** [dump] throws on a string that is not UTF-8. *)
Fixpoint json_utf8 (j : Json) : bool :=
  match j with
  | JString s => is_utf8 s
  | JArray l => forallb json_utf8 l
  | JObject fields => forallb (λ '(k, v), is_utf8 k && json_utf8 v) fields
  | _ => true
  end.
Definition Dump (j : Json) : result str := if json_utf8 j then Ok (dump j) else Die.

(** [get<std::string>()], [get<int>()], and the values of a range-based loop: it visits a number or a string
    once. *)
Definition get_string (j : Json) : result str := match j with JString s => Ok s | _ => Die end.
Definition get_int (j : Json) : result Z :=
  match j with JInt z => Ok (wrapS 32 z) | JOther text => Ok (other_int text) | _ => Die end.
Definition json_items (j : Json) : list Json :=
  match j with JNull => [] | JArray l => l | JObject fields => map snd fields | j => [j] end.
(** [key()] of an iterator throws unless it belongs to an object. *)
Definition json_fields (j : Json) : result (list (str * Json)) :=
  match j with JObject fields => Ok fields | JNull | JArray [] => Ok [] | _ => Die end.
(** [at(key)]. *)
Definition json_at (key : str) (j : Json) : result Json :=
  match j with JObject fields => FindOrDie (bt_find key fields) | _ => Die end.
(** [find(key) != end()]. *)
Definition json_has (key : str) (j : Json) : bool :=
  match j with JObject fields => bool_decide (is_Some (bt_find key fields)) | _ => false end.

(** * Keys *)

Definition kMatchPrefix : str := $"match/".
Definition kActionParamPrefix : str := $"param/".

Definition AddAppDbMatchPrefix (key : str) : str := kMatchPrefix ++ key.
Definition StripAppDbMatchPrefix (key : str) : result str :=
  match ConsumePrefix key kMatchPrefix with Some s => Ok s | None => Err kInvalidArgument end.
Definition AddAppDbActionParamPrefix (param : str) : str := kActionParamPrefix ++ param.
Definition StripAppDbActionParamPrefix (key : str) : result str :=
  match ConsumePrefix key kActionParamPrefix with Some s => Ok s | None => Err kInvalidArgument end.

(** [substr(find(':') + 1)]: the whole key when there is no colon. *)
Definition SonicDbKeyToAppDbKey (app_db_key : str) : str :=
  match find_char ":"%char app_db_key with Some (_, rest) => rest | None => app_db_key end.

Definition SonicDbKeyToP4TableName (app_db_key : str) : result str :=
  match StrSplit app_db_key ":"%char with
  | [] => Ok []
  | sonic_table_name :: _ =>
    let '(type_name, name) :=
      match find_char "_"%char sonic_table_name with
      | Some (type_name, rest) => (type_name, rest)
      | None => (sonic_table_name, sonic_table_name)
      end in
    _ ← (match TypeParse type_name with Err _ => Err kInvalidArgument | r => r end);
    Ok (AsciiStrToLower name)
  end.

(** * Values *)

Definition IrValueToAppDbString (value : IrValue) : result str :=
  match value with
  | kHexStr s | kIpv4 s | kIpv6 s | kMac s | kStr s => Ok s
  | FORMAT_NOT_SET => Err kInvalidArgument
  end.

Definition AppDbLpmValueToIrLpmMatch (value : str) (format : Format) : result Ir.MatchValue :=
  match StrSplit value "/"%char with
  | [address; length_] =>
    v ← FormattedStringToIrValue address format; prefix_length ← stoi length_; Ok (Ir.kLpm v prefix_length)
  | _ => Err kInvalidArgument
  end.

Definition AppDbTernaryValuttoIrTernaryMatch (value : str) (format : Format) : result Ir.MatchValue :=
  match StrSplit value "&"%char with
  | [v; mask] =>
    v ← FormattedStringToIrValue v format; mask ← FormattedStringToIrValue mask format; Ok (Ir.kTernary v mask)
  | _ => Err kInvalidArgument
  end.

Definition AppDbKeyValueStringsToIrMatch (ir_p4_info : IrP4Info) (table_name key value : str) : result Ir.Match :=
  match tables_by_name ir_p4_info !! AsciiStrToLower table_name with
  | None => Err kNotFound
  | Some p4_table =>
    match match_fields_by_name p4_table !! AsciiStrToLower key with
    | None => Err kNotFound
    | Some p4_match_field =>
      let format := match_format p4_match_field in
      match match_type (match_field p4_match_field) with
      | EXACT => v ← FormattedStringToIrValue value format; Ok (Ir.mkMatch key (Ir.kExact v))
      | LPM => m ← AppDbLpmValueToIrLpmMatch value format; Ok (Ir.mkMatch key m)
      | TERNARY => m ← AppDbTernaryValuttoIrTernaryMatch value format; Ok (Ir.mkMatch key m)
      | OPTIONAL => v ← FormattedStringToIrValue value format; Ok (Ir.mkMatch key (Ir.kOptional v))
      | _ => Err kInvalidArgument
      end
    end
  end.

Definition AppDbNameValueStringsToIrActionParam (ir_p4_info : IrP4Info) (table_name action_name app_db_param_name value : str)
  : result (str * IrValue) :=
  param_name ← StripAppDbActionParamPrefix app_db_param_name;
  match tables_by_name ir_p4_info !! AsciiStrToLower table_name with
  | None => Err kNotFound
  | Some p4_table =>
    match list_find (λ action, alias (action_preamble (ref_action action)) = action_name) (entry_actions p4_table) with
    | None => Err kInvalidArgument
    | Some (_, action) =>
      match params_by_name (ref_action action) !! param_name with
      | None => Err kNotFound
      | Some p4_action_param => v ← FormattedStringToIrValue value (param_format p4_action_param); Ok (param_name, v)
      end
    end
  end.

(** * Actions *)

Definition invocation_field (ir_p4_info : IrP4Info) (table_name action_name : str) (i : Ir.ActionSetInvocation)
  (obj : str * Json) : result Ir.ActionSetInvocation :=
  let '(key, value) := obj in
  if bool_decide (key = $"action") || bool_decide (key = $"weight") then Ok i
  else if bool_decide (key = $"watch_port") then
    port ← get_string value; Ok (Ir.mkInvocation (Ir.action_ i) (Ir.weight_ i) port)
  else
    value ← get_string value;
    p ← AppDbNameValueStringsToIrActionParam ir_p4_info table_name action_name key value;
    Ok (Ir.mkInvocation (Ir.mkAction (Ir.action_name (Ir.action_ i)) (Ir.params (Ir.action_ i) ++ [p]))
          (Ir.weight_ i) (Ir.watch_port i)).

(** The two [try] blocks turn exceptions into errors. *)
Definition catch {A} (r : result A) (e : StatusCode) : result A := match r with Ok a => Ok a | _ => Err e end.

Definition read_invocation (ir_p4_info : IrP4Info) (table_name : str) (json_action : Json) : result Ir.ActionSetInvocation :=
  action_name ← catch (j ← json_at $"action" json_action; get_string j) kInvalidArgument;
  weight ← catch (j ← json_at $"weight" json_action; get_int j) kInvalidArgument;
  fields ← json_fields json_action;
  fold_result (invocation_field ir_p4_info table_name action_name) fields
    (Ir.mkInvocation (Ir.mkAction action_name []) weight []).

Definition AppDbValueToIrActionSet (ir_p4_info : IrP4Info) (table_name app_db_entry : str)
  : result (list Ir.ActionSetInvocation) :=
  match parse app_db_entry with
  | None => Err kInternal
  | Some json => map_result (read_invocation ir_p4_info table_name) (json_items json)
  end.

Definition set_priority (z : Z) (e : Ir.TableEntry) : Ir.TableEntry :=
  Ir.mkEntry (Ir.table_name e) (Ir.matches e) z (Ir.entry_action e) (Ir.entry_meter_config e) (Ir.entry_counter_data e)
    (Ir.entry_meter_counter_data e) (Ir.entry_controller_metadata e).
Definition add_match (m : Ir.Match) (e : Ir.TableEntry) : Ir.TableEntry :=
  Ir.mkEntry (Ir.table_name e) (Ir.matches e ++ [m]) (Ir.entry_priority e) (Ir.entry_action e) (Ir.entry_meter_config e)
    (Ir.entry_counter_data e) (Ir.entry_meter_counter_data e) (Ir.entry_controller_metadata e).
Definition set_action (a : Ir.EntryAction) (e : Ir.TableEntry) : Ir.TableEntry :=
  Ir.mkEntry (Ir.table_name e) (Ir.matches e) (Ir.entry_priority e) a (Ir.entry_meter_config e) (Ir.entry_counter_data e)
    (Ir.entry_meter_counter_data e) (Ir.entry_controller_metadata e).
Definition set_meter_config (m : option MeterConfig) (e : Ir.TableEntry) : Ir.TableEntry :=
  Ir.mkEntry (Ir.table_name e) (Ir.matches e) (Ir.entry_priority e) (Ir.entry_action e) m (Ir.entry_counter_data e)
    (Ir.entry_meter_counter_data e) (Ir.entry_controller_metadata e).
Definition set_counters (c : option CounterData) (m : option str) (e : Ir.TableEntry) : Ir.TableEntry :=
  Ir.mkEntry (Ir.table_name e) (Ir.matches e) (Ir.entry_priority e) (Ir.entry_action e) (Ir.entry_meter_config e) c m
    (Ir.entry_controller_metadata e).
Definition set_controller_metadata (s : str) (e : Ir.TableEntry) : Ir.TableEntry :=
  Ir.mkEntry (Ir.table_name e) (Ir.matches e) (Ir.entry_priority e) (Ir.entry_action e) (Ir.entry_meter_config e)
    (Ir.entry_counter_data e) (Ir.entry_meter_counter_data e) s.
Definition new_entry (table_name : str) : Ir.TableEntry := Ir.mkEntry table_name [] 0 Ir.kNoAction None None None [].

Definition key_field (ir_p4_info : IrP4Info) (table_name : str) (entry : Ir.TableEntry) (obj : str * Json)
  : result Ir.TableEntry :=
  let '(name, value) := obj in
  if bool_decide (name = $"priority") then z ← get_int value; Ok (set_priority z entry)
  else
    key ← StripAppDbMatchPrefix name;
    value ← get_string value;
    m ← AppDbKeyValueStringsToIrMatch ir_p4_info table_name key value;
    Ok (add_match m entry).

Definition AppDbKeyToIrTableEntry (ir_p4_info : IrP4Info) (table_name json_key : str) : result Ir.TableEntry :=
  match parse json_key with
  | None => Err kUnknown
  | Some json => fields ← json_fields json; fold_result (key_field ir_p4_info table_name) fields (new_entry table_name)
  end.

Definition IrActionInvocationToAppDbValues (action : Ir.ActionInvocation) : result FieldValues :=
  params ← map_result (λ '(name, value), v ← IrValueToAppDbString value; Ok (AddAppDbActionParamPrefix name, v))
    (Ir.params action);
  Ok (($"action", Ir.action_name action) :: params).

Definition param_json (json : Json) (param : str * IrValue) : result Json :=
  v ← IrValueToAppDbString (snd param); json_set (AddAppDbActionParamPrefix (fst param)) (JString v) json.

Definition IrActionSetInvocationToJsonValue (action : Ir.ActionSetInvocation) : result Json :=
  json ← json_set $"action" (JString (Ir.action_name (Ir.action_ action))) JNull;
  json ← json_set $"weight" (JInt (Ir.weight_ action)) json;
  json ← (if bool_decide (Ir.watch_port action = []) then Ok json
          else json_set $"watch_port" (JString (Ir.watch_port action)) json);
  fold_result param_json (Ir.params (Ir.action_ action)) json.

Definition IrActionSetToAppDbValues (actions : list Ir.ActionSetInvocation) : result FieldValues :=
  l ← map_result IrActionSetInvocationToJsonValue actions; s ← Dump (JArray l); Ok [($"actions", s)].

Definition P4MeterConfigToAppDbValues (m : MeterConfig) : FieldValues :=
  let field (name : str) (z : Z) := if negb (z =? 0) then [(name, StrCatSigned z)] else [] in
  field $"meter/cir" (cir m) ++ field $"meter/cburst" (cburst m) ++ field $"meter/pir" (pir m) ++
  field $"meter/pburst" (pburst m).

Definition no_meter : MeterConfig := mkMeterConfig 0 0 0 0 [].
Definition AddAppDbMeterDataToIrTableEntry (meter_key meter_data : str) (e : Ir.TableEntry) : result Ir.TableEntry :=
  match SimpleAtoi64 meter_data with
  | None => Err kInvalidArgument
  | Some v =>
    let m := default no_meter (Ir.entry_meter_config e) in
    let with_ cir_ cburst_ pir_ pburst_ :=
      Ok (set_meter_config (Some (mkMeterConfig cir_ cburst_ pir_ pburst_ (meter_rest m))) e) in
    if bool_decide (meter_key = $"meter/cir") then with_ v (cburst m) (pir m) (pburst m)
    else if bool_decide (meter_key = $"meter/cburst") then with_ (cir m) v (pir m) (pburst m)
    else if bool_decide (meter_key = $"meter/pir") then with_ (cir m) (cburst m) v (pburst m)
    else if bool_decide (meter_key = $"meter/pburst") then with_ (cir m) (cburst m) (pir m) v
    else Err kInvalidArgument
  end.

(** * Table entries *)

Definition match_json (json : Json) (field : Ir.Match) : result Json :=
  let field_name := AddAppDbMatchPrefix (Ir.match_name field) in
  match Ir.match_value field with
  | Ir.kExact v | Ir.kOptional v => s ← IrValueToAppDbString v; json_set field_name (JString s) json
  | Ir.kLpm v prefix_length =>
    s ← IrValueToAppDbString v; json_set field_name (JString (s ++ $"/" ++ StrCatSigned prefix_length)) json
  | Ir.kTernary v mask =>
    value ← IrValueToAppDbString v; mask ← IrValueToAppDbString mask;
    json_set field_name (JString (value ++ $"&" ++ mask)) json
  | Ir.MATCH_VALUE_NOT_SET => Err kUnimplemented
  end.

Definition IrTableEntryToAppDbKey (entry : Ir.TableEntry) : result str :=
  json ← (if 0 <? Ir.entry_priority entry then json_set $"priority" (JInt (Ir.entry_priority entry)) JNull else Ok JNull);
  json ← fold_result match_json (Ir.matches entry) json;
  Dump json.

Definition IrTableEntryToAppDbValues (entry : Ir.TableEntry) : result FieldValues :=
  result ← (match Ir.entry_action entry with
            | Ir.kAction a => IrActionInvocationToAppDbValues a
            | Ir.kActionSet l => IrActionSetToAppDbValues l
            | Ir.kNoAction => Err kInvalidArgument
            end);
  Ok (result ++ from_option P4MeterConfigToAppDbValues [] (Ir.entry_meter_config entry) ++
      (if bool_decide (Ir.entry_controller_metadata entry = []) then []
       else [($"controller_metadata", Ir.entry_controller_metadata entry)])).

(** [mutable_action()]: an action set is replaced by an empty action. *)
Definition mutable_action (e : Ir.TableEntry) : Ir.ActionInvocation :=
  match Ir.entry_action e with Ir.kAction a => a | _ => Ir.mkAction [] [] end.

(** The last field "action", as later ones overwrite it. *)
Definition last_action (app_db_values : FieldValues) : option str :=
  fold_left (λ r f, if bool_decide (fst f = $"action") then Some (snd f) else r) app_db_values None.

Definition value_field (ir_p4_info : IrP4Info) (table_name : str) (action_name : option str) (e : Ir.TableEntry)
  (fv : str * str) : result Ir.TableEntry :=
  let '(field, data) := fv in
  if bool_decide (field = $"action") then
    Ok (set_action (Ir.kAction (Ir.mkAction data (Ir.params (mutable_action e)))) e)
  else if bool_decide (field = $"actions") then
    l ← AppDbValueToIrActionSet ir_p4_info table_name data; Ok (set_action (Ir.kActionSet l) e)
  else if StartsWith field kActionParamPrefix then
    match action_name with
    | None => Err kInvalidArgument
    | Some name =>
      p ← AppDbNameValueStringsToIrActionParam ir_p4_info table_name name field data;
      let a := mutable_action e in
      Ok (set_action (Ir.kAction (Ir.mkAction (Ir.action_name a) (Ir.params a ++ [p]))) e)
    end
  else if StartsWith field $"meter/" then AddAppDbMeterDataToIrTableEntry field data e
  else if bool_decide (field = $"controller_metadata") then Ok (set_controller_metadata data e)
  else Err kInvalidArgument.

Definition AppDbKeyAndValuesToIrTableEntry (ir_p4_info : IrP4Info) (app_db_key : str) (app_db_values : FieldValues)
  : result Ir.TableEntry :=
  table_name ← SonicDbKeyToP4TableName app_db_key;
  table_entry ← AppDbKeyToIrTableEntry ir_p4_info table_name (SonicDbKeyToAppDbKey app_db_key);
  table_entry ← fold_result (value_field ir_p4_info table_name (last_action app_db_values)) app_db_values table_entry;
  let has (name : str) := existsb (λ f, bool_decide (fst f = name)) app_db_values in
  if has $"action" && has $"actions" then Err kInternal else Ok table_entry.

Definition GetRedisP4rtTableKey (entry : Ir.TableEntry) (p4_info : IrP4Info) : result str :=
  match tables_by_name p4_info !! Ir.table_name entry with
  | None => Err kInternal
  | Some ir_table_def =>
    table_type ← GetTableType ir_table_def;
    json_key ← IrTableEntryToAppDbKey entry;
    Ok (AsciiStrToUpper (TypeName table_type ++ $"_" ++ Ir.table_name entry ++ $":") ++ json_key)
  end.

Definition CreateAppDbP4rtUpdate (update_type : UpdateType) (entry : Ir.TableEntry) (p4_info : IrP4Info)
  : result KeyOpFieldsValues :=
  key ← GetRedisP4rtTableKey entry p4_info;
  match update_type with
  | INSERT | MODIFY => values ← IrTableEntryToAppDbValues entry; Ok (mkKfv key $"SET" values)
  | DELETE => Ok (mkKfv key $"DEL" [])
  | _ => Err kInvalidArgument
  end.

(** * Counters *)

Definition no_counters : CounterData := mkCounterData 0 0.
Definition counter_field (e : Ir.TableEntry) (fv : str * str) : Ir.TableEntry :=
  let '(field, value) := fv in
  match SimpleAtoiU64 value with
  | None => e
  | Some v =>
    let data := default no_counters (Ir.entry_counter_data e) in
    let counters :=
      if bool_decide (field = $"packets") then Some (mkCounterData (byte_count data) v)
      else if bool_decide (field = $"bytes") then Some (mkCounterData v (packet_count data))
      else Ir.entry_counter_data e in
    let meters :=
      match Ir.entry_meter_config e with
      | None => id
      | Some _ =>
        if bool_decide (field = $"green_packets") then set_meter_packet_count green v
        else if bool_decide (field = $"green_bytes") then set_meter_byte_count green v
        else if bool_decide (field = $"yellow_packets") then set_meter_packet_count yellow v
        else if bool_decide (field = $"yellow_bytes") then set_meter_byte_count yellow v
        else if bool_decide (field = $"red_packets") then set_meter_packet_count red v
        else if bool_decide (field = $"red_bytes") then set_meter_byte_count red v
        else id
      end in
    set_counters counters (meters (Ir.entry_meter_counter_data e)) e
  end.
Definition AppendCounterData (table_entry : Ir.TableEntry) (counter_data : FieldValues) : Ir.TableEntry :=
  fold_left counter_field counter_data table_entry.

(** A table of a database: [get] of a key that is not there has no fields. *)
Definition db_get (key : str) (table : gmap str FieldValues) : FieldValues := default [] (table !! key).
Definition db_keys (table : gmap str FieldValues) : list str := map fst (map_to_list table).

Definition ReadP4TableEntry (app_db_ counter_db : gmap str FieldValues) (table_prefix : str) (p4info : IrP4Info) (key : str)
  : result Ir.TableEntry :=
  table_entry ← AppDbKeyAndValuesToIrTableEntry p4info key (db_get key app_db_);
  if StartsWith key (TypeName kAcl) then Ok (AppendCounterData table_entry (db_get (table_prefix ++ key) counter_db))
  else Ok table_entry.

Definition AppendCounterDataForTableEntry (ir_table_entry : Ir.TableEntry) (counter_db : gmap str FieldValues)
  (table_prefix : str) (p4info : IrP4Info) : result Ir.TableEntry :=
  key ← GetRedisP4rtTableKey ir_table_entry p4info;
  Ok (AppendCounterData ir_table_entry (db_get (table_prefix ++ key) counter_db)).

Definition is_p4_table_entry (key : str) : bool :=
  match StrSplit key ":"%char with
  | name :: _ :: _ =>
    negb (bool_decide (name = APP_P4RT_ACL_TABLE_DEFINITION_NAME) || bool_decide (name = APP_P4RT_TABLES_DEFINITION_TABLE_NAME)) &&
    negb (bool_decide (name = APP_P4RT_REPLICATION_IP_MULTICAST_TABLE_NAME))
  | _ => true
  end.
Definition GetAllP4TableEntryKeys (p4rt_table : gmap str FieldValues) : list str :=
  List.filter is_p4_table_entry (db_keys p4rt_table).

(** * Packet replication *)

Definition TablePrefix : str := APP_P4RT_REPLICATION_IP_MULTICAST_TABLE_NAME ++ $":".

Definition StripTableName (app_db_key : str) : result str :=
  match ConsumePrefix app_db_key TablePrefix with Some s => Ok s | None => Err kInvalidArgument end.

(** The group of another kind of entry is the empty one. *)
Definition multicast_group_entry (entry : Ir.PacketReplicationEngineEntry) : Ir.MulticastGroupEntry :=
  match entry with Ir.kMulticastGroupEntry g => g | _ => Ir.mkMulticast 0 [] [] end.

Definition IrMulticastGroupEntryToAppDbKey (entry : Ir.MulticastGroupEntry) : str := $"0x" ++ Hex4 (Ir.group_id entry).
Definition GetRedisPacketReplicationTableKey (entry : Ir.PacketReplicationEngineEntry) : str :=
  TablePrefix ++ IrMulticastGroupEntryToAppDbKey (multicast_group_entry entry).

Definition replica_json (port : str) (instance : Z) : Json :=
  json_object [($"multicast_replica_port", JString port); ($"multicast_replica_instance", JString ($"0x" ++ Hex4 instance))].
Definition backup_json (b : Ir.BackupReplica) : Json := replica_json (Ir.backup_port b) (Ir.backup_instance b).

Definition CreateFieldValues (entry : Ir.PacketReplicationEngineEntry) : result FieldValues :=
  let group := multicast_group_entry entry in
  let json_array := map (λ r, replica_json (Ir.replica_port r) (Ir.replica_instance r)) (Ir.replicas group) in
  let backups_json_array := map (λ r, JArray (map backup_json (Ir.backup_replicas r))) (Ir.replicas group) in
  let backup_replica_count := length (concat (map Ir.backup_replicas (Ir.replicas group))) in
  replicas ← Dump (JArray json_array);
  backups ← (if (0 <? backup_replica_count)%nat
             then s ← Dump (JArray backups_json_array); Ok [($"backups", s)] else Ok []);
  Ok (($"replicas", replicas) :: backups ++
      (if bool_decide (Ir.group_metadata group = []) then [] else [($"controller_metadata", Ir.group_metadata group)])).

Definition CreateAppDbPacketReplicationTableUpdate (update_type : UpdateType) (entry : Ir.PacketReplicationEngineEntry)
  : result KeyOpFieldsValues :=
  let key := GetRedisPacketReplicationTableKey entry in
  match update_type with
  | INSERT | MODIFY => values ← CreateFieldValues entry; Ok (mkKfv key $"SET" values)
  | DELETE => Ok (mkKfv key $"DEL" [])
  | _ => Err kInvalidArgument
  end.

Definition GetAllPacketReplicationTableEntryKeys (p4rt_table : gmap str FieldValues) : list str :=
  List.filter (λ key, StartsWith key TablePrefix) (db_keys p4rt_table).

Definition ParseJson (json_string : str) : result Json :=
  match parse json_string with Some j => Ok j | None => Err kInternal end.

Definition ParseJsonReplica (json_replica : Json) : result (str * Z) :=
  if json_has $"multicast_replica_port" json_replica then
    port ← json_at $"multicast_replica_port" json_replica; port_name ← get_string port;
    if json_has $"multicast_replica_instance" json_replica then
      inst ← json_at $"multicast_replica_instance" json_replica; inst ← get_string inst;
      match SimpleHexAtoiU32 inst with Some instance => Ok (port_name, instance) | None => Err kInvalidArgument end
    else Err kInvalidArgument
  else Err kInvalidArgument.

Definition read_replica (json : Json) : result Ir.Replica :=
  '(port, instance) ← ParseJsonReplica json; Ok (Ir.mkReplica port instance []).
Definition read_backup (json : Json) : result Ir.BackupReplica :=
  '(port, instance) ← ParseJsonReplica json; Ok (Ir.mkBackup port instance).

(** The replicas and metadata of the group, and the backups, as the fields are read. *)
Definition replication_field (state : Ir.MulticastGroupEntry * list (list Ir.BackupReplica)) (fv : str * str)
  : result (Ir.MulticastGroupEntry * list (list Ir.BackupReplica)) :=
  let '(group, backups) := state in
  let '(field, data) := fv in
  if bool_decide (field = $"replicas") then
    json ← ParseJson data; l ← map_result read_replica (json_items json);
    Ok (Ir.mkMulticast (Ir.group_id group) (Ir.replicas group ++ l) (Ir.group_metadata group), backups)
  else if bool_decide (field = $"backups") then
    json ← ParseJson data; l ← map_result (λ j, map_result read_backup (json_items j)) (json_items json);
    Ok (group, backups ++ l)
  else if bool_decide (field = $"controller_metadata") then
    Ok (Ir.mkMulticast (Ir.group_id group) (Ir.replicas group) data, backups)
  else Ok state.

Definition add_backups (replica : Ir.Replica) (backups : list Ir.BackupReplica) : Ir.Replica :=
  Ir.mkReplica (Ir.replica_port replica) (Ir.replica_instance replica) (Ir.backup_replicas replica ++ backups).

Definition read_stored_group (p4rt_table : gmap str FieldValues) (key : str) : result Ir.PacketReplicationEngineEntry :=
  multicast_group_id ← StripTableName key;
  match SimpleHexAtoiU32 multicast_group_id with
  | None => Err kInvalidArgument
  | Some group_id =>
    '(group, backup_replicas) ← fold_result replication_field (db_get key p4rt_table) (Ir.mkMulticast group_id [] [], []);
    if bool_decide (backup_replicas = []) then Ok (Ir.kMulticastGroupEntry group)
    else if negb (length (Ir.replicas group) =? length backup_replicas)%nat then Err kInvalidArgument
    else Ok (Ir.kMulticastGroupEntry
      (Ir.mkMulticast (Ir.group_id group) (zip_with add_backups (Ir.replicas group) backup_replicas) (Ir.group_metadata group)))
  end.

Definition GetAllAppDbPacketReplicationTableEntries (p4rt_table : gmap str FieldValues)
  : result (list Ir.PacketReplicationEngineEntry) :=
  map_result (read_stored_group p4rt_table) (GetAllPacketReplicationTableEntryKeys p4rt_table).

(** * VRFs *)

(** [match.exact().str()], of any match: "" unless it is an exact string. *)
Definition exact_str (m : Ir.Match) : str := match Ir.match_value m with Ir.kExact (kStr s) => s | _ => [] end.
Definition exact_hex_str (m : Ir.Match) : str := match Ir.match_value m with Ir.kExact (kHexStr s) => s | _ => [] end.
Definition first_match (name : str) (entry : Ir.TableEntry) : option Ir.Match :=
  snd <$> list_find (λ m, Ir.match_name m = name) (Ir.matches entry).

Definition GetVrfValues : FieldValues := [($"v4", $"true"); ($"v6", $"true")].

Definition GetVrfTableKey (entry : Ir.TableEntry) : result str :=
  match first_match $"vrf_id" entry with
  | Some m => if bool_decide (exact_str m = []) then Err kInvalidArgument else Ok (exact_str m)
  | None => Err kInvalidArgument
  end.

Definition CreateAppDbVrfUpdate (update_type : UpdateType) (entry : Ir.TableEntry) : result KeyOpFieldsValues :=
  key ← GetVrfTableKey entry;
  match update_type with
  | INSERT => Ok (mkKfv key $"SET" GetVrfValues)
  | DELETE => Ok (mkKfv key $"DEL" [])
  | _ => Err kInvalidArgument
  end.

Definition exact_entry (table_name : str) (matches : list (str * IrValue)) (action controller_metadata : str) : Ir.TableEntry :=
  Ir.mkEntry table_name (map (λ '(name, v), Ir.mkMatch name (Ir.kExact v)) matches) 0 (Ir.kAction (Ir.mkAction action []))
    None None None controller_metadata.

Definition GetAllAppDbVrfTableEntries (vrf_table : gmap str FieldValues) : result (list Ir.TableEntry) :=
  Ok (map (λ key, exact_entry $"vrf_table" [($"vrf_id", kStr key)] $"no_action" []) (db_keys vrf_table)).

(** * VLANs *)

Definition kVlanPrefix : str := $"Vlan".

Definition controller_metadata_value (entry : Ir.TableEntry) : FieldValues :=
  if bool_decide (Ir.entry_controller_metadata entry = []) then []
  else [($"controller_metadata", Ir.entry_controller_metadata entry)].

Definition GetVlanValues (entry : Ir.TableEntry) : FieldValues := ($"source", $"P4") :: controller_metadata_value entry.

Definition GetVlanMemberValues (entry : Ir.TableEntry) : FieldValues :=
  let tagged := bool_decide (Ir.action_name (mutable_action entry) = $"make_tagged_member") in
  ($"source", $"P4") :: ($"tagging_mode", if tagged then $"tagged" else $"untagged") :: controller_metadata_value entry.

Definition StripVlanPrefixAndReturnHexString (app_db_key : str) : result str :=
  match ConsumePrefix app_db_key kVlanPrefix with
  | None => Err kInvalidArgument
  | Some id =>
    match SimpleAtoiU32 id with
    | None => Err kInvalidArgument
    | Some vlan_id => if 4095 <? vlan_id then Err kInvalidArgument else Ok ($"0x" ++ Hex03x vlan_id)
    end
  end.

Definition ExtractVlanIdAndPortIdFromMemberKey (app_db_key : str) : result (str * str) :=
  match StrSplit app_db_key ":"%char with
  | [vlan; port] => vlan_id_as_hex ← StripVlanPrefixAndReturnHexString vlan; Ok (vlan_id_as_hex, port)
  | _ => Err kInvalidArgument
  end.

Definition vlan_key (m : Ir.Match) : result str :=
  match SimpleHexAtoiU32 (exact_hex_str m) with
  | None => Err kInvalidArgument
  | Some id => if (4094 <? id) || (id <? 1) then Err kInvalidArgument else Ok ($"Vlan" ++ StrCatInt id)
  end.

Definition GetVlanTableKey (entry : Ir.TableEntry) : result str :=
  match first_match $"vlan_id" entry with Some m => vlan_key m | None => Err kInvalidArgument end.

(** The last port and VLAN of the matches. *)
Definition member_step (state : str * str) (m : Ir.Match) : result (str * str) :=
  if bool_decide (Ir.match_name m = $"vlan_id") then vlan ← vlan_key m; Ok (vlan, snd state)
  else if bool_decide (Ir.match_name m = $"port") then Ok (fst state, exact_str m)
  else Ok state.

Definition GetVlanMemberTableKey (entry : Ir.TableEntry) : result str :=
  '(vlan, port) ← fold_result member_step (Ir.matches entry) ([], []);
  if bool_decide (vlan = []) || bool_decide (port = []) then Err kInvalidArgument else Ok (vlan ++ $":" ++ port).

Definition CreateAppDbVlanUpdate (update_type : UpdateType) (entry : Ir.TableEntry) : result KeyOpFieldsValues :=
  key ← GetVlanTableKey entry;
  match update_type with
  | INSERT => Ok (mkKfv key $"SET" (GetVlanValues entry))
  | DELETE => Ok (mkKfv key $"DEL" [])
  | _ => Err kInvalidArgument
  end.

Definition CreateAppDbVlanMemberUpdate (update_type : UpdateType) (entry : Ir.TableEntry) : result KeyOpFieldsValues :=
  key ← GetVlanMemberTableKey entry;
  match update_type with
  | INSERT | MODIFY => Ok (mkKfv key $"SET" (GetVlanMemberValues entry))
  | DELETE => Ok (mkKfv key $"DEL" [])
  | _ => Err kInvalidArgument
  end.

(** The last value of a field. *)
Definition last_value (field : str) (values : FieldValues) : option str :=
  fold_left (λ r f, if bool_decide (fst f = field) then Some (snd f) else r) values None.

Definition read_vlan (vlan_table : gmap str FieldValues) (key : str) : result Ir.TableEntry :=
  vlan_id_as_hex ← StripVlanPrefixAndReturnHexString key;
  let values := db_get key vlan_table in
  Ok (exact_entry $"vlan_table" [($"vlan_id", kHexStr vlan_id_as_hex)] $"no_action"
    (default [] (last_value $"controller_metadata" values))).

Definition GetAllAppDbVlanTableEntries (vlan_table : gmap str FieldValues) : result (list Ir.TableEntry) :=
  map_result (read_vlan vlan_table) (db_keys vlan_table).

Definition read_vlan_member (vlan_member_table : gmap str FieldValues) (key : str) : result Ir.TableEntry :=
  '(vlan_id, port_id) ← ExtractVlanIdAndPortIdFromMemberKey key;
  let values := db_get key vlan_member_table in
  let tagged := existsb (λ f, bool_decide (f = ($"tagging_mode", $"tagged"))) values in
  Ok (exact_entry $"vlan_membership_table" [($"vlan_id", kHexStr vlan_id); ($"port", kStr port_id)]
    (if tagged then $"make_tagged_member" else $"make_untagged_member")
    (default [] (last_value $"controller_metadata" values))).

Definition GetAllAppDbVlanMemberTableEntries (vlan_member_table : gmap str FieldValues) : result (list Ir.TableEntry) :=
  map_result (read_vlan_member vlan_member_table) (db_keys vlan_member_table).

(** * Updates *)

(** [ir_entity.table_entry()] of another kind of entity has an empty name. *)
Definition GetAppDbTableType (ir_entity : IrEntity) : AppDbTableType :=
  match ir_entity with
  | IrTable te =>
    if bool_decide (Ir.table_name te = $"vrf_table") then VRF_TABLE
    else if bool_decide (Ir.table_name te = $"vlan_table") then VLAN_TABLE
    else if bool_decide (Ir.table_name te = $"vlan_membership_table") then VLAN_MEMBER_TABLE
    else P4RT
  | _ => P4RT
  end.

Definition CreateAppDbUpdate (update_type : UpdateType) (entity : IrEntity) (p4_info : IrP4Info) : result AppDbUpdate :=
  let table := GetAppDbTableType entity in
  match table, entity with
  | VRF_TABLE, IrTable te => u ← CreateAppDbVrfUpdate update_type te; Ok (mkAppDbUpdate table u)
  | VLAN_TABLE, IrTable te => u ← CreateAppDbVlanUpdate update_type te; Ok (mkAppDbUpdate table u)
  | VLAN_MEMBER_TABLE, IrTable te => u ← CreateAppDbVlanMemberUpdate update_type te; Ok (mkAppDbUpdate table u)
  | P4RT, IrTable te => u ← CreateAppDbP4rtUpdate update_type te p4_info; Ok (mkAppDbUpdate table u)
  | P4RT, IrPacketReplicationEngine e =>
    u ← CreateAppDbPacketReplicationTableUpdate update_type e; Ok (mkAppDbUpdate table u)
  | _, _ => Err kInvalidArgument
  end.
End entries.
