(* ===== verification/AppDbEntryCorrect.v ===== *)
(** The encodings of AppDbEntry.v: what is written to the application database is read back, so that no entry
    is lost when the server restarts, and different entries never share a key. *)
From S2P Require Import Prelude Abseil HexString DecimalString IrUtils EntityKeys IrData Annotations IrProgram IrProgramCorrect AppDb TableTypes AclTable AppDbEntry.

(** * Laws of the libraries *)

Definition lower_char (c : ascii) : ascii := if (65 <=? uchar c) && (uchar c <=? 90) then char_of (uchar c + 32) else c.
Definition upper_char (c : ascii) : ascii := if (97 <=? uchar c) && (uchar c <=? 122) then char_of (uchar c - 32) else c.
Definition three_hex_digits (z : Z) : str := [hex_digit (z / 256); hex_digit (z / 16 mod 16); hex_digit (z mod 16)].

(** Objects have their fields in order, and all strings are UTF-8: such values are printed and parsed. *)
Inductive json_plain `{EntryLibraries} : Json → Prop :=
  | plain_null : json_plain JNull
  | plain_string s : is_utf8 s = true → json_plain (JString s)
  | plain_int z : json_plain (JInt z)
  | plain_array l : Forall json_plain l → json_plain (JArray l)
  | plain_object fields : bt_sorted fields → Forall (λ f, is_utf8 (fst f) = true ∧ json_plain (snd f)) fields →
      json_plain (JObject fields).

Class EntryLaws `{SwssSchema} `{AclLibraries} `{EntryLibraries} : Prop := {
  parse_dump j : json_plain j → parse (dump j) = Some j;
  lower_spec s : AsciiStrToLower s = map lower_char s;
  upper_spec s : AsciiStrToUpper s = map upper_char s;
  StrCatSigned_decimal z : 0 ≤ z → StrCatSigned z = decimal z;
  SimpleAtoi64_signed z : - 2 ^ 63 ≤ z < 2 ^ 63 → SimpleAtoi64 (StrCatSigned z) = Some z;
  SimpleAtoiU32_decimal z : 0 ≤ z < 2 ^ 32 → SimpleAtoiU32 (decimal z) = Some z;
  SimpleHexAtoiU32_Hex4 z : 0 ≤ z < 2 ^ 32 → SimpleHexAtoiU32 ($"0x" ++ Hex4 z) = Some z;
  Hex03x_digits z : 0 ≤ z < 4096 → Hex03x z = three_hex_digits z;
  SimpleHexAtoiU32_digits z : 0 ≤ z < 4096 → SimpleHexAtoiU32 ($"0x" ++ three_hex_digits z) = Some z;
  (** [is_utf8] is the validity of sequences of code points. *)
  utf8_app s t : is_utf8 s = true → is_utf8 t = true → is_utf8 (s ++ t) = true;
  utf8_ascii s : Forall (λ c, uchar c < 128) s → is_utf8 s = true;
  utf8_Hex4 z : 0 ≤ z < 2 ^ 32 → is_utf8 (Hex4 z) = true;
}.

Section primitives.
Context `{AbslStringsLaws} `{SwssSchema} `{AclLibraries} `{!EntryLibraries} `{!EntryLaws}.

(** * Strings *)

Lemma json_plain_utf8 j : json_plain j → json_utf8 j = true.
Proof.
  revert j. fix IH 2. intros j [|s Hs|z|l Hl|fields _ Hf]; [done..| |].
  - cbn. induction Hl as [|x l Hx Hl IHl]; [done|]. cbn. by rewrite IH.
  - cbn. induction Hf as [|[k v] l [Hk Hv] Hl IHl]; [done|]. cbn in *. by rewrite Hk, IH.
Qed.

Lemma dump_plain j : json_plain j → Dump j = Ok (dump j).
Proof. intros Hj. unfold Dump. by rewrite json_plain_utf8. Qed.

Lemma take_digits_all s : Forall (λ c, isdigit c) s → take_digits s = s.
Proof. induction 1 as [|c s Hc Hs IH]; [done|]. cbn. apply Is_true_true in Hc. by rewrite Hc, IH. Qed.

Lemma stoi_decimal z : 0 ≤ z < 2 ^ 31 → stoi (decimal z) = Ok z.
Proof.
  intros Hz. destruct (decimal_spec z ltac:(lia)) as [[Hd Hne] Hv]. unfold stoi, digits_int.
  assert (∃ c s, decimal z = c :: s) as (c & s & Heq) by (destruct (decimal z) as [|c s]; [done|by eauto]).
  rewrite Heq in *. apply Forall_cons in Hd as Hc. destruct Hc as [Hc _]. apply Is_true_true in Hc.
  assert (is_space_char c = false) as Hsp.
  { unfold is_space_char. apply isdigit_bound in Hc as Hb. destruct Hb as [Hb _]. lia. }
  cbn [skip_space]. rewrite Hsp.
  rewrite !bool_decide_eq_false_2 by (intros ->; by vm_compute in Hc). rewrite take_digits_all by done.
  fold (dec_value (c :: s)). rewrite Hv. cbn [negb]. destruct (Z.leb_spec (- 2 ^ 31) z), (Z.ltb_spec z (2 ^ 31)); [done|lia..].
Qed.

Lemma decimal_clean d z : 0 ≤ z → isdigit d = false → d ∉ decimal z.
Proof.
  intros Hz Hd Hin. destruct (decimal_spec z Hz) as [[Hall _] _]. rewrite Forall_forall in Hall.
  apply Hall, Is_true_true in Hin. congruence.
Qed.

Lemma split_two d (s t : str) : d ∉ s → d ∉ t → StrSplit (s ++ d :: t) d = [s; t].
Proof.
  intros Hs Ht. apply (StrSplit_of_join d [s; t]); [done|]. intros p [->|[->|[]%elem_of_nil]%elem_of_cons]%elem_of_cons; done.
Qed.

Lemma split_first d (s t : str) : d ∉ s → StrSplit (s ++ d :: t) d = s :: StrSplit t d.
Proof.
  intros Hs. rewrite <-(StrSplit_of_join d (s :: StrSplit t d)); [|done|].
  - f_equal. pose proof (StrSplit_nonempty t d). destruct (StrSplit t d) as [|p ps] eqn:Heq; [done|].
    cbn [str_join]. change (match ps with [] => p | _ :: _ => p ++ d :: str_join d ps end) with (str_join d (p :: ps)).
    by rewrite <-Heq, StrSplit_join.
  - intros p [->|Hp]%elem_of_cons; [done|]. by eapply StrSplit_clean.
Qed.

Lemma find_char_first d (s t : str) : d ∉ s → find_char d (s ++ d :: t) = Some (s, t).
Proof.
  induction s as [|c s IH]; cbn; [by rewrite bool_decide_eq_true_2|]. intros [Hne Hs]%not_elem_of_cons.
  rewrite bool_decide_eq_false_2 by congruence. by rewrite IH.
Qed.

(** * Values and their formats *)

Definition has_format (format : Format) (v : IrValue) : bool :=
  match v, format with
  | kMac _, MAC | kIpv4 _, IPV4 | kIpv6 _, IPV6 | kStr _, STRING | kHexStr _, HEX_STRING => true
  | _, _ => false
  end.
Definition value_text (v : IrValue) : str :=
  match v with kHexStr s | kIpv4 s | kIpv6 s | kMac s | kStr s => s | FORMAT_NOT_SET => [] end.

Lemma value_written format v : has_format format v = true → IrValueToAppDbString v = Ok (value_text v).
Proof. by destruct v, format. Qed.
Lemma value_read format v : has_format format v = true → FormattedStringToIrValue (value_text v) format = Ok v.
Proof. by destruct v, format. Qed.

(** * Objects built field by field *)

Lemma bt_set_new {V} k (x : V) m : k ∉ map fst m → bt_set k x m ≡ₚ (k, x) :: m.
Proof.
  induction m as [|[k' y] m IH]; [done|]. cbn [map fst]. intros [Hne Hm]%not_elem_of_cons. cbn [bt_set].
  destruct (str_ltb k k') eqn:H1'; [done|]. destruct (str_ltb k' k) eqn:H2'.
  - rewrite IH by done. apply Permutation_swap.
  - exfalso. apply Hne. by apply str_ltb_eq.
Qed.

(** The value that the fields [kvs] have been put into. *)
Definition built (kvs : list (str * Json)) (j : Json) : Prop :=
  (kvs = [] ∧ j = JNull) ∨ ∃ f, j = JObject f ∧ bt_sorted f ∧ f ≡ₚ kvs.

Lemma json_set_built kvs j k v : built kvs j → k ∉ map fst kvs → ∃ j', json_set k v j = Ok j' ∧ built (kvs ++ [(k, v)]) j'.
Proof.
  intros [[-> ->]|(f & -> & Hs & Hp)] Hk; (eexists; split; [done|]; right; eexists; split; [done|]).
  - split; [|done]. repeat constructor.
  - split; [by apply bt_set_sorted|]. rewrite bt_set_new by by rewrite Hp. rewrite Hp. by rewrite Permutation_app_comm.
Qed.

Lemma fold_built {A} (g : A → str * Json) (step : Json → A → result Json) l kvs j :
  (∀ a i, a ∈ l → step i a = json_set (fst (g a)) (snd (g a)) i) → NoDup (map fst (kvs ++ map g l)) → built kvs j →
  ∃ j', fold_result step l j = Ok j' ∧ built (kvs ++ map g l) j'.
Proof.
  revert kvs j. induction l as [|a l IH]; intros kvs j Hstep Hnd Hj; [exists j; by rewrite app_nil_r|].
  cbn [fold_result map]. rewrite Hstep by by left.
  assert (map fst (kvs ++ map g (a :: l)) = map fst ((kvs ++ [g a]) ++ map g l)) as Heq by by rewrite <-app_assoc.
  rewrite Heq in Hnd. destruct (json_set_built kvs j (fst (g a)) (snd (g a)) Hj) as (j1 & -> & Hj1).
  { rewrite map_app in Hnd. apply NoDup_app in Hnd as [Hnd _]. rewrite map_app in Hnd. apply NoDup_app in Hnd as (_ & Hnd & _).
    intros Hin. apply (Hnd _ Hin). by left. }
  destruct (IH (kvs ++ [g a]) j1) as (j' & Hf & Hb); [intros b i Hb; apply Hstep; by right|done|by destruct (g a)|].
  exists j'. cbn [mbind result_bind]. split; [done|]. by rewrite <-app_assoc in Hb.
Qed.

Lemma built_fields kvs j : built kvs j → ∃ f, json_fields j = Ok f ∧ f ≡ₚ kvs.
Proof. intros [[-> ->]|(f & -> & _ & Hp)]; by eexists. Qed.

Lemma built_plain kvs j :
  built kvs j → Forall (λ f, is_utf8 (fst f) = true ∧ json_plain (snd f)) kvs → json_plain j.
Proof. intros [[-> ->]|(f & -> & Hs & Hp)] Hkvs; constructor; [done|by rewrite Hp]. Qed.

Lemma utf8_text s : forallb (λ c, uchar c <? 128) s = true → is_utf8 s = true.
Proof. intros Hs. apply utf8_ascii, Forall_forall. intros c Hc. rewrite forallb_forall in Hs. specialize (Hs c). rewrite <-list_elem_of_In in Hs. specialize (Hs Hc). lia. Qed.

(** * Entries that can be encoded *)

(** A match field is of the kind and the format that the program gives it. *)
Definition match_text (m : Ir.Match) : str :=
  match Ir.match_value m with
  | Ir.kExact v | Ir.kOptional v => value_text v
  | Ir.kLpm v n => value_text v ++ $"/" ++ StrCatSigned n
  | Ir.kTernary v mask => value_text v ++ $"&" ++ value_text mask
  | Ir.MATCH_VALUE_NOT_SET => []
  end.
Definition encodable_match (table : IrTableDefinition) (m : Ir.Match) : bool :=
  is_utf8 (Ir.match_name m) &&
  match match_fields_by_name table !! AsciiStrToLower (Ir.match_name m) with
  | None => false
  | Some def =>
    let format := match_format def in
    match match_type (match_field def), Ir.match_value m with
    | EXACT, Ir.kExact v | OPTIONAL, Ir.kOptional v => has_format format v && is_utf8 (value_text v)
    | LPM, Ir.kLpm v n =>
      has_format format v && is_utf8 (value_text v) && bool_decide ("/"%char ∉ value_text v) && (0 <=? n) && (n <? 2 ^ 31)
    | TERNARY, Ir.kTernary v mask =>
      has_format format v && has_format format mask && is_utf8 (value_text v) && is_utf8 (value_text mask) &&
      bool_decide ("&"%char ∉ value_text v) && bool_decide ("&"%char ∉ value_text mask)
    | _, _ => false
    end
  end.

(** So are the parameters of an action of the table. *)
Definition encodable_param (def : IrActionDefinition) (p : str * IrValue) : bool :=
  is_utf8 (fst p) && is_utf8 (value_text (snd p)) &&
  match params_by_name def !! fst p with Some d => has_format (param_format d) (snd p) | None => false end.
Definition encodable_action (table : IrTableDefinition) (a : Ir.ActionInvocation) : bool :=
  is_utf8 (Ir.action_name a) && bool_decide (NoDup (map fst (Ir.params a))) &&
  match list_find (λ r, alias (action_preamble (ref_action r)) = Ir.action_name a) (entry_actions table) with
  | Some (_, r) => forallb (encodable_param (ref_action r)) (Ir.params a)
  | None => false
  end.
Definition encodable_invocation (table : IrTableDefinition) (i : Ir.ActionSetInvocation) : bool :=
  encodable_action table (Ir.action_ i) && is_utf8 (Ir.watch_port i) &&
  (- 2 ^ 31 <=? Ir.weight_ i) && (Ir.weight_ i <? 2 ^ 31).

Definition int64 (z : Z) : bool := (- 2 ^ 63 <=? z) && (z <? 2 ^ 63).
Definition encodable_entry (info : IrP4Info) (te : Ir.TableEntry) : bool :=
  match tables_by_name info !! Ir.table_name te with
  | None => false
  | Some table =>
    is_Ok (GetTableType table) && bool_decide (":"%char ∉ Ir.table_name te) &&
    bool_decide (AsciiStrToLower (Ir.table_name te) = Ir.table_name te) &&
    (0 <=? Ir.entry_priority te) && (Ir.entry_priority te <? 2 ^ 31) &&
    bool_decide (NoDup (map Ir.match_name (Ir.matches te))) && forallb (encodable_match table) (Ir.matches te) &&
    match Ir.entry_action te with
    | Ir.kAction a => encodable_action table a
    | Ir.kActionSet l => forallb (encodable_invocation table) l
    | Ir.kNoAction => false
    end &&
    match Ir.entry_meter_config te with
    | None => true
    | Some m => int64 (cir m) && int64 (cburst m) && int64 (pir m) && int64 (pburst m)
    end
  end.

(** * Match fields *)

Lemma utf8_signed z : 0 ≤ z → is_utf8 (StrCatSigned z) = true.
Proof.
  intros Hz. rewrite StrCatSigned_decimal by done. apply utf8_ascii. destruct (decimal_spec z Hz) as [[Hd _] _].
  eapply Forall_impl; [exact Hd|]. intros c Hc%Is_true_true%isdigit_bound. lia.
Qed.

Lemma match_written table m json : encodable_match table m = true →
  is_utf8 (AddAppDbMatchPrefix (Ir.match_name m)) = true ∧ is_utf8 (match_text m) = true ∧
  match_json json m = json_set (AddAppDbMatchPrefix (Ir.match_name m)) (JString (match_text m)) json.
Proof.
  unfold encodable_match, match_json, match_text. intros [Hn Hm]%andb_true_iff.
  split; [apply utf8_app; [by apply utf8_text|done]|].
  destruct (match_fields_by_name table !! _) as [def|]; [|done].
  destruct (match_type (match_field def)), (Ir.match_value m); try done; bool_prop.
  - split; [done|]. by erewrite value_written by eassumption.
  - split; [apply utf8_app; [done|]; apply (utf8_app $"/"); [by apply utf8_text|apply utf8_signed; lia]|]. by erewrite value_written by eassumption.
  - split; [apply utf8_app; [done|]; by apply (utf8_app $"&"); [apply utf8_text|]|]. by erewrite !value_written by eassumption.
  - split; [done|]. by erewrite value_written by eassumption.
Qed.

Lemma match_read info name table m :
  tables_by_name info !! AsciiStrToLower name = Some table → encodable_match table m = true →
  AppDbKeyValueStringsToIrMatch info name (Ir.match_name m) (match_text m) = Ok m.
Proof.
  unfold encodable_match, AppDbKeyValueStringsToIrMatch, match_text. intros -> [_ Hm]%andb_true_iff.
  destruct (match_fields_by_name table !! _) as [def|]; [|done]. destruct m as [mn mv]. cbn [Ir.match_name Ir.match_value] in *.
  destruct (match_type (match_field def)), mv; try done; bool_prop.
  - by erewrite value_read by eassumption.
  - unfold AppDbLpmValueToIrLpmMatch. change ($"/") with ["/"%char]. cbn [app]. rewrite StrCatSigned_decimal by lia. rewrite split_two by first [done|apply decimal_clean; [lia|done]].
    erewrite value_read by eassumption.
    cbn [mbind result_bind]. by rewrite stoi_decimal by lia.
  - unfold AppDbTernaryValuttoIrTernaryMatch. change ($"&") with ["&"%char]. cbn [app]. rewrite split_two by done. by erewrite !value_read by eassumption.
  - by erewrite value_read by eassumption.
Qed.

(** * The key *)

(** The items of a key: the priority, and the match fields. *)
Definition key_item : Type := Z + Ir.Match.
Definition item_json (i : key_item) : str * Json :=
  match i with
  | inl z => ($"priority", JInt z)
  | inr m => (AddAppDbMatchPrefix (Ir.match_name m), JString (match_text m))
  end.
Definition key_items (te : Ir.TableEntry) : list key_item :=
  (if 0 <? Ir.entry_priority te then [inl (Ir.entry_priority te)] else []) ++ map inr (Ir.matches te).
Definition apply_item (e : Ir.TableEntry) (i : key_item) : Ir.TableEntry :=
  match i with inl z => set_priority z e | inr m => add_match m e end.
Definition item_matches (l : list key_item) : list Ir.Match := omap (λ i, match i with inr m => Some m | inl _ => None end) l.

Lemma apply_items l e p :
  (∀ z, inl z ∈ l → z = p) → ((∃ z, inl z ∈ l) ∨ Ir.entry_priority e = p) →
  fold_left apply_item l e =
    Ir.mkEntry (Ir.table_name e) (Ir.matches e ++ item_matches l) p (Ir.entry_action e) (Ir.entry_meter_config e)
      (Ir.entry_counter_data e) (Ir.entry_meter_counter_data e) (Ir.entry_controller_metadata e).
Proof.
  revert e. induction l as [|i l IH]; intros e Hp Hsome; cbn [fold_left].
  - destruct Hsome as [[z Hz%not_elem_of_nil]|<-]; [done|]. destruct e. cbn. by rewrite app_nil_r.
  - destruct i as [z|m]; rewrite IH.
    + done.
    + intros z' Hz'. apply Hp. by right.
    + right. cbn. apply Hp. by left.
    + cbn. by rewrite <-app_assoc.
    + intros z' Hz'. apply Hp. by right.
    + destruct Hsome as [[z [Hz|Hz]%elem_of_cons]|<-]; [done|left; by exists z|by right].
Qed.

Lemma items_read info name table items e :
  tables_by_name info !! AsciiStrToLower name = Some table →
  (∀ z, inl z ∈ items → - 2 ^ 31 ≤ z < 2 ^ 31) → (∀ m, inr m ∈ items → encodable_match table m = true) →
  fold_result (key_field info name) (map item_json items) e = Ok (fold_left apply_item items e).
Proof.
  intros Ht. revert e. induction items as [|i items IH]; intros e Hz Hm; [done|]. cbn [map fold_result fold_left].
  assert (key_field info name e (item_json i) = Ok (apply_item e i)) as ->.
  { destruct i as [z|m]; unfold key_field; cbn [item_json].
    - rewrite bool_decide_eq_true_2 by done. cbn. rewrite wrapS_small; [done|lia|]. apply Hz. by left.
    - rewrite bool_decide_eq_false_2 by done. unfold StripAppDbMatchPrefix.
      assert (ConsumePrefix (AddAppDbMatchPrefix (Ir.match_name m)) kMatchPrefix = Some (Ir.match_name m)) as -> by by apply ConsumePrefix_spec.
      cbn [mbind result_bind get_string]. rewrite (match_read info name table) by first [done|apply Hm; by left]. done. }
  cbn [mbind result_bind]. apply IH; intros; [apply Hz|apply Hm]; by right.
Qed.

Lemma key_names te : NoDup (map Ir.match_name (Ir.matches te)) → NoDup (map fst (map item_json (key_items te))).
Proof.
  intros Hnd. unfold key_items. rewrite !map_app, !map_map. cbn [item_json fst].
  assert (NoDup (map (λ m, AddAppDbMatchPrefix (Ir.match_name m)) (Ir.matches te))) as Hm.
  { rewrite <-(map_map Ir.match_name AddAppDbMatchPrefix). apply NoDup_fmap_2; [|done]. intros x y. apply app_inv_head. }
  destruct (0 <? Ir.entry_priority te); [|done]. cbn. constructor; [|done].
  intros (m & Heq & _)%list_elem_of_fmap. discriminate Heq.
Qed.

Lemma key_written table te :
  (0 ≤ Ir.entry_priority te) → NoDup (map Ir.match_name (Ir.matches te)) →
  forallb (encodable_match table) (Ir.matches te) = true →
  ∃ json items, IrTableEntryToAppDbKey te = Ok (dump json) ∧ json_plain json ∧
    json_fields json = Ok (map item_json items) ∧ items ≡ₚ key_items te.
Proof.
  intros Hp Hnd Hms. rewrite forallb_forall in Hms. setoid_rewrite <-list_elem_of_In in Hms.
  pose proof (key_names te Hnd) as Hkeys. unfold key_items in Hkeys. rewrite map_app in Hkeys.
  set (base := map item_json (if 0 <? Ir.entry_priority te then [inl (Ir.entry_priority te)] else [])) in Hkeys.
  assert (∃ j0, (if 0 <? Ir.entry_priority te then json_set $"priority" (JInt (Ir.entry_priority te)) JNull else Ok JNull) = Ok j0 ∧
    built base j0) as (j0 & Hj0 & Hb0).
  { unfold base. destruct (0 <? Ir.entry_priority te); (eexists; split; [done|]); [right|by left].
    eexists. split; [done|]. split; [|done]. repeat constructor. }
  rewrite map_map in Hkeys.
  destruct (fold_built (λ m, item_json (inr m)) match_json (Ir.matches te) base j0) as (json & Hf & Hb); [|done|done|].
  { intros m i Hm. by destruct (match_written table m i (Hms m Hm)) as (_ & _ & ->). }
  assert (base ++ map (λ m, item_json (inr m)) (Ir.matches te) = map item_json (key_items te)) as Heq
    by (unfold key_items, base; by rewrite map_app, map_map).
  rewrite Heq in Hb. destruct (built_fields _ _ Hb) as (f & Hfields & Hperm).
  destruct (Permutation_map_inv _ _ Hperm) as (items & -> & Hitems).
  assert (json_plain json) as Hplain.
  { apply (built_plain _ _ Hb), Forall_map, Forall_forall. intros [z|m] Hin; cbn.
    - split; [by apply utf8_text|constructor].
    - unfold key_items in Hin. apply elem_of_app in Hin as [Hin|(m' & [= <-] & Hin)%list_elem_of_fmap].
      { case_match; [|by apply elem_of_nil in Hin]. by apply list_elem_of_singleton in Hin. }
      destruct (match_written table m JNull (Hms m Hin)) as (Hn & Ht & _). split; [done|by constructor]. }
  exists json, items. split_and!; [|done|done|done].
  unfold IrTableEntryToAppDbKey. rewrite Hj0. cbn [mbind result_bind]. rewrite Hf. by apply dump_plain.
Qed.

Lemma key_items_of te z : inl z ∈ key_items te → z = Ir.entry_priority te.
Proof.
  unfold key_items. intros [Hin|(m & ? & _)%list_elem_of_fmap]%elem_of_app; [|done].
  case_match; [|by apply elem_of_nil in Hin]. by apply list_elem_of_singleton in Hin as [= ->].
Qed.
Lemma item_matches_inr ms : item_matches (map inr ms) = ms.
Proof. unfold item_matches. induction ms as [|m l IH]; [done|]. cbn. by f_equal. Qed.
Lemma key_items_matches te : item_matches (key_items te) = Ir.matches te.
Proof.
  unfold key_items. destruct (0 <? Ir.entry_priority te); [|apply item_matches_inr].
  change (item_matches ([inl (Ir.entry_priority te)] ++ map inr (Ir.matches te))) with (item_matches (map inr (Ir.matches te))).
  apply item_matches_inr.
Qed.
#[global] Instance item_matches_proper : Proper ((≡ₚ) ==> (≡ₚ)) item_matches.
Proof. unfold item_matches. intros l l' Hl. by rewrite Hl. Qed.

(** The key gives the priority and the matches back, in the order of their names. *)
Lemma key_read info table te json items :
  tables_by_name info !! AsciiStrToLower (Ir.table_name te) = Some table → 0 ≤ Ir.entry_priority te < 2 ^ 31 →
  forallb (encodable_match table) (Ir.matches te) = true → json_plain json →
  json_fields json = Ok (map item_json items) → items ≡ₚ key_items te →
  ∃ ms, ms ≡ₚ Ir.matches te ∧ AppDbKeyToIrTableEntry info (Ir.table_name te) (dump json) =
    Ok (Ir.mkEntry (Ir.table_name te) ms (Ir.entry_priority te) Ir.kNoAction None None None []).
Proof.
  intros Ht Hp Hms Hplain Hf Hitems. rewrite forallb_forall in Hms. setoid_rewrite <-list_elem_of_In in Hms.
  exists (item_matches items). split; [by rewrite Hitems, key_items_matches|].
  unfold AppDbKeyToIrTableEntry. rewrite parse_dump, Hf by done. cbn [mbind result_bind].
  rewrite (items_read info _ table); [|done| |].
  - f_equal. rewrite (apply_items _ _ (Ir.entry_priority te)); [done| |].
    + intros z. rewrite Hitems. apply key_items_of.
    + destruct (Z.ltb_spec 0 (Ir.entry_priority te)).
      * left. exists (Ir.entry_priority te). rewrite Hitems. unfold key_items. rewrite (proj2 (Z.ltb_lt _ _)) by done. by left.
      * right. cbn. lia.
  - intros z. rewrite Hitems. intros ->%key_items_of. lia.
  - intros m. rewrite Hitems. unfold key_items. intros [Hin|(m' & [= <-] & Hin)%list_elem_of_fmap]%elem_of_app; [|by apply Hms].
    case_match; [|by apply elem_of_nil in Hin]. by apply list_elem_of_singleton in Hin.
Qed.

(** * Parameters of actions *)

Definition param_field (p : str * IrValue) : str * str := (AddAppDbActionParamPrefix (fst p), value_text (snd p)).

Lemma encodable_action_inv table a : encodable_action table a = true →
  is_utf8 (Ir.action_name a) = true ∧ NoDup (map fst (Ir.params a)) ∧
  ∃ i r, list_find (λ r, alias (action_preamble (ref_action r)) = Ir.action_name a) (entry_actions table) = Some (i, r) ∧
    ∀ p, p ∈ Ir.params a → encodable_param (ref_action r) p = true.
Proof.
  unfold encodable_action. intros [[? ?%bool_decide_eq_true]%andb_true_iff Hf]%andb_true_iff. split_and!; [done..|].
  destruct (list_find _ _) as [[i r]|]; [|done]. exists i, r. split; [done|]. intros p Hp.
  rewrite forallb_forall in Hf. by apply Hf, list_elem_of_In.
Qed.

Lemma encodable_param_inv def p : encodable_param def p = true →
  is_utf8 (fst p) = true ∧ is_utf8 (value_text (snd p)) = true ∧
  ∃ d, params_by_name def !! fst p = Some d ∧ has_format (param_format d) (snd p) = true.
Proof.
  unfold encodable_param. intros [[? ?]%andb_true_iff Hd]%andb_true_iff. split_and!; [done..|].
  destruct (params_by_name def !! fst p) as [d|]; [by exists d|done].
Qed.

Lemma params_written table a : encodable_action table a = true →
  IrActionInvocationToAppDbValues a = Ok (($"action", Ir.action_name a) :: map param_field (Ir.params a)).
Proof.
  intros (_ & _ & i & r & _ & Hps)%encodable_action_inv. unfold IrActionInvocationToAppDbValues.
  assert (map_result (λ '(name, value), v ← IrValueToAppDbString value; Ok (AddAppDbActionParamPrefix name, v)) (Ir.params a) =
    Ok (map param_field (Ir.params a))) as ->; [|done].
  apply map_result_Ok, Forall2_fmap_r, Forall_Forall2_diag, Forall_forall. intros [name v] Hp.
  apply Hps, encodable_param_inv in Hp as (_ & _ & d & _ & Hv). cbn [snd] in Hv. by rewrite (value_written _ _ Hv).
Qed.

Lemma param_read info name table a p :
  tables_by_name info !! AsciiStrToLower name = Some table → encodable_action table a = true → p ∈ Ir.params a →
  AppDbNameValueStringsToIrActionParam info name (Ir.action_name a) (AddAppDbActionParamPrefix (fst p)) (value_text (snd p)) = Ok p.
Proof.
  intros Ht (_ & _ & i & r & Hr & Hps)%encodable_action_inv Hp. unfold AppDbNameValueStringsToIrActionParam, StripAppDbActionParamPrefix.
  assert (ConsumePrefix (AddAppDbActionParamPrefix (fst p)) kActionParamPrefix = Some (fst p)) as -> by by apply ConsumePrefix_spec.
  cbn [mbind result_bind]. rewrite Ht, Hr. apply Hps, encodable_param_inv in Hp as (_ & _ & d & -> & Hv).
  rewrite (value_read _ _ Hv). by destruct p.
Qed.

(** * Actions of an action set *)

Record same_invocation (i i' : Ir.ActionSetInvocation) : Prop := {
  same_name : Ir.action_name (Ir.action_ i') = Ir.action_name (Ir.action_ i);
  same_params : Ir.params (Ir.action_ i') ≡ₚ Ir.params (Ir.action_ i);
  same_weight : Ir.weight_ i' = Ir.weight_ i;
  same_port : Ir.watch_port i' = Ir.watch_port i;
}.

Inductive invocation_item := IAction (s : str) | IWeight (z : Z) | IPort (s : str) | IParam (p : str * IrValue).
Definition invocation_json (i : invocation_item) : str * Json :=
  match i with
  | IAction s => ($"action", JString s)
  | IWeight z => ($"weight", JInt z)
  | IPort s => ($"watch_port", JString s)
  | IParam p => (AddAppDbActionParamPrefix (fst p), JString (value_text (snd p)))
  end.
Definition invocation_head (i : Ir.ActionSetInvocation) : list invocation_item :=
  [IAction (Ir.action_name (Ir.action_ i)); IWeight (Ir.weight_ i)] ++
  (if bool_decide (Ir.watch_port i = []) then [] else [IPort (Ir.watch_port i)]).
Definition invocation_items (i : Ir.ActionSetInvocation) : list invocation_item :=
  invocation_head i ++ map IParam (Ir.params (Ir.action_ i)).
Definition item_params (l : list invocation_item) : list (str * IrValue) :=
  omap (λ i, match i with IParam p => Some p | _ => None end) l.
Definition item_port (port : str) (i : invocation_item) : str := match i with IPort s => s | _ => port end.

Lemma invocation_names i : NoDup (map fst (Ir.params (Ir.action_ i))) → NoDup (map fst (map invocation_json (invocation_items i))).
Proof.
  intros Hnd. unfold invocation_items. rewrite !map_app, !map_map. cbn [invocation_json fst].
  assert (NoDup (map (λ p : str * IrValue, AddAppDbActionParamPrefix (fst p)) (Ir.params (Ir.action_ i)))) as Hm.
  { rewrite <-(map_map fst AddAppDbActionParamPrefix). apply NoDup_fmap_2; [|done]. intros x y. apply app_inv_head. }
  apply NoDup_app. split; [|split; [|done]].
  - unfold invocation_head. case_bool_decide; cbn; apply (bool_decide_eq_true_1 _); vm_compute; reflexivity.
  - intros k Hk (p & -> & _)%list_elem_of_fmap. unfold invocation_head in Hk.
    case_bool_decide; cbn in Hk; repeat (apply elem_of_cons in Hk as [Hk|Hk]; [discriminate Hk|]); by apply elem_of_nil in Hk.
Qed.

Lemma invocation_written table i : encodable_invocation table i = true →
  ∃ json, IrActionSetInvocationToJsonValue i = Ok json ∧ json_plain json ∧
    ∃ f, json = JObject f ∧ bt_sorted f ∧ f ≡ₚ map invocation_json (invocation_items i).
Proof.
  unfold encodable_invocation. intros Hi. bool_prop.
  match goal with Ha : encodable_action table _ = true |- _ => pose proof (encodable_action_inv _ _ Ha) as (Hname & Hnd & k & r & _ & Hps) end.
  pose proof (invocation_names i Hnd) as Hkeys. unfold invocation_items in Hkeys. rewrite map_app in Hkeys.
  assert (∃ j0, (json ← json_set $"action" (JString (Ir.action_name (Ir.action_ i))) JNull;
    json ← json_set $"weight" (JInt (Ir.weight_ i)) json;
    if bool_decide (Ir.watch_port i = []) then Ok json else json_set $"watch_port" (JString (Ir.watch_port i)) json) = Ok j0 ∧
    built (map invocation_json (invocation_head i)) j0) as (j0 & Hj0 & Hb0).
  { destruct (json_set_built [] JNull $"action" (JString (Ir.action_name (Ir.action_ i)))) as (j1 & -> & Hb1);
      [by left|by apply not_elem_of_nil|]. cbn [mbind result_bind].
    destruct (json_set_built _ j1 $"weight" (JInt (Ir.weight_ i)) Hb1) as (j2 & -> & Hb2);
      [by intros [?|?%elem_of_nil]%elem_of_cons|]. cbn [mbind result_bind].
    unfold invocation_head. case_bool_decide; [by exists j2|].
    destruct (json_set_built _ j2 $"watch_port" (JString (Ir.watch_port i)) Hb2) as (j3 & -> & Hb3); [|by exists j3].
    by intros [?|[?|?%elem_of_nil]%elem_of_cons]%elem_of_cons. }
  rewrite map_map in Hkeys.
  destruct (fold_built (λ p, invocation_json (IParam p)) param_json (Ir.params (Ir.action_ i))
    (map invocation_json (invocation_head i)) j0) as (json & Hf & Hb); [|done|done|].
  { intros p j Hp. apply Hps, encodable_param_inv in Hp as (_ & _ & d & _ & Hv). unfold param_json.
    by rewrite (value_written _ _ Hv). }
  assert (map invocation_json (invocation_head i) ++ map (λ p, invocation_json (IParam p)) (Ir.params (Ir.action_ i)) =
    map invocation_json (invocation_items i)) as Heq by (unfold invocation_items; by rewrite map_app, map_map).
  rewrite Heq in Hb. exists json. split_and!.
  - unfold IrActionSetInvocationToJsonValue. rewrite <-Hf.
    destruct (json_set _ _ JNull) as [j1| |]; [cbn [mbind result_bind] in *|done..].
    destruct (json_set _ _ j1) as [j2| |]; [cbn [mbind result_bind] in *|done..]. by rewrite Hj0.
  - apply (built_plain _ _ Hb), Forall_map, Forall_forall. intros x. unfold invocation_items, invocation_head.
    intros [[->|[->|Hx]%elem_of_cons]%elem_of_cons|(p & -> & Hp)%list_elem_of_fmap]%elem_of_app.
    + split; [by apply utf8_text|by constructor].
    + split; [by apply utf8_text|by constructor].
    + case_bool_decide; [by apply elem_of_nil in Hx|]. apply list_elem_of_singleton in Hx as ->. split; [by apply utf8_text|by constructor].
    + apply Hps, encodable_param_inv in Hp as (Hn & Ht & _). split; [|by constructor]. apply utf8_app; [by apply utf8_text|done].
  - destruct Hb as [[Hnil _]|(f & -> & Hs & Hp)]; [|by exists f]. discriminate Hnil.
Qed.

#[global] Instance item_params_proper : Proper ((≡ₚ) ==> (≡ₚ)) item_params.
Proof. unfold item_params. intros l l' Hl. by rewrite Hl. Qed.
Lemma item_params_inr l : item_params (map IParam l) = l.
Proof. unfold item_params. induction l as [|p l IH]; [done|]. cbn. by f_equal. Qed.
Lemma invocation_items_params i : item_params (invocation_items i) = Ir.params (Ir.action_ i).
Proof. unfold invocation_items, invocation_head. case_bool_decide; apply item_params_inr. Qed.

Lemma invocation_fields_read info name table a items i :
  tables_by_name info !! AsciiStrToLower name = Some table → encodable_action table a = true →
  (∀ p, IParam p ∈ items → p ∈ Ir.params a) →
  fold_result (invocation_field info name (Ir.action_name a)) (map invocation_json items) i =
    Ok (Ir.mkInvocation (Ir.mkAction (Ir.action_name (Ir.action_ i)) (Ir.params (Ir.action_ i) ++ item_params items))
      (Ir.weight_ i) (fold_left item_port items (Ir.watch_port i))).
Proof.
  intros Ht Ha. revert i. induction items as [|x items IH]; intros i Hin; cbn [map fold_result fold_left].
  { rewrite app_nil_r. by destruct i as [[] ? ?]. }
  assert (∀ p, IParam p ∈ items → p ∈ Ir.params a) as Hin' by (intros p Hp; apply Hin; by right).
  destruct x as [s|z|s|p]; cbn [invocation_json invocation_field item_port].
  - rewrite bool_decide_eq_true_2 by done. cbn [orb mbind result_bind]. by rewrite IH.
  - rewrite (bool_decide_eq_false_2 (_ = $"action")), bool_decide_eq_true_2 by done. cbn [orb mbind result_bind]. by rewrite IH.
  - rewrite !bool_decide_eq_false_2, bool_decide_eq_true_2 by done. cbn [orb get_string mbind result_bind]. by rewrite IH.
  - rewrite !bool_decide_eq_false_2 by done. cbn [orb get_string mbind result_bind].
    rewrite (param_read info name table) by first [done|apply Hin; by left]. cbn [mbind result_bind]. rewrite IH by done.
    cbn. by rewrite <-app_assoc.
Qed.

Lemma fold_port items s port :
  (∀ s', IPort s' ∈ items → s' = s) → ((∃ s', IPort s' ∈ items) ∨ port = s) → fold_left item_port items port = s.
Proof.
  revert port. induction items as [|x items IH]; intros port Hs Hsome; cbn [fold_left].
  - by destruct Hsome as [[s' ?%elem_of_nil]|].
  - apply IH; [intros s' ?; apply Hs; by right|]. destruct x as [| |s'|]; cbn [item_port];
      [..|right; apply Hs; by left|]; (destruct Hsome as [[s' [?|?]%elem_of_cons]|<-]; [done|left; by exists s'|by right]).
Qed.

Lemma invocation_read info name table i json f :
  tables_by_name info !! AsciiStrToLower name = Some table → encodable_invocation table i = true →
  json = JObject f → bt_sorted f → f ≡ₚ map invocation_json (invocation_items i) →
  ∃ i', read_invocation info name json = Ok i' ∧ same_invocation i i'.
Proof.
  unfold encodable_invocation. intros Ht Hi -> Hs Hf. bool_prop.
  assert (∀ x, x ∈ invocation_head i → bt_find (fst (invocation_json x)) f = Some (snd (invocation_json x))) as Hfind.
  { intros x Hx. apply bt_find_sorted; [done|]. rewrite Hf, <-surjective_pairing. apply list_elem_of_fmap_2.
    unfold invocation_items. apply elem_of_app. by left. }
  pose proof (Hfind (IAction _) ltac:(by left)) as Haction. pose proof (Hfind (IWeight _) ltac:(right; by left)) as Hweight.
  cbn [invocation_json fst snd] in Haction, Hweight.
  destruct (Permutation_map_inv _ _ Hf) as (items & -> & Hitems). symmetry in Hitems. eexists. split.
  - unfold read_invocation, json_at. rewrite Haction, Hweight. cbn [FindOrDie mbind result_bind get_string get_int catch json_fields].
    rewrite (invocation_fields_read info name table); [done..|]. intros p. rewrite Hitems. unfold invocation_items, invocation_head.
    intros [Hp|(q & [= <-] & Hq)%list_elem_of_fmap]%elem_of_app; [|done]. exfalso.
    case_bool_decide; cbn in Hp; repeat (apply elem_of_cons in Hp as [Hp|Hp]; [discriminate Hp|]); by apply elem_of_nil in Hp.
  - split; cbn.
    + done.
    + by rewrite Hitems, invocation_items_params.
    + apply wrapS_small; lia.
    + apply fold_port.
      * intros s'. rewrite Hitems. unfold invocation_items, invocation_head.
        intros [Hp|(q & ? & _)%list_elem_of_fmap]%elem_of_app; [|done].
        case_bool_decide; cbn in Hp; repeat (apply elem_of_cons in Hp as [Hp|Hp]; [congruence|]); by apply elem_of_nil in Hp.
      * destruct (decide (Ir.watch_port i = [])) as [Hnil|Hne]; [by right|]. left. exists (Ir.watch_port i). rewrite Hitems.
        unfold invocation_items, invocation_head. rewrite bool_decide_eq_false_2 by done. right. right. by left.
Qed.

Lemma action_set_written table l : forallb (encodable_invocation table) l = true →
  ∃ js, map_result IrActionSetInvocationToJsonValue l = Ok js ∧ json_plain (JArray js) ∧
    Forall2 (λ i json, encodable_invocation table i = true ∧
      ∃ f, json = JObject f ∧ bt_sorted f ∧ f ≡ₚ map invocation_json (invocation_items i)) l js.
Proof.
  induction l as [|i l IH]; cbn [forallb]; [intros _; exists []; split_and!; [done|by constructor|constructor]|].
  intros [Hi (js & Hjs & Hplain & Hall)%IH]%andb_true_iff. destruct (invocation_written table i Hi) as (j & Hj & Hp & Hf).
  exists (j :: js). cbn [map_result]. rewrite Hj, Hjs. split_and!; [done|constructor|by constructor].
  inversion Hplain; subst. by constructor.
Qed.

Lemma action_set_read info name table l js :
  tables_by_name info !! AsciiStrToLower name = Some table → json_plain (JArray js) →
  Forall2 (λ i json, encodable_invocation table i = true ∧
    ∃ f, json = JObject f ∧ bt_sorted f ∧ f ≡ₚ map invocation_json (invocation_items i)) l js →
  ∃ l', AppDbValueToIrActionSet info name (dump (JArray js)) = Ok l' ∧ Forall2 same_invocation l l'.
Proof.
  intros Ht Hplain Hall. unfold AppDbValueToIrActionSet. rewrite parse_dump by done. cbn [json_items]. clear Hplain.
  induction Hall as [|i j l js [Hi (f & Hj & Hs & Hf)] _ IH]; [by exists []|].
  destruct (invocation_read info name table i j f Ht Hi Hj Hs Hf) as (i' & Hi' & Hsame). destruct IH as (l' & Hl' & Hall').
  exists (i' :: l'). cbn [map_result]. rewrite Hi', Hl'. split; [done|by constructor].
Qed.

(** * The values *)

(** A meter without rates is not stored, nor is what else a meter config holds. *)
Definition stored_meter (m : MeterConfig) : option MeterConfig :=
  if (cir m =? 0) && (cburst m =? 0) && (pir m =? 0) && (pburst m =? 0) then None
  else Some (mkMeterConfig (cir m) (cburst m) (pir m) (pburst m) []).

Lemma value_field_meter info name action key z e :
  key ∈ [$"meter/cir"; $"meter/cburst"; $"meter/pir"; $"meter/pburst"] →
  value_field info name action e (key, StrCatSigned z) = AddAppDbMeterDataToIrTableEntry key (StrCatSigned z) e.
Proof.
  intros Hk. unfold value_field. rewrite !bool_decide_eq_false_2.
  2-4: repeat (apply elem_of_cons in Hk as [->|Hk]; [done|]); by apply elem_of_nil in Hk.
  assert (StartsWith key kActionParamPrefix = false) as ->.
  { apply not_true_iff_false. intros (t & Ht)%StartsWith_spec.
    repeat (apply elem_of_cons in Hk as [->|Hk]; [discriminate Ht|]); by apply elem_of_nil in Hk. }
  assert (StartsWith key $"meter/" = true) as ->; [|done]. apply StartsWith_spec.
  repeat (apply elem_of_cons in Hk as [->|Hk]; [by eexists|]); by apply elem_of_nil in Hk.
Qed.

Lemma meter_read info name action m e :
  int64 (cir m) && int64 (cburst m) && int64 (pir m) && int64 (pburst m) = true → Ir.entry_meter_config e = None →
  fold_result (value_field info name action) (P4MeterConfigToAppDbValues m) e = Ok (set_meter_config (stored_meter m) e).
Proof.
  unfold int64. intros Hm He. bool_prop. unfold P4MeterConfigToAppDbValues, stored_meter.
  destruct m as [a b c d r]. cbn [cir cburst pir pburst] in *. destruct e as [n ms p ac mc cd md me]. cbn in He. subst mc.
  destruct (Z.eqb_spec a 0) as [->|], (Z.eqb_spec b 0) as [->|], (Z.eqb_spec c 0) as [->|], (Z.eqb_spec d 0) as [->|];
    cbn [negb app fold_result andb]; repeat (rewrite value_field_meter by set_solver;
      unfold AddAppDbMeterDataToIrTableEntry at 1; rewrite SimpleAtoi64_signed by lia; cbn [mbind result_bind];
      repeat first [rewrite bool_decide_eq_true_2 by done|rewrite bool_decide_eq_false_2 by done];
      cbn [Ir.entry_meter_config default from_option id cir cburst pir pburst meter_rest set_meter_config fold_result mbind result_bind]);
    reflexivity.
Qed.

Lemma value_field_param info name table a p e before :
  tables_by_name info !! AsciiStrToLower name = Some table → encodable_action table a = true → p ∈ Ir.params a →
  Ir.entry_action e = Ir.kAction (Ir.mkAction (Ir.action_name a) before) →
  value_field info name (Some (Ir.action_name a)) e (param_field p) =
    Ok (set_action (Ir.kAction (Ir.mkAction (Ir.action_name a) (before ++ [p]))) e).
Proof.
  intros Ht Ha Hp He. unfold value_field, param_field. rewrite !bool_decide_eq_false_2 by done.
  assert (StartsWith (AddAppDbActionParamPrefix (fst p)) kActionParamPrefix = true) as -> by (apply StartsWith_spec; by eexists).
  rewrite (param_read info name table) by done. unfold mutable_action. by rewrite He.
Qed.

Lemma params_read info name table a e :
  tables_by_name info !! AsciiStrToLower name = Some table → encodable_action table a = true → Ir.entry_action e = Ir.kNoAction →
  fold_result (value_field info name (Some (Ir.action_name a))) (($"action", Ir.action_name a) :: map param_field (Ir.params a)) e =
    Ok (set_action (Ir.kAction a) e).
Proof.
  intros Ht Ha He. cbn [fold_result].
  assert (value_field info name (Some (Ir.action_name a)) e ($"action", Ir.action_name a) =
    Ok (set_action (Ir.kAction (Ir.mkAction (Ir.action_name a) [])) e)) as ->
    by (unfold value_field, mutable_action; by rewrite bool_decide_eq_true_2, He by done).
  cbn [mbind result_bind].
  assert (∀ ps before, (∀ p, p ∈ ps → p ∈ Ir.params a) →
    fold_result (value_field info name (Some (Ir.action_name a))) (map param_field ps)
      (set_action (Ir.kAction (Ir.mkAction (Ir.action_name a) before)) e) =
    Ok (set_action (Ir.kAction (Ir.mkAction (Ir.action_name a) (before ++ ps))) e)) as Hps.
  { induction ps as [|p ps IH]; intros before Hin; [by rewrite app_nil_r|]. cbn [map fold_result].
    rewrite (value_field_param info name table a p _ before) by first [done|apply Hin; by left]. cbn [mbind result_bind].
    change (set_action ?x (set_action ?y e)) with (set_action x e). rewrite IH by (intros; apply Hin; by right).
    by rewrite <-app_assoc. }
  rewrite Hps by done. cbn. by destruct a.
Qed.

Lemma fold_result_app {A S} (f : S → A → result S) l l' s : fold_result f (l ++ l') s = s ← fold_result f l s; fold_result f l' s.
Proof. revert s. induction l as [|x l IH]; intros s; [done|]. cbn. destruct (f s x); cbn; [apply IH|done..]. Qed.

(** The fields of the meter and the metadata do not look like an action. *)
Definition other_fields (te : Ir.TableEntry) : FieldValues :=
  from_option P4MeterConfigToAppDbValues [] (Ir.entry_meter_config te) ++
  (if bool_decide (Ir.entry_controller_metadata te = []) then [] else [($"controller_metadata", Ir.entry_controller_metadata te)]).

Lemma other_fields_names te f : f ∈ other_fields te → fst f ≠ $"action" ∧ fst f ≠ $"actions".
Proof.
  unfold other_fields. intros [Hf|Hf]%elem_of_app.
  - destruct (Ir.entry_meter_config te) as [m|]; [|by apply elem_of_nil in Hf]. cbn in Hf. unfold P4MeterConfigToAppDbValues in Hf.
    rewrite !elem_of_app in Hf. repeat case_match; set_solver.
  - case_bool_decide; [by apply elem_of_nil in Hf|]. by apply list_elem_of_singleton in Hf as ->.
Qed.

Lemma others_read info name action te e :
  match Ir.entry_meter_config te with Some m => int64 (cir m) && int64 (cburst m) && int64 (pir m) && int64 (pburst m) | None => true end = true →
  Ir.entry_meter_config e = None → Ir.entry_controller_metadata e = [] →
  fold_result (value_field info name action) (other_fields te) e =
    Ok (set_controller_metadata (Ir.entry_controller_metadata te) (set_meter_config (Ir.entry_meter_config te ≫= stored_meter) e)).
Proof.
  intros Hm He1 He2. unfold other_fields. rewrite fold_result_app.
  assert (fold_result (value_field info name action) (from_option P4MeterConfigToAppDbValues [] (Ir.entry_meter_config te)) e =
    Ok (set_meter_config (Ir.entry_meter_config te ≫= stored_meter) e)) as ->.
  { destruct (Ir.entry_meter_config te) as [m|]; [by apply meter_read|]. cbn. f_equal. destruct e. cbn in *. by subst. }
  cbn [mbind result_bind]. case_bool_decide as Hmeta.
  - rewrite Hmeta. cbn. f_equal. destruct e. cbn in *. by subst.
  - cbn [fold_result]. unfold value_field. rewrite (bool_decide_eq_false_2 (_ = $"action")), (bool_decide_eq_false_2 (_ = $"actions")) by done.
    assert (∀ p, p ∈ [kActionParamPrefix; $"meter/"] → StartsWith $"controller_metadata" p = false) as Hno.
    { intros p Hp. apply not_true_iff_false. intros (t & Ht)%StartsWith_spec.
      repeat (apply elem_of_cons in Hp as [->|Hp]; [discriminate Ht|]); by apply elem_of_nil in Hp. }
    rewrite !Hno by set_solver. by rewrite bool_decide_eq_true_2.
Qed.

(** * The name of the table *)

Lemma upper_colon c : upper_char c = ":"%char → c = ":"%char.
Proof. destruct c as [[] [] [] [] [] [] [] []]; vm_compute; congruence. Qed.
Lemma lower_upper c : lower_char c = c → lower_char (upper_char c) = c.
Proof. destruct c as [[] [] [] [] [] [] [] []]; vm_compute; congruence. Qed.
Lemma lower_upper_text s : AsciiStrToLower s = s → AsciiStrToLower (AsciiStrToUpper s) = s.
Proof.
  rewrite !lower_spec, upper_spec. intros Hs. rewrite map_map. induction s as [|c s IH]; [done|].
  injection Hs as Hc Hs. cbn. by rewrite lower_upper, IH.
Qed.
Lemma upper_clean s : ":"%char ∉ s → ":"%char ∉ AsciiStrToUpper s.
Proof. rewrite upper_spec. intros Hs (c & Hc & Hin)%list_elem_of_fmap. symmetry in Hc. apply upper_colon in Hc as ->. done. Qed.

Lemma table_type_kinds table type : GetTableType table = Ok type → (type = TableTypes.kAcl ∨ type = kFixed ∨ type = kExt).
Proof.
  unfold GetTableType, conditional_kExt. destruct (GetAnnotationBody _ _) as [b|e|]; [intros [= <-]; by left| |done].
  destruct e; try done. repeat case_match; intros [= <-]; auto.
Qed.

(** A key of a table splits into its type, the name of the table, and the rest. *)
Lemma key_splits type name rest :
  (type = TableTypes.kAcl ∨ type = kFixed ∨ type = kExt) → ":"%char ∉ name → AsciiStrToLower name = name →
  let key := AsciiStrToUpper (TypeName type ++ $"_" ++ name ++ $":") ++ rest in
  SonicDbKeyToP4TableName key = Ok name ∧ SonicDbKeyToAppDbKey key = rest.
Proof.
  intros Htype Hclean Hlower key.
  assert (key = (TypeName type ++ "_"%char :: AsciiStrToUpper name) ++ ":"%char :: rest) as Hkey.
  { unfold key. rewrite !upper_spec, !map_app.
    destruct Htype as [->|[->| ->]]; cbn; by rewrite <-app_assoc. }
  assert (":"%char ∉ TypeName type ++ "_"%char :: AsciiStrToUpper name) as Hc.
  { intros [Hin|[?|Hin]%elem_of_cons]%elem_of_app; [|done|by apply upper_clean in Hin].
    destruct Htype as [->|[->| ->]]; cbn in Hin; set_solver. }
  rewrite Hkey. split.
  - unfold SonicDbKeyToP4TableName. rewrite split_first by done.
    assert (find_char "_"%char (TypeName type ++ "_"%char :: AsciiStrToUpper name) = Some (TypeName type, AsciiStrToUpper name)) as ->.
    { apply find_char_first. destruct Htype as [->|[->| ->]]; cbn; set_solver. }
    assert (TypeParse (TypeName type) = Ok type) as ->; [|cbn; by rewrite lower_upper_text].
    destruct Htype as [->|[->| ->]]; done.
  - unfold SonicDbKeyToAppDbKey. by rewrite find_char_first.
Qed.

(** * Entries *)

Definition same_action (a a' : Ir.EntryAction) : Prop :=
  match a, a' with
  | Ir.kAction x, Ir.kAction y => x = y
  | Ir.kActionSet l, Ir.kActionSet l' => Forall2 same_invocation l l'
  | _, _ => False
  end.

(** The same entry, up to the order of the match fields and of the parameters of an action set, and to a meter
    without rates.  Counters are not stored with the entry. *)
Record same_entry (te te' : Ir.TableEntry) : Prop := {
  same_table : Ir.table_name te' = Ir.table_name te;
  same_matches : Ir.matches te' ≡ₚ Ir.matches te;
  same_priority : Ir.entry_priority te' = Ir.entry_priority te;
  same_entry_action : same_action (Ir.entry_action te) (Ir.entry_action te');
  same_meter : Ir.entry_meter_config te' = (Ir.entry_meter_config te ≫= stored_meter);
  same_metadata : Ir.entry_controller_metadata te' = Ir.entry_controller_metadata te;
  no_counter : Ir.entry_counter_data te' = None;
  no_meter_counter : Ir.entry_meter_counter_data te' = None;
}.

Lemma encodable_inv info te : encodable_entry info te = true →
  ∃ table type, tables_by_name info !! Ir.table_name te = Some table ∧ GetTableType table = Ok type ∧
    (type = TableTypes.kAcl ∨ type = kFixed ∨ type = kExt) ∧ (":"%char ∉ Ir.table_name te) ∧ AsciiStrToLower (Ir.table_name te) = Ir.table_name te ∧
    0 ≤ Ir.entry_priority te < 2 ^ 31 ∧ NoDup (map Ir.match_name (Ir.matches te)) ∧
    forallb (encodable_match table) (Ir.matches te) = true ∧
    match Ir.entry_action te with
    | Ir.kAction a => encodable_action table a = true
    | Ir.kActionSet l => forallb (encodable_invocation table) l = true
    | Ir.kNoAction => False
    end ∧
    match Ir.entry_meter_config te with Some m => int64 (cir m) && int64 (cburst m) && int64 (pir m) && int64 (pburst m) | None => true end = true.
Proof.
  unfold encodable_entry. destruct (tables_by_name info !! Ir.table_name te) as [table|]; [|done].
  intros [[[[[[[[Htype Hc]%andb_true_iff Hl]%andb_true_iff Hp1]%andb_true_iff Hp2]%andb_true_iff Hnd]%andb_true_iff
    Hms]%andb_true_iff Ha]%andb_true_iff Hm]%andb_true_iff.
  destruct (GetTableType table) as [type| |] eqn:Ht; [|done..]. pose proof (table_type_kinds _ _ Ht). bool_prop.
  exists table, type. split_and!; try done; [lia|lia|]. by destruct (Ir.entry_action te).
Qed.

Lemma last_action_of (l : FieldValues) (r : option str) : (∀ f, f ∈ l → fst f ≠ $"action") →
  fold_left (λ r f, if bool_decide (fst f = $"action") then Some (snd f) else r) l r = r.
Proof.
  revert r. induction l as [|f l IH]; intros r Hl; [done|]. cbn [fold_left].
  rewrite (bool_decide_eq_false_2 (fst f = _)) by (apply Hl; by left). apply IH. intros g Hg. apply Hl. by right.
Qed.
Lemma has_field name (l : FieldValues) : existsb (λ f, bool_decide (fst f = name)) l = true ↔ ∃ f, f ∈ l ∧ fst f = name.
Proof.
  rewrite existsb_exists. setoid_rewrite <-list_elem_of_In. split; intros (f & ? & Hf); exists f; (split; [done|]).
  - by apply bool_decide_eq_true in Hf.
  - by apply bool_decide_eq_true.
Qed.

(** The values give the action, the meter and the metadata back. *)
Lemma values_read info table te ms p :
  tables_by_name info !! AsciiStrToLower (Ir.table_name te) = Some table →
  match Ir.entry_action te with
  | Ir.kAction a => encodable_action table a = true
  | Ir.kActionSet l => forallb (encodable_invocation table) l = true
  | Ir.kNoAction => False
  end →
  match Ir.entry_meter_config te with Some m => int64 (cir m) && int64 (cburst m) && int64 (pir m) && int64 (pburst m) | None => true end = true →
  ∃ values a', IrTableEntryToAppDbValues te = Ok values ∧ same_action (Ir.entry_action te) a' ∧
    fold_result (value_field info (Ir.table_name te) (last_action values)) values
      (Ir.mkEntry (Ir.table_name te) ms p Ir.kNoAction None None None []) =
      Ok (Ir.mkEntry (Ir.table_name te) ms p a' (Ir.entry_meter_config te ≫= stored_meter) None None (Ir.entry_controller_metadata te)) ∧
    existsb (λ f, bool_decide (fst f = $"action")) values && existsb (λ f, bool_decide (fst f = $"actions")) values = false.
Proof.
  intros Ht Ha Hm. unfold IrTableEntryToAppDbValues. fold (other_fields te).
  destruct (Ir.entry_action te) as [a|l|]; [| |done].
  - rewrite (params_written table a Ha). eexists _, (Ir.kAction a). split; [done|]. split; [done|]. split.
    + assert (last_action ((($"action", Ir.action_name a) :: map param_field (Ir.params a)) ++ other_fields te) = Some (Ir.action_name a)) as ->.
      { unfold last_action. cbn [app fold_left]. rewrite bool_decide_eq_true_2 by done. apply last_action_of.
        intros f [(q & -> & _)%list_elem_of_fmap|[? _]%other_fields_names]%elem_of_app; done. }
      rewrite fold_result_app, (params_read info _ table) by done. cbn [mbind result_bind]. by rewrite others_read.
    + apply andb_false_iff. right. apply not_true_iff_false. rewrite has_field. intros (f & [[->|(q & -> & _)%list_elem_of_fmap]%elem_of_cons|[_ ?]%other_fields_names]%elem_of_app & Hf); done.
  - destruct (action_set_written table l Ha) as (js & Hjs & Hplain & Hall).
    destruct (action_set_read info (Ir.table_name te) table l js Ht Hplain Hall) as (l' & Hl' & Hsame).
    exists (($"actions", dump (JArray js)) :: other_fields te), (Ir.kActionSet l'). split; [|split; [done|split]].
    + unfold IrActionSetToAppDbValues. rewrite Hjs. cbn [mbind result_bind]. by rewrite dump_plain.
    + cbn [fold_result].
      assert (∀ action e, value_field info (Ir.table_name te) action e ($"actions", dump (JArray js)) =
        Ok (set_action (Ir.kActionSet l') e)) as ->
        by (intros; unfold value_field; rewrite bool_decide_eq_false_2, bool_decide_eq_true_2 by done; by rewrite Hl').
      cbn [mbind result_bind]. by rewrite others_read.
    + apply andb_false_iff. left. apply not_true_iff_false. rewrite has_field. intros (f & [->|[? _]%other_fields_names]%elem_of_cons & Hf); done.
Qed.

(** The key gives the table, the matches and the priority back. *)
Lemma key_roundtrip info te : encodable_entry info te = true →
  ∃ key ms, GetRedisP4rtTableKey te info = Ok key ∧ ms ≡ₚ Ir.matches te ∧
    SonicDbKeyToP4TableName key = Ok (Ir.table_name te) ∧
    AppDbKeyToIrTableEntry info (Ir.table_name te) (SonicDbKeyToAppDbKey key) =
      Ok (Ir.mkEntry (Ir.table_name te) ms (Ir.entry_priority te) Ir.kNoAction None None None []).
Proof.
  intros (table & type & Ht & Htype & Hkind & Hclean & Hlower & Hp & Hnd & Hms & _ & _)%encodable_inv.
  destruct (key_written table te) as (json & items & Hkey & Hplain & Hf & Hitems); [lia|done|done|].
  assert (tables_by_name info !! AsciiStrToLower (Ir.table_name te) = Some table) as Ht' by by rewrite Hlower.
  destruct (key_read info table te json items Ht' Hp Hms Hplain Hf Hitems) as (ms & Hperm & Hread).
  destruct (key_splits type (Ir.table_name te) (dump json) Hkind Hclean Hlower) as [Hname Hrest].
  eexists _, ms. split; [|split; [done|split; [exact Hname|by rewrite Hrest]]].
  unfold GetRedisP4rtTableKey. by rewrite Ht, Htype, Hkey.
Qed.

(** C18.  Entries survive the application database.  An entry that fits the program - the name of its table is in
    lower case, its names have none of the separators of keys, and its match fields and parameters have the kinds
    and formats of their definitions, with valid UTF-8 - is encoded, and what is read back from its key
    and its values is the same entry: the same table, priority, action and metadata, and the same match fields
    and action set up to their order; only a meter without rates is lost, and the counters and the counters of the
    meter, which are not written.  Two entries share a key only when
    they have the same table, match fields and priority, so that no entry overwrites another one. *)
Theorem app_db_entry_roundtrip (info : IrP4Info) (te : Ir.TableEntry) (update_type : UpdateType) :
  encodable_entry info te = true → update_type = INSERT ∨ update_type = MODIFY →
  ∃ update, CreateAppDbP4rtUpdate update_type te info = Ok update ∧ kfvOp update = $"SET" ∧
    (∃ te', AppDbKeyAndValuesToIrTableEntry info (kfvKey update) (kfvFieldsValues update) = Ok te' ∧ same_entry te te') ∧
    ∀ te2, encodable_entry info te2 = true → GetRedisP4rtTableKey te2 info = Ok (kfvKey update) →
      Ir.table_name te2 = Ir.table_name te ∧ Ir.matches te2 ≡ₚ Ir.matches te ∧ Ir.entry_priority te2 = Ir.entry_priority te.
Proof.
  intros Hte Htype. destruct (key_roundtrip info te Hte) as (key & ms & Hkey & Hms & Hname & Hread).
  pose proof (encodable_inv info te Hte) as (table & type & Ht & _ & _ & _ & Hlower & _ & _ & _ & Ha & Hm).
  assert (tables_by_name info !! AsciiStrToLower (Ir.table_name te) = Some table) as Ht' by by rewrite Hlower.
  destruct (values_read info table te ms (Ir.entry_priority te) Ht' Ha Hm) as (values & a' & Hvalues & Hsame & Hfold & Hone).
  exists (mkKfv key $"SET" values). split_and!.
  - unfold CreateAppDbP4rtUpdate. rewrite Hkey. cbn [mbind result_bind]. by destruct Htype as [-> | ->]; rewrite Hvalues.
  - done.
  - eexists. split.
    + unfold AppDbKeyAndValuesToIrTableEntry. cbn [kfvKey kfvFieldsValues]. rewrite Hname. cbn [mbind result_bind].
      rewrite Hread. cbn [mbind result_bind]. rewrite Hfold. cbn [mbind result_bind]. by rewrite Hone.
    + by split.
  - intros te2 Hte2 Hkey2. destruct (key_roundtrip info te2 Hte2) as (key2 & ms2 & Hk2 & Hms2 & Hname2 & Hread2).
    cbn [kfvKey] in Hkey2. rewrite Hk2 in Hkey2. injection Hkey2 as ->. rewrite Hname in Hname2. injection Hname2 as Hname2.
    rewrite <-Hname2, Hread in Hread2. injection Hread2 as Hm2 Hp2. by rewrite <-Hms2, <-Hm2, Hms.
Qed.
End primitives.

(** * Multicast groups, VRFs and VLANs *)

Section others.
Context `{AbslStringsLaws} `{SwssSchema} `{AclLibraries} `{!EntryLibraries} `{!EntryLaws}.

Definition uint32 (z : Z) : bool := (0 <=? z) && (z <? 2 ^ 32).
Definition encodable_group (g : Ir.MulticastGroupEntry) : bool :=
  uint32 (Ir.group_id g) &&
  forallb (λ r, is_utf8 (Ir.replica_port r) && uint32 (Ir.replica_instance r) &&
    forallb (λ b, is_utf8 (Ir.backup_port b) && uint32 (Ir.backup_instance b)) (Ir.backup_replicas r)) (Ir.replicas g).

Lemma replica_json_fields port instance :
  replica_json port instance = JObject [($"multicast_replica_instance", JString ($"0x" ++ Hex4 instance)); ($"multicast_replica_port", JString port)].
Proof. reflexivity. Qed.

Lemma replica_plain port instance : is_utf8 port = true → uint32 instance = true → json_plain (replica_json port instance).
Proof.
  unfold uint32. intros Hp [? ?]%andb_true_iff. rewrite replica_json_fields. constructor.
  - repeat constructor.
  - repeat constructor; [by apply utf8_text| |by apply utf8_text|done]. apply utf8_app; [by apply utf8_text|apply utf8_Hex4; lia].
Qed.
Lemma replica_parsed port instance : uint32 instance = true → ParseJsonReplica (replica_json port instance) = Ok (port, instance).
Proof.
  unfold uint32. intros [? ?]%andb_true_iff. rewrite replica_json_fields.
  change (match SimpleHexAtoiU32 ($"0x" ++ Hex4 instance) with Some i => Ok (port, i) | None => Err kInvalidArgument end =
    Ok (port, instance)). by rewrite SimpleHexAtoiU32_Hex4 by lia.
Qed.

Lemma replica_read port instance : uint32 instance = true →
  read_replica (replica_json port instance) = Ok (Ir.mkReplica port instance []) ∧
  read_backup (replica_json port instance) = Ok (Ir.mkBackup port instance).
Proof. intros Hi. unfold read_replica, read_backup. by rewrite replica_parsed. Qed.

Lemma replicas_read rs : (∀ r, r ∈ rs → uint32 (Ir.replica_instance r) = true) →
  map_result read_replica (map (λ r, replica_json (Ir.replica_port r) (Ir.replica_instance r)) rs) =
    Ok (map (λ r, Ir.mkReplica (Ir.replica_port r) (Ir.replica_instance r) []) rs).
Proof.
  induction rs as [|r rs IH]; intros Hr; [done|]. cbn [map map_result].
  rewrite (proj1 (replica_read _ _ (Hr r ltac:(by left)))). cbn [mbind result_bind]. by rewrite IH by (intros; apply Hr; by right).
Qed.
Lemma backups_read bs : (∀ b, b ∈ bs → uint32 (Ir.backup_instance b) = true) → map_result read_backup (map backup_json bs) = Ok bs.
Proof.
  induction bs as [|b bs IH]; intros Hb; [done|]. cbn [map map_result].
  change (backup_json b) with (replica_json (Ir.backup_port b) (Ir.backup_instance b)).
  rewrite (proj2 (replica_read _ _ (Hb b ltac:(by left)))). cbn [mbind result_bind]. rewrite IH by (intros; apply Hb; by right). by destruct b.
Qed.

Lemma encodable_group_inv g : encodable_group g = true →
  uint32 (Ir.group_id g) = true ∧ ∀ r, r ∈ Ir.replicas g → is_utf8 (Ir.replica_port r) = true ∧ uint32 (Ir.replica_instance r) = true ∧
    ∀ b, b ∈ Ir.backup_replicas r → is_utf8 (Ir.backup_port b) = true ∧ uint32 (Ir.backup_instance b) = true.
Proof.
  unfold encodable_group. intros [? Hall]%andb_true_iff. split; [done|]. intros r Hr. rewrite forallb_forall in Hall.
  apply list_elem_of_In, Hall in Hr. bool_prop. split_and!; [done..|]. intros b Hb.
  match goal with Hf : forallb _ _ = true |- _ => rewrite forallb_forall in Hf; apply list_elem_of_In, Hf in Hb end. by bool_prop.
Qed.

Lemma zip_backups rs :
  zip_with add_backups (map (λ r, Ir.mkReplica (Ir.replica_port r) (Ir.replica_instance r) []) rs) (map Ir.backup_replicas rs) = rs.
Proof. induction rs as [|[p i bs] rs IH]; [done|]. cbn. by rewrite IH. Qed.
Lemma no_backups rs : length (concat (map Ir.backup_replicas rs)) = 0%nat →
  map (λ r, Ir.mkReplica (Ir.replica_port r) (Ir.replica_instance r) []) rs = rs.
Proof. induction rs as [|[p i bs] rs IH]; [done|]. cbn. rewrite length_app. intros Hl. destruct bs; [|cbn in Hl; lia]. by rewrite IH. Qed.

Lemma replicas_field data group backups : replication_field (group, backups) ($"replicas", data) =
  (json ← ParseJson data; l ← map_result read_replica (json_items json);
   Ok (Ir.mkMulticast (Ir.group_id group) (Ir.replicas group ++ l) (Ir.group_metadata group), backups)).
Proof. reflexivity. Qed.
Lemma backups_field data group backups : replication_field (group, backups) ($"backups", data) =
  (json ← ParseJson data; l ← map_result (λ j, map_result read_backup (json_items j)) (json_items json); Ok (group, backups ++ l)).
Proof. reflexivity. Qed.
Lemma metadata_field data group backups : replication_field (group, backups) ($"controller_metadata", data) =
  Ok (Ir.mkMulticast (Ir.group_id group) (Ir.replicas group) data, backups).
Proof. reflexivity. Qed.

Lemma replication_roundtrip g update_type : encodable_group g = true → update_type = INSERT ∨ update_type = MODIFY →
  ∃ update, CreateAppDbPacketReplicationTableUpdate update_type (Ir.kMulticastGroupEntry g) = Ok update ∧
    ∀ table, table !! kfvKey update = Some (kfvFieldsValues update) →
      read_stored_group table (kfvKey update) = Ok (Ir.kMulticastGroupEntry g).
Proof.
  intros [Hid Hrs]%encodable_group_inv Htype.
  set (rs := Ir.replicas g) in *. set (count := length (concat (map Ir.backup_replicas rs))).
  set (jr := JArray (map (λ r, replica_json (Ir.replica_port r) (Ir.replica_instance r)) rs)).
  set (jb := JArray (map (λ r, JArray (map backup_json (Ir.backup_replicas r))) rs)).
  assert (json_plain jr) as Hjr.
  { constructor. apply Forall_map, Forall_forall. intros r Hr. by apply replica_plain; apply Hrs. }
  assert (json_plain jb) as Hjb.
  { constructor. apply Forall_map, Forall_forall. intros r Hr. constructor. apply Forall_map, Forall_forall. intros b Hb.
    by apply replica_plain; apply (Hrs r Hr). }
  set (values := ($"replicas", dump jr) :: (if (0 <? count)%nat then [($"backups", dump jb)] else []) ++
    (if bool_decide (Ir.group_metadata g = []) then [] else [($"controller_metadata", Ir.group_metadata g)])).
  assert (CreateFieldValues (Ir.kMulticastGroupEntry g) = Ok values) as Hvalues.
  { unfold CreateFieldValues. cbn [multicast_group_entry]. fold rs jr jb. rewrite (dump_plain jr) by done. cbn [mbind result_bind].
    fold count. unfold values. destruct (0 <? count)%nat; [|done]. by rewrite dump_plain by done. }
  exists (mkKfv (GetRedisPacketReplicationTableKey (Ir.kMulticastGroupEntry g)) $"SET" values). split.
  { unfold CreateAppDbPacketReplicationTableUpdate. by destruct Htype as [-> | ->]; rewrite Hvalues. }
  cbn [kfvKey kfvFieldsValues]. intros table Htable. unfold read_stored_group, db_get. rewrite Htable.
  unfold StripTableName, GetRedisPacketReplicationTableKey, IrMulticastGroupEntryToAppDbKey. cbn [multicast_group_entry].
  assert (∀ s, ConsumePrefix (TablePrefix ++ s) TablePrefix = Some s) as -> by (intros; by apply ConsumePrefix_spec).
  cbn [mbind result_bind]. unfold uint32 in Hid. rewrite SimpleHexAtoiU32_Hex4 by lia.
  change (default [] (Some values)) with values.
  set (stripped := map (λ r, Ir.mkReplica (Ir.replica_port r) (Ir.replica_instance r) []) rs).
  assert (fold_result replication_field values (Ir.mkMulticast (Ir.group_id g) [] [], []) =
    Ok (Ir.mkMulticast (Ir.group_id g) stripped (Ir.group_metadata g),
        if (0 <? count)%nat then map Ir.backup_replicas rs else [])) as ->.
  { unfold values. cbn [fold_result]. rewrite replicas_field. unfold ParseJson at 1. rewrite parse_dump by done. cbn [mbind result_bind json_items jr].
    rewrite replicas_read by (intros; by apply Hrs). cbn [mbind result_bind Ir.replicas Ir.group_id Ir.group_metadata app]. fold stripped.
    rewrite fold_result_app.
    assert (fold_result replication_field (if (0 <? count)%nat then [($"backups", dump jb)] else [])
      (Ir.mkMulticast (Ir.group_id g) stripped [], []) =
      Ok (Ir.mkMulticast (Ir.group_id g) stripped [], if (0 <? count)%nat then map Ir.backup_replicas rs else [])) as ->.
    { destruct (0 <? count)%nat; [|done]. cbn [fold_result]. rewrite backups_field. unfold ParseJson. rewrite parse_dump by done. cbn [mbind result_bind json_items jb].
      assert (map_result (λ j, map_result read_backup (json_items j)) (map (λ r, JArray (map backup_json (Ir.backup_replicas r))) rs) =
        Ok (map Ir.backup_replicas rs)) as ->; [|done].
      apply map_result_Ok, Forall2_fmap, Forall_Forall2_diag, Forall_forall. intros r Hr. cbn [json_items].
      apply backups_read. intros b Hb. by apply (Hrs r Hr). }
    cbn [mbind result_bind]. case_bool_decide as Hmeta; [by rewrite Hmeta|]. cbn [fold_result]. by rewrite metadata_field. }
  cbn [mbind result_bind]. destruct (Nat.ltb_spec 0 count) as [Hc|Hc].
  - assert (rs ≠ []) as Hne by (intros Hnil; unfold count in Hc; rewrite Hnil in Hc; cbn in Hc; lia).
    rewrite bool_decide_eq_false_2 by (by destruct rs). cbn [Ir.replicas Ir.group_id Ir.group_metadata].
    unfold stripped. rewrite !length_map, Nat.eqb_refl. cbn [negb]. rewrite zip_backups. unfold rs. by destruct g.
  - rewrite bool_decide_eq_true_2 by done. unfold stripped. rewrite no_backups by (unfold count in Hc; lia). unfold rs. by destruct g.
Qed.

(** VLANs are written with their number and read with the three digits of its hexadecimal text. *)
Definition vlan_text (id : Z) : IrValue := kHexStr ($"0x" ++ three_hex_digits id).
Definition vlan_entry (id : Z) (metadata : str) : Ir.TableEntry :=
  exact_entry $"vlan_table" [($"vlan_id", vlan_text id)] $"no_action" metadata.
Definition vlan_member_entry (id : Z) (port : str) (tagged : bool) (metadata : str) : Ir.TableEntry :=
  exact_entry $"vlan_membership_table" [($"vlan_id", vlan_text id); ($"port", kStr port)]
    (if tagged then $"make_tagged_member" else $"make_untagged_member") metadata.

Lemma vlan_key_written name id : 1 ≤ id ≤ 4094 → vlan_key (Ir.mkMatch name (Ir.kExact (vlan_text id))) = Ok ($"Vlan" ++ decimal id).
Proof.
  intros Hid. unfold vlan_key, exact_hex_str. cbn [Ir.match_value vlan_text]. rewrite SimpleHexAtoiU32_digits by lia.
  rewrite StrCatInt_decimal by lia. destruct (Z.ltb_spec 4094 id), (Z.ltb_spec id 1); [lia..|done].
Qed.
Lemma vlan_key_read id : 1 ≤ id ≤ 4094 → StripVlanPrefixAndReturnHexString ($"Vlan" ++ decimal id) = Ok ($"0x" ++ three_hex_digits id).
Proof.
  intros Hid. unfold StripVlanPrefixAndReturnHexString.
  assert (ConsumePrefix ($"Vlan" ++ decimal id) kVlanPrefix = Some (decimal id)) as -> by by apply ConsumePrefix_spec.
  rewrite SimpleAtoiU32_decimal, Hex03x_digits by lia. destruct (Z.ltb_spec 4095 id); [lia|done].
Qed.
Lemma metadata_read entry rest : last_value $"controller_metadata" rest = None →
  default [] (last_value $"controller_metadata" (rest ++ controller_metadata_value entry)) = Ir.entry_controller_metadata entry.
Proof.
  unfold last_value, controller_metadata_value. intros Hr. rewrite fold_left_app, Hr. case_bool_decide as Hm; [by rewrite Hm|].
  cbn [fold_left fst snd]. by rewrite bool_decide_eq_true_2.
Qed.

Lemma vlan_roundtrip id metadata : 1 ≤ id ≤ 4094 →
  ∃ update, CreateAppDbVlanUpdate INSERT (vlan_entry id metadata) = Ok update ∧
    ∀ table, table !! kfvKey update = Some (kfvFieldsValues update) → read_vlan table (kfvKey update) = Ok (vlan_entry id metadata).
Proof.
  intros Hid. exists (mkKfv ($"Vlan" ++ decimal id) $"SET" (GetVlanValues (vlan_entry id metadata))). split.
  - unfold CreateAppDbVlanUpdate. change (GetVlanTableKey (vlan_entry id metadata)) with (vlan_key (Ir.mkMatch $"vlan_id" (Ir.kExact (vlan_text id)))).
    by rewrite vlan_key_written.
  - cbn [kfvKey kfvFieldsValues]. intros table Ht. unfold read_vlan, db_get. rewrite Ht, vlan_key_read by done.
    cbn [mbind result_bind].
    change (default [] (Some (GetVlanValues (vlan_entry id metadata)))) with
      ([($"source", $"P4")] ++ controller_metadata_value (vlan_entry id metadata)). by rewrite metadata_read.
Qed.

Lemma vlan_member_roundtrip id port tagged metadata update_type :
  1 ≤ id ≤ 4094 → port ≠ [] → ":"%char ∉ port → update_type = INSERT ∨ update_type = MODIFY →
  ∃ update, CreateAppDbVlanMemberUpdate update_type (vlan_member_entry id port tagged metadata) = Ok update ∧
    ∀ table, table !! kfvKey update = Some (kfvFieldsValues update) →
      read_vlan_member table (kfvKey update) = Ok (vlan_member_entry id port tagged metadata).
Proof.
  intros Hid Hport Hclean Htype. set (entry := vlan_member_entry id port tagged metadata).
  exists (mkKfv (($"Vlan" ++ decimal id) ++ $":" ++ port) $"SET" (GetVlanMemberValues entry)). split.
  - assert (GetVlanMemberTableKey entry = Ok (($"Vlan" ++ decimal id) ++ $":" ++ port)) as Hkey.
    { unfold GetVlanMemberTableKey.
      change (Ir.matches entry) with [Ir.mkMatch $"vlan_id" (Ir.kExact (vlan_text id)); Ir.mkMatch $"port" (Ir.kExact (kStr port))].
      cbn [fold_result]. unfold member_step at 2. rewrite bool_decide_eq_true_2 by done. rewrite vlan_key_written by done.
      cbn [mbind result_bind]. unfold member_step. cbn [Ir.match_name]. rewrite bool_decide_eq_false_2, bool_decide_eq_true_2 by done.
      cbn [mbind result_bind fst snd exact_str Ir.match_value]. by rewrite !bool_decide_eq_false_2. }
    unfold CreateAppDbVlanMemberUpdate. rewrite Hkey. by destruct Htype as [-> | ->].
  - cbn [kfvKey kfvFieldsValues]. intros table Ht. unfold read_vlan_member, db_get. rewrite Ht.
    unfold ExtractVlanIdAndPortIdFromMemberKey.
    change (($"Vlan" ++ decimal id) ++ $":" ++ port) with (($"Vlan" ++ decimal id) ++ ":"%char :: port).
    assert (":"%char ∉ $"Vlan" ++ decimal id) as Hvlan.
    { intros [Hin|Hin]%elem_of_app; [cbn in Hin; set_solver|]. by apply (decimal_clean ":"%char id ltac:(lia)) in Hin. }
    rewrite split_two by done.
    rewrite vlan_key_read by done. cbn [mbind result_bind]. change (default [] (Some (GetVlanMemberValues entry))) with (GetVlanMemberValues entry).
    assert (existsb (λ f, bool_decide (f = ($"tagging_mode", $"tagged"))) (GetVlanMemberValues entry) = tagged) as ->.
    { unfold GetVlanMemberValues, controller_metadata_value, entry. destruct tagged, metadata; reflexivity. }
    unfold GetVlanMemberValues.
    match goal with |- context [?a :: ?b :: controller_metadata_value ?e] =>
      change (a :: b :: controller_metadata_value e) with ([a; b] ++ controller_metadata_value e) end.
    rewrite metadata_read; [done|]. by destruct tagged.
Qed.

(** C36.  Multicast groups, VLANs and their members survive the application database: what is written for an
    entry is read back as the same entry, backup replicas, tagging and metadata included.  Of a VRF the name is
    read back, but not its metadata. *)
Theorem sonic_tables_roundtrip (update_type : UpdateType) :
  update_type = INSERT ∨ update_type = MODIFY →
  (∀ g, encodable_group g = true → ∃ update,
     CreateAppDbPacketReplicationTableUpdate update_type (Ir.kMulticastGroupEntry g) = Ok update ∧
     ∀ table, table !! kfvKey update = Some (kfvFieldsValues update) →
       read_stored_group table (kfvKey update) = Ok (Ir.kMulticastGroupEntry g)) ∧
  (∀ id metadata, 1 ≤ id ≤ 4094 → ∃ update, CreateAppDbVlanUpdate INSERT (vlan_entry id metadata) = Ok update ∧
     ∀ table, table !! kfvKey update = Some (kfvFieldsValues update) →
       read_vlan table (kfvKey update) = Ok (vlan_entry id metadata)) ∧
  (∀ id port tagged metadata, 1 ≤ id ≤ 4094 → port ≠ [] → ":"%char ∉ port → ∃ update,
     CreateAppDbVlanMemberUpdate update_type (vlan_member_entry id port tagged metadata) = Ok update ∧
     ∀ table, table !! kfvKey update = Some (kfvFieldsValues update) →
       read_vlan_member table (kfvKey update) = Ok (vlan_member_entry id port tagged metadata)) ∧
  ∀ name metadata, name ≠ [] → ∃ update,
    CreateAppDbVrfUpdate INSERT (exact_entry $"vrf_table" [($"vrf_id", kStr name)] $"no_action" metadata) = Ok update ∧
    GetAllAppDbVrfTableEntries {[ kfvKey update := kfvFieldsValues update ]} =
      Ok [exact_entry $"vrf_table" [($"vrf_id", kStr name)] $"no_action" []].
Proof.
  intros Htype. split_and!.
  - intros g Hg. by apply replication_roundtrip.
  - intros id metadata Hid. by apply vlan_roundtrip.
  - intros id port tagged metadata Hid Hp Hc. by apply vlan_member_roundtrip.
  - intros name metadata Hne. exists (mkKfv name $"SET" GetVrfValues). split.
    + unfold CreateAppDbVrfUpdate.
      assert (GetVrfTableKey (exact_entry $"vrf_table" [($"vrf_id", kStr name)] $"no_action" metadata) = Ok name) as ->; [|done].
      transitivity (if bool_decide (name = []) then Err kInvalidArgument else Ok name); [done|by rewrite bool_decide_eq_false_2].
    + unfold GetAllAppDbVrfTableEntries, db_keys. cbn [kfvKey kfvFieldsValues]. by rewrite map_to_list_singleton.
Qed.
End others.

(** * Libraries that satisfy the laws *)

(** A JSON value as a tree with leaves, and the tree as a text of zeros and ones. *)
Fixpoint json_tree (j : Json) : gen_tree (str + Z) :=
  match j with
  | JNull => GenNode 0 []
  | JString s => GenNode 1 [GenLeaf (inl s)]
  | JInt z => GenNode 2 [GenLeaf (inr z)]
  | JOther s => GenNode 3 [GenLeaf (inl s)]
  | JArray l => GenNode 4 (map json_tree l)
  | JObject fields => GenNode 5 (map (λ '(k, v), GenNode 6 [GenLeaf (inl k); json_tree v]) fields)
  end.
Fixpoint tree_json (t : gen_tree (str + Z)) : option Json :=
  match t with
  | GenNode 0 [] => Some JNull
  | GenNode 1 [GenLeaf (inl s)] => Some (JString s)
  | GenNode 2 [GenLeaf (inr z)] => Some (JInt z)
  | GenNode 3 [GenLeaf (inl s)] => Some (JOther s)
  | GenNode 4 l => JArray <$> foldr (λ t r, x ← tree_json t; y ← r; Some (x :: y)) (Some []) l
  | GenNode 5 l =>
    JObject <$> foldr (λ t r,
      match t with
      | GenNode 6 [GenLeaf (inl k); v] => x ← tree_json v; y ← r; Some ((k, x) :: y)
      | _ => None
      end) (Some []) l
  | _ => None
  end.

Lemma tree_json_inverse j : tree_json (json_tree j) = Some j.
Proof.
  revert j. fix IH 1. intros [|s|z|s|l|fields]; [done..| |]; cbn [json_tree tree_json].
  - assert (foldr (λ t r, x ← tree_json t; y ← r; Some (x :: y)) (Some []) (map json_tree l) = Some l) as ->; [|done].
    induction l as [|j l IHl]; [done|]. cbn [map foldr]. by rewrite IH, IHl.
  - match goal with |- _ <$> ?x = _ => assert (x = Some fields) as ->; [|done] end.
    induction fields as [|[k j] fields IHl]; [done|]. cbn [map foldr]. by rewrite IH, IHl.
Qed.

Fixpoint bits_text (p : positive) : str :=
  match p with xH => [] | xO p => "0"%char :: bits_text p | xI p => "1"%char :: bits_text p end.
Fixpoint text_bits (s : str) : option positive :=
  match s with
  | [] => Some xH
  | c :: s => p ← text_bits s; if bool_decide (c = "0"%char) then Some (xO p) else if bool_decide (c = "1"%char) then Some (xI p) else None
  end.
Lemma text_bits_inverse p : text_bits (bits_text p) = Some p.
Proof. induction p as [p IH|p IH|]; cbn; [by rewrite IH..|done]. Qed.

Definition text_of_json (j : Json) : str := bits_text (encode (json_tree j)).
Definition json_of_text (s : str) : option Json := p ← text_bits s; t ← decode p; tree_json t.
Lemma json_text_inverse j : json_of_text (text_of_json j) = Some j.
Proof. unfold json_of_text, text_of_json. rewrite text_bits_inverse. cbn. rewrite decode_encode. cbn. apply tree_json_inverse. Qed.

Definition signed_text (z : Z) : str := if z <? 0 then "-"%char :: decimal (- z) else decimal z.
Definition signed_value (s : str) : option Z :=
  match s with "-"%char :: s => Some (- dec_value s) | s => Some (dec_value s) end.
Definition hex_digits_of (n : nat) (z : Z) : str := map (λ i, hex_digit (z / 16 ^ Z.of_nat i mod 16)) (rev (seq 0 n)).
Definition digit_value (c : ascii) : Z := match HexCharToDigit c with Ok d => d | _ => 0 end.
Definition hex_text_value (s : str) : Z := fold_left (λ v c, v * 16 + digit_value c) s 0.

#[local] Instance ref_entry_acl : AclLibraries | 50 := {|
  Stage := @Stage ref_acl;
  kLookup := @kLookup ref_acl;
  StageFromName := @StageFromName ref_acl;
  MatchFieldSchemaByName := @MatchFieldSchemaByName ref_acl;
  dump := text_of_json;
  SimpleAtoi := @SimpleAtoi ref_acl;
  MeterUnitName := @MeterUnitName ref_acl;
  CounterUnitName := @CounterUnitName ref_acl;
|}.
#[export] Instance ref_entry : EntryLibraries | 100 := {|
  parse := json_of_text;
  is_utf8 _ := true;
  other_int _ := 0;
  AsciiStrToLower := map lower_char;
  StrCatSigned := signed_text;
  SimpleAtoi64 := signed_value;
  SimpleAtoiU64 s := Some (dec_value s);
  SimpleAtoiU32 s := Some (dec_value s);
  SimpleHexAtoiU32 s := Some (hex_text_value (drop 2 s));
  Hex4 z := hex_digits_of (if z <? 65536 then 4 else 8) z;
  Hex03x := three_hex_digits;
  APP_P4RT_REPLICATION_IP_MULTICAST_TABLE_NAME := $"REPLICATION_IP_MULTICAST_TABLE";
  set_meter_packet_count _ _ m := m;
  set_meter_byte_count _ _ m := m;
|}.

Lemma digit_value_of d : 0 ≤ d < 16 → digit_value (hex_digit d) = d.
Proof. intros Hd. unfold digit_value. by rewrite hex_digit_roundtrip. Qed.

Lemma hex_digits_of_value n z v :
  fold_left (λ v c, v * 16 + digit_value c) (hex_digits_of n z) v = v * 16 ^ Z.of_nat n + z mod 16 ^ Z.of_nat n.
Proof.
  revert v. unfold hex_digits_of. induction n as [|n IH]; intros v.
  - cbn [seq rev map fold_left]. change (16 ^ Z.of_nat 0) with 1. rewrite Z.mod_1_r. lia.
  - rewrite seq_S, rev_app_distr. cbn [rev app map fold_left]. rewrite IH, digit_value_of by (apply Z.mod_pos_bound; lia).
    rewrite Nat2Z.inj_succ, Z.pow_succ_r by lia. rewrite (Z.mul_comm 16), Z.rem_mul_r by lia. cbn [Nat.add]. lia.
Qed.

Lemma ref_entry_laws : @EntryLaws ref_schema ref_entry_acl ref_entry.
Proof.
  split.
  - intros j _. apply json_text_inverse.
  - done.
  - done.
  - intros z Hz. cbn. unfold signed_text. by rewrite (proj2 (Z.ltb_ge _ _)).
  - intros z _. cbn. unfold signed_text. destruct (Z.ltb_spec z 0).
    + cbn. destruct (decimal_spec (- z)) as [_ ->]; [lia|]. f_equal. lia.
    + destruct (decimal_spec z) as [[Hd _] Hv]; [lia|]. rewrite <-Hv at 2. unfold signed_value. destruct (decimal z) as [|c s]; [done|].
      apply Forall_cons in Hd as [Hd%Is_true_true _]. by destruct c as [[] [] [] [] [] [] [] []].
  - intros z Hz. cbn. destruct (decimal_spec z) as [_ ->]; [lia|done].
  - intros z Hz. change (Some (hex_text_value (hex_digits_of (if z <? 65536 then 4 else 8) z)) = Some z). f_equal. unfold hex_text_value.
    destruct (Z.ltb_spec z 65536); rewrite hex_digits_of_value, Z.mod_small; [done|cbn; lia|done|cbn; lia].
  - done.
  - intros z Hz. change (Some (hex_text_value (three_hex_digits z)) = Some z). f_equal. unfold three_hex_digits, hex_text_value. cbn [fold_left].
    rewrite !digit_value_of by first [apply Z.mod_pos_bound; lia|split; [apply Z.div_pos; lia|apply Z.div_lt_upper_bound; lia]]. Z.to_euclidean_division_equations; lia.
  - done.
  - done.
  - done.
Qed.

(** * Examples *)

(** A route, an ACL entry with a meter, and a group with a backup replica. *)
Definition example_route : Ir.TableEntry :=
  Ir.mkEntry $"ipv4_table" [Ir.mkMatch $"vrf_id" (Ir.kExact (kStr $"vrf-1")); Ir.mkMatch $"ipv4_dst" (Ir.kLpm (kIpv4 $"10.0.0.0") 8)] 0
    (Ir.kAction (Ir.mkAction $"set_nexthop_id" [($"nexthop_id", kStr $"nh-1")])) None None None $"cookie".
Definition example_acl_entry : Ir.TableEntry :=
  Ir.mkEntry $"acl_table" [Ir.mkMatch $"in_port" (Ir.kOptional (kStr $"Ethernet0")); Ir.mkMatch $"ether_type" (Ir.kTernary (kHexStr $"0x0800") (kHexStr $"0xffff"))] 10
    (Ir.kAction (Ir.mkAction $"no_action" [])) (Some (mkMeterConfig 100 0 (-1) 7 [])) None None [].
Definition example_group : Ir.MulticastGroupEntry :=
  Ir.mkMulticast 7 [Ir.mkReplica $"Ethernet0" 1 [Ir.mkBackup $"Ethernet4" 2]; Ir.mkReplica $"Ethernet8" 0 []] $"cookie".

Lemma app_db_entry_roundtrip_witness :
  encodable_entry routing_info example_route = true ∧ encodable_entry routing_info example_acl_entry = true ∧
  (∃ update, CreateAppDbP4rtUpdate INSERT example_acl_entry routing_info = Ok update ∧
    ∃ te', AppDbKeyAndValuesToIrTableEntry routing_info (kfvKey update) (kfvFieldsValues update) = Ok te' ∧ same_entry example_acl_entry te').
Proof.
  assert (encodable_entry routing_info example_route = true) as Hroute by (vm_compute; reflexivity).
  assert (encodable_entry routing_info example_acl_entry = true) as Hacl by (vm_compute; reflexivity).
  split; [exact Hroute|]. split; [exact Hacl|].
  destruct (@app_db_entry_roundtrip ref_absl ref_absl_laws ref_schema ref_entry_acl ref_entry ref_entry_laws
    routing_info example_acl_entry INSERT Hacl (or_introl eq_refl)) as (update & Hu & _ & Hread & _).
  exists update. split; [exact Hu|exact Hread].
Defined.

Lemma sonic_tables_roundtrip_witness :
  encodable_group example_group = true ∧ ∃ update,
    CreateAppDbPacketReplicationTableUpdate INSERT (Ir.kMulticastGroupEntry example_group) = Ok update ∧
    read_stored_group {[ kfvKey update := kfvFieldsValues update ]} (kfvKey update) = Ok (Ir.kMulticastGroupEntry example_group).
Proof.
  assert (encodable_group example_group = true) as Hg by (vm_compute; reflexivity). split; [exact Hg|].
  destruct (proj1 (@sonic_tables_roundtrip ref_absl ref_absl_laws ref_schema ref_entry_acl ref_entry ref_entry_laws INSERT (or_introl eq_refl))
    example_group Hg) as (update & Hu & Hread).
  exists update. split; [exact Hu|]. apply Hread. apply lookup_singleton_eq.
Defined.
