(* ===== verification/Hashing.v ===== *)
(** p4rt_app/sonic: [hashing.cc].  The hash configuration of a program: which packet fields are hashed, and the
    algorithm, seed and offset, read from the annotations of actions and written to the hash and switch
    tables of the application database. *)
From S2P Require Import Prelude Abseil IrData Annotations AppDb AclTable.

(** * Ordered containers *)

(** The entries of an [absl::btree_map], in the order of their keys. *)
Definition key_before {V} (a b : str * V) : Prop := str_ltb (fst b) (fst a) = false.
#[global] Instance key_before_dec {V} (a b : str * V) : Decision (key_before a b).
Proof. unfold key_before. apply _. Defined.
Definition in_order {V} (m : gmap str V) : list (str * V) := merge_sort key_before (map_to_list m).
Definition in_order_set (s : gset str) : list str := map fst (in_order (gset_to_gmap tt s)).

Lemma in_order_elem {V} (m : gmap str V) kv : kv ∈ in_order m ↔ m !! fst kv = Some (snd kv).
Proof. unfold in_order. rewrite merge_sort_Permutation. destruct kv as [k v]. apply elem_of_map_to_list. Qed.

Lemma in_order_NoDup {V} (m : gmap str V) : NoDup (map fst (in_order m)).
Proof.
  assert (in_order m ≡ₚ map_to_list m) as -> by apply merge_sort_Permutation. apply NoDup_fst_map_to_list.
Qed.

#[local] Instance key_before_trans {V} : Transitive (@key_before V).
Proof.
  intros a b c Hab Hbc. unfold key_before in *. destruct (str_ltb (fst c) (fst a)) eqn:Hca; [|done].
  destruct (decide (fst a = fst b)) as [Heq|Hne]; [by rewrite Heq, Hbc in Hca|].
  destruct (str_ltb_total _ _ Hne) as [Hlt|Hlt]; [|by rewrite Hlt in Hab].
  by rewrite (str_ltb_trans _ _ _ Hca Hlt) in Hbc.
Qed.
#[local] Instance key_before_total {V} : Total (@key_before V).
Proof.
  intros a b. unfold key_before. destruct (str_ltb (fst b) (fst a)) eqn:Hba; [right|by left].
  destruct (str_ltb (fst a) (fst b)) eqn:Hab; [|done]. pose proof (str_ltb_trans _ _ _ Hab Hba) as Hi.
  by rewrite str_ltb_irrefl in Hi.
Qed.

(** The keys ascend. *)
Lemma in_order_sorted {V} (m : gmap str V) : StronglySorted (λ a b, str_ltb a b = true) (map fst (in_order m)).
Proof.
  pose proof (in_order_NoDup m) as Hnd. pose proof (StronglySorted_merge_sort key_before (map_to_list m)) as Hs.
  fold (in_order m) in Hs. induction (in_order m) as [|a l IH]; [constructor|]. cbn [map] in *.
  apply NoDup_cons in Hnd as [Hnew Hnd]. inversion_clear Hs as [|? ? Hl Ha]. constructor; [by apply IH|].
  apply Forall_forall. intros k (b & -> & Hb)%list_elem_of_fmap. rewrite Forall_forall in Ha.
  destruct (str_ltb_total (fst a) (fst b)) as [Hlt|Hlt]; [|done|by rewrite (Ha b Hb) in Hlt].
  intros Heq. apply Hnew. rewrite Heq. by apply list_elem_of_fmap_2.
Qed.

Lemma in_order_set_elem (s : gset str) k : k ∈ in_order_set s ↔ k ∈ s.
Proof.
  unfold in_order_set. rewrite list_elem_of_fmap. split.
  - intros ([k' []] & -> & Hk%in_order_elem). by apply lookup_gset_to_gmap_Some in Hk as [? _].
  - intros Hk. exists (k, tt). split; [done|]. apply in_order_elem. by apply lookup_gset_to_gmap_Some.
Qed.

(** absl/strings/match.h. *)
Class AbslMatch := {
  StrContains : str → str → bool;
  StrContainsIgnoreCase : str → str → bool;
}.

(** The two functions, for evaluating examples. *)
Fixpoint contains (haystack needle : str) : bool :=
  bool_decide (take (length needle) haystack = needle) ||
  match haystack with [] => false | _ :: haystack => contains haystack needle end.
Definition lower : str → str := map (λ c, if (65 <=? uchar c) && (uchar c <=? 90) then char_of (uchar c + 32) else c).
#[export] Instance ref_match : AbslMatch | 100 :=
  {| StrContains := contains; StrContainsIgnoreCase h n := contains (lower h) (lower n) |}.

(** A set of configs is ordered by [key], which it holds once. *)
Record HashPacketFieldConfig := mkHashConfig {
  config_key : str;
  config_fields : gset str;
  switch_table_key : str;
}.
#[global] Instance HashPacketFieldConfig_eq_dec : EqDecision HashPacketFieldConfig.
Proof. solve_decision. Defined.

Abbreviation HashPacketFieldConfigs := (gmap str HashPacketFieldConfig).
Abbreviation HashParamConfigs := (gmap str str).

(** A constant table of strings. *)
Definition find_in (table : list (str * str)) (key : str) : result str :=
  match List.find (λ kv, bool_decide (fst kv = key)) table with
  | Some kv => Ok (snd kv)
  | None => Err kInvalidArgument
  end.

Definition SwitchTableHashPacketFieldConfigKey : str → result str := find_in
  [($"compute_ecmp_hash_ipv4", $"ecmp_hash_ipv4"); ($"compute_ecmp_hash_ipv6", $"ecmp_hash_ipv6");
   ($"compute_lag_hash_ipv4", $"lag_hash_ipv4"); ($"compute_lag_hash_ipv6", $"lag_hash_ipv6")].

Definition GetAvailableHashAlgorithms : list (str * str) :=
  [($"SAI_HASH_ALGORITHM_CRC", $"crc"); ($"SAI_HASH_ALGORITHM_XOR", $"xor"); ($"SAI_HASH_ALGORITHM_RANDOM", $"random");
   ($"SAI_HASH_ALGORITHM_CRC_32LO", $"crc_32lo"); ($"SAI_HASH_ALGORITHM_CRC_32HI", $"crc_32hi");
   ($"SAI_HASH_ALGORITHM_CRC_CCITT", $"crc_ccitt"); ($"SAI_HASH_ALGORITHM_CRC_XOR", $"crc_xor")].
Definition AppDbHashAlgorithm : str → result str := find_in GetAvailableHashAlgorithms.

Definition AppDbFieldName : str → result str := find_in
  [($"SAI_NATIVE_HASH_FIELD_SRC_IPV4", $"src_ip"); ($"SAI_NATIVE_HASH_FIELD_DST_IPV4", $"dst_ip");
   ($"SAI_NATIVE_HASH_FIELD_SRC_IPV6", $"src_ip"); ($"SAI_NATIVE_HASH_FIELD_DST_IPV6", $"dst_ip");
   ($"SAI_NATIVE_HASH_FIELD_L4_SRC_PORT", $"l4_src_port"); ($"SAI_NATIVE_HASH_FIELD_L4_DST_PORT", $"l4_dst_port");
   ($"SAI_NATIVE_HASH_FIELD_IPV6_FLOW_LABEL", $"ipv6_flow_label")].

Definition hash_field_step (fields : gset str) (hash_args : list str) : result (gset str) :=
  match hash_args with
  | [arg] => hash_field ← AppDbFieldName arg; Ok ({[hash_field]} ∪ fields)
  | _ => Err kInvalidArgument
  end.

Definition HashPacketFieldConfigFromAction (action_name : str) (arg_lists : list (list str))
  : result HashPacketFieldConfig :=
  switch_table_key ← SwitchTableHashPacketFieldConfigKey action_name;
  fields ← fold_result hash_field_step arg_lists ∅;
  Ok (mkHashConfig action_name fields switch_table_key).

Section hashing.
Context `{AbslStrings} `{AbslMatch}.

Definition IsIpv4HashKey (key : str) : bool := StrContains key $"ipv4".
Definition IsIpv6HashKey (key : str) : bool := StrContains key $"ipv6".

Definition ActionHasHashingConfig (action_def : IrActionDefinition) : bool :=
  existsb (λ annotation, StartsWith (label annotation) $"sai_hash_")
    (GetAllAnnotations (p4_annotations (action_preamble action_def))).

(** Actions without the annotation, or whose annotation cannot be parsed, are skipped. *)
Definition packet_field_step (hash_field_configs : HashPacketFieldConfigs) (entry : str * IrActionDefinition)
  : result HashPacketFieldConfigs :=
  let '(action_name, action_def) := entry in
  match GetAllAnnotationsAsArgList $"sai_native_hash_field" (p4_annotations (action_preamble action_def)) with
  | Ok (a :: l) =>
    config ← HashPacketFieldConfigFromAction action_name (a :: l);
    Ok (match hash_field_configs !! config_key config with
        | Some _ => hash_field_configs
        | None => <[config_key config := config]> hash_field_configs
        end)
  | Die => Die
  | _ => Ok hash_field_configs
  end.

Definition ExtractHashPacketFieldConfigs (ir_p4info : IrP4Info) : result HashPacketFieldConfigs :=
  fold_result packet_field_step (map_to_list (actions_by_name ir_p4info)) ∅.

Definition InsertHashParamConfig (label_ hash_type value : str) (configs : HashParamConfigs) : result HashParamConfigs :=
  if negb (StartsWith label_ $"sai_hash_") then Ok configs
  else if negb (bool_decide (label_ ∈ [$"sai_hash_seed"; $"sai_hash_offset"; $"sai_hash_algorithm"]))
  then Err kInvalidArgument
  else
    let key := hash_type ++ drop 3 label_ in
    match configs !! key with
    | Some _ => Err kInvalidArgument
    | None => Ok (<[key := value]> configs)
    end.

Definition param_step (hash_type : str) (configs : HashParamConfigs) (annotation : AnnotationComponents)
  : result HashParamConfigs :=
  if bool_decide (label annotation = $"sai_hash_algorithm") then
    algorithm ← AppDbHashAlgorithm (body annotation);
    InsertHashParamConfig (label annotation) hash_type algorithm configs
  else InsertHashParamConfig (label annotation) hash_type (body annotation) configs.

Definition UpdateHashParamConfigsFromAction (action_ : IrActionDefinition) (configs : HashParamConfigs)
  : result HashParamConfigs :=
  let full_action_name := p4_name (action_preamble action_) in
  hash_type ←
    (if StrContainsIgnoreCase full_action_name $"_lag_" then Ok $"lag"
     else if StrContainsIgnoreCase full_action_name $"_ecmp_" then Ok $"ecmp" else Err kInvalidArgument);
  fold_result (param_step hash_type) (GetAllAnnotations (p4_annotations (action_preamble action_))) configs.

Definition ExtractHashParamConfigs (ir_p4info : IrP4Info) : result HashParamConfigs :=
  fold_result (λ configs '(_, action_),
    if negb (ActionHasHashingConfig action_) then Ok configs else UpdateHashParamConfigsFromAction action_ configs)
    (map_to_list (actions_by_name ir_p4info)) ∅.
End hashing.

(** A config is kept under its key. *)
Lemma packet_fields_keyed `{AbslStrings} info m k c :
  ExtractHashPacketFieldConfigs info = Ok m → m !! k = Some c → config_key c = k.
Proof.
  intros Hm. revert k c. apply (fold_result_ind packet_field_step (λ _ m, ∀ k c, m !! k = Some c → config_key c = k)
    (map_to_list (actions_by_name info)) ∅ m); [done| |done].
  intros done_ [n a] m1 m2 Hkeyed Hstep k c. unfold packet_field_step in Hstep.
  destruct (GetAllAnnotationsAsArgList _ _) as [[|args l]| |]; simplify_eq; try by apply Hkeyed.
  apply bind_Ok_iff in Hstep as (config & _ & [= <-]). destruct (m1 !! config_key config); [by apply Hkeyed|].
  intros [[<- <-]|[_ Hk]]%lookup_insert_Some; [done|by apply Hkeyed].
Qed.

(** * The application database *)

Section tables.
Context `{AclLibraries} (strToStatusCode : str → SwssStatusCode) (CHexEscape : str → str).

(** A JSON array, or null when there is no field. *)
Definition AppDbContents (config : HashPacketFieldConfig) : FieldValues :=
  [($"hash_field_list",
    dump (match in_order_set (config_fields config) with [] => JNull | l => JArray (map JString l) end))].

(** One command per key, each with a status; then the responses are awaited and every status looked at. *)
Definition send_hash_updates (hash_table : NotifiedTable) (kfvs : list KeyOpFieldsValues) : result unit * NotifiedTable :=
  let t := fold_left (λ t kfv, produce kfv t) kfvs hash_table in
  let status_by_key := fold_left (λ m '(i, kfv), bt_set (kfvKey kfv) (Some i) m) (zip (seq 0 (length kfvs)) kfvs) [] in
  match GetAndProcessResponseNotification strToStatusCode CHexEscape t status_by_key (map (λ _, OkStatus) kfvs) with
  | (Ok _, statuses, t) =>
    (match all_ok kfvs status_by_key statuses with Ok true => Ok tt | Ok false => Err kInternal | Err e => Err e | Die => Die end, t)
  | (Err e, _, t) => (Err e, t)
  | (Die, _, t) => (Die, t)
  end.

Definition ProgramHashFieldTable (hash_table : NotifiedTable) (configs : HashPacketFieldConfigs)
  : result unit * NotifiedTable :=
  if bool_decide (configs = ∅) then (Ok tt, hash_table)
  else send_hash_updates hash_table (map (λ c, mkKfv (fst c) $"SET" (AppDbContents (snd c))) (in_order configs)).

Definition RemoveFromHashFieldTable (hash_table : NotifiedTable) (config_keys : list str) : result unit * NotifiedTable :=
  if bool_decide (length config_keys = 0%nat) then (Ok tt, hash_table)
  else send_hash_updates hash_table (map (λ key, mkKfv key $"DEL" []) config_keys).

Definition hash_tuples (hash_params : HashParamConfigs) (hash_packet_fields : HashPacketFieldConfigs) : FieldValues :=
  in_order hash_params ++ map (λ c, (switch_table_key (snd c), config_key (snd c))) (in_order hash_packet_fields).

Definition ProgramSwitchTable (switch_table : NotifiedTable) (hash_params : HashParamConfigs)
  (hash_packet_fields : HashPacketFieldConfigs) : result unit * NotifiedTable :=
  let tuples := hash_tuples hash_params hash_packet_fields in
  if bool_decide (length tuples = 0%nat) then (Ok tt, switch_table)
  else
    let t := produce (mkKfv $"switch" $"SET" tuples) (DrainNotifications switch_table) in
    match GetAndProcessResponseNotificationForKey strToStatusCode CHexEscape t $"switch" with
    | (Ok status, t) => (match code status with None => Ok tt | Some _ => Err kInternal end, t)
    | (Err e, t) => (Err e, t)
    | (Die, t) => (Die, t)
    end.
End tables.
