(* ===== verification/Reconcile.v ===== *)
(** p4rt_app/p4runtime: [p4info_reconcile.cc] and [IsSupportedTransition] of [p4runtime_impl.cc].  What has to be
    changed on the switch when a program replaces another: hash settings and ACL tables, with the
    capacities of the action profiles under the new program. *)
From S2P Require Import Prelude Abseil IrUtils IrData Annotations AppDb TableTypes AclTable Hashing ResourceUtilization.

(** * Set differences *)

Record SetDifference (T : Type) := mkDifference { deleted : list T; added : list T; intersection : list T }.
Arguments mkDifference {T} _ _ _.
Arguments deleted {T} _.
Arguments added {T} _.
Arguments intersection {T} _.

Section difference.
Context {T : Type} `{EqDecision T} (ltb : T → T → bool).

(** The loop over two ordered sets, and the loops over what is left of one of them. *)
Fixpoint CalculateSetDifference (from : list T) : list T → SetDifference T :=
  fix over_to (to : list T) : SetDifference T :=
    match from, to with
    | x :: from', y :: to' =>
      if bool_decide (x = y) then
        let d := CalculateSetDifference from' to' in mkDifference (deleted d) (added d) (x :: intersection d)
      else if ltb x y then
        let d := CalculateSetDifference from' to in mkDifference (x :: deleted d) (added d) (intersection d)
      else
        let d := over_to to' in mkDifference (deleted d) (y :: added d) (intersection d)
    | _, [] => mkDifference from [] []
    | [], _ => mkDifference [] to []
    end.

Lemma CalculateSetDifference_cons x from y to :
  CalculateSetDifference (x :: from) (y :: to) =
  if bool_decide (x = y) then
    let d := CalculateSetDifference from to in mkDifference (deleted d) (added d) (x :: intersection d)
  else if ltb x y then
    let d := CalculateSetDifference from (y :: to) in mkDifference (x :: deleted d) (added d) (intersection d)
  else
    let d := CalculateSetDifference (x :: from) to in mkDifference (deleted d) (y :: added d) (intersection d).
Proof. reflexivity. Qed.
End difference.

Record P4InfoReconcileTransition := mkTransition {
  hashing_packet_field_configs_to_delete : list str;
  hashing_packet_field_configs_to_set : list str;
  update_switch_table : bool;
  acl_tables_to_delete : list str;
  acl_tables_to_add : list str;
  nonessential_acl_tables_to_modify : list str;
  essential_acl_tables_to_modify : list str;
}.

(** An error about the existing program is an internal one. *)
Definition existing {A} (r : result A) : result A := match r with Err _ => Err kInternal | _ => r end.

Section reconcile.
Context `{AbslStrings} `{AbslMatch} `{SwssSchema} `{AclLibraries}.

(** The first three fields of the transition. *)
Definition CalculateHashingDifference (from to : IrP4Info) : result (list str * list str * bool) :=
  from_hash_packet_fields ← existing (ExtractHashPacketFieldConfigs from);
  from_hash_parameters ← existing (ExtractHashParamConfigs from);
  to_hash_packet_fields ← ExtractHashPacketFieldConfigs to;
  to_hash_parameters ← ExtractHashParamConfigs to;
  let packet_field_diff :=
    CalculateSetDifference (λ a b, str_ltb (config_key a) (config_key b))
      (map snd (in_order from_hash_packet_fields)) (map snd (in_order to_hash_packet_fields)) in
  let to_delete :=
    List.filter (λ key, negb (bool_decide (key ∈ map config_key (map snd (in_order to_hash_packet_fields)))))
      (map config_key (deleted packet_field_diff)) in
  let to_set := map config_key (added packet_field_diff) in
  Ok (to_delete, to_set,
      negb (bool_decide (length to_delete = 0%nat)) || negb (bool_decide (length to_set = 0%nat)) ||
      negb (bool_decide (from_hash_parameters = to_hash_parameters))).

Definition acl_name_step (acl_table_names : gset str) (entry : str * IrTableDefinition) : result (gset str) :=
  let '(name, table) := entry in
  table_type ← GetTableType table;
  Ok (if bool_decide (table_type = kAcl) then {[name]} ∪ acl_table_names else acl_table_names).
Definition GetAclTableNames (p4info : IrP4Info) : result (gset str) :=
  fold_result acl_name_step (map_to_list (tables_by_name p4info)) ∅.

Definition IsValidModification (from_table to_table : IrTableDefinition) : result bool :=
  from_db_table ← existing (AppDbAclTableDefinition from_table);
  to_db_table ← AppDbAclTableDefinition to_table;
  from_stage ← kfvFieldLookup from_db_table $"stage";
  to_stage ← kfvFieldLookup to_db_table $"stage";
  if negb (bool_decide ((from_stage : str) = to_stage)) then Err kFailedPrecondition
  else
    let force_modify := is_Ok (GetAnnotationBody $"reinstall_during_upgrade" (p4_annotations (preamble to_table))) in
    Ok (negb (kfvEq from_db_table to_db_table) || force_modify).

Definition is_nonessential (table : IrTableDefinition) : bool :=
  is_Ok (GetAnnotationBody $"nonessential_for_upgrade" (p4_annotations (preamble table))).

(** The tables to modify, those that are not essential and those that are. *)
Definition modify_step (from to : IrP4Info) (s : list str * list str) (table_name : str) : result (list str * list str) :=
  let '(nonessential, essential) := s in
  from_table ← FindOrDie (tables_by_name from !! table_name);
  to_table ← FindOrDie (tables_by_name to !! table_name);
  modified ← IsValidModification from_table to_table;
  Ok (if modified : bool then
        if is_nonessential to_table then (nonessential ++ [table_name], essential) else (nonessential, essential ++ [table_name])
      else s).

Definition CalculateAclDifference (from to : IrP4Info) : result (list str * list str * (list str * list str)) :=
  from_acl_table_names ← GetAclTableNames from;
  to_acl_table_names ← GetAclTableNames to;
  let acl_table_diff := CalculateSetDifference str_ltb (in_order_set from_acl_table_names) (in_order_set to_acl_table_names) in
  to_modify ← fold_result (modify_step from to) (intersection acl_table_diff) ([], []);
  Ok (deleted acl_table_diff, added acl_table_diff, to_modify).

Definition CalculateTransition (from to : IrP4Info) : result P4InfoReconcileTransition :=
  '(to_delete, to_set, update) ← CalculateHashingDifference from to;
  '(acl_delete, acl_add, (nonessential, essential)) ← CalculateAclDifference from to;
  Ok (mkTransition to_delete to_set update acl_delete acl_add nonessential essential).
End reconcile.

(** * Capacities *)

(** Current usage is kept for profiles of the same name. *)
Definition capacity_step (original : gmap str ActionProfileResourceCapacity)
  (capacity_map : gmap str ActionProfileResourceCapacity) (entry : str * ActionProfile)
  : result (gmap str ActionProfileResourceCapacity) :=
  let '(action_profile_name, action_profile_def) := entry in
  let fresh := GetActionProfileResourceCapacity action_profile_def in
  let original_capacity := original !! action_profile_name in
  let capacity :=
    match original_capacity with
    | Some o => mkCapacity (capacity_profile fresh) (current_total_weight o) (current_total_members o)
    | None => fresh
    end in
  if exceeds (GetMaxWeightForAllGroups capacity) (current_total_weight capacity) then Err kFailedPrecondition
  else
    shrinks ←
      (if 0 <? current_total_weight capacity then
         o ← FindOrDie original_capacity;
         Ok (max_group_size (capacity_profile capacity) <? max_group_size (capacity_profile o))
       else Ok false);
    if shrinks : bool then Err kFailedPrecondition
    else Ok (<[action_profile_name := capacity]> capacity_map).

Definition GetUpdatedResourceCapacities (ir_p4info : IrP4Info) (original : gmap str ActionProfileResourceCapacity)
  : result (gmap str ActionProfileResourceCapacity) :=
  fold_result (capacity_step original) (map_to_list (action_profiles_by_name ir_p4info)) ∅.

(** * Transitions the switch cannot make yet *)

Definition kContainsAclPreIngressTable (tables : list str) : bool :=
  existsb (λ table, bool_decide (table = $"acl_pre_ingress_table")) tables.

Definition IsSupportedTransition (transition : P4InfoReconcileTransition) : result unit :=
  if kContainsAclPreIngressTable (acl_tables_to_delete transition) ||
     kContainsAclPreIngressTable (essential_acl_tables_to_modify transition) ||
     kContainsAclPreIngressTable (nonessential_acl_tables_to_modify transition)
  then Err kFailedPrecondition
  else if existsb (λ field, bool_decide (field ∈ [$"compute_lag_hash_ipv4"; $"compute_lag_hash_ipv6"]))
            (hashing_packet_field_configs_to_delete transition)
  then Err kFailedPrecondition
  else Ok tt.

(** * The differences are the differences of sets *)

Lemma filter_agree {A} (P Q : A → Prop) `{!∀ x, Decision (P x), !∀ x, Decision (Q x)} (l : list A) :
  (∀ x, x ∈ l → P x ↔ Q x) → filter P l = filter Q l.
Proof.
  induction l as [|x l IH]; intros Hpq; [done|]. rewrite !filter_cons.
  rewrite IH by (intros y Hy; apply Hpq; by right). pose proof (Hpq x ltac:(by left)) as Hx.
  destruct (decide (P x)), (decide (Q x)); tauto.
Qed.

Section difference_spec.
Context {T : Type} `{EqDecision T} (key : T → str).
Abbreviation sorted := (StronglySorted (λ a b, str_ltb a b = true)).

Lemma sorted_above x l y : sorted (map key (x :: l)) → y ∈ l → str_ltb (key x) (key y) = true.
Proof.
  intros Hs Hy. inversion_clear Hs as [|? ? _ Hx]. rewrite Forall_forall in Hx. by apply Hx, list_elem_of_fmap_2.
Qed.
Lemma sorted_fresh x l : sorted (map key (x :: l)) → x ∉ l.
Proof. intros Hs Hx. pose proof (sorted_above x l x Hs Hx) as Hlt. by rewrite str_ltb_irrefl in Hlt. Qed.

(** An element before the first one of an ordered list is not in it. *)
Lemma sorted_below x y l : sorted (map key (y :: l)) → str_ltb (key x) (key y) = true → x ∉ y :: l.
Proof.
  intros Hs Hlt Hin. assert (str_ltb (key x) (key x) = true) as Hi; [|by rewrite str_ltb_irrefl in Hi].
  apply elem_of_cons in Hin as [->|Hin]; [done|]. eapply str_ltb_trans; [exact Hlt|]. by eapply sorted_above.
Qed.

Lemma filter_against_nil (l : list T) : filter (λ z, z ∉ []) l = l ∧ filter (λ z, z ∈ []) l = [].
Proof.
  induction l as [|z l [IHl1 IHl2]]; [done|]. split.
  - rewrite filter_cons_True by apply not_elem_of_nil. by rewrite IHl1.
  - by rewrite filter_cons_False by apply not_elem_of_nil.
Qed.

Lemma set_difference_exact from to :
  sorted (map key from) → sorted (map key to) →
  let d := CalculateSetDifference (λ a b, str_ltb (key a) (key b)) from to in
  deleted d = filter (λ x, x ∉ to) from ∧ added d = filter (λ y, y ∉ from) to ∧
  intersection d = filter (λ x, x ∈ to) from.
Proof.
  revert to. induction from as [|x from IH]; intros to Hfrom Hto.
  - assert (CalculateSetDifference (λ a b, str_ltb (key a) (key b)) [] to = mkDifference [] to []) as -> by (by destruct to).
    cbn -[filter]. split_and!; [done| |done]. symmetry. apply filter_against_nil.
  - induction to as [|y to IHto].
    + cbn -[filter]. destruct (filter_against_nil (x :: from)) as [-> ->]. done.
    + assert (sorted (map key from)) as Hfrom' by (by inversion Hfrom). assert (sorted (map key to)) as Hto' by (by inversion Hto).
      rewrite CalculateSetDifference_cons.
      case_bool_decide as Hxy; [|destruct (str_ltb (key x) (key y)) eqn:Hlt]; cbv zeta; cbn [deleted added intersection].
      * subst y. destruct (IH to Hfrom' Hto') as (-> & -> & ->). pose proof (sorted_fresh x from Hfrom) as Hx.
        pose proof (sorted_fresh x to Hto) as Hx'.
        rewrite !(filter_cons_False _ x), (filter_cons_True _ x) by set_solver. split_and!.
        -- apply filter_agree. intros z Hz. assert (z ≠ x) by (by intros ->). set_solver.
        -- apply filter_agree. intros z Hz. assert (z ≠ x) by (by intros ->). set_solver.
        -- f_equal. apply filter_agree. intros z Hz. assert (z ≠ x) by (by intros ->). set_solver.
      * destruct (IH (y :: to) Hfrom' Hto) as (-> & -> & ->). pose proof (sorted_below x y to Hto Hlt) as Hx.
        rewrite (filter_cons_True _ x) by done. rewrite (filter_cons_False _ x) by done. split_and!; [done| |done].
        apply filter_agree. intros z Hz. assert (z ≠ x) by (by intros ->). set_solver.
      * destruct (IHto Hto') as (-> & -> & ->).
        assert (y ∉ x :: from) as Hy.
        { intros [->|Hy]%elem_of_cons; [done|]. pose proof (sorted_above x from y Hfrom Hy) as Hgt. by rewrite Hgt in Hlt. }
        rewrite (filter_cons_True _ y) by done. split_and!.
        -- apply filter_agree. intros z Hz. assert (z ≠ y) by (by intros ->). set_solver.
        -- done.
        -- apply filter_agree. intros z Hz. assert (z ≠ y) by (by intros ->). set_solver.
Qed.
End difference_spec.

(** * What a transition changes *)

Section transition.
Context `{AbslStrings} `{AbslMatch} `{SwssSchema} `{AclLibraries}.

Definition is_acl (info : IrP4Info) (name : str) : Prop :=
  ∃ t, tables_by_name info !! name = Some t ∧ GetTableType t = Ok kAcl.

Lemma GetAclTableNames_Ok info s : GetAclTableNames info = Ok s → ∀ n, n ∈ s ↔ is_acl info n.
Proof.
  intros Hs. assert (∀ l, fold_result acl_name_step l ∅ = Ok s →
    ∀ n, n ∈ s ↔ ∃ t, (n, t) ∈ l ∧ GetTableType t = Ok kAcl) as Hloop.
  { intros l Hl. apply (fold_result_ind acl_name_step (λ l s, ∀ n, n ∈ s ↔ ∃ t, (n, t) ∈ l ∧ GetTableType t = Ok kAcl) l ∅ s);
      [| |exact Hl].
    - intros n. split; [by intros ?%elem_of_empty|]. by intros (t & ?%elem_of_nil & _).
    - intros l' [n' t'] s1 s2 IH (type & Ht & [= <-])%bind_Ok_iff n. setoid_rewrite elem_of_app. setoid_rewrite list_elem_of_singleton.
      case_bool_decide as Hacl; [rewrite elem_of_union, elem_of_singleton|]; rewrite IH; subst; split.
      + intros [->|(t & Hin & Hty)]; [exists t'; auto|exists t; auto].
      + intros (t & [Hin|[= -> ->]] & Hty); [right; by exists t|by left].
      + intros (t & Hin & Hty). exists t; auto.
      + intros (t & [Hin|[= -> ->]] & Hty); [by exists t|congruence]. }
  intros n. rewrite (Hloop _ Hs). unfold is_acl. split; intros (t & Ht & Hty); exists t; (split; [|done]);
    by apply elem_of_map_to_list.
Qed.

Lemma acl_difference_sets from to fs ts :
  GetAclTableNames from = Ok fs → GetAclTableNames to = Ok ts →
  let d := CalculateSetDifference str_ltb (in_order_set fs) (in_order_set ts) in
  (∀ n, n ∈ deleted d ↔ is_acl from n ∧ ¬ is_acl to n) ∧ (∀ n, n ∈ added d ↔ is_acl to n ∧ ¬ is_acl from n) ∧
  (∀ n, n ∈ intersection d ↔ is_acl from n ∧ is_acl to n).
Proof.
  intros Hfs Hts. pose proof (set_difference_exact (λ x, x) (in_order_set fs) (in_order_set ts)) as Hd. rewrite !map_id in Hd.
  destruct Hd as (Hdel & Hadd & Hint); [apply in_order_sorted..|]. cbn -[filter] in *.
  change (λ a b : str, str_ltb a b) with str_ltb in *. rewrite Hdel, Hadd, Hint.
  setoid_rewrite list_elem_of_filter. setoid_rewrite in_order_set_elem.
  setoid_rewrite (GetAclTableNames_Ok _ _ Hfs). setoid_rewrite (GetAclTableNames_Ok _ _ Hts). naive_solver.
Qed.

(** Two definitions of a table that the OrchAgent cannot tell apart. *)
Definition same_definition (k k' : KeyOpFieldsValues) : Prop :=
  kfvKey k = kfvKey k' ∧ kfvFieldsValues k ≡ₚ kfvFieldsValues k'.

(** A table is reinstalled when its definition changes or when an annotation says so. *)
Definition needs_update (t t' : IrTableDefinition) : Prop :=
  ∃ k k', AppDbAclTableDefinition t = Ok k ∧ AppDbAclTableDefinition t' = Ok k' ∧
    (¬ same_definition k k' ∨ is_Ok (GetAnnotationBody $"reinstall_during_upgrade" (p4_annotations (preamble t'))) = true).

Lemma IsValidModification_Ok t t' b :
  named_apart t → named_apart t' → IsValidModification t t' = Ok b →
  (b = true ↔ needs_update t t') ∧
  ∃ stage, GetAnnotationAsArgList $"sai_acl" (p4_annotations (preamble t)) = Ok [stage] ∧
    GetAnnotationAsArgList $"sai_acl" (p4_annotations (preamble t')) = Ok [stage].
Proof.
  intros Ha Ha'. unfold IsValidModification.
  intros (k & Hk & (k' & Hk' & (st & Hst & (st' & Hst' & Hb)%bind_Ok_iff)%bind_Ok_iff)%bind_Ok_iff)%bind_Ok_iff.
  assert (AppDbAclTableDefinition t = Ok k) as Hkt by (by unfold existing in Hk; destruct (AppDbAclTableDefinition t)).
  case_bool_decide as Hstage; cbn [negb] in Hb; [|done]. injection Hb as <-. split.
  - rewrite orb_true_iff, negb_true_iff.
    assert (kfvEq k k' = true ↔ same_definition k k') as Heq.
    { destruct (definition_parts t k Hkt) as (_ & Ho & _). destruct (definition_parts t' k' Hk') as (_ & Ho' & _).
      rewrite kfvEq_permutation by first [exact (definition_fields_distinct t k Ha Hkt)|exact (definition_fields_distinct t' k' Ha' Hk')]. unfold same_definition. rewrite Ho, Ho'. tauto. }
    rewrite <-not_true_iff_false, Heq. unfold needs_update. split; [intros Hn; by exists k, k'|].
    intros (k1 & k2 & Hk1 & Hk2 & Hn). rewrite Hkt in Hk1. rewrite Hk' in Hk2. by simplify_eq.
  - assert (∀ t k st, AppDbAclTableDefinition t = Ok k → kfvFieldLookup k $"stage" = Ok st →
      GetAnnotationAsArgList $"sai_acl" (p4_annotations (preamble t)) = Ok [st]) as Hst_of.
    { intros t0 k0 s0 (_ & _ & stage & ms & acts & rest & Hs & _ & _ & _ & _ & _ & Hfv & _)%definition_parts Hl.
      unfold kfvFieldLookup in Hl. rewrite Hfv in Hl. cbn in Hl. by injection Hl as <-. }
    exists st. split; [by eapply Hst_of|]. rewrite Hstage. by eapply Hst_of.
Qed.

Lemma modify_loop from to l s s' :
  fold_result (modify_step from to) l s = Ok s' →
  ∃ modified, Forall2 (λ n b, ∃ t t', tables_by_name from !! n = Some t ∧ tables_by_name to !! n = Some t' ∧
      IsValidModification t t' = Ok (fst b) ∧ is_nonessential t' = snd b) l modified ∧
    fst s' = fst s ++ map fst (List.filter (λ nb, fst (snd nb) && snd (snd nb)) (zip l modified)) ∧
    snd s' = snd s ++ map fst (List.filter (λ nb, fst (snd nb) && negb (snd (snd nb))) (zip l modified)).
Proof.
  revert s. induction l as [|n l IH]; intros [non ess]; cbn [fold_result].
  - intros [= <-]. exists []. cbn. by rewrite !app_nil_r.
  - intros (s1 & Hs1 & (modified & Hm & Hn & He)%IH)%bind_Ok_iff. unfold modify_step in Hs1.
    destruct (tables_by_name from !! n) as [t|] eqn:Ht; [|done]. destruct (tables_by_name to !! n) as [t'|] eqn:Ht'; [|done].
    cbn [FindOrDie mbind result_bind] in Hs1. apply bind_Ok_iff in Hs1 as (b & Hb & [= <-]).
    exists ((b, is_nonessential t') :: modified). split; [constructor; [by exists t, t'|done]|].
    cbn. destruct b, (is_nonessential t'); cbn in *; by rewrite Hn, He, <-?app_assoc.
Qed.

Lemma zip_filter_elem {A B} (R : A → B → Prop) (f : B → bool) (l : list A) ys n :
  Forall2 R l ys → n ∈ map fst (List.filter (λ nb, f (snd nb)) (zip l ys)) ↔
  ∃ i b, l !! i = Some n ∧ ys !! i = Some b ∧ f b = true.
Proof.
  intros HR. rewrite list_elem_of_fmap. setoid_rewrite list_elem_of_In. setoid_rewrite filter_In.
  setoid_rewrite <-list_elem_of_In. split.
  - intros ([n' b] & -> & [i Hi]%list_elem_of_lookup & Hf). apply lookup_zip_Some in Hi as [Hn Hb]. by exists i, b.
  - intros (i & b & Hn & Hb & Hf). exists (n, b). split; [done|]. split; [|done].
    eapply list_elem_of_lookup_2. by apply lookup_zip_Some.
Qed.

(** The tables to modify are those that need it. *)
Lemma modify_loop_exact from to l non ess n :
  (∀ n t, tables_by_name from !! n = Some t → named_apart t) → (∀ n t, tables_by_name to !! n = Some t → named_apart t) →
  fold_result (modify_step from to) l ([], []) = Ok (non, ess) →
  (n ∈ non ↔ n ∈ l ∧ ∃ t t', tables_by_name from !! n = Some t ∧ tables_by_name to !! n = Some t' ∧
     needs_update t t' ∧ is_nonessential t' = true) ∧
  (n ∈ ess ↔ n ∈ l ∧ ∃ t t', tables_by_name from !! n = Some t ∧ tables_by_name to !! n = Some t' ∧
     needs_update t t' ∧ is_nonessential t' = false) ∧
  (n ∈ l → ∃ t t' stage, tables_by_name from !! n = Some t ∧ tables_by_name to !! n = Some t' ∧
     GetAnnotationAsArgList $"sai_acl" (p4_annotations (preamble t)) = Ok [stage] ∧
     GetAnnotationAsArgList $"sai_acl" (p4_annotations (preamble t')) = Ok [stage]).
Proof.
  intros Hfrom Hto (modified & Hm & Hn & He)%modify_loop. cbn [fst snd app] in Hn, He. subst non ess.
  assert (∀ i b, l !! i = Some n → modified !! i = Some b →
    ∃ t t', tables_by_name from !! n = Some t ∧ tables_by_name to !! n = Some t' ∧ is_nonessential t' = snd b ∧
      (fst b = true ↔ needs_update t t') ∧ ∃ stage, GetAnnotationAsArgList $"sai_acl" (p4_annotations (preamble t)) = Ok [stage] ∧
        GetAnnotationAsArgList $"sai_acl" (p4_annotations (preamble t')) = Ok [stage]) as Hat.
  { intros i b Hi Hb. destruct (Forall2_lookup_lr _ _ _ _ _ _ Hm Hi Hb) as (t & t' & Ht & Ht' & Hv & Hess).
    destruct (IsValidModification_Ok t t' _ (Hfrom _ _ Ht) (Hto _ _ Ht') Hv) as [Hnu Hst]. exists t, t'. done. }
  assert (∀ i, l !! i = Some n → ∃ b, modified !! i = Some b) as Hsome
    by (intros i Hi; destruct (Forall2_lookup_l _ _ _ _ _ Hm Hi) as (b & Hb & _); by exists b).
  rewrite (zip_filter_elem _ (λ b, fst b && snd b) _ _ n Hm), (zip_filter_elem _ (λ b, fst b && negb (snd b)) _ _ n Hm).
  split_and!.
  - split.
    + intros (i & b & Hi & Hb & [Hf Hs]%andb_true_iff). split; [by eapply list_elem_of_lookup_2|].
      destruct (Hat i b Hi Hb) as (t & t' & Ht & Ht' & Hess & Hnu & _). exists t, t'. split_and!; [done..|by apply Hnu|congruence].
    + intros [[i Hi]%list_elem_of_lookup (t & t' & Ht & Ht' & Hnu & Hess)]. destruct (Hsome i Hi) as [b Hb].
      exists i, b. split; [done|]. split; [done|]. destruct (Hat i b Hi Hb) as (t1 & t1' & Ht1 & Ht1' & Hess1 & Hnu1 & _).
      simplify_eq. apply andb_true_iff. split; [by apply Hnu1|congruence].
  - split.
    + intros (i & b & Hi & Hb & [Hf Hs%negb_true_iff]%andb_true_iff). split; [by eapply list_elem_of_lookup_2|].
      destruct (Hat i b Hi Hb) as (t & t' & Ht & Ht' & Hess & Hnu & _). exists t, t'. split_and!; [done..|by apply Hnu|congruence].
    + intros [[i Hi]%list_elem_of_lookup (t & t' & Ht & Ht' & Hnu & Hess)]. destruct (Hsome i Hi) as [b Hb].
      exists i, b. split; [done|]. split; [done|]. destruct (Hat i b Hi Hb) as (t1 & t1' & Ht1 & Ht1' & Hess1 & Hnu1 & _).
      simplify_eq. apply andb_true_iff. split; [by apply Hnu1|]. apply negb_true_iff. congruence.
  - intros [i Hi]%list_elem_of_lookup. destruct (Hsome i Hi) as [b Hb].
    destruct (Hat i b Hi Hb) as (t & t' & Ht & Ht' & _ & _ & stage & Hst). by exists t, t', stage.
Qed.

(** The hash settings. *)
Lemma map_keys_of_configs (m : HashPacketFieldConfigs) :
  (∀ k c, m !! k = Some c → config_key c = k) → map config_key (map snd (in_order m)) = map fst (in_order m).
Proof.
  intros Hk. rewrite map_map. apply map_ext_in. intros [k c] Hin%list_elem_of_In%in_order_elem. by apply Hk.
Qed.

Lemma hashing_difference_exact from to d s u :
  CalculateHashingDifference from to = Ok (d, s, u) →
  ∃ fc fp tc tp, ExtractHashPacketFieldConfigs from = Ok fc ∧ ExtractHashParamConfigs from = Ok fp ∧
    ExtractHashPacketFieldConfigs to = Ok tc ∧ ExtractHashParamConfigs to = Ok tp ∧
    (∀ k, k ∈ d ↔ is_Some (fc !! k) ∧ tc !! k = None) ∧
    (∀ k, k ∈ s ↔ is_Some (tc !! k) ∧ tc !! k ≠ fc !! k) ∧ (u = false ↔ fc = tc ∧ fp = tp).
Proof.
  unfold CalculateHashingDifference.
  intros (fc & Hfc & (fp & Hfp & (tc & Htc & (tp & Htp & [= <- <- <-])%bind_Ok_iff)%bind_Ok_iff)%bind_Ok_iff)%bind_Ok_iff.
  assert (ExtractHashPacketFieldConfigs from = Ok fc) as Hfc' by (by unfold existing in Hfc; destruct (ExtractHashPacketFieldConfigs from)).
  assert (ExtractHashParamConfigs from = Ok fp) as Hfp' by (by unfold existing in Hfp; destruct (ExtractHashParamConfigs from)).
  exists fc, fp, tc, tp. do 4 (split; [done|]).
  pose proof (packet_fields_keyed from fc) as Hkf. pose proof (packet_fields_keyed to tc) as Hkt.
  assert (∀ k c, fc !! k = Some c → config_key c = k) as Hkf' by (intros k c; by apply Hkf). clear Hkf.
  assert (∀ k c, tc !! k = Some c → config_key c = k) as Hkt' by (intros k c; by apply Hkt). clear Hkt.
  pose proof (map_keys_of_configs fc Hkf') as Hmf. pose proof (map_keys_of_configs tc Hkt') as Hmt.
  pose proof (set_difference_exact config_key (map snd (in_order fc)) (map snd (in_order tc))) as Hd. rewrite Hmf, Hmt in Hd.
  destruct Hd as (Hdel & Hadd & _); [apply in_order_sorted..|]. cbv zeta in Hdel, Hadd. rewrite Hdel, Hadd, Hmt.
  assert (∀ (m : HashPacketFieldConfigs) c, (∀ k c, m !! k = Some c → config_key c = k) →
    c ∈ map snd (in_order m) ↔ m !! config_key c = Some c) as Hin.
  { intros m c Hk. rewrite list_elem_of_fmap. split.
    - intros ([k c'] & -> & Hc%in_order_elem). cbn in *. by rewrite (Hk k c').
    - intros Hc. exists (config_key c, c). split; [done|]. by apply in_order_elem. }
  assert (∀ k, k ∈ map fst (in_order tc) ↔ is_Some (tc !! k)) as Hkeys.
  { intros k. rewrite list_elem_of_fmap. split; [intros ([k' c] & -> & Hc%in_order_elem); by eexists|].
    intros [c Hc]. exists (k, c). split; [done|]. by apply in_order_elem. }
  assert (∀ k, k ∈ List.filter (λ key, negb (bool_decide (key ∈ map fst (in_order tc))))
    (map config_key (filter (λ x, x ∉ map snd (in_order tc)) (map snd (in_order fc)))) ↔ is_Some (fc !! k) ∧ tc !! k = None) as Hdel_spec.
  { intros k. rewrite list_elem_of_In, filter_In, <-list_elem_of_In, negb_true_iff, bool_decide_eq_false, Hkeys, list_elem_of_fmap.
    setoid_rewrite list_elem_of_filter. rewrite <-eq_None_not_Some. split; [|intros [[c Hc] Hn]; split; [|done]].
    - intros [(c & -> & _ & Hc%(Hin _ _ Hkf')) Hn]. split; [by eexists|done].
    - exists c. split; [by rewrite (Hkf' k c)|]. pose proof (Hkf' k c Hc) as Hck. split; [|apply Hin; [done|by rewrite Hck]].
      rewrite Hin by done. by rewrite Hck, Hn. }
  assert (∀ k, k ∈ map config_key (filter (λ y, y ∉ map snd (in_order fc)) (map snd (in_order tc))) ↔
    is_Some (tc !! k) ∧ tc !! k ≠ fc !! k) as Hadd_spec.
  { intros k. rewrite list_elem_of_fmap. setoid_rewrite list_elem_of_filter. split.
    - intros (c & -> & Hnot & Hc%(Hin _ _ Hkt')). rewrite Hin in Hnot by done. rewrite Hc. split; [by eexists|]. by apply not_eq_sym.
    - intros [[c Hc] Hne]. pose proof (Hkt' k c Hc) as Hck. exists c. split; [done|]. rewrite !Hin, Hck by done.
      split; [|done]. rewrite Hc in Hne. by apply not_eq_sym. }
  split; [exact Hdel_spec|]. split; [exact Hadd_spec|]. rewrite !orb_false_iff, !negb_false_iff, !bool_decide_eq_true.
  rewrite !length_zero_iff_nil. split.
  - intros [[Hd Ha] Hp]. split; [|done]. apply map_eq. intros k. specialize (Hdel_spec k). specialize (Hadd_spec k).
    rewrite Hd in Hdel_spec. rewrite Ha in Hadd_spec. destruct (decide (tc !! k = fc !! k)) as [->|Hne]; [done|exfalso].
    destruct (tc !! k) as [c|] eqn:Hc; [eapply not_elem_of_nil, Hadd_spec; split; [by eexists|done]|].
    eapply not_elem_of_nil, Hdel_spec. split; [|done]. destruct (fc !! k); [by eexists|done].
  - intros [-> ->]. split; [split|done]; apply elem_of_nil_inv; intros k.
    + rewrite Hdel_spec. intros [[? ?] ?]. congruence.
    + rewrite Hadd_spec. by intros [_ ?].
Qed.

(** C21.  A transition is exactly the difference of two programs.  The ACL tables to delete are those of the old
    program only, those to add those of the new one only; of the tables in both, those are modified whose
    definition changes or that ask to be reinstalled, and no table changes its stage.  Hash settings are
    deleted when the new program has none under their key, and set when they are new or changed; the
    switch table is left alone only when all hash settings are the same. *)
Theorem transition_exact (from to : IrP4Info) (transition : P4InfoReconcileTransition) :
  (∀ n t, tables_by_name from !! n = Some t → named_apart t) → (∀ n t, tables_by_name to !! n = Some t → named_apart t) →
  CalculateTransition from to = Ok transition →
  (∀ n, n ∈ acl_tables_to_delete transition ↔ is_acl from n ∧ ¬ is_acl to n) ∧
  (∀ n, n ∈ acl_tables_to_add transition ↔ is_acl to n ∧ ¬ is_acl from n) ∧
  (∀ n t t', tables_by_name from !! n = Some t → tables_by_name to !! n = Some t' →
     is_acl from n → is_acl to n →
     (n ∈ nonessential_acl_tables_to_modify transition ↔ needs_update t t' ∧ is_nonessential t' = true) ∧
     (n ∈ essential_acl_tables_to_modify transition ↔ needs_update t t' ∧ is_nonessential t' = false) ∧
     ∃ stage, GetAnnotationAsArgList $"sai_acl" (p4_annotations (preamble t)) = Ok [stage] ∧
       GetAnnotationAsArgList $"sai_acl" (p4_annotations (preamble t')) = Ok [stage]) ∧
  (∀ n, n ∈ nonessential_acl_tables_to_modify transition ∨ n ∈ essential_acl_tables_to_modify transition →
     is_acl from n ∧ is_acl to n) ∧
  ∃ old_fields old_params new_fields new_params,
    ExtractHashPacketFieldConfigs from = Ok old_fields ∧ ExtractHashParamConfigs from = Ok old_params ∧
    ExtractHashPacketFieldConfigs to = Ok new_fields ∧ ExtractHashParamConfigs to = Ok new_params ∧
    (∀ k, k ∈ hashing_packet_field_configs_to_delete transition ↔ is_Some (old_fields !! k) ∧ new_fields !! k = None) ∧
    (∀ k, k ∈ hashing_packet_field_configs_to_set transition ↔ is_Some (new_fields !! k) ∧ new_fields !! k ≠ old_fields !! k) ∧
    (update_switch_table transition = false ↔ old_fields = new_fields ∧ old_params = new_params).
Proof.
  intros Hfrom Hto. unfold CalculateTransition, CalculateAclDifference.
  intros ([[d s] u] & Hhash & ([[ad aa] [non ess]] & Hacl & [= <-])%bind_Ok_iff)%bind_Ok_iff. cbn.
  apply bind_Ok_iff in Hacl as (fs & Hfs & (ts & Hts & ([non' ess'] & Hloop & [= <- <- <- <-])%bind_Ok_iff)%bind_Ok_iff).
  destruct (acl_difference_sets from to fs ts Hfs Hts) as (Hdel & Hadd & Hint).
  pose proof (λ n, modify_loop_exact from to _ non' ess' n Hfrom Hto Hloop) as Hmod. split; [done|]. split; [done|]. split; [|split].
  - intros n t t' Ht Ht' Hacl Hacl'. assert (n ∈ intersection (CalculateSetDifference str_ltb (in_order_set fs) (in_order_set ts))) as Hin
      by (by apply Hint). destruct (Hmod n) as (Hn & He & Hstage). split_and!.
    + rewrite Hn. split; [intros [_ (t1 & t1' & Ht1 & Ht1' & ? & ?)]; by simplify_eq|].
      intros [? ?]. split; [done|]. by exists t, t'.
    + rewrite He. split; [intros [_ (t1 & t1' & Ht1 & Ht1' & ? & ?)]; by simplify_eq|].
      intros [? ?]. split; [done|]. by exists t, t'.
    + destruct (Hstage Hin) as (t1 & t1' & stage & Ht1 & Ht1' & Hs). simplify_eq. by exists stage.
  - intros n Hn. apply Hint. destruct (Hmod n) as (Hn' & He' & _). rewrite Hn', He' in Hn. tauto.
  - exact (hashing_difference_exact from to _ _ _ Hhash).
Qed.
End transition.

(** * Usage fits the new capacities *)

(** The capacity of a profile of the new program: the usage is that of the profile of this name, if there was
    one; a size of 0 is no limit. *)
Record capacity_carried (original : option ActionProfileResourceCapacity) (profile : ActionProfile)
  (c : ActionProfileResourceCapacity) : Prop := {
  new_profile : capacity_profile c = profile;
  same_weight : current_total_weight c = from_option current_total_weight 0 original;
  same_members : current_total_members c = from_option current_total_members 0 original;
  groups_not_smaller o : original = Some o → 0 < current_total_weight o →
    max_group_size (capacity_profile o) ≤ max_group_size profile;
  usage_fits : sum_of_members profile = None → profile_size profile ≠ 0 → current_total_weight c ≤ profile_size profile;
}.

Lemma capacity_step_Ok original m n p m' :
  capacity_step original m (n, p) = Ok m' → ∃ c, capacity_carried (original !! n) p c ∧ m' = <[n := c]> m.
Proof.
  unfold capacity_step. set (c := match original !! n with Some o => _ | None => _ end).
  destruct (exceeds _ _) eqn:Hex; [done|]. intros (shrinks & Hsh & Hstep)%bind_Ok_iff.
  destruct shrinks; [done|]. injection Hstep as <-. exists c. split; [|done].
  assert (capacity_profile c = p) as Hcp by (subst c; by destruct (original !! n)). split.
  - done.
  - subst c. by destruct (original !! n).
  - subst c. by destruct (original !! n).
  - subst c. intros o Ho Hpos. rewrite Ho in Hsh. cbn in Hsh. rewrite (proj2 (Z.ltb_lt _ _) Hpos) in Hsh. cbn in Hsh.
    injection Hsh as Hsh. lia.
  - intros Hsum Hsize. unfold exceeds, GetMaxWeightForAllGroups, UsesSumOfWeights, UsesSumOfMembers in Hex.
    rewrite Hcp, Hsum in Hex. cbn in Hex. lia.
Qed.

Lemma updated_capacities_spec (ir_p4info : IrP4Info) (original capacities : gmap str ActionProfileResourceCapacity) :
  GetUpdatedResourceCapacities ir_p4info original = Ok capacities →
  ∀ name, match action_profiles_by_name ir_p4info !! name with
  | None => capacities !! name = None
  | Some profile => ∃ c, capacities !! name = Some c ∧ capacity_carried (original !! name) profile c
  end.
Proof.
  unfold GetUpdatedResourceCapacities. intros Hloop name.
  assert (∀ l m, NoDup (map fst l) → fold_result (capacity_step original) l ∅ = Ok m →
    ∀ name, (name ∉ map fst l → m !! name = None) ∧
      ∀ profile, (name, profile) ∈ l → ∃ c, m !! name = Some c ∧ capacity_carried (original !! name) profile c) as Hall.
  { clear. intros l m Hnd Hm. revert Hnd.
    apply (fold_result_ind (capacity_step original) (λ l m, NoDup (map fst l) → ∀ name,
      (name ∉ map fst l → m !! name = None) ∧
      ∀ profile, (name, profile) ∈ l → ∃ c, m !! name = Some c ∧ capacity_carried (original !! name) profile c) l ∅ m);
      [|clear|exact Hm].
    - intros _ name. split; [by rewrite lookup_empty|]. by intros profile ?%elem_of_nil.
    - intros l' [n p] m1 m2 IH (c & Hc & ->)%capacity_step_Ok Hnd name. rewrite map_app in Hnd.
      apply NoDup_app in Hnd as (Hnd & Hnew & _). specialize (IH Hnd). split.
      + rewrite map_app, not_elem_of_app. intros [Hl Hn]. cbn in Hn. rewrite lookup_insert_ne by set_solver. by apply IH.
      + intros profile [Hin|[= -> ->]%list_elem_of_singleton]%elem_of_app.
        * rewrite lookup_insert_ne; [by apply IH|]. intros ->. apply (Hnew name); [by apply (list_elem_of_fmap_2 fst) in Hin|by left].
        * exists c. split; [by rewrite lookup_insert_eq|done]. }
  specialize (Hall _ _ (NoDup_fst_map_to_list _) Hloop name) as [Hnone Hsome].
  destruct (action_profiles_by_name ir_p4info !! name) as [p|] eqn:Hp.
  - by apply Hsome, elem_of_map_to_list.
  - apply Hnone. intros ([n p] & -> & Hin%elem_of_map_to_list)%list_elem_of_fmap. cbn in *. congruence.
Qed.

(** What a profile of the new program may not do with the usage of the old one: be smaller than the weight in use,
    if it limits the sum of weights, or have smaller groups, if it is in use. *)
Definition capacity_refused (original : option ActionProfileResourceCapacity) (profile : ActionProfile) : Prop :=
  (sum_of_members profile = None ∧ profile_size profile ≠ 0 ∧
   profile_size profile < from_option current_total_weight 0 original) ∨
  ∃ o, original = Some o ∧ 0 < current_total_weight o ∧ max_group_size profile < max_group_size (capacity_profile o).

(** A loop fails with the failure of one of its steps. *)
Lemma fold_result_failed {A S} (f : S → A → result S) l s r :
  fold_result f l s = r → is_Ok r = false → ∃ x s', x ∈ l ∧ f s' x = r.
Proof.
  intros <-. revert s. induction l as [|x l IH]; intros s; cbn [fold_result]; [done|].
  destruct (f s x) as [s1| |] eqn:Hx; cbn; [|intros _; exists x, s; (split; [by left|done])..].
  intros (y & s2 & ? & ?)%IH. exists y, s2. split; [by right|done].
Qed.

Lemma capacity_step_refused original m n p :
  match capacity_step original m (n, p) with
  | Ok _ => True
  | Err e => e = kFailedPrecondition ∧ capacity_refused (original !! n) p
  | Die => False
  end.
Proof.
  unfold capacity_step. set (c := match original !! n with Some o => _ | None => _ end).
  assert (capacity_profile c = p) as Hcp by (subst c; by destruct (original !! n)).
  assert (current_total_weight c = from_option current_total_weight 0 (original !! n)) as Hw by (subst c; by destruct (original !! n)).
  destruct (exceeds _ _) eqn:Hex.
  { split; [done|left]. unfold exceeds, GetMaxWeightForAllGroups, UsesSumOfWeights, UsesSumOfMembers in Hex.
    rewrite Hcp, Hw in Hex. destruct (sum_of_members p); [done|]. cbn in Hex. split; [done|]. lia. }
  rewrite Hw. destruct (0 <? from_option current_total_weight 0 (original !! n)) eqn:Hpos; cbn; [|done].
  destruct (original !! n) as [o|]; cbn in *; [|done].
  subst c. cbn. destruct (max_group_size p <? max_group_size (capacity_profile o)) eqn:Hgroup; [|done]. split; [done|right]. exists o.
  split_and!; [done|lia|lia].
Qed.

(** C22.  The capacities of a new program.  They are accepted unless, for some action profile of it, the weight in
    use exceeds the new size, when the profile limits the sum of weights and its size is not 0, which is no limit;
    or the profile is in use and gets smaller groups.  When they are accepted, every action profile of the program
    keeps the usage that is counted for it, under the new limits; profiles that are new start empty, and the
    capacities of profiles that are gone are dropped.  When they are not, the answer is FAILED_PRECONDITION.  For
    profiles that limit the sum of members the code compares no usage with the size, a TODO of it, and the
    theorem claims none. *)
Theorem updated_capacities_fit (ir_p4info : IrP4Info) (original : gmap str ActionProfileResourceCapacity) :
  match GetUpdatedResourceCapacities ir_p4info original with
  | Ok capacities => ∀ name, match action_profiles_by_name ir_p4info !! name with
    | None => capacities !! name = None
    | Some profile => ∃ c, capacities !! name = Some c ∧ capacity_carried (original !! name) profile c ∧
        ¬ capacity_refused (original !! name) profile
    end
  | Err e => e = kFailedPrecondition ∧
      ∃ name profile, action_profiles_by_name ir_p4info !! name = Some profile ∧ capacity_refused (original !! name) profile
  | Die => False
  end.
Proof.
  destruct (GetUpdatedResourceCapacities ir_p4info original) as [capacities|e|] eqn:Hget.
  - intros name. pose proof (updated_capacities_spec _ _ _ Hget name) as Hspec.
    destruct (action_profiles_by_name ir_p4info !! name) as [p|]; [|done]. destruct Hspec as (c & Hc & Hcarried).
    exists c. split_and!; [done..|]. destruct Hcarried as [_ Hw _ Hgroups Hfits].
    intros [(Hsum & Hsize & Hlt)|(o & Ho & Hpos & Hlt)]; [specialize (Hfits Hsum Hsize)|specialize (Hgroups o Ho Hpos)]; lia.
  - apply fold_result_failed in Hget as ([n p] & m & Hin & Hstep); [|done].
    pose proof (capacity_step_refused original m n p) as Href. rewrite Hstep in Href. destruct Href as [-> Href]. split; [done|].
    exists n, p. split; [|done]. by apply elem_of_map_to_list.
  - apply fold_result_failed in Hget as ([n p] & m & _ & Hstep); [|done].
    pose proof (capacity_step_refused original m n p) as Href. by rewrite Hstep in Href.
Qed.

(** * Example *)

(** An ACL table whose field gets wider, and a hash that gets another field. *)
Definition example_program (width : Z) (hash_field : str) : IrP4Info :=
  one_table (acl_table_of width)
    [mkIrActionDefinition (mkPreamble 9 $"compute_ecmp_hash_ipv4" $"compute_ecmp_hash_ipv4"
       [$"@sai_native_hash_field(" ++ hash_field ++ $")"; $"@sai_hash_seed(1)"]) ∅ ∅ false]
    [mkActionProfile (named 1 $"wcmp") [] (width * 10) 4 None].
Definition old_program : IrP4Info := example_program 8 $"SAI_NATIVE_HASH_FIELD_SRC_IPV4".
Definition new_program : IrP4Info := example_program 9 $"SAI_NATIVE_HASH_FIELD_DST_IPV4".

Example example_transition :
  CalculateTransition old_program new_program =
    Ok (mkTransition [] [$"compute_ecmp_hash_ipv4"] true [] [] [] [$"acl_ingress_table"]) ∧
  CalculateTransition old_program old_program = Ok (mkTransition [] [] false [] [] [] []).
Proof. split; vm_compute; reflexivity. Qed.

Lemma example_apart width hash_field n t : tables_by_name (example_program width hash_field) !! n = Some t → named_apart t.
Proof. unfold example_program, one_table. cbn [tables_by_name]. intros [<- <-]%lookup_singleton_Some. apply acl_table_apart. Qed.

Lemma transition_exact_witness :
  CalculateTransition old_program new_program =
    Ok (mkTransition [] [$"compute_ecmp_hash_ipv4"] true [] [] [] [$"acl_ingress_table"]) ∧
  needs_update (acl_table_of 8) (acl_table_of 9).
Proof.
  assert (CalculateTransition old_program new_program =
    Ok (mkTransition [] [$"compute_ecmp_hash_ipv4"] true [] [] [] [$"acl_ingress_table"])) as Ht by (vm_compute; reflexivity).
  split; [exact Ht|].
  destruct (transition_exact old_program new_program _ (example_apart 8 _) (example_apart 9 _) Ht) as (_ & _ & Hmod & Hboth & _).
  destruct (Hboth $"acl_ingress_table" ltac:(right; left)) as [Hold Hnew].
  destruct (Hmod $"acl_ingress_table" (acl_table_of 8) (acl_table_of 9) (lookup_singleton_eq _ _) (lookup_singleton_eq _ _) Hold Hnew)
    as (_ & He & _).
  exact (proj1 (proj1 He ltac:(left))).
Defined.

Lemma updated_capacities_fit_witness :
  let original weight := {[ $"wcmp" := mkCapacity (mkActionProfile (named 1 $"wcmp") [] 80 4 None) weight 3 ]} in
  (∃ capacities, GetUpdatedResourceCapacities new_program (original 70) = Ok capacities ∧
    ∃ c, capacities !! $"wcmp" = Some c ∧ current_total_weight c = 70) ∧
  GetUpdatedResourceCapacities new_program (original 91) = Err kFailedPrecondition ∧
  ∃ name profile, action_profiles_by_name new_program !! name = Some profile ∧ capacity_refused (original 91 !! name) profile.
Proof.
  set (original weight := {[ $"wcmp" := mkCapacity (mkActionProfile (named 1 $"wcmp") [] 80 4 None) weight 3 ]}). cbv zeta.
  assert (GetUpdatedResourceCapacities new_program (original 70) = Ok (ok_or (GetUpdatedResourceCapacities new_program (original 70)) ∅)) as Hc
    by (apply ok_or_eq; vm_compute; reflexivity).
  assert (GetUpdatedResourceCapacities new_program (original 91) = Err kFailedPrecondition) as He by (vm_compute; reflexivity).
  pose proof (updated_capacities_fit new_program (original 70)) as Hok. pose proof (updated_capacities_fit new_program (original 91)) as Herr.
  split; [|split; [exact He|rewrite He in Herr; exact (proj2 Herr)]].
  rewrite Hc in Hok |- *. eexists. split; [reflexivity|]. destruct (Hok $"wcmp") as (c & Hl & Hcarried & _).
  exists c. split; [exact Hl|exact (same_weight _ _ _ Hcarried)].
Defined.
