(* ===== verification/WritePath.v ===== *)
(** p4rt_app/p4runtime: [P4RuntimeImpl::Write] of [p4runtime_impl.cc] and the functions it is made
    of: translation and checking of the updates of a request, the application database, the
    bookkeeping of the response, the entity cache and the action-profile counters.  The PDPI and
    OrchAgent translations of entities are an interface ([EntityTranslation], with the laws the
    proofs rely on), and so is the application database ([AppDbLayer]), which AppDb.v
    implements. *)
From S2P Require Import Prelude EntityKeys IrData ResourceUtilization AppDb.
From S2P Require IrUtils SdnController.

(** * Interfaces *)

(** The translations of one entity: PDPI ([PiEntityToIr], [IrEntityToPi], whose flag is
    [key_only]), p4-constraints, the adjustment of the IR for the OrchAgent (which depends on the
    port and queue translations, a [T]) and the encoding for the application database. *)
Class EntityTranslation (C T : Type) := {
  PiEntityToIr : IrP4Info → Entity → bool → result IrEntity;
  IrEntityToPi : IrP4Info → IrEntity → bool → result Entity;
  ReasonEntryViolatesConstraint : TableEntry → C → result str;
  UpdateIrEntityForOrchAgent : IrEntity → IrP4Info → T → result IrEntity;
  CreateAppDbUpdate : UpdateType → IrEntity → IrP4Info → result AppDbUpdate;
}.

Class AppDbLayer (W : Type) :=
  PerformUpdates : W → list (AppDbUpdate * nat) → list IrUpdateStatus →
    result bool * list IrUpdateStatus * W.

#[global] Instance SonicAppDb (codes : str → SwssStatusCode) (escape : str → str)
  : AppDbLayer AppDbWorld := PerformAppDbUpdates codes escape.

(** * Data *)

Record Update := mkUpdate { type_ : UpdateType; entity : Entity }.

Record WriteRequest := mkWriteRequest {
  header : SdnController.RequestHeader;
  updates : list Update;
}.

Abbreviation EntityMap := (gmap EntityKey Entity).
Abbreviation ActionProfileCapacityMap := (gmap str ActionProfileResourceCapacity).

(** The code of a [grpc::Status] ([None] is OK) and the per-update errors packed in its details. *)
Record GrpcStatus := mkGrpcStatus {
  grpc_code : option StatusCode;
  grpc_details : list (option StatusCode * str);
}.

Definition EnterCriticalState : GrpcStatus := mkGrpcStatus (Some kInternal) [].

(** The members of [P4RuntimeImpl] that [Write] uses. *)
Record Server (C T W : Type) := mkServer {
  controller_manager_ : SdnController.World;
  ir_p4info_ : option IrP4Info;
  p4_constraint_info_ : C;
  translations_ : T;
  entity_cache_ : EntityMap;
  capacity_by_action_profile_name_ : ActionProfileCapacityMap;
  app_db_ : W;
  write_batch_requests_ : Z;
  write_total_requests_ : Z;
}.
Arguments mkServer {C T W} _ _ _ _ _ _ _ _ _.
Arguments controller_manager_ {C T W} _.
Arguments ir_p4info_ {C T W} _.
Arguments p4_constraint_info_ {C T W} _.
Arguments translations_ {C T W} _.
Arguments entity_cache_ {C T W} _.
Arguments capacity_by_action_profile_name_ {C T W} _.
Arguments app_db_ {C T W} _.
Arguments write_batch_requests_ {C T W} _.
Arguments write_total_requests_ {C T W} _.

(** * Status conversion: p4_infra/p4_pdpi/ir.cc *)

(** google.rpc.Code. *)
Definition code_number (c : option StatusCode) : Z :=
  match c with
  | None => 0
  | Some kCancelled => 1 | Some kUnknown => 2 | Some kInvalidArgument => 3
  | Some kDeadlineExceeded => 4 | Some kNotFound => 5 | Some kAlreadyExists => 6
  | Some kPermissionDenied => 7 | Some kResourceExhausted => 8 | Some kFailedPrecondition => 9
  | Some kAborted => 10 | Some kOutOfRange => 11 | Some kUnimplemented => 12
  | Some kInternal => 13 | Some kUnavailable => 14 | Some kDataLoss => 15
  | Some kUnauthenticated => 16
  end.

Fixpoint pack_errors (statuses : list IrUpdateStatus) : result (list (option StatusCode * str)) :=
  match statuses with
  | [] => Ok []
  | ir_update_status :: statuses =>
    _ ← IrUtils.ValidateGenericUpdateStatus (code_number (code ir_update_status)) (message ir_update_status);
    _ ← IrUtils.IsGoogleRpcCode (code_number (code ir_update_status));
    rest ← pack_errors statuses;
    Ok ((code ir_update_status, message ir_update_status) :: rest)
  end.

Definition IrWriteResponseToGrpcStatus (statuses : list IrUpdateStatus) : result GrpcStatus :=
  details ← pack_errors statuses;
  Ok (mkGrpcStatus (Some kUnknown) details).

(** The case of an [rpc_response]; [Write] sets no other. *)
Definition IrWriteRpcStatusToGrpcStatus (statuses : list IrUpdateStatus) : result GrpcStatus :=
  let all_ir_update_status_ok := forallb (λ st, bool_decide (code st = None)) statuses in
  let ir_update_status_has_no_error_message :=
    forallb (λ st, bool_decide (message st = [])) statuses in
  if all_ir_update_status_ok && ir_update_status_has_no_error_message
  then Ok (mkGrpcStatus None [])
  else IrWriteResponseToGrpcStatus statuses.

(** * p4runtime_impl.cc *)

Section write.
Context {C T W : Type} `{EntityTranslation C T} `{AppDbLayer W}.

Abbreviation EntityUpdate := (EntityUpdate AppDbUpdate).

Definition AllowRoleAccessToTable (role_name table_name : str) (p4_info : IrP4Info) : result () :=
  if bool_decide (role_name = []) then Ok tt else
  match tables_by_name p4_info !! table_name with
  | None => Err kInternal
  | Some table_def =>
    if negb (bool_decide (role table_def = role_name)) then Err kPermissionDenied else Ok tt
  end.

Definition VerifyEntityCacheForExistence (cache : EntityMap) (entry : EntityUpdate) : result () :=
  let exists_ := bool_decide (is_Some (cache !! entity_key entry)) in
  match update_type entry with
  | INSERT => if exists_ then Err kAlreadyExists else Ok tt
  | MODIFY | DELETE => if negb exists_ then Err kNotFound else Ok tt
  | UPDATE_UNSPECIFIED _ => Err kInternal
  end.

Definition ValidateTableEntryConstraints (entry : TableEntry) (constraint_info : C) : result () :=
  reason_entry_violates_constraint ← ReasonEntryViolatesConstraint entry constraint_info;
  if negb (bool_decide (reason_entry_violates_constraint = [])) then Err kInvalidArgument else Ok tt.

(** The checks that only concern table entries. *)
Definition CheckTableEntry (p4_info : IrP4Info) (pi_update : Update) (role_name : str)
  (constraint_info : option C) (table_entry : IrTableEntry) : result () :=
  _ ← (if negb (bool_decide (type_ pi_update = DELETE)) then
         match constraint_info with
         | Some constraint_info =>
           ValidateTableEntryConstraints (entity_table_entry (entity pi_update)) constraint_info
         | None => Ok tt
         end
       else Ok tt);
  AllowRoleAccessToTable role_name (table_name table_entry) p4_info.

(** The second translation's status is not tested (the code tests the first one again), so its
    value is taken from a [StatusOr] that may hold an error.  The last two members of the update
    are filled in later. *)
Definition PiUpdateToEntityUpdate (p4_info : IrP4Info) (pi_update : Update) (role_name : str)
  (constraint_info : option C) (translations : T) : result EntityUpdate :=
  let key_only := bool_decide (type_ pi_update = DELETE) in
  ir_entity ← PiEntityToIr p4_info (entity pi_update) key_only;
  let normalized_pi_entry := IrEntityToPi p4_info ir_entity key_only in
  _ ← match ir_entity with
      | IrTable table_entry => CheckTableEntry p4_info pi_update role_name constraint_info table_entry
      | _ => Ok tt
      end;
  ir_entity ← UpdateIrEntityForOrchAgent ir_entity p4_info translations;
  match normalized_pi_entry with
  | Ok pi_entry =>
    entity_key ← MakeEntityKey pi_entry;
    app_db_update ← CreateAppDbUpdate (type_ pi_update) ir_entity p4_info;
    Ok (mkEntityUpdate ir_entity (type_ pi_update) pi_entry entity_key NoResources app_db_update 0)
  | _ => Die
  end.

(** The accounting of an accepted update in the batch's resources. *)
Definition AddToBatch (p4_info : IrP4Info) (resource_change : TableResources)
  (resources_in_batch : gmap str Z) : result (gmap str Z) :=
  match action_profile resource_change with
  | None => Ok resources_in_batch
  | Some change =>
    let profile_name := resources_profile_name change in
    match action_profiles_by_name p4_info !! profile_name with
    | None => Err kNotFound
    | Some current_action_profile_definition =>
      let added :=
        if bool_decide (is_Some (sum_of_members current_action_profile_definition))
        then number_of_actions change else total_weight change in
      Ok (<[profile_name := default 0 (resources_in_batch !! profile_name) + added]>
            resources_in_batch)
    end
  end.

Definition set_resources_and_status (r : TableResources) (i : nat) (u : EntityUpdate) : EntityUpdate :=
  mkEntityUpdate (entry u) (update_type u) (pi_entity u) (entity_key u) r (app_db_update u) i.

(** The outcome of the loop: the statuses added, the updates accepted and [has_duplicates]. *)
Record Translated := mkTranslated {
  statuses : list IrUpdateStatus;
  entity_updates : list EntityUpdate;
  has_duplicates : bool;
}.

Fixpoint translate_loop (pi_updates : list Update) (role_name : str) (p4_info : IrP4Info)
  (entity_cache : EntityMap) (capacities : ActionProfileCapacityMap) (constraint_info : C)
  (translations : T) (keys_in_request : gset EntityKey) (resources_in_batch : gmap str Z)
  (acc : Translated) : result Translated :=
  match pi_updates with
  | [] => Ok acc
  | pi_update :: pi_updates =>
    let fail_with c :=
      Ok (mkTranslated (statuses acc ++ [GetIrUpdateStatus (Some c) []]) (entity_updates acc) false) in
    match PiUpdateToEntityUpdate p4_info pi_update role_name (Some constraint_info) translations with
    | Err c => fail_with c
    | Die => Die
    | Ok update =>
      if bool_decide (entity_key update ∈ keys_in_request)
      then Ok (mkTranslated (statuses acc ++ [OkStatus]) (entity_updates acc) true)
      else
        match VerifyEntityCacheForExistence entity_cache update with
        | Err c => fail_with c
        | Die => Die
        | Ok _ =>
          match VerifyCapacityAndGetTableResourceChange p4_info update entity_cache capacities
                  resources_in_batch with
          | (Err c, _) => fail_with c
          | (Die, _) => Die
          | (Ok resource_change, batch) =>
            match AddToBatch p4_info resource_change batch with
            | Err c => fail_with c
            | Die => Die
            | Ok batch =>
              translate_loop pi_updates role_name p4_info entity_cache capacities constraint_info
                translations ({[ entity_key update ]} ∪ keys_in_request) batch
                (mkTranslated (statuses acc ++ [OkStatus])
                   (entity_updates acc ++
                      [set_resources_and_status resource_change (length (statuses acc)) update])
                   false)
            end
          end
        end
    end
  end.

Definition DuplicateKey : IrUpdateStatus :=
  GetIrUpdateStatus (Some kInvalidArgument)
    $"[P4RT App] Found duplicated key in the same batch request.".

Definition PiEntityUpdatesToIr (request : WriteRequest) (p4_info : IrP4Info)
  (entity_cache : EntityMap) (capacities : ActionProfileCapacityMap) (constraint_info : C)
  (translations : T) : result (list EntityUpdate * list IrUpdateStatus) :=
  out ← translate_loop (updates request) (SdnController.request_role (header request)) p4_info
          entity_cache capacities constraint_info translations ∅ ∅ (mkTranslated [] [] false);
  let '(statuses, entity_updates) :=
    if has_duplicates out then ([DuplicateKey], []) else (statuses out, entity_updates out) in
  Ok (entity_updates,
      statuses ++ replicate (length (updates request) - length statuses) Aborted).

Definition IrP4InfoGeneratesEquivalentAppDbRepresentation (original_ir_p4info new_ir_p4info : IrP4Info)
  (entity : Entity) (constraint_info : C) (translations : T) : result () :=
  let update := mkUpdate INSERT entity in
  match PiUpdateToEntityUpdate new_ir_p4info update [] (Some constraint_info) translations with
  | Die => Die
  | Err _ => Err kFailedPrecondition
  | Ok new_translation =>
    match PiUpdateToEntityUpdate original_ir_p4info update [] (Some constraint_info) translations with
    | Die => Die
    | Err _ => Err kInternal
    | Ok old_translation =>
      if negb (AppDbUpdate_eqb (app_db_update new_translation) (app_db_update old_translation))
      then Err kFailedPrecondition else Ok tt
    end
  end.

Definition AddUtilization (change : ActionProfileResources) (utilization : ActionProfileResourceCapacity)
  : ActionProfileResourceCapacity :=
  mkCapacity (capacity_profile utilization)
    (current_total_weight utilization + total_weight change)
    (current_total_members utilization + number_of_actions change).

Fixpoint UpdateCacheAndUtilizationState (entity_cache : EntityMap)
  (capacities : ActionProfileCapacityMap) (entity_updates : list EntityUpdate)
  (results : list IrUpdateStatus) : result () * EntityMap * ActionProfileCapacityMap :=
  match entity_updates with
  | [] => (Ok tt, entity_cache, capacities)
  | app_db_entry :: rest =>
    match results !! status app_db_entry with
    | None => (Die, entity_cache, capacities)
    | Some st =>
      if negb (bool_decide (code st = None))
      then UpdateCacheAndUtilizationState entity_cache capacities rest results
      else
        let cache :=
          match update_type app_db_entry with
          | INSERT | MODIFY => Ok (<[entity_key app_db_entry := pi_entity app_db_entry]> entity_cache)
          | DELETE => key ← MakeEntityKey (pi_entity app_db_entry); Ok (delete key entity_cache)
          | UPDATE_UNSPECIFIED _ => Err kInternal
          end in
        match cache with
        | Err e => (Err e, entity_cache, capacities)
        | Die => (Die, entity_cache, capacities)
        | Ok entity_cache =>
          match action_profile (resource_utilization_change app_db_entry) with
          | None => UpdateCacheAndUtilizationState entity_cache capacities rest results
          | Some change =>
            let profile_name := resources_profile_name change in
            match capacities !! profile_name with
            | None => (Err kInternal, entity_cache, capacities)
            | Some utilization =>
              UpdateCacheAndUtilizationState entity_cache
                (<[profile_name := AddUtilization change utilization]> capacities) rest results
            end
          end
        end
    end
  end.

(** The loop over the statuses of the response that keeps only the first error. *)
Fixpoint mark_aborted (found_first_failure : bool) (statuses : list IrUpdateStatus)
  : list IrUpdateStatus :=
  match statuses with
  | [] => []
  | rpc_error :: statuses =>
    if bool_decide (code rpc_error = None) then rpc_error :: mark_aborted found_first_failure statuses
    else if negb found_first_failure then rpc_error :: mark_aborted true statuses
    else mkStatus (Some kAborted) (message rpc_error) :: mark_aborted found_first_failure statuses
  end.

Definition set_app_db (w : W) (s : Server C T W) : Server C T W :=
  mkServer (controller_manager_ s) (ir_p4info_ s) (p4_constraint_info_ s) (translations_ s)
    (entity_cache_ s) (capacity_by_action_profile_name_ s) w
    (write_batch_requests_ s) (write_total_requests_ s).
Definition set_cache (cache : EntityMap) (capacities : ActionProfileCapacityMap) (s : Server C T W)
  : Server C T W :=
  mkServer (controller_manager_ s) (ir_p4info_ s) (p4_constraint_info_ s) (translations_ s)
    cache capacities (app_db_ s) (write_batch_requests_ s) (write_total_requests_ s).
Definition count_requests (n : Z) (s : Server C T W) : Server C T W :=
  mkServer (controller_manager_ s) (ir_p4info_ s) (p4_constraint_info_ s) (translations_ s)
    (entity_cache_ s) (capacity_by_action_profile_name_ s) (app_db_ s)
    (write_batch_requests_ s + 1) (write_total_requests_ s + n).

(** The part of [Write] after the application database has answered. *)
Definition FinishWrite (app_db_updates : list EntityUpdate) (statuses : list IrUpdateStatus)
  (s : Server C T W) : result GrpcStatus * Server C T W :=
  let statuses := mark_aborted false statuses in
  match IrWriteRpcStatusToGrpcStatus statuses with
  | Err _ => (Ok EnterCriticalState, s)
  | Die => (Die, s)
  | Ok grpc_status =>
    match UpdateCacheAndUtilizationState (entity_cache_ s) (capacity_by_action_profile_name_ s)
            app_db_updates statuses with
    | (Die, cache, capacities) => (Die, set_cache cache capacities s)
    | (Err _, cache, capacities) => (Ok EnterCriticalState, set_cache cache capacities s)
    | (Ok _, cache, capacities) =>
      (Ok grpc_status, count_requests (zlen app_db_updates) (set_cache cache capacities s))
    end
  end.

Definition Write (request : WriteRequest) (s : Server C T W) : result GrpcStatus * Server C T W :=
  match SdnController.AllowWriteRequest (header request) (controller_manager_ s) with
  | None | Some (Die, _) => (Die, s)
  | Some (Err c, _) => (Ok (mkGrpcStatus (Some c) []), s)
  | Some (Ok _, _) =>
    match ir_p4info_ s with
    | None => (Ok (mkGrpcStatus (Some kFailedPrecondition) []), s)
    | Some p4_info =>
      match PiEntityUpdatesToIr request p4_info (entity_cache_ s)
              (capacity_by_action_profile_name_ s) (p4_constraint_info_ s) (translations_ s) with
      | Err c => (Err c, s)
      | Die => (Die, s)
      | Ok (app_db_updates, statuses) =>
        let updates_and_results := map (λ u, (app_db_update u, status u)) app_db_updates in
        match PerformUpdates (app_db_ s) updates_and_results statuses with
        | (Die, _, w) => (Die, set_app_db w s)
        | (Err _, _, w) => (Ok EnterCriticalState, set_app_db w s)
        | (Ok _, statuses, w) => FinishWrite app_db_updates statuses (set_app_db w s)
        end
      end
    end
  end.
End write.
