(* ===== verification/WriteCorrect.v ===== *)
(** p4rt_app/p4runtime: what [P4RuntimeImpl::Write] (WritePath.v) guarantees.  The entity cache and
    the action-profile counters stay consistent, the cache reflects exactly the updates reported
    as successful, responses have the fail-on-first form, capacities are respected, and a role
    changes no other role's tables.  The proofs are against the interfaces: the laws of the
    translations are assumed ([TranslationLaws]), those of the application database are proved
    for AppDb.v ([AppDbLayerLaws]). *)
From S2P Require Import Prelude Abseil EntityKeys IrData ResourceUtilization AppDb WritePath.
From S2P Require SdnController.

(** * Laws of the interfaces *)

(** Translation keeps the kind of an entity, the table of a table entry and, unless only the key
    is translated, the weights of its action set. *)
Class TranslationLaws (C T : Type) `{EntityTranslation C T} (p4_info : IrP4Info) := {
  pdpi_table e key_only te pi :
    PiEntityToIr p4_info e key_only = Ok (IrTable te) →
    IrEntityToPi p4_info (IrTable te) key_only = Ok pi →
    ∃ t def, pi = kTableEntry t ∧ tables_by_name p4_info !! table_name te = Some def ∧
      tables_by_id p4_info !! table_id t = Some def ∧
      (key_only = false →
       map weight (action_profile_actions (action t)) = map Ir.weight_ (action_set te));
  pdpi_other e key_only ir pi :
    PiEntityToIr p4_info e key_only = Ok ir → (∀ te, ir ≠ IrTable te) →
    IrEntityToPi p4_info ir key_only = Ok pi → ∀ t, pi ≠ kTableEntry t;
  orch_agent_table te translations ir :
    UpdateIrEntityForOrchAgent (IrTable te) p4_info translations = Ok ir →
    ∃ te', ir = IrTable te' ∧ table_name te' = table_name te ∧
      map Ir.weight_ (action_set te') = map Ir.weight_ (action_set te);
  orch_agent_other ir translations ir' :
    UpdateIrEntityForOrchAgent ir p4_info translations = Ok ir' → (∀ te, ir ≠ IrTable te) →
    ∀ te, ir' ≠ IrTable te;
}.

(** The application database writes no status it was not given, attaches messages only to errors
    and does not crash. *)
Class AppDbLayerLaws (W : Type) `{AppDbLayer W} :=
  perform_laws (w : W) l mem r mem' w' :
    NoDup (map snd l) → (∀ u i, (u, i) ∈ l → ok_at mem i) → clean mem →
    PerformUpdates w l mem = (r, mem', w') →
    only_changes (map snd l) mem mem' ∧ clean mem' ∧ r ≠ Die.

#[global] Instance SonicAppDb_laws codes escape :
  AppDbLayerLaws AppDbWorld (H := SonicAppDb codes escape).
Proof.
  intros w l mem r mem' w' Hnd Hok Hc H. unfold PerformUpdates, SonicAppDb in H. split_and!.
  - apply (updates_loop_spec codes escape l []) in H as [Ho _]; [done|constructor|done..].
  - by apply (updates_loop_clean codes escape l []) in H.
  - apply (updates_loop_spec codes escape l []) in H as [_ Hp]; [|constructor|done..].
    by destruct r as [[|]| |].
Qed.

(** * Translated updates *)

Section write_correct.
Context {C T W : Type} `{EntityTranslation C T} `{AppDbLayer W}.
Context (p4_info : IrP4Info) `{!TranslationLaws C T p4_info}.

Abbreviation EntityUpdate := (EntityUpdate AppDbUpdate).
Implicit Types (u : EntityUpdate) (us : list EntityUpdate) (cache : EntityMap)
  (capacities : ActionProfileCapacityMap) (translations : T) (constraint_info : C).

(** What is known of the entities of an update made from a request. *)
Definition well_translated (role_name : str) u : Prop :=
  MakeEntityKey (pi_entity u) = Ok (entity_key u) ∧
  match entry u with
  | IrTable te => ∃ t def, pi_entity u = kTableEntry t ∧
      tables_by_name p4_info !! table_name te = Some def ∧
      tables_by_id p4_info !! table_id t = Some def ∧
      (update_type u ≠ DELETE →
       map weight (action_profile_actions (action t)) = map Ir.weight_ (action_set te)) ∧
      (role_name ≠ [] → role def = role_name)
  | _ => ∀ t, pi_entity u ≠ kTableEntry t
  end.

Lemma AllowRole_Ok role_name name :
  AllowRoleAccessToTable role_name name p4_info = Ok tt →
  role_name = [] ∨ ∃ def, tables_by_name p4_info !! name = Some def ∧ role def = role_name.
Proof.
  unfold AllowRoleAccessToTable. case_bool_decide; [by left|].
  destruct (tables_by_name p4_info !! name) as [def|]; [|done].
  destruct (bool_decide (role def = role_name)) eqn:Hr; bool_prop; [|done]. right. by exists def.
Qed.

Lemma PiUpdateToEntityUpdate_spec pi_update role_name ci translations u :
  PiUpdateToEntityUpdate p4_info pi_update role_name ci translations = Ok u →
  update_type u = type_ pi_update ∧ well_translated role_name u.
Proof.
  unfold PiUpdateToEntityUpdate. intros (ir & Hir & Hu)%bind_Ok_iff.
  apply bind_Ok_iff in Hu as ([] & Hcheck & Hu). apply bind_Ok_iff in Hu as (ir' & Hoa & Hu).
  destruct (IrEntityToPi _ _ _) as [pi| |] eqn:Hpi; [|done..].
  apply bind_Ok_iff in Hu as (key & Hkey & Hu). apply bind_Ok_iff in Hu as (adu & _ & [= <-]).
  split; [done|]. split; [done|]. cbn [entry pi_entity update_type]. destruct ir as [te| |].
  - apply orch_agent_table in Hoa as (te' & -> & Hname & Hw).
    destruct (pdpi_table _ _ _ _ Hir Hpi) as (t & def & -> & Hn & Hid & Hws).
    exists t, def. rewrite Hname. split_and!; [done..| |].
    + intros Hne. rewrite Hw. apply Hws. by apply bool_decide_eq_false.
    + intros Hr. apply bind_Ok_iff in Hcheck as ([] & _ & Hcheck).
      apply AllowRole_Ok in Hcheck as [|(def' & Hd & ?)]; [done|]. congruence.
  - pose proof (orch_agent_other _ _ _ Hoa ltac:(done)) as Ho.
    pose proof (pdpi_other _ _ _ _ Hir ltac:(done) Hpi) as Hp.
    destruct ir' as [te'| |]; [by destruct (Ho te')|done..].
  - pose proof (orch_agent_other _ _ _ Hoa ltac:(done)) as Ho.
    pose proof (pdpi_other _ _ _ _ Hir ltac:(done) Hpi) as Hp.
    destruct ir' as [te'| |]; [by destruct (Ho te')|done..].
Qed.

(** * Accounting *)

(** Every cached entity is stored under its key. *)
Definition cache_keyed cache : Prop := ∀ k e, cache !! k = Some e → MakeEntityKey e = Ok k.

Definition type_uses_new (t : UpdateType) : bool :=
  match t with INSERT | MODIFY => true | _ => false end.

(** The cache after a successful update. *)
Definition apply_update u cache : EntityMap :=
  if type_uses_new (update_type u) then <[entity_key u := pi_entity u]> cache
  else delete (entity_key u) cache.

(** What the update changes in the use of the profile [name]. *)
Definition usage_change (m : measure) (name : str) u cache : Z :=
  (if type_uses_new (update_type u) then usage m p4_info name (pi_entity u) else 0) -
  from_option (usage m p4_info name) 0 (cache !! entity_key u).

Lemma apply_update_usage m name u cache :
  map_sum (usage m p4_info name) (apply_update u cache) =
  map_sum (usage m p4_info name) cache + usage_change m name u cache.
Proof.
  unfold apply_update, usage_change. destruct (type_uses_new _).
  - rewrite map_sum_insert. lia.
  - rewrite map_sum_delete. lia.
Qed.

Lemma VerifyExistence_Ok cache u :
  VerifyEntityCacheForExistence cache u = Ok tt →
  match update_type u with
  | INSERT => cache !! entity_key u = None
  | MODIFY | DELETE => is_Some (cache !! entity_key u)
  | UPDATE_UNSPECIFIED _ => False
  end.
Proof.
  unfold VerifyEntityCacheForExistence. destruct (cache !! entity_key u) as [e|] eqn:He.
  - rewrite bool_decide_eq_true_2 by done. by destruct (update_type u).
  - rewrite bool_decide_eq_false_2 by (by intros []). by destruct (update_type u).
Qed.

Lemma share_change m name new old :
  (∀ p q, new ≫= action_profile = Some p → old ≫= action_profile = Some q →
     resources_profile_name p = resources_profile_name q) →
  share m name (ResourceChange new old) =
    from_option (share m name) 0 new - from_option (share m name) 0 old.
Proof.
  intros Hnames. unfold ResourceChange, share.
  destruct new as [[nt [p|]]|], old as [[ot [q|]]|]; cbn in *; try lia.
  1: specialize (Hnames p q eq_refl eq_refl); rewrite <-Hnames.
  all: case_bool_decide; [|lia]; destruct m; cbn; lia.
Qed.

(** The profile a table entry's resources are counted in. *)
Definition profile_of (def : IrTableDefinition) : result (option str) :=
  match action_profile_id def with
  | None => Ok None
  | Some id => Some <$> GetActionProfileName p4_info id
  end.

Definition resources_of (name : str) (profile : option str) (ws : list Z) : TableResources :=
  mkTableResources name ((λ p, profile_resources p ws) <$> profile).

Lemma Pi_resources t def :
  tables_by_id p4_info !! table_id t = Some def →
  GetResourceUsageForPiTableEntry p4_info t =
    (profile ← profile_of def;
     Ok (resources_of (preamble_alias def) profile
           (map weight (action_profile_actions (action t))))).
Proof.
  intros Hdef. unfold GetResourceUsageForPiTableEntry, profile_of. rewrite Hdef.
  destruct (action_profile_id def) as [id|]; [|done]. by destruct (GetActionProfileName _ _).
Qed.

Lemma Ir_resources te def :
  tables_by_name p4_info !! table_name te = Some def →
  GetResourceUsageForIrTableEntry p4_info te =
    (profile ← profile_of def;
     Ok (resources_of (table_name te) profile (map Ir.weight_ (action_set te)))).
Proof.
  intros Hdef. unfold GetResourceUsageForIrTableEntry, profile_of. rewrite Hdef.
  destruct (action_profile_id def) as [id|]; [|done]. by destruct (GetActionProfileName _ _).
Qed.

Lemma cached_table cache key t e :
  cache_keyed cache → MakeEntityKey (kTableEntry t) = Ok key → cache !! key = Some e →
  ∃ t', e = kTableEntry t' ∧ table_id t' = table_id t.
Proof.
  intros Hc [= <-] He%Hc. destruct e as [t'| |]; cbn in He; [|done..]. exists t'.
  split; [done|]. unfold MakeTableEntryKey in He. congruence.
Qed.

Lemma cached_other m name cache u :
  cache_keyed cache → MakeEntityKey (pi_entity u) = Ok (entity_key u) →
  (∀ t, pi_entity u ≠ kTableEntry t) → usage_change m name u cache = 0.
Proof.
  intros Hc Hk Hno. unfold usage_change.
  assert (usage m p4_info name (pi_entity u) = 0) as ->
    by (destruct (pi_entity u) as [t| |]; [by destruct (Hno t)|done..]).
  destruct (cache !! entity_key u) as [e|] eqn:He; [|by destruct (type_uses_new _)].
  apply Hc in He. cbn [from_option]. assert (usage m p4_info name e = 0) as ->.
  { destruct e as [t| |]; [|done..]. cbn in He.
    destruct (pi_entity u) as [t'| |]; [by destruct (Hno t') | cbn in Hk; congruence..]. }
  by destruct (type_uses_new _).
Qed.

(** The recorded change is the real one. *)
Lemma recorded_change role_name u cache capacities batch r batch' m name :
  well_translated role_name u → cache_keyed cache →
  VerifyEntityCacheForExistence cache u = Ok tt →
  VerifyCapacityAndGetTableResourceChange p4_info u cache capacities batch = (Ok r, batch') →
  share m name r = usage_change m name u cache.
Proof.
  intros [Hkey Hwt] Hc Hex%VerifyExistence_Ok Hv. destruct (entry u) as [te| |] eqn:He.
  2, 3: unfold VerifyCapacityAndGetTableResourceChange in Hv; rewrite He in Hv;
    injection Hv as <- <-; by rewrite cached_other.
  destruct Hwt as (t & def & Hpi & Hname & Hid & Hws & _). rewrite Hpi in Hkey.
  apply (VerifyCapacity_Ok _ _ te) in Hv; [|done].
  destruct Hv as (new & old & Hnew & Hold & -> & _).
  assert (new = (if type_uses_new (update_type u) then
      match GetResourceUsageForIrTableEntry p4_info te with Ok r => Some r | _ => None end else None) ∧
    (type_uses_new (update_type u) = true → is_Ok (GetResourceUsageForIrTableEntry p4_info te) = true))
    as [-> Hok].
  { revert Hnew. unfold NewResources. destruct (update_type u); cbn;
      [destruct (GetResourceUsageForIrTableEntry p4_info te)..| |]; intros [= <-]; done. }
  assert (old = match cache !! entity_key u with
    | Some e => match GetResourceUsageForPiTableEntry p4_info (entity_table_entry e) with
                | Ok r => Some r | _ => None end | None => None end ∧
    (∀ e, cache !! entity_key u = Some e →
       is_Ok (GetResourceUsageForPiTableEntry p4_info (entity_table_entry e)) = true)) as [-> Hok'].
  { revert Hold. unfold OldResources. destruct (update_type u); cbn; try done.
    - rewrite Hex. by intros [= <-].
    - destruct Hex as [e ->]. destruct (GetResourceUsageForPiTableEntry _ _) eqn:Hr; intros [= <-].
      split; [done|]. intros ? [= <-]. by rewrite Hr.
    - destruct Hex as [e ->]. destruct (GetResourceUsageForPiTableEntry _ _) eqn:Hr; intros [= <-].
      split; [done|]. intros ? [= <-]. by rewrite Hr. }
  clear Hnew Hold. unfold usage_change.
  assert (∀ e, cache !! entity_key u = Some e →
    ∃ t', e = kTableEntry t' ∧ tables_by_id p4_info !! table_id t' = Some def) as Hcached.
  { intros e Hce. destruct (cached_table _ _ _ _ Hc Hkey Hce) as (t' & -> & Ht').
    exists t'. by rewrite Ht'. }
  rewrite (Ir_resources _ _ Hname) in *. rewrite share_change.
  - f_equal.
    + rewrite Hpi. cbn [usage]. rewrite (Pi_resources _ _ Hid).
      destruct (type_uses_new (update_type u)) eqn:Hty; [|done].
      rewrite Hws by (by intros Hd; rewrite Hd in Hty).
      by destruct (profile_of def) as [p| |]; [|discriminate (Hok eq_refl)..].
    + destruct (cache !! entity_key u) as [e|] eqn:Hce; [|done].
      destruct (Hcached e eq_refl) as (t' & -> & Ht'). cbn.
      by destruct (GetResourceUsageForPiTableEntry p4_info t').
  - intros p q Hp Hq. destruct (cache !! entity_key u) as [e|]; [|done].
    destruct (Hcached e eq_refl) as (t' & -> & Ht'). cbn in Hq. rewrite (Pi_resources _ _ Ht') in Hq.
    destruct (type_uses_new _); [|done].
    destruct (profile_of def) as [[pn|]| |]; cbn in *; try done.
    injection Hp as <-. injection Hq as <-. by rewrite !sum_of_sizes.
Qed.

(** * Applying the acknowledged updates *)

(** The counters of every profile are the sums over the cache. *)
Definition utilization cache capacities : Prop :=
  ∀ name cap, capacities !! name = Some cap →
  ∀ m, in_use m cap = map_sum (usage m p4_info name) cache.

Record accepted (role_name : str) cache capacities u : Prop := {
  accepted_translated : well_translated role_name u;
  accepted_exists : VerifyEntityCacheForExistence cache u = Ok tt;
  accepted_change m name : share m name (resource_utilization_change u) = usage_change m name u cache;
  accepted_capacity p : action_profile (resource_utilization_change u) = Some p →
    is_Some (capacities !! resources_profile_name p);
}.

Definition same_profiles capacities capacities' : Prop :=
  ∀ name : str, capacity_profile <$> (capacities' !! name) = capacity_profile <$> (capacities !! name).

Lemma same_profiles_is_Some capacities capacities' name :
  same_profiles capacities capacities' →
  is_Some (capacities !! name) → is_Some (capacities' !! name).
Proof.
  intros Hs [c Hc]. specialize (Hs name). rewrite Hc in Hs.
  by destruct (capacities' !! name).
Qed.

Lemma accepted_frame role_name cache capacities cache' capacities' u :
  accepted role_name cache capacities u → cache' !! entity_key u = cache !! entity_key u →
  same_profiles capacities capacities' → accepted role_name cache' capacities' u.
Proof.
  intros [Ht He Hc Hp] Hk Hs. split; [done|..].
  - unfold VerifyEntityCacheForExistence in *. by rewrite Hk.
  - intros m name. rewrite Hc. unfold usage_change. by rewrite Hk.
  - intros p Hpr. eapply same_profiles_is_Some; [done|]. by apply Hp.
Qed.

Definition acknowledged (results : list IrUpdateStatus) u : bool :=
  match results !! status u with Some st => bool_decide (code st = None) | None => false end.

Definition apply_updates us cache : EntityMap := fold_left (λ c u, apply_update u c) us cache.

Lemma apply_update_ne u cache k : k ≠ entity_key u → apply_update u cache !! k = cache !! k.
Proof.
  intros Hne. unfold apply_update. destruct (type_uses_new _);
    [by rewrite lookup_insert_ne | by rewrite lookup_delete_ne].
Qed.

Lemma apply_update_keyed role_name u cache :
  well_translated role_name u → cache_keyed cache → cache_keyed (apply_update u cache).
Proof.
  intros [Hk _] Hc k e. unfold apply_update. destruct (type_uses_new _).
  - destruct (decide (k = entity_key u)) as [->|Hne];
      [rewrite lookup_insert_eq; by intros [= <-] | rewrite lookup_insert_ne by done; apply Hc].
  - intros [_ ?]%lookup_delete_Some. by apply Hc.
Qed.

(** One successful update: the cache and counters of the code. *)
Lemma utilization_step role_name u cache capacities :
  accepted role_name cache capacities u → utilization cache capacities →
  match action_profile (resource_utilization_change u) with
  | None => utilization (apply_update u cache) capacities
  | Some change => ∃ cap, capacities !! resources_profile_name change = Some cap ∧
      utilization (apply_update u cache)
        (<[resources_profile_name change := AddUtilization change cap]> capacities)
  end.
Proof.
  intros [Ht He Hc Hp] Hu. unfold share in Hc.
  destruct (action_profile (resource_utilization_change u)) as [change|] eqn:Hch.
  - destruct (Hp change eq_refl) as [cap Hcap]. exists cap. split; [done|].
    intros name cap' Hcap' m. rewrite apply_update_usage, <-Hc.
    destruct (decide (resources_profile_name change = name)) as [<-|Hne].
    + rewrite lookup_insert_eq in Hcap'. injection Hcap' as <-. rewrite bool_decide_eq_true_2 by done.
      rewrite <-(Hu _ _ Hcap m). by destruct m.
    + rewrite lookup_insert_ne in Hcap' by done. rewrite bool_decide_eq_false_2 by done.
      rewrite (Hu _ _ Hcap' m). lia.
  - intros name cap Hcap m. rewrite apply_update_usage, <-Hc, (Hu _ _ Hcap m). lia.
Qed.

Lemma UpdateCache_spec role_name us results cache capacities :
  NoDup (map entity_key us) → Forall (accepted role_name cache capacities) us →
  Forall (λ u, (status u < length results)%nat) us →
  cache_keyed cache → utilization cache capacities →
  let cache' := apply_updates (List.filter (acknowledged results) us) cache in
  ∃ capacities',
    UpdateCacheAndUtilizationState cache capacities us results = (Ok tt, cache', capacities') ∧
    utilization cache' capacities' ∧ cache_keyed cache' ∧ same_profiles capacities capacities'.
Proof.
  revert cache capacities.
  induction us as [|u us IH]; intros cache capacities Hnd Hacc Hst Hk Hu.
  { exists capacities. by split_and!. }
  cbn [map] in Hnd. apply NoDup_cons in Hnd as [Hnin Hnd].
  apply Forall_cons in Hacc as [Ha Hacc]. apply Forall_cons in Hst as [Hs Hst].
  cbn [UpdateCacheAndUtilizationState List.filter].
  destruct (lookup_lt_is_Some_2 results (status u) Hs) as [st Hres].
  assert (acknowledged results u = bool_decide (code st = None)) as ->
    by (unfold acknowledged; by rewrite Hres).
  rewrite Hres. destruct (bool_decide (code st = None)); cbn [negb]; [|by apply IH].
  change (apply_updates (u :: ?l) cache) with (apply_updates l (apply_update u cache)).
  assert ((match update_type u with
    | INSERT | MODIFY => Ok (<[entity_key u := pi_entity u]> cache)
    | DELETE => key ← MakeEntityKey (pi_entity u); Ok (delete key cache)
    | UPDATE_UNSPECIFIED _ => Err kInternal
    end : result EntityMap) = Ok (apply_update u cache)) as ->.
  { pose proof (VerifyExistence_Ok _ _ (accepted_exists _ _ _ _ Ha)) as Hex.
    destruct (accepted_translated _ _ _ _ Ha) as [Hkey _]. unfold apply_update.
    destruct (update_type u); cbn; rewrite ?Hkey; done. }
  pose proof (utilization_step _ _ _ _ Ha Hu) as Hstep.
  pose proof (apply_update_keyed _ _ _ (accepted_translated _ _ _ _ Ha) Hk) as Hk'.
  assert (∀ caps', same_profiles capacities caps' →
    Forall (accepted role_name (apply_update u cache) caps') us) as Hacc'.
  { intros caps' Hsame. rewrite Forall_forall in *. intros u' Hin.
    eapply accepted_frame; [by apply Hacc | | done]. apply apply_update_ne. intros Heq.
    apply Hnin. rewrite <-Heq. by apply list_elem_of_fmap_2. }
  destruct (action_profile (resource_utilization_change u)) as [change|].
  - destruct Hstep as (cap & Hcap & Hu'). rewrite Hcap.
    assert (same_profiles capacities
      (<[resources_profile_name change := AddUtilization change cap]> capacities)) as Hsame.
    { intros name. destruct (decide (resources_profile_name change = name)) as [<-|Hne].
      - by rewrite lookup_insert_eq, Hcap.
      - by rewrite lookup_insert_ne. }
    destruct (IH _ _ Hnd (Hacc' _ Hsame) Hst Hk' Hu') as (caps' & Heq & ? & ? & Hs').
    exists caps'. split_and!; [done..|]. intros name. rewrite (Hs' name). apply Hsame.
  - apply IH; [done| |done..]. by apply Hacc'.
Qed.

(** * Translating a batch *)

(** The quantity a profile is limited by. *)
Definition semantics (profile : ActionProfile) : measure :=
  if bool_decide (is_Some (sum_of_members profile)) then Members else Weights.

(** The capacity records are those of the profiles of the pipeline. *)
Definition profiles_agree capacities : Prop :=
  ∀ name cap, capacities !! name = Some cap →
    action_profiles_by_name p4_info !! name = Some (capacity_profile cap).

Definition batch_share (m : measure) (name : str) us : Z :=
  foldr Z.add 0 (map (λ u, share m name (resource_utilization_change u)) us).

Lemma batch_share_app m name us vs :
  batch_share m name (us ++ vs) = batch_share m name us + batch_share m name vs.
Proof. unfold batch_share. induction us as [|u us IH]; cbn in *; lia. Qed.

(** Each update, when it was accepted, fitted in the capacity of its profile together with those
    before it. *)
Definition fits capacities us : Prop :=
  ∀ pre u suf change cap, us = pre ++ u :: suf →
    action_profile (resource_utilization_change u) = Some change →
    capacities !! resources_profile_name change = Some cap →
    let m := semantics (capacity_profile cap) in
    profile_size (capacity_profile cap) ≠ 0 →
    in_use m cap + batch_share m (resources_profile_name change) (pre ++ [u]) ≤
      profile_size (capacity_profile cap).

(** [u] is the translation of [pi_update], with its resources and status set. *)
Definition made_from (role_name : str) constraint_info translations (pi_update : Update) u : Prop :=
  ∃ u0, PiUpdateToEntityUpdate p4_info pi_update role_name (Some constraint_info) translations = Ok u0 ∧
    u = set_resources_and_status (resource_utilization_change u) (status u) u0.

Record batch_inv (role_name : str) constraint_info translations cache capacities
  (pis : list Update) us : Prop := {
  batch_made : Forall2 (made_from role_name constraint_info translations) pis us;
  batch_status : map status us = seq 0 (length us);
  batch_accepted : Forall (accepted role_name cache capacities) us;
  batch_keys : NoDup (map entity_key us);
  batch_fits : profiles_agree capacities → fits capacities us;
}.

(** The map of the resources of the batch. *)
Definition batch_resources (batch : gmap str Z) us : Prop :=
  ∀ name profile, action_profiles_by_name p4_info !! name = Some profile →
    default 0 (batch !! name) = batch_share (semantics profile) name us.

Lemma fits_snoc capacities us u :
  fits capacities us →
  (∀ change cap, action_profile (resource_utilization_change u) = Some change →
     capacities !! resources_profile_name change = Some cap →
     let m := semantics (capacity_profile cap) in
     profile_size (capacity_profile cap) ≠ 0 →
     in_use m cap + batch_share m (resources_profile_name change) us + quantity m change ≤
       profile_size (capacity_profile cap)) →
  fits capacities (us ++ [u]).
Proof.
  intros Hf Hu pre u' suf change cap Heq Hch Hcap m Hsize.
  destruct suf as [|x suf] using rev_ind.
  - apply app_inj_tail in Heq as [-> ->]. rewrite batch_share_app.
    specialize (Hu change cap Hch Hcap Hsize). fold m in Hu. unfold batch_share at 2. cbn.
    unfold share. rewrite Hch, bool_decide_eq_true_2 by done. lia.
  - clear IHsuf. rewrite app_comm_cons, app_assoc in Heq. apply app_inj_tail in Heq as [-> ->].
    by eapply Hf.
Qed.

Lemma VerifyCapacity_batch u cache capacities batch r batch' :
  VerifyCapacityAndGetTableResourceChange p4_info u cache capacities batch = (Ok r, batch') →
  (∀ name, default 0 (batch' !! name) = default 0 (batch !! name)) ∧
  ∀ change, action_profile r = Some change →
    ∃ cap, capacities !! resources_profile_name change = Some cap ∧
      (profile_size (capacity_profile cap) ≠ 0 →
       in_use (semantics (capacity_profile cap)) cap +
         default 0 (batch !! resources_profile_name change) +
         quantity (semantics (capacity_profile cap)) change ≤ profile_size (capacity_profile cap)).
Proof.
  destruct (entry u) as [te| |] eqn:He.
  2, 3: unfold VerifyCapacityAndGetTableResourceChange; rewrite He; by intros [= <- <-].
  intros (new & old & _ & _ & _ & Hr)%(VerifyCapacity_Ok _ _ te); [|done].
  destruct (action_profile r) as [change|]; [|by subst].
  destruct Hr as (cap & Hcap & Hlim & ->). split.
  - intros name. destruct (decide (resources_profile_name change = name)) as [<-|Hne].
    + by rewrite lookup_insert_eq.
    + by rewrite lookup_insert_ne.
  - intros change' [= <-]. exists cap. split; [done|]. unfold within_limits in Hlim.
    unfold semantics. destruct (sum_of_members (capacity_profile cap)) as [mw|].
    + rewrite bool_decide_eq_true_2 by done. apply Hlim.
    + rewrite bool_decide_eq_false_2 by (by intros []). apply Hlim.
Qed.

Lemma batch_share_one m name u :
  batch_share m name [u] = share m name (resource_utilization_change u).
Proof. unfold batch_share. cbn [map foldr]. lia. Qed.

Lemma AddToBatch_spec r batch batch' us u :
  AddToBatch p4_info r batch = Ok batch' → batch_resources batch us →
  resource_utilization_change u = r → batch_resources batch' (us ++ [u]).
Proof.
  intros Hadd Hb Hu name profile Hp. rewrite batch_share_app, batch_share_one, Hu, <-(Hb _ _ Hp).
  unfold AddToBatch in Hadd. unfold share.
  destruct (action_profile r) as [change|]; [|injection Hadd as <-; lia].
  destruct (action_profiles_by_name p4_info !! resources_profile_name change) as [def|] eqn:Hdef;
    [|done].
  injection Hadd as <-. destruct (decide (resources_profile_name change = name)) as [<-|Hne].
  - rewrite lookup_insert_eq, (bool_decide_eq_true_2 (_ = resources_profile_name change)) by done.
    rewrite Hp in Hdef. injection Hdef as <-. unfold semantics.
    destruct (bool_decide (is_Some (sum_of_members profile))); done.
  - rewrite lookup_insert_ne, (bool_decide_eq_false_2 (_ = name)) by done. lia.
Qed.

Lemma batch_inv_snoc role_name constraint_info translations cache capacities done_ us keys batch
  pi_update u r batch' :
  cache_keyed cache →
  batch_inv role_name constraint_info translations cache capacities done_ us →
  (∀ k, k ∈ keys ↔ k ∈ map entity_key us) → batch_resources batch us →
  PiUpdateToEntityUpdate p4_info pi_update role_name (Some constraint_info) translations = Ok u →
  entity_key u ∉ (keys : gset EntityKey) →
  VerifyEntityCacheForExistence cache u = Ok tt →
  VerifyCapacityAndGetTableResourceChange p4_info u cache capacities batch = (Ok r, batch') →
  batch_inv role_name constraint_info translations cache capacities (done_ ++ [pi_update])
    (us ++ [set_resources_and_status r (length (replicate (length us) OkStatus)) u]).
Proof.
  intros Hcache [Hmade Hst Hacc Hnd Hfits] Hkeys Hbatch Hu Hin Hex Hcap.
  destruct (VerifyCapacity_batch _ _ _ _ _ _ Hcap) as [_ Hch].
  pose proof (PiUpdateToEntityUpdate_spec _ _ _ _ _ Hu) as [_ Hwt]. split.
  - apply Forall2_app; [done|]. constructor; [|done]. by exists u.
  - rewrite map_app, Hst, length_app, seq_app, length_replicate. done.
  - apply Forall_app. split; [done|]. constructor; [|done]. split; [done..| |].
    + intros m name. by eapply recorded_change.
    + intros p Hp. cbn in Hp. destruct (Hch p Hp) as (cap & -> & _). done.
  - rewrite map_app. apply NoDup_app. split; [done|]. split; [|apply NoDup_singleton].
    intros k Hk ->%list_elem_of_singleton. apply Hin. by apply Hkeys.
  - intros Hagree. apply fits_snoc; [auto|]. intros change cap Hr Hc m Hsize. cbn in Hr.
    destruct (Hch change Hr) as (cap' & Hc' & Hle). rewrite Hc in Hc'. injection Hc' as <-.
    specialize (Hle Hsize). rewrite (Hbatch _ _ (Hagree _ _ Hc)) in Hle. exact Hle.
Qed.

(** How the loop ends: at the end of the request, at a repeated key, or at an error. *)
Inductive loop_end (role_name : str) constraint_info translations (pis : list Update) us
  : list IrUpdateStatus → bool → nat → Prop :=
  | End_reached : loop_end role_name constraint_info translations pis us [] false (length pis)
  | Duplicate k pi_update u :
      pis !! k = Some pi_update →
      PiUpdateToEntityUpdate p4_info pi_update role_name (Some constraint_info) translations = Ok u →
      entity_key u ∈ map entity_key us →
      loop_end role_name constraint_info translations pis us [OkStatus] true k
  | Failed k c : (k < length pis)%nat →
      (∀ pi_update u, pis !! k = Some pi_update →
         PiUpdateToEntityUpdate p4_info pi_update role_name (Some constraint_info) translations = Ok u →
         entity_key u ∉ map entity_key us) →
      loop_end role_name constraint_info translations pis us [mkStatus (Some c) []] false k.

Lemma translate_loop_spec role_name constraint_info translations cache capacities done_ us keys batch
  pis out :
  cache_keyed cache →
  batch_inv role_name constraint_info translations cache capacities done_ us →
  (∀ k, k ∈ keys ↔ k ∈ map entity_key us) → batch_resources batch us →
  translate_loop pis role_name p4_info cache capacities constraint_info translations keys batch
    (mkTranslated (replicate (length us) OkStatus) us false) = Ok out →
  ∃ k tail, batch_inv role_name constraint_info translations cache capacities
      (take k (done_ ++ pis)) (entity_updates out) ∧
    statuses out = replicate (length (entity_updates out)) OkStatus ++ tail ∧
    loop_end role_name constraint_info translations (done_ ++ pis) (entity_updates out)
      tail (has_duplicates out) k.
Proof.
  intros Hcache. revert done_ us keys batch.
  induction pis as [|pi_update pis IH]; intros done_ us keys batch Hinv Hkeys Hbatch.
  { intros [= <-]. exists (length done_), []. rewrite !app_nil_r. cbn.
    split; [by rewrite take_ge by lia|]. split; [done|]. constructor. }
  assert (length done_ < length (done_ ++ pi_update :: pis))%nat as Hlt
    by (rewrite length_app; cbn; lia).
  assert ((done_ ++ pi_update :: pis) !! length done_ = Some pi_update) as Hat
    by (by rewrite list_lookup_middle).
  cbn [translate_loop statuses entity_updates].
  destruct (PiUpdateToEntityUpdate _ _ _ _ _) as [u|c|] eqn:Hu; [| |done].
  2: { intros [= <-]. exists (length done_), [mkStatus (Some c) []].
    rewrite take_app_length. split; [done|]. split; [done|]. constructor; [done|].
    intros pu u' Hpu' Hu'. rewrite Hat in Hpu'. injection Hpu' as <-. congruence. }
  destruct (bool_decide (entity_key u ∈ keys)) eqn:Hin; bool_prop.
  { intros [= <-]. exists (length done_), [OkStatus]. rewrite take_app_length.
    split; [done|]. split; [done|]. apply (Duplicate _ _ _ _ _ _ pi_update u); [done..|].
    by apply Hkeys. }
  assert (∀ pu u', (done_ ++ pi_update :: pis) !! length done_ = Some pu →
    PiUpdateToEntityUpdate p4_info pu role_name (Some constraint_info) translations = Ok u' →
    entity_key u' ∉ map entity_key us) as Hnew.
  { intros pu u' Hpu' Hu'. rewrite Hat in Hpu'. injection Hpu' as <-. rewrite Hu in Hu'.
    injection Hu' as <-. by rewrite <-Hkeys. }
  destruct (VerifyEntityCacheForExistence cache u) as [[]|c|] eqn:Hex; [| |done].
  2: { intros [= <-]. exists (length done_), [mkStatus (Some c) []].
    rewrite take_app_length. split; [done|]. split; [done|]. by constructor. }
  destruct (VerifyCapacityAndGetTableResourceChange _ _ _ _ _) as [[r|c|] batch'] eqn:Hcap; [| |done].
  2: { intros [= <-]. exists (length done_), [mkStatus (Some c) []].
    rewrite take_app_length. split; [done|]. split; [done|]. by constructor. }
  destruct (AddToBatch p4_info r batch') as [batch2|c|] eqn:Hadd; [| |done].
  2: { intros [= <-]. exists (length done_), [mkStatus (Some c) []].
    rewrite take_app_length. split; [done|]. split; [done|]. by constructor. }
  set (u' := set_resources_and_status r (length (replicate (length us) OkStatus)) u).
  intros Hloop. replace (done_ ++ pi_update :: pis) with ((done_ ++ [pi_update]) ++ pis)
    by (by rewrite <-app_assoc).
  apply (IH _ (us ++ [u']) ({[entity_key u]} ∪ keys) batch2).
  - by eapply batch_inv_snoc.
  - intros k. rewrite map_app. cbn. set_solver.
  - eapply AddToBatch_spec; [done| |done]. intros name profile Hp.
    rewrite (proj1 (VerifyCapacity_batch _ _ _ _ _ _ Hcap)). by apply Hbatch.
  - rewrite length_app, Nat.add_comm. cbn [length Nat.add replicate].
    rewrite replicate_cons_app. exact Hloop.
Qed.

Lemma batch_inv_nil role_name constraint_info translations cache capacities :
  batch_inv role_name constraint_info translations cache capacities [] [].
Proof.
  split; try by constructor. intros _ pre u suf change cap Heq. by destruct pre.
Qed.

(** The statuses after the accepted ones: errors, of which only the first is not [ABORTED]. *)
Definition error_tail (tail : list IrUpdateStatus) : Prop :=
  tail = [] ∨ ∃ c msg n, tail = mkStatus (Some c) msg :: replicate n Aborted.

Lemma PiEntityUpdatesToIr_spec request constraint_info translations cache capacities us sts :
  let role_name := SdnController.request_role (header request) in
  cache_keyed cache →
  PiEntityUpdatesToIr request p4_info cache capacities constraint_info translations = Ok (us, sts) →
  ∃ tail, sts = replicate (length us) OkStatus ++ tail ∧ error_tail tail ∧
    length sts = length (updates request) ∧
    batch_inv role_name constraint_info translations cache capacities
      (take (length us) (updates request)) us.
Proof.
  intros role_name Hcache. unfold PiEntityUpdatesToIr. intros (out & Hout & Heq)%bind_Ok_iff.
  apply (translate_loop_spec _ _ _ _ _ [] []) in Hout as (k & tail & Hinv & Hst & Hend);
    [|done|apply batch_inv_nil|cbn; set_solver|by intros ???]. cbn [app] in *.
  pose proof (Forall2_length _ _ _ (batch_made _ _ _ _ _ _ _ Hinv)) as Hlen.
  assert (k ≤ length (updates request))%nat as Hk.
  { inversion Hend; subst; [done| |lia]. apply Nat.lt_le_incl. by eapply lookup_lt_Some. }
  rewrite length_take, Nat.min_l in Hlen by done.
  destruct (has_duplicates out).
  - injection Heq as <- <-. exists (DuplicateKey :: replicate (length (updates request) - 1) Aborted).
    split; [done|]. split; [right; by eexists _, _, _|]. split; [|apply batch_inv_nil].
    cbn. rewrite length_replicate. inversion Hend as [|? ? ? Hat|]; subst.
    apply lookup_lt_Some in Hat. lia.
  - injection Heq as <- <-. rewrite Hst, <-app_assoc. eexists. split; [done|].
    rewrite Hlen in Hinv. rewrite !length_app, !length_replicate.
    inversion Hend as [|?|? c Hkl ?]; subst; cbn [length app].
    + replace (length (updates request) - _)%nat with 0%nat by (cbn [length]; lia). split; [by left|]. split; [lia | done].
    + split; [right; by eexists _, _, _|]. split; [lia | done].
Qed.

Lemma error_tail_errors tail i st : error_tail tail → tail !! i = Some st → code st ≠ None.
Proof.
  intros [->|(c & msg & n & ->)]; [done|]. destruct i as [|i]; cbn; [by intros [= <-]|].
  intros [-> _]%lookup_replicate. done.
Qed.

(** * The statuses of the response *)

Lemma mark_aborted_length b sts : length (mark_aborted b sts) = length sts.
Proof.
  revert b. induction sts as [|st sts IH]; intros b; [done|]. cbn [mark_aborted].
  destruct (bool_decide _), b; cbn; by rewrite IH.
Qed.

Lemma mark_aborted_ok b sts i : ok_at (mark_aborted b sts) i ↔ ok_at sts i.
Proof.
  unfold ok_at. revert b i. induction sts as [|st sts IH]; intros b i; [done|]. cbn [mark_aborted].
  destruct (bool_decide (code st = None)) eqn:Hc; bool_prop; [|destruct b]; cbn [negb];
    (destruct i as [|i]; cbn; [|apply IH]); [tauto| |tauto].
  split; intros (st' & [= <-] & ?); [discriminate | done].
Qed.

(** After a first failure everything is OK or aborted. *)
Lemma mark_aborted_rest sts i st :
  mark_aborted true sts !! i = Some st → code st = None ∨ code st = Some kAborted.
Proof.
  revert i. induction sts as [|st' sts IH]; intros i; [done|]. cbn [mark_aborted].
  destruct (bool_decide (code st' = None)) eqn:Hc; bool_prop; cbn [negb];
    (destruct i as [|i]; cbn; [intros [= <-]; auto | apply IH]).
Qed.

Lemma mark_aborted_first sts :
  (∀ i st, mark_aborted false sts !! i = Some st → code st = None) ∨
  ∃ i st, mark_aborted false sts !! i = Some st ∧ sts !! i = Some st ∧ code st ≠ None ∧
    (∀ j, (j < i)%nat → ok_at (mark_aborted false sts) j) ∧
    (∀ j st', (i < j)%nat → mark_aborted false sts !! j = Some st' →
       code st' = None ∨ code st' = Some kAborted).
Proof.
  induction sts as [|st sts IH]; [by left|]. cbn [mark_aborted].
  destruct (bool_decide (code st = None)) eqn:Hc; bool_prop; cbn [negb].
  - destruct IH as [IH|(i & st' & H1 & H2 & H3 & H4 & H5)].
    + left. intros [|i] st'; cbn; [by intros [= <-] | apply IH].
    + right. exists (S i), st'. split_and!; try done.
      * intros [|j] Hj; [by exists st | apply H4; lia].
      * intros [|j] st'' Hj; [lia | apply H5; lia].
  - right. exists 0%nat, st. split_and!; try done; [intros j Hj; lia|].
    intros [|j] st' Hj; [lia | apply mark_aborted_rest].
Qed.




Lemma mark_aborted_clean b sts : clean sts → clean (mark_aborted b sts).
Proof.
  revert b. induction sts as [|st sts IH]; intros b; [done|]. intros [Hst Hc]%Forall_cons.
  cbn [mark_aborted]. destruct (bool_decide _), b; cbn [negb]; constructor; try done; by apply IH.
Qed.

Lemma pack_errors_spec sts d :
  pack_errors sts = Ok d → d = map (λ st, (code st, message st)) sts.
Proof.
  revert d. induction sts as [|st sts IH]; intros d; [by intros [= <-]|]. cbn [pack_errors map].
  intros (? & _ & (? & _ & (rest & Hr & [= <-])%bind_Ok_iff)%bind_Ok_iff)%bind_Ok_iff.
  by rewrite (IH _ Hr).
Qed.

Lemma IrWriteRpcStatusToGrpcStatus_no_die sts : no_die (IrWriteRpcStatusToGrpcStatus sts).
Proof.
  unfold IrWriteRpcStatusToGrpcStatus, IrWriteResponseToGrpcStatus.
  assert (no_die (pack_errors sts)) as Hp; [|no_die].
  induction sts as [|st sts IH]; cbn [pack_errors]; unfold IrUtils.ValidateGenericUpdateStatus, IrUtils.IsGoogleRpcCode; no_die.
Qed.

(** The two forms of a reported status. *)
Lemma reported_status sts g :
  clean sts → IrWriteRpcStatusToGrpcStatus sts = Ok g →
  (g = mkGrpcStatus None [] ∧ ∀ i, (i < length sts)%nat → ok_at sts i) ∨
  (g = mkGrpcStatus (Some kUnknown) (map (λ st, (code st, message st)) sts) ∧
   ∃ i st, sts !! i = Some st ∧ code st ≠ None).
Proof.
  intros Hc. unfold IrWriteRpcStatusToGrpcStatus, IrWriteResponseToGrpcStatus.
  destruct (forallb _ sts) eqn:H1; cbn [andb].
  - rewrite forallb_forall in H1.
    assert (forallb (λ st, bool_decide (message st = [])) sts = true) as ->.
    { rewrite forallb_forall. intros st Hin. rewrite bool_decide_eq_true.
      unfold clean in Hc. rewrite Forall_forall in Hc. apply Hc; [by apply list_elem_of_In|].
      by apply (bool_decide_eq_true _), H1. }
    intros [= <-]. left. split; [done|]. intros i [st Hst]%lookup_lt_is_Some_2. exists st.
    split; [done|]. apply (bool_decide_eq_true _), H1. apply list_elem_of_In. by eapply list_elem_of_lookup_2.
  - intros (d & Hd & [= <-])%bind_Ok_iff. apply pack_errors_spec in Hd as ->. right. split; [done|].
    clear Hc. induction sts as [|st sts IH]; [done|]. cbn [forallb] in H1.
    destruct (bool_decide (code st = None)) eqn:Hst; bool_prop; [|by exists 0%nat, st].
    destruct (IH H1) as (i & st' & ?). by exists (S i), st'.
Qed.

(** * Write *)

Context `{!AppDbLayerLaws W}.
Implicit Types (s : Server C T W) (request : WriteRequest).

Abbreviation role_of request := (SdnController.request_role (header request)).

(** [Write] went through to a report: the accepted updates [us], the statuses [sts] of the
    response before it is packed, and the result. *)
Record reported request s (us : list EntityUpdate) (sts : list IrUpdateStatus) (r : result GrpcStatus)
  s' : Prop := {
  reported_batch : batch_inv (role_of request) (p4_constraint_info_ s) (translations_ s)
    (entity_cache_ s) (capacity_by_action_profile_name_ s)
    (take (length us) (updates request)) us;
  reported_length : length sts = length (updates request);
  reported_fits_request : (length us ≤ length (updates request))%nat;
  reported_errors i : (length us ≤ i)%nat → ¬ ok_at sts i;
  reported_clean : clean sts;
  reported_result : ∃ g, r = Ok g ∧ IrWriteRpcStatusToGrpcStatus sts = Ok g;
  reported_cache : entity_cache_ s' =
    apply_updates (List.filter (acknowledged sts) us) (entity_cache_ s);
  reported_keyed : cache_keyed (entity_cache_ s');
  reported_utilization : utilization (entity_cache_ s') (capacity_by_action_profile_name_ s');
  reported_profiles : same_profiles (capacity_by_action_profile_name_ s)
    (capacity_by_action_profile_name_ s');
  reported_performed : ∃ mem b mem' w', PerformUpdates (app_db_ s)
      (map (λ u, (app_db_update u, status u)) us) mem = (Ok b, mem', w') ∧
    sts = mark_aborted false mem' ∧ ∀ i, (i < length us)%nat → ok_at mem i;
}.

(** ... or it did not: nothing was changed but the application database. *)
Definition early_abort request s : Prop :=
  match SdnController.AllowWriteRequest (header request) (controller_manager_ s) with
  | None | Some (Die, _) => True
  | _ => PiEntityUpdatesToIr request p4_info (entity_cache_ s) (capacity_by_action_profile_name_ s)
           (p4_constraint_info_ s) (translations_ s) = Die
  end.

Record unreported request s (r : result GrpcStatus) s' : Prop := {
  unreported_cache : entity_cache_ s' = entity_cache_ s;
  unreported_capacities : capacity_by_action_profile_name_ s' = capacity_by_action_profile_name_ s;
  unreported_result st : r = Ok st → grpc_code st ≠ None ∧ grpc_details st = [];
  unreported_abort : r = Die → early_abort request s;
}.

Lemma batch_cells role_name ci tr cache capacities pis us :
  batch_inv role_name ci tr cache capacities pis us →
  map snd (map (λ u, (app_db_update u, status u)) us) = seq 0 (length us).
Proof. intros Hinv. rewrite map_map. apply (batch_status _ _ _ _ _ _ _ Hinv). Qed.

(** What is handed to the application database: the accepted updates have OK statuses, in front. *)
Lemma PiEntityUpdatesToIr_batch request ci tr cache capacities us mem :
  cache_keyed cache → PiEntityUpdatesToIr request p4_info cache capacities ci tr = Ok (us, mem) →
  length mem = length (updates request) ∧ (length us ≤ length mem)%nat ∧
  batch_inv (role_of request) ci tr cache capacities (take (length us) (updates request)) us ∧
  (∀ i, (i < length us)%nat → ok_at mem i) ∧ (∀ i, (length us ≤ i)%nat → ¬ ok_at mem i) ∧ clean mem.
Proof.
  intros Hk (tail & Hsts & Htail & Hlen & Hinv)%PiEntityUpdatesToIr_spec; [|done].
  split; [done|]. split; [rewrite Hsts, length_app, length_replicate; lia|]. split; [done|]. split; [|split].
  - intros i Hi. exists OkStatus. split; [|done]. rewrite Hsts, lookup_app_l;
      [apply lookup_replicate; split; [done|lia] | rewrite length_replicate; lia].
  - intros i Hi (st & Hst & Hc). rewrite Hsts, lookup_app_r in Hst by (rewrite length_replicate; lia).
    by apply (error_tail_errors _ _ _ Htail Hst).
  - rewrite Hsts. apply Forall_app. split; [by apply Forall_replicate|].
    apply Forall_lookup_2. intros i st Hi Hc. by destruct (error_tail_errors _ _ _ Htail Hi).
Qed.

(** ... and what comes back. *)
Lemma batch_answered role_name ci tr cache capacities pis us mem w rp mem' w' :
  batch_inv role_name ci tr cache capacities pis us → (∀ i, (i < length us)%nat → ok_at mem i) → clean mem →
  PerformUpdates w (map (λ u, (app_db_update u, status u)) us) mem = (rp, mem', w') →
  only_changes (seq 0 (length us)) mem mem' ∧ clean mem' ∧ rp ≠ Die.
Proof.
  intros Hinv Hok Hcl Hperf. pose proof (batch_cells _ _ _ _ _ _ _ Hinv) as Hcells. rewrite <-Hcells.
  eapply perform_laws; [..|exact Hperf].
  - rewrite Hcells. apply NoDup_seq.
  - intros u i Hin. apply Hok. assert (i ∈ seq 0 (length us)) as Hi
      by (rewrite <-Hcells; by apply (list_elem_of_fmap_2 snd _ (u, i))).
    apply elem_of_seq in Hi. lia.
  - done.
Qed.

Lemma batch_in_range role_name ci tr cache capacities pis us n :
  batch_inv role_name ci tr cache capacities pis us → (length us ≤ n)%nat →
  Forall (λ u, (status u < n)%nat) us.
Proof.
  intros Hinv Hn. apply Forall_forall. intros u Hin.
  assert (status u ∈ map status us) as Hst by (by apply list_elem_of_fmap_2).
  rewrite (batch_status _ _ _ _ _ _ _ Hinv) in Hst. apply elem_of_seq in Hst. lia.
Qed.

Lemma FinishWrite_spec request s us mem r s' :
  cache_keyed (entity_cache_ s) → utilization (entity_cache_ s) (capacity_by_action_profile_name_ s) →
  batch_inv (role_of request) (p4_constraint_info_ s) (translations_ s)
    (entity_cache_ s) (capacity_by_action_profile_name_ s)
    (take (length us) (updates request)) us →
  (length us ≤ length mem)%nat →
  FinishWrite us mem s = (r, s') →
  ir_p4info_ s' = ir_p4info_ s ∧
  (unreported request s r s' ∨
   (∃ g, r = Ok g ∧ IrWriteRpcStatusToGrpcStatus (mark_aborted false mem) = Ok g) ∧
   entity_cache_ s' =
     apply_updates (List.filter (acknowledged (mark_aborted false mem)) us) (entity_cache_ s) ∧
   cache_keyed (entity_cache_ s') ∧
   utilization (entity_cache_ s') (capacity_by_action_profile_name_ s') ∧
   same_profiles (capacity_by_action_profile_name_ s) (capacity_by_action_profile_name_ s')).
Proof.
  intros Hk Hu Hinv Hlen. unfold FinishWrite.
  destruct (IrWriteRpcStatusToGrpcStatus (mark_aborted false mem)) as [g|c|] eqn:Hg.
  2: { intros [= <- <-]. split; [done|]. left. split; [done|done| |done]. by intros st [= <-]. }
  2: { by apply IrWriteRpcStatusToGrpcStatus_no_die in Hg. }
  destruct (UpdateCache_spec (role_of request) us (mark_aborted false mem) (entity_cache_ s)
    (capacity_by_action_profile_name_ s)) as (caps' & -> & Hu' & Hk' & Hs'); [..|done|done|].
  - apply (batch_keys _ _ _ _ _ _ _ Hinv).
  - apply (batch_accepted _ _ _ _ _ _ _ Hinv).
  - apply (batch_in_range _ _ _ _ _ _ _ _ Hinv). by rewrite mark_aborted_length.
  - intros [= <- <-]. split; [done|]. right. split; [by exists g|]. done.
Qed.

Lemma Write_spec request s r s' :
  ir_p4info_ s = Some p4_info → cache_keyed (entity_cache_ s) →
  utilization (entity_cache_ s) (capacity_by_action_profile_name_ s) →
  Write request s = (r, s') →
  ir_p4info_ s' = Some p4_info ∧
  (unreported request s r s' ∨ ∃ us sts, reported request s us sts r s').
Proof.
  intros Hp4 Hk Hu. unfold Write. rewrite Hp4.
  destruct (SdnController.AllowWriteRequest _ _) as [[[[]|c|] cm]|] eqn:Hallow;
    [|intros [= <- <-]; split; [done|]; left; split; [done..| |]; unfold early_abort; rewrite ?Hallow;
      by try intros st [= <-]..].
  destruct (PiEntityUpdatesToIr _ _ _ _ _ _) as [[us sts0]|c|] eqn:Hir;
    [|intros [= <- <-]; split; [done|]; left; split; [done..| |]; unfold early_abort; rewrite ?Hallow;
      by try intros st [= <-]..].
  destruct (PiEntityUpdatesToIr_batch _ _ _ _ _ _ _ Hk Hir) as (Hlen & Hle & Hinv & Hok0 & Herr & Hcl).
  destruct (PerformUpdates _ _ _) as [[rp mem'] w'] eqn:Hperf.
  destruct (batch_answered _ _ _ _ _ _ _ _ _ _ _ _ Hinv Hok0 Hcl Hperf) as (Honly & Hclean & Hdie).
  destruct rp as [b|c|]; [|intros [= <- <-]; split; [done|]; left; split; [done..| |];
    by try intros st [= <-]|done].
  intros Hfin. apply (FinishWrite_spec request) in Hfin as [Hp4' Hfin]; [|done..|by rewrite (proj1 Honly)].
  split; [by rewrite Hp4'|]. destruct Hfin as [[? ? ? Habort]|((g & -> & Hg) & Hc' & Hk' & Hu' & Hs')].
  { left. by split. }
  right. exists us, (mark_aborted false mem'). split; try done.
  - rewrite mark_aborted_length, (proj1 Honly). done.
  - by rewrite <-Hlen.
  - intros i Hi (st & Hst & Hc)%mark_aborted_ok. rewrite (proj2 Honly) in Hst
      by (rewrite elem_of_seq; lia).
    apply (Herr i Hi). by exists st.
  - by apply mark_aborted_clean.
  - by exists g.
  - by exists sts0, b, mem', w'.
Qed.

(** * The guarantees *)

(** The invariant of the server's bookkeeping. *)
Definition consistent s : Prop :=
  ir_p4info_ s = Some p4_info ∧ cache_keyed (entity_cache_ s) ∧
  utilization (entity_cache_ s) (capacity_by_action_profile_name_ s) ∧
  profiles_agree (capacity_by_action_profile_name_ s).

Lemma profiles_agree_same capacities capacities' :
  same_profiles capacities capacities' → profiles_agree capacities → profiles_agree capacities'.
Proof.
  intros Hs Ha name cap Hcap. specialize (Hs name). rewrite Hcap in Hs. cbn in Hs.
  destruct (capacities !! name) as [cap0|] eqn:Hc; [|done]. injection Hs as ->. by apply Ha.
Qed.

(** C5.  Bookkeeping invariant of [Write].  If every cached entity is stored under its key, the
    counters of every action profile are the sums of what the cached entities use (weights and
    members) and the capacity records are those of the pipeline's profiles, then the same
    holds after any write request, whatever the OrchAgent answered and whether the request
    succeeded, failed in part, was rejected, or put the server in critical state. *)
Theorem write_preserves_consistency request s :
  consistent s → consistent (snd (Write request s)).
Proof.
  intros (Hp4 & Hk & Hu & Ha). destruct (Write request s) as [r s'] eqn:Hw.
  apply Write_spec in Hw as (Hp4' & [[Hc Hcap _]|(us & sts & Hr)]); [..|done|done|done]; cbn [snd].
  - unfold consistent. by rewrite Hc, Hcap.
  - split; [done|]. split; [by eapply reported_keyed|]. split; [by eapply reported_utilization|].
    eapply profiles_agree_same; [by eapply reported_profiles | done].
Qed.

(** Update [i] was reported as successful. *)
Definition acked (st : GrpcStatus) (n i : nat) : Prop :=
  (grpc_code st = None ∧ (i < n)%nat) ∨ ∃ msg, grpc_details st !! i = Some (None, msg).

Lemma unreported_acked request s r s' st n i : unreported request s r s' → r = Ok st → ¬ acked st n i.
Proof.
  intros Hun Hr. destruct (unreported_result _ _ _ _ Hun _ Hr) as [Hc Hd].
  intros [[? _]|[msg Hm]]; [done|]. by rewrite Hd in Hm.
Qed.

Lemma reported_acked request s us sts st s' i :
  reported request s us sts (Ok st) s' →
  acked st (length (updates request)) i ↔ ok_at sts i.
Proof.
  intros Hr. destruct (reported_result _ _ _ _ _ _ Hr) as (g & [= <-] & Hg).
  rewrite <-(reported_length _ _ _ _ _ _ Hr).
  destruct (reported_status _ _ (reported_clean _ _ _ _ _ _ Hr) Hg) as [[-> Hall]|[-> _]]; unfold acked;
    cbn [grpc_code grpc_details].
  - split; [intros [[_ Hi]|[msg [=]]]; auto | intros (st' & Hi & _)]. left. split; [done|].
    by eapply lookup_lt_Some.
  - rewrite list_lookup_fmap. unfold ok_at.
    split; [intros [[[=] _]|[msg Hm]] | intros (st' & Hst' & Hc)].
    + destruct (sts !! i) as [st'|]; [|done]. exists st'. cbn in Hm. split; [done|congruence].
    + right. exists (message st'). rewrite Hst'. cbn. by rewrite Hc.
Qed.

(** The accepted updates are at the positions of the request's. *)
Lemma reported_update request s us sts r s' i :
  reported request s us sts r s' → ok_at sts i →
  ∃ u pi_update, us !! i = Some u ∧ updates request !! i = Some pi_update ∧
    made_from (role_of request) (p4_constraint_info_ s) (translations_ s) pi_update u ∧
    status u = i.
Proof.
  intros Hr Hok. pose proof (reported_batch _ _ _ _ _ _ Hr) as Hb.
  assert (i < length us)%nat as Hi.
  { destruct (decide (length us ≤ i)%nat) as [Hle|]; [|lia].
    by destruct (reported_errors _ _ _ _ _ _ Hr i Hle). }
  destruct (lookup_lt_is_Some_2 us i Hi) as [u Hu]. exists u.
  destruct (Forall2_lookup_r _ _ _ _ _ (batch_made _ _ _ _ _ _ _ Hb) Hu) as (pu & Hpu & Hmade).
  apply lookup_take_Some in Hpu as [Hpu _]. exists pu. split_and!; [done..|].
  pose proof (batch_status _ _ _ _ _ _ _ Hb) as Hst.
  apply (f_equal (λ l, l !! i)) in Hst. rewrite list_lookup_fmap, Hu, lookup_seq_lt in Hst by done.
  by injection Hst.
Qed.

(** With distinct keys the order of application does not matter. *)
Lemma apply_updates_lookup us cache k :
  NoDup (map entity_key us) →
  (∀ u, u ∈ us → entity_key u = k → apply_updates us cache !! k = apply_update u cache !! k) ∧
  ((∀ u, u ∈ us → entity_key u ≠ k) → apply_updates us cache !! k = cache !! k).
Proof.
  revert cache. induction us as [|u us IH]; intros cache Hnd.
  { split; [by intros u ?%elem_of_nil | done]. }
  cbn [map] in Hnd. apply NoDup_cons in Hnd as [Hu Hnd].
  change (apply_updates (u :: us) cache) with (apply_updates us (apply_update u cache)).
  destruct (IH (apply_update u cache) Hnd) as [H1 H2]. split.
  - intros u' [->|Hin]%elem_of_cons Hk.
    + rewrite H2; [done|]. intros u' Hin Heq. apply Hu. rewrite Hk, <-Heq. by apply list_elem_of_fmap_2.
    + rewrite (H1 u' Hin Hk). assert (k ≠ entity_key u) as Hne
        by (intros ->; apply Hu; rewrite <-Hk; by apply list_elem_of_fmap_2).
      unfold apply_update at 1 3. destruct (type_uses_new (update_type u')); rewrite Hk;
        [by rewrite !lookup_insert_eq | by rewrite !lookup_delete_eq].
  - intros Hall. rewrite H2 by (intros; apply Hall; by right). apply apply_update_ne.
    intros ->. by apply (Hall u); [left|].
Qed.

Lemma acknowledged_ok sts u : acknowledged sts u = true ↔ ok_at sts (status u).
Proof.
  unfold acknowledged, ok_at. destruct (sts !! status u) as [st|]; [rewrite bool_decide_eq_true|];
    naive_solver.
Qed.

Lemma filter_acked sts us u :
  u ∈ List.filter (acknowledged sts) us ↔ u ∈ us ∧ ok_at sts (status u).
Proof. by rewrite list_elem_of_In, filter_In, <-list_elem_of_In, acknowledged_ok. Qed.

Lemma filter_keys sts us :
  NoDup (map entity_key us) → NoDup (map entity_key (List.filter (acknowledged sts) us)).
Proof.
  induction us as [|u us IH]; intros Hnd; [constructor|]. cbn [map] in Hnd.
  apply NoDup_cons in Hnd as [Hu Hnd]. cbn [List.filter].
  destruct (acknowledged sts u); [|by apply IH]. cbn [map]. apply NoDup_cons. split; [|by apply IH].
  intros (u' & Heq & [Hin _]%filter_acked)%list_elem_of_fmap. apply Hu. rewrite Heq.
  by apply list_elem_of_fmap_2.
Qed.

Lemma reported_acked_member request s us sts st s' u :
  reported request s us sts (Ok st) s' → u ∈ List.filter (acknowledged sts) us →
  ∃ i pi_update, acked st (length (updates request)) i ∧ updates request !! i = Some pi_update ∧
    made_from (role_of request) (p4_constraint_info_ s) (translations_ s) pi_update u.
Proof.
  intros Hr [Hin Hok]%filter_acked.
  destruct (reported_update _ _ _ _ _ _ _ Hr Hok) as (u' & pu & Hu' & Hpu & Hmade & Hst).
  exists (status u), pu. split; [by eapply reported_acked|]. split; [done|].
  pose proof (batch_status _ _ _ _ _ _ _ (reported_batch _ _ _ _ _ _ Hr)) as Hseq.
  apply list_elem_of_lookup in Hin as [j Hj]. apply (f_equal (λ l, l !! j)) in Hseq.
  rewrite list_lookup_fmap, Hj, lookup_seq_lt in Hseq by (by eapply lookup_lt_Some).
  injection Hseq as Hseq. cbn in Hseq. rewrite Hseq in Hu'. rewrite Hj in Hu'. by injection Hu' as ->.
Qed.

Lemma apply_accepted role_name cache capacities u :
  accepted role_name cache capacities u →
  apply_update u cache !! entity_key u =
    if bool_decide (update_type u = DELETE) then None else Some (pi_entity u).
Proof.
  intros [_ Hex%VerifyExistence_Ok _ _]. unfold apply_update.
  destruct (update_type u); cbn; [apply lookup_insert_eq | apply lookup_insert_eq
    | apply lookup_delete_eq | done].
Qed.

(** C6.  The entity cache after a write is exactly what the response says.  For every update reported
    as successful the cache holds, under the update's key, the normalised entity (INSERT and
    MODIFY) or nothing (DELETE); every key that no successful update is about is as before.  In
    particular a rejected request, and one that ends in critical state, changes nothing. *)
Theorem write_cache_reflects_response request s st s' :
  consistent s → Write request s = (Ok st, s') →
  let translate pi_update := PiUpdateToEntityUpdate p4_info pi_update (role_of request)
                               (Some (p4_constraint_info_ s)) (translations_ s) in
  let acked := acked st (length (updates request)) in
  (∀ i, acked i → ∃ pi_update u, updates request !! i = Some pi_update ∧
     translate pi_update = Ok u ∧
     entity_cache_ s' !! entity_key u =
       if bool_decide (type_ pi_update = DELETE) then None else Some (pi_entity u)) ∧
  (∀ k, (∀ i pi_update u, acked i → updates request !! i = Some pi_update →
           translate pi_update = Ok u → entity_key u ≠ k) →
     entity_cache_ s' !! k = entity_cache_ s !! k).
Proof.
  intros (Hp4 & Hk & Hu & _) Hw translate acked0.
  apply Write_spec in Hw as (_ & [Hun|(us & sts & Hr)]); [..|done|done|done].
  { split; [intros i Hi; by destruct (unreported_acked _ _ _ _ _ _ _ Hun eq_refl Hi)|].
    intros k _. by rewrite (unreported_cache _ _ _ _ Hun). }
  pose proof (reported_batch _ _ _ _ _ _ Hr) as Hb.
  rewrite (reported_cache _ _ _ _ _ _ Hr).
  pose proof (filter_keys sts us (batch_keys _ _ _ _ _ _ _ Hb)) as Hnd. split.
  - intros i Hi. apply (reported_acked _ _ _ _ _ _ _ Hr) in Hi.
    destruct (reported_update _ _ _ _ _ _ _ Hr Hi) as (u & pu & Hus & Hpu & (u0 & Hu0 & Heq) & Hst).
    exists pu, u0. split; [done|]. split; [done|].
    assert (u ∈ us) as Hin by (by eapply list_elem_of_lookup_2).
    assert (entity_key u = entity_key u0 ∧ update_type u = update_type u0 ∧ pi_entity u = pi_entity u0)
      as (Hkey & Hty & Hpi) by (by rewrite Heq).
    apply PiUpdateToEntityUpdate_spec in Hu0 as [Hty0 _].
    rewrite (proj1 (apply_updates_lookup _ (entity_cache_ s) (entity_key u0) Hnd) u);
      [|by apply filter_acked; rewrite Hst | done].
    rewrite <-Hkey, <-Hty0, <-Hty, <-Hpi. eapply apply_accepted.
    pose proof (batch_accepted _ _ _ _ _ _ _ Hb) as Hacc. rewrite Forall_forall in Hacc. by apply Hacc.
  - intros k Hno. apply apply_updates_lookup; [done|]. intros u Hin.
    destruct (reported_acked_member _ _ _ _ _ _ _ Hr Hin) as (i & pu & Hi & Hpu & (u0 & Hu0 & Heq)).
    assert (entity_key u = entity_key u0) as -> by (by rewrite Heq). by apply (Hno i pu).
Qed.

(** C30.  Role separation.  A request made under a role changes the cache only under keys of tables
    that belong to that role (and of packet replication entries, which have no role); table
    entries of every other role, and of tables the pipeline does not define, are untouched. *)
Theorem write_role_isolation request s k :
  consistent s → role_of request ≠ [] →
  entity_cache_ (snd (Write request s)) !! k ≠ entity_cache_ s !! k →
  match k with
  | KeyTableEntry key => ∃ table_def,
      tables_by_id p4_info !! table_id_ key = Some table_def ∧ role table_def = role_of request
  | KeyPacketReplication _ => True
  end.
Proof.
  intros (Hp4 & Hk & Hu & _) Hrole. destruct (Write request s) as [r s'] eqn:Hw. cbn [snd].
  apply Write_spec in Hw as (_ & [Hun|(us & sts & Hr)]); [..|done|done|done].
  { by rewrite (unreported_cache _ _ _ _ Hun). }
  pose proof (reported_batch _ _ _ _ _ _ Hr) as Hb. rewrite (reported_cache _ _ _ _ _ _ Hr).
  pose proof (filter_keys sts us (batch_keys _ _ _ _ _ _ _ Hb)) as Hnd. intros Hne.
  destruct (decide (k ∈ map entity_key (List.filter (acknowledged sts) us))) as [Hin|Hno].
  2: { destruct Hne. apply apply_updates_lookup; [done|]. intros u Hin Heq. apply Hno.
       rewrite <-Heq. by apply list_elem_of_fmap_2. }
  apply list_elem_of_fmap in Hin as (u & -> & [Hin _]%filter_acked).
  pose proof (batch_accepted _ _ _ _ _ _ _ Hb) as Hacc. rewrite Forall_forall in Hacc.
  destruct (accepted_translated _ _ _ _ (Hacc u Hin)) as [Hkey Hwt].
  destruct (entry u) as [te| |].
  - destruct Hwt as (t & def & Hpi & _ & Hid & _ & Hro). rewrite Hpi in Hkey. injection Hkey as <-.
    cbn. exists def. auto.
  - destruct (pi_entity u) as [t| |]; [by destruct (Hwt t)| |done]. by injection Hkey as <-.
  - destruct (pi_entity u) as [t| |]; [by destruct (Hwt t)| |done]. by injection Hkey as <-.
Qed.




(** Duplicate keys.  When two updates of a request are about the same entity (their translations
    have equal keys), the batch is abandoned: nothing is passed to the application database and
    the response is one invalid-argument status followed by [ABORTED] ones; unless an update
    before the second of the two already failed, which ends the batch there. *)
Theorem duplicate_keys_abandon_batch request constraint_info translations cache capacities us sts i j
  pu_i pu_j u_i u_j :
  let translate pi_update := PiUpdateToEntityUpdate p4_info pi_update (role_of request)
                               (Some constraint_info) translations in
  cache_keyed cache →
  PiEntityUpdatesToIr request p4_info cache capacities constraint_info translations = Ok (us, sts) →
  (i < j)%nat → updates request !! i = Some pu_i → updates request !! j = Some pu_j →
  translate pu_i = Ok u_i → translate pu_j = Ok u_j → entity_key u_i = entity_key u_j →
  (us = [] ∧ sts = DuplicateKey :: replicate (length (updates request) - 1) Aborted) ∨
  ((length us < j)%nat ∧ ∃ c, sts !! length us = Some (mkStatus (Some c) [])).
Proof.
  intros translate Hcache Hpi Hij Hi Hj Hui Huj Heq. unfold PiEntityUpdatesToIr in Hpi.
  apply bind_Ok_iff in Hpi as (out & Hout & Hpi).
  apply (translate_loop_spec _ _ _ _ _ [] []) in Hout as (k & tail & Hinv & Hst & Hend);
    [|done|apply batch_inv_nil|cbn; set_solver|by intros ???]. cbn [app] in *.
  pose proof (batch_made _ _ _ _ _ _ _ Hinv) as Hmade.
  assert (∀ n pu u, (n < k)%nat → updates request !! n = Some pu → translate pu = Ok u →
    ∃ u', entity_updates out !! n = Some u' ∧ entity_key u' = entity_key u) as Hat.
  { intros n pu u Hn Hpu Hu. assert (take k (updates request) !! n = Some pu) as Hl
      by (by rewrite lookup_take_lt).
    destruct (Forall2_lookup_l _ _ _ _ _ Hmade Hl) as (u' & Hu' & (u0 & Hu0 & Hset)).
    exists u'. split; [done|]. unfold translate in Hu. rewrite Hu in Hu0. injection Hu0 as <-.
    by rewrite Hset. }
  assert (k ≤ j)%nat as Hkj.
  { destruct (decide (k ≤ j)%nat) as [|Hgt]; [done|]. exfalso.
    destruct (Hat i pu_i u_i ltac:(lia) Hi Hui) as (u1 & Hu1 & Hk1).
    destruct (Hat j pu_j u_j ltac:(lia) Hj Huj) as (u2 & Hu2 & Hk2).
    enough (i = j) by lia. apply (NoDup_lookup _ i j (entity_key u1) (batch_keys _ _ _ _ _ _ _ Hinv)).
    - by rewrite list_lookup_fmap, Hu1.
    - rewrite list_lookup_fmap, Hu2. cbn. congruence. }
  pose proof (lookup_lt_Some _ _ _ Hj) as Hjlen.
  inversion Hend as [Htail Hdup|? ? ? ? ? ? Htail Hdup|? c Hklt Hnew Htail Hdup]; subst k0 || subst.
  - lia.
  - left. rewrite <-Hdup in Hpi. by injection Hpi as <- <-.
  - right. rewrite <-Hdup in Hpi. injection Hpi as <- <-.
    pose proof (Forall2_length _ _ _ Hmade) as Hlen. rewrite length_take, Nat.min_l in Hlen by lia.
    assert (k ≠ j) as Hne.
    { intros ->. apply (Hnew pu_j u_j Hj Huj).
      destruct (Hat i pu_i u_i Hij Hi Hui) as (u1 & Hu1 & Hk1). rewrite <-Heq, <-Hk1.
      apply list_elem_of_fmap_2. by eapply list_elem_of_lookup_2. }
    split; [lia|]. exists c. rewrite Hst, <-Htail, <-app_assoc, lookup_app_r by
      (by rewrite length_replicate). by rewrite length_replicate, Nat.sub_diag.
Qed.

Lemma apply_updates_usage role_name us cache capacities m name :
  NoDup (map entity_key us) → Forall (accepted role_name cache capacities) us →
  map_sum (usage m p4_info name) (apply_updates us cache) =
    map_sum (usage m p4_info name) cache + batch_share m name us.
Proof.
  revert cache. induction us as [|u us IH]; intros cache Hnd Hacc; [unfold batch_share; cbn; lia|].
  cbn [map] in Hnd. apply NoDup_cons in Hnd as [Hu Hnd]. apply Forall_cons in Hacc as [Ha Hacc].
  change (apply_updates (u :: us) cache) with (apply_updates us (apply_update u cache)).
  rewrite IH; [|done|].
  - rewrite apply_update_usage, <-(accepted_change _ _ _ _ Ha). unfold batch_share.
    cbn [map foldr]. lia.
  - rewrite Forall_forall in *. intros u' Hin.
    eapply accepted_frame; [by apply Hacc | | by intros ?]. apply apply_update_ne. intros Heq.
    apply Hu. rewrite <-Heq. by apply list_elem_of_fmap_2.
Qed.

Lemma fits_prefix capacities us name cap p :
  fits capacities us → capacities !! name = Some cap → profile_size (capacity_profile cap) ≠ 0 →
  let m := semantics (capacity_profile cap) in
  in_use m cap ≤ profile_size (capacity_profile cap) →
  in_use m cap + batch_share m name (take p us) ≤ profile_size (capacity_profile cap).
Proof.
  intros Hf Hcap Hsize m Hle. induction p as [|p IH]; [change (in_use m cap + 0 ≤ profile_size (capacity_profile cap)); by rewrite Z.add_0_r|].
  destruct (us !! p) as [u|] eqn:Hu.
  - rewrite (take_S_r _ _ _ Hu).
    destruct (action_profile (resource_utilization_change u)) as [change|] eqn:Hch.
    + destruct (decide (resources_profile_name change = name)) as [<-|Hne].
      * by apply (Hf (take p us) u (drop (S p) us) change cap); [by rewrite take_drop_middle|..].
      * rewrite batch_share_app, batch_share_one. unfold share. rewrite Hch.
        rewrite bool_decide_eq_false_2 by done. lia.
    + rewrite batch_share_app, batch_share_one. unfold share. rewrite Hch. lia.
  - apply lookup_ge_None in Hu.
    rewrite (take_ge us p) in IH by exact Hu. by rewrite (take_ge us (S p)) by (by apply Nat.le_le_succ_r).
Qed.

(** C10.  Capacity.  When the updates that the response reports as successful are a prefix of the request (which is
    what a database that stops at its first failure gives), the write does not take a profile beyond its size: if
    the use of the profile, measured in members or in weight as its semantics demands, was within the size
    before the request, it is after it; a size of 0 means unlimited.  A request without a response changes no
    profile beyond its size either.  No profile appears or disappears. *)
Theorem write_respects_capacity request s name cap' :
  consistent s →
  (∀ st i j, fst (Write request s) = Ok st → (i < j)%nat →
     acked st (length (updates request)) j → acked st (length (updates request)) i) →
  capacity_by_action_profile_name_ (snd (Write request s)) !! name = Some cap' →
  ∃ cap, capacity_by_action_profile_name_ s !! name = Some cap ∧
    capacity_profile cap' = capacity_profile cap ∧
    let m := semantics (capacity_profile cap) in
    let size := profile_size (capacity_profile cap) in
    (size ≠ 0 → in_use m cap ≤ size → in_use m cap' ≤ size).
Proof.
  intros (Hp4 & Hk & Hu & Ha) Hprefix Hcap'. destruct (Write request s) as [r s'] eqn:Hw.
  cbn [fst snd] in Hcap', Hprefix.
  apply Write_spec in Hw as (_ & [Hun|(us & sts & Hr)]); [..|done|done|done].
  { exists cap'. by rewrite <-(unreported_capacities _ _ _ _ Hun). }
  pose proof (reported_profiles _ _ _ _ _ _ Hr name) as Hsame. rewrite Hcap' in Hsame. cbn in Hsame.
  destruct (capacity_by_action_profile_name_ s !! name) as [cap|] eqn:Hcap; [|done].
  injection Hsame as Hsame. exists cap. split; [done|]. split; [done|]. intros m size Hsize Hle.
  pose proof (reported_batch _ _ _ _ _ _ Hr) as Hb.
  rewrite (reported_utilization _ _ _ _ _ _ Hr _ _ Hcap' m), (reported_cache _ _ _ _ _ _ Hr).
  destruct (filter_prefix (acknowledged sts) us) as [p Hp].
  { intros i j x y Hij Hx Hy Hoky. pose proof (batch_status _ _ _ _ _ _ _ Hb) as Hseq.
    assert (∀ n z, us !! n = Some z → status z = n) as Hpos.
    { intros n z Hz. apply (f_equal (λ l, l !! n)) in Hseq. rewrite list_lookup_fmap, Hz in Hseq.
      rewrite lookup_seq_lt in Hseq by (by eapply lookup_lt_Some). by injection Hseq. }
    apply acknowledged_ok. apply acknowledged_ok in Hoky. rewrite (Hpos _ _ Hx), (Hpos _ _ Hy) in *.
    destruct (reported_result _ _ _ _ _ _ Hr) as (st & -> & _).
    apply (reported_acked _ _ _ _ _ _ _ Hr), (Hprefix st i j eq_refl Hij). by apply (reported_acked _ _ _ _ _ _ _ Hr). }
  rewrite (apply_updates_usage (role_of request) _ _ (capacity_by_action_profile_name_ s)).
  - rewrite <-(Hu _ _ Hcap m), Hp.
    by apply (fits_prefix (capacity_by_action_profile_name_ s)); [apply (batch_fits _ _ _ _ _ _ _ Hb)|..].
  - apply filter_keys, (batch_keys _ _ _ _ _ _ _ Hb).
  - pose proof (batch_accepted _ _ _ _ _ _ _ Hb) as Hacc. rewrite Forall_forall in *.
    intros u [Hin _]%filter_acked. by apply Hacc.
Qed.
(** When the normalisation of a packet replication entry back to PI fails, the error is not
    reported: the status of the first translation is tested twice, and the missing value is
    used. *)
Theorem renormalization_failure_crashes pi_update role_name ci translations pre ir' c :
  let key_only := bool_decide (type_ pi_update = DELETE) in
  PiEntityToIr p4_info (entity pi_update) key_only = Ok (IrPacketReplicationEngine pre) →
  IrEntityToPi p4_info (IrPacketReplicationEngine pre) key_only = Err c →
  UpdateIrEntityForOrchAgent (IrPacketReplicationEngine pre) p4_info translations = Ok ir' →
  PiUpdateToEntityUpdate p4_info pi_update role_name ci translations = Die.
Proof.
  intros key_only Hir Hpi Hoa. unfold PiUpdateToEntityUpdate. fold key_only. rewrite Hir.
  cbn [mbind result_bind]. rewrite Hpi, Hoa. done.
Qed.
End write_correct.

(** * Examples

    A translation for entries without match fields, on the pipeline with one table of groups of
    ResourceUtilization.v: an entry is identified by its priority. *)

Definition group_of (def : IrTableDefinition) (t : TableEntry) : IrTableEntry :=
  Ir.mkEntry (preamble_alias def) [] (priority t)
    (Ir.kActionSet (map (λ a, Ir.mkInvocation (Ir.mkAction $"nop" []) (weight a) (watch_port a))
       (action_profile_actions (action t)))) None None None [].
Definition entry_of (def : IrTableDefinition) (te : IrTableEntry) : TableEntry :=
  plain_entry (preamble_id def) (Ir.entry_priority te) []
    (kActionProfileActionSet
       (map (λ a, mkActionProfileAction (mkAction 1 []) (Ir.weight_ a) (kWatchPort (Ir.watch_port a)))
          (action_set te))).

#[local] Instance ref_translation : EntityTranslation () () := {|
  PiEntityToIr p4_info e key_only :=
    match e with
    | kTableEntry t =>
      match tables_by_id p4_info !! table_id t with
      | Some def => Ok (IrTable (group_of def t))
      | None => Err kNotFound
      end
    | kPacketReplicationEngineEntry _ => Ok (IrPacketReplicationEngine Ir.PRE_TYPE_NOT_SET)
    | kOtherEntity _ => Err kUnimplemented
    end;
  IrEntityToPi p4_info ir key_only :=
    match ir with
    | IrTable te =>
      match tables_by_name p4_info !! table_name te with
      | Some def => Ok (kTableEntry (entry_of def te))
      | None => Err kNotFound
      end
    | IrPacketReplicationEngine _ => Ok (kPacketReplicationEngineEntry PRE_TYPE_NOT_SET)
    | ENTITY_NOT_SET => Err kInvalidArgument
    end;
  ReasonEntryViolatesConstraint _ _ := Ok [];
  UpdateIrEntityForOrchAgent ir _ _ := Ok ir;
  CreateAppDbUpdate type ir p4_info :=
    Ok (mkAppDbUpdate P4RT
          (mkKfv (match ir with IrTable te => dec_digits 3 (Ir.entry_priority te) | _ => $"pre" end)
             (if bool_decide (type = DELETE) then $"DEL" else $"SET") []));
|}.

(** The pipeline with one table, which belongs to the role [r], and a profile of the given size. *)
Abbreviation role_table := ResourceUtilization.example_table.
Definition sized_profile (size : Z) : ActionProfile := mkActionProfile (named 7 $"wcmp") [1] size 10 None.
Definition sized_p4info (size : Z) (r : str) : IrP4Info := one_table (role_table r) [example_action] [sized_profile size].
Abbreviation role_p4info := (sized_p4info 0).

#[local] Instance ref_translation_laws size r : TranslationLaws () () (sized_p4info size r).
Proof.
  split.
  - intros e key_only te pi He Hpi. destruct e as [t| |]; [|discriminate..].
    change (match tables_by_id (sized_p4info size r) !! table_id t with
      | Some def => Ok (IrTable (group_of def t)) | None => Err kNotFound end = Ok (IrTable te)) in He.
    destruct (tables_by_id (sized_p4info size r) !! table_id t) as [def|] eqn:Hdef; [|discriminate].
    injection He as <-. change (({[ 1 := role_table r ]} : gmap Z _) !! table_id t = Some def) in Hdef.
    apply lookup_singleton_Some in Hdef as [Hid <-].
    change (Ok (kTableEntry (entry_of (role_table r) (group_of (role_table r) t))) = Ok pi) in Hpi.
    injection Hpi as <-. eexists _, (role_table r). split; [reflexivity|].
    split; [vm_compute; reflexivity|]. split; [vm_compute; reflexivity|]. intros _.
    cbn [entry_of group_of plain_entry action action_profile_actions action_set Ir.entry_action].
    by rewrite !map_map.
  - intros e key_only ir pi He Hno Hpi t ->. destruct ir as [te| |]; [by destruct (Hno te)|discriminate..].
  - intros te translations ir [= <-]. by exists te.
  - by intros ir translations ir' [= <-].
Qed.

(** An application database that fails at the update for cell [k] and does not attempt those after it. *)
Definition fail_from (k : nat) (l : list (AppDbUpdate * nat)) (mem : list IrUpdateStatus) : list IrUpdateStatus :=
  fold_left (λ mem '(_, i), if (i <? k)%nat then mem
                             else <[i := if (i =? k)%nat then mkStatus (Some kInternal) $"table full" else Aborted]> mem) l mem.
#[local] Instance failing_app_db : AppDbLayer nat := λ k l mem, (Ok false, fail_from k l mem, k).
Lemma fail_from_changes k l mem cells : (∀ u i, (u, i) ∈ l → i ∈ cells) → clean mem →
  only_changes cells mem (fail_from k l mem) ∧ clean (fail_from k l mem).
Proof.
  unfold fail_from. revert mem. induction l as [|[u i] l IH]; intros mem Hin Hc; [by split|]. cbn [fold_left].
  set (mem' := if (i <? k)%nat then mem else _).
  assert (only_changes cells mem mem' ∧ clean mem') as [H1 H2].
  { subst mem'. destruct (i <? k)%nat; [by split|]. split.
    - split; [apply length_insert|]. intros j Hj. apply list_lookup_insert_ne. intros ->. apply Hj, (Hin u). by left.
    - apply clean_insert; [|done]. by destruct (i =? k)%nat. }
  destruct (IH mem') as [H3 H4]; [intros u' j Hj; apply (Hin u'); by right|done|]. split; [|done].
  by eapply only_changes_trans.
Qed.
#[local] Instance failing_app_db_laws : AppDbLayerLaws nat.
Proof.
  intros k l mem r mem' k' _ _ Hc [= <- <- <-]. destruct (fail_from_changes k l mem (map snd l)) as [H1 H2]; [|done|by split_and!].
  intros u i Hin. by apply (list_elem_of_fmap_2 snd _ (u, i)).
Qed.

#[local] Instance ref_app_db : AppDbLayer () := λ w l mem, (Ok true, mem, w).
#[local] Instance ref_app_db_laws : AppDbLayerLaws ().
Proof. intros w l mem r mem' w' _ _ Hc [= <- <- <-]. split_and!; [by split|done..]. Qed.

Definition group_entry (p : Z) (weights : list Z) : Entity :=
  kTableEntry (entry_of (role_table []) (example_group p weights)).

(** A server whose one controller connection is the primary of the role [r]. *)
Definition role_server (r : str) : Server () () () :=
  let role := if bool_decide (r = []) then None else Some r in
  mkServer (SdnController.mkWorld {[ 0%nat := SdnController.mkConnection true role (Some 1) ]} (Some 7)
              [0%nat] {[ role := Some 1 ]} [] 0 0)
    (Some (role_p4info r)) tt tt ∅ example_capacities tt 0 0.

Definition role_request (r : str) (us : list Update) : WriteRequest :=
  mkWriteRequest (SdnController.mkRequestHeader 7 r (Some (0, 1))) us.

Lemma role_consistent r : consistent (role_p4info r) (role_server r).
Proof.
  split; [reflexivity|]. split; [by intros ?? ?|]. split.
  - intros name cap Hcap m. cbn [capacity_by_action_profile_name_ role_server] in Hcap; unfold example_capacities in Hcap.
    apply lookup_singleton_Some in Hcap as [_ <-]. by destruct m.
  - intros name cap Hcap. cbn [capacity_by_action_profile_name_ role_server] in Hcap; unfold example_capacities in Hcap.
    apply lookup_singleton_Some in Hcap as [<- <-]. vm_compute. reflexivity.
Qed.

Definition example_server : Server () () () := role_server [].

Definition example_request : WriteRequest :=
  role_request [] [mkUpdate INSERT (group_entry 1 [3; 4]); mkUpdate INSERT (group_entry 2 [5]);
    mkUpdate DELETE (group_entry 9 []); mkUpdate INSERT (group_entry 3 [1])].

(** The third update fails in the cache check, so the fourth is not attempted. *)
Example example_response :
  fst (Write example_request example_server) =
    Ok (mkGrpcStatus (Some kUnknown)
          [(None, []); (None, []); (Some kNotFound, []); (Some kAborted, $"Not attempted")]).
Proof. vm_compute. reflexivity. Qed.

Lemma write_preserves_consistency_witness :
  consistent (role_p4info []) (snd (Write example_request example_server)).
Proof. exact (write_preserves_consistency (role_p4info []) example_request example_server (role_consistent [])). Defined.

Definition example_result : GrpcStatus :=
  Eval vm_compute in
    match fst (Write example_request example_server) with Ok st => st | _ => EnterCriticalState end.
Definition example_after : Server () () () := snd (Write example_request example_server).

Lemma example_runs : Write example_request example_server = (Ok example_result, example_after).
Proof. apply surjective_pairing. Qed.

Lemma write_cache_reflects_response_witness :
  Write example_request example_server = (Ok example_result, example_after) ∧
  ∃ pi_update u, updates example_request !! 1%nat = Some pi_update ∧
    PiUpdateToEntityUpdate (role_p4info []) pi_update [] (Some ()) () = Ok u ∧
    entity_cache_ example_after !! entity_key u =
      if bool_decide (type_ pi_update = DELETE) then None else Some (pi_entity u).
Proof.
  split; [exact example_runs|].
  apply (proj1 (write_cache_reflects_response (role_p4info []) example_request example_server
    example_result example_after (role_consistent []) example_runs) 1%nat).
  right. exists []. reflexivity.
Defined.

Definition role_insert : WriteRequest := role_request $"sdn" [mkUpdate INSERT (group_entry 1 [3])].
Definition role_key : EntityKey := KeyTableEntry (mkTableEntryKey 1 1 []).

Lemma write_role_isolation_witness :
  ∃ table_def, tables_by_id (role_p4info $"sdn") !! 1 = Some table_def ∧ role table_def = $"sdn".
Proof.
  refine (write_role_isolation (role_p4info $"sdn") role_insert (role_server $"sdn") role_key
    (role_consistent $"sdn") _ _); [discriminate|].
  intros Hsame. vm_compute in Hsame. discriminate.
Defined.

Definition duplicate_request : WriteRequest :=
  role_request [] [mkUpdate INSERT (group_entry 1 [3]); mkUpdate DELETE (group_entry 1 [])].

Lemma duplicate_keys_abandon_batch_witness :
  ∃ us sts,
    PiEntityUpdatesToIr duplicate_request (role_p4info []) ∅ example_capacities () () = Ok (us, sts) ∧
    ((us = [] ∧ sts = [DuplicateKey; Aborted]) ∨ ((length us < 1)%nat)).
Proof.
  eexists _, _. split; [vm_compute; reflexivity|].
  assert (cache_keyed (∅ : EntityMap)) as Hk by (by intros ?? ?).
  destruct (duplicate_keys_abandon_batch (role_p4info []) duplicate_request () () ∅ example_capacities
    [] [DuplicateKey; Aborted] 0 1 (mkUpdate INSERT (group_entry 1 [3]))
    (mkUpdate DELETE (group_entry 1 []))
    (mkEntityUpdate (IrTable (example_group 1 [3])) INSERT
       (group_entry 1 [3]) role_key NoResources (mkAppDbUpdate P4RT (mkKfv $"1" $"SET" [])) 0)
    (mkEntityUpdate (IrTable (example_group 1 [])) DELETE
       (group_entry 1 []) role_key NoResources (mkAppDbUpdate P4RT (mkKfv $"1" $"DEL" [])) 0)
    Hk) as [[Hu Hs]|[Hl _]].
  1-7: first [vm_compute; reflexivity | lia].
  - left. split; [reflexivity | exact Hs].
  - right. exact Hl.
Defined.

(** A profile of size 13.  The first group takes 7 of it, the second is accepted but fails in the database, the third
    (which would exceed the size) is refused. *)
Definition sized_capacities : gmap str ActionProfileResourceCapacity :=
  {[ $"wcmp" := GetActionProfileResourceCapacity (sized_profile 13) ]}.
Definition sized_server : Server () () nat :=
  mkServer (controller_manager_ (role_server [])) (Some (sized_p4info 13 [])) tt tt ∅ sized_capacities 1%nat 0 0.
Definition sized_request : WriteRequest :=
  role_request [] [mkUpdate INSERT (group_entry 1 [3; 4]); mkUpdate INSERT (group_entry 2 [6]); mkUpdate INSERT (group_entry 3 [1])].
Example sized_response : fst (Write sized_request sized_server) =
  Ok (mkGrpcStatus (Some kUnknown) [(None, []); (Some kInternal, $"table full"); (Some kAborted, [])]).
Proof. vm_compute. reflexivity. Qed.

Lemma sized_consistent : consistent (sized_p4info 13 []) sized_server.
Proof.
  split; [reflexivity|]. split; [by intros ?? ?|]. split.
  - intros name cap Hcap m. cbn [capacity_by_action_profile_name_ sized_server] in Hcap. unfold sized_capacities in Hcap.
    apply lookup_singleton_Some in Hcap as [_ <-]. by destruct m.
  - intros name cap Hcap. cbn [capacity_by_action_profile_name_ sized_server] in Hcap. unfold sized_capacities in Hcap.
    apply lookup_singleton_Some in Hcap as [<- <-]. vm_compute. reflexivity.
Qed.



Lemma write_respects_capacity_witness :
  capacity_by_action_profile_name_ (snd (Write sized_request sized_server)) !! $"wcmp" = Some (mkCapacity (sized_profile 13) 7 2) ∧
  in_use Weights (mkCapacity (sized_profile 13) 7 2) ≤ 13.
Proof.
  assert (capacity_by_action_profile_name_ (snd (Write sized_request sized_server)) !! $"wcmp" =
    Some (mkCapacity (sized_profile 13) 7 2)) as Hcap by (vm_compute; reflexivity).
  split; [exact Hcap|].
  destruct (write_respects_capacity (sized_p4info 13 []) sized_request sized_server $"wcmp" (mkCapacity (sized_profile 13) 7 2)
    sized_consistent) as (cap & Hbefore & _ & Hfits); [|exact Hcap|].
  - intros st i j Hst Hij Hj. rewrite sized_response in Hst. injection Hst as <-. destruct Hj as [[[=] _]|[msg Hj]].
    destruct j as [|[|[|j]]]; [lia|discriminate Hj..].
  - vm_compute in Hbefore. injection Hbefore as <-. apply Hfits; vm_compute; discriminate.
Defined.
