(* ===== verification/ReadPath.v ===== *)
(** p4rt_app/p4runtime: [p4runtime_read.cc].  A read request is answered from the entity cache: table entries visible to the requester's
    role, with counters from the database for ACL tables, and packet replication entries.  The
    traversal order of the cache (a hash map) is arbitrary, so the functions take the list of its
    entities in the order in which they are visited. *)
From S2P Require Import Prelude EntityKeys IrData TableTypes ResourceUtilization.

(** * Data *)

(** The parts of an entity of a read request that are looked at. *)
Record TableReadRequest := mkTableReadRequest {
  read_entry : TableEntry;
  metadata : str;
  has_action : bool;
  is_default_action : bool;
}.

Record PreReadRequest := mkPreReadRequest {
  read_type_case : Z;
  clone_session_id : Z;
  clone_session_replicas : list str;
  read_multicast_group_id : Z;
  multicast_group_replicas : list str;
}.

Inductive ReadEntity :=
  | ReadTableEntry (r : TableReadRequest)
  | ReadPacketReplicationEngineEntry (r : PreReadRequest)
  | ReadOther.

Abbreviation ReadResponse := (list Entity).

Section read.
Context `{SwssSchema}.

(** * p4runtime_read.cc *)

Definition SupportedTableEntryRequest (r : TableReadRequest) : result () :=
  if negb (table_id (read_entry r) =? 0) || negb (bool_decide (match_ (read_entry r) = [])) ||
     negb (priority (read_entry r) =? 0) || negb (bool_decide (metadata r = [])) ||
     has_action r || is_default_action r
  then Err kUnimplemented else Ok tt.

Definition SupportedPacketReplicationEntryRequest (r : PreReadRequest) : result () :=
  if negb (clone_session_id r =? 0) || negb (bool_decide (clone_session_replicas r = []))
  then Err kUnimplemented
  else if negb (read_multicast_group_id r =? 0) || negb (bool_decide (multicast_group_replicas r = []))
  then Err kUnimplemented
  else Ok tt.

(** The translation to the OrchAgent's form, and the counters of the database (counter and meter data, if
    there are any) put in an entry of that form. *)
Context (TranslatePiTableEntryForOrchAgent : TableEntry → IrP4Info → result IrTableEntry).
Context (AppendCounterDataForTableEntry : IrTableEntry → IrP4Info → result IrTableEntry).

Definition AppendAclCounterData (pi_table_entry : TableEntry) (ir_p4_info : IrP4Info)
  : result TableEntry :=
  ir_table_entry ← TranslatePiTableEntryForOrchAgent pi_table_entry ir_p4_info;
  ir_table_entry ← AppendCounterDataForTableEntry ir_table_entry ir_p4_info;
  let pi_table_entry :=
    match Ir.entry_counter_data ir_table_entry with
    | Some counters => set_counter_data counters pi_table_entry
    | None => pi_table_entry
    end in
  let pi_table_entry :=
    match Ir.entry_meter_counter_data ir_table_entry with
    | Some counters => set_meter_counter_data counters pi_table_entry
    | None => pi_table_entry
    end in
  Ok pi_table_entry.

Definition AppendTableEntryReads (response : ReadResponse) (cached_entry : TableEntry)
  (role_name : str) (ir_p4_info : IrP4Info) : result ReadResponse :=
  match tables_by_id ir_p4_info !! table_id cached_entry with
  | None => Err kInternal
  | Some table_def =>
    if negb (bool_decide (role_name = [])) && negb (bool_decide (role table_def = role_name))
    then Ok response
    else
      table_type ← GetTableType table_def;
      response_entry ← (if bool_decide (table_type = kAcl)
                        then AppendAclCounterData cached_entry ir_p4_info
                        else Ok cached_entry);
      Ok (response ++ [kTableEntry response_entry])
  end.

Definition AppendPacketReplicationEntryReads (response : ReadResponse) (cached_entry : Entity)
  : result ReadResponse := Ok (response ++ [cached_entry]).

(** [responses] is never empty: the finished ones and the last one. *)
Definition Responses : Type := list ReadResponse * ReadResponse.

(** [if (responses.size() >= batch_size) responses.push_back({})]. *)
Definition next_response (batch_size : Z) (responses : Responses) : Responses :=
  let '(finished, last) := responses in
  if batch_size <=? zlen finished + 1 then (finished ++ [last], []) else responses.

Fixpoint read_tables (batch_size : Z) (entries : list Entity) (role_name : str)
  (ir_p4_info : IrP4Info) (responses : Responses) : result Responses :=
  match entries with
  | [] => Ok responses
  | kTableEntry entry :: entries =>
    last ← AppendTableEntryReads (snd responses) entry role_name ir_p4_info;
    read_tables batch_size entries role_name ir_p4_info
      (next_response batch_size (fst responses, last))
  | _ :: entries => read_tables batch_size entries role_name ir_p4_info responses
  end.

(** [TYPE_NOT_SET] is 0. *)
Definition pre_requested (r : PreReadRequest) (entry : Entity) : bool :=
  match entry with
  | kPacketReplicationEngineEntry e => (read_type_case r =? type_case e) || (read_type_case r =? 0)
  | _ => false
  end.

Fixpoint read_replication (batch_size : Z) (entries : list Entity) (r : PreReadRequest)
  (responses : Responses) : result Responses :=
  match entries with
  | [] => Ok responses
  | entry :: entries =>
    if pre_requested r entry then
      last ← AppendPacketReplicationEntryReads (snd responses) entry;
      read_replication batch_size entries r (next_response batch_size (fst responses, last))
    else read_replication batch_size entries r responses
  end.

Fixpoint read_loop (batch_size : Z) (entities : list ReadEntity) (role_name : str)
  (ir_p4_info : IrP4Info) (entity_cache : list Entity) (responses : Responses) : result Responses :=
  match entities with
  | [] => Ok responses
  | ReadTableEntry r :: entities =>
    _ ← SupportedTableEntryRequest r;
    responses ← read_tables batch_size entity_cache role_name ir_p4_info responses;
    read_loop batch_size entities role_name ir_p4_info entity_cache responses
  | ReadPacketReplicationEngineEntry r :: entities =>
    _ ← SupportedPacketReplicationEntryRequest r;
    responses ← read_replication batch_size entity_cache r responses;
    read_loop batch_size entities role_name ir_p4_info entity_cache responses
  | ReadOther :: _ => Err kUnimplemented
  end.

Definition ReadAllEntitiesInBatches (batch_size : Z) (entities : list ReadEntity) (role_name : str)
  (ir_p4_info : IrP4Info) (entity_cache : list Entity) : result (list ReadResponse) :=
  '(finished, last) ← read_loop batch_size entities role_name ir_p4_info entity_cache ([], []);
  Ok (if bool_decide (finished ≠ []) && bool_decide (last = []) then finished
      else finished ++ [last]).

(** * What is read *)

(** The concatenation of the answers, or the first error. *)
Fixpoint collect {A} (f : A → result (list Entity)) (l : list A) : result (list Entity) :=
  match l with
  | [] => Ok []
  | x :: l => a ← f x; rest ← collect f l; Ok (a ++ rest)
  end.

(** What a read of the tables says about one cached entity. *)
Definition table_answer (role_name : str) (ir_p4_info : IrP4Info) (e : Entity) : result (list Entity) :=
  match e with
  | kTableEntry t =>
    table_def ← match tables_by_id ir_p4_info !! table_id t with
                | Some table_def => Ok table_def | None => Err kInternal end;
    if bool_decide (role_name = []) || bool_decide (role table_def = role_name) then
      table_type ← GetTableType table_def;
      match table_type with
      | kAcl => t ← AppendAclCounterData t ir_p4_info; Ok [kTableEntry t]
      | _ => Ok [kTableEntry t]
      end
    else Ok []
  | _ => Ok []
  end.

(** What one entity of the request reads from the cache. *)
Definition answer (role_name : str) (ir_p4_info : IrP4Info) (entity_cache : list Entity)
  (r : ReadEntity) : result (list Entity) :=
  match r with
  | ReadTableEntry r =>
    _ ← SupportedTableEntryRequest r; collect (table_answer role_name ir_p4_info) entity_cache
  | ReadPacketReplicationEngineEntry r =>
    _ ← SupportedPacketReplicationEntryRequest r; Ok (List.filter (pre_requested r) entity_cache)
  | ReadOther => Err kUnimplemented
  end.

Definition contents (responses : Responses) : list Entity :=
  concat (fst responses) ++ snd responses.

Lemma next_response_contents bs responses :
  contents (next_response bs responses) = contents responses.
Proof.
  destruct responses as [finished last]. unfold next_response, contents.
  destruct (bs <=? _); cbn [fst snd]; [|done]. by rewrite concat_app, app_nil_r; cbn; rewrite app_nil_r.
Qed.

Lemma AppendTableEntryReads_answer response t role_name ir_p4_info :
  AppendTableEntryReads response t role_name ir_p4_info =
    (a ← table_answer role_name ir_p4_info (kTableEntry t); Ok (response ++ a)).
Proof.
  unfold AppendTableEntryReads, table_answer.
  destruct (tables_by_id ir_p4_info !! table_id t) as [def|]; cbn [mbind result_bind]; [|done].
  destruct (bool_decide (role_name = [])), (bool_decide (role def = role_name)); cbn [negb andb orb].
  4: cbn; by rewrite app_nil_r.
  all: destruct (GetTableType def) as [[]| |]; cbn; try done; by destruct (AppendAclCounterData _ _).
Qed.

Lemma read_tables_spec bs entries role_name ir_p4_info responses :
  contents <$> read_tables bs entries role_name ir_p4_info responses =
    (a ← collect (table_answer role_name ir_p4_info) entries; Ok (contents responses ++ a)).
Proof.
  revert responses. induction entries as [|e entries IH]; intros responses;
    cbn [read_tables collect]; [cbn; by rewrite app_nil_r|].
  destruct e as [t|r|p]; [|cbn; rewrite IH; by destruct (collect _ entries)..].
  rewrite AppendTableEntryReads_answer.
  destruct (table_answer role_name ir_p4_info (kTableEntry t)) as [a| |]; cbn [mbind result_bind]; [|done..].
  rewrite IH. destruct (collect _ entries) as [rest| |]; cbn [mbind result_bind]; [|done..].
  rewrite next_response_contents. unfold contents. cbn [fst snd]. by rewrite !app_assoc.
Qed.

Lemma read_replication_spec bs entries r responses :
  contents <$> read_replication bs entries r responses =
    Ok (contents responses ++ List.filter (pre_requested r) entries).
Proof.
  revert responses. induction entries as [|e entries IH]; intros responses;
    cbn [read_replication List.filter]; [cbn; by rewrite app_nil_r|].
  destruct (pre_requested r e); [|apply IH]. cbn [AppendPacketReplicationEntryReads mbind result_bind].
  rewrite IH, next_response_contents. unfold contents. cbn [fst snd].
  by rewrite <-!app_assoc.
Qed.

Lemma read_loop_spec bs entities role_name ir_p4_info cache responses :
  contents <$> read_loop bs entities role_name ir_p4_info cache responses =
    (a ← collect (answer role_name ir_p4_info cache) entities; Ok (contents responses ++ a)).
Proof.
  revert responses. induction entities as [|e entities IH]; intros responses;
    cbn [read_loop collect answer]; [cbn; by rewrite app_nil_r|].
  destruct e as [r|r|]; cbn [answer]; [| |done].
  - destruct (SupportedTableEntryRequest r) as [[]| |]; cbn [mbind result_bind]; [|done..].
    pose proof (read_tables_spec bs cache role_name ir_p4_info responses) as Hr.
    destruct (collect (table_answer role_name ir_p4_info) cache) as [a|c|];
      destruct (read_tables bs cache role_name ir_p4_info responses) as [rs| |]; cbn in Hr |- *;
      try done.
    injection Hr as Hr. rewrite IH, Hr. cbn. destruct (collect _ entities); cbn; [|done..].
    by rewrite app_assoc.
  - destruct (SupportedPacketReplicationEntryRequest r) as [[]| |]; cbn [mbind result_bind]; [|done..].
    pose proof (read_replication_spec bs cache r responses) as Hr.
    destruct (read_replication bs cache r responses) as [rs| |]; cbn [mbind result_bind]; [|done..].
    injection Hr as Hr. rewrite IH, Hr. cbn. destruct (collect _ entities); cbn; [|done..].
    by rewrite app_assoc.
Qed.

(** C32.  A read returns exactly what a filter over the cache would: for every entity of the request, in
    order, the cached entries it asks for, table entries only if the requester's role may see
    their table (the empty role sees all), ACL entries with their counters; the first unsupported
    request or failed lookup fails the read.  Splitting the answer into responses neither loses,
    repeats nor reorders entries. *)
Theorem read_equals_filter (batch_size : Z) (entities : list ReadEntity) (role_name : str)
  (ir_p4_info : IrP4Info) (entity_cache : list Entity) :
  @concat Entity <$> ReadAllEntitiesInBatches batch_size entities role_name ir_p4_info entity_cache =
    collect (answer role_name ir_p4_info entity_cache) entities.
Proof.
  unfold ReadAllEntitiesInBatches.
  pose proof (read_loop_spec batch_size entities role_name ir_p4_info entity_cache ([], [])) as Hr.
  destruct (read_loop _ _ _ _ _ _) as [[finished last]| |]; cbn [mbind result_bind];
    destruct (collect _ entities) as [a| |]; cbn in Hr; try done.
  injection Hr as <-. cbn. f_equal. unfold contents. cbn [fst snd].
  destruct (bool_decide (finished ≠ [])), (bool_decide (last = [])) eqn:Hl; bool_prop; cbn [andb].
  1: by rewrite Hl, app_nil_r.
  all: rewrite concat_app; cbn; by rewrite app_nil_r.
Qed.

(** The number of responses is compared with the batch size, not the number of entries. *)
Lemma next_response_single bs last : 2 ≤ bs → next_response bs ([], last) = ([], last).
Proof. intros Hbs. unfold next_response. change (zlen [] + 1) with 1. by destruct (Z.leb_spec bs 1); [lia|]. Qed.

Lemma read_tables_single bs entries role_name ir_p4_info last responses :
  2 ≤ bs → read_tables bs entries role_name ir_p4_info ([], last) = Ok responses → fst responses = [].
Proof.
  intros Hbs. revert last. induction entries as [|e entries IH]; intros last; cbn [read_tables];
    [by intros [= <-]|]. destruct e as [t|r|p]; [|apply IH..].
  intros (l & _ & Hr)%bind_Ok_iff. cbn [fst] in Hr. rewrite next_response_single in Hr by done. by eapply IH.
Qed.

Lemma read_replication_single bs entries r last responses :
  2 ≤ bs → read_replication bs entries r ([], last) = Ok responses → fst responses = [].
Proof.
  intros Hbs. revert last. induction entries as [|e entries IH]; intros last; cbn [read_replication];
    [by intros [= <-]|]. destruct (pre_requested r e); [|apply IH].
  intros (l & _ & Hr)%bind_Ok_iff. cbn [fst] in Hr. rewrite next_response_single in Hr by done. by eapply IH.
Qed.

Lemma read_loop_single bs entities role_name ir_p4_info cache last responses :
  2 ≤ bs → read_loop bs entities role_name ir_p4_info cache ([], last) = Ok responses →
  fst responses = [].
Proof.
  intros Hbs. revert last. induction entities as [|e entities IH]; intros last; cbn [read_loop];
    [by intros [= <-]|].
  destruct e as [r|r|]; [| |done]; intros (? & _ & ([f l] & Hr & Hloop)%bind_Ok_iff)%bind_Ok_iff.
  - apply read_tables_single in Hr; [|done]. cbn in Hr. subst f. by eapply IH.
  - apply read_replication_single in Hr; [|done]. cbn in Hr. subst f. by eapply IH.
Qed.

(** Answers are never split: with any batch size above 1 (the server uses 2500) a successful read
    puts the whole answer in one response, however large it is. *)
Theorem read_never_splits (batch_size : Z) (entities : list ReadEntity) (role_name : str)
  (ir_p4_info : IrP4Info) (entity_cache : list Entity) (responses : list ReadResponse) :
  2 ≤ batch_size →
  ReadAllEntitiesInBatches batch_size entities role_name ir_p4_info entity_cache = Ok responses →
  ∃ all, responses = [all] ∧ collect (answer role_name ir_p4_info entity_cache) entities = Ok all.
Proof.
  intros Hbs Hread. unfold ReadAllEntitiesInBatches in Hread.
  pose proof (read_loop_spec batch_size entities role_name ir_p4_info entity_cache ([], [])) as Hspec.
  apply bind_Ok_iff in Hread as ([finished last] & Hloop & Hread). rewrite Hloop in Hspec.
  apply read_loop_single in Hloop; [|done]. cbn in Hloop. subst finished.
  cbn in Hread. injection Hread as <-. exists last. split; [done|].
  destruct (collect _ entities) as [a| |]; cbn in Hspec; [|done..]. by injection Hspec as ->.
Qed.
End read.

Definition example_cache : list Entity :=
  [kTableEntry (plain_entry 1 1 [] TABLE_ACTION_NOT_SET);
   kPacketReplicationEngineEntry (kMulticastGroupEntry 5 [] []);
   kTableEntry (plain_entry 1 2 [] TABLE_ACTION_NOT_SET)].
Definition read_all_tables : ReadEntity :=
  ReadTableEntry (mkTableReadRequest (plain_entry 0 0 [] TABLE_ACTION_NOT_SET) [] false false).

Lemma read_never_splits_witness :
  ∃ responses,
    ReadAllEntitiesInBatches (λ _ _, Err kInternal) (λ te _, Ok te) 2 [read_all_tables] [] (example_p4info []) example_cache = Ok responses ∧
    ∃ all, responses = [all].
Proof.
  eexists. split; [vm_compute; reflexivity|].
  destruct (read_never_splits (λ _ _, Err kInternal) (λ te _, Ok te) 2 [read_all_tables] [] (example_p4info []) example_cache
    [[kTableEntry (plain_entry 1 1 [] TABLE_ACTION_NOT_SET);
      kTableEntry (plain_entry 1 2 [] TABLE_ACTION_NOT_SET)]]) as (all & Hall & _);
    [lia | vm_compute; reflexivity | exists all; exact Hall].
Defined.
