(* ===== verification/PortTranslation.v ===== *)
(** p4rt_app/p4runtime: the translations between the controller's and the OrchAgent's names.
    [P4RuntimeImpl::AddPortTranslation] and [RemovePortTranslation] maintain a bidirectional map of
    ports, [queue_translator.{h,cc}] one of queues, and [ir_translation.cc] applies them to the
    ports and queues of table entries and packet replication entries. *)
From S2P Require Import Prelude Abseil NetAddr IrUtils EntityKeys IrData.

(** * The port map *)

(** [boost::bimap<std::string, std::string>]: SONiC port names on the left, P4Runtime ids on the
    right. *)
Record bimap := mkBimap { left : gmap str str; right : gmap str str }.

(** Every mapping can be found from both sides. *)
Definition bijective (m : bimap) : Prop :=
  ∀ name id, left m !! name = Some id ↔ right m !! id = Some name.

(** [insert] does nothing when either side is taken; [left.erase] removes the pair. *)
Definition bimap_insert (name id : str) (m : bimap) : bimap :=
  match left m !! name, right m !! id with
  | None, None => mkBimap (<[name := id]> (left m)) (<[id := name]> (right m))
  | _, _ => m
  end.
Definition bimap_left_erase (name : str) (m : bimap) : bimap :=
  match left m !! name with
  | Some id => mkBimap (delete name (left m)) (delete id (right m))
  | None => m
  end.

(** The map and the port table of the two databases. *)
Record PortState := mkPortState {
  port_translation_map_ : bimap;
  port_app_db : gmap str (list (str * str));
  port_app_state_db : gmap str (list (str * str));
}.

Definition set_port_dbs (port_name port_id : str) (st : PortState) : PortState :=
  mkPortState (port_translation_map_ st)
    (<[port_name := [($"id", port_id)]]> (port_app_db st))
    (<[port_name := [($"id", port_id)]]> (port_app_state_db st)).

Definition AddPortTranslation (port_name port_id : str) (update_dbs : bool) (st : PortState)
  : result () * PortState :=
  if bool_decide (port_name = []) then (Err kInvalidArgument, st)
  else if bool_decide (port_id = []) then (Err kInvalidArgument, st)
  else
    let m := port_translation_map_ st in
    let write_dbs st := if update_dbs then set_port_dbs port_name port_id st else st in
    if bool_decide (left m !! port_name = Some port_id) then (Ok tt, write_dbs st)
    else if bool_decide (is_Some (right m !! port_id)) then (Err kAlreadyExists, st)
    else
      let m := if bool_decide (is_Some (left m !! port_name)) then bimap_left_erase port_name m else m in
      let m := bimap_insert port_name port_id m in
      (Ok tt, write_dbs (mkPortState m (port_app_db st) (port_app_state_db st))).

Definition RemovePortTranslation (port_name : str) (st : PortState) : result () * PortState :=
  if bool_decide (port_name = []) then (Err kInvalidArgument, st)
  else
    (Ok tt, mkPortState (bimap_left_erase port_name (port_translation_map_ st))
              (delete port_name (port_app_db st)) (delete port_name (port_app_state_db st))).

(** * Queues *)

Record QueueTranslator := mkQueueTranslator {
  id_to_name_ : gmap Z str;
  name_to_id_ : gmap str Z;
}.

Definition EmptyTranslator : QueueTranslator := mkQueueTranslator ∅ ∅.

Section queues.
Context `{Gutil}.
(** absl: parsing of 32-bit integers, decimal and hexadecimal, and the conversion "%#x". *)
Context (SimpleAtoi SimpleHexAtoi : str → option Z) (FormatHex : Z → str).

Fixpoint create_loop (name_id_pairs : list (str * str)) (translator : QueueTranslator)
  : result QueueTranslator :=
  match name_id_pairs with
  | [] => Ok translator
  | (name, id_string) :: name_id_pairs =>
    match SimpleAtoi id_string with
    | None => Err kInvalidArgument
    | Some id =>
      if bool_decide (is_Some (name_to_id_ translator !! name)) then Err kInvalidArgument
      else if bool_decide (is_Some (id_to_name_ translator !! id)) then Err kInvalidArgument
      else create_loop name_id_pairs
             (mkQueueTranslator (<[id := name]> (id_to_name_ translator))
                (<[name := id]> (name_to_id_ translator)))
    end
  end.

Definition CreateQueueTranslator (name_id_pairs : list (str * str)) : result QueueTranslator :=
  create_loop name_id_pairs EmptyTranslator.

Definition IdToName (t : QueueTranslator) (queue_id : Z) : result str :=
  FindOrStatus (id_to_name_ t !! queue_id).
Definition NameToId (t : QueueTranslator) (queue_name : str) : result Z :=
  FindOrStatus (name_to_id_ t !! queue_name).

Definition OptionallyTranslateIdToName (t : QueueTranslator) (value : str) : result str :=
  match SimpleHexAtoi value with
  | None => Err kInvalidArgument
  | Some queue_id =>
    match IdToName t queue_id with Ok queue_name => Ok queue_name | _ => Ok value end
  end.

Definition OptionallyTranslateNameToIdInHexString (t : QueueTranslator) (value : str) : str :=
  match NameToId t value with
  | Ok queue_id => FormatHex queue_id
  | _ =>
    match SimpleAtoi value with
    | Some queue_num => FormatHex queue_num
    | None =>
      match SimpleHexAtoi value with Some queue_num => FormatHex queue_num | None => value end
    end
  end.
End queues.

(** * IR entries *)

Inductive TranslationDirection := kForController | kForOrchAgent.

Record TranslateTableEntryOptions := mkOptions {
  direction : TranslationDirection;
  definitions : gmap str IrTableDefinition;
  translate_port_ids : bool;
  port_map : bimap;
  cpu_queue_translator : QueueTranslator;
  front_panel_queue_translator : QueueTranslator;
}.

(** [type_name().name()]: empty when the element has no named type. *)
Definition type_of (element : Element) : str := default [] (type_name element).

Definition IsPortType (type_name : str) : bool := bool_decide (type_name = $"port_id_t").
Definition IsCpuQueue (type_name : str) : bool :=
  bool_decide (type_name = $"qos_queue_t") || bool_decide (type_name = $"cpu_queue_t").
Definition IsFrontPanelQueue (type_name : str) : bool :=
  bool_decide (type_name = $"unicast_queue_t") || bool_decide (type_name = $"multicast_queue_t").

Definition set_matches_and_action (matches : list Ir.Match) (action : Ir.EntryAction) (entry : Ir.TableEntry)
  : Ir.TableEntry :=
  Ir.mkEntry (Ir.table_name entry) matches (Ir.entry_priority entry) action (Ir.entry_meter_config entry)
    (Ir.entry_counter_data entry) (Ir.entry_meter_counter_data entry) (Ir.entry_controller_metadata entry).

Section ir_translation.
Context `{Gutil} `{Ipv6.Inet}.
Context (SimpleAtoi SimpleHexAtoi : str → option Z) (FormatHex : Z → str).
(** utf8_range. *)
Context (IsStructurallyValid : str → bool).

Definition TranslatePort (direction : TranslationDirection) (port_map : bimap) (port_key : str)
  : result str :=
  if negb (IsStructurallyValid port_key) then Err kInvalidArgument
  else
    match direction with
    | kForController =>
      match left port_map !! port_key with Some v => Ok v | None => Err kFailedPrecondition end
    | kForOrchAgent =>
      match right port_map !! port_key with Some v => Ok v | None => Err kFailedPrecondition end
    end.

Definition TranslatePortValue (direction : TranslationDirection) (port_map : bimap) (value : IrValue)
  : result IrValue :=
  match value with
  | kStr s => s ← TranslatePort direction port_map s; Ok (kStr s)
  | _ => Err kInvalidArgument
  end.

Definition OptionallyTranslateQueue (direction : TranslationDirection) (translator : QueueTranslator)
  (value : IrValue) : result IrValue :=
  match value with
  | kStr s =>
    match direction with
    | kForController =>
      s ← OptionallyTranslateIdToName SimpleHexAtoi translator s; Ok (kStr s)
    | kForOrchAgent =>
      Ok (kStr (OptionallyTranslateNameToIdInHexString SimpleAtoi SimpleHexAtoi FormatHex translator s))
    end
  | _ => Err kInvalidArgument
  end.

(** One parameter, by the type its definition gives it. *)
Definition TranslateParam (options : TranslateTableEntryOptions) (action_def : IrActionDefinition)
  (param : str * IrValue) : result (str * IrValue) :=
  let '(name, value) := param in
  match params_by_name action_def !! name with
  | None => Err kInternal
  | Some param_def =>
    let type_name := type_of (IrData.param param_def) in
    value ←
      (if translate_port_ids options && IsPortType type_name
       then TranslatePortValue (direction options) (port_map options) value
       else if IsCpuQueue type_name
       then OptionallyTranslateQueue (direction options) (cpu_queue_translator options) value
       else if IsFrontPanelQueue type_name
       then OptionallyTranslateQueue (direction options) (front_panel_queue_translator options) value
       else Ok value);
    Ok (name, value)
  end.

Definition TranslateAction (options : TranslateTableEntryOptions) (table_def : IrTableDefinition)
  (action : Ir.ActionInvocation) : result Ir.ActionInvocation :=
  match List.find (λ r, bool_decide (alias (action_preamble (ref_action r)) = Ir.action_name action))
          (entry_actions table_def) with
  | None => Err kInternal
  | Some entry_action =>
    let action_def := ref_action entry_action in
    params ← map_result (TranslateParam options action_def) (Ir.params action);
    Ok (Ir.mkAction (Ir.action_name action) params)
  end.

Definition TranslateInvocation (options : TranslateTableEntryOptions)
  (table_def : IrTableDefinition) (invocation : Ir.ActionSetInvocation)
  : result Ir.ActionSetInvocation :=
  action ← TranslateAction options table_def (Ir.action_ invocation);
  watch_port ←
    (if translate_port_ids options && negb (bool_decide (Ir.watch_port invocation = []))
     then TranslatePort (direction options) (port_map options) (Ir.watch_port invocation)
     else Ok (Ir.watch_port invocation));
  Ok (Ir.mkInvocation action (Ir.weight_ invocation) watch_port).

Definition TranslateActionSet (options : TranslateTableEntryOptions) (table_def : IrTableDefinition)
  (action_set : list Ir.ActionSetInvocation) : result (list Ir.ActionSetInvocation) :=
  map_result (TranslateInvocation options table_def) action_set.

Definition TranslatePortInMatchField (direction : TranslationDirection) (port_map : bimap)
  (value : Ir.MatchValue) : result Ir.MatchValue :=
  match value with
  | Ir.kExact v => v ← TranslatePortValue direction port_map v; Ok (Ir.kExact v)
  | Ir.kOptional v => v ← TranslatePortValue direction port_map v; Ok (Ir.kOptional v)
  | _ => Err kInvalidArgument
  end.

Definition TranslateMatchField (options : TranslateTableEntryOptions) (table_def : IrTableDefinition)
  (match_ : Ir.Match) : result Ir.Match :=
  match match_fields_by_name table_def !! Ir.match_name match_ with
  | None => Err kInternal
  | Some match_def =>
    if translate_port_ids options && IsPortType (type_of (match_element (match_field match_def))) then
      value ← TranslatePortInMatchField (direction options) (port_map options) (Ir.match_value match_);
      Ok (Ir.mkMatch (Ir.match_name match_) value)
    else Ok match_
  end.

Definition TranslateTableEntry (options : TranslateTableEntryOptions) (entry : Ir.TableEntry)
  : result Ir.TableEntry :=
  match definitions options !! Ir.table_name entry with
  | None => Err kInternal
  | Some ir_table_def =>
    matches ← map_result (TranslateMatchField options ir_table_def) (Ir.matches entry);
    action ←
      match Ir.entry_action entry with
      | Ir.kAction a => a ← TranslateAction options ir_table_def a; Ok (Ir.kAction a)
      | Ir.kActionSet l => l ← TranslateActionSet options ir_table_def l; Ok (Ir.kActionSet l)
      | Ir.kNoAction => Ok Ir.kNoAction
      end;
    Ok (set_matches_and_action matches action entry)
  end.

Definition TranslatePortInReplica (options : TranslateTableEntryOptions) (replica : Ir.Replica)
  : result Ir.Replica :=
  if translate_port_ids options then
    port ← TranslatePort (direction options) (port_map options) (Ir.replica_port replica);
    backups ← map_result (λ b,
                p ← TranslatePort (direction options) (port_map options) (Ir.backup_port b);
                Ok (Ir.mkBackup p (Ir.backup_instance b))) (Ir.backup_replicas replica);
    Ok (Ir.mkReplica port (Ir.replica_instance replica) backups)
  else Ok replica.

(** [mutable_multicast_group_entry] makes any other entry an empty multicast group. *)
Definition mutable_multicast_group_entry (entry : Ir.PacketReplicationEngineEntry) : Ir.MulticastGroupEntry :=
  match entry with Ir.kMulticastGroupEntry group => group | _ => Ir.mkMulticast 0 [] [] end.

Definition TranslatePacketReplicationEntry (options : TranslateTableEntryOptions)
  (entry : Ir.PacketReplicationEngineEntry) : result Ir.PacketReplicationEngineEntry :=
  let group := mutable_multicast_group_entry entry in
  replicas ← map_result (TranslatePortInReplica options) (Ir.replicas group);
  Ok (Ir.kMulticastGroupEntry (Ir.mkMulticast (Ir.group_id group) replicas (Ir.group_metadata group))).

(** A ternary IPv6 match whose mask has no upper bits is shifted to the upper half.  An IPv6 mask
    that is not one reads as the empty string. *)
Definition Convert64BitIpv6Match (match_ : Ir.Match) : Ir.Match :=
  match Ir.match_value match_ with
  | Ir.kTernary (kIpv6 value) mask =>
    match Ipv6.OfString value with
    | Ok value_address =>
      match Ipv6.OfString (match mask with kIpv6 s => s | _ => [] end) with
      | Ok mask_address =>
        if addr_eqb mask_address (addr_and mask_address (addr_not 128 Ipv6.Upper64BitMask))
        then Ir.mkMatch (Ir.match_name match_)
               (Ir.kTernary (kIpv6 (Ipv6.ToString (addr_shl 128 value_address 64)))
                  (kIpv6 (Ipv6.ToString (addr_shl 128 mask_address 64))))
        else match_
      | _ => match_
      end
    | _ => match_
    end
  | _ => match_
  end.

Definition Convert64BitIpv6AclMatchFieldsTo128Bit (entry : Ir.TableEntry) : Ir.TableEntry :=
  set_matches_and_action (map Convert64BitIpv6Match (Ir.matches entry)) (Ir.entry_action entry) entry.

Definition UpdateIrTableEntryForOrchAgent (definitions : gmap str IrTableDefinition)
  (translate_port_ids : bool) (port_translation_map : bimap) (cpu front_panel : QueueTranslator)
  (entry : Ir.TableEntry) : result Ir.TableEntry :=
  TranslateTableEntry
    (mkOptions kForOrchAgent definitions translate_port_ids port_translation_map cpu front_panel)
    (Convert64BitIpv6AclMatchFieldsTo128Bit entry).

Definition UpdateIrPacketReplicationEngineEntryForOrchAgent
  (definitions : gmap str IrTableDefinition) (translate_port_ids : bool)
  (port_translation_map : bimap) (cpu front_panel : QueueTranslator)
  (entry : Ir.PacketReplicationEngineEntry) : result Ir.PacketReplicationEngineEntry :=
  TranslatePacketReplicationEntry
    (mkOptions kForOrchAgent definitions translate_port_ids port_translation_map cpu front_panel)
    entry.

Definition UpdateIrEntityForOrchAgent (definitions : gmap str IrTableDefinition)
  (translate_port_ids : bool) (port_translation_map : bimap) (cpu front_panel : QueueTranslator)
  (ir_entity : IrEntity) : result IrEntity :=
  match ir_entity with
  | IrTable entry =>
    entry ← UpdateIrTableEntryForOrchAgent definitions translate_port_ids port_translation_map cpu
      front_panel entry;
    Ok (IrTable entry)
  | IrPacketReplicationEngine entry =>
    entry ← UpdateIrPacketReplicationEngineEntryForOrchAgent definitions translate_port_ids
      port_translation_map cpu front_panel entry;
    Ok (IrPacketReplicationEngine entry)
  | ENTITY_NOT_SET => Err kInvalidArgument
  end.
End ir_translation.

(** * The port map stays bidirectional *)

Lemma bimap_left_erase_spec name m :
  bijective m →
  bijective (bimap_left_erase name m) ∧ left (bimap_left_erase name m) = delete name (left m) ∧
  ∀ id, right (bimap_left_erase name m) !! id =
    if decide (left m !! name = Some id) then None else right m !! id.
Proof.
  intros Hm. unfold bimap_left_erase. destruct (left m !! name) as [id0|] eqn:Hn.
  - cbn [left right].
    assert (∀ id, delete id0 (right m) !! id =
      if decide (Some id0 = Some id) then None else right m !! id) as Hr.
    { intros id. destruct (decide (id0 = id)) as [<-|Hne].
      - by rewrite lookup_delete_eq, decide_True.
      - rewrite lookup_delete_ne, decide_False by congruence. done. }
    split; [|done]. intros n id. cbn [left right]. rewrite Hr. destruct (decide (name = n)) as [<-|Hne].
    + rewrite lookup_delete_eq. destruct (decide _) as [|Hid]; [done|].
      split; [done|]. intros Hi. apply Hm in Hi. congruence.
    + rewrite lookup_delete_ne by done. rewrite (Hm n id). destruct (decide _) as [[= <-]|]; [|done].
      split; [|done]. intros Hi. apply Hm in Hn. congruence.
  - split; [done|]. split; [by rewrite delete_id|]. intros id. by rewrite decide_False.
Qed.

Lemma bimap_insert_spec name id m :
  bijective m → left m !! name = None → right m !! id = None →
  bijective (bimap_insert name id m) ∧ left (bimap_insert name id m) = <[name := id]> (left m).
Proof.
  intros Hm Hn Hi. unfold bimap_insert. rewrite Hn, Hi. split; [|done]. intros n i. cbn [left right].
  destruct (decide (name = n)) as [<-|Hne], (decide (id = i)) as [<-|Hni].
  - by rewrite !lookup_insert_eq.
  - rewrite lookup_insert_eq, lookup_insert_ne by done. split; [congruence|].
    intros Hr. apply Hm in Hr. congruence.
  - rewrite lookup_insert_ne, lookup_insert_eq by done. split; [|congruence].
    intros Hr. apply Hm in Hr. congruence.
  - by rewrite !lookup_insert_ne.
Qed.

(** The port map.  Adding a translation succeeds exactly when name and id are given and the id is
    not in use by another port; then the port translates to the id (its previous id, if any, is
    free again) and nothing else changes.  Otherwise the state is unchanged.  Removing a port frees
    its name and id, and always clears its database entries.  Both keep every mapping readable from
    both sides. *)
Theorem port_map_operations (st : PortState) (port_name port_id : str) (update_dbs : bool) :
  bijective (port_translation_map_ st) →
  let m := port_translation_map_ st in
  (let '(r, st') := AddPortTranslation port_name port_id update_dbs st in
   bijective (port_translation_map_ st') ∧
   (r = Ok tt ↔ port_name ≠ [] ∧ port_id ≠ [] ∧
                 (right m !! port_id = None ∨ right m !! port_id = Some port_name)) ∧
   (r = Ok tt → left (port_translation_map_ st') = <[port_name := port_id]> (left m) ∧
      port_app_db st' = if update_dbs then <[port_name := [($"id", port_id)]]> (port_app_db st)
                        else port_app_db st) ∧
   (r ≠ Ok tt → st' = st)) ∧
  (let '(r, st') := RemovePortTranslation port_name st in
   bijective (port_translation_map_ st') ∧ (r = Ok tt ↔ port_name ≠ []) ∧
   (r = Ok tt → left (port_translation_map_ st') = delete port_name (left m) ∧
      port_app_db st' = delete port_name (port_app_db st)) ∧
   (r ≠ Ok tt → st' = st)).
Proof.
  intros Hm m. fold m in Hm. split.
  - unfold AddPortTranslation. fold m. case_bool_decide as Hn; [by split_and?; try done; split; [|intros []]|].
    case_bool_decide as Hi; [by split_and?; try done; split; [|intros (?&?&?)]|].
    destruct (bool_decide (left m !! port_name = Some port_id)) eqn:Hsame; bool_prop.
    { pose proof (proj1 (Hm _ _) Hsame) as Hr.
      destruct update_dbs; cbn; (split; [done|]); (split; [by split; auto|]);
        (split; [|done]); intros _; (split; [by rewrite insert_id|done]). }
    destruct (bool_decide (is_Some (right m !! port_id))) eqn:Hused; bool_prop.
    { split; [done|]. split; [|done]. split; [done|]. intros (_ & _ & [Hr|Hr]).
      - rewrite Hr in Hused. by destruct Hused.
      - apply Hm in Hr. congruence. }
    assert (right m !! port_id = None) as Hfree by (by apply eq_None_not_Some).
    set (m1 := if bool_decide (is_Some (left m !! port_name)) then bimap_left_erase port_name m else m).
    assert (bijective m1 ∧ left m1 = delete port_name (left m) ∧ right m1 !! port_id = None) as (Hb & Hl & Hr).
    { unfold m1. destruct (bool_decide (is_Some (left m !! port_name))) eqn:Hs; bool_prop.
      - destruct (bimap_left_erase_spec port_name m Hm) as (? & ? & Hr). split_and!; [done..|].
        rewrite Hr. by destruct (decide _).
      - split_and!; [done| |done]. rewrite delete_id; [done|]. by apply eq_None_not_Some. }
    destruct (bimap_insert_spec port_name port_id m1 Hb) as [Hb' Hl'];
      [rewrite Hl; apply lookup_delete_eq | done |].
    rewrite Hl, insert_delete_eq in Hl'.
    destruct update_dbs; cbn; (split; [done|]); (split; [by split; auto|]); by split.
  - unfold RemovePortTranslation. fold m. case_bool_decide as Hn; [by split_and?; try done; split|].
    destruct (bimap_left_erase_spec port_name m Hm) as (Hb & Hl & _). cbn.
    split; [done|]. split; [by split|]. by split.
Qed.

Definition example_ports : bimap :=
  mkBimap {[ $"Ethernet0" := $"1" ]} {[ $"1" := $"Ethernet0" ]}.

Lemma example_ports_bijective : bijective example_ports.
Proof.
  intros n i. unfold example_ports. cbn [left right]. rewrite !lookup_singleton_Some. naive_solver.
Qed.

Lemma port_map_operations_witness :
  bijective example_ports ∧
  left (port_translation_map_ (snd (AddPortTranslation $"Ethernet0" $"2" true
    (mkPortState example_ports ∅ ∅)))) = {[ $"Ethernet0" := $"2" ]}.
Proof.
  split; [exact example_ports_bijective|].
  destruct (proj1 (port_map_operations (mkPortState example_ports ∅ ∅) $"Ethernet0" $"2" true
    example_ports_bijective)) as (_ & _ & Hl & _).
  etransitivity; [exact (proj1 (Hl eq_refl)) | reflexivity].
Defined.

(** * Queue translators *)

Definition queues_bijective (t : QueueTranslator) : Prop :=
  ∀ name id, name_to_id_ t !! name = Some id ↔ id_to_name_ t !! id = Some name.

Section queue_lemmas.
Context `{Gutil} (SimpleAtoi : str → option Z).

Lemma create_loop_spec pairs t t' :
  create_loop SimpleAtoi pairs t = Ok t' → queues_bijective t →
  queues_bijective t' ∧
  (∀ name id, name_to_id_ t' !! name = Some id ↔
     name_to_id_ t !! name = Some id ∨ ∃ s, (name, s) ∈ pairs ∧ SimpleAtoi s = Some id).
Proof.
  revert t. induction pairs as [|[name s] pairs IH]; intros t; cbn [create_loop].
  { intros [= <-] Ht. split; [done|]. intros name id. split; [by left|].
    intros [?|(s & ?%elem_of_nil & _)]; done. }
  destruct (SimpleAtoi s) as [id|] eqn:Hs; [|done].
  destruct (bool_decide (is_Some (name_to_id_ t !! name))) eqn:Hn; [done|].
  destruct (bool_decide (is_Some (id_to_name_ t !! id))) eqn:Hi; [done|]. bool_prop.
  apply eq_None_not_Some in Hn, Hi. intros Hloop Ht. apply IH in Hloop as [Hb Hin].
  - split; [done|]. intros name' id'. rewrite Hin. cbn [name_to_id_].
    setoid_rewrite elem_of_cons. destruct (decide (name = name')) as [<-|Hne].
    + rewrite lookup_insert_eq. split.
      * intros [[= <-]|(s' & ? & ?)]; right; [exists s; auto | exists s'; auto].
      * intros [?|(s' & [[= ->]|?] & ?)]; [congruence|left; congruence|right; by exists s'].
    + rewrite lookup_insert_ne by done. split.
      * intros [?|(s' & ? & ?)]; [by left | right; exists s'; auto].
      * intros [?|(s' & [[= -> ->]|?] & ?)]; [by left | done | right; by exists s'].
  - intros name' id'. cbn [name_to_id_ id_to_name_].
    destruct (decide (name = name')) as [<-|Hne], (decide (id = id')) as [<-|Hni].
    + by rewrite !lookup_insert_eq.
    + rewrite lookup_insert_eq, lookup_insert_ne by done. split; [congruence|].
      intros Hx. apply Ht in Hx. congruence.
    + rewrite lookup_insert_ne, lookup_insert_eq by done. split; [|congruence].
      intros Hx. apply Ht in Hx. congruence.
    + rewrite !lookup_insert_ne by done. apply Ht.
Qed.

(** A queue translator, once created, is a bijection between exactly the names and ids it was
    given: every pair translates both ways, and nothing else translates.  (Creation fails on an id
    that is not an integer, and on a repeated name or id.) *)
Theorem queue_translator_bijection (name_id_pairs : list (str * str)) (t : QueueTranslator) :
  CreateQueueTranslator SimpleAtoi name_id_pairs = Ok t →
  ∀ name id,
    (NameToId t name = Ok id ↔ IdToName t id = Ok name) ∧
    (NameToId t name = Ok id ↔ ∃ id_string, (name, id_string) ∈ name_id_pairs ∧
                                 SimpleAtoi id_string = Some id).
Proof.
  intros Hc name id. apply create_loop_spec in Hc as [Hb Hin].
  - unfold NameToId, IdToName. rewrite !FindOrStatus_Ok. split; [apply Hb|]. rewrite Hin.
    cbn. rewrite lookup_empty. naive_solver.
  - intros n i. cbn. by rewrite !lookup_empty.
Qed.
End queue_lemmas.

Definition example_atoi (s : str) : option Z := if bool_decide (s = $"5") then Some 5 else None.

Lemma queue_translator_bijection_witness :
  ∃ t, CreateQueueTranslator example_atoi [($"CONTROLLER_PRIORITY_1", $"5")] = Ok t ∧
    (NameToId t $"CONTROLLER_PRIORITY_1" = Ok 5 ↔ IdToName t 5 = Ok $"CONTROLLER_PRIORITY_1").
Proof.
  eexists. split; [reflexivity|].
  exact (proj1 (queue_translator_bijection example_atoi [($"CONTROLLER_PRIORITY_1", $"5")] _ eq_refl
    $"CONTROLLER_PRIORITY_1" 5)).
Defined.

(** * Translating there and back *)

Section translate_back.
Context `{Gutil} (SimpleAtoi SimpleHexAtoi : str → option Z) (FormatHex : Z → str)
  (IsStructurallyValid : str → bool).
(** What is printed with "%#x" is read back, when it is not negative. *)
Context (SimpleHexAtoi_FormatHex : ∀ z, 0 ≤ z < 2 ^ 31 → SimpleHexAtoi (FormatHex z) = Some z).

Context (definitions : gmap str IrTableDefinition) (translate_port_ids : bool) (port_map : bimap)
  (cpu front_panel : QueueTranslator).
(** The maps of a running server: two-way, with port names and ids that are UTF-8, names that are
    not empty, and queue ids that are not negative. *)
Record translatable : Prop := {
  ports_two_way : bijective port_map;
  ports_valid name id : left port_map !! name = Some id →
    IsStructurallyValid name = true ∧ IsStructurallyValid id = true ∧ name ≠ [];
  queues_two_way : queues_bijective cpu ∧ queues_bijective front_panel;
  queues_in_range name id :
    name_to_id_ cpu !! name = Some id ∨ name_to_id_ front_panel !! name = Some id → 0 ≤ id < 2 ^ 31;
}.
Context (Hmaps : translatable).

Abbreviation there := (mkOptions kForOrchAgent definitions translate_port_ids port_map cpu front_panel).
Abbreviation back := (mkOptions kForController definitions translate_port_ids port_map cpu front_panel).
Abbreviation TranslatePort := (TranslatePort IsStructurallyValid).
Abbreviation TranslateTableEntry :=
  (TranslateTableEntry SimpleAtoi SimpleHexAtoi FormatHex IsStructurallyValid).

(** The queue parameters of an action name known queues. *)
Definition queue_param_known (action_def : IrActionDefinition) (param : str * IrValue) : Prop :=
  ∀ param_def s, params_by_name action_def !! fst param = Some param_def → snd param = kStr s →
    (IsCpuQueue (type_of (IrData.param param_def)) = true → is_Some (name_to_id_ cpu !! s)) ∧
    (IsFrontPanelQueue (type_of (IrData.param param_def)) = true → is_Some (name_to_id_ front_panel !! s)).

Definition action_queues_known (table_def : IrTableDefinition) (a : Ir.ActionInvocation) : Prop :=
  ∀ entry_action, entry_action ∈ entry_actions table_def →
    alias (action_preamble (ref_action entry_action)) = Ir.action_name a →
    Forall (queue_param_known (ref_action entry_action)) (Ir.params a).

Definition queues_known (entry : Ir.TableEntry) : Prop :=
  ∀ table_def, definitions !! Ir.table_name entry = Some table_def →
    match Ir.entry_action entry with
    | Ir.kAction a => action_queues_known table_def a
    | Ir.kActionSet l => Forall (λ i, action_queues_known table_def (Ir.action_ i)) l
    | Ir.kNoAction => True
    end.

Lemma TranslatePort_back p v :
  TranslatePort kForOrchAgent port_map p = Ok v ↔ TranslatePort kForController port_map v = Ok p.
Proof using Hmaps.
  unfold PortTranslation.TranslatePort. split; intros Ht.
  - destruct (negb _); [done|]. destruct (right port_map !! p) as [n|] eqn:Hp; [|done].
    injection Ht as <-. apply (ports_two_way Hmaps) in Hp.
    destruct (ports_valid Hmaps _ _ Hp) as (-> & _ & _). cbn [negb]. by rewrite Hp.
  - destruct (negb _); [done|]. destruct (left port_map !! v) as [n|] eqn:Hp; [|done].
    injection Ht as <-. destruct (ports_valid Hmaps _ _ Hp) as (_ & -> & _).
    apply (ports_two_way Hmaps) in Hp. cbn [negb]. by rewrite Hp.
Qed.

Lemma TranslatePortValue_back v v' :
  TranslatePortValue IsStructurallyValid kForOrchAgent port_map v = Ok v' →
  TranslatePortValue IsStructurallyValid kForController port_map v' = Ok v.
Proof using Hmaps.
  destruct v; cbn [TranslatePortValue]; try done.
  intros (s' & Hs & [= <-])%bind_Ok_iff. apply TranslatePort_back in Hs.
  cbn [TranslatePortValue]. by rewrite Hs.
Qed.

Lemma OptionallyTranslateQueue_back t v v' :
  queues_bijective t → (∀ s, v = kStr s → ∃ id, name_to_id_ t !! s = Some id ∧ 0 ≤ id < 2 ^ 31) →
  OptionallyTranslateQueue SimpleAtoi SimpleHexAtoi FormatHex kForOrchAgent t v = Ok v' →
  OptionallyTranslateQueue SimpleAtoi SimpleHexAtoi FormatHex kForController t v' = Ok v.
Proof using SimpleHexAtoi_FormatHex.
  intros Hq Hk. destruct v as [s|s|s|s|s|]; cbn [OptionallyTranslateQueue]; try done. intros [= <-].
  destruct (Hk s eq_refl) as (id & Hid & Hr).
  unfold OptionallyTranslateNameToIdInHexString, NameToId. rewrite Hid.
  cbn [FindOrStatus OptionallyTranslateQueue]. unfold OptionallyTranslateIdToName, IdToName. rewrite SimpleHexAtoi_FormatHex by done.
  apply Hq in Hid. by rewrite Hid.
Qed.

Lemma TranslateParam_back action_def p p' :
  queue_param_known action_def p →
  TranslateParam SimpleAtoi SimpleHexAtoi FormatHex IsStructurallyValid there action_def p = Ok p' →
  TranslateParam SimpleAtoi SimpleHexAtoi FormatHex IsStructurallyValid back action_def p' = Ok p.
Proof using SimpleHexAtoi_FormatHex Hmaps.
  destruct p as [name v]. intros Hk. unfold TranslateParam.
  destruct (params_by_name action_def !! name) as [param_def|] eqn:Hty; [|done].
  cbv zeta.
  cbn [PortTranslation.translate_port_ids PortTranslation.direction PortTranslation.port_map
    cpu_queue_translator front_panel_queue_translator].
  assert (∀ t, (t = cpu ∨ t = front_panel) → (∀ s, v = kStr s → is_Some (name_to_id_ t !! s)) →
    ∀ s, v = kStr s → ∃ id, name_to_id_ t !! s = Some id ∧ 0 ≤ id < 2 ^ 31) as Hrange.
  { intros t Ht Hs s Hv. destruct (Hs s Hv) as [id Hid]. exists id. split; [done|].
    apply (queues_in_range Hmaps s). destruct Ht as [->| ->]; auto. }
  intros (v' & Hv & [= <-])%bind_Ok_iff. rewrite Hty. cbv zeta.
  destruct (translate_port_ids && IsPortType (type_of (param param_def))).
  { apply TranslatePortValue_back in Hv. by rewrite Hv. }
  destruct (IsCpuQueue (type_of (param param_def))) eqn:Hc; [|destruct (IsFrontPanelQueue (type_of (param param_def))) eqn:Hf].
  - apply OptionallyTranslateQueue_back in Hv; [by rewrite Hv|apply (queues_two_way Hmaps)|].
    apply Hrange; [by left|]. intros s Hs. by apply (Hk param_def s).
  - apply OptionallyTranslateQueue_back in Hv; [by rewrite Hv|apply (queues_two_way Hmaps)|].
    apply Hrange; [by right|]. intros s Hs. by apply (Hk param_def s).
  - by injection Hv as <-.
Qed.

Lemma TranslateAction_back table_def a a' :
  action_queues_known table_def a →
  TranslateAction SimpleAtoi SimpleHexAtoi FormatHex IsStructurallyValid there table_def a = Ok a' →
  TranslateAction SimpleAtoi SimpleHexAtoi FormatHex IsStructurallyValid back table_def a' = Ok a ∧
  Ir.action_name a' = Ir.action_name a.
Proof using SimpleHexAtoi_FormatHex Hmaps.
  intros Hk. unfold TranslateAction. destruct (List.find _ _) as [def|] eqn:Hf; [|done].
  intros (ps & Hps & [= <-])%bind_Ok_iff. cbn [Ir.action_name Ir.params]. split; [|done].
  rewrite Hf. apply List.find_some in Hf as [Hin Hal%bool_decide_eq_true].
  specialize (Hk def ltac:(by apply list_elem_of_In) Hal). rewrite Forall_forall in Hk.
  rewrite (map_result_inverse _ _ _ _ (λ p p' Hp, TranslateParam_back (ref_action def) p p' (Hk p Hp)) Hps).
  by destruct a.
Qed.

Lemma TranslateInvocation_back table_def i i' :
  action_queues_known table_def (Ir.action_ i) →
  TranslateInvocation SimpleAtoi SimpleHexAtoi FormatHex IsStructurallyValid there table_def i = Ok i' →
  TranslateInvocation SimpleAtoi SimpleHexAtoi FormatHex IsStructurallyValid back table_def i' = Ok i.
Proof using SimpleHexAtoi_FormatHex Hmaps.
  intros Hk. unfold TranslateInvocation. destruct i as [a w port].
  cbn [Ir.action_ Ir.watch_port Ir.weight_ PortTranslation.translate_port_ids
    PortTranslation.direction PortTranslation.port_map] in *.
  intros (a' & Ha & (port' & Hp & [= <-])%bind_Ok_iff)%bind_Ok_iff.
  cbn [Ir.action_ Ir.watch_port Ir.weight_].
  apply TranslateAction_back in Ha as [-> _]; [|done]. cbn [mbind result_bind].
  destruct translate_port_ids; cbn [andb] in *; [|by injection Hp as <-].
  destruct (bool_decide (port = [])) eqn:Hport; cbn [negb] in *; bool_prop.
  - injection Hp as <-. by rewrite Hport.
  - apply TranslatePort_back in Hp. rewrite bool_decide_eq_false_2; [by cbn [negb]; rewrite Hp|].
    intros ->. unfold PortTranslation.TranslatePort in Hp. destruct (negb _); [done|].
    destruct (left port_map !! []) as [id|] eqn:Hl; [|done]. by apply (ports_valid Hmaps) in Hl as (_ & _ & ?).
Qed.

Lemma TranslateMatchField_back table_def f f' :
  TranslateMatchField IsStructurallyValid there table_def f = Ok f' →
  TranslateMatchField IsStructurallyValid back table_def f' = Ok f.
Proof using Hmaps.
  unfold TranslateMatchField. destruct f as [name v]. cbn [Ir.match_name Ir.match_value].
  destruct (match_fields_by_name table_def !! name) as [match_def|] eqn:Hty; [|done].
  cbn [PortTranslation.translate_port_ids PortTranslation.direction PortTranslation.port_map].
  destruct (translate_port_ids && IsPortType (type_of (match_element (match_field match_def)))) eqn:Hp.
  - intros (v' & Hv & [= <-])%bind_Ok_iff. cbn [Ir.match_name Ir.match_value]. rewrite Hty, Hp.
    destruct v; cbn [TranslatePortInMatchField] in Hv; try done;
      apply bind_Ok_iff in Hv as (w & Hw%TranslatePortValue_back & [= <-]);
      cbn [TranslatePortInMatchField]; by rewrite Hw.
  - intros [= <-]. cbn [Ir.match_name]. by rewrite Hty, Hp.
Qed.

Lemma TranslatePortInReplica_back r r' :
  TranslatePortInReplica IsStructurallyValid there r = Ok r' →
  TranslatePortInReplica IsStructurallyValid back r' = Ok r.
Proof using Hmaps.
  unfold TranslatePortInReplica. destruct r as [port inst backups].
  cbn [PortTranslation.translate_port_ids PortTranslation.direction PortTranslation.port_map
    Ir.replica_port Ir.replica_instance Ir.backup_replicas].
  destruct translate_port_ids; [|by intros [= <-]].
  intros (port' & Hp%TranslatePort_back & (bs & Hbs & [= <-])%bind_Ok_iff)%bind_Ok_iff.
  cbn [Ir.replica_port Ir.replica_instance Ir.backup_replicas]. rewrite Hp. cbn [mbind result_bind].
  erewrite map_result_inverse; [done| |exact Hbs].
  intros b b' _ (p & Hb%TranslatePort_back & [= <-])%bind_Ok_iff.
  cbn [Ir.backup_port Ir.backup_instance]. rewrite Hb. by destruct b.
Qed.

(** C35.  What the controller wrote is what it reads back.  For the maps of a running server ([translatable]: one
    to one, port names and ids valid UTF-8 and names not empty, queue ids not negative): when the ports, queues and action sets of a
    table entry, or the replicas of a multicast group, have been translated for the OrchAgent,
    translating the result for the controller gives the original, provided its queues are known
    names; and every port translates one way exactly if it translates back the other. *)
Theorem translation_roundtrip (entry entry' : Ir.TableEntry) (group group' : Ir.MulticastGroupEntry)
  (port port' : str) :
  queues_known entry →
  (TranslateTableEntry there entry = Ok entry' → TranslateTableEntry back entry' = Ok entry) ∧
  (TranslatePacketReplicationEntry IsStructurallyValid there (Ir.kMulticastGroupEntry group) =
     Ok (Ir.kMulticastGroupEntry group') →
   TranslatePacketReplicationEntry IsStructurallyValid back (Ir.kMulticastGroupEntry group') =
     Ok (Ir.kMulticastGroupEntry group)) ∧
  (TranslatePort kForOrchAgent port_map port = Ok port' ↔
   TranslatePort kForController port_map port' = Ok port).
Proof using SimpleHexAtoi_FormatHex Hmaps.
  intros Hk. split; [|split; [|apply TranslatePort_back]].
  - unfold PortTranslation.TranslateTableEntry. destruct entry as [name fields prio act meters counters meter_counters md].
    cbn [Ir.table_name Ir.matches Ir.entry_action PortTranslation.definitions].
    destruct (definitions !! name) as [table_def|] eqn:Hdef; [|done].
    intros (ms & Hms & (act' & Hact & [= <-])%bind_Ok_iff)%bind_Ok_iff.
    unfold set_matches_and_action. cbn [Ir.table_name Ir.matches Ir.entry_action]. rewrite Hdef.
    rewrite (map_result_inverse _ _ _ _ (λ f f' _, TranslateMatchField_back table_def f f') Hms).
    cbn [mbind result_bind]. specialize (Hk table_def Hdef). cbn [Ir.entry_action] in Hk.
    destruct act as [a|l|].
    + apply bind_Ok_iff in Hact as (a' & Ha & [= <-]). by apply TranslateAction_back in Ha as [-> _].
    + apply bind_Ok_iff in Hact as (l' & Hl & [= <-]). unfold TranslateActionSet in *.
      rewrite Forall_forall in Hk.
      by rewrite (map_result_inverse _ _ _ _
        (λ i i' Hi, TranslateInvocation_back table_def i i' (Hk i Hi)) Hl).
    + by injection Hact as <-.
  - unfold TranslatePacketReplicationEntry. destruct group as [id rs md].
    cbn [mutable_multicast_group_entry Ir.group_id Ir.replicas Ir.group_metadata].
    intros (rs' & Hrs & [= <-])%bind_Ok_iff.
    cbn [mutable_multicast_group_entry Ir.group_id Ir.replicas Ir.group_metadata].
    by rewrite (map_result_inverse _ _ _ _ (λ r r' _, TranslatePortInReplica_back r r') Hrs).
Qed.
End translate_back.

(** A pipeline with one table, matching on a port and setting a queue; numbers are in unary. *)
Definition unary (z : Z) : str := replicate (Z.to_nat z) zero.

Lemma unary_read_back z : 0 ≤ z < 2 ^ 31 → Some (zlen (unary z)) = Some z.
Proof. intros Hz. unfold unary, zlen. rewrite length_replicate. f_equal. lia. Qed.

Definition example_queues : QueueTranslator :=
  mkQueueTranslator {[ 5 := $"CPU_5" ]} {[ $"CPU_5" := 5 ]}.
Definition example_definitions : gmap str IrTableDefinition :=
  let in_port := mkIrMatchFieldDefinition
    (mkMatchField (mkElement 1 $"in_port" [] 0 (Some $"port_id_t")) EXACT) STRING [] false in
  let queue := mkIrActionParamDefinition (mkElement 1 $"queue" [] 0 (Some $"cpu_queue_t")) STRING [] in
  let trap := mkIrActionDefinition (named 1 $"trap") {[ 1 := queue ]} {[ $"queue" := queue ]} false in
  {[ $"acl" := mkIrTableDefinition (named 1 $"acl") {[ 1 := in_port ]} {[ $"in_port" := in_port ]}
                 [mkIrActionReference 1 trap 1] [] 0 false None false None None None [] false [] [] ]}.
Definition example_entry (port queue : str) : Ir.TableEntry :=
  Ir.mkEntry $"acl" [Ir.mkMatch $"in_port" (Ir.kExact (kStr port))] 0
    (Ir.kAction (Ir.mkAction $"trap" [($"queue", kStr queue)])) None None None [].
Definition example_group (port : str) : Ir.MulticastGroupEntry :=
  Ir.mkMulticast 1 [Ir.mkReplica port 0 [Ir.mkBackup port 1]] [].

Lemma example_translatable : translatable (λ _, true) example_ports example_queues example_queues.
Proof.
  assert (queues_bijective example_queues) as Hq.
  { intros n i. unfold example_queues. cbn [name_to_id_ id_to_name_].
    rewrite !lookup_singleton_Some. tauto. }
  split.
  - exact example_ports_bijective.
  - intros n i. unfold example_ports. cbn [left]. rewrite lookup_singleton_Some.
    intros [<- _]. done.
  - done.
  - intros n i Hi. assert (name_to_id_ example_queues !! n = Some i) as Hi' by tauto.
    unfold example_queues in Hi'. cbn [name_to_id_] in Hi'.
    apply lookup_singleton_Some in Hi' as [_ <-]. lia.
Qed.

Lemma example_queues_known :
  queues_known example_definitions example_queues example_queues (example_entry $"1" $"CPU_5").
Proof.
  intros table_def Hdef action_def Hin Hal. apply Forall_singleton. intros param_def s Hty Hs.
  cbn in Hs. injection Hs as <-. split; intros _; by exists 5.
Qed.

Lemma translation_roundtrip_witness :
  TranslateTableEntry (λ _, None) (λ s, Some (zlen s)) unary (λ _, true)
    (mkOptions kForOrchAgent example_definitions true example_ports example_queues example_queues)
    (example_entry $"1" $"CPU_5") = Ok (example_entry $"Ethernet0" (unary 5)) ∧
  TranslateTableEntry (λ _, None) (λ s, Some (zlen s)) unary (λ _, true)
    (mkOptions kForController example_definitions true example_ports example_queues example_queues)
    (example_entry $"Ethernet0" (unary 5)) = Ok (example_entry $"1" $"CPU_5").
Proof.
  assert (TranslateTableEntry (λ _, None) (λ s, Some (zlen s)) unary (λ _, true)
    (mkOptions kForOrchAgent example_definitions true example_ports example_queues example_queues)
    (example_entry $"1" $"CPU_5") = Ok (example_entry $"Ethernet0" (unary 5))) as Hthere
    by (vm_compute; reflexivity).
  split; [exact Hthere|].
  refine (proj1 (translation_roundtrip (λ _, None) (λ s, Some (zlen s)) unary (λ _, true)
    unary_read_back example_definitions true example_ports example_queues example_queues
    example_translatable (example_entry $"1" $"CPU_5") (example_entry $"Ethernet0" (unary 5))
    (example_group $"1") (example_group $"Ethernet0") $"1" $"Ethernet0" example_queues_known) Hthere).
Defined.
