(* ===== verification/SonicWrite.v ===== *)
(** p4rt_app/p4runtime: the write requests of WritePath.v with the translations the server uses: those of
    PDPI (IrTranslation.v) and those of ports and queues (PortTranslation.v).  They keep the laws that the
    theorems on writes rely on, and no request whose numbers are in range stops the server. *)
From S2P Require Import Prelude Abseil NetAddr NetAddrText IrUtils EntityKeys IrData IrTranslation IrRoundtrip IrReplication IrProgramCorrect IrCorrect IrTotal ResourceUtilization AppDb WritePath WriteCorrect PortTranslation.
From S2P Require SdnController.

(** * The translations of the server *)

(** The members of [P4RuntimeImpl] that the translation of an update reads. *)
Record Translations := mkTranslations {
  translate_port_ids_ : bool;
  port_translation_map : bimap;
  cpu_queues : QueueTranslator;
  front_panel_queues : QueueTranslator;
}.

(** The code outside of the repository, and the encoding for the application database. *)
Class SwitchLibraries (C : Type) := {
  valid_utf8 : str → bool;
  simple_atoi : str → option Z;
  simple_hex_atoi : str → option Z;
  format_hex : Z → str;
  reason_entry_violates_constraint : TableEntry → C → result str;
  create_app_db_update : UpdateType → IrEntity → IrP4Info → result AppDbUpdate;
}.

Section sonic.
Context {C : Type} `{SwitchLibraries C} `{AbslStringsLaws} `{!Ipv6.Inet, !Ipv6.InetLaws} `{Gutil}.

(** The options of [PiUpdateToEntityUpdate]. *)
Definition pdpi_options (key_only : bool) : TranslationOptions := mkTranslationOptions key_only false false.

#[global] Instance SonicTranslation : EntityTranslation C Translations := {|
  WritePath.PiEntityToIr p4_info e key_only :=
    IrTranslation.PiEntityToIr valid_utf8 p4_info e (pdpi_options key_only);
  WritePath.IrEntityToPi p4_info ir key_only := IrTranslation.IrEntityToPi p4_info ir (pdpi_options key_only);
  WritePath.ReasonEntryViolatesConstraint := reason_entry_violates_constraint;
  WritePath.UpdateIrEntityForOrchAgent ir p4_info t :=
    PortTranslation.UpdateIrEntityForOrchAgent simple_atoi simple_hex_atoi format_hex valid_utf8
      (tables_by_name p4_info) (translate_port_ids_ t) (port_translation_map t) (cpu_queues t)
      (front_panel_queues t) ir;
  WritePath.CreateAppDbUpdate := create_app_db_update;
|}.

(** * The laws of the translations *)

(** The table of an entry that is translated. *)
Lemma pi_entry_table info t options te :
  PiTableEntryToIr valid_utf8 info t options = Ok te →
  ∃ table, tables_by_id info !! table_id t = Some table ∧ Ir.table_name te = preamble_alias table.
Proof.
  unfold PiTableEntryToIr. destruct (tables_by_id info !! table_id t) as [table|]; [|done].
  intros ([[[u n] out] r] & _ & (r' & _ & Hr)%bind_Ok_iff)%bind_Ok_iff. exists table. split; [done|].
  destruct (key_only options); [by apply unless_invalid_Ok in Hr as [_ <-]|].
  apply bind_Ok_iff in Hr as ([a r2] & _ & Hr). by apply unless_invalid_Ok in Hr as [_ <-].
Qed.

Lemma ir_entry_table info te options t :
  IrTableEntryToPi info te options = Ok t →
  ∃ table, tables_by_name info !! Ir.table_name te = Some table ∧ table_id t = preamble_id table ∧
    (key_only options = false → IrEntryActionToPi info options table (Ir.entry_action te) = Ok (action t)).
Proof.
  unfold IrTableEntryToPi. destruct (tables_by_name info !! Ir.table_name te) as [table|]; [|done].
  intros ([[[u n] out] r] & _ & (r' & _ & Hr)%bind_Ok_iff)%bind_Ok_iff. exists table. split; [done|].
  destruct (key_only options); [by apply unless_invalid_Ok in Hr as [_ <-]|].
  apply bind_Ok_iff in Hr as ([a r2] & Ha & Hr). apply unless_invalid_Ok in Hr as [Hf <-]. split; [done|]. intros _.
  by apply attempt_Ok in Ha as [(x & Hx & [= <- <-])|(e & _ & [= <- <-])].
Qed.

(** An action set keeps its weights. *)
Lemma entry_action_weights info options table te a :
  IrEntryActionToPi info options table (Ir.entry_action te) = Ok a →
  map weight (action_profile_actions a) = map Ir.weight_ (action_set te).
Proof.
  unfold IrEntryActionToPi, action_set. destruct (Ir.entry_action te) as [x|l|].
  - destruct (uses_oneshot table); [done|]. case_bool_decide; [done|]. by intros (y & _ & [= <-])%bind_Ok_iff.
  - destruct (negb _); [done|]. intros (l' & Hl%translate_all_Ok & [_ <-]%unless_invalid_Ok)%bind_Ok_iff.
    cbn [action_profile_actions]. induction Hl as [|i p l l' Hi Hl IH]; [done|]. cbn [map]. rewrite IH. f_equal.
    unfold IrProfileActionToPi in Hi. apply bind_Ok_iff in Hi as (y & _ & Hi).
    destruct (_ <? 1); [done|]. by injection Hi as <-.
  - by intros [_ <-]%unless_invalid_Ok.
Qed.

Lemma map_result_map {A B D} (f : A → result B) (g : B → D) (h : A → D) l l' :
  (∀ x y, f x = Ok y → g y = h x) → map_result f l = Ok l' → map g l' = map h l.
Proof. intros Hf Hl%map_result_Ok. induction Hl; [done|]. cbn [map]. f_equal; auto. Qed.

Lemma orch_agent_entry options te te' :
  TranslateTableEntry simple_atoi simple_hex_atoi format_hex valid_utf8 options
    (Convert64BitIpv6AclMatchFieldsTo128Bit te) = Ok te' →
  Ir.table_name te' = Ir.table_name te ∧ map Ir.weight_ (action_set te') = map Ir.weight_ (action_set te).
Proof.
  unfold TranslateTableEntry. cbn [Convert64BitIpv6AclMatchFieldsTo128Bit set_matches_and_action Ir.table_name
    Ir.entry_action Ir.matches].
  destruct (definitions options !! Ir.table_name te) as [table|]; [|done].
  intros (ms & _ & (a & Ha & [= <-])%bind_Ok_iff)%bind_Ok_iff. split; [done|]. unfold action_set.
  cbn [set_matches_and_action Ir.entry_action].
  destruct (Ir.entry_action te) as [x|l|].
  - by apply bind_Ok_iff in Ha as (y & _ & [= <-]).
  - apply bind_Ok_iff in Ha as (l' & Hl & [= <-]). revert Hl. apply map_result_map. intros i i'.
    unfold TranslateInvocation. by intros (y & _ & (w & _ & [= <-])%bind_Ok_iff)%bind_Ok_iff.
  - by injection Ha as <-.
Qed.

(** C7.  The server's translations are a model of the interface that the theorems on write requests are proved
    against: for the tables of a well-formed program, an entry keeps its table and the weights of its
    action set through the translation to the intermediate representation, back, and for the
    OrchAgent; and nothing else becomes a table entry. *)
Theorem sonic_translation_laws (info : IrP4Info) :
  well_formed info → TranslationLaws C Translations info.
Proof.
  intros Hwf. split; cbn [WritePath.PiEntityToIr WritePath.IrEntityToPi WritePath.UpdateIrEntityForOrchAgent SonicTranslation].
  - intros e b te pi He Hpi. destruct e as [t|pre|f]; cbn [IrTranslation.PiEntityToIr] in He.
    + apply bind_Ok_iff in He as (x & Hx & [= ->]). apply bind_Ok_iff in Hpi as (t' & Ht' & [= <-]).
      destruct (pi_entry_table _ _ _ _ Hx) as (table & Htable & Hname).
      destruct (ir_entry_table _ _ _ _ Ht') as (table' & Htable' & Hid & Hact).
      exists t', table'. split_and!; [done|done| |].
      * destruct (found_by_id _ _ _ _ (tables_indexed _ Hwf) _ _ Htable) as [Hi Hn].
        rewrite Hname, Hn in Htable'. injection Htable' as <-. by rewrite Hid, Hi.
      * intros ->. by apply (entry_action_weights info _ _ _ _ (Hact eq_refl)).
    + by apply bind_Ok_iff in He as (x & _ & [=]).
    + by apply bind_Ok_iff in He as (x & _ & [=]).
  - intros e b ir pi _ Hir Hpi t ->. destruct ir as [te|pre|]; [by eapply Hir| |done]. cbn in Hpi.
    by apply bind_Ok_iff in Hpi as (? & _ & [=]).
  - intros te t ir (te' & Hte & [= <-])%bind_Ok_iff. exists te'. split; [done|]. by eapply orch_agent_entry.
  - intros ir t ir' Hir Hnot te ->. destruct ir as [te0|pre|]; [by eapply Hnot| |done]. cbn in Hir.
    by apply bind_Ok_iff in Hir as (? & _ & [=]).
Qed.

(** * Nothing aborts *)

(** ** Ports, queues and capacities *)

Lemma TranslatePort_no_die d m p : no_die (TranslatePort valid_utf8 d m p).
Proof. unfold TranslatePort. no_die. Qed.
#[local] Hint Resolve TranslatePort_no_die : no_die.

Lemma TranslatePortValue_no_die d m v : no_die (TranslatePortValue valid_utf8 d m v).
Proof. unfold TranslatePortValue. no_die. Qed.
#[local] Hint Resolve TranslatePortValue_no_die : no_die.

Lemma OptionallyTranslateQueue_no_die d t v :
  no_die (OptionallyTranslateQueue simple_atoi simple_hex_atoi format_hex d t v).
Proof. unfold OptionallyTranslateQueue, OptionallyTranslateIdToName. no_die. Qed.
#[local] Hint Resolve OptionallyTranslateQueue_no_die : no_die.

Lemma TranslateAction_no_die options table a :
  no_die (TranslateAction simple_atoi simple_hex_atoi format_hex valid_utf8 options table a).
Proof.
  unfold TranslateAction. destruct (List.find _ _); [|no_die]. apply no_die_bind; [|no_die].
  apply map_result_no_die. intros [n v] _. unfold TranslateParam. no_die.
Qed.
#[local] Hint Resolve TranslateAction_no_die : no_die.

Lemma TranslateTableEntry_no_die options te :
  no_die (TranslateTableEntry simple_atoi simple_hex_atoi format_hex valid_utf8 options te).
Proof.
  unfold TranslateTableEntry. destruct (_ !! _); [|no_die]. apply no_die_bind; [|intros ms; apply no_die_bind; [|no_die]].
  - apply map_result_no_die. intros m _. unfold TranslateMatchField, TranslatePortInMatchField. no_die.
  - destruct (Ir.entry_action te); [no_die| |no_die]. apply no_die_bind; [|no_die].
    apply map_result_no_die. intros x _. unfold TranslateInvocation. no_die.
Qed.

Lemma UpdateIrEntityForOrchAgent_no_die ir info t : no_die (WritePath.UpdateIrEntityForOrchAgent ir info t).
Proof.
  destruct ir as [te|pre|]; cbn; [apply no_die_bind; [apply TranslateTableEntry_no_die|no_die]| |no_die].
  apply no_die_bind; [|no_die]. unfold UpdateIrPacketReplicationEngineEntryForOrchAgent, TranslatePacketReplicationEntry.
  apply no_die_bind; [|no_die]. apply map_result_no_die. intros r _. unfold TranslatePortInReplica.
  destruct (translate_port_ids _); [|no_die]. apply no_die_bind; [no_die|]. intros p. apply no_die_bind; [|no_die].
  apply map_result_no_die. intros b _. no_die.
Qed.
Lemma NewResources_no_die {A} info (u : EntityUpdate A) te : no_die (NewResources info u te).
Proof.
  unfold NewResources, GetResourceUsageForIrTableEntry, GetActionProfileName, FindOrStatus.
  repeat (case_match; try done); simplify_eq.
Qed.

Lemma OldResources_no_die {A} info (u : EntityUpdate A) cache : no_die (OldResources info u cache).
Proof.
  unfold OldResources, GetResourceUsageForPiTableEntry, GetActionProfileName, FindOrStatus.
  repeat (case_match; try done); simplify_eq.
Qed.

Lemma VerifyCapacity_no_die {A} info (u : EntityUpdate A) cache capacities batch :
  no_die (fst (VerifyCapacityAndGetTableResourceChange info u cache capacities batch)).
Proof.
  unfold VerifyCapacityAndGetTableResourceChange. destruct (entry u) as [te| |]; [|done..].
  destruct (NewResources info u te) as [n|c|] eqn:Hn; [|done|by apply NewResources_no_die in Hn].
  destruct (OldResources info u cache) as [o|c|] eqn:Ho; [|done|by apply OldResources_no_die in Ho].
  cbv zeta. destruct (action_profile _) as [p|]; [|done]. destruct (capacities !! _) as [cap|]; [|done].
  assert (∀ a w, no_die (fst (CheckCapacity cap a w p batch))) as Hc.
  { intros a w. unfold CheckCapacity. by repeat match goal with |- context [if ?b then _ else _] => destruct b end. }
  match goal with |- context [CheckCapacity cap ?a ?w p batch] =>
    specialize (Hc a w); by destruct (CheckCapacity cap a w p batch) as [[]] end.
Qed.

(** * Updates *)

(** The libraries that are called report errors and return. *)
Class SwitchLibrariesReturn : Prop := {
  constraints_return entry constraint_info : no_die (reason_entry_violates_constraint entry constraint_info);
  encodings_return type ir info : no_die (create_app_db_update type ir info);
}.
Context `{!SwitchLibrariesReturn}.

Lemma CheckTableEntry_no_die info pi_update role_name ci te :
  no_die (CheckTableEntry info pi_update role_name ci te).
Proof.
  unfold CheckTableEntry, ValidateTableEntryConstraints, AllowRoleAccessToTable. apply no_die_bind; [|intros a; no_die].
  destruct (negb _), ci; try solve [no_die]. apply no_die_bind; [apply constraints_return|intros a; no_die].
Qed.

Lemma PiUpdateToEntityUpdate_no_die info pi_update role_name ci t :
  well_formed info → addresses_full info → entity_in_range (entity pi_update) →
  no_die (PiUpdateToEntityUpdate info pi_update role_name ci t).
Proof.
  intros Hwf Hfull Hr. unfold PiUpdateToEntityUpdate. cbv zeta.
  destruct (WritePath.PiEntityToIr info (entity pi_update) _) as [ir|c|] eqn:Hir; [|done|by apply PiEntityToIr_no_die in Hir].
  cbn [mbind result_bind]. apply no_die_bind.
  - destruct ir as [te| |]; [|no_die..]. apply CheckTableEntry_no_die.
  - intros []. apply no_die_bind; [apply UpdateIrEntityForOrchAgent_no_die|]. intros ir'.
    cbn [WritePath.PiEntityToIr WritePath.IrEntityToPi SonicTranslation] in *.
    rewrite (entity_back valid_utf8 info _ _ ir Hwf Hfull Hr Hir).
    apply no_die_bind; [unfold MakeEntityKey; no_die|]. intros k. apply no_die_bind; [apply encodings_return|no_die].
Qed.

Lemma translate_loop_no_die info role_name ci t cache capacities pi_updates keys batch acc :
  well_formed info → addresses_full info → Forall (λ u, entity_in_range (entity u)) pi_updates →
  no_die (translate_loop pi_updates role_name info cache capacities ci t keys batch acc).
Proof.
  intros Hwf Hfull. revert keys batch acc. induction pi_updates as [|u us IH]; intros keys batch acc Hr; [done|].
  apply Forall_cons in Hr as [Hu Hr]. cbn [translate_loop].
  pose proof (PiUpdateToEntityUpdate_no_die info u role_name (Some ci) t Hwf Hfull Hu) as Hd.
  destruct (PiUpdateToEntityUpdate _ _ _ _ _) as [e|c|]; [|done..]. case_bool_decide; [done|].
  destruct (VerifyEntityCacheForExistence cache e) as [[]|c|] eqn:He; [|done|].
  2: { unfold VerifyEntityCacheForExistence in He. by repeat case_match. }
  pose proof (VerifyCapacity_no_die info e cache capacities batch) as Hc.
  destruct (VerifyCapacityAndGetTableResourceChange _ _ _ _ _) as [[ch|c|] b]; [|done..].
  destruct (AddToBatch info ch b) as [b'|c|] eqn:Hb; [by apply IH|done|].
  unfold AddToBatch in Hb. destruct (action_profile ch); [|done]. by destruct (_ !! _).
Qed.

Lemma PiEntityUpdatesToIr_no_die request info cache capacities ci t :
  well_formed info → addresses_full info → Forall (λ u, entity_in_range (entity u)) (updates request) →
  no_die (PiEntityUpdatesToIr request info cache capacities ci t).
Proof.
  intros Hwf Hfull Hr. apply no_die_bind; [by apply translate_loop_no_die|]. intros out.
  by destruct (has_duplicates out).
Qed.
End sonic.

(** * An instance *)

(** Libraries that accept every entry and write nothing. *)
Definition plain_libraries : SwitchLibraries () := {|
  valid_utf8 _ := true;
  simple_atoi _ := None;
  simple_hex_atoi _ := None;
  format_hex _ := [];
  reason_entry_violates_constraint _ _ := Ok [];
  create_app_db_update _ _ _ := Ok (mkAppDbUpdate P4RT (mkKfv [] [] []));
|}.

Lemma sonic_translation_laws_witness :
  well_formed routing_info ∧
  @TranslationLaws () Translations (@SonicTranslation () plain_libraries _ _ _) routing_info.
Proof.
  split; [exact routing_well_formed|].
  exact (@sonic_translation_laws () plain_libraries _ _ _ routing_info routing_well_formed).
Defined.

(** * A negative prefix length stops the server *)

(** The prefix length -1 is read as 2^32 - 1 and, as an [int] again, is less than every width; with an
    address of zeros the match is accepted on the way to the intermediate representation.  On the way back
    2^32 - 1 is too large; the error is not noticed, and the value that is not there is used. *)
Definition negative_prefix : Entity :=
  kTableEntry (plain_entry 2 0
    [mkFieldMatch 1 (kExact $"vrf-1"); mkFieldMatch 2 (kLpm ["000"%char] (-1))]
    (kAction (mkAction 2 [(1, $"nexthop-1")]))).
Definition no_queues : QueueTranslator := EmptyTranslator.
Definition no_translations : Translations := mkTranslations false (mkBimap ∅ ∅) no_queues no_queues.

Example negative_prefix_aborts :
  is_Ok (IrTranslation.PiEntityToIr (λ _, true) routing_info negative_prefix plain_options) = true ∧
  @PiUpdateToEntityUpdate () Translations (@SonicTranslation () plain_libraries _ _ _) routing_info
    (mkUpdate INSERT negative_prefix) [] None no_translations = Die.
Proof. split; vm_compute; reflexivity. Qed.
