(* ===== verification/Pipeline.v ===== *)
(** p4rt_app/p4runtime: the forwarding pipeline of the server ([p4runtime_impl.cc],
    [p4info_verification.cc]).  A config is checked and translated; the first one configures the tables of
    the OrchAgent, a later one is reconciled with the program in force; the server's own state changes only
    when the switch has accepted the change. *)
From S2P Require Import Prelude Abseil NetAddr NetAddrText IrUtils EntityKeys IrData Annotations TableTypes IrProgram IrTranslation IrRoundtrip Unsupported Schema ResourceUtilization AppDb AclTable Hashing Reconcile WritePath PortTranslation SonicWrite.
From S2P Require SdnController.

(** * Operations on a state that may fail *)

(** A status or value with the state that is left, also after a failure. *)
Definition St (S A : Type) : Type := S → result A * S.

Section state.
Context {S : Type}.
#[global] Instance St_ret : MRet (St S) := λ A a s, (Ok a, s).
#[global] Instance St_bind : MBind (St S) := λ A B f m s,
  match m s with
  | (Ok a, s) => f a s
  | (Err e, s) => (Err e, s)
  | (Die, s) => (Die, s)
  end.
Definition lift {A} (r : result A) : St S A := λ s, (r, s).
Definition get {A} (f : S → A) : St S A := λ s, (Ok (f s), s).
Definition update_state (f : S → S) : St S unit := λ s, (Ok tt, f s).

(** A loop that stops at the first failure. *)
Fixpoint for_each {A} (f : A → St S unit) (l : list A) : St S unit :=
  match l with
  | [] => mret tt
  | a :: l => _ ← f a; for_each f l
  end.

(** An operation on a part of the state. *)
Definition zoom {T A} (view : S → T) (set : T → S → S) (m : St T A) : St S A := λ s,
  let '(r, t) := m (view s) in (r, set t s).

(** [EnterCriticalState]: the failure becomes INTERNAL. *)
Definition critical {A} (m : St S A) : St S A := λ s,
  match m s with
  | (Err _, s) => (Err kInternal, s)
  | rs => rs
  end.
End state.

(** * Configs *)

Record ForwardingPipelineConfig := mkConfig {
  p4info : P4.P4Info;
  p4_device_config : str;
  cookie : option Z;
}.

Inductive Action := VERIFY | VERIFY_AND_COMMIT | COMMIT | RECONCILE_AND_COMMIT | OTHER_ACTION (n : Z).
Record SetForwardingPipelineConfigRequest := mkSetConfig {
  set_header : SdnController.RequestHeader;
  set_action : Action;
  config : option ForwardingPipelineConfig;
}.

Inductive ResponseType := ALL | COOKIE_ONLY | P4INFO_AND_COOKIE | DEVICE_CONFIG_AND_COOKIE | OTHER_TYPE (n : Z).
Record GetForwardingPipelineConfigRequest := mkGetConfig {
  get_header : SdnController.RequestHeader;
  response_type : ResponseType;
}.
(** The fields of the config in the response. *)
Record ConfigResponse := mkConfigResponse {
  response_p4info : option P4.P4Info;
  response_device_config : str;
  response_cookie : option Z;
}.

(** The code outside of the repository: p4-constraints, the comparisons of protobuf messages, the embedded
    schema, files, and the clock. *)
Class PipelineLibraries (C Storage : Type) := {
  P4ToConstraintInfo : P4.P4Info → result C;
  SameIrP4Info : IrP4Info → IrP4Info → bool;
  ComparePacketMetadata : list P4.ControllerPacketMetadata → list P4.ControllerPacketMetadata → bool;
  SupportedSchema : result P4InfoVerificationSchema;
  ReadProtoFromFile : str → Storage → result ForwardingPipelineConfig;
  SaveProtoToFile : str → ForwardingPipelineConfig → Storage → result unit * Storage;
  NowUnixNanos : Storage → str;
}.

(** What is read from the tables of the application database, for the P4RT table and for the others. *)
Class AppDbReads := {
  GetAllP4TableEntryKeys : gmap str FieldValues → list str;
  ReadP4TableEntry : gmap str FieldValues → IrP4Info → str → result Ir.TableEntry;
  GetAllAppDbPacketReplicationTableEntries : gmap str FieldValues → result (list Ir.PacketReplicationEngineEntry);
  GetAllAppDbVrfTableEntries : NotifiedTable → result (list Ir.TableEntry);
  GetAllAppDbVlanTableEntries : NotifiedTable → result (list Ir.TableEntry);
  GetAllAppDbVlanMemberTableEntries : NotifiedTable → result (list Ir.TableEntry);
}.

(** * The server *)

(** The members of [P4RuntimeImpl]: those of [Write], and those of the pipeline config.  [p4rt_app_db] is the
    P4RT table of the application database, which the OrchAgent writes. *)
Record Switch (C Storage : Type) := mkSwitch {
  server : Server C Translations AppDbWorld;
  forwarding_pipeline_config_ : option ForwardingPipelineConfig;
  forwarding_config_full_path_ : option str;
  storage : Storage;
  p4rt_app_db : gmap str FieldValues;
  hash_table_ : NotifiedTable;
  switch_table_ : NotifiedTable;
  p4rt_telemetry_table_ : gmap str FieldValues;
  host_stats_table_ : gmap str FieldValues;
  port_table_ : gmap str FieldValues;
  app_state_port_table_ : gmap str FieldValues;
}.
Arguments mkSwitch {C Storage} _ _ _ _ _ _ _ _ _ _ _.
Arguments server {C Storage} _.
Arguments forwarding_pipeline_config_ {C Storage} _.
Arguments forwarding_config_full_path_ {C Storage} _.
Arguments storage {C Storage} _.
Arguments p4rt_app_db {C Storage} _.
Arguments hash_table_ {C Storage} _.
Arguments switch_table_ {C Storage} _.
Arguments p4rt_telemetry_table_ {C Storage} _.
Arguments host_stats_table_ {C Storage} _.
Arguments port_table_ {C Storage} _.
Arguments app_state_port_table_ {C Storage} _.

Section setters.
Context {C Storage : Type}.
Abbreviation Switch := (Switch C Storage).

Definition set_server (v : Server C Translations AppDbWorld) (s : Switch) : Switch :=
  mkSwitch v (forwarding_pipeline_config_ s) (forwarding_config_full_path_ s) (storage s) (p4rt_app_db s)
    (hash_table_ s) (switch_table_ s) (p4rt_telemetry_table_ s) (host_stats_table_ s)
    (port_table_ s) (app_state_port_table_ s).
Definition set_config (v : option ForwardingPipelineConfig) (s : Switch) : Switch :=
  mkSwitch (server s) v (forwarding_config_full_path_ s) (storage s) (p4rt_app_db s)
    (hash_table_ s) (switch_table_ s) (p4rt_telemetry_table_ s) (host_stats_table_ s)
    (port_table_ s) (app_state_port_table_ s).
Definition set_storage (v : Storage) (s : Switch) : Switch :=
  mkSwitch (server s) (forwarding_pipeline_config_ s) (forwarding_config_full_path_ s) v (p4rt_app_db s)
    (hash_table_ s) (switch_table_ s) (p4rt_telemetry_table_ s) (host_stats_table_ s)
    (port_table_ s) (app_state_port_table_ s).
Definition set_hash_table (v : NotifiedTable) (s : Switch) : Switch :=
  mkSwitch (server s) (forwarding_pipeline_config_ s) (forwarding_config_full_path_ s) (storage s) (p4rt_app_db s)
    v (switch_table_ s) (p4rt_telemetry_table_ s) (host_stats_table_ s)
    (port_table_ s) (app_state_port_table_ s).
Definition set_switch_table (v : NotifiedTable) (s : Switch) : Switch :=
  mkSwitch (server s) (forwarding_pipeline_config_ s) (forwarding_config_full_path_ s) (storage s) (p4rt_app_db s)
    (hash_table_ s) v (p4rt_telemetry_table_ s) (host_stats_table_ s)
    (port_table_ s) (app_state_port_table_ s).
Definition set_telemetry (v : gmap str FieldValues) (s : Switch) : Switch :=
  mkSwitch (server s) (forwarding_pipeline_config_ s) (forwarding_config_full_path_ s) (storage s) (p4rt_app_db s)
    (hash_table_ s) (switch_table_ s) v (host_stats_table_ s)
    (port_table_ s) (app_state_port_table_ s).
Definition set_host_stats (v : gmap str FieldValues) (s : Switch) : Switch :=
  mkSwitch (server s) (forwarding_pipeline_config_ s) (forwarding_config_full_path_ s) (storage s) (p4rt_app_db s)
    (hash_table_ s) (switch_table_ s) (p4rt_telemetry_table_ s) v
    (port_table_ s) (app_state_port_table_ s).

Definition set_program (info : IrP4Info) (constraints : C) (s : Switch) : Switch :=
  let v := server s in
  set_server (mkServer (controller_manager_ v) (Some info) constraints (translations_ v) (entity_cache_ v)
    (capacity_by_action_profile_name_ v) (app_db_ v) (write_batch_requests_ v) (write_total_requests_ v)) s.
Definition set_capacities (capacities : ActionProfileCapacityMap) (s : Switch) : Switch :=
  set_server (set_cache (entity_cache_ (server s)) capacities (server s)) s.
Definition set_entity_cache (cache : EntityMap) (s : Switch) : Switch :=
  set_server (set_cache cache (capacity_by_action_profile_name_ (server s)) (server s)) s.

Definition set_translations (t : Translations) (s : Switch) : Switch :=
  let v := server s in
  set_server (mkServer (controller_manager_ v) (ir_p4info_ v) (p4_constraint_info_ v) t (entity_cache_ v)
    (capacity_by_action_profile_name_ v) (app_db_ v) (write_batch_requests_ v) (write_total_requests_ v)) s.
Definition set_controller_manager (m : SdnController.World) (s : Switch) : Switch :=
  let v := server s in
  set_server (mkServer m (ir_p4info_ v) (p4_constraint_info_ v) (translations_ v) (entity_cache_ v)
    (capacity_by_action_profile_name_ v) (app_db_ v) (write_batch_requests_ v) (write_total_requests_ v)) s.

(** The port map, with the tables of ports in the two databases. *)
Definition ports (s : Switch) : PortState :=
  mkPortState (port_translation_map (translations_ (server s))) (port_table_ s) (app_state_port_table_ s).
Definition set_ports (p : PortState) (s : Switch) : Switch :=
  let t := translations_ (server s) in
  let s := set_translations (mkTranslations (translate_port_ids_ t) (port_translation_map_ p) (cpu_queues t)
    (front_panel_queues t)) s in
  mkSwitch (server s) (forwarding_pipeline_config_ s) (forwarding_config_full_path_ s) (storage s) (p4rt_app_db s)
    (hash_table_ s) (switch_table_ s) (p4rt_telemetry_table_ s) (host_stats_table_ s)
    (port_app_db p) (port_app_state_db p).

Inductive QueueType := kCpu | kFrontPanel.
Definition AssignQueueTranslator (queue_type : QueueType) (translator : QueueTranslator) (s : Switch) : Switch :=
  let t := translations_ (server s) in
  set_translations
    match queue_type with
    | kCpu => mkTranslations (translate_port_ids_ t) (port_translation_map t) translator (front_panel_queues t)
    | kFrontPanel => mkTranslations (translate_port_ids_ t) (port_translation_map t) (cpu_queues t) translator
    end s.

(** Parts of the state that the operations below work on. *)
Definition on_app_db {A} : St AppDbWorld A → St Switch A :=
  zoom (λ s, app_db_ (server s)) (λ w s, set_server (set_app_db w (server s)) s).
Definition on_channel {A} : St ZmqChannel A → St AppDbWorld A :=
  zoom p4rt_channel (λ c w, mkAppDbWorld c (vrf_table w) (vlan_table w) (vlan_member_table w)).
Definition on_hash_table {A} : St NotifiedTable A → St Switch A := zoom hash_table_ set_hash_table.
Definition on_switch_table {A} : St NotifiedTable A → St Switch A := zoom switch_table_ set_switch_table.
End setters.

(** The headers of packet I/O that a program must declare. *)
Definition controller_header (name : str) : str :=
  $"@controller_header(" ++ "034"%char :: name ++ "034"%char :: $")".
Definition kExpectedPacketIo : list P4.ControllerPacketMetadata := [
  P4.mkPacketMetadata (mkPreamble 81826293 $"packet_in" $"packet_in" [controller_header $"packet_in"]) [
    mkElement 1 $"ingress_port" [] 0 (Some $"port_id_t");
    mkElement 2 $"target_egress_port" [] 0 (Some $"port_id_t")];
  P4.mkPacketMetadata (mkPreamble 76689799 $"packet_out" $"packet_out" [controller_header $"packet_out"]) [
    mkElement 1 $"egress_port" [] 0 (Some $"port_id_t");
    mkElement 2 $"submit_to_ingress" [] 1 None;
    mkElement 3 $"unused_pad" [$"@padding"] 6 None]].

Section pipeline.
Context {C Storage : Type} `{SwitchLibraries C} `{AbslStringsLaws} `{!Ipv6.Inet, !Ipv6.InetLaws} `{Gutil}.
Context `{AbslMatch} `{SwssSchema} `{AclLibraries} `{PipelineLibraries C Storage} `{AppDbReads}.
Context (strToStatusCode : str → SwssStatusCode) (CHexEscape : str → str).
Abbreviation Switch := (Switch C Storage).

(** * p4info_verification.cc *)

Definition ValidatePacketIo (p4info : P4.P4Info) : result unit :=
  if ComparePacketMetadata kExpectedPacketIo (P4.controller_packet_metadata p4info) then Ok tt else Err kInvalidArgument.

Definition verify_table (entry : str * IrTableDefinition) : result unit :=
  table_type ← GetTableType (snd entry);
  if bool_decide (table_type = kAcl) then VerifyAclTableDefinition (snd entry) else Ok tt.

Definition ValidateP4Info (p4info : P4.P4Info) : result unit :=
  _ ← ValidatePacketIo p4info;
  schema ← SupportedSchema;
  ir_p4info ← CreateIrP4Info p4info;
  let ir_p4info := RemoveUnsupportedEntities ir_p4info in
  _ ← IsSupportedBySchema ir_p4info schema;
  _ ← ExtractHashPacketFieldConfigs ir_p4info;
  _ ← ExtractHashParamConfigs ir_p4info;
  fold_result (λ _ entry, verify_table entry) (map_to_list (tables_by_name ir_p4info)) tt.

(** * Checking a config *)

Record ConfigInfo := mkConfigInfo {
  info_ir_p4info : IrP4Info;
  info_constraints : C;
  hash_packet_field_configs : HashPacketFieldConfigs;
  hash_param_configs : HashParamConfigs;
}.

Definition PreprocessConfig (config : option ForwardingPipelineConfig) : result ConfigInfo :=
  match config with
  | None => Err kInvalidArgument
  | Some config =>
    _ ← (match ValidateP4Info (p4info config) with Err _ => Err kInvalidArgument | r => r end);
    constraint_info ← P4ToConstraintInfo (p4info config);
    ir_p4info ← CreateIrP4Info (p4info config);
    let ir_p4info := TranslateIrP4InfoForOrchAgent (RemoveUnsupportedEntities ir_p4info) in
    hash_packet_field_configs ← ExtractHashPacketFieldConfigs ir_p4info;
    hash_param_configs ← ExtractHashParamConfigs ir_p4info;
    Ok (mkConfigInfo ir_p4info constraint_info hash_packet_field_configs hash_param_configs)
  end.

(** * Entities of a table *)

Definition entity_table_id (e : Entity) : Z := match e with kTableEntry t => table_id t | _ => 0 end.

Definition GetCachedEntitiesInTableId (entity_cache : EntityMap) (table_id : Z) : list Entity :=
  List.filter (λ e, entity_table_id e =? table_id) (map snd (map_to_list entity_cache)).

Definition GetCachedEntitiesInTable (entity_cache : EntityMap) (ir_p4info : IrP4Info) (table_name : str) : list Entity :=
  match tables_by_name ir_p4info !! table_name with
  | None => []
  | Some table => GetCachedEntitiesInTableId entity_cache (preamble_id table)
  end.

(** [mutable_table_entry()->set_table_id]: any other entity becomes a table entry. *)
Definition set_table_id (id : Z) (e : Entity) : Entity :=
  kTableEntry
    match e with
    | kTableEntry t =>
      mkTableEntry id (priority t) (match_ t) (EntityKeys.action t) (metadata t) (meter_config t) (counter_data t)
        (meter_counter_data t) (controller_metadata t) (is_default_action t) (idle_timeout_ns t)
        (time_since_last_hit t) (entry_rest t)
    | _ => plain_entry id 0 [] ACTION_ABSENT
    end.

(** The updates that are made of entities, with the places of their statuses. *)
Definition entity_updates (ir_p4info : IrP4Info) (update_type : UpdateType) (t : Translations) (entities : list Entity)
  : result (list (AppDbUpdate * nat)) :=
  map_result (λ '(i, e), u ← PiUpdateToEntityUpdate ir_p4info (mkUpdate update_type e) [] None t; Ok (app_db_update u, i))
    (zip (seq 0 (length entities)) entities).

(** A failed update makes the operation fail. *)
Definition perform_updates (update_results : list (AppDbUpdate * nat)) : St AppDbWorld unit := λ w,
  match PerformAppDbUpdates strToStatusCode CHexEscape w update_results (map (λ _, OkStatus) update_results) with
  | (Ok success, update_statuses, w) =>
    (if success : bool then Ok tt
     else if existsb (λ st, bool_decide (is_Some (code st))) update_statuses then Err kInternal else Ok tt, w)
  | (Err e, _, w) => (Err e, w)
  | (Die, _, w) => (Die, w)
  end.

Definition UpdateAppDbEntities (t : Translations) (entities : list Entity) (ir_p4info : IrP4Info) (update_type : UpdateType)
  : St AppDbWorld unit :=
  update_results ← lift (entity_updates ir_p4info update_type t entities);
  perform_updates update_results.

(** * ACL tables *)

Definition insert_acl_table (table : IrTableDefinition) : St AppDbWorld unit :=
  on_channel (λ c, InsertAclTableDefinition strToStatusCode CHexEscape c table).
Definition remove_acl_table (table_name : str) : St AppDbWorld unit :=
  on_channel (λ c, RemoveAclTableDefinitionByName strToStatusCode CHexEscape c table_name).

(** [ir_p4info_], as the operations find it. *)
Definition RemoveAclTableFromAppDb (t : Translations) (current : IrP4Info) (table_name : str) (entities : list Entity)
  : St AppDbWorld unit :=
  _ ← (if bool_decide (length entities = 0%nat) then mret tt else UpdateAppDbEntities t entities current DELETE);
  remove_acl_table table_name.

(** The entries live in a copy of the table while its definition is replaced. *)
Definition ReplaceTableInAppDb (t : Translations) (current : IrP4Info) (table_name : str) (entities : list Entity)
  (new_ir_p4info : IrP4Info) : St AppDbWorld unit :=
  '(dup_table_name, temp_ir_p4info) ← lift (DuplicateTable current table_name);
  dup_table ← lift (FindOrDie (tables_by_name temp_ir_p4info !! dup_table_name));
  _ ← insert_acl_table dup_table;
  let temp_entities := map (set_table_id (preamble_id dup_table)) entities in
  _ ← UpdateAppDbEntities t temp_entities temp_ir_p4info INSERT;
  _ ← UpdateAppDbEntities t entities current DELETE;
  _ ← remove_acl_table table_name;
  new_table ← lift (FindOrDie (tables_by_name new_ir_p4info !! table_name));
  _ ← insert_acl_table new_table;
  _ ← UpdateAppDbEntities t entities new_ir_p4info INSERT;
  _ ← UpdateAppDbEntities t temp_entities temp_ir_p4info DELETE;
  remove_acl_table dup_table_name.

(** [removed_entities[table]]. *)
Definition removed_entities (cache : EntityMap) (current : IrP4Info) (transition : P4InfoReconcileTransition) (table : str)
  : list Entity :=
  if bool_decide (table ∈ essential_acl_tables_to_modify transition ++ nonessential_acl_tables_to_modify transition)
  then GetCachedEntitiesInTable cache current table else [].

Definition new_table (new_ir_p4info : IrP4Info) (table : str) : result IrTableDefinition :=
  FindOrDie (tables_by_name new_ir_p4info !! table).

Definition add_table (t : Translations) (new_ir_p4info : IrP4Info) (removed : str → list Entity) (table : IrTableDefinition)
  : St AppDbWorld unit :=
  _ ← insert_acl_table table;
  let entities := removed (preamble_alias table) in
  if bool_decide (length entities = 0%nat) then mret tt else UpdateAppDbEntities t entities new_ir_p4info INSERT.

Definition TransitionAcls (cache : EntityMap) (t : Translations) (current : IrP4Info)
  (transition : P4InfoReconcileTransition) (new_ir_p4info : IrP4Info) : St AppDbWorld unit :=
  let removed := removed_entities cache current transition in
  _ ← for_each (λ table,
        definition ← lift (FindOrDie (tables_by_name current !! table));
        on_channel (λ c, RemoveAclTableDefinition strToStatusCode CHexEscape c definition))
      (acl_tables_to_delete transition);
  added ← lift (map_result (new_table new_ir_p4info) (acl_tables_to_add transition));
  _ ← for_each (λ table,
        _ ← RemoveAclTableFromAppDb t current table (removed table);
        _ ← lift (new_table new_ir_p4info table); mret tt)
      (nonessential_acl_tables_to_modify transition);
  nonessential ← lift (map_result (new_table new_ir_p4info) (nonessential_acl_tables_to_modify transition));
  let is_empty (table : str) := bool_decide (length (removed table) = 0%nat) in
  let empty_essential := List.filter is_empty (essential_acl_tables_to_modify transition) in
  let populated_essential := List.filter (λ table, negb (is_empty table)) (essential_acl_tables_to_modify transition) in
  _ ← for_each (λ table, _ ← remove_acl_table table; _ ← lift (new_table new_ir_p4info table); mret tt) empty_essential;
  emptied ← lift (map_result (new_table new_ir_p4info) empty_essential);
  _ ← for_each (λ table, ReplaceTableInAppDb t current table (removed table) new_ir_p4info) populated_essential;
  for_each (add_table t new_ir_p4info removed) (OrderTablesBySize (added ++ nonessential ++ emptied)).

(** * Telemetry *)

(** [absl::StrJoin] of names with commas. *)
Fixpoint StrJoinComma (l : list str) : str :=
  match l with [] => [] | [x] => x | x :: l => x ++ $"," ++ StrJoinComma l end.

Definition RecordTransitionTelemetry (transition : P4InfoReconcileTransition) : St Switch unit :=
  update_state (λ s, set_telemetry (<[$"acl_recarving" :=
    [($"added_tables", StrJoinComma (acl_tables_to_add transition));
     ($"removed_tables", StrJoinComma (acl_tables_to_delete transition));
     ($"modified_essential_tables", StrJoinComma (essential_acl_tables_to_modify transition));
     ($"modified_nonessential_tables", StrJoinComma (nonessential_acl_tables_to_modify transition))]]>
    (p4rt_telemetry_table_ s)) s).

Definition ResetTransitionTelemetry : St Switch unit :=
  update_state (λ s, set_telemetry (<[$"acl_recarving" :=
    [($"added_tables", []); ($"removed_tables", []); ($"modified_essential_tables", []);
     ($"modified_nonessential_tables", [])]]> (p4rt_telemetry_table_ s)) s).

(** * Configuring the switch *)

(** app_db_manager.cc: the command that publishes the definitions of the extension tables. *)
Definition PublishExtTablesDefinitionToAppDb (tables_json : Json) (cookie : Z) : KeyOpFieldsValues :=
  mkKfv (TypeName kTblsDefinitionSet ++ $":" ++ dump (json_object [($"context", JString (StrCatInt cookie))])) $"SET"
    [($"info", dump (json_object [($"tables", tables_json)]))].

(** [ext_tables_json] is never filled in; its [dump] is the string "null", which is not empty. *)
Definition configure_table (table : IrTableDefinition) : St AppDbWorld unit :=
  table_type ← lift (GetTableType table);
  _ ← (if bool_decide (table_type = kAcl) then insert_acl_table table else mret tt);
  if bool_decide (dump JNull = []) then mret tt
  else on_channel (λ c, send_definition strToStatusCode CHexEscape c (PublishExtTablesDefinitionToAppDb JNull 0)).

Definition ConfigureAppDbTables (ir_p4info : IrP4Info) : St Switch unit :=
  _ ← on_app_db (for_each configure_table (OrderTablesOfMap (tables_by_name ir_p4info)));
  hash_fields ← lift (ExtractHashPacketFieldConfigs ir_p4info);
  hash_values ← lift (ExtractHashParamConfigs ir_p4info);
  _ ← on_hash_table (λ t, ProgramHashFieldTable strToStatusCode CHexEscape t hash_fields);
  on_switch_table (λ t, ProgramSwitchTable strToStatusCode CHexEscape t hash_values hash_fields).

Definition TransitionHashConfig (transition : P4InfoReconcileTransition)
  (hash_packet_field_configs : HashPacketFieldConfigs) (hash_param_configs : HashParamConfigs) : St Switch unit :=
  _ ← (if bool_decide (length (hashing_packet_field_configs_to_set transition) = 0%nat) then mret tt
       else critical (on_hash_table (λ t, ProgramHashFieldTable strToStatusCode CHexEscape t hash_packet_field_configs)));
  _ ← (if bool_decide (length (hashing_packet_field_configs_to_delete transition) = 0%nat) then mret tt
       else critical (on_hash_table (λ t,
         RemoveFromHashFieldTable strToStatusCode CHexEscape t (hashing_packet_field_configs_to_delete transition))));
  if update_switch_table transition then
    critical (on_switch_table (λ t,
      ProgramSwitchTable strToStatusCode CHexEscape t hash_param_configs hash_packet_field_configs))
  else mret tt.

Definition SavePipelineConfig (config : ForwardingPipelineConfig) : St Switch unit := λ s,
  match forwarding_config_full_path_ s with
  | None => (Ok tt, s)
  | Some path => let '(r, files) := SaveProtoToFile path config (storage s) in (r, set_storage files s)
  end.

(** The program in force is replaced. *)
Definition commit_program (info : ConfigInfo) (config : option ForwardingPipelineConfig) : St Switch unit :=
  update_state (λ s, set_config config (set_program (info_ir_p4info info) (info_constraints info) s)).

(** Capacities of the first program; [operator[] =]. *)
Definition store_capacities (info : IrP4Info) (capacities : ActionProfileCapacityMap) : ActionProfileCapacityMap :=
  fold_left (λ m '(name, definition), <[name := GetActionProfileResourceCapacity definition]> m)
    (map_to_list (action_profiles_by_name info)) capacities.

Definition reconcile (info : ConfigInfo) (current : IrP4Info) : St Switch unit :=
  transition ← lift (CalculateTransition current (info_ir_p4info info));
  _ ← lift (IsSupportedTransition transition);
  capacities ← get (λ s, capacity_by_action_profile_name_ (server s));
  capacity ← lift (GetUpdatedResourceCapacities (info_ir_p4info info) capacities);
  _ ← (if update_switch_table transition
       then TransitionHashConfig transition (hash_packet_field_configs info) (hash_param_configs info) else mret tt);
  cache ← get (λ s, entity_cache_ (server s));
  t ← get (λ s, translations_ (server s));
  _ ← critical (on_app_db (TransitionAcls cache t current transition (info_ir_p4info info)));
  _ ← RecordTransitionTelemetry transition;
  update_state (set_capacities capacity).

Definition apply_first (info : ConfigInfo) (commit_to_hardware : bool) : St Switch unit :=
  _ ← (if commit_to_hardware then critical (ConfigureAppDbTables (info_ir_p4info info)) else mret tt);
  update_state (λ s,
    set_capacities (store_capacities (info_ir_p4info info) (capacity_by_action_profile_name_ (server s))) s).

Definition save_current : St Switch unit := λ s,
  match forwarding_pipeline_config_ s with
  | Some config => SavePipelineConfig config s
  | None => (Die, s)
  end.

Definition ReconcileAndCommitPipelineConfig (config : option ForwardingPipelineConfig) (commit_to_hardware : bool)
  : St Switch unit :=
  _ ← ResetTransitionTelemetry;
  config_info ← lift (PreprocessConfig config);
  ir_p4info ← get (λ s, ir_p4info_ (server s));
  if match ir_p4info with Some current => SameIrP4Info current (info_ir_p4info config_info) | None => false end then
    _ ← update_state (set_config config);
    save_current
  else
    _ ← match ir_p4info with
        | Some current => reconcile config_info current
        | None => apply_first config_info commit_to_hardware
        end;
    _ ← commit_program config_info config;
    if commit_to_hardware then save_current else mret tt.

(** * The cache of entities, from the application database *)

Definition clear_counters (t : TableEntry) : TableEntry :=
  mkTableEntry (table_id t) (priority t) (match_ t) (EntityKeys.action t) (metadata t) (meter_config t) None
    None (controller_metadata t) (is_default_action t) (idle_timeout_ns t) (time_since_last_hit t) (entry_rest t).

Definition controller_options (p4_info : IrP4Info) (t : Translations) : TranslateTableEntryOptions :=
  mkOptions kForController (tables_by_name p4_info) (translate_port_ids_ t) (port_translation_map t) (cpu_queues t)
    (front_panel_queues t).
Definition for_controller (p4_info : IrP4Info) (t : Translations) : Ir.TableEntry → result Ir.TableEntry :=
  TranslateTableEntry simple_atoi simple_hex_atoi format_hex valid_utf8 (controller_options p4_info t).

Definition cache_entry (pi_entry : TableEntry) (cache : EntityMap) : result EntityMap :=
  entity_key ← MakeEntityKey (kTableEntry pi_entry);
  Ok (<[entity_key := kTableEntry pi_entry]> cache).

Definition rebuild_p4rt (p4_info : IrP4Info) (t : Translations) (p4rt_table : gmap str FieldValues) (cache : EntityMap)
  (app_db_key : str) : result EntityMap :=
  ir_table_entry ← ReadP4TableEntry p4rt_table p4_info app_db_key;
  ir_table_entry ← for_controller p4_info t ir_table_entry;
  p4rt_entry ← IrTableEntryToPi p4_info ir_table_entry (pdpi_options false);
  cache_entry (clear_counters p4rt_entry) cache.
Definition rebuild_vrf (p4_info : IrP4Info) (cache : EntityMap) (ir_table_entry : Ir.TableEntry) : result EntityMap :=
  vrf_entry ← IrTableEntryToPi p4_info ir_table_entry (pdpi_options false);
  cache_entry vrf_entry cache.
Definition rebuild_vlan (p4_info : IrP4Info) (t : Translations) (cache : EntityMap) (ir_table_entry : Ir.TableEntry)
  : result EntityMap :=
  ir_table_entry ← for_controller p4_info t ir_table_entry;
  vlan_entry ← IrTableEntryToPi p4_info ir_table_entry (pdpi_options false);
  cache_entry vlan_entry cache.
Definition rebuild_replication (p4_info : IrP4Info) (t : Translations) (cache : EntityMap)
  (ir_entry : Ir.PacketReplicationEngineEntry) : result EntityMap :=
  ir_entry ← TranslatePacketReplicationEntry valid_utf8 (controller_options p4_info t) ir_entry;
  pi_entry ← IrPacketReplicationEngineEntryToPi ir_entry (pdpi_options false);
  let pi_entity := kPacketReplicationEngineEntry pi_entry in
  entity_key ← MakeEntityKey pi_entity;
  Ok (<[entity_key := pi_entity]> cache).

Definition RebuildEntityEntryCache (p4_info : IrP4Info) (t : Translations) (p4rt_table : gmap str FieldValues)
  (w : AppDbWorld) : result EntityMap :=
  cache ← fold_result (rebuild_p4rt p4_info t p4rt_table) (GetAllP4TableEntryKeys p4rt_table) ∅;
  vrf_entries ← GetAllAppDbVrfTableEntries (vrf_table w);
  cache ← fold_result (rebuild_vrf p4_info) vrf_entries cache;
  vlan_entries ← GetAllAppDbVlanTableEntries (vlan_table w);
  cache ← fold_result (rebuild_vlan p4_info t) vlan_entries cache;
  vlan_member_entries ← GetAllAppDbVlanMemberTableEntries (vlan_member_table w);
  cache ← fold_result (rebuild_vlan p4_info t) vlan_member_entries cache;
  packet_replication_entries ← GetAllAppDbPacketReplicationTableEntries p4rt_table;
  fold_result (rebuild_replication p4_info t) packet_replication_entries cache.

Definition rebuild_cache : St Switch unit := λ s,
  match ir_p4info_ (server s) with
  | None => (Die, s)
  | Some p4_info =>
    match RebuildEntityEntryCache p4_info (translations_ (server s)) (p4rt_app_db s) (app_db_ (server s)) with
    | Ok cache => (Ok tt, set_entity_cache cache s)
    | Err e => (Err e, s)
    | Die => (Die, s)
    end
  end.

(** * The requests *)

Definition VerifyAndCommitPipelineConfig (config : option ForwardingPipelineConfig) : St Switch unit :=
  current ← get forwarding_pipeline_config_;
  match current with
  | Some _ => lift (Err kUnimplemented)
  | None => _ ← ReconcileAndCommitPipelineConfig config true; critical rebuild_cache
  end.

Definition CommitPipelineConfig (config : option ForwardingPipelineConfig) : St Switch unit :=
  match config with
  | Some _ => lift (Err kInvalidArgument)
  | None =>
    path ← get forwarding_config_full_path_;
    match path with
    | None => lift (Err kFailedPrecondition)
    | Some path =>
      files ← get storage;
      saved_config ← lift (ReadProtoFromFile path files);
      VerifyAndCommitPipelineConfig (Some saved_config)
    end
  end.

(** The controller manager only reads; [None] would be undefined behaviour. *)
Definition allow (check : SdnController.M (result unit)) : St Switch unit := λ s,
  match check (controller_manager_ (server s)) with
  | Some (r, _) => (r, s)
  | None => (Die, s)
  end.

Definition SetForwardingPipelineConfig (request : SetForwardingPipelineConfigRequest) : St Switch unit :=
  _ ← allow (SdnController.AllowSetForwardingPipelineConfigRequest (set_header request));
  _ ← match set_action request with
      | VERIFY => _ ← lift (PreprocessConfig (config request)); mret tt
      | VERIFY_AND_COMMIT => VerifyAndCommitPipelineConfig (config request)
      | COMMIT => CommitPipelineConfig (config request)
      | RECONCILE_AND_COMMIT => ReconcileAndCommitPipelineConfig (config request) true
      | OTHER_ACTION _ => lift (Err kUnimplemented)
      end;
  match set_action request with
  | VERIFY => mret tt
  | _ => update_state (λ s,
      set_host_stats (<[$"CONFIG" := [($"last-configuration-timestamp", NowUnixNanos (storage s))]]> (host_stats_table_ s)) s)
  end.

Definition empty_response : ConfigResponse := mkConfigResponse None [] None.

(** [mutable_cookie() = ...] makes the cookie present; the protobuf message [config] is empty when none is
    set. *)
Definition GetForwardingPipelineConfig (request : GetForwardingPipelineConfigRequest) : St Switch ConfigResponse :=
  _ ← allow (SdnController.AllowGetForwardingPipelineConfigRequest (get_header request));
  current ← get forwarding_pipeline_config_;
  match current with
  | None => mret empty_response
  | Some c =>
    let cookie_ := Some (default 0 (cookie c)) in
    match response_type request with
    | ALL => mret (mkConfigResponse (Some (p4info c)) (p4_device_config c) (cookie c))
    | COOKIE_ONLY => mret (mkConfigResponse None [] cookie_)
    | P4INFO_AND_COOKIE => mret (mkConfigResponse (Some (p4info c)) [] cookie_)
    | DEVICE_CONFIG_AND_COOKIE => mret (mkConfigResponse None (p4_device_config c) cookie_)
    | OTHER_TYPE _ => lift (Err kUnimplemented)
    end
  end.

(** * Ports, queues and warm boot *)

Definition UpdateDeviceId (device_id : Z) : St Switch unit := λ s,
  match SdnController.SetDeviceId device_id (controller_manager_ (server s)) with
  | Some (r, m) => (r, set_controller_manager m s)
  | None => (Die, s)
  end.

Definition add_port (update_dbs : bool) (entry : str * str) : St Switch unit :=
  zoom ports set_ports (AddPortTranslation (fst entry) (snd entry) update_dbs).

Definition assign_queues (queue_type : QueueType) (queue_ids : list (str * str)) : St Switch unit :=
  if bool_decide (length queue_ids = 0%nat) then mret tt
  else
    translator ← lift (CreateQueueTranslator simple_atoi queue_ids);
    update_state (AssignQueueTranslator queue_type translator).

(** The program is read from the file it was saved to, without configuring the switch again. *)
Definition RebuildSwStateAfterWarmboot (port_ids cpu_queue_ids front_panel_queue_ids : list (str * str))
  (device_id : option Z) : St Switch unit :=
  db_attributes ← get (λ s, host_stats_table_ s !! $"CONFIG");
  match db_attributes with
  | None | Some [] => mret tt
  | _ =>
    path ← get forwarding_config_full_path_;
    match path with
    | None => lift (Err kFailedPrecondition)
    | Some path =>
      files ← get storage;
      saved_config ← lift (ReadProtoFromFile path files);
      _ ← critical (ReconcileAndCommitPipelineConfig (Some saved_config) false);
      _ ← for_each (add_port false) port_ids;
      _ ← assign_queues kCpu cpu_queue_ids;
      _ ← assign_queues kFrontPanel front_panel_queue_ids;
      _ ← match device_id with Some id => UpdateDeviceId id | None => mret tt end;
      rebuild_cache
    end
  end.
End pipeline.
