(* ===== verification/PipelineCorrect.v ===== *)
(** The forwarding pipeline of the server (Pipeline.v): what a config changes, and when.  A config that is
    rejected, or that the switch fails to apply, leaves the program, the entity cache and the counters as they
    were; one that is applied keeps the counters in agreement with the cache. *)
From S2P Require Import Prelude Abseil NetAddr NetAddrText IrUtils EntityKeys IrData Annotations TableTypes IrProgram IrTranslation IrRoundtrip IrProgramCorrect Unsupported Schema ResourceUtilization AppDb AclTable Hashing Reconcile WritePath WriteCorrect PortTranslation SonicWrite Pipeline.
From S2P Require SdnController.

(** * Reasoning about operations on a state *)

Section logic.
Context {S : Type} (R : S → S → Prop) `{!PreOrder R}.

(** Every outcome leaves a related state; or at least every failure does. *)
Definition keeps {A} (m : St S A) : Prop := ∀ s, R s (snd (m s)).
Definition keeps_on_failure {A} (m : St S A) : Prop := ∀ s r s', m s = (r, s') → is_Ok r = false → R s s'.

Lemma keeps_ret {A} (a : A) : keeps (mret a).
Proof. by intros s. Qed.
Lemma keeps_lift {A} (r : result A) : keeps (lift r).
Proof. by intros s. Qed.
Lemma keeps_get {A} (f : S → A) : keeps (get f).
Proof. by intros s. Qed.
Lemma keeps_bind {A B} (m : St S A) (f : A → St S B) : keeps m → (∀ a, keeps (f a)) → keeps (m ≫= f).
Proof.
  intros Hm Hf s. unfold mbind, St_bind. specialize (Hm s). destruct (m s) as [[a| |] s1]; cbn in *; [|done..].
  by etrans; [|apply Hf].
Qed.
Lemma keeps_critical {A} (m : St S A) : keeps m → keeps (critical m).
Proof. intros Hm s. specialize (Hm s). unfold critical. by destruct (m s) as [[] ?]. Qed.
Lemma keeps_if {A} (b : bool) (m m' : St S A) : keeps m → keeps m' → keeps (if b then m else m').
Proof. by destruct b. Qed.
Lemma keeps_for_each {A} (f : A → St S unit) l : (∀ a, keeps (f a)) → keeps (for_each f l).
Proof. intros Hf. induction l as [|a l IH]; [apply keeps_ret|]. by apply keeps_bind. Qed.
Lemma keeps_failure {A} (m : St S A) : keeps m → keeps_on_failure m.
Proof. intros Hm s r s' Hs _. specialize (Hm s). by rewrite Hs in Hm. Qed.
Lemma failure_bind {A B} (m : St S A) (f : A → St S B) :
  keeps m → (∀ a, keeps_on_failure (f a)) → keeps_on_failure (m ≫= f).
Proof.
  intros Hm Hf s r s'. unfold mbind, St_bind. specialize (Hm s). destruct (m s) as [[a| |] s1]; cbn in Hm.
  - intros Hs Hr. by etrans; [|eapply Hf].
  - by intros [= _ <-] _.
  - by intros [= _ <-] _.
Qed.
Lemma failure_update (f : S → S) : keeps_on_failure (update_state f).
Proof. by intros s r s' [= <- <-]. Qed.
End logic.

Lemma bind_ok {S A B} (m : St S A) (f : A → St S B) s b s' :
  (m ≫= f) s = (Ok b, s') → ∃ a s1, m s = (Ok a, s1) ∧ f a s1 = (Ok b, s').
Proof. unfold mbind, St_bind. destruct (m s) as [[a| |] s1]; [by exists a, s1|done..]. Qed.

(** How a failure arises. *)
Lemma bind_cases {S A B} (m : St S A) (f : A → St S B) s r s' :
  (m ≫= f) s = (r, s') →
  (∃ a s1, m s = (Ok a, s1) ∧ f a s1 = (r, s')) ∨ (is_Ok r = false ∧ ∃ r', m s = (r', s') ∧ is_Ok r' = false).
Proof.
  unfold mbind, St_bind. destruct (m s) as [[a| |] s1]; intros Hs; [left; by exists a, s1|right..]; injection Hs as <- <-;
    (split; [done|]); by eexists.
Qed.

Lemma bind_unit_cases {S} (m : St S unit) (f : unit → St S unit) s r s' :
  (m ≫= f) s = (r, s') → (∃ s1, m s = (Ok tt, s1) ∧ f tt s1 = (r, s')) ∨ (is_Ok r = false ∧ m s = (r, s')).
Proof.
  unfold mbind, St_bind. destruct (m s) as [[[]| |] s1]; intros Hs; [left; by exists s1|right..]; injection Hs as <- <-; done.
Qed.

Lemma critical_ok {S A} (m : St S A) s a s' : critical m s = (Ok a, s') → m s = (Ok a, s').
Proof. unfold critical. by destruct (m s) as [[] ?]. Qed.
Lemma lift_ok {S A} (r : result A) (s : S) a s' : lift r s = (Ok a, s') → r = Ok a ∧ s' = s.
Proof. by intros [= -> ->]. Qed.

Create HintDb keeps.

Section correct.
Context {C Storage : Type} `{SwitchLibraries C} `{AbslStringsLaws} `{!Ipv6.Inet, !Ipv6.InetLaws} `{Gutil}.
Context `{AbslMatch} `{SwssSchema} `{AclLibraries} `{PipelineLibraries C Storage} `{AppDbReads}.
Context (strToStatusCode : str → SwssStatusCode) (CHexEscape : str → str).
Abbreviation Switch := (Switch C Storage).

(** * What stays *)

(** Everything that requests are answered from; the databases, the saved file and the telemetry may differ. *)
Record untouched (s s' : Switch) : Prop := {
  same_controllers : controller_manager_ (server s') = controller_manager_ (server s);
  same_program : ir_p4info_ (server s') = ir_p4info_ (server s);
  same_constraints : p4_constraint_info_ (server s') = p4_constraint_info_ (server s);
  same_translations : translations_ (server s') = translations_ (server s);
  same_cache : entity_cache_ (server s') = entity_cache_ (server s);
  same_capacities : capacity_by_action_profile_name_ (server s') = capacity_by_action_profile_name_ (server s);
  same_config : forwarding_pipeline_config_ s' = forwarding_pipeline_config_ s;
  same_path : forwarding_config_full_path_ s' = forwarding_config_full_path_ s;
  same_stored : p4rt_app_db s' = p4rt_app_db s;
}.
#[global] Instance untouched_preorder : PreOrder untouched.
Proof.
  split; [by intros s|]. intros s1 s2 s3 H12 H23. destruct H12, H23. split; congruence.
Qed.

Lemma keeps_on_app_db {A} (m : St AppDbWorld A) : keeps untouched (on_app_db m).
Proof. intros s. unfold on_app_db, zoom. by destruct (m _). Qed.
Lemma keeps_on_hash_table {A} (m : St NotifiedTable A) : keeps untouched (on_hash_table (C:=C) m).
Proof. intros s. unfold on_hash_table, zoom. by destruct (m _). Qed.
Lemma keeps_on_switch_table {A} (m : St NotifiedTable A) : keeps untouched (on_switch_table (C:=C) m).
Proof. intros s. unfold on_switch_table, zoom. by destruct (m _). Qed.
Lemma keeps_save config : keeps untouched (SavePipelineConfig config).
Proof.
  intros s. unfold SavePipelineConfig. destruct (forwarding_config_full_path_ s); [|done]. by destruct (SaveProtoToFile _ _ _).
Qed.
Lemma keeps_save_current : keeps untouched save_current.
Proof. intros s. unfold save_current. destruct (forwarding_pipeline_config_ s); [apply keeps_save|done]. Qed.
Lemma keeps_reset : keeps untouched ResetTransitionTelemetry.
Proof. by intros s. Qed.
Lemma keeps_record transition : keeps untouched (RecordTransitionTelemetry transition).
Proof. by intros s. Qed.
Lemma keeps_allow check : keeps untouched (allow check).
Proof. intros s. unfold allow. by destruct (check _) as [[r m]|]. Qed.
#[local] Hint Resolve keeps_on_app_db keeps_on_hash_table keeps_on_switch_table keeps_save keeps_save_current keeps_reset
  keeps_record keeps_allow : keeps.

Ltac keeps := repeat first
  [ solve [auto with keeps] | apply keeps_ret; apply _ | apply keeps_lift; apply _ | apply keeps_get; apply _
  | apply keeps_bind; [apply _| |intros ?] | apply keeps_critical | apply keeps_if ].

Lemma keeps_configure info : keeps untouched (ConfigureAppDbTables strToStatusCode CHexEscape info).
Proof. unfold ConfigureAppDbTables. keeps.
Qed.
Lemma keeps_hash transition fields values : keeps untouched (TransitionHashConfig strToStatusCode CHexEscape transition fields values).
Proof. unfold TransitionHashConfig. keeps. Qed.
#[local] Hint Resolve keeps_configure keeps_hash : keeps.

Lemma failure_reconcile info current : keeps_on_failure untouched (reconcile strToStatusCode CHexEscape info current).
Proof. unfold reconcile. repeat (apply failure_bind; [apply _|keeps|intros ?]). apply failure_update. Qed.
Lemma failure_apply_first info hardware : keeps_on_failure untouched (apply_first strToStatusCode CHexEscape info hardware).
Proof. unfold apply_first. apply failure_bind; [apply _|keeps|intros ?]. apply failure_update. Qed.

(** * What a config changes *)

Abbreviation info_p4 := (info_ir_p4info (C := C)).

(** A config has been applied: the program in force stays when it is the same, is replaced after a transition of
    the switch, or is the first one. *)
Inductive applied (c : ForwardingPipelineConfig) (info : ConfigInfo) (s s' : Switch) : Prop :=
  | applied_same current :
      ir_p4info_ (server s) = Some current → SameIrP4Info current (info_p4 info) = true →
      untouched (set_config (Some c) s) s' → applied c info s s'
  | applied_transition current transition capacities :
      ir_p4info_ (server s) = Some current → SameIrP4Info current (info_p4 info) = false →
      CalculateTransition current (info_p4 info) = Ok transition → IsSupportedTransition transition = Ok tt →
      GetUpdatedResourceCapacities (info_p4 info) (capacity_by_action_profile_name_ (server s)) = Ok capacities →
      untouched (set_config (Some c) (set_program (info_p4 info) (info_constraints info) (set_capacities capacities s))) s' →
      applied c info s s'
  | applied_first :
      ir_p4info_ (server s) = None →
      untouched (set_config (Some c) (set_program (info_p4 info) (info_constraints info)
        (set_capacities (store_capacities (info_p4 info) (capacity_by_action_profile_name_ (server s))) s))) s' →
      applied c info s s'.

(** The config could not be saved. *)
Definition save_failed (s : Switch) (c : ForwardingPipelineConfig) (r : result unit) : Prop :=
  ∃ path files, forwarding_config_full_path_ s = Some path ∧ r = fst (SaveProtoToFile path c files).

Lemma untouched_capacities capacities s s' : untouched s s' → untouched (set_capacities capacities s) (set_capacities capacities s').
Proof. intros []. by split. Qed.
Lemma untouched_program info constraints s s' : untouched s s' → untouched (set_program info constraints s) (set_program info constraints s').
Proof. intros []. by split. Qed.
Lemma untouched_config c s s' : untouched s s' → untouched (set_config c s) (set_config c s').
Proof. intros []. by split. Qed.

Lemma keeps_eq {A} (m : St Switch A) s r s' : keeps untouched m → m s = (r, s') → untouched s s'.
Proof. intros Hm Hs. specialize (Hm s). by rewrite Hs in Hm. Qed.

Lemma reconcile_ok info current s s' :
  reconcile strToStatusCode CHexEscape info current s = (Ok tt, s') →
  ∃ transition capacities, CalculateTransition current (info_p4 info) = Ok transition ∧
    IsSupportedTransition transition = Ok tt ∧
    GetUpdatedResourceCapacities (info_p4 info) (capacity_by_action_profile_name_ (server s)) = Ok capacities ∧
    untouched (set_capacities capacities s) s'.
Proof.
  unfold reconcile. intros (transition & s1 & [Ht ->]%lift_ok & Hs)%bind_ok.
  apply bind_ok in Hs as ([] & s1 & [Hsup ->]%lift_ok & Hs). apply bind_ok in Hs as (caps & s1 & [= <- <-] & Hs).
  apply bind_ok in Hs as (capacities & s1 & [Hcap ->]%lift_ok & Hs). apply bind_ok in Hs as ([] & s1 & Hhash & Hs).
  exists transition, capacities. split_and!; [done..|].
  apply (keeps_eq _ _ _ _ (keeps_if _ _ _ _ (keeps_hash _ _ _) (keeps_ret _ _))) in Hhash.
  apply bind_ok in Hs as (cache & s2 & [= <- <-] & Hs). apply bind_ok in Hs as (t & s2 & [= <- <-] & Hs).
  apply bind_ok in Hs as ([] & s2 & Hacl & Hs). apply bind_ok in Hs as ([] & s3 & Hrec & [= <-]).
  apply (keeps_eq _ _ _ _ (keeps_critical _ _ (keeps_on_app_db _))) in Hacl.
  apply (keeps_eq _ _ _ _ (keeps_record _)) in Hrec. apply untouched_capacities. by rewrite Hhash, Hacl.
Qed.

Lemma apply_first_ok info hardware s s' :
  apply_first strToStatusCode CHexEscape info hardware s = (Ok tt, s') →
  untouched (set_capacities (store_capacities (info_p4 info) (capacity_by_action_profile_name_ (server s))) s) s'.
Proof.
  unfold apply_first. intros ([] & s1 & Hc & [= <-])%bind_ok.
  apply (keeps_eq _ _ _ _ (keeps_if _ _ _ _ (keeps_critical _ _ (keeps_configure _)) (keeps_ret _ _))) in Hc.
  rewrite <-(same_capacities _ _ Hc). by apply untouched_capacities.
Qed.

Lemma save_current_outcome s c r s' :
  forwarding_pipeline_config_ s = Some c → save_current s = (r, s') → r = Ok tt ∨ save_failed s c r.
Proof.
  unfold save_current, SavePipelineConfig, save_failed. intros -> Hs.
  destruct (forwarding_config_full_path_ s) as [path|]; [|left; by injection Hs].
  destruct (SaveProtoToFile path c (storage s)) as [r0 files] eqn:Hsave. injection Hs as <- <-. right. exists path, (storage s).
  by rewrite Hsave.
Qed.

Lemma save_failed_path s s' c r : forwarding_config_full_path_ s' = forwarding_config_full_path_ s → save_failed s' c r → save_failed s c r.
Proof. intros Hp (path & files & Hpath & Hr). exists path, files. by rewrite <-Hp. Qed.

Lemma reconcile_and_commit_outcome config hardware s r s' :
  ReconcileAndCommitPipelineConfig strToStatusCode CHexEscape config hardware s = (r, s') →
  (is_Ok r = false ∧ untouched s s') ∨
  ∃ c info, config = Some c ∧ PreprocessConfig config = Ok info ∧ applied c info s s' ∧ (r = Ok tt ∨ save_failed s c r).
Proof.
  unfold ReconcileAndCommitPipelineConfig. intros Hs.
  apply bind_cases in Hs as [([] & s1 & Hreset & Hs)|(Hr & r' & Hreset & _)];
    [|left; split; [done|by apply (keeps_eq _ _ _ _ keeps_reset) in Hreset]].
  apply (keeps_eq _ _ _ _ keeps_reset) in Hreset. apply bind_cases in Hs as [(info & s2 & [Hinfo ->]%lift_ok & Hs)|(Hr & r' & Hf & _)];
    [|left; split; [done|by injection Hf as _ <-]].
  apply bind_cases in Hs as [(p & s2 & [= <- <-] & Hs)|(Hr & r' & [= <- _] & ?)]; [|done].
  destruct config as [c|]; [|done]. pose proof (same_path _ _ Hreset) as Hpath.
  destruct (ir_p4info_ (server s1)) as [current|] eqn:Hcur; rewrite (same_program _ _ Hreset) in Hcur.
  - destruct (SameIrP4Info current (info_p4 info)) eqn:Hsame.
    + apply bind_cases in Hs as [([] & s2 & [= <-] & Hs)|(Hr & r' & [= <- <-] & ?)]; [|done].
      right. exists c, info. split_and!; [done..| |].
      * eapply applied_same; [done..|]. rewrite (untouched_config (Some c) _ _ Hreset). by apply (keeps_eq _ _ _ _ keeps_save_current) in Hs.
      * apply (save_current_outcome _ c) in Hs as [|Hs]; [by left| |done]. right. by eapply save_failed_path.
    + apply bind_cases in Hs as [([] & s2 & Hrec & Hs)|(Hr & r' & Hrec & Hr')].
      2: { left. split; [done|]. rewrite Hreset. by eapply failure_reconcile. }
      apply reconcile_ok in Hrec as (transition & capacities & Ht & Hsup & Hcap & Hu).
      rewrite (same_capacities _ _ Hreset) in Hcap. rewrite <-(untouched_capacities capacities _ _ Hreset) in Hu.
      apply bind_cases in Hs as [([] & s3 & [= <-] & Hs)|(Hr & r' & [= <- <-] & ?)]; [|done].
      right. exists c, info. split_and!; [done..| |].
      * eapply applied_transition; [done..|]. apply (untouched_program (info_p4 info) (info_constraints info)), (untouched_config (Some c)) in Hu.
        rewrite Hu. by apply (keeps_eq _ _ _ _ (keeps_if _ _ _ _ keeps_save_current (keeps_ret _ _))) in Hs.
      * destruct hardware; [|left; by injection Hs]. apply (save_current_outcome _ c) in Hs as [|Hs]; [by left| |done]. right.
        eapply save_failed_path; [|done]. exact (same_path _ _ Hu).
  - apply bind_cases in Hs as [([] & s2 & Hrec & Hs)|(Hr & r' & Hrec & Hr')].
    2: { left. split; [done|]. rewrite Hreset. by eapply failure_apply_first. }
    apply apply_first_ok in Hrec as Hu. rewrite (same_capacities _ _ Hreset), <-(untouched_capacities _ _ _ Hreset) in Hu.
    apply bind_cases in Hs as [([] & s3 & [= <-] & Hs)|(Hr & r' & [= <- <-] & ?)]; [|done].
    right. exists c, info. split_and!; [done..| |].
    + eapply applied_first; [done|]. apply (untouched_program (info_p4 info) (info_constraints info)), (untouched_config (Some c)) in Hu.
      rewrite Hu. by apply (keeps_eq _ _ _ _ (keeps_if _ _ _ _ keeps_save_current (keeps_ret _ _))) in Hs.
    + destruct hardware; [|left; by injection Hs]. apply (save_current_outcome _ c) in Hs as [|Hs]; [by left| |done]. right.
      eapply save_failed_path; [|done]. exact (same_path _ _ Hu).
Qed.

(** After the first config, the cache is what the application database holds. *)
Definition rebuilt (s1 s' : Switch) : Prop :=
  ∃ info cache, ir_p4info_ (server s1) = Some info ∧
    RebuildEntityEntryCache info (translations_ (server s1)) (p4rt_app_db s1) (app_db_ (server s1)) = Ok cache ∧
    s' = set_entity_cache cache s1.

Lemma rebuild_cache_outcome s r s' : rebuild_cache s = (r, s') → (is_Ok r = false ∧ s' = s) ∨ (r = Ok tt ∧ rebuilt s s').
Proof.
  unfold rebuild_cache. destruct (ir_p4info_ (server s)) as [info|] eqn:Hinfo; [|intros [= <- <-]; by left].
  destruct (RebuildEntityEntryCache _ _ _ _) as [cache| |] eqn:Hc; intros [= <- <-]; [right|by left..].
  split; [done|]. by exists info, cache.
Qed.

(** The config of a request: submitted with it, or saved before. *)
Definition config_of (request : SetForwardingPipelineConfigRequest) (s : Switch) (c : ForwardingPipelineConfig) : Prop :=
  match set_action request with
  | COMMIT => config request = None ∧
      ∃ path, forwarding_config_full_path_ s = Some path ∧ ReadProtoFromFile path (storage s) = Ok c
  | _ => config request = Some c
  end.

(** Why an applied config is answered with an error: it could not be saved, or the cache could not be rebuilt. *)
Definition commit_failed (s : Switch) (c : ForwardingPipelineConfig) (s1 : Switch) (r : result unit) : Prop :=
  is_Ok r = false ∧ (save_failed s c r ∨ r = fst (critical rebuild_cache s1)).

(** What is done with a config: reconciled, or applied as the first one with the cache rebuilt after it. *)
Definition committed (request : SetForwardingPipelineConfigRequest) (s : Switch) (c : ForwardingPipelineConfig) (r : result unit)
  (s1 s' : Switch) : Prop :=
  match set_action request with
  | RECONCILE_AND_COMMIT => untouched s1 s' ∧ (r = Ok tt ∨ save_failed s c r)
  | VERIFY_AND_COMMIT | COMMIT =>
    forwarding_pipeline_config_ s = None ∧
    ((commit_failed s c s1 r ∧ untouched s1 s') ∨ (r = Ok tt ∧ ∃ s2, rebuilt s1 s2 ∧ untouched s2 s'))
  | _ => False
  end.

Lemma verify_and_commit_outcome config s r s' :
  VerifyAndCommitPipelineConfig strToStatusCode CHexEscape config s = (r, s') →
  (is_Ok r = false ∧ untouched s s') ∨
  ∃ c info s1, config = Some c ∧ PreprocessConfig config = Ok info ∧ forwarding_pipeline_config_ s = None ∧
    applied c info s s1 ∧ ((commit_failed s c s1 r ∧ s' = s1) ∨ (r = Ok tt ∧ rebuilt s1 s')).
Proof.
  unfold VerifyAndCommitPipelineConfig. intros Hs.
  apply bind_cases in Hs as [(current & s0 & [= <- <-] & Hs)|(_ & r' & [= <- _] & ?)]; [|done].
  destruct (forwarding_pipeline_config_ s) as [c0|] eqn:Hnone; [injection Hs as <- <-; by left|].
  apply bind_unit_cases in Hs as [(s1 & Hrec & Hs)|[Hr Hrec]];
    apply reconcile_and_commit_outcome in Hrec as [[? ?]|(c & info & -> & Hinfo & Happ & Hsave)]; [done| |by left|].
  - right. exists c, info, s1. split_and!; [done..|].
    assert (r = fst (critical rebuild_cache s1)) as Hreason by (by rewrite Hs). unfold critical in Hs.
    destruct (rebuild_cache s1) as [r2 s2] eqn:Hb.
    apply rebuild_cache_outcome in Hb as [[? ->]|[-> Hb]]; [left|right; by injection Hs as <- <-].
    destruct r2; [done|..]; injection Hs as <- <-; (split; [|done]); (split; [done|by right]).
  - right. exists c, info, s'. split_and!; [done..|left]. split; [|done]. split; [done|left].
    destruct Hsave as [->|?]; done.
Qed.

Definition outcome (request : SetForwardingPipelineConfigRequest) (s : Switch) (r : result unit) (s' : Switch) : Prop :=
  (untouched s s' ∧
   (is_Ok r = false ∨ (set_action request = VERIFY ∧ is_Ok (PreprocessConfig (config request)) = true))) ∨
  ∃ c info s1, config_of request s c ∧ PreprocessConfig (Some c) = Ok info ∧ applied c info s s1 ∧
    committed request s c r s1 s'.

Lemma outcome_untouched request s r s1 s' : untouched s1 s' → outcome request s r s1 → outcome request s r s'.
Proof.
  intros Hu [[Hs Hr]|(c & info & s2 & Hc & Hinfo & Happ & Hcom)].
  - left. split; [by rewrite Hs|done].
  - right. exists c, info, s2. split_and!; [done..|]. unfold committed in *. destruct (set_action request); [done| | | |done].
    + destruct Hcom as [Hn [[? Hu2]|[? (s3 & ? & Hu2)]]]; (split; [done|]); [left|right]; (split; [done|]);
        [|exists s3; split; [done|]]; by rewrite Hu2.
    + destruct Hcom as [Hn [[? Hu2]|[? (s3 & ? & Hu2)]]]; (split; [done|]); [left|right]; (split; [done|]);
        [|exists s3; split; [done|]]; by rewrite Hu2.
    + destruct Hcom as [Hu2 ?]. split; [by rewrite Hu2|done].
Qed.

Lemma verify_and_commit_is_outcome request config s r s' :
  set_action request = VERIFY_AND_COMMIT ∨ set_action request = COMMIT → (∀ c, config = Some c → config_of request s c) →
  VerifyAndCommitPipelineConfig strToStatusCode CHexEscape config s = (r, s') → outcome request s r s'.
Proof.
  intros Haction Hconfig [[? ?]|(c & info & s1 & Hc & Hinfo & Hnone & Happ & Hout)]%verify_and_commit_outcome.
  - left. split; [done|by left].
  - right. exists c, info, s1. split_and!; [by apply Hconfig|by rewrite <-Hc|done|]. unfold committed.
    assert (forwarding_pipeline_config_ s = None ∧ ((commit_failed s c s1 r ∧ untouched s1 s') ∨
      (r = Ok tt ∧ ∃ s2, rebuilt s1 s2 ∧ untouched s2 s'))) as Hcom.
    { split; [done|]. destruct Hout as [[? ->]|[? ?]]; [by left|right; split; [done|by exists s']]. }
    by destruct Haction as [-> | ->].
Qed.

Lemma action_outcome request s r s' :
  match set_action request with
  | VERIFY => _ ← lift (PreprocessConfig (config request)); mret tt
  | VERIFY_AND_COMMIT => VerifyAndCommitPipelineConfig strToStatusCode CHexEscape (config request)
  | COMMIT => CommitPipelineConfig strToStatusCode CHexEscape (config request)
  | RECONCILE_AND_COMMIT => ReconcileAndCommitPipelineConfig strToStatusCode CHexEscape (config request) true
  | OTHER_ACTION _ => lift (Err kUnimplemented)
  end s = (r, s') → outcome request s r s'.
Proof.
  destruct (set_action request) as [| | | |n] eqn:Haction.
  - intros [(info & s1 & [Hinfo ->]%lift_ok & [= <- <-])|(Hr & r' & [= _ <-] & _)]%bind_cases; left; (split; [done|]); [right|by left].
    by rewrite Hinfo.
  - apply verify_and_commit_is_outcome; [by left|]. intros c Hc. unfold config_of. by rewrite Haction.
  - unfold CommitPipelineConfig. destruct (config request) as [c0|] eqn:Hcfg; [intros [= <- <-]; left; by split; [|left]|].
    intros [(path & s1 & [= <- <-] & Hs)|(_ & r' & [= <- _] & ?)]%bind_cases; [|done].
    destruct (forwarding_config_full_path_ s) as [path|] eqn:Hpath; [|injection Hs as <- <-; left; by split; [|left]].
    apply bind_cases in Hs as [(files & s1 & [= <- <-] & Hs)|(_ & r' & [= <- _] & ?)]; [|done].
    apply bind_cases in Hs as [(saved & s1 & [Hread ->]%lift_ok & Hs)|(? & r' & [= _ <-] & _)]; [|left; by split; [|left]].
    eapply verify_and_commit_is_outcome; [by right| |exact Hs]. intros c [= <-]. unfold config_of. rewrite Haction.
    split; [done|]. by exists path.
  - intros [[? ?]|(c & info & Hc & Hinfo & Happ & Hr)]%reconcile_and_commit_outcome; [left; by split; [|left]|right].
    exists c, info, s'. unfold config_of, committed. rewrite Haction. split_and!; try done. by rewrite <-Hc.
  - intros [= <- <-]. left. by split; [|left].
Qed.

Lemma set_config_outcome (request : SetForwardingPipelineConfigRequest) (s s' : Switch) (r : result unit) :
  SetForwardingPipelineConfig strToStatusCode CHexEscape request s = (r, s') →
  (untouched s s' ∧
   (is_Ok r = false ∨ (set_action request = VERIFY ∧ is_Ok (PreprocessConfig (config request)) = true))) ∨
  (∃ m, SdnController.AllowSetForwardingPipelineConfigRequest (set_header request) (controller_manager_ (server s)) = Some (Ok tt, m)) ∧
  ∃ c info s1, config_of request s c ∧ PreprocessConfig (Some c) = Ok info ∧ applied c info s s1 ∧
    committed request s c r s1 s'.
Proof.
  unfold SetForwardingPipelineConfig. intros [(s1 & Hallow & Hs)|[Hr Hallow]]%bind_unit_cases.
  2: { left. split; [by apply (keeps_eq _ _ _ _ (keeps_allow _)) in Hallow|by left]. }
  unfold allow in Hallow. destruct (SdnController.AllowSetForwardingPipelineConfigRequest _ _) as [[ok m]|] eqn:Hm; [|done].
  injection Hallow as -> <-.
  assert (outcome request s r s') as [?|Hout]; [|by left|right; split; [by exists m|done]].
  apply bind_unit_cases in Hs as [(s1 & Hact%action_outcome & Hs)|[_ Hact%action_outcome]]; [|done].
  destruct (set_action request); injection Hs as <- <-; [exact Hact|..];
    (refine (outcome_untouched _ _ _ _ _ _ Hact); by split).
Qed.

(** A config for the program in force is stored; the first one brings its program, constraints and capacities. *)
Definition applied_unchanged (c : ForwardingPipelineConfig) (info : ConfigInfo) (s s' : Switch) : Prop :=
  match ir_p4info_ (server s) with
  | Some _ => untouched (set_config (Some c) s) s'
  | None =>
    untouched (set_config (Some c) (set_program (info_p4 info) (info_constraints info)
      (set_capacities (store_capacities (info_p4 info) (capacity_by_action_profile_name_ (server s))) s))) s'
  end.

Lemma applied_same_program c info s s' :
  (∀ current, ir_p4info_ (server s) = Some current → SameIrP4Info current (info_p4 info) = true) →
  applied c info s s' → applied_unchanged c info s s'.
Proof.
  intros Hsame [current Hcur _ Hu|current ? ? Hcur Hdiff _ _ _ _|Hcur Hu]; unfold applied_unchanged; rewrite Hcur; [done| |done].
  specialize (Hsame current Hcur). congruence.
Qed.

(** C15.  What a forwarding pipeline config changes, for requests that keep the P4Info that is in force or bring
    the first one, as documented (what the code does with a changed P4Info, which is documented to fail, is the
    subject of the findings).  Either everything requests are answered from stays as it was - the program, the
    constraints, the config, the entity cache, the counters, the translations and the controllers - and then the
    request failed or only asked for a verification, which succeeded; or the request came from a primary, its
    config passed all checks and was applied: with a program in force only the stored config is replaced; the
    first one brings the program, its constraints and its capacities, and only then may the entity cache be
    rebuilt, from the application database.  An applied config is answered with an error only when saving it
    gave that error, or when the cache could not be rebuilt. *)
Theorem pipeline_config_outcome (request : SetForwardingPipelineConfigRequest) (s s' : Switch) (r : result unit) :
  (∀ current c info, ir_p4info_ (server s) = Some current → config_of request s c →
     PreprocessConfig (Some c) = Ok info → SameIrP4Info current (info_p4 info) = true) →
  SetForwardingPipelineConfig strToStatusCode CHexEscape request s = (r, s') →
  (untouched s s' ∧
   (is_Ok r = false ∨ (set_action request = VERIFY ∧ is_Ok (PreprocessConfig (config request)) = true))) ∨
  (∃ m, SdnController.AllowSetForwardingPipelineConfigRequest (set_header request) (controller_manager_ (server s)) = Some (Ok tt, m)) ∧
  ∃ c info s1, config_of request s c ∧ PreprocessConfig (Some c) = Ok info ∧ applied_unchanged c info s s1 ∧
    committed request s c r s1 s'.
Proof.
  intros Hsame [|(Hallowed & c & info & s1 & Hc & Hinfo & Happ & Hcom)]%set_config_outcome; [by left|right].
  split; [done|]. exists c, info, s1. split_and!; [done..| |done]. eapply applied_same_program; [|done]. eauto.
Qed.

(** * Counters *)

(** A table of entries and the profile their groups are counted in. *)
Definition profile_used (info : IrP4Info) (id : Z) : option str :=
  t ← tables_by_id info !! id; profile_id ← action_profile_id t; p ← action_profiles_by_id info !! profile_id;
  Some (profile_alias p).

Lemma usage_profile m info name t :
  usage m info name (kTableEntry t) =
  if bool_decide (profile_used info (table_id t) = Some name)
  then quantity m (profile_resources name (map weight (action_profile_actions (EntityKeys.action t)))) else 0.
Proof.
  unfold usage, GetResourceUsageForPiTableEntry, GetActionProfileName, profile_used, share.
  destruct (tables_by_id info !! table_id t) as [def|]; [|done]. cbn [mbind option_bind].
  destruct (action_profile_id def) as [id|]; [|done]. cbn [mbind option_bind].
  destruct (action_profiles_by_id info !! id) as [p|]; [|done]. cbn [mbind option_bind result_bind action_profile].
  unfold profile_resources. destruct (sum_actions _) as [[a w] x]. cbn [resources_profile_name].
  case_bool_decide as Hn; [|by rewrite bool_decide_eq_false_2 by congruence]. subst. by rewrite bool_decide_eq_true_2.
Qed.

(** Profiles are indexed by id and by name. *)
Definition profiles_indexed (info : IrP4Info) : Prop :=
  indexed (λ p, p4_id (profile_preamble p)) profile_alias (action_profiles_by_id info) (action_profiles_by_name info).

(** The counters of a server are right: they agree with the cache, and there is one for every profile. *)
Record accounted (info : IrP4Info) (s : Server C Translations AppDbWorld) : Prop := {
  counters_consistent : consistent info s;
  counters_complete name : is_Some (action_profiles_by_name info !! name) →
    is_Some (capacity_by_action_profile_name_ s !! name);
  counters_indexed : profiles_indexed info;
}.

(** The groups in the cache are counted in the same profiles under a new program, if it has them. *)
Definition profiles_kept (info new : IrP4Info) (cache : EntityMap) : Prop :=
  ∀ k t name, cache !! k = Some (kTableEntry t) → is_Some (action_profiles_by_name new !! name) →
    profile_used new (table_id t) = Some name ↔ profile_used info (table_id t) = Some name.

Lemma map_sum_ext {K A} `{Countable K} (f g : A → Z) (m : gmap K A) :
  (∀ k a, m !! k = Some a → f a = g a) → map_sum f m = map_sum g m.
Proof.
  induction m as [|k a m Hk IH] using map_ind; intros Hfg; [done|].
  rewrite !map_sum_insert, Hk, IH.
  - cbn. by rewrite (Hfg k a (lookup_insert_eq _ _ _)).
  - intros k' b Hb. apply (Hfg k'). rewrite lookup_insert_ne; [done|]. congruence.
Qed.

Lemma map_sum_zero {K A} `{Countable K} (f : A → Z) (m : gmap K A) : (∀ k a, m !! k = Some a → f a = 0) → map_sum f m = 0.
Proof.
  intros Hf. rewrite (map_sum_ext f (λ _, 0)) by done. clear. induction m as [|k a m Hk IH] using map_ind; [done|].
  rewrite map_sum_insert, IH, Hk. done.
Qed.

(** A profile that the program has not got is not used. *)
Lemma unknown_profile_unused info name id :
  profiles_indexed info → action_profiles_by_name info !! name = None → profile_used info id ≠ Some name.
Proof.
  intros Hx Hnone Hused. unfold profile_used in Hused.
  destruct (tables_by_id info !! id) as [t|]; [|done]. cbn [mbind option_bind] in Hused.
  destruct (action_profile_id t) as [pid|]; [|done]. cbn [mbind option_bind] in Hused.
  destruct (action_profiles_by_id info !! pid) as [p|] eqn:Hp; [|done]. cbn [mbind option_bind] in Hused. injection Hused as Hused.
  destruct (found_by_id _ _ _ _ Hx pid p Hp) as [_ Hname]. congruence.
Qed.

Lemma accounted_unknown info s m name :
  accounted info s → capacity_by_action_profile_name_ s !! name = None → map_sum (usage m info name) (entity_cache_ s) = 0.
Proof.
  intros [_ Hcomplete Hx] Hnone. apply map_sum_zero. intros k [t|p|o] _; [|done..]. rewrite usage_profile.
  rewrite bool_decide_eq_false_2; [done|]. apply unknown_profile_unused; [done|].
  destruct (action_profiles_by_name info !! name) eqn:Hp; [|done].
  destruct (Hcomplete name ltac:(by rewrite Hp)) as [c Hc]. congruence.
Qed.

Lemma created_profiles_indexed p4_info info : CreateIrP4Info p4_info = Ok info → profiles_indexed info.
Proof.
  unfold CreateIrP4Info. intros ([actions references] & _ & (profiles & Hprofiles & Hrest)%bind_Ok_iff)%bind_Ok_iff.
  assert (indexed (λ p, p4_id (profile_preamble p)) profile_alias (fst profiles) (snd profiles)) as Hx.
  { apply (fold_result_ind translate_action_profile (λ _ profiles,
      indexed (λ p, p4_id (profile_preamble p)) profile_alias (fst profiles) (snd profiles))
      (P4.action_profiles p4_info) (∅, ∅) profiles); [apply indexed_empty| |exact Hprofiles].
    intros l p ps ps' Hps Hstep. by eapply indexed_insert. }
  repeat match type of Hrest with
  | (_ ≫= _) = Ok _ => let x := fresh in let r := fresh in apply bind_Ok_iff in Hrest as (x & _ & r); rename r into Hrest
  | (let '(_, _) := ?x in _) = Ok _ => destruct x
  | (match ?x with (_, _) => _ end) = Ok _ => destruct x
  end. by injection Hrest as <-.
Qed.

Lemma translated_profiles info :
  action_profiles_by_id (TranslateIrP4InfoForOrchAgent (RemoveUnsupportedEntities info)) = action_profiles_by_id info ∧
  action_profiles_by_name (TranslateIrP4InfoForOrchAgent (RemoveUnsupportedEntities info)) = action_profiles_by_name info.
Proof. by split. Qed.

Lemma preprocessed_profiles_indexed c info : PreprocessConfig (Some c) = Ok info → profiles_indexed (info_p4 info).
Proof.
  unfold PreprocessConfig. intros ([] & _ & (ci & _ & (ir & Hir & (fields & _ & (values & _ & [= <-])%bind_Ok_iff)%bind_Ok_iff)%bind_Ok_iff)%bind_Ok_iff)%bind_Ok_iff.
  apply created_profiles_indexed in Hir. unfold profiles_indexed in *. cbn [info_ir_p4info].
  destruct (translated_profiles ir) as [-> ->]. done.
Qed.

(** The capacities of a new program, with the usage counted so far. *)
Lemma accounted_transition info new capacities s s' :
  accounted info s → profiles_indexed new → profiles_kept info new (entity_cache_ s) →
  GetUpdatedResourceCapacities new (capacity_by_action_profile_name_ s) = Ok capacities →
  ir_p4info_ s' = Some new → entity_cache_ s' = entity_cache_ s → capacity_by_action_profile_name_ s' = capacities →
  accounted new s'.
Proof.
  intros Hacc Hx Hkept Hcap Hp4 Hcache Hcaps. pose proof (updated_capacities_spec _ _ _ Hcap) as Hspec.
  destruct Hacc as [(Hold & Hkeyed & Hu & Ha) Hcomplete Hox] eqn:Heq. split; [|..|done].
  - split; [done|]. rewrite Hcache, Hcaps. split; [done|]. split.
    + intros name cap Hc m. specialize (Hspec name).
      destruct (action_profiles_by_name new !! name) as [p|] eqn:Hp; [|congruence].
      destruct Hspec as (cap' & Hc' & Hcarried). assert (cap' = cap) as -> by congruence.
      rewrite (map_sum_ext (usage m new name) (usage m info name)).
      2: { intros k [t|r|o] Ht; [|done..]. rewrite !usage_profile. pose proof (Hkept k t name Ht ltac:(by rewrite Hp)) as Hiff.
        by rewrite (bool_decide_ext _ _ Hiff). }
      assert (in_use m cap = from_option (in_use m) 0 (capacity_by_action_profile_name_ s !! name)) as ->.
      { destruct m; cbn [in_use]; [rewrite (same_weight _ _ _ Hcarried)|rewrite (same_members _ _ _ Hcarried)];
          by destruct (capacity_by_action_profile_name_ s !! name). }
      destruct (capacity_by_action_profile_name_ s !! name) as [o|] eqn:Ho; cbn [from_option]; [by apply Hu|].
      symmetry. by apply (accounted_unknown info s m name Hacc).
    + intros name cap Hc. specialize (Hspec name). destruct (action_profiles_by_name new !! name) as [p|] eqn:Hp; [|congruence].
      destruct Hspec as (cap' & Hc' & Hcarried). assert (cap' = cap) as -> by congruence. by rewrite (new_profile _ _ _ Hcarried).
  - intros name [p Hp]. specialize (Hspec name). rewrite Hp in Hspec. destruct Hspec as (cap & Hc & _). rewrite Hcaps. by exists cap.
Qed.

(** The first program, of a server without entities. *)
Lemma store_capacities_spec new name :
  profiles_indexed new →
  store_capacities new ∅ !! name = GetActionProfileResourceCapacity <$> action_profiles_by_name new !! name.
Proof.
  intros _. unfold store_capacities.
  assert (∀ l (m : ActionProfileCapacityMap), NoDup (map fst l) →
    fold_left (λ m '(n, d), <[n := GetActionProfileResourceCapacity d]> m) l m !! name =
    match (list_to_map l : gmap str ActionProfile) !! name with
    | Some p => Some (GetActionProfileResourceCapacity p) | None => m !! name end) as Hall.
  { induction l as [|[n p] l IH]; intros m Hnd; [done|]. apply NoDup_cons in Hnd as [Hnew Hnd]. cbn. rewrite IH by done.
    destruct (decide (n = name)) as [->|Hne].
    - rewrite lookup_insert_eq. rewrite (not_elem_of_list_to_map_1 l name) by done. by rewrite lookup_insert_eq.
    - by rewrite !lookup_insert_ne by done. }
  rewrite Hall by apply NoDup_fst_map_to_list. rewrite list_to_map_to_list. by destruct (action_profiles_by_name new !! name).
Qed.

(** A server with a program whose capacities are those of the program, without usage. *)
Lemma accounted_first new s :
  profiles_indexed new → ir_p4info_ s = Some new → capacity_by_action_profile_name_ s = store_capacities new ∅ →
  cache_keyed (entity_cache_ s) → (∀ k e m name, entity_cache_ s !! k = Some e → usage m new name e = 0) → accounted new s.
Proof.
  intros Hx Hp4 Hcaps Hkeyed Hunused. split; [split; [done|]; split; [done|]; split|..|done]; rewrite ?Hcaps.
  - intros name cap Hc m. rewrite store_capacities_spec in Hc by done. apply fmap_Some in Hc as (p & _ & ->).
    rewrite map_sum_zero; [by destruct m|]. intros k e He. by eapply Hunused.
  - intros name cap Hc. rewrite store_capacities_spec in Hc by done. by apply fmap_Some in Hc as (p & Hp & ->).
  - intros name [p Hp]. rewrite store_capacities_spec, Hp by done. by eexists.
Qed.

(** Everything that is read back is stored under its key. *)
Lemma rebuilt_keyed info t stored w cache : RebuildEntityEntryCache info t stored w = Ok cache → cache_keyed cache.
Proof.
  assert (∀ k e (m : EntityMap), cache_keyed m → MakeEntityKey e = Ok k → cache_keyed (<[k := e]> m)) as Hins.
  { intros k e m Hm He k' e' [[<- <-]|[_ He']]%lookup_insert_Some; [done|by apply Hm]. }
  assert (∀ A (f : EntityMap → A → result EntityMap) l (m m' : EntityMap), cache_keyed m → fold_result f l m = Ok m' →
    (∀ m1 a m2, cache_keyed m1 → f m1 a = Ok m2 → cache_keyed m2) → cache_keyed m') as Hfold.
  { intros A f l m m' Hm Hf Hstep. apply (fold_result_ind f (λ _ m, cache_keyed m) l m m'); [done| |done].
    intros l' a m1 m2. by apply Hstep. }
  assert (∀ m e m', cache_keyed m → cache_entry e m = Ok m' → cache_keyed m') as Hentry.
  { intros m e m' Hm. unfold cache_entry. intros (k & Hk & [= <-])%bind_Ok_iff. by apply Hins. }
  unfold RebuildEntityEntryCache. intros (c1 & H1' & (vrfs & _ & (c2 & H2' & (vlans & _ & (c3 & H3' & (members & _ &
    (c4 & H4' & (reps & _ & H5')%bind_Ok_iff)%bind_Ok_iff)%bind_Ok_iff)%bind_Ok_iff)%bind_Ok_iff)%bind_Ok_iff)%bind_Ok_iff)%bind_Ok_iff.
  eapply Hfold in H5'; [exact H5'| |].
  - eapply Hfold in H4'; [exact H4'| |].
    + eapply Hfold in H3'; [exact H3'| |].
      * eapply Hfold in H2'; [exact H2'| |].
        -- eapply Hfold in H1'; [exact H1'|by intros ???|]. intros m1 a m2 Hm. unfold rebuild_p4rt.
           intros (x & _ & (y & _ & (z & _ & Hz)%bind_Ok_iff)%bind_Ok_iff)%bind_Ok_iff. by eapply Hentry.
        -- intros m1 a m2 Hm. unfold rebuild_vrf. intros (x & _ & Hx)%bind_Ok_iff. by eapply Hentry.
      * intros m1 a m2 Hm. unfold rebuild_vlan. intros (x & _ & (y & _ & Hy)%bind_Ok_iff)%bind_Ok_iff. by eapply Hentry.
    + intros m1 a m2 Hm. unfold rebuild_vlan. intros (x & _ & (y & _ & Hy)%bind_Ok_iff)%bind_Ok_iff. by eapply Hentry.
  - intros m1 a m2 Hm. unfold rebuild_replication.
    intros (x & _ & (y & _ & (k & Hk & [= <-])%bind_Ok_iff)%bind_Ok_iff)%bind_Ok_iff. by apply Hins.
Qed.

(** The bookkeeping of a server, before and after its first config. *)
Definition bookkept (s : Switch) : Prop :=
  match ir_p4info_ (server s), forwarding_pipeline_config_ s with
  | Some info, Some _ => accounted info (server s)
  | None, None => entity_cache_ (server s) = ∅ ∧ capacity_by_action_profile_name_ (server s) = ∅
  | _, _ => False
  end.

(** What is stored when the first config arrives is not counted in any profile. *)
Definition nothing_counted (s : Switch) : Prop :=
  ∀ info t w cache k e m name, RebuildEntityEntryCache info t (p4rt_app_db s) w = Ok cache → cache !! k = Some e →
    usage m info name e = 0.

Lemma accounted_untouched info s s' : untouched s s' → accounted info (server s) → accounted info (server s').
Proof.
  intros Hu [(Hp & Hk & Hs & Ha) Hc Hx]. split; [|by rewrite (same_capacities _ _ Hu)|done].
  unfold consistent. by rewrite (same_program _ _ Hu), (same_cache _ _ Hu), (same_capacities _ _ Hu).
Qed.
Lemma bookkept_untouched s s' : untouched s s' → bookkept s → bookkept s'.
Proof.
  intros Hu. unfold bookkept. rewrite (same_program _ _ Hu), (same_config _ _ Hu), (same_cache _ _ Hu), (same_capacities _ _ Hu).
  destruct (ir_p4info_ (server s)), (forwarding_pipeline_config_ s); [|done..]. by apply accounted_untouched.
Qed.

Lemma applied_bookkept c info s s' :
  bookkept s → PreprocessConfig (Some c) = Ok info →
  (∀ current, ir_p4info_ (server s) = Some current → profiles_kept current (info_p4 info) (entity_cache_ (server s))) →
  applied c info s s' → bookkept s'.
Proof.
  intros Hb Hinfo Hkept Happ. pose proof (preprocessed_profiles_indexed _ _ Hinfo) as Hx.
  destruct Happ as [current Hcur Hsame Hu|current transition capacities Hcur Hsame Ht Hsup Hcap Hu|Hcur Hu];
    (eapply bookkept_untouched; [exact Hu|]); unfold bookkept in *; cbn; rewrite Hcur in Hb.
  - rewrite Hcur. by destruct (forwarding_pipeline_config_ s).
  - destruct (forwarding_pipeline_config_ s); [|done]. eapply accounted_transition; [done|done|by apply Hkept|done|done|done|done].
  - destruct (forwarding_pipeline_config_ s); [done|]. destruct Hb as [Hcache Hcaps]. apply accounted_first; [done|done|cbn; by rewrite Hcaps|..];
      cbn; rewrite Hcache; by intros.
Qed.

Lemma rebuilt_bookkept c info s s1 s' :
  bookkept s → PreprocessConfig (Some c) = Ok info → forwarding_pipeline_config_ s = None → nothing_counted s →
  applied c info s s1 → rebuilt s1 s' → bookkept s'.
Proof.
  intros Hb Hinfo Hnone Hstored Happ (p4 & cache & Hp4 & Hcache & ->). pose proof (preprocessed_profiles_indexed _ _ Hinfo) as Hx.
  unfold bookkept in Hb. rewrite Hnone in Hb.
  destruct Happ as [current Hcur _ _|current ? ? Hcur _ _ _ _ _|Hcur Hu]; rewrite Hcur in Hb; [done..|].
  rewrite (same_program _ _ Hu) in Hp4. injection Hp4 as <-. rewrite (same_stored _ _ Hu) in Hcache. unfold bookkept. cbn.
  rewrite (same_program _ _ Hu), (same_config _ _ Hu). cbn. destruct Hb as [_ Hcaps]. apply accounted_first; [done|..]; cbn.
  - by rewrite (same_program _ _ Hu).
  - rewrite (same_capacities _ _ Hu). cbn. by rewrite Hcaps.
  - by eapply rebuilt_keyed.
  - intros k e m name He. by eapply Hstored.
Qed.

(** C16.  Bookkeeping invariant of the pipeline.  The counters of the action profiles keep agreeing with the
    entity cache through every forwarding pipeline config, accepted or not, as long as the groups in the cache
    are counted in the same profiles under the new program; for the first config, as long as nothing that the
    application database already holds is counted in a profile. *)
Theorem pipeline_preserves_consistency (request : SetForwardingPipelineConfigRequest) (s s' : Switch) (r : result unit) :
  SetForwardingPipelineConfig strToStatusCode CHexEscape request s = (r, s') → bookkept s →
  (∀ c info current, config_of request s c → PreprocessConfig (Some c) = Ok info → ir_p4info_ (server s) = Some current →
     profiles_kept current (info_p4 info) (entity_cache_ (server s))) →
  (forwarding_pipeline_config_ s = None → nothing_counted s) → bookkept s'.
Proof.
  intros Hs Hb Hkept Hstored.
  apply set_config_outcome in Hs as [[Hu _]|(_ & c & info & s1 & Hc & Hinfo & Happ & Hcom)]; [by eapply bookkept_untouched|].
  assert (bookkept s1) as Hb1 by (eapply applied_bookkept; [done|done|by intros; eapply Hkept|done]).
  assert (forwarding_pipeline_config_ s = None ∧ ((commit_failed s c s1 r ∧ untouched s1 s') ∨
    (r = Ok tt ∧ ∃ s2, rebuilt s1 s2 ∧ untouched s2 s')) → bookkept s') as Hfirst.
  { intros [Hnone [[_ Hu]|[_ (s2 & Hr & Hu)]]]; (eapply bookkept_untouched; [exact Hu|]); [done|].
    by eapply rebuilt_bookkept; [..|apply Hstored| |]. }
  unfold committed in Hcom. destruct (set_action request); [done|by apply Hfirst|by apply Hfirst| |done].
  eapply bookkept_untouched; [|exact Hb1]. apply Hcom.
Qed.
End correct.

(** * Examples *)

(** A program with a group table, an ACL table and an action profile. *)
Definition group_element : Element := sdn_string_element 1 $"wcmp_group_id" [].
Definition wcmp_program (size ttl_width : Z) : P4.P4Info :=
  P4.mkP4Info
    [P4.mkTable (mkPreamble 0x03000001 $"wcmp_group_table" $"wcmp_group_table" [$"@oneshot"])
       [mkMatchField group_element EXACT] [entry_action_ref 1] 0 100 16;
     P4.mkTable (mkPreamble 2 $"acl_ingress_table" $"acl_ingress_table" [$"@sai_acl(INGRESS)"])
       [mkMatchField (mkElement 1 $"ttl" [$"@sai_field(TTL)"] ttl_width None) TERNARY] [entry_action_ref 2] 0 0 16]
    [routing_action 1 $"set_nexthop_id" [sdn_string_element 1 $"nexthop_id" []];
     P4.mkAction (mkPreamble 2 $"acl_drop" $"acl_drop" [$"@sai_action(SAI_PACKET_ACTION_DROP)"]) []]
    [mkActionProfile (named 100 $"wcmp") [0x03000001] size 64 None] [] [] []
    {[ $"string_t" := P4.kTranslatedType P4.kSdnString ]}.
Definition wcmp_config (size ttl_width : Z) : ForwardingPipelineConfig := mkConfig (wcmp_program size ttl_width) [] (Some 1).

(** Libraries that find two programs the same when they have the same tables and profiles by name, and keep
    one saved config. *)
#[local] Instance example_libraries : PipelineLibraries () (option ForwardingPipelineConfig) := {|
  P4ToConstraintInfo _ := Ok tt;
  SameIrP4Info a b := bool_decide (map fst (map_to_list (tables_by_name a)) = map fst (map_to_list (tables_by_name b))) &&
    bool_decide (profile_size <$> action_profiles_by_name a = profile_size <$> action_profiles_by_name b);
  ComparePacketMetadata _ _ := true;
  SupportedSchema := Ok [];
  ReadProtoFromFile _ saved := match saved with Some c => Ok c | None => Err kNotFound end;
  SaveProtoToFile _ c _ := (Ok tt, Some c);
  NowUnixNanos _ := $"1";
|}.
(** The application database holds one group. *)
Definition stored_group : Ir.TableEntry :=
  Ir.mkEntry $"wcmp_group_table" [Ir.mkMatch $"wcmp_group_id" (Ir.kExact (kStr $"g"))] 0
    (Ir.kActionSet [Ir.mkInvocation (Ir.mkAction $"set_nexthop_id" [($"nexthop_id", kStr $"n1")]) 5 [];
                    Ir.mkInvocation (Ir.mkAction $"set_nexthop_id" [($"nexthop_id", kStr $"n2")]) 7 []]) None None None [].
#[local] Instance example_reads : AppDbReads := {|
  GetAllP4TableEntryKeys table := map fst (map_to_list table);
  ReadP4TableEntry _ _ _ := Ok stored_group;
  GetAllAppDbPacketReplicationTableEntries _ := Ok [];
  GetAllAppDbVrfTableEntries _ := Ok [];
  GetAllAppDbVlanTableEntries _ := Ok [];
  GetAllAppDbVlanMemberTableEntries _ := Ok [];
|}.
#[local] Instance example_switch_libraries : SwitchLibraries () := plain_libraries.

Definition no_updates : AppDbWorld :=
  let t := mkNotifiedTable [] ∅ ∅ [] [] in mkAppDbWorld (mkZmq [] []) t t t.
(** The server after a restart: only the databases and the saved config are left. *)
Definition restarted : Switch () (option ForwardingPipelineConfig) :=
  let t := mkNotifiedTable [] ∅ ∅ [] [] in
  mkSwitch (mkServer SdnController.initial None tt no_translations ∅ ∅ no_updates 0 0) None (Some $"config") (Some (wcmp_config 100 8))
    {[ $"FIXED_WCMP_GROUP_TABLE:g" := [] ]} t t ∅ {[ $"CONFIG" := [($"last-configuration-timestamp", $"1")] ]} ∅ ∅.

Definition after_warm_boot := RebuildSwStateAfterWarmboot example_codes id [] [] [] None restarted.

(** After a warm boot the cache holds the group, of weight 12, and the counter of its profile is 0. *)
Example warm_boot_forgets_usage :
  fst after_warm_boot = Ok tt ∧
  map_sum (λ e, from_option (λ info, usage Weights info $"wcmp" e) 0 (ir_p4info_ (server (snd after_warm_boot))))
    (entity_cache_ (server (snd after_warm_boot))) = 12 ∧
  current_total_weight <$> capacity_by_action_profile_name_ (server (snd after_warm_boot)) !! $"wcmp" = Some 0.
Proof. split_and!; vm_compute; reflexivity. Qed.

(** A server whose one controller connection is the primary, and an OrchAgent that accepts everything. *)
Definition accepted_reply (key : str) : option (str * str * list KeyOpFieldsValues) :=
  Some ($"APPL_DB", $"P4RT_TABLE", [mkKfv key $"SET" [($"0", [])]]).
Definition acl_key : str := GenerateSonicDbKeyFromTableName $"acl_ingress_table".
Definition tables_key : str := kfvKey (PublishExtTablesDefinitionToAppDb JNull 0).
Definition fresh : Switch () (option ForwardingPipelineConfig) :=
  let t := mkNotifiedTable [] ∅ ∅ [] [] in
  let channel := mkZmq [] (map accepted_reply [acl_key; tables_key; tables_key; acl_key; acl_key]) in
  mkSwitch (mkServer (controller_manager_ (role_server [])) None tt no_translations ∅ ∅
      (mkAppDbWorld channel t t t) 0 0) None (Some $"config") None ∅ t t ∅ ∅ ∅ ∅.
Definition config_request (size ttl_width : Z) : SetForwardingPipelineConfigRequest :=
  mkSetConfig (header (role_request [] [])) RECONCILE_AND_COMMIT (Some (wcmp_config size ttl_width)).
Definition first_commit := SetForwardingPipelineConfig example_codes id (config_request 100 8) fresh.
Definition second_commit := SetForwardingPipelineConfig example_codes id (config_request 200 9) (snd first_commit).

Lemma commits_succeed : fst first_commit = Ok tt ∧ fst second_commit = Ok tt.
Proof. split; vm_compute; reflexivity. Qed.

(** The same program with another cookie. *)
Definition same_request : SetForwardingPipelineConfigRequest :=
  mkSetConfig (header (role_request [] [])) RECONCILE_AND_COMMIT (Some (mkConfig (wcmp_program 100 8) [] (Some 2))).
Definition same_commit := SetForwardingPipelineConfig example_codes id same_request (snd first_commit).

Lemma pipeline_config_outcome_witness :
  fst same_commit = Ok tt ∧ cookie <$> forwarding_pipeline_config_ (snd first_commit) = Some (Some 1) ∧
  cookie <$> forwarding_pipeline_config_ (snd same_commit) = Some (Some 2) ∧
  ∃ c info s1, config_of same_request (snd first_commit) c ∧ PreprocessConfig (Some c) = Ok info ∧
    applied_unchanged c info (snd first_commit) s1 ∧ committed same_request (snd first_commit) c (Ok tt) s1 (snd same_commit).
Proof.
  assert (fst same_commit = Ok tt) as Hok by (vm_compute; reflexivity).
  split; [exact Hok|]. split; [vm_compute; reflexivity|]. split; [vm_compute; reflexivity|].
  assert (SetForwardingPipelineConfig example_codes id same_request (snd first_commit) = (Ok tt, snd same_commit)) as Hs
    by (rewrite <-Hok; apply surjective_pairing).
  assert (∀ current c info, ir_p4info_ (server (snd first_commit)) = Some current → config_of same_request (snd first_commit) c →
    PreprocessConfig (Some c) = Ok info → SameIrP4Info current (info_ir_p4info info) = true) as Hsame.
  { intros current c info Hcur Hc Hinfo.
    assert (c = mkConfig (wcmp_program 100 8) [] (Some 2)) as -> by (injection Hc as Hc; symmetry; exact Hc).
    assert (match ir_p4info_ (server (snd first_commit)), PreprocessConfig (Some (mkConfig (wcmp_program 100 8) [] (Some 2))) with
      | Some current, Ok info => SameIrP4Info current (info_ir_p4info info) | _, _ => false end = true) as Htrue
      by (vm_compute; reflexivity).
    rewrite Hcur, Hinfo in Htrue. exact Htrue. }
  destruct (pipeline_config_outcome example_codes id same_request (snd first_commit) (snd same_commit) (Ok tt) Hsame Hs)
    as [[_ [Hr|[Hv _]]]|[_ Hout]]; [discriminate Hr|discriminate Hv|exact Hout].
Defined.

Lemma pipeline_preserves_consistency_witness : bookkept fresh ∧ bookkept (snd first_commit) ∧ bookkept (snd second_commit).
Proof.
  assert (bookkept fresh) as Hfresh by (split; reflexivity). split; [exact Hfresh|].
  assert (bookkept (snd first_commit)) as Hfirst.
  { apply (pipeline_preserves_consistency example_codes id (config_request 100 8) fresh (snd first_commit) (fst first_commit)).
    - apply surjective_pairing.
    - exact Hfresh.
    - intros c info current _ _ Hnone. discriminate Hnone.
    - intros _ info t w cache k e m name Hcache. assert (Ok cache = Ok (∅ : EntityMap)) as Hempty by (rewrite <-Hcache; reflexivity).
      injection Hempty as ->. intros He. rewrite lookup_empty in He. discriminate He. }
  split; [exact Hfirst|].
  apply (pipeline_preserves_consistency example_codes id (config_request 200 9) (snd first_commit) (snd second_commit) (fst second_commit)).
  - apply surjective_pairing.
  - exact Hfirst.
  - intros c info current _ _ _ k t name Ht.
    assert (entity_cache_ (server (snd first_commit)) = ∅) as Hempty by (vm_compute; reflexivity).
    rewrite Hempty, lookup_empty in Ht. discriminate Ht.
  - intros Hnone. assert (is_Some (forwarding_pipeline_config_ (snd first_commit))) as [c Hc] by (vm_compute; eexists; reflexivity).
    rewrite Hc in Hnone. discriminate Hnone.
Defined.
