(* ===== verification/PacketIo.v ===== *)
(** p4rt_app: packets between the controller and the network interfaces - [packetio_helpers.cc], [packetio_impl.cc],
    [packetio_port.cc], [packetio_selectables.cc] and the packet handlers of [p4runtime_impl.cc].  A port has a raw
    socket; packets of the controller are written to it, packets that are read from it go to the primary connections. *)
From S2P Require Import Prelude Bitset ByteString Abseil NetAddr NetAddrText IrUtils EntityKeys IrData IrTranslation IrMessages PortTranslation SonicWrite Pipeline.
From S2P Require SdnController.

(** * The kernel

    The calls of [SystemCallAdapter] that are used; every call returns its result and the state it leaves. *)

Class SystemCalls (W : Type) := {
  sys_socket : W → Z * W;
  sys_set_filter : Z → W → Z * W;
  sys_if_nametoindex : str → W → Z * W;
  sys_bind : Z → Z → W → Z * W;
  sys_close : Z → W → W;
  (** SIOCGIFFLAGS: the result and the flags. *)
  sys_ioctl_flags : Z → str → W → (Z * Z) * W;
  (** SO_ERROR: the result. *)
  sys_getsockopt : Z → W → Z * W;
  (** The result, and whether errno is EINTR. *)
  sys_write : Z → str → W → (Z * bool) * W;
}.

Definition IFF_UP : Z := 1.
Definition IFF_RUNNING : Z := 64.
Definition IFNAMSIZ : nat := 16.

(** * The socket filter

    The program that is attached to every socket, in classic BPF.  The kernel runs it on a frame: the result is how
    many bytes are kept, and a load outside of the frame drops it. *)

Record sock_filter := mkFilter { code : Z; jt : nat; jf : nat; k : Z }.
Definition socket_filters : list sock_filter := [
  mkFilter 0x28 0 0 0x0000000c;
  mkFilter 0x15 4 0 0x00008809;
  mkFilter 0x20 0 0 0x00000002;
  mkFilter 0x15 0 3 0x00000016;
  mkFilter 0x28 0 0 0x00000000;
  mkFilter 0x15 0 1 0x00003333;
  mkFilter 0x6 0 0 0x00000000;
  mkFilter 0x6 0 0 0x00040000].

Definition load (offset size : nat) (frame : str) : option Z :=
  if (offset + size <=? List.length frame)%nat then Some (be_value (take size (drop offset frame))) else None.
(** Jumps are forward, so the rest of the program gets shorter. *)
Fixpoint run_filter (fuel : nat) (program : list sock_filter) (accumulator : Z) (frame : str) : Z :=
  match fuel, program with
  | S fuel, i :: rest =>
    if code i =? 0x28 then
      match load (Z.to_nat (k i)) 2 frame with Some v => run_filter fuel rest v frame | None => 0 end
    else if code i =? 0x20 then
      match load (Z.to_nat (k i)) 4 frame with Some v => run_filter fuel rest v frame | None => 0 end
    else if code i =? 0x15 then run_filter fuel (drop (if accumulator =? k i then jt i else jf i) rest) accumulator frame
    else if code i =? 0x6 then k i
    else 0
  | _, _ => 0
  end.
Definition kept_bytes (frame : str) : Z := run_filter (List.length socket_filters) socket_filters 0 frame.

(** * packetio_port.cc *)

Section packet_io.
Context {W : Type} `{SystemCalls W}.

Definition sys {A} (call : W → A * W) : St W A := λ w, let '(a, w) := call w in (Ok a, w).
Definition RET_CHECK {S} (b : bool) : St S unit := lift (if b then Ok tt else Err kInternal).

(** What a C function sees of a string: up to the first NUL. *)
Fixpoint c_string (s : str) : str :=
  match s with [] => [] | c :: s => if bool_decide (c = zero) then [] else c :: c_string s end.

(** The state has the caller's variable [port_socket]. *)
Definition on_kernel {A} (m : St W A) : St (W * Z) A := zoom fst (λ w s, (w, snd s)) m.
Definition CreateAndBindSockets (port_name : str) : St (W * Z) unit :=
  new_socket ← on_kernel (sys sys_socket);
  _ ← update_state (λ s, (fst s, new_socket));
  port_socket ← get snd;
  _ ← RET_CHECK (negb (port_socket =? -1));
  filtered ← on_kernel (sys (sys_set_filter port_socket));
  _ ← RET_CHECK (0 <=? filtered);
  ifindex ← on_kernel (sys (sys_if_nametoindex (c_string port_name)));
  _ ← RET_CHECK (negb (ifindex =? 0));
  bound ← on_kernel (sys (sys_bind port_socket ifindex));
  RET_CHECK (0 <=? bound).

Definition CreatePacketIoSocket (port_name : str) : St W Z := λ w,
  match CreateAndBindSockets port_name (w, -1) with
  | (Ok _, (w, port_socket)) => (Ok port_socket, w)
  | (Err _, (w, port_socket)) => (Err kInternal, if 0 <=? port_socket then sys_close port_socket w else w)
  | (Die, (w, _)) => (Die, w)
  end.

(** A selectable only keeps the descriptor of its socket: it does not close it. *)
Definition AddPacketIoPort_socket (port_name : str) : St W Z := CreatePacketIoSocket port_name.

(** The rounds that the loop may take. *)
Context (rounds : nat).

Fixpoint write_loop (fuel : nat) (transmit_socket msg_len : Z) (ptr : str) : St W unit :=
  match fuel with
  | O => lift Die
  | S fuel =>
    '(res, interrupted) ← sys (sys_write transmit_socket (take (Z.to_nat msg_len) ptr));
    if res <? 0 then
      if interrupted : bool then
        if 0 <? msg_len then write_loop fuel transmit_socket msg_len ptr else mret tt
      else lift (Err kInternal)
    else
      let msg_len := msg_len - res in
      let ptr := drop (Z.to_nat res) ptr in
      if 0 <? msg_len then write_loop fuel transmit_socket msg_len ptr else mret tt
  end.

(** [strncpy] into 16 bytes. *)
Definition ifr_name (interface_name : str) : str := take IFNAMSIZ (c_string interface_name).

(** [msg_len] is an [int]: the length of a longer packet is negative. *)
Definition SendPacketOut_socket (transmit_socket : Z) (interface_name packet : str) : St W unit :=
  let msg_len := wrapS 32 (zlen packet) in
  '(result, flags) ← sys (sys_ioctl_flags transmit_socket (ifr_name interface_name));
  _ ← RET_CHECK (negb (result =? -1));
  let link_up := negb (Z.land flags IFF_UP =? 0) && negb (Z.land flags IFF_RUNNING =? 0) in
  _ ← RET_CHECK link_up;
  pending_error ← sys (sys_getsockopt transmit_socket);
  if pending_error <? 0 then lift (Err kInternal)
  else if msg_len <? 0 then lift Die
  else write_loop rounds transmit_socket msg_len packet.

(** * packetio_impl.cc *)

(** A selectable is its receive socket; [port_select_] is what the receive thread waits on, by descriptor. *)
Record PacketIo := mkPacketIo {
  kernel : W;
  port_to_socket_ : gmap str Z;
  port_to_selectables_ : gmap str Z;
  port_select_ : gset Z;
  callback_function_ : bool;
  use_genetlink_ : bool;
}.
Definition set_kernel (w : W) (s : PacketIo) : PacketIo :=
  mkPacketIo w (port_to_socket_ s) (port_to_selectables_ s) (port_select_ s) (callback_function_ s) (use_genetlink_ s).
Definition set_sockets (m : gmap str Z) (s : PacketIo) : PacketIo :=
  mkPacketIo (kernel s) m (port_to_selectables_ s) (port_select_ s) (callback_function_ s) (use_genetlink_ s).
Definition set_selectables (m : gmap str Z) (select : gset Z) (s : PacketIo) : PacketIo :=
  mkPacketIo (kernel s) (port_to_socket_ s) m select (callback_function_ s) (use_genetlink_ s).

Definition SendPacketOut (port_name packet : str) : St PacketIo unit :=
  sockets ← get port_to_socket_;
  match sockets !! port_name with
  | None => lift (Err kNotFound)
  | Some socket => zoom kernel set_kernel (SendPacketOut_socket socket port_name packet)
  end.

Definition AddPacketIoPort (port_name : str) : St PacketIo unit :=
  sockets ← get port_to_socket_;
  if bool_decide (is_Some (sockets !! port_name)) then mret tt
  else
    socket ← zoom kernel set_kernel (AddPacketIoPort_socket port_name);
    _ ← update_state (λ s, set_sockets (<[port_name := socket]> (port_to_socket_ s)) s);
    use_genetlink ← get use_genetlink_;
    if use_genetlink : bool then mret tt
    else
      selectables ← get port_to_selectables_;
      _ ← update_state (λ s, set_selectables (port_to_selectables_ s) ({[ socket ]} ∪ port_select_ s) s);
      if bool_decide (is_Some (selectables !! port_name)) then lift (Err kInternal)
      else update_state (λ s, set_selectables (<[port_name := socket]> (port_to_selectables_ s)) (port_select_ s) s).

(** The end of [RemovePacketIoPort]. *)
Definition close_port (port_name : str) : St PacketIo unit :=
  sockets ← get port_to_socket_;
  match sockets !! port_name with
  | None => lift (Err kNotFound)
  | Some socket =>
    _ ← (if 0 <=? socket then update_state (λ s, set_kernel (sys_close socket (kernel s)) s) else mret tt);
    update_state (λ s, set_sockets (delete port_name (port_to_socket_ s)) s)
  end.
Definition RemovePacketIoPort (port_name : str) : St PacketIo unit :=
  use_genetlink ← get use_genetlink_;
  if use_genetlink : bool then close_port port_name
  else
    selectables ← get port_to_selectables_;
    match selectables !! port_name with
    | None => lift (Err kInvalidArgument)
    | Some socket =>
      _ ← update_state (λ s, set_selectables (delete port_name (port_to_selectables_ s)) (port_select_ s ∖ {[ socket ]}) s);
      close_port port_name
    end.

Definition IsValidPortForTransmit (port_name : str) (s : PacketIo) : bool := bool_decide (is_Some (port_to_socket_ s !! port_name)).
Definition IsValidPortForReceive (port_name : str) (s : PacketIo) : bool :=
  callback_function_ s && (use_genetlink_ s || bool_decide (is_Some (port_to_selectables_ s !! port_name))).

(** [genetlink] is the outcome of starting the thread of receive_genetlink.cc. *)
Definition StartReceive (callback_given use_genetlink : bool) (genetlink : result unit) : St PacketIo unit :=
  if negb callback_given then lift (Err kInvalidArgument)
  else
    _ ← update_state (λ s, mkPacketIo (kernel s) (port_to_socket_ s) (port_to_selectables_ s) (port_select_ s) true use_genetlink);
    if use_genetlink then lift genetlink else mret tt.

(** * packetio_helpers.cc, and the handlers of p4runtime_impl.cc *)

Definition PACKET_OUT_EGRESS_PORT_ID : Z := 1.
Definition PACKET_OUT_SUBMIT_TO_INGRESS_ID : Z := 2.
Definition PACKET_OUT_UNUSED_PAD_ID : Z := 3.
Definition PACKET_IN_INGRESS_PORT_ID : Z := 1.
Definition PACKET_IN_TARGET_EGRESS_PORT_ID : Z := 2.
Definition SEND_TO_INGRESS_PORT_NAME : str := $"SEND_TO_INGRESS".

Context {C : Type} `{SwitchLibraries C} `{AbslStrings} `{!Ipv6.Inet} `{Gutil}.

(** The egress port and whether the packet is injected at ingress. *)
Definition out_metadata (state : str * Z) (meta : Z * str) : result (str * Z) :=
  let '(egress_port_id, submit_to_ingress) := state in
  let '(id, value) := meta in
  if id =? PACKET_OUT_EGRESS_PORT_ID then Ok (value, submit_to_ingress)
  else if id =? PACKET_OUT_SUBMIT_TO_INGRESS_ID then
    submit_to_ingress ← ArbitraryByteStringToUint value 1; Ok (egress_port_id, submit_to_ingress)
  else if id =? PACKET_OUT_UNUSED_PAD_ID then Ok state
  else Err kInvalidArgument.

(** The name of the port that a packet is sent to. *)
Definition packet_out_port (p4_info : IrP4Info) (t : Translations) (packet : PiPacket) : result str :=
  _ ← PiPacketOutToIr SonicWrite.valid_utf8 p4_info packet;
  '(egress_port_id, submit_to_ingress) ← fold_result out_metadata (pi_metadata packet) ([], 0);
  if submit_to_ingress =? 1 then Ok SEND_TO_INGRESS_PORT_NAME
  else if translate_port_ids_ t
  then TranslatePort SonicWrite.valid_utf8 kForOrchAgent (port_translation_map t) egress_port_id
  else Ok egress_port_id.

Definition SendPacketOut_message (p4_info : IrP4Info) (t : Translations) (packet : PiPacket) : St PacketIo unit :=
  sonic_port_name ← lift (packet_out_port p4_info t packet);
  SendPacketOut sonic_port_name (pi_payload packet).

Definition HandlePacketOutRequest (ir_p4info_ : option IrP4Info) (t : Translations) (packet_out : PiPacket) : St PacketIo unit :=
  match ir_p4info_ with
  | None => lift (Err kFailedPrecondition)
  | Some p4_info => SendPacketOut_message p4_info t packet_out
  end.

Definition CreatePacketInMessage (source_port_id target_port_id payload : str) : PiPacket :=
  mkPiPacket payload [(PACKET_IN_INGRESS_PORT_ID, source_port_id); (PACKET_IN_TARGET_EGRESS_PORT_ID, target_port_id)].

(** The name of a port as the controller knows it. *)
Definition controller_port (t : Translations) (name : str) : result str :=
  if translate_port_ids_ t then TranslatePort SonicWrite.valid_utf8 kForController (port_translation_map t) name else Ok name.

(** The message that a packet is sent in. *)
Definition packet_in_message (t : Translations) (source target payload : str) : result PiPacket :=
  source_port_id ← controller_port t source;
  target_port_id ← (if bool_decide (target = []) then Ok source_port_id else controller_port t target);
  Ok (CreatePacketInMessage source_port_id target_port_id payload).

Record PacketInCounters := mkCounters { packet_in_received : Z; packet_in_errors : Z }.
Definition count_packet_in (ok : bool) (c : PacketInCounters) : PacketInCounters :=
  if ok then mkCounters (packet_in_received c + 1) (packet_in_errors c) else mkCounters (packet_in_received c) (packet_in_errors c + 1).

(** The callback of [P4RuntimeImpl::StartReceive]; [serialize] is the message in protobuf. *)
Definition SendPacketInToController (serialize : PiPacket → str) (t : Translations) (source target payload : str)
  (c : PacketInCounters) (w : SdnController.World) : option (result () * PacketInCounters * SdnController.World) :=
  match packet_in_message t source target payload with
  | Ok message =>
    match SdnController.SendPacketInToPrimary (SdnController.PacketIn (serialize message)) w with
    | Some (status, w) => Some (status, count_packet_in (is_Ok status) c, w)
    | None => None
    end
  | Err e => Some (Err e, count_packet_in false c, w)
  | Die => Some (Die, c, w)
  end.
End packet_io.

(** * packetio_selectables.cc *)

(** What [read] on the receive socket does: a successful call leaves errno as it was. *)
Inductive ReadOutcome := ReadBytes (bytes : str) | ReadError (errno : Z).
Definition EINTR : Z := 4.
Definition kPacketIoPortMaxBufferSize : nat := 1024.

(** The loop [do ... while (errno == EINTR)] over the outcomes to come: the message ([None] for an error), errno and the
    outcomes left; no result while it waits for another one. *)
Fixpoint read_loop (outcomes : list ReadOutcome) (errno : Z) : option (option str * Z * list ReadOutcome) :=
  match outcomes with
  | [] => None
  | outcome :: outcomes =>
    let '(message, errno) :=
      match outcome with
      | ReadBytes bytes => (Some (take kPacketIoPortMaxBufferSize bytes), errno)
      | ReadError e => (None, e)
      end in
    if errno =? EINTR then read_loop outcomes errno else Some (message, errno, outcomes)
  end.

(** The packet that [PacketInSelectable::readData] hands to the callback, with an empty target port. *)
Definition readData (outcomes : list ReadOutcome) (errno : Z) : option (option str * Z * list ReadOutcome) :=
  match read_loop outcomes errno with
  | Some (Some [], errno, outcomes) => Some (None, errno, outcomes)
  | r => r
  end.
