(* ===== verification/PacketIoCorrect.v ===== *)
(** Packet I/O: no descriptor is leaked or closed twice, a packet of the controller is written whole to the socket of
    its port, and a packet of the switch reaches the primary connections under the names of the controller. *)
From S2P Require Import Prelude Bitset ByteString Abseil NetAddr NetAddrText IrUtils EntityKeys IrData IrTranslation IrMessages PortTranslation SonicWrite Pipeline PacketIo PipelineCorrect.
From S2P Require SdnController.

(** * What is relied on of the kernel *)

(** The descriptors that are open, those that were passed to [close] one after the other, the bytes that each successful
    write took, and how often writes to come may be interrupted or take nothing. *)
Class SystemCallLaws (W : Type) `{SystemCalls W} := {
  open_fds : W → gset Z;
  closes : W → list Z;
  frames : W → list (Z * str);
  patience : W → nat;
  socket_law w r w' : sys_socket w = (r, w') → frames w' = frames w ∧ closes w' = closes w ∧
    ((r = -1 ∧ open_fds w' = open_fds w) ∨ (0 ≤ r ∧ (r ∉ open_fds w) ∧ open_fds w' = {[ r ]} ∪ open_fds w));
  filter_law fd w r w' : sys_set_filter fd w = (r, w') → open_fds w' = open_fds w ∧ frames w' = frames w ∧ closes w' = closes w;
  index_law name w r w' : sys_if_nametoindex name w = (r, w') → open_fds w' = open_fds w ∧ frames w' = frames w ∧ closes w' = closes w;
  bind_law fd i w r w' : sys_bind fd i w = (r, w') → open_fds w' = open_fds w ∧ frames w' = frames w ∧ closes w' = closes w;
  close_law fd w : open_fds (sys_close fd w) = open_fds w ∖ {[ fd ]} ∧ frames (sys_close fd w) = frames w ∧ closes (sys_close fd w) = closes w ++ [fd];
  ioctl_law fd name w r w' : sys_ioctl_flags fd name w = (r, w') →
    open_fds w' = open_fds w ∧ frames w' = frames w ∧ closes w' = closes w ∧ (patience w' ≤ patience w)%nat;
  getsockopt_law fd w r w' : sys_getsockopt fd w = (r, w') →
    open_fds w' = open_fds w ∧ frames w' = frames w ∧ closes w' = closes w ∧ (patience w' ≤ patience w)%nat;
  write_law fd bytes w res interrupted w' : sys_write fd bytes w = ((res, interrupted), w') →
    open_fds w' = open_fds w ∧ closes w' = closes w ∧
    (res < 0 → frames w' = frames w ∧ (interrupted = true → (patience w' < patience w)%nat)) ∧
    (0 ≤ res → res ≤ zlen bytes ∧ frames w' = frames w ++ [(fd, take (Z.to_nat res) bytes)] ∧
       (patience w' ≤ patience w)%nat ∧ (res = 0 → bytes ≠ [] → (patience w' < patience w)%nat));
}.

Section packet_io.
Context {W : Type} `{SystemCallLaws W}.
Context (rounds : nat).
Implicit Types (w : W) (s : PacketIo (W:=W)).

(** * Writing *)

Lemma sys_eq {A} (call : W → A * W) w : sys call w = (Ok (fst (call w)), snd (call w)).
Proof. unfold sys. by destruct (call w). Qed.

Lemma take_drop_chunks (l : str) n chunks : concat chunks = drop n l → concat (take n l :: chunks) = l.
Proof. intros Hc. cbn. by rewrite Hc, take_drop. Qed.

Lemma write_loop_spec fuel fd ptr w r w' : (patience w + List.length ptr < fuel)%nat →
  write_loop fuel fd (zlen ptr) ptr w = (r, w') →
  open_fds w' = open_fds w ∧ closes w' = closes w ∧ ∃ chunks, frames w' = frames w ++ map (pair fd) chunks ∧
    (r = Ok tt ∧ concat chunks = ptr ∨ r = Err kInternal ∧ (concat chunks `prefix_of` ptr)).
Proof.
  revert ptr w. induction fuel as [|fuel IH]; intros ptr w Hfuel; [lia|]. cbn [write_loop]. unfold mbind at 1, St_bind at 1.
  rewrite sys_eq. assert (take (Z.to_nat (zlen ptr)) ptr = ptr) as -> by (unfold zlen; by rewrite Nat2Z.id, firstn_all).
  destruct (sys_write fd ptr w) as [[res interrupted] w1] eqn:Hw. cbn [fst snd].
  destruct (write_law _ _ _ _ _ _ Hw) as (Ho & Hcl & Hneg & Hpos). rewrite <-Ho, <-Hcl.
  destruct (Z.ltb_spec res 0) as [Hres|Hres].
  - destruct (Hneg Hres) as [Hf Hp]. destruct interrupted.
    + destruct (Z.ltb_spec 0 (zlen ptr)) as [Hl|Hl].
      * intros Hrest. apply IH in Hrest as (Ho' & Hcl' & chunks & Hc & Hr); [|specialize (Hp eq_refl); lia]. rewrite Ho', Hcl', Hc, Hf. by split_and!; [..|exists chunks].
      * intros [= <- <-]. split; [done|]. split; [done|]. exists []. rewrite Hf, app_nil_r. split; [done|]. left. split; [done|].
        destruct ptr as [|c ptr]; [done|]. unfold zlen in Hl. rewrite length_cons in Hl. lia.
    + intros [= <- <-]. split; [done|]. split; [done|]. exists []. rewrite Hf, app_nil_r. split; [done|]. right. split; [done|]. apply prefix_nil.
  - destruct (Hpos Hres) as (Hle & Hf & Hp & Hzero).
    assert (zlen ptr - res = zlen (drop (Z.to_nat res) ptr)) as Hlen by (unfold zlen in *; rewrite length_drop; lia). rewrite Hlen.
    destruct (Z.ltb_spec 0 (zlen (drop (Z.to_nat res) ptr))) as [Hl|Hl].
    + intros Hrest. apply IH in Hrest as (Ho' & Hcl' & chunks & Hc & Hr).
      * rewrite Ho', Hcl', Hc, Hf, <-app_assoc. split; [done|]. split; [done|]. exists (take (Z.to_nat res) ptr :: chunks). split; [done|].
        destruct Hr as [[-> Hr]|[-> Hr]]; [left|right]; (split; [done|]); [by apply take_drop_chunks|].
        cbn. rewrite <-(take_drop (Z.to_nat res) ptr) at 2. by apply prefix_app.
      * rewrite length_drop. unfold zlen in *. rewrite length_drop in Hl.
        destruct (Z.eq_dec res 0) as [->|]; [|lia]. specialize (Hzero eq_refl). cbn in *.
        assert (ptr ≠ []) as Hne by (intros ->; cbn in Hl; lia). specialize (Hzero Hne). lia.
    + intros [= <- <-]. split; [done|]. split; [done|]. exists [take (Z.to_nat res) ptr]. split; [done|]. left. split; [done|]. cbn.
      rewrite app_nil_r. apply take_ge. unfold zlen in *. rewrite length_drop in Hl. lia.
Qed.

Lemma send_socket_spec fd name packet w r w' : zlen packet < 2 ^ 31 → (patience w + List.length packet < rounds)%nat →
  SendPacketOut_socket rounds fd name packet w = (r, w') →
  open_fds w' = open_fds w ∧ closes w' = closes w ∧ ∃ chunks, frames w' = frames w ++ map (pair fd) chunks ∧
    (r = Ok tt ∧ concat chunks = packet ∨ r = Err kInternal ∧ (concat chunks `prefix_of` packet)).
Proof.
  intros Hlen Hrounds. unfold SendPacketOut_socket. rewrite wrapS_small by (unfold zlen in *; lia). cbn zeta.
  unfold mbind at 1, St_bind at 1. rewrite sys_eq.
  destruct (sys_ioctl_flags fd (ifr_name name) w) as [[result flags] w1] eqn:Hi. cbn [fst snd].
  destruct (ioctl_law _ _ _ _ _ Hi) as (Ho1 & Hf1 & Hcl1 & Hp1).
  assert (∀ A (m : St W A), (_ ← RET_CHECK (S:=W) false; m) w1 = (Err kInternal, w1)) as Hfail by done.
  assert (∀ A (m : St W A), (_ ← RET_CHECK (S:=W) true; m) w1 = m w1) as Hgo by done.
  assert (open_fds w1 = open_fds w ∧ closes w1 = closes w ∧ ∃ chunks, frames w1 = frames w ++ map (pair fd) chunks ∧
    (@Err unit kInternal = Ok tt ∧ concat chunks = packet ∨ @Err unit kInternal = Err kInternal ∧ (concat chunks `prefix_of` packet))) as Hstop.
  { split; [done|]. split; [done|]. exists []. rewrite Hf1, app_nil_r. split; [done|]. right. split; [done|]. apply prefix_nil. }
  destruct (result =? -1); cbn [negb]; [rewrite Hfail; by intros [= <- <-]|]. rewrite Hgo.
  destruct (_ && _); [rewrite Hgo|rewrite Hfail; by intros [= <- <-]].
  unfold mbind, St_bind. rewrite sys_eq. destruct (sys_getsockopt fd w1) as [perr w2] eqn:Hg. cbn [fst snd].
  destruct (getsockopt_law _ _ _ _ Hg) as (Ho2 & Hf2 & Hcl2 & Hp2). rewrite <-Ho1, <-Ho2, <-Hf1, <-Hf2, <-Hcl1, <-Hcl2.
  destruct (perr <? 0).
  - intros [= <- <-]. split; [done|]. split; [done|]. exists []. rewrite app_nil_r. split; [done|]. right. split; [done|]. apply prefix_nil.
  - destruct (Z.ltb_spec (zlen packet) 0); [unfold zlen in *; lia|]. apply write_loop_spec. lia.
Qed.

(** * Sockets *)

Lemma on_kernel_sys {A} (call : W → A * W) w p : on_kernel (sys call) (w, p) = (Ok (fst (call w)), (snd (call w), p)).
Proof. unfold on_kernel, zoom. cbn [fst snd]. by rewrite sys_eq. Qed.

(** A step of the binding: the descriptors and the frames stay as they are. *)
Lemma bind_step {A} (call : W → A * W) (f : A → St (W * Z) unit) w p :
  (on_kernel (sys call) ≫= f) (w, p) = f (fst (call w)) (snd (call w), p).
Proof. unfold mbind, St_bind. by rewrite on_kernel_sys. Qed.
Lemma check_step (b : bool) (m : St (W * Z) unit) (x : W * Z) :
  (_ ← RET_CHECK b; m) x = if b then m x else (Err kInternal, x).
Proof. by destruct b. Qed.

Lemma bind_sockets_spec name w r w' p : CreateAndBindSockets name (w, -1) = (r, (w', p)) →
  frames w' = frames w ∧ closes w' = closes w ∧
  ((p = -1 ∧ r = Err kInternal ∧ open_fds w' = open_fds w) ∨
   (0 ≤ p ∧ (p ∉ open_fds w) ∧ open_fds w' = {[ p ]} ∪ open_fds w ∧ (r = Ok tt ∨ r = Err kInternal))).
Proof.
  unfold CreateAndBindSockets. rewrite bind_step. destruct (sys_socket w) as [fd w1] eqn:Hs. cbn [fst snd].
  unfold mbind at 1, St_bind at 1. cbn [update_state fst]. unfold mbind at 1, St_bind at 1. cbn [get snd]. rewrite check_step.
  destruct (socket_law _ _ _ Hs) as (Hf1 & Hcl1 & Ho1).
  assert (∀ w2 q, open_fds w2 = open_fds w1 → frames w2 = frames w1 → closes w2 = closes w1 → fd ≠ -1 → (q = Ok tt ∨ q = Err kInternal) →
    frames w2 = frames w ∧ closes w2 = closes w ∧
    ((fd = -1 ∧ q = Err kInternal ∧ open_fds w2 = open_fds w) ∨
     (0 ≤ fd ∧ (fd ∉ open_fds w) ∧ open_fds w2 = {[ fd ]} ∪ open_fds w ∧ (q = Ok tt ∨ q = Err kInternal)))) as Hend.
  { intros w2 q Ho2 Hf2 Hcl2 Hne Hq. rewrite Hf2, Hcl2, Ho2. split; [done|]. split; [done|]. right. by destruct Ho1 as [[? _]|(? & ? & ?)]. }
  destruct (Z.eqb_spec fd (-1)) as [->|Hfd]; cbn [negb].
  { intros [= <- <- <-]. split; [done|]. split; [done|]. left. split; [done|]. split; [done|]. by destruct Ho1 as [[_ ?]|[? _]]. }
  rewrite bind_step. destruct (sys_set_filter fd w1) as [c w2] eqn:Hc. cbn [fst snd]. rewrite check_step.
  destruct (filter_law _ _ _ _ Hc) as (Ho2 & Hf2 & Hcl2).
  destruct (0 <=? c); [|intros [= <- <- <-]; apply Hend; first [congruence|by right]].
  rewrite bind_step. destruct (sys_if_nametoindex (c_string name) w2) as [i w3] eqn:Hi. cbn [fst snd]. rewrite check_step.
  destruct (index_law _ _ _ _ Hi) as (Ho3 & Hf3 & Hcl3).
  destruct (negb (i =? 0)); [|intros [= <- <- <-]; apply Hend; first [congruence|by right]].
  rewrite bind_step. destruct (sys_bind fd i w3) as [b w4] eqn:Hb. cbn [fst snd]. destruct (bind_law _ _ _ _ _ Hb) as (Ho4 & Hf4 & Hcl4).
  destruct (0 <=? b); intros [= <- <- <-]; apply Hend; first [congruence|by left|by right].
Qed.

(** Either a socket that was not open is now, or none is: then one that was made has been closed, once. *)
Lemma create_socket_spec name w r w' : CreatePacketIoSocket name w = (r, w') →
  frames w' = frames w ∧
  ((r = Err kInternal ∧ open_fds w' = open_fds w ∧
    (closes w' = closes w ∨ ∃ fd, (fd ∉ open_fds w) ∧ closes w' = closes w ++ [fd])) ∨
   (∃ fd, r = Ok fd ∧ 0 ≤ fd ∧ (fd ∉ open_fds w) ∧ open_fds w' = {[ fd ]} ∪ open_fds w ∧ closes w' = closes w)).
Proof.
  unfold CreatePacketIoSocket. destruct (CreateAndBindSockets name (w, -1)) as [q [w1 p]] eqn:Hc.
  apply bind_sockets_spec in Hc as (Hf & Hcl & [(-> & -> & Ho)|(Hp & Hnew & Ho & Hq)]).
  - intros [= <- <-]. split; [done|]. left. split_and!; [done..|by left].
  - destruct Hq as [->| ->].
    + intros [= <- <-]. split; [done|]. right. by exists p.
    + destruct (Z.leb_spec 0 p); [|lia]. intros [= <- <-]. destruct (close_law p w1) as (Hco & Hcf & Hcc). rewrite Hcf, Hcc, Hcl.
      split; [done|]. left. split; [done|]. split; [rewrite Hco, Ho; set_solver|]. right. by exists p.
Qed.

(** * The ports *)

(** [others] are descriptors of other parts of the program.  Every other open one is the socket of exactly one
    port; without the netlink receiver it has a selectable, which the receive thread waits on. *)
Record sockets_ok (others : gset Z) s : Prop := mkSocketsOk {
  fds_owned fd : fd ∈ open_fds (kernel s) ↔ fd ∈ others ∨ ∃ p, port_to_socket_ s !! p = Some fd;
  fds_apart p fd : port_to_socket_ s !! p = Some fd → 0 ≤ fd ∧ (fd ∉ others);
  fds_distinct p q fd : port_to_socket_ s !! p = Some fd → port_to_socket_ s !! q = Some fd → p = q;
  selectables_ok : port_to_selectables_ s = if use_genetlink_ s then ∅ else port_to_socket_ s;
  select_ok fd : fd ∈ port_select_ s ↔ use_genetlink_ s = false ∧ ∃ p, port_to_socket_ s !! p = Some fd;
}.

Inductive PacketOp := AddPort (p : str) | RemovePort (p : str) | SendOut (p packet : str).
Definition run (op : PacketOp) : St (PacketIo (W:=W)) unit :=
  match op with
  | AddPort p => AddPacketIoPort p
  | RemovePort p => RemovePacketIoPort p
  | SendOut p packet => SendPacketOut rounds p packet
  end.
(** What is not the sockets, the selectables or the kernel. *)
Definition same_mode s s' : Prop := callback_function_ s' = callback_function_ s ∧ use_genetlink_ s' = use_genetlink_ s.

Lemma add_port_spec others p s r s' : sockets_ok others s → AddPacketIoPort p s = (r, s') →
  sockets_ok others s' ∧ same_mode s s' ∧ frames (kernel s') = frames (kernel s) ∧
  ((r = Ok tt ∧ closes (kernel s') = closes (kernel s) ∧
    (if bool_decide (is_Some (port_to_socket_ s !! p)) then s' = s
     else ∃ fd, (fd ∉ open_fds (kernel s)) ∧ port_to_socket_ s' = <[p := fd]> (port_to_socket_ s))) ∨
   (r = Err kInternal ∧ port_to_socket_ s !! p = None ∧ port_to_socket_ s' = port_to_socket_ s ∧
    open_fds (kernel s') = open_fds (kernel s) ∧
    (closes (kernel s') = closes (kernel s) ∨
     ∃ fd, (fd ∉ open_fds (kernel s)) ∧ closes (kernel s') = closes (kernel s) ++ [fd]))).
Proof.
  intros Hok. unfold AddPacketIoPort. unfold mbind at 1, St_bind at 1. cbn [get].
  case_bool_decide as Hp. { intros [= <- <-]. split_and!; try done. by left. }
  assert (port_to_socket_ s !! p = None) as Hnone by by apply eq_None_not_Some.
  unfold mbind at 1, St_bind at 1. unfold zoom at 1, AddPacketIoPort_socket.
  destruct (CreatePacketIoSocket p (kernel s)) as [q w'] eqn:Hc. apply create_socket_spec in Hc as [Hf Hq].
  destruct Hok as [Howned Hapart Hdistinct Hsel Hselect].
  destruct Hq as [(-> & Ho & Hcl)|(fd & -> & Hfd & Hnew & Ho & Hcl)].
  { intros [= <- <-]. split_and!; try done; [|by right]. split; cbn; try done. intros fd. by rewrite Ho. }
  unfold mbind at 1, St_bind at 1. cbn [update_state]. unfold mbind at 1, St_bind at 1. cbn [get set_sockets set_kernel use_genetlink_].
  assert ((fd ∉ others) ∧ ∀ q, port_to_socket_ s !! q ≠ Some fd) as [Hno Hnp].
  { split; [intros Hin|intros q Hin]; apply Hnew, Howned; eauto. }
  assert (∀ sel select, (sel = if use_genetlink_ s then ∅ else <[p := fd]> (port_to_socket_ s)) →
    (∀ x, x ∈ select ↔ use_genetlink_ s = false ∧ ∃ q, <[p := fd]> (port_to_socket_ s) !! q = Some x) →
    sockets_ok others (mkPacketIo w' (<[p := fd]> (port_to_socket_ s)) sel select (callback_function_ s) (use_genetlink_ s))) as Hok'.
  { intros sel select Hs Hx. split; cbn; [| | |done|done].
    - intros x. rewrite Ho, elem_of_union, elem_of_singleton, Howned. setoid_rewrite lookup_insert_Some. split.
      + intros [->|[Hx'|[q Hq]]]; [right; exists p; by left|by left|]. right. exists q. right. split; [congruence|done].
      + intros [Hx'|(q & [[<- <-]|[_ Hq]])]; eauto.
    - intros q x. rewrite lookup_insert_Some. intros [[<- <-]|[_ Hq]]; [done|by eapply Hapart].
    - intros q q' x. rewrite !lookup_insert_Some. intros [[<- <-]|[_ Hq]] [[<- Hx']|[_ Hq']]; [done| | |by eapply Hdistinct];
        subst; exfalso; by eapply Hnp. }
  destruct (use_genetlink_ s) eqn:Hg.
  - intros [= <- <-]. unfold set_sockets, set_kernel. cbn. rewrite Hg.
    split; [|split_and!; try done; left; split_and!; [done|done|by exists fd]]. apply Hok'; [done|]. intros x. rewrite Hselect. naive_solver.
  - unfold mbind at 1, St_bind at 1. cbn [get set_sockets set_kernel port_to_selectables_]. unfold mbind at 1, St_bind at 1. cbn [update_state].
    rewrite Hsel, bool_decide_eq_false_2 by done. intros [= <- <-]. unfold set_selectables, set_sockets, set_kernel. cbn. rewrite Hg.
    split; [|split_and!; try done; left; split_and!; [done|done|by exists fd]]. apply Hok'; [by rewrite Hsel|].
    intros x. rewrite elem_of_union, elem_of_singleton, Hselect. setoid_rewrite lookup_insert_Some. split.
    + intros [->|[_ [q Hq]]]; (split; [done|]); [exists p; by left|]. exists q. right. split; [congruence|done].
    + intros [_ (q & [[<- <-]|[_ Hq]])]; eauto.
Qed.

(** [RemovePacketIoPort] on a port that is there. *)
Definition without (p : str) (fd : Z) s : PacketIo (W:=W) :=
  mkPacketIo (sys_close fd (kernel s)) (delete p (port_to_socket_ s)) (if use_genetlink_ s then port_to_selectables_ s else delete p (port_to_selectables_ s))
    (if use_genetlink_ s then port_select_ s else port_select_ s ∖ {[ fd ]}) (callback_function_ s) (use_genetlink_ s).

Lemma remove_port_eq others p s : sockets_ok others s →
  RemovePacketIoPort p s =
    match port_to_socket_ s !! p with
    | Some fd => (Ok tt, without p fd s)
    | None => (Err (if use_genetlink_ s then kNotFound else kInvalidArgument), s)
    end.
Proof.
  intros [_ Hapart _ Hsel _]. unfold RemovePacketIoPort, close_port, without. unfold mbind, St_bind. cbn [get].
  destruct (use_genetlink_ s) eqn:Hg.
  - destruct (port_to_socket_ s !! p) as [fd|] eqn:Hfd; [|done]. destruct (Hapart p fd Hfd) as [Hnn _].
    rewrite (proj2 (Z.leb_le 0 fd)) by done. unfold update_state, set_sockets, set_kernel. cbn. by rewrite Hg.
  - rewrite Hsel. destruct (port_to_socket_ s !! p) as [fd|] eqn:Hfd; [|done]. destruct (Hapart p fd Hfd) as [Hnn _].
    unfold update_state, set_selectables, set_sockets, set_kernel. cbn. rewrite Hfd, (proj2 (Z.leb_le 0 fd)) by done. cbn. by rewrite Hg, Hsel.
Qed.

Lemma remove_port_ok others p fd s : sockets_ok others s → port_to_socket_ s !! p = Some fd →
  sockets_ok others (without p fd s) ∧ same_mode s (without p fd s) ∧ frames (kernel (without p fd s)) = frames (kernel s).
Proof.
  intros [Howned Hapart Hdistinct Hsel Hselect] Hfd. destruct (close_law fd (kernel s)) as (Hco & Hcf & _). split; [|by cbn].
  assert (∀ q x, delete p (port_to_socket_ s) !! q = Some x ↔ x ≠ fd ∧ port_to_socket_ s !! q = Some x) as Hdel.
  { intros q x. rewrite lookup_delete_Some. split; intros [Hne Hq]; (split; [|done]); intros ->; apply Hne; [by eapply Hdistinct|congruence]. }
  split; cbn.
  - intros x. rewrite Hco, elem_of_difference, elem_of_singleton, Howned. setoid_rewrite Hdel. split.
    + intros [[Hx|[q Hq]] Hne]; [by left|right; by exists q].
    + intros [Hx|(q & Hne & Hq)]; [|by split; [right; exists q|]]. split; [by left|]. intros ->. by destruct (Hapart p fd Hfd).
  - intros q x [_ Hq]%Hdel. by eapply Hapart.
  - intros q q' x [_ Hq]%Hdel [_ Hq']%Hdel. by eapply Hdistinct.
  - rewrite Hsel. by destruct (use_genetlink_ s).
  - intros x. setoid_rewrite Hdel. destruct (use_genetlink_ s) eqn:Hg; [rewrite Hselect; naive_solver|].
    rewrite elem_of_difference, elem_of_singleton, Hselect. naive_solver.
Qed.

Lemma send_port_spec p packet s r s' : zlen packet < 2 ^ 31 → (patience (kernel s) + List.length packet < rounds)%nat →
  SendPacketOut rounds p packet s = (r, s') →
  match port_to_socket_ s !! p with
  | None => r = Err kNotFound ∧ s' = s
  | Some fd =>
    (∃ w, s' = set_kernel w s) ∧ open_fds (kernel s') = open_fds (kernel s) ∧ closes (kernel s') = closes (kernel s) ∧
    ∃ chunks, frames (kernel s') = frames (kernel s) ++ map (pair fd) chunks ∧
      (r = Ok tt ∧ concat chunks = packet ∨ r = Err kInternal ∧ (concat chunks `prefix_of` packet))
  end.
Proof.
  intros Hlen Hrounds. unfold SendPacketOut. unfold mbind, St_bind. cbn [get].
  destruct (port_to_socket_ s !! p) as [fd|]; [|by intros [= <- <-]]. unfold zoom.
  destruct (SendPacketOut_socket rounds fd p packet (kernel s)) as [q w'] eqn:Hw. intros [= <- <-].
  apply send_socket_spec in Hw as (Ho & Hcl & Hf); [|done..]. split; [by exists w'|]. by cbn.
Qed.

(** C37. Sockets of the ports.  Whatever ports are added and removed and whatever packets are sent, the descriptors that are open
    are, besides those of others, exactly the sockets of the ports, a different one for each: none leaks, not even when a
    socket cannot be bound.  The only descriptors that are ever closed are one that was just made and could not be bound and the
    socket of a port that is removed, each while it is open and once; without the netlink receiver the receive thread waits on exactly these.
    A port is added once; a failure to add leaves the ports as they were; removing ends with the port gone, or fails
    because there was none; a packet is written to the socket of its port, whole when the answer is OK and otherwise a
    beginning of it, whatever the writes take at a time and however often they are interrupted. *)
Theorem packet_sockets_owned (others : gset Z) (op : PacketOp) (s s' : PacketIo (W:=W)) (r : result unit) :
  sockets_ok others s →
  match op with SendOut _ packet => zlen packet < 2 ^ 31 ∧ (patience (kernel s) + List.length packet < rounds)%nat | _ => True end →
  run op s = (r, s') →
  sockets_ok others s' ∧ same_mode s s' ∧
  match op with
  | AddPort p =>
    frames (kernel s') = frames (kernel s) ∧
    ((r = Ok tt ∧ closes (kernel s') = closes (kernel s) ∧
      (if bool_decide (is_Some (port_to_socket_ s !! p)) then s' = s
       else ∃ fd, (fd ∉ open_fds (kernel s)) ∧ port_to_socket_ s' = <[p := fd]> (port_to_socket_ s))) ∨
     (r = Err kInternal ∧ port_to_socket_ s !! p = None ∧ port_to_socket_ s' = port_to_socket_ s ∧
      open_fds (kernel s') = open_fds (kernel s) ∧
      (closes (kernel s') = closes (kernel s) ∨
       ∃ fd, (fd ∉ open_fds (kernel s)) ∧ closes (kernel s') = closes (kernel s) ++ [fd])))
  | RemovePort p =>
    frames (kernel s') = frames (kernel s) ∧
    match port_to_socket_ s !! p with
    | Some fd => r = Ok tt ∧ port_to_socket_ s' = delete p (port_to_socket_ s) ∧ fd ∈ open_fds (kernel s) ∧
        open_fds (kernel s') = open_fds (kernel s) ∖ {[ fd ]} ∧ closes (kernel s') = closes (kernel s) ++ [fd]
    | None => is_Ok r = false ∧ s' = s
    end
  | SendOut p packet =>
    port_to_socket_ s' = port_to_socket_ s ∧ closes (kernel s') = closes (kernel s) ∧
    match port_to_socket_ s !! p with
    | None => r = Err kNotFound ∧ s' = s
    | Some fd => ∃ chunks, frames (kernel s') = frames (kernel s) ++ map (pair fd) chunks ∧
        (r = Ok tt ∧ concat chunks = packet ∨ r = Err kInternal ∧ (concat chunks `prefix_of` packet))
    end
  end.
Proof.
  intros Hok Hop. destruct op as [p|p|p packet]; cbn [run].
  - intros Ha. by apply (add_port_spec others) in Ha.
  - rewrite (remove_port_eq others) by done. destruct (port_to_socket_ s !! p) as [fd|] eqn:Hfd; intros [= <- <-]; [|by split_and!].
    destruct (remove_port_ok others p fd s Hok Hfd) as (Hok' & Hmode & Hframes). destruct (close_law fd (kernel s)) as (Hco & _ & Hcl).
    split_and!; try done. apply (fds_owned _ _ Hok). right. by exists p.
  - destruct Hop as [Hlen Hrounds]. intros Hs. apply send_port_spec in Hs; [|done..].
    destruct (port_to_socket_ s !! p) as [fd|] eqn:Hfd; [|by destruct Hs as [-> ->]].
    destruct Hs as ((w & ->) & Ho & Hcl & Hf). split; [|done]. destruct Hok as [Howned ????]. split; try done.
    cbn in *. intros x. by rewrite Ho.
Qed.

(** * The handlers *)

Context {C : Type} `{SwitchLibraries C} `{AbslStrings} `{!Ipv6.Inet} `{Gutil}.

(** Starting to receive in the mode that the ports were added in keeps the invariant; so does starting before there are
    ports. *)
Lemma start_receive_ok others given use_genetlink outcome s r s' : sockets_ok others s →
  (use_genetlink = use_genetlink_ s ∨ port_to_socket_ s = ∅) →
  StartReceive given use_genetlink outcome s = (r, s') → sockets_ok others s' ∧ kernel s' = kernel s ∧
    (given = false → r = Err kInvalidArgument ∧ s' = s) ∧ (given = true → callback_function_ s' = true ∧ use_genetlink_ s' = use_genetlink).
Proof.
  intros [Howned Hapart Hdistinct Hsel Hselect] Hmode. unfold StartReceive. destruct given; cbn [negb]; [|by intros [= <- <-]].
  unfold mbind, St_bind. cbn [update_state].
  set (t := mkPacketIo _ _ _ _ _ _). assert (sockets_ok others t) as Hok.
  { split; cbn; try done.
    - rewrite Hsel. destruct Hmode as [->|Hempty]; [done|]. rewrite Hempty. by destruct (use_genetlink_ s), use_genetlink.
    - intros fd. rewrite Hselect. destruct Hmode as [->|Hempty]; [done|]. rewrite Hempty.
      split; intros (_ & p & Hp); by rewrite lookup_empty in Hp. }
  destruct use_genetlink; intros Hr; injection Hr as _ <-; by split_and!.
Qed.

(** A packet out that is invalid, whose port has no name or no socket, is answered with the error and not sent;
    any other is written to the socket of its port. *)
Lemma packet_out_spec info t packet s r s' :
  zlen (pi_payload packet) < 2 ^ 31 → (patience (kernel s) + List.length (pi_payload packet) < rounds)%nat →
  HandlePacketOutRequest rounds info t packet s = (r, s') →
  match info with
  | None => r = Err kFailedPrecondition ∧ s' = s
  | Some info =>
    match packet_out_port info t packet with
    | Ok port =>
      match port_to_socket_ s !! port with
      | None => r = Err kNotFound ∧ s' = s
      | Some fd => ∃ chunks, frames (kernel s') = frames (kernel s) ++ map (pair fd) chunks ∧
          (r = Ok tt ∧ concat chunks = pi_payload packet ∨ r = Err kInternal ∧ (concat chunks `prefix_of` pi_payload packet))
      end
    | Err e => r = Err e ∧ s' = s
    | Die => r = Die ∧ s' = s
    end
  end.
Proof.
  intros Hlen Hrounds. destruct info as [info|]; cbn [HandlePacketOutRequest]; [|by intros [= <- <-]].
  unfold SendPacketOut_message. unfold mbind, St_bind. cbn [lift].
  destruct (packet_out_port info t packet) as [port|e|]; [|by intros [= <- <-]..].
  intros Hs. apply send_port_spec in Hs; [|done..]. destruct (port_to_socket_ s !! port); [|done]. by destruct Hs as (_ & _ & _ & Hs).
Qed.

(** The metadata of a valid packet out: the last port and whether it is injected. *)
Lemma packet_out_port_valid info t packet port : packet_out_port info t packet = Ok port →
  is_Ok (PiPacketOutToIr SonicWrite.valid_utf8 info packet) = true ∧
  Forall (λ m, fst m = PACKET_OUT_EGRESS_PORT_ID ∨ fst m = PACKET_OUT_SUBMIT_TO_INGRESS_ID ∨ fst m = PACKET_OUT_UNUSED_PAD_ID) (pi_metadata packet).
Proof.
  intros (ir & Hir & ([egress inject] & Hf & _)%bind_Ok_iff)%bind_Ok_iff. rewrite Hir. split; [done|].
  revert Hf. generalize (@nil Ascii.ascii, 0). induction (pi_metadata packet) as [|[id v] l IH]; intros st Hf; constructor.
  - cbn in Hf. apply bind_Ok_iff in Hf as (st' & Ho & _). unfold out_metadata in Ho. destruct st. cbn [fst].
    destruct (Z.eqb_spec id PACKET_OUT_EGRESS_PORT_ID); [by left|]. destruct (Z.eqb_spec id PACKET_OUT_SUBMIT_TO_INGRESS_ID); [by right; left|].
    destruct (Z.eqb_spec id PACKET_OUT_UNUSED_PAD_ID); [by right; right|done].
  - cbn in Hf. apply bind_Ok_iff in Hf as (st' & _ & Hf). by eapply IH.
Qed.

(** A packet in whose ports have names of the controller is sent, with both, to every primary connection that receives
    packets; exactly one counter goes up. *)
Lemma packet_in_spec serialize t source target payload c (w : SdnController.World) : SdnController.valid w →
  ∃ r c' (w' : SdnController.World), SendPacketInToController serialize t source target payload c w = Some (r, c', w') ∧
  match packet_in_message t source target payload with
  | Ok message =>
    r = (if existsb (SdnController.receives_packet_in w) (SdnController.connections_ w) then Ok tt else Err kFailedPrecondition) ∧
    SdnController.quiet w w' (map (λ c, (c, SdnController.PacketIn (serialize message)))
      (List.filter (SdnController.receives_packet_in w) (SdnController.connections_ w))) ∧
    packet_in_received c' + packet_in_errors c' = packet_in_received c + packet_in_errors c + 1
  | Err e => r = Err e ∧ w' = w ∧ packet_in_errors c' = packet_in_errors c + 1 ∧ packet_in_received c' = packet_in_received c
  | Die => False
  end.
Proof.
  intros Hv. unfold SendPacketInToController. destruct (packet_in_message t source target payload) as [message|e|] eqn:Hm.
  - destruct (SdnController.SendPacketInToPrimary_spec (serialize message) w Hv) as (w' & -> & Hq). do 3 eexists. split; [done|].
    split; [done|]. split; [done|]. destruct (is_Ok _); cbn; lia.
  - do 3 eexists. split; [done|]. by cbn.
  - exfalso. revert Hm. unfold packet_in_message, controller_port, TranslatePort.
    repeat (case_match; cbn [mbind result_bind negb] in *; simplify_eq; try done).
Qed.
End packet_io.

(** * The filter and the receiving side *)

Definition ethertype (frame : str) : Z := be_value (take 2 (drop 12 frame)).
Definition destination_tail (frame : str) : Z := be_value (take 4 (drop 2 frame)).
Definition destination_head (frame : str) : Z := be_value (take 2 frame).

Lemma run_half f o rest acc frame : run_filter (S f) (mkFilter 0x28 0 0 o :: rest) acc frame =
  match load (Z.to_nat o) 2 frame with Some v => run_filter f rest v frame | None => 0 end.
Proof. done. Qed.
Lemma run_word f o rest acc frame : run_filter (S f) (mkFilter 0x20 0 0 o :: rest) acc frame =
  match load (Z.to_nat o) 4 frame with Some v => run_filter f rest v frame | None => 0 end.
Proof. done. Qed.
Lemma run_jump f t e v rest acc frame : run_filter (S f) (mkFilter 0x15 t e v :: rest) acc frame =
  run_filter f (drop (if acc =? v then t else e) rest) acc frame.
Proof. done. Qed.

(** The frames that are kept: those with an Ethernet header that are neither of ethertype 0x8809 nor sent to
    33:33:00:00:00:16. *)
Lemma kept_bytes_spec frame :
  kept_bytes frame =
    if bool_decide (14 ≤ List.length frame)%nat && negb (ethertype frame =? 0x8809) &&
       negb ((destination_tail frame =? 0x16) && (destination_head frame =? 0x3333))
    then 0x40000 else 0.
Proof.
  assert (∀ offset size, (offset + size <= 14)%nat → (14 ≤ List.length frame)%nat →
    load offset size frame = Some (be_value (take size (drop offset frame)))) as Hload.
  { intros offset size ? ?. unfold load. destruct (Nat.leb_spec (offset + size) (List.length frame)); [done|lia]. }
  unfold kept_bytes, ethertype, destination_tail, destination_head. case_bool_decide as Hlen; cbn [andb].
  - pose proof (Hload 12%nat 2%nat ltac:(lia) Hlen) as H1. pose proof (Hload 2%nat 4%nat ltac:(lia) Hlen) as H2.
    pose proof (Hload 0%nat 2%nat ltac:(lia) Hlen) as H3. change (drop 0 frame) with frame in H3. revert H1 H2 H3.
    generalize (be_value (take 2 (drop 12 frame))), (be_value (take 4 (drop 2 frame))), (be_value (take 2 frame)). intros a b c H1 H2 H3.
    unfold socket_filters. cbn [List.length]. rewrite run_half. change (Z.to_nat 12) with 12%nat. rewrite H1, run_jump.
    destruct (a =? 34825); [done|]. cbn [drop negb andb]. rewrite run_word. change (Z.to_nat 2) with 2%nat. rewrite H2, run_jump.
    destruct (b =? 22); [|done]. cbn [drop andb]. rewrite run_half. change (Z.to_nat 0) with 0%nat. rewrite H3, run_jump.
    by destruct (c =? 13107).
  - cbn -[load]. unfold load at 1. destruct (Nat.leb_spec (Z.to_nat 12 + 2) (List.length frame)) as [Hl|]; [|done].
    change (Z.to_nat 12) with 12%nat in Hl. lia.
Qed.

(** A frame of LLDP passes the filter. *)
Definition lldp_frame : str := map char_of [0x01; 0x80; 0xc2; 0; 0; 0x0e; 2; 0; 0; 0; 0; 1; 0x88; 0xcc].
Example lldp_frame_kept : kept_bytes lldp_frame = 0x40000.
Proof. vm_compute. reflexivity. Qed.

(** With errno not EINTR from before, a read that succeeds gives its packet, up to the size of the buffer. *)
Lemma read_packet bytes outcomes errno : errno ≠ EINTR → bytes ≠ [] →
  readData (ReadBytes bytes :: outcomes) errno = Some (Some (take kPacketIoPortMaxBufferSize bytes), errno, outcomes).
Proof.
  intros He Hb. unfold readData. cbn [read_loop]. rewrite (proj2 (Z.eqb_neq errno EINTR) He).
  destruct bytes as [|c bytes]; [done|]. by unfold kPacketIoPortMaxBufferSize.
Qed.
(** After an interruption errno stays EINTR: packets that are read are dropped, until a read fails. *)
Lemma read_after_interruption packets outcomes :
  readData (ReadError EINTR :: map ReadBytes packets ++ outcomes) 0 = readData outcomes EINTR.
Proof.
  unfold readData. cbn [read_loop]. change (EINTR =? EINTR) with true. cbn iota.
  induction packets as [|p packets IH]; [done|]. cbn [map app read_loop]. by change (EINTR =? EINTR) with true.
Qed.

(** * A kernel *)

(** What the next writes do; when nothing is listed, a write takes everything. *)
Inductive WriteStep := Takes (n : nat) | Interrupted | Fails.
Record Kernel := mkKernel {
  descriptors : gset Z;
  closed : list Z;
  written : list (Z * str);
  next_descriptor : Z;
  writes : list WriteStep;
  interfaces : list str;
}.
#[local] Instance example_kernel : SystemCalls Kernel := {|
  sys_socket w :=
    if bool_decide (0 ≤ next_descriptor w ∧ next_descriptor w ∉ descriptors w) then
      (next_descriptor w, mkKernel ({[ next_descriptor w ]} ∪ descriptors w) (closed w) (written w) (next_descriptor w + 1) (writes w) (interfaces w))
    else (-1, w);
  sys_set_filter fd w := (0, w);
  sys_if_nametoindex name w := (if bool_decide (name ∈ interfaces w) then 1 else 0, w);
  sys_bind fd i w := (0, w);
  sys_close fd w := mkKernel (descriptors w ∖ {[ fd ]}) (closed w ++ [fd]) (written w) (next_descriptor w) (writes w) (interfaces w);
  sys_ioctl_flags fd name w := (if bool_decide (name ∈ interfaces w) then (0, IFF_UP + IFF_RUNNING) else (-1, 0), w);
  sys_getsockopt fd w := (0, w);
  sys_write fd bytes w :=
    let after rest chunk := mkKernel (descriptors w) (closed w) (written w ++ [(fd, chunk)]) (next_descriptor w) rest (interfaces w) in
    let idle rest := mkKernel (descriptors w) (closed w) (written w) (next_descriptor w) rest (interfaces w) in
    match writes w with
    | [] => ((zlen bytes, false), after [] bytes)
    | Takes n :: rest => ((zlen (take n bytes), false), after rest (take n bytes))
    | Interrupted :: rest => ((-1, true), idle rest)
    | Fails :: rest => ((-1, false), idle rest)
    end;
|}.

Lemma zlen_take_all (l : str) n : take (Z.to_nat (zlen (take n l))) l = take n l.
Proof. unfold zlen. rewrite Nat2Z.id, length_take. destruct (Nat.le_ge_cases n (List.length l)); [by rewrite Nat.min_l by lia|].
  by rewrite Nat.min_r, !take_ge by lia. Qed.

#[local] Program Instance example_kernel_laws : SystemCallLaws Kernel := {|
  open_fds := descriptors;
  closes := closed;
  frames := written;
  patience w := List.length (writes w);
|}.
Next Obligation. intros w r w'. cbn. case_bool_decide; intros [= <- <-]; cbn; [|by auto]. split; [done|]. split; [done|]. right. naive_solver. Qed.
Next Obligation. by intros fd w r w' [= <- <-]. Qed.
Next Obligation. by intros name w r w' [= <- <-]. Qed.
Next Obligation. by intros fd i w r w' [= <- <-]. Qed.
Next Obligation. done. Qed.
Next Obligation. by intros fd name w r w' [= <- <-]. Qed.
Next Obligation. by intros fd w r w' [= <- <-]. Qed.
Next Obligation.
  intros fd bytes w res interrupted w'. cbn. destruct (writes w) as [|[n| |] rest] eqn:Hw; intros [= <- <- <-]; cbn.
  - split; [done|]. split; [done|]. split; [unfold zlen; lia|]. intros _. split; [done|]. unfold zlen. rewrite Nat2Z.id, firstn_all.
    split; [done|]. split; [lia|]. destruct bytes; cbn; [done|lia].
  - split; [done|]. split; [done|]. split; [unfold zlen; lia|]. intros _. split; [unfold zlen; rewrite length_take; lia|].
    split; [by rewrite zlen_take_all|]. split; lia.
  - split; [done|]. split; [done|]. split; [intros _; split; [done|intros _; lia]|lia].
  - split; [done|]. split; [done|]. split; [intros _; by split|lia].
Qed.

Definition quiet_kernel : Kernel := mkKernel {[ 7 ]} [] [] 10 [Takes 2; Interrupted; Takes 0; Takes 3] [$"Ethernet0"].
Definition first_packet_io : PacketIo (W:=Kernel) := mkPacketIo quiet_kernel ∅ ∅ ∅ true false.
Definition with_port : PacketIo (W:=Kernel) :=
  mkPacketIo (mkKernel {[ 10; 7 ]} [] [] 11 [Takes 2; Interrupted; Takes 0; Takes 3] [$"Ethernet0"])
    {[ $"Ethernet0" := 10 ]} {[ $"Ethernet0" := 10 ]} {[ 10 ]} true false.

Lemma first_ok : sockets_ok {[ 7 ]} first_packet_io.
Proof.
  split; cbn; try done; intros; set_solver.
Qed.
Lemma port_added : AddPacketIoPort $"Ethernet0" first_packet_io = (Ok tt, with_port).
Proof. vm_compute. reflexivity. Qed.

(** An interface that does not exist leaves no socket behind; a packet is written in pieces. *)
Lemma packet_sockets_owned_witness :
  fst (AddPacketIoPort $"Ethernet4" with_port) = Err kInternal ∧
  descriptors (kernel (snd (AddPacketIoPort $"Ethernet4" with_port))) = {[ 10; 7 ]} ∧
  sockets_ok {[ 7 ]} (snd (SendPacketOut 10 $"Ethernet0" $"frame" with_port)) ∧
  written (kernel (snd (SendPacketOut 10 $"Ethernet0" $"frame" with_port))) = [(10, $"fr"); (10, []); (10, $"ame")] ∧
  sockets_ok {[ 7 ]} (snd (RemovePacketIoPort $"Ethernet0" with_port)).
Proof.
  assert (sockets_ok {[ 7 ]} with_port) as Hok.
  { destruct (packet_sockets_owned 10 {[ 7 ]} (AddPort $"Ethernet0") first_packet_io with_port (Ok tt) first_ok I port_added) as [Hok _]. exact Hok. }
  split; [vm_compute; reflexivity|]. split; [vm_compute; reflexivity|]. split; [|split; [vm_compute; reflexivity|]].
  - destruct (packet_sockets_owned 10 {[ 7 ]} (SendOut $"Ethernet0" $"frame") with_port _ _ Hok
      ltac:(split; [vm_compute; reflexivity|apply Nat.ltb_lt; reflexivity]) (surjective_pairing _)) as [Hsent _]. exact Hsent.
  - destruct (packet_sockets_owned 10 {[ 7 ]} (RemovePort $"Ethernet0") with_port _ _ Hok I (surjective_pairing _)) as [Hgone _]. exact Hgone.
Defined.
