(* ===== verification/StateVerification.v ===== *)
(** p4rt_app: [state_verification.cc], the comparison of packet replication entries
    ([packet_replication_entry_translation.cc]), and [VerifyState] of [p4runtime_impl.cc].  The tables of the
    application database are compared with the cache of entities and with the state tables. *)
From S2P Require Import Prelude Abseil NetAddr NetAddrText IrUtils EntityKeys IrData IrTranslation AppDb TableTypes AclTable Hashing AppDbEntry ResourceUtilization WritePath PortTranslation SonicWrite Schema Reconcile Pipeline DecimalString AppDbEntryCorrect.
From S2P Require SdnController IrCorrect.
From S2P Require Import IrProgramCorrect.

(** * Failures *)

(** The messages, with the names of the databases. *)
Inductive Failure :=
  | MissingKey (db_name key : str)
  | DuplicateFields (db_name key : str)
  | UntranslatedValues (db_name key : str)
  | EntriesDiffer (key : str)
  | UntranslatedEntities (count : nat) (packet_replication : bool)
  | MetadataMismatch
  | MissingReplica (db_name replica : str) (group_id : Z)
  | MissingGroup (db_name : str) (group_id : Z).

(** * Redis tables *)

(** The list of pairs as a map; a field that is there twice is an error. *)
Definition ListToMap (l : FieldValues) : result (gmap str str) :=
  fold_result (λ m '(field, value), match m !! field with Some _ => Err kInternal | None => Ok (<[field := value]> m) end) l ∅.

Record RedisTableEntry := mkRedisTableEntry { values : gmap str str; errors : option Failure }.
Record RedisTable := mkRedisTable { db_name : str; entries : list (str * RedisTableEntry) }.

Definition redis_entry (name table_key : str) (l : FieldValues) : RedisTableEntry :=
  match ListToMap l with
  | Ok m => mkRedisTableEntry m None
  | _ => mkRedisTableEntry ∅ (Some (DuplicateFields name table_key))
  end.

Section verification.
Context `{AbslStrings} `{SwssSchema} `{AclLibraries} `{EntryLibraries}.

Definition ReadAllEntriesFromRedisTable (table : gmap str FieldValues) (name : str) : RedisTable :=
  mkRedisTable name
    (fold_left (λ m key, bt_set key (redis_entry name key (db_get key table)) m) (db_keys table) []).

Definition translate_entity (name : str) (ir_p4_info : IrP4Info) (m : list (str * RedisTableEntry)) (ir_entity : IrEntity)
  : result (list (str * RedisTableEntry)) :=
  match ir_entity with
  | IrTable te =>
    match GetRedisP4rtTableKey te ir_p4_info with
    | Die => Die
    | Err _ => Ok m
    | Ok table_key =>
      match IrTableEntryToAppDbValues te with
      | Die => Die
      | Err _ => Ok (bt_set table_key (mkRedisTableEntry ∅ (Some (UntranslatedValues name table_key))) m)
      | Ok app_db_values => Ok (bt_set table_key (redis_entry name table_key app_db_values) m)
      end
    end
  | _ => Ok m
  end.
Definition TranslateP4rtIrEntitiesIntoRedisTable (ir_entities : list IrEntity) (name : str) (ir_p4_info : IrP4Info)
  : result RedisTable :=
  m ← fold_result (translate_entity name ir_p4_info) ir_entities []; Ok (mkRedisTable name m).

Definition CompareTableEntries (key : str) (entry_a entry_b : RedisTableEntry) : option Failure :=
  if bool_decide (values entry_a = values entry_b) then None else Some (EntriesDiffer key).

(** Two entries of one key: their errors, or how they differ. *)
Definition compare_entries (key : str) (a b : RedisTableEntry) : list Failure :=
  match option_list (errors a) ++ option_list (errors b) with
  | [] => option_list (CompareTableEntries key a b)
  | failures => failures
  end.

(** Both tables are walked in the order of their keys. *)
Fixpoint compare_loop (name_a name_b : str) (a : list (str * RedisTableEntry)) : list (str * RedisTableEntry) → list Failure :=
  fix go b :=
    match a, b with
    | [], b => map (λ x, MissingKey name_a (fst x)) b
    | a, [] => map (λ x, MissingKey name_b (fst x)) a
    | (key_a, x) :: a', (key_b, y) :: b' =>
      if str_ltb key_b key_a then MissingKey name_a key_b :: go b'
      else if str_ltb key_a key_b then MissingKey name_b key_a :: compare_loop name_a name_b a' b
      else compare_entries key_a x y ++ compare_loop name_a name_b a' b'
    end.
Definition CompareTables (table_a table_b : RedisTable) : list Failure :=
  compare_loop (db_name table_a) (db_name table_b) (entries table_a) (entries table_b).

Definition VerifyAppStateDbAndAppDbEntries (app_state_db app_db : gmap str FieldValues) : list Failure :=
  CompareTables (ReadAllEntriesFromRedisTable app_db $"AppDb") (ReadAllEntriesFromRedisTable app_state_db $"AppStateDb").

(** Definitions and packet replication entries are left out. *)
Definition not_an_entry (key : str) : bool :=
  StartsWith key $"ACL_TABLE_DEFINITION_TABLE:" || StartsWith key $"TABLES_DEFINITION_TABLE:" ||
  StartsWith key APP_P4RT_REPLICATION_IP_MULTICAST_TABLE_NAME.

Definition VerifyP4rtTableWithCacheEntities (app_db : gmap str FieldValues) (ir_entities : list IrEntity)
  (ir_p4_info : IrP4Info) : result (list Failure) :=
  let redis_db_entries := ReadAllEntriesFromRedisTable app_db $"AppDb" in
  let redis_db_entries :=
    mkRedisTable (db_name redis_db_entries) (List.filter (λ x, negb (not_an_entry (fst x))) (entries redis_db_entries)) in
  cache ← TranslateP4rtIrEntitiesIntoRedisTable ir_entities $"EntityCache" ir_p4_info;
  Ok (CompareTables redis_db_entries cache).

(** * Packet replication *)

Definition entity_group (e : IrEntity) : Ir.MulticastGroupEntry :=
  match e with IrPacketReplicationEngine e => multicast_group_entry e | _ => Ir.mkMulticast 0 [] [] end.

(** "port_instance"; instances are unsigned. *)
Definition port_instance (r : Ir.Replica) : str := Ir.replica_port r ++ $"_" ++ StrCatInt (Ir.replica_instance r).
Definition port_instances (g : Ir.MulticastGroupEntry) : gset str := list_to_set (map port_instance (Ir.replicas g)).

Definition ComparePacketReplicationEntities (app_db cache : Ir.MulticastGroupEntry) : list Failure :=
  (if bool_decide (Ir.group_metadata app_db = Ir.group_metadata cache) then [] else [MetadataMismatch]) ++
  map (λ r, MissingReplica $"cache" r (Ir.group_id app_db)) (in_order_set (port_instances app_db ∖ port_instances cache)) ++
  map (λ r, MissingReplica $"APP DB" r (Ir.group_id app_db)) (in_order_set (port_instances cache ∖ port_instances app_db)).

(** An [absl::btree_map] from group ids; the last group of an id stays. *)
Fixpoint id_set {V} (id : Z) (v : V) (m : list (Z * V)) : list (Z * V) :=
  match m with
  | [] => [(id, v)]
  | (id', x) :: m' =>
    if id <? id' then (id, v) :: m else if id' <? id then (id', x) :: id_set id v m' else (id, v) :: m'
  end.
Fixpoint id_find {V} (id : Z) (m : list (Z * V)) : option V :=
  match m with [] => None | (id', x) :: m => if id' =? id then Some x else id_find id m end.
Definition groups_by_id (l : list IrEntity) : list (Z * Ir.MulticastGroupEntry) :=
  fold_left (λ m e, id_set (Ir.group_id (entity_group e)) (entity_group e) m) l [].

Definition ComparePacketReplicationTableEntries (entries_app_db entries_cache : list IrEntity) : list Failure :=
  let map_app_db := groups_by_id entries_app_db in
  let map_cache := groups_by_id entries_cache in
  flat_map (λ '(id, g), match id_find id map_cache with
                        | None => [MissingGroup $"cache" id]
                        | Some g' => ComparePacketReplicationEntities g g'
                        end) map_app_db ++
  flat_map (λ '(id, _), match id_find id map_app_db with None => [MissingGroup $"APP DB" id] | Some _ => [] end) map_cache.

(** The entries are used also when they could not be read, which stops the server. *)
Definition VerifyPacketReplicationWithCacheEntities (p4rt_table : gmap str FieldValues) (cache_ir_entities : list IrEntity)
  : result (list Failure) :=
  redis_db_ir_entries ← (match AppDbEntry.GetAllAppDbPacketReplicationTableEntries p4rt_table with Ok l => Ok l | _ => Die end);
  Ok (ComparePacketReplicationTableEntries (map IrPacketReplicationEngine redis_db_ir_entries) cache_ir_entities).
End verification.

(** * VerifyState *)

Section verify_state.
Context {C Storage : Type} `{SwitchLibraries C} `{AbslStrings} `{!Ipv6.Inet} `{Gutil}.
Context `{SwssSchema} `{AclLibraries} `{EntryLibraries}.
Abbreviation Switch := (Switch C Storage).

(** ir_translation.cc *)
Definition TranslatePiEntityForOrchAgent (ir_p4_info : IrP4Info) (t : Translations) (translate_key_only : bool)
  (pi_entity : Entity) : result IrEntity :=
  let update := PortTranslation.UpdateIrEntityForOrchAgent simple_atoi simple_hex_atoi format_hex SonicWrite.valid_utf8
    (tables_by_name ir_p4_info) (translate_port_ids_ t) (port_translation_map t) (cpu_queues t) (front_panel_queues t) in
  let options := pdpi_options translate_key_only in
  match pi_entity with
  | kTableEntry entry =>
    ir ← PiTableEntryToIr SonicWrite.valid_utf8 ir_p4_info entry options; update (IrTable ir)
  | kPacketReplicationEngineEntry entry =>
    ir ← PiPacketReplicationEngineEntryToIr entry options; update (IrPacketReplicationEngine ir)
  | _ => IrTranslation.PiEntityToIr SonicWrite.valid_utf8 ir_p4_info pi_entity options
  end.

Definition of_type (packet_replication : bool) (e : Entity) : bool :=
  match e with
  | kTableEntry _ => negb packet_replication
  | kPacketReplicationEngineEntry _ => packet_replication
  | _ => false
  end.

(** The translated entities that belong to the P4RT table, and how many could not be translated. *)
Definition cache_step (ir_p4_info : IrP4Info) (t : Translations) (packet_replication : bool)
  (state : list IrEntity * nat) (pi_entity : Entity) : result (list IrEntity * nat) :=
  if negb (of_type packet_replication pi_entity) then Ok state
  else
    match TranslatePiEntityForOrchAgent ir_p4_info t false pi_entity with
    | Die => Die
    | Err _ => Ok (fst state, S (snd state))
    | Ok ir =>
      if bool_decide (GetAppDbTableType ir = P4RT) then Ok (fst state ++ [ir], snd state) else Ok state
    end.
Definition GetIrEntitiesFromCache (entity_cache : EntityMap) (ir_p4_info : IrP4Info) (t : Translations)
  (packet_replication : bool) : result (list IrEntity * list Failure) :=
  '(ir_entries, failure_count) ←
    fold_result (cache_step ir_p4_info t packet_replication) (map snd (map_to_list entity_cache)) ([], 0%nat);
  Ok (ir_entries, if (0 <? failure_count)%nat then [UntranslatedEntities failure_count packet_replication] else []).

Definition verify_table_states (t : NotifiedTable) : list Failure :=
  VerifyAppStateDbAndAppDbEntries (app_state_db t) (app_db t).

(** [Err] carries the failures; the program in force is dereferenced without a check. *)
Definition VerifyState (s : Switch) : result (list Failure) :=
  match ir_p4info_ (server s) with
  | None => Die
  | Some ir_p4_info =>
    let t := translations_ (server s) in
    let w := app_db_ (server s) in
    '(p4rt_entities, failures) ← GetIrEntitiesFromCache (entity_cache_ (server s)) ir_p4_info t false;
    p4rt_table_failures ← VerifyP4rtTableWithCacheEntities (p4rt_app_db s) p4rt_entities ir_p4_info;
    '(packet_replication_entries, failures') ← GetIrEntitiesFromCache (entity_cache_ (server s)) ir_p4_info t true;
    packet_replication_table_failures ← VerifyPacketReplicationWithCacheEntities (p4rt_app_db s) packet_replication_entries;
    Ok (failures ++ p4rt_table_failures ++ verify_table_states (vrf_table w) ++ verify_table_states (vlan_table w) ++
        verify_table_states (vlan_member_table w) ++ verify_table_states (hash_table_ s) ++
        verify_table_states (switch_table_ s) ++ failures' ++ packet_replication_table_failures)
  end.
End verify_state.

(** * What a verification without failures says *)

(** Lists that agree up to their last [d] agree. *)
Lemma split_last {A} (d : A) l k l' k' : d ∉ k → d ∉ k' → l ++ [d] ++ k = l' ++ [d] ++ k' → l = l' ∧ k = k'.
Proof.
  intros Hk Hk'. revert l'. induction l as [|x l IH]; intros [|y l']; cbn; intros Heq.
  - by injection Heq.
  - injection Heq as <- ->. destruct Hk. apply elem_of_app. right. by left.
  - injection Heq as -> <-. destruct Hk'. apply elem_of_app. right. by left.
  - injection Heq as <- Htl. by apply IH in Htl as [-> ->].
Qed.

Section exact.
Context `{AbslStrings} `{SwssSchema} `{AclLibraries} `{EntryLibraries}.

(** Valid entries with the same values. *)
Definition good_pair (a b : option RedisTableEntry) : Prop :=
  match a, b with
  | None, None => True
  | Some x, Some y => errors x = None ∧ errors y = None ∧ values x = values y
  | _, _ => False
  end.

Lemma compare_entries_nil key a b : compare_entries key a b = [] ↔ good_pair (Some a) (Some b).
Proof.
  unfold compare_entries, good_pair, CompareTableEntries.
  destruct (errors a) as [e|]; cbn [option_list app]; [split; [done|by intros [? _]]|].
  destruct (errors b) as [e|]; cbn [option_list app]; [split; [done|by intros (_ & ? & _)]|].
  case_bool_decide; cbn; naive_solver.
Qed.

Lemma bt_find_below {V} k (x : V) m : bt_sorted ((k, x) :: m) → bt_find k m = None.
Proof.
  intros [_ Hlt]%bt_sorted_inv. apply bt_find_None. intros y Hin. apply Hlt in Hin. by rewrite str_ltb_irrefl in Hin.
Qed.

Lemma compare_loop_nil name_a name_b a b : bt_sorted a → bt_sorted b →
  compare_loop name_a name_b a b = [] ↔ ∀ k, good_pair (bt_find k a) (bt_find k b).
Proof.
  revert b. induction a as [|[ka x] a IHa]; intros b Ha Hb.
  { destruct b as [|[kb y] b]; [done|]. cbn [compare_loop map]. split; [done|]. intros Hall. specialize (Hall kb).
    cbn [bt_find] in Hall. by rewrite bool_decide_eq_true_2 in Hall. }
  induction b as [|[kb y] b IHb].
  { cbn [compare_loop map]. split; [done|]. intros Hall. specialize (Hall ka). cbn [bt_find] in Hall.
    by rewrite bool_decide_eq_true_2 in Hall. }
  cbn [compare_loop]. destruct (str_ltb kb ka) eqn:Hba; [|destruct (str_ltb ka kb) eqn:Hab].
  - split; [done|]. intros Hall. specialize (Hall kb). rewrite (bt_find_head_lt kb ka) in Hall by done.
    cbn [bt_find] in Hall. by rewrite bool_decide_eq_true_2 in Hall.
  - split; [done|]. intros Hall. specialize (Hall ka). rewrite (bt_find_head_lt ka kb) in Hall by done.
    cbn [bt_find] in Hall. by rewrite bool_decide_eq_true_2 in Hall.
  - assert (ka = kb) as -> by by apply str_ltb_eq.
    pose proof (bt_find_below _ _ _ Ha) as Hna. pose proof (bt_find_below _ _ _ Hb) as Hnb.
    apply bt_sorted_inv in Ha as [Ha _]. apply bt_sorted_inv in Hb as [Hb _].
    rewrite app_nil, compare_entries_nil, IHa by done. split.
    + intros [Hxy Hall] k. cbn [bt_find]. case_bool_decide; [exact Hxy|apply Hall].
    + intros Hall. split.
      * specialize (Hall kb). cbn [bt_find] in Hall. by rewrite !bool_decide_eq_true_2 in Hall.
      * intros k. specialize (Hall k). cbn [bt_find] in Hall. case_bool_decide as Hk; [|exact Hall]. subst k. by rewrite Hna, Hnb.
Qed.

(** ** Tables *)

Lemma ListToMap_spec l m : ListToMap l = Ok m ↔ NoDup (map fst l) ∧ m = list_to_map l.
Proof.
  assert (∀ (l : FieldValues) (m0 m : gmap str str), fold_result (λ m '(field, value), match m !! field with Some _ => Err kInternal | None => Ok (<[field := value]> m) end) l m0 = Ok m ↔
    NoDup (map fst l) ∧ (∀ f : str, f ∈ map fst l → m0 !! f = None) ∧ m = list_to_map l ∪ m0) as Hgen.
  { clear l m. induction l as [|[f v] l IH]; intros m0 m; cbn [fold_result map].
    - rewrite list_to_map_nil, (left_id_L ∅ (∪)). split; [intros [= ->]; split_and!; [constructor|by intros f Hf%elem_of_nil|done]|by intros (_ & _ & ->)].
    - cbn [fst]. destruct (m0 !! f) as [w|] eqn:Hf; cbn [mbind result_bind].
      { split; [done|]. intros (_ & Hnone & _). rewrite (Hnone f) in Hf by by left. done. }
      rewrite IH, NoDup_cons. split.
      + intros (Hnd & Hnone & ->). split; [split; [|done]|split].
        * intros Hin. apply Hnone in Hin. by rewrite lookup_insert_eq in Hin.
        * intros g [->|Hg]%elem_of_cons; [done|]. apply Hnone in Hg. by apply lookup_insert_None in Hg as [? _].
        * cbn. rewrite <-insert_union_l, insert_union_r; [done|]. apply not_elem_of_list_to_map_1.
          intros Hin. apply Hnone in Hin. by rewrite lookup_insert_eq in Hin.
      + intros ([Hnew Hnd] & Hnone & ->). split_and!; [done| |].
        * intros g Hg. apply lookup_insert_None. split; [apply Hnone; by right|]. intros ->. done.
        * cbn. rewrite <-insert_union_l, insert_union_r; [done|]. by apply not_elem_of_list_to_map_1. }
  unfold ListToMap. rewrite Hgen. rewrite (right_id_L ∅ (∪)). split; [by intros (? & _ & ?)|].
  intros [? ?]. split_and!; [done| |done]. intros; apply lookup_empty.
Qed.

Lemma fold_bt_set {V} (g : str → V) keys m : bt_sorted m →
  bt_sorted (fold_left (λ m key, bt_set key (g key) m) keys m) ∧
  ∀ k, bt_find k (fold_left (λ m key, bt_set key (g key) m) keys m) = if bool_decide (k ∈ keys) then Some (g k) else bt_find k m.
Proof.
  revert m. induction keys as [|key keys IH]; intros m Hm; cbn [fold_left].
  { split; [done|]. intros k. rewrite bool_decide_eq_false_2 by by apply not_elem_of_nil. done. }
  destruct (IH (bt_set key (g key) m)) as [Hs Hf]; [by apply bt_set_sorted|]. split; [done|]. intros k. rewrite Hf.
  destruct (decide (k = key)) as [->|Hne].
  - rewrite bt_set_find. rewrite (bool_decide_eq_true_2 (key ∈ key :: keys)) by by left. by case_bool_decide.
  - rewrite bt_set_find_ne by done. repeat case_bool_decide; try done; set_solver.
Qed.

Lemma read_table table name :
  bt_sorted (entries (ReadAllEntriesFromRedisTable table name)) ∧
  ∀ k, bt_find k (entries (ReadAllEntriesFromRedisTable table name)) = redis_entry name k <$> table !! k.
Proof.
  unfold ReadAllEntriesFromRedisTable. cbn [entries].
  destruct (fold_bt_set (λ key, redis_entry name key (db_get key table)) (db_keys table) []) as [Hs Hf]; [constructor|].
  split; [done|]. intros k. rewrite Hf. unfold db_get. case_bool_decide as Hk.
  - apply list_elem_of_fmap in Hk as ([k' v] & -> & Hin%elem_of_map_to_list). cbn [fst]. by rewrite Hin.
  - cbn [bt_find]. destruct (table !! k) as [v|] eqn:Hv; [|done]. exfalso. apply Hk, list_elem_of_fmap. exists (k, v).
    split; [done|]. by apply elem_of_map_to_list.
Qed.

(** The rows of two tables say the same, without duplicate fields. *)
Definition same_row (a b : option FieldValues) : Prop :=
  match a, b with
  | None, None => True
  | Some x, Some y => NoDup (map fst x) ∧ NoDup (map fst y) ∧ (list_to_map x : gmap str str) = list_to_map y
  | _, _ => False
  end.

Lemma redis_entry_good name key l : errors (redis_entry name key l) = None ↔ NoDup (map fst l).
Proof.
  unfold redis_entry. destruct (ListToMap l) as [m|e|] eqn:Hm; cbn [errors].
  - apply ListToMap_spec in Hm as [? _]. by split.
  - split; [done|]. intros Hnd. rewrite (proj2 (ListToMap_spec l (list_to_map l)) (conj Hnd eq_refl)) in Hm. done.
  - split; [done|]. intros Hnd. rewrite (proj2 (ListToMap_spec l (list_to_map l)) (conj Hnd eq_refl)) in Hm. done.
Qed.
Lemma redis_entry_values name key l : NoDup (map fst l) → values (redis_entry name key l) = list_to_map l.
Proof. intros Hnd. unfold redis_entry. by rewrite (proj2 (ListToMap_spec l (list_to_map l)) (conj Hnd eq_refl)). Qed.

Lemma good_rows name name' key x y :
  good_pair (Some (redis_entry name key x)) (Some (redis_entry name' key y)) ↔ same_row (Some x) (Some y).
Proof.
  unfold good_pair, same_row. rewrite !redis_entry_good. split; intros (? & ? & Hv); split_and!; try done.
  - by rewrite !redis_entry_values in Hv.
  - by rewrite !redis_entry_values.
Qed.

Lemma verify_states_exact app_state_db app_db :
  VerifyAppStateDbAndAppDbEntries app_state_db app_db = [] ↔ ∀ k, same_row (app_db !! k) (app_state_db !! k).
Proof.
  unfold VerifyAppStateDbAndAppDbEntries, CompareTables. destruct (read_table app_db $"AppDb") as [Hs1 Hf1].
  destruct (read_table app_state_db $"AppStateDb") as [Hs2 Hf2]. rewrite compare_loop_nil by done.
  split; intros Hall k; specialize (Hall k); rewrite Hf1, Hf2 in *;
    destruct (app_db !! k), (app_state_db !! k); try done; by eapply good_rows.
Qed.

(** *** The P4RT table and the cache *)

(** The values of the last entry of [l] with the key [k]. *)
Definition values_at (ir_p4_info : IrP4Info) (k : str) (e : IrEntity) : option (result FieldValues) :=
  match e with
  | IrTable te =>
    match GetRedisP4rtTableKey te ir_p4_info with
    | Ok k' => if bool_decide (k' = k) then Some (IrTableEntryToAppDbValues te) else None
    | _ => None
    end
  | _ => None
  end.
Definition cached_values (ir_p4_info : IrP4Info) (l : list IrEntity) (k : str) : option (result FieldValues) :=
  last (omap (values_at ir_p4_info k) l).

(** A stored row is the row of a cached entry. *)
Definition same_cached (row : option FieldValues) (cached : option (result FieldValues)) : Prop :=
  match row, cached with
  | None, None => True
  | Some x, Some (Ok y) => same_row (Some x) (Some y)
  | _, _ => False
  end.

Definition cached_entry (name k : str) (r : result FieldValues) : RedisTableEntry :=
  match r with Ok l => redis_entry name k l | _ => mkRedisTableEntry ∅ (Some (UntranslatedValues name k)) end.

Lemma translate_step name info m e m' : bt_sorted m → translate_entity name info m e = Ok m' →
  bt_sorted m' ∧ ∀ k, bt_find k m' = match values_at info k e with Some r => Some (cached_entry name k r) | None => bt_find k m end.
Proof.
  intros Hm. unfold translate_entity, values_at. destruct e as [te|pre|other]; try (intros [= <-]; by split).
  destruct (GetRedisP4rtTableKey te info) as [key|c|]; [|intros [= <-]; by split|done].
  destruct (IrTableEntryToAppDbValues te) as [l|c|]; [intros [= <-]..|done];
    (split; [by apply bt_set_sorted|]); intros k; case_bool_decide; subst; cbn [cached_entry];
    by rewrite ?bt_set_find, ?bt_set_find_ne by congruence.
Qed.

Lemma translate_table name info l t : TranslateP4rtIrEntitiesIntoRedisTable l name info = Ok t →
  bt_sorted (entries t) ∧ ∀ k, bt_find k (entries t) = cached_entry name k <$> cached_values info l k.
Proof.
  intros (m & Hm & [= <-])%bind_Ok_iff. cbn [entries].
  apply (fold_result_ind (translate_entity name info) (λ done m, bt_sorted m ∧ ∀ k, bt_find k m = cached_entry name k <$> cached_values info done k) l [] m); [|..|done].
  - by split; [constructor|].
  - intros done e m1 m2 [Hs Hf] Hstep. destruct (translate_step _ _ _ _ _ Hs Hstep) as [Hs' Hf']. split; [done|].
    intros k. rewrite Hf'. unfold cached_values. rewrite omap_app. cbn. destruct (values_at info k e) as [r|].
    + by rewrite last_snoc.
    + by rewrite app_nil_r, Hf.
Qed.

Lemma bt_filter {V} (f : str → bool) (m : list (str * V)) : bt_sorted m →
  bt_sorted (List.filter (λ x, f (fst x)) m) ∧ ∀ k, bt_find k (List.filter (λ x, f (fst x)) m) = if f k then bt_find k m else None.
Proof.
  intros Hm. assert (bt_sorted (List.filter (λ x, f (fst x)) m)) as Hs.
  { induction m as [|[k x] m IH]; [done|]. apply bt_sorted_inv in Hm as [Hm Hlt]. cbn. destruct (f k); [|by apply IH].
    constructor; [by apply IH|]. apply Forall_forall. intros [k' y] Hin%list_elem_of_In. apply filter_In in Hin as [Hin _]. apply Hlt with y. by apply list_elem_of_In. }
  split; [done|]. intros k. destruct (bt_find k (List.filter _ m)) as [x|] eqn:Hx.
  - apply bt_find_sorted in Hx; [|done]. apply list_elem_of_In, filter_In in Hx as [Hin Hf]. cbn in Hf. rewrite Hf.
    symmetry. apply bt_find_sorted; [done|]. by apply list_elem_of_In.
  - destruct (f k) eqn:Hf; [|done]. symmetry. apply bt_find_None. intros x Hin. eapply bt_find_None in Hx. apply Hx.
    apply list_elem_of_In, filter_In. split; [by apply list_elem_of_In|done].
Qed.

Definition entry_row (app_db : gmap str FieldValues) (k : str) : option FieldValues :=
  if not_an_entry k then None else app_db !! k.

Lemma verify_p4rt_exact app_db l info fs : VerifyP4rtTableWithCacheEntities app_db l info = Ok fs →
  fs = [] ↔ ∀ k, same_cached (entry_row app_db k) (cached_values info l k).
Proof.
  intros (t & Ht & [= <-])%bind_Ok_iff. apply translate_table in Ht as [Hs Hf]. destruct (read_table app_db $"AppDb") as [Hs1 Hf1].
  destruct (bt_filter (λ k, negb (not_an_entry k)) _ Hs1) as [Hs2 Hf2]. unfold CompareTables. cbn [entries].
  rewrite compare_loop_nil by done. apply forall_proper. intros k. rewrite Hf2, Hf, Hf1. unfold entry_row.
  destruct (not_an_entry k); cbn [negb]; [by destruct (cached_values info l k) as [[]|]|].
  destruct (app_db !! k) as [x|], (cached_values info l k) as [[y|c|]|]; cbn [fmap option_fmap option_map cached_entry];
    try done; try apply good_rows; unfold good_pair; cbn; naive_solver.
Qed.

(** *** Groups *)

Lemma port_instance_inj `{!AbslStringsLaws} r r' : 0 ≤ Ir.replica_instance r → 0 ≤ Ir.replica_instance r' →
  port_instance r = port_instance r' ↔ Ir.replica_port r = Ir.replica_port r' ∧ Ir.replica_instance r = Ir.replica_instance r'.
Proof.
  intros Hr Hr'. unfold port_instance. split; [|by intros [-> ->]]. rewrite !StrCatInt_decimal by done. intros Heq.
  pose proof (decimal_clean "_"%char _ Hr eq_refl) as Hd. pose proof (decimal_clean "_"%char _ Hr' eq_refl) as Hd'.
  destruct (split_last "_"%char _ _ _ _ Hd Hd' Heq) as [Hp Hi]. split; [done|].
  by rewrite <-(proj2 (decimal_spec _ Hr)), Hi, (proj2 (decimal_spec _ Hr')).
Qed.

(** What is compared: the metadata and the set of the ports and instances. *)
Definition same_group (a b : option Ir.MulticastGroupEntry) : Prop :=
  match a, b with
  | None, None => True
  | Some g, Some g' => Ir.group_metadata g = Ir.group_metadata g' ∧ port_instances g = port_instances g'
  | _, _ => False
  end.
(** The last group of an id. *)
Definition group_at (l : list IrEntity) (id : Z) : option Ir.MulticastGroupEntry :=
  last (omap (λ e, if Ir.group_id (entity_group e) =? id then Some (entity_group e) else None) l).

Lemma id_set_find {V} id (v : V) m id' : id_find id' (id_set id v m) = if id =? id' then Some v else id_find id' m.
Proof.
  induction m as [|[i x] m IH]; cbn [id_set id_find]; [done|].
  destruct (Z.ltb_spec id i); [done|]. destruct (Z.ltb_spec i id).
  - cbn [id_find]. rewrite IH. destruct (Z.eqb_spec i id'), (Z.eqb_spec id id'); try done. lia.
  - assert (i = id) as -> by lia. cbn [id_find]. by destruct (id =? id').
Qed.
Lemma id_set_above {V} i id (v : V) m : i < id → Forall (Z.lt i) (map fst m) → Forall (Z.lt i) (map fst (id_set id v m)).
Proof.
  intros Hi. induction m as [|[j x] m IH]; intros Hm; cbn; [by repeat constructor|]. cbn in Hm. apply Forall_cons in Hm as [??].
  destruct (id <? j); [by repeat constructor|]. destruct (j <? id); cbn; constructor; try done. by apply IH.
Qed.
Lemma id_set_sorted {V} id (v : V) m : StronglySorted Z.lt (map fst m) → StronglySorted Z.lt (map fst (id_set id v m)).
Proof.
  induction m as [|[i x] m IH]; cbn; intros Hm; [by repeat constructor|]. pose proof Hm as [Hs Hi]%StronglySorted_inv.
  destruct (Z.ltb_spec id i).
  - cbn. constructor; [done|]. constructor; [done|]. eapply Forall_impl; [exact Hi|]. intros; lia.
  - destruct (Z.ltb_spec i id); cbn.
    + constructor; [by apply IH|by apply id_set_above].
    + assert (i = id) as -> by lia. by constructor.
Qed.
Lemma id_find_elem {V} (m : list (Z * V)) id v : StronglySorted Z.lt (map fst m) → id_find id m = Some v ↔ (id, v) ∈ m.
Proof.
  induction m as [|[i x] m IH]; cbn; intros Hm; [by rewrite elem_of_nil|]. apply StronglySorted_inv in Hm as [Hm Hi].
  rewrite elem_of_cons. destruct (Z.eqb_spec i id) as [->|Hne].
  - split; [intros [= ->]; by left|]. intros [[= ->]|Hin]; [done|]. rewrite Forall_forall in Hi.
    assert (id < id); [|lia]. apply Hi, list_elem_of_fmap. by exists (id, v).
  - rewrite IH by done. naive_solver.
Qed.

Lemma groups_by_id_spec l : StronglySorted Z.lt (map fst (groups_by_id l)) ∧ ∀ id, id_find id (groups_by_id l) = group_at l id.
Proof.
  unfold groups_by_id. induction l as [|e l [IHs IHf]] using rev_ind; [by split; [constructor|]|].
  rewrite fold_left_app. cbn [fold_left]. split; [by apply id_set_sorted|]. intros id. rewrite id_set_find, IHf.
  unfold group_at. rewrite omap_app. cbn. destruct (Ir.group_id (entity_group e) =? id); [by rewrite last_snoc|by rewrite app_nil_r].
Qed.

Lemma in_order_set_nil (s : gset str) : in_order_set s = [] ↔ s = ∅.
Proof.
  split.
  - intros Hs. apply set_eq. intros k. rewrite <-in_order_set_elem, Hs. set_solver.
  - intros ->. done.
Qed.
Lemma flat_map_nil {A B} (f : A → list B) l : flat_map f l = [] ↔ ∀ x, x ∈ l → f x = [].
Proof.
  induction l as [|x l IH]; cbn; [split; [by intros _ x Hx%elem_of_nil|done]|]. rewrite app_nil, IH.
  setoid_rewrite elem_of_cons. naive_solver.
Qed.

Lemma compare_replication_nil g g' : ComparePacketReplicationEntities g g' = [] ↔ same_group (Some g) (Some g').
Proof.
  unfold ComparePacketReplicationEntities, same_group. rewrite !app_nil. split.
  - intros (Hm & Hr & Hr'). case_bool_decide; [|done]. split; [done|].
    apply map_eq_nil, in_order_set_nil in Hr. apply map_eq_nil, in_order_set_nil in Hr'. apply (anti_symm (⊆)); by apply empty_difference_subseteq_L.
  - intros [Hm ->]. rewrite bool_decide_eq_true_2 by done. by rewrite difference_diag_L.
Qed.

(** The groups that the comparison is meant for: replicas with unsigned instances, none twice and none with backups. *)
Record plain_group (g : Ir.MulticastGroupEntry) : Prop := {
  plain_instances r : r ∈ Ir.replicas g → 0 ≤ Ir.replica_instance r;
  plain_backups r : r ∈ Ir.replicas g → Ir.backup_replicas r = [];
  plain_unique : NoDup (Ir.replicas g);
}.
Definition plain_groups (at_id : Z → option Ir.MulticastGroupEntry) : Prop := ∀ id g, at_id id = Some g → plain_group g.

(** The same group: its metadata, and its replicas in any order. *)
Definition equal_group (a b : option Ir.MulticastGroupEntry) : Prop :=
  match a, b with
  | None, None => True
  | Some g, Some g' => Ir.group_metadata g = Ir.group_metadata g' ∧ Ir.replicas g ≡ₚ Ir.replicas g'
  | _, _ => False
  end.

Lemma plain_replica_found `{!AbslStringsLaws} g g' r : plain_group g → plain_group g' →
  port_instances g = port_instances g' → r ∈ Ir.replicas g → r ∈ Ir.replicas g'.
Proof.
  intros Hg Hg' Heq Hr. assert (port_instance r ∈ port_instances g') as Hin.
  { rewrite <-Heq. apply elem_of_list_to_set, list_elem_of_fmap. by exists r. }
  apply elem_of_list_to_set, list_elem_of_fmap in Hin as (r' & Hpi & Hr').
  apply port_instance_inj in Hpi as [Hp Hi]; [|by apply (plain_instances g Hg)|by apply (plain_instances g' Hg')].
  pose proof (plain_backups g Hg r Hr) as Hb. pose proof (plain_backups g' Hg' r' Hr') as Hb'.
  destruct r, r'. cbn in *. by subst.
Qed.

Lemma plain_same_group `{!AbslStringsLaws} a b : (∀ g, a = Some g → plain_group g) → (∀ g, b = Some g → plain_group g) →
  same_group a b ↔ equal_group a b.
Proof.
  intros Ha Hb. destruct a as [g|], b as [g'|]; try done. specialize (Ha g eq_refl). specialize (Hb g' eq_refl).
  cbn. split; intros [Hmeta Heq]; (split; [exact Hmeta|]).
  - apply NoDup_Permutation; [apply Ha|apply Hb|]. intros r. split; by apply plain_replica_found.
  - apply set_eq. intros x. unfold port_instances. rewrite !elem_of_list_to_set. by rewrite Heq.
Qed.

Lemma compare_groups_exact l l' : ComparePacketReplicationTableEntries l l' = [] ↔ ∀ id, same_group (group_at l id) (group_at l' id).
Proof.
  unfold ComparePacketReplicationTableEntries. destruct (groups_by_id_spec l) as [Hs Hf], (groups_by_id_spec l') as [Hs' Hf'].
  rewrite app_nil, !flat_map_nil. split.
  - intros [Hl Hl'] id. rewrite <-Hf, <-Hf'. destruct (id_find id (groups_by_id l)) as [g|] eqn:Hg.
    + apply id_find_elem in Hg; [|done]. apply Hl in Hg. destruct (id_find id (groups_by_id l')); [|done].
      by apply compare_replication_nil.
    + destruct (id_find id (groups_by_id l')) as [g'|] eqn:Hg'; [|done].
      apply id_find_elem in Hg'; [|done]. apply Hl' in Hg'. by rewrite Hg in Hg'.
  - intros Hall. split; intros [id g] Hin%id_find_elem; try done; specialize (Hall id); rewrite <-Hf, <-Hf', Hin in Hall.
    + destruct (id_find id (groups_by_id l')); [|done]. by apply compare_replication_nil.
    + by destruct (id_find id (groups_by_id l)).
Qed.
End exact.

Section verify_state_exact.
Context {C Storage : Type} `{SwitchLibraries C} `{AbslStringsLaws} `{!Ipv6.Inet} `{Gutil}.
Context `{SwssSchema} `{AclLibraries} `{EntryLibraries}.
Abbreviation Switch := (Switch C Storage).

Definition translates (info : IrP4Info) (t : Translations) (packet_replication : bool) (cache : EntityMap) : Prop :=
  ∀ k e, cache !! k = Some e → of_type packet_replication e = true → ∃ ir, TranslatePiEntityForOrchAgent info t false e = Ok ir.
Definition cached_entity (info : IrP4Info) (t : Translations) (packet_replication : bool) (e : Entity) : option IrEntity :=
  if of_type packet_replication e then
    match TranslatePiEntityForOrchAgent info t false e with
    | Ok ir => if bool_decide (GetAppDbTableType ir = P4RT) then Some ir else None
    | _ => None
    end
  else None.
Definition cached_entities (info : IrP4Info) (t : Translations) (packet_replication : bool) (cache : EntityMap) : list IrEntity :=
  omap (cached_entity info t packet_replication) (map snd (map_to_list cache)).

(** The groups of the application database and of the cache. *)
Definition stored_group_at (stored : list Ir.PacketReplicationEngineEntry) : Z → option Ir.MulticastGroupEntry :=
  group_at (map IrPacketReplicationEngine stored).
Definition cached_group_at (info : IrP4Info) (s : Switch) : Z → option Ir.MulticastGroupEntry :=
  group_at (cached_entities info (translations_ (server s)) true (entity_cache_ (server s))).

(** What the state verification checks of a server with the program [info]; groups agree by [same]. *)
Record consistent_by (same : option Ir.MulticastGroupEntry → option Ir.MulticastGroupEntry → Prop) (info : IrP4Info) (s : Switch)
  : Prop := mkConsistent {
  entities_translate packet_replication : translates info (translations_ (server s)) packet_replication (entity_cache_ (server s));
  p4rt_consistent k : same_cached (entry_row (p4rt_app_db s) k)
    (cached_values info (cached_entities info (translations_ (server s)) false (entity_cache_ (server s))) k);
  tables_consistent t k :
    t ∈ [vrf_table (app_db_ (server s)); vlan_table (app_db_ (server s)); vlan_member_table (app_db_ (server s));
         hash_table_ s; switch_table_ s] → same_row (app_db t !! k) (app_state_db t !! k);
  groups_consistent : ∃ stored, AppDbEntry.GetAllAppDbPacketReplicationTableEntries (p4rt_app_db s) = Ok stored ∧
    ∀ id, same (stored_group_at stored id) (cached_group_at info s id);
}.
(** The state of the switch is that of the cache. *)
Definition consistent : IrP4Info → Switch → Prop := consistent_by equal_group.

(** All multicast groups are plain. *)
Definition plain_replication (s : Switch) : Prop :=
  (∀ info, ir_p4info_ (server s) = Some info → plain_groups (cached_group_at info s)) ∧
  ∀ stored, AppDbEntry.GetAllAppDbPacketReplicationTableEntries (p4rt_app_db s) = Ok stored → plain_groups (stored_group_at stored).

Lemma plain_consistent info s : plain_replication s → ir_p4info_ (server s) = Some info →
  consistent_by same_group info s ↔ consistent info s.
Proof.
  intros [Hcached Hstored] Hinfo. specialize (Hcached info Hinfo).
  assert (∀ stored id, AppDbEntry.GetAllAppDbPacketReplicationTableEntries (p4rt_app_db s) = Ok stored →
    same_group (stored_group_at stored id) (cached_group_at info s id) ↔ equal_group (stored_group_at stored id) (cached_group_at info s id)) as Hiff.
  { intros stored id Hget. apply plain_same_group; intros g Hg; [by eapply Hstored|by eapply Hcached]. }
  split; intros [Ht Hk Htables (stored & Hget & Hall)]; split; try done; exists stored; (split; [done|]); intros id; by apply Hiff.
Qed.

Lemma cache_loop info t pr l ir n : fold_result (cache_step info t pr) l ([], 0%nat) = Ok (ir, n) →
  ir = omap (cached_entity info t pr) l ∧
  (n = 0%nat ↔ ∀ e, e ∈ l → of_type pr e = true → ∃ ir, TranslatePiEntityForOrchAgent info t false e = Ok ir).
Proof.
  set (P := λ (l : list Entity) (s : list IrEntity * nat), s.1 = omap (cached_entity info t pr) l ∧
    (s.2 = 0%nat ↔ ∀ e, e ∈ l → of_type pr e = true → ∃ ir, TranslatePiEntityForOrchAgent info t false e = Ok ir)).
  apply (fold_result_ind (cache_step info t pr) P l ([], 0%nat) (ir, n)).
  { split; [done|]. split; [by intros _ e ?%elem_of_nil|done]. }
  clear l. intros l e s1 s2 [Hl Hn] Hstep. unfold P. rewrite omap_app. cbn [omap list_omap].
  setoid_rewrite elem_of_app. setoid_rewrite list_elem_of_singleton. unfold cache_step in Hstep. unfold cached_entity at 2.
  destruct (of_type pr e) eqn:Ht; cbn [negb] in Hstep.
  - destruct (TranslatePiEntityForOrchAgent info t false e) as [ir'|c|] eqn:He; [|injection Hstep as <-|done].
    + assert (s2 = (if bool_decide (GetAppDbTableType ir' = P4RT) then (s1.1 ++ [ir'], s1.2) else s1)) as -> by (by case_bool_decide; injection Hstep).
      split; [case_bool_decide; cbn; by rewrite ?app_nil_r, Hl|].
      assert ((if bool_decide (GetAppDbTableType ir' = P4RT) then (s1.1 ++ [ir'], s1.2) else s1).2 = s1.2) as -> by by case_bool_decide.
      rewrite Hn. split; [|by eauto]. intros Hall e' [Hin| ->] Ht'; [by apply Hall|by eexists].
    + cbn. rewrite app_nil_r. split; [done|]. split; [done|]. intros Hall. destruct (Hall e) as [? ?]; [by right|done|congruence].
  - injection Hstep as <-. rewrite app_nil_r. split; [done|]. rewrite Hn. split; [|by eauto].
    intros Hall e' [Hin| ->] Ht'; [by apply Hall|congruence].
Qed.

Lemma from_cache_exact cache info t pr l fs : GetIrEntitiesFromCache cache info t pr = Ok (l, fs) →
  l = cached_entities info t pr cache ∧ (fs = [] ↔ translates info t pr cache).
Proof.
  intros ([ir n] & Hloop%cache_loop & [= <- <-])%bind_Ok_iff. destruct Hloop as [-> Hn]. split; [done|].
  transitivity (n = 0%nat); [by destruct n|]. rewrite Hn. unfold translates. split; intros Hall.
  - intros k e Hk. apply Hall, list_elem_of_fmap. exists (k, e). split; [done|]. by apply elem_of_map_to_list.
  - intros e ([k e'] & -> & Hin%elem_of_map_to_list)%list_elem_of_fmap. by eapply Hall.
Qed.

Lemma replication_exact app_db l fs : VerifyPacketReplicationWithCacheEntities app_db l = Ok fs →
  fs = [] ↔ ∃ stored, AppDbEntry.GetAllAppDbPacketReplicationTableEntries app_db = Ok stored ∧
    ∀ id, same_group (group_at (map IrPacketReplicationEngine stored) id) (group_at l id).
Proof.
  intros (stored & Hstored & [= <-])%bind_Ok_iff.
  destruct (AppDbEntry.GetAllAppDbPacketReplicationTableEntries app_db) as [stored'|c|]; try done. injection Hstored as ->.
  rewrite compare_groups_exact. naive_solver.
Qed.

(** What the state verification reports, replicas compared as the code does. *)
Lemma verify_state_spec (s : Switch) (failures : list Failure) : VerifyState s = Ok failures →
  ∃ info, ir_p4info_ (server s) = Some info ∧ (failures = [] ↔ consistent_by same_group info s).
Proof.
  unfold VerifyState. destruct (ir_p4info_ (server s)) as [info|]; [|done]. cbn zeta.
  intros ([l fs] & Hcache & Hrest)%bind_Ok_iff. apply bind_Ok_iff in Hrest as (fs1 & Hp4rt & Hrest).
  apply bind_Ok_iff in Hrest as ([l' fs'] & Hcache' & Hrest). apply bind_Ok_iff in Hrest as (fs2 & Hgroups & [= <-]).
  exists info. split; [done|]. apply from_cache_exact in Hcache as [-> Hcache], Hcache' as [-> Hcache'].
  apply verify_p4rt_exact in Hp4rt. apply replication_exact in Hgroups. unfold verify_table_states.
  rewrite !app_nil, !verify_states_exact, Hcache, Hcache', Hp4rt, Hgroups. split.
  - intros (? & ? & ? & ? & ? & ? & ? & ? & ?). split; [by intros []|done| |done].
    intros t k. rewrite !elem_of_cons, elem_of_nil. naive_solver.
  - intros [Ht Hk Htables Hg]. split_and!; try apply Ht; try done; intros k; apply Htables; rewrite !elem_of_cons; tauto.
Qed.

(** C17.  The state verification, when it ends, reports nothing exactly when the switch is consistent: every cached
    entity translates; the rows of the P4RT table are those of the cached table entries, with the same fields and
    values and none missing on either side; the five other tables of the application database agree with their state
    tables; and the multicast groups read back from the database are, by identifier, those of the cache, with the same
    metadata and the same replicas in any order.  This is for groups without backup replicas and without duplicate
    replicas: the code compares neither backups nor multiplicities, which is a finding.  Without a program the
    verification does not end. *)
Theorem verify_state_exact (s : Switch) (failures : list Failure) : plain_replication s → VerifyState s = Ok failures →
  ∃ info, ir_p4info_ (server s) = Some info ∧ (failures = [] ↔ consistent info s).
Proof.
  intros Hplain (info & Hinfo & Hiff)%verify_state_spec. exists info. split; [done|]. by rewrite Hiff, plain_consistent.
Qed.
End verify_state_exact.

(** * Examples *)

#[local] Instance example_verification_libraries : SwitchLibraries () := plain_libraries.
#[local] Instance example_verification_acl : AclLibraries | 10 := ref_entry_acl.

Definition verified_group : Entity := kPacketReplicationEngineEntry (kMulticastGroupEntry 1 [mkReplica (kPort $"Ethernet0") 0 []] []).
Definition verified_cache : EntityMap :=
  ok_or (fold_result (λ m e, key ← MakeEntityKey e; Ok (<[key := e]> m)) [IrCorrect.example_route; verified_group] ∅) ∅.
Definition route_row : str * FieldValues :=
  ok_or (te ← PiTableEntryToIr (λ _, true) routing_info (entity_table_entry IrCorrect.example_route) (pdpi_options false);
         update ← CreateAppDbP4rtUpdate INSERT te routing_info; Ok (kfvKey update, kfvFieldsValues update)) ([], []).
Definition group_row : str * FieldValues :=
  ok_or (update ← CreateAppDbPacketReplicationTableUpdate INSERT (Ir.kMulticastGroupEntry (Ir.mkMulticast 1 [Ir.mkReplica $"Ethernet0" 0 []] []));
         Ok (kfvKey update, kfvFieldsValues update)) ([], []).
(** A switch with a route and a multicast group, whose application database holds [rows]. *)
Definition verified_switch (rows : list (str * FieldValues)) : Switch () () :=
  let t := mkNotifiedTable [] ∅ ∅ [] [] in
  mkSwitch (mkServer SdnController.initial (Some routing_info) tt no_translations verified_cache ∅
      (mkAppDbWorld (mkZmq [] []) t t t) 0 0) None None tt (list_to_map rows) t t ∅ ∅ ∅ ∅.

Lemma verified_info rows info : ir_p4info_ (server (verified_switch rows)) = Some info → routing_info = info.
Proof. unfold verified_switch. cbn [server ir_p4info_]. apply (inj Some). Qed.

Definition plain_groupb (g : Ir.MulticastGroupEntry) : bool :=
  forallb (λ r, (0 <? Ir.replica_instance r + 1) && match Ir.backup_replicas r with [] => true | _ => false end) (Ir.replicas g) &&
  match Ir.replicas g with [] | [_] => true | _ => false end.
Lemma plain_groupb_plain g : plain_groupb g = true → plain_group g.
Proof.
  intros [Hall Hlen]%andb_prop. rewrite forallb_forall in Hall. split.
  - intros r Hr%list_elem_of_In. apply Hall in Hr as [Hr _]%andb_prop. lia.
  - intros r Hr%list_elem_of_In. apply Hall in Hr as [_ Hr]%andb_prop. by destruct (Ir.backup_replicas r).
  - destruct (Ir.replicas g) as [|r [|]]; [constructor|apply NoDup_singleton|done].
Qed.
Lemma plain_groups_of l : forallb (λ e, plain_groupb (entity_group e)) l = true → plain_groups (group_at l).
Proof.
  rewrite forallb_forall. intros Hall id g Hg. apply plain_groupb_plain. unfold group_at in Hg.
  apply last_Some_elem_of, list_elem_of_omap in Hg as (e & He & Hg). case_match; [|done]. injection Hg as <-.
  by apply Hall, list_elem_of_In.
Qed.

Lemma verified_plain rows :
  forallb (λ e, plain_groupb (entity_group e)) (cached_entities routing_info no_translations true verified_cache) = true →
  match AppDbEntry.GetAllAppDbPacketReplicationTableEntries (list_to_map rows) with
  | Ok stored => forallb (λ e, plain_groupb (entity_group e)) (map IrPacketReplicationEngine stored) | _ => false end = true →
  plain_replication (verified_switch rows).
Proof.
  intros Hcached Hstored. split.
  - intros info Hinfo%verified_info. subst info. by apply plain_groups_of.
  - intros stored Hget. unfold verified_switch in Hget. cbn [p4rt_app_db] in Hget. rewrite Hget in Hstored. by apply plain_groups_of.
Qed.

Lemma verify_state_exact_witness :
  VerifyState (verified_switch [route_row; group_row]) = Ok [] ∧ consistent routing_info (verified_switch [route_row; group_row]) ∧
  VerifyState (verified_switch [group_row]) = Ok [MissingKey $"AppDb" (fst route_row)] ∧ ¬ consistent routing_info (verified_switch [group_row]).
Proof.
  assert (VerifyState (verified_switch [route_row; group_row]) = Ok []) as Hgood by (vm_compute; reflexivity).
  assert (VerifyState (verified_switch [group_row]) = Ok [MissingKey $"AppDb" (fst route_row)]) as Hbad by (vm_compute; reflexivity).
  assert (plain_replication (verified_switch [route_row; group_row])) as Hplain by (apply verified_plain; vm_compute; reflexivity).
  assert (plain_replication (verified_switch [group_row])) as Hplain' by (apply verified_plain; vm_compute; reflexivity).
  split; [exact Hgood|]. split; [|split; [exact Hbad|]].
  - destruct (verify_state_exact _ _ Hplain Hgood) as (info & Hinfo & Hiff). rewrite (verified_info _ _ Hinfo). by apply Hiff.
  - destruct (verify_state_exact _ _ Hplain' Hbad) as (info & Hinfo & Hiff). rewrite (verified_info _ _ Hinfo). intros Hc. apply Hiff in Hc. discriminate Hc.
Defined.
