(* ===== verification/References.v ===== *)
(** p4_infra/p4_pdpi: [references.{h,cc}].  A
    table reference says which fields of a source table must have the value of which match fields of
    a destination table.  From an entity the code computes the concrete references it makes, and the
    concrete references it can satisfy; an entity depends on another when the two sets meet.  The
    theorem says that this is so exactly when the values of the fields agree. *)
From S2P Require Import Prelude Bitset ByteString EntityKeys BuiltIns IrUtils IrData TableReferences.

(** * references.h *)

Record ConcreteFieldReference := mkConcreteFieldReference {
  source_field : str;
  destination_field : str;
  value : str;
}.

#[global] Instance ConcreteFieldReference_eq_dec : EqDecision ConcreteFieldReference.
Proof. solve_decision. Defined.
#[global] Instance ConcreteFieldReference_countable : Countable ConcreteFieldReference.
Proof.
  refine (inj_countable' (λ r, (source_field r, destination_field r, value r))
            (λ '(s, d, v), mkConcreteFieldReference s d v) _).
  by intros [].
Defined.

(** [PartialConcreteTableReference], a set. *)
Abbreviation Fields := (gset ConcreteFieldReference).

Record ConcreteTableReference := mkConcreteTableReference {
  source_table_name : str;
  destination_table_name : str;
  fields : Fields;
}.

#[global] Instance ConcreteTableReference_eq_dec : EqDecision ConcreteTableReference.
Proof. solve_decision. Defined.
#[global] Instance ConcreteTableReference_countable : Countable ConcreteTableReference.
Proof.
  refine (inj_countable' (λ r, (source_table_name r, destination_table_name r, fields r))
            (λ '(s, d, f), mkConcreteTableReference s d f) _).
  by intros [].
Defined.

(** * references.cc *)

Section references.
Context `{Gutil}.

(** The name of the member of [field_match_type] that is set. *)
Definition field_match_type_name (m : field_match_type) : option str :=
  match m with
  | kExact _ => Some $"exact" | kTernary _ _ => Some $"ternary" | kLpm _ _ => Some $"lpm"
  | kRange _ _ => Some $"range" | kOptional _ => Some $"optional" | kOtherMatch _ => Some $"other"
  | FIELD_MATCH_TYPE_NOT_SET => None
  end.

(** The name of the member of an entity's [oneof]: an entity that is neither a table entry nor a
    packet replication entry and is empty has none. *)
Definition entity_oneof_name (e : Entity) : option str :=
  match e with
  | kTableEntry _ => Some $"table_entry"
  | kPacketReplicationEngineEntry _ => Some $"packet_replication_engine_entry"
  | kOtherEntity [] => None
  | kOtherEntity payload => Some payload
  end.

(** The loop over the match fields of the entry, up to the first one with the id. *)
Fixpoint GetP4MatchFieldValue_loop (f : IrP4MatchField) (match_fields : list FieldMatch)
  : result (option str) :=
  match match_fields with
  | [] => if FieldIsOptional_p4 f then Ok None else Err kInvalidArgument
  | m :: match_fields =>
    if field_id m =? p4_field_id f then
      match field_match m with
      | kExact v => Ok (Some v)
      | kOptional v => Ok (Some v)
      | t => _ ← GetOneOfFieldName (field_match_type_name t); Err kUnimplemented
      end
    else GetP4MatchFieldValue_loop f match_fields
  end.

Definition GetP4MatchFieldValue (f : IrP4MatchField) (entry : TableEntry) : result (option str) :=
  GetP4MatchFieldValue_loop f (match_ entry).

Definition kMulticastGroupIdWidth : Z := 16.
Definition kMulticastReplicaInstanceWidth : Z := 16.

(** The 32-bit id is converted to a bit set of 16 bits. *)
Definition GetBuiltInMatchFieldValue (f : IrBuiltInMatchField) (multicast_group_id : Z) : result str :=
  match f with
  | BUILT_IN_MATCH_FIELD_MULTICAST_GROUP_ID =>
    Ok (BitsetToP4RuntimeByteString kMulticastGroupIdWidth (bs_of kMulticastGroupIdWidth multicast_group_id))
  | BUILT_IN_MATCH_FIELD_UNSPECIFIED => Err kInternal
  end.

Definition GetMatchFieldValue (f : IrMatchField) (entity : Entity) : result (option str) :=
  match f with
  | P4MatchField f =>
    match entity with
    | kTableEntry entry => GetP4MatchFieldValue f entry
    | _ => Err kInvalidArgument
    end
  | BuiltInMatchField f =>
    match entity with
    | kPacketReplicationEngineEntry (kMulticastGroupEntry id _ _) =>
      v ← GetBuiltInMatchFieldValue f id; Ok (Some v)
    | _ => Err kInvalidArgument
    end
  | MATCH_FIELD_NOT_SET => Err kInvalidArgument
  end.

Definition GetP4ActionFieldValue (f : IrP4ActionField) (a : Action) : result str :=
  match find (λ p, fst p =? parameter_id f) (params a) with
  | Some (_, v) => Ok v
  | None => Err kInvalidArgument
  end.

(** [port] and [instance] of a replica or a backup replica. *)
Definition GetBuiltInActionFieldValue (f : IrBuiltInActionField) (port_ : str) (instance_ : Z)
  : result str :=
  match built_in_parameter f with
  | BUILT_IN_PARAMETER_REPLICA_PORT => Ok port_
  | BUILT_IN_PARAMETER_REPLICA_INSTANCE =>
    Ok (BitsetToP4RuntimeByteString kMulticastReplicaInstanceWidth
          (bs_of kMulticastReplicaInstanceWidth instance_))
  | BUILT_IN_PARAMETER_UNSPECIFIED => Err kInvalidArgument
  end.

Inductive FieldReferenceType := kMatchFieldToMatchField | kActionParamToMatchField.

Definition GetReferenceType (source destination : IrField) : result FieldReferenceType :=
  match source, destination with
  | MatchField _, MatchField _ => Ok kMatchFieldToMatchField
  | ActionField _, MatchField _ => Ok kActionParamToMatchField
  | _, _ => Err kUnimplemented
  end.

Definition ValidateEntityBelongsToTable (entity : Entity) (table : IrTable) : result () :=
  match entity with
  | kTableEntry entry =>
    match table with
    | P4Table _ id => if negb (table_id entry =? id) then Err kInvalidArgument else Ok tt
    | _ => Err kInvalidArgument
    end
  | kPacketReplicationEngineEntry (kMulticastGroupEntry _ _ _) =>
    match table with
    | BuiltInTable BUILT_IN_TABLE_MULTICAST_GROUP_TABLE => Ok tt
    | _ => Err kInvalidArgument
    end
  | kPacketReplicationEngineEntry _ => Err kUnimplemented
  | _ => _ ← GetOneOfFieldName (entity_oneof_name entity); Err kUnimplemented
  end.

(** The two functions differ in where the value of a parameter is found. *)
Definition GetPartialReference (get_value : FieldReference → result str)
  (references : list FieldReference) : result Fields :=
  fold_result (λ partial reference,
    source_name ← GetNameOfField (source reference);
    destination_name ← GetNameOfField (destination reference);
    param_value ← get_value reference;
    Ok ({[ mkConcreteFieldReference source_name destination_name param_value ]} ∪ partial))
    references ∅.

Definition GetPartialReferenceFromAction (references : list FieldReference) (a : Action)
  : result Fields :=
  GetPartialReference (λ r, GetP4ActionFieldValue (p4_action_field (action_field (source r))) a) references.

Definition GetPartialReferenceFromReplica (references : list FieldReference) (replica : str * Z)
  : result Fields :=
  GetPartialReference (λ r, GetBuiltInActionFieldValue
    (built_in_action_field (action_field (source r))) (fst replica) (snd replica)) references.

Definition ConcreteFieldReferenceFromDestinationMatchField (reference : FieldReference)
  (entity : Entity) : result ConcreteFieldReference :=
  match_field_value ← GetMatchFieldValue (match_field (destination reference)) entity;
  match match_field_value with
  | None => Err kInternal
  | Some v =>
    source_name ← GetNameOfField (source reference);
    destination_name ← GetNameOfField (destination reference);
    Ok (mkConcreteFieldReference source_name destination_name v)
  end.

(** ** Outgoing references *)

(** Step 1: the references of match fields, of actions by id, and of the built-in action. *)
Record OutgoingGroups := mkOutgoingGroups {
  match_field_references : list FieldReference;
  action_references_by_id : gmap Z (list FieldReference);
  replica_references : list FieldReference;
}.

Definition is_p4_action_field (f : IrActionField) : bool :=
  match f with P4ActionField _ => true | _ => false end.

Definition group_outgoing (groups : OutgoingGroups) (reference : FieldReference)
  : result OutgoingGroups :=
  if FieldIsOptional (destination reference) then Err kUnimplemented else
  reference_type ← GetReferenceType (source reference) (destination reference);
  match reference_type with
  | kMatchFieldToMatchField =>
    Ok (mkOutgoingGroups (match_field_references groups ++ [reference])
          (action_references_by_id groups) (replica_references groups))
  | kActionParamToMatchField =>
    let f := action_field (source reference) in
    if is_p4_action_field f then
      let id := p4_action_id (p4_action_field f) in
      let group := default [] (action_references_by_id groups !! id) in
      Ok (mkOutgoingGroups (match_field_references groups)
            (<[id := group ++ [reference]]> (action_references_by_id groups))
            (replica_references groups))
    else
      Ok (mkOutgoingGroups (match_field_references groups) (action_references_by_id groups)
            (replica_references groups ++ [reference]))
  end.

(** The replicas of a multicast group, each followed by its backups. *)
Definition all_replicas (replicas : list Replica) : list (str * Z) :=
  List.concat (map (λ r, (port r, instance r) ::
    map (λ b, (backup_port b, backup_instance b)) (backup_replicas r)) replicas).

Definition add_partial (f : Action → result Fields) (partials : list Fields) (a : Action)
  : result (list Fields) := p ← f a; Ok (partials ++ [p]).

(** Step 2: one partial reference for each action. *)
Definition action_partial_references (groups : OutgoingGroups) (entity : Entity)
  : result (list Fields) :=
  let from_action a :=
    GetPartialReferenceFromAction (default [] (action_references_by_id groups !! action_id a)) a in
  match entity with
  | kTableEntry entry =>
    match action entry with
    | kAction a => fold_result (add_partial from_action) [a] []
    | kActionProfileActionSet actions =>
      fold_result (add_partial from_action) (map set_action actions) []
    | _ => Err kInvalidArgument
    end
  | kPacketReplicationEngineEntry e =>
    let replicas := match e with kMulticastGroupEntry _ replicas _ => replicas | _ => [] end in
    fold_result (λ partials replica,
      p ← GetPartialReferenceFromReplica (replica_references groups) replica; Ok (partials ++ [p]))
      (all_replicas replicas) []
  | kOtherEntity _ => Err kInvalidArgument
  end.

(** Step 3: the partial reference of the match fields that are present. *)
Definition match_field_partial_reference (references : list FieldReference) (entity : Entity)
  : result Fields :=
  fold_result (λ partial reference,
    source_name ← GetNameOfField (source reference);
    destination_name ← GetNameOfField (destination reference);
    match_field_value ← GetMatchFieldValue (match_field (source reference)) entity;
    match match_field_value with
    | None => Ok partial
    | Some v => Ok ({[ mkConcreteFieldReference source_name destination_name v ]} ∪ partial)
    end) references ∅.

Definition OutgoingConcreteTableReferences (reference_info : IrTableReference) (entity : Entity)
  : result (gset ConcreteTableReference) :=
  _ ← ValidateEntityBelongsToTable entity (source_table reference_info);
  groups ← fold_result group_outgoing (field_references reference_info) (mkOutgoingGroups [] ∅ []);
  action_partials ← action_partial_references groups entity;
  match_partial ← match_field_partial_reference (match_field_references groups) entity;
  source_name ← GetNameOfTable (source_table reference_info);
  destination_name ← GetNameOfTable (destination_table reference_info);
  if bool_decide (action_partials = []) && negb (bool_decide (match_partial = ∅)) then
    Ok {[ mkConcreteTableReference source_name destination_name match_partial ]}
  else
    Ok (list_to_set (map (mkConcreteTableReference source_name destination_name)
          (filter (λ f, f ≠ ∅) (map (λ f, f ∪ match_partial) action_partials)))).

(** ** Incoming references *)

Record IncomingGroups := mkIncomingGroups {
  incoming_match_field_references : list FieldReference;
  action_references_by_name : gmap str (list FieldReference);
}.

Definition group_incoming (groups : IncomingGroups) (reference : FieldReference)
  : result IncomingGroups :=
  if FieldIsOptional (destination reference) then Err kUnimplemented else
  reference_type ← GetReferenceType (source reference) (destination reference);
  match reference_type with
  | kMatchFieldToMatchField =>
    Ok (mkIncomingGroups (incoming_match_field_references groups ++ [reference])
          (action_references_by_name groups))
  | kActionParamToMatchField =>
    action_name ← GetNameOfAction (action_field (source reference));
    let group := default [] (action_references_by_name groups !! action_name) in
    Ok (mkIncomingGroups (incoming_match_field_references groups)
          (<[action_name := group ++ [reference]]> (action_references_by_name groups)))
  end.

(** The partial reference that a list of references makes to an entity. *)
Definition destination_partial (entity : Entity) (references : list FieldReference) : result Fields :=
  fold_result (λ partial reference,
    r ← ConcreteFieldReferenceFromDestinationMatchField reference entity;
    Ok ({[ r ]} ∪ partial)) references ∅.

(** Step 4: every combination of the references from optional match fields. *)
Definition add_optional (entity : Entity) (partials : list Fields) (reference : FieldReference)
  : result (list Fields) :=
  r ← ConcreteFieldReferenceFromDestinationMatchField reference entity;
  Ok (partials ++ map (λ f, {[ r ]} ∪ f) partials).

Definition PossibleIncomingConcreteTableReferences (reference_info : IrTableReference)
  (entity : Entity) : result (gset ConcreteTableReference) :=
  _ ← ValidateEntityBelongsToTable entity (destination_table reference_info);
  groups ← fold_result group_incoming (field_references reference_info) (mkIncomingGroups [] ∅);
  action_partials ← fold_result (λ partials references,
    p ← destination_partial entity references; Ok (partials ++ [p]))
    (map snd (map_to_list (action_references_by_name groups))) [];
  let match_references := incoming_match_field_references groups in
  exact_partial ← destination_partial entity
    (List.filter (λ r, negb (FieldIsOptional (source r))) match_references);
  match_partials ← fold_result (add_optional entity)
    (List.filter (λ r, FieldIsOptional (source r)) match_references) [exact_partial];
  source_name ← GetNameOfTable (source_table reference_info);
  destination_name ← GetNameOfTable (destination_table reference_info);
  let without_action := match_partials in
  let with_action := List.concat (map (λ m, map (λ a, a ∪ m) action_partials) match_partials) in
  Ok (list_to_set (map (mkConcreteTableReference source_name destination_name)
        (filter (λ f, f ≠ ∅) (without_action ++ with_action)))).

(** ** References of a set of entities *)

Definition GetTableReferences (of_table : IrTableDefinition → list IrTableReference)
  (of_built_in : IrBuiltInTableDefinition → list IrTableReference) (info : IrP4Info) (entity : Entity)
  : result (list IrTableReference) :=
  match entity with
  | kTableEntry entry =>
    table_def ← FindOrStatus (tables_by_id info !! table_id entry); Ok (of_table table_def)
  | kPacketReplicationEngineEntry (kMulticastGroupEntry _ _ _) =>
    multicast_table ← IrBuiltInTableToString BUILT_IN_TABLE_MULTICAST_GROUP_TABLE;
    table_def ← FindOrStatus (built_in_tables info !! multicast_table); Ok (of_built_in table_def)
  | _ => Err kInvalidArgument
  end.

Definition GetIncomingTableReferences : IrP4Info → Entity → result (list IrTableReference) :=
  GetTableReferences incoming_references built_in_incoming.
Definition GetOutgoingTableReferences : IrP4Info → Entity → result (list IrTableReference) :=
  GetTableReferences outgoing_references built_in_outgoing.

(** The concrete references of one entity, for a list of table references. *)
Definition concrete_references
  (of_info : IrTableReference → Entity → result (gset ConcreteTableReference))
  (entity : Entity) (infos : list IrTableReference) : result (gset ConcreteTableReference) :=
  fold_result (λ refs info, r ← of_info info entity; Ok (refs ∪ r)) infos ∅.

Record EntityWithUnsatisfiedReferences := mkUnsatisfied {
  unsatisfied_entity : Entity;
  unsatisfied_references : list ConcreteTableReference;
}.

(** The first loop: everything the entities satisfy. *)
Definition add_satisfiable (info : IrP4Info) (satisfiable : gset ConcreteTableReference)
  (entity : Entity) : result (gset ConcreteTableReference) :=
  incoming ← GetIncomingTableReferences info entity;
  refs ← concrete_references PossibleIncomingConcreteTableReferences entity incoming;
  Ok (satisfiable ∪ refs).

(** The second loop; the order of the references is that of a hash set. *)
Definition add_unsatisfied (info : IrP4Info) (satisfiable : gset ConcreteTableReference)
  (out : list EntityWithUnsatisfiedReferences) (entity : Entity)
  : result (list EntityWithUnsatisfiedReferences) :=
  outgoing ← GetOutgoingTableReferences info entity;
  unsatisfied ← fold_result (λ unsatisfied reference,
    refs ← OutgoingConcreteTableReferences reference entity;
    Ok (unsatisfied ++ filter (λ r, r ∉ satisfiable) (elements refs))) outgoing [];
  if bool_decide (unsatisfied = []) then Ok out
  else Ok (out ++ [mkUnsatisfied entity unsatisfied]).

Definition UnsatisfiedOutgoingReferences (pi_entities : list Entity) (info : IrP4Info)
  : result (list EntityWithUnsatisfiedReferences) :=
  satisfiable ← fold_result (add_satisfiable info) pi_entities ∅;
  fold_result (add_unsatisfied info satisfiable) pi_entities [].
End references.

(** * Loops that collect concrete references *)

Section lemmas.
Context `{Gutil}.

Lemma fold_set_spec {A} (h : A → result (option ConcreteFieldReference)) f l (s0 s : Fields) :
  (∀ s r, f s r = (o ← h r; Ok (match o with Some c => {[ c ]} ∪ s | None => s end))) →
  fold_result f l s0 = Ok s →
  (∀ r, r ∈ l → ∃ o, h r = Ok o) ∧
  (∀ c, c ∈ s ↔ c ∈ s0 ∨ ∃ r, r ∈ l ∧ h r = Ok (Some c)).
Proof.
  intros Hf. revert s0. induction l as [|x l IH]; intros s0; cbn [fold_result].
  - intros [= <-]. split; [by intros r ?%elem_of_nil|]. intros c. set_solver.
  - rewrite Hf. intros (s1 & (o & Ho & [= <-])%bind_Ok_iff & Hl)%bind_Ok_iff.
    destruct (IH _ Hl) as [Hall Hs]. split.
    + intros r [->|Hr]%elem_of_cons; eauto.
    + intros c. rewrite Hs. split.
      * intros [Hc|(r & Hr & Hc)]; [|right; exists r; rewrite elem_of_cons; auto].
        destruct o as [c'|]; [|auto]. apply elem_of_union in Hc as [->%elem_of_singleton|]; [|auto].
        right. exists x. rewrite elem_of_cons. auto.
      * intros [Hc|(r & [->|Hr]%elem_of_cons & Hc)].
        -- left. destruct o; set_solver.
        -- rewrite Ho in Hc. injection Hc as ->. left. set_solver.
        -- right. eauto.
Qed.

(** A field reference with a value. *)
Definition named (reference : FieldReference) (v : str) : result ConcreteFieldReference :=
  source_name ← GetNameOfField (source reference);
  destination_name ← GetNameOfField (destination reference);
  Ok (mkConcreteFieldReference source_name destination_name v).

Lemma named_value reference v c :
  named reference v = Ok c → value c = v ∧ GetNameOfField (destination reference) = Ok (destination_field c).
Proof. unfold named. intros Hn. simplify_result. auto. Qed.

Lemma GetPartialReference_spec get_value references p :
  GetPartialReference get_value references = Ok p →
  (∀ r, r ∈ references → ∃ v c, get_value r = Ok v ∧ named r v = Ok c) ∧
  (∀ c, c ∈ p ↔ ∃ r v, r ∈ references ∧ get_value r = Ok v ∧ named r v = Ok c).
Proof.
  intros Hp. apply (fold_set_spec (λ r, sn ← GetNameOfField (source r);
    dn ← GetNameOfField (destination r); v ← get_value r;
    Ok (Some (mkConcreteFieldReference sn dn v)))) in Hp as [Hall Hp].
  - split.
    + intros r Hr. destruct (Hall r Hr) as [o Ho]. simplify_result.
      eexists _, _. split; [done|]. unfold named. by compute_result.
    + intros c. rewrite Hp.
      split; [intros [?%elem_of_empty|(r & Hr & Ho)]; [done|]|intros (r & v & Hr & Hv & Hn); right].
      * simplify_result. eexists r, _. split; [done|]. split; [done|]. unfold named.
        by compute_result.
      * exists r. split; [done|]. unfold named in Hn. simplify_result. by compute_result.
  - intros s r. destruct (GetNameOfField (source r)), (GetNameOfField (destination r)), (get_value r); done.
Qed.

(** The value of the destination field in an entity, and the reference made with it. *)
Definition destination_value (reference : FieldReference) (d : Entity) : result (option str) :=
  GetMatchFieldValue (match_field (destination reference)) d.

Lemma destination_reference_spec r d c :
  ConcreteFieldReferenceFromDestinationMatchField r d = Ok c ↔
  ∃ v, destination_value r d = Ok (Some v) ∧ named r v = Ok c.
Proof.
  unfold ConcreteFieldReferenceFromDestinationMatchField, named, destination_value. split.
  - intros (o & Ho & Hc)%bind_Ok_iff. destruct o as [v|]; [|done]. eauto.
  - intros (v & Hv & Hn). by compute_result.
Qed.

Lemma destination_partial_spec d references p :
  destination_partial d references = Ok p →
  (∀ r, r ∈ references → ∃ v c, destination_value r d = Ok (Some v) ∧ named r v = Ok c) ∧
  (∀ c, c ∈ p ↔ ∃ r v, r ∈ references ∧ destination_value r d = Ok (Some v) ∧ named r v = Ok c).
Proof.
  intros Hp. apply (fold_set_spec (λ r, c ← ConcreteFieldReferenceFromDestinationMatchField r d;
    Ok (Some c))) in Hp as [Hall Hp].
  - split.
    + intros r Hr. destruct (Hall r Hr) as [o Ho]. simplify_result.
      apply destination_reference_spec in H0 as (v & Hv & Hn). eauto.
    + intros c. rewrite Hp. split; [intros [?%elem_of_empty|(r & Hr & Ho)]; [done|]|].
      * simplify_result. apply destination_reference_spec in H0 as (v & Hv & Hn). eauto.
      * intros (r & v & Hr & Hv & Hn). right. exists r. split; [done|].
        assert (ConcreteFieldReferenceFromDestinationMatchField r d = Ok c) as ->; [|done].
        apply destination_reference_spec. eauto.
  - intros s r. by destruct (ConcreteFieldReferenceFromDestinationMatchField r d).
Qed.

(** Step 4 reaches every combination of the optional references: for every choice [P] there is a
    set with exactly the chosen ones. *)
Lemma add_optional_spec d opts p0 ps :
  fold_result (add_optional d) opts [p0] = Ok ps →
  (∀ r, r ∈ opts → ∃ v c, destination_value r d = Ok (Some v) ∧ named r v = Ok c) ∧
  (∀ f, f ∈ ps → ∃ L, L ⊆ opts ∧ ∀ c, c ∈ f ↔ c ∈ p0 ∨
     ∃ r v, r ∈ L ∧ destination_value r d = Ok (Some v) ∧ named r v = Ok c) ∧
  (∀ P : FieldReference → bool, ∃ f, f ∈ ps ∧ ∀ c, c ∈ f ↔ c ∈ p0 ∨
     ∃ r v, (r ∈ opts ∧ P r = true) ∧ destination_value r d = Ok (Some v) ∧ named r v = Ok c).
Proof.
  apply (fold_result_ind (add_optional d) (λ opts ps,
    (∀ r, r ∈ opts → ∃ v c, destination_value r d = Ok (Some v) ∧ named r v = Ok c) ∧
    (∀ f, f ∈ ps → ∃ L, L ⊆ opts ∧ ∀ c, c ∈ f ↔ c ∈ p0 ∨
       ∃ r v, r ∈ L ∧ destination_value r d = Ok (Some v) ∧ named r v = Ok c) ∧
    (∀ P : FieldReference → bool, ∃ f, f ∈ ps ∧ ∀ c, c ∈ f ↔ c ∈ p0 ∨
       ∃ r v, (r ∈ opts ∧ P r = true) ∧ destination_value r d = Ok (Some v) ∧ named r v = Ok c))).
  - split; [|split].
    + by intros r ?%elem_of_nil.
    + intros f ->%list_elem_of_singleton. exists []. split; [done|]. intros c. set_solver.
    + intros P. exists p0. split; [by apply list_elem_of_singleton|]. intros c. set_solver.
  - intros done x s1 s2 (Hall & Hin & Hex) Hx. unfold add_optional in Hx.
    apply bind_Ok_iff in Hx as (c0 & Hc0 & [= <-]).
    apply destination_reference_spec in Hc0 as (v0 & Hv0 & Hn0).
    split; [|split].
    + intros r [Hr| ->%list_elem_of_singleton]%elem_of_app; eauto.
    + intros f [Hf|Hf]%elem_of_app.
      * destruct (Hin f Hf) as (L & HL & Hc). exists L. set_solver.
      * apply list_elem_of_fmap in Hf as (f' & -> & Hf').
        destruct (Hin f' Hf') as (L & HL & Hc). exists (x :: L). split; [set_solver|].
        intros c. rewrite elem_of_union, elem_of_singleton, Hc. split.
        -- intros [->|[?|(r & v & ? & ?)]]; [right; exists x, v0; set_solver|auto|].
           right. exists r, v. set_solver.
        -- intros [?|(r & v & [->|?]%elem_of_cons & Hv & Hn)]; [auto| |].
           ++ left. rewrite Hv0 in Hv. injection Hv as <-. congruence.
           ++ right. right. eauto.
    + intros P. destruct (Hex P) as (f & Hf & Hc). destruct (P x) eqn:HPx.
      * exists ({[ c0 ]} ∪ f). split.
        { apply elem_of_app. right. by apply list_elem_of_fmap_2. }
        intros c. rewrite elem_of_union, elem_of_singleton, Hc. split.
        -- intros [->|[?|(r & v & ? & ?)]]; [right; exists x, v0; set_solver|auto|].
           right. exists r, v. set_solver.
        -- intros [?|(r & v & [[?| ->%list_elem_of_singleton]%elem_of_app HP] & Hv & Hn)]; [auto| |].
           ++ right. right. eauto 10.
           ++ left. rewrite Hv0 in Hv. injection Hv as <-. congruence.
      * exists f. split; [apply elem_of_app; auto|]. intros c. rewrite Hc. split.
        -- intros [?|(r & v & [? ?] & ?)]; [auto|]. right. exists r, v. set_solver.
        -- intros [?|(r & v & [[?| ->%list_elem_of_singleton]%elem_of_app HP] & Hv & Hn)]; [auto| |congruence].
           right. eauto 10.
Qed.

(** ** Step 1: the groups are filters of the list of references *)

Definition is_match_reference (r : FieldReference) : bool :=
  match source r with MatchField _ => true | _ => false end.
Definition is_action_reference (id : Z) (r : FieldReference) : bool :=
  match source r with ActionField (P4ActionField f) => p4_action_id f =? id | _ => false end.
Definition is_replica_reference (r : FieldReference) : bool :=
  match source r with ActionField f => negb (is_p4_action_field f) | _ => false end.
Definition is_named_action_reference (name : str) (r : FieldReference) : bool :=
  match source r with
  | ActionField f => bool_decide (GetNameOfAction f = Ok name)
  | _ => false
  end.

Lemma group_outgoing_spec l g :
  fold_result group_outgoing l (mkOutgoingGroups [] ∅ []) = Ok g →
  match_field_references g = List.filter is_match_reference l ∧
  (∀ id, default [] (action_references_by_id g !! id) = List.filter (is_action_reference id) l) ∧
  replica_references g = List.filter is_replica_reference l.
Proof.
  apply (fold_result_ind group_outgoing (λ l g,
    match_field_references g = List.filter is_match_reference l ∧
    (∀ id, default [] (action_references_by_id g !! id) = List.filter (is_action_reference id) l) ∧
    replica_references g = List.filter is_replica_reference l)).
  - cbn [action_references_by_id]. split; [done|]. split; [intros id; by rewrite lookup_empty|done].
  - intros done r g1 g2 (Hm & Ha & Hr). unfold group_outgoing.
    rewrite !List.filter_app. setoid_rewrite List.filter_app. cbn [List.filter].
    destruct (FieldIsOptional (destination r)); [discriminate|].
    unfold is_match_reference at 2, is_action_reference at 2, is_replica_reference at 2.
    destruct (source r) as [f|[f|f|]|], (destination r); try discriminate;
      intros [= <-]; cbn [match_field_references action_references_by_id replica_references];
      rewrite ?app_nil_r, ?Hm, ?Hr; repeat split; try done;
      intros id; rewrite ?app_nil_r; auto.
    cbn [action_field p4_action_field]. destruct (Z.eqb_spec (p4_action_id f) id) as [<-|Hne].
    + by rewrite lookup_insert_eq, <-Ha.
    + rewrite lookup_insert_ne by done. by rewrite app_nil_r.
Qed.

Lemma group_incoming_spec l g :
  fold_result group_incoming l (mkIncomingGroups [] ∅) = Ok g →
  incoming_match_field_references g = List.filter is_match_reference l ∧
  (∀ n, default [] (action_references_by_name g !! n) = List.filter (is_named_action_reference n) l) ∧
  (∀ n, action_references_by_name g !! n ≠ Some []) ∧
  (∀ r f, r ∈ l → source r = ActionField f → ∃ n, GetNameOfAction f = Ok n).
Proof.
  apply (fold_result_ind group_incoming (λ l g,
    incoming_match_field_references g = List.filter is_match_reference l ∧
    (∀ n, default [] (action_references_by_name g !! n) = List.filter (is_named_action_reference n) l) ∧
    (∀ n, action_references_by_name g !! n ≠ Some []) ∧
    (∀ r f, r ∈ l → source r = ActionField f → ∃ n, GetNameOfAction f = Ok n))).
  - cbn [action_references_by_name]. split; [done|]. split; [intros n; by rewrite lookup_empty|]. split; [intros n; by rewrite lookup_empty|].
    by intros r f ?%elem_of_nil.
  - intros done r g1 g2 (Hm & Ha & Hn & Hall). unfold group_incoming.
    rewrite !List.filter_app. setoid_rewrite List.filter_app. cbn [List.filter].
    destruct (FieldIsOptional (destination r)); [discriminate|].
    unfold is_match_reference at 2, is_named_action_reference at 2.
    assert (∀ r' f', r' ∈ done ++ [r] → source r' = ActionField f' →
      r' ∈ done ∨ source r = ActionField f') as Hlast.
    { intros r' f' [?| ->%list_elem_of_singleton]%elem_of_app; auto. }
    destruct (source r) as [f|f|] eqn:Hs, (destination r); try discriminate.
    + intros [= <-]. cbn [incoming_match_field_references action_references_by_name].
      rewrite Hm. split; [done|]. split; [intros n; by rewrite app_nil_r|]. split; [done|].
      intros r' f' Hr' Hf'. destruct (Hlast r' f' Hr' Hf') as [?|?]; [eauto|done].
    + cbn [GetReferenceType action_field]. rewrite bind_Ok_l. intros (n & Hname & [= <-])%bind_Ok_iff.
      cbn [incoming_match_field_references action_references_by_name action_field] in *.
      rewrite app_nil_r, Hm. split; [done|]. rewrite Hname. split; [|split].
      * intros n'. destruct (decide (n = n')) as [<-|Hne].
        -- by rewrite lookup_insert_eq, bool_decide_eq_true_2, <-Ha.
        -- rewrite lookup_insert_ne by done. rewrite bool_decide_eq_false_2 by congruence.
           by rewrite app_nil_r.
      * intros n'. destruct (decide (n = n')) as [<-|Hne].
        -- rewrite lookup_insert_eq. intros [= Hnil]. by apply app_nil in Hnil as [_ ?].
        -- by rewrite lookup_insert_ne.
      * intros r' f' Hr' Hf'. destruct (Hlast r' f' Hr' Hf') as [?|Heq]; [eauto|].
        injection Heq as ->. eauto.
Qed.

Lemma group_incoming_kinds l g0 g r :
  fold_result group_incoming l g0 = Ok g → r ∈ l →
  is_match_reference r = true ∨ ∃ f, source r = ActionField f.
Proof.
  revert g0. induction l as [|x l IH]; intros g0; [by intros _ ?%elem_of_nil|]. cbn [fold_result].
  intros (g1 & Hx & Hl)%bind_Ok_iff [->|Hr]%elem_of_cons; [|by eapply IH].
  unfold group_incoming in Hx. destruct (FieldIsOptional (destination x)); [done|].
  unfold is_match_reference. destruct (source x); [eauto..|done].
Qed.

(** * What it means to refer to an entity *)

(** Where the parameters of an entity's references come from: one of its actions or replicas. *)
Inductive Origin := FromAction (a : Action) | FromReplica (replica : str * Z).

Definition origins (e : Entity) : list Origin :=
  match e with
  | kTableEntry entry =>
    match action entry with
    | kAction a => [FromAction a]
    | kActionProfileActionSet actions => map (λ a, FromAction (set_action a)) actions
    | _ => []
    end
  | kPacketReplicationEngineEntry (kMulticastGroupEntry _ replicas _) =>
    map FromReplica (all_replicas replicas)
  | _ => []
  end.

Definition origin_of (e : Entity) (o : option Origin) : Prop :=
  match o with Some o => o ∈ origins e | None => origins e = [] end.

(** The value of the source field of a reference: a match field that is present, or a parameter of
    the chosen action or replica. *)
Definition source_value (e : Entity) (o : option Origin) (r : FieldReference) : option str :=
  match source r with
  | MatchField f => match GetMatchFieldValue f e with Ok v => v | _ => None end
  | ActionField (P4ActionField f) =>
    match o with
    | Some (FromAction a) =>
      if p4_action_id f =? action_id a
      then match GetP4ActionFieldValue f a with Ok v => Some v | _ => None end
      else None
    | _ => None
    end
  | ActionField f =>
    match o with
    | Some (FromReplica (port, instance)) =>
      match GetBuiltInActionFieldValue (built_in_action_field f) port instance with
      | Ok v => Some v | _ => None end
    | _ => None
    end
  | FIELD_NOT_SET => None
  end.

(** [s] refers to [d]: for one of its actions (if it has any) some field of a reference is present,
    and every one that is present has the value of the field it refers to. *)
Definition refers (reference_info : IrTableReference) (s d : Entity) : Prop :=
  ∃ o, origin_of s o ∧
    (∃ r v, r ∈ field_references reference_info ∧ source_value s o r = Some v) ∧
    (∀ r v, r ∈ field_references reference_info → source_value s o r = Some v →
       destination_value r d = Ok (Some v)).

(** The set of the references of a list that have a value; all their fields have names. *)
Definition valued (value_of : FieldReference → option str) (l : list FieldReference) (f : Fields) : Prop :=
  (∀ r v, r ∈ l → value_of r = Some v → ∃ c, named r v = Ok c) ∧
  (∀ c, c ∈ f ↔ ∃ r v, r ∈ l ∧ value_of r = Some v ∧ named r v = Ok c).

Definition only_match_fields (value_of : FieldReference → option str) (r : FieldReference) : option str :=
  if is_match_reference r then value_of r else None.
Definition only_actions (value_of : FieldReference → option str) (r : FieldReference) : option str :=
  if is_match_reference r then None else value_of r.

Lemma valued_union value_of l f1 f2 :
  valued (only_match_fields value_of) l f1 → valued (only_actions value_of) l f2 →
  valued value_of l (f2 ∪ f1).
Proof.
  unfold valued, only_match_fields, only_actions. intros [Hok1 H1] [Hok2 H2]. split.
  - intros r v Hr Hv. destruct (is_match_reference r) eqn:Hm.
    + apply (Hok1 r v Hr). by rewrite Hm.
    + apply (Hok2 r v Hr). by rewrite Hm.
  - intros c. rewrite elem_of_union, H1, H2. split.
    + intros [(r & v & Hr & Hv & Hc)|(r & v & Hr & Hv & Hc)]; exists r, v;
        by destruct (is_match_reference r).
    + intros (r & v & Hr & Hv & Hc). destruct (is_match_reference r) eqn:Hm; [right|left];
        exists r, v; by rewrite Hm.
Qed.

Lemma match_partial_spec l e o p :
  match_field_partial_reference (List.filter is_match_reference l) e = Ok p →
  valued (only_match_fields (source_value e o)) l p ∧
  (∀ r, r ∈ l → is_match_reference r = true → ∃ v, GetMatchFieldValue (match_field (source r)) e = Ok v).
Proof.
  intros Hp. apply (fold_set_spec (λ r, sn ← GetNameOfField (source r);
    dn ← GetNameOfField (destination r); o ← GetMatchFieldValue (match_field (source r)) e;
    Ok (match o with Some v => Some (mkConcreteFieldReference sn dn v) | None => None end))) in Hp
    as [Hall Hp].
  - assert (∀ r v, (r ∈ List.filter is_match_reference l ∧
        GetMatchFieldValue (match_field (source r)) e = Ok (Some v)) ↔
      r ∈ l ∧ only_match_fields (source_value e o) r = Some v) as Hiff.
    { intros r v. rewrite list_elem_of_In, filter_In, <-list_elem_of_In.
      unfold only_match_fields, is_match_reference, source_value.
      destruct (source r) as [f| |]; cbn [match_field]; [|naive_solver..].
      destruct (GetMatchFieldValue f e); naive_solver. }
    split; [split|].
    + intros r v Hr Hv. destruct (proj2 (Hiff r v)) as [Hf Hget]; [done|].
      destruct (Hall r Hf) as [o' Ho]. simplify_result. eexists. unfold named. by compute_result.
    + intros c. rewrite Hp. split; [intros [?%elem_of_empty|(r & Hr & Ho)]; [done|]|].
      * simplify_result. destruct x1 as [v|]; [|done]. exists r, v.
        destruct (proj1 (Hiff r v)) as [? ?]; [done|]. split; [done|]. split; [done|].
        unfold named. compute_result. congruence.
      * intros (r & v & Hr & Hv & Hn). right. destruct (proj2 (Hiff r v)) as [Hf Hget]; [done|].
        exists r. split; [done|]. unfold named in Hn. simplify_result. by compute_result.
    + intros r Hr Hm. destruct (Hall r) as [o' Ho]; [|simplify_result; eauto].
      rewrite list_elem_of_In, filter_In, <-list_elem_of_In. auto.
  - intros s r. destruct (GetNameOfField (source r)), (GetNameOfField (destination r)),
      (GetMatchFieldValue (match_field (source r)) e) as [[v|]| |]; done.
Qed.

(** The references whose values an origin provides. *)
Definition belongs (o : Origin) : FieldReference → bool :=
  match o with
  | FromAction a => is_action_reference (action_id a)
  | FromReplica _ => is_replica_reference
  end.

(** The partial reference of an origin. *)
Definition origin_partial (l : list FieldReference) (e : Entity) (o : Origin) (p : Fields) : Prop :=
  valued (only_actions (source_value e (Some o))) l p ∧
  ∀ r, r ∈ l → belongs o r = true → is_Some (source_value e (Some o) r).

Lemma GetPartialReference_valued get_value (sub : FieldReference → bool) value_of l p :
  (∀ r v, sub r = true ∧ get_value r = Ok v ↔ value_of r = Some v) →
  GetPartialReference get_value (List.filter sub l) = Ok p →
  valued value_of l p ∧ ∀ r, r ∈ l → sub r = true → is_Some (value_of r).
Proof.
  intros Hval (Hall & Hp)%GetPartialReference_spec.
  assert (∀ r v, r ∈ List.filter sub l ∧ get_value r = Ok v ↔ r ∈ l ∧ value_of r = Some v) as Hiff.
  { intros r v. rewrite list_elem_of_In, filter_In, <-list_elem_of_In. naive_solver. }
  split; [split|].
  - intros r v Hr Hv. destruct (proj2 (Hiff r v)) as [Hf Hget]; [done|].
    destruct (Hall r Hf) as (v' & c & Hv' & Hc). exists c. congruence.
  - intros c. rewrite Hp. split; intros (r & v & H1 & H2 & H3); exists r, v.
    + destruct (proj1 (Hiff r v) (conj H1 H2)). auto.
    + destruct (proj2 (Hiff r v) (conj H1 H2)). auto.
  - intros r Hr Hs. destruct (Hall r) as (v & c & Hv & _).
    { rewrite list_elem_of_In, filter_In, <-list_elem_of_In. auto. }
    exists v. apply Hval. auto.
Qed.

Lemma action_partial_spec l g e a p :
  fold_result group_outgoing l (mkOutgoingGroups [] ∅ []) = Ok g →
  GetPartialReferenceFromAction (default [] (action_references_by_id g !! action_id a)) a = Ok p →
  origin_partial l e (FromAction a) p.
Proof.
  intros (_ & Ha & _)%group_outgoing_spec. rewrite Ha.
  intros [Hv Ht]%(GetPartialReference_valued _ _ (only_actions (source_value e (Some (FromAction a))))).
  - split; [done|]. intros r Hr Hb. specialize (Ht r Hr Hb). unfold only_actions in Ht.
    destruct (is_match_reference r); [by destruct Ht|done].
  - intros r v. unfold is_action_reference, only_actions, is_match_reference, source_value.
    destruct (source r) as [f|[f|f|]|]; cbn [action_field p4_action_field]; try naive_solver.
    destruct (p4_action_id f =? action_id a); [|naive_solver].
    destruct (GetP4ActionFieldValue f a); naive_solver.
Qed.

Lemma replica_partial_spec l g e rep p :
  fold_result group_outgoing l (mkOutgoingGroups [] ∅ []) = Ok g →
  GetPartialReferenceFromReplica (replica_references g) rep = Ok p →
  origin_partial l e (FromReplica rep) p.
Proof.
  intros (_ & _ & Hr)%group_outgoing_spec. rewrite Hr. destruct rep as [pt ins].
  intros [Hv Ht]%(GetPartialReference_valued _ _ (only_actions (source_value e (Some (FromReplica (pt, ins)))))).
  - split; [done|]. intros r Hin Hb. specialize (Ht r Hin Hb). unfold only_actions in Ht.
    destruct (is_match_reference r); [by destruct Ht|done].
  - intros r v. unfold is_replica_reference, only_actions, is_match_reference, source_value.
    destruct (source r) as [f|[f|f|]|]; cbn [action_field negb is_p4_action_field fst snd]; try naive_solver;
      destruct (GetBuiltInActionFieldValue _ pt ins); naive_solver.
Qed.

(** Step 2: the partial reference of each origin. *)
Lemma action_partials_spec l g e partials :
  fold_result group_outgoing l (mkOutgoingGroups [] ∅ []) = Ok g →
  action_partial_references g e = Ok partials →
  Forall2 (origin_partial l e) (origins e) partials.
Proof.
  intros Hg. pose proof (λ a p, action_partial_spec l g e a p Hg) as HA.
  pose proof (λ a p, replica_partial_spec l g e a p Hg) as HR.
  unfold action_partial_references, origins. destruct e as [entry|[id replicas payload| |]|]; try done.
  - destruct (action entry) as [|a| | |actions|]; try done; intros HF;
      apply (fold_result_list (λ a, GetPartialReferenceFromAction
        (default [] (action_references_by_id g !! action_id a)) a)) in HF; [|done| |done].
    + apply Forall2_cons_inv_l in HF as (p & k & Hp & Hk & ->). apply Forall2_nil_inv_l in Hk as ->.
      constructor; [by apply HA|constructor].
    + rewrite Forall2_fmap_l in HF. rewrite Forall2_fmap_l. eapply Forall2_impl; [exact HF|]. auto.
  - intros HF. apply (fold_result_list (GetPartialReferenceFromReplica (replica_references g))) in HF; [|done].
    rewrite Forall2_fmap_l. eapply Forall2_impl; [exact HF|]. auto.
  - intros [= <-]. constructor.
  - intros [= <-]. constructor.
Qed.

Lemma no_actions_valued l e : valued (only_actions (source_value e None)) l ∅.
Proof.
  assert (∀ r, only_actions (source_value e None) r = None) as H0.
  { intros r. unfold only_actions, is_match_reference, source_value.
    by destruct (source r) as [f|[f|f|]|]. }
  split.
  - intros r v _. by rewrite H0.
  - intros c. split; [set_solver|]. intros (r & v & _ & Hv & _). by rewrite H0 in Hv.
Qed.

(** A match field whose value is missing is optional. *)
Lemma missing_is_optional f e :
  GetMatchFieldValue f e = Ok None → FieldIsOptional (MatchField f) = true.
Proof.
  unfold GetMatchFieldValue, FieldIsOptional. cbn [match_field].
  destruct f as [f|f|]; [|destruct e as [|[]|]; intros; by simplify_result|done].
  destruct e as [entry| |]; [|done..]. cbn [p4_match_field]. unfold GetP4MatchFieldValue.
  induction (match_ entry) as [|m ms IH]; cbn [GetP4MatchFieldValue_loop].
  - by destruct (FieldIsOptional_p4 f).
  - destruct (field_id m =? p4_field_id f); [|done].
    destruct (field_match m); try done; intros; by simplify_result.
Qed.

(** What the outgoing concrete references are: one for each origin, the fields it has a value for. *)
Lemma outgoing_spec reference_info s out :
  OutgoingConcreteTableReferences reference_info s = Ok out →
  ∃ sn dn, GetNameOfTable (source_table reference_info) = Ok sn ∧
    GetNameOfTable (destination_table reference_info) = Ok dn ∧
    (∀ r, r ∈ out → ∃ o f, r = mkConcreteTableReference sn dn f ∧ f ≠ ∅ ∧ origin_of s o ∧
       valued (source_value s o) (field_references reference_info) f) ∧
    (∀ o, origin_of s o → ∃ f, valued (source_value s o) (field_references reference_info) f ∧
       (f ≠ ∅ → mkConcreteTableReference sn dn f ∈ out)) ∧
    (∀ o r, origin_of s o → r ∈ field_references reference_info →
       (is_match_reference r = true → FieldIsOptional (source r) = false → is_Some (source_value s o r)) ∧
       (∀ x, o = Some x → belongs x r = true → is_Some (source_value s o r))).
Proof.
  unfold OutgoingConcreteTableReferences.
  intros (_ & _ & (g & Hg & (partials & Hpart & (m & Hm & (sn & Hsn & (dn & Hdn & Hout)%bind_Ok_iff)%bind_Ok_iff)%bind_Ok_iff)%bind_Ok_iff)%bind_Ok_iff)%bind_Ok_iff.
  set (l := field_references reference_info) in *.
  apply (action_partials_spec l g s) in Hpart; [|done].
  rewrite (proj1 (group_outgoing_spec l g Hg)) in Hm.
  pose proof (λ o, proj1 (match_partial_spec l s o m Hm)) as Hmatch.
  pose proof (proj2 (match_partial_spec l s None m Hm)) as Htotal.
  exists sn, dn. split; [done|]. split; [done|].
  assert (∀ r, r ∈ out ↔ ∃ f, r = mkConcreteTableReference sn dn f ∧ f ≠ ∅ ∧
    ((partials = [] ∧ f = m) ∨ ∃ p, p ∈ partials ∧ f = p ∪ m)) as Helem.
  { intros r. destruct (bool_decide (partials = []) && negb (bool_decide (m = ∅))) eqn:Hc; injection Hout as <-.
    - bool_prop. subst. rewrite elem_of_singleton. split; [intros ->; eauto 10|].
      intros (f & -> & _ & [[_ ->]|(p & Hp & _)]); [done|by apply elem_of_nil in Hp].
    - rewrite elem_of_list_to_set, list_elem_of_fmap. setoid_rewrite list_elem_of_filter.
      setoid_rewrite list_elem_of_fmap. split.
      + intros (f & -> & Hne & p & -> & Hp). eauto 10.
      + intros (f & -> & Hne & [[-> ->]|(p & Hp & ->)]); [|eauto 10].
        exfalso. rewrite bool_decide_eq_true_2, bool_decide_eq_false_2 in Hc by done. done. }
  split; [|split].
  - intros r (f & -> & Hne & [[Hnil ->]|(p & Hp & ->)])%Helem.
    + exists None, m. subst partials. apply Forall2_nil_inv_r in Hpart. split; [done|]. split; [done|].
      split; [done|]. rewrite <-(union_empty_l_L m). apply valued_union; [apply Hmatch|apply no_actions_valued].
    + destruct (list_elem_of_lookup_1 _ _ Hp) as [i Hi].
      destruct (Forall2_lookup_r _ _ _ _ _ Hpart Hi) as (o & Ho & [Hv _]).
      exists (Some o), (p ∪ m). split; [done|]. split; [done|]. split; [by eapply list_elem_of_lookup_2|].
      apply valued_union; auto.
  - intros [o|] Ho; cbn [origin_of] in Ho.
    + destruct (list_elem_of_lookup_1 _ _ Ho) as [i Hi].
      destruct (Forall2_lookup_l _ _ _ _ _ Hpart Hi) as (p & Hp & [Hv _]).
      exists (p ∪ m). split; [by apply valued_union|]. intros Hne. apply Helem. eexists. split; [done|].
      split; [done|]. right. exists p. split; [by eapply list_elem_of_lookup_2|done].
    + rewrite Ho in Hpart. apply Forall2_nil_inv_l in Hpart as ->. exists m. split.
      * rewrite <-(union_empty_l_L m). apply valued_union; [apply Hmatch|apply no_actions_valued].
      * intros Hne. apply Helem. eauto 10.
  - intros o r Ho Hr. split.
    + intros Hmr Hopt. destruct (Htotal r Hr Hmr) as [[v|] Hv].
      * unfold source_value. unfold is_match_reference in Hmr. destruct (source r); try done.
        cbn [match_field] in Hv. rewrite Hv. by eexists.
      * apply missing_is_optional in Hv. unfold is_match_reference in Hmr. destruct (source r); try done.
        cbn [match_field] in Hv. congruence.
    + intros x -> Hb. cbn [origin_of] in Ho. destruct (list_elem_of_lookup_1 _ _ Ho) as [i Hi].
      destruct (Forall2_lookup_l _ _ _ _ _ Hpart Hi) as (p & Hp & [_ Ht]). by apply Ht.
Qed.

(** The references of an entity that are in a set. *)
Definition pointed (d : Entity) (chosen : FieldReference → Prop) (l : list FieldReference) (f : Fields) : Prop :=
  ∀ c, c ∈ f ↔ ∃ r v, (r ∈ l ∧ chosen r) ∧ destination_value r d = Ok (Some v) ∧ named r v = Ok c.

(** A choice that the incoming references provide for: all match fields but the optional ones, and
    the parameters of one action, or of none. *)
Definition choice (l : list FieldReference) (P : FieldReference → bool) : Prop :=
  (∀ r, r ∈ l → is_match_reference r = true → FieldIsOptional (source r) = false → P r = true) ∧
  ∃ g : option str, ∀ r f, r ∈ l → source r = ActionField f →
    P r = true ↔ ∃ n, g = Some n ∧ GetNameOfAction f = Ok n.

Lemma in_filter (P : FieldReference → bool) l r : r ∈ List.filter P l ↔ r ∈ l ∧ P r = true.
Proof. by rewrite list_elem_of_In, filter_In, <-list_elem_of_In. Qed.

(** The sets of the incoming references before they get their table names. *)
Section incoming_sets.
Context (d : Entity) (l : list FieldReference) (g : IncomingGroups).
Context (action_partials match_partials : list Fields) (exact : Fields).
Context (Hg : fold_result group_incoming l (mkIncomingGroups [] ∅) = Ok g).
Context (Hact : fold_result (λ partials references,
    p ← destination_partial d references; Ok (partials ++ [p]))
    (map snd (map_to_list (action_references_by_name g))) [] = Ok action_partials).
Context (Hexact : destination_partial d (List.filter (λ r, negb (FieldIsOptional (source r)))
    (incoming_match_field_references g)) = Ok exact).
Context (Hopt : fold_result (add_optional d) (List.filter (λ r, FieldIsOptional (source r))
    (incoming_match_field_references g)) [exact] = Ok match_partials).

(** The partial reference of the action with a name. *)
Lemma named_action_partial name refs :
  action_references_by_name g !! name = Some refs →
  ∃ p, p ∈ action_partials ∧
    pointed d (λ r, is_named_action_reference name r = true) l p.
Proof using Hg Hact.
  intros Hrefs. pose proof (group_incoming_spec _ _ Hg) as (_ & Hn & _).
  pose proof (fold_result_list (destination_partial d) _ _ _ (λ _ _, eq_refl) Hact) as Hall.
  assert (refs ∈ map snd (map_to_list (action_references_by_name g))) as Hml.
  { apply list_elem_of_fmap. exists (name, refs). split; [done|]. by apply elem_of_map_to_list. }
  destruct (list_elem_of_lookup_1 _ _ Hml) as [i Hi].
  destruct (Forall2_lookup_l _ _ _ _ _ Hall Hi) as (p & Hp & Hd).
  exists p. split; [by eapply list_elem_of_lookup_2|].
  specialize (Hn name). rewrite Hrefs in Hn. cbn in Hn. subst refs.
  apply destination_partial_spec in Hd as [_ Hd]. intros c. rewrite Hd. by setoid_rewrite in_filter.
Qed.

Lemma action_partial_elements p c :
  p ∈ action_partials → c ∈ p →
  ∃ r v, r ∈ l ∧ destination_value r d = Ok (Some v) ∧ named r v = Ok c.
Proof using Hg Hact.
  intros Hp Hc. pose proof (group_incoming_spec _ _ Hg) as (_ & Hn & _).
  pose proof (fold_result_list (destination_partial d) _ _ _ (λ _ _, eq_refl) Hact) as Hall.
  destruct (list_elem_of_lookup_1 _ _ Hp) as [i Hi].
  destruct (Forall2_lookup_r _ _ _ _ _ Hall Hi) as (refs & Hrefs & Hd).
  apply list_elem_of_lookup_2, list_elem_of_fmap in Hrefs as ([n refs'] & -> & Hrefs).
  apply elem_of_map_to_list in Hrefs. cbn [snd] in *.
  apply destination_partial_spec in Hd as [_ Hd]. apply Hd in Hc as (r & v & Hr & ?).
  specialize (Hn n). rewrite Hrefs in Hn. cbn in Hn. rewrite Hn in Hr.
  apply in_filter in Hr as [Hr _]. eauto.
Qed.

(** The match fields of a choice. *)
Lemma chosen_match_partial P :
  (∀ r, r ∈ l → is_match_reference r = true → FieldIsOptional (source r) = false → P r = true) →
  ∃ m, m ∈ match_partials ∧ pointed d (λ r, is_match_reference r = true ∧ P r = true) l m.
Proof using Hg Hexact Hopt.
  intros Hall. pose proof (group_incoming_spec _ _ Hg) as (Hm & _). rewrite Hm in *.
  apply destination_partial_spec in Hexact as [_ Hex].
  apply add_optional_spec in Hopt as (_ & _ & Hchoose).
  destruct (Hchoose P) as (m & Hmem & Hmc). exists m. split; [done|]. intros c. rewrite Hmc, Hex. split.
  - intros [(r & v & Hr & ?)|(r & v & [Hr ?] & ?)]; exists r, v; rewrite !in_filter in Hr; [|naive_solver].
    destruct Hr as [[Hr Hmr] Hno]. apply negb_true_iff in Hno. auto.
  - intros (r & v & (Hr & Hmr & HP) & ?). destruct (FieldIsOptional (source r)) eqn:Ho; [right|left];
      exists r, v; rewrite !in_filter, Ho; auto.
Qed.

Lemma match_partial_elements m c :
  m ∈ match_partials → c ∈ m →
  ∃ r v, r ∈ l ∧ destination_value r d = Ok (Some v) ∧ named r v = Ok c.
Proof using Hg Hexact Hopt.
  intros Hmem Hc. pose proof (group_incoming_spec _ _ Hg) as (Hm & _). rewrite Hm in *.
  apply destination_partial_spec in Hexact as [_ Hex].
  apply add_optional_spec in Hopt as (_ & Hin & _). destruct (Hin m Hmem) as (L & HL & HLc).
  destruct (proj1 (HLc c) Hc) as [Hc'|(r & v & Hr & Hrest)].
  - destruct (proj1 (Hex c) Hc') as (r & v & Hr & Hrest). rewrite !in_filter in Hr. naive_solver.
  - specialize (HL r Hr). rewrite !in_filter in HL. naive_solver.
Qed.

Definition incoming_sets : list Fields :=
  match_partials ++ List.concat (map (λ m, map (λ a, a ∪ m) action_partials) match_partials).

Lemma in_incoming_sets f :
  f ∈ incoming_sets ↔ ∃ m, m ∈ match_partials ∧ (f = m ∨ ∃ a, a ∈ action_partials ∧ f = a ∪ m).
Proof using Type.
  unfold incoming_sets. rewrite elem_of_app, (list_elem_of_In (List.concat _) f), in_concat.
  setoid_rewrite in_map_iff. split.
  - intros [Hf|(fs & (m & <- & Hm) & (a & <- & Ha)%in_map_iff)]; [exists f; auto|].
    rewrite <-list_elem_of_In in Hm, Ha. eauto 10.
  - intros (m & Hm & [->|(a & Ha & ->)]); [auto|right].
    exists (map (λ a, a ∪ m) action_partials). rewrite in_map_iff. rewrite list_elem_of_In in Hm, Ha.
    split; [by exists m|by exists a].
Qed.

Lemma incoming_sound f c :
  f ∈ incoming_sets → c ∈ f →
  ∃ r v, r ∈ l ∧ destination_value r d = Ok (Some v) ∧ named r v = Ok c.
Proof using Hg Hact Hexact Hopt.
  intros (m & Hm & [->|(a & Ha & ->)])%in_incoming_sets Hc; [by eapply match_partial_elements|].
  apply elem_of_union in Hc as [Hc|Hc]; [by eapply action_partial_elements|by eapply match_partial_elements].
Qed.

Lemma incoming_complete P :
  choice l P → ∃ f, f ∈ incoming_sets ∧ pointed d (λ r, P r = true) l f.
Proof using Hg Hact Hexact Hopt.
  intros (Hall & name & Hgroup). destruct (chosen_match_partial P Hall) as (m & Hmem & Hmc).
  pose proof (λ r, group_incoming_kinds _ _ _ r Hg) as Hkind.
  destruct (name ≫= λ n, action_references_by_name g !! n) as [refs|] eqn:Hrefs.
  - destruct name as [n|]; [|done]. cbn [mbind option_bind] in Hrefs.
    destruct (named_action_partial n refs Hrefs) as (p & Hp & Hd).
    exists (p ∪ m). split; [apply in_incoming_sets; eauto 10|].
    intros c. rewrite elem_of_union, (Hd c), (Hmc c). split.
    + intros [(r & v & [Hr Hname] & ?)|(r & v & (Hr & Hmr & HP) & ?)]; exists r, v; [|auto].
      unfold is_named_action_reference in Hname.
      destruct (source r) as [|f|] eqn:Hs; try done. apply bool_decide_eq_true in Hname.
      split; [|done]. split; [done|]. apply (Hgroup r f Hr Hs). eauto.
    + intros (r & v & [Hr HP] & ?). destruct (Hkind r Hr) as [Hmr|(f & Hs)]; [right; eauto 10|left].
      exists r, v. split; [|done]. split; [done|].
      apply (Hgroup r f Hr Hs) in HP as (n' & [= <-] & Hname).
      unfold is_named_action_reference. rewrite Hs. by apply bool_decide_eq_true_2.
  - exists m. split; [apply in_incoming_sets; eauto|]. intros c. rewrite (Hmc c). split.
    + intros (r & v & (? & ? & ?) & ?). eauto 10.
    + intros (r & v & [Hr HP] & ?). exists r, v. split; [|done]. split; [done|].
      destruct (Hkind r Hr) as [Hmr|(f & Hs)]; [auto|]. exfalso.
      apply (Hgroup r f Hr Hs) in HP as (n & -> & Hname). cbn [mbind option_bind] in Hrefs.
      pose proof (group_incoming_spec _ _ Hg) as (_ & Hn & _). specialize (Hn n).
      rewrite Hrefs in Hn. cbn in Hn.
      assert (r ∈ List.filter (is_named_action_reference n) l) as Hbad.
      { apply in_filter. unfold is_named_action_reference. rewrite Hs. by rewrite bool_decide_eq_true_2. }
      rewrite <-Hn in Hbad. by apply elem_of_nil in Hbad.
Qed.
End incoming_sets.

Lemma incoming_spec reference_info d incoming :
  PossibleIncomingConcreteTableReferences reference_info d = Ok incoming →
  let l := field_references reference_info in
  ∃ sn dn, GetNameOfTable (source_table reference_info) = Ok sn ∧
    GetNameOfTable (destination_table reference_info) = Ok dn ∧
    (∀ r c, r ∈ incoming → c ∈ fields r →
       ∃ f v, f ∈ l ∧ destination_value f d = Ok (Some v) ∧ named f v = Ok c) ∧
    (∀ P, choice l P → ∃ f, pointed d (λ r, P r = true) l f ∧
       (f ≠ ∅ → mkConcreteTableReference sn dn f ∈ incoming)) ∧
    (∀ r f, r ∈ l → source r = ActionField f → ∃ n, GetNameOfAction f = Ok n).
Proof.
  unfold PossibleIncomingConcreteTableReferences.
  intros (_ & _ & (g & Hg & (ap & Hap & (exact & Hexact & (mp & Hmp & (sn & Hsn & (dn & Hdn & [= <-])%bind_Ok_iff)%bind_Ok_iff)%bind_Ok_iff)%bind_Ok_iff)%bind_Ok_iff)%bind_Ok_iff)%bind_Ok_iff.
  cbv zeta. exists sn, dn. split; [done|]. split; [done|].
  pose proof (incoming_sound _ _ _ _ _ _ Hg Hap Hexact Hmp) as Hsound.
  pose proof (incoming_complete _ _ _ _ _ _ Hg Hap Hexact Hmp) as Hcomplete.
  split; [|split].
  - intros r c Hr. apply elem_of_list_to_set, list_elem_of_fmap in Hr as (f & -> & Hf).
    apply list_elem_of_filter in Hf as [_ Hf]. cbn [fields]. eauto.
  - intros P HP. destruct (Hcomplete P HP) as (f & Hf & Hpointed).
    exists f. split; [done|]. intros Hne.
    apply elem_of_list_to_set, list_elem_of_fmap. exists f. split; [done|]. by apply list_elem_of_filter.
  - by apply group_incoming_spec in Hg as (_ & _ & _ & ?).
Qed.

(** What the references of a P4 program satisfy: fields have distinct names, action names and ids
    correspond, and no action has the name of the built-in one. *)
Record well_formed (reference_info : IrTableReference) : Prop := {
  destination_names r r' n :
    r ∈ field_references reference_info → r' ∈ field_references reference_info →
    GetNameOfField (destination r) = Ok n → GetNameOfField (destination r') = Ok n →
    destination r = destination r';
  action_names r r' f f' :
    r ∈ field_references reference_info → r' ∈ field_references reference_info →
    source r = ActionField (P4ActionField f) → source r' = ActionField (P4ActionField f') →
    action_name f = action_name f' ↔ p4_action_id f = p4_action_id f';
  no_built_in_names r f :
    r ∈ field_references reference_info → source r = ActionField (P4ActionField f) →
    action_name f ≠ GetReplicaActionName;
}.

Lemma replica_name f n : is_p4_action_field f = false → GetNameOfAction f = Ok n → n = GetReplicaActionName.
Proof.
  destruct f as [|f|]; [done| |done]. intros _. cbn [GetNameOfAction].
  destruct (built_in_action f); [done|]. by intros [= <-].
Qed.

(** The parameters of an origin are a choice: all those of one action name. *)
Lemma origin_choice reference_info s o :
  well_formed reference_info →
  (∀ r f, r ∈ field_references reference_info → source r = ActionField f → ∃ n, GetNameOfAction f = Ok n) →
  (∀ r, r ∈ field_references reference_info →
     (is_match_reference r = true → FieldIsOptional (source r) = false → is_Some (source_value s o r)) ∧
     (∀ x, o = Some x → belongs x r = true → is_Some (source_value s o r))) →
  choice (field_references reference_info) (λ r, bool_decide (is_Some (source_value s o r))).
Proof.
  intros [_ Hnames Hbuilt] Hnamed Htotal. split.
  { intros r Hr Hm Ho. apply bool_decide_eq_true_2. by apply Htotal. }
  set (l := field_references reference_info) in *.
  assert (∀ x r f, o = Some x → r ∈ l → source r = ActionField f →
    bool_decide (is_Some (source_value s o r)) = true ↔ belongs x r = true) as Hbelongs.
  { intros x r f -> Hr Hs. rewrite bool_decide_eq_true. split; [|by apply Htotal].
    unfold source_value, belongs, is_action_reference, is_replica_reference. rewrite Hs.
    destruct f as [f|f|], x as [a|[]]; rewrite ?Hs; cbn [is_p4_action_field negb]; try by intros [].
    destruct (p4_action_id f =? action_id a); [done|by intros []]. }
  destruct o as [[a|rep]|].
  - destruct (List.find (is_action_reference (action_id a)) l) as [r0|] eqn:Hfind.
    + apply find_some in Hfind as [Hr0 Hid0]. rewrite <-list_elem_of_In in Hr0.
      unfold is_action_reference in Hid0. destruct (source r0) as [|[f0|f0|]|] eqn:Hs0; try done.
      exists (Some (action_name f0)). intros r f Hr Hs. rewrite (Hbelongs (FromAction a) r f) by done.
      cbn [belongs]. unfold is_action_reference. rewrite Hs. destruct (Hnamed r f Hr Hs) as [n Hn].
      destruct f as [f|f|]; [| |done].
      * specialize (Hnames r r0 f f0 Hr Hr0 Hs Hs0). cbn [GetNameOfAction]. split.
        -- intros Hid. exists (action_name f0). split; [done|]. f_equal. apply Hnames. lia.
        -- intros (n' & [= <-] & [= Hname]). apply Hnames in Hname. lia.
      * split; [done|]. intros (n' & [= <-] & Hname). exfalso.
        apply (Hbuilt r0 f0 Hr0 Hs0). by apply (replica_name (BuiltInActionField f)).
    + exists None. intros r f Hr Hs. rewrite (Hbelongs (FromAction a) r f) by done. cbn [belongs].
      rewrite (find_none _ _ Hfind r) by by rewrite <-list_elem_of_In. naive_solver.
  - exists (Some GetReplicaActionName). intros r f Hr Hs. rewrite (Hbelongs (FromReplica rep) r f) by done.
    cbn [belongs]. unfold is_replica_reference. rewrite Hs. destruct (Hnamed r f Hr Hs) as [n Hn].
    destruct f as [f|f|]; cbn [is_p4_action_field negb]; [|split; [|done]|done].
    + split; [done|]. intros (n' & [= <-] & [= Hname]). by destruct (Hbuilt r f Hr Hs).
    + intros _. exists n. split; [|done]. f_equal. symmetry. by apply (replica_name (BuiltInActionField f)).
  - exists None. intros r f Hr Hs. unfold source_value. rewrite Hs.
    destruct f; rewrite bool_decide_eq_true; split; try (by intros []); naive_solver.
Qed.

(** C25.  Concrete references mean what they should.  For a table reference whose fields have distinct
    names, an entity [s] of its source table and an entity [d] of its destination table: a concrete
    reference that [s] makes is one that [d] satisfies exactly when [s] refers to [d], that is, when
    for one of the actions (or replicas) of [s] every field that is present, optional match fields
    included, has the value of the match field of [d] it refers to.  The values are those the code reads: the
    identifiers of multicast groups and the instances of replicas are cut to 16 bits, which is a finding. *)
Theorem concrete_references_exact (reference_info : IrTableReference) (s d : Entity)
  (outgoing incoming : gset ConcreteTableReference) :
  well_formed reference_info →
  OutgoingConcreteTableReferences reference_info s = Ok outgoing →
  PossibleIncomingConcreteTableReferences reference_info d = Ok incoming →
  (∃ r, r ∈ outgoing ∧ r ∈ incoming) ↔ refers reference_info s d.
Proof.
  intros Hwf (sn & dn & Hsn & Hdn & Hout & Houtgoing & Htotal)%outgoing_spec
    (sn' & dn' & Hsn' & Hdn' & Hin & Hincoming & Hnamed)%incoming_spec.
  assert (sn' = sn ∧ dn' = dn) as [-> ->] by (split; congruence).
  split.
  - intros (r & Hr & Hri). destruct (Hout r Hr) as (o & f & -> & Hne & Ho & [Hok Hf]). exists o.
    split; [done|]. split.
    + destruct (set_choose_L f Hne) as [c Hc]. apply Hf in Hc as (r & v & ? & ? & _). eauto.
    + intros r v Hrl Hv. destruct (Hok r v Hrl Hv) as [c Hc].
      destruct (Hin _ c Hri) as (r' & v' & Hr' & Hv' & Hc'); [apply Hf; eauto|].
      apply named_value in Hc as [<- Hd], Hc' as [<- Hd'].
      unfold destination_value in *. by rewrite (destination_names _ Hwf r r' _ Hrl Hr' Hd Hd').
  - intros (o & Ho & (r0 & v0 & Hr0 & Hv0) & Hagree).
    destruct (Houtgoing o Ho) as (f & [Hok Hf] & Hfo).
    destruct (Hincoming (λ r, bool_decide (is_Some (source_value s o r)))) as (f' & Hf' & Hfi).
    { apply origin_choice; auto. }
    assert (f' = f) as ->.
    { apply set_eq. intros c. rewrite (Hf' c), (Hf c). setoid_rewrite bool_decide_eq_true. split.
      - intros (r & v & [Hr [v' Hv']] & Hv & Hc). exists r, v. split; [done|]. split; [|done].
        rewrite (Hagree r v' Hr Hv') in Hv. congruence.
      - intros (r & v & Hr & Hv & Hc). exists r, v. split; [split; [done|by eexists]|]. auto. }
    assert (f ≠ ∅) as Hne.
    { destruct (Hok r0 v0 Hr0 Hv0) as [c Hc]. assert (c ∈ f) by (apply Hf; eauto). set_solver. }
    eauto.
Qed.

(** ** Satisfied references *)

Definition makes (info : IrP4Info) (e : Entity) (r : ConcreteTableReference) : Prop :=
  ∃ infos i refs, GetOutgoingTableReferences info e = Ok infos ∧ i ∈ infos ∧
    OutgoingConcreteTableReferences i e = Ok refs ∧ r ∈ refs.
Definition satisfies (info : IrP4Info) (d : Entity) (r : ConcreteTableReference) : Prop :=
  ∃ infos i refs, GetIncomingTableReferences info d = Ok infos ∧ i ∈ infos ∧
    PossibleIncomingConcreteTableReferences i d = Ok refs ∧ r ∈ refs.

Lemma concrete_references_spec of_info e infos refs :
  concrete_references of_info e infos = Ok refs →
  ∀ r, r ∈ refs ↔ ∃ i s, i ∈ infos ∧ of_info i e = Ok s ∧ r ∈ s.
Proof.
  apply (fold_result_ind _ (λ infos (refs : gset ConcreteTableReference),
    ∀ r, r ∈ refs ↔ ∃ i s, i ∈ infos ∧ of_info i e = Ok s ∧ r ∈ s)).
  - intros r. set_solver.
  - intros done i refs1 refs2 IH (s & Hs & [= <-])%bind_Ok_iff r. rewrite elem_of_union, IH. split.
    + intros [(i' & s' & ? & ? & ?)|?]; [exists i', s'|exists i, s]; set_solver.
    + intros (i' & s' & [?| ->%list_elem_of_singleton]%elem_of_app & Hs' & ?); [left; eauto|right].
      congruence.
Qed.

Lemma satisfiable_spec info entities sat :
  fold_result (add_satisfiable info) entities ∅ = Ok sat →
  ∀ r, r ∈ sat ↔ ∃ d, d ∈ entities ∧ satisfies info d r.
Proof.
  apply (fold_result_ind _ (λ entities (sat : gset ConcreteTableReference),
    ∀ r, r ∈ sat ↔ ∃ d, d ∈ entities ∧ satisfies info d r)).
  - intros r. set_solver.
  - intros done d sat1 sat2 IH Hd r. unfold add_satisfiable in Hd.
    apply bind_Ok_iff in Hd as (infos & Hinfos & (refs & Hrefs & [= <-])%bind_Ok_iff).
    rewrite elem_of_union, IH, (concrete_references_spec _ _ _ _ Hrefs). split.
    + intros [(d' & ? & ?)|(i & s & ? & ? & ?)]; [exists d'; set_solver|].
      exists d. split; [set_solver|]. exists infos, i, s. auto.
    + intros (d' & [?| ->%list_elem_of_singleton]%elem_of_app & Hs); [eauto|right].
      destruct Hs as (infos' & i & s & Hi & ? & ? & ?). assert (infos' = infos) as -> by congruence.
      eauto.
Qed.

Lemma unsatisfied_list_spec (sat : gset ConcreteTableReference) e infos l :
  fold_result (λ unsatisfied reference,
    refs ← OutgoingConcreteTableReferences reference e;
    Ok (unsatisfied ++ filter (λ r, r ∉ sat) (elements refs))) infos [] = Ok l →
  ∀ r, r ∈ l ↔ (r ∉ sat) ∧ ∃ i refs, i ∈ infos ∧ OutgoingConcreteTableReferences i e = Ok refs ∧ r ∈ refs.
Proof.
  apply (fold_result_ind _ (λ infos l, ∀ r, r ∈ l ↔ (r ∉ sat) ∧
    ∃ i refs, i ∈ infos ∧ OutgoingConcreteTableReferences i e = Ok refs ∧ r ∈ refs)).
  - intros r. set_solver.
  - intros done i l1 l2 IH (s & Hs & [= <-])%bind_Ok_iff r.
    rewrite elem_of_app, IH, list_elem_of_filter, elem_of_elements. split.
    + intros [(? & i' & s' & ? & ? & ?)|[? ?]]; (split; [done|]); [exists i', s'|exists i, s]; set_solver.
    + intros (? & i' & s' & [?| ->%list_elem_of_singleton]%elem_of_app & Hs' & ?); [left; eauto 10|right].
      split; [done|]. congruence.
Qed.

(** [UnsatisfiedOutgoingReferences] reports, in the order of the input, exactly the entities that
    make a concrete reference which no entity of the input satisfies, each with exactly those
    references. *)
Theorem unsatisfied_references_exact (entities : list Entity) (info : IrP4Info)
  (out : list EntityWithUnsatisfiedReferences) :
  UnsatisfiedOutgoingReferences entities info = Ok out →
  let unsatisfied e r := makes info e r ∧ ∀ d, d ∈ entities → ¬ satisfies info d r in
  (map unsatisfied_entity out) `sublist_of` entities ∧
  (∀ u, u ∈ out → unsatisfied_references u ≠ [] ∧
     ∀ r, r ∈ unsatisfied_references u ↔ unsatisfied (unsatisfied_entity u) r) ∧
  (∀ e r, e ∈ entities → unsatisfied e r → ∃ u, u ∈ out ∧ unsatisfied_entity u = e).
Proof.
  intros (sat & Hsat & Hout)%bind_Ok_iff unsatisfied. pose proof (satisfiable_spec _ _ _ Hsat) as Hs.
  assert (∀ r, r ∉ sat ↔ ∀ d, d ∈ entities → ¬ satisfies info d r) as Hsat'.
  { intros r. rewrite Hs. naive_solver. }
  revert Hout. apply (fold_result_ind (add_unsatisfied info sat) (λ es out,
    (map unsatisfied_entity out) `sublist_of` es ∧
    (∀ u, u ∈ out → unsatisfied_references u ≠ [] ∧
       ∀ r, r ∈ unsatisfied_references u ↔ unsatisfied (unsatisfied_entity u) r) ∧
    (∀ e r, e ∈ es → unsatisfied e r → ∃ u, u ∈ out ∧ unsatisfied_entity u = e))).
  { split; [done|]. split; [by intros u ?%elem_of_nil|]. by intros e r ?%elem_of_nil. }
  intros done e out1 out2 (Hsub & Hin & Hex) He. unfold add_unsatisfied in He.
  apply bind_Ok_iff in He as (infos & Hinfos & (l & Hl & Hout)%bind_Ok_iff).
  assert (∀ r, r ∈ l ↔ unsatisfied e r) as Hl'.
  { intros r. rewrite (unsatisfied_list_spec _ _ _ _ Hl), Hsat'. unfold unsatisfied, makes. split.
    - intros (Hr & i & refs & ?). split; [|done]. by exists infos, i, refs.
    - intros [(infos' & i & refs & Hi & ?) Hr]. split; [done|].
      assert (infos' = infos) as -> by congruence. eauto. }
  case_bool_decide as Hnil; injection Hout as <-.
  - split; [by apply sublist_inserts_r|]. split; [done|].
    intros e' r [He'| ->%list_elem_of_singleton]%elem_of_app Hr; [eauto|].
    apply Hl' in Hr. rewrite Hnil in Hr. by apply elem_of_nil in Hr.
  - rewrite map_app. split; [by apply sublist_app|]. split.
    + intros u [Hu| ->%list_elem_of_singleton]%elem_of_app; [auto|]. done.
    + intros e' r [He'| ->%list_elem_of_singleton]%elem_of_app Hr.
      * destruct (Hex e' r He' Hr) as (u & ? & ?). exists u. by rewrite elem_of_app; auto.
      * exists (mkUnsatisfied e l). split; [|done]. apply elem_of_app. right. by apply list_elem_of_singleton.
Qed.
End lemmas.

(** * Examples: next hops refer to router interfaces, and optionally to VRFs, of another table (names are short to keep the sets small) *)

Definition example_match_field (name : str) (id : Z) (optional : bool) : IrField :=
  MatchField (P4MatchField (mkIrP4MatchField name id optional)).
Definition example_references : IrTableReference :=
  mkIrTableReference (P4Table $"n" 1) (P4Table $"r" 2)
    [mkFieldReference (ActionField (P4ActionField (mkIrP4ActionField $"a" 10 $"i" 1)))
       (example_match_field $"d" 1 false);
     mkFieldReference (example_match_field $"v" 2 true) (example_match_field $"w" 2 false)].
Definition example_nexthop : Entity :=
  kTableEntry (plain_entry 1 0 [mkFieldMatch 1 (kExact $"n")] (kAction (mkAction 10 [(1, $"1")]))).
Definition example_rif (rif : str) : Entity :=
  kTableEntry (plain_entry 2 0 [mkFieldMatch 1 (kExact rif); mkFieldMatch 2 (kExact $"v")]
    (kAction (mkAction 20 []))).
Definition reference_table (id : Z) (name : str) (incoming outgoing : list IrTableReference) : IrTableDefinition :=
  mkIrTableDefinition (IrData.named id name) ∅ ∅ [] [] 0 false None false None None None [] false incoming outgoing.
(** The program with these tables, whose built-in table of multicast groups makes these references. *)
Definition reference_program (tables : list IrTableDefinition) (multicast : list IrTableReference) : IrP4Info :=
  mkIrP4Info (list_to_map (map (λ t, (preamble_id t, t)) tables))
    (list_to_map (map (λ t, (preamble_alias t, t)) tables)) ∅ ∅ ∅ ∅ ∅ ∅ ∅ ∅ []
    {[ GetMulticastGroupTableName := mkIrBuiltInTableDefinition BUILT_IN_TABLE_MULTICAST_GROUP_TABLE [] multicast ]} ∅.

Definition example_info : IrP4Info :=
  reference_program [reference_table 1 $"nexthop" [] [example_references]; reference_table 2 $"rif" [example_references] []] [].

Lemma example_well_formed : well_formed example_references.
Proof.
  split.
  - intros r r' n Hr Hr'. rewrite list_elem_of_In in Hr, Hr'.
    destruct Hr as [<-|[<-|[]]], Hr' as [<-|[<-|[]]]; intros [= <-]; done.
  - intros r r' f f' Hr Hr'. rewrite list_elem_of_In in Hr, Hr'.
    destruct Hr as [<-|[<-|[]]], Hr' as [<-|[<-|[]]]; intros [= <-] [= <-]; done.
  - intros r f Hr. rewrite list_elem_of_In in Hr. destruct Hr as [<-|[<-|[]]]; intros [= <-]; done.
Qed.

Lemma concrete_references_exact_witness :
  refers example_references example_nexthop (example_rif $"1").
Proof.
  apply (concrete_references_exact example_references example_nexthop (example_rif $"1")
    (ok_or (OutgoingConcreteTableReferences example_references example_nexthop) ∅)
    (ok_or (PossibleIncomingConcreteTableReferences example_references (example_rif $"1")) ∅)).
  - exact example_well_formed.
  - apply ok_or_eq. vm_compute. reflexivity.
  - apply ok_or_eq. vm_compute. reflexivity.
  - exists (mkConcreteTableReference $"n" $"r"
      {[ mkConcreteFieldReference $"a.i" $"d" $"1" ]}).
    split; refine (bool_decide_unpack _ _); vm_compute; exact I.
Defined.

Lemma unsatisfied_references_exact_witness :
  ∃ u, u ∈ ok_or (UnsatisfiedOutgoingReferences [example_nexthop; example_rif $"2"] example_info) [] ∧
    unsatisfied_references u ≠ [].
Proof.
  pose proof (unsatisfied_references_exact [example_nexthop; example_rif $"2"] example_info
    (ok_or (UnsatisfiedOutgoingReferences [example_nexthop; example_rif $"2"] example_info) []))
    as (_ & H & _); [apply ok_or_eq; vm_compute; reflexivity|].
  destruct (ok_or (UnsatisfiedOutgoingReferences [example_nexthop; example_rif $"2"] example_info) [])
    as [|u l] eqn:E.
  { assert (length (ok_or (UnsatisfiedOutgoingReferences [example_nexthop; example_rif $"2"] example_info) [])
      = 1%nat) as Hlen by (vm_compute; reflexivity).
    rewrite E in Hlen. discriminate Hlen. }
  exists u. split; [by left|]. apply H. by left.
Defined.
