(* ===== verification/Sequencing.v ===== *)
(** p4_infra/p4_pdpi: [sequencing.{h,cc}].  Updates that depend on each other must be sent in order:
    an entry is inserted after the entries it refers to and deleted before them.  The dependency
    graph of a list of updates is built from the references of the P4 program; the updates are then
    sent in batches, each batch consisting of the updates whose dependencies are all in earlier
    ones. *)
From S2P Require Import Prelude EntityKeys BuiltIns IrUtils IrData.
From S2P Require SdnController WritePath.

(** * Data *)

Abbreviation Update := WritePath.Update.
Abbreviation WriteRequest := WritePath.WriteRequest.
Abbreviation type_ := WritePath.type_.
Abbreviation entity := WritePath.entity.

(** Table, match field and value. *)
Abbreviation ReferencedValue := (str * str * str)%type.

(** [boost::adjacency_list] with sets of out edges: vertices are the numbers below [vertices], an edge
    from [u] to [v] says that [v] depends on [u]. *)
Record Graph := mkGraph { vertices : nat; edges : gset (nat * nat) }.

Definition add_edge (u v : nat) (g : Graph) : Graph := mkGraph (vertices g) ({[ (u, v) ]} ∪ edges g).
Definition in_degree (v : nat) (g : Graph) : nat := size (filter (λ e, e.2 = v) (edges g)).
Definition out_edges (u : nat) (g : Graph) : list nat :=
  map snd (elements (filter (λ e, e.1 = u) (edges g))).
Definition clear_out_edges (u : nat) (g : Graph) : Graph :=
  mkGraph (vertices g) (filter (λ e, e.1 ≠ u) (edges g)).

(** * The dependency graph *)

Section sequencing.
Context `{Gutil}.

(** [update.entity().table_entry()]: the default entry when the entity is of another kind. *)
Definition table_entry (e : Entity) : TableEntry :=
  match e with kTableEntry t => t | _ => plain_entry 0 0 [] ACTION_ABSENT end.

(** The first exact or optional match field with the id. *)
Definition find_match_value (id : Z) (ms : list FieldMatch) : option str :=
  head (omap (λ m, if field_id m =? id then
    match field_match m with kExact v | kOptional v => Some v | _ => None end else None) ms).

Definition GetMatchFieldValue (definition : IrTableDefinition) (update : Update) (match_field : str)
  : result (option str) :=
  match_field_definition ← FindOrStatus (match_fields_by_name definition !! match_field);
  Ok (find_match_value (element_id (match_element (IrData.match_field match_field_definition))) (match_ (table_entry (entity update)))).

Abbreviation Indices := (gmap ReferencedValue (gset nat)).

(** The edge that a reference of [current] to a value of [referred] makes, if any. *)
Definition dependency (all_vertices : list Update) (current referred : nat) : option (nat * nat) :=
  match type_ <$> all_vertices !! current, type_ <$> all_vertices !! referred with
  | Some (INSERT | MODIFY), Some INSERT => Some (referred, current)
  | Some DELETE, Some DELETE => Some (current, referred)
  | _, _ => None
  end.

Definition RecordDependenciesForReferencedValue (all_vertices : list Update) (current_vertex : nat)
  (indices : Indices) (graph : Graph) (referenced_value : ReferencedValue) : Graph :=
  fold_left (λ graph referred_update_index,
    match dependency all_vertices current_vertex referred_update_index with
    | Some (u, v) => add_edge u v graph
    | None => graph
    end) (elements (default ∅ (indices !! referenced_value))) graph.

Definition record_references (all_vertices : list Update) (current_vertex : nat) (indices : Indices)
  (value : str) (references : list IrMatchFieldReference) (graph : Graph) : Graph :=
  fold_left (λ graph ir_reference,
    RecordDependenciesForReferencedValue all_vertices current_vertex indices graph
      (referred_table ir_reference, referred_field ir_reference, value)) references graph.

Definition RecordDependenciesForActionInvocation (all_vertices : list Update)
  (ir_action : IrActionDefinition) (current_vertex : nat) (indices : Indices)
  (params : list (Z * str)) (graph : Graph) : result Graph :=
  fold_result (λ graph param,
    param_definition ← FindOrStatus (params_by_id ir_action !! fst param);
    Ok (record_references all_vertices current_vertex indices (snd param) (param_references param_definition) graph))
    params graph.

(** The first loop: which updates have which referable values. *)
Definition index_reference (definition : IrTableDefinition) (update_index : nat) (update : Update)
  (indices : Indices) (ir_reference : IrMatchFieldReference) : result Indices :=
  if negb (bool_decide (preamble_alias definition = referred_table ir_reference)) then Ok indices else
  value ← GetMatchFieldValue definition update (referred_field ir_reference);
  match value with
  | None => Ok indices
  | Some v =>
    let key := (referred_table ir_reference, referred_field ir_reference, v) in
    Ok (<[key := {[ update_index ]} ∪ default ∅ (indices !! key)]> indices)
  end.

Definition index_update (info : IrP4Info) (indices : Indices) (u : nat * Update) : result Indices :=
  definition ← FindOrStatus (tables_by_id info !! table_id (table_entry (entity (snd u))));
  fold_result (index_reference definition (fst u) (snd u)) (references info) indices.

(** The references of one match field. *)
Definition record_match_field (all_vertices : list Update) (definition : IrTableDefinition)
  (update_index : nat) (indices : Indices) (graph : Graph) (m : FieldMatch) : result Graph :=
  match_field_definition ← FindOrStatus (match_fields_by_id definition !! field_id m);
  fold_result (λ graph ir_reference,
    match match_type (match_field match_field_definition) with
    | EXACT =>
      Ok (RecordDependenciesForReferencedValue all_vertices update_index indices graph
        (referred_table ir_reference, referred_field ir_reference,
         match field_match m with kExact v => v | _ => [] end))
    | OPTIONAL =>
      Ok (RecordDependenciesForReferencedValue all_vertices update_index indices graph
        (referred_table ir_reference, referred_field ir_reference,
         match field_match m with kOptional v => v | _ => [] end))
    | _ => Err kInvalidArgument
    end) (match_references match_field_definition) graph.

Definition record_action (info : IrP4Info) (all_vertices : list Update) (update_index : nat)
  (indices : Indices) (graph : Graph) (a : Action) : result Graph :=
  ir_action ← FindOrStatus (actions_by_id info !! action_id a);
  RecordDependenciesForActionInvocation all_vertices ir_action update_index indices (params a) graph.

(** The second loop. *)
Definition record_update (info : IrP4Info) (all_vertices : list Update) (indices : Indices)
  (graph : Graph) (u : nat * Update) : result Graph :=
  let '(update_index, update) := u in
  let entry := table_entry (entity update) in
  ir_table ← FindOrStatus (tables_by_id info !! table_id entry);
  graph ← fold_result (record_match_field all_vertices ir_table update_index indices) (match_ entry) graph;
  match action entry with
  | kAction a => record_action info all_vertices update_index indices graph a
  | kActionProfileActionSet actions =>
    fold_result (record_action info all_vertices update_index indices) (map set_action actions) graph
  | _ => Err kUnimplemented
  end.

Definition numbered (updates : list Update) : list (nat * Update) :=
  zip (seq 0 (length updates)) updates.

Definition BuildDependencyGraph (info : IrP4Info) (updates : list Update) : result Graph :=
  indices ← fold_result (index_update info) (numbered updates) ∅;
  fold_result (record_update info updates indices) (numbered updates) (mkGraph (length updates) ∅).

(** * Batches *)

(** One round: the out edges of the roots are removed, and the vertices that lose their last in edge
    are the next roots. *)
Definition remove_root (state : Graph * list nat) (root : nat) : Graph * list nat :=
  let '(graph, new_roots) := state in
  (clear_out_edges root graph,
   new_roots ++ List.filter (λ target, (in_degree target graph =? 1)%nat) (out_edges root graph)).

Fixpoint batches_loop (fuel : nat) (graph : Graph) (roots : list nat) (batches : list (list nat))
  : result (Graph * list (list nat)) :=
  match fuel with
  | O => Die
  | S fuel =>
    match roots with
    | [] => Ok (graph, batches)
    | _ =>
      let sorted := merge_sort le roots in
      let '(graph, new_roots) := fold_left remove_root sorted (graph, []) in
      batches_loop fuel graph new_roots (batches ++ [sorted])
    end
  end.

(** No vertex is a root twice, so there are at most as many rounds as vertices. *)
Definition SequenceGraph (graph : Graph) : result (list (list nat)) :=
  let roots := List.filter (λ v, (in_degree v graph =? 0)%nat) (seq 0 (vertices graph)) in
  out ← batches_loop (S (S (vertices graph))) graph roots [];
  let '(graph, batches) := out in
  if negb (size (edges graph) =? 0)%nat then Err kInvalidArgument else Ok batches.

Definition SequencePiUpdatesInPlace (info : IrP4Info) (updates : list Update)
  : result (list (list nat)) :=
  graph ← BuildDependencyGraph info updates;
  SequenceGraph graph.

(** * Write requests *)

Definition empty_header : SdnController.RequestHeader :=
  SdnController.mkRequestHeader 0 [] None.

(** The loop over the indices of a batch. *)
Fixpoint batch_requests (updates : list Update) (max_batch_size : option Z) (batch : list nat)
  (request : list Update) : result (list (list Update)) :=
  match batch with
  | [] => Ok [request]
  | index :: batch =>
    update ← match updates !! index with Some u => Ok u | None => Die end;
    if match max_batch_size with Some m => m <=? zlen request | None => false end
    then rest ← batch_requests updates max_batch_size batch [update]; Ok (request :: rest)
    else batch_requests updates max_batch_size batch (request ++ [update])
  end.

Definition SequencePiUpdatesIntoWriteRequests (info : IrP4Info) (updates : list Update)
  (max_batch_size : option Z) : result (list WriteRequest) :=
  if match max_batch_size with Some m => m <=? 0 | None => false end then Err kInvalidArgument else
  batches ← SequencePiUpdatesInPlace info updates;
  fold_result (λ requests batch,
    new ← batch_requests updates max_batch_size batch [];
    Ok (requests ++ map (WritePath.mkWriteRequest empty_header) new)) batches [].

(** [*request.mutable_election_id() = ...]: the copy has an election id, 0 if there was none. *)
Definition copied_header (header : SdnController.RequestHeader) : SdnController.RequestHeader :=
  SdnController.mkRequestHeader (SdnController.request_device_id header)
    (SdnController.request_role header)
    (Some (default (0, 0) (SdnController.request_election_id header))).

(** The requests so far, the last one first. *)
Fixpoint extract_loop (header : SdnController.RequestHeader) (max_write_request_size : Z)
  (updates : list Update) (i : Z) (requests : list WriteRequest) : result (list WriteRequest) :=
  match updates with
  | [] => Ok (rev requests)
  | u :: updates =>
    let requests :=
      if i mod max_write_request_size =? 0
      then WritePath.mkWriteRequest (copied_header header) [] :: requests else requests in
    match requests with
    | [] => Die
    | request :: requests =>
      extract_loop header max_write_request_size updates (i + 1)
        (WritePath.mkWriteRequest (WritePath.header request) (WritePath.updates request ++ [u])
           :: requests)
    end
  end.

Definition ExtractWriteRequests (write_request : WriteRequest) (max_write_request_size : option Z)
  : result (list WriteRequest) :=
  match max_write_request_size with
  | None => Ok [write_request]
  | Some m =>
    if zlen (WritePath.updates write_request) <=? m then Ok [write_request]
    else if m <? 1 then Err kInvalidArgument
    else extract_loop (WritePath.header write_request) m (WritePath.updates write_request) 0 []
  end.

(** * Sorting by rank *)

(** names.cc *)
Definition EntityToTableName (info : IrP4Info) (entity : Entity) : result str :=
  match entity with
  | kTableEntry entry =>
    table ← FindOrStatus (tables_by_id info !! table_id entry);
    Ok (preamble_alias table)
  | kPacketReplicationEngineEntry (kMulticastGroupEntry _ _ _) => Ok GetMulticastGroupTableName
  | kPacketReplicationEngineEntry (kCloneSessionEntry _ _ _ _) => Ok GetCloneSessionTableName
  | _ => Err kInvalidArgument
  end.

Definition GreaterThanInDependencyOrder (info : IrP4Info) (first second : Entity) : result bool :=
  first_table ← EntityToTableName info first;
  second_table ← EntityToTableName info second;
  first_order ← FindOrStatus (dependency_rank_by_table_name info !! first_table);
  second_order ← FindOrStatus (dependency_rank_by_table_name info !! second_table);
  Ok (second_order <? first_order).

(** The comparisons: an error is logged and counts as [false]. *)
Definition entity_before (info : IrP4Info) (a b : Entity) : bool :=
  match GreaterThanInDependencyOrder info a b with Ok b_may_depend_on_a => b_may_depend_on_a | _ => false end.

Definition update_before (info : IrP4Info) (reverse_ordering : bool) (a b : Update) : bool :=
  match GreaterThanInDependencyOrder info (entity a) (entity b) with
  | Ok b_may_depend_on_a => if reverse_ordering then negb b_may_depend_on_a else b_may_depend_on_a
  | _ => false
  end.

(** [std::stable_sort] with a strict weak order. *)
Fixpoint insert_before {A} (before : A → A → bool) (x : A) (l : list A) : list A :=
  match l with
  | [] => [x]
  | y :: l' => if before y x then y :: insert_before before x l' else x :: l
  end.

Definition stable_sort {A} (before : A → A → bool) (l : list A) : list A :=
  foldr (insert_before before) [] l.

Definition StableSortEntities (info : IrP4Info) (entities : list Entity) : list Entity :=
  stable_sort (entity_before info) entities.

(** With the default [reverse_ordering = false]; [update_before info true] is not a strict weak order,
    so that C++ does not define the result of the other sort. *)
Definition StableSortUpdates (info : IrP4Info) (updates : list Update) : list Update :=
  stable_sort (update_before info false) updates.
End sequencing.

(** * Batches of a graph *)

Section batches.
Implicit Types (g : Graph) (u v : nat).

Definition edge g u v : Prop := (u, v) ∈ edges g.
Definition has_in_edge g v : Prop := ∃ u, edge g u v.

#[local] Instance edge_dec g u v : Decision (edge g u v) := decide ((u, v) ∈ edges g).

Lemma edge_clear r g u v : edge (clear_out_edges r g) u v ↔ edge g u v ∧ u ≠ r.
Proof. unfold edge, clear_out_edges. cbn [edges]. rewrite elem_of_filter. cbn [fst]. tauto. Qed.

Lemma in_degree_zero g v : (in_degree v g =? 0)%nat = true ↔ ¬ has_in_edge g v.
Proof.
  rewrite Nat.eqb_eq. unfold in_degree. rewrite size_empty_iff. split.
  - intros He [u Hu].
    assert ((u, v) ∈ filter (λ e : nat * nat, e.2 = v) (edges g)) as Hm by by apply elem_of_filter.
    rewrite He in Hm. by apply elem_of_empty in Hm.
  - intros Hn. apply elem_of_equiv_empty. intros [u w] [Hw He]%elem_of_filter. cbn in Hw. subst.
    apply Hn. by exists u.
Qed.

(** An edge is the last one into its target exactly when the in degree is 1. *)
Lemma in_degree_one g u v :
  edge g u v → (in_degree v g =? 1)%nat = true ↔ ¬ has_in_edge (clear_out_edges u g) v.
Proof.
  intros He. rewrite Nat.eqb_eq. unfold in_degree.
  assert ((u, v) ∈ filter (λ e : nat * nat, e.2 = v) (edges g)) as Hmem by by apply elem_of_filter.
  split.
  - intros H1 [w [Hw Hne]%edge_clear].
    assert ((w, v) = (u, v)) as [= ->]; [|done].
    refine (size_singleton_inv (C := gset (nat * nat)) _ _ _ H1 _ Hmem). by apply elem_of_filter.
  - intros Hn. assert (filter (λ e : nat * nat, e.2 = v) (edges g) = {[ (u, v) ]}) as ->; [|apply size_singleton].
    apply set_eq. intros [w x]. rewrite elem_of_filter, elem_of_singleton. split.
    + intros [Hx Hw]. cbn in Hx. subst x. destruct (decide (w = u)) as [->|Hne]; [done|].
      exfalso. apply Hn. exists w. by apply edge_clear.
    + by intros [= -> ->].
Qed.

Lemma elem_of_out_edges g u v : v ∈ out_edges u g ↔ edge g u v.
Proof.
  unfold out_edges. rewrite list_elem_of_fmap. split.
  - intros ([a b] & -> & [Ha He]%elem_of_elements%elem_of_filter). cbn in Ha. by subst.
  - intros He. exists (u, v). split; [done|]. by apply elem_of_elements, elem_of_filter.
Qed.

Lemma NoDup_out_edges g u : NoDup (out_edges u g).
Proof.
  apply NoDup_fmap_2_strong; [|apply NoDup_elements].
  intros [a b] [c d] Ha%elem_of_elements%elem_of_filter Hc%elem_of_elements%elem_of_filter.
  destruct Ha as [Ha _], Hc as [Hc _]. cbn in *. congruence.
Qed.

(** A round keeps the out edges of the vertices that are not roots; the new roots are the vertices
    that had in edges and have none left. *)
Record round g (roots : list nat) g' (new_roots : list nat) : Prop := {
  round_edges u v : edge g' u v ↔ edge g u v ∧ u ∉ roots;
  round_vertices : vertices g' = vertices g;
  round_roots v : v ∈ new_roots ↔ has_in_edge g v ∧ ¬ has_in_edge g' v;
  round_nodup : NoDup new_roots;
}.

Lemma round_nil g : round g [] g [].
Proof.
  split; [|done|..|constructor].
  - intros u v. set_solver.
  - intros v. split; [by intros ?%elem_of_nil|tauto].
Qed.

Lemma round_snoc g roots g' new r :
  round g roots g' new →
  round g (roots ++ [r]) (fst (remove_root (g', new) r)) (snd (remove_root (g', new) r)).
Proof.
  intros [He Hv Hr Hnd]. cbn [remove_root fst snd].
  assert (∀ v, v ∈ List.filter (λ v, (in_degree v g' =? 1)%nat) (out_edges r g') ↔
    edge g' r v ∧ ¬ has_in_edge (clear_out_edges r g') v) as Hf.
  { intros v. rewrite list_elem_of_In, filter_In, <-list_elem_of_In, elem_of_out_edges. split.
    - intros [Hrv H1]. split; [done|]. by apply (in_degree_one g' r v).
    - intros [Hrv H1]. split; [done|]. by apply (in_degree_one g' r v). }
  split.
  - intros u v. rewrite edge_clear, He, not_elem_of_app, list_elem_of_singleton. tauto.
  - done.
  - intros v. rewrite elem_of_app, Hr, Hf. split.
    + intros [[Hin Hno]|[Hrv Hno]].
      * split; [done|]. intros [u [Hu _]%edge_clear]. apply Hno. by exists u.
      * split; [|done]. exists r. by apply He.
    + intros [Hin Hno]. destruct (decide (edge g' r v)) as [Hrv|Hrv]; [by right|left].
      split; [done|]. intros [u Hu]. apply Hno. exists u. apply edge_clear. split; [done|]. by intros ->.
  - apply NoDup_app. split; [done|]. split.
    + intros v Hin%Hr [Hrv _]%Hf. destruct Hin as [_ Hno]. apply Hno. by exists r.
    + apply NoDup_filter_bool. apply NoDup_out_edges.
Qed.

Lemma round_spec g roots :
  round g roots (fst (fold_left remove_root roots (g, []))) (snd (fold_left remove_root roots (g, []))).
Proof.
  induction roots as [|r roots IH] using rev_ind; [apply round_nil|].
  rewrite fold_left_app. cbn [fold_left].
  destruct (fold_left remove_root roots (g, [])) as [g' new] eqn:E. by apply round_snoc.
Qed.

(** ** The rounds *)

(** The batches sent so far and the next roots, for the original graph [g0]. *)
Record progress g0 (batches : list (list nat)) g (roots : list nat) : Prop := {
  progress_edges u v : edge g u v ↔ edge g0 u v ∧ u ∉ List.concat batches;
  progress_vertices : vertices g = vertices g0;
  progress_roots v :
    v ∈ roots ↔ (v < vertices g0)%nat ∧ (v ∉ List.concat batches) ∧ ¬ has_in_edge g v;
  progress_done j b v :
    batches !! j = Some b → v ∈ b →
    (v < vertices g0)%nat ∧ ∀ u, edge g0 u v → u ∈ List.concat (take j batches);
  progress_early j b v :
    batches !! S j = Some b → v ∈ b → ∃ b' u, batches !! j = Some b' ∧ u ∈ b' ∧ edge g0 u v;
  progress_next b v : v ∈ roots → last batches = Some b → ∃ u, u ∈ b ∧ edge g0 u v;
  progress_nodup : NoDup (List.concat batches ++ roots);
  progress_sorted : Forall (λ b, Sorted le b ∧ b ≠ []) batches;
}.

(** Every edge joins two vertices. *)
Definition graph_ok g : Prop := ∀ u v, edge g u v → (u < vertices g)%nat ∧ (v < vertices g)%nat.

Lemma progress_start g :
  progress g [] g (List.filter (λ v, (in_degree v g =? 0)%nat) (seq 0 (vertices g))).
Proof.
  split; cbn [List.concat app].
  - intros u v. set_solver.
  - done.
  - intros v. rewrite list_elem_of_In, filter_In, <-list_elem_of_In, elem_of_seq, in_degree_zero.
    set_solver by lia.
  - done.
  - done.
  - done.
  - apply NoDup_filter_bool. apply NoDup_seq.
  - constructor.
Qed.

Lemma elem_of_concat {A} (x : A) ls : x ∈ List.concat ls ↔ ∃ i l, ls !! i = Some l ∧ x ∈ l.
Proof.
  rewrite list_elem_of_In, in_concat. split.
  - intros (l & Hl%list_elem_of_In & Hx%list_elem_of_In).
    apply list_elem_of_lookup_1 in Hl as [i Hi]. eauto.
  - intros (i & l & Hi & Hx). exists l. split; [|by rewrite <-list_elem_of_In].
    rewrite <-list_elem_of_In. by eapply list_elem_of_lookup_2.
Qed.

#[local] Instance has_in_edge_dec g v : Decision (has_in_edge g v).
Proof.
  destruct (in_degree v g =? 0)%nat eqn:E; [right; by apply in_degree_zero|left].
  destruct (decide (filter (λ e : nat * nat, e.2 = v) (edges g) = ∅)) as [He|He].
  - unfold in_degree in E. rewrite He, size_empty in E. discriminate E.
  - apply set_choose_L in He as [[u w] [Hw He]%elem_of_filter]. cbn in Hw. subst. by exists u.
Defined.

Lemma progress_step g0 batches g roots sorted g' new :
  graph_ok g0 → progress g0 batches g roots → roots ≠ [] → sorted ≡ₚ roots → Sorted le sorted →
  round g sorted g' new → progress g0 (batches ++ [sorted]) g' new.
Proof.
  intros Hok [He Hv Hr Hd Hearly Hnext Hnd Hs] Hne Hperm Hsorted [He' Hv' Hr' Hnd'].
  assert (∀ v, v ∈ sorted ↔ v ∈ roots) as Hmem by (intros v; by rewrite Hperm).
  assert (∀ v, v ∈ List.concat batches → ¬ has_in_edge g v) as Hdone.
  { intros v (j & b & Hj & Hb)%elem_of_concat [u [Hu Hnot]%He].
    apply Hnot. destruct (Hd j b v Hj Hb) as [_ Hpre]. specialize (Hpre u Hu).
    apply elem_of_concat in Hpre as (i & l & Hl & ?). apply elem_of_concat. exists i, l.
    split; [|done]. by apply lookup_take_Some in Hl as [? _]. }
  assert (List.concat (batches ++ [sorted]) = List.concat batches ++ sorted) as Hcat.
  { by rewrite concat_app; cbn [List.concat]; rewrite app_nil_r. }
  assert (∀ v, v ∈ new ↔ (v < vertices g0)%nat ∧ (v ∉ List.concat batches ++ sorted) ∧ ¬ has_in_edge g' v) as Hnew.
  { intros v. rewrite Hr', not_elem_of_app, Hmem. split.
    - intros [[u Hu] Hno]. pose proof (proj1 (He u v) Hu) as [Hu0 _].
      destruct (Hok u v Hu0) as [_ Hlt]. split; [done|]. split; [split|done].
      + intros Hc. apply (Hdone v Hc). by exists u.
      + intros [_ [_ Hno']]%Hr. apply Hno'. by exists u.
    - intros (Hlt & [Hc Hroot] & Hno). split; [|done]. destruct (decide (has_in_edge g v)) as [|Hn]; [done|].
      exfalso. apply Hroot, Hr. auto. }
  split.
  - intros u v. rewrite He', He, Hcat, not_elem_of_app. tauto.
  - congruence.
  - intros v. by rewrite Hcat.
  - intros j b v [Hj|[Hlen Hj]]%lookup_app_Some Hb.
    + destruct (Hd j b v Hj Hb) as [Hlt Hpre]. split; [done|]. intros u Hu.
      rewrite take_app_le by (apply lookup_lt_Some in Hj; lia). auto.
    + apply list_lookup_singleton_Some in Hj as [Hj <-]. apply Hmem, Hr in Hb as (Hlt & _ & Hno).
      split; [done|]. intros u Hu. rewrite take_app_ge by lia.
      destruct (decide (u ∈ List.concat batches)) as [|Hnot].
      * rewrite concat_app, elem_of_app. by left.
      * exfalso. apply Hno. exists u. by apply He.
  - intros j b v [Hj|[Hlen Hj]]%lookup_app_Some Hb.
    + destruct (Hearly j b v Hj Hb) as (b' & u & Hb' & ? & ?). exists b', u. split; [|done].
      by apply lookup_app_l_Some.
    + apply list_lookup_singleton_Some in Hj as [Hj <-]. apply Hmem in Hb.
      destruct (last batches) as [b'|] eqn:Hl.
      * destruct (Hnext b' v Hb eq_refl) as (u & ? & ?). exists b', u. split; [|done].
        apply lookup_app_l_Some. rewrite last_lookup in Hl. by replace j with (pred (length batches)) by lia.
      * apply last_None in Hl. subst. cbn in Hlen. cbn in Hj. lia.
  - intros b v Hin. rewrite last_snoc. intros [= <-]. apply Hr' in Hin as [[u Hu] Hno].
    exists u. destruct (decide (u ∈ sorted)) as [|Hnot].
    + split; [done|]. by apply He in Hu as [? _].
    + exfalso. apply Hno. exists u. by apply He'.
  - rewrite Hcat. apply NoDup_app. split; [by rewrite Hperm|]. split; [|done].
    intros v Hin [_ [Hnot _]]%Hnew. done.
  - apply Forall_app. split; [done|]. apply Forall_singleton. split; [done|].
    intros ->. apply Permutation_nil in Hperm. done.
Qed.

Lemma progress_length g0 batches g roots :
  progress g0 batches g roots → (length (List.concat batches) + length roots ≤ vertices g0)%nat.
Proof.
  intros [_ _ Hr Hd _ _ Hnd _]. rewrite <-length_app, <-(length_seq (vertices g0) 0).
  apply NoDup_incl_length; [by apply NoDup_ListNoDup|].
  intros v. rewrite <-!list_elem_of_In, elem_of_seq, elem_of_app.
  intros [(i & b & Hi & Hb)%elem_of_concat|[Hlt _]%Hr]; [|lia].
  destruct (Hd i b v Hi Hb) as [Hlt _]. lia.
Qed.

Lemma batches_loop_spec g0 fuel g roots batches :
  graph_ok g0 → progress g0 batches g roots →
  (vertices g0 < fuel + length (List.concat batches))%nat →
  ∃ g' batches', batches_loop fuel g roots batches = Ok (g', batches') ∧ progress g0 batches' g' [].
Proof.
  intros Hok. revert g roots batches.
  induction fuel as [|fuel IH]; intros g roots batches Hp Hfuel.
  { pose proof (progress_length _ _ _ _ Hp). lia. }
  destruct roots as [|r roots].
  { by exists g, batches. }
  set (sorted := merge_sort le (r :: roots)).
  pose proof (round_spec g sorted) as Hround.
  pose proof (merge_sort_Permutation le (r :: roots)) as Hperm.
  assert (batches_loop (S fuel) g (r :: roots) batches =
    batches_loop fuel (fst (fold_left remove_root sorted (g, [])))
      (snd (fold_left remove_root sorted (g, []))) (batches ++ [sorted])) as ->.
  { cbn [batches_loop]. fold sorted. by destruct (fold_left remove_root sorted (g, [])). }
  apply IH.
  - eapply progress_step; [done|exact Hp|done|exact Hperm| |exact Hround].
    apply Sorted_merge_sort. intros x y. lia.
  - rewrite concat_app, length_app. cbn [List.concat]. rewrite app_nil_r.
    unfold sorted. rewrite (Permutation_length Hperm). cbn [length]. lia.
Qed.

Definition acyclic g : Prop := ∀ v, ¬ tc (edge g) v v.

(** In a finite graph without cycles every vertex is above a source: edges all of whose sources have
    an in edge make a cycle. *)
Lemma acyclic_has_source g (P : nat → Prop) v :
  graph_ok g → acyclic g → P v → (∀ v, P v → ∃ u, P u ∧ edge g u v) → False.
Proof.
  intros Hok Hac Hv Hstep.
  assert (sn (flip (edge g)) v) as Hsn.
  { apply tc_finite_sn.
    - intros x Hx. apply (Hac x). clear -Hx.
      assert (∀ a b, tc (flip (edge g)) a b → tc (edge g) b a) as Hflip.
      { induction 1 as [a b Hab|a b c Hab _ IH]; [by apply tc_once|]. eapply tc_r; [exact IH|exact Hab]. }
      by apply Hflip.
    - exists (seq 0 (vertices g)).
      intros u Hu. apply elem_of_seq. split; [lia|].
      assert (∀ a b, tc (flip (edge g)) a b → (b < vertices g)%nat) as Hlt.
      { induction 1 as [a b Hab|a b c Hab _ IH]; [|done]. by apply (Hok b a). }
      pose proof (Hlt _ _ Hu). lia. }
  revert Hv. induction Hsn as [v _ IH]. intros Hv. destruct (Hstep v Hv) as (u & Hu & He).
  by apply (IH u He).
Qed.

(** The batches are in order along every path. *)
Lemma tc_order g (batches : list (list nat)) :
  (∀ j b u v, batches !! j = Some b → v ∈ b → edge g u v →
     ∃ i b', (i < j)%nat ∧ batches !! i = Some b' ∧ u ∈ b') →
  ∀ u v, tc (edge g) u v → ∀ j b, batches !! j = Some b → v ∈ b →
    ∃ i b', (i < j)%nat ∧ batches !! i = Some b' ∧ u ∈ b'.
Proof.
  intros Horder u v Htc. induction Htc as [u v Huv|u w v Huw _ IH]; intros j b Hj Hv.
  - by apply (Horder j b u v).
  - destruct (IH j b Hj Hv) as (i & b' & Hi & Hb' & Hw).
    destruct (Horder i b' u w Hb' Hw Huw) as (k & b'' & Hk & ? & ?). exists k, b''. split; [lia|done].
Qed.

(** What sequencing promises for [n] updates: every one is in exactly one batch, after the batches of
    its dependencies and right after one of them; batches are sorted and not empty. *)
Record batching (n : nat) (R : nat → nat → Prop) (batches : list (list nat)) : Prop := {
  batching_complete : List.concat batches ≡ₚ seq 0 n;
  batching_sorted : Forall (λ b, Sorted le b ∧ b ≠ []) batches;
  batching_order j b u v :
    batches !! j = Some b → v ∈ b → R u v → ∃ i b', (i < j)%nat ∧ batches !! i = Some b' ∧ u ∈ b';
  batching_early j b v :
    batches !! S j = Some b → v ∈ b → ∃ b' u, batches !! j = Some b' ∧ u ∈ b' ∧ R u v;
}.

Lemma batching_equiv n (R R' : nat → nat → Prop) batches :
  (∀ u v, R u v ↔ R' u v) → batching n R batches → batching n R' batches.
Proof.
  intros HR [Hc Hs Ho He]. split; [done|done|..].
  - intros j b u v Hj Hv Huv. apply (Ho j b u v Hj Hv). by apply HR.
  - intros j b v Hj Hv. destruct (He j b v Hj Hv) as (b' & u & ? & ? & Hu). exists b', u. by rewrite <-HR.
Qed.

Lemma progress_order g0 batches g j b u v :
  progress g0 batches g [] → batches !! j = Some b → v ∈ b → edge g0 u v →
  ∃ i b', (i < j)%nat ∧ batches !! i = Some b' ∧ u ∈ b'.
Proof.
  intros Hp Hj Hv Hu. destruct (progress_done _ _ _ _ Hp j b v Hj Hv) as [_ Hpre].
  apply Hpre, elem_of_concat in Hu as (i & b' & [Hb' Hi]%lookup_take_Some & ?). eauto.
Qed.

Lemma SequenceGraph_spec g :
  graph_ok g →
  (acyclic g → ∃ batches, SequenceGraph g = Ok batches ∧ batching (vertices g) (edge g) batches) ∧
  (¬ acyclic g → SequenceGraph g = Err kInvalidArgument).
Proof.
  intros Hok. unfold SequenceGraph.
  destruct (batches_loop_spec g (S (S (vertices g))) g
    (List.filter (λ v, (in_degree v g =? 0)%nat) (seq 0 (vertices g))) [] Hok (progress_start g))
    as (g' & batches & -> & Hp); [cbn; lia|]. rewrite bind_Ok_l.
  pose proof (λ j b u v, progress_order g batches g' j b u v Hp) as Horder.
  destruct Hp as [He Hv Hr Hd Hearly Hnext Hnd Hs].
  assert (acyclic g → size (edges g') = 0%nat) as Hempty.
  { intros Hac. apply size_empty_iff, elem_of_equiv_empty. intros [u v] Huv.
    pose proof (proj1 (He u v) Huv) as [Huv0 Hu].
    apply (acyclic_has_source g (λ v, (v < vertices g)%nat ∧ v ∉ List.concat batches) u Hok Hac).
    - split; [by apply (Hok u v)|done].
    - intros w [Hlt Hw]. destruct (decide (has_in_edge g' w)) as [[x Hx]|Hn].
      + apply He in Hx as [Hx Hxn]. exists x. split; [split; [by apply (Hok x w)|done]|done].
      + exfalso. assert (w ∈ @nil nat) as Hbad by (apply Hr; auto). by apply elem_of_nil in Hbad. }
  split.
  - intros Hac. rewrite (Hempty Hac). exists batches. split; [done|].
    split; [|done|exact Horder|exact Hearly].
    apply NoDup_Permutation; [by rewrite app_nil_r in Hnd|apply NoDup_seq|].
    intros v. rewrite elem_of_seq. split.
    + intros (i & b & Hi & Hb)%elem_of_concat. destruct (Hd i b v Hi Hb). lia.
    + intros [_ Hlt]. destruct (decide (v ∈ List.concat batches)) as [|Hn]; [done|]. exfalso.
      assert (v ∈ @nil nat) as Hbad; [|by apply elem_of_nil in Hbad].
      apply Hr. split; [lia|]. split; [done|]. intros [u Hu].
      specialize (Hempty Hac). apply size_empty_iff in Hempty.
      assert ((u, v) ∈ edges g') as Hm by done. rewrite Hempty in Hm. by apply elem_of_empty in Hm.
  - intros Hcyc. destruct (size (edges g') =? 0)%nat eqn:Hz; [|done]. exfalso. apply Hcyc.
    apply Nat.eqb_eq, size_empty_iff in Hz. intros v Htc.
    assert (∃ j b, batches !! j = Some b ∧ v ∈ b) as (j & b & Hj & Hb).
    { apply elem_of_concat. destruct (decide (v ∈ List.concat batches)) as [|Hn]; [done|]. exfalso.
      assert (v ∈ @nil nat) as Hbad; [|by apply elem_of_nil in Hbad].
      apply Hr. split; [|split; [done|]].
      - inversion Htc as [? ? H1|? ? ? H1]; subst; by apply (Hok _ _ H1).
      - intros [u Hu]. assert ((u, v) ∈ edges g') as Hm by done.
        rewrite Hz in Hm. by apply elem_of_empty in Hm. }
    clear Hcyc. revert v b Htc Hj Hb. induction j as [j IH] using lt_wf_ind. intros v b Htc Hj Hb.
    destruct (tc_order g batches Horder v v Htc j b Hj Hb) as (i & b' & Hi & Hb' & Hv').
    by apply (IH i Hi v b').
Qed.
End batches.

(** * The dependency graph is the one of the references *)

Section dependency_graph.
Context `{Gutil}.
Implicit Types (info : IrP4Info) (updates : list Update) (k : ReferencedValue).

(** [update] has the referable value [k]. *)
Definition provides info (update : Update) k : Prop :=
  ∃ definition r, tables_by_id info !! table_id (table_entry (entity update)) = Some definition ∧
    r ∈ references info ∧ preamble_alias definition = referred_table r ∧
    GetMatchFieldValue definition update (referred_field r) = Ok (Some k.2) ∧
    k.1 = (referred_table r, referred_field r).

(** The value that a match field of the given kind refers with. *)
Definition reference_value (t : MatchType) (m : FieldMatch) : str :=
  match t, field_match m with EXACT, kExact v | OPTIONAL, kOptional v => v | _, _ => [] end.

Definition invocation_uses info (a : Action) k : Prop :=
  ∃ ir_action p d r, actions_by_id info !! action_id a = Some ir_action ∧ p ∈ params a ∧
    params_by_id ir_action !! fst p = Some d ∧ r ∈ param_references d ∧ k = (referred_table r, referred_field r, snd p).

Definition invocations (entry : TableEntry) : list Action :=
  match action entry with
  | kAction a => [a]
  | kActionProfileActionSet actions => map set_action actions
  | _ => []
  end.

(** [update] refers to the value [k], in a match field or in an action parameter. *)
Definition uses info (update : Update) k : Prop :=
  let entry := table_entry (entity update) in
  (∃ definition m d r, tables_by_id info !! table_id entry = Some definition ∧ m ∈ match_ entry ∧
     match_fields_by_id definition !! field_id m = Some d ∧ r ∈ match_references d ∧
     k = (referred_table r, referred_field r, reference_value (match_type (match_field d)) m)) ∨
  (∃ a, a ∈ invocations entry ∧ invocation_uses info a k).

(** [v] must come after [u]: one of the two refers to a value of the other; an insertion or
    modification comes after the insertion of what it refers to, a deletion before the deletion of
    what it refers to. *)
Definition depends info updates (u v : nat) : Prop :=
  ∃ current referred a b k, dependency updates current referred = Some (u, v) ∧
    updates !! current = Some a ∧ updates !! referred = Some b ∧ uses info a k ∧ provides info b k.

Lemma edge_add_edge x y g u v : edge (add_edge x y g) u v ↔ (u, v) = (x, y) ∨ edge g u v.
Proof. unfold edge, add_edge. cbn [edges]. set_solver. Qed.

Lemma numbered_lookup updates i u : (i, u) ∈ numbered updates ↔ updates !! i = Some u.
Proof. apply elem_of_zip_seq. Qed.

(** The edges that references to the values [ks] of update [current] add. *)
Record extends (all : list Update) (indices : gmap ReferencedValue (gset nat)) (current : nat)
  (ks : ReferencedValue → Prop) (g g' : Graph) : Prop := {
  extends_vertices : vertices g' = vertices g;
  extends_edges u v : edge g' u v ↔ edge g u v ∨
    ∃ k referred, ks k ∧ referred ∈ (default ∅ (indices !! k) : gset nat) ∧
      dependency all current referred = Some (u, v);
}.

Lemma extends_equiv all indices current ks ks' g g' :
  (∀ k, ks k ↔ ks' k) → extends all indices current ks g g' → extends all indices current ks' g g'.
Proof. intros Hk [Hv He]. split; [done|]. intros u v. rewrite He. by setoid_rewrite Hk. Qed.

Lemma extends_refl all indices current g : extends all indices current (λ _, False) g g.
Proof. split; [done|]. naive_solver. Qed.

Lemma extends_trans all indices current ks1 ks2 g1 g2 g3 :
  extends all indices current ks1 g1 g2 → extends all indices current ks2 g2 g3 →
  extends all indices current (λ k, ks1 k ∨ ks2 k) g1 g3.
Proof.
  intros [Hv1 He1] [Hv2 He2]. split; [congruence|]. intros u v. rewrite He2, He1. naive_solver.
Qed.

(** A loop over the parts [l] each of which adds the references of its own values. *)
Lemma extends_fold {A} all indices current (P : A → ReferencedValue → Prop) (f : Graph → A → result Graph) l g g' :
  (∀ g x g', x ∈ l → f g x = Ok g' → extends all indices current (P x) g g') →
  fold_result f l g = Ok g' → extends all indices current (λ k, ∃ x, x ∈ l ∧ P x k) g g'.
Proof.
  revert g. induction l as [|x l IH]; intros g Hf; cbn [fold_result].
  - intros [= ->]. eapply extends_equiv, extends_refl. intros k. set_solver.
  - intros (g1 & Hx & Hl)%bind_Ok_iff.
    apply (extends_equiv _ _ _ (λ k, P x k ∨ ∃ y, y ∈ l ∧ P y k)); [intros k; set_solver|].
    apply (extends_trans _ _ _ (P x) _ g g1 g').
    + apply (Hf g x g1); [set_solver|done].
    + apply IH; [set_solver|done].
Qed.

(** Loops without errors. *)
Lemma fold_left_result {A S} (f : S → A → S) l s :
  fold_result (λ s x, Ok (f s x)) l s = Ok (fold_left f l s).
Proof. revert s. induction l as [|x l IH]; intros s; [done|]. apply IH. Qed.

Lemma RecordDependenciesForReferencedValue_extends all current indices g k :
  extends all indices current (λ k', k' = k) g
    (RecordDependenciesForReferencedValue all current indices g k).
Proof.
  split.
  - unfold RecordDependenciesForReferencedValue.
    generalize (elements (default ∅ (indices !! k))) as l. intros l. revert g.
    induction l as [|x l IH]; intros g; [done|]. cbn [fold_left]. rewrite IH.
    by destruct (dependency all current x) as [[a b]|].
  - intros u v. unfold RecordDependenciesForReferencedValue.
    transitivity (edge g u v ∨ ∃ referred, referred ∈ elements (default ∅ (indices !! k)) ∧
      dependency all current referred = Some (u, v)).
    2: { split; [|naive_solver set_solver].
      intros [He|(x & Hx & Hd)]; [by left|right]. exists k, x. by rewrite <-elem_of_elements. }
    generalize (elements (default ∅ (indices !! k))) as l. intros l. revert g.
    induction l as [|x l IH]; intros g; cbn [fold_left]; [set_solver|]. rewrite IH.
    setoid_rewrite elem_of_cons. destruct (dependency all current x) as [[a b]|] eqn:Hd.
    + rewrite edge_add_edge. split; [|naive_solver].
      intros [[[= -> ->]|]|]; naive_solver.
    + naive_solver.
Qed.

(** The first loop collects the updates of every value. *)
Lemma index_reference_spec definition i update indices r indices' :
  index_reference definition i update indices r = Ok indices' →
  ∀ k j, j ∈ (default ∅ (indices' !! k) : gset nat) ↔
    j ∈ (default ∅ (indices !! k) : gset nat) ∨ j = i ∧ preamble_alias definition = referred_table r ∧
      GetMatchFieldValue definition update (referred_field r) = Ok (Some k.2) ∧ k.1 = (referred_table r, referred_field r).
Proof.
  unfold index_reference. case_if; bool_prop; [intros [= ->]; naive_solver|].
  destruct (GetMatchFieldValue _ _ _) as [[v|]| |]; try done; [|intros [= ->]; naive_solver].
  rewrite bind_Ok_l. intros [= <-] k j.
  destruct (decide (k = (referred_table r, referred_field r, v))) as [->|Hne].
  - rewrite lookup_insert_eq. cbn. set_solver.
  - rewrite lookup_insert_ne by done. split; [by left|]. intros [|(-> & _ & [= ->] & Hk)]; [done|].
    exfalso. apply Hne. destruct k as [k1 k2]. cbn in *. by subst.
Qed.

Lemma index_update_spec info indices i update indices' :
  index_update info indices (i, update) = Ok indices' →
  ∀ k j, j ∈ (default ∅ (indices' !! k) : gset nat) ↔
    j ∈ (default ∅ (indices !! k) : gset nat) ∨ j = i ∧ provides info update k.
Proof.
  unfold index_update. cbn [fst snd]. intros (definition & Hdef%FindOrStatus_Ok & Hfold)%bind_Ok_iff k j.
  assert (j ∈ (default ∅ (indices' !! k) : gset nat) ↔ j ∈ (default ∅ (indices !! k) : gset nat) ∨ j = i ∧
    ∃ r, r ∈ references info ∧ preamble_alias definition = referred_table r ∧
      GetMatchFieldValue definition update (referred_field r) = Ok (Some k.2) ∧
      k.1 = (referred_table r, referred_field r)) as ->.
  { revert Hfold. apply (fold_result_ind (index_reference definition i update)
      (λ done ix, j ∈ (default ∅ (ix !! k) : gset nat) ↔ j ∈ (default ∅ (indices !! k) : gset nat) ∨ j = i ∧
        ∃ r, r ∈ done ∧ preamble_alias definition = referred_table r ∧
          GetMatchFieldValue definition update (referred_field r) = Ok (Some k.2) ∧
          k.1 = (referred_table r, referred_field r))).
    - set_solver.
    - intros done r ix1 ix2 IH Hr. rewrite (index_reference_spec _ _ _ _ _ _ Hr), IH.
      setoid_rewrite elem_of_app. setoid_rewrite list_elem_of_singleton.
      generalize (j ∈ (default ∅ (indices !! k) : gset nat)). intros Q. clear -Q. firstorder subst; eauto 10. }
  unfold provides. rewrite Hdef. generalize (j ∈ (default ∅ (indices !! k) : gset nat)). intros Q. naive_solver.
Qed.

Lemma index_spec info updates indices :
  fold_result (index_update info) (numbered updates) ∅ = Ok indices →
  ∀ k j, j ∈ (default ∅ (indices !! k) : gset nat) ↔ ∃ u, updates !! j = Some u ∧ provides info u k.
Proof.
  intros Hfold k j. setoid_rewrite <-numbered_lookup. revert Hfold.
  apply (fold_result_ind (index_update info) (λ done ix, j ∈ (default ∅ (ix !! k) : gset nat) ↔
    ∃ u, (j, u) ∈ done ∧ provides info u k)).
  - rewrite lookup_empty. set_solver.
  - intros done [i u] ix1 ix2 IH Hu. rewrite (index_update_spec _ _ _ _ _ Hu), IH.
    setoid_rewrite elem_of_app. setoid_rewrite list_elem_of_singleton. naive_solver.
Qed.

(** The second loop adds the edges of the references of every update. *)
Lemma record_match_field_extends all definition i indices g m g' :
  record_match_field all definition i indices g m = Ok g' →
  extends all indices i (λ k, ∃ d r, match_fields_by_id definition !! field_id m = Some d ∧
    r ∈ match_references d ∧ k = (referred_table r, referred_field r, reference_value (match_type (match_field d)) m)) g g'.
Proof.
  unfold record_match_field. intros (d & Hd%FindOrStatus_Ok & Hfold)%bind_Ok_iff.
  eapply (extends_equiv _ _ _ (λ k, ∃ r, r ∈ match_references d ∧
    k = (referred_table r, referred_field r, reference_value (match_type (match_field d)) m))); [intros k; naive_solver|].
  eapply extends_fold; [|exact Hfold]. cbn beta. intros g1 r g2 _. unfold reference_value.
  destruct (match_type (match_field d)), (field_match m); try done; intros [= <-];
    apply RecordDependenciesForReferencedValue_extends.
Qed.

Lemma record_action_extends info all i indices g a g' :
  record_action info all i indices g a = Ok g' → extends all indices i (invocation_uses info a) g g'.
Proof.
  unfold record_action, RecordDependenciesForActionInvocation.
  intros (ir & Hir%FindOrStatus_Ok & Hfold)%bind_Ok_iff.
  apply (extends_equiv _ _ _ (λ k, ∃ p, p ∈ params a ∧ ∃ d r, params_by_id ir !! fst p = Some d ∧ r ∈ param_references d ∧
    k = (referred_table r, referred_field r, snd p))); [unfold invocation_uses; naive_solver|].
  eapply extends_fold; [|exact Hfold]. cbn beta. intros g1 p g2 _ (d & Hd%FindOrStatus_Ok & [= <-])%bind_Ok_iff.
  apply (extends_equiv _ _ _ (λ k, ∃ r, r ∈ param_references d ∧ k = (referred_table r, referred_field r, snd p))); [naive_solver|].
  eapply extends_fold; [|apply fold_left_result]. cbn beta. intros g3 r g4 _ [= <-].
  apply RecordDependenciesForReferencedValue_extends.
Qed.

Lemma record_update_extends info all indices g i update g' :
  record_update info all indices g (i, update) = Ok g' → extends all indices i (uses info update) g g'.
Proof.
  unfold record_update, uses. set (entry := table_entry (entity update)).
  intros (definition & Hdef%FindOrStatus_Ok & (g1 & Hmatch & Hact)%bind_Ok_iff)%bind_Ok_iff.
  apply (extends_trans _ _ _ _ _ g g1 g').
  - eapply extends_equiv; [|eapply extends_fold; [|exact Hmatch]].
    2: { intros g2 m g3 _. apply record_match_field_extends. }
    intros k. cbn beta. naive_solver.
  - unfold invocations. destruct (action entry) as [|a|n|n|actions|]; try done.
    + apply (extends_equiv _ _ _ (invocation_uses info a)); [|by apply record_action_extends].
      intros k. set_solver.
    + eapply extends_fold; [|exact Hact]. intros g2 a g3 _. apply record_action_extends.
Qed.

Lemma dependency_bound updates current referred u v :
  dependency updates current referred = Some (u, v) →
  (u = current ∧ v = referred ∨ u = referred ∧ v = current) ∧
  (current < length updates)%nat ∧ (referred < length updates)%nat.
Proof.
  unfold dependency. destruct (updates !! current) as [a|] eqn:Ha; [|done].
  destruct (updates !! referred) as [b|] eqn:Hb; [|cbn; by destruct (type_ a)].
  apply lookup_lt_Some in Ha, Hb. cbn. destruct (type_ a), (type_ b); naive_solver.
Qed.

Lemma BuildDependencyGraph_edges info updates g :
  BuildDependencyGraph info updates = Ok g →
  vertices g = length updates ∧ ∀ u v, edge g u v ↔ depends info updates u v.
Proof.
  unfold BuildDependencyGraph. intros (indices & Hix & Hg)%bind_Ok_iff.
  pose proof (index_spec _ _ _ Hix) as Hindices.
  assert (vertices g = length updates ∧ ∀ u v, edge g u v ↔ ∃ i update k j,
    (i, update) ∈ numbered updates ∧ uses info update k ∧ j ∈ (default ∅ (indices !! k) : gset nat) ∧
    dependency updates i j = Some (u, v)) as [Hv He].
  { revert Hg. apply (fold_result_ind (record_update info updates indices)
      (λ done g, vertices g = length updates ∧ ∀ u v, edge g u v ↔ ∃ i update k j,
        (i, update) ∈ done ∧ uses info update k ∧ j ∈ (default ∅ (indices !! k) : gset nat) ∧
        dependency updates i j = Some (u, v))).
    - split; [done|]. unfold edge. cbn. set_solver.
    - intros done [i update] g1 g2 [Hv He] [Hv' He']%record_update_extends. split; [congruence|].
      intros u v. rewrite He', He. split.
      + intros [(i' & b & k & j & Hb & Hrest)|(k & j & Hk & Hj & Hd)].
        * exists i', b, k, j. split; [|done]. by apply elem_of_app; left.
        * exists i, update, k, j. split; [|done]. apply elem_of_app. right. by apply list_elem_of_singleton.
      + intros (i' & b & k & j & [Hb|[= -> ->]%list_elem_of_singleton]%elem_of_app & Hrest).
        * left. by exists i', b, k, j.
        * right. by exists k, j. }
  split; [done|]. intros u v. rewrite He. unfold depends. setoid_rewrite numbered_lookup.
  setoid_rewrite Hindices. split.
  - intros (i & a & k & j & Ha & Hk & (b & Hb & Hp) & Hd). by exists i, j, a, b, k.
  - intros (i & j & a & b & k & Hd & Ha & Hb & Hk & Hp). exists i, a, k, j. split_and!; [done|done|by exists b|done].
Qed.

Lemma BuildDependencyGraph_ok info updates g : BuildDependencyGraph info updates = Ok g → graph_ok g.
Proof.
  intros [Hv He]%BuildDependencyGraph_edges u v (i & j & a & b & k & Hd & _)%He. rewrite Hv.
  apply dependency_bound in Hd. lia.
Qed.

(** Everything an update mentions is known, and only exact and optional match fields refer. *)
Definition resolved_action info (a : Action) : Prop :=
  ∃ ir_action, actions_by_id info !! action_id a = Some ir_action ∧
    ∀ p, p ∈ params a → is_Some (params_by_id ir_action !! fst p).

Definition resolved info (update : Update) : Prop :=
  let entry := table_entry (entity update) in
  ∃ definition, tables_by_id info !! table_id entry = Some definition ∧
    (∀ r, r ∈ references info → preamble_alias definition = referred_table r →
       is_Some (match_fields_by_name definition !! referred_field r)) ∧
    (∀ m, m ∈ match_ entry → ∃ d, match_fields_by_id definition !! field_id m = Some d ∧
       (match_type (match_field d) ∉ [EXACT; OPTIONAL] → match_references d = [])) ∧
    match action entry with
    | kAction _ | kActionProfileActionSet _ => ∀ a, a ∈ invocations entry → resolved_action info a
    | _ => False
    end.

Lemma record_action_total info all i indices g a :
  resolved_action info a → ∃ g', record_action info all i indices g a = Ok g'.
Proof.
  intros (ir & Hir & Hp). unfold record_action, RecordDependenciesForActionInvocation. rewrite Hir.
  cbn [FindOrStatus]. rewrite bind_Ok_l. apply fold_result_total. intros g1 p Hin.
  destruct (Hp p Hin) as [rs ->]. by eexists.
Qed.

Lemma BuildDependencyGraph_total info updates :
  Forall (resolved info) updates → ∃ g, BuildDependencyGraph info updates = Ok g.
Proof.
  rewrite Forall_lookup. intros Hall. unfold BuildDependencyGraph.
  destruct (fold_result_total (index_update info) (numbered updates) ∅) as [indices ->].
  { intros ix [i u] Hu%numbered_lookup. destruct (Hall i u Hu) as (definition & Hdef & Href & _).
    unfold index_update. cbn [fst snd]. rewrite Hdef. cbn [FindOrStatus]. rewrite bind_Ok_l.
    apply fold_result_total. intros ix' r Hr. unfold index_reference, GetMatchFieldValue.
    case_if; [by eexists|]. bool_prop. destruct (Href r Hr) as [d ->]; [done|].
    cbn [FindOrStatus]. rewrite !bind_Ok_l. case_match; by eexists. }
  rewrite bind_Ok_l. apply fold_result_total. intros g [i u] Hu%numbered_lookup.
  destruct (Hall i u Hu) as (definition & Hdef & _ & Hm & Ha). unfold record_update. rewrite Hdef.
  cbn [FindOrStatus]. rewrite bind_Ok_l.
  match goal with |- context [fold_result ?f ?l ?s] =>
    destruct (fold_result_total f l s) as [g1 ->] end.
  - intros g1 m Hin. destruct (Hm m Hin) as (d & Hd & Hno). unfold record_match_field. rewrite Hd.
    cbn [FindOrStatus]. rewrite bind_Ok_l. destruct (match_type (match_field d)) eqn:Ht.
    1, 5: apply fold_result_total; intros; by eexists.
    all: rewrite Hno by (rewrite !not_elem_of_cons; split_and!; auto using not_elem_of_nil); by eexists.
  - rewrite bind_Ok_l. unfold invocations in Ha. destruct (action (table_entry (entity u))); try done.
    + apply record_action_total, Ha. set_solver.
    + apply fold_result_total. intros g2 a Hin. apply record_action_total. auto.
Qed.

Lemma SequencePiUpdatesInPlace_spec info updates :
  Forall (resolved info) updates →
  ((∀ v, ¬ tc (depends info updates) v v) →
   ∃ batches, SequencePiUpdatesInPlace info updates = Ok batches ∧
     batching (length updates) (depends info updates) batches) ∧
  ((∃ v, tc (depends info updates) v v) →
   SequencePiUpdatesInPlace info updates = Err kInvalidArgument).
Proof.
  intros [g Hg]%BuildDependencyGraph_total. destruct (SequenceGraph_spec g) as [Hac Hcyc].
  { by eapply BuildDependencyGraph_ok. }
  apply BuildDependencyGraph_edges in Hg as Hedges. destruct Hedges as [Hv He].
  assert (∀ v, tc (edge g) v v ↔ tc (depends info updates) v v) as Htc.
  { intros v. split; apply tc_congruence with (f := id); intros x y Hxy; by apply He. }
  unfold SequencePiUpdatesInPlace. rewrite Hg, bind_Ok_l. split.
  - intros Hno. destruct Hac as (batches & Hb & Hbatching); [intros v Hv'; by apply (Hno v), Htc|].
    exists batches. split; [done|]. rewrite Hv in Hbatching. by apply (batching_equiv _ (edge g)).
  - intros [v Hv']. apply Hcyc. intros Hno. by apply (Hno v), Htc.
Qed.

(** C24.  Sequencing is topological sorting by dependency.  When every table, match field, action and
    parameter of the updates is known to the P4 program: if the dependencies ([depends]: an insertion
    or modification comes after the insertion of an entry it refers to, a deletion before the deletion
    of one) have no cycle, [SequencePiUpdatesInPlace] returns batches of indices such that every
    update is in exactly one batch, all it depends on is in earlier batches, each update is in the
    earliest batch possible (it depends on an update of the batch before), and batches are in the
    order of the input.  If there is a cycle, the result is INVALID_ARGUMENT; the loop terminates in
    both cases. *)
Theorem sequencing_is_topological info updates :
  Forall (resolved info) updates →
  ((∀ v, ¬ tc (depends info updates) v v) →
   ∃ batches, SequencePiUpdatesInPlace info updates = Ok batches ∧
     batching (length updates) (depends info updates) batches) ∧
  ((∃ v, tc (depends info updates) v v) →
   SequencePiUpdatesInPlace info updates = Err kInvalidArgument).
Proof. apply SequencePiUpdatesInPlace_spec. Qed.

(** ** Write requests *)

Lemma batch_requests_spec updates m batch request :
  Forall (λ i, (i < length updates)%nat) batch → (∀ n, m = Some n → 0 < n ∧ zlen request ≤ n) →
  ∃ new, batch_requests updates m batch request = Ok new ∧
    List.concat new = request ++ omap (λ i, updates !! i) batch ∧
    (∀ n, m = Some n → Forall (λ r, zlen r ≤ n) new) ∧
    (batch ≠ [] ∨ request ≠ [] → Forall (.≠ []) new).
Proof.
  revert request. induction batch as [|i batch IH]; intros request Hb Hm; cbn [batch_requests].
  { exists [request]. split; [done|]. cbn. split; [done|]. split.
    - intros n Hn. apply Forall_singleton. by apply Hm.
    - intros [|]; [done|]. by apply Forall_singleton. }
  apply Forall_cons in Hb as [Hi Hb]. destruct (lookup_lt_is_Some_2 updates i Hi) as [u Hu]. rewrite Hu.
  rewrite bind_Ok_l. cbn [omap list_omap]. rewrite Hu. case_if.
  - destruct m as [n|]; [|done]. apply Z.leb_le in Heqb. destruct (Hm n eq_refl) as [Hpos Hle].
    destruct (IH [u] Hb) as (new & -> & Hcat & Hsize & Hne); [intros ? [= <-]; unfold zlen; cbn [length]; lia|].
    exists (request :: new). split; [done|]. cbn [List.concat]. rewrite Hcat. split; [done|]. split.
    + intros ? [= <-]. apply Forall_cons. auto.
    + intros _. apply Forall_cons. split; [|apply Hne; by right]. intros ->. change (n <= 0) in Heqb. lia.
  - destruct (IH (request ++ [u]) Hb) as (new & -> & Hcat & Hsize & Hne).
    { intros n Hn. destruct (Hm n Hn) as [Hpos Hle]. subst m. apply Z.leb_gt in Heqb.
      rewrite zlen_app. unfold zlen in *. cbn [length]. lia. }
    exists new. rewrite Hcat, <-app_assoc. split; [done|]. split; [done|]. split; [done|].
    intros _. apply Hne. right. by destruct request.
Qed.

Lemma fold_requests (f : list nat → result (list (list Update))) (batches : list (list nat)) groups0 :
  (∀ b, b ∈ batches → ∃ new, f b = Ok new) →
  ∃ groups, Forall2 (λ b new, f b = Ok new) batches groups ∧
    fold_result (λ requests batch, new ← f batch; Ok (requests ++ map (WritePath.mkWriteRequest empty_header) new))
      batches groups0 = Ok (groups0 ++ List.concat (map (map (WritePath.mkWriteRequest empty_header)) groups)).
Proof.
  revert groups0. induction batches as [|b batches IH]; intros groups0 Hf; cbn [fold_result].
  - exists []. split; [constructor|]. by rewrite app_nil_r.
  - destruct (Hf b) as [new Hnew]; [by left|]. rewrite Hnew, !bind_Ok_l.
    destruct (IH (groups0 ++ map (WritePath.mkWriteRequest empty_header) new)) as (groups & Hg & ->).
    { intros b' Hb'. apply Hf. by right. }
    exists (new :: groups). split; [by constructor|]. cbn [map List.concat]. by rewrite app_assoc.
Qed.

Lemma omap_lookup_seq {A} (l1 l2 : list A) :
  omap (λ i, (l1 ++ l2) !! i) (seq (length l1) (length l2)) = l2.
Proof.
  revert l1. induction l2 as [|x l2 IH]; intros l1; [done|]. cbn [length seq omap list_omap].
  rewrite lookup_app_r, Nat.sub_diag by lia. cbn [lookup list_lookup]. f_equal.
  specialize (IH (l1 ++ [x])). rewrite <-app_assoc, length_app, Nat.add_1_r in IH. exact IH.
Qed.

(** What the requests of one batch are. *)
Definition chunks_of updates (m : option Z) (batch : list nat) (new : list (list Update)) : Prop :=
  List.concat new = omap (λ i, updates !! i) batch ∧
  Forall (λ r, r ≠ [] ∧ ∀ n, m = Some n → zlen r ≤ n) new.

(** The write requests sent.  Under the same conditions, for a limit that is absent or positive,
    [SequencePiUpdatesIntoWriteRequests] turns the batches one by one into requests with an otherwise
    empty message: the requests of a batch contain its updates in order, none is empty and none has
    more updates than the limit; so every update is sent exactly once.  A limit of 0 or less is an
    INVALID_ARGUMENT. *)
Theorem write_requests_of_batches info updates (m : option Z) :
  Forall (resolved info) updates → (∀ v, ¬ tc (depends info updates) v v) →
  match m with
  | Some n => n ≤ 0 → SequencePiUpdatesIntoWriteRequests info updates m = Err kInvalidArgument
  | None => True
  end ∧
  ((∀ n, m = Some n → 0 < n) → ∃ batches groups,
    SequencePiUpdatesInPlace info updates = Ok batches ∧
    batching (length updates) (depends info updates) batches ∧
    SequencePiUpdatesIntoWriteRequests info updates m =
      Ok (List.concat (map (map (WritePath.mkWriteRequest empty_header)) groups)) ∧
    Forall2 (chunks_of updates m) batches groups ∧ List.concat (List.concat groups) ≡ₚ updates).
Proof.
  intros Hres Hac. unfold SequencePiUpdatesIntoWriteRequests. split.
  { destruct m as [n|]; [|done]. intros Hn%Z.leb_le. by rewrite Hn. }
  intros Hm. destruct (SequencePiUpdatesInPlace_spec info updates Hres) as [Hseq _].
  destruct (Hseq Hac) as (batches & Hb & Hbatching).
  assert (match m with Some n => n <=? 0 | None => false end = false) as ->.
  { destruct m as [n|]; [|done]. apply Z.leb_gt. by apply Hm. }
  rewrite Hb, bind_Ok_l. pose proof (batching_complete _ _ _ Hbatching) as Hcomplete.
  assert (∀ b, b ∈ batches → ∃ new, batch_requests updates m b [] = Ok new ∧ chunks_of updates m b new) as Hchunks.
  { intros b Hin. destruct (batch_requests_spec updates m b []) as (new & Hnew & Hcat & Hsize & Hne).
    - apply Forall_forall. intros i Hi. assert (i ∈ List.concat batches) as Hseq'.
      { apply list_elem_of_lookup in Hin as [j Hj]. apply elem_of_concat. by exists j, b. }
      rewrite Hcomplete, elem_of_seq in Hseq'. lia.
    - intros n Hn. unfold zlen. cbn [length]. specialize (Hm n Hn). lia.
    - exists new. split; [done|]. split; [done|].
      assert (Forall (.≠ []) new) as Hne'.
      { apply Hne. left. apply (Forall_forall (λ b, Sorted le b ∧ b ≠ []) batches); [|done]. apply Hbatching. }
      apply Forall_forall. intros r Hr. split; [by apply (proj1 (Forall_forall _ _) Hne')|].
      intros n Hn. by apply (proj1 (Forall_forall _ _) (Hsize n Hn)). }
  destruct (fold_requests (λ b, batch_requests updates m b []) batches []) as (groups & Hgroups & Hfold).
  { intros b Hin. destruct (Hchunks b Hin) as (new & Hnew & _). by exists new. }
  assert (Forall2 (chunks_of updates m) batches groups) as Hall.
  { apply Forall2_same_length_lookup_2; [by eapply Forall2_length|]. intros i b new Hi Hnew.
    destruct (Hchunks b) as (new' & Hnew' & Hchunk); [by eapply list_elem_of_lookup_2|].
    pose proof (Forall2_lookup_lr _ _ _ _ _ _ Hgroups Hi Hnew) as Heq. cbn beta in Heq. congruence. }
  exists batches, groups. split_and!; [done|done|exact Hfold|done|].
  assert (List.concat (List.concat groups) = omap (λ i, updates !! i) (List.concat batches)) as ->.
  { clear -Hall. induction Hall as [|b new batches groups [Hcat _] _ IH]; [done|].
    cbn [List.concat]. by rewrite concat_app, omap_app, Hcat, IH. }
  rewrite Hcomplete. pose proof (omap_lookup_seq [] updates) as Hid. cbn in Hid. by rewrite Hid.
Qed.

(** The requests, last first, after the updates [done]: all but the last are full. *)
Record extracted (header : SdnController.RequestHeader) (m : Z) (sent : list Update)
  (requests : list WriteRequest) : Prop := {
  extracted_headers : Forall (λ r, WritePath.header r = copied_header header) requests;
  extracted_updates : List.concat (map WritePath.updates (rev requests)) = sent;
  extracted_full : match requests with
    | [] => sent = []
    | request :: rest =>
      Forall (λ r, zlen (WritePath.updates r) = m) rest ∧ 0 < zlen (WritePath.updates request) ≤ m ∧
      zlen sent = m * zlen rest + zlen (WritePath.updates request)
    end;
}.

Lemma last_full (m r l : Z) : 0 < l ≤ m → (m * r + l) mod m = 0 ↔ l = m.
Proof.
  intros Hl. replace (m * r + l) with (l + r * m) by lia. rewrite Z.mod_add by lia.
  destruct (decide (l = m)) as [->|Hne]; [by rewrite Z.mod_same by lia|].
  rewrite Z.mod_small by lia. lia.
Qed.

Lemma extract_loop_spec header m updates sent requests :
  0 < m → extracted header m sent requests →
  ∃ out, extract_loop header m updates (zlen sent) requests = Ok (rev out) ∧
    extracted header m (sent ++ updates) out.
Proof.
  intros Hm. revert sent requests. induction updates as [|u updates IH]; intros sent requests Hex; cbn [extract_loop].
  { exists requests. by rewrite app_nil_r. }
  assert (zlen (sent ++ [u]) = zlen sent + 1) as Hlen by (rewrite zlen_app; done).
  replace (sent ++ u :: updates) with ((sent ++ [u]) ++ updates) by by rewrite <-app_assoc.
  destruct Hex as [Hh Hu Hfull].
  destruct (Z.eqb_spec (zlen sent mod m) 0) as [Hmod|Hmod].
  - rewrite <-Hlen. apply IH. split.
    + by constructor.
    + cbn [rev WritePath.updates WritePath.header app]. rewrite map_app, concat_app, Hu. done.
    + cbn [WritePath.updates app]. change (zlen [u]) with 1. split_and!; [|lia|lia|].
      * destruct requests as [|request rest]; [constructor|]. destruct Hfull as (Hrest & Hlast & Htotal).
        constructor; [|done]. rewrite Htotal in Hmod. by apply last_full in Hmod.
      * rewrite Hlen. destruct requests as [|request rest].
        -- rewrite Hfull. unfold zlen. cbn [length Z.of_nat]. lia.
        -- destruct Hfull as (Hrest & Hlast & Htotal). rewrite zlen_cons.
           rewrite Htotal in Hmod. apply last_full in Hmod; [lia|done].
  - destruct requests as [|request rest]; [exfalso; apply Hmod; rewrite Hfull; by apply Z.mod_0_l; lia|].
    destruct Hfull as (Hrest & Hlast & Htotal). apply Forall_cons in Hh as [Hh1 Hh].
    rewrite <-Hlen. apply IH. split.
    + by constructor.
    + cbn [rev] in *. rewrite map_app, concat_app in *. cbn [map List.concat WritePath.updates] in *.
      rewrite app_nil_r in *. by rewrite <-Hu, app_assoc.
    + cbn [WritePath.updates]. rewrite zlen_app. change (zlen [u]) with 1. rewrite Hlen.
      split_and!; [done|lia| |lia].
      assert (zlen (WritePath.updates request) ≠ m) as Hne; [|lia].
      intros Heq. apply Hmod. rewrite Htotal. by apply last_full.
Qed.

(** Splitting a write request.  With more updates than a positive limit [m],
    [ExtractWriteRequests] returns requests with the device id and the role of the original and its
    election id (0 if it had none), whose updates are together those of the original, in order; all
    but the last have exactly [m] updates and the last between 1 and [m], so that there are
    ceil(n / m) of them.  A request within the limit is returned unchanged, and a limit below 1 is an
    INVALID_ARGUMENT unless the request has no more updates than that. *)
Theorem extract_write_requests_spec (request : WriteRequest) (m : Z) :
  (zlen (WritePath.updates request) ≤ m → ExtractWriteRequests request (Some m) = Ok [request]) ∧
  (m < zlen (WritePath.updates request) → m < 1 →
   ExtractWriteRequests request (Some m) = Err kInvalidArgument) ∧
  (m < zlen (WritePath.updates request) → 1 ≤ m → ∃ full last,
   ExtractWriteRequests request (Some m) = Ok (full ++ [last]) ∧
   Forall (λ r, WritePath.header r = copied_header (WritePath.header request)) (full ++ [last]) ∧
   List.concat (map WritePath.updates (full ++ [last])) = WritePath.updates request ∧
   Forall (λ r, zlen (WritePath.updates r) = m) full ∧ 1 ≤ zlen (WritePath.updates last) ≤ m ∧
   zlen (full ++ [last]) = (zlen (WritePath.updates request) + m - 1) / m).
Proof.
  unfold ExtractWriteRequests. split_and!.
  - intros Hle%Z.leb_le. by rewrite Hle.
  - intros Hlt%Z.leb_gt Hm%Z.ltb_lt. by rewrite Hlt, Hm.
  - intros Hlt Hm. rewrite (proj2 (Z.leb_gt _ _) Hlt), (proj2 (Z.ltb_ge _ _) Hm).
    destruct (extract_loop_spec (WritePath.header request) m (WritePath.updates request) [] [])
      as (out & Hout & [Hh Hu Hfull]); [lia|by split|]. cbn [app] in *.
    destruct out as [|last rest]; [rewrite Hfull in Hlt; change (m < 0) in Hlt; lia|].
    destruct Hfull as (Hrest & Hlast & Htotal). cbn [rev] in *. exists (rev rest), last.
    apply Forall_cons in Hh as [Hh1 Hh].
    split_and!; [exact Hout| |done|by apply Forall_rev|lia|lia|].
    + apply Forall_app. split; [by apply Forall_rev|by apply Forall_singleton].
    + assert (zlen (rev rest ++ [last]) = zlen rest + 1) as ->.
      { unfold zlen. rewrite length_app, length_rev. cbn [length]. lia. }
      rewrite Htotal. apply (Z.div_unique _ _ _ (zlen (WritePath.updates last) - 1)); lia.
Qed.

(** ** Sorting by rank *)

Lemma insert_before_spec {A} (before : A → A → bool) (rank : A → Z) x l :
  (∀ y, y ∈ l → before y x = (rank x <? rank y)) → StronglySorted (λ a b, rank b ≤ rank a) l →
  insert_before before x l ≡ₚ x :: l ∧ StronglySorted (λ a b, rank b ≤ rank a) (insert_before before x l) ∧
  ∀ z, List.filter (λ a, rank a =? z) (insert_before before x l) = List.filter (λ a, rank a =? z) (x :: l).
Proof.
  induction l as [|y l IH]; intros Hb Hs; cbn [insert_before].
  { split_and!; [done|repeat constructor|done]. }
  apply StronglySorted_inv in Hs as Hys. destruct Hys as [Hl Hy].
  rewrite Hb by left. destruct (Z.ltb_spec (rank x) (rank y)).
  - destruct IH as (Hperm & Hsorted & Hfilter); [intros w Hw; apply Hb; by right|done|].
    split_and!.
    + rewrite Hperm. apply Permutation_swap.
    + constructor; [done|]. rewrite Hperm. constructor; [lia|done].
    + intros z. cbn [List.filter]. rewrite Hfilter. cbn [List.filter].
      destruct (Z.eqb_spec (rank x) z), (Z.eqb_spec (rank y) z); try done. lia.
  - split_and!; [done| |done]. constructor; [done|]. constructor; [lia|].
    eapply Forall_impl; [exact Hy|]. cbn beta. lia.
Qed.

Lemma stable_sort_spec {A} (before : A → A → bool) (rank : A → Z) l :
  (∀ x y, x ∈ l → y ∈ l → before x y = (rank y <? rank x)) →
  stable_sort before l ≡ₚ l ∧ StronglySorted (λ a b, rank b ≤ rank a) (stable_sort before l) ∧
  ∀ z, List.filter (λ a, rank a =? z) (stable_sort before l) = List.filter (λ a, rank a =? z) l.
Proof.
  induction l as [|x l IH]; intros Hb; [by repeat constructor|].
  destruct IH as (Hperm & Hsorted & Hfilter); [intros a b Ha Hb'; apply Hb; by right|].
  unfold stable_sort. cbn [foldr]. fold (stable_sort before l).
  destruct (insert_before_spec before rank x (stable_sort before l)) as (Hperm' & Hsorted' & Hfilter'); [|done|].
  { intros y Hy. apply Hb; [|by left]. right. by rewrite Hperm in Hy. }
  split_and!; [by rewrite Hperm', Hperm|done|].
  intros z. rewrite Hfilter'. cbn [List.filter]. by rewrite Hfilter.
Qed.

(** The dependency rank of an entity's table, if it has one. *)
Definition entity_rank info (e : Entity) : result Z :=
  name ← EntityToTableName info e; FindOrStatus (dependency_rank_by_table_name info !! name).

Definition rank_of info (e : Entity) : Z := match entity_rank info e with Ok n => n | _ => 0 end.

Lemma GreaterThanInDependencyOrder_rank info a b :
  is_Ok (entity_rank info a) = true → is_Ok (entity_rank info b) = true →
  GreaterThanInDependencyOrder info a b = Ok (rank_of info b <? rank_of info a).
Proof.
  unfold GreaterThanInDependencyOrder, rank_of, entity_rank.
  destruct (EntityToTableName info a), (EntityToTableName info b); try done. rewrite !bind_Ok_l.
  destruct (dependency_rank_by_table_name info !! a0); [|done].
  by destruct (dependency_rank_by_table_name info !! a1).
Qed.

(** Sorting in dependency order.  When the table of every entity has a dependency rank,
    [StableSortEntities] permutes the entities so that no entity comes before one of a higher rank,
    and those of equal rank keep their order; [StableSortUpdates] does so with the updates'
    entities. *)
Theorem stable_sort_by_rank info (entities : list Entity) updates :
  Forall (λ e, is_Ok (entity_rank info e) = true) entities →
  Forall (λ u, is_Ok (entity_rank info (entity u)) = true) updates →
  (let sorted := StableSortEntities info entities in
   sorted ≡ₚ entities ∧ StronglySorted (λ a b, rank_of info b ≤ rank_of info a) sorted ∧
   ∀ z, List.filter (λ e, rank_of info e =? z) sorted = List.filter (λ e, rank_of info e =? z) entities) ∧
  (let sorted := StableSortUpdates info updates in
   sorted ≡ₚ updates ∧ StronglySorted (λ a b, rank_of info (entity b) ≤ rank_of info (entity a)) sorted ∧
   ∀ z, List.filter (λ u, rank_of info (entity u) =? z) sorted =
        List.filter (λ u, rank_of info (entity u) =? z) updates).
Proof.
  rewrite !Forall_forall. intros He Hu. split.
  - apply stable_sort_spec. intros x y Hx Hy. unfold entity_before.
    by rewrite GreaterThanInDependencyOrder_rank by auto.
  - apply (stable_sort_spec _ (λ u, rank_of info (entity u))). intros x y Hx Hy. unfold update_before.
    by rewrite GreaterThanInDependencyOrder_rank by auto.
Qed.

(** The reversed comparison says of every update that it comes before itself. *)
Lemma reverse_ordering_not_strict info (u : Update) :
  is_Ok (entity_rank info (entity u)) = true → update_before info true u u = true.
Proof.
  intros Hu. unfold update_before. rewrite GreaterThanInDependencyOrder_rank by done.
  by rewrite Z.ltb_irrefl.
Qed.
End dependency_graph.

(** * Examples

    A nexthop refers to a router interface. *)

Definition example_reference : IrMatchFieldReference := mkIrMatchFieldReference ($"rif") ($"id") 1 1.

Definition example_table (id : Z) (name : str) : IrTableDefinition :=
  let field := mkIrMatchFieldDefinition (mkMatchField (element 1 $"id" 0) EXACT) STRING [] false in
  mkIrTableDefinition (named id name) {[ 1 := field ]} {[ $"id" := field ]} [] [] 0 false None false
    None None None [] false [] [].

Definition example_info : IrP4Info :=
  let param := mkIrActionParamDefinition (element 1 $"rif" 0) STRING [example_reference] in
  let use := mkIrActionDefinition (named 7 $"use") {[ 1 := param ]} {[ $"rif" := param ]} false in
  let nop := plain_action 8 $"nop" in
  mkIrP4Info {[ 1 := example_table 1 $"rif"; 2 := example_table 2 $"nexthop" ]}
    {[ $"rif" := example_table 1 $"rif"; $"nexthop" := example_table 2 $"nexthop" ]}
    {[ 7 := use; 8 := nop ]} {[ $"use" := use; $"nop" := nop ]} ∅ ∅ ∅ ∅ ∅ ∅ [example_reference] ∅
    {[ $"rif" := 1; $"nexthop" := 0 ]}.

Definition example_rif (type : UpdateType) (id : str) : Update :=
  WritePath.mkUpdate type
    (kTableEntry (plain_entry 1 0 [mkFieldMatch 1 (kExact id)] (kAction (mkAction 8 [])))).
Definition example_nexthop (type : UpdateType) (rif : str) : Update :=
  WritePath.mkUpdate type
    (kTableEntry (plain_entry 2 0 [mkFieldMatch 1 (kExact ($"n"))] (kAction (mkAction 7 [(1, rif)])))).

Definition example_updates : list Update :=
  [example_nexthop INSERT ($"a"); example_rif INSERT ($"b"); example_rif INSERT ($"a");
   example_nexthop DELETE ($"c"); example_rif DELETE ($"c"); example_nexthop INSERT ($"d")].

Example example_batches :
  SequencePiUpdatesInPlace example_info example_updates = Ok [[1; 2; 3; 5]; [0; 4]]%nat.
Proof. vm_compute. reflexivity. Qed.

(** Dependencies that respect an order have no cycle; checked on the graph. *)
Lemma acyclic_by_order `{Gutil} info updates (f : nat → nat) :
  match BuildDependencyGraph info updates with
  | Ok g => bool_decide (set_Forall (λ e : nat * nat, f e.1 < f e.2)%nat (edges g))
  | _ => false
  end = true → ∀ v, ¬ tc (depends info updates) v v.
Proof.
  destruct (BuildDependencyGraph info updates) as [g| |] eqn:Hg; try done.
  intros Hall%bool_decide_eq_true v. apply BuildDependencyGraph_edges in Hg as [_ He].
  assert (∀ a b, tc (depends info updates) a b → (f a < f b)%nat) as Hlt; [|intros Htc%Hlt; lia].
  induction 1 as [a b Hab|a b c Hab _ IH].
  - apply He in Hab. apply (Hall (a, b) Hab).
  - apply He in Hab. pose proof (Hall (a, b) Hab) as Hlt. cbn in Hlt. lia.
Qed.

Definition example_pair : list Update := [example_nexthop INSERT ($"a"); example_rif INSERT ($"a")].

Lemma example_resolved : Forall (resolved example_info) example_pair.
Proof.
  apply Forall_cons; split; [|apply Forall_cons; split; [|by apply Forall_nil]].
  - exists (example_table 2 $"nexthop"). split; [done|]. split; [|split].
    + intros r Hr%list_elem_of_singleton. by subst r.
    + intros m Hm%list_elem_of_singleton. subst m. by eexists.
    + intros a Ha%list_elem_of_singleton. subst a. eexists. split; [done|].
      intros p Hp%list_elem_of_singleton. subst p. by eexists.
  - exists (example_table 1 $"rif"). split; [done|]. split; [|split].
    + intros r Hr%list_elem_of_singleton. subst r. intros _. by eexists.
    + intros m Hm%list_elem_of_singleton. subst m. by eexists.
    + intros a Ha%list_elem_of_singleton. subst a. eexists. split; [done|]. by intros p Hp%elem_of_nil.
Qed.

Lemma example_acyclic : ∀ v, ¬ tc (depends example_info example_pair) v v.
Proof. apply (acyclic_by_order _ _ (λ v, 2 - v)%nat). vm_compute. reflexivity. Qed.

Lemma sequencing_is_topological_witness :
  SequencePiUpdatesInPlace example_info example_pair = Ok [[1]; [0]]%nat ∧
  ∃ batches, SequencePiUpdatesInPlace example_info example_pair = Ok batches ∧
    batching 2 (depends example_info example_pair) batches.
Proof.
  split; [vm_compute; reflexivity|].
  exact (proj1 (sequencing_is_topological example_info example_pair example_resolved) example_acyclic).
Defined.

Lemma write_requests_of_batches_witness :
  ∃ batches groups,
    SequencePiUpdatesInPlace example_info example_pair = Ok batches ∧
    batching (length example_pair) (depends example_info example_pair) batches ∧
    SequencePiUpdatesIntoWriteRequests example_info example_pair (Some 1) =
      Ok (List.concat (map (map (WritePath.mkWriteRequest empty_header)) groups)) ∧
    Forall2 (chunks_of example_pair (Some 1)) batches groups ∧
    List.concat (List.concat groups) ≡ₚ example_pair.
Proof.
  assert (∀ n, Some 1 = Some n → 0 < n) as Hpos by (intros n [= <-]; lia).
  exact (proj2 (write_requests_of_batches example_info example_pair (Some 1) example_resolved example_acyclic) Hpos).
Defined.

Definition example_large : WriteRequest :=
  WritePath.mkWriteRequest (SdnController.mkRequestHeader 1 ($"r") None) (example_updates ++ [example_rif MODIFY ($"z")]).

Example example_extract :
  zlen <$> (map WritePath.updates <$> ExtractWriteRequests example_large (Some 3)) = Ok 3 ∧
  map WritePath.header <$> ExtractWriteRequests example_large (Some 4) =
    Ok (repeat (SdnController.mkRequestHeader 1 ($"r") (Some (0, 0))) 2).
Proof. split; vm_compute; reflexivity. Qed.

Lemma stable_sort_by_rank_witness :
  let sorted := StableSortUpdates example_info example_updates in
  map (λ u, rank_of example_info (entity u)) sorted = [1; 1; 1; 0; 0; 0] ∧ sorted ≡ₚ example_updates.
Proof.
  split; [vm_compute; reflexivity|].
  refine (proj1 (proj2 (stable_sort_by_rank example_info [] example_updates _ _))).
  - constructor.
  - repeat constructor.
Defined.
