(* ===== verification/Unreachable.v ===== *)
(** p4_infra/p4_pdpi: [GetEntitiesUnreachableFromRoots] of [sequencing.cc], the garbage collection of
    entities that no root entity refers to, directly or transitively.  A breadth-first search over the
    concrete references of the entities; the theorem says what it reports. *)
From S2P Require Import Prelude EntityKeys BuiltIns IrUtils IrData TableReferences References.

(** * The search *)

Section search.
Context `{Gutil}.

Abbreviation Reachable := (gmap ConcreteTableReference (list nat)).

(** Whether the entity is one of the supported kinds. *)
Definition is_table_entry (e : Entity) : bool := match e with kTableEntry _ => true | _ => false end.
Definition is_multicast_group_entry (e : Entity) : bool :=
  match e with kPacketReplicationEngineEntry (kMulticastGroupEntry _ _ _) => true | _ => false end.

(** The state of the first loop. *)
Record Classes := mkClasses {
  potentially_reachable_entries : Reachable;
  unreachable_indices : gset nat;
  frontier_indices : list nat;
}.

Definition add_reference (i : nat) (m : Reachable) (reference_entry : ConcreteTableReference) : Reachable :=
  <[reference_entry := default [] (m !! reference_entry) ++ [i]]> m.

Definition add_candidate (i : nat) (entity : Entity) (m : Reachable) (reference_info : IrTableReference)
  : result Reachable :=
  reference_entries ← PossibleIncomingConcreteTableReferences reference_info entity;
  Ok (fold_left (add_reference i) (elements reference_entries) m).

Definition classify (is_root_entity : Entity → result bool) (info : IrP4Info) (c : Classes)
  (x : nat * Entity) : result Classes :=
  let '(i, entity) := x in
  if negb (is_table_entry entity) && negb (is_multicast_group_entry entity) then Err kUnimplemented else
  is_root ← is_root_entity entity;
  if (is_root : bool) then
    if is_table_entry entity
    then Ok (mkClasses (potentially_reachable_entries c) (unreachable_indices c) (frontier_indices c ++ [i]))
    else Ok c
  else
    match entity with
    | kTableEntry table_entry =>
      table_def ← FindOrStatus (tables_by_id info !! table_id table_entry);
      match incoming_references table_def with
      | [] => Ok (mkClasses (potentially_reachable_entries c) ({[ i ]} ∪ unreachable_indices c) (frontier_indices c))
      | _ =>
        m ← fold_result (add_candidate i entity) (incoming_references table_def) (potentially_reachable_entries c);
        Ok (mkClasses m (unreachable_indices c) (frontier_indices c))
      end
    | _ => Err kUnimplemented
    end.

(** An entry of the map is moved to the frontier and erased. *)
Definition move (reached : gset nat) (state : Reachable * list nat) (reference_entry : ConcreteTableReference)
  : Reachable * list nat :=
  let '(m, frontier) := state in
  match m !! reference_entry with
  | Some indices => (delete reference_entry m, frontier ++ filter (λ i, i ∉ reached) indices)
  | None => state
  end.

Definition expand_reference (entity : Entity) (reached : gset nat) (state : Reachable * list nat)
  (reference_info : IrTableReference) : result (Reachable * list nat) :=
  reference_entries ← OutgoingConcreteTableReferences reference_info entity;
  Ok (fold_left (move reached) (elements reference_entries) state).

Fixpoint expand_frontier (fuel : nat) (entities : list Entity) (info : IrP4Info) (m : Reachable)
  (reached : gset nat) (frontier : list nat) : result (Reachable * gset nat) :=
  match fuel, frontier with
  | O, _ => Die
  | _, [] => Ok (m, reached)
  | S fuel, i :: frontier =>
    entity ← FindOrDie (entities !! i);
    outgoing_references ← GetOutgoingTableReferences info entity;
    let reached := {[ i ]} ∪ reached in
    state ← fold_result (expand_reference entity reached) outgoing_references (m, frontier);
    expand_frontier fuel entities info (fst state) reached (snd state)
  end.

(** The indices in the lists of the map. *)
Definition entries (m : Reachable) : list nat := List.concat (map snd (map_to_list m)).

Definition GetEntitiesUnreachableFromRoots (entities : list Entity) (is_root_entity : Entity → result bool)
  (info : IrP4Info) : result (list Entity) :=
  c ← fold_result (classify is_root_entity info) (zip (seq 0 (length entities)) entities) (mkClasses ∅ ∅ []);
  let m := potentially_reachable_entries c in
  out ← expand_frontier (S (length (frontier_indices c) + length (entries m))) entities info m ∅ (frontier_indices c);
  let '(m, reached) := out in
  let unreachable := list_to_set (filter (λ i, i ∉ reached) (entries m)) ∪ unreachable_indices c in
  Ok (omap (λ i, entities !! i) (merge_sort le (elements (unreachable : gset nat)))).
End search.

(** * What is reachable *)

Section spec.
Context `{Gutil}.
Implicit Types (is_root : Entity → result bool) (info : IrP4Info) (entities : list Entity).

(** A root of the search. *)
Definition root is_root (e : Entity) : Prop := is_table_entry e = true ∧ is_root e = Ok true.

(** Neither a root nor of a table that nothing refers to. *)
Definition candidate is_root info (e : Entity) : Prop :=
  is_root e = Ok false ∧ ∃ entry i infos, e = kTableEntry entry ∧
    incoming_references <$> tables_by_id info !! table_id entry = Some (i :: infos).

(** A table entry, not a root, of a table that nothing refers to. *)
Definition unreferenced is_root info (e : Entity) : Prop :=
  is_root e = Ok false ∧ ∃ entry, e = kTableEntry entry ∧ incoming_references <$> tables_by_id info !! table_id entry = Some [].

(** Entity [i] is a root or a candidate that a reachable entity refers to. *)
Inductive reachable is_root info entities : nat → Prop :=
  | reachable_root i e : entities !! i = Some e → root is_root e → reachable is_root info entities i
  | reachable_step i j d e r :
    reachable is_root info entities i → entities !! i = Some d → makes info d r →
    entities !! j = Some e → candidate is_root info e → satisfies info e r →
    reachable is_root info entities j.

Lemma elem_of_add_references i refs m r j :
  j ∈ default [] (fold_left (add_reference i) refs m !! r) ↔ j ∈ default [] (m !! r) ∨ j = i ∧ r ∈ refs.
Proof.
  revert m. induction refs as [|r' refs IH]; intros m; cbn [fold_left]; [set_solver|].
  rewrite IH. unfold add_reference. destruct (decide (r' = r)) as [->|Hne].
  - rewrite lookup_insert_eq. cbn [default from_option id]. rewrite elem_of_app, list_elem_of_singleton. set_solver.
  - rewrite lookup_insert_ne by done. set_solver.
Qed.

Lemma add_candidates_spec i e infos m m' :
  fold_result (add_candidate i e) infos m = Ok m' →
  ∀ r j, j ∈ default [] (m' !! r) ↔ j ∈ default [] (m !! r) ∨
    j = i ∧ ∃ ref refs, ref ∈ infos ∧ PossibleIncomingConcreteTableReferences ref e = Ok refs ∧ r ∈ refs.
Proof.
  apply (fold_result_ind _ (λ infos m', ∀ r j, j ∈ default [] (m' !! r) ↔ j ∈ default [] (m !! r) ∨
    j = i ∧ ∃ ref refs, ref ∈ infos ∧ PossibleIncomingConcreteTableReferences ref e = Ok refs ∧ r ∈ refs)).
  - set_solver.
  - intros done ref m1 m2 IH (refs & Hrefs & [= <-])%bind_Ok_iff r j.
    rewrite elem_of_add_references, IH, elem_of_elements. split.
    + intros [[|(-> & ref' & refs' & ? & ?)]|[-> Hr]]; [by left|right|right]; (split; [done|]).
      * exists ref', refs'. split; [|done]. apply elem_of_app. by left.
      * exists ref, refs. split; [|done]. apply elem_of_app. right. by apply list_elem_of_singleton.
    + intros [|(-> & ref' & refs' & [?| ->%list_elem_of_singleton]%elem_of_app & Hrefs' & Hr)];
        [by left; left|left; right; eauto 10|right]. split; [done|]. congruence.
Qed.

(** The first loop after the entities [done]. *)
Record classified is_root info (done : list (nat * Entity)) (c : Classes) : Prop := {
  classified_map r j : j ∈ default [] (potentially_reachable_entries c !! r) ↔
    ∃ e, (j, e) ∈ done ∧ candidate is_root info e ∧ satisfies info e r;
  classified_frontier j : j ∈ frontier_indices c ↔ ∃ e, (j, e) ∈ done ∧ root is_root e;
  classified_unreachable j : j ∈ unreachable_indices c ↔ ∃ e, (j, e) ∈ done ∧ unreferenced is_root info e;
}.

(** What one entity contributes. *)
Lemma classify_spec is_root info c i e c' :
  classify is_root info c (i, e) = Ok c' →
  (∀ r j, j ∈ default [] (potentially_reachable_entries c' !! r) ↔
     j ∈ default [] (potentially_reachable_entries c !! r) ∨ j = i ∧ candidate is_root info e ∧ satisfies info e r) ∧
  (∀ j, j ∈ frontier_indices c' ↔ j ∈ frontier_indices c ∨ j = i ∧ root is_root e) ∧
  (∀ j, j ∈ unreachable_indices c' ↔ j ∈ unreachable_indices c ∨ j = i ∧ unreferenced is_root info e).
Proof.
  unfold classify. case_if; [done|]. intros (b & Hb & Hc)%bind_Ok_iff.
  unfold root, candidate, unreferenced. destruct b.
  { assert (∀ P : Prop, (is_root e = Ok false ∧ P) ↔ False) as Hno by (intros P; rewrite Hb; naive_solver).
    setoid_rewrite Hno. rewrite Hb. destruct (is_table_entry e); injection Hc as <-; cbn.
    - split_and!; [naive_solver| |naive_solver]. intros j. rewrite elem_of_app, list_elem_of_singleton. naive_solver.
    - split_and!; naive_solver. }
  destruct e as [entry|entry|payload]; try done.
  assert (∀ P : Prop, (P ∧ is_root (kTableEntry entry) = Ok true) ↔ False) as Hno by (intros P; rewrite Hb; naive_solver).
  setoid_rewrite Hno. rewrite Hb.
  apply bind_Ok_iff in Hc as (def & Hdef%FindOrStatus_Ok & Hc).
  assert (incoming_references <$> tables_by_id info !! table_id entry = Some (incoming_references def)) as Hinfos
    by (by rewrite Hdef).
  destruct (incoming_references def) as [|info0 infos] eqn:Hincoming.
  - injection Hc as <-. cbn. split_and!; [|naive_solver|].
    + intros r j. split; [by left|]. intros [|(_ & (_ & entry' & i' & infos' & [= <-] & Hbad) & _)]; [done|congruence].
    + intros j. rewrite elem_of_union, elem_of_singleton. split; [|naive_solver].
      intros [->|]; [right|by left]. split; [done|]. split; [done|]. by exists entry.
  - apply bind_Ok_iff in Hc as (m & Hm & [= <-]). cbn. split_and!; [|naive_solver|].
    + intros r j. rewrite (add_candidates_spec _ _ _ _ _ Hm). unfold satisfies, GetIncomingTableReferences.
      cbn [GetTableReferences]. rewrite Hdef. cbn [FindOrStatus mbind result_bind]. rewrite Hincoming. split.
      * intros [|(-> & ref & refs & Hin & Hrefs & Hr)]; [by left|right]. split; [done|]. split.
        -- split; [done|]. by exists entry, info0, infos.
        -- by exists (info0 :: infos), ref, refs.
      * intros [|(-> & _ & infos' & ref & refs & [= <-] & Hin & Hrefs & Hr)]; [by left|right].
        split; [done|]. by exists ref, refs.
    + intros j. split; [by left|]. intros [|(_ & _ & entry' & [= <-] & Hbad)]; [done|congruence].
Qed.

Lemma classified_all is_root info entities c :
  fold_result (classify is_root info) (zip (seq 0 (length entities)) entities) (mkClasses ∅ ∅ []) = Ok c →
  classified is_root info (zip (seq 0 (length entities)) entities) c.
Proof.
  apply (fold_result_ind _ (classified is_root info)).
  - split; cbn; [|set_solver|set_solver]. intros r j. rewrite lookup_empty. set_solver.
  - intros done [i e] c1 c2 [Hm Hf Hu] (Hm' & Hf' & Hu')%classify_spec. split.
    + intros r j. rewrite Hm', Hm. setoid_rewrite elem_of_app. setoid_rewrite list_elem_of_singleton. naive_solver.
    + intros j. rewrite Hf', Hf. setoid_rewrite elem_of_app. setoid_rewrite list_elem_of_singleton. naive_solver.
    + intros j. rewrite Hu', Hu. setoid_rewrite elem_of_app. setoid_rewrite list_elem_of_singleton. naive_solver.
Qed.

(** ** Moving entries to the frontier *)

Lemma entries_delete (m : gmap ConcreteTableReference (list nat)) r js :
  m !! r = Some js → length (entries m) = (length js + length (entries (delete r m)))%nat.
Proof.
  intros Hr. unfold entries. rewrite <-(insert_delete_id m r js Hr) at 1.
  assert (delete r m !! r = None) as Hnone by apply lookup_delete_eq.
  pose proof (map_to_list_insert (delete r m) r js Hnone) as Hperm.
  assert (∀ l l' : list (ConcreteTableReference * list nat), l ≡ₚ l' →
    length (List.concat (map snd l)) = length (List.concat (map snd l'))) as Hlen.
  { induction 1; cbn [map List.concat]; rewrite ?length_app; lia. }
  rewrite (Hlen _ _ Hperm). cbn [map List.concat snd]. apply length_app.
Qed.

(** The entries of the references [rs] are moved. *)
Record moved (reached : gset nat) (rs : ConcreteTableReference → Prop) (s s' : gmap ConcreteTableReference (list nat) * list nat)
  : Prop := {
  moved_gone r : rs r → fst s' !! r = None;
  moved_kept r : fst s' !! r = fst s !! r ∨ rs r ∧ fst s' !! r = None;
  moved_frontier j : j ∈ snd s' ↔ j ∈ snd s ∨ ∃ r js, rs r ∧ fst s !! r = Some js ∧ j ∈ js ∧ j ∉ reached;
  moved_size : (length (snd s') + length (entries (fst s')) ≤ length (snd s) + length (entries (fst s)))%nat;
}.

Lemma moved_equiv reached (rs rs' : ConcreteTableReference → Prop) s s' :
  (∀ r, rs r ↔ rs' r) → moved reached rs s s' → moved reached rs' s s'.
Proof.
  intros Hrs [Hg Hk Hf Hs]. split; [|..|done].
  - intros r Hr. by apply Hg, Hrs.
  - intros r. destruct (Hk r) as [|[Hr ?]]; [by left|right]. by apply Hrs in Hr.
  - intros j. rewrite Hf. by setoid_rewrite Hrs.
Qed.

Lemma moved_refl reached s : moved reached (λ _, False) s s.
Proof. split; [done|by left| |done]. intros j. split; [by left|]. intros [|(r & js & [] & _)]; done. Qed.

Lemma moved_trans reached rs1 rs2 s1 s2 s3 :
  moved reached rs1 s1 s2 → moved reached rs2 s2 s3 → moved reached (λ r, rs1 r ∨ rs2 r) s1 s3.
Proof.
  intros [Hg1 Hk1 Hf1 Hs1] [Hg2 Hk2 Hf2 Hs2]. split; [|..|lia].
  - intros r [Hr|Hr]; [|auto]. destruct (Hk2 r) as [->|[_ ?]]; auto.
  - intros r. destruct (Hk2 r) as [->|[? ?]]; [|auto]. destruct (Hk1 r) as [|[? ?]]; auto.
  - intros j. rewrite Hf2, Hf1. split.
    + intros [[|(r & js & ? & ? & ?)]|(r & js & Hr & Hjs & ? & ?)]; [by left|right; exists r, js; auto|].
      right. exists r, js. split_and!; [auto| |done|done].
      destruct (Hk1 r) as [<-|[_ Hnone]]; [done|congruence].
    + intros [|(r & js & [Hr|Hr] & Hjs & ? & ?)]; [auto|left; right; exists r, js; auto|].
      destruct (Hk1 r) as [Heq|[Hr1 _]].
      * right. exists r, js. rewrite Heq. auto.
      * left. right. exists r, js. auto.
Qed.

Lemma move_moved reached s r : moved reached (λ r', r' = r) s (move reached s r).
Proof.
  destruct s as [m f]. unfold move. destruct (m !! r) as [js|] eqn:Hr.
  - split; cbn [fst snd].
    + intros r' ->. apply lookup_delete_eq.
    + intros r'. destruct (decide (r' = r)) as [->|]; [right; by rewrite lookup_delete_eq|].
      left. by apply lookup_delete_ne.
    + intros j. rewrite elem_of_app, list_elem_of_filter. split.
      * intros [|[? ?]]; [by left|right]. exists r, js. auto.
      * intros [|(r' & js' & -> & Hjs' & ? & ?)]; [by left|right]. split; [done|]. congruence.
    + rewrite (entries_delete m r js Hr), length_app.
      pose proof (length_filter (λ i, i ∉ reached) js). lia.
  - split; cbn [fst snd]; [|by left| |done].
    + by intros r' ->.
    + intros j. split; [by left|]. intros [|(r' & js & -> & ? & _)]; [done|congruence].
Qed.

Lemma expand_reference_moved reached e s ref s' :
  expand_reference e reached s ref = Ok s' →
  moved reached (λ r, ∃ refs, OutgoingConcreteTableReferences ref e = Ok refs ∧ r ∈ refs) s s'.
Proof.
  intros (refs & Hrefs & [= <-])%bind_Ok_iff.
  apply (moved_equiv _ (λ r, r ∈ elements refs)).
  { intros r. rewrite Hrefs, elem_of_elements. split; [eauto|]. intros (refs' & [= <-] & ?). done. }
  generalize (elements refs) as l. clear. intros l. revert s.
  induction l as [|r l IH]; intros s; cbn [fold_left].
  - eapply moved_equiv, moved_refl. intros r. set_solver.
  - apply (moved_equiv _ (λ r', r' = r ∨ r' ∈ l)); [intros r'; set_solver|].
    by apply (moved_trans _ _ _ _ (move reached s r)); [apply move_moved|].
Qed.

Lemma expand_references_moved reached e infos s s' :
  fold_result (expand_reference e reached) infos s = Ok s' →
  moved reached (λ r, ∃ ref refs, ref ∈ infos ∧ OutgoingConcreteTableReferences ref e = Ok refs ∧ r ∈ refs) s s'.
Proof.
  revert s. induction infos as [|ref infos IH]; intros s; cbn [fold_result].
  - intros [= <-]. eapply moved_equiv, moved_refl. intros r. split; [done|]. by intros (? & ? & ?%elem_of_nil & _).
  - intros (s1 & Hs1%expand_reference_moved & Hs)%bind_Ok_iff.
    eapply moved_equiv; [|eapply moved_trans; [exact Hs1|by apply IH]].
    intros r. cbn beta. setoid_rewrite elem_of_cons. naive_solver.
Qed.

(** ** The search *)

(** The references of an entity can be computed. *)
Definition outgoing_supported info (e : Entity) : Prop :=
  ∃ infos, GetOutgoingTableReferences info e = Ok infos ∧
    ∀ ref, ref ∈ infos → ∃ refs, OutgoingConcreteTableReferences ref e = Ok refs.

Lemma expand_references_makes info e reached infos s s' :
  GetOutgoingTableReferences info e = Ok infos →
  fold_result (expand_reference e reached) infos s = Ok s' → moved reached (makes info e) s s'.
Proof.
  intros Hinfos Hs%expand_references_moved. eapply moved_equiv; [|exact Hs].
  intros r. cbn beta. unfold makes. rewrite Hinfos. split.
  - intros (ref & refs & Hrest). by exists infos, ref, refs.
  - intros (infos' & ref & refs & [= <-] & Hrest). by exists ref, refs.
Qed.

(** [m0] is the map before the search. *)
Record searching is_root info entities (m0 m : gmap ConcreteTableReference (list nat)) (reached : gset nat)
  (frontier : list nat) : Prop := {
  searching_sound j : j ∈ reached ∨ j ∈ frontier → reachable is_root info entities j;
  searching_roots j e : entities !! j = Some e → root is_root e → j ∈ reached ∨ j ∈ frontier;
  searching_map r : m !! r = m0 !! r ∨
    m !! r = None ∧ ∀ j, j ∈ default [] (m0 !! r) → j ∈ reached ∨ j ∈ frontier;
  searching_gone i d r : i ∈ reached → entities !! i = Some d → makes info d r → m !! r = None;
}.

(** The map holds the candidates by the references they satisfy. *)
Definition holds_candidates is_root info entities (m0 : gmap ConcreteTableReference (list nat)) : Prop :=
  ∀ r j, j ∈ default [] (m0 !! r) ↔
    ∃ e, entities !! j = Some e ∧ candidate is_root info e ∧ satisfies info e r.

Lemma searching_step is_root info entities m0 m reached i d frontier m' frontier' :
  holds_candidates is_root info entities m0 → entities !! i = Some d →
  searching is_root info entities m0 m reached (i :: frontier) →
  moved ({[ i ]} ∪ reached) (makes info d) (m, frontier) (m', frontier') →
  searching is_root info entities m0 m' ({[ i ]} ∪ reached) frontier'.
Proof.
  intros Hm0 Hd [Hsound Hroots Hmap Hgone] [Hg Hk Hf _]. cbn [fst snd] in *.
  assert (∀ j, j ∈ reached ∨ j ∈ i :: frontier → j ∈ {[ i ]} ∪ reached ∨ j ∈ frontier') as Hmono.
  { intros j. rewrite elem_of_cons, elem_of_union, elem_of_singleton, Hf. tauto. }
  split.
  - intros j. rewrite elem_of_union, elem_of_singleton, Hf.
    intros [[->|Hj]|[Hj|(r & js & Hr & Hjs & Hj & _)]]; [apply Hsound; set_solver..|].
    assert (m0 !! r = Some js) as Hr0 by (destruct (Hmap r) as [<-|[? _]]; congruence).
    destruct (proj1 (Hm0 r j)) as (e & He & Hcand & Hsat); [by rewrite Hr0|].
    apply (reachable_step _ _ _ i j d e r); [apply Hsound; set_solver|done..].
  - intros j e He Hroot. apply Hmono. eauto.
  - intros r. destruct (Hk r) as [->|[Hr Hnone]].
    + destruct (Hmap r) as [|[? Hall]]; [by left|right]. split; [done|]. auto.
    + right. split; [done|]. intros j Hj. destruct (Hmap r) as [Heq|[_ Hall]]; [|auto].
      destruct (m0 !! r) as [js|] eqn:Hr0; [|by apply elem_of_nil in Hj]. cbn in Hj.
      destruct (decide (j ∈ {[ i ]} ∪ reached)) as [|Hn]; [by left|right].
      apply Hf. right. exists r, js. auto.
  - intros i' d' r [->%elem_of_singleton|Hi']%elem_of_union Hd' Hr.
    + assert (d' = d) as -> by congruence. auto.
    + destruct (Hk r) as [->|[_ ?]]; [|done]. by apply (Hgone i' d').
Qed.

Lemma expand_frontier_spec is_root info entities m0 fuel m reached frontier :
  holds_candidates is_root info entities m0 →
  (∀ i, reachable is_root info entities i → ∃ d, entities !! i = Some d ∧ outgoing_supported info d) →
  searching is_root info entities m0 m reached frontier →
  (length frontier + length (entries m) < fuel)%nat →
  ∃ m' reached', expand_frontier fuel entities info m reached frontier = Ok (m', reached') ∧
    searching is_root info entities m0 m' reached' [].
Proof.
  intros Hm0 Hsup. revert m reached frontier.
  induction fuel as [|fuel IH]; intros m reached frontier Hs Hfuel; [lia|].
  destruct frontier as [|i frontier]; cbn [expand_frontier]; [by exists m, reached|].
  destruct (Hsup i) as (d & Hd & infos & Hinfos & Href).
  { apply (searching_sound _ _ _ _ _ _ _ Hs). right. by left. }
  rewrite Hd. cbn [FindOrDie]. rewrite bind_Ok_l, Hinfos, bind_Ok_l.
  destruct (fold_result_total (expand_reference d ({[ i ]} ∪ reached)) infos (m, frontier)) as [[m' frontier'] Hfold].
  { intros s ref Hin. unfold expand_reference. destruct (Href ref Hin) as [refs ->]. by eexists. }
  rewrite Hfold, bind_Ok_l. cbn [fst snd]. apply (expand_references_makes info) in Hfold; [|done].
  apply IH; [by eapply searching_step|].
  pose proof (moved_size _ _ _ _ Hfold) as Hsize. cbn [fst snd length] in *. lia.
Qed.

(** At the end of the search exactly the reachable entities are reached. *)
Lemma searching_done is_root info entities m0 m reached :
  holds_candidates is_root info entities m0 → searching is_root info entities m0 m reached [] →
  ∀ j, j ∈ reached ↔ reachable is_root info entities j.
Proof.
  intros Hm0 [Hsound Hroots Hmap Hgone] j. split; [auto|].
  induction 1 as [i e He Hroot|i j d e r _ IH Hd Hr He Hcand Hsat].
  - destruct (Hroots i e He Hroot) as [|Hbad%elem_of_nil]; done.
  - pose proof (Hgone i d r IH Hd Hr) as Hnone.
    assert (j ∈ default [] (m0 !! r)) as Hj by (apply Hm0; eauto).
    destruct (Hmap r) as [Heq|[_ Hall]].
    + rewrite <-Heq, Hnone in Hj. by apply elem_of_nil in Hj.
    + destruct (Hall j Hj) as [|Hbad%elem_of_nil]; done.
Qed.

Lemma elem_of_entries (m : gmap ConcreteTableReference (list nat)) j :
  j ∈ entries m ↔ ∃ r, j ∈ default [] (m !! r).
Proof.
  unfold entries. rewrite list_elem_of_In, in_concat. split.
  - intros (js & ([r js'] & <- & Hin%list_elem_of_In)%in_map_iff & Hj%list_elem_of_In).
    apply elem_of_map_to_list in Hin. exists r. by rewrite Hin.
  - intros [r Hj]. destruct (m !! r) as [js|] eqn:Hr; [|by apply elem_of_nil in Hj].
    exists js. split; [|by apply list_elem_of_In]. apply in_map_iff. exists (r, js). split; [done|].
    by apply list_elem_of_In, elem_of_map_to_list.
Qed.

(** ** The result *)

(** The entity is of a supported kind and everything it mentions is known. *)
Record supported is_root info (e : Entity) : Prop := {
  supported_kind : is_table_entry e = true ∨ is_multicast_group_entry e = true;
  supported_root : ∃ b, is_root e = Ok b;
  supported_incoming : is_root e = Ok false → ∃ entry infos, e = kTableEntry entry ∧
    incoming_references <$> tables_by_id info !! table_id entry = Some infos ∧
    ∀ ref, ref ∈ infos → ∃ refs, PossibleIncomingConcreteTableReferences ref e = Ok refs;
  supported_outgoing : is_table_entry e = true → outgoing_supported info e;
}.

Lemma classify_total is_root info c i e :
  supported is_root info e → ∃ c', classify is_root info c (i, e) = Ok c'.
Proof.
  intros [Hkind [b Hb] Hin _]. unfold classify. rewrite Hb.
  assert (negb (is_table_entry e) && negb (is_multicast_group_entry e) = false) as ->.
  { destruct Hkind as [-> | ->]; [done|]. by rewrite andb_false_r. }
  rewrite bind_Ok_l. destruct b; [case_if; by eexists|].
  destruct (Hin Hb) as (entry & infos & -> & (def & Hdef & ->)%fmap_Some & Hrefs). rewrite Hdef. cbn [FindOrStatus].
  rewrite bind_Ok_l. destruct (incoming_references def) as [|ref infos]; [by eexists|].
  destruct (fold_result_total (add_candidate i (kTableEntry entry)) (ref :: infos)
    (potentially_reachable_entries c)) as [m ->]; [|by eexists].
  intros m ref' Href. unfold add_candidate. destruct (Hrefs ref' Href) as [refs ->]. by eexists.
Qed.

(** Entity [i] is to be reported: no root refers to it, directly or transitively. *)
Definition unreachable_from_roots is_root info entities (i : nat) : Prop :=
  ∃ e, entities !! i = Some e ∧
    (unreferenced is_root info e ∨
     candidate is_root info e ∧ (∃ r, satisfies info e r) ∧ ¬ reachable is_root info entities i).

(** What [GetEntitiesUnreachableFromRoots] returns, multicast groups and entries that can satisfy nothing included. *)
Lemma unreachable_entities_spec is_root info entities :
  Forall (supported is_root info) entities →
  ∃ indices, GetEntitiesUnreachableFromRoots entities is_root info = Ok (omap (λ i, entities !! i) indices) ∧
    Sorted le indices ∧ NoDup indices ∧
    ∀ i, i ∈ indices ↔ unreachable_from_roots is_root info entities i.
Proof.
  intros Hsup. rewrite Forall_lookup in Hsup. unfold GetEntitiesUnreachableFromRoots.
  destruct (fold_result_total (classify is_root info) (zip (seq 0 (length entities)) entities) (mkClasses ∅ ∅ []))
    as [c Hc].
  { intros c [i e] Hin%elem_of_zip_seq. apply classify_total. by eapply Hsup. }
  rewrite Hc, bind_Ok_l. apply classified_all in Hc as [Hm Hf Hu].
  setoid_rewrite elem_of_zip_seq in Hm. setoid_rewrite elem_of_zip_seq in Hf. setoid_rewrite elem_of_zip_seq in Hu.
  destruct (expand_frontier_spec is_root info entities (potentially_reachable_entries c)
    (S (length (frontier_indices c) + length (entries (potentially_reachable_entries c))))
    (potentially_reachable_entries c) ∅ (frontier_indices c)) as (m & reached & -> & Hs).
  { exact Hm. }
  { intros i Hi. destruct Hi as [i e He Hroot|i j d e r _ _ _ He Hcand _].
    - exists e. split; [done|]. apply (supported_outgoing _ _ _ (Hsup i e He)). apply Hroot.
    - exists e. split; [done|]. apply (supported_outgoing _ _ _ (Hsup j e He)).
      by destruct Hcand as (_ & entry & _ & _ & -> & _). }
  { split.
    - intros j [Hj%elem_of_empty|(e & ? & ?)%Hf]; [done|]. by eapply reachable_root.
    - intros j e He Hroot. right. apply Hf. eauto.
    - by left.
    - by intros i d r Hi%elem_of_empty. }
  { lia. }
  rewrite bind_Ok_l. pose proof (searching_done _ _ _ _ _ _ Hm Hs) as Hreached.
  pose proof (merge_sort_Permutation le (elements (list_to_set (filter (λ i, i ∉ reached) (entries m)) ∪
    unreachable_indices c : gset nat))) as Hperm.
  eexists. split; [done|]. split; [apply Sorted_merge_sort; intros x y; lia|].
  split; [rewrite Hperm; apply NoDup_elements|]. intros i.
  rewrite Hperm, elem_of_elements, elem_of_union, elem_of_list_to_set, list_elem_of_filter, Hu, Hreached, elem_of_entries.
  unfold unreachable_from_roots. split.
  - intros [[Hno [r Hr]]|(e & He & Hun)]; [|by exists e; auto].
    destruct (searching_map _ _ _ _ _ _ _ Hs r) as [Heq|[Hnone _]].
    + rewrite Heq in Hr. apply Hm in Hr as (e & He & Hcand & Hsat). exists e. eauto 10.
    + rewrite Hnone in Hr. by apply elem_of_nil in Hr.
  - intros (e & He & [Hun|(Hcand & [r Hsat] & Hno)]); [right; by exists e|left].
    split; [done|]. exists r. assert (i ∈ default [] (potentially_reachable_entries c !! r)) as Hin by (apply Hm; eauto).
    destruct (searching_map _ _ _ _ _ _ _ Hs r) as [->|[_ Hall]]; [done|].
    destruct (Hall i Hin) as [Hi|Hbad%elem_of_nil]; [|done]. exfalso. by apply Hno, Hreached.
Qed.
(** ** Table entries

    Multicast groups are left out: as roots they are skipped, against the documentation. *)

(** Every reference of the program is made by at least one field. *)
Definition references_have_fields info : Prop :=
  ∀ id infos ref, incoming_references <$> tables_by_id info !! id = Some infos → ref ∈ infos → field_references ref ≠ [].

Record collectable is_root info (e : Entity) : Prop := {
  collectable_supported : supported is_root info e;
  collectable_table_entry : is_table_entry e = true;
}.

Lemma incoming_values d l g ap exact mp :
  fold_result group_incoming l (mkIncomingGroups [] ∅) = Ok g →
  fold_result (λ partials references, p ← destination_partial d references; Ok (partials ++ [p]))
    (map snd (map_to_list (action_references_by_name g))) [] = Ok ap →
  destination_partial d (List.filter (λ r, negb (FieldIsOptional (source r))) (incoming_match_field_references g)) = Ok exact →
  fold_result (add_optional d) (List.filter (λ r, FieldIsOptional (source r)) (incoming_match_field_references g)) [exact] = Ok mp →
  ∀ r, r ∈ l → ∃ v c, destination_value r d = Ok (Some v) ∧ named r v = Ok c.
Proof.
  intros Hg Hap Hexact Hmp r Hr. pose proof (group_incoming_spec _ _ Hg) as (Hm & Hn & _ & Hnamed). rewrite Hm in *.
  destruct (group_incoming_kinds _ _ _ r Hg Hr) as [Hmatch|[f Hf]].
  - apply destination_partial_spec in Hexact as [Hexact _]. apply add_optional_spec in Hmp as [Hmp _].
    destruct (FieldIsOptional (source r)) eqn:Ho; [apply Hmp|apply Hexact]; rewrite !in_filter, Ho; auto.
  - destruct (Hnamed r f Hr Hf) as [n Hname].
    assert (r ∈ List.filter (is_named_action_reference n) l) as Hin.
    { apply in_filter. split; [done|]. unfold is_named_action_reference. rewrite Hf, Hname. by apply bool_decide_eq_true. }
    specialize (Hn n). destruct (action_references_by_name g !! n) as [refs|] eqn:Hrefs; cbn in Hn.
    2: { rewrite <-Hn in Hin. by apply elem_of_nil in Hin. }
    pose proof (fold_result_list (destination_partial d) _ _ _ (λ _ _, eq_refl) Hap) as Hall.
    assert (refs ∈ map snd (map_to_list (action_references_by_name g))) as Hml.
    { apply list_elem_of_fmap. exists (n, refs). split; [done|]. by apply elem_of_map_to_list. }
    destruct (list_elem_of_lookup_1 _ _ Hml) as [i Hi]. destruct (Forall2_lookup_l _ _ _ _ _ Hall Hi) as (p & _ & Hp).
    apply destination_partial_spec in Hp as [Hp _]. apply Hp. by rewrite Hn.
Qed.

(** An entry of the destination table satisfies some reference. *)
Lemma incoming_nonempty ref d refs :
  PossibleIncomingConcreteTableReferences ref d = Ok refs → field_references ref ≠ [] → ∃ r, r ∈ refs.
Proof.
  intros Hrefs Hne. destruct (field_references ref) as [|r0 l0] eqn:Hl; [done|].
  assert (r0 ∈ field_references ref) as Hr0 by (rewrite Hl; apply list_elem_of_here).
  pose proof (incoming_spec _ _ _ Hrefs) as (sn & dn & _ & _ & _ & Hchoose & Hnamed). cbv zeta in Hchoose, Hnamed.
  unfold PossibleIncomingConcreteTableReferences in Hrefs.
  apply bind_Ok_iff in Hrefs as (_ & _ & (g & Hg & (ap & Hap & (exact & Hexact & (mp & Hmp & _)%bind_Ok_iff)%bind_Ok_iff)%bind_Ok_iff)%bind_Ok_iff).
  destruct (incoming_values _ _ _ _ _ _ Hg Hap Hexact Hmp r0 Hr0) as (v & c & Hv & Hc).
  set (name := match source r0 with ActionField f => match GetNameOfAction f with Ok n => Some n | _ => None end | _ => None end).
  set (P := λ r, match source r with
    | ActionField f => match GetNameOfAction f, name with Ok n, Some m => bool_decide (n = m) | _, _ => false end
    | _ => true end).
  destruct (Hchoose P) as (f & Hf & Hin).
  - split.
    + intros r _ Hmatch _. unfold P, is_match_reference in *. by destruct (source r).
    + exists name. intros r a Hr Ha. unfold P. rewrite Ha. destruct (Hnamed r a Hr Ha) as [n ->].
      destruct name as [m|]; [rewrite bool_decide_eq_true|]; naive_solver.
  - exists (mkConcreteTableReference sn dn f). apply Hin. intros ->.
    assert (c ∈ (∅ : Fields)) as Hbad%elem_of_empty; [|done]. apply Hf. exists r0, v. split_and!; [done| |done..].
    unfold P, name. destruct (source r0) as [|a|] eqn:Hs; [done| |done]. destruct (Hnamed r0 a Hr0 Hs) as [n ->].
    by apply bool_decide_eq_true.
Qed.

Lemma candidate_satisfies is_root info e :
  references_have_fields info → supported is_root info e → candidate is_root info e → ∃ r, satisfies info e r.
Proof.
  intros Hfields [_ _ Hincoming _] [Hroot (entry & ref & infos & -> & Hinfos)].
  destruct (Hincoming Hroot) as (entry' & infos' & [= <-] & Hinfos' & Hrefs).
  assert (infos' = ref :: infos) as -> by congruence.
  destruct (Hrefs ref) as [refs Hcomputed]; [apply list_elem_of_here|].
  destruct (incoming_nonempty _ _ _ Hcomputed) as [r Hr]; [by eapply Hfields; [|apply list_elem_of_here]|].
  exists r, (ref :: infos), ref, refs. split; [|split; [apply list_elem_of_here|done]].
  unfold GetIncomingTableReferences, GetTableReferences. apply fmap_Some in Hinfos as (def & -> & ->). done.
Qed.

(** Entity [d] refers to [e]. *)
Definition refers_to info (d e : Entity) : Prop := ∃ r, makes info d r ∧ satisfies info e r.
(** As documented: the roots, and what they refer to, directly or transitively. *)
Inductive reachable_from_root is_root info entities : nat → Prop :=
  | from_root i e : entities !! i = Some e → is_root e = Ok true → reachable_from_root is_root info entities i
  | from_reachable i j d e :
    reachable_from_root is_root info entities i → entities !! i = Some d → entities !! j = Some e → refers_to info d e →
    reachable_from_root is_root info entities j.

Lemma satisfies_candidate is_root info e r :
  is_root e = Ok false → is_table_entry e = true → satisfies info e r → candidate is_root info e.
Proof.
  intros Hroot Hentry (infos & ref & refs & Hinfos & Href & _). split; [done|]. destruct e as [entry| |]; [|done..].
  unfold GetIncomingTableReferences, GetTableReferences in Hinfos.
  apply bind_Ok_iff in Hinfos as (def & Hdef%FindOrStatus_Ok & [= <-]).
  destruct (incoming_references def) as [|i infos] eqn:Hincoming; [by apply elem_of_nil in Href|]. exists entry, i, infos.
  split; [done|]. rewrite Hdef. cbn. by rewrite Hincoming.
Qed.

Lemma reachable_documented is_root info entities i :
  Forall (collectable is_root info) entities → reachable is_root info entities i ↔ reachable_from_root is_root info entities i.
Proof.
  intros Hall. rewrite Forall_lookup in Hall. split.
  - induction 1 as [i e He [_ Hroot]|i j d e r _ IH Hd Hm He _ Hs]; [by eapply from_root|].
    eapply from_reachable; [exact IH|done|done|]. by exists r.
  - induction 1 as [i e He Hroot|i j d e _ IH Hd He (r & Hm & Hs)].
    + eapply reachable_root; [done|]. split; [|done]. apply (collectable_table_entry _ _ _ (Hall _ _ He)).
    + destruct (Hall _ _ He) as [[_ [b Hb] _ _] Hentry]. destruct b; [by eapply reachable_root|].
      eapply reachable_step; [exact IH|done..| |done]. by eapply satisfies_candidate.
Qed.

Lemma reachable_not_unreferenced is_root info entities i e :
  entities !! i = Some e → reachable is_root info entities i → ¬ unreferenced is_root info e.
Proof.
  intros He Hreach [Hroot (entry & -> & Hnone)]. destruct Hreach as [i e' He' [_ Hr]|i j d e' r _ _ _ He' Hc _].
  - congruence.
  - assert (e' = kTableEntry entry) as -> by congruence. destruct Hc as (_ & entry' & x & xs & Heq & Hsome).
    injection Heq as <-. congruence.
Qed.

(** C26.  Garbage collection of table entries finds exactly the garbage.  For table entries of the program whose
    references can be computed, [GetEntitiesUnreachableFromRoots] terminates and returns, in the order of the
    input and each once, the entries that are not reachable from a root, where a root reaches what it refers to,
    directly or transitively.  Multicast groups, which the code skips as roots against its documentation, are
    not among the entries. *)
Theorem unreachable_entities_exact is_root info entities :
  references_have_fields info → Forall (collectable is_root info) entities →
  ∃ indices, GetEntitiesUnreachableFromRoots entities is_root info = Ok (omap (λ i, entities !! i) indices) ∧
    Sorted le indices ∧ NoDup indices ∧
    ∀ i, i ∈ indices ↔ is_Some (entities !! i) ∧ ¬ reachable_from_root is_root info entities i.
Proof.
  intros Hfields Hall. destruct (unreachable_entities_spec is_root info entities) as (indices & Hget & Hs & Hnd & Hin).
  { eapply Forall_impl; [exact Hall|]. apply collectable_supported. }
  exists indices. split_and!; [done..|]. intros i. rewrite Hin, <-reachable_documented by done.
  pose proof Hall as Hlookup. rewrite Forall_lookup in Hlookup. split.
  - intros (e & He & [Hun|(_ & _ & Hno)]); (split; [by eexists|]); [|done].
    intros Hreach. by eapply reachable_not_unreferenced.
  - intros [[e He] Hno]. exists e. split; [done|]. destruct (Hlookup _ _ He) as [Hsup Hentry].
    pose proof Hsup as [_ [b Hb] Hinc _].
    destruct b; [by destruct Hno; eapply reachable_root|].
    destruct (Hinc Hb) as (entry & infos & -> & Hinfos & _). destruct infos as [|x infos].
    + left. split; [done|]. by exists entry.
    + right. assert (candidate is_root info (kTableEntry entry)) as Hc by (split; [done|]; by exists entry, x, infos).
      split; [done|]. split; [|done]. by eapply candidate_satisfies.
Qed.
End spec.

(** * Examples

    A next hop (table 1, the root) refers to a router interface (table 2); a multicast group refers
    to one through the ports of its replicas. *)

Definition example_is_root (e : Entity) : result bool :=
  Ok (match e with kTableEntry entry => table_id entry =? 1 | _ => true end).

Definition multicast_references : IrTableReference :=
  mkIrTableReference (BuiltInTable BUILT_IN_TABLE_MULTICAST_GROUP_TABLE) (P4Table $"r" 2)
    [mkFieldReference (ActionField (BuiltInActionField (mkIrBuiltInActionField BUILT_IN_ACTION_REPLICA
        BUILT_IN_PARAMETER_REPLICA_PORT)))
       (example_match_field $"d" 1 false)].

Definition example_multicast (port : str) : Entity :=
  kPacketReplicationEngineEntry (kMulticastGroupEntry 1 [mkReplica (kPort port) 0 []] []).

Definition collection_info : IrP4Info :=
  reference_program [reference_table 1 $"nexthop" [] [example_references];
    reference_table 2 $"rif" [example_references; multicast_references] []] [multicast_references].

Definition example_entities : list Entity :=
  [example_rif $"1"; example_rif $"2"; example_nexthop; example_rif $"1"; example_multicast $"2"].

(** The second router interface is reported although the root multicast group refers to it. *)
Example multicast_root_ignored :
  length <$> GetEntitiesUnreachableFromRoots example_entities example_is_root collection_info = Ok 1%nat ∧
  GetEntitiesUnreachableFromRoots example_entities example_is_root collection_info =
    Ok [example_rif $"2"] ∧
  match OutgoingConcreteTableReferences multicast_references (example_multicast $"2"),
        PossibleIncomingConcreteTableReferences multicast_references (example_rif $"2") with
  | Ok outgoing, Ok incoming => bool_decide (outgoing ∩ incoming ≠ ∅)
  | _, _ => false
  end = true.
Proof. split_and!; vm_compute; reflexivity. Qed.

Lemma example_supported_rif (rif : str) :
  is_Ok (PossibleIncomingConcreteTableReferences example_references (example_rif rif)) = true →
  is_Ok (PossibleIncomingConcreteTableReferences multicast_references (example_rif rif)) = true →
  supported example_is_root collection_info (example_rif rif).
Proof.
  intros H1%is_Ok_exists H2%is_Ok_exists. split.
  - by left.
  - by eexists.
  - intros _. exists (plain_entry 2 0 [mkFieldMatch 1 (kExact rif); mkFieldMatch 2 (kExact $"v")]
      (kAction (mkAction 20 []))), [example_references; multicast_references].
    split; [reflexivity|]. split; [reflexivity|]. intros ref Href. apply list_elem_of_In in Href.
    destruct Href as [<-|[<-|[]]]; [exact H1|exact H2].
  - intros _. exists []. split; [done|]. by intros ref Href%elem_of_nil.
Qed.

Lemma example_fields : references_have_fields collection_info.
Proof.
  assert (forallb (λ def, forallb (λ ref, (0 <? length (field_references ref))%nat) (incoming_references def))
    (map snd (map_to_list (tables_by_id collection_info))) = true) as Hall by (vm_compute; reflexivity).
  rewrite forallb_forall in Hall. intros id infos ref (def & Hdef & ->)%fmap_Some Href Hnil.
  assert (In def (map snd (map_to_list (tables_by_id collection_info)))) as Hin.
  { apply in_map_iff. exists (id, def). split; [done|]. by apply list_elem_of_In, elem_of_map_to_list. }
  pose proof (Hall def Hin) as Hdef'. rewrite forallb_forall in Hdef'.
  specialize (Hdef' ref (proj1 (list_elem_of_In _ _) Href)). by rewrite Hnil in Hdef'.
Qed.

Lemma example_collectable_nexthop :
  collectable example_is_root collection_info example_nexthop.
Proof.
  split; [|done]. split.
  - by left.
  - by eexists.
  - intros Hbad. discriminate Hbad.
  - intros _. exists [example_references]. split; [done|]. intros ref Href%list_elem_of_singleton. subst ref.
    apply is_Ok_exists. vm_compute. reflexivity.
Qed.

(** The second interface is garbage, the first is not: the next hop refers to it. *)
Example example_garbage :
  GetEntitiesUnreachableFromRoots [example_rif $"2"; example_nexthop; example_rif $"1"] example_is_root collection_info =
    Ok [example_rif $"2"].
Proof. vm_compute. reflexivity. Qed.

Lemma unreachable_entities_exact_witness :
  ∃ indices, GetEntitiesUnreachableFromRoots [example_rif $"2"; example_nexthop] example_is_root collection_info =
    Ok (omap (λ i, [example_rif $"2"; example_nexthop] !! i) indices).
Proof.
  destruct (unreachable_entities_exact example_is_root collection_info [example_rif $"2"; example_nexthop])
    as (indices & Hindices & _); [exact example_fields| |by exists indices].
  apply Forall_cons. split; [split; [apply example_supported_rif; vm_compute; reflexivity|done]|].
  apply Forall_cons. split; [apply example_collectable_nexthop|by apply Forall_nil].
Defined.
