(* ===== verification/BitString.v ===== *)
(** p4_infra/string_encodings/bit_string.{h,cc}: the buffer of bits that packets are parsed from and
    serialized to.  A bit string is the list of its bits that have not been consumed. *)
From S2P Require Import Prelude Bitset ByteString Abseil HexString NetAddr NetAddrText.

(** * Definitions *)

(** [bits_] from [start_index_] on. *)
Definition BitString := list bool.

(** [std::bitset<num_bits>] of bits, the first one most significant, and back. *)
Definition of_bits (bits : list bool) : Z := fold_left (λ acc b, 2 * acc + Z.b2z b) bits 0.
Definition bits_of (num_bits : Z) (bits : Z) : list bool :=
  map (λ i, bs_test bits (num_bits - 1 - i)) (seqZ 0 num_bits).

Definition AppendBit (bit : bool) (data : BitString) : BitString := data ++ [bit].
Definition AppendBits (num_bits bits : Z) (data : BitString) : BitString := data ++ bits_of num_bits bits.
Definition AppendBytes (bytes : str) (data : BitString) : BitString :=
  fold_left (λ data c, AppendBits 8 (uchar c) data) bytes data.
Definition OfByteString (bytes : str) : BitString := AppendBytes bytes [].

Definition size (data : BitString) : Z := zlen data.

(** The bits consumed, and the rest. *)
Definition Consume (num_bits : Z) (data : BitString) : result (list bool * BitString) :=
  if num_bits <? 0 then Err kInvalidArgument
  else if size data <? num_bits then Err kFailedPrecondition
  else Ok (take (Z.to_nat num_bits) data, drop (Z.to_nat num_bits) data).

(** One byte: the bits are shifted in from the low end. *)
Definition byte_of (bits : list bool) : ascii :=
  char_of (fold_left (λ character bit, Z.lor (wrapU 8 (Z.shiftl character 1)) (Z.b2z bit)) bits 0).

Fixpoint bytes_loop (data : BitString) : str :=
  match data with
  | b7 :: b6 :: b5 :: b4 :: b3 :: b2 :: b1 :: b0 :: data =>
    byte_of [b7; b6; b5; b4; b3; b2; b1; b0] :: bytes_loop data
  | _ => []
  end.

Definition ToByteString (data : BitString) : result str :=
  if negb (size data mod 8 =? 0) then Err kFailedPrecondition else Ok (bytes_loop data).

Section hex.
Context `{AbslStrings}.

(** The digits of one byte, least significant first.  The bits come least significant first and are
    shifted in from the high end; at most 4 bits give one digit. *)
Definition byte_hex (bits : list bool) : str :=
  let character := fold_left (λ character bit,
    Z.lor (Z.shiftr character 1) (if bit : bool then 128 else 0)) bits 0 in
  let character := Z.shiftr character (8 - zlen bits) in
  let hex := BytesToHexString [char_of character] in
  rev (if zlen bits <=? 4 then take 1 (drop 1 hex) else hex).

(** Eight bits at a time, the last ones first. *)
Fixpoint hex_loop (rev_bits : list bool) : str :=
  match rev_bits with
  | [] => []
  | b0 :: b1 :: b2 :: b3 :: b4 :: b5 :: b6 :: b7 :: rest =>
    byte_hex [b0; b1; b2; b3; b4; b5; b6; b7] ++ hex_loop rest
  | partial => byte_hex partial
  end.

Definition bits_to_hex (bits : list bool) : str := $"0x" ++ rev (hex_loop (rev bits)).

Definition ToHexString (data : BitString) : result str :=
  if size data =? 0 then Err kFailedPrecondition else Ok (bits_to_hex data).

Definition PeekHexString (num_bits : Z) (data : BitString) : result str :=
  if num_bits <? 0 then Err kInvalidArgument
  else if size data <? num_bits then Err kFailedPrecondition
  else Ok (bits_to_hex (take (Z.to_nat num_bits) data)).

Definition ConsumeHexString (num_bits : Z) (data : BitString) : result (str * BitString) :=
  c ← Consume num_bits data; Ok (bits_to_hex (fst c), snd c).

Definition ConsumeAddress (num_bits : Z) (data : BitString) : result (Z * BitString) :=
  c ← ConsumeHexString num_bits data;
  address ← OfHexString num_bits (fst c);
  Ok (address, snd c).
Definition ConsumeMacAddress : BitString → result (Z * BitString) := ConsumeAddress 48.
Definition ConsumeIpv4Address : BitString → result (Z * BitString) := ConsumeAddress 32.
Definition ConsumeIpv6Address : BitString → result (Z * BitString) := ConsumeAddress 128.

Definition ConsumeBitset (num_bits : Z) (data : BitString) : result (Z * BitString) :=
  c ← Consume num_bits data; Ok (of_bits (fst c), snd c).

Definition AppendHexString (hex_string : str) (data : BitString) : result BitString :=
  bytes ← HexStringToByteString hex_string; Ok (AppendBytes bytes data).
End hex.

(** * Bits of an integer *)

Lemma of_bits_acc bits v :
  fold_left (λ acc b, 2 * acc + Z.b2z b) bits v = v * 2 ^ zlen bits + of_bits bits.
Proof.
  revert v. induction bits as [|b bits IH]; intros v; [change (v = v * 1 + 0); lia|].
  unfold of_bits. cbn [fold_left]. rewrite !IH, zlen_cons, Z.pow_add_r by (pose proof (zlen_nonneg bits); lia).
  change (2 ^ 1) with 2. ring.
Qed.

Lemma of_bits_cons b bits : of_bits (b :: bits) = Z.b2z b * 2 ^ zlen bits + of_bits bits.
Proof. unfold of_bits at 1. cbn [fold_left]. rewrite of_bits_acc. lia. Qed.

Lemma of_bits_app l k : of_bits (l ++ k) = of_bits l * 2 ^ zlen k + of_bits k.
Proof. unfold of_bits at 1. rewrite fold_left_app. apply of_bits_acc. Qed.

Lemma of_bits_ok bits : bs_ok (zlen bits) (of_bits bits).
Proof.
  unfold bs_ok. induction bits as [|b bits IH]; [done|].
  rewrite of_bits_cons, zlen_cons, Z.pow_add_r by (pose proof (zlen_nonneg bits); lia).
  change (2 ^ 1) with 2. destruct b; cbn [Z.b2z]; lia.
Qed.

Lemma bits_of_length n b : 0 ≤ n → zlen (bits_of n b) = n.
Proof. intros Hn. unfold zlen, bits_of. rewrite length_map, length_seqZ. lia. Qed.

Lemma bits_of_testbit n a b :
  (∀ i, 0 ≤ i < n → Z.testbit a i = Z.testbit b i) → bits_of n a = bits_of n b.
Proof.
  intros Hab. unfold bits_of. apply map_ext_in. intros i Hi.
  apply list_elem_of_In, elem_of_seqZ in Hi. unfold bs_test. apply Hab. lia.
Qed.

Lemma bits_of_succ n b : 0 ≤ n → bits_of (n + 1) b = bs_test b n :: bits_of n b.
Proof.
  intros Hn. unfold bits_of. rewrite seqZ_cons by lia. cbn [map].
  replace (n + 1 - 1 - 0) with n by lia. f_equal.
  replace (Z.pred (n + 1)) with n by lia. change (Z.succ 0) with (1 + 0). rewrite <-(fmap_add_seqZ 1 0 n).
  change (list_fmap Z Z (Z.add 1) (seqZ 0 n)) with (map (Z.add 1) (seqZ 0 n)).
  change (Z.add 1 <$> seqZ 0 n) with (map (Z.add 1) (seqZ 0 n)). rewrite map_map. apply map_ext. intros i. f_equal. lia.
Qed.

Lemma bits_of_of_bits bits : bits_of (zlen bits) (of_bits bits) = bits.
Proof.
  induction bits as [|b bits IH]; [done|]. pose proof (zlen_nonneg bits). pose proof (of_bits_ok bits) as Hok.
  rewrite zlen_cons, bits_of_succ, of_bits_cons by lia.
  assert (Z.b2z b * 2 ^ zlen bits + of_bits bits = Z.lor (Z.shiftl (Z.b2z b) (zlen bits)) (of_bits bits)) as ->.
  { by apply shiftl_lor_add. }
  f_equal.
  - unfold bs_test. rewrite Z.lor_spec, Z.shiftl_spec, Z.sub_diag by lia.
    rewrite (testbit_above (zlen bits) (of_bits bits) (zlen bits)) by (done || lia).
    rewrite orb_false_r. by destruct b.
  - transitivity (bits_of (zlen bits) (of_bits bits)); [|done]. apply bits_of_testbit. intros i Hi. rewrite Z.lor_spec, Z.shiftl_spec by lia.
    by rewrite Z.testbit_neg_r by lia.
Qed.

Lemma of_bits_of n b : 0 ≤ n → of_bits (bits_of n b) = wrapU n b.
Proof.
  intros Hn. apply Z.bits_inj'. intros i Hi.
  pose proof (of_bits_ok (bits_of n b)) as Hok. rewrite bits_of_length in Hok by done.
  unfold wrapU. destruct (Z.lt_ge_cases i n) as [Hlt|Hge].
  - rewrite Z.mod_pow2_bits_low by lia.
    assert (bits_of n (of_bits (bits_of n b)) = bits_of n b) as Heq.
    { rewrite <-(bits_of_length n b) at 1 by done. apply bits_of_of_bits. }
    unfold bits_of in Heq at 1 3.
    assert (∀ k, k ∈ seqZ 0 n → bs_test (of_bits (bits_of n b)) (n - 1 - k) = bs_test b (n - 1 - k)) as Hk.
    { revert Heq. generalize (of_bits (bits_of n b)). intros a. induction (seqZ 0 n) as [|x l IHl]; [set_solver|].
      cbn [map]. intros [= Hx Hl] k [->|Hin]%elem_of_cons; [done|]. auto. }
    specialize (Hk (n - 1 - i)). unfold bs_test in Hk. replace (n - 1 - (n - 1 - i)) with i in Hk by lia.
    apply Hk, elem_of_seqZ. lia.
  - rewrite (testbit_above n (of_bits (bits_of n b)) i) by done. by rewrite Z.mod_pow2_bits_high by lia.
Qed.

Lemma bits_of_app m n a b :
  0 ≤ m → 0 ≤ n → bs_ok n b → bits_of (m + n) (a * 2 ^ n + b) = bits_of m a ++ bits_of n b.
Proof.
  intros Hm Hn Hb.
  assert (bits_of m a ++ bits_of n b = bits_of (zlen (bits_of m a ++ bits_of n b)) (of_bits (bits_of m a ++ bits_of n b))) as ->.
  { by rewrite bits_of_of_bits. }
  rewrite zlen_app, !bits_of_length, of_bits_app, !of_bits_of, bits_of_length by lia.
  rewrite (wrapU_small n b) by done. apply bits_of_testbit. intros i Hi.
  rewrite !shiftl_lor_add, !Z.lor_spec, !Z.shiftl_spec by (done || lia). f_equal.
  unfold wrapU. destruct (Z.lt_ge_cases (i - n) 0); [by rewrite !Z.testbit_neg_r by lia|].
  by rewrite Z.mod_pow2_bits_low by lia.
Qed.

(** * Hexadecimal digits *)

Section hex_lemmas.
Context `{AbslStringsLaws}.

Lemma HexDigitToChar_hex_digit d : 0 ≤ d < 16 → HexDigitToChar d = hex_digit d.
Proof.
  intros Hd. apply (bool_decide_eq_true (HexDigitToChar d = hex_digit d)). finite_check d 0 16.
Qed.

(** The digits of [v], least significant first. *)
Definition low_digits (n v : Z) : str := map (λ i, hex_digit (v / 16 ^ i mod 16)) (seqZ 0 ((n + 3) / 4)).

(** [byte_hex] without the library call. *)
Definition byte_digits (bits : list bool) : str :=
  let character := fold_left (λ character bit,
    Z.lor (Z.shiftr character 1) (if bit : bool then 128 else 0)) bits 0 in
  let c := uchar (char_of (Z.shiftr character (8 - zlen bits))) in
  let hex := [hex_digit (c / 16); hex_digit (c mod 16)] in
  rev (if zlen bits <=? 4 then take 1 (drop 1 hex) else hex).

Fixpoint all_bits (n : nat) : list (list bool) :=
  match n with O => [[]] | S n => flat_map (λ l, [true :: l; false :: l]) (all_bits n) end.

Lemma elem_of_all_bits l : l ∈ all_bits (length l).
Proof.
  induction l as [|b l IH]; [by left|]. cbn [length all_bits]. apply list_elem_of_In, in_flat_map.
  exists l. split; [by apply list_elem_of_In|]. destruct b; cbn; auto.
Qed.

Lemma byte_hex_spec bits :
  (1 ≤ length bits ≤ 8)%nat → byte_hex bits = low_digits (zlen bits) (of_bits (rev bits)).
Proof.
  intros Hlen. transitivity (byte_digits bits).
  { unfold byte_hex. by rewrite BytesToHexString_cons, BytesToHexString_nil. }
  assert (forallb (λ l, bool_decide (byte_digits l = low_digits (zlen l) (of_bits (rev l))))
    (flat_map all_bits (seq 1 8)) = true) as Hall by (vm_compute; reflexivity).
  rewrite forallb_forall in Hall. apply (bool_decide_eq_true (byte_digits bits = _)), Hall, in_flat_map.
  exists (length bits). split; [apply in_seq; lia|]. apply list_elem_of_In, elem_of_all_bits.
Qed.

Lemma low_digits_shift n v w :
  0 ≤ n → 0 ≤ w < 256 → low_digits (n + 8) (v * 256 + w) = low_digits 8 w ++ low_digits n v.
Proof.
  intros Hn Hw. unfold low_digits.
  replace ((n + 8 + 3) / 4) with (2 + (n + 3) / 4) by (Z.div_mod_to_equations; lia).
  rewrite seqZ_app, map_app by (Z.div_mod_to_equations; lia).
  change ((8 + 3) / 4) with 2. f_equal.
  - apply map_ext_in. intros i Hi%list_elem_of_In%elem_of_seqZ. f_equal.
    assert (i = 0 ∨ i = 1) as [-> | ->] by lia; [change (16 ^ 0) with 1|change (16 ^ 1) with 16];
      Z.div_mod_to_equations; lia.
  - change (0 + 2) with (2 + 0). rewrite <-(fmap_add_seqZ 2 0).
    change (Z.add 2 <$> seqZ 0 ((n + 3) / 4)) with (map (Z.add 2) (seqZ 0 ((n + 3) / 4))).
    rewrite map_map. apply map_ext_in. intros i Hi%list_elem_of_In%elem_of_seqZ. f_equal. f_equal.
    rewrite Z.pow_add_r by lia. change (16 ^ 2) with 256. rewrite <-Z.div_div by lia. f_equal.
    Z.div_mod_to_equations; lia.
Qed.

Lemma hex_loop_spec rev_bits :
  hex_loop rev_bits = low_digits (zlen rev_bits) (of_bits (rev rev_bits)).
Proof.
  remember (length rev_bits) as k eqn:Hk. revert rev_bits Hk.
  induction k as [k IH] using lt_wf_ind. intros rb Hk.
  destruct rb as [|b0 rb]; [done|].
  do 7 (destruct rb as [|? rb]; [by apply (byte_hex_spec (_ :: _)); cbn; lia|]).
  match goal with |- hex_loop (?x0 :: ?x1 :: ?x2 :: ?x3 :: ?x4 :: ?x5 :: ?x6 :: ?x7 :: rb) = _ =>
    set (byte := [x0; x1; x2; x3; x4; x5; x6; x7]);
    change (hex_loop (x0 :: x1 :: x2 :: x3 :: x4 :: x5 :: x6 :: x7 :: rb)) with (byte_hex byte ++ hex_loop rb);
    change (x0 :: x1 :: x2 :: x3 :: x4 :: x5 :: x6 :: x7 :: rb) with (byte ++ rb) in *
  end.
  rewrite (IH (length rb)) by (subst k; rewrite ?length_app; cbn; lia || done).
  rewrite byte_hex_spec by (cbn; lia). rewrite rev_app_distr, of_bits_app, zlen_app.
  assert (zlen byte = 8) as -> by done. assert (zlen (rev byte) = 8) as -> by done. change (2 ^ 8) with 256.
  pose proof (of_bits_ok (rev byte)) as Hok. rewrite Z.add_comm, low_digits_shift; [done|apply zlen_nonneg|exact Hok].
Qed.

Lemma bits_to_hex_spec bits : bits_to_hex bits = BitsetToHexString (zlen bits) (of_bits bits).
Proof.
  unfold bits_to_hex, BitsetToHexString. rewrite hex_loop_spec, rev_involutive.
  assert (zlen (rev bits) = zlen bits) as -> by (unfold zlen; by rewrite length_rev).
  pose proof (of_bits_ok bits) as [Hlo Hhi]. f_equal. f_equal. unfold low_digits. apply map_ext_in.
  intros i Hi%list_elem_of_In%elem_of_seqZ.
  rewrite ith_hex_digit_spec by (apply zlen_nonneg || lia || done).
  rewrite HexDigitToChar_hex_digit; [done|apply Z.mod_pos_bound; lia].
Qed.
End hex_lemmas.

(** * Round trips *)

Section roundtrips.
Context `{AbslStringsLaws}.

Lemma HexStringToBitset_printed n b : 0 ≤ n → bs_ok n b → HexStringToBitset n (BitsetToHexString n b) = Ok b.
Proof.
  intros Hn Hb. destruct (BitsetToHexString_digits n b Hn Hb) as (h & -> & Hlen & Hp).
  rewrite HexStringToBitset_spec, Hlen by done. by rewrite Z.eqb_refl.
Qed.

Lemma HexStringToBitset_bits bits : HexStringToBitset (zlen bits) (bits_to_hex bits) = Ok (of_bits bits).
Proof.
  rewrite bits_to_hex_spec. apply HexStringToBitset_printed; [apply zlen_nonneg|apply of_bits_ok].
Qed.

Lemma AppendBits_bits bits data : AppendBits (zlen bits) (of_bits bits) data = data ++ bits.
Proof. unfold AppendBits. by rewrite bits_of_of_bits. Qed.

Lemma AppendBytes_app bytes data : AppendBytes bytes data = data ++ OfByteString bytes.
Proof.
  unfold OfByteString, AppendBytes. revert data. induction bytes as [|c bytes IH]; intros data; cbn [fold_left].
  - by rewrite app_nil_r.
  - rewrite (IH (AppendBits 8 (uchar c) data)), (IH (AppendBits 8 (uchar c) [])). unfold AppendBits.
    by rewrite <-app_assoc.
Qed.

Lemma OfByteString_cons c bytes : OfByteString (c :: bytes) = bits_of 8 (uchar c) ++ OfByteString bytes.
Proof. unfold OfByteString at 1, AppendBytes. cbn [fold_left]. apply AppendBytes_app. Qed.

Lemma OfByteString_app s t : OfByteString (s ++ t) = OfByteString s ++ OfByteString t.
Proof. rewrite <-AppendBytes_app. unfold OfByteString, AppendBytes. by rewrite fold_left_app. Qed.

Lemma OfByteString_length bytes : zlen (OfByteString bytes) = 8 * zlen bytes.
Proof.
  induction bytes as [|c bytes IH]; [done|].
  rewrite OfByteString_cons, zlen_app, IH, bits_of_length, zlen_cons by lia. lia.
Qed.

Lemma byte_of_bits bits : length bits = 8%nat → bits_of 8 (uchar (byte_of bits)) = bits.
Proof.
  intros Hlen.
  assert (forallb (λ l, bool_decide (bits_of 8 (uchar (byte_of l)) = l)) (all_bits 8) = true) as Hall
    by (vm_compute; reflexivity).
  rewrite forallb_forall in Hall. apply (bool_decide_eq_true (_ = bits)), Hall.
  rewrite <-Hlen. apply list_elem_of_In, elem_of_all_bits.
Qed.

Lemma byte_of_bits_of c : byte_of (bits_of 8 (uchar c)) = c.
Proof.
  assert (length (bits_of 8 (uchar c)) = 8%nat) as Hlen by done.
  apply uchar_inj. pose proof (byte_of_bits _ Hlen) as Heq.
  apply (f_equal of_bits) in Heq. rewrite !of_bits_of in Heq by lia.
  by rewrite !wrapU_small in Heq by apply uchar_bound.
Qed.

Lemma bytes_loop_byte bits rest : length bits = 8%nat → bytes_loop (bits ++ rest) = byte_of bits :: bytes_loop rest.
Proof.
  intros Hlen. do 8 (destruct bits as [|? bits]; [done|]). by destruct bits.
Qed.

Lemma bytes_loop_of_bytes bytes : bytes_loop (OfByteString bytes) = bytes.
Proof.
  induction bytes as [|c bytes IH]; [done|].
  rewrite OfByteString_cons, bytes_loop_byte by done. by rewrite byte_of_bits_of, IH.
Qed.

(** Induction on bit strings byte by byte. *)
Lemma bytes_ind (P : list bool → Prop) :
  P [] → (∀ byte data, length byte = 8%nat → zlen data mod 8 = 0 → P data → P (byte ++ data)) →
  ∀ data, zlen data mod 8 = 0 → P data.
Proof.
  intros Hnil Hstep data. remember (length data) as k eqn:Hk. revert data Hk.
  induction k as [k IH] using lt_wf_ind. intros data Hk Hmod.
  destruct data as [|b data]; [done|]. assert (8 ≤ length (b :: data))%nat as Hlen.
  { unfold zlen in Hmod. cbn [length] in *. Z.div_mod_to_equations; lia. }
  rewrite <-(take_drop 8 (b :: data)). assert (zlen (drop 8 (b :: data)) mod 8 = 0) as Hdrop.
  { unfold zlen in *. rewrite length_drop. Z.div_mod_to_equations; lia. }
  apply Hstep; [rewrite length_take; lia|done|].
  apply (IH (length (drop 8 (b :: data)))); [rewrite length_drop; cbn [length] in *; lia|done|done].
Qed.

Lemma OfByteString_bytes_loop data : zlen data mod 8 = 0 → OfByteString (bytes_loop data) = data.
Proof.
  apply (bytes_ind (λ data, OfByteString (bytes_loop data) = data)); [done|].
  intros byte rest Hlen _ IH. by rewrite bytes_loop_byte, OfByteString_cons, byte_of_bits, IH.
Qed.

Lemma hex_loop_app l k : zlen l mod 8 = 0 → hex_loop (l ++ k) = hex_loop l ++ hex_loop k.
Proof.
  apply (bytes_ind (λ l, hex_loop (l ++ k) = hex_loop l ++ hex_loop k)); [done|].
  intros byte rest Hlen _ IH. do 8 (destruct byte as [|? byte]; [done|]). destruct byte; [|done].
  cbn [app] in *. cbn [hex_loop app]. by rewrite IH, app_assoc.
Qed.

Lemma byte_hex_bytes byte : length byte = 8%nat → rev (byte_hex (rev byte)) = BytesToHexString [byte_of byte].
Proof.
  intros Hlen. rewrite byte_hex_spec by (rewrite length_rev; lia). rewrite rev_involutive.
  rewrite BytesToHexString_cons, BytesToHexString_nil.
  assert (zlen (rev byte) = 8) as -> by (unfold zlen; rewrite length_rev, Hlen; done).
  assert (uchar (byte_of byte) = of_bits byte) as ->.
  { pose proof (byte_of_bits byte Hlen) as Heq. apply (f_equal of_bits) in Heq.
    rewrite of_bits_of in Heq by lia. by rewrite wrapU_small in Heq by apply uchar_bound. }
  pose proof (of_bits_ok byte) as Hok. assert (zlen byte = 8) as Hz by (unfold zlen; rewrite Hlen; done).
  rewrite Hz in Hok. destruct Hok as [Hlo Hhi]. change (2 ^ 8) with 256 in Hhi.
  unfold low_digits. change (seqZ 0 ((8 + 3) / 4)) with [0; 1]. cbn [map rev app].
  change (16 ^ 0) with 1. change (16 ^ 1) with 16. rewrite Z.div_1_r.
  by rewrite (Z.mod_small (of_bits byte / 16)) by (Z.div_mod_to_equations; lia).
Qed.

Lemma BytesToHexString_app s t : BytesToHexString (s ++ t) = BytesToHexString s ++ BytesToHexString t.
Proof.
  induction s as [|c s IH]; [by rewrite BytesToHexString_nil|].
  cbn [app]. rewrite !BytesToHexString_cons, IH. done.
Qed.

(** Whole bytes are printed as by [ByteStringToHexString]. *)
Lemma bits_to_hex_bytes data : zlen data mod 8 = 0 → bits_to_hex data = ByteStringToHexString (bytes_loop data).
Proof.
  intros Hmod. unfold bits_to_hex, ByteStringToHexString. f_equal. revert data Hmod.
  apply (bytes_ind (λ data, rev (hex_loop (rev data)) = BytesToHexString (bytes_loop data))).
  { by rewrite BytesToHexString_nil. }
  intros byte rest Hlen Hmod IH. rewrite bytes_loop_byte, rev_app_distr by done.
  rewrite hex_loop_app, rev_app_distr, IH by (unfold zlen in *; by rewrite length_rev).
  change (byte_of byte :: bytes_loop rest) with ([byte_of byte] ++ bytes_loop rest).
  rewrite BytesToHexString_app, <-(byte_hex_bytes byte) by done. f_equal. f_equal.
  assert (length (rev byte) = 8%nat) as Hr by by rewrite length_rev.
  revert Hr. generalize (rev byte). intros l Hl. do 8 (destruct l as [|? l]; [done|]). destruct l; [|done].
  cbn [hex_loop]. by rewrite app_nil_r.
Qed.

Lemma HexStringToByteString_printed s : HexStringToByteString (ByteStringToHexString s) = Ok s.
Proof.
  unfold HexStringToByteString, ByteStringToHexString. rewrite ConsumePrefix_app.
  assert (zlen (BytesToHexString s) mod 2 = 0) as ->; [|by rewrite hex_pairs_loop_print].
  unfold zlen. rewrite BytesToHexString_length. Z.div_mod_to_equations; lia.
Qed.

Lemma AppendHexString_bits bits data :
  zlen bits mod 8 = 0 → AppendHexString (bits_to_hex bits) data = Ok (data ++ bits).
Proof.
  intros Hmod. unfold AppendHexString. rewrite bits_to_hex_bytes, HexStringToByteString_printed by done.
  rewrite bind_Ok_l, AppendBytes_app, OfByteString_bytes_loop by done. done.
Qed.

(** Bit strings.  Bytes turned into bits and back are unchanged; a byte string is obtained from
    exactly the bit strings of whole bytes.  Taking [n] available bits as a hexadecimal string gives
    "0x" and the ceil(n/4) digits of the integer they spell, which [HexStringToBitset] reads back to
    the bits taken; as an address it gives that integer; and appending whole bytes of them as a
    hexadecimal string restores them. *)
Theorem bit_string_roundtrip (bytes : str) (data : BitString) (n : Z) :
  0 ≤ n ≤ size data →
  ToByteString (OfByteString bytes) = Ok bytes ∧
  (size data mod 8 = 0 → ∃ s, ToByteString data = Ok s ∧ OfByteString s = data) ∧
  ∃ hex bits rest, data = bits ++ rest ∧ zlen bits = n ∧
    ConsumeHexString n data = Ok (hex, rest) ∧ hex = BitsetToHexString n (of_bits bits) ∧
    HexStringToBitset n hex = Ok (of_bits bits) ∧ ConsumeAddress n data = Ok (of_bits bits, rest) ∧
    AppendBits n (of_bits bits) [] = bits ∧ (n mod 8 = 0 → AppendHexString hex [] = Ok bits).
Proof.
  intros Hn. split; [|split].
  - unfold ToByteString, size. rewrite OfByteString_length, Z.mul_comm, Z.mod_mul by lia.
    by rewrite bytes_loop_of_bytes.
  - intros Hmod. exists (bytes_loop data). unfold ToByteString. rewrite Hmod. split; [done|].
    by apply OfByteString_bytes_loop.
  - set (bits := take (Z.to_nat n) data). set (rest := drop (Z.to_nat n) data).
    assert (zlen bits = n) as Hlen by (unfold zlen, bits, size, zlen in *; rewrite length_take; lia).
    exists (bits_to_hex bits), bits, rest.
    assert (ConsumeHexString n data = Ok (bits_to_hex bits, rest)) as Hc.
    { unfold ConsumeHexString, Consume. rewrite (proj2 (Z.ltb_ge _ _)), (proj2 (Z.ltb_ge _ _)) by lia. done. }
    pose proof (HexStringToBitset_bits bits) as Hb. rewrite Hlen in Hb.
    split_and!; [symmetry; apply take_drop|done|done| |done| | |].
    + by rewrite bits_to_hex_spec, Hlen.
    + unfold ConsumeAddress. rewrite Hc, bind_Ok_l. unfold OfHexString. cbn [fst snd]. by rewrite Hb.
    + rewrite <-Hlen. by rewrite AppendBits_bits.
    + intros Hmod. by rewrite AppendHexString_bits by (by rewrite Hlen).
Qed.
End roundtrips.

Lemma bit_string_roundtrip_witness :
  ToByteString (OfByteString $"ab") = Ok $"ab" ∧ ∃ hex bits rest, OfByteString $"ab" = bits ++ rest ∧ zlen bits = 12 ∧
    ConsumeHexString 12 (OfByteString $"ab") = Ok (hex, rest) ∧ hex = $"0x616".
Proof.
  destruct (bit_string_roundtrip $"ab" (OfByteString $"ab") 12) as (Hb & _ & hex & bits & rest & Hd & Hl & Hc & Hh & _).
  { vm_compute. split; discriminate. }
  split; [exact Hb|]. exists hex, bits, rest. split; [exact Hd|]. split; [exact Hl|]. split; [exact Hc|].
  assert (ConsumeHexString 12 (OfByteString $"ab") = Ok ($"0x616", drop 12 (OfByteString $"ab"))) as Hv by (vm_compute; reflexivity).
  rewrite Hv in Hc. by injection Hc.
Defined.
