(* ===== verification/Packet.v ===== *)
(** p4_infra/packetlib: [packetlib.proto], [bit_widths.h] and the parsing and raw serialization of
    [packetlib.{h,cc}].  A packet is a list of headers, with their fields as strings, and a payload.
    The theorems are in PacketRoundtrip.v: parsing loses nothing (serializing the result of
    parsing gives back the bytes parsed). *)
From S2P Require Import Prelude Bitset ByteString Abseil HexString NetAddr NetAddrText BitString.

(** * bit_widths.h *)

Definition kEthernetHeaderBitwidth : Z := 48 * 2 + 16.
Definition kStandardIpv4HeaderBitwidth : Z := 160.
Definition kIpv6HeaderBitwidth : Z := 320.
Definition kMinHopByHopOptionsHeaderBitwidth : Z := 64.
Definition kUdpHeaderBitwidth : Z := 64.
Definition kStandardTcpHeaderBitwidth : Z := 5 * 32.
Definition kArpHeaderBitwidth : Z := 28 * 8.
Definition kIcmpHeaderBitwidth : Z := 8 * 8.
Definition kVlanHeaderBitwidth : Z := 32.
Definition kRfc2784GreHeaderWithoutOptionalsBitwidth : Z := 32.
Definition kSaiP4BMv2PacketInHeaderBitwidth : Z := 24.
Definition kIpfixHeaderBitwidth : Z := 128.
Definition kPsampHeaderBitwidth : Z := 224.
Definition kPtpHeaderBitwidth : Z := 272.
Definition kPspHeaderBitwidth : Z := 128.
Definition kCsigHeaderBitwidth : Z := 32.
Definition kEthernetEthertypeBitwidth : Z := 16.
Definition kVlanPriorityCodePointBitwidth : Z := 3.
Definition kVlanDropEligibilityIndicatorBitwidth : Z := 1.
Definition kVlanVlanIdentifierBitwidth : Z := 12.
Definition kVlanEthertypeBitwidth : Z := 16.
Definition kCsigSignalTypeBitwidth : Z := 3.
Definition kCsigReserved0Bitwidth : Z := 1.
Definition kCsigSignalValueBitwidth : Z := 5.
Definition kCsigLocatorMetadataBitwidth : Z := 7.
Definition kCsigEthertypeBitwidth : Z := 16.
Definition kIpVersionBitwidth : Z := 4.
Definition kIpIhlBitwidth : Z := 4.
Definition kIpDscpBitwidth : Z := 6.
Definition kIpEcnBitwidth : Z := 2.
Definition kIpTotalLengthBitwidth : Z := 16.
Definition kIpIdentificationBitwidth : Z := 16.
Definition kIpFlagsBitwidth : Z := 3.
Definition kIpFragmentOffsetBitwidth : Z := 13.
Definition kIpTtlBitwidth : Z := 8.
Definition kIpProtocolBitwidth : Z := 8.
Definition kIpChecksumBitwidth : Z := 16.
Definition kIpFlowLabelBitwidth : Z := 20.
Definition kIpPayloadLengthBitwidth : Z := 16.
Definition kIpNextHeaderBitwidth : Z := 8.
Definition kIpHopLimitBitwidth : Z := 8.
Definition kHopByHopNextHeaderBitwidth : Z := 8.
Definition kHopByHopHeaderExtensionLengthBitwidth : Z := 8.
Definition kHopByHopOptionsAndPaddingBitwidth : Z := 48.
Definition kUdpPortBitwidth : Z := 16.
Definition kUdpLengthBitwidth : Z := 16.
Definition kUdpChecksumBitwidth : Z := 16.
Definition kTcpPortBitwidth : Z := 16.
Definition kTcpSequenceNumberBitwidth : Z := 32.
Definition kTcpAcknowledgementNumberBitwidth : Z := 32.
Definition kTcpDataOffsetBitwidth : Z := 4.
Definition kTcpRestOfHeaderBitwidth : Z := 60.
Definition kArpTypeBitwidth : Z := 16.
Definition kArpLengthBitwidth : Z := 8.
Definition kArpOperationBitwidth : Z := 16.
Definition kIcmpTypeBitwidth : Z := 8.
Definition kIcmpCodeBitwidth : Z := 8.
Definition kIcmpChecksumBitwidth : Z := 16.
Definition kIcmpRestOfHeaderBitwidth : Z := 32.
Definition kGreChecksumPresentBitwidth : Z := 1.
Definition kGreReserved0Bitwidth : Z := 12.
Definition kGreVersionBitwidth : Z := 3.
Definition kGreProtocolTypeBitwidth : Z := 16.
Definition kGreChecksumBitwidth : Z := 16.
Definition kGreReserved1Bitwidth : Z := 16.
Definition kMinNumBytesInEthernetPayload : Z := 46.
Definition kSaiP4BMv2PacketInIngressPortBitwidth : Z := 9.
Definition kSaiP4BMv2PacketInTargetEgressPortBitwidth : Z := 9.
Definition kSaiP4BMv2PacketInUnusedPadBitwidth : Z := 6.
Definition kIpfixVersionBitwidth : Z := 16.
Definition kIpfixLengthBitwidth : Z := 16.
Definition kIpfixExportTimeBitwidth : Z := 32.
Definition kIpfixSequenceNumberBitwidth : Z := 32.
Definition kIpfixObservationDomainIdBitwidth : Z := 32.
Definition kPsampTemplateIdBitwidth : Z := 16.
Definition kPsampLengthBitwidth : Z := 16.
Definition kPsampObservationTimeBitwidth : Z := 64.
Definition kPsampFlowsetBitwidth : Z := 16.
Definition kPsampNextHopIndexBitwidth : Z := 16.
Definition kPsampEpochBitwidth : Z := 16.
Definition kPsampIngressPortBitwidth : Z := 16.
Definition kPsampEgressPortBitwidth : Z := 16.
Definition kPsampUserMetaFieldBitwidth : Z := 16.
Definition kPsampDlbIdBitwidth : Z := 8.
Definition kPsampVariableLengthBitwidth : Z := 8.
Definition kPsampPacketSampledLengthBitwidth : Z := 16.
Definition kPtpTransportSpecificBitwidth : Z := 4.
Definition kPtpMessageTypeBitwidth : Z := 4.
Definition kPtpReserved0Bitwidth : Z := 4.
Definition kPtpVersionPtpBitwidth : Z := 4.
Definition kPtpMessageLengthBitwidth : Z := 16.
Definition kPtpDomainNumberBitwidth : Z := 8.
Definition kPtpReserved1Bitwidth : Z := 8.
Definition kPtpFlagsBitwidth : Z := 16.
Definition kPtpCorrectionFieldBitwidth : Z := 64.
Definition kPtpReserved2Bitwidth : Z := 32.
Definition kPtpSourcePortIdentityBitwidth : Z := 80.
Definition kPtpSequenceIdBitwidth : Z := 16.
Definition kPtpControlFieldBitwidth : Z := 8.
Definition kPtpLogMessageIntervalBitwidth : Z := 8.
Definition kPspNextHeaderBitwidth : Z := 8.
Definition kPspHeaderExtLengthBitwidth : Z := 8.
Definition kPspReserved0Bitwidth : Z := 2.
Definition kPspCryptOffsetBitwidth : Z := 6.
Definition kPspSampleBitwidth : Z := 1.
Definition kPspDropBitwidth : Z := 1.
Definition kPspVersionBitwidth : Z := 4.
Definition kPspVirtualizationCookieBitwidth : Z := 1.
Definition kPspReserved1Bitwidth : Z := 1.
Definition kPspSecurityParametersIndexBitwidth : Z := 32.
Definition kPspInitializationVectorBitwidth : Z := 64.

Create HintDb widths.
#[export] Hint Unfold kEthernetHeaderBitwidth kStandardIpv4HeaderBitwidth kIpv6HeaderBitwidth
  kMinHopByHopOptionsHeaderBitwidth kUdpHeaderBitwidth kStandardTcpHeaderBitwidth
  kArpHeaderBitwidth kIcmpHeaderBitwidth kVlanHeaderBitwidth
  kRfc2784GreHeaderWithoutOptionalsBitwidth kSaiP4BMv2PacketInHeaderBitwidth
  kIpfixHeaderBitwidth kPsampHeaderBitwidth kPtpHeaderBitwidth kPspHeaderBitwidth
  kCsigHeaderBitwidth kEthernetEthertypeBitwidth kVlanPriorityCodePointBitwidth
  kVlanDropEligibilityIndicatorBitwidth kVlanVlanIdentifierBitwidth kVlanEthertypeBitwidth
  kCsigSignalTypeBitwidth kCsigReserved0Bitwidth kCsigSignalValueBitwidth
  kCsigLocatorMetadataBitwidth kCsigEthertypeBitwidth kIpVersionBitwidth kIpIhlBitwidth
  kIpDscpBitwidth kIpEcnBitwidth kIpTotalLengthBitwidth kIpIdentificationBitwidth
  kIpFlagsBitwidth kIpFragmentOffsetBitwidth kIpTtlBitwidth kIpProtocolBitwidth
  kIpChecksumBitwidth kIpFlowLabelBitwidth kIpPayloadLengthBitwidth kIpNextHeaderBitwidth
  kIpHopLimitBitwidth kHopByHopNextHeaderBitwidth kHopByHopHeaderExtensionLengthBitwidth
  kHopByHopOptionsAndPaddingBitwidth kUdpPortBitwidth kUdpLengthBitwidth kUdpChecksumBitwidth
  kTcpPortBitwidth kTcpSequenceNumberBitwidth kTcpAcknowledgementNumberBitwidth
  kTcpDataOffsetBitwidth kTcpRestOfHeaderBitwidth kArpTypeBitwidth kArpLengthBitwidth
  kArpOperationBitwidth kIcmpTypeBitwidth kIcmpCodeBitwidth kIcmpChecksumBitwidth
  kIcmpRestOfHeaderBitwidth kGreChecksumPresentBitwidth kGreReserved0Bitwidth
  kGreVersionBitwidth kGreProtocolTypeBitwidth kGreChecksumBitwidth kGreReserved1Bitwidth
  kMinNumBytesInEthernetPayload kSaiP4BMv2PacketInIngressPortBitwidth
  kSaiP4BMv2PacketInTargetEgressPortBitwidth kSaiP4BMv2PacketInUnusedPadBitwidth
  kIpfixVersionBitwidth kIpfixLengthBitwidth kIpfixExportTimeBitwidth
  kIpfixSequenceNumberBitwidth kIpfixObservationDomainIdBitwidth kPsampTemplateIdBitwidth
  kPsampLengthBitwidth kPsampObservationTimeBitwidth kPsampFlowsetBitwidth
  kPsampNextHopIndexBitwidth kPsampEpochBitwidth kPsampIngressPortBitwidth
  kPsampEgressPortBitwidth kPsampUserMetaFieldBitwidth kPsampDlbIdBitwidth
  kPsampVariableLengthBitwidth kPsampPacketSampledLengthBitwidth kPtpTransportSpecificBitwidth
  kPtpMessageTypeBitwidth kPtpReserved0Bitwidth kPtpVersionPtpBitwidth
  kPtpMessageLengthBitwidth kPtpDomainNumberBitwidth kPtpReserved1Bitwidth kPtpFlagsBitwidth
  kPtpCorrectionFieldBitwidth kPtpReserved2Bitwidth kPtpSourcePortIdentityBitwidth
  kPtpSequenceIdBitwidth kPtpControlFieldBitwidth kPtpLogMessageIntervalBitwidth
  kPspNextHeaderBitwidth kPspHeaderExtLengthBitwidth kPspReserved0Bitwidth
  kPspCryptOffsetBitwidth kPspSampleBitwidth kPspDropBitwidth kPspVersionBitwidth
  kPspVirtualizationCookieBitwidth kPspReserved1Bitwidth kPspSecurityParametersIndexBitwidth
  kPspInitializationVectorBitwidth : widths.

(** * packetlib.proto *)

Module EthernetHeader.
Record t := mk { ethernet_destination : str; ethernet_source : str; ethertype : str }.
Definition set_ethertype (v : str) (h : t) : t :=
  mk (ethernet_destination h) (ethernet_source h) v.
End EthernetHeader.
Module VlanHeader.
Record t := mk { priority_code_point : str; drop_eligible_indicator : str; vlan_identifier : str;
  ethertype : str }.
End VlanHeader.
Module CsigHeader.
Record t := mk { signal_type : str; reserved0 : str; signal_value : str; locator_metadata : str; ethertype
  : str }.
End CsigHeader.
Module ArpHeader.
Record t := mk { hardware_type : str; protocol_type : str; hardware_length : str; protocol_length : str;
  operation : str; sender_hardware_address : str; sender_protocol_address : str; target_hardware_address :
  str; target_protocol_address : str }.
Definition set_hardware_type (v : str) (h : t) : t :=
  mk v (protocol_type h) (hardware_length h) (protocol_length h) (operation h)
    (sender_hardware_address h) (sender_protocol_address h) (target_hardware_address h)
    (target_protocol_address h).
Definition set_protocol_type (v : str) (h : t) : t :=
  mk (hardware_type h) v (hardware_length h) (protocol_length h) (operation h)
    (sender_hardware_address h) (sender_protocol_address h) (target_hardware_address h)
    (target_protocol_address h).
Definition set_hardware_length (v : str) (h : t) : t :=
  mk (hardware_type h) (protocol_type h) v (protocol_length h) (operation h)
    (sender_hardware_address h) (sender_protocol_address h) (target_hardware_address h)
    (target_protocol_address h).
Definition set_protocol_length (v : str) (h : t) : t :=
  mk (hardware_type h) (protocol_type h) (hardware_length h) v (operation h)
    (sender_hardware_address h) (sender_protocol_address h) (target_hardware_address h)
    (target_protocol_address h).
End ArpHeader.
Module Ipv4Header.
Record t := mk { version : str; ihl : str; dscp : str; ecn : str; total_length : str; identification :
  str; flags : str; fragment_offset : str; ttl : str; protocol : str; checksum : str; ipv4_source : str;
  ipv4_destination : str; uninterpreted_options : str }.
Definition set_version (v : str) (h : t) : t :=
  mk v (ihl h) (dscp h) (ecn h) (total_length h) (identification h) (flags h)
    (fragment_offset h) (ttl h) (protocol h) (checksum h) (ipv4_source h) (ipv4_destination h)
    (uninterpreted_options h).
Definition set_ihl (v : str) (h : t) : t :=
  mk (version h) v (dscp h) (ecn h) (total_length h) (identification h) (flags h)
    (fragment_offset h) (ttl h) (protocol h) (checksum h) (ipv4_source h) (ipv4_destination h)
    (uninterpreted_options h).
Definition set_total_length (v : str) (h : t) : t :=
  mk (version h) (ihl h) (dscp h) (ecn h) v (identification h) (flags h) (fragment_offset h)
    (ttl h) (protocol h) (checksum h) (ipv4_source h) (ipv4_destination h)
    (uninterpreted_options h).
Definition set_checksum (v : str) (h : t) : t :=
  mk (version h) (ihl h) (dscp h) (ecn h) (total_length h) (identification h) (flags h)
    (fragment_offset h) (ttl h) (protocol h) v (ipv4_source h) (ipv4_destination h)
    (uninterpreted_options h).
End Ipv4Header.
Module Ipv6Header.
Record t := mk { version : str; dscp : str; ecn : str; flow_label : str; payload_length : str; next_header
  : str; hop_limit : str; ipv6_source : str; ipv6_destination : str }.
Definition set_version (v : str) (h : t) : t :=
  mk v (dscp h) (ecn h) (flow_label h) (payload_length h) (next_header h) (hop_limit h)
    (ipv6_source h) (ipv6_destination h).
Definition set_payload_length (v : str) (h : t) : t :=
  mk (version h) (dscp h) (ecn h) (flow_label h) v (next_header h) (hop_limit h)
    (ipv6_source h) (ipv6_destination h).
End Ipv6Header.
Module HopByHopOptionsHeader.
Record t := mk { next_header : str; header_extension_length : str; options_and_padding : str }.
Definition set_header_extension_length (v : str) (h : t) : t :=
  mk (next_header h) v (options_and_padding h).
Definition set_options_and_padding (v : str) (h : t) : t :=
  mk (next_header h) (header_extension_length h) v.
End HopByHopOptionsHeader.
Module IcmpHeader.
Record t := mk { type_ : str; code : str; checksum : str; rest_of_header : str }.
Definition set_checksum (v : str) (h : t) : t :=
  mk (type_ h) (code h) v (rest_of_header h).
End IcmpHeader.
Module UdpHeader.
Record t := mk { source_port : str; destination_port : str; length : str; checksum : str }.
Definition set_length (v : str) (h : t) : t :=
  mk (source_port h) (destination_port h) v (checksum h).
Definition set_checksum (v : str) (h : t) : t :=
  mk (source_port h) (destination_port h) (length h) v.
End UdpHeader.
Module TcpHeader.
Record t := mk { source_port : str; destination_port : str; sequence_number : str; acknowledgement_number
  : str; data_offset : str; rest_of_header : str; uninterpreted_options : str }.
Definition set_data_offset (v : str) (h : t) : t :=
  mk (source_port h) (destination_port h) (sequence_number h) (acknowledgement_number h) v
    (rest_of_header h) (uninterpreted_options h).
End TcpHeader.
Module GreHeader.
Record t := mk { checksum_present : str; reserved0 : str; version : str; protocol_type : str; checksum :
  str; reserved1 : str }.
Definition set_checksum (v : str) (h : t) : t :=
  mk (checksum_present h) (reserved0 h) (version h) (protocol_type h) v (reserved1 h).
Definition set_reserved1 (v : str) (h : t) : t :=
  mk (checksum_present h) (reserved0 h) (version h) (protocol_type h) (checksum h) v.
End GreHeader.
Module SaiP4BMv2PacketInHeader.
Record t := mk { ingress_port : str; target_egress_port : str; unused_pad : str }.
End SaiP4BMv2PacketInHeader.
Module IpfixHeader.
Record t := mk { version : str; length : str; export_time : str; sequence_number : str;
  observation_domain_id : str }.
Definition set_length (v : str) (h : t) : t :=
  mk (version h) v (export_time h) (sequence_number h) (observation_domain_id h).
End IpfixHeader.
Module PsampHeader.
Record t := mk { template_id : str; length : str; observation_time : str; flowset : str; next_hop_index :
  str; epoch : str; ingress_port : str; egress_port : str; user_meta_field : str; dlb_id : str;
  variable_length : str; packet_sampled_length : str }.
Definition set_length (v : str) (h : t) : t :=
  mk (template_id h) v (observation_time h) (flowset h) (next_hop_index h) (epoch h)
    (ingress_port h) (egress_port h) (user_meta_field h) (dlb_id h) (variable_length h)
    (packet_sampled_length h).
Definition set_variable_length (v : str) (h : t) : t :=
  mk (template_id h) (length h) (observation_time h) (flowset h) (next_hop_index h) (epoch h)
    (ingress_port h) (egress_port h) (user_meta_field h) (dlb_id h) v (packet_sampled_length h).
Definition set_packet_sampled_length (v : str) (h : t) : t :=
  mk (template_id h) (length h) (observation_time h) (flowset h) (next_hop_index h) (epoch h)
    (ingress_port h) (egress_port h) (user_meta_field h) (dlb_id h) (variable_length h) v.
End PsampHeader.
Module PtpHeader.
Record t := mk { transport_specific : str; message_type : str; reserved0 : str; version_ptp : str;
  message_length : str; domain_number : str; reserved1 : str; flags : str; correction_field : str;
  reserved2 : str; source_port_identity : str; sequence_id : str; control_field : str;
  log_message_interval : str }.
Definition set_message_length (v : str) (h : t) : t :=
  mk (transport_specific h) (message_type h) (reserved0 h) (version_ptp h) v (domain_number h)
    (reserved1 h) (flags h) (correction_field h) (reserved2 h) (source_port_identity h)
    (sequence_id h) (control_field h) (log_message_interval h).
End PtpHeader.
Module PspHeader.
Record t := mk { next_header : str; header_ext_length : str; reserved0 : str; crypt_offset : str;
  sample_bit : str; drop_bit : str; version : str; virtualization_cookie_present : str; reserved1 : str;
  security_parameters_index : str; initialization_vector : str }.
End PspHeader.

(** The headers in the order of [Header::HeaderCase]. *)
Inductive HeaderCase :=
  | kEthernetHeader
  | kIpv4Header
  | kIpv6Header
  | kHopByHopOptionsHeader
  | kUdpHeader
  | kTcpHeader
  | kArpHeader
  | kIcmpHeader
  | kVlanHeader
  | kCsigHeader
  | kGreHeader
  | kSaiP4Bmv2PacketInHeader
  | kIpfixHeader
  | kPsampHeader
  | kPtpHeader
  | kPspHeader
  | HEADER_NOT_SET.

#[global] Instance HeaderCase_eq_dec : EqDecision HeaderCase.
Proof. solve_decision. Defined.

Inductive Header :=
  | ethernet_header (header : EthernetHeader.t)
  | ipv4_header (header : Ipv4Header.t)
  | ipv6_header (header : Ipv6Header.t)
  | hop_by_hop_options_header (header : HopByHopOptionsHeader.t)
  | udp_header (header : UdpHeader.t)
  | tcp_header (header : TcpHeader.t)
  | arp_header (header : ArpHeader.t)
  | icmp_header (header : IcmpHeader.t)
  | vlan_header (header : VlanHeader.t)
  | csig_header (header : CsigHeader.t)
  | gre_header (header : GreHeader.t)
  | sai_p4_bmv2_packet_in_header (header : SaiP4BMv2PacketInHeader.t)
  | ipfix_header (header : IpfixHeader.t)
  | psamp_header (header : PsampHeader.t)
  | ptp_header (header : PtpHeader.t)
  | psp_header (header : PspHeader.t)
  | header_not_set.

Definition header_case (header : Header) : HeaderCase :=
  match header with
  | ethernet_header _ => kEthernetHeader
  | ipv4_header _ => kIpv4Header
  | ipv6_header _ => kIpv6Header
  | hop_by_hop_options_header _ => kHopByHopOptionsHeader
  | udp_header _ => kUdpHeader
  | tcp_header _ => kTcpHeader
  | arp_header _ => kArpHeader
  | icmp_header _ => kIcmpHeader
  | vlan_header _ => kVlanHeader
  | csig_header _ => kCsigHeader
  | gre_header _ => kGreHeader
  | sai_p4_bmv2_packet_in_header _ => kSaiP4Bmv2PacketInHeader
  | ipfix_header _ => kIpfixHeader
  | psamp_header _ => kPsampHeader
  | ptp_header _ => kPtpHeader
  | psp_header _ => kPspHeader
  | header_not_set => HEADER_NOT_SET
  end.

Definition HeaderCaseName (case : HeaderCase) : str :=
  match case with
  | kEthernetHeader => $"EthernetHeader"
  | kIpv4Header => $"Ipv4Header"
  | kIpv6Header => $"Ipv6Header"
  | kHopByHopOptionsHeader => $"HopByHopOptionsHeader"
  | kUdpHeader => $"UdpHeader"
  | kTcpHeader => $"TcpHeader"
  | kArpHeader => $"ArpHeader"
  | kIcmpHeader => $"IcmpHeader"
  | kVlanHeader => $"VlanHeader"
  | kCsigHeader => $"CsigHeader"
  | kGreHeader => $"GreHeader"
  | kSaiP4Bmv2PacketInHeader => $"SaiP4BMv2PacketInHeader"
  | kIpfixHeader => $"IpfixHeader"
  | kPsampHeader => $"PsampHeader"
  | kPtpHeader => $"PtpHeader"
  | kPspHeader => $"PspHeader"
  | HEADER_NOT_SET => $"HEADER_NOT_SET"
  end.

(** Why a packet is invalid.  The text of the messages is left out: what remains is the header (by its
    index), the field and the problem. *)
Inductive Problem :=
  | missing
  | invalid_format
  | must_be (expected : str)
  | not_computable
  | inconsistent.
Inductive Reason :=
  | TooShort (case : HeaderCase)
  | PacketProblem (what : str)
  | HeaderProblem (header_index : nat) (field : str) (problem : Problem).

Record Packet := mkPacket {
  headers : list Header;
  payload : str;
  reason_not_fully_parsed : str;
  reasons_invalid : list Reason;
}.

(** * The header that follows a header *)

(** [Next HEADER_NOT_SET]: the header was the last one. *)
Inductive NextHeader :=
  | Next (case : HeaderCase)
  | UnsupportedNextHeader (reason : str).

Definition kIpfixUdpDestPort : Z := 4739.

Section packets.
Context `{AbslStrings} `{!Ipv6.Inet}.

(** [absl::StrFormat("%s%s: unsupported", field, value)]. *)
Definition unsupported (field value : str) : NextHeader :=
  UnsupportedNextHeader (field ++ $" " ++ value ++ $": unsupported").

Definition GetNextHeaderForEtherType (header_name ethertype_hexstring : str) : result NextHeader :=
  match HexStringToInt ethertype_hexstring with
  | Ok ethertype =>
    Ok (if ethertype <=? 1535 then Next HEADER_NOT_SET
        else if ethertype =? 0x0800 then Next kIpv4Header
        else if ethertype =? 0x86dd then Next kIpv6Header
        else if ethertype =? 0x0806 then Next kArpHeader
        else if ethertype =? 0x8100 then Next kVlanHeader
        else if ethertype =? 0x88f7 then Next kPtpHeader
        else if ethertype =? 0x9900 then Next kCsigHeader
        else unsupported (header_name ++ $".ethertype") ethertype_hexstring)
  | Err _ => Err kInternal
  | Die => Die
  end.

Definition Ipv4NextHeader (header : Ipv4Header.t) : NextHeader :=
  let protocol := Ipv4Header.protocol header in
  if bool_decide (protocol = $"0x04") then Next kIpv4Header
  else if bool_decide (protocol = $"0x06") then Next kTcpHeader
  else if bool_decide (protocol = $"0x11") then Next kUdpHeader
  else if bool_decide (protocol = $"0x01") then Next kIcmpHeader
  else if bool_decide (protocol = $"0x29") then Next kIpv6Header
  else if bool_decide (protocol = $"0x2f") then Next kGreHeader
  else if bool_decide (protocol = $"0xfd") then Next HEADER_NOT_SET
  else if bool_decide (protocol = $"0xfe") then Next HEADER_NOT_SET
  else unsupported $"ipv4_header.protocol" protocol.

(** The protocol numbers that may follow an IPv6 header or its options. *)
Definition ip_next_header (field next_header : str) : NextHeader :=
  if bool_decide (next_header = $"0x04") then Next kIpv4Header
  else if bool_decide (next_header = $"0x06") then Next kTcpHeader
  else if bool_decide (next_header = $"0x11") then Next kUdpHeader
  else if bool_decide (next_header = $"0x3a") then Next kIcmpHeader
  else if bool_decide (next_header = $"0x29") then Next kIpv6Header
  else if bool_decide (next_header = $"0x2f") then Next kGreHeader
  else if bool_decide (next_header = $"0xfd") then Next HEADER_NOT_SET
  else if bool_decide (next_header = $"0xfe") then Next HEADER_NOT_SET
  else unsupported field next_header.

Definition Ipv6NextHeader (header : Ipv6Header.t) : NextHeader :=
  if bool_decide (Ipv6Header.next_header header = $"0x00") then Next kHopByHopOptionsHeader
  else ip_next_header $"ipv6_header.next_header" (Ipv6Header.next_header header).

Definition HopByHopOptionsNextHeader (header : HopByHopOptionsHeader.t) : NextHeader :=
  if negb (bool_decide (HopByHopOptionsHeader.header_extension_length header = $"0x00"))
  then UnsupportedNextHeader $"hop_by_hop_options_header.header_extension_length is not 0."
  else ip_next_header $"hop_by_hop_options_header.next_header" (HopByHopOptionsHeader.next_header header).

Definition UdpNextHeader (header : UdpHeader.t) : result NextHeader :=
  dest_port ← HexStringToInt32 (UdpHeader.destination_port header);
  Ok (if dest_port =? kIpfixUdpDestPort then Next kIpfixHeader
      else if dest_port =? 319 then Next kPtpHeader
      else if dest_port =? 320 then Next kPtpHeader
      else if dest_port =? 1000 then Next kPspHeader
      else Next HEADER_NOT_SET).

Definition PspNextHeader (header : PspHeader.t) : result NextHeader :=
  if bool_decide (PspHeader.virtualization_cookie_present header = $"0x1")
  then Ok (UnsupportedNextHeader $"psp_header virtualization_cookie is not supported.") else
  crypt_offset ← HexStringToInt32 (PspHeader.crypt_offset header);
  Ok (if bool_decide (PspHeader.next_header header = $"0x11") && (kUdpHeaderBitwidth <=? crypt_offset * 32)
      then Next kUdpHeader else Next HEADER_NOT_SET).

Definition GetNextHeader (header : Header) : result NextHeader :=
  match header with
  | ethernet_header header => GetNextHeaderForEtherType $"ethernet_header" (EthernetHeader.ethertype header)
  | ipv4_header header => Ok (Ipv4NextHeader header)
  | ipv6_header header => Ok (Ipv6NextHeader header)
  | hop_by_hop_options_header header => Ok (HopByHopOptionsNextHeader header)
  | udp_header header => UdpNextHeader header
  | tcp_header _ => Ok (Next HEADER_NOT_SET)
  | arp_header _ => Ok (Next HEADER_NOT_SET)
  | icmp_header _ => Ok (Next HEADER_NOT_SET)
  | vlan_header header => GetNextHeaderForEtherType $"vlan_header" (VlanHeader.ethertype header)
  | csig_header header => GetNextHeaderForEtherType $"csig_header" (CsigHeader.ethertype header)
  | gre_header header => GetNextHeaderForEtherType $"gre_header" (GreHeader.protocol_type header)
  | sai_p4_bmv2_packet_in_header _ => Ok (Next kEthernetHeader)
  | ipfix_header _ => Ok (Next kPsampHeader)
  | psamp_header _ => Ok (Next HEADER_NOT_SET)
  | ptp_header _ => Ok (Next HEADER_NOT_SET)
  | psp_header header => PspNextHeader header
  | header_not_set => Ok (Next HEADER_NOT_SET)
  end.

(** * Parsing *)

Definition internal_error : str := $"INTERNAL ERROR".

(** The failing branch logs with DFATAL and consumes nothing. *)
Definition ParseAddress (num_bits : Z) (ToString : Z → str) (data : BitString) : str * BitString :=
  match ConsumeAddress num_bits data with
  | Ok (address, data) => (ToString address, data)
  | _ => (internal_error, data)
  end.
Definition ParseMacAddress : BitString → str * BitString := ParseAddress 48 Mac.ToString.
Definition ParseIpv4Address : BitString → str * BitString := ParseAddress 32 Ipv4.ToString.
Definition ParseIpv6Address : BitString → str * BitString := ParseAddress 128 Ipv6.ToString.
Definition ParseBits (num_bits : Z) (data : BitString) : str * BitString :=
  match ConsumeHexString num_bits data with
  | Ok (bits, data) => (bits, data)
  | _ => (internal_error, data)
  end.

(** The options of IPv4 and TCP: the words that [length_field] counts above 5, as far as the packet has
    them. *)
Definition parse_options (length_field : str) (data : BitString) : str * BitString :=
  match HexStringToInt length_field with
  | Ok words =>
    if 5 <? words then
      let options_bit_width := 32 * (words - 5) in
      ParseBits (if size data <? options_bit_width then size data else options_bit_width) data
    else ([], data)
  | _ => ([], data)
  end.

Definition ParseEthernetHeader (data : BitString) : result (EthernetHeader.t * BitString) :=
  if size data <? kEthernetHeaderBitwidth then Err kInvalidArgument else
  let '(ethernet_destination, data) := ParseMacAddress data in
  let '(ethernet_source, data) := ParseMacAddress data in
  let '(ethertype, data) := ParseBits kEthernetEthertypeBitwidth data in
  Ok (EthernetHeader.mk ethernet_destination ethernet_source ethertype, data).

Definition ParseVlanHeader (data : BitString) : result (VlanHeader.t * BitString) :=
  if size data <? kVlanHeaderBitwidth then Err kInvalidArgument else
  let '(priority_code_point, data) := ParseBits kVlanPriorityCodePointBitwidth data in
  let '(drop_eligible_indicator, data) := ParseBits kVlanDropEligibilityIndicatorBitwidth data in
  let '(vlan_identifier, data) := ParseBits kVlanVlanIdentifierBitwidth data in
  let '(ethertype, data) := ParseBits kVlanEthertypeBitwidth data in
  Ok (VlanHeader.mk priority_code_point drop_eligible_indicator vlan_identifier ethertype, data).

Definition ParseCsigHeader (data : BitString) : result (CsigHeader.t * BitString) :=
  if size data <? kCsigHeaderBitwidth then Err kInvalidArgument else
  let '(signal_type, data) := ParseBits kCsigSignalTypeBitwidth data in
  let '(reserved0, data) := ParseBits kCsigReserved0Bitwidth data in
  let '(signal_value, data) := ParseBits kCsigSignalValueBitwidth data in
  let '(locator_metadata, data) := ParseBits kCsigLocatorMetadataBitwidth data in
  let '(ethertype, data) := ParseBits kCsigEthertypeBitwidth data in
  Ok (CsigHeader.mk signal_type reserved0 signal_value locator_metadata ethertype, data).

Definition ParseArpHeader (data : BitString) : result (ArpHeader.t * BitString) :=
  if size data <? kArpHeaderBitwidth then Err kInvalidArgument else
  let '(hardware_type, data) := ParseBits kArpTypeBitwidth data in
  let '(protocol_type, data) := ParseBits kArpTypeBitwidth data in
  let '(hardware_length, data) := ParseBits kArpLengthBitwidth data in
  let '(protocol_length, data) := ParseBits kArpLengthBitwidth data in
  let '(operation, data) := ParseBits kArpOperationBitwidth data in
  let '(sender_hardware_address, data) := ParseMacAddress data in
  let '(sender_protocol_address, data) := ParseIpv4Address data in
  let '(target_hardware_address, data) := ParseMacAddress data in
  let '(target_protocol_address, data) := ParseIpv4Address data in
  Ok (ArpHeader.mk hardware_type protocol_type hardware_length protocol_length operation
    sender_hardware_address sender_protocol_address target_hardware_address target_protocol_address,
    data).

Definition ParseIpv4Header (data : BitString) : result (Ipv4Header.t * BitString) :=
  if size data <? kStandardIpv4HeaderBitwidth then Err kInvalidArgument else
  let '(version, data) := ParseBits kIpVersionBitwidth data in
  let '(ihl, data) := ParseBits kIpIhlBitwidth data in
  let '(dscp, data) := ParseBits kIpDscpBitwidth data in
  let '(ecn, data) := ParseBits kIpEcnBitwidth data in
  let '(total_length, data) := ParseBits kIpTotalLengthBitwidth data in
  let '(identification, data) := ParseBits kIpIdentificationBitwidth data in
  let '(flags, data) := ParseBits kIpFlagsBitwidth data in
  let '(fragment_offset, data) := ParseBits kIpFragmentOffsetBitwidth data in
  let '(ttl, data) := ParseBits kIpTtlBitwidth data in
  let '(protocol, data) := ParseBits kIpProtocolBitwidth data in
  let '(checksum, data) := ParseBits kIpChecksumBitwidth data in
  let '(ipv4_source, data) := ParseIpv4Address data in
  let '(ipv4_destination, data) := ParseIpv4Address data in
  let '(uninterpreted_options, data) := parse_options ihl data in
  Ok (Ipv4Header.mk version ihl dscp ecn total_length identification flags fragment_offset ttl protocol
    checksum ipv4_source ipv4_destination uninterpreted_options, data).

Definition ParseIpv6Header (data : BitString) : result (Ipv6Header.t * BitString) :=
  if size data <? kIpv6HeaderBitwidth then Err kInvalidArgument else
  let '(version, data) := ParseBits kIpVersionBitwidth data in
  let '(dscp, data) := ParseBits kIpDscpBitwidth data in
  let '(ecn, data) := ParseBits kIpEcnBitwidth data in
  let '(flow_label, data) := ParseBits kIpFlowLabelBitwidth data in
  let '(payload_length, data) := ParseBits kIpPayloadLengthBitwidth data in
  let '(next_header, data) := ParseBits kIpNextHeaderBitwidth data in
  let '(hop_limit, data) := ParseBits kIpHopLimitBitwidth data in
  let '(ipv6_source, data) := ParseIpv6Address data in
  let '(ipv6_destination, data) := ParseIpv6Address data in
  Ok (Ipv6Header.mk version dscp ecn flow_label payload_length next_header hop_limit ipv6_source
    ipv6_destination, data).

Definition ParseHopByHopOptionsHeader (data : BitString) : result (HopByHopOptionsHeader.t * BitString) :=
  if size data <? kMinHopByHopOptionsHeaderBitwidth then Err kInvalidArgument else
  let '(next_header, data) := ParseBits kHopByHopNextHeaderBitwidth data in
  let '(header_extension_length, data) := ParseBits kHopByHopHeaderExtensionLengthBitwidth data in
  let '(options_and_padding, data) := ParseBits kHopByHopOptionsAndPaddingBitwidth data in
  Ok (HopByHopOptionsHeader.mk next_header header_extension_length options_and_padding, data).

Definition ParseIcmpHeader (data : BitString) : result (IcmpHeader.t * BitString) :=
  if size data <? kIcmpHeaderBitwidth then Err kInvalidArgument else
  let '(type_, data) := ParseBits kIcmpTypeBitwidth data in
  let '(code, data) := ParseBits kIcmpCodeBitwidth data in
  let '(checksum, data) := ParseBits kIcmpChecksumBitwidth data in
  let '(rest_of_header, data) := ParseBits kIcmpRestOfHeaderBitwidth data in
  Ok (IcmpHeader.mk type_ code checksum rest_of_header, data).

Definition ParseUdpHeader (data : BitString) : result (UdpHeader.t * BitString) :=
  if size data <? kUdpHeaderBitwidth then Err kInvalidArgument else
  let '(source_port, data) := ParseBits kUdpPortBitwidth data in
  let '(destination_port, data) := ParseBits kUdpPortBitwidth data in
  let '(length, data) := ParseBits kUdpLengthBitwidth data in
  let '(checksum, data) := ParseBits kUdpChecksumBitwidth data in
  Ok (UdpHeader.mk source_port destination_port length checksum, data).

Definition ParseTcpHeader (data : BitString) : result (TcpHeader.t * BitString) :=
  if size data <? kStandardTcpHeaderBitwidth then Err kInvalidArgument else
  let '(source_port, data) := ParseBits kTcpPortBitwidth data in
  let '(destination_port, data) := ParseBits kTcpPortBitwidth data in
  let '(sequence_number, data) := ParseBits kTcpSequenceNumberBitwidth data in
  let '(acknowledgement_number, data) := ParseBits kTcpAcknowledgementNumberBitwidth data in
  let '(data_offset, data) := ParseBits kTcpDataOffsetBitwidth data in
  let '(rest_of_header, data) := ParseBits kTcpRestOfHeaderBitwidth data in
  let '(uninterpreted_options, data) := parse_options data_offset data in
  Ok (TcpHeader.mk source_port destination_port sequence_number acknowledgement_number data_offset
    rest_of_header uninterpreted_options, data).

Definition ParseGreHeader (data : BitString) : result (GreHeader.t * BitString) :=
  let header_size := kRfc2784GreHeaderWithoutOptionalsBitwidth in
  if size data <? header_size then Err kInvalidArgument else
  present ← PeekHexString kGreChecksumPresentBitwidth data;
  let has_optionals := bool_decide (present = $"0x1") in
  if has_optionals && (size data <? header_size + (kGreChecksumBitwidth + kGreReserved1Bitwidth))
  then Err kInvalidArgument else
  let '(checksum_present, data) := ParseBits kGreChecksumPresentBitwidth data in
  let '(reserved0, data) := ParseBits kGreReserved0Bitwidth data in
  let '(version, data) := ParseBits kGreVersionBitwidth data in
  let '(protocol_type, data) := ParseBits kGreProtocolTypeBitwidth data in
  if has_optionals then
    let '(checksum, data) := ParseBits (Z.min (size data) kGreChecksumBitwidth) data in
    let '(reserved1, data) := ParseBits (Z.min (size data) kGreReserved1Bitwidth) data in
    Ok (GreHeader.mk checksum_present reserved0 version protocol_type checksum reserved1, data)
  else Ok (GreHeader.mk checksum_present reserved0 version protocol_type [] [], data).

Definition ParseSaiP4BMv2PacketInHeader (data : BitString) : result (SaiP4BMv2PacketInHeader.t *
  BitString) :=
  if size data <? kSaiP4BMv2PacketInHeaderBitwidth then Err kInvalidArgument else
  let '(ingress_port, data) := ParseBits kSaiP4BMv2PacketInIngressPortBitwidth data in
  let '(target_egress_port, data) := ParseBits kSaiP4BMv2PacketInTargetEgressPortBitwidth data in
  let '(unused_pad, data) := ParseBits kSaiP4BMv2PacketInUnusedPadBitwidth data in
  Ok (SaiP4BMv2PacketInHeader.mk ingress_port target_egress_port unused_pad, data).

Definition ParseIpfixHeader (data : BitString) : result (IpfixHeader.t * BitString) :=
  if size data <? kIpfixHeaderBitwidth then Err kInvalidArgument else
  let '(version, data) := ParseBits kIpfixVersionBitwidth data in
  let '(length, data) := ParseBits kIpfixLengthBitwidth data in
  let '(export_time, data) := ParseBits kIpfixExportTimeBitwidth data in
  let '(sequence_number, data) := ParseBits kIpfixSequenceNumberBitwidth data in
  let '(observation_domain_id, data) := ParseBits kIpfixObservationDomainIdBitwidth data in
  Ok (IpfixHeader.mk version length export_time sequence_number observation_domain_id, data).

Definition ParsePsampHeader (data : BitString) : result (PsampHeader.t * BitString) :=
  if size data <? kPsampHeaderBitwidth then Err kInvalidArgument else
  let '(template_id, data) := ParseBits kPsampTemplateIdBitwidth data in
  let '(length, data) := ParseBits kPsampLengthBitwidth data in
  let '(observation_time, data) := ParseBits kPsampObservationTimeBitwidth data in
  let '(flowset, data) := ParseBits kPsampFlowsetBitwidth data in
  let '(next_hop_index, data) := ParseBits kPsampNextHopIndexBitwidth data in
  let '(epoch, data) := ParseBits kPsampEpochBitwidth data in
  let '(ingress_port, data) := ParseBits kPsampIngressPortBitwidth data in
  let '(egress_port, data) := ParseBits kPsampEgressPortBitwidth data in
  let '(user_meta_field, data) := ParseBits kPsampUserMetaFieldBitwidth data in
  let '(dlb_id, data) := ParseBits kPsampDlbIdBitwidth data in
  let '(variable_length, data) := ParseBits kPsampVariableLengthBitwidth data in
  let '(packet_sampled_length, data) := ParseBits kPsampPacketSampledLengthBitwidth data in
  Ok (PsampHeader.mk template_id length observation_time flowset next_hop_index epoch ingress_port
    egress_port user_meta_field dlb_id variable_length packet_sampled_length, data).

Definition ParsePtpHeader (data : BitString) : result (PtpHeader.t * BitString) :=
  if size data <? kPtpHeaderBitwidth then Err kInvalidArgument else
  let '(transport_specific, data) := ParseBits kPtpTransportSpecificBitwidth data in
  let '(message_type, data) := ParseBits kPtpMessageTypeBitwidth data in
  let '(reserved0, data) := ParseBits kPtpReserved0Bitwidth data in
  let '(version_ptp, data) := ParseBits kPtpVersionPtpBitwidth data in
  let '(message_length, data) := ParseBits kPtpMessageLengthBitwidth data in
  let '(domain_number, data) := ParseBits kPtpDomainNumberBitwidth data in
  let '(reserved1, data) := ParseBits kPtpReserved1Bitwidth data in
  let '(flags, data) := ParseBits kPtpFlagsBitwidth data in
  let '(correction_field, data) := ParseBits kPtpCorrectionFieldBitwidth data in
  let '(reserved2, data) := ParseBits kPtpReserved2Bitwidth data in
  let '(source_port_identity, data) := ParseBits kPtpSourcePortIdentityBitwidth data in
  let '(sequence_id, data) := ParseBits kPtpSequenceIdBitwidth data in
  let '(control_field, data) := ParseBits kPtpControlFieldBitwidth data in
  let '(log_message_interval, data) := ParseBits kPtpLogMessageIntervalBitwidth data in
  Ok (PtpHeader.mk transport_specific message_type reserved0 version_ptp message_length domain_number
    reserved1 flags correction_field reserved2 source_port_identity sequence_id control_field
    log_message_interval, data).

Definition ParsePspHeader (data : BitString) : result (PspHeader.t * BitString) :=
  if size data <? kPspHeaderBitwidth then Err kInvalidArgument else
  let '(next_header, data) := ParseBits kPspNextHeaderBitwidth data in
  let '(header_ext_length, data) := ParseBits kPspHeaderExtLengthBitwidth data in
  let '(reserved0, data) := ParseBits kPspReserved0Bitwidth data in
  let '(crypt_offset, data) := ParseBits kPspCryptOffsetBitwidth data in
  let '(sample_bit, data) := ParseBits kPspSampleBitwidth data in
  let '(drop_bit, data) := ParseBits kPspDropBitwidth data in
  let '(version, data) := ParseBits kPspVersionBitwidth data in
  let '(virtualization_cookie_present, data) := ParseBits kPspVirtualizationCookieBitwidth data in
  let '(reserved1, data) := ParseBits kPspReserved1Bitwidth data in
  let '(security_parameters_index, data) := ParseBits kPspSecurityParametersIndexBitwidth data in
  let '(initialization_vector, data) := ParseBits kPspInitializationVectorBitwidth data in
  Ok (PspHeader.mk next_header header_ext_length reserved0 crypt_offset sample_bit drop_bit version
    virtualization_cookie_present reserved1 security_parameters_index initialization_vector, data).

Definition ParseHeader (case : HeaderCase) (data : BitString) : result (Header * BitString) :=
  match case with
  | kEthernetHeader => r ← ParseEthernetHeader data; Ok (ethernet_header (fst r), snd r)
  | kIpv4Header => r ← ParseIpv4Header data; Ok (ipv4_header (fst r), snd r)
  | kIpv6Header => r ← ParseIpv6Header data; Ok (ipv6_header (fst r), snd r)
  | kHopByHopOptionsHeader => r ← ParseHopByHopOptionsHeader data; Ok (hop_by_hop_options_header (fst r), snd r)
  | kUdpHeader => r ← ParseUdpHeader data; Ok (udp_header (fst r), snd r)
  | kTcpHeader => r ← ParseTcpHeader data; Ok (tcp_header (fst r), snd r)
  | kArpHeader => r ← ParseArpHeader data; Ok (arp_header (fst r), snd r)
  | kIcmpHeader => r ← ParseIcmpHeader data; Ok (icmp_header (fst r), snd r)
  | kVlanHeader => r ← ParseVlanHeader data; Ok (vlan_header (fst r), snd r)
  | kCsigHeader => r ← ParseCsigHeader data; Ok (csig_header (fst r), snd r)
  | kGreHeader => r ← ParseGreHeader data; Ok (gre_header (fst r), snd r)
  | kSaiP4Bmv2PacketInHeader => r ← ParseSaiP4BMv2PacketInHeader data; Ok (sai_p4_bmv2_packet_in_header (fst r), snd r)
  | kIpfixHeader => r ← ParseIpfixHeader data; Ok (ipfix_header (fst r), snd r)
  | kPsampHeader => r ← ParsePsampHeader data; Ok (psamp_header (fst r), snd r)
  | kPtpHeader => r ← ParsePtpHeader data; Ok (ptp_header (fst r), snd r)
  | kPspHeader => r ← ParsePspHeader data; Ok (psp_header (fst r), snd r)
  | HEADER_NOT_SET => Err kInvalidArgument
  end.

(** The loop of [ParsePacket].  Every header takes bits, so that the fuel of [ParseHeaders] is enough. *)
Fixpoint parse_loop (fuel : nat) (next_header : HeaderCase) (data : BitString) (packet : Packet)
  : result (Packet * BitString) :=
  match fuel, next_header with
  | O, _ => Die
  | _, HEADER_NOT_SET => Ok (packet, data)
  | S fuel, _ =>
    match ParseHeader next_header data with
    | Ok (header, data) =>
      let add_header reason :=
        mkPacket (headers packet ++ [header]) (payload packet) reason (reasons_invalid packet) in
      match GetNextHeader header with
      | Ok (Next next_header) => parse_loop fuel next_header data (add_header (reason_not_fully_parsed packet))
      | Ok (UnsupportedNextHeader reason) => parse_loop fuel HEADER_NOT_SET data (add_header reason)
      | _ => Ok (packet, data)
      end
    | _ => Ok (mkPacket (headers packet) (payload packet) (reason_not_fully_parsed packet)
                 (reasons_invalid packet ++ [TooShort next_header]), data)
    end
  end.

(** [ParsePacket] without the check of the result: headers, then the payload. *)
Definition ParseHeaders (input : str) (first_header : HeaderCase) : result Packet :=
  let data := BitString.OfByteString input in
  out ← parse_loop (S (S (length data))) first_header data (mkPacket [] [] [] []);
  let '(packet, data) := out in
  match BitString.ToByteString data with
  | Ok payload =>
    Ok (mkPacket (headers packet) payload (reason_not_fully_parsed packet) (reasons_invalid packet))
  | _ => Ok (mkPacket (headers packet) [] (reason_not_fully_parsed packet)
               (reasons_invalid packet ++ [PacketProblem $"payload"]))
  end.

(** * Serialization *)

Definition SerializeAddress (num_bits : Z) (OfString : str → result Z) (address : str) (output : BitString)
  : result BitString :=
  parsed_address ← OfString address; Ok (AppendBits num_bits parsed_address output).
Definition SerializeMacAddress : str → BitString → result BitString := SerializeAddress 48 Mac.OfString.
Definition SerializeIpv4Address : str → BitString → result BitString := SerializeAddress 32 Ipv4.OfString.
Definition SerializeIpv6Address : str → BitString → result BitString := SerializeAddress 128 Ipv6.OfString.
Definition SerializeBits (num_bits : Z) (hex_string : str) (output : BitString) : result BitString :=
  bitset ← HexStringToBitset num_bits hex_string; Ok (AppendBits num_bits bitset output).

Definition serialize_options (options : str) (output : BitString) : result BitString :=
  if bool_decide (options = []) then Ok output else AppendHexString options output.

Definition SerializeEthernetHeader (header : EthernetHeader.t) (output : BitString) : result BitString :=
  output ← SerializeMacAddress (EthernetHeader.ethernet_destination header) output;
  output ← SerializeMacAddress (EthernetHeader.ethernet_source header) output;
  SerializeBits kEthernetEthertypeBitwidth (EthernetHeader.ethertype header) output.

Definition SerializeVlanHeader (header : VlanHeader.t) (output : BitString) : result BitString :=
  output ← SerializeBits kVlanPriorityCodePointBitwidth (VlanHeader.priority_code_point header) output;
  output ← SerializeBits kVlanDropEligibilityIndicatorBitwidth (VlanHeader.drop_eligible_indicator header)
    output;
  output ← SerializeBits kVlanVlanIdentifierBitwidth (VlanHeader.vlan_identifier header) output;
  SerializeBits kVlanEthertypeBitwidth (VlanHeader.ethertype header) output.

Definition SerializeCsigHeader (header : CsigHeader.t) (output : BitString) : result BitString :=
  output ← SerializeBits kCsigSignalTypeBitwidth (CsigHeader.signal_type header) output;
  output ← SerializeBits kCsigReserved0Bitwidth (CsigHeader.reserved0 header) output;
  output ← SerializeBits kCsigSignalValueBitwidth (CsigHeader.signal_value header) output;
  output ← SerializeBits kCsigLocatorMetadataBitwidth (CsigHeader.locator_metadata header) output;
  SerializeBits kCsigEthertypeBitwidth (CsigHeader.ethertype header) output.

Definition SerializeArpHeader (header : ArpHeader.t) (output : BitString) : result BitString :=
  output ← SerializeBits kArpTypeBitwidth (ArpHeader.hardware_type header) output;
  output ← SerializeBits kArpTypeBitwidth (ArpHeader.protocol_type header) output;
  output ← SerializeBits kArpLengthBitwidth (ArpHeader.hardware_length header) output;
  output ← SerializeBits kArpLengthBitwidth (ArpHeader.protocol_length header) output;
  output ← SerializeBits kArpOperationBitwidth (ArpHeader.operation header) output;
  output ← SerializeMacAddress (ArpHeader.sender_hardware_address header) output;
  output ← SerializeIpv4Address (ArpHeader.sender_protocol_address header) output;
  output ← SerializeMacAddress (ArpHeader.target_hardware_address header) output;
  SerializeIpv4Address (ArpHeader.target_protocol_address header) output.

Definition SerializeIpv4Header (header : Ipv4Header.t) (output : BitString) : result BitString :=
  output ← SerializeBits kIpVersionBitwidth (Ipv4Header.version header) output;
  output ← SerializeBits kIpIhlBitwidth (Ipv4Header.ihl header) output;
  output ← SerializeBits kIpDscpBitwidth (Ipv4Header.dscp header) output;
  output ← SerializeBits kIpEcnBitwidth (Ipv4Header.ecn header) output;
  output ← SerializeBits kIpTotalLengthBitwidth (Ipv4Header.total_length header) output;
  output ← SerializeBits kIpIdentificationBitwidth (Ipv4Header.identification header) output;
  output ← SerializeBits kIpFlagsBitwidth (Ipv4Header.flags header) output;
  output ← SerializeBits kIpFragmentOffsetBitwidth (Ipv4Header.fragment_offset header) output;
  output ← SerializeBits kIpTtlBitwidth (Ipv4Header.ttl header) output;
  output ← SerializeBits kIpProtocolBitwidth (Ipv4Header.protocol header) output;
  output ← SerializeBits kIpChecksumBitwidth (Ipv4Header.checksum header) output;
  output ← SerializeIpv4Address (Ipv4Header.ipv4_source header) output;
  output ← SerializeIpv4Address (Ipv4Header.ipv4_destination header) output;
  serialize_options (Ipv4Header.uninterpreted_options header) output.

Definition SerializeIpv6Header (header : Ipv6Header.t) (output : BitString) : result BitString :=
  output ← SerializeBits kIpVersionBitwidth (Ipv6Header.version header) output;
  output ← SerializeBits kIpDscpBitwidth (Ipv6Header.dscp header) output;
  output ← SerializeBits kIpEcnBitwidth (Ipv6Header.ecn header) output;
  output ← SerializeBits kIpFlowLabelBitwidth (Ipv6Header.flow_label header) output;
  output ← SerializeBits kIpPayloadLengthBitwidth (Ipv6Header.payload_length header) output;
  output ← SerializeBits kIpNextHeaderBitwidth (Ipv6Header.next_header header) output;
  output ← SerializeBits kIpHopLimitBitwidth (Ipv6Header.hop_limit header) output;
  output ← SerializeIpv6Address (Ipv6Header.ipv6_source header) output;
  SerializeIpv6Address (Ipv6Header.ipv6_destination header) output.

Definition SerializeHopByHopOptionsHeader (header : HopByHopOptionsHeader.t) (output : BitString) : result
  BitString :=
  output ← SerializeBits kHopByHopNextHeaderBitwidth (HopByHopOptionsHeader.next_header header) output;
  output ← SerializeBits kHopByHopHeaderExtensionLengthBitwidth
    (HopByHopOptionsHeader.header_extension_length header) output;
  SerializeBits kHopByHopOptionsAndPaddingBitwidth (HopByHopOptionsHeader.options_and_padding header)
    output.

Definition SerializeIcmpHeader (header : IcmpHeader.t) (output : BitString) : result BitString :=
  output ← SerializeBits kIcmpTypeBitwidth (IcmpHeader.type_ header) output;
  output ← SerializeBits kIcmpCodeBitwidth (IcmpHeader.code header) output;
  output ← SerializeBits kIcmpChecksumBitwidth (IcmpHeader.checksum header) output;
  SerializeBits kIcmpRestOfHeaderBitwidth (IcmpHeader.rest_of_header header) output.

Definition SerializeUdpHeader (header : UdpHeader.t) (output : BitString) : result BitString :=
  output ← SerializeBits kUdpPortBitwidth (UdpHeader.source_port header) output;
  output ← SerializeBits kUdpPortBitwidth (UdpHeader.destination_port header) output;
  output ← SerializeBits kUdpLengthBitwidth (UdpHeader.length header) output;
  SerializeBits kUdpChecksumBitwidth (UdpHeader.checksum header) output.

Definition SerializeTcpHeader (header : TcpHeader.t) (output : BitString) : result BitString :=
  output ← SerializeBits kTcpPortBitwidth (TcpHeader.source_port header) output;
  output ← SerializeBits kTcpPortBitwidth (TcpHeader.destination_port header) output;
  output ← SerializeBits kTcpSequenceNumberBitwidth (TcpHeader.sequence_number header) output;
  output ← SerializeBits kTcpAcknowledgementNumberBitwidth (TcpHeader.acknowledgement_number header) output;
  output ← SerializeBits kTcpDataOffsetBitwidth (TcpHeader.data_offset header) output;
  output ← SerializeBits kTcpRestOfHeaderBitwidth (TcpHeader.rest_of_header header) output;
  serialize_options (TcpHeader.uninterpreted_options header) output.

Definition SerializeGreHeader (header : GreHeader.t) (output : BitString) : result BitString :=
  output ← SerializeBits kGreChecksumPresentBitwidth (GreHeader.checksum_present header) output;
  output ← SerializeBits kGreReserved0Bitwidth (GreHeader.reserved0 header) output;
  output ← SerializeBits kGreVersionBitwidth (GreHeader.version header) output;
  output ← SerializeBits kGreProtocolTypeBitwidth (GreHeader.protocol_type header) output;
  if bool_decide (GreHeader.checksum_present header = $"0x1") then
    output ← AppendHexString (GreHeader.checksum header) output;
    AppendHexString (GreHeader.reserved1 header) output
  else Ok output.

Definition SerializeSaiP4BMv2PacketInHeader (header : SaiP4BMv2PacketInHeader.t) (output : BitString) :
  result BitString :=
  output ← SerializeBits kSaiP4BMv2PacketInIngressPortBitwidth (SaiP4BMv2PacketInHeader.ingress_port
    header) output;
  output ← SerializeBits kSaiP4BMv2PacketInTargetEgressPortBitwidth
    (SaiP4BMv2PacketInHeader.target_egress_port header) output;
  SerializeBits kSaiP4BMv2PacketInUnusedPadBitwidth (SaiP4BMv2PacketInHeader.unused_pad header) output.

Definition SerializeIpfixHeader (header : IpfixHeader.t) (output : BitString) : result BitString :=
  output ← SerializeBits kIpfixVersionBitwidth (IpfixHeader.version header) output;
  output ← SerializeBits kIpfixLengthBitwidth (IpfixHeader.length header) output;
  output ← SerializeBits kIpfixExportTimeBitwidth (IpfixHeader.export_time header) output;
  output ← SerializeBits kIpfixSequenceNumberBitwidth (IpfixHeader.sequence_number header) output;
  SerializeBits kIpfixObservationDomainIdBitwidth (IpfixHeader.observation_domain_id header) output.

Definition SerializePsampHeader (header : PsampHeader.t) (output : BitString) : result BitString :=
  output ← SerializeBits kPsampTemplateIdBitwidth (PsampHeader.template_id header) output;
  output ← SerializeBits kPsampLengthBitwidth (PsampHeader.length header) output;
  output ← SerializeBits kPsampObservationTimeBitwidth (PsampHeader.observation_time header) output;
  output ← SerializeBits kPsampFlowsetBitwidth (PsampHeader.flowset header) output;
  output ← SerializeBits kPsampNextHopIndexBitwidth (PsampHeader.next_hop_index header) output;
  output ← SerializeBits kPsampEpochBitwidth (PsampHeader.epoch header) output;
  output ← SerializeBits kPsampIngressPortBitwidth (PsampHeader.ingress_port header) output;
  output ← SerializeBits kPsampEgressPortBitwidth (PsampHeader.egress_port header) output;
  output ← SerializeBits kPsampUserMetaFieldBitwidth (PsampHeader.user_meta_field header) output;
  output ← SerializeBits kPsampDlbIdBitwidth (PsampHeader.dlb_id header) output;
  output ← SerializeBits kPsampVariableLengthBitwidth (PsampHeader.variable_length header) output;
  SerializeBits kPsampPacketSampledLengthBitwidth (PsampHeader.packet_sampled_length header) output.

Definition SerializePtpHeader (header : PtpHeader.t) (output : BitString) : result BitString :=
  output ← SerializeBits kPtpTransportSpecificBitwidth (PtpHeader.transport_specific header) output;
  output ← SerializeBits kPtpMessageTypeBitwidth (PtpHeader.message_type header) output;
  output ← SerializeBits kPtpReserved0Bitwidth (PtpHeader.reserved0 header) output;
  output ← SerializeBits kPtpVersionPtpBitwidth (PtpHeader.version_ptp header) output;
  output ← SerializeBits kPtpMessageLengthBitwidth (PtpHeader.message_length header) output;
  output ← SerializeBits kPtpDomainNumberBitwidth (PtpHeader.domain_number header) output;
  output ← SerializeBits kPtpReserved1Bitwidth (PtpHeader.reserved1 header) output;
  output ← SerializeBits kPtpFlagsBitwidth (PtpHeader.flags header) output;
  output ← SerializeBits kPtpCorrectionFieldBitwidth (PtpHeader.correction_field header) output;
  output ← SerializeBits kPtpReserved2Bitwidth (PtpHeader.reserved2 header) output;
  output ← SerializeBits kPtpSourcePortIdentityBitwidth (PtpHeader.source_port_identity header) output;
  output ← SerializeBits kPtpSequenceIdBitwidth (PtpHeader.sequence_id header) output;
  output ← SerializeBits kPtpControlFieldBitwidth (PtpHeader.control_field header) output;
  SerializeBits kPtpLogMessageIntervalBitwidth (PtpHeader.log_message_interval header) output.

Definition SerializePspHeader (header : PspHeader.t) (output : BitString) : result BitString :=
  output ← SerializeBits kPspNextHeaderBitwidth (PspHeader.next_header header) output;
  output ← SerializeBits kPspHeaderExtLengthBitwidth (PspHeader.header_ext_length header) output;
  output ← SerializeBits kPspReserved0Bitwidth (PspHeader.reserved0 header) output;
  output ← SerializeBits kPspCryptOffsetBitwidth (PspHeader.crypt_offset header) output;
  output ← SerializeBits kPspSampleBitwidth (PspHeader.sample_bit header) output;
  output ← SerializeBits kPspDropBitwidth (PspHeader.drop_bit header) output;
  output ← SerializeBits kPspVersionBitwidth (PspHeader.version header) output;
  output ← SerializeBits kPspVirtualizationCookieBitwidth (PspHeader.virtualization_cookie_present header)
    output;
  output ← SerializeBits kPspReserved1Bitwidth (PspHeader.reserved1 header) output;
  output ← SerializeBits kPspSecurityParametersIndexBitwidth (PspHeader.security_parameters_index header)
    output;
  SerializeBits kPspInitializationVectorBitwidth (PspHeader.initialization_vector header) output.

Definition SerializeHeader (header : Header) (output : BitString) : result BitString :=
  match header with
  | ethernet_header header => SerializeEthernetHeader header output
  | ipv4_header header => SerializeIpv4Header header output
  | ipv6_header header => SerializeIpv6Header header output
  | hop_by_hop_options_header header => SerializeHopByHopOptionsHeader header output
  | udp_header header => SerializeUdpHeader header output
  | tcp_header header => SerializeTcpHeader header output
  | arp_header header => SerializeArpHeader header output
  | icmp_header header => SerializeIcmpHeader header output
  | vlan_header header => SerializeVlanHeader header output
  | csig_header header => SerializeCsigHeader header output
  | gre_header header => SerializeGreHeader header output
  | sai_p4_bmv2_packet_in_header header => SerializeSaiP4BMv2PacketInHeader header output
  | ipfix_header header => SerializeIpfixHeader header output
  | psamp_header header => SerializePsampHeader header output
  | ptp_header header => SerializePtpHeader header output
  | psp_header header => SerializePspHeader header output
  | header_not_set => Err kInvalidArgument
  end.

Definition serialize_headers (headers : list Header) (output : BitString) : result BitString :=
  fold_result (λ output header, SerializeHeader header output) headers output.

Definition RawSerializeFrom (packet : Packet) (start_header_index : Z) (output : BitString)
  : result BitString :=
  if (zlen (headers packet) <? start_header_index) || (start_header_index <? 0) then Err kInvalidArgument else
  output ← serialize_headers (drop (Z.to_nat start_header_index) (headers packet)) output;
  Ok (AppendBytes (payload packet) output).

Definition RawSerializePacket (packet : Packet) : result str :=
  bits ← RawSerializeFrom packet 0 []; BitString.ToByteString bits.
End packets.

(** The headers' parsers and serializers. *)
Create HintDb headers.
#[export] Hint Unfold ParseEthernetHeader ParseVlanHeader ParseCsigHeader ParseArpHeader ParseIpv4Header
  ParseIpv6Header ParseHopByHopOptionsHeader ParseIcmpHeader ParseUdpHeader ParseTcpHeader
  ParseGreHeader ParseSaiP4BMv2PacketInHeader ParseIpfixHeader ParsePsampHeader ParsePtpHeader
  ParsePspHeader SerializeEthernetHeader SerializeVlanHeader SerializeCsigHeader
  SerializeArpHeader SerializeIpv4Header SerializeIpv6Header SerializeHopByHopOptionsHeader
  SerializeIcmpHeader SerializeUdpHeader SerializeTcpHeader SerializeGreHeader
  SerializeSaiP4BMv2PacketInHeader SerializeIpfixHeader SerializePsampHeader SerializePtpHeader
  SerializePspHeader : headers.
