(* ===== verification/PacketRoundtrip.v ===== *)
(** Parsing of packets loses nothing: what the parser takes from the input is what the serializer
    appends for the header parsed, header by header. *)
From S2P Require Import Prelude Bitset ByteString Abseil HexString NetAddr NetAddrText BitString Packet.

Section packet_roundtrip.
Context `{AbslStringsLaws} `{!Ipv6.Inet, !Ipv6.InetLaws}.

(** * Fields *)

Lemma Consume_split n data :
  0 ≤ n ≤ size data →
  ∃ bits rest, data = bits ++ rest ∧ zlen bits = n ∧ Consume n data = Ok (bits, rest).
Proof.
  intros Hn. exists (take (Z.to_nat n) data), (drop (Z.to_nat n) data).
  split_and!; [symmetry; apply take_drop| |].
  - unfold size, zlen in *. rewrite length_take. lia.
  - unfold Consume. by rewrite !(proj2 (Z.ltb_ge _ _)) by lia.
Qed.

Lemma ParseBits_reads n data :
  0 ≤ n ≤ size data →
  ∃ bits rest, data = bits ++ rest ∧ zlen bits = n ∧ ParseBits n data = (bits_to_hex bits, rest).
Proof.
  intros Hn. destruct (Consume_split n data Hn) as (bits & rest & Hd & Hl & Hc).
  exists bits, rest. split_and!; [done..|]. unfold ParseBits, ConsumeHexString. by rewrite Hc.
Qed.

Lemma SerializeBits_bits n bits output :
  zlen bits = n → SerializeBits n (bits_to_hex bits) output = Ok (output ++ bits).
Proof.
  intros <-. unfold SerializeBits. by rewrite HexStringToBitset_bits, bind_Ok_l, AppendBits_bits.
Qed.

Lemma ParseAddress_reads n ToString data :
  0 ≤ n ≤ size data →
  ∃ bits rest, data = bits ++ rest ∧ zlen bits = n ∧
    ParseAddress n ToString data = (ToString (of_bits bits), rest).
Proof.
  intros Hn. destruct (Consume_split n data Hn) as (bits & rest & Hd & Hl & Hc).
  exists bits, rest. split_and!; [done..|].
  unfold ParseAddress, ConsumeAddress, ConsumeHexString, OfHexString. rewrite Hc. cbn [mbind result_bind fst snd].
  rewrite <-Hl, HexStringToBitset_bits. done.
Qed.

Lemma ParseMac_reads data :
  48 ≤ size data → ∃ bits rest, data = bits ++ rest ∧ zlen bits = 48 ∧
    ParseMacAddress data = (Mac.ToString (of_bits bits), rest).
Proof. intros. by apply ParseAddress_reads. Qed.
Lemma ParseIpv4_reads data :
  32 ≤ size data → ∃ bits rest, data = bits ++ rest ∧ zlen bits = 32 ∧
    ParseIpv4Address data = (Ipv4.ToString (of_bits bits), rest).
Proof. intros. by apply ParseAddress_reads. Qed.
Lemma ParseIpv6_reads data :
  128 ≤ size data → ∃ bits rest, data = bits ++ rest ∧ zlen bits = 128 ∧
    ParseIpv6Address data = (Ipv6.ToString (of_bits bits), rest).
Proof. intros. by apply ParseAddress_reads. Qed.

Lemma SerializeAddress_bits n OfString ToString bits output :
  zlen bits = n → (∀ a, bs_ok n a → OfString (ToString a) = Ok a) →
  SerializeAddress n OfString (ToString (of_bits bits)) output = Ok (output ++ bits).
Proof.
  intros <- Hback. unfold SerializeAddress. rewrite Hback by apply of_bits_ok.
  by rewrite bind_Ok_l, AppendBits_bits.
Qed.

Lemma SerializeMac_bits bits output :
  zlen bits = 48 → SerializeMacAddress (Mac.ToString (of_bits bits)) output = Ok (output ++ bits).
Proof. intros. by apply SerializeAddress_bits; auto with pins. Qed.
Lemma SerializeIpv4_bits bits output :
  zlen bits = 32 → SerializeIpv4Address (Ipv4.ToString (of_bits bits)) output = Ok (output ++ bits).
Proof. intros. by apply SerializeAddress_bits; auto with pins. Qed.
Lemma SerializeIpv6_bits bits output :
  zlen bits = 128 → SerializeIpv6Address (Ipv6.ToString (of_bits bits)) output = Ok (output ++ bits).
Proof. intros. by apply SerializeAddress_bits; auto with pins. Qed.

Lemma HexStringTo_bits signed w bits :
  0 < w → zlen bits ≤ w →
  HexStringTo signed w (bits_to_hex bits) =
    Ok (if signed then wrapS w (of_bits bits) else of_bits bits).
Proof.
  intros Hw Hl. pose proof (of_bits_ok bits) as [Hlo Hhi]. pose proof (zlen_nonneg bits).
  rewrite bits_to_hex_spec.
  destruct (BitsetToHexString_digits (zlen bits) (of_bits bits)) as (h & -> & _ & Hp); [lia|by split|].
  unfold HexStringTo. rewrite HexStringToAnyLargeEnoughBitset_spec, ConsumePrefix_app by lia.
  assert (parse_hex w h = Ok (of_bits bits)) as ->.
  { unfold parse_hex in *. destruct (hex_digits h) as [ds|]; [|done].
    destruct (Z.ltb_spec (hex_value ds) (2 ^ zlen bits)); [|done]. injection Hp as ->.
    rewrite (proj2 (Z.ltb_lt _ _)); [done|]. pose proof (Z.pow_le_mono_r 2 (zlen bits) w). lia. }
  rewrite bind_Ok_l. destruct signed; [done|]. rewrite wrapU_small; [done|].
  pose proof (Z.pow_le_mono_r 2 (zlen bits) w). lia.
Qed.

Lemma parse_options_reads length_field data :
  size data mod 8 = 0 →
  ∃ bits rest options, data = bits ++ rest ∧ size rest mod 8 = 0 ∧
    parse_options length_field data = (options, rest) ∧
    ∀ output, serialize_options options output = Ok (output ++ bits).
Proof.
  intros Hmod. unfold parse_options.
  assert (∃ bits rest options, data = bits ++ rest ∧ size rest mod 8 = 0 ∧ ([], data) = (options, rest) ∧
    ∀ output, serialize_options options output = Ok (output ++ bits)) as Hnone.
  { exists [], data, []. split_and!; [done..|]. intros output. unfold serialize_options.
    by rewrite bool_decide_eq_true_2, app_nil_r by done. }
  destruct (HexStringToInt length_field) as [words| |]; [|done..]. destruct (Z.ltb_spec 5 words); [|done].
  set (width := if size data <? 32 * (words - 5) then size data else 32 * (words - 5)).
  pose proof (zlen_nonneg data).
  assert (0 ≤ width ≤ size data ∧ width mod 8 = 0) as [Hw Hwm].
  { unfold width, size in *. destruct (Z.ltb_spec (zlen data) (32 * (words - 5))); [done|].
    split; [lia|]. Z.div_mod_to_equations; lia. }
  destruct (ParseBits_reads width data Hw) as (bits & rest & Hd & Hl & Hp). exists bits, rest, (bits_to_hex bits).
  split_and!; [done| |done|].
  - rewrite Hd in Hmod. unfold size in *. rewrite zlen_app in Hmod. Z.div_mod_to_equations; lia.
  - intros output. unfold serialize_options. rewrite bool_decide_eq_false_2 by done.
    by rewrite AppendHexString_bits by (by rewrite Hl).
Qed.

(** * Headers *)

(** Parsing a header takes some bytes, which its serialization restores, and the header says what
    follows it. *)
Definition lossless (case : HeaderCase) : Prop :=
  ∀ data header rest, size data mod 8 = 0 → ParseHeader case data = Ok (header, rest) →
  ∃ bits, data = bits ++ rest ∧ size rest mod 8 = 0 ∧ 0 < zlen bits ∧ header_case header = case ∧
    (∃ next, GetNextHeader header = Ok next) ∧
    ∀ output, SerializeHeader header output = Ok (output ++ bits).


(** One field after another of the header parsed in [Hp]; then the fields serialized. *)
Ltac side := unfold size in *; rewrite ?zlen_app in *; lia.
Ltac read lemma Hp :=
  let bits := fresh "bits" in let rest := fresh "rest" in
  let Hl := fresh "Hl" in let Heq := fresh "Heq" in
  destruct lemma as (bits & rest & -> & Hl & Heq); [side|]; rewrite Heq in Hp; clear Heq; cbv beta iota in Hp.
Ltac read_fields Hp := repeat match type of Hp with
  | context [ParseBits ?n ?data] => read (ParseBits_reads n data) Hp
  | context [ParseMacAddress ?data] => read (ParseMac_reads data) Hp
  | context [ParseIpv4Address ?data] => read (ParseIpv4_reads data) Hp
  | context [ParseIpv6Address ?data] => read (ParseIpv6_reads data) Hp
  end.
Ltac write_field := first
  [ rewrite SerializeMac_bits by done | rewrite SerializeIpv4_bits by done | rewrite SerializeIpv6_bits by done
  | rewrite SerializeBits_bits by done
  | match goal with Hs : ∀ output, serialize_options _ output = _ |- _ => rewrite Hs end ].
Ltac conclude_header Hp := injection Hp as <- <-; eexists; split; [rewrite !app_assoc; reflexivity|];
  split; [assumption || (unfold size in *; rewrite ?zlen_app in *; Z.div_mod_to_equations; lia)|];
  split; [rewrite ?zlen_app; lia|]; split; [reflexivity|].
Ltac start_header :=
  intros data header rest Hmod Hp; apply bind_Ok_iff in Hp as ([h r] & Hp & [= <- <-]); autounfold with headers widths in Hp;
  match type of Hp with (if ?s <? ?w then _ else _) = _ => destruct (Z.ltb_spec s w); [done|] end.
Ltac serialize_header := intros output; cbn [SerializeHeader]; autounfold with headers widths;
  cbn -[Mac.ToString Ipv4.ToString Ipv6.ToString bits_to_hex];
  repeat (write_field; rewrite ?bind_Ok_l); by rewrite <-?app_assoc.

Lemma ethertype_next name bits :
  zlen bits = 16 → ∃ next, GetNextHeaderForEtherType name (bits_to_hex bits) = Ok next.
Proof.
  intros Hl. unfold GetNextHeaderForEtherType, HexStringToInt. rewrite HexStringTo_bits by lia. eauto.
Qed.

Lemma udp_next header bits :
  zlen bits = 16 → UdpHeader.destination_port header = bits_to_hex bits → ∃ next, UdpNextHeader header = Ok next.
Proof.
  intros Hl Hport. unfold UdpNextHeader, HexStringToInt32. rewrite Hport, HexStringTo_bits, bind_Ok_l by lia.
  by eexists.
Qed.

Lemma lossless_ethernet : lossless kEthernetHeader.
Proof.
  start_header. read_fields Hp. conclude_header Hp.
  split; [by apply ethertype_next|]. serialize_header.
Qed.

Lemma lossless_vlan : lossless kVlanHeader.
Proof.
  start_header. read_fields Hp. conclude_header Hp.
  split; [by apply ethertype_next|]. serialize_header.
Qed.

Lemma lossless_csig : lossless kCsigHeader.
Proof.
  start_header. read_fields Hp. conclude_header Hp.
  split; [by apply ethertype_next|]. serialize_header.
Qed.

Lemma lossless_arp : lossless kArpHeader.
Proof.
  start_header. read_fields Hp. conclude_header Hp.
  split; [by eexists|]. serialize_header.
Qed.

Lemma lossless_ipv6 : lossless kIpv6Header.
Proof.
  start_header. read_fields Hp. conclude_header Hp.
  split; [by eexists|]. serialize_header.
Qed.

Lemma lossless_hop_by_hop : lossless kHopByHopOptionsHeader.
Proof.
  start_header. read_fields Hp. conclude_header Hp.
  split; [by eexists|]. serialize_header.
Qed.

Lemma lossless_icmp : lossless kIcmpHeader.
Proof.
  start_header. read_fields Hp. conclude_header Hp.
  split; [by eexists|]. serialize_header.
Qed.

Lemma lossless_udp : lossless kUdpHeader.
Proof.
  start_header. read_fields Hp. conclude_header Hp.
  split; [eapply udp_next; [|reflexivity]; done|]. serialize_header.
Qed.

Lemma lossless_sai : lossless kSaiP4Bmv2PacketInHeader.
Proof.
  start_header. read_fields Hp. conclude_header Hp.
  split; [by eexists|]. serialize_header.
Qed.

Lemma lossless_ipfix : lossless kIpfixHeader.
Proof.
  start_header. read_fields Hp. conclude_header Hp.
  split; [by eexists|]. serialize_header.
Qed.

Lemma lossless_psamp : lossless kPsampHeader.
Proof.
  start_header. read_fields Hp. conclude_header Hp.
  split; [by eexists|]. serialize_header.
Qed.

Lemma lossless_ptp : lossless kPtpHeader.
Proof.
  start_header. read_fields Hp. conclude_header Hp.
  split; [by eexists|]. serialize_header.
Qed.

(** The headers with options: [Ho] is the value of the length field. *)
Ltac read_options Hp := match type of Hp with context [parse_options ?length_field ?data] =>
  let Ho := fresh "Ho" in let Hs := fresh "Hs" in let bits := fresh "options_bits" in let rest := fresh "rest" in
  destruct (parse_options_reads length_field data) as (bits & rest & ? & -> & Ho & Hopt & Hs);
    [unfold size in *; rewrite ?zlen_app in *; Z.div_mod_to_equations; lia|];
  rewrite Hopt in Hp; clear Hopt; cbv beta iota in Hp; pose proof (zlen_nonneg bits) end.

Lemma lossless_ipv4 : lossless kIpv4Header.
Proof.
  start_header. read_fields Hp. read_options Hp. conclude_header Hp.
  split; [by eexists|]. serialize_header.
Qed.

Lemma lossless_tcp : lossless kTcpHeader.
Proof.
  start_header. read_fields Hp. read_options Hp. conclude_header Hp.
  split; [by eexists|]. serialize_header.
Qed.

Lemma lossless_psp : lossless kPspHeader.
Proof.
  start_header. read_fields Hp. conclude_header Hp. split; [|serialize_header].
  cbn -[bits_to_hex]. unfold PspNextHeader, HexStringToInt32. case_bool_decide; [by eexists|].
  cbn -[bits_to_hex]. rewrite HexStringTo_bits, bind_Ok_l by lia. by eexists.
Qed.

Lemma lossless_gre : lossless kGreHeader.
Proof.
  start_header.
  assert (PeekHexString 1 data = Ok (bits_to_hex (take 1 data))) as Hpeek.
  { unfold PeekHexString. by rewrite (proj2 (Z.ltb_ge (size data) 1)) by lia. }
  rewrite Hpeek, bind_Ok_l in Hp. case_bool_decide as Hpresent; cbn [andb] in Hp.
  - destruct (Z.ltb_spec (size data) (32 + (16 + 16))); [done|]. read_fields Hp.
    rewrite take_app_length' in Hpresent by (unfold zlen in *; lia).
    unfold size in *. rewrite !zlen_app in *.
    assert (zlen bits3 = 16) by lia. assert (zlen bits4 = 16) by lia. clear Hl3 Hl4 Hpeek.
    conclude_header Hp. split; [by apply ethertype_next|].
    intros output; cbn [SerializeHeader]; autounfold with headers widths.
    cbn -[bits_to_hex]. do 4 (write_field; rewrite bind_Ok_l). rewrite bool_decide_eq_true_2 by done.
    rewrite !AppendHexString_bits, bind_Ok_l, AppendHexString_bits; [by rewrite <-!app_assoc|..]; by Z.div_mod_to_equations; lia.
  - read_fields Hp. rewrite take_app_length' in Hpresent by (unfold zlen in *; lia).
    conclude_header Hp. split; [by apply ethertype_next|].
    intros output; cbn [SerializeHeader]; autounfold with headers widths.
    cbn -[bits_to_hex]. do 4 (write_field; rewrite bind_Ok_l). rewrite bool_decide_eq_false_2 by done.
    by rewrite <-!app_assoc.
Qed.

Lemma parse_header_lossless case : lossless case.
Proof.
  destruct case; auto using lossless_ethernet, lossless_ipv4, lossless_ipv6, lossless_hop_by_hop, lossless_udp,
    lossless_tcp, lossless_arp, lossless_icmp, lossless_vlan, lossless_csig, lossless_gre, lossless_sai,
    lossless_ipfix, lossless_psamp, lossless_ptp, lossless_psp.
  by intros data header rest _ Hp.
Qed.

(** * Packets *)

(** What is announced after the headers [hs], the first of which should be a [case]. *)
Fixpoint announced (case : HeaderCase) (hs : list Header) : NextHeader :=
  match hs with
  | [] => Next case
  | header :: hs =>
    match GetNextHeader header with
    | Ok (Next next) => announced next hs
    | Ok (UnsupportedNextHeader reason) => UnsupportedNextHeader reason
    | _ => Next HEADER_NOT_SET
    end
  end.

(** Each header is the one that the header before it announces. *)
Fixpoint chain (case : HeaderCase) (hs : list Header) : Prop :=
  match hs with
  | [] => True
  | header :: hs =>
    header_case header = case ∧ case ≠ HEADER_NOT_SET ∧
    match GetNextHeader header with Ok (Next next) => chain next hs | _ => hs = [] end
  end.

(** Parsing stopped with [data] left since no header follows, or the next one is not supported, or
    there are too few bits for it. *)
Definition stopped (next : NextHeader) (data : BitString) (reason reason' : str) (reasons reasons' : list Reason)
  : Prop :=
  match next with
  | UnsupportedNextHeader why => reason' = why ∧ reasons' = reasons
  | Next HEADER_NOT_SET => reason' = reason ∧ reasons' = reasons
  | Next case =>
    is_Ok (ParseHeader case data) = false ∧ reason' = reason ∧ reasons' = reasons ++ [TooShort case]
  end.

Lemma serialize_headers_cons header hs output bits bits' :
  (∀ output, SerializeHeader header output = Ok (output ++ bits)) →
  (∀ output, serialize_headers hs output = Ok (output ++ bits')) →
  serialize_headers (header :: hs) output = Ok (output ++ bits ++ bits').
Proof.
  intros Hh Hs. unfold serialize_headers in *. cbn [fold_result]. by rewrite Hh, bind_Ok_l, Hs, app_assoc.
Qed.

Lemma parse_loop_lossless fuel case data packet :
  size data mod 8 = 0 → (length data < fuel)%nat →
  ∃ hs bits rest reason reasons,
    parse_loop fuel case data packet =
      Ok (mkPacket (headers packet ++ hs) (payload packet) reason reasons, rest) ∧
    data = bits ++ rest ∧ size rest mod 8 = 0 ∧ chain case hs ∧
    stopped (announced case hs) rest (reason_not_fully_parsed packet) reason (reasons_invalid packet) reasons ∧
    Forall (λ header, ∃ next, GetNextHeader header = Ok next) hs ∧
    ∀ output, serialize_headers hs output = Ok (output ++ bits).
Proof.
  revert case data packet. induction fuel as [|fuel IH]; intros case data packet Hmod Hfuel; [lia|].
  assert (∀ reason reasons,
    stopped (Next case) data (reason_not_fully_parsed packet) reason (reasons_invalid packet) reasons →
    ∃ hs bits rest reason' reasons',
    Ok (mkPacket (headers packet) (payload packet) reason reasons, data) =
      Ok (mkPacket (headers packet ++ hs) (payload packet) reason' reasons', rest) ∧
    data = bits ++ rest ∧ size rest mod 8 = 0 ∧ chain case hs ∧
    stopped (announced case hs) rest (reason_not_fully_parsed packet) reason' (reasons_invalid packet) reasons' ∧
    Forall (λ header, ∃ next, GetNextHeader header = Ok next) hs ∧
    ∀ output, serialize_headers hs output = Ok (output ++ bits)) as Hstop.
  { intros reason reasons Hs. exists [], [], data, reason, reasons. rewrite app_nil_r.
    split_and!; [done..|]. intros output. by rewrite app_nil_r. }
  cbn [parse_loop].
  destruct (decide (case = HEADER_NOT_SET)) as [->|Hcase]; [by destruct packet; apply Hstop|].
  assert (∀ A (a b : A), match case with HEADER_NOT_SET => a | _ => b end = b) as Hmatch by by destruct case.
  rewrite Hmatch. clear Hmatch.
  destruct (ParseHeader case data) as [[header rest]|e|] eqn:Hp;
    [|apply Hstop; unfold stopped; rewrite Hp; by destruct case..].
  clear Hstop. destruct (parse_header_lossless case data header rest Hmod Hp)
    as (bits & -> & Hrest & Hpos & Hhc & [next Hnext] & Hser).
  rewrite Hnext. unfold zlen in Hpos. rewrite length_app in Hfuel.
  destruct next as [c|why].
  - edestruct (IH c rest) as (hs & bits' & rest' & reason & reasons & -> & -> & Hmod' & Hchain & Hst & Hnexts & Hser');
      [done|lia|]. cbn [headers payload reason_not_fully_parsed reasons_invalid] in *.
    exists (header :: hs), (bits ++ bits'), rest', reason, reasons.
    split_and!; [by rewrite <-app_assoc|by rewrite app_assoc|done| | |constructor; eauto|].
    + cbn [chain]. by rewrite Hnext.
    + cbn [announced]. by rewrite Hnext.
    + intros output. by apply serialize_headers_cons.
  - destruct fuel as [|fuel]; [lia|].
    exists [header], bits, rest, why, (reasons_invalid packet). cbn [chain announced]. rewrite Hnext.
    split_and!; [done..|constructor; eauto|]. intros output. rewrite <-(app_nil_r bits).
    apply serialize_headers_cons; [done|]. intros out. by rewrite app_nil_r.
Qed.

(** [p] is the result of parsing [input] with [first_header] first. *)
Lemma ParseHeaders_spec input first_header :
  ∃ packet, ParseHeaders input first_header = Ok packet ∧ chain first_header (headers packet) ∧
    stopped (announced first_header (headers packet)) (OfByteString (payload packet))
      [] (reason_not_fully_parsed packet) [] (reasons_invalid packet) ∧
    Forall (λ header, ∃ next, GetNextHeader header = Ok next) (headers packet) ∧
    RawSerializePacket packet = Ok input.
Proof.
  set (data := OfByteString input).
  assert (size data mod 8 = 0) as Hmod.
  { unfold size, data. by rewrite OfByteString_length, Z.mul_comm, Z.mod_mul by lia. }
  destruct (parse_loop_lossless (S (S (length data))) first_header data (mkPacket [] [] [] []))
    as (hs & bits & rest & reason & reasons & Hp & Hd & Hrest & Hchain & Hst & Hnexts & Hser); [done|lia|].
  exists (mkPacket hs (bytes_loop rest) reason reasons).
  unfold ParseHeaders. fold data. rewrite Hp, bind_Ok_l. cbv beta iota. unfold ToByteString.
  rewrite Hrest. cbn [negb headers payload reason_not_fully_parsed reasons_invalid app].
  rewrite OfByteString_bytes_loop by done. split_and!; [done..|].
  unfold RawSerializePacket, RawSerializeFrom. cbn [headers payload].
  destruct (Z.ltb_spec (zlen hs) 0); [pose proof (zlen_nonneg hs); lia|].
  cbn [orb Z.ltb Z.compare Z.to_nat drop]. change (drop 0 hs) with hs.
  rewrite Hser, !bind_Ok_l, AppendBytes_app, OfByteString_bytes_loop by done.
  cbn [app]. rewrite <-Hd. unfold ToByteString, size. fold (size data). rewrite Hmod. cbn [negb].
  unfold data. by rewrite bytes_loop_of_bytes.
Qed.

(** Parsing terminates on every input, returns a packet and loses nothing: the headers and the
    payload returned serialize to exactly the bytes parsed. *)
Theorem parse_lossless (input : str) (first_header : HeaderCase) :
  ∃ packet, ParseHeaders input first_header = Ok packet ∧ RawSerializePacket packet = Ok input.
Proof. destruct (ParseHeaders_spec input first_header) as (p & ? & _ & _ & _ & ?). by exists p. Qed.

(** What parsing stops at.  The headers are the first one asked for and then, each time, the one
    announced by the header before; parsing goes on until the last header announces none (the packet is
    fully parsed), or one that is not supported (the reason is recorded), or one for which the bits
    left are not enough (the packet is invalid and says so); the rest is the payload. *)
Theorem parse_follows_headers (input : str) (first_header : HeaderCase) (packet : Packet) :
  ParseHeaders input first_header = Ok packet →
  chain first_header (headers packet) ∧
  stopped (announced first_header (headers packet)) (OfByteString (payload packet))
    [] (reason_not_fully_parsed packet) [] (reasons_invalid packet).
Proof.
  intros Hp. destruct (ParseHeaders_spec input first_header) as (p & Hp' & ? & ? & _).
  rewrite Hp in Hp'. by injection Hp' as <-.
Qed.

End packet_roundtrip.

(** A VLAN-tagged Ethernet frame of EtherType 0x1234, cut after the tag. *)
Definition tagged_frame : str :=
  map char_of [1; 2; 3; 4; 5; 6; 7; 8; 9; 10; 11; 12; 0x81; 0x00; 0x20; 0x05; 0x12; 0x34; 0xab].

Lemma parse_follows_headers_witness :
  ∃ packet, ParseHeaders tagged_frame kEthernetHeader = Ok packet ∧
    map header_case (headers packet) = [kEthernetHeader; kVlanHeader] ∧
    reason_not_fully_parsed packet = $"vlan_header.ethertype 0x1234: unsupported" ∧
    chain kEthernetHeader (headers packet).
Proof.
  destruct (ParseHeaders tagged_frame kEthernetHeader) as [packet| |] eqn:Hp;
    [|vm_compute in Hp; discriminate..].
  exists packet. split; [done|].
  pose proof (parse_follows_headers tagged_frame kEthernetHeader packet Hp) as [Hchain _].
  vm_compute in Hp. injection Hp as <-. split; [done|]. split; [done|]. exact Hchain.
Defined.

Lemma parse_lossless_witness :
  ∃ packet, ParseHeaders tagged_frame kEthernetHeader = Ok packet ∧ RawSerializePacket packet = Ok tagged_frame.
Proof. exact (parse_lossless tagged_frame kEthernetHeader). Defined.
