(* ===== verification/PacketChecks.v ===== *)
(** p4_infra/packetlib/packetlib.cc: sizes and checksums of packets and their validation.  A header is
    checked field by field; the problems found are collected in the order the code reports them. *)
From S2P Require Import Prelude Bitset ByteString Abseil HexString NetAddr NetAddrText BitString Packet.

(** * Checks: results with the list of problems found *)

(** [output.push_back] appends to a vector that is passed along: what a check returns is its result and
    the problems it adds. *)
Definition check (A : Type) := result (A * list Reason).
Definition check_ret {A} (a : A) : check A := Ok (a, []).
#[global] Instance check_bind : MBind check := λ A B k c,
  match c with
  | Ok (a, reasons) => match k a with Ok (b, more) => Ok (b, reasons ++ more) | Err e => Err e | Die => Die end
  | Err e => Err e
  | Die => Die
  end.
Definition push_back (reason : Reason) : check unit := Ok (tt, [reason]).
Definition push_if (b : bool) (reason : Reason) : check unit := if b then push_back reason else check_ret tt.

(** [if (auto x = c; !x.ok())]: both outcomes of a [StatusOr]. *)
Definition check_status {A B} (c : result A) (failed : check B) (k : A → check B) : check B :=
  match c with Ok a => k a | Err _ => failed | Die => Die end.

Section checks.
Context `{AbslStrings} `{!Ipv6.Inet}.

(** * Sizes *)

(** What a header adds to the size in bits. *)
Definition options_size (options : str) : result Z :=
  if bool_decide (options = []) then Ok 0
  else bytes ← HexStringToByteString options; Ok (8 * zlen bytes).

Definition header_size (header : Header) : result Z :=
  match header with
  | ethernet_header _ => Ok kEthernetHeaderBitwidth
  | ipv4_header header =>
    options ← options_size (Ipv4Header.uninterpreted_options header); Ok (kStandardIpv4HeaderBitwidth + options)
  | ipv6_header _ => Ok kIpv6HeaderBitwidth
  | hop_by_hop_options_header _ => Ok kMinHopByHopOptionsHeaderBitwidth
  | udp_header _ => Ok kUdpHeaderBitwidth
  | tcp_header header =>
    options ← options_size (TcpHeader.uninterpreted_options header); Ok (kStandardTcpHeaderBitwidth + options)
  | arp_header _ => Ok kArpHeaderBitwidth
  | icmp_header _ => Ok kIcmpHeaderBitwidth
  | vlan_header _ => Ok kVlanHeaderBitwidth
  | gre_header header =>
    Ok (kRfc2784GreHeaderWithoutOptionalsBitwidth +
        if bool_decide (GreHeader.checksum_present header = $"0x1")
        then kGreChecksumBitwidth + kGreReserved1Bitwidth else 0)
  | sai_p4_bmv2_packet_in_header _ => Ok kSaiP4BMv2PacketInHeaderBitwidth
  | ipfix_header _ => Ok kIpfixHeaderBitwidth
  | psamp_header _ => Ok kPsampHeaderBitwidth
  | ptp_header _ => Ok kPtpHeaderBitwidth
  | psp_header _ => Ok kPspHeaderBitwidth
  | csig_header _ => Ok kCsigHeaderBitwidth
  | header_not_set => Err kInvalidArgument
  end.

(** [int size]: 32 bits. *)
Definition PacketSizeInBits (packet : Packet) (start_header_index : Z) : result Z :=
  if (zlen (headers packet) <? start_header_index) || (start_header_index <? 0) then Err kInvalidArgument else
  size ← fold_result (λ size header, bits ← header_size header; Ok (wrapS 32 (size + bits)))
    (drop (Z.to_nat start_header_index) (headers packet)) 0;
  Ok (wrapS 32 (size + 8 * zlen (payload packet))).

(** [bit_size % 8] and [bit_size / 8] truncate towards zero. *)
Definition PacketSizeInBytes (packet : Packet) (start_header_index : Z) : result Z :=
  bit_size ← PacketSizeInBits packet start_header_index;
  if negb (Z.rem bit_size 8 =? 0) then Err kInvalidArgument else Ok (Z.quot bit_size 8).

(** * Checksums *)

(** Zero bits up to a multiple of 16. *)
Definition pad16 (data : BitString) : BitString :=
  data ++ repeat false (Z.to_nat (- size data mod 16)).

(** The loops of [OnesComplementChecksum]: sum of the words, then of the carries.  Every word takes 16
    bits, and every step of the second loop makes the sum smaller. *)
Fixpoint sum_loop (fuel : nat) (data : BitString) (sum : Z) : result Z :=
  match fuel with
  | O => Die
  | S fuel =>
    if size data =? 0 then Ok sum
    else match ConsumeBitset 16 data with
    | Ok (word, data) => sum_loop fuel data (wrapS 32 (sum + word))
    | Err _ => Err kInternal
    | Die => Die
    end
  end.

Fixpoint carry_loop (fuel : nat) (sum : Z) : result Z :=
  match fuel with
  | O => Die
  | S fuel =>
    if Z.shiftr sum 16 =? 0 then Ok sum else carry_loop fuel (Z.land sum 0xffff + Z.shiftr sum 16)
  end.

Definition OnesComplementChecksum (data : BitString) : result Z :=
  let data := pad16 data in
  sum ← sum_loop (S (length data)) data 0;
  sum ← carry_loop 4 sum;
  Ok (Z.land (Z.lnot sum) 0xffff).

Definition set_header (packet : Packet) (i : nat) (header : Header) : Packet :=
  mkPacket (<[i := header]> (headers packet)) (payload packet) (reason_not_fully_parsed packet)
    (reasons_invalid packet).

(** [packet.headers(i)], which aborts out of range. *)
Definition packet_header (packet : Packet) (i : Z) : result Header :=
  if i <? 0 then Die else match headers packet !! Z.to_nat i with Some header => Ok header | None => Die end.

Definition FindPrecedingIpHeader (packet : Packet) (header_index : Z) : result Z :=
  let ip_header_index := header_index - 1 in
  if 0 <=? ip_header_index then
    header ← packet_header packet ip_header_index;
    Ok (if bool_decide (header_case header = kHopByHopOptionsHeader) then ip_header_index - 1 else ip_header_index)
  else Ok ip_header_index.

Definition Ipv4HeaderChecksum (header : Ipv4Header.t) : result Z :=
  data ← SerializeIpv4Header (Ipv4Header.set_checksum $"0x0000" header) [];
  OnesComplementChecksum data.

(** [Ok None]: any checksum is allowed. *)
Definition UdpHeaderChecksum (packet : Packet) (udp_header_index : Z) : result (option Z) :=
  if udp_header_index <? 1 then Err kInvalidArgument
  else if zlen (headers packet) <=? udp_header_index then Err kInvalidArgument else
  ip_header_index ← FindPrecedingIpHeader packet udp_header_index;
  preceding_header ← packet_header packet ip_header_index;
  header ← packet_header packet udp_header_index;
  match header with
  | udp_header header =>
    let header := UdpHeader.set_checksum $"0x0000" header in
    let packet := set_header packet (Z.to_nat udp_header_index) (udp_header header) in
    match preceding_header with
    | ipv4_header ip =>
      data ← SerializeIpv4Address (Ipv4Header.ipv4_source ip) [];
      data ← SerializeIpv4Address (Ipv4Header.ipv4_destination ip) data;
      data ← SerializeBits kIpProtocolBitwidth (Ipv4Header.protocol ip) (AppendBits 8 0 data);
      data ← SerializeBits kUdpLengthBitwidth (UdpHeader.length header) data;
      data ← RawSerializeFrom packet udp_header_index data;
      checksum ← OnesComplementChecksum data; Ok (Some checksum)
    | ipv6_header ip =>
      data ← SerializeIpv6Address (Ipv6Header.ipv6_source ip) [];
      data ← SerializeIpv6Address (Ipv6Header.ipv6_destination ip) data;
      data ← SerializeBits kUdpLengthBitwidth (UdpHeader.length header) (AppendBits 16 0 data);
      data ← SerializeBits kIpNextHeaderBitwidth $"0x11" (AppendBits 24 0 data);
      data ← RawSerializeFrom packet udp_header_index data;
      checksum ← OnesComplementChecksum data; Ok (Some checksum)
    | psp_header _ => Ok None
    | _ => Err kInvalidArgument
    end
  | _ => Err kInvalidArgument
  end.

Definition IcmpHeaderChecksum (packet : Packet) (icmp_header_index : Z) : result Z :=
  if (icmp_header_index <? 1) || (zlen (headers packet) <=? icmp_header_index) then Err kInvalidArgument else
  header ← packet_header packet icmp_header_index;
  match header with
  | icmp_header header =>
    let packet := set_header packet (Z.to_nat icmp_header_index)
      (icmp_header (IcmpHeader.set_checksum $"0x0000" header)) in
    ip_header_index ← FindPrecedingIpHeader packet icmp_header_index;
    preceding_header ← packet_header packet ip_header_index;
    match preceding_header with
    | ipv6_header ip =>
      data ← SerializeIpv6Address (Ipv6Header.ipv6_source ip) [];
      data ← SerializeIpv6Address (Ipv6Header.ipv6_destination ip) data;
      icmpv6_size ← PacketSizeInBytes packet icmp_header_index;
      data ← SerializeBits kIpNextHeaderBitwidth $"0x3a" (AppendBits 24 0 (AppendBits 32 icmpv6_size data));
      data ← RawSerializeFrom packet icmp_header_index data;
      OnesComplementChecksum data
    | ipv4_header _ =>
      data ← RawSerializeFrom packet icmp_header_index [];
      OnesComplementChecksum data
    | _ => Err kInvalidArgument
    end
  | _ => Err kInvalidArgument
  end.

Definition GreHeaderChecksum (packet : Packet) (gre_header_index : Z) : result Z :=
  if zlen (headers packet) <=? gre_header_index then Err kInvalidArgument else
  header ← packet_header packet gre_header_index;
  match header with
  | gre_header header =>
    let packet := set_header packet (Z.to_nat gre_header_index)
      (gre_header (GreHeader.set_checksum $"0x0000" header)) in
    data ← RawSerializeFrom packet gre_header_index [];
    OnesComplementChecksum data
  | _ => Err kInvalidArgument
  end.


(** * Validation of fields *)

Definition at_field (header_index : nat) (field : string) (problem : Problem) : Reason :=
  HeaderProblem header_index (list_ascii_of_string field) problem.

Section fields.
Variable header_index : nat.

Definition AddressInvalidReasons (OfString : str → result Z) (address : str) (field : string) : check unit :=
  if bool_decide (address = []) then push_back (at_field header_index field missing)
  else push_if (negb (is_Ok (OfString address))) (at_field header_index field invalid_format).
Definition MacAddressInvalidReasons : str → string → check unit := AddressInvalidReasons Mac.OfString.
Definition Ipv4AddressInvalidReasons : str → string → check unit := AddressInvalidReasons Ipv4.OfString.
Definition Ipv6AddressInvalidReasons : str → string → check unit := AddressInvalidReasons Ipv6.OfString.

(** True when the field is invalid. *)
Definition HexStringInvalidReasons (num_bits : Z) (hex_string : str) (field : string) : check bool :=
  if bool_decide (hex_string = []) then push_back (at_field header_index field missing);; check_ret true
  else if negb (is_Ok (HexStringToBitset num_bits hex_string))
  then push_back (at_field header_index field invalid_format);; check_ret true
  else check_ret false.

Definition Ipv4UninterpretedOptionsInvalidReasons (uninterpreted_options : str) : check bool :=
  if bool_decide (uninterpreted_options = []) then check_ret false
  else match HexStringToByteString uninterpreted_options with
  | Ok bytes =>
    if negb (zlen bytes * 8 mod 32 =? 0)
    then push_back (at_field header_index "uninterpreted_options" inconsistent);; check_ret true
    else check_ret false
  | _ => push_back (at_field header_index "uninterpreted_options" invalid_format);; check_ret true
  end.

Definition TcpUninterpretedOptionsInvalidReasons (uninterpreted_options : str) : check bool :=
  if bool_decide (uninterpreted_options = []) then check_ret false
  else match HexStringToByteString uninterpreted_options with
  | Ok bytes =>
    if negb (zlen bytes * 8 mod 32 =? 0)
    then push_back (at_field header_index "uninterpreted_options" inconsistent);; check_ret true
    else push_if (10 <? zlen bytes * 8 / 32) (at_field header_index "uninterpreted_options" inconsistent);;
      check_ret false
  | _ => push_back (at_field header_index "uninterpreted_options" invalid_format);; check_ret true
  end.

(** One optional field of GRE: two bytes. *)
Definition gre_optional_invalid (value : str) : check bool :=
  match HexStringToByteString value with
  | Ok bytes =>
    if negb (zlen bytes * 8 =? 16)
    then push_back (at_field header_index "optional fields" inconsistent);; check_ret true
    else check_ret false
  | _ => push_back (at_field header_index "optional fields" invalid_format);; check_ret true
  end.

Definition GreOptionalFieldsInvalidReasons (checksum reserved1 : str) : check bool :=
  if bool_decide (checksum = []) && bool_decide (reserved1 = []) then check_ret false else
  checksum_invalid ← gre_optional_invalid checksum;
  reserved1_invalid ← gre_optional_invalid reserved1;
  check_ret (checksum_invalid || reserved1_invalid).

(** The options, one after another: padding of one byte, or a type, a length and as many bytes of data.
    The length is a [char]: a negative one exceeds every [size_t]. *)
Fixpoint options_loop (fuel : nat) (bytes : str) : check unit :=
  match fuel, bytes with
  | O, _ => Die
  | _, [] => check_ret tt
  | S fuel, option_type :: bytes =>
    if bool_decide (option_type = zero) then options_loop fuel bytes
    else match bytes with
    | [] => push_back (at_field header_index "options_and_padding" inconsistent)
    | length_byte :: bytes =>
      let option_data_length := schar length_byte in
      if zlen bytes + 1 <=? wrapU 64 option_data_length
      then push_back (at_field header_index "options_and_padding" inconsistent)
      else if bool_decide (option_type = char_of 1) &&
        negb (forallb (λ b, bool_decide (b = zero)) (take (Z.to_nat option_data_length) bytes))
      then push_back (at_field header_index "options_and_padding" inconsistent)
      else options_loop fuel (drop (Z.to_nat option_data_length) bytes)
    end
  end.

Definition HopByHopOptionsInvalidOptionsAndPadding (options_and_padding : str) : check unit :=
  match HexStringToByteString options_and_padding with
  | Ok byte_string => options_loop (S (length byte_string)) byte_string
  | _ => push_back (at_field header_index "options_and_padding" invalid_format)
  end.

(** A field that must have a certain value. *)
Definition must_equal (value expected : str) (field : string) : check unit :=
  push_if (negb (bool_decide (value = expected))) (at_field header_index field (must_be expected)).
Definition must_equal_if (valid : bool) (value expected : str) (field : string) : check unit :=
  if valid then must_equal value expected field else check_ret tt.

(** A field computed by [c], written with [num_bits] bits. *)
Definition must_be_computed (num_bits : Z) (value : str) (c : result Z) (error_field field : string) : check unit :=
  check_status c (push_back (at_field header_index error_field not_computable))
    (λ expected, must_equal value (BitsetToHexString num_bits (wrapU num_bits expected)) field).
End fields.

(** [4 bits for every hex char after "0x"-prefix], in 32-bit words, and the five words of the header. *)
Definition expected_words (options : str) : Z :=
  5 + (if bool_decide (options = []) then 0 else 4 * (zlen options - 2)) / 32.

(** * Validation of headers *)

Section headers.
Variable packet : Packet.
Variable header_index : nat.

Local Abbreviation hex := (HexStringInvalidReasons header_index).
Local Abbreviation mac := (MacAddressInvalidReasons header_index).
Local Abbreviation ipv4 := (Ipv4AddressInvalidReasons header_index).
Local Abbreviation ipv6 := (Ipv6AddressInvalidReasons header_index).
Local Abbreviation report field problem := (push_back (at_field header_index field problem)).
Local Abbreviation index := (Z.of_nat header_index).

(** The length fields: the size of the packet from a header on. *)
Definition length_check (num_bits : Z) (value : str) (start_header_index : Z) (error_field field : string)
  : check unit :=
  must_be_computed header_index num_bits value (PacketSizeInBytes packet start_header_index) error_field field.

(** The EtherType is read again even if it is invalid; when it cannot be read, [*ethertype] aborts. *)
Definition EthernetHeaderInvalidReasons (header : EthernetHeader.t) : check unit :=
  mac (EthernetHeader.ethernet_destination header) "ethernet_destination";;
  mac (EthernetHeader.ethernet_source header) "ethernet_source";;
  ethertype_invalid ← hex kEthernetEthertypeBitwidth (EthernetHeader.ethertype header) "ethertype";
  check_status (PacketSizeInBytes packet (index + 1)) (report "" not_computable) (λ size,
  check_status (HexStringToInt (EthernetHeader.ethertype header))
    (if ethertype_invalid : bool then Die else report "ethertype" invalid_format) (λ ethertype,
  if (ethertype <=? 1500) && negb (size =? ethertype) then report "ethertype" inconsistent
  else push_if ((1500 <? ethertype) && (size <? kMinNumBytesInEthernetPayload))
    (at_field header_index "" inconsistent))).

Definition Ipv4HeaderInvalidReasons (header : Ipv4Header.t) : check unit :=
  version_invalid ← hex kIpVersionBitwidth (Ipv4Header.version header) "version";
  ihl_invalid ← hex kIpIhlBitwidth (Ipv4Header.ihl header) "ihl";
  hex kIpDscpBitwidth (Ipv4Header.dscp header) "dscp";;
  hex kIpEcnBitwidth (Ipv4Header.ecn header) "ecn";;
  length_invalid ← hex kIpTotalLengthBitwidth (Ipv4Header.total_length header) "total_length";
  hex kIpIdentificationBitwidth (Ipv4Header.identification header) "identification";;
  hex kIpFlagsBitwidth (Ipv4Header.flags header) "flags";;
  hex kIpFragmentOffsetBitwidth (Ipv4Header.fragment_offset header) "fragment_offset";;
  hex kIpTtlBitwidth (Ipv4Header.ttl header) "ttl";;
  hex kIpProtocolBitwidth (Ipv4Header.protocol header) "protocol";;
  checksum_invalid ← hex kIpChecksumBitwidth (Ipv4Header.checksum header) "checksum";
  ipv4 (Ipv4Header.ipv4_source header) "ipv4_source";;
  ipv4 (Ipv4Header.ipv4_destination header) "ipv4_destination";;
  options_invalid ← Ipv4UninterpretedOptionsInvalidReasons header_index (Ipv4Header.uninterpreted_options header);
  (if ihl_invalid : bool then check_ret tt
   else if options_invalid : bool then report "ihl" not_computable
   else must_equal header_index (Ipv4Header.ihl header)
     (BitsetToHexString kIpIhlBitwidth
       (wrapU kIpIhlBitwidth (expected_words (Ipv4Header.uninterpreted_options header)))) "ihl");;
  must_equal_if header_index (negb version_invalid) (Ipv4Header.version header) $"0x4" "version";;
  (if length_invalid : bool then check_ret tt
   else length_check kIpTotalLengthBitwidth (Ipv4Header.total_length header) index "total_length" "total_length");;
  (if checksum_invalid : bool then check_ret tt
   else must_be_computed header_index kIpChecksumBitwidth (Ipv4Header.checksum header) (Ipv4HeaderChecksum header)
     "checksum" "checksum").

Definition Ipv6HeaderInvalidReasons (header : Ipv6Header.t) : check unit :=
  version_invalid ← hex kIpVersionBitwidth (Ipv6Header.version header) "version";
  hex kIpDscpBitwidth (Ipv6Header.dscp header) "dscp";;
  hex kIpEcnBitwidth (Ipv6Header.ecn header) "ecn";;
  hex kIpFlowLabelBitwidth (Ipv6Header.flow_label header) "flow_label";;
  length_invalid ← hex kIpPayloadLengthBitwidth (Ipv6Header.payload_length header) "payload_length";
  hex kIpNextHeaderBitwidth (Ipv6Header.next_header header) "next_header";;
  hex kIpHopLimitBitwidth (Ipv6Header.hop_limit header) "hop_limit";;
  ipv6 (Ipv6Header.ipv6_source header) "ipv6_source";;
  ipv6 (Ipv6Header.ipv6_destination header) "ipv6_destination";;
  must_equal_if header_index (negb version_invalid) (Ipv6Header.version header) $"0x6" "version";;
  if length_invalid : bool then check_ret tt
  else length_check kIpPayloadLengthBitwidth (Ipv6Header.payload_length header) (index + 1) "total_length"
    "payload_length".

Definition HopByHopOptionsHeaderInvalidReasons (header : HopByHopOptionsHeader.t) : check unit :=
  hex kHopByHopNextHeaderBitwidth (HopByHopOptionsHeader.next_header header) "next_header";;
  hex kHopByHopHeaderExtensionLengthBitwidth (HopByHopOptionsHeader.header_extension_length header)
    "header_extension_length";;
  options_invalid ← hex kHopByHopOptionsAndPaddingBitwidth (HopByHopOptionsHeader.options_and_padding header)
    "options_and_padding";
  if options_invalid : bool then check_ret tt
  else HopByHopOptionsInvalidOptionsAndPadding header_index (HopByHopOptionsHeader.options_and_padding header).

(** [UdpChecksum(0)] is "0x0000". *)
Definition UdpHeaderInvalidReasons (header : UdpHeader.t) : check unit :=
  hex kUdpPortBitwidth (UdpHeader.source_port header) "source_port";;
  hex kUdpPortBitwidth (UdpHeader.destination_port header) "destination_port";;
  length_invalid ← hex kUdpLengthBitwidth (UdpHeader.length header) "length";
  checksum_invalid ← hex kUdpChecksumBitwidth (UdpHeader.checksum header) "checksum";
  (if length_invalid : bool then check_ret tt
   else length_check kUdpLengthBitwidth (UdpHeader.length header) index "length" "length");;
  if checksum_invalid : bool then check_ret tt
  else check_status (UdpHeaderChecksum packet index) (report "checksum" not_computable) (λ checksum,
    match checksum with
    | Some checksum =>
      if bool_decide (UdpHeader.checksum header = BitsetToHexString kUdpChecksumBitwidth 0) then check_ret tt
      else must_equal header_index (UdpHeader.checksum header)
        (BitsetToHexString kUdpChecksumBitwidth (wrapU kUdpChecksumBitwidth checksum)) "checksum"
    | None => check_ret tt
    end).

Definition TcpHeaderInvalidReasons (header : TcpHeader.t) : check unit :=
  hex kUdpPortBitwidth (TcpHeader.source_port header) "source_port";;
  hex kUdpPortBitwidth (TcpHeader.destination_port header) "destination_port";;
  hex kTcpSequenceNumberBitwidth (TcpHeader.sequence_number header) "sequence_number";;
  hex kTcpAcknowledgementNumberBitwidth (TcpHeader.acknowledgement_number header) "acknowledgement_number";;
  data_offset_invalid ← hex kTcpDataOffsetBitwidth (TcpHeader.data_offset header) "data_offset";
  hex kTcpRestOfHeaderBitwidth (TcpHeader.rest_of_header header) "rest_of_header";;
  options_invalid ← TcpUninterpretedOptionsInvalidReasons header_index (TcpHeader.uninterpreted_options header);
  if data_offset_invalid : bool then check_ret tt
  else if options_invalid : bool then report "data_offset" not_computable
  else must_equal header_index (TcpHeader.data_offset header)
    (BitsetToHexString kIpIhlBitwidth
      (wrapU kIpIhlBitwidth (expected_words (TcpHeader.uninterpreted_options header)))) "data_offset".

Definition ArpHeaderInvalidReasons (header : ArpHeader.t) : check unit :=
  hardware_type_invalid ← hex kArpTypeBitwidth (ArpHeader.hardware_type header) "hardware_type";
  protocol_type_invalid ← hex kArpTypeBitwidth (ArpHeader.protocol_type header) "protocol_type";
  hardware_length_invalid ← hex kArpLengthBitwidth (ArpHeader.hardware_length header) "hardware_length";
  protocol_length_invalid ← hex kArpLengthBitwidth (ArpHeader.protocol_length header) "protocol_length";
  hex kArpOperationBitwidth (ArpHeader.operation header) "operation";;
  mac (ArpHeader.sender_hardware_address header) "sender_hardware_address";;
  ipv4 (ArpHeader.sender_protocol_address header) "sender_protocol_address";;
  mac (ArpHeader.target_hardware_address header) "target_hardware_address";;
  ipv4 (ArpHeader.target_protocol_address header) "target_protocol_address";;
  must_equal_if header_index (negb hardware_type_invalid) (ArpHeader.hardware_type header) $"0x0001" "hardware_type";;
  must_equal_if header_index (negb protocol_type_invalid) (ArpHeader.protocol_type header) $"0x0800" "protocol_type";;
  must_equal_if header_index (negb hardware_length_invalid) (ArpHeader.hardware_length header) $"0x06"
    "hardware_length";;
  must_equal_if header_index (negb protocol_length_invalid) (ArpHeader.protocol_length header) $"0x04" "hardware_type".

Definition IcmpHeaderInvalidReasons (header : IcmpHeader.t) : check unit :=
  hex kIcmpTypeBitwidth (IcmpHeader.type_ header) "type";;
  hex kIcmpCodeBitwidth (IcmpHeader.code header) "code";;
  checksum_invalid ← hex kIcmpChecksumBitwidth (IcmpHeader.checksum header) "checksum";
  hex kIcmpRestOfHeaderBitwidth (IcmpHeader.rest_of_header header) "rest_of_header";;
  if index <=? 0 then report "checksum" inconsistent else
  check_status (FindPrecedingIpHeader packet index) (check_ret tt) (λ ip_header_index,
  check_status (packet_header packet ip_header_index) (check_ret tt) (λ previous,
  match header_case previous with
  | kIpv4Header | kIpv6Header =>
    if checksum_invalid : bool then check_ret tt
    else must_be_computed header_index kIcmpChecksumBitwidth (IcmpHeader.checksum header)
      (IcmpHeaderChecksum packet index) "checksum" "checksum"
  | _ => report "checksum" inconsistent
  end)).

Definition VlanHeaderInvalidReasons (header : VlanHeader.t) : check unit :=
  hex kVlanPriorityCodePointBitwidth (VlanHeader.priority_code_point header) "priority_code_point";;
  hex kVlanDropEligibilityIndicatorBitwidth (VlanHeader.drop_eligible_indicator header) "drop_eligible_indicator";;
  hex kVlanVlanIdentifierBitwidth (VlanHeader.vlan_identifier header) "vlan_identifier";;
  hex kVlanEthertypeBitwidth (VlanHeader.ethertype header) "ethertype";;
  check_ret tt.

Definition CsigHeaderInvalidReasons (header : CsigHeader.t) : check unit :=
  hex kCsigSignalTypeBitwidth (CsigHeader.signal_type header) "signal_type";;
  hex kCsigReserved0Bitwidth (CsigHeader.reserved0 header) "reserved0";;
  hex kCsigSignalValueBitwidth (CsigHeader.signal_value header) "signal_value";;
  hex kCsigLocatorMetadataBitwidth (CsigHeader.locator_metadata header) "locator_metadata";;
  hex kCsigEthertypeBitwidth (CsigHeader.ethertype header) "ethertype";;
  check_ret tt.

(** The protocol type is not checked. *)
Definition GreHeaderInvalidReasons (header : GreHeader.t) : check unit :=
  checksum_present_invalid ← hex kGreChecksumPresentBitwidth (GreHeader.checksum_present header) "checksum_present";
  reserved0_invalid ← hex kGreReserved0Bitwidth (GreHeader.reserved0 header) "reserved0";
  version_invalid ← hex kGreVersionBitwidth (GreHeader.version header) "version";
  must_equal_if header_index (negb reserved0_invalid) (GreHeader.reserved0 header) $"0x000" "reserved0";;
  must_equal_if header_index (negb version_invalid) (GreHeader.version header) $"0x0" "version";;
  if (checksum_present_invalid : bool) || negb (bool_decide (GreHeader.checksum_present header = $"0x1")) then
    push_if (negb (bool_decide (GreHeader.checksum header = []))) (at_field header_index "Checksum_present" inconsistent);;
    push_if (negb (bool_decide (GreHeader.reserved1 header = []))) (at_field header_index "Checksum_present" inconsistent)
  else
  optional_fields_invalid ← GreOptionalFieldsInvalidReasons header_index (GreHeader.checksum header)
    (GreHeader.reserved1 header);
  if optional_fields_invalid : bool then report "checksum_present" inconsistent
  else
    must_be_computed header_index kGreChecksumBitwidth (GreHeader.checksum header) (GreHeaderChecksum packet index)
      "checksum" "checksum";;
    must_equal header_index (GreHeader.reserved1 header) $"0x0000" "reserved1".

Definition SaiP4BMv2PacketInHeaderInvalidReasons (header : SaiP4BMv2PacketInHeader.t) : check unit :=
  hex kSaiP4BMv2PacketInIngressPortBitwidth (SaiP4BMv2PacketInHeader.ingress_port header) "ingress_port";;
  hex kSaiP4BMv2PacketInTargetEgressPortBitwidth (SaiP4BMv2PacketInHeader.target_egress_port header)
    "target_egress_port";;
  unused_pad_invalid ← hex kSaiP4BMv2PacketInUnusedPadBitwidth (SaiP4BMv2PacketInHeader.unused_pad header)
    "unused_pad";
  if unused_pad_invalid : bool then check_ret tt
  else check_status (HexStringToInt (SaiP4BMv2PacketInHeader.unused_pad header)) Die (λ unused_pad,
    push_if (negb (unused_pad =? 0)) (at_field header_index "unused_pad" (must_be $"0"))).

Definition IpfixHeaderInvalidReasons (header : IpfixHeader.t) : check unit :=
  hex kIpfixVersionBitwidth (IpfixHeader.version header) "version";;
  hex kIpfixExportTimeBitwidth (IpfixHeader.export_time header) "export_time";;
  hex kIpfixSequenceNumberBitwidth (IpfixHeader.sequence_number header) "sequence_number";;
  hex kIpfixObservationDomainIdBitwidth (IpfixHeader.observation_domain_id header) "observation_domain_id";;
  length_invalid ← hex kIpfixLengthBitwidth (IpfixHeader.length header) "length";
  if length_invalid : bool then check_ret tt
  else length_check kIpfixLengthBitwidth (IpfixHeader.length header) index "length" "length".

Definition PsampHeaderInvalidReasons (header : PsampHeader.t) : check unit :=
  hex kPsampTemplateIdBitwidth (PsampHeader.template_id header) "template_id";;
  hex kPsampObservationTimeBitwidth (PsampHeader.observation_time header) "observation_time";;
  hex kPsampFlowsetBitwidth (PsampHeader.flowset header) "flowset";;
  hex kPsampNextHopIndexBitwidth (PsampHeader.next_hop_index header) "next_hop_index";;
  hex kPsampEpochBitwidth (PsampHeader.epoch header) "epoch";;
  hex kPsampIngressPortBitwidth (PsampHeader.ingress_port header) "ingress_port";;
  hex kPsampEgressPortBitwidth (PsampHeader.egress_port header) "egress_port";;
  hex kPsampUserMetaFieldBitwidth (PsampHeader.user_meta_field header) "user_meta_field";;
  hex kPsampDlbIdBitwidth (PsampHeader.dlb_id header) "dlb_id";;
  variable_length_invalid ← hex kPsampVariableLengthBitwidth (PsampHeader.variable_length header) "variable_length";
  (if variable_length_invalid : bool then check_ret tt
   else check_status (HexStringToInt (PsampHeader.variable_length header)) (report "variable_length" invalid_format)
     (λ variable_length,
       push_if (negb (variable_length =? 0xff)) (at_field header_index "variable_length" (must_be $"0xFF"))));;
  length_invalid ← hex kPsampLengthBitwidth (PsampHeader.length header) "length";
  (if length_invalid : bool then check_ret tt
   else length_check kPsampLengthBitwidth (PsampHeader.length header) index "length" "length");;
  packet_sampled_length_invalid ← hex kPsampPacketSampledLengthBitwidth (PsampHeader.packet_sampled_length header)
    "packet_sampled_length";
  if packet_sampled_length_invalid : bool then check_ret tt
  else length_check kPsampPacketSampledLengthBitwidth (PsampHeader.packet_sampled_length header) (index + 1)
    "length" "packet_sampled_length".

Definition PtpHeaderInvalidReasons (header : PtpHeader.t) : check unit :=
  hex kPtpTransportSpecificBitwidth (PtpHeader.transport_specific header) "transport_specific";;
  hex kPtpVersionPtpBitwidth (PtpHeader.version_ptp header) "version_ptp";;
  hex kPtpDomainNumberBitwidth (PtpHeader.domain_number header) "domain_number";;
  hex kPtpFlagsBitwidth (PtpHeader.flags header) "flags";;
  hex kPtpCorrectionFieldBitwidth (PtpHeader.correction_field header) "correction_field";;
  hex kPtpSourcePortIdentityBitwidth (PtpHeader.source_port_identity header) "source_port_identity";;
  hex kPtpSequenceIdBitwidth (PtpHeader.sequence_id header) "sequence_id";;
  hex kPtpControlFieldBitwidth (PtpHeader.control_field header) "control_field";;
  hex kPtpLogMessageIntervalBitwidth (PtpHeader.log_message_interval header) "log_message_interval";;
  message_type_invalid ← hex kPtpMessageTypeBitwidth (PtpHeader.message_type header) "message_type";
  (if message_type_invalid : bool then check_ret tt
   else match SimpleHexAtoi (PtpHeader.message_type header) with
   | None => report "message_type" invalid_format
   | Some message_type_value =>
     push_if (negb ((0 <=? message_type_value) && (message_type_value <=? 3)))
       (at_field header_index "message_type" inconsistent)
   end);;
  reserved0_invalid ← hex kPtpReserved0Bitwidth (PtpHeader.reserved0 header) "reserved0";
  must_equal_if header_index (negb reserved0_invalid) (PtpHeader.reserved0 header) $"0x0" "reserved0";;
  reserved1_invalid ← hex kPtpReserved1Bitwidth (PtpHeader.reserved1 header) "reserved1";
  must_equal_if header_index (negb reserved1_invalid) (PtpHeader.reserved1 header) $"0x00" "reserved1";;
  reserved2_invalid ← hex kPtpReserved2Bitwidth (PtpHeader.reserved2 header) "reserved2";
  must_equal_if header_index (negb reserved2_invalid) (PtpHeader.reserved2 header) $"0x00000000" "reserved2";;
  message_length_invalid ← hex kPtpMessageLengthBitwidth (PtpHeader.message_length header) "message_length";
  if message_length_invalid : bool then check_ret tt
  else length_check kPtpMessageLengthBitwidth (PtpHeader.message_length header) index "message_length" "message_length".

(** The second reserved field is not checked. *)
Definition PspHeaderInvalidReasons (header : PspHeader.t) : check unit :=
  hex kPspNextHeaderBitwidth (PspHeader.next_header header) "next_header";;
  hex kPspHeaderExtLengthBitwidth (PspHeader.header_ext_length header) "header_ext_length";;
  hex kPspCryptOffsetBitwidth (PspHeader.crypt_offset header) "crypt_offset";;
  hex kPspSampleBitwidth (PspHeader.sample_bit header) "sample_bit";;
  hex kPspDropBitwidth (PspHeader.drop_bit header) "drop_bit";;
  hex kPspVersionBitwidth (PspHeader.version header) "version";;
  hex kPspVirtualizationCookieBitwidth (PspHeader.virtualization_cookie_present header)
    "virtualization_cookie_present";;
  hex kPspSecurityParametersIndexBitwidth (PspHeader.security_parameters_index header) "security_parameters_index";;
  hex kPspInitializationVectorBitwidth (PspHeader.initialization_vector header) "initialization_vector";;
  reserved0_invalid ← hex kPspReserved0Bitwidth (PspHeader.reserved0 header) "reserved0";
  must_equal_if header_index (negb reserved0_invalid) (PspHeader.reserved0 header) $"0x0" "reserved0".
End headers.

(** * Validation of packets *)

(** The [switch] of [PacketInvalidReasons]. *)
Definition HeaderInvalidReasons (packet : Packet) (index : nat) (header : Header) : check unit :=
  match header with
  | ethernet_header header => EthernetHeaderInvalidReasons packet index header
  | ipv4_header header => Ipv4HeaderInvalidReasons packet index header
  | ipv6_header header => Ipv6HeaderInvalidReasons packet index header
  | hop_by_hop_options_header header => HopByHopOptionsHeaderInvalidReasons index header
  | udp_header header => UdpHeaderInvalidReasons packet index header
  | tcp_header header => TcpHeaderInvalidReasons index header
  | arp_header header => ArpHeaderInvalidReasons index header
  | icmp_header header => IcmpHeaderInvalidReasons packet index header
  | vlan_header header => VlanHeaderInvalidReasons index header
  | csig_header header => CsigHeaderInvalidReasons index header
  | gre_header header => GreHeaderInvalidReasons packet index header
  | sai_p4_bmv2_packet_in_header header => SaiP4BMv2PacketInHeaderInvalidReasons index header
  | ipfix_header header => IpfixHeaderInvalidReasons packet index header
  | psamp_header header => PsampHeaderInvalidReasons packet index header
  | ptp_header header => PtpHeaderInvalidReasons packet index header
  | psp_header header => PspHeaderInvalidReasons index header
  | header_not_set => push_back (at_field index "" missing)
  end.

(** The header expected after [header]. *)
Definition expected_after (header : Header) : HeaderCase :=
  match GetNextHeader header with Ok (Next next) => next | _ => HEADER_NOT_SET end.

(** The loop over the headers; a header that is not set leaves the expectation as it is. *)
Fixpoint headers_loop (packet : Packet) (index : nat) (expected_header_case : HeaderCase) (hs : list Header)
  : check HeaderCase :=
  match hs with
  | [] => check_ret expected_header_case
  | header :: hs =>
    HeaderInvalidReasons packet index header;;
    if bool_decide (header_case header = HEADER_NOT_SET)
    then headers_loop packet (S index) expected_header_case hs
    else
      push_if (bool_decide (expected_header_case = HEADER_NOT_SET) ||
               negb (bool_decide (header_case header = expected_header_case)))
        (at_field index "" (must_be (HeaderCaseName expected_header_case)));;
      headers_loop packet (S index) (expected_after header) hs
  end.

Definition first_case (packet : Packet) : HeaderCase :=
  match headers packet with [] => HEADER_NOT_SET | header :: _ => header_case header end.

(** [packet.ByteSize() == 0]: no field is set. *)
Definition packet_empty (packet : Packet) : bool :=
  bool_decide (headers packet = []) && bool_decide (payload packet = []) &&
  bool_decide (reason_not_fully_parsed packet = []) && (zlen (reasons_invalid packet) =? 0).

Definition packet_checks (packet : Packet) : check unit :=
  if packet_empty packet then push_back (PacketProblem $"empty") else
  check_status (PacketSizeInBits packet 0) (push_back (PacketProblem $"size"))
    (λ bitsize, push_if (negb (Z.rem bitsize 8 =? 0)) (PacketProblem $"bits"));;
  expected_header_case ← headers_loop packet 0 (first_case packet) (headers packet);
  push_if (negb (bool_decide (expected_header_case = HEADER_NOT_SET))) (PacketProblem $"header missing").

Definition PacketInvalidReasons (packet : Packet) : result (list Reason) :=
  c ← (packet_checks packet : result (unit * list Reason)); Ok (snd c).

Definition ValidatePacket (packet : Packet) : result unit :=
  invalid ← PacketInvalidReasons packet;
  match invalid with [] => Ok tt | _ => Err kInvalidArgument end.

Definition ParsePacket (input : str) (first_header : HeaderCase) : result Packet :=
  packet ← ParseHeaders input first_header;
  invalid ← PacketInvalidReasons packet;
  Ok (mkPacket (headers packet) (payload packet) (reason_not_fully_parsed packet) (reasons_invalid packet ++ invalid)).
End checks.

(** The validation of each header. *)
Create HintDb checks.
#[export] Hint Unfold EthernetHeaderInvalidReasons Ipv4HeaderInvalidReasons Ipv6HeaderInvalidReasons
  HopByHopOptionsHeaderInvalidReasons UdpHeaderInvalidReasons TcpHeaderInvalidReasons ArpHeaderInvalidReasons
  IcmpHeaderInvalidReasons VlanHeaderInvalidReasons CsigHeaderInvalidReasons GreHeaderInvalidReasons
  SaiP4BMv2PacketInHeaderInvalidReasons IpfixHeaderInvalidReasons PsampHeaderInvalidReasons
  PtpHeaderInvalidReasons PspHeaderInvalidReasons : checks.
