(* ===== verification/PacketUpdate.v ===== *)
(** p4_infra/packetlib/packetlib.cc: computed fields, padding and serialization of packets. *)
From S2P Require Import Prelude Bitset ByteString Abseil HexString NetAddr NetAddrText BitString Packet PacketChecks.

(** * Fields from integers *)

(** [LOG(DFATAL)] when the input has more bits than the field, which cuts it off. *)
Definition ValidateAndConvertToHexString (bit_limit : Z) (input : Z) : str :=
  BitsetToHexString bit_limit (wrapU bit_limit input).

Definition EtherType (ether_type : Z) : str := ValidateAndConvertToHexString kEthernetEthertypeBitwidth ether_type.
Definition VlanId (vlan_id : Z) : str := ValidateAndConvertToHexString kVlanVlanIdentifierBitwidth vlan_id.
Definition IpVersion (version : Z) : str := ValidateAndConvertToHexString kIpVersionBitwidth version.
Definition IpIhl (ihl : Z) : str := ValidateAndConvertToHexString kIpIhlBitwidth ihl.
Definition IpDscp (dscp : Z) : str := ValidateAndConvertToHexString kIpDscpBitwidth dscp.
Definition IpEcn (ecn : Z) : str := ValidateAndConvertToHexString kIpEcnBitwidth ecn.
Definition IpTotalLength (total_length : Z) : str := ValidateAndConvertToHexString kIpTotalLengthBitwidth total_length.
Definition IpIdentification (identification : Z) : str := ValidateAndConvertToHexString kIpIdentificationBitwidth identification.
Definition IpFlags (flag : Z) : str := ValidateAndConvertToHexString kIpFlagsBitwidth flag.
Definition IpFragmentOffset (fragment_offset : Z) : str := ValidateAndConvertToHexString kIpFragmentOffsetBitwidth fragment_offset.
Definition IpTtl (ttl : Z) : str := ValidateAndConvertToHexString kIpTtlBitwidth ttl.
Definition IpProtocol (protocol : Z) : str := ValidateAndConvertToHexString kIpProtocolBitwidth protocol.
Definition IpChecksum (checksum : Z) : str := ValidateAndConvertToHexString kIpChecksumBitwidth checksum.
Definition IpFlowLabel (flow_label : Z) : str := ValidateAndConvertToHexString kIpFlowLabelBitwidth flow_label.
Definition IpPayloadLength (payload_length : Z) : str := ValidateAndConvertToHexString kIpPayloadLengthBitwidth payload_length.
Definition IpNextHeader (next_header : Z) : str := ValidateAndConvertToHexString kIpNextHeaderBitwidth next_header.
Definition IpHopLimit (hop_limit : Z) : str := ValidateAndConvertToHexString kIpHopLimitBitwidth hop_limit.
Definition UdpPort (udp_port : Z) : str := ValidateAndConvertToHexString kUdpPortBitwidth udp_port.
Definition UdpChecksum (checksum : Z) : str := ValidateAndConvertToHexString kUdpChecksumBitwidth checksum.
Definition UdpLength (udp_length : Z) : str := ValidateAndConvertToHexString kUdpLengthBitwidth udp_length.
Definition TcpPort (tcp_port : Z) : str := ValidateAndConvertToHexString kTcpPortBitwidth tcp_port.
Definition TcpSequenceNumber (sequence_number : Z) : str := ValidateAndConvertToHexString kTcpSequenceNumberBitwidth sequence_number.
Definition TcpAcknowledgementNumber (ackowledgement_number : Z) : str := ValidateAndConvertToHexString kTcpAcknowledgementNumberBitwidth ackowledgement_number.
Definition TcpDataOffset (data_offset : Z) : str := ValidateAndConvertToHexString kTcpDataOffsetBitwidth data_offset.
Definition TcpRestOfHeader (rest_of_header : Z) : str := ValidateAndConvertToHexString kTcpRestOfHeaderBitwidth rest_of_header.
Definition ArpType (type : Z) : str := ValidateAndConvertToHexString kArpTypeBitwidth type.
Definition ArpLength (length : Z) : str := ValidateAndConvertToHexString kArpLengthBitwidth length.
Definition ArpOperation (operation : Z) : str := ValidateAndConvertToHexString kArpOperationBitwidth operation.
Definition IcmpType (type : Z) : str := ValidateAndConvertToHexString kIcmpTypeBitwidth type.
Definition IcmpCode (code : Z) : str := ValidateAndConvertToHexString kIcmpCodeBitwidth code.
Definition IcmpChecksum (checksum : Z) : str := ValidateAndConvertToHexString kIcmpChecksumBitwidth checksum.
Definition IcmpRestOfHeader (rest_of_header : Z) : str := ValidateAndConvertToHexString kIcmpRestOfHeaderBitwidth rest_of_header.
Definition GreChecksumPresent (checksum_present : Z) : str := ValidateAndConvertToHexString kGreChecksumPresentBitwidth checksum_present.
Definition GreReserved0 (reserved0 : Z) : str := ValidateAndConvertToHexString kGreReserved0Bitwidth reserved0.
Definition GreVersion (version : Z) : str := ValidateAndConvertToHexString kGreVersionBitwidth version.
Definition GreProtocolType (protocol_type : Z) : str := ValidateAndConvertToHexString kGreProtocolTypeBitwidth protocol_type.
Definition GreChecksum (checksum : Z) : str := ValidateAndConvertToHexString kGreChecksumBitwidth checksum.
Definition GreReserved1 (reserved1 : Z) : str := ValidateAndConvertToHexString kGreReserved1Bitwidth reserved1.
Definition IpfixVersion (version : Z) : str := ValidateAndConvertToHexString kIpfixVersionBitwidth version.
Definition IpfixLength (length : Z) : str := ValidateAndConvertToHexString kIpfixLengthBitwidth length.
Definition IpfixExportTime (exported_time : Z) : str := ValidateAndConvertToHexString kIpfixExportTimeBitwidth exported_time.
Definition IpfixSequenceNumber (sequence_number : Z) : str := ValidateAndConvertToHexString kIpfixSequenceNumberBitwidth sequence_number.
Definition IpfixObservationDomainId (observation_domain_id : Z) : str := ValidateAndConvertToHexString kIpfixObservationDomainIdBitwidth observation_domain_id.
Definition PsampTemplateId (template_id : Z) : str := ValidateAndConvertToHexString kPsampTemplateIdBitwidth template_id.
Definition PsampObservationTime (observation_time : Z) : str := ValidateAndConvertToHexString kPsampObservationTimeBitwidth observation_time.
Definition PsampFlowset (flowset : Z) : str := ValidateAndConvertToHexString kPsampFlowsetBitwidth flowset.
Definition PsampNextHopIndex (next_hop_index : Z) : str := ValidateAndConvertToHexString kPsampNextHopIndexBitwidth next_hop_index.
Definition PsampEpoch (epoch : Z) : str := ValidateAndConvertToHexString kPsampEpochBitwidth epoch.
Definition PsampIngressPort (ingress_port : Z) : str := ValidateAndConvertToHexString kPsampIngressPortBitwidth ingress_port.
Definition PsampEgressPort (egress_port : Z) : str := ValidateAndConvertToHexString kPsampEgressPortBitwidth egress_port.
Definition PsampUserMetaField (user_meta_field : Z) : str := ValidateAndConvertToHexString kPsampUserMetaFieldBitwidth user_meta_field.
Definition PsampDlbId (dlb_id : Z) : str := ValidateAndConvertToHexString kPsampDlbIdBitwidth dlb_id.

Section updates.
Context `{AbslStrings} `{!Ipv6.Inet}.

(** * Computed fields *)

Section update.
Variable overwrite : bool.

(** [field.empty() || overwrite]. *)
Definition outdated (field : str) : bool := bool_decide (field = []) || overwrite.

(** The computed fields of one header of [packet], the one at [header_index]: the new header and
    whether there are changes.  Later fields are computed with the earlier ones in place, by means of
    [with_header]. *)
Section header.
Variable packet : Packet.
Variable header_index : nat.

Definition with_header (header : Header) : Packet := set_header packet header_index header.
Local Abbreviation index := (Z.of_nat header_index).

(** A field that is set to the size, written with [num_bits] bits, of a packet from a header on. *)
Definition size_field (num_bits : Z) (packet : Packet) (start_header_index : Z) : result str :=
  size ← PacketSizeInBytes packet start_header_index; Ok (BitsetToHexString num_bits (wrapU num_bits size)).
Definition checksum_field (num_bits : Z) (c : result Z) : result str :=
  checksum ← c; Ok (BitsetToHexString num_bits (wrapU num_bits checksum)).

(** [if (h.field().empty() || overwrite) { h.set_field(value); changes = true; }] *)
Definition update {T} (field : T → str) (set_field : str → T → T) (value : T → result str) (s : T * bool)
  : result (T * bool) :=
  if outdated (field (fst s)) then v ← value (fst s); Ok (set_field v (fst s), true) else Ok s.
Definition constant {T} (value : str) (_ : T) : result str := Ok value.

Definition update_ethernet_header (header : EthernetHeader.t) : result (EthernetHeader.t * bool) :=
  let field := EthernetHeader.ethertype header in
  ethertype ← (if bool_decide (field = []) then Ok 0 else HexStringToInt field);
  if outdated field && (ethertype <=? 1500) && (index =? zlen (headers packet) - 1) then
    match PacketSizeInBytes packet (index + 1) with
    | Ok size => if 1500 <? size then Err kInvalidArgument else Ok (EthernetHeader.set_ethertype (EtherType size) header, true)
    | Err _ => Err kInvalidArgument
    | Die => Die
    end
  else Ok (header, false).

Definition computed_ihl (header : Ipv4Header.t) : result str :=
  let options := Ipv4Header.uninterpreted_options header in
  if bool_decide (options = []) then Ok $"0x5"
  else match ConsumePrefix options $"0x" with
  | Some options =>
    if zlen options * 4 mod 32 =? 0
    then Ok (BitsetToHexString kIpIhlBitwidth (wrapU kIpIhlBitwidth (5 + zlen options * 4 / 32)))
    else Err kInvalidArgument
  | None => Err kInvalidArgument
  end.

Definition update_ipv4_header (header : Ipv4Header.t) : result (Ipv4Header.t * bool) :=
  s ← update Ipv4Header.version Ipv4Header.set_version (constant $"0x4") (header, false);
  s ← update Ipv4Header.ihl Ipv4Header.set_ihl computed_ihl s;
  s ← update Ipv4Header.total_length Ipv4Header.set_total_length
        (λ header, size_field kIpTotalLengthBitwidth (with_header (ipv4_header header)) index) s;
  update Ipv4Header.checksum Ipv4Header.set_checksum
    (λ header, checksum_field kIpChecksumBitwidth (Ipv4HeaderChecksum header)) s.

Definition update_ipv6_header (header : Ipv6Header.t) : result (Ipv6Header.t * bool) :=
  s ← update Ipv6Header.version Ipv6Header.set_version (constant $"0x6") (header, false);
  update Ipv6Header.payload_length Ipv6Header.set_payload_length
    (λ header, size_field kIpTotalLengthBitwidth (with_header (ipv6_header header)) (index + 1)) s.

(** The padding that fills up the options: the number of missing bytes is computed in [size_t] and cut
    to an [int]. *)
Definition num_missing_padding (options_and_padding : str) : Z :=
  wrapS 32 (wrapU 64 (kHopByHopOptionsAndPaddingBitwidth / 4 - (zlen options_and_padding - 2)) / 2).
Definition padded_options (options_and_padding : str) : str :=
  let num_missing_padding := num_missing_padding options_and_padding in
  if 2 <=? num_missing_padding then
    options_and_padding ++ $"010" ++ decimal (num_missing_padding - 2) ++
      repeat "0"%char (2 * Z.to_nat (num_missing_padding - 2))
  else if num_missing_padding =? 1 then options_and_padding ++ $"00"
  else options_and_padding.

Definition update_hop_by_hop_options_header (header : HopByHopOptionsHeader.t)
  : result (HopByHopOptionsHeader.t * bool) :=
  s ← update HopByHopOptionsHeader.header_extension_length HopByHopOptionsHeader.set_header_extension_length
        (constant $"0x00") (header, false);
  let header := fst s in
  let options_and_padding := HopByHopOptionsHeader.options_and_padding header in
  if bool_decide (options_and_padding = [])
  then Ok (HopByHopOptionsHeader.set_options_and_padding $"0x010400000000" header, true)
  else if overwrite
  then Ok (HopByHopOptionsHeader.set_options_and_padding (padded_options options_and_padding) header, true)
  else Ok s.

(** A checksum that may be anything is left as it is, or set to zero when it is missing. *)
Definition update_udp_header (header : UdpHeader.t) : result (UdpHeader.t * bool) :=
  s ← update UdpHeader.length UdpHeader.set_length
        (λ header, size_field kUdpLengthBitwidth (with_header (udp_header header)) index) (header, false);
  let header := fst s in
  if outdated (UdpHeader.checksum header) then
    checksum ← UdpHeaderChecksum (with_header (udp_header header)) index;
    match checksum with
    | Some checksum =>
      Ok (UdpHeader.set_checksum (BitsetToHexString kUdpChecksumBitwidth (wrapU kUdpChecksumBitwidth checksum)) header,
        true)
    | None =>
      if bool_decide (UdpHeader.checksum header = [])
      then Ok (UdpHeader.set_checksum (UdpChecksum 0) header, true) else Ok s
    end
  else Ok s.

Definition update_arp_header (header : ArpHeader.t) : result (ArpHeader.t * bool) :=
  s ← update ArpHeader.hardware_type ArpHeader.set_hardware_type (constant $"0x0001") (header, false);
  s ← update ArpHeader.protocol_type ArpHeader.set_protocol_type (constant $"0x0800") s;
  s ← update ArpHeader.hardware_length ArpHeader.set_hardware_length (constant $"0x06") s;
  update ArpHeader.protocol_length ArpHeader.set_protocol_length (constant $"0x04") s.

Definition update_icmp_header (header : IcmpHeader.t) : result (IcmpHeader.t * bool) :=
  update IcmpHeader.checksum IcmpHeader.set_checksum
    (λ header, checksum_field kIcmpChecksumBitwidth (IcmpHeaderChecksum (with_header (icmp_header header)) index))
    (header, false).

Definition computed_data_offset (header : TcpHeader.t) : result str :=
  let packet := with_header (tcp_header header) in
  size ← PacketSizeInBits packet index;
  payload_size ← PacketSizeInBits packet (index + 1);
  let data_offset_in_bits := size - payload_size in
  if negb (Z.rem data_offset_in_bits 32 =? 0) then Err kInvalidArgument else
  let data_offset := Z.quot data_offset_in_bits 32 in
  if (data_offset <? 5) || (15 <? data_offset) then Err kInvalidArgument
  else Ok (BitsetToHexString kTcpDataOffsetBitwidth (wrapU kTcpDataOffsetBitwidth data_offset)).

Definition update_tcp_header (header : TcpHeader.t) : result (TcpHeader.t * bool) :=
  update TcpHeader.data_offset TcpHeader.set_data_offset computed_data_offset (header, false).

Definition update_gre_header (header : GreHeader.t) : result (GreHeader.t * bool) :=
  if bool_decide (GreHeader.checksum_present header = $"0x1") then
    s ← update GreHeader.checksum GreHeader.set_checksum
          (λ header, checksum_field kGreChecksumBitwidth (GreHeaderChecksum (with_header (gre_header header)) index))
          (header, false);
    update GreHeader.reserved1 GreHeader.set_reserved1 (constant $"0x0000") s
  else Ok (header, false).

Definition update_ipfix_header (header : IpfixHeader.t) : result (IpfixHeader.t * bool) :=
  update IpfixHeader.length IpfixHeader.set_length
    (λ header, size_field kIpfixLengthBitwidth (with_header (ipfix_header header)) index) (header, false).

Definition update_psamp_header (header : PsampHeader.t) : result (PsampHeader.t * bool) :=
  s ← update PsampHeader.length PsampHeader.set_length
        (λ header, size_field kPsampLengthBitwidth (with_header (psamp_header header)) index) (header, false);
  s ← update PsampHeader.variable_length PsampHeader.set_variable_length (constant $"0xff") s;
  update PsampHeader.packet_sampled_length PsampHeader.set_packet_sampled_length
    (λ header, size_field kPsampPacketSampledLengthBitwidth (with_header (psamp_header header)) (index + 1)) s.

Definition update_ptp_header (header : PtpHeader.t) : result (PtpHeader.t * bool) :=
  update PtpHeader.message_length PtpHeader.set_message_length
    (λ header, size_field kPtpMessageLengthBitwidth (with_header (ptp_header header)) index) (header, false).

(** A header of one kind updated. *)
Definition updated {T} (kind : T → Header) (c : result (T * bool)) : result (Header * bool) :=
  s ← c; Ok (kind (fst s), snd s).

Definition update_header (header : Header) : result (Header * bool) :=
  match header with
  | ethernet_header header => updated ethernet_header (update_ethernet_header header)
  | ipv4_header header => updated ipv4_header (update_ipv4_header header)
  | ipv6_header header => updated ipv6_header (update_ipv6_header header)
  | hop_by_hop_options_header header => updated hop_by_hop_options_header (update_hop_by_hop_options_header header)
  | udp_header header => updated udp_header (update_udp_header header)
  | arp_header header => updated arp_header (update_arp_header header)
  | icmp_header header => updated icmp_header (update_icmp_header header)
  | tcp_header header => updated tcp_header (update_tcp_header header)
  | gre_header header => updated gre_header (update_gre_header header)
  | ipfix_header header => updated ipfix_header (update_ipfix_header header)
  | psamp_header header => updated psamp_header (update_psamp_header header)
  | ptp_header header => updated ptp_header (update_ptp_header header)
  | sai_p4_bmv2_packet_in_header _ | vlan_header _ | csig_header _ | psp_header _ => Ok (header, false)
  | header_not_set => Err kInvalidArgument
  end.
End header.

(** The loop goes from the last header to the first.  When it fails the packet, which the code updates
    in place, is given up. *)
Definition update_step (s : Packet * bool) (header_index : nat) : result (Packet * bool) :=
  let '(packet, changes) := s in
  match headers packet !! header_index with
  | Some header =>
    u ← update_header packet header_index header;
    Ok (set_header packet header_index (fst u), changes || snd u)
  | None => Die
  end.

Definition UpdateComputedFields (packet : Packet) : result (Packet * bool) :=
  fold_result update_step (rev (seq 0 (length (headers packet)))) (packet, false).
End update.

Definition UpdateMissingComputedFields : Packet → result (Packet * bool) := UpdateComputedFields false.
Definition UpdateAllComputedFields : Packet → result (Packet * bool) := UpdateComputedFields true.

(** * Padding *)

Definition set_payload (packet : Packet) (bytes : str) : Packet :=
  mkPacket (headers packet) bytes (reason_not_fully_parsed packet) (reasons_invalid packet).

(** [std::string::resize]. *)
Definition resize (n : Z) (s : str) : str := take (Z.to_nat n) s ++ repeat zero (Z.to_nat n - length s).

(** [hs] are the headers from [header_index] on. *)
Fixpoint pad_from (packet : Packet) (header_index : Z) (hs : list Header) : result (Packet * bool) :=
  match hs with
  | [] => Ok (packet, false)
  | ethernet_header _ :: _ =>
    match PacketSizeInBytes packet (header_index + 1) with
    | Ok after_eth_size =>
      if kMinNumBytesInEthernetPayload <=? after_eth_size then Ok (packet, false)
      else
        let target_payload_size :=
          wrapS 32 (kMinNumBytesInEthernetPayload - (after_eth_size - zlen (payload packet))) in
        Ok (set_payload packet (resize target_payload_size (payload packet)), true)
    | Err _ => Err kInvalidArgument
    | Die => Die
    end
  | header_not_set :: _ => Ok (packet, false)
  | _ :: hs => pad_from packet (header_index + 1) hs
  end.

Definition PadPacketToMinimumSizeFromHeaderIndex (packet : Packet) (header_index : nat) : result (Packet * bool) :=
  pad_from packet (Z.of_nat header_index) (drop header_index (headers packet)).
Definition PadPacketToMinimumSize (packet : Packet) : result (Packet * bool) :=
  PadPacketToMinimumSizeFromHeaderIndex packet 0.

Definition PadPacket (num_bytes : Z) (packet : Packet) : result (Packet * bool) :=
  current_size ← PacketSizeInBytes packet 0;
  if num_bytes <=? current_size then Ok (packet, false)
  else
    let header_size := wrapS 32 (current_size - zlen (payload packet)) in
    let target_payload_size := wrapS 32 (num_bytes - header_size) in
    Ok (set_payload packet (resize target_payload_size (payload packet)), true).

(** * Serialization *)

Definition SerializePacket (packet : Packet) : result str :=
  p ← PadPacketToMinimumSize packet;
  u ← UpdateMissingComputedFields (fst p);
  ValidatePacket (fst u);;
  RawSerializePacket (fst u).

(** The bytes after the size that the IP header gives, [actual] being the size there is. *)
Definition trailer_of (raw_packet : str) (actual according_to_ip_header : Z) : result str :=
  let trailer_size := actual - according_to_ip_header in
  if trailer_size <? 0 then Ok []
  else if zlen raw_packet <? trailer_size then Err kInternal
  else Ok (drop (Z.to_nat (zlen raw_packet - trailer_size)) raw_packet).

(** The index of the first header that is not a VLAN or CSIG header. *)
Fixpoint skip_tags (hs : list Header) (header_index : Z) : Z :=
  match hs with
  | (vlan_header _ | csig_header _) :: hs => skip_tags hs (header_index + 1)
  | _ => header_index
  end.

Definition GetEthernetTrailer (packet : Packet) : result str :=
  match headers packet with
  | ethernet_header _ :: hs =>
    let header_index := skip_tags hs 1 in
    match headers packet !! Z.to_nat header_index with
    | None => Err kInvalidArgument
    | Some header =>
      raw_packet ← RawSerializePacket packet;
      match header with
      | ipv4_header header =>
        according_to_ip_header ← HexStringToInt (Ipv4Header.total_length header);
        actual ← PacketSizeInBytes packet header_index;
        trailer_of raw_packet actual according_to_ip_header
      | ipv6_header header =>
        according_to_ip_header ← HexStringToInt (Ipv6Header.payload_length header);
        actual ← PacketSizeInBytes packet (header_index + 1);
        trailer_of raw_packet actual according_to_ip_header
      | arp_header _ => Ok raw_packet
      | _ => Err kInvalidArgument
      end
    end
  | _ => Err kInvalidArgument
  end.
End updates.

(** The computed fields of each header. *)
Create HintDb updates.
#[export] Hint Unfold update_ethernet_header update_ipv4_header update_ipv6_header
  update_hop_by_hop_options_header update_udp_header update_arp_header update_icmp_header update_tcp_header
  update_gre_header update_ipfix_header update_psamp_header update_ptp_header updated : updates.
