(* ===== verification/PacketSize.v ===== *)
(** The size of a packet is the length of its serialization, and checksums are the ones' complement
    sums of RFC 1071. *)
From S2P Require Import Prelude Bitset ByteString Abseil HexString NetAddr NetAddrText BitString Packet PacketChecks.

(** * What serializers append *)

Section sizes.
Context `{AbslStringsLaws} `{!Ipv6.Inet}.

(** [c] is [Ok (output ++ bits)] for [n] bits that do not depend on [output]. *)
Lemma SerializeBits_appends n s output output' :
  0 ≤ n → SerializeBits n s output = Ok output' →
  ∃ bits, zlen bits = n ∧ output' = output ++ bits ∧ ∀ out, SerializeBits n s out = Ok (out ++ bits).
Proof.
  intros Hn. unfold SerializeBits. destruct (HexStringToBitset n s) as [b| |]; [|done..].
  intros [= <-]. exists (bits_of n b). split; [by apply bits_of_length|]. done.
Qed.

Lemma SerializeAddress_appends n OfString s output output' :
  0 ≤ n → SerializeAddress n OfString s output = Ok output' →
  ∃ bits, zlen bits = n ∧ output' = output ++ bits ∧ ∀ out, SerializeAddress n OfString s out = Ok (out ++ bits).
Proof.
  intros Hn. unfold SerializeAddress. destruct (OfString s) as [b| |]; [|done..].
  intros [= <-]. exists (bits_of n b). split; [by apply bits_of_length|]. done.
Qed.

Lemma AppendHexString_appends s output output' :
  AppendHexString s output = Ok output' →
  ∃ bytes, HexStringToByteString s = Ok bytes ∧ zlen (OfByteString bytes) = 8 * zlen bytes ∧
    output' = output ++ OfByteString bytes ∧ ∀ out, AppendHexString s out = Ok (out ++ OfByteString bytes).
Proof.
  unfold AppendHexString. destruct (HexStringToByteString s) as [bytes| |]; [|done..].
  intros [= <-]. exists bytes. rewrite OfByteString_length, AppendBytes_app.
  split_and!; [done..|]. intros out. by rewrite bind_Ok_l, AppendBytes_app.
Qed.

Lemma serialize_options_appends s output output' :
  serialize_options s output = Ok output' →
  ∃ bits, options_size s = Ok (zlen bits) ∧ output' = output ++ bits ∧
    ∀ out, serialize_options s out = Ok (out ++ bits).
Proof.
  unfold serialize_options, options_size. case_bool_decide.
  - intros [= <-]. exists []. rewrite app_nil_r. split_and!; [done..|]. intros out. by rewrite app_nil_r.
  - intros (bytes & Hb & Hl & -> & Hall)%AppendHexString_appends. exists (OfByteString bytes).
    by rewrite Hb, bind_Ok_l, Hl.
Qed.

(** The optional fields of GRE, when they are serialized, have two bytes each. *)
Definition gre_sized (header : Header) : Prop :=
  match header with
  | gre_header header =>
    GreHeader.checksum_present header = $"0x1" →
    (∀ bytes, HexStringToByteString (GreHeader.checksum header) = Ok bytes → zlen bytes = 2) ∧
    (∀ bytes, HexStringToByteString (GreHeader.reserved1 header) = Ok bytes → zlen bytes = 2)
  | _ => True
  end.

End sizes.

(** The first step of the serialization in [Hs]. *)
Ltac step Hs :=
  apply bind_Ok_iff in Hs; let out := fresh "out" in let Hx := fresh "Hx" in destruct Hs as (out & Hx & Hs);
  append Hx
with append Hx :=
  let Hl := fresh "Hl" in let Hall := fresh "Hall" in
  first
    [ apply SerializeBits_appends in Hx as (? & Hl & -> & Hall); [|done]
    | apply SerializeAddress_appends in Hx as (? & Hl & -> & Hall); [|done]
    | apply serialize_options_appends in Hx as (? & Hl & -> & Hall) ].

(** All the steps, the last one included; then the bits appended and their number. *)
Ltac steps Hs := repeat step Hs; try append Hs.
Ltac replay := unfold SerializeMacAddress, SerializeIpv4Address, SerializeIpv6Address;
  repeat (match goal with Hall : ∀ out, _ = Ok (out ++ _) |- _ => rewrite Hall end; rewrite ?bind_Ok_l).
Ltac sized := eexists; split; [rewrite <-?app_assoc; reflexivity|];
  split; [cbn [header_size]; autounfold with widths;
          repeat match goal with Hl : options_size _ = _ |- _ => rewrite Hl, bind_Ok_l; clear Hl end; rewrite ?zlen_app;
          repeat match goal with Hl : zlen ?l = _ |- _ => rewrite Hl; clear Hl end;
          autounfold with widths; f_equal; lia|];
  intros; cbn [SerializeHeader]; autounfold with headers; replay; by rewrite <-?app_assoc.

Section sized_headers.
Context `{AbslStringsLaws} `{!Ipv6.Inet}.

Definition sized_header (header : Header) : Prop :=
  ∀ output output', SerializeHeader header output = Ok output' →
  ∃ bits, output' = output ++ bits ∧ header_size header = Ok (zlen bits) ∧
    ∀ out, SerializeHeader header out = Ok (out ++ bits).

Ltac size_header := intros output output' Hs; cbn [SerializeHeader] in Hs; autounfold with headers in Hs; steps Hs; sized.

Lemma sized_ethernet h : sized_header (ethernet_header h).
Proof. size_header. Qed.
Lemma sized_vlan h : sized_header (vlan_header h).
Proof. size_header. Qed.
Lemma sized_csig h : sized_header (csig_header h).
Proof. size_header. Qed.
Lemma sized_arp h : sized_header (arp_header h).
Proof. size_header. Qed.
Lemma sized_ipv6 h : sized_header (ipv6_header h).
Proof. size_header. Qed.
Lemma sized_hop_by_hop_options h : sized_header (hop_by_hop_options_header h).
Proof. size_header. Qed.
Lemma sized_icmp h : sized_header (icmp_header h).
Proof. size_header. Qed.
Lemma sized_udp h : sized_header (udp_header h).
Proof. size_header. Qed.
Lemma sized_sai_p4_bmv2_packet_in h : sized_header (sai_p4_bmv2_packet_in_header h).
Proof. size_header. Qed.
Lemma sized_ipfix h : sized_header (ipfix_header h).
Proof. size_header. Qed.
Lemma sized_psamp h : sized_header (psamp_header h).
Proof. size_header. Qed.
Lemma sized_ptp h : sized_header (ptp_header h).
Proof. size_header. Qed.
Lemma sized_psp h : sized_header (psp_header h).
Proof. size_header. Qed.
Lemma sized_ipv4 h : sized_header (ipv4_header h).
Proof. size_header. Qed.
Lemma sized_tcp h : sized_header (tcp_header h).
Proof. size_header. Qed.

Lemma sized_gre h : gre_sized (gre_header h) → sized_header (gre_header h).
Proof.
  intros Hgre output output' Hs. cbn [SerializeHeader] in Hs. autounfold with headers in Hs.
  do 4 step Hs. cbn [gre_sized] in Hgre. case_bool_decide as Hp.
  - destruct (Hgre Hp) as [Hb1len Hb2len]. clear Hgre.
    apply bind_Ok_iff in Hs as (out & Hx & Hs).
    apply AppendHexString_appends in Hx as (b1 & Hb1 & Hbl1 & -> & Hoall1).
    apply AppendHexString_appends in Hs as (b2 & Hb2 & Hbl2 & -> & Hoall2).
    apply Hb1len in Hb1. apply Hb2len in Hb2. rewrite Hb1 in Hbl1. rewrite Hb2 in Hbl2.
    eexists. split; [rewrite <-?app_assoc; reflexivity|].
    cbn [header_size SerializeHeader]. autounfold with headers. rewrite bool_decide_eq_true_2 by done. split.
    + autounfold with widths in *. rewrite ?zlen_app. f_equal. lia.
    + intros out. replay. by rewrite <-?app_assoc.
  - injection Hs as <-. eexists. split; [rewrite <-?app_assoc; reflexivity|].
    cbn [header_size SerializeHeader]. autounfold with headers. rewrite bool_decide_eq_false_2 by done. split.
    + autounfold with widths in *. rewrite ?zlen_app. f_equal. lia.
    + intros out. replay. by rewrite <-?app_assoc.
Qed.

Lemma serialized_header_size header : gre_sized header → sized_header header.
Proof.
  intros Hgre. destruct header; auto using sized_ethernet, sized_vlan, sized_csig, sized_arp, sized_ipv6,
    sized_hop_by_hop_options, sized_icmp, sized_udp, sized_sai_p4_bmv2_packet_in, sized_ipfix, sized_psamp,
    sized_ptp, sized_psp, sized_ipv4, sized_tcp, sized_gre.
  by intros output output' Hs.
Qed.

(** * Packets *)

Lemma wrapS32_small z : 0 ≤ z < 2 ^ 31 → wrapS 32 z = z.
Proof. intros Hz. apply wrapS_small; lia. Qed.

Lemma serialize_headers_size hs output output' size0 :
  Forall gre_sized hs → serialize_headers hs output = Ok output' → 0 ≤ size0 →
  ∃ bits, output' = output ++ bits ∧ (∀ out, serialize_headers hs out = Ok (out ++ bits)) ∧
    (size0 + zlen bits < 2 ^ 31 →
     fold_result (λ size header, bits ← header_size header; Ok (wrapS 32 (size + bits))) hs size0 =
       Ok (size0 + zlen bits)).
Proof.
  intros Hgre. revert output size0. unfold serialize_headers.
  induction Hgre as [|h hs Hh _ IH]; intros output size0 Hs Hsize0; cbn [fold_result] in *.
  - injection Hs as <-. exists []. rewrite app_nil_r, zlen_nil, Z.add_0_r. split_and!; [done| |done].
    intros out. by rewrite app_nil_r.
  - apply bind_Ok_iff in Hs as (out1 & Hx & Hs).
    destruct (serialized_header_size h Hh _ _ Hx) as (bits & -> & Hsize & Hall).
    pose proof (zlen_nonneg bits).
    destruct (IH _ (size0 + zlen bits) Hs ltac:(lia)) as (bits' & -> & Hall' & Hfold).
    pose proof (zlen_nonneg bits').
    exists (bits ++ bits'). rewrite app_assoc, zlen_app. split_and!; [done| |].
    + intros out. rewrite Hall, bind_Ok_l, Hall', app_assoc. done.
    + intros Hlt. rewrite Hsize, !bind_Ok_l, wrapS32_small, Hfold by lia. f_equal. lia.
Qed.

Lemma RawSerializeFrom_size packet i output output' :
  Forall gre_sized (headers packet) → RawSerializeFrom packet i output = Ok output' →
  ∃ bits, output' = output ++ bits ∧ (∀ out, RawSerializeFrom packet i out = Ok (out ++ bits)) ∧
    (zlen bits < 2 ^ 31 → PacketSizeInBits packet i = Ok (zlen bits)).
Proof.
  intros Hgre. unfold RawSerializeFrom, PacketSizeInBits. destruct (_ || _); [done|].
  intros (out & Hs & [= <-])%bind_Ok_iff.
  destruct (serialize_headers_size _ _ _ 0 (Forall_drop _ _ _ Hgre) Hs) as (bits & -> & Hall & Hfold); [done|].
  exists (bits ++ OfByteString (payload packet)).
  pose proof (zlen_nonneg bits). pose proof (zlen_nonneg (payload packet)).
  rewrite AppendBytes_app, app_assoc, zlen_app, OfByteString_length. split_and!; [done| |].
  - intros out. by rewrite Hall, bind_Ok_l, AppendBytes_app, app_assoc.
  - intros Hlt. rewrite Hfold, bind_Ok_l by lia. by rewrite wrapS32_small by lia.
Qed.

Lemma ToByteString_size bits bytes : ToByteString bits = Ok bytes → size bits = 8 * zlen bytes.
Proof.
  unfold ToByteString. destruct (Z.eqb_spec (size bits mod 8) 0) as [Hmod|]; [|done]. intros [= <-].
  rewrite <-OfByteString_length, OfByteString_bytes_loop by done. done.
Qed.

Lemma raw_size_in_bytes packet start_header_index bits bytes :
  Forall gre_sized (headers packet) → RawSerializeFrom packet start_header_index [] = Ok bits →
  ToByteString bits = Ok bytes → 8 * zlen bytes < 2 ^ 31 → PacketSizeInBytes packet start_header_index = Ok (zlen bytes).
Proof.
  intros Hgre Hs Hb Hlt. destruct (RawSerializeFrom_size _ _ _ _ Hgre Hs) as (bits' & Hbits & _ & Hsize).
  cbn [app] in Hbits. rewrite Hbits in *. apply ToByteString_size in Hb as Hl. unfold size in Hl.
  unfold PacketSizeInBytes. rewrite Hsize, bind_Ok_l, Hl by lia. pose proof (zlen_nonneg bytes).
  rewrite Z.mul_comm, Z.rem_mul, Z.quot_mul by lia. done.
Qed.

(** [PacketSizeInBits] computes, without serializing, the length of the serialization from a
    header on: whenever that serialization exists and has less than 2^31 bits (the size is an [int]),
    it has exactly the number of bits computed, and [PacketSizeInBytes] gives its bytes when they are
    whole.  GRE headers with optional fields must hold two bytes in each, as valid packets do. *)
Theorem packet_size_is_serialized_size (packet : Packet) (start_header_index : Z) (bits : BitString) :
  Forall gre_sized (headers packet) → RawSerializeFrom packet start_header_index [] = Ok bits → size bits < 2 ^ 31 →
  PacketSizeInBits packet start_header_index = Ok (size bits) ∧
  (∀ bytes, ToByteString bits = Ok bytes → PacketSizeInBytes packet start_header_index = Ok (zlen bytes)).
Proof.
  intros Hgre Hs Hlt. destruct (RawSerializeFrom_size _ _ _ _ Hgre Hs) as (bits' & Hbits & _ & Hsize).
  cbn [app] in Hbits. rewrite Hbits in *. unfold size in *. rewrite Hsize by done. split; [done|].
  intros bytes Hb. apply ToByteString_size in Hb as Hl. unfold size in Hl.
  eapply raw_size_in_bytes; [done|done|done|lia].
Qed.

End sized_headers.

(** A UDP packet without its computed fields, and with them. *)
Definition example_udp_packet (version ihl total_length ip_checksum length udp_checksum : str) : Packet :=
  mkPacket [
    ethernet_header (EthernetHeader.mk $"00:11:22:33:44:55" $"66:77:88:99:aa:bb" $"0x0800");
    ipv4_header (Ipv4Header.mk version ihl $"0x00" $"0x0" total_length $"0x0000" $"0x2" $"0x0000" $"0x40" $"0x11"
      ip_checksum $"192.168.0.1" $"192.168.0.199" []);
    udp_header (UdpHeader.mk $"0x0400" $"0x0401" length udp_checksum)]
  $"the payload of the packet" [] [].
Definition unfinished_udp_packet : Packet := example_udp_packet [] [] [] [] [] [].
Definition finished_udp_packet : Packet := example_udp_packet $"0x4" $"0x5" $"0x0035" $"0xb89f" $"0x0021" $"0x8540".

Lemma packet_size_is_serialized_size_witness :
  ∃ bits, RawSerializeFrom finished_udp_packet 1 [] = Ok bits ∧
    PacketSizeInBits finished_udp_packet 1 = Ok (size bits) ∧ size bits = 424.
Proof.
  destruct (RawSerializeFrom finished_udp_packet 1 []) as [bits| |] eqn:Hs; [|vm_compute in Hs; discriminate..].
  exists bits. split; [reflexivity|]. assert (size bits = 424) as Hsize.
  { vm_compute in Hs. injection Hs as <-. vm_compute. reflexivity. }
  split; [|exact Hsize]. apply (packet_size_is_serialized_size finished_udp_packet 1 bits).
  - repeat constructor.
  - exact Hs.
  - rewrite Hsize. reflexivity.
Defined.
