(* ===== verification/Checksum.v ===== *)
(** The Internet checksum of packetlib: the code's sum of words with the carries added at the end is
    the sum with end-around carry of RFC 1071, and a header with its checksum in place sums to
    all ones. *)
From S2P Require Import Prelude Bitset ByteString Abseil HexString NetAddr NetAddrText BitString Packet PacketChecks PacketSize.

(** * RFC 1071 *)

(** The first [n] words of 16 bits. *)
Fixpoint words (n : nat) (data : BitString) : list Z :=
  match n with O => [] | S n => of_bits (take 16 data) :: words n (drop 16 data) end.

(** Addition with end-around carry. *)
Definition onec_add (a b : Z) : Z := (a + b) mod 2 ^ 16 + (a + b) / 2 ^ 16.

(** The checksum as RFC 1071 defines it: the complement of the ones' complement sum of the words. *)
Definition rfc1071_checksum (data : BitString) : Z :=
  let data := pad16 data in
  0xffff - fold_left onec_add (words (length data / 16) data) 0.

(** * Sums modulo 2^16 - 1 *)

(** [r] is the ones' complement value of [s]: zero only for zero. *)
Definition folds_to (s r : Z) : Prop := 0 ≤ r ≤ 65535 ∧ r mod 65535 = s mod 65535 ∧ (r = 0 ↔ s = 0).

Lemma folds_to_unique s r r' : folds_to s r → folds_to s r' → r = r'.
Proof. unfold folds_to. intros (? & ? & ?) (? & ? & ?). Z.div_mod_to_equations; lia. Qed.

Lemma folds_to_step s r : 0 ≤ s → folds_to (s mod 2 ^ 16 + s / 2 ^ 16) r → folds_to s r.
Proof.
  unfold folds_to. change (2 ^ 16) with 65536. intros Hs (? & Hm & Hz). split_and!; [lia..| |].
  - rewrite Hm. rewrite (Z.div_mod s 65536) at 3 by lia.
    replace (65536 * (s / 65536) + s mod 65536) with (s mod 65536 + s / 65536 + s / 65536 * 65535) by lia.
    by rewrite Z.mod_add by lia.
  - rewrite Hz. Z.div_mod_to_equations; lia.
Qed.

Lemma folds_to_add a b s r : 0 ≤ s → folds_to s a → 0 ≤ b → folds_to (a + b) r → folds_to (s + b) r.
Proof.
  unfold folds_to. intros Hs (? & Ha & Haz) Hb (? & Hr & Hz). split_and!; [lia..| |lia].
  rewrite Hr. rewrite (Z.add_mod a), Ha, <-Z.add_mod by lia. done.
Qed.

Lemma folds_to_small s : 0 ≤ s ≤ 65535 → folds_to s s.
Proof. by unfold folds_to. Qed.

Lemma onec_add_folds a b : 0 ≤ a ≤ 65535 → 0 ≤ b ≤ 65535 → folds_to (a + b) (onec_add a b).
Proof.
  intros Ha Hb. apply folds_to_step; [lia|]. apply folds_to_small. unfold onec_add. change (2 ^ 16) with 65536.
  Z.div_mod_to_equations; lia.
Qed.

Lemma carry_loop_folds s : 0 ≤ s < 2 ^ 31 → ∃ r, carry_loop 4 s = Ok r ∧ folds_to s r.
Proof.
  assert (∀ fuel s, 0 ≤ s →
    (0 ≤ s < 2 ^ 16 ∨ ∃ r, carry_loop fuel (s mod 2 ^ 16 + s / 2 ^ 16) = Ok r ∧ folds_to (s mod 2 ^ 16 + s / 2 ^ 16) r) →
    ∃ r, carry_loop (S fuel) s = Ok r ∧ folds_to s r) as Hstep.
  { intros fuel t Ht Hor. cbn [carry_loop]. rewrite Z.shiftr_div_pow2 by lia. change 0xffff with (Z.ones 16).
    rewrite Z.land_ones by lia. destruct (Z.eqb_spec (t / 2 ^ 16) 0) as [Hq|Hq].
    - exists t. split; [done|]. apply folds_to_small. change (2 ^ 16) with 65536 in Hq. Z.div_mod_to_equations; lia.
    - destruct Hor as [Hlt|(r & Hr & Hf)]; [rewrite Z.div_small in Hq by done; done|].
      exists r. split; [done|]. by apply folds_to_step. }
  intros Hs.
  assert (∀ t, 0 ≤ t < 2 ^ 16 → ∃ r, carry_loop 1 t = Ok r ∧ folds_to t r) as H1.
  { intros t Ht. apply Hstep; [lia|]. by left. }
  assert (∀ t, 0 ≤ t < 2 ^ 16 + 2 ^ 15 → ∃ r, carry_loop 3 t = Ok r ∧ folds_to t r) as H2.
  { intros t Ht. apply Hstep; [lia|]. right. change (2 ^ 16) with 65536 in *.
    apply Hstep; [Z.div_mod_to_equations; lia|]. left. Z.div_mod_to_equations; lia. }
  apply Hstep; [lia|]. right. apply H2. change (2 ^ 16) with 65536. Z.div_mod_to_equations; lia.
Qed.

Lemma complement r : 0 ≤ r ≤ 65535 → Z.land (Z.lnot r) 0xffff = 65535 - r.
Proof.
  intros Hr. change 0xffff with (Z.ones 16). rewrite Z.land_ones by lia. unfold Z.lnot.
  change (Z.ones 16) with 65535. change (2 ^ 16) with 65536. Z.div_mod_to_equations; lia.
Qed.

(** * Words *)

Definition total (ws : list Z) : Z := fold_left Z.add ws 0.

Lemma total_acc ws s : fold_left Z.add ws s = s + total ws.
Proof.
  revert s. induction ws as [|w ws IH]; intros s; cbn [fold_left]; [unfold total; cbn; lia|].
  unfold total. cbn [fold_left]. rewrite (IH (s + w)), (IH (0 + w)). lia.
Qed.
Lemma total_cons w ws : total (w :: ws) = w + total ws.
Proof. unfold total at 1. cbn [fold_left]. rewrite total_acc. lia. Qed.
Lemma total_app ws vs : total (ws ++ vs) = total ws + total vs.
Proof. unfold total at 1. by rewrite fold_left_app, total_acc. Qed.

Lemma of_bits_word data : 0 ≤ of_bits (take 16 data) ≤ 65535.
Proof.
  pose proof (of_bits_ok (take 16 data)) as [Hlo Hhi].
  assert (2 ^ zlen (take 16 data) ≤ 2 ^ 16); [|lia].
  apply Z.pow_le_mono_r; [lia|]. unfold zlen. rewrite length_take. lia.
Qed.

Lemma words_bound n data : Forall (λ w, 0 ≤ w ≤ 65535) (words n data).
Proof. revert data. induction n; intros data; constructor; auto using of_bits_word. Qed.

Lemma words_length n data : length (words n data) = n.
Proof. revert data. induction n; intros data; cbn; auto. Qed.

Lemma total_bound ws : Forall (λ w, 0 ≤ w ≤ 65535) ws → 0 ≤ total ws ≤ 65535 * zlen ws.
Proof.
  induction 1 as [|w ws Hw _ IH]; [by cbn|]. rewrite total_cons, zlen_cons. lia.
Qed.

Lemma words_app n k data data' :
  length data = (16 * n)%nat → words (n + k) (data ++ data') = words n data ++ words k data'.
Proof.
  revert data. induction n as [|n IH]; intros data Hl.
  - by destruct data.
  - cbn [words Nat.add app]. rewrite take_app_le, drop_app_le, IH by (rewrite ?length_drop; lia). done.
Qed.

Lemma fold_onec ws s a :
  Forall (λ w, 0 ≤ w ≤ 65535) ws → 0 ≤ s → folds_to s a → folds_to (s + total ws) (fold_left onec_add ws a).
Proof.
  intros Hws. revert s a. induction Hws as [|w ws Hw _ IH]; intros s a Hs Ha; cbn [fold_left].
  - unfold total. cbn. by rewrite Z.add_0_r.
  - rewrite total_cons, Z.add_assoc. apply IH; [lia|]. apply (folds_to_add a); [done..|lia|].
    apply onec_add_folds; [apply Ha|done].
Qed.

Lemma sum_loop_total n data sum fuel :
  length data = (16 * n)%nat → 0 ≤ sum → sum + 65535 * Z.of_nat n < 2 ^ 31 → (n < fuel)%nat →
  sum_loop fuel data sum = Ok (sum + total (words n data)).
Proof.
  revert data sum fuel. induction n as [|n IH]; intros data sum fuel Hl Hs Hlt Hf; destruct fuel as [|fuel]; try lia;
    cbn [sum_loop words]; unfold size, zlen; rewrite Hl.
  - unfold total. cbn. by rewrite Z.add_0_r.
  - destruct (Z.eqb_spec (Z.of_nat (16 * S n)) 0); [lia|].
    assert (ConsumeBitset 16 data = Ok (of_bits (take 16 data), drop 16 data)) as ->.
    { unfold ConsumeBitset, Consume. rewrite (proj2 (Z.ltb_ge (size data) 16)); [done|].
      unfold size, zlen. lia. }
    pose proof (of_bits_word data) as Hw. rewrite wrapS32_small by lia.
    rewrite IH by (rewrite ?length_drop; lia). rewrite total_cons. f_equal. lia.
Qed.

Lemma pad16_length data : length (pad16 data) = (16 * ((length data + 15) / 16))%nat.
Proof.
  unfold pad16, size, zlen. rewrite length_app, repeat_length.
  rewrite <-(Nat2Z.id (16 * _)), <-(Nat2Z.id (length data + _)). f_equal.
  rewrite Nat2Z.inj_mul, Nat2Z.inj_div, !Nat2Z.inj_add. change (Z.of_nat 16) with 16. change (Z.of_nat 15) with 15.
  rewrite Z2Nat.id by (apply Z.mod_pos_bound; lia). Z.div_mod_to_equations; lia.
Qed.

(** The checksum of up to 2^15 words: the complement of what the sum of the words folds to. *)
Lemma checksum_folds data n :
  length (pad16 data) = (16 * n)%nat → Z.of_nat n ≤ 2 ^ 15 →
  ∃ r, OnesComplementChecksum data = Ok (65535 - r) ∧ folds_to (total (words n (pad16 data))) r.
Proof.
  intros Hl Hn. pose proof (words_bound n (pad16 data)) as Hw. apply total_bound in Hw.
  unfold zlen in Hw. rewrite words_length in Hw.
  unfold OnesComplementChecksum. rewrite (sum_loop_total n) by lia.
  rewrite bind_Ok_l, Z.add_0_l.
  destruct (carry_loop_folds (total (words n (pad16 data)))) as (r & -> & Hr); [lia|].
  exists r. rewrite bind_Ok_l, complement by apply Hr. done.
Qed.

(** C34.  The loops of [OnesComplementChecksum] add the words as plain integers and fold the carries in
    at the end, which the comment says looks wrong.  It is right: for up to 2^15 words (64 KiB; the
    sum is an [int]) the result is the checksum of RFC 1071, the complement of the sum with end-around
    carry; it always fits 16 bits. *)
Theorem checksum_is_rfc1071 (data : BitString) :
  size data ≤ 16 * 2 ^ 15 →
  OnesComplementChecksum data = Ok (rfc1071_checksum data) ∧ 0 ≤ rfc1071_checksum data ≤ 0xffff.
Proof.
  unfold size, zlen. intros Hsize. unfold rfc1071_checksum. cbv zeta.
  set (n := ((length data + 15) / 16)%nat). pose proof (pad16_length data) as Hl. fold n in Hl.
  assert (Z.of_nat n ≤ 2 ^ 15) as Hn.
  { unfold n. rewrite Nat2Z.inj_div, Nat2Z.inj_add. change (Z.of_nat 16) with 16. Z.div_mod_to_equations; lia. }
  rewrite Hl, (Nat.mul_comm 16), Nat.div_mul by done.
  destruct (checksum_folds data n Hl Hn) as (r & -> & Hr).
  pose proof (fold_onec (words n (pad16 data)) 0 0 (words_bound _ _) ltac:(lia) (folds_to_small 0 ltac:(lia))) as Hf.
  rewrite Z.add_0_l in Hf. rewrite <-(folds_to_unique _ _ _ Hr Hf). split; [done|]. destruct Hr. lia.
Qed.

Lemma checksum_is_rfc1071_witness :
  OnesComplementChecksum (OfByteString $"abcde") = Ok (rfc1071_checksum (OfByteString $"abcde")) ∧
  rfc1071_checksum (OfByteString $"abcde") = 0xd638.
Proof.
  split; [|vm_compute; reflexivity].
  apply (checksum_is_rfc1071 (OfByteString $"abcde")). vm_compute. discriminate.
Defined.

(** * The IPv4 header *)

Section ipv4_checksum.
Context `{AbslStringsLaws} `{!Ipv6.Inet}.

(** Replacing a zero word by the checksum makes the words sum to all ones. *)
Lemma checksum_verifies pre post c :
  zlen pre mod 16 = 0 → size (pre ++ bits_of 16 0 ++ post) ≤ 16 * 2 ^ 15 →
  OnesComplementChecksum (pre ++ bits_of 16 0 ++ post) = Ok c →
  OnesComplementChecksum (pre ++ bits_of 16 c ++ post) = Ok 0.
Proof.
  intros Hpre Hsize Hc.
  set (k := (length pre / 16)%nat).
  assert (length pre = (16 * k)%nat) as Hk.
  { unfold k, zlen in *. apply Nat2Z.inj. rewrite Nat2Z.inj_mul, Nat2Z.inj_div. change (Z.of_nat 16) with 16.
    Z.div_mod_to_equations; lia. }
  set (data := λ w, pre ++ bits_of 16 w ++ post).
  set (padding := repeat false (Z.to_nat (- size (data 0) mod 16))).
  assert (∀ w, length (bits_of 16 w) = 16%nat) as Hw by done.
  assert (∀ w, pad16 (data w) = pre ++ bits_of 16 w ++ post ++ padding) as Hpad.
  { intros w. unfold pad16, padding, data, size. rewrite !zlen_app, !bits_of_length by lia. by rewrite <-!app_assoc. }
  set (n := ((length (data 0%Z) + 15) / 16)%nat).
  assert (∀ w, length (pad16 (data w)) = (16 * n)%nat) as Hl.
  { intros w. rewrite pad16_length. unfold n, data. by rewrite !length_app, !Hw. }
  assert (Z.of_nat n ≤ 2 ^ 15) as Hn.
  { unfold n. fold (data 0) in Hsize. unfold size, zlen in Hsize.
    rewrite Nat2Z.inj_div, Nat2Z.inj_add. change (Z.of_nat 16) with 16. Z.div_mod_to_equations; lia. }
  assert (∀ w, 0 ≤ w ≤ 65535 →
    total (words n (pad16 (data w))) = total (words n (pad16 (data 0))) + w) as Htotal.
  { intros w Hwb. pose proof (Hl 0) as Hl0. rewrite Hpad, !length_app, Hw in Hl0.
    assert (n = k + (1 + (n - k - 1)))%nat as -> by lia. rewrite !Hpad, !(words_app k), !total_app by done.
    rewrite !(words_app 1), !total_app by apply Hw. cbn [words].
    rewrite !take_ge by (rewrite Hw; lia). unfold total at 2 5. cbn [fold_left].
    rewrite !of_bits_of by lia. rewrite !wrapU_small by lia. lia. }
  destruct (checksum_folds (data 0) n (Hl 0) Hn) as (r & Hr & Hf).
  change (data 0) with (pre ++ bits_of 16 0 ++ post) in Hr. rewrite Hc in Hr. injection Hr as ->.
  destruct (checksum_folds (data (65535 - r)) n (Hl _) Hn) as (r' & Hr' & Hf').
  change (data (65535 - r)) with (pre ++ bits_of 16 (65535 - r) ++ post) in Hr'.
  rewrite Hr'. f_equal.
  destruct Hf as (Hb & Hm & Hz). rewrite Htotal in Hf' by lia. destruct Hf' as (Hb' & Hm' & Hz').
  pose proof (total_bound _ (words_bound n (pad16 (data 0)))).
  assert (r' mod 65535 = 0); [|Z.div_mod_to_equations; lia].
  rewrite Hm'. rewrite Z.add_mod, <-Hm, <-Z.add_mod by lia. by replace (r + (65535 - r)) with (1 * 65535) by lia.
Qed.

(** The header around its checksum. *)
Lemma ipv4_header_checksum_field header s v output data :
  HexStringToBitset 16 s = Ok v → SerializeIpv4Header (Ipv4Header.set_checksum s header) output = Ok data →
  ∃ pre post, zlen pre = 80 ∧ data = output ++ pre ++ bits_of 16 v ++ post ∧
    ∀ s' v', HexStringToBitset 16 s' = Ok v' →
      SerializeIpv4Header (Ipv4Header.set_checksum s' header) output = Ok (output ++ pre ++ bits_of 16 v' ++ post).
Proof.
  intros Hv Hs. unfold SerializeIpv4Header in Hs. do 10 step Hs.
  unfold SerializeBits at 1 in Hs. cbn [Ipv4Header.checksum Ipv4Header.set_checksum] in Hs.
  change kIpChecksumBitwidth with 16 in Hs. rewrite Hv, bind_Ok_l in Hs.
  match type of Hs with context [AppendBits 16 v ?o] =>
    assert (∃ pre, o = output ++ pre ∧ zlen pre = 80) as (pre & Hpre & Hpl) end.
  { eexists. split; [rewrite <-!app_assoc; reflexivity|]. rewrite !zlen_app.
    repeat match goal with Hl : zlen ?l = _ |- _ => rewrite Hl; clear Hl end. done. }
  rewrite Hpre, bind_Ok_l in Hs. unfold AppendBits in Hs. steps Hs.
  exists pre. eexists. split; [done|]. split; [rewrite <-!app_assoc; reflexivity|].
  intros s' v' Hv'. unfold SerializeIpv4Header.
  cbn [Ipv4Header.version Ipv4Header.ihl Ipv4Header.dscp Ipv4Header.ecn Ipv4Header.total_length
    Ipv4Header.identification Ipv4Header.flags Ipv4Header.fragment_offset Ipv4Header.ttl Ipv4Header.protocol
    Ipv4Header.checksum Ipv4Header.ipv4_source Ipv4Header.ipv4_destination Ipv4Header.uninterpreted_options
    Ipv4Header.set_checksum] in *.
  assert (∀ out, SerializeBits kIpChecksumBitwidth s' out = Ok (out ++ bits_of 16 v')) as Hc.
  { intros out. unfold SerializeBits. change kIpChecksumBitwidth with 16. by rewrite Hv'. }
  replay. by rewrite Hpre, <-!app_assoc.
Qed.

Lemma OnesComplementChecksum_bound data c : OnesComplementChecksum data = Ok c → bs_ok 16 c.
Proof.
  unfold OnesComplementChecksum. intros (s & _ & (r & _ & [= <-])%bind_Ok_iff)%bind_Ok_iff.
  change 0xffff with (Z.ones 16). rewrite Z.land_ones by lia. apply Z.mod_pos_bound. lia.
Qed.

(** A header that carries the checksum computed for it verifies: [Ipv4HeaderChecksum] ignores the
    checksum that the header has, and with the computed one in its place the header still serializes
    and the ones' complement sum of its words is all ones, that is, their checksum is 0. *)
Theorem ipv4_checksum_verifies (header : Ipv4Header.t) (checksum : Z) :
  Ipv4HeaderChecksum header = Ok checksum →
  ∃ data, SerializeIpv4Header (Ipv4Header.set_checksum (BitsetToHexString kIpChecksumBitwidth checksum) header) []
      = Ok data ∧
    (size data ≤ 16 * 2 ^ 15 → OnesComplementChecksum data = Ok 0).
Proof.
  unfold Ipv4HeaderChecksum. intros (data0 & Hs & Hc)%bind_Ok_iff.
  assert (HexStringToBitset 16 $"0x0000" = Ok 0) as Hzero by exact (HexStringToBitset_printed 16 0 ltac:(lia) ltac:(done)).
  destruct (ipv4_header_checksum_field header $"0x0000" 0 [] data0 Hzero Hs) as (pre & post & Hl & Hd & Hall).
  pose proof (OnesComplementChecksum_bound _ _ Hc) as Hb.
  exists (pre ++ bits_of 16 checksum ++ post). split.
  - rewrite (Hall _ checksum); [done|]. by apply HexStringToBitset_printed.
  - intros Hsize. apply checksum_verifies; [by rewrite Hl| |by rewrite Hd in Hc].
    unfold size in *. rewrite !zlen_app, !bits_of_length in * by lia. done.
Qed.
End ipv4_checksum.

(** The header of the example of RFC 1071 and of many textbooks. *)
Definition example_ipv4_header : Ipv4Header.t :=
  Ipv4Header.mk $"0x4" $"0x5" $"0x00" $"0x0" $"0x0073" $"0x0000" $"0x2" $"0x0000" $"0x40" $"0x11" $"0x1234"
    $"192.168.0.1" $"192.168.0.199" [].

Lemma ipv4_checksum_verifies_witness :
  Ipv4HeaderChecksum example_ipv4_header = Ok 0xb861 ∧
  ∃ data, SerializeIpv4Header (Ipv4Header.set_checksum $"0xb861" example_ipv4_header) [] = Ok data ∧
    (size data ≤ 16 * 2 ^ 15 → OnesComplementChecksum data = Ok 0).
Proof.
  assert (Ipv4HeaderChecksum example_ipv4_header = Ok 0xb861) as Hc by (vm_compute; reflexivity).
  split; [exact Hc|]. exact (ipv4_checksum_verifies example_ipv4_header 0xb861 Hc).
Defined.
