(* ===== verification/PacketValid.v ===== *)
(** Valid packets: what a packet without reasons for being invalid guarantees, and what serialization
    does to it. *)
From S2P Require Import Prelude Bitset ByteString Abseil HexString NetAddr NetAddrText BitString Packet PacketRoundtrip PacketChecks PacketUpdate PacketSize.

(** * Checks that report nothing *)

Lemma quiet_bind {A B} (c : check A) (k : A → check B) b :
  (c ≫= k) = Ok (b, []) ↔ ∃ a, c = Ok (a, []) ∧ k a = Ok (b, []).
Proof.
  unfold mbind, check_bind. split.
  - destruct c as [[a o]| |]; [|done..]. destruct (k a) as [[b' o']| |] eqn:Hk; [|done..].
    intros [= -> Ho]. apply app_eq_nil in Ho as [-> ->]. eauto.
  - intros (a & -> & ->). done.
Qed.

Lemma quiet_push (b : bool) reason u : push_if b reason = Ok (u, []) → b = false.
Proof. by destruct b. Qed.

Section valid.
Context `{AbslStringsLaws} `{!Ipv6.Inet}.

Lemma quiet_hex i n s field b :
  HexStringInvalidReasons i n s field = Ok (b, []) → b = false ∧ s ≠ [] ∧ ∃ v, HexStringToBitset n s = Ok v.
Proof.
  unfold HexStringInvalidReasons. case_bool_decide; [done|].
  destruct (HexStringToBitset n s) as [v| |]; [|done..]. intros [= <-]. eauto.
Qed.

Lemma quiet_address i OfString s field u :
  AddressInvalidReasons i OfString s field = Ok (u, []) → ∃ v, OfString s = Ok v.
Proof.
  unfold AddressInvalidReasons. case_bool_decide; [done|]. intros Hq%quiet_push.
  by apply is_Ok_exists, negb_false_iff.
Qed.

Lemma quiet_ipv4_options i s b :
  Ipv4UninterpretedOptionsInvalidReasons i s = Ok (b, []) → b = false ∧ ∀ out, ∃ out', serialize_options s out = Ok out'.
Proof.
  unfold Ipv4UninterpretedOptionsInvalidReasons, serialize_options, AppendHexString. case_bool_decide.
  - intros [= <-]. eauto.
  - destruct (HexStringToByteString s) as [bytes| |]; [|done..]. destruct (negb _); [done|].
    intros [= <-]. split; [done|]. intros out. by eexists.
Qed.

Lemma quiet_tcp_options i s b :
  TcpUninterpretedOptionsInvalidReasons i s = Ok (b, []) → b = false ∧ ∀ out, ∃ out', serialize_options s out = Ok out'.
Proof.
  unfold TcpUninterpretedOptionsInvalidReasons, serialize_options, AppendHexString. case_bool_decide.
  - intros [= <-]. eauto.
  - destruct (HexStringToByteString s) as [bytes| |]; [|done..]. destruct (negb _); [done|].
    intros (u & _ & [= <-])%quiet_bind. split; [done|]. intros out. by eexists.
Qed.

(** The next check of the check in [Hq]. *)
Ltac quiet Hq :=
  apply quiet_bind in Hq; let x := fresh "x" in let Hx := fresh "Hx" in destruct Hq as (x & Hx & Hq);
  let Hne := fresh "Hne" in let Hv := fresh "Hv" in
  first
    [ apply quiet_hex in Hx as (-> & Hne & ? & Hv)
    | apply quiet_address in Hx as (? & Hv)
    | apply quiet_ipv4_options in Hx as (-> & Hv)
    | apply quiet_tcp_options in Hx as (-> & Hv)
    | idtac ].
Ltac last_quiet Hq :=
  let Hne := fresh "Hne" in let Hv := fresh "Hv" in
  first [ apply quiet_hex in Hq as (-> & Hne & ? & Hv) | apply quiet_address in Hq as (? & Hv) | idtac ].
Ltac quiets Hq := repeat quiet Hq.

(** The fields that validation does not look at. *)
Definition unchecked_fields_ok (header : Header) : Prop :=
  match header with
  | gre_header header => ∃ v, HexStringToBitset kGreProtocolTypeBitwidth (GreHeader.protocol_type header) = Ok v
  | psp_header header => ∃ v, HexStringToBitset kPspReserved1Bitwidth (PspHeader.reserved1 header) = Ok v
  | _ => True
  end.

(** What a header without problems guarantees. *)
Definition good_header (packet : Packet) (i : nat) (header : Header) : Prop :=
  (unchecked_fields_ok header → ∀ out, ∃ out', SerializeHeader header out = Ok out') ∧
  gre_sized header ∧ update_header false packet i header = Ok (header, false).

Ltac serialize_fields :=
  intros; cbn [SerializeHeader]; autounfold with headers; autounfold with widths in *;
  unfold SerializeMacAddress, SerializeIpv4Address, SerializeIpv6Address, SerializeAddress, SerializeBits;
  repeat match goal with |- _ => rewrite bind_Ok_l | Hv : _ = Ok _ |- _ => rewrite Hv end; try (by eexists); eauto.
Ltac no_update :=
  cbn [update_header]; autounfold with updates; unfold update, outdated; cbn [fst snd];
  repeat (match goal with Hne : ?s ≠ [] |- _ => rewrite (bool_decide_eq_false_2 (s = [])) by done end;
          cbn [orb]; rewrite ?bind_Ok_l; cbn [fst snd]); try reflexivity.

Lemma good_vlan packet i h : VlanHeaderInvalidReasons i h = Ok (tt, []) → good_header packet i (vlan_header h).
Proof. intros Hq. autounfold with checks in Hq. quiets Hq. split_and!; [serialize_fields|done|no_update]. Qed.
Lemma good_csig packet i h : CsigHeaderInvalidReasons i h = Ok (tt, []) → good_header packet i (csig_header h).
Proof. intros Hq. autounfold with checks in Hq. quiets Hq. split_and!; [serialize_fields|done|no_update]. Qed.
Lemma good_arp packet i h : ArpHeaderInvalidReasons i h = Ok (tt, []) → good_header packet i (arp_header h).
Proof. intros Hq. autounfold with checks in Hq. quiets Hq. split_and!; [serialize_fields|done|no_update]. Qed.
Lemma good_ipv6 packet i h : Ipv6HeaderInvalidReasons packet i h = Ok (tt, []) → good_header packet i (ipv6_header h).
Proof. intros Hq. autounfold with checks in Hq. quiets Hq. split_and!; [serialize_fields|done|no_update]. Qed.
Lemma good_hop_by_hop_options packet i h : HopByHopOptionsHeaderInvalidReasons i h = Ok (tt, []) → good_header packet i (hop_by_hop_options_header h).
Proof. intros Hq. autounfold with checks in Hq. quiets Hq. split_and!; [serialize_fields|done|no_update]. Qed.
Lemma good_tcp packet i h : TcpHeaderInvalidReasons i h = Ok (tt, []) → good_header packet i (tcp_header h).
Proof.
  intros Hq. autounfold with checks in Hq. quiets Hq. split_and!; [serialize_fields|done|no_update].
Qed.
Lemma good_sai_p4_bmv2_packet_in packet i h : SaiP4BMv2PacketInHeaderInvalidReasons i h = Ok (tt, []) → good_header packet i (sai_p4_bmv2_packet_in_header h).
Proof. intros Hq. autounfold with checks in Hq. quiets Hq. split_and!; [serialize_fields|done|no_update]. Qed.
Lemma good_ipfix packet i h : IpfixHeaderInvalidReasons packet i h = Ok (tt, []) → good_header packet i (ipfix_header h).
Proof. intros Hq. autounfold with checks in Hq. quiets Hq. split_and!; [serialize_fields|done|no_update]. Qed.
Lemma good_psamp packet i h : PsampHeaderInvalidReasons packet i h = Ok (tt, []) → good_header packet i (psamp_header h).
Proof. intros Hq. autounfold with checks in Hq. quiets Hq. split_and!; [serialize_fields|done|no_update]. Qed.
Lemma good_ptp packet i h : PtpHeaderInvalidReasons packet i h = Ok (tt, []) → good_header packet i (ptp_header h).
Proof. intros Hq. autounfold with checks in Hq. quiets Hq. split_and!; [serialize_fields|done|no_update]. Qed.
Lemma good_psp packet i h : PspHeaderInvalidReasons i h = Ok (tt, []) → good_header packet i (psp_header h).
Proof. intros Hq. autounfold with checks in Hq. quiets Hq. split_and!; [intros [? Hr]; serialize_fields|done|no_update]. Qed.
Lemma good_udp packet i h : UdpHeaderInvalidReasons packet i h = Ok (tt, []) → good_header packet i (udp_header h).
Proof. intros Hq. autounfold with checks in Hq. quiets Hq. split_and!; [serialize_fields|done|no_update]. Qed.
Lemma good_icmp packet i h : IcmpHeaderInvalidReasons packet i h = Ok (tt, []) → good_header packet i (icmp_header h).
Proof. intros Hq. autounfold with checks in Hq. quiets Hq. split_and!; [serialize_fields|done|no_update]. Qed.
Lemma good_ipv4 packet i h : Ipv4HeaderInvalidReasons packet i h = Ok (tt, []) → good_header packet i (ipv4_header h).
Proof. intros Hq. autounfold with checks in Hq. quiets Hq. split_and!; [serialize_fields|done|no_update]. Qed.

Lemma good_ethernet packet i h :
  EthernetHeaderInvalidReasons packet i h = Ok (tt, []) → good_header packet i (ethernet_header h).
Proof.
  intros Hq. autounfold with checks in Hq. quiets Hq. split_and!; [serialize_fields|done|].
  cbn [update_header]. autounfold with updates. unfold outdated. rewrite !bool_decide_eq_false_2 by done.
  destruct (PacketSizeInBytes packet (Z.of_nat i + 1)) as [sz| |]; [|done..].
  destruct (HexStringToInt (EthernetHeader.ethertype h)) as [t| |]; [|done..]. done.
Qed.

Lemma quiet_gre_optional i s b :
  gre_optional_invalid i s = Ok (b, []) → b = false ∧ s ≠ [] ∧ ∃ bytes, HexStringToByteString s = Ok bytes ∧ zlen bytes = 2.
Proof.
  unfold gre_optional_invalid. destruct (HexStringToByteString s) as [bytes| |] eqn:Hb; [|done..].
  destruct (Z.eqb_spec (zlen bytes * 8) 16); [|done]. intros [= <-].
  split_and!; [done| |exists bytes; split; [done|lia]].
  intros ->. unfold HexStringToByteString in Hb. destruct (ConsumePrefix [] $"0x") as [t|] eqn:Ht; [|done].
  by apply ConsumePrefix_spec in Ht.
Qed.

Lemma good_gre packet i h : GreHeaderInvalidReasons packet i h = Ok (tt, []) → good_header packet i (gre_header h).
Proof.
  intros Hq. autounfold with checks in Hq. quiets Hq. cbn [orb] in Hq.
  unfold good_header. cbn [gre_sized SerializeHeader update_header unchecked_fields_ok]. autounfold with headers updates.
  destruct (bool_decide (GreHeader.checksum_present h = $"0x1")) eqn:Hp; cbn [negb] in Hq.
  - apply quiet_bind in Hq as (b & Ho & Hq). unfold GreOptionalFieldsInvalidReasons in Ho.
    destruct (bool_decide (GreHeader.checksum h = []) && bool_decide (GreHeader.reserved1 h = [])) eqn:Hempty.
    { injection Ho as <-. apply andb_true_iff in Hempty as [_ Hr%bool_decide_eq_true].
      apply quiet_bind in Hq as (? & _ & Hq%quiet_push). by rewrite Hr in Hq. }
    apply quiet_bind in Ho as (b1 & Hb1 & Ho). apply quiet_bind in Ho as (b2 & Hb2 & [= <-]).
    apply quiet_gre_optional in Hb1 as (-> & Hn1 & bytes1 & Hh1 & Hl1).
    apply quiet_gre_optional in Hb2 as (-> & Hn2 & bytes2 & Hh2 & Hl2).
    split_and!.
    + intros [v Hproto] out. unfold SerializeBits, AppendHexString.
      repeat match goal with |- _ => rewrite bind_Ok_l | Hv : _ = Ok _ |- _ => rewrite Hv end. by eexists.
    + intros _. split; intros ? Hb; congruence.
    + no_update.
  - split_and!.
    + intros [v Hproto] out. unfold SerializeBits.
      repeat match goal with |- _ => rewrite bind_Ok_l | Hv : _ = Ok _ |- _ => rewrite Hv end. by eexists.
    + apply bool_decide_eq_false in Hp. done.
    + done.
Qed.

Lemma quiet_header packet i header :
  HeaderInvalidReasons packet i header = Ok (tt, []) → good_header packet i header.
Proof.
  destruct header; cbn [HeaderInvalidReasons]; auto using good_ethernet, good_ipv4, good_ipv6, good_hop_by_hop_options,
    good_udp, good_tcp, good_arp, good_icmp, good_vlan, good_csig, good_gre, good_sai_p4_bmv2_packet_in, good_ipfix,
    good_psamp, good_ptp, good_psp. done.
Qed.

(** * Packets *)

(** Nothing more has to follow. *)
Definition complete (next : NextHeader) : Prop :=
  match next with Next case => case = HEADER_NOT_SET | UnsupportedNextHeader _ => True end.

Lemma quiet_headers_loop packet i expected hs last :
  headers_loop packet i expected hs = Ok (last, []) →
  (∀ j header, hs !! j = Some header → HeaderInvalidReasons packet (i + j) header = Ok (tt, [])) ∧
  chain expected hs ∧ (last = HEADER_NOT_SET → complete (announced expected hs)).
Proof.
  revert i expected. induction hs as [|header hs IH]; intros i expected; cbn [headers_loop chain announced].
  - intros [= ->]. done.
  - intros ([] & Hh & Hq)%quiet_bind. case_bool_decide as Hcase.
    { by destruct header. }
    apply quiet_bind in Hq as (u & Hu%quiet_push & Hq).
    apply orb_false_iff in Hu as [He%bool_decide_eq_false Hc%negb_false_iff%bool_decide_eq_true].
    destruct (IH _ _ Hq) as (Hall & Hchain & Hlast). split_and!.
    + intros [|j] h'; [by intros [= <-]; rewrite Nat.add_0_r|]. intros Hj. rewrite Nat.add_succ_r. by apply Hall.
    + done.
    + done.
    + unfold expected_after in Hchain. destruct (GetNextHeader header) as [[next|why]| |]; [done|..];
        by destruct hs; [|destruct Hchain as (_ & ? & _)].
    + unfold expected_after in Hlast, Hchain. destruct (GetNextHeader header) as [[next|why]| |]; [done|..]; done.
Qed.

Lemma valid_packet packet :
  PacketInvalidReasons packet = Ok [] →
  (∀ i header, headers packet !! i = Some header → good_header packet i header) ∧
  chain (first_case packet) (headers packet) ∧ complete (announced (first_case packet) (headers packet)).
Proof.
  unfold PacketInvalidReasons. intros ([u r] & Hc & [= ->])%bind_Ok_iff. unfold packet_checks in Hc.
  destruct (packet_empty packet); [done|].
  apply quiet_bind in Hc as (? & _ & Hc). apply quiet_bind in Hc as (last & Hloop & Hlast%quiet_push).
  apply negb_false_iff, bool_decide_eq_true in Hlast.
  destruct (quiet_headers_loop _ _ _ _ _ Hloop) as (Hall & Hchain & Hcomplete).
  split_and!; [|done|auto]. intros i header Hi. by apply quiet_header, (Hall i).
Qed.

(** * Serialization of valid packets *)

Lemma header_size_bytes header n : header_size header = Ok n → n mod 8 = 0.
Proof.
  assert (∀ o n, options_size o = Ok n → n mod 8 = 0) as Ho.
  { intros o m. unfold options_size. case_bool_decide; [by intros [= <-]|].
    destruct (HexStringToByteString o); [|done..]. intros [= <-]. by rewrite Z.mul_comm, Z.mod_mul. }
  destruct header; cbn [header_size]; try (by intros [= <-]).
  - intros (o & Hx%Ho & [= <-])%bind_Ok_iff. autounfold with widths. Z.div_mod_to_equations; lia.
  - intros (o & Hx%Ho & [= <-])%bind_Ok_iff. autounfold with widths. Z.div_mod_to_equations; lia.
  - intros [= <-]. case_bool_decide; done.
Qed.

Lemma serialize_headers_total hs output :
  Forall gre_sized hs → (∀ header, header ∈ hs → ∀ out, ∃ out', SerializeHeader header out = Ok out') →
  size output mod 8 = 0 → ∃ output', serialize_headers hs output = Ok output' ∧ size output' mod 8 = 0.
Proof.
  intros Hgre. revert output. unfold serialize_headers.
  induction Hgre as [|h hs Hh _ IH]; intros output Hall Hmod; cbn [fold_result]; [by eexists|].
  destruct (Hall h ltac:(by left) output) as [out Hout].
  destruct (serialized_header_size h Hh _ _ Hout) as (bits & -> & Hsize%header_size_bytes & _).
  rewrite Hout, bind_Ok_l. apply IH; [intros; apply Hall; by right|].
  unfold size in *. rewrite zlen_app. Z.div_mod_to_equations; lia.
Qed.

Lemma valid_packet_raw packet :
  PacketInvalidReasons packet = Ok [] → Forall unchecked_fields_ok (headers packet) →
  ∃ bytes, RawSerializePacket packet = Ok bytes.
Proof.
  intros (Hgood & _)%valid_packet Hun. rewrite Forall_lookup in Hun.
  destruct (serialize_headers_total (headers packet) []) as (out & Hs & Hmod); [| |done|].
  - apply Forall_lookup. intros i header Hi. by apply (Hgood i).
  - intros header (i & Hi)%list_elem_of_lookup. by apply (Hgood i), (Hun i).
  - unfold RawSerializePacket, RawSerializeFrom.
    rewrite (proj2 (Z.ltb_ge (zlen (headers packet)) 0)) by apply zlen_nonneg.
    cbn [orb Z.ltb Z.compare]. change (drop (Z.to_nat 0) (headers packet)) with (headers packet).
    rewrite Hs, !bind_Ok_l. unfold ToByteString, size in *.
    rewrite AppendBytes_app, zlen_app, OfByteString_length.
    destruct (Z.eqb_spec ((zlen out + 8 * zlen (payload packet)) mod 8) 0) as [|Hm]; [by eexists|].
    exfalso. apply Hm. Z.div_mod_to_equations; lia.
Qed.

Lemma set_header_id packet i header : headers packet !! i = Some header → set_header packet i header = packet.
Proof. intros Hi. unfold set_header. rewrite list_insert_id by done. by destruct packet. Qed.

Lemma update_nothing packet l :
  (∀ i, i ∈ l → ∃ header, headers packet !! i = Some header ∧ update_header false packet i header = Ok (header, false)) →
  fold_result (update_step false) l (packet, false) = Ok (packet, false).
Proof.
  induction l as [|i l IH]; intros Hall; cbn [fold_result]; [done|].
  destruct (Hall i ltac:(by left)) as (header & Hi & Hu). cbn [update_step]. rewrite Hi, Hu, bind_Ok_l.
  cbn [fst snd orb]. rewrite set_header_id, bind_Ok_l by done. apply IH. intros j Hj. apply Hall. by right.
Qed.

(** Nothing is missing in a valid packet. *)
Lemma update_valid_packet packet :
  PacketInvalidReasons packet = Ok [] → UpdateMissingComputedFields packet = Ok (packet, false).
Proof.
  intros (Hgood & _)%valid_packet. apply update_nothing. intros i Hi.
  apply list_elem_of_In, in_rev, in_seq in Hi.
  destruct (headers packet !! i) as [header|] eqn:Hl; [|apply lookup_ge_None in Hl; lia].
  exists header. split; [done|]. by apply (Hgood i).
Qed.

(** C33.  What a packet that passes validation guarantees: its headers are in order, each the one that
    the one before announces, and none is missing at the end; updating missing fields changes nothing;
    and it serializes, to as many bytes as [PacketSizeInBytes] says, provided that the fields which
    validation does not look at (the protocol type of GRE headers and the second reserved bit of PSP
    headers) are well formed. *)
Theorem valid_packet_guarantees (packet : Packet) :
  PacketInvalidReasons packet = Ok [] →
  chain (first_case packet) (headers packet) ∧ complete (announced (first_case packet) (headers packet)) ∧
  UpdateMissingComputedFields packet = Ok (packet, false) ∧
  (Forall unchecked_fields_ok (headers packet) →
   ∃ bytes, RawSerializePacket packet = Ok bytes ∧
     (8 * zlen bytes < 2 ^ 31 → PacketSizeInBytes packet 0 = Ok (zlen bytes))).
Proof.
  intros Hvalid. pose proof (valid_packet packet Hvalid) as (Hgood & Hchain & Hcomplete).
  split_and!; [done..|by apply update_valid_packet|]. intros Hun.
  destruct (valid_packet_raw packet Hvalid Hun) as [bytes Hb]. exists bytes. split; [done|]. intros Hlt.
  unfold RawSerializePacket in Hb. apply bind_Ok_iff in Hb as (bits & Hs & Hb).
  assert (Forall gre_sized (headers packet)) as Hgre.
  { apply Forall_lookup. intros i header Hi. by apply (Hgood i). }
  eapply raw_size_in_bytes; done.
Qed.

(** C29.  Parsing and serializing a valid packet is the identity: when [ParsePacket] finds no reason why
    the packet is invalid, [SerializePacket], which pads, fills in computed fields and validates
    again, returns exactly the bytes that were parsed, unless the frame is shorter than the minimum
    and has to be padded. *)
Theorem parse_serialize_roundtrip `{!Ipv6.InetLaws} (input : str) (first_header : HeaderCase) (packet : Packet) :
  ParsePacket input first_header = Ok packet → reasons_invalid packet = [] →
  PadPacketToMinimumSize packet = Ok (packet, false) →
  SerializePacket packet = Ok input.
Proof.
  unfold ParsePacket. intros (p & Hp & (invalid & Hi & [= <-])%bind_Ok_iff)%bind_Ok_iff.
  cbn [reasons_invalid]. intros [Hr ->]%app_eq_nil Hpad.
  destruct (ParseHeaders_spec input first_header) as (p' & Hp' & _ & _ & _ & Hraw).
  rewrite Hp in Hp'. injection Hp' as <-. rewrite app_nil_r in *.
  assert (mkPacket (headers p) (payload p) (reason_not_fully_parsed p) (reasons_invalid p) = p) as Heta by by destruct p.
  rewrite Heta in *. unfold SerializePacket. rewrite Hpad, bind_Ok_l. cbn [fst].
  rewrite update_valid_packet, bind_Ok_l by done. cbn [fst]. unfold ValidatePacket. by rewrite Hi, !bind_Ok_l.
Qed.
End valid.

Lemma valid_packet_guarantees_witness :
  PacketInvalidReasons finished_udp_packet = Ok [] ∧
  UpdateMissingComputedFields finished_udp_packet = Ok (finished_udp_packet, false) ∧
  ∃ bytes, RawSerializePacket finished_udp_packet = Ok bytes.
Proof.
  assert (PacketInvalidReasons finished_udp_packet = Ok []) as Hvalid by (vm_compute; reflexivity).
  destruct (valid_packet_guarantees finished_udp_packet Hvalid) as (_ & _ & Hu & Hs).
  split; [exact Hvalid|]. split; [exact Hu|].
  destruct Hs as (bytes & Hb & _); [repeat constructor|]. exists bytes. exact Hb.
Defined.

(** The bytes of [finished_udp_packet]. *)
Definition udp_packet_bytes : str :=
  match RawSerializePacket finished_udp_packet with Ok bytes => bytes | _ => [] end.

Lemma parse_serialize_roundtrip_witness :
  ParsePacket udp_packet_bytes kEthernetHeader = Ok finished_udp_packet ∧
  SerializePacket finished_udp_packet = Ok udp_packet_bytes.
Proof.
  assert (ParsePacket udp_packet_bytes kEthernetHeader = Ok finished_udp_packet) as Hp by (vm_compute; reflexivity).
  split; [exact Hp|]. apply (parse_serialize_roundtrip udp_packet_bytes kEthernetHeader finished_udp_packet Hp).
  - reflexivity.
  - vm_compute. reflexivity.
Defined.
