(* ===== verification/PacketPromises.v ===== *)
(** The promises of the computed fields and of padding: missing fields are filled in and nothing else
    changes; packets are padded with zeros to exactly the size asked for. *)
From S2P Require Import Prelude Bitset ByteString Abseil HexString NetAddr NetAddrText BitString Packet PacketRoundtrip PacketChecks PacketUpdate PacketSize PacketValid.

(** * Missing fields *)

(** All the fields of a header. *)
Definition header_fields (header : Header) : list str :=
  match header with
  | ethernet_header (EthernetHeader.mk f0 f1 f2) =>
    [f0; f1; f2]
  | vlan_header (VlanHeader.mk f0 f1 f2 f3) =>
    [f0; f1; f2; f3]
  | csig_header (CsigHeader.mk f0 f1 f2 f3 f4) =>
    [f0; f1; f2; f3; f4]
  | arp_header (ArpHeader.mk f0 f1 f2 f3 f4 f5 f6 f7 f8) =>
    [f0; f1; f2; f3; f4; f5; f6; f7; f8]
  | ipv4_header (Ipv4Header.mk f0 f1 f2 f3 f4 f5 f6 f7 f8 f9 f10 f11 f12 f13) =>
    [f0; f1; f2; f3; f4; f5; f6; f7; f8; f9; f10; f11; f12; f13]
  | ipv6_header (Ipv6Header.mk f0 f1 f2 f3 f4 f5 f6 f7 f8) =>
    [f0; f1; f2; f3; f4; f5; f6; f7; f8]
  | hop_by_hop_options_header (HopByHopOptionsHeader.mk f0 f1 f2) =>
    [f0; f1; f2]
  | icmp_header (IcmpHeader.mk f0 f1 f2 f3) =>
    [f0; f1; f2; f3]
  | udp_header (UdpHeader.mk f0 f1 f2 f3) =>
    [f0; f1; f2; f3]
  | tcp_header (TcpHeader.mk f0 f1 f2 f3 f4 f5 f6) =>
    [f0; f1; f2; f3; f4; f5; f6]
  | gre_header (GreHeader.mk f0 f1 f2 f3 f4 f5) =>
    [f0; f1; f2; f3; f4; f5]
  | sai_p4_bmv2_packet_in_header (SaiP4BMv2PacketInHeader.mk f0 f1 f2) =>
    [f0; f1; f2]
  | ipfix_header (IpfixHeader.mk f0 f1 f2 f3 f4) =>
    [f0; f1; f2; f3; f4]
  | psamp_header (PsampHeader.mk f0 f1 f2 f3 f4 f5 f6 f7 f8 f9 f10 f11) =>
    [f0; f1; f2; f3; f4; f5; f6; f7; f8; f9; f10; f11]
  | ptp_header (PtpHeader.mk f0 f1 f2 f3 f4 f5 f6 f7 f8 f9 f10 f11 f12 f13) =>
    [f0; f1; f2; f3; f4; f5; f6; f7; f8; f9; f10; f11; f12; f13]
  | psp_header (PspHeader.mk f0 f1 f2 f3 f4 f5 f6 f7 f8 f9 f10) =>
    [f0; f1; f2; f3; f4; f5; f6; f7; f8; f9; f10]
  | header_not_set => []
  end.

(** The fields that are present in [header] are the same in [header']. *)
Definition filled (header header' : Header) : Prop :=
  header_case header' = header_case header ∧
  Forall2 (λ field field', field = [] ∨ field' = field) (header_fields header) (header_fields header').

Section missing.
Context `{AbslStringsLaws} `{!Ipv6.Inet}.

Lemma update_missing {T} (field : T → str) set_field value h c h' c' :
  update false field set_field value (h, c) = Ok (h', c') →
  (field h ≠ [] ∧ h' = h ∧ c' = c) ∨ (field h = [] ∧ ∃ v, value h = Ok v ∧ h' = set_field v h ∧ c' = true).
Proof.
  unfold update, outdated. cbn [fst]. rewrite orb_false_r. case_bool_decide; [|by intros [= -> ->]; left].
  intros (v & Hv & [= <- <-])%bind_Ok_iff. right. eauto.
Qed.

Lemma size_field_present n packet i v : size_field n packet i = Ok v → v ≠ [].
Proof. unfold size_field. by intros (s & _ & [= <-])%bind_Ok_iff. Qed.
Lemma checksum_field_present n c v : checksum_field n c = Ok v → v ≠ [].
Proof. unfold checksum_field. by intros (s & _ & [= <-])%bind_Ok_iff. Qed.
Lemma computed_ihl_present header v : computed_ihl header = Ok v → v ≠ [].
Proof.
  unfold computed_ihl. case_bool_decide; [by intros [= <-]|]. destruct (ConsumePrefix _ _); [|done].
  destruct (_ =? 0); [by intros [= <-]|done].
Qed.
Lemma computed_data_offset_present packet i header v : computed_data_offset packet i header = Ok v → v ≠ [].
Proof.
  unfold computed_data_offset. intros (s & _ & (s' & _ & Hv)%bind_Ok_iff)%bind_Ok_iff.
  destruct (negb _); [done|]. destruct (_ || _); [done|]. by injection Hv as <-.
Qed.

(** The number of missing fields. *)
Definition missing_fields (fields : list str) : nat := length (List.filter (λ f, bool_decide (f = [])) fields).

(** From [header] and [changes] to [header'] and [changes']: present fields are kept, and there is a
    change exactly if fewer are missing. *)
Definition progress (header : Header) (changes : bool) (header' : Header) (changes' : bool) : Prop :=
  filled header header' ∧
  ((changes' = changes ∧ header' = header) ∨
   (changes' = true ∧ (missing_fields (header_fields header') < missing_fields (header_fields header))%nat)).

Lemma filled_refl header : filled header header.
Proof. split; [done|]. apply Forall2_same_length_lookup. split; [done|]. intros j f f' -> [= ->]. by right. Qed.

Lemma filled_trans h1 h2 h3 : filled h1 h2 → filled h2 h3 → filled h1 h3.
Proof.
  intros [Hc1 Hf1] [Hc2 Hf2]. split; [congruence|]. revert Hf2. generalize (header_fields h3).
  induction Hf1 as [|f1 f2 l1 l2 Hf Hl IH]; intros l3 Hl3; inversion Hl3; subst; constructor; [|auto].
  destruct Hf as [->| ->]; naive_solver.
Qed.

Lemma progress_refl header : progress header false header false.
Proof. split; [apply filled_refl|]. by left. Qed.

Lemma progress_trans h1 c1 h2 c2 h3 c3 : progress h1 c1 h2 c2 → progress h2 c2 h3 c3 → progress h1 c1 h3 c3.
Proof.
  intros [Hf1 Hp1] [Hf2 Hp2]. split; [by eapply filled_trans|].
  destruct Hp1 as [[-> ->]|[-> ?]]; [done|]. right. destruct Hp2 as [[-> ->]|[-> ?]]; split; done || lia.
Qed.

(** Filling in the [j]th field. *)
Lemma missing_fields_insert fields j v :
  fields !! j = Some [] → v ≠ [] → (missing_fields (<[j := v]> fields) < missing_fields fields)%nat.
Proof.
  unfold missing_fields. intros Hj Hv. revert j Hj. induction fields as [|f fields IH]; intros [|j] Hj; [done..| |].
  - injection Hj as ->. change (<[0%nat := v]> ([] :: fields)) with (v :: fields). cbn [List.filter].
    rewrite bool_decide_eq_false_2 by done. cbn. lia.
  - specialize (IH j Hj). change (<[S j := v]> (f :: fields)) with (f :: <[j := v]> fields). cbn [List.filter].
    destruct (bool_decide (f = [])); [|done]. cbn [length]. lia.
Qed.

Lemma progress_set header header' j v c :
  header_case header' = header_case header → header_fields header' = <[j := v]> (header_fields header) →
  header_fields header !! j = Some [] → v ≠ [] → progress header c header' true.
Proof.
  intros Hc Hf Hj Hv. split.
  - split; [done|]. rewrite Hf. apply Forall2_same_length_lookup. split; [by rewrite length_insert|].
    intros k f f' Hk. destruct (decide (j = k)) as [<-|Hjk].
    + rewrite Hj in Hk. injection Hk as <-. by left.
    + rewrite list_lookup_insert_ne by done. rewrite Hk. intros [= ->]. by right.
  - right. split; [done|]. rewrite Hf. by apply missing_fields_insert.
Qed.

(** [field] is the [j]th field of the headers of kind [kind]. *)
Definition is_field {T} (kind : T → Header) (j : nat) (field : T → str) (set_field : str → T → T) : Prop :=
  ∀ h, header_fields (kind h) !! j = Some (field h) ∧ ∀ v,
    header_case (kind (set_field v h)) = header_case (kind h) ∧
    header_fields (kind (set_field v h)) = <[j := v]> (header_fields (kind h)).

Lemma update_progress {T} (kind : T → Header) j field set_field value h c h' c' :
  is_field kind j field set_field → (∀ v, value h = Ok v → v ≠ []) →
  update false field set_field value (h, c) = Ok (h', c') → progress (kind h) c (kind h') c'.
Proof.
  intros Hj Hv Hu. destruct (Hj h) as [Hl Hs]. apply update_missing in Hu as [(? & -> & ->)|(He & v & Hx & -> & ->)].
  - split; [apply filled_refl|]. by left.
  - destruct (Hs v) as [Hc Hf]. apply (progress_set _ _ j v); [done|done|by rewrite Hl, He|auto].
Qed.

(** What the update of a header promises. *)
Definition fills (header : Header) (c : result (Header * bool)) : Prop :=
  ∀ header' changes, c = Ok (header', changes) → progress header false header' changes.

Ltac present := intros; first
  [ eapply size_field_present; eassumption | eapply checksum_field_present; eassumption
  | eapply computed_ihl_present; eassumption | eapply computed_data_offset_present; eassumption
  | match goal with Hv : constant _ _ = Ok _ |- _ => injection Hv as <-; discriminate end ].
Ltac start_fills := intros header' changes Hu; cbn [update_header] in Hu; autounfold with updates in Hu;
  apply bind_Ok_iff in Hu as ([h' c] & Hu & [= <- <-]).
Ltac step kind j Hu :=
  let s := fresh "s" in let c := fresh "c" in let Hx := fresh "Hx" in
  apply bind_Ok_iff in Hu as ([s c] & Hx & Hu);
  apply (update_progress kind j) in Hx; [|intros []; split; [|intros]; done|present];
  eapply progress_trans; [exact Hx|clear Hx].
Ltac last_step kind j Hu := apply (update_progress kind j) in Hu; [exact Hu|intros []; split; [|intros]; done|present].

Lemma fills_icmp packet i h : fills (icmp_header h) (update_header false packet i (icmp_header h)).
Proof. start_fills. last_step icmp_header 2%nat Hu. Qed.
Lemma fills_tcp packet i h : fills (tcp_header h) (update_header false packet i (tcp_header h)).
Proof. start_fills. last_step tcp_header 4%nat Hu. Qed.
Lemma fills_ipfix packet i h : fills (ipfix_header h) (update_header false packet i (ipfix_header h)).
Proof. start_fills. last_step ipfix_header 1%nat Hu. Qed.
Lemma fills_ptp packet i h : fills (ptp_header h) (update_header false packet i (ptp_header h)).
Proof. start_fills. last_step ptp_header 4%nat Hu. Qed.
Lemma fills_ipv6 packet i h : fills (ipv6_header h) (update_header false packet i (ipv6_header h)).
Proof. start_fills. step ipv6_header 0%nat Hu. last_step ipv6_header 4%nat Hu. Qed.
Lemma fills_psamp packet i h : fills (psamp_header h) (update_header false packet i (psamp_header h)).
Proof. start_fills. step psamp_header 1%nat Hu. step psamp_header 10%nat Hu. last_step psamp_header 11%nat Hu. Qed.
Lemma fills_arp packet i h : fills (arp_header h) (update_header false packet i (arp_header h)).
Proof.
  start_fills. step arp_header 0%nat Hu. step arp_header 1%nat Hu. step arp_header 2%nat Hu.
  last_step arp_header 3%nat Hu.
Qed.
Lemma fills_ipv4 packet i h : fills (ipv4_header h) (update_header false packet i (ipv4_header h)).
Proof.
  start_fills. step ipv4_header 0%nat Hu. step ipv4_header 1%nat Hu. step ipv4_header 4%nat Hu.
  last_step ipv4_header 10%nat Hu.
Qed.
Lemma fills_gre packet i h : fills (gre_header h) (update_header false packet i (gre_header h)).
Proof.
  start_fills. case_bool_decide.
  - step gre_header 4%nat Hu. last_step gre_header 5%nat Hu.
  - injection Hu as <- <-. apply progress_refl.
Qed.

Lemma fills_ethernet packet i h : fills (ethernet_header h) (update_header false packet i (ethernet_header h)).
Proof.
  start_fills. apply bind_Ok_iff in Hu as (t & _ & Hu). unfold outdated in Hu. rewrite orb_false_r in Hu.
  case_bool_decide as He; cbn [andb] in Hu; [|injection Hu as <- <-; apply progress_refl].
  destruct ((t <=? 1500) && _); [|injection Hu as <- <-; apply progress_refl].
  destruct (PacketSizeInBytes packet _) as [sz| |]; [|done..]. destruct (1500 <? sz); [done|]. injection Hu as <- <-.
  apply (progress_set _ _ 2 (EtherType sz)); destruct h; [done..| |done]. cbn in He |- *. by rewrite He.
Qed.

Lemma fills_hop_by_hop packet i h :
  fills (hop_by_hop_options_header h) (update_header false packet i (hop_by_hop_options_header h)).
Proof.
  start_fills. step hop_by_hop_options_header 1%nat Hu. cbn [fst] in Hu. case_bool_decide as He; injection Hu as <- <-.
  - apply (progress_set _ _ 2 $"0x010400000000"); destruct s; [done..| |done]. cbn in He |- *. by rewrite He.
  - split; [apply filled_refl|]. by left.
Qed.

Lemma fills_udp packet i h : fills (udp_header h) (update_header false packet i (udp_header h)).
Proof.
  start_fills. step udp_header 2%nat Hu. cbn [fst] in Hu. unfold outdated in Hu. rewrite orb_false_r in Hu.
  case_bool_decide as He.
  - apply bind_Ok_iff in Hu as (checksum & _ & Hu).
    assert (∃ v, v ≠ [] ∧ Ok (UdpHeader.set_checksum v s, true) = Ok (h', c)) as (v & Hv & [= <- <-]).
    { destruct checksum; eexists; split; try exact Hu; done. }
    apply (progress_set _ _ 3 v); destruct s; [done..| |done]. cbn in He |- *. by rewrite He.
  - injection Hu as <- <-. split; [apply filled_refl|]. by left.
Qed.

Lemma update_header_fills packet i header : fills header (update_header false packet i header).
Proof.
  destruct header; auto using fills_ethernet, fills_ipv4, fills_ipv6, fills_hop_by_hop, fills_udp, fills_tcp,
    fills_arp, fills_icmp, fills_gre, fills_ipfix, fills_psamp, fills_ptp;
    intros header' changes Hu; cbn in Hu; [injection Hu as <- <-; apply progress_refl..|done].
Qed.

(** * Packets *)

Definition packet_missing (packet : Packet) : nat :=
  missing_fields (List.concat (map header_fields (headers packet))).

Definition packet_progress (packet : Packet) (changes : bool) (packet' : Packet) (changes' : bool) : Prop :=
  payload packet' = payload packet ∧ reason_not_fully_parsed packet' = reason_not_fully_parsed packet ∧
  reasons_invalid packet' = reasons_invalid packet ∧ Forall2 filled (headers packet) (headers packet') ∧
  ((changes' = changes ∧ packet' = packet) ∨
   (changes' = true ∧ (packet_missing packet' < packet_missing packet)%nat)).

Lemma missing_fields_app l k : missing_fields (l ++ k) = (missing_fields l + missing_fields k)%nat.
Proof. unfold missing_fields. by rewrite List.filter_app, length_app. Qed.

Lemma Forall2_filled_refl hs : Forall2 filled hs hs.
Proof. induction hs; constructor; auto using filled_refl. Qed.

Lemma packet_progress_refl packet changes : packet_progress packet changes packet changes.
Proof. split_and!; [done..|apply Forall2_filled_refl|by left]. Qed.

Lemma packet_progress_trans p1 c1 p2 c2 p3 c3 :
  packet_progress p1 c1 p2 c2 → packet_progress p2 c2 p3 c3 → packet_progress p1 c1 p3 c3.
Proof.
  intros (? & ? & ? & Hf1 & Hp1) (? & ? & ? & Hf2 & Hp2). split_and!; [congruence..| |].
  - revert Hf2. generalize (headers p3). induction Hf1; intros l3 Hl3; inversion Hl3; subst; constructor;
      eauto using filled_trans.
  - destruct Hp1 as [[-> ->]|[-> ?]]; [done|]. right. destruct Hp2 as [[-> ->]|[-> ?]]; split; done || lia.
Qed.

Lemma update_step_progress i packet changes packet' changes' :
  update_step false (packet, changes) i = Ok (packet', changes') → packet_progress packet changes packet' changes'.
Proof.
  unfold update_step. destruct (headers packet !! i) as [header|] eqn:Hi; [|done].
  intros ([header' b] & Hu & [= <- <-])%bind_Ok_iff. cbn [fst snd].
  destruct (update_header_fills _ _ _ _ _ Hu) as [Hf Hb].
  assert (Forall2 filled (headers packet) (<[i := header']> (headers packet))) as Hfs.
  { apply Forall2_same_length_lookup. split; [by rewrite length_insert|]. intros j h h'.
    destruct (decide (i = j)) as [<-|Hij].
    - rewrite list_lookup_insert_eq by (by eapply lookup_lt_Some). by intros ? [= <-]; simplify_eq.
    - rewrite list_lookup_insert_ne by done. intros -> [= ->]. apply filled_refl. }
  split_and!; [done..|]. destruct Hb as [[-> ->]|[-> Hlt]].
  - left. by rewrite orb_false_r, set_header_id.
  - right. rewrite orb_true_r. split; [done|]. unfold packet_missing. cbn [set_header headers].
    rewrite insert_take_drop by (by eapply lookup_lt_Some). rewrite <-(take_drop_middle _ _ _ Hi) at 3.
    rewrite !map_app, !concat_app, !missing_fields_app. cbn [map List.concat]. rewrite !missing_fields_app. lia.
Qed.

Lemma update_loop_progress l packet changes packet' changes' :
  fold_result (update_step false) l (packet, changes) = Ok (packet', changes') →
  packet_progress packet changes packet' changes'.
Proof.
  revert packet changes. induction l as [|i l IH]; intros packet changes; cbn [fold_result].
  - intros [= -> ->]. apply packet_progress_refl.
  - intros ([p c] & Hx & Hl)%bind_Ok_iff. eapply packet_progress_trans; [by eapply update_step_progress|auto].
Qed.

(** [UpdateMissingComputedFields] does what packetlib.h says: fields that are present are not
    modified (nor the payload, nor the kinds of the headers), and it returns true exactly if it has
    changed the packet, which then misses fewer fields. *)
Theorem update_missing_keeps_present (packet packet' : Packet) (changes : bool) :
  UpdateMissingComputedFields packet = Ok (packet', changes) →
  Forall2 filled (headers packet) (headers packet') ∧ payload packet' = payload packet ∧
  (changes = true ↔ packet' ≠ packet) ∧
  (changes = true → (packet_missing packet' < packet_missing packet)%nat).
Proof.
  intros Hu. apply update_loop_progress in Hu as (Hp & _ & _ & Hf & Hc). split_and!; [done..| |].
  - destruct Hc as [[-> ->]|[-> Hlt]]; [done|]. split; [|done]. intros _ ->. lia.
  - destruct Hc as [[-> ->]|[-> Hlt]]; done.
Qed.

(** * Padding *)

Lemma resize_longer n s : zlen s ≤ n → resize n s = s ++ repeat zero (Z.to_nat (n - zlen s)).
Proof.
  unfold resize, zlen. intros Hn. rewrite take_ge by lia. do 2 f_equal. lia.
Qed.

(** The size of a packet is the size of its headers and payload. *)
Lemma size_with_payload packet i bytes size :
  PacketSizeInBytes packet i = Ok size → - 2 ^ 28 ≤ size - zlen (payload packet) + zlen bytes < 2 ^ 28 →
  PacketSizeInBytes (set_payload packet bytes) i = Ok (size - zlen (payload packet) + zlen bytes).
Proof.
  unfold PacketSizeInBytes, PacketSizeInBits. cbn [set_payload headers payload].
  destruct (_ || _); [done|]. destruct (fold_result _ _ _) as [h| |]; [|done..]. rewrite !bind_Ok_l.
  set (L := zlen (payload packet)). set (L' := zlen bytes).
  destruct (Z.eqb_spec (Z.rem (wrapS 32 (h + 8 * L)) 8) 0) as [Hr|]; [|done]. cbn [negb]. intros [= Hs] Hb.
  assert (wrapS 32 (h + 8 * L) = 8 * size) as Hw.
  { rewrite <-Hs. pose proof (Z.quot_rem' (wrapS 32 (h + 8 * L)) 8). lia. }
  assert (wrapS 32 (h + 8 * L') = 8 * (size - L + L')) as ->.
  { rewrite <-(wrapS_small 32 (8 * (size - L + L'))) by lia.
    replace (8 * (size - L + L')) with (8 * size + 8 * (L' - L)) by lia. rewrite <-Hw. unfold wrapS.
    change (2 ^ (32 - 1)) with 2147483648. change (2 ^ 32) with 4294967296. Z.div_mod_to_equations; lia. }
  rewrite Z.mul_comm, Z.rem_mul, Z.quot_mul by lia. done.
Qed.

Definition zeros (n : Z) : str := repeat zero (Z.to_nat n).

Lemma size_range packet i size : PacketSizeInBytes packet i = Ok size → - 2 ^ 28 ≤ size < 2 ^ 28.
Proof.
  unfold PacketSizeInBytes, PacketSizeInBits. destruct (_ || _); [done|].
  destruct (fold_result _ _ _) as [h| |]; [|done..]. rewrite !bind_Ok_l.
  unfold wrapS. set (x := (_ + 2 ^ (32 - 1)) mod 2 ^ 32). assert (0 ≤ x < 2 ^ 32) by (apply Z.mod_pos_bound; lia).
  destruct (Z.eqb_spec (Z.rem (x - 2 ^ (32 - 1)) 8) 0); [|done]. intros [= <-].
  pose proof (Z.quot_rem' (x - 2 ^ (32 - 1)) 8). lia.
Qed.

(** What padding to [target] bytes from header [i] on does, when fewer are there. *)
Lemma pad_payload packet i size target :
  PacketSizeInBytes packet i = Ok size → size < target → 0 ≤ target < 2 ^ 28 → zlen (payload packet) < 2 ^ 28 →
  let packet' := set_payload packet
    (resize (wrapS 32 (target - wrapS 32 (size - zlen (payload packet)))) (payload packet)) in
  payload packet' = payload packet ++ zeros (target - size) ∧ PacketSizeInBytes packet' i = Ok target.
Proof.
  intros Hs Hlt Ht Hp. pose proof (size_range _ _ _ Hs). pose proof (zlen_nonneg (payload packet)). cbv zeta.
  rewrite (wrapS_small 32 (size - _)) by lia. rewrite wrapS_small by lia. rewrite resize_longer by lia.
  assert (target - (size - zlen (payload packet)) - zlen (payload packet) = target - size) as -> by lia.
  fold (zeros (target - size)). split; [done|].
  assert (zlen (zeros (target - size)) = target - size) as Hz by (unfold zeros, zlen; rewrite repeat_length; lia).
  rewrite (size_with_payload _ _ _ size), zlen_app, Hz; [f_equal; lia|done|rewrite zlen_app, Hz; lia].
Qed.

(** [PadPacket] brings a packet to the size asked for: the headers stay, the payload is followed by
    just the zeros that are missing, the packet then has [num_bytes] bytes or the size it had if
    that is larger, and the result tells whether anything was added.  The sizes are at most 2^28
    bytes, since sizes in bits are computed in an [int]. *)
Theorem pad_packet_spec (num_bytes : Z) (packet packet' : Packet) (changed : bool) :
  0 ≤ num_bytes < 2 ^ 28 → zlen (payload packet) < 2 ^ 28 →
  PadPacket num_bytes packet = Ok (packet', changed) →
  ∃ size, PacketSizeInBytes packet 0 = Ok size ∧
    headers packet' = headers packet ∧ payload packet' = payload packet ++ zeros (num_bytes - size) ∧
    PacketSizeInBytes packet' 0 = Ok (Z.max size num_bytes) ∧ changed = (size <? num_bytes).
Proof.
  intros Hn Hp. unfold PadPacket. intros (size & Hs & Hpad)%bind_Ok_iff. exists size. split; [done|].
  destruct (Z.leb_spec num_bytes size) as [Hle|Hlt]; injection Hpad as <- <-.
  - unfold zeros. rewrite (Z2Nat.nonpos (num_bytes - size)), app_nil_r, Z.max_l by lia.
    by rewrite (proj2 (Z.ltb_ge _ _)) by lia.
  - destruct (pad_payload packet 0 size num_bytes Hs Hlt Hn Hp) as [Hpay Hsize].
    rewrite Hpay, Hsize, Z.max_r, (proj2 (Z.ltb_lt _ _)) by lia. done.
Qed.

(** The index of the first Ethernet header, no header before it being unset. *)
Fixpoint first_ethernet (index : Z) (hs : list Header) : option Z :=
  match hs with
  | [] => None
  | ethernet_header _ :: _ => Some index
  | header_not_set :: _ => None
  | _ :: hs => first_ethernet (index + 1) hs
  end.

(** The case of the Ethernet header in [pad_from]. *)
Definition pad_ethernet (packet : Packet) (index : Z) : result (Packet * bool) :=
  pad_from packet index [ethernet_header (EthernetHeader.mk [] [] [])].

Lemma pad_from_first packet index hs :
  pad_from packet index hs =
    match first_ethernet index hs with Some index => pad_ethernet packet index | None => Ok (packet, false) end.
Proof. revert index. induction hs as [|h hs IH]; intros index; [done|]. destruct h; try done; apply IH. Qed.

Lemma pad_ethernet_spec packet index packet' changed :
  zlen (payload packet) < 2 ^ 28 → pad_ethernet packet index = Ok (packet', changed) →
  headers packet' = headers packet ∧ pad_ethernet packet' index = Ok (packet', false) ∧
  (changed = false ↔ packet' = packet) ∧
  ∃ size, PacketSizeInBytes packet (index + 1) = Ok size ∧
    payload packet' = payload packet ++ zeros (kMinNumBytesInEthernetPayload - size) ∧
    PacketSizeInBytes packet' (index + 1) = Ok (Z.max size kMinNumBytesInEthernetPayload).
Proof.
  intros Hp. unfold pad_ethernet. cbn [pad_from]. destruct (PacketSizeInBytes packet (index + 1)) as [size| |] eqn:Hs; [|done..].
  destruct (Z.leb_spec kMinNumBytesInEthernetPayload size) as [Hle|Hlt]; intros [= <- <-].
  - rewrite Hs, (proj2 (Z.leb_le _ _)) by lia. split_and!; [done..|]. exists size. unfold zeros.
    by rewrite (Z2Nat.nonpos (_ - size)), app_nil_r, Z.max_l by lia.
  - pose proof (size_range _ _ _ Hs).
    destruct (pad_payload packet (index + 1) size kMinNumBytesInEthernetPayload Hs Hlt ltac:(done) Hp) as [Hpay Hsize].
    pose proof (zlen_nonneg (payload packet)).
    rewrite (wrapS_small 32 (size - _)) in Hpay, Hsize by lia. rewrite Hsize. split_and!; [done..| |].
    + split; [done|]. intros Heq. apply (f_equal payload) in Heq. rewrite Hpay in Heq.
      apply (f_equal zlen) in Heq. rewrite zlen_app in Heq. unfold zeros, zlen in Heq. rewrite repeat_length in Heq. lia.
    + exists size. by rewrite Hpay, Z.max_r by lia.
Qed.

(** [PadPacketToMinimumSize] makes the payload of the first Ethernet header at least 46 bytes long
    by adding exactly the zeros that are missing to the packet's payload; it leaves other packets
    alone, reports whether it changed the packet, and a second call changes nothing. *)
Theorem pad_to_minimum_spec (packet packet' : Packet) (changed : bool) :
  zlen (payload packet) < 2 ^ 28 → PadPacketToMinimumSize packet = Ok (packet', changed) →
  headers packet' = headers packet ∧ PadPacketToMinimumSize packet' = Ok (packet', false) ∧
  (changed = false ↔ packet' = packet) ∧
  match first_ethernet 0 (headers packet) with
  | None => packet' = packet
  | Some index =>
    ∃ size, PacketSizeInBytes packet (index + 1) = Ok size ∧
      payload packet' = payload packet ++ zeros (kMinNumBytesInEthernetPayload - size) ∧
      PacketSizeInBytes packet' (index + 1) = Ok (Z.max size kMinNumBytesInEthernetPayload)
  end.
Proof.
  unfold PadPacketToMinimumSize, PadPacketToMinimumSizeFromHeaderIndex. change (Z.of_nat 0) with 0.
  change (drop 0 (headers packet)) with (headers packet). change (drop 0 (headers packet')) with (headers packet').
  rewrite !pad_from_first. destruct (first_ethernet 0 (headers packet)) as [index|] eqn:Hfirst.
  - intros Hp Hpad. destruct (pad_ethernet_spec _ _ _ _ Hp Hpad) as (Hh & Hagain & Hc & Hsize).
    split; [done|]. rewrite Hh, Hfirst. done.
  - intros _ [= <- <-]. by rewrite Hfirst.
Qed.
End missing.

Lemma update_missing_keeps_present_witness :
  UpdateMissingComputedFields unfinished_udp_packet = Ok (finished_udp_packet, true) ∧
  Forall2 filled (headers unfinished_udp_packet) (headers finished_udp_packet) ∧
  finished_udp_packet ≠ unfinished_udp_packet.
Proof.
  assert (UpdateMissingComputedFields unfinished_udp_packet = Ok (finished_udp_packet, true)) as Hu
    by (vm_compute; reflexivity).
  destruct (update_missing_keeps_present unfinished_udp_packet finished_udp_packet true Hu) as (Hf & _ & Hc & _).
  split; [exact Hu|]. split; [exact Hf|]. apply Hc. reflexivity.
Defined.

Lemma pad_packet_spec_witness :
  ∃ packet', PadPacket 70 finished_udp_packet = Ok (packet', true) ∧
    payload packet' = payload finished_udp_packet ++ zeros 3 ∧ PacketSizeInBytes packet' 0 = Ok 70.
Proof.
  destruct (PadPacket 70 finished_udp_packet) as [[packet' changed]| |] eqn:Hp; [|vm_compute in Hp; discriminate..].
  destruct (pad_packet_spec 70 finished_udp_packet packet' changed) as (size & Hs & _ & Hpay & Hsize & Hc);
    [lia|reflexivity|exact Hp|].
  vm_compute in Hs. injection Hs as <-. exists packet'. split; [by rewrite Hc|]. split; [exact Hpay|exact Hsize].
Defined.

Lemma pad_to_minimum_spec_witness :
  ∃ packet', PadPacketToMinimumSize (set_payload finished_udp_packet []) = Ok (packet', true) ∧
    payload packet' = zeros 18 ∧ PadPacketToMinimumSize packet' = Ok (packet', false).
Proof.
  destruct (PadPacketToMinimumSize (set_payload finished_udp_packet [])) as [[packet' changed]| |] eqn:Hp;
    [|vm_compute in Hp; discriminate..].
  destruct (pad_to_minimum_spec (set_payload finished_udp_packet []) packet' changed) as (_ & Hagain & _ & Hf);
    [reflexivity|exact Hp|].
  assert (changed = true) as -> by (vm_compute in Hp; by injection Hp).
  exists packet'. split; [reflexivity|]. split; [|exact Hagain].
  cbn [first_ethernet headers set_payload finished_udp_packet example_udp_packet] in Hf.
  destruct Hf as (size & Hs & Hpay & _). vm_compute in Hs. injection Hs as <-. exact Hpay.
Defined.
