(* ===== verification/PacketCrash.v ===== *)
(** Parsing and validating packets never aborts, but for the two cases that the model shows. *)
From S2P Require Import Prelude Bitset ByteString Abseil HexString NetAddr NetAddrText BitString Packet PacketRoundtrip PacketChecks PacketUpdate PacketSize PacketValid.

Section no_die.
Context `{AbslStringsLaws} `{!Ipv6.Inet}.

Lemma HexStringToBitset_no_die n s : 0 ≤ n → no_die (HexStringToBitset n s).
Proof.
  intros Hn. unfold HexStringToBitset. rewrite HexStringToAnyLargeEnoughBitset_spec by done. unfold parse_hex. no_die.
Qed.

Lemma HexCharToDigit_no_die c : no_die (HexCharToDigit c).
Proof. unfold HexCharToDigit. no_die. Qed.
#[local] Hint Resolve HexCharToDigit_no_die : no_die.

Lemma hex_pairs_no_die s res : no_die (hex_pairs_loop s res).
Proof.
  remember (length s) as k eqn:Hk. revert s res Hk. induction k as [k IH] using lt_wf_ind. intros s res Hk.
  destruct s as [|a [|b s]]; cbn [hex_pairs_loop]; [done..|]. no_die. apply (IH (length s)); [subst k; cbn; lia|done].
Qed.
#[local] Hint Resolve hex_pairs_no_die : no_die.

Lemma HexStringToByteString_no_die s : no_die (HexStringToByteString s).
Proof. unfold HexStringToByteString. no_die. Qed.
#[local] Hint Resolve HexStringToByteString_no_die : no_die.

Lemma options_size_no_die s : no_die (options_size s).
Proof. unfold options_size. no_die. Qed.
#[local] Hint Resolve options_size_no_die : no_die.

Lemma PacketSizeInBits_no_die packet i : no_die (PacketSizeInBits packet i).
Proof.
  unfold PacketSizeInBits. no_die. apply fold_result_no_die. intros s header. no_die.
  destruct header; cbn [header_size]; no_die.
Qed.
#[local] Hint Resolve PacketSizeInBits_no_die : no_die.

Lemma PacketSizeInBytes_no_die packet i : no_die (PacketSizeInBytes packet i).
Proof. unfold PacketSizeInBytes. no_die. Qed.
#[local] Hint Resolve PacketSizeInBytes_no_die : no_die.

Lemma parse_bytes_no_die n parse pieces bits : no_die (Mac.parse_bytes n parse pieces bits).
Proof. revert bits. induction pieces; intros bits; cbn [Mac.parse_bytes]; no_die. Qed.
#[local] Hint Resolve parse_bytes_no_die : no_die.

Lemma OfString_no_die s : no_die (Mac.OfString s) ∧ no_die (Ipv4.OfString s) ∧ no_die (Ipv6.OfString s).
Proof. unfold Mac.OfString, Ipv4.OfString, Ipv6.OfString. split_and!; no_die. Qed.

Lemma SerializeBits_no_die n s output : 0 ≤ n → no_die (SerializeBits n s output).
Proof. intros Hn. unfold SerializeBits. no_die. by apply HexStringToBitset_no_die. Qed.

Lemma SerializeAddress_no_die s output :
  no_die (SerializeMacAddress s output) ∧ no_die (SerializeIpv4Address s output) ∧ no_die (SerializeIpv6Address s output).
Proof.
  destruct (OfString_no_die s) as (? & ? & ?).
  unfold SerializeMacAddress, SerializeIpv4Address, SerializeIpv6Address, SerializeAddress. split_and!; no_die.
Qed.

Lemma AppendHexString_no_die s output : no_die (AppendHexString s output).
Proof. unfold AppendHexString. no_die. Qed.
#[local] Hint Resolve AppendHexString_no_die : no_die.

Lemma SerializeMac_no_die s output : no_die (SerializeMacAddress s output).
Proof. apply SerializeAddress_no_die. Qed.
Lemma SerializeIpv4_no_die s output : no_die (SerializeIpv4Address s output).
Proof. apply SerializeAddress_no_die. Qed.
Lemma SerializeIpv6_no_die s output : no_die (SerializeIpv6Address s output).
Proof. apply SerializeAddress_no_die. Qed.
#[local] Hint Resolve SerializeBits_no_die SerializeMac_no_die SerializeIpv4_no_die SerializeIpv6_no_die : no_die.
#[local] Hint Extern 1 (0 ≤ _) => first [done | lia] : no_die.

Lemma SerializeHeader_no_die header output : no_die (SerializeHeader header output).
Proof.
  destruct header; cbn [SerializeHeader]; autounfold with headers; unfold serialize_options; no_die.
Qed.

Lemma RawSerializeFrom_no_die packet i output : no_die (RawSerializeFrom packet i output).
Proof. unfold RawSerializeFrom, serialize_headers. no_die. apply fold_result_no_die. intros. apply SerializeHeader_no_die. Qed.
#[local] Hint Resolve RawSerializeFrom_no_die : no_die.

(** The fuel of the loops of the checksum is enough whatever the packet, sums that overflow included. *)
Lemma sum_loop_no_die fuel data sum : (length data < fuel)%nat → no_die (sum_loop fuel data sum).
Proof.
  revert data sum. induction fuel as [|fuel IH]; intros data sum Hf; [lia|]. cbn [sum_loop].
  unfold ConsumeBitset, Consume, size, zlen. destruct (Z.eqb_spec (Z.of_nat (length data)) 0); [done|].
  cbn [Z.ltb Z.compare]. destruct (Z.ltb_spec (Z.of_nat (length data)) 16); cbn; [done|].
  apply IH. rewrite length_drop. lia.
Qed.

Lemma sum_loop_int fuel data sum sum' : sum_loop fuel data sum = Ok sum' → - 2 ^ 31 ≤ sum < 2 ^ 31 → - 2 ^ 31 ≤ sum' < 2 ^ 31.
Proof.
  revert data sum. induction fuel as [|fuel IH]; intros data sum; [done|]. cbn [sum_loop].
  destruct (_ =? 0); [by intros [= <-]|]. destruct (ConsumeBitset 16 data) as [[w d]| |]; [|done..].
  intros Hs _. eapply IH; [exact Hs|]. unfold wrapS. pose proof (Z.mod_pos_bound (sum + w + 2 ^ (32 - 1)) (2 ^ 32)). lia.
Qed.

Lemma carry_loop_total sum : - 2 ^ 31 ≤ sum < 2 ^ 31 → ∃ r, carry_loop 4 sum = Ok r.
Proof.
  intros Hs.
  assert (∀ fuel s, (0 ≤ s < 65536 ∨ ∃ r, carry_loop fuel (s mod 65536 + s / 65536) = Ok r) →
    ∃ r, carry_loop (S fuel) s = Ok r) as Hstep.
  { intros fuel s Hor. cbn [carry_loop]. rewrite Z.shiftr_div_pow2 by lia. change 0xffff with (Z.ones 16).
    rewrite Z.land_ones by lia. change (2 ^ 16) with 65536.
    destruct (Z.eqb_spec (s / 65536) 0) as [|Hq]; [by eexists|]. destruct Hor as [Hlt|]; [|done].
    by rewrite Z.div_small in Hq. }
  apply Hstep. right. apply Hstep. right. apply Hstep. left. Z.div_mod_to_equations; lia.
Qed.

Lemma OnesComplementChecksum_no_die data : no_die (OnesComplementChecksum data).
Proof.
  unfold OnesComplementChecksum.
  destruct (sum_loop _ _ 0) as [sum| |] eqn:Hs; [|done|].
  - rewrite bind_Ok_l. destruct (carry_loop_total sum) as [r ->]; [by eapply sum_loop_int|done].
  - exfalso. revert Hs. apply sum_loop_no_die. lia.
Qed.
#[local] Hint Resolve OnesComplementChecksum_no_die : no_die.

Lemma SerializeIpv4Header_no_die header output : no_die (SerializeIpv4Header header output).
Proof. exact (SerializeHeader_no_die (ipv4_header header) output). Qed.
#[local] Hint Resolve SerializeIpv4Header_no_die : no_die.

Lemma Ipv4HeaderChecksum_no_die header : no_die (Ipv4HeaderChecksum header).
Proof. unfold Ipv4HeaderChecksum. no_die. Qed.
#[local] Hint Resolve Ipv4HeaderChecksum_no_die : no_die.

(** * Where the code aborts *)

(** A packet whose second header follows nothing but IPv6 options has no preceding IP header:
    [FindPrecedingIpHeader] gives the index -1. *)
Definition has_no_ip_header (packet : Packet) (index : Z) : Prop :=
  index = 1 ∧ ∃ header, headers packet !! 0%nat = Some (hop_by_hop_options_header header).

Lemma packet_header_no_die packet i : 0 ≤ i < zlen (headers packet) → no_die (packet_header packet i).
Proof.
  intros Hi. unfold packet_header. rewrite (proj2 (Z.ltb_ge _ _)) by lia.
  destruct (headers packet !! Z.to_nat i) eqn:Hl; [done|]. apply lookup_ge_None in Hl. unfold zlen in Hi. lia.
Qed.

Lemma FindPreceding_range packet index :
  1 ≤ index < zlen (headers packet) → ¬ has_no_ip_header packet index →
  ∃ i, FindPrecedingIpHeader packet index = Ok i ∧ 0 ≤ i < index.
Proof.
  intros Hi Hn. unfold FindPrecedingIpHeader. rewrite (proj2 (Z.leb_le _ _)) by lia.
  destruct (packet_header packet (index - 1)) as [h| |] eqn:Hh; [| |by exfalso; revert Hh; apply packet_header_no_die; lia].
  - rewrite bind_Ok_l. case_bool_decide as Hc; [|eexists; split; [done|lia]].
    eexists; split; [done|]. destruct (decide (index = 1)) as [->|]; [|lia]. exfalso. apply Hn. split; [done|].
    unfold packet_header in Hh. change (1 - 1 <? 0) with false in Hh. change (Z.to_nat (1 - 1)) with 0%nat in Hh.
    destruct (headers packet !! 0%nat) as [h'|]; [|done]. injection Hh as ->.
    destruct h; try done. by eexists.
  - unfold packet_header in Hh. destruct (_ <? 0); [done|]. by destruct (_ !! _).
Qed.

Lemma UdpHeaderChecksum_no_die packet index : ¬ has_no_ip_header packet index → no_die (UdpHeaderChecksum packet index).
Proof.
  intros Hn. unfold UdpHeaderChecksum. destruct (Z.ltb_spec index 1); [done|].
  destruct (Z.leb_spec (zlen (headers packet)) index); [done|].
  destruct (FindPreceding_range packet index) as (i & -> & Hi); [lia|done|]. rewrite bind_Ok_l.
  apply no_die_bind; [apply packet_header_no_die; lia|intros preceding].
  apply no_die_bind; [apply packet_header_no_die; lia|intros header].
  destruct header; try done. destruct preceding; no_die.
Qed.

Lemma IcmpHeaderChecksum_no_die packet index : ¬ has_no_ip_header packet index → no_die (IcmpHeaderChecksum packet index).
Proof.
  intros Hn. unfold IcmpHeaderChecksum. destruct (Z.ltb_spec index 1); [done|].
  destruct (Z.leb_spec (zlen (headers packet)) index); [done|]. cbn [orb].
  apply no_die_bind; [apply packet_header_no_die; lia|intros header].
  destruct header; try done. set (packet' := set_header _ _ _).
  assert (zlen (headers packet') = zlen (headers packet)) as Hl by (unfold zlen, packet'; cbn; by rewrite length_insert).
  destruct (FindPreceding_range packet' index) as (i & -> & Hi); [lia| |].
  - intros [-> (h & Hh)]. apply Hn. split; [done|]. exists h. unfold packet' in Hh. cbn [set_header headers] in Hh.
    by rewrite list_lookup_insert_ne in Hh by done.
  - rewrite bind_Ok_l. apply no_die_bind; [apply packet_header_no_die; lia|intros preceding].
    destruct preceding; no_die.
Qed.

Lemma GreHeaderChecksum_no_die packet index : 0 ≤ index → no_die (GreHeaderChecksum packet index).
Proof.
  intros Hi. unfold GreHeaderChecksum. destruct (Z.leb_spec (zlen (headers packet)) index); [done|].
  apply no_die_bind; [apply packet_header_no_die; lia|intros header]. destruct header; no_die.
Qed.
#[local] Hint Resolve GreHeaderChecksum_no_die : no_die.

(** * Checks that return *)

Definition returns {A} (c : check A) : Prop := ∃ x, c = Ok x.

Lemma returns_ret {A} (a : A) : returns (check_ret a).
Proof. by eexists. Qed.
Lemma returns_push reason : returns (push_back reason).
Proof. by eexists. Qed.
Lemma returns_push_if b reason : returns (push_if b reason).
Proof. destruct b; by eexists. Qed.
Lemma returns_bind {A B} (c : check A) (k : A → check B) : returns c → (∀ a, returns (k a)) → returns (c ≫= k).
Proof.
  intros [[a o] ->] Hk. destruct (Hk a) as [[b o'] Hb]. exists (b, o ++ o'). unfold mbind, check_bind. by rewrite Hb.
Qed.
Lemma returns_status {A B} (c : result A) (failed : check B) (k : A → check B) :
  no_die c → (∀ e, c = Err e → returns failed) → (∀ a, c = Ok a → returns (k a)) → returns (check_status c failed k).
Proof. unfold no_die, check_status. destruct c; naive_solver. Qed.
Create HintDb returns.
#[local] Hint Resolve returns_ret returns_push returns_push_if : returns.

Ltac returns := repeat first
  [ solve [auto with returns no_die]
  | apply returns_bind; [|intros ?]
  | apply returns_status; [auto with no_die|intros ? ?|intros ? ?]
  | match goal with |- returns (if ?b then _ else _) => destruct b eqn:? end
  | match goal with |- returns (match ?r with _ => _ end) => destruct r eqn:? end ].

Lemma returns_address i OfString s field : returns (AddressInvalidReasons i OfString s field).
Proof. unfold AddressInvalidReasons. returns. Qed.
Lemma returns_mac i s field : returns (MacAddressInvalidReasons i s field).
Proof. apply returns_address. Qed.
Lemma returns_ipv4 i s field : returns (Ipv4AddressInvalidReasons i s field).
Proof. apply returns_address. Qed.
Lemma returns_ipv6 i s field : returns (Ipv6AddressInvalidReasons i s field).
Proof. apply returns_address. Qed.
Lemma returns_hex i n s field : returns (HexStringInvalidReasons i n s field).
Proof. unfold HexStringInvalidReasons. returns. Qed.
Lemma returns_ipv4_options i s : returns (Ipv4UninterpretedOptionsInvalidReasons i s).
Proof. unfold Ipv4UninterpretedOptionsInvalidReasons. returns. Qed.
Lemma returns_tcp_options i s : returns (TcpUninterpretedOptionsInvalidReasons i s).
Proof. unfold TcpUninterpretedOptionsInvalidReasons. returns. Qed.
Lemma returns_gre_options i s t : returns (GreOptionalFieldsInvalidReasons i s t).
Proof. unfold GreOptionalFieldsInvalidReasons, gre_optional_invalid. returns. Qed.
Lemma returns_must_equal i s e field : returns (must_equal i s e field).
Proof. unfold must_equal. returns. Qed.
Lemma returns_must_equal_if i b s e field : returns (must_equal_if i b s e field).
Proof. unfold must_equal_if, must_equal. returns. Qed.
Lemma returns_computed i n s c e field : no_die c → returns (must_be_computed i n s c e field).
Proof. intros Hc. unfold must_be_computed, must_equal. returns. Qed.
Lemma returns_length packet i n s start e field : returns (length_check packet i n s start e field).
Proof. unfold length_check. apply returns_computed. auto with no_die. Qed.

Lemma returns_options_loop i fuel bytes : (length bytes < fuel)%nat → returns (options_loop i fuel bytes).
Proof.
  revert bytes. induction fuel as [|fuel IH]; intros bytes Hf; [lia|]. cbn [options_loop].
  destruct bytes as [|t bytes]; [returns|]. cbn [length] in Hf. returns; [apply IH; lia|].
  apply IH. rewrite length_drop. cbn [length] in Hf. lia.
Qed.

Lemma returns_hop_by_hop i s : returns (HopByHopOptionsInvalidOptionsAndPadding i s).
Proof. unfold HopByHopOptionsInvalidOptionsAndPadding. returns. apply returns_options_loop. lia. Qed.

#[local] Hint Resolve returns_mac returns_ipv4 returns_ipv6 returns_hex returns_ipv4_options returns_tcp_options
  returns_gre_options returns_must_equal returns_must_equal_if returns_length returns_hop_by_hop returns_computed : returns.

(** A small field that is well formed is an [int]. *)
Lemma HexStringToInt_small n s v : 0 ≤ n ≤ 32 → HexStringToBitset n s = Ok v → ∃ z, HexStringToInt s = Ok z.
Proof.
  intros Hn. unfold HexStringToBitset, HexStringToInt, HexStringTo. destruct (_ && _); [done|].
  rewrite !HexStringToAnyLargeEnoughBitset_spec by lia. destruct (ConsumePrefix s _) as [h|]; [|done].
  unfold parse_hex. destruct (hex_digits h) as [ds|]; [|done].
  destruct (Z.ltb_spec (hex_value ds) (2 ^ n)); [|done]. intros _.
  pose proof (Z.pow_le_mono_r 2 n 32). rewrite (proj2 (Z.ltb_lt _ _)) by lia. by eexists.
Qed.

(** What makes the validation of a header abort. *)
Definition aborts (packet : Packet) (i : nat) (header : Header) : Prop :=
  match header with
  | ethernet_header header => ¬ ∃ ethertype, HexStringToInt (EthernetHeader.ethertype header) = Ok ethertype
  | udp_header _ | icmp_header _ => has_no_ip_header packet (Z.of_nat i)
  | _ => False
  end.

Lemma HexStringToInt_no_die s : no_die (HexStringToInt s).
Proof.
  unfold HexStringToInt, HexStringTo. rewrite HexStringToAnyLargeEnoughBitset_spec by lia. unfold parse_hex. no_die.
Qed.
#[local] Hint Resolve HexStringToInt_no_die : no_die.

Lemma returns_ethernet packet i h :
  ¬ aborts packet i (ethernet_header h) → returns (EthernetHeaderInvalidReasons packet i h).
Proof.
  cbn [aborts]. intros Ha. unfold EthernetHeaderInvalidReasons. returns.
  exfalso. apply Ha. intros (t & Ht). congruence.
Qed.

Lemma returns_udp packet i h : ¬ aborts packet i (udp_header h) → returns (UdpHeaderInvalidReasons packet i h).
Proof.
  cbn [aborts]. intros Ha. pose proof (UdpHeaderChecksum_no_die packet _ Ha). unfold UdpHeaderInvalidReasons. returns.
Qed.

Lemma returns_icmp packet i h :
  (i < length (headers packet))%nat → ¬ aborts packet i (icmp_header h) → returns (IcmpHeaderInvalidReasons packet i h).
Proof.
  cbn [aborts]. intros Hi Ha. pose proof (IcmpHeaderChecksum_no_die packet _ Ha). unfold IcmpHeaderInvalidReasons.
  do 4 (apply returns_bind; [auto with returns|intros ?]).
  destruct (Z.leb_spec (Z.of_nat i) 0); [returns|].
  destruct (FindPreceding_range packet (Z.of_nat i)) as (j & Hj & Hr); [unfold zlen; lia|done|].
  pose proof (packet_header_no_die packet j ltac:(unfold zlen; lia)). rewrite Hj. unfold check_status at 1. returns.
Qed.

Lemma returns_sai i h : returns (SaiP4BMv2PacketInHeaderInvalidReasons i h).
Proof.
  unfold SaiP4BMv2PacketInHeaderInvalidReasons. do 2 (apply returns_bind; [auto with returns|intros ?]).
  unfold HexStringInvalidReasons. case_bool_decide; [by eexists|].
  destruct (HexStringToBitset _ _) as [v|e|] eqn:Hv; [|by eexists..].
  destruct (HexStringToInt_small kSaiP4BMv2PacketInUnusedPadBitwidth _ _ ltac:(done) Hv) as (z & Hz).
  cbn [is_Ok negb]. apply returns_bind; [returns|].
  intros b. destruct b; [returns|]. rewrite Hz. unfold check_status. returns.
Qed.

Lemma returns_header packet i header :
  (i < length (headers packet))%nat → ¬ aborts packet i header → returns (HeaderInvalidReasons packet i header).
Proof.
  intros Hi Ha. destruct header; cbn [HeaderInvalidReasons];
    auto using returns_ethernet, returns_udp, returns_icmp, returns_sai; autounfold with checks; returns.
Qed.

(** [PacketInvalidReasons] returns unless one of its headers makes it abort. *)
Lemma PacketInvalidReasons_returns packet :
  (∀ i header, headers packet !! i = Some header → ¬ aborts packet i header) →
  ∃ reasons, PacketInvalidReasons packet = Ok reasons.
Proof.
  intros Ha. assert (returns (packet_checks packet)) as [[u r] Hr].
  { unfold packet_checks. destruct (packet_empty packet); [returns|]. apply returns_bind; [returns|intros _].
    apply returns_bind; [|intros; returns].
    assert (∀ hs i expected, (∀ j header, hs !! j = Some header → headers packet !! (i + j)%nat = Some header) →
      returns (headers_loop packet i expected hs)) as Hloop; [|by apply Hloop].
    induction hs as [|header hs IH]; intros i expected Hhs; cbn [headers_loop]; [returns|].
    assert (headers packet !! i = Some header) as Hi by (specialize (Hhs 0%nat header eq_refl); by rewrite Nat.add_0_r in Hhs).
    assert (∀ j h, hs !! j = Some h → headers packet !! (S i + j)%nat = Some h) as Hhs'.
    { intros j h Hj. specialize (Hhs (S j) h Hj). by rewrite Nat.add_succ_r in Hhs. }
    apply returns_bind; [apply returns_header; [by eapply lookup_lt_Some|by apply Ha]|intros _].
    case_bool_decide; [by apply IH|]. apply returns_bind; [returns|intros _; by apply IH]. }
  exists r. unfold PacketInvalidReasons. by rewrite Hr.
Qed.

(** C28.  [ParsePacket] returns on every input, without aborting and without an error, and loses nothing:
    whatever reasons it finds why the packet is invalid, the packet serializes to the bytes parsed.
    The first header must not be the IPv6 hop-by-hop options, after which [FindPrecedingIpHeader]
    leaves the packet. *)
Theorem parse_packet_total `{!Ipv6.InetLaws} (input : str) (first_header : HeaderCase) :
  first_header ≠ kHopByHopOptionsHeader →
  ∃ packet, ParsePacket input first_header = Ok packet ∧ RawSerializePacket packet = Ok input.
Proof.
  intros Hfirst. destruct (ParseHeaders_spec input first_header) as (p & Hp & Hchain & _ & Hnext & Hraw).
  destruct (PacketInvalidReasons_returns p) as (reasons & Hr).
  - intros i header Hi. rewrite Forall_lookup in Hnext. destruct (Hnext i header Hi) as (next & Hn).
    destruct header; cbn [aborts]; try (by intros []).
    + intros Ha. apply Ha. cbn [GetNextHeader] in Hn. unfold GetNextHeaderForEtherType in Hn.
      destruct (HexStringToInt _) as [z| |]; [by exists z|done..].
    + intros [_ (h & Hh)]. destruct (headers p) as [|h0 hs]; [done|]. injection Hh as ->.
      apply Hfirst. by destruct Hchain.
    + intros [_ (h & Hh)]. destruct (headers p) as [|h0 hs]; [done|]. injection Hh as ->.
      apply Hfirst. by destruct Hchain.
  - unfold ParsePacket. rewrite Hp, bind_Ok_l, Hr, bind_Ok_l. eexists. split; [done|].
    unfold RawSerializePacket, RawSerializeFrom in *. done.
Qed.
End no_die.

(** * Examples *)

Definition example_ethernet (ethertype : str) : Header :=
  ethernet_header (EthernetHeader.mk $"00:11:22:33:44:55" $"66:77:88:99:aa:bb" ethertype).

(** Validating an Ethernet header without an EtherType aborts. *)
Example missing_ethertype_aborts : PacketInvalidReasons (mkPacket [example_ethernet []] [] [] []) = Die.
Proof. vm_compute. reflexivity. Qed.

(** So does parsing IPv6 hop-by-hop options, with no IPv6 header before, and UDP. *)
Example options_first_aborts :
  ParsePacket (map char_of [0x11; 0; 1; 4; 0; 0; 0; 0; 0; 1; 0; 2; 0; 8; 0; 9]) kHopByHopOptionsHeader = Die.
Proof. vm_compute. reflexivity. Qed.

(** A GRE header without a protocol type passes the validation and cannot be serialized. *)
Definition gre_without_protocol : Packet :=
  mkPacket [gre_header (GreHeader.mk $"0x0" $"0x000" $"0x0" [] [] [])] [] [] [].
Example gre_protocol_type_unchecked :
  PacketInvalidReasons gre_without_protocol = Ok [] ∧ SerializePacket gre_without_protocol = Err kInvalidArgument.
Proof. vm_compute. split; reflexivity. Qed.

(** An IPv4 header with eleven words of options, more than its length field can count: the length
    expected wraps to 0, with which the header passes the validation; parsed back, its options are
    taken for the payload. *)
Definition ipv4_with_long_options : Packet :=
  mkPacket [ipv4_header (Ipv4Header.mk $"0x4" $"0x0" $"0x00" $"0x0" $"0x0040" $"0x0000" $"0x0" $"0x0000" $"0x40"
    $"0xfd" $"0xfca8" $"192.168.0.1" $"192.168.0.199" ($"0x" ++ repeat "0"%char 88))] [] [] [].
Example ipv4_header_length_wraps :
  PacketInvalidReasons ipv4_with_long_options = Ok [] ∧
  match (bytes ← SerializePacket ipv4_with_long_options; ParsePacket bytes kIpv4Header) with
  | Ok packet => zlen (payload packet) = 44 ∧ reasons_invalid packet ≠ []
  | _ => False
  end.
Proof. vm_compute. split; [reflexivity|]. split; [reflexivity|discriminate]. Qed.

(** The trailer of an ARP packet is the whole packet. *)
Definition arp_packet : Packet :=
  mkPacket [example_ethernet $"0x0806"; arp_header (ArpHeader.mk $"0x0001" $"0x0800" $"0x06" $"0x04" $"0x0001"
    $"66:77:88:99:aa:bb" $"192.168.0.1" $"00:00:00:00:00:00" $"192.168.0.2")] (repeat zero 18) [] [].
Example arp_trailer_is_packet :
  PacketInvalidReasons arp_packet = Ok [] ∧
  bool_decide (GetEthernetTrailer arp_packet = RawSerializePacket arp_packet) && is_Ok (RawSerializePacket arp_packet) = true.
Proof. vm_compute. split; reflexivity. Qed.

Lemma parse_packet_total_witness :
  kEthernetHeader ≠ kHopByHopOptionsHeader ∧
  ∃ packet, ParsePacket tagged_frame kEthernetHeader = Ok packet ∧ RawSerializePacket packet = Ok tagged_frame.
Proof. split; [discriminate|]. apply (parse_packet_total tagged_frame kEthernetHeader). discriminate. Defined.
